(* ===== verification/_CoqProject ===== *)
-Q . S2P
Prelude.v
GoError.v
Binary.v
Ranges.v
IdSet.v
IdSetFacts.v
Varint.v
IdSetSpec.v
GoText.v
YTypes.v
DeleteSet.v
Decoder.v
DecoderFacts.v
Content.v
Update.v
UpdateFacts.v
UpdateStream.v
UpdateEncode.v
UpdateSpec.v
Aggregate.v
Merge.v
MergeFacts.v
MergeSpec.v
StateVector.v
StateVectorFacts.v
DiffSpec.v
ContentIDs.v
StorageTypes.v
NodeFrame.v
NodeMessage.v
NodeSpec.v
MemoryStore.v
StoreSpec.v
ClusterTypes.v
Effects.v
ClusterIO.v
Leases.v
Ownership.v
Runtime.v
Rebalance.v
LeaseFacts.v
ClusterSpec.v
RuntimeSpec.v
RebalanceSpec.v
GoJson.v
GoFloat.v
GoAny.v
Awareness.v
AwarenessSpec.v
YProtocol.v
YStream.v
YProtocolSpec.v
Lib0.v
DecoderV2.v
EncodeV2.v
Facade.v
WireCompat.v
Gc.v
Snapshot.v
Session.v
Http.v
HttpNode.v
Replay.v
Provider.v
Server.v
Forward.v
ProviderFacts.v
ReplayFacts.v
Lib0Facts.v
WireFacts.v
CodecV2Facts.v
CodecV2Spec.v
SnapshotSpec.v
FormatSpec.v
ReplayDocs.v
ReplaySpec.v
WireSpec.v
ProviderSpec.v
HttpSpec.v
ServerSpec.v
