(* ===== verification/Prelude.v ===== *)
(** * A verification of yjs-go-bridge

    The program keeps collaborative documents of Yjs in Go: it reads and writes
    the binary updates of Yjs in both of their formats, merges, cuts and compares
    them, speaks the y-protocols on streams, stores documents as snapshots with a
    log of updates, and shares the documents among the nodes of a cluster by
    leases.  The development translates that core into functions and relations
    and proves what each layer promises to the next one.

    ** The parts of the program and the files that model them

    Every file opens with the source files it translates; definitions keep the
    names of the source ([T_m] is the method [m] of the type [T] where the method's
    name alone would be ambiguous).

    - Foundations.  [Prelude] (machine integers, tactics, lists), [GoError] (error
      values, wrapping, [errors.Is] and [errors.As], the result type and its
      monad), [GoText] (UTF-8 and UTF-16, strings, times), [GoJson] (validation and
      compaction of encoding/json), [GoFloat] (floats as bit patterns, conversions,
      decimal text), [GoAny] (the values encoding/json decodes to, and their text).
    - Computations.  [Effects]: a call is a tree of actions on a state, run alone, with
      interference between its actions (rely conditions, [wp] and [always]), or in a
      pool of calls whose actions any schedule interleaves.
    - Bytes: internal/varint and internal/binary.  [Binary], [Varint].
    - Sets of (client, clock): internal/yidset.  [Ranges], [IdSet], [IdSetFacts];
      [IdSetSpec].
    - Structs: internal/ytypes.  [YTypes], [DeleteSet].
    - Updates in the V1 format: internal/yupdate.  [Decoder], [Content], [Update]
      (lazy reader, lazy writer, [DecodeV1], [EncodeV1], slicing) with the theory
      in [DecoderFacts], [UpdateFacts], [UpdateStream], [UpdateEncode];
      [UpdateSpec].
    - Operations on V1 updates.  [Aggregate] (the worker pool), [Merge],
      [StateVector] (state vectors and differences), [ContentIDs] (content ids and
      intersections), with [MergeFacts], [StateVectorFacts];
      [MergeSpec], [DiffSpec].
    - Updates in the V2 format and the public API.  [Lib0] (column codecs),
      [DecoderV2], [EncodeV2], [Facade] (detection of the format, and the API that
      relies on it), [Gc], [Snapshot], with [Lib0Facts], [CodecV2Facts];
      [CodecV2Spec], [FormatSpec], [SnapshotSpec].
    - The wire of Yjs: internal/yupdate/wire_compat.go.  [WireCompat] rewrites the
      JSON of embeds and formats to lib0 values and back; [WireFacts]; [WireSpec].
    - Presence: internal/yawareness.  [Awareness]; [AwarenessSpec].
    - Messages: internal/yprotocol and pkg/yprotocol.  [YProtocol], [YStream];
      [YProtocolSpec].
    - Sessions and rooms: pkg/yprotocol/session.go and provider.go.  [Session];
      [Provider] (the rooms of the open documents, their mutexes, connections,
      loads and the store below them), [ProviderFacts] (which calls hold what, and
      what they leave in order); [ProviderSpec].
    - Frames between nodes: pkg/ynodeproto.  [NodeFrame], [NodeMessage];
      [NodeSpec].
    - Storage: pkg/storage and pkg/storage/memory.  [StorageTypes], [MemoryStore],
      [StoreSpec].
    - Replay, recovery and compaction of the update log: pkg/storage/replay.go and
      the like.  [Replay], [ReplayFacts], [ReplayDocs]; [ReplaySpec].
    - Cluster: pkg/ycluster.  [ClusterTypes] (identifiers, shards, conversions),
      [ClusterIO] (computations on shared storage), [Leases] (lookups, fences,
      leases over the storage, the lease manager), [Ownership] (the coordinator of
      document ownership), [Runtime] (the run of a document's ownership that local
      callers share), [Rebalance] (membership, plans, the controller), with
      [LeaseFacts]; [ClusterSpec], [RuntimeSpec], [RebalanceSpec].
    - The guards of the HTTP layer and the speech of its nodes: pkg/yhttp.  [Http]
      (authentication, origins, formats, rate limits, quotas, redaction, routing
      decisions, statuses), [HttpNode] (credentials between nodes, translation of
      messages, handshakes and the checks of routes); [HttpSpec].
    - Its handlers and sessions.  [Server] (server.go, owner_aware.go,
      authority_revalidation.go and the peers that write), [Forward]
      (remote_owner_forward.go, remote_owner_endpoint.go, and the channels and
      registries that calls share); [ServerSpec].

    ** How the code is represented

    Integers are [Z] with the wrap-around written out ([w8], [w32], [w64]); bytes,
    strings and slices are lists; Go maps are [gmap], and an operation that ranges
    over a map either sorts its keys, as the source does, or is a relation or
    commutes with the order.  A function that returns an error returns [result].
    Readers and writers are state records passed along, returned on failure too
    where the caller goes on using them.  A type parameter stands for an interface
    of the source, with a class for its methods (item contents, byte readers,
    streams, messages, storages).

    The in-memory store holds one mutex per operation, so an operation is a step
    from store to store, and its theorems quantify over every history of such
    steps.  Everything above the store calls it without a lock across calls, so it is
    a computation of [Effects] over single operations, between any two of which
    others act: the packages of the cluster ([ClusterIO], against the class
    [StorageLaws], which the in-memory store satisfies), the replay of the log, and
    the rooms of a provider.  For a provider the mutex of a room is an action that
    takes it and one that gives it back, a section under the mutex of the provider
    is one action, and an action that is not possible yet makes its call wait.
    What others may do in between is a relation on states in each theorem; two
    theorems of the provider and two of the ownership runtime quantify over all
    schedules of all calls instead.  In the runtime a wait on a channel is an action
    that is not possible before the channel is closed, and a goroutine is a
    computation that begins some time after the call that starts it.
    Loads of a room that callers share (golang.org/x/sync/singleflight) and the
    resolver of fences are parameters (the class [Services]); a caller that joins a
    load goes on when it has ended.
    A handler of HTTP is a computation too: its actions are the calls of hooks, of the
    provider, of the ownership runtime, of sockets and streams, and the operations
    on contexts and channels; a goroutine it starts is handed to a worker that
    begins some time later.  Its theorems hold for every answer to every action, so
    that they do not depend on the rest of the world, and read the sequence of
    actions of a run with an automaton.

    Loops that are not structural take fuel.  The fuel is a bound the source
    implies (the bytes left in a reader, the clocks of a range, the structs of a
    list, the documents of a plan), the callers pass it, and theorems show that it
    is enough: [UpdateSpec.DecodeV1_terminates],
    [YProtocolSpec.stream_chunking], [RebalanceSpec.rebalance_plan], and the
    functional theorems of the other loops, whose conclusions a fuel that ran out
    would contradict.  The loop of a lease manager runs until its context ends or
    a round fails: its theorem holds for every number of rounds.  So do those of the
    sessions of HTTP, whose loops run as long as their clients stay: they are about
    every run, ended or not.  The pages of a
    replay have a fuel too: each page moves the position on, so that the records that
    can be in the log bound it, and [ReplaySpec.recovery_exact] counts them.

    ** What the theorems show

    - Codecs: round trips of variable length integers, id sets and delete sets, the
      kinds of content, whole updates in both formats, awareness payloads, messages
      and node frames; that decoders accept only what they account for, refuse
      truncated input, and terminate.
    - Operations on updates against what an update holds (the sets of clocks with
      content, and the deleted clocks): merging is the union and is independent of
      order and grouping, the difference to a state vector is what the peer misses,
      one exchange of state vectors completes both sides, garbage collection keeps
      what is referenced, conversion between formats loses nothing.
    - Streams: the messages read do not depend on how the bytes arrive.
    - Awareness: the invariant of the manager, convergence, exact change reports.
    - The wire of Yjs: rewriting keeps the contents of an update, and the JSON of an
      embed becomes a lib0 value that decodes to what the text said.
    - Storage: the invariant of every reachable store, the refinement of leases to a
      specification of fencing, fenced writes of one epoch have one holder.
    - Replay: a recovery returns the log as it was at one moment, behind the stored
      snapshot; at every moment of a compaction each record is in the log or in the
      snapshot; the replayed document is the union of its parts.
    - Rooms: in every interleaving of calls the rooms stay in order and no schedule
      blocks; an update is in the log before it is in the document and both stay in
      step; a persist, wherever it stops, loses nothing; a connection is opened in
      a room of the document that was asked for.
    - Cluster: with other nodes interfering, leases obtained are those the storage
      granted, with growing epochs; a fence resolved for the local node is of a lease
      that had not expired; claiming a free document and writing under its fence
      succeeds; shards are in range and survive their text form; plans of
      rebalancing terminate, move a document at most once and end balanced.
    - The ownership runtime: in every interleaving of calls and goroutines a document
      has one run, which takes the actions of the coordinator's run; the references
      of a run add up; no call waits for ever.
    - HTTP: rate limits and quotas hold in every sequence of calls; a handshake is
      good for one connection; a signed handshake is accepted; what a client says to
      an edge is what the owner hears; a request is served only after its guards; a
      handler gives back what it took; frames are handled in their order; a client
      that follows a document from owner to owner sees rising epochs.

    A theorem with hypotheses is followed by a witness on concrete data.  Theorems
    about behaviour that deviates from what the code documents are kept as plain
    theorems next to the component ([DiffSpec.stateVector_leading_skip],
    [AwarenessSpec.local_clock_wraps], [YProtocolSpec.last_read_lost], ...); those
    about races are schedules that reach the loss
    ([ReplaySpec.recovery_misses_compacted], [ReplaySpec.compactions_lose_updates],
    [ProviderSpec.split_rooms_lose_update], [ProviderSpec.persists_lose_update],
    [RuntimeSpec.acquire_joins_cancelled_run],
    [ServerSpec.reconnect_loses_revalidation], [ServerSpec.handoff_loses_reader]).

    ** Not modelled

    - ApplyJSON of the awareness manager: json.Unmarshal into structs, which folds the
      case of names and writes over the elements it already has.
    - Every metrics file: output.
    - pkg/storage/postgres: statements that PostgreSQL executes.
    - In pkg/yhttp: the answer to a CORS preflight, the bodies of answers, the stream
      over a websocket (node_websocket_transport.go), the constructors of
      configurations and the callback of a rebalance.  Timeouts are contexts that
      end.  HMAC-SHA256 and SHA-256 are parameters.
    - The examples and the re-exporting packages (pkg/yjsbridge, pkg/yupdate,
      pkg/ytypes, pkg/yawareness).
    - Pointers, capacities, copies of slices and nil receivers, except where a test
      against nil decides; the text of error messages beyond the format string.
*)
From stdpp Require Export base tactics list gmap strings sorting.
From Stdlib Require Export ZArith Lia.
#[global] Open Scope Z_scope.
#[global] Set Default Goal Selector "!".

(** ** Machine integers *)

(** A Go [uint32] is a [Z] in [0, 2^32): arithmetic that may wrap is written
    with [w32]; a Go [byte] is a [Z] in [0, 256) and [uint64] uses [w64]. *)
Definition w8 (z : Z) : Z := z mod 256.
Definition w32 (z : Z) : Z := z mod 4294967296.
Definition w64 (z : Z) : Z := z mod 18446744073709551616.

(** An [int64] or an [int]. *)
Definition to_int64 (z : Z) : Z := (z + 9223372036854775808) mod 18446744073709551616 - 9223372036854775808.
#[global] Arguments w8 : simpl never.
#[global] Arguments w32 : simpl never.
#[global] Arguments w64 : simpl never.
#[global] Arguments Z.of_nat : simpl never.
#[global] Arguments Z.mul : simpl never.
#[global] Arguments Z.add : simpl never.
#[global] Arguments Z.sub : simpl never.
#[global] Arguments Z.pow : simpl never.
#[global] Arguments Z.modulo : simpl never.
#[global] Arguments Z.div : simpl never.
#[global] Arguments Z.shiftl : simpl never.
#[global] Arguments Z.shiftr : simpl never.
#[global] Arguments Z.land : simpl never.
#[global] Arguments Z.lor : simpl never.
#[global] Arguments Z.testbit : simpl never.

Definition MaxUint32 : Z := 4294967295.

Definition is_u8 (z : Z) : Prop := 0 <= z < 256.
Definition is_u32 (z : Z) : Prop := 0 <= z < 4294967296.

#[export] Instance is_u8_dec z : Decision (is_u8 z).
Proof. unfold is_u8. apply _. Defined.
#[export] Instance is_u32_dec z : Decision (is_u32 z).
Proof. unfold is_u32. apply _. Defined.

Abbreviation bytes := (list Z).
Abbreviation is_bytes := (Forall is_u8).

Create HintDb go.
Create Rewrite HintDb go.

Lemma w8_small z : is_u8 z → w8 z = z.
Proof. intros H. apply Z.mod_small. exact H. Qed.
Lemma w32_small z : is_u32 z → w32 z = z.
Proof. intros H. apply Z.mod_small. exact H. Qed.
Lemma w8_range z : is_u8 (w8 z).
Proof. apply Z.mod_pos_bound. lia. Qed.
Lemma w32_range z : is_u32 (w32 z).
Proof. apply Z.mod_pos_bound. lia. Qed.
#[export] Hint Resolve w8_range w32_range w8_small w32_small : go.
#[export] Hint Rewrite w8_small w32_small using (unfold is_u8, is_u32 in *; lia) : go.

(** Unfold the ranges and solve a linear goal about machine words. *)
Ltac u32 := unfold is_u8, is_u32, MaxUint32 in *; lia.

(** Linear goals with division and modulo by constants. *)
Ltac lia_mod := unfold is_u8, is_u32, w8, w32 in *; Z.to_euclidean_division_equations; lia.

(** Case split on every boolean comparison the goal (or a hypothesis) tests. *)
Ltac case_cmp :=
  match goal with
  | |- context [Z.ltb ?a ?b] => destruct (Z.ltb_spec a b)
  | |- context [Z.leb ?a ?b] => destruct (Z.leb_spec a b)
  | |- context [Z.eqb ?a ?b] => destruct (Z.eqb_spec a b)
  | H : context [Z.ltb ?a ?b] |- _ => destruct (Z.ltb_spec a b)
  | H : context [Z.leb ?a ?b] |- _ => destruct (Z.leb_spec a b)
  | H : context [Z.eqb ?a ?b] |- _ => destruct (Z.eqb_spec a b)
  end.

(** The same on the outermost conditional of the goal. *)
Ltac case_if :=
  match goal with
  | |- context [if ?c then _ else _] =>
      match c with
      | Z.ltb ?a ?b => destruct (Z.ltb_spec a b)
      | Z.leb ?a ?b => destruct (Z.leb_spec a b)
      | Z.eqb ?a ?b => destruct (Z.eqb_spec a b)
      | bool_decide _ => case_bool_decide
      end
  end.

(** Replace every comparison of the goal whose outcome the context decides. *)
Ltac cmp_known :=
  repeat match goal with
  | |- context [?a <=? ?b] =>
      first [rewrite (proj2 (Z.leb_le a b)) by lia | rewrite (proj2 (Z.leb_gt a b)) by lia]
  | |- context [?a <? ?b] =>
      first [rewrite (proj2 (Z.ltb_lt a b)) by lia | rewrite (proj2 (Z.ltb_ge a b)) by lia]
  | |- context [?a =? ?b] =>
      first [rewrite (proj2 (Z.eqb_eq a b)) by lia | rewrite (proj2 (Z.eqb_neq a b)) by lia]
  end; cbn [andb orb negb].

(** Division and modulo by constants, without the word ranges. *)
Ltac lia_dm := Z.to_euclidean_division_equations; lia.

(** ** Bits *)

Lemma testbit_high a n i : 0 <= a < 2 ^ n → n <= i → Z.testbit a i = false.
Proof.
  intros Ha Hi. destruct (decide (0 <= n)).
  - rewrite <- (Z.mod_small a (2 ^ n)) by done. apply Z.mod_pow2_bits_high. lia.
  - rewrite Z.pow_neg_r in Ha by lia. lia.
Qed.

Lemma lor_shiftl_add a b n :
  0 <= n → 0 <= a < 2 ^ n → 0 <= b → Z.lor a (Z.shiftl b n) = a + b * 2 ^ n.
Proof.
  intros Hn Ha Hb. rewrite Z.shiftl_mul_pow2 by lia.
  assert (Z.land a (b * 2 ^ n) = 0) as Hd.
  { apply Z.bits_inj'. intros i Hi. rewrite Z.land_spec, Z.bits_0.
    destruct (decide (i < n)).
    - rewrite Z.mul_pow2_bits_low by lia. by rewrite andb_false_r.
    - by rewrite (testbit_high a n i) by lia. }
  rewrite Z.add_nocarry_lxor by done. symmetry. by apply Z.lxor_lor.
Qed.

Lemma shiftr_range v k n : 0 <= k → 0 <= n → 0 <= v < 2 ^ (k + n) → 0 <= Z.shiftr v k < 2 ^ n.
Proof.
  intros Hk Hn Hv. rewrite Z.shiftr_div_pow2 by done. rewrite Z.pow_add_r in Hv by done.
  split; [apply Z.div_pos; lia|]. apply Z.div_lt_upper_bound; lia.
Qed.

Lemma mul_pow2_range v a b : 0 <= a → 0 <= b → 0 <= v < 2 ^ a → 0 <= v * 2 ^ b < 2 ^ (a + b).
Proof.
  intros Ha Hb Hv. rewrite Z.pow_add_r by done. pose proof (Z.pow_pos_nonneg 2 b ltac:(lia) Hb). nia.
Qed.

Lemma land_ones_mod a n : 0 <= n → Z.land a (2 ^ n - 1) = a mod 2 ^ n.
Proof. intros Hn. rewrite <- Z.land_ones by done. rewrite Z.ones_equiv. f_equal. Qed.

(** ** Lists *)

Section list_lemmas.
Context {A : Type}.
Implicit Types l : list A.

Lemma drop_drop_add l n m : drop m (drop n l) = drop (n + m) l.
Proof. by rewrite drop_drop. Qed.

Lemma drop_app_prefix l k n : n = length l → drop n (l ++ k) = k.
Proof. intros ->. apply drop_app_length. Qed.

Lemma take_app_prefix l k n : n = length l → take n (l ++ k) = l.
Proof. intros ->. apply take_app_length. Qed.

(** A loop that appends one encoding per item. *)
Lemma fold_left_concat {B} (f : list B → A → list B) (enc : A → list B) l dst :
  (∀ dst x, f dst x = dst ++ enc x) → fold_left f l dst = dst ++ concat (enc <$> l).
Proof.
  intros Hf. revert dst. induction l as [|x l IH]; intros dst; cbn; [by rewrite app_nil_r|].
  by rewrite Hf, IH, <- app_assoc.
Qed.

Lemma filter_all (P : A → Prop) `{∀ x, Decision (P x)} l : Forall P l → filter P l = l.
Proof. induction 1 as [|x l Hx _ IH]; [done|]. by rewrite filter_cons, decide_True, IH. Qed.

Lemma filter_none (P : A → Prop) `{∀ x, Decision (P x)} l : Forall (λ x, ¬ P x) l → filter P l = [].
Proof. induction 1 as [|x l Hx _ IH]; [done|]. by rewrite filter_cons, decide_False. Qed.

End list_lemmas.


(** * time.Time and time.Duration

    A time is the number of nanoseconds since the zero [time.Time]; a duration
    is an [int64], and [Sub] saturates. *)

Definition minDuration : Z := -9223372036854775808.
Definition maxDuration : Z := 9223372036854775807.

Definition IsZero (t : Z) : bool := t =? 0.
Definition After (t u : Z) : bool := u <? t.
Definition Before (t u : Z) : bool := t <? u.

Definition Sub (t u : Z) : Z := Z.max minDuration (Z.min maxDuration (t - u)).

Definition Millisecond : Z := 1000000.
Definition Second : Z := 1000000000.

(** ** encoding/binary, big endian *)

Fixpoint put_be (n : nat) (v : Z) : bytes :=
  match n with
  | O => []
  | S n => w8 (Z.shiftr v (8 * Z.of_nat n)) :: put_be n v
  end.

Definition get_be (bs : bytes) : Z := fold_left (λ acc b, acc * 256 + b) bs 0.

Lemma length_put_be n v : length (put_be n v) = n.
Proof. revert v. induction n as [|n IH]; intros v; cbn; [done|by rewrite IH]. Qed.

Lemma put_be_bytes n v : is_bytes (put_be n v).
Proof. induction n as [|n IH]; cbn; constructor; [apply w8_range|done]. Qed.

Lemma get_be_acc bs acc : fold_left (λ acc b, acc * 256 + b) bs acc = acc * 256 ^ Z.of_nat (length bs) + get_be bs.
Proof.
  unfold get_be. revert acc. induction bs as [|b bs IH]; intros acc; cbn [fold_left length]; [change (256 ^ Z.of_nat 0) with 1; lia|].
  rewrite (IH (acc * 256 + b)), (IH (0 * 256 + b)). rewrite Nat2Z.inj_succ, Z.pow_succ_r by lia. ring.
Qed.

Lemma get_be_cons b bs : get_be (b :: bs) = b * 256 ^ Z.of_nat (length bs) + get_be bs.
Proof. unfold get_be. cbn [fold_left]. rewrite get_be_acc. unfold get_be. ring. Qed.

Lemma pow256_pos n : 0 < 256 ^ Z.of_nat n.
Proof. apply Z.pow_pos_nonneg; lia. Qed.

Lemma get_be_range bs : is_bytes bs → 0 <= get_be bs < 256 ^ Z.of_nat (length bs).
Proof.
  induction 1 as [|b bs Hb _ IH]; [cbn; lia|]. rewrite get_be_cons. cbn [length]. rewrite Nat2Z.inj_succ, Z.pow_succ_r by lia.
  unfold is_u8 in Hb. pose proof (pow256_pos (length bs)). nia.
Qed.

Lemma put_be_mod n v : 0 <= v → get_be (put_be n v) = v mod 256 ^ Z.of_nat n.
Proof.
  intros Hv. induction n as [|n IH]; cbn [put_be]; [change (256 ^ Z.of_nat 0) with 1; by rewrite Z.mod_1_r|].
  rewrite get_be_cons, length_put_be, IH. unfold w8. rewrite Z.shiftr_div_pow2 by lia.
  replace (2 ^ (8 * Z.of_nat n)) with (256 ^ Z.of_nat n) by (rewrite Z.pow_mul_r by lia; done).
  rewrite Nat2Z.inj_succ, Z.pow_succ_r, (Z.mul_comm 256) by lia. pose proof (pow256_pos n).
  rewrite Z.rem_mul_r by lia. lia.
Qed.

Lemma get_put_be n v : 0 <= v < 256 ^ Z.of_nat n → get_be (put_be n v) = v.
Proof. intros H. rewrite put_be_mod by lia. by apply Z.mod_small. Qed.

Lemma get_be_inj bs1 bs2 : is_bytes bs1 → is_bytes bs2 → length bs1 = length bs2 → get_be bs1 = get_be bs2 → bs1 = bs2.
Proof.
  intros H1. revert bs2. induction H1 as [|b bs Hb H1 IH]; intros [|c cs] H2 Hl E; try done.
  inversion_clear H2 as [|? ? Hc Hcs]. cbn [length] in Hl. injection Hl as Hl. rewrite !get_be_cons, Hl in E.
  pose proof (get_be_range bs H1) as R1. pose proof (get_be_range cs Hcs) as R2. rewrite Hl in R1.
  assert (b = c) as <- by nia. f_equal. apply IH; [done..|lia].
Qed.

Lemma put_get_be bs : is_bytes bs → put_be (length bs) (get_be bs) = bs.
Proof.
  intros H. apply get_be_inj; [apply put_be_bytes|done|apply length_put_be|].
  apply get_put_be. by apply get_be_range.
Qed.
