(* ===== verification/GoError.v ===== *)
(** * Errors and the result type

    Go's [error] values as the code builds them: the package variables made by
    [errors.New], the parse errors that carry an operation and an offset
    (internal/binary/errors.go, internal/yprotocol/errors.go,
    internal/yupdate/errors.go, internal/yawareness/protocol.go,
    pkg/ynodeproto/message.go), the structured error of pkg/storage/errors.go,
    [fmt.Errorf] with and without [%w] and with two of them, and [errors.Join].
    [errors_Is] follows [Unwrap]. *)
From S2P Require Import Prelude.

(** The error variables the modelled packages declare. *)
Inductive sentinel :=
| io_EOF
| io_ErrNoProgress
| io_ErrUnexpectedEOF
| net_ErrClosed
| context_Canceled
| context_DeadlineExceeded
| binary_ErrUnexpectedEOF
| binary_ErrInvalidReadSize
| varint_ErrUnexpectedEOF
| varint_ErrOverflow
| varint_ErrNonCanonical
| yidset_ErrInvalidLength
| yidset_ErrRangeOverflow
| ytypes_ErrInvalidLength
| ytypes_ErrStructOverflow
| ytypes_ErrNilContent
| ytypes_ErrInvalidParentRoot
| ytypes_errInvalidContentRef
| yupdate_ErrUnknownContentRef
| yupdate_ErrUnknownTypeRef
| yupdate_ErrAmbiguousUpdateFormat
| yupdate_ErrUnknownUpdateFormat
| yupdate_ErrUnsupportedUpdateFormatV2
| yupdate_ErrMismatchedUpdateFormats
| yupdate_ErrInvalidSliceOffset
| yupdate_ErrUnsupportedContentSlice
| yupdate_ErrUnsupportedContentEncode
| yupdate_ErrDeleteSetBeforeStructsEnd
| yupdate_ErrTrailingBytes
| yupdate_ErrInvalidContentIDsPayload
| yupdate_ErrContentIDsTrailingBytes
| yupdate_ErrInconsistentPersistedSnapshot
| yupdate_ErrDecodedCollectionTooLarge
| yprotocol_ErrUnknownProtocolType
| yprotocol_ErrUnexpectedProtocolType
| yprotocol_ErrUnknownSyncMessageType
| yprotocol_ErrUnknownAuthMessageType
| yprotocol_ErrInvalidAwarenessJSON
| yprotocol_ErrTrailingBytes
| yprotocol_ErrProtocolStreamByteLimitExceeded
| pkg_yprotocol_ErrNilProtocolMessage
| pkg_yprotocol_ErrInvalidProtocolMessage
| pkg_yprotocol_ErrNilSession
| pkg_yprotocol_ErrInvalidConnectionID
| pkg_yprotocol_ErrConnectionClosed
| pkg_yprotocol_ErrConnectionExists
| pkg_yprotocol_ErrClientIDExists
| pkg_yprotocol_ErrPersistenceDisabled
| pkg_yprotocol_ErrAuthorityLost
| pkg_yprotocol_ErrAuthorityFenceUnsupported
| yawareness_ErrInvalidJSON
| yawareness_ErrTrailingBytes
| yawareness_ErrLocalClientIDNotConfigured
| ynodeproto_ErrNilFrame
| ynodeproto_ErrNilMessage
| ynodeproto_ErrUnsupportedVersion
| ynodeproto_ErrUnknownMessageType
| ynodeproto_ErrInvalidNodeID
| ynodeproto_ErrInvalidConnectionID
| ynodeproto_ErrMissingPayload
| ynodeproto_ErrInvalidEpoch
| ynodeproto_ErrInvalidNonce
| ynodeproto_ErrInvalidPayloadLength
| ynodeproto_ErrPayloadTooLarge
| ynodeproto_ErrIncompleteHeader
| ynodeproto_ErrIncompletePayload
| ynodeproto_ErrPayloadLengthMismatch
| ynodeproto_ErrTrailingPayloadBytes
| ynodeproto_ErrTrailingBytes
| storage_ErrSnapshotNotFound
| storage_ErrAuthorityLost
| storage_ErrPlacementNotFound
| storage_ErrLeaseNotFound
| storage_ErrLeaseConflict
| storage_ErrLeaseStaleEpoch
| storage_ErrInvalidDocumentKey
| storage_ErrInvalidShardID
| storage_ErrInvalidNodeID
| storage_ErrInvalidOwnerInfo
| storage_ErrInvalidUpdatePayload
| storage_ErrInvalidLeaseToken
| storage_ErrInvalidLeaseExpiry
| storage_ErrNilPersistedSnapshot
| storage_ErrSnapshotCheckpointMismatch
| storage_ErrNilUpdateLogStore
| storage_ErrNilSnapshotLogStore
| storage_ErrUpdateLogKeyMismatch
| storage_ErrUpdateLogOffsetsOutOfOrder
| storage_ErrUpdateLogEpochRegression
| ycluster_ErrInvalidNodeID
| ycluster_ErrInvalidNodeHealth
| ycluster_ErrNilLocalNode
| ycluster_ErrNilShardResolver
| ycluster_ErrNilPlacementStore
| ycluster_ErrNilLeaseStore
| ycluster_ErrNilOwnershipCoordinator
| ycluster_ErrOwnershipRuntimeClosed
| ycluster_ErrInvalidShardCount
| ycluster_ErrInvalidOwnerLookupRequest
| ycluster_ErrInvalidPlacement
| ycluster_ErrPlacementNotFound
| ycluster_ErrInvalidLease
| ycluster_ErrInvalidLeaseRequest
| ycluster_ErrLeaseHeld
| ycluster_ErrLeaseTokenMismatch
| ycluster_ErrLeaseExpired
| ycluster_ErrLeaseHandoffUnsupported
| ycluster_ErrOwnerNotFound
| ycluster_ErrInvalidRebalancePlan
| yhttp_ErrNilProvider
| yhttp_ErrNilResolveRequest
| yhttp_ErrNilLocalServer
| yhttp_ErrNilOwnerLookup
| yhttp_ErrNilRemoteOwnerDialer
| yhttp_ErrNilRemoteOwnerEndpoint
| yhttp_ErrNilNodeMessageStream
| yhttp_ErrUnauthorized
| yhttp_ErrForbidden
| yhttp_ErrRateLimited
| yhttp_ErrQuotaExceeded
| yhttp_ErrQuotaUnavailable
| yhttp_ErrOriginDenied.

#[export] Instance sentinel_eq_dec : EqDecision sentinel.
Proof. solve_decision. Defined.

(** The packages that declare a [ParseError] with an operation and an offset. *)
Inductive package := PkgYUpdate | PkgYProtocol | PkgYAwareness | PkgYNodeProto.

#[export] Instance package_eq_dec : EqDecision package.
Proof. solve_decision. Defined.

Inductive error :=
| Sentinel (s : sentinel)
| BinaryParseError (Op : string) (Offset Need Remaining Size : Z) (Err : error)
| ParseError (pkg : package) (Op : string) (Offset : Z) (Err : error)
| LeaseStaleEpochError (ShardID : bytes) (Current Incoming : Z)
| Wrapped (msg : string) (Err : error)
| Joined (msg : string) (Err1 Err2 : error)
| Opaque (msg : string)
| FuelExhausted.

Coercion Sentinel : sentinel >-> error.

(** [errors.Is(err, target)] for a package variable [target]. *)
Fixpoint errors_Is (err : error) (target : sentinel) : bool :=
  match err with
  | Sentinel s => bool_decide (s = target)
  | BinaryParseError _ _ _ _ _ e => errors_Is e target
  | ParseError _ _ _ e => errors_Is e target
  | LeaseStaleEpochError _ _ _ => bool_decide (storage_ErrLeaseStaleEpoch = target)
  | Wrapped _ e => errors_Is e target
  | Joined _ e1 e2 => errors_Is e1 target || errors_Is e2 target
  | Opaque _ => false
  | FuelExhausted => false
  end.

(** Go's [(T, error)] where the value is meaningful only when the error is nil. *)
Inductive result (A : Type) :=
| Ok (a : A)
| Err (e : error).
Arguments Ok {A} a.
Arguments Err {A} e.

#[export] Instance result_ret : MRet result := λ A a, Ok a.
#[export] Instance result_bind : MBind result := λ A B f m,
  match m with Ok a => f a | Err e => Err e end.
#[export] Instance result_fmap : FMap result := λ A B f m,
  match m with Ok a => Ok (f a) | Err e => Err e end.

Definition is_Ok {A} (r : result A) : bool :=
  match r with Ok _ => true | Err _ => false end.

(** Replace the error of a failed computation: [if err != nil { return wrap(err) }]. *)
Definition map_err {A} (f : error → error) (r : result A) : result A :=
  match r with Ok a => Ok a | Err e => Err (f e) end.

Lemma result_bind_Ok {A B} (m : result A) (f : A → result B) b :
  m ≫= f = Ok b ↔ ∃ a, m = Ok a ∧ f a = Ok b.
Proof. destruct m; cbn; split; [eauto|by intros (? & [= ->] & ?)|done|by intros (? & ? & ?)]. Qed.

(** Fold of a fallible step over a list, first error wins. *)
Fixpoint fold_result {A B} (f : B → A → result B) (l : list A) (b : B) : result B :=
  match l with
  | [] => Ok b
  | x :: l' => match f b x with Ok b' => fold_result f l' b' | Err e => Err e end
  end.

Lemma fold_result_app {A B} (f : B → A → result B) l1 l2 b :
  fold_result f (l1 ++ l2) b = fold_result f l1 b ≫= fold_result f l2.
Proof.
  revert b. induction l1 as [|x l1 IH]; intros b; cbn; [done|].
  destruct (f b x); cbn; [apply IH|done].
Qed.

(** An invariant the step preserves is preserved by the fold. *)
Lemma fold_result_inv {A B} (P : B → Prop) (f : B → A → result B) l b b' :
  (∀ x y y', P y → f y x = Ok y' → P y') → P b → fold_result f l b = Ok b' → P b'.
Proof.
  intros Hf. revert b. induction l as [|x l IH]; intros b Hb; cbn; [by intros [= <-]|].
  destruct (f b x) eqn:E; [|done]. eauto.
Qed.

(** When every step succeeds the fold is the pure fold. *)
Lemma fold_result_pure {A B} (f : B → A → result B) (g : B → A → B) (P : B → Prop) (Q : A → Prop) l b :
  (∀ x y, P y → Q x → f y x = Ok (g y x) ∧ P (g y x)) →
  P b → Forall Q l → fold_result f l b = Ok (fold_left g l b) ∧ P (fold_left g l b).
Proof.
  intros Hf. revert b. induction l as [|x l IH]; intros b Hb HQ; cbn; [done|].
  inversion_clear HQ. destruct (Hf x b) as [-> ?]; [done..|]. eauto.
Qed.
