(* ===== verification/Binary.v ===== *)
(** * internal/binary: sequential reader over an immutable buffer

    [Reader] is the pair buffer/offset of reader.go.  Operations are state
    transformers that also return the reader after a failure, because callers
    observe [Offset] on the error path.  [reads] and [parses] are the two
    specifications every decoder of the development is proved against: the
    first says that a decoder accepts an encoding and stops right after it, the
    second that whatever it accepted has the stated shape. *)
From S2P Require Import Prelude GoError.

Record Reader := mkReader { data : bytes; offset : nat }.

Definition NewReader (d : bytes) : Reader := mkReader d 0.

Definition Offset (r : Reader) : Z := Z.of_nat (offset r).

Definition Remaining (r : Reader) : Z := Z.of_nat (length (data r)) - Z.of_nat (offset r).

Definition newUnexpectedEOF (op : string) (off need remaining : Z) : error :=
  BinaryParseError op off need remaining 0 binary_ErrUnexpectedEOF.

Definition newInvalidReadSize (op : string) (off size : Z) : error :=
  BinaryParseError op off 0 0 size binary_ErrInvalidReadSize.

(** The state monad of a reader: the result and the reader after the call. *)
Definition RM (A : Type) : Type := Reader → result A * Reader.

#[export] Instance RM_ret : MRet RM := λ A a r, (Ok a, r).
#[export] Instance RM_bind : MBind RM := λ A B f m r,
  match m r with
  | (Ok a, r') => f a r'
  | (Err e, r') => (Err e, r')
  end.

Definition fail {A} (e : error) : RM A := λ r, (Err e, r).
Definition getOffset : RM Z := λ r, (Ok (Offset r), r).
Definition getRemaining : RM Z := λ r, (Ok (Remaining r), r).

(** [x, err := m(); if err != nil { return wrap(r.Offset(), err) }]: the wrapper
    sees the offset the reader has after the failure. *)
Definition catch {A} (m : RM A) (wrap : Z → error → error) : RM A := λ r,
  match m r with
  | (Ok a, r') => (Ok a, r')
  | (Err e, r') => (Err (wrap (Offset r') e), r')
  end.

(** Run a pure fallible computation inside the reader monad. *)
Definition liftR {A} (m : result A) : RM A := λ r, (m, r).

Definition ReadByte : RM Z := λ r,
  if Remaining r <? 1 then
    (Err (newUnexpectedEOF "ReadByte" (Offset r) 1 (Remaining r)), r)
  else
    (Ok (nth (offset r) (data r) 0), mkReader (data r) (S (offset r))).

Definition ReadN (n : Z) : RM bytes := λ r,
  if n <? 0 then (Err (newInvalidReadSize "ReadN" (Offset r) n), r)
  else if Remaining r <? n then
    (Err (newUnexpectedEOF "ReadN" (Offset r) n (Remaining r)), r)
  else
    (Ok (take (Z.to_nat n) (drop (offset r) (data r))),
     mkReader (data r) (offset r + Z.to_nat n)).

(** ** The unread part of a buffer *)

Definition view (r : Reader) : bytes := drop (offset r) (data r).
Definition advance (n : nat) (r : Reader) : Reader := mkReader (data r) (offset r + n).

(** A reader never points past its buffer. *)
Definition wf_reader (r : Reader) : Prop := (offset r ≤ length (data r))%nat.

Lemma view_advance n r : view (advance n r) = drop n (view r).
Proof. unfold view, advance; cbn. by rewrite drop_drop. Qed.

Lemma view_advance_app bs rest r : view r = bs ++ rest → view (advance (length bs) r) = rest.
Proof. intros H. rewrite view_advance, H. apply drop_app_length. Qed.

Lemma advance_advance n m r : advance m (advance n r) = advance (n + m) r.
Proof. unfold advance; cbn. f_equal. lia. Qed.

Lemma advance_0 r : advance 0 r = r.
Proof. destruct r. unfold advance; cbn. f_equal. lia. Qed.

Lemma view_NewReader d : view (NewReader d) = d.
Proof. done. Qed.

Lemma length_view r : wf_reader r → Z.of_nat (length (view r)) = Remaining r.
Proof. unfold wf_reader, Remaining, view. rewrite length_drop. lia. Qed.

(** ** Decoding specifications *)

(** [m] accepts the encoding [bs] wherever it starts, returns [a] and leaves the
    reader right after it. *)
Definition reads {A} (m : RM A) (bs : bytes) (a : A) : Prop :=
  ∀ r rest, wf_reader r → view r = bs ++ rest → m r = (Ok a, advance (length bs) r).

(** Whatever [m] accepts is a prefix of the unread bytes related to the value. *)
Definition parses {A} (m : RM A) (P : bytes → A → Prop) : Prop :=
  ∀ r a r', wf_reader r → is_bytes (view r) → m r = (Ok a, r') →
    ∃ bs, view r = bs ++ view r' ∧ r' = advance (length bs) r ∧ wf_reader r' ∧ P bs a.

Lemma wf_NewReader d : wf_reader (NewReader d).
Proof. unfold wf_reader; cbn. lia. Qed.

Lemma wf_advance r bs rest : wf_reader r → view r = bs ++ rest → wf_reader (advance (length bs) r).
Proof.
  unfold wf_reader, view, advance; cbn. intros Hw H.
  apply (f_equal length) in H. rewrite length_drop, length_app in H. lia.
Qed.
#[export] Hint Resolve wf_NewReader wf_advance view_advance_app : go.

Lemma reads_ret {A} (a : A) : reads (mret a) [] a.
Proof. intros r rest _ _. cbn. by rewrite advance_0. Qed.

Lemma reads_bind {A B} (m : RM A) (k : A → RM B) bs1 bs2 a b :
  reads m bs1 a → reads (k a) bs2 b → reads (m ≫= k) (bs1 ++ bs2) b.
Proof.
  intros H1 H2 r rest Hw Hv. rewrite <- app_assoc in Hv.
  unfold mbind, RM_bind. rewrite (H1 _ _ Hw Hv).
  rewrite (H2 _ rest) by eauto with go.
  by rewrite advance_advance, length_app.
Qed.

(** The last step consumes nothing. *)
Lemma reads_bind_ret {A B} (m : RM A) (k : A → RM B) bs a b :
  reads m bs a → reads (k a) [] b → reads (m ≫= k) bs b.
Proof. intros H1 H2. rewrite <- (app_nil_r bs). by eapply reads_bind. Qed.

Lemma reads_offset {B} (k : Z → RM B) bs b :
  (∀ o, reads (k o) bs b) → reads (getOffset ≫= k) bs b.
Proof. intros H r rest Hw Hv. by apply (H _ _ rest). Qed.

Lemma reads_catch {A} (m : RM A) wrap bs a : reads m bs a → reads (catch m wrap) bs a.
Proof. intros H r rest Hw Hv. unfold catch. by rewrite (H _ _ Hw Hv). Qed.

Lemma reads_lift {A} (m : result A) a : m = Ok a → reads (liftR m) [] a.
Proof. intros -> r rest _ _. unfold liftR; cbn. by rewrite advance_0. Qed.

Lemma reads_ext {A} (m m' : RM A) bs a : (∀ r, m r = m' r) → reads m bs a → reads m' bs a.
Proof. intros E H r rest Hw Hv. rewrite <- E. by apply H with rest. Qed.

Lemma Remaining_view r bs rest : wf_reader r → view r = bs ++ rest →
  Remaining r = Z.of_nat (length bs + length rest).
Proof. intros Hw H. rewrite <- length_view, H, length_app by done. done. Qed.

Lemma reads_ReadByte b : reads ReadByte [b] b.
Proof.
  intros r rest Hw Hv. unfold ReadByte. rewrite (Remaining_view r [b] rest) by done.
  case_cmp; [cbn in *; lia|]. f_equal; [|unfold advance; cbn; f_equal; lia].
  f_equal. assert (data r !! offset r = Some b) as Hl.
  { rewrite <- (Nat.add_0_r (offset r)), <- lookup_drop. unfold view in Hv. by rewrite Hv. }
  by rewrite nth_lookup, Hl.
Qed.

Lemma reads_ReadN bs n : n = Z.of_nat (length bs) → reads (ReadN n) bs bs.
Proof.
  intros -> r rest Hw Hv. unfold ReadN. case_cmp; [lia|].
  rewrite (Remaining_view r bs rest) by done. case_cmp; [lia|].
  rewrite Nat2Z.id. fold (view r). rewrite Hv, take_app_length. done.
Qed.

(** Composition of the second specification. *)
Lemma parses_ret {A} (a : A) : parses (mret a) (λ bs x, bs = [] ∧ x = a).
Proof.
  intros r x r' Hw _ [= <- <-]. exists []. rewrite advance_0. done.
Qed.

(** The continuation may use what is known of the first value. *)
Lemma parses_bind_dep {A B} (m : RM A) (k : A → RM B) P Q :
  parses m P → (∀ a bs, P bs a → parses (k a) (Q a)) →
  parses (m ≫= k) (λ bs b, ∃ bs1 bs2 a, bs = bs1 ++ bs2 ∧ P bs1 a ∧ Q a bs2 b).
Proof.
  intros Hm Hk r b r2 Hw Hb. unfold mbind, RM_bind.
  destruct (m r) as [[a|] r1] eqn:E; [|done]. intros E2.
  destruct (Hm _ _ _ Hw Hb E) as (bs1 & Hv1 & -> & Hw1 & HP).
  assert (is_bytes (view (advance (length bs1) r))) as Hb1.
  { rewrite Hv1 in Hb. by apply Forall_app in Hb as [_ ?]. }
  destruct (Hk _ _ HP _ _ _ Hw1 Hb1 E2) as (bs2 & Hv2 & -> & Hw2 & HQ).
  exists (bs1 ++ bs2). rewrite <- app_assoc, <- Hv2, <- Hv1.
  rewrite advance_advance, length_app. split_and!; [done..|by rewrite <- advance_advance|].
  eauto 10.
Qed.

Lemma parses_bind {A B} (m : RM A) (k : A → RM B) P Q :
  parses m P → (∀ a, parses (k a) (Q a)) →
  parses (m ≫= k) (λ bs b, ∃ bs1 bs2 a, bs = bs1 ++ bs2 ∧ P bs1 a ∧ Q a bs2 b).
Proof. intros Hm Hk. apply parses_bind_dep; auto. Qed.

Lemma parses_weaken {A} (m : RM A) (P Q : bytes → A → Prop) :
  parses m P → (∀ bs a, P bs a → Q bs a) → parses m Q.
Proof. intros H HPQ r a r' Hw Hb E. destruct (H _ _ _ Hw Hb E) as (bs & ? & ? & ? & ?); eauto 10. Qed.

Lemma parses_offset {B} (k : Z → RM B) Q :
  (∀ o, parses (k o) Q) → parses (getOffset ≫= k) Q.
Proof. intros H r b r' Hw Hb E. by apply (H _ _ _ _ Hw Hb E). Qed.

Lemma parses_catch {A} (m : RM A) wrap P : parses m P → parses (catch m wrap) P.
Proof.
  intros H r a r' Hw Hb. unfold catch. destruct (m r) as [[?|] ?] eqn:E; [|done].
  intros [= -> ->]. by apply H.
Qed.

Lemma parses_fail {A} e : parses (fail e : RM A) (λ _ _, False).
Proof. intros r a r' _ _ [=]. Qed.

Lemma parses_lift {A} (m : result A) : parses (liftR m) (λ bs a, bs = [] ∧ m = Ok a).
Proof. intros r a r' Hw _ [= E <-]. exists []. rewrite advance_0. done. Qed.

Lemma parses_ReadByte : parses ReadByte (λ bs b, bs = [b] ∧ is_u8 b).
Proof.
  intros r b r' Hw Hb. unfold ReadByte. rewrite <- length_view by done.
  destruct (view r) as [|x l] eqn:Hv; case_cmp; try (cbn in *; lia); try done.
  rewrite nth_lookup. assert (data r !! offset r = Some x) as ->.
  { rewrite <- (Nat.add_0_r (offset r)), <- lookup_drop. fold (view r). by rewrite Hv. }
  cbn. intros [= <- <-]. exists [x].
  assert (advance 1 r = mkReader (data r) (S (offset r))) as <- by (unfold advance; f_equal; lia).
  change 1%nat with (length [x]). rewrite (view_advance_app [x] l) by done.
  pose proof (wf_advance r [x] l Hw Hv). inversion_clear Hb. by split_and!.
Qed.

Lemma parses_ReadN n : parses (ReadN n) (λ bs a, bs = a ∧ Z.of_nat (length a) = n ∧ is_bytes a).
Proof.
  intros r a r' Hw Hb. unfold ReadN. rewrite <- length_view by done.
  case_cmp; [done|]. case_cmp; [done|]. intros [= <- <-]. fold (view r).
  assert (view r = take (Z.to_nat n) (view r) ++ drop (Z.to_nat n) (view r)) as Hv by by rewrite take_drop.
  assert (length (take (Z.to_nat n) (view r)) = Z.to_nat n) as Hl by (rewrite length_take; lia).
  exists (take (Z.to_nat n) (view r)).
  change (mkReader (data r) (offset r + Z.to_nat n)) with (advance (Z.to_nat n) r).
  rewrite view_advance, <- Hv, Hl.
  pose proof (wf_advance r _ _ Hw Hv) as Hw'. rewrite Hl in Hw'.
  split_and!; [done..|lia|by apply Forall_take].
Qed.

(** ** Counted loops *)

(** [for i := 0; i < n; i++ { s = body(s) }] where the body returns on failure. *)
Fixpoint for_times {S} (n : nat) (body : S → RM S) (s : S) : RM S :=
  match n with
  | O => mret s
  | Datatypes.S n => s ← body s; for_times n body s
  end.

(** Runs of a relational step over a list of items. *)
Fixpoint run_list {S X} (step : S → X → S → Prop) (s : S) (l : list X) (s' : S) : Prop :=
  match l with
  | [] => s = s'
  | x :: l => ∃ s1, step s x s1 ∧ run_list step s1 l s'
  end.

(** A loop whose body reads the item it is about to process reads the items'
    encodings; [P] relates the state to the items still to come. *)
Lemma reads_for_times {S X} (body : S → RM S) (enc : X → bytes) (step : S → X → S)
    (P : S → list X → Prop) l s :
  (∀ s x l, P s (x :: l) → reads (body s) (enc x) (step s x) ∧ P (step s x) l) →
  P s l → reads (for_times (length l) body s) (concat (enc <$> l)) (fold_left step l s).
Proof.
  intros H. revert s. induction l as [|x l IH]; intros s Hs; [apply reads_ret|].
  destruct (H _ _ _ Hs). cbn. eapply reads_bind; eauto.
Qed.

(** The same for a relational step. *)
Lemma reads_for_times_run {S X} (body : S → RM S) (enc : X → bytes) (step : S → X → S → Prop) l s s' :
  (∀ s x s', step s x s' → reads (body s) (enc x) s') →
  run_list step s l s' → reads (for_times (length l) body s) (concat (enc <$> l)) s'.
Proof.
  intros H. revert s. induction l as [|x l IH]; intros s; cbn; [intros <-; apply reads_ret|].
  intros (s1 & Hx & Hrun). eapply reads_bind; eauto.
Qed.

Lemma parses_for_times {S X} (body : S → RM S) (enc : X → bytes) (step : S → X → S → Prop) n s :
  (∀ s, parses (body s) (λ bs s', ∃ x, bs = enc x ∧ step s x s')) →
  parses (for_times n body s) (λ bs s', ∃ l, length l = n ∧ bs = concat (enc <$> l) ∧ run_list step s l s').
Proof.
  intros H. revert s. induction n as [|n IH]; intros s; cbn.
  - eapply parses_weaken; [apply parses_ret|]. intros bs a [-> ->]. by exists [].
  - eapply parses_weaken; [eapply parses_bind; [apply H|exact IH]|].
    intros bs s' (bs1 & bs2 & s1 & -> & (x & -> & Hx) & l & Hl & -> & Hr).
    exists (x :: l). cbn. split_and!; [by rewrite Hl|done|by eauto].
Qed.

(** A deterministic step under an invariant makes the run the fold. *)
Lemma run_list_fold {S X} (step : S → X → S → Prop) (P : S → list X → Prop) (Q : S → S → list X → Prop) l s s' :
  (∀ s, Q s s []) →
  (∀ s x l s1, P s (x :: l) → step s x s1 → P s1 l ∧ ∀ s', Q s1 s' l → Q s s' (x :: l)) →
  P s l → run_list step s l s' → Q s s' l.
Proof.
  intros H0 H1. revert s. induction l as [|x l IH]; intros s Hs; cbn; [by intros <-|].
  intros (s1 & Hstep & Hrun). destruct (H1 _ _ _ _ Hs Hstep) as [? HQ]. eauto.
Qed.

(** A loop that appends the bytes its body consumed, chunk by chunk. *)
Lemma reads_for_chunks (body : bytes → RM bytes) (Q : bytes → Prop) l raw :
  (∀ raw x, Q x → reads (body raw) x (raw ++ x)) → Forall Q l →
  reads (for_times (length l) body raw) (concat l) (raw ++ concat l).
Proof.
  intros Hb. revert raw. induction l as [|x l IH]; intros raw; cbn.
  - intros _. rewrite app_nil_r. apply reads_ret.
  - intros [Hx Hl]%Forall_cons. rewrite app_assoc. eapply reads_bind; eauto.
Qed.

Lemma parses_for_chunks (body : bytes → RM bytes) (Q : bytes → Prop) n raw :
  (∀ raw, parses (body raw) (λ bs a, a = raw ++ bs ∧ Q bs)) →
  parses (for_times n body raw) (λ bs a, a = raw ++ bs ∧ ∃ l, length l = n ∧ bs = concat l ∧ Forall Q l).
Proof.
  intros Hb. revert raw. induction n as [|n IH]; intros raw; cbn.
  - eapply parses_weaken; [apply parses_ret|]. intros bs a [-> ->]. rewrite app_nil_r. split; [done|]. by exists [].
  - eapply parses_weaken; [eapply parses_bind; [apply Hb|exact IH]|].
    intros bs a (b1 & b2 & raw1 & -> & [-> Hq] & -> & l & Hl & -> & Hf).
    split; [by rewrite app_assoc|]. exists (b1 :: l). cbn. split_and!; [by rewrite Hl|done|by constructor].
Qed.

(** ** Agreement of two computations on the readers with little left *)

(** Both coincide where at most [n] bytes remain, never move the reader
    backwards and do not run out of fuel: how a recursion with fuel is shown to
    have enough of it. *)
Definition agree {A} (n : Z) (m1 m2 : RM A) : Prop :=
  ∀ r, 0 <= Remaining r <= n → m1 r = m2 r ∧ 0 <= Remaining (snd (m1 r)) <= Remaining r ∧
    fst (m1 r) ≠ Err FuelExhausted.

Lemma agree_bind {A B} n (m1 m2 : RM A) (k1 k2 : A → RM B) :
  agree n m1 m2 → (∀ a, agree n (k1 a) (k2 a)) → agree n (m1 ≫= k1) (m2 ≫= k2).
Proof.
  intros Hm Hk r Hr. unfold mbind, RM_bind. destruct (Hm r Hr) as (<- & H1 & He).
  destruct (m1 r) as [[a|e] r1]; cbn [fst snd] in *; [|by split_and!; [done|lia..|congruence]].
  destruct (Hk a r1 ltac:(lia)) as (H2 & H3 & H4). split_and!; [done|lia..|done].
Qed.

Lemma agree_ret {A} n (a : A) : agree n (mret a) (mret a).
Proof. intros r ?. cbn [fst snd mret RM_ret]. split_and!; [done|lia..|done]. Qed.
Lemma agree_fail {A} n e : e ≠ FuelExhausted → agree n (fail e : RM A) (fail e).
Proof. intros He r ?. cbn [fst snd fail]. split_and!; [done|lia..|congruence]. Qed.
Lemma agree_offset n : agree n getOffset getOffset.
Proof. intros r ?. cbn [fst snd getOffset]. split_and!; [done|lia..|done]. Qed.
Lemma agree_lift {A} n (m : result A) : m ≠ Err FuelExhausted → agree n (liftR m) (liftR m).
Proof. intros He r ?. cbn [fst snd liftR]. split_and!; [done|lia..|done]. Qed.
Lemma agree_catch {A} n (m1 m2 : RM A) wrap : (∀ o e, wrap o e ≠ FuelExhausted) →
  agree n m1 m2 → agree n (catch m1 wrap) (catch m2 wrap).
Proof.
  intros Hwr H r Hr. unfold catch. destruct (H r Hr) as (<- & ? & ?). destruct (m1 r) as [[?|?] ?]; cbn [fst snd] in *.
  - done.
  - split_and!; [done|lia..|]. intros [= E]. by eapply Hwr.
Qed.
Lemma agree_if {A} n (b : bool) (m1 m2 k1 k2 : RM A) :
  agree n m1 m2 → agree n k1 k2 → agree n (if b then m1 else k1) (if b then m2 else k2).
Proof. by destruct b. Qed.
Lemma agree_ReadN n k : agree n (ReadN k) (ReadN k).
Proof.
  intros r ?. split; [done|]. unfold ReadN. destruct (Z.ltb_spec k 0); [cbn [fst snd]; split; [lia|done]|].
  destruct (Z.ltb_spec (Remaining r) k); [cbn [fst snd]; split; [lia|done]|].
  unfold Remaining in *; cbn [fst snd data offset]. split; [lia|done].
Qed.

Lemma ReadByte_progress r : 0 <= Remaining r →
  (∃ e, ReadByte r = (Err e, r) ∧ e ≠ FuelExhausted) ∨
  (∃ b r', ReadByte r = (Ok b, r') ∧ 0 <= Remaining r' ∧ Remaining r' = Remaining r - 1).
Proof.
  intros Hr. unfold ReadByte. destruct (Z.ltb_spec (Remaining r) 1); [left; by eexists|right].
  eexists _, _. split; [done|]. unfold Remaining in *; cbn [data offset]. lia.
Qed.

Lemma agree_ReadByte n : agree n ReadByte ReadByte.
Proof.
  intros r ?. split; [done|]. destruct (ReadByte_progress r) as [(e & -> & He)|(b & r' & -> & ? & ?)];
    [lia|cbn [fst snd]; (split; [lia|congruence])..].
Qed.

(** Reading a byte first leaves less for the rest. *)
Lemma agree_ReadByte_bind {A} n (k1 k2 : Z → RM A) wrap : (∀ o e, wrap o e ≠ FuelExhausted) →
  (∀ b, agree (n - 1) (k1 b) (k2 b)) → agree n (catch ReadByte wrap ≫= k1) (catch ReadByte wrap ≫= k2).
Proof.
  intros Hwr Hk r Hr. unfold mbind, RM_bind, catch.
  destruct (ReadByte_progress r) as [(e & -> & He)|(b & r' & -> & ? & ?)]; [lia| |].
  - cbn [fst snd]. split_and!; [done|lia..|]. intros [= E]. by eapply Hwr.
  - destruct (Hk b r' ltac:(lia)) as (H1 & H2 & H3). split_and!; [done|lia..|done].
Qed.

Lemma agree_for_times {S} n k (body1 body2 : S → RM S) s :
  (∀ s, agree n (body1 s) (body2 s)) → agree n (for_times k body1 s) (for_times k body2 s).
Proof.
  intros H. revert s. induction k as [|k IH]; intros s; cbn; [apply agree_ret|]. by apply agree_bind.
Qed.

Create HintDb agree.
#[export] Hint Resolve agree_ret agree_fail agree_offset agree_lift agree_catch agree_if agree_ReadN
  agree_ReadByte agree_for_times agree_bind : agree.
#[export] Hint Extern 1 (_ ≠ _) => discriminate : agree.
#[export] Hint Extern 1 (∀ _ _, _ ≠ _) => (intros ? ?; discriminate) : agree.

(** ** Decoding a message of which only a part has arrived *)

(** Failures that more bytes can repair. *)
Definition eof_error (e : error) : bool := errors_Is e binary_ErrUnexpectedEOF || errors_Is e varint_ErrUnexpectedEOF.

(** [m] fails for want of bytes on every proper prefix of the encoding [bs]. *)
Definition truncates {A} (m : RM A) (bs : bytes) : Prop :=
  ∀ r missing, wf_reader r → missing ≠ [] → view r ++ missing = bs → ∃ e r', m r = (Err e, r') ∧ eof_error e = true.

Lemma truncates_nil {A} (m : RM A) : truncates m [].
Proof. intros r missing _ Hm [_ ?]%app_nil. done. Qed.

Lemma truncates_bind {A B} (m : RM A) (k : A → RM B) bs1 bs2 a :
  reads m bs1 a → truncates m bs1 → truncates (k a) bs2 → truncates (m ≫= k) (bs1 ++ bs2).
Proof.
  intros Hr H1 H2 r missing Hw Hm Hv. unfold mbind, RM_bind. apply app_eq_inv in Hv as [(t & Hv & ->)|(t & -> & Hv)].
  - rewrite (Hr r t) by done. apply (H2 _ missing); [by eapply wf_advance|done|]. by rewrite (view_advance_app bs1 t).
  - destruct t as [|b t].
    + rewrite app_nil_r in *. rewrite (Hr r []) by (rewrite ?app_nil_r; done). cbn in Hv. subst missing.
      apply (H2 _ bs2); [eapply (wf_advance r _ []); rewrite ?app_nil_r; done|done|].
      by rewrite (view_advance_app _ []) by by rewrite app_nil_r.
    + destruct (H1 r (b :: t)) as (e & r' & -> & He); [done..|]. by exists e, r'.
Qed.

Lemma truncates_bind_ret {A B} (m : RM A) (k : A → RM B) bs : truncates m bs → truncates (m ≫= k) bs.
Proof. intros H r missing Hw Hm Hv. unfold mbind, RM_bind. destruct (H r missing) as (e & r' & -> & He); [done..|]. by exists e, r'. Qed.

Lemma truncates_offset {B} (k : Z → RM B) bs : (∀ o, truncates (k o) bs) → truncates (getOffset ≫= k) bs.
Proof. intros H r missing Hw Hm Hv. by apply (H _ r missing). Qed.

Lemma truncates_catch {A} (m : RM A) wrap bs : (∀ o e, eof_error e = true → eof_error (wrap o e) = true) →
  truncates m bs → truncates (catch m wrap) bs.
Proof.
  intros Hwr H r missing Hw Hm Hv. unfold catch. destruct (H r missing) as (e & r' & -> & He); [done..|].
  eexists _, _. split; [done|]. by apply Hwr.
Qed.

Lemma truncates_ReadN bs n : n = Z.of_nat (length bs) → truncates (ReadN n) bs.
Proof.
  intros -> r missing Hw Hm Hv. unfold ReadN. rewrite (proj2 (Z.ltb_ge _ _)) by lia. rewrite <- length_view by done.
  apply (f_equal length) in Hv. rewrite length_app in Hv. assert (length missing ≠ 0%nat) by by destruct missing.
  rewrite (proj2 (Z.ltb_lt _ _)) by lia. eexists _, _. split; done.
Qed.
