(* ===== verification/Ranges.v ===== *)
(** * internal/yidset: half-open clock ranges and normalised range lists

    The record of range.go with its methods, the list algorithms of idset.go and
    slice.go that work on one client's ranges (insertion with coalescing, the
    two-pointer intersection, the subtraction sweep), and their denotation
    [covers]: the set of clocks a list stands for. *)
From S2P Require Import Prelude GoError.

(** type Range struct{ Clock, Length uint32 } *)
Record Range := mkRange { r_Clock : Z; r_Length : Z }.

#[export] Instance Range_eq_dec : EqDecision Range.
Proof. solve_decision. Defined.

(** The second component is Go's [ok]; the first is 0 when it is false. *)
Definition rangeEnd (clock length : Z) : Z * bool :=
  let e := clock + length in
  if 4294967296 <? e then (0, false) else (e, true).

Definition NewRange (clock length : Z) : result Range :=
  if length =? 0 then Err yidset_ErrInvalidLength
  else if negb (snd (rangeEnd clock length)) then Err yidset_ErrRangeOverflow
  else Ok (mkRange clock length).

(** The sum is taken in uint64 and cannot wrap. *)
Definition Range_End (r : Range) : Z := r_Clock r + r_Length r.

Definition Range_Contains (r : Range) (clock : Z) : bool :=
  (r_Clock r <=? clock) && (clock <? Range_End r).

Definition Range_CanMerge (r other : Range) : bool :=
  (r_Clock other <=? Range_End r) && (r_Clock r <=? Range_End other).

Definition mergeRanges (left right : Range) : Range :=
  let start := if r_Clock right <? r_Clock left then r_Clock right else r_Clock left in
  let e := if Range_End left <? Range_End right then Range_End right else Range_End left in
  mkRange start (w32 (e - start)).

(** The insertion loop shared by [IdSet.Add] and [addRange]: the state is
    (merged, inserted, next). *)
Fixpoint insert_loop (ranges merged : list Range) (inserted : bool) (next : Range)
    : list Range :=
  match ranges with
  | [] => if negb inserted then merged ++ [next] else merged
  | current :: ranges =>
      if Range_End current <? r_Clock next then
        insert_loop ranges (merged ++ [current]) inserted next
      else if Range_End next <? r_Clock current then
        let merged := if negb inserted then merged ++ [next] else merged in
        insert_loop ranges (merged ++ [current]) true next
      else insert_loop ranges merged inserted (mergeRanges next current)
  end.

(** The two-pointer walk of [IntersectSets] over one client's ranges. *)
Fixpoint intersectRanges (a : list Range) : list Range → list Range :=
  match a with
  | [] => λ _, []
  | ra :: a' =>
      fix walk (b : list Range) : list Range :=
        match b with
        | [] => []
        | rb :: b' =>
            let start := if r_Clock ra <? r_Clock rb then r_Clock rb else r_Clock ra in
            let e := if Range_End rb <? Range_End ra then Range_End rb else Range_End ra in
            let res := if start <? e then [mkRange start (w32 (e - start))] else [] in
            res ++ (if Range_End ra <? Range_End rb then intersectRanges a' b else walk b')
        end
  end.

(** [for j < len(right) && right[j].End() <= currentStart { j++ }] *)
Fixpoint skip_before (currentStart : Z) (right : list Range) : list Range :=
  match right with
  | [] => []
  | r :: right' => if Range_End r <=? currentStart then skip_before currentStart right' else right
  end.

(** The inner loop of [subtractRanges]: pieces emitted, remaining removals, cursor. *)
Fixpoint subtract_loop (currentEnd cursor : Z) (right : list Range)
    : list Range * list Range * Z :=
  match right with
  | [] => ([], [], cursor)
  | r :: right' =>
      if r_Clock r <? currentEnd then
        let removeStart := r_Clock r in
        let removeEnd := Range_End r in
        let out := if cursor <? removeStart
                   then [mkRange (w32 cursor) (w32 (removeStart - cursor))] else [] in
        if currentEnd <=? removeEnd then (out, right, currentEnd)
        else
          let '(out', rest, cursor') := subtract_loop currentEnd removeEnd right' in
          (out ++ out', rest, cursor')
      else ([], right, cursor)
  end.

Fixpoint subtract_sweep (left right : list Range) : list Range :=
  match left with
  | [] => []
  | current :: left' =>
      let currentEnd := Range_End current in
      let right := skip_before (r_Clock current) right in
      let '(out, right', cursor) := subtract_loop currentEnd (r_Clock current) right in
      let tail := if cursor <? currentEnd
                  then [mkRange (w32 cursor) (w32 (currentEnd - cursor))] else [] in
      out ++ tail ++ subtract_sweep left' right'
  end.

Definition subtractRanges (left right : list Range) : list Range :=
  match right with [] => left | _ => subtract_sweep left right end.

Fixpoint validateRangeList (ranges : list Range) : option error :=
  match ranges with
  | [] => None
  | r :: ranges =>
      if negb (snd (rangeEnd (r_Clock r) (r_Length r))) then Some (Sentinel yidset_ErrRangeOverflow)
      else if r_Length r =? 0 then Some (Sentinel yidset_ErrInvalidLength)
      else validateRangeList ranges
  end.

(** ** Denotation and normal form *)

(** What [NewRange] accepts from uint32 arguments. *)
Definition wf_range (r : Range) : Prop :=
  is_u32 (r_Clock r) ∧ 0 < r_Length r < 4294967296 ∧ Range_End r <= 4294967296.

(** Sorted, and every range starts strictly after the end of the previous one
    (adjacent ranges are coalesced); [lo] bounds the first. *)
Fixpoint ranges_above (lo : Z) (l : list Range) : Prop :=
  match l with
  | [] => True
  | r :: l => lo < r_Clock r ∧ wf_range r ∧ ranges_above (Range_End r) l
  end.

Definition wf_ranges (l : list Range) : Prop := ranges_above (-1) l.

Definition in_range (r : Range) (x : Z) : Prop := r_Clock r <= x < Range_End r.
Definition covers (l : list Range) (x : Z) : Prop := Exists (λ r, in_range r x) l.

#[export] Instance wf_range_dec r : Decision (wf_range r).
Proof. unfold wf_range. apply _. Defined.
#[export] Instance ranges_above_dec lo l : Decision (ranges_above lo l).
Proof. revert lo. induction l as [|r l IH]; intros lo; cbn; apply _. Defined.
#[export] Instance in_range_dec r x : Decision (in_range r x).
Proof. unfold in_range. apply _. Defined.
#[export] Instance covers_dec l x : Decision (covers l x).
Proof. unfold covers. apply _. Defined.

Lemma covers_nil x : ¬ covers [] x.
Proof. intros H. inversion H. Qed.
Lemma covers_cons r l x : covers (r :: l) x ↔ in_range r x ∨ covers l x.
Proof. apply Exists_cons. Qed.
Lemma covers_app l k x : covers (l ++ k) x ↔ covers l x ∨ covers k x.
Proof. apply Exists_app. Qed.

(** Unfold the range predicates and close arithmetic goals. *)
Ltac rg := unfold wf_range, in_range, Range_End, is_u32 in *; cbn [r_Clock r_Length] in *; lia.

Lemma ranges_above_weaken lo lo' l : lo' <= lo → ranges_above lo l → ranges_above lo' l.
Proof. destruct l as [|r l]; cbn; [done|]. intros ? (? & ? & ?). split_and!; [lia|done..]. Qed.

Lemma covers_above lo l x : ranges_above lo l → covers l x → lo < x < 4294967296.
Proof.
  revert lo. induction l as [|r l IH]; intros lo; cbn; [by intros _ ?%covers_nil|].
  intros (H1 & Hr & H2) [H|H]%covers_cons; [rg|]. specialize (IH _ H2 H). rg.
Qed.

(** The end of the last range, [lo] for the empty list. *)
Definition last_end (lo : Z) (l : list Range) : Z := foldl (λ _ r, Range_End r) lo l.

Lemma last_end_snoc lo l r : last_end lo (l ++ [r]) = Range_End r.
Proof. unfold last_end. by rewrite foldl_app. Qed.

Lemma ranges_above_app lo l k :
  ranges_above lo (l ++ k) ↔ ranges_above lo l ∧ ranges_above (last_end lo l) k.
Proof.
  revert lo. induction l as [|r l IH]; intros lo; cbn; [tauto|]. rewrite IH. unfold last_end. tauto.
Qed.

Lemma last_end_above lo l : ranges_above lo l → lo <= last_end lo l.
Proof.
  revert lo. induction l as [|r l IH]; intros lo; cbn; [lia|].
  intros (? & ? & Hl). specialize (IH _ Hl). fold (last_end (Range_End r) l). rg.
Qed.

Lemma covers_head r l : wf_range r → covers (r :: l) (r_Clock r).
Proof. intros. apply covers_cons. left. rg. Qed.

(** Two normalised lists with the same clocks are the same list. *)
Lemma ranges_ext lo l1 l2 : ranges_above lo l1 → ranges_above lo l2 →
  (∀ x, covers l1 x ↔ covers l2 x) → l1 = l2.
Proof.
  revert lo l2. induction l1 as [|r1 l1 IH]; intros lo [|r2 l2]; [done|..]; cbn [ranges_above].
  1: intros _ (_ & Hr & _) H; by destruct (covers_nil (r_Clock r2)); apply H, covers_head.
  1: intros (_ & Hr & _) _ H; by destruct (covers_nil (r_Clock r1)); apply H, covers_head.
  intros (Hlo1 & Hr1 & Hl1) (Hlo2 & Hr2 & Hl2) H.
  assert (∀ x, covers l1 x → Range_End r1 < x) as Hc1 by (intros x Hx; by apply (covers_above _ _ _ Hl1)).
  assert (∀ x, covers l2 x → Range_End r2 < x) as Hc2 by (intros x Hx; by apply (covers_above _ _ _ Hl2)).
  setoid_rewrite covers_cons in H.
  assert (r_Clock r1 = r_Clock r2) as Hs.
  { destruct (proj1 (H (r_Clock r1))) as [|Hx%Hc2]; [left; rg|..];
    (destruct (proj2 (H (r_Clock r2))) as [|Hy%Hc1]; [left; rg|..]); rg. }
  assert (Range_End r1 = Range_End r2) as He.
  { destruct (Z.lt_trichotomy (Range_End r1) (Range_End r2)) as [Hlt|[?|Hlt]]; [exfalso|done|exfalso].
    - destruct (proj2 (H (Range_End r1))) as [|?%Hc1]; [left|..]; rg.
    - destruct (proj1 (H (Range_End r2))) as [|?%Hc2]; [left|..]; rg. }
  assert (r1 = r2) as <- by (destruct r1, r2; cbn in *; f_equal; rg).
  f_equal. apply (IH (Range_End r1)); [done..|]. intros x. split; intros Hx.
  - destruct (proj1 (H x)) as [|]; [by right| |done]. specialize (Hc1 x Hx). rg.
  - destruct (proj2 (H x)) as [|]; [by right| |done]. specialize (Hc2 x Hx). rg.
Qed.

(** ** Construction and merging of ranges *)

Lemma NewRange_Ok clock length r : is_u32 clock → is_u32 length →
  NewRange clock length = Ok r ↔ r = mkRange clock length ∧ wf_range r.
Proof.
  intros Hc Hl. unfold NewRange, rangeEnd. destruct (Z.eqb_spec length 0) as [->|Hn].
  { split; [done|]. intros [-> ?]. rg. }
  destruct (Z.ltb_spec 4294967296 (clock + length)); cbn; split; try done.
  - intros [-> ?]. rg.
  - intros [= <-]. split; [done|rg].
  - by intros [-> ?].
Qed.

Lemma NewRange_spec clock length : is_u32 clock → is_u32 length →
  NewRange clock length =
    if length =? 0 then Err yidset_ErrInvalidLength
    else if 4294967296 <? clock + length then Err yidset_ErrRangeOverflow
    else Ok (mkRange clock length).
Proof. intros. unfold NewRange, rangeEnd. by repeat case_cmp. Qed.

Lemma mergeRanges_spec a b y : wf_range a → wf_range b → Range_CanMerge a b = true →
  is_u32 y → ¬ in_range a y → ¬ in_range b y →
  wf_range (mergeRanges a b) ∧ (∀ x, in_range (mergeRanges a b) x ↔ in_range a x ∨ in_range b x).
Proof.
  unfold Range_CanMerge. rewrite andb_true_iff, !Z.leb_le. intros Ha Hb [H1 H2] Hy Hya Hyb.
  unfold mergeRanges. set (s := if _ <? _ then _ else _). set (e := if _ <? _ then _ else _).
  assert (s = Z.min (r_Clock a) (r_Clock b)) as -> by (subst s; case_cmp; lia).
  assert (e = Z.max (Range_End a) (Range_End b)) as -> by (subst e; case_cmp; lia).
  rewrite w32_small by rg. split; [rg|]. intros x. rg.
Qed.

(** The loop without its accumulator. *)
Fixpoint insert_range (l : list Range) (next : Range) : list Range :=
  match l with
  | [] => [next]
  | c :: l' =>
      if Range_End c <? r_Clock next then c :: insert_range l' next
      else if Range_End next <? r_Clock c then next :: c :: l'
      else insert_range l' (mergeRanges next c)
  end.

Lemma insert_loop_inserted lo l merged next :
  ranges_above lo l → wf_range next → Range_End next <= lo →
  insert_loop l merged true next = merged ++ l.
Proof.
  intros Hl Hn. revert lo merged Hl. induction l as [|c l IH]; intros lo merged; cbn; [by rewrite app_nil_r|].
  intros (? & ? & Hl) ?. repeat case_cmp; [rg| |rg].
  rewrite (IH (Range_End c)); [|done|rg]. by rewrite <- app_assoc.
Qed.

(** Some clock stays outside both the list and the new range. *)
Definition room (l : list Range) (next : Range) (y : Z) : Prop :=
  is_u32 y ∧ ¬ covers l y ∧ ¬ in_range next y.

Lemma room_cons c l next y : room (c :: l) next y ↔ room l next y ∧ ¬ in_range c y.
Proof. unfold room. rewrite covers_cons. naive_solver. Qed.

Lemma CanMerge_true a b : r_Clock a <= Range_End b → r_Clock b <= Range_End a → Range_CanMerge a b = true.
Proof. intros. unfold Range_CanMerge. rewrite andb_true_iff, !Z.leb_le. done. Qed.

Lemma room_merge c l next y : wf_range c → wf_range next → Range_CanMerge next c = true →
  room (c :: l) next y →
  room l (mergeRanges next c) y ∧ wf_range (mergeRanges next c) ∧
  (∀ x, in_range (mergeRanges next c) x ↔ in_range next x ∨ in_range c x).
Proof.
  intros Hc Hn Hm [[Hy [Hl Hny]] Hcy]%room_cons.
  destruct (mergeRanges_spec next c y) as [Hw Hin]; [done..|].
  split_and!; [|done..]. unfold room. rewrite Hin. naive_solver.
Qed.

Lemma insert_loop_eq lo l merged next y :
  ranges_above lo l → wf_range next → room l next y →
  insert_loop l merged false next = merged ++ insert_range l next.
Proof.
  revert lo merged next. induction l as [|c l IH]; intros lo merged next; cbn; [done|].
  intros (Hlo & Hc & Hl) Hn Hr. case_cmp; [|case_cmp].
  - apply room_cons in Hr as [Hr _]. rewrite (IH _ _ _ Hl Hn Hr), <- app_assoc. done.
  - rewrite (insert_loop_inserted (Range_End c)) by (done || rg). by rewrite <- !app_assoc.
  - destruct (room_merge c l next y) as (? & ? & _); [done..|apply CanMerge_true; lia|done|]. eauto.
Qed.

Lemma insert_range_spec lo l next y :
  ranges_above lo l → wf_range next → lo < r_Clock next → room l next y →
  ranges_above lo (insert_range l next) ∧
  (∀ x, covers (insert_range l next) x ↔ in_range next x ∨ covers l x).
Proof.
  revert lo next. induction l as [|c l IH]; intros lo next; cbn.
  - intros _ Hn Hlo _. split; [done|]. intros x. rewrite covers_cons. done.
  - intros (Hc1 & Hc & Hl) Hn Hlo Hr. case_cmp; [|case_cmp].
    + apply room_cons in Hr as [Hr _]. destruct (IH (Range_End c) next) as [IH1 IH2]; [done..|].
      split; [done|]. intros x. rewrite !covers_cons, IH2. tauto.
    + split; [done|]. intros x. by rewrite covers_cons.
    + destruct (room_merge c l next y) as (Hr' & Hw & Hin); [done..|apply CanMerge_true; lia|done|].
      destruct (IH lo (mergeRanges next c)) as [IH1 IH2]; [|done| |done|].
      * eapply ranges_above_weaken; [|done]. rg.
      * pose proof (proj1 (Hin (r_Clock (mergeRanges next c)))) as Hs. rg.
      * split; [done|]. intros x. rewrite IH2, Hin, covers_cons. tauto.
Qed.

Lemma insert_range_ne l next : insert_range l next ≠ [].
Proof. revert next. induction l as [|c l IH]; intros next; cbn; [done|]. by repeat case_cmp. Qed.

(** ** Intersection *)

Lemma intersect_piece ra rb : wf_range ra → wf_range rb →
  let start := if r_Clock ra <? r_Clock rb then r_Clock rb else r_Clock ra in
  let e := if Range_End rb <? Range_End ra then Range_End rb else Range_End ra in
  start = Z.max (r_Clock ra) (r_Clock rb) ∧ e = Z.min (Range_End ra) (Range_End rb) ∧
  (start < e → wf_range (mkRange start (w32 (e - start))) ∧ Range_End (mkRange start (w32 (e - start))) = e).
Proof.
  intros Ha Hb start e. assert (start = Z.max (r_Clock ra) (r_Clock rb)) as Hs by (subst start; case_cmp; lia).
  assert (e = Z.min (Range_End ra) (Range_End rb)) as He by (subst e; case_cmp; lia).
  split_and!; [done..|]. intros Hlt. rewrite w32_small by rg. rg.
Qed.

Lemma intersectRanges_spec la lb a b :
  ranges_above la a → ranges_above lb b →
  ranges_above (Z.max la lb) (intersectRanges a b) ∧
  (∀ x, covers (intersectRanges a b) x ↔ covers a x ∧ covers b x).
Proof.
  revert la lb b. induction a as [|ra a IHa]; intros la lb b.
  { intros _ _. split; [done|]. intros x. cbn. split; [by intros ?%covers_nil|by intros [?%covers_nil _]]. }
  intros (Ha1 & Hra & Ha). revert lb. induction b as [|rb b IHb]; intros lb.
  { intros _. split; [done|]. intros x. cbn. split; [by intros ?%covers_nil|by intros [_ ?%covers_nil]]. }
  intros (Hb1 & Hrb & Hb). cbn -[Z.ltb].
  destruct (intersect_piece ra rb Hra Hrb) as (Es & Ee & Hp). cbn zeta in Hp.
  set (s := if r_Clock ra <? r_Clock rb then _ else _) in *.
  set (e := if Range_End rb <? Range_End ra then _ else _) in *.
  assert (∀ x, covers a x → Range_End ra < x) as Hca by (intros x Hx; by apply (covers_above _ _ _ Ha)).
  assert (∀ x, covers b x → Range_End rb < x) as Hcb by (intros x Hx; by apply (covers_above _ _ _ Hb)).
  set (rest := if Range_End ra <? Range_End rb then _ else _).
  assert (ranges_above (Z.max (Z.max la lb) e) rest ∧
    (∀ x, covers rest x ↔ e <= x ∧ covers (ra :: a) x ∧ covers (rb :: b) x)) as [Hrest Hcr].
  { subst rest. destruct (Z.ltb_spec (Range_End ra) (Range_End rb)).
    - destruct (IHa (Range_End ra) lb (rb :: b)) as [I1 I2]; [done..|].
      split; [eapply ranges_above_weaken; [|done]; rg|]. intros x. rewrite I2, !covers_cons.
      split; [intros [H1 H2]; specialize (Hca x H1); split_and!; [rg|by right|done]|].
      intros (He & [?|?] & ?); [rg|done].
    - destruct (IHb (Range_End rb) Hb) as [I1 I2].
      split; [eapply ranges_above_weaken; [|done]; rg|]. intros x. fold (intersectRanges (ra :: a)).
      rewrite I2, !covers_cons.
      split; [intros [H1 H2]; specialize (Hcb x H2); split_and!; [rg|done|by right]|].
      intros (He & ? & [?|?]); [rg|done]. }
  assert (∀ x, covers rest x ∨ in_range ra x ∧ in_range rb x ↔ covers (ra :: a) x ∧ covers (rb :: b) x) as Hall.
  { intros x. rewrite Hcr, !covers_cons. split; [tauto|].
    intros [[Hx|Hx] [Hy|Hy]]; [by right|left..]; (split; [|tauto]);
      try (specialize (Hca x Hx)); try (specialize (Hcb x Hy)); rg. }
  destruct (Z.ltb_spec s e) as [Hlt|Hge]; cbn.
  - destruct (Hp Hlt) as [Hw He]. rewrite He. split.
    + split_and!; [rg|done|]. eapply ranges_above_weaken; [|done]. rg.
    + intros x. rewrite covers_cons, <- Hall. unfold in_range at 1. rewrite He. cbn [r_Clock].
      assert (s <= x < e ↔ in_range ra x ∧ in_range rb x) as -> by (subst; rg). tauto.
  - split; [eapply ranges_above_weaken; [|done]; rg|]. intros x. rewrite <- Hall. split; [tauto|].
    intros [?|[? ?]]; [done|rg].
Qed.

(** ** Subtraction *)

Lemma skip_before_spec cs lr right : ranges_above lr right →
  ranges_above lr (skip_before cs right) ∧
  (∀ x, cs <= x → covers (skip_before cs right) x ↔ covers right x) ∧
  (∀ r l, skip_before cs right = r :: l → cs < Range_End r).
Proof.
  revert lr. induction right as [|r right IH]; intros lr; cbn; [done|].
  intros (Hlo & Hr & Hright). destruct (Z.leb_spec (Range_End r) cs).
  - destruct (IH _ Hright) as (I1 & I2 & I3). split_and!; [|..|done].
    + eapply ranges_above_weaken; [|done]. rg.
    + intros x Hx. rewrite I2, covers_cons by done. split; [by right|]. intros [?|?]; [rg|done].
  - split_and!; [done..|]. intros ? ? [= <- <-]. done.
Qed.

(** The pieces lie between the cursors, avoid the removals, and anything that
    starts at the final cursor may follow them. *)
Lemma subtract_loop_spec ce cursor lr right out rest cursor' :
  ranges_above lr right → (∀ r l, right = r :: l → cursor < Range_End r) →
  0 <= cursor < ce → ce <= 4294967296 → ce - cursor < 4294967296 →
  subtract_loop ce cursor right = (out, rest, cursor') →
  cursor <= cursor' <= ce ∧ ranges_above lr rest ∧
  (∀ lo k, lo < cursor → ranges_above (cursor' - 1) k → ranges_above lo (out ++ k)) ∧
  (∀ x, covers out x ↔ cursor <= x < cursor' ∧ ¬ covers right x) ∧
  (∀ x, cursor' <= x < ce → ¬ covers right x) ∧
  (∀ x, ce <= x → covers rest x ↔ covers right x).
Proof.
  revert cursor lr out rest cursor'. induction right as [|r right IH]; intros cursor lr out rest cursor'; cbn.
  - intros _ _ Hc Hce Hw [= <- <- <-]. split_and!; try done; try lia.
    + intros lo k ? Hk. eapply ranges_above_weaken; [|done]. lia.
    + intros x. split; [by intros ?%covers_nil|lia].
    + intros x _. apply covers_nil.
  - intros (Hlo & Hr & Hright) Hhead Hc Hce Hw. specialize (Hhead _ _ eq_refl).
    assert (∀ x, covers right x → Range_End r < x) as Hcr by (intros x Hx; by apply (covers_above _ _ _ Hright)).
    destruct (Z.ltb_spec (r_Clock r) ce) as [Hin|Hout].
    2: { intros [= <- <- <-]. split_and!; try done; try lia.
         - intros lo k ? Hk. eapply ranges_above_weaken; [|done]. lia.
         - intros x. split; [by intros ?%covers_nil|lia].
         - intros x Hx [?|Hy%Hcr]%covers_cons; rg. }
    set (piece := if cursor <? r_Clock r then _ else _).
    assert ((∀ lo k, lo < cursor → ranges_above (Z.max cursor (r_Clock r)) k → ranges_above lo (piece ++ k)) ∧
            ∀ x, covers piece x ↔ cursor <= x < r_Clock r) as [Hp1 Hp2].
    { subst piece. destruct (Z.ltb_spec cursor (r_Clock r)).
      - rewrite !w32_small by rg. split.
        + intros lo k ? Hk. cbn. split_and!; [done|rg|]. eapply ranges_above_weaken; [|done]. rg.
        + intros x. rewrite covers_cons. split; [intros [?|?%covers_nil]; [rg|done]|left; rg].
      - split.
        + intros lo k ? Hk. eapply ranges_above_weaken; [|done]. lia.
        + intros x. split; [by intros ?%covers_nil|lia]. }
    destruct (Z.leb_spec ce (Range_End r)) as [Hbrk|Hgo].
    + intros [= <- <- <-]. split_and!; try done; try lia.
      * intros lo k ? Hk. apply Hp1; [done|]. eapply ranges_above_weaken; [|done]. lia.
      * intros x. rewrite Hp2, covers_cons. split; [intros; split; [rg|]; intros [?|?%Hcr]; rg|].
        intros [? Hn]. assert (¬ in_range r x) by tauto. rg.
    + destruct (subtract_loop ce (Range_End r) right) as [[out' rest'] c'] eqn:E. intros [= <- <- <-].
      apply (IH _ (Range_End r)) in E as (Hc' & Hrest & Hk & Hout & Hno & Hcov); [|done| |rg|done|rg].
      2: { intros r' l ->. cbn in Hright. rg. }
      split_and!; [rg|rg|by eapply ranges_above_weaken; [|done]; rg|..].
      * intros lo k ? Hk'. rewrite <- app_assoc. apply Hp1; [done|]. apply Hk; [rg|done].
      * intros x. rewrite covers_app, Hp2, Hout, covers_cons. split.
        -- intros [?|[? ?]]; (split; [rg|]); intros [?|Hy]; try specialize (Hcr _ Hy); try tauto; rg.
        -- intros [? Hn]. assert (¬ in_range r x) by tauto.
           destruct (decide (x < r_Clock r)); [left; rg|right]. split; [rg|tauto].
      * intros x Hx. rewrite covers_cons. intros [?|?]; [rg|by apply (Hno x)].
      * intros x Hx. rewrite Hcov, covers_cons by done. split; [by right|]. intros [?|?]; [rg|done].
Qed.

Lemma subtract_sweep_spec la lr left right : ranges_above la left → ranges_above lr right →
  ranges_above la (subtract_sweep left right) ∧
  (∀ x, covers (subtract_sweep left right) x ↔ covers left x ∧ ¬ covers right x).
Proof.
  revert la lr right. induction left as [|c left IH]; intros la lr right; cbn [subtract_sweep].
  { intros _ _. split; [done|]. intros x. split; [by intros ?%covers_nil|by intros [?%covers_nil _]]. }
  intros (Hlo & Hc & Hleft) Hright.
  destruct (skip_before_spec (r_Clock c) lr right Hright) as (S1 & S2 & S3).
  destruct (subtract_loop (Range_End c) (r_Clock c) (skip_before (r_Clock c) right)) as [[out rest] c'] eqn:E.
  apply subtract_loop_spec with (lr := lr) in E as (Hc' & Hrest & Hk & Hout & Hno & Hcov); [|done..|rg|rg|rg].
  destruct (IH (Range_End c) _ rest Hleft Hrest) as [I1 I2].
  set (tail := if c' <? Range_End c then _ else _).
  assert (ranges_above (c' - 1) (tail ++ subtract_sweep left rest) ∧
          ∀ x, covers tail x ↔ c' <= x < Range_End c) as [Ht1 Ht2].
  { subst tail. destruct (Z.ltb_spec c' (Range_End c)).
    - rewrite !w32_small by rg. split.
      + cbn. split_and!; [lia|rg|]. eapply ranges_above_weaken; [|done]. rg.
      + intros x. rewrite covers_cons. split; [intros [?|?%covers_nil]; [rg|done]|left; rg].
    - split; [eapply ranges_above_weaken; [|done]; lia|].
      intros x. split; [by intros ?%covers_nil|lia]. }
  split; [by apply Hk|]. intros x. rewrite !covers_app, Hout, Ht2, I2, covers_cons.
  assert (∀ x, covers left x → Range_End c < x) as Hcl by (intros z Hz; by apply (covers_above _ _ _ Hleft)).
  split.
  - intros [[? Hn]|[?|[Hx Hn]]].
    + rewrite S2 in Hn by lia. split; [left; rg|done].
    + split; [left; rg|]. rewrite <- S2 by lia. by apply Hno.
    + split; [by right|]. specialize (Hcl x Hx). rewrite Hcov, S2 in Hn by rg. done.
  - intros [[Hin|Hx] Hn].
    + rewrite <- S2 in Hn by rg. destruct (decide (x < c')); [left; split; [rg|done]|right; left; rg].
    + right; right. split; [done|]. specialize (Hcl x Hx). by rewrite Hcov, S2 by rg.
Qed.

Lemma subtractRanges_spec la lr left right : ranges_above la left → ranges_above lr right →
  ranges_above la (subtractRanges left right) ∧
  (∀ x, covers (subtractRanges left right) x ↔ covers left x ∧ ¬ covers right x).
Proof.
  intros Hl Hr. destruct right as [|r right]; [|by eapply subtract_sweep_spec].
  split; [done|]. intros x. split; [|tauto]. intros Hx. split; [done|apply covers_nil].
Qed.

Lemma validateRangeList_wf lo l : ranges_above lo l → validateRangeList l = None.
Proof.
  revert lo. induction l as [|r l IH]; intros lo; cbn; [done|]. intros (_ & Hr & Hl).
  unfold rangeEnd. destruct (Z.ltb_spec 4294967296 (r_Clock r + r_Length r)); [rg|].
  cbn. destruct (Z.eqb_spec (r_Length r) 0); [rg|]. eauto.
Qed.
