(* ===== verification/IdSet.v ===== *)
(** * internal/yidset: sets of (client, clock) pairs

    idset.go and slice.go.  The map field is a [gmap] from client to ranges; a
    nil map and an empty map behave alike in every operation and are the same
    model value.  A [*IdSet] that the code tests against nil is an [option IdSet].
    Go's [range] over a map visits the keys in an unspecified order: the loops
    that do so take the order as an argument, and the operations instantiate it
    with [map_to_list]; the results do not depend on it (IdSetFacts). *)
From S2P Require Import Prelude GoError Ranges.

Record IdSet := mkIdSet { clients : gmap Z (list Range) }.

#[export] Instance IdSet_eq_dec : EqDecision IdSet.
Proof. solve_decision. Defined.

Definition IdSet_New : IdSet := mkIdSet ∅.

(** [s.clients[client]]: the zero value of a slice for a missing key. *)
Definition ranges_of (s : IdSet) (client : Z) : list Range := default [] (clients s !! client).

Definition set_ranges (s : IdSet) (client : Z) (l : list Range) : IdSet :=
  mkIdSet (<[client := l]> (clients s)).

Definition IdSet_Clone (s : option IdSet) : IdSet :=
  match s with None => IdSet_New | Some s => mkIdSet (clients s) end.

Definition IdSet_IsEmpty (s : option IdSet) : bool :=
  match s with None => true | Some s => bool_decide (size (clients s) = 0%nat) end.

Definition IdSet_ClientCount (s : option IdSet) : Z :=
  match s with None => 0 | Some s => Z.of_nat (size (clients s)) end.

Definition IdSet_RangeCount (s : option IdSet) (client : Z) : Z :=
  match s with None => 0 | Some s => Z.of_nat (length (ranges_of s client)) end.

Definition IdSet_TotalRangeCount (s : option IdSet) : Z :=
  match s with
  | None => 0
  | Some s => foldr (λ '(_, ranges) total, total + Z.of_nat (length ranges)) 0 (map_to_list (clients s))
  end.

(** The body of [Add] on a non-nil receiver. *)
Definition IdSet_add (s : IdSet) (client clock length : Z) : IdSet * option error :=
  match NewRange clock length with
  | Err err => (s, Some err)
  | Ok next =>
      let ranges := ranges_of s client in
      match last ranges with
      | None => (set_ranges s client [next], None)
      | Some lst =>
          if r_Clock lst <=? r_Clock next then
            if Range_End lst <? r_Clock next
            then (set_ranges s client (ranges ++ [next]), None)
            else (set_ranges s client
                    (<[(Datatypes.length ranges - 1)%nat := mergeRanges lst next]> ranges), None)
          else (set_ranges s client (insert_loop ranges [] false next), None)
      end
  end.

Definition IdSet_Add (s : option IdSet) (client clock length : Z) : option IdSet * option error :=
  match s with
  | None => (None, None)
  | Some s => let '(s, err) := IdSet_add s client clock length in (Some s, err)
  end.

(** [for _, r := range ranges { if err := s.Add(...); err != nil { return err } }] *)
Fixpoint add_ranges (s : IdSet) (client : Z) (ranges : list Range) : IdSet * option error :=
  match ranges with
  | [] => (s, None)
  | r :: ranges =>
      match IdSet_add s client (r_Clock r) (r_Length r) with
      | (s, Some err) => (s, Some err)
      | (s, None) => add_ranges s client ranges
      end
  end.

(** The loop of [Merge] over the entries of [other.clients], in the given order. *)
Fixpoint merge_loop (s : IdSet) (entries : list (Z * list Range)) : IdSet * option error :=
  match entries with
  | [] => (s, None)
  | (client, ranges) :: entries =>
      match ranges with
      | [] => merge_loop s entries
      | _ =>
          match clients s !! client with
          | None => merge_loop (set_ranges s client ranges) entries
          | Some _ =>
              match add_ranges s client ranges with
              | (s, Some err) => (s, Some err)
              | (s, None) => merge_loop s entries
              end
          end
      end
  end.

Definition IdSet_Merge (s other : option IdSet) : option IdSet * option error :=
  match s, other with
  | Some s, Some other =>
      let '(s, err) := merge_loop s (map_to_list (clients other)) in (Some s, err)
  | _, _ => (s, None)
  end.

Definition InsertIntoIdSet (dest src : option IdSet) : option IdSet * option error :=
  match dest, src with
  | None, _ | _, None => (dest, None)
  | _, _ => IdSet_Merge dest src
  end.

(** Errors of the single insertions are dropped, as in the source. *)
Definition MergeIdSets (sets : list (option IdSet)) : IdSet :=
  default IdSet_New (fold_left (λ merged set, fst (InsertIntoIdSet merged set)) sets (Some IdSet_New)).

(** The binary search of [Has]; the interval shrinks at every step, so the
    number of ranges is enough fuel (IdSetFacts). *)
Fixpoint Has_loop (fuel : nat) (ranges : list Range) (clock left right : Z) : bool :=
  match fuel with
  | O => false
  | S fuel =>
      if left <=? right then
        let mid := (left + right) / 2 in
        match ranges !! Z.to_nat mid with
        | None => false
        | Some current =>
            if Range_Contains current clock then true
            else if clock <? r_Clock current then Has_loop fuel ranges clock left (mid - 1)
            else Has_loop fuel ranges clock (mid + 1) right
        end
      else false
  end.

Definition IdSet_Has (s : option IdSet) (client clock : Z) : bool :=
  match s with
  | None => false
  | Some s =>
      let ranges := ranges_of s client in
      Has_loop (S (length ranges)) ranges clock 0 (Z.of_nat (length ranges) - 1)
  end.

(** The keys of the map, sorted: [slices.Sort] returns the sorted permutation. *)
Definition IdSet_Clients (s : option IdSet) : list Z :=
  match s with
  | None => []
  | Some s => merge_sort Z.le (map_to_list (clients s)).*1
  end.

Definition IdSet_Ranges (s : option IdSet) (client : Z) : list Range :=
  match s with None => [] | Some s => ranges_of s client end.

(** The sequence of calls [fn(client, ranges)] an iteration makes. *)
Definition IdSet_ForEachClient (s : option IdSet) : list (Z * list Range) :=
  match s with
  | None => []
  | Some s' =>
      if (Z.of_nat (size (clients s')) <=? 1) then map_to_list (clients s')
      else (λ client, (client, ranges_of s' client)) <$> IdSet_Clients s
  end.

Definition IdSet_ForEachClientDesc (s : option IdSet) : list (Z * list Range) :=
  match s with
  | None => []
  | Some s' =>
      if (Z.of_nat (size (clients s')) <=? 1) then map_to_list (clients s')
      else (λ client, (client, ranges_of s' client)) <$> rev (IdSet_Clients s)
  end.

Definition IdSet_ForEach (s : option IdSet) : list (Z * Range) :=
  IdSet_ForEachClient s ≫= λ '(client, ranges), (λ r, (client, r)) <$> ranges.

(** ** slice.go *)

Record SliceSegment := mkSegment { seg_Clock : Z; seg_Length : Z; seg_Exists : bool }.

#[export] Instance SliceSegment_eq_dec : EqDecision SliceSegment.
Proof. solve_decision. Defined.

(** The [for _, current := range ranges] loop: segments so far and cursor. *)
Fixpoint slice_loop (ranges : list Range) (e cursor : Z) : list SliceSegment * Z :=
  match ranges with
  | [] => ([], cursor)
  | current :: ranges =>
      if Range_End current <=? cursor then slice_loop ranges e cursor
      else if e <=? r_Clock current then ([], cursor)
      else
        let start := if r_Clock current <? cursor then cursor else r_Clock current in
        let currentEnd := w32 (Range_End current) in
        let currentEnd := if e <? currentEnd then w32 e else currentEnd in
        let absent := if cursor <? start then [mkSegment cursor (start - cursor) false] else [] in
        let '(present, cursor) :=
          if start <? currentEnd
          then ([mkSegment start (currentEnd - start) true], currentEnd)
          else ([], cursor) in
        let '(segments, cursor) := slice_loop ranges e cursor in
        (absent ++ present ++ segments, cursor)
  end.

Definition IdSet_Slice (s : IdSet) (client clock length : Z) : list SliceSegment :=
  if length =? 0 then []
  else
    let '(e, ok) := rangeEnd clock length in
    if negb ok then [mkSegment clock length false]
    else
      match ranges_of s client with
      | [] => [mkSegment clock length false]
      | ranges =>
          let '(segments, cursor) := slice_loop ranges e clock in
          let segments :=
            if cursor <? e then segments ++ [mkSegment cursor (w32 (w32 e - cursor)) false]
            else segments in
          match segments with
          | [] => [mkSegment clock length false]
          | _ => segments
          end
      end.

(** The loop of [IntersectSets] over the clients of [left]. *)
Fixpoint intersect_clients (order : list Z) (left right result : IdSet) : IdSet :=
  match order with
  | [] => result
  | client :: order =>
      let a := ranges_of left client in
      let b := ranges_of right client in
      match a, b with
      | [], _ | _, [] => intersect_clients order left right result
      | _, _ =>
          let resRanges := intersectRanges a b in
          match resRanges with
          | [] => intersect_clients order left right result
          | _ => intersect_clients order left right (set_ranges result client resRanges)
          end
      end
  end.

Definition IntersectSets (left right : option IdSet) : IdSet :=
  match left, right with
  | Some l, Some r => intersect_clients (IdSet_Clients left) l r IdSet_New
  | _, _ => IdSet_New
  end.

Definition validate_entries (entries : list (Z * list Range)) : option error :=
  foldr (λ '(_, ranges) rest, match validateRangeList ranges with Some err => Some err | None => rest end)
    None entries.

Definition validateSetRanges (set : option IdSet) : option error :=
  match set with None => None | Some s => validate_entries (map_to_list (clients s)) end.

(** [addRange]: the same insertion as [Add], without the fast path, on the map
    under construction. *)
Definition addRange (target : IdSet) (client clock length : Z) : IdSet * option error :=
  match NewRange clock length with
  | Err err => (target, Some err)
  | Ok next =>
      match ranges_of target client with
      | [] => (set_ranges target client [next], None)
      | existing => (set_ranges target client (insert_loop existing [] false next), None)
      end
  end.

Fixpoint addRange_all (target : IdSet) (client : Z) (diff : list Range) : IdSet * option error :=
  match diff with
  | [] => (target, None)
  | r :: diff =>
      match addRange target client (r_Clock r) (r_Length r) with
      | (target, Some err) => (target, Some err)
      | (target, None) => addRange_all target client diff
      end
  end.

(** The loop of [Subtract] over the entries of [s.clients], in the given order;
    the first component is the map [next]. *)
Fixpoint subtract_clients (entries : list (Z * list Range)) (other next : IdSet)
    : IdSet * option error :=
  match entries with
  | [] => (next, None)
  | (client, baseRanges) :: entries =>
      let removals := ranges_of other client in
      match baseRanges with
      | [] => subtract_clients entries other next
      | _ =>
          match validateRangeList baseRanges, validateRangeList removals with
          | Some err, _ => (next, Some err)
          | None, Some err => (next, Some err)
          | None, None =>
              match removals with
              | [] => subtract_clients entries other
                        (set_ranges next client (ranges_of next client ++ baseRanges))
              | _ =>
                  match addRange_all next client (subtractRanges baseRanges removals) with
                  | (next, Some err) => (next, Some err)
                  | (next, None) => subtract_clients entries other next
                  end
              end
          end
      end
  end.

(** On an error the receiver keeps its map. *)
Definition IdSet_Subtract (s other : option IdSet) : option IdSet * option error :=
  match s, other with
  | Some s', Some other' =>
      if IdSet_IsEmpty s || IdSet_IsEmpty other then (s, None)
      else
        match subtract_clients (map_to_list (clients s')) other' IdSet_New with
        | (_, Some err) => (s, Some err)
        | (next, None) => (Some next, None)
        end
  | _, _ => (s, None)
  end.

Definition SubtractSets (left remove : option IdSet) : IdSet :=
  match left with
  | None => IdSet_New
  | Some _ =>
      let result := IdSet_Clone left in
      match remove with
      | None => result
      | Some _ =>
          match validateSetRanges left, validateSetRanges remove with
          | Some _, _ | None, Some _ => IdSet_New
          | None, None =>
              match IdSet_Subtract (Some result) remove with
              | (_, Some _) => IdSet_New
              | (Some result, None) => result
              | (None, None) => IdSet_New
              end
          end
      end
  end.
