(* ===== verification/IdSetFacts.v ===== *)
(** * Properties of the id sets

    Invariant [wf_set], denotation [mem], extensionality, and the functional
    correctness of every operation of IdSet.v in terms of [mem]. *)
From S2P Require Import Prelude GoError Ranges IdSet.

(** Every client has a nonempty normalised list: what the package maintains. *)
Definition wf_set (s : IdSet) : Prop :=
  map_Forall (λ _ l, wf_ranges l ∧ l ≠ []) (clients s).

(** The clocks of [client] in the set. *)
Definition mem (s : IdSet) (client x : Z) : Prop := covers (ranges_of s client) x.

(** A clock no client contains; clock 2^32-1 is one for every set built from structs. *)
Definition avoids (y : Z) (s : IdSet) : Prop := ∀ client, ¬ mem s client y.

Lemma avoids_entries y s : avoids y s ↔ map_Forall (λ _ l, ¬ covers l y) (clients s).
Proof.
  unfold avoids, mem, ranges_of. split.
  - intros H c l Hl. specialize (H c). by rewrite Hl in H.
  - intros H c. destruct (clients s !! c) as [l|] eqn:E; [by apply (H c l)|apply covers_nil].
Qed.

#[export] Instance avoids_dec y s : Decision (avoids y s).
Proof. refine (cast_if (decide (map_Forall (λ _ l, ¬ covers l y) (clients s)))); by rewrite avoids_entries. Defined.
#[export] Instance wf_set_dec s : Decision (wf_set s).
Proof. unfold wf_set, wf_ranges. apply _. Defined.
#[export] Instance mem_dec s c x : Decision (mem s c x).
Proof. unfold mem. apply _. Defined.

Create HintDb idset.

(** ** Lookup after update *)

Lemma ranges_of_set_eq s c l : ranges_of (set_ranges s c l) c = l.
Proof. unfold ranges_of, set_ranges; cbn. by rewrite lookup_insert_eq. Qed.
Lemma ranges_of_set_ne s c c' l : c ≠ c' → ranges_of (set_ranges s c l) c' = ranges_of s c'.
Proof. intros. unfold ranges_of, set_ranges; cbn. by rewrite lookup_insert_ne. Qed.
Lemma ranges_of_set s c c' l :
  ranges_of (set_ranges s c l) c' = if decide (c = c') then l else ranges_of s c'.
Proof. case_decide; [subst; apply ranges_of_set_eq|by apply ranges_of_set_ne]. Qed.
Lemma ranges_of_New c : ranges_of IdSet_New c = [].
Proof. done. Qed.

Lemma wf_set_New : wf_set IdSet_New.
Proof. apply map_Forall_empty. Qed.
Lemma mem_New c x : ¬ mem IdSet_New c x.
Proof. apply covers_nil. Qed.
Lemma avoids_New y : avoids y IdSet_New.
Proof. intros c. apply mem_New. Qed.

Lemma wf_ranges_of s c : wf_set s → wf_ranges (ranges_of s c).
Proof.
  intros Hw. unfold ranges_of. destruct (clients s !! c) as [l|] eqn:E; cbn; [|done]. by apply (Hw c l).
Qed.
Lemma ranges_of_nil s c : wf_set s → ranges_of s c = [] ↔ clients s !! c = None.
Proof.
  intros Hw. unfold ranges_of. destruct (clients s !! c) as [l|] eqn:E; cbn; [|done].
  split; [|done]. intros ->. by destruct (Hw c [] E).
Qed.
Lemma wf_set_ranges s c l : wf_set s → wf_ranges l → l ≠ [] → wf_set (set_ranges s c l).
Proof. intros. by apply map_Forall_insert_2. Qed.
Lemma wf_set_lookup s c l : wf_set s → clients s !! c = Some l → wf_ranges l ∧ l ≠ [].
Proof. intros Hw. apply Hw. Qed.
#[export] Hint Resolve wf_set_New wf_ranges_of wf_set_ranges avoids_New : idset.

Lemma mem_lookup s c l x : clients s !! c = Some l → mem s c x ↔ covers l x.
Proof. intros E. unfold mem, ranges_of. by rewrite E. Qed.

(** Normalised sets are determined by their members. *)
Lemma IdSet_ext s1 s2 : wf_set s1 → wf_set s2 → (∀ c x, mem s1 c x ↔ mem s2 c x) → s1 = s2.
Proof.
  intros H1 H2 H. destruct s1 as [m1], s2 as [m2]. f_equal. apply map_eq. intros c.
  assert (ranges_of (mkIdSet m1) c = ranges_of (mkIdSet m2) c) as E.
  { apply (ranges_ext (-1)); [by apply wf_ranges_of..|]. apply H. }
  pose proof (ranges_of_nil _ c H1) as N1. pose proof (ranges_of_nil _ c H2) as N2.
  unfold ranges_of in *; cbn in *. rewrite E in N1.
  destruct (m1 !! c) as [l1|], (m2 !! c) as [l2|]; cbn in *; [by rewrite E| | |done].
  - discriminate (proj1 N1 eq_refl).
  - discriminate (proj1 N2 (eq_sym E)).
Qed.

(** ** Insertion *)

Lemma mergeRanges_comm a b : mergeRanges a b = mergeRanges b a.
Proof.
  unfold mergeRanges. f_equal; [|f_equal; f_equal]; repeat case_cmp; try lia.
Qed.

Lemma insert_range_snoc lo init lst next : ranges_above lo (init ++ [lst]) →
  r_Clock lst <= r_Clock next → wf_range next →
  insert_range (init ++ [lst]) next =
    init ++ (if Range_End lst <? r_Clock next then [lst; next] else [mergeRanges lst next]).
Proof.
  revert lo. induction init as [|c init IH]; intros lo; cbn.
  - intros (_ & Hl & _) Hle Hn. case_if; [done|]. case_if; [rg|]. by rewrite mergeRanges_comm.
  - intros (_ & Hc & Hi) Hle Hn.
    assert (Range_End c < r_Clock lst).
    { apply ranges_above_app in Hi as [Hi (? & _)]. pose proof (last_end_above _ _ Hi). lia. }
    case_cmp; [|lia]. f_equal. by eapply IH.
Qed.

(** The three paths of [Add] all compute the insertion. *)
Lemma IdSet_add_ranges s c clock len y r : wf_set s → NewRange clock len = Ok r → wf_range r →
  room (ranges_of s c) r y →
  IdSet_add s c clock len = (set_ranges s c (insert_range (ranges_of s c) r), None).
Proof.
  intros Hw Hr Hwr Hroom. unfold IdSet_add. rewrite Hr.
  pose proof (wf_ranges_of s c Hw) as Hl. destruct (last (ranges_of s c)) as [lst|] eqn:E.
  - apply last_Some in E as [init E]. rewrite E in *. case_if.
    + rewrite (insert_range_snoc (-1)) by done. case_if.
      * by rewrite <- app_assoc.
      * rewrite length_app, Nat.add_sub. by rewrite insert_app_r_alt, Nat.sub_diag by done.
    + by rewrite (insert_loop_eq (-1) _ _ _ y).
  - apply last_None in E. by rewrite E.
Qed.

Lemma avoids_room y s c r : is_u32 y → avoids y s → ¬ in_range r y → room (ranges_of s c) r y.
Proof. intros ? Ha ?. split_and!; [done|apply Ha|done]. Qed.

(** What a successful insertion does to the set. *)
Definition added (s : IdSet) (c : Z) (r : Range) (s' : IdSet) : Prop :=
  wf_set s' ∧ (∀ c' x, mem s' c' x ↔ mem s c' x ∨ (c' = c ∧ in_range r x)).

Lemma insert_added s c r y : wf_set s → wf_range r → room (ranges_of s c) r y →
  added s c r (set_ranges s c (insert_range (ranges_of s c) r)).
Proof.
  intros Hw Hr Hroom. destruct (insert_range_spec (-1) (ranges_of s c) r y) as [H1 H2];
    [by apply wf_ranges_of|done|rg|done|].
  split; [by apply wf_set_ranges; [..|apply insert_range_ne]|].
  intros c' x. unfold mem. rewrite ranges_of_set. case_decide; [subst|naive_solver].
  rewrite H2. naive_solver.
Qed.

Lemma IdSet_add_Ok s c clock len y : wf_set s → wf_range (mkRange clock len) →
  room (ranges_of s c) (mkRange clock len) y →
  ∃ s', IdSet_add s c clock len = (s', None) ∧ added s c (mkRange clock len) s'.
Proof.
  intros Hw Hr Hroom. eexists. split; [|by eapply insert_added].
  eapply IdSet_add_ranges; [done| |done..]. apply NewRange_Ok; [rg..|done].
Qed.

Lemma IdSet_add_Err s c clock len : is_u32 clock → is_u32 len → ¬ wf_range (mkRange clock len) →
  ∃ err, IdSet_add s c clock len = (s, Some err).
Proof.
  intros Hc Hl Hn. unfold IdSet_add. destruct (NewRange clock len) eqn:E; [|by eexists].
  apply NewRange_Ok in E as [-> ?]; done.
Qed.

(** An insertion after the last range needs no room. *)
Lemma IdSet_add_append s c l r : ranges_of s c = l → wf_ranges (l ++ [r]) →
  IdSet_add s c (r_Clock r) (r_Length r) = (set_ranges s c (l ++ [r]), None).
Proof.
  intros <- [Hl (Hend & Hr & _)]%ranges_above_app.
  unfold IdSet_add. rewrite (proj2 (NewRange_Ok (r_Clock r) (r_Length r) r ltac:(rg) ltac:(rg))) by by destruct r.
  destruct (last (ranges_of s c)) as [lst|] eqn:E.
  - apply last_Some in E as [init E]. rewrite E in *.
    rewrite last_end_snoc in Hend. apply ranges_above_app in Hl as (_ & _ & ? & _).
    case_if; [|rg]. case_if; [done|rg].
  - apply last_None in E. by rewrite E.
Qed.

(** ** Union *)

Lemma added_avoids y s c r s' : added s c r s' → avoids y s → ¬ in_range r y → avoids y s'.
Proof. intros [_ H] Ha Hr c' [Hm|[_ Hm]]%H; [by apply (Ha c')|done]. Qed.

Lemma add_ranges_spec y s c l lo : is_u32 y → wf_set s → ranges_above lo l → avoids y s → ¬ covers l y →
  ∃ s', add_ranges s c l = (s', None) ∧ wf_set s' ∧ avoids y s' ∧
    (∀ c' x, mem s' c' x ↔ mem s c' x ∨ (c' = c ∧ covers l x)).
Proof.
  intros Hy. revert s lo. induction l as [|r l IH]; intros s lo Hw Hl Ha Hc; cbn [add_ranges].
  { exists s. split_and!; try done. intros c' x. split; [by left|]. intros [?|[_ ?%covers_nil]]; done. }
  rewrite covers_cons in Hc. destruct Hl as (_ & Hr & Hl).
  assert (mkRange (r_Clock r) (r_Length r) = r) as Er by by destruct r.
  destruct (IdSet_add_Ok s c (r_Clock r) (r_Length r) y) as (s1 & -> & Hadd); rewrite ?Er; [done..|by apply avoids_room; tauto|].
  rewrite Er in Hadd. pose proof (added_avoids y _ _ _ _ Hadd Ha ltac:(tauto)) as Ha1.
  destruct Hadd as [Hw1 Hm1].
  destruct (IH s1 _ Hw1 Hl Ha1 ltac:(tauto)) as (s' & -> & Hw' & Ha' & Hm').
  exists s'. split_and!; try done. intros c' x. rewrite Hm', Hm1, covers_cons. tauto.
Qed.

Definition covers_entries (entries : list (Z * list Range)) (c x : Z) : Prop :=
  ∃ l, (c, l) ∈ entries ∧ covers l x.

Lemma covers_entries_map s c x : covers_entries (map_to_list (clients s)) c x ↔ mem s c x.
Proof.
  unfold covers_entries. split.
  - intros (l & Hl%elem_of_map_to_list & Hx). by rewrite mem_lookup by done.
  - unfold mem, ranges_of. destruct (clients s !! c) as [l|] eqn:E; cbn; [|by intros ?%covers_nil].
    intros Hx. exists l. by rewrite elem_of_map_to_list.
Qed.

(** The loop of [Merge] in any order of the entries. *)
Lemma merge_loop_spec y s entries : is_u32 y → wf_set s → avoids y s →
  Forall (λ e, wf_ranges e.2 ∧ ¬ covers e.2 y) entries →
  ∃ s', merge_loop s entries = (s', None) ∧ wf_set s' ∧ avoids y s' ∧
    (∀ c x, mem s' c x ↔ mem s c x ∨ covers_entries entries c x).
Proof.
  intros Hy. revert s. induction entries as [|[c l] entries IH]; intros s Hw Ha He; cbn [merge_loop].
  { exists s. split_and!; try done. intros c x. split; [by left|]. intros [?|(? & Hin & _)]; [done|]. set_solver. }
  apply Forall_cons in He as [[Hl Hly] He']; cbn in *.
  enough (∃ s1, match l with [] => merge_loop s entries | _ =>
       match clients s !! c with
       | None => merge_loop (set_ranges s c l) entries
       | Some _ => match add_ranges s c l with (s, Some err) => (s, Some err) | (s, None) => merge_loop s entries end
       end end = merge_loop s1 entries ∧ wf_set s1 ∧ avoids y s1 ∧
       (∀ c' x, mem s1 c' x ↔ mem s c' x ∨ (c' = c ∧ covers l x))) as (s1 & E & Hw1 & Ha1 & Hm1).
  { destruct (IH s1 Hw1 Ha1 He') as (s' & E' & Hw' & Ha' & Hm'). exists s'. rewrite <- E'.
    split_and!; [by destruct l|done..|]. intros c' x. rewrite Hm', Hm1.
    unfold covers_entries. setoid_rewrite elem_of_cons. split.
    - intros [[?|[-> ?]]|(k & ? & ?)]; [by left|right; eauto|right; eauto].
    - intros [?|(k & [[= -> ->]|?] & ?)]; [by left; left|by left; right|right; eauto]. }
  destruct l as [|r l]; [|remember (r :: l) as l' eqn:Hl'; destruct (clients s !! c) as [k|] eqn:Ek].
  - exists s. split_and!; try done. intros c' x. split; [by left|]. intros [?|[_ ?%covers_nil]]; done.
  - destruct (add_ranges_spec y s c l' (-1)) as (s1 & -> & Hw1 & Ha1 & Hm1); [done..|]. eauto 10.
  - exists (set_ranges s c l'). assert (∀ c' x, mem (set_ranges s c l') c' x ↔ mem s c' x ∨ c' = c ∧ covers l' x) as Hm.
    { intros c' x. unfold mem. rewrite ranges_of_set. case_decide; [subst c'|naive_solver].
      unfold ranges_of at 1. rewrite Ek. cbn. split; [by right|]. intros [?%covers_nil|[_ ?]]; done. }
    split_and!; [done|by apply wf_set_ranges; subst|..|done].
    intros c' [?|[_ ?]]%Hm; [by apply (Ha c')|done].
Qed.

Lemma entries_Forall y s : wf_set s → avoids y s →
  Forall (λ e, wf_ranges e.2 ∧ ¬ covers e.2 y) (map_to_list (clients s)).
Proof.
  intros Hw Ha. apply Forall_forall. intros [c l] Hl%elem_of_map_to_list; cbn.
  split; [by apply (Hw c l)|]. specialize (Ha c). by rewrite mem_lookup in Ha by done.
Qed.

Lemma IdSet_Merge_spec y s other : is_u32 y → wf_set s → wf_set other → avoids y s → avoids y other →
  ∃ s', IdSet_Merge (Some s) (Some other) = (Some s', None) ∧ wf_set s' ∧ avoids y s' ∧
    (∀ c x, mem s' c x ↔ mem s c x ∨ mem other c x).
Proof.
  intros Hy Hs Ho Has Hao. unfold IdSet_Merge.
  destruct (merge_loop_spec y s (map_to_list (clients other))) as (s' & -> & Hw & Ha & Hm);
    [done..|by apply entries_Forall|].
  exists s'. split_and!; try done. intros c x. by rewrite Hm, covers_entries_map.
Qed.

Lemma InsertIntoIdSet_spec y s other : is_u32 y → wf_set s → wf_set other → avoids y s → avoids y other →
  ∃ s', InsertIntoIdSet (Some s) (Some other) = (Some s', None) ∧ wf_set s' ∧ avoids y s' ∧
    (∀ c x, mem s' c x ↔ mem s c x ∨ mem other c x).
Proof. apply IdSet_Merge_spec. Qed.

(** [mem] of a possibly nil pointer. *)
Definition memp (s : option IdSet) (c x : Z) : Prop :=
  match s with None => False | Some s => mem s c x end.

Lemma MergeIdSets_spec y sets : is_u32 y →
  Forall (λ s, ∀ s', s = Some s' → wf_set s' ∧ avoids y s') sets →
  wf_set (MergeIdSets sets) ∧ avoids y (MergeIdSets sets) ∧
  (∀ c x, mem (MergeIdSets sets) c x ↔ Exists (λ s, memp s c x) sets).
Proof.
  intros Hy Hsets. unfold MergeIdSets.
  enough (∀ acc, wf_set acc → avoids y acc →
    let m := default IdSet_New (fold_left (λ merged set, fst (InsertIntoIdSet merged set)) sets (Some acc)) in
    wf_set m ∧ avoids y m ∧ ∀ c x, mem m c x ↔ mem acc c x ∨ Exists (λ s, memp s c x) sets) as H.
  { destruct (H IdSet_New) as (? & ? & Hm); [apply wf_set_New|apply avoids_New|].
    split_and!; [done..|]. intros c x. rewrite Hm. pose proof (mem_New c x). tauto. }
  induction Hsets as [|s sets Hs _ IH]; intros acc Hw Ha; cbn -[InsertIntoIdSet].
  { split_and!; [done..|]. intros c x. rewrite Exists_nil. tauto. }
  destruct s as [s|].
  - destruct (Hs s eq_refl) as [Hws Has].
    destruct (InsertIntoIdSet_spec y acc s) as (a' & -> & Hw' & Ha' & Hm'); [done..|].
    destruct (IH a' Hw' Ha') as (? & ? & Hm). split_and!; [done..|]. intros c x.
    cbn in Hm. rewrite Hm, Hm', Exists_cons. cbn. tauto.
  - destruct (IH acc Hw Ha) as (? & ? & Hm). split_and!; [done..|]. intros c x.
    cbn in Hm |- *. rewrite Hm, Exists_cons. cbn. tauto.
Qed.

(** ** Membership test *)

Lemma ranges_above_lookup lo l i j a b : ranges_above lo l → (i < j)%nat →
  l !! i = Some a → l !! j = Some b → wf_range a ∧ wf_range b ∧ Range_End a < r_Clock b.
Proof.
  intros Hl Hij Ha Hb. apply list_elem_of_split_length in Hb as (l1 & l2 & -> & ->).
  rewrite lookup_app_l in Ha by done. apply list_elem_of_split_length in Ha as (k1 & k2 & -> & ->).
  rewrite <- app_assoc in Hl. cbn in Hl. apply ranges_above_app in Hl as [_ (_ & Hwa & Hl)].
  apply ranges_above_app in Hl as [Hk (? & ? & _)]. pose proof (last_end_above _ _ Hk).
  split_and!; [done..|lia].
Qed.

Lemma Has_loop_spec fuel l clock left right : wf_ranges l →
  0 <= left → right < Z.of_nat (length l) → right - left + 1 < Z.of_nat fuel →
  (∀ i r, l !! i = Some r → in_range r clock → left <= Z.of_nat i <= right) →
  Has_loop fuel l clock left right = true ↔ covers l clock.
Proof.
  intros Hl. revert left right. induction fuel as [|fuel IH]; intros left right Hlo Hhi Hf Hinv.
  { cbn. split; [done|]. intros (r & Hr & Hx)%Exists_exists. apply list_elem_of_lookup in Hr as [i Hi].
    specialize (Hinv _ _ Hi Hx). lia. }
  cbn [Has_loop]. case_if.
  2: { split; [done|]. intros (r & Hr & Hx)%Exists_exists. apply list_elem_of_lookup in Hr as [i Hi].
       specialize (Hinv _ _ Hi Hx). lia. }
  set (mid := (left + right) / 2). assert (left <= mid <= right) as Hmid by (subst mid; lia_mod).
  destruct (l !! Z.to_nat mid) as [cur|] eqn:Ec.
  2: { apply lookup_ge_None in Ec. lia. }
  unfold Range_Contains. destruct (Z.leb_spec (r_Clock cur) clock); cbn [andb].
  1: destruct (Z.ltb_spec clock (Range_End cur)).
  - split; [|done]. intros _. apply Exists_exists. exists cur.
    split; [by eapply list_elem_of_lookup_2|rg].
  - destruct (Z.ltb_spec clock (r_Clock cur)); [lia|]. apply IH; [lia..|].
    intros i r Hi Hx. specialize (Hinv _ _ Hi Hx). split; [|lia].
    destruct (decide (mid < Z.of_nat i)); [lia|exfalso].
    destruct (decide (Z.of_nat i = mid)); [assert (i = Z.to_nat mid) as -> by lia; simplify_eq; rg|].
    destruct (ranges_above_lookup (-1) l i (Z.to_nat mid) r cur) as (? & ? & ?); [done|lia|done..|rg].
  - destruct (Z.ltb_spec clock (r_Clock cur)); [|lia]. apply IH; [lia..|].
    intros i r Hi Hx. specialize (Hinv _ _ Hi Hx). split; [lia|].
    destruct (decide (Z.of_nat i < mid)); [lia|exfalso].
    destruct (decide (Z.of_nat i = mid)); [assert (i = Z.to_nat mid) as -> by lia; simplify_eq; rg|].
    destruct (ranges_above_lookup (-1) l (Z.to_nat mid) i cur r) as (? & ? & ?); [done|lia|done..|rg].
Qed.

Lemma IdSet_Has_spec s c x : wf_set s → IdSet_Has (Some s) c x = true ↔ mem s c x.
Proof.
  intros Hw. unfold IdSet_Has. apply Has_loop_spec; [by apply wf_ranges_of|lia..|].
  intros i r Hi _. apply lookup_lt_Some in Hi. lia.
Qed.

(** ** Iteration *)

Lemma Clients_perm s : IdSet_Clients (Some s) ≡ₚ (map_to_list (clients s)).*1.
Proof. apply merge_sort_Permutation. Qed.
Lemma Clients_NoDup s : NoDup (IdSet_Clients (Some s)).
Proof. rewrite Clients_perm. apply NoDup_fst_map_to_list. Qed.
Lemma Clients_sorted s : Sorted Z.le (IdSet_Clients (Some s)).
Proof. apply Sorted_merge_sort. intros ? ?. lia. Qed.
Lemma elem_of_Clients s c : c ∈ IdSet_Clients (Some s) ↔ is_Some (clients s !! c).
Proof.
  rewrite Clients_perm, list_elem_of_fmap. split.
  - intros ([? l] & -> & H%elem_of_map_to_list). by eexists.
  - intros [l H]. exists (c, l). by rewrite elem_of_map_to_list.
Qed.

(** The short path for at most one client agrees with the general one. *)
Lemma map_to_list_small (m : gmap Z (list Range)) : (size m ≤ 1)%nat →
  map_to_list m = [] ∨ ∃ c l, map_to_list m = [(c, l)] ∧ m !! c = Some l.
Proof.
  rewrite <- length_map_to_list. destruct (map_to_list m) as [|[c l] [|]] eqn:E; cbn; [by left| |lia].
  intros _. right. exists c, l. split; [done|]. apply elem_of_map_to_list. rewrite E. set_solver.
Qed.

Lemma ForEachClient_eq s : IdSet_ForEachClient (Some s) =
  (λ c, (c, ranges_of s c)) <$> IdSet_Clients (Some s).
Proof.
  unfold IdSet_ForEachClient. case_if; [|done].
  destruct (map_to_list_small (clients s)) as [E|(c & l & E & El)]; [lia|..]; rewrite E; unfold IdSet_Clients; rewrite E; [done|].
  cbn. unfold ranges_of. by rewrite El.
Qed.

Lemma ForEachClientDesc_eq s : IdSet_ForEachClientDesc (Some s) =
  (λ c, (c, ranges_of s c)) <$> rev (IdSet_Clients (Some s)).
Proof.
  unfold IdSet_ForEachClientDesc. case_if; [|done].
  destruct (map_to_list_small (clients s)) as [E|(c & l & E & El)]; [lia|..]; rewrite E; unfold IdSet_Clients; rewrite E; [done|].
  cbn. unfold ranges_of. by rewrite El.
Qed.

(** ** Intersection *)

Lemma intersect_clients_spec order left right result :
  wf_set left → wf_set right → wf_set result → NoDup order →
  (∀ c, c ∈ order → ranges_of result c = []) →
  wf_set (intersect_clients order left right result) ∧
  (∀ c x, mem (intersect_clients order left right result) c x ↔
     mem result c x ∨ (c ∈ order ∧ mem left c x ∧ mem right c x)).
Proof.
  intros Hl Hr. revert result. induction order as [|c order IH]; intros result Hw Hnd Hout.
  { split; [done|]. intros c x. cbn. split; [by left|]. intros [?|(? & _)]; [done|]. set_solver. }
  apply NoDup_cons in Hnd as [Hc Hnd].
  destruct (intersectRanges_spec (-1) (-1) (ranges_of left c) (ranges_of right c)) as [Hi1 Hi2]; [by apply wf_ranges_of..|].
  change (Z.max (-1) (-1)) with (-1) in Hi1.
  assert (intersect_clients (c :: order) left right result = intersect_clients order left right
     match intersectRanges (ranges_of left c) (ranges_of right c) with [] => result | l => set_ranges result c l end) as ->.
  { cbn [intersect_clients]. destruct (ranges_of left c) as [|ra a]; [done|].
    destruct (ranges_of right c) as [|rb b]; [done|]. by destruct (intersectRanges (ra :: a) (rb :: b)). }
  set (l := intersectRanges _ _) in *. set (result' := match l with [] => _ | _ => _ end).
  assert (∀ c', ranges_of result' c' = if decide (c = c') then l else ranges_of result c') as Hr'.
  { intros c'. subst result'. destruct l as [|r l'] eqn:El.
    - case_decide; [subst c'; apply Hout; set_solver|done].
    - apply ranges_of_set. }
  destruct (IH result') as [I1 I2].
  - subst result'. destruct l; [done|]. by apply wf_set_ranges.
  - done.
  - intros c' Hc'. rewrite Hr'. case_decide; [set_solver|]. apply Hout. set_solver.
  - split; [done|]. intros c' x. rewrite I2. unfold mem at 1. rewrite Hr', elem_of_cons.
    assert (ranges_of result c = []) as Hn by (apply Hout; set_solver). unfold mem.
    case_decide; [subst c'|].
    + rewrite Hi2, Hn. pose proof (covers_nil x). tauto.
    + split; [tauto|]. intros [?|([->|?] & ?)]; [tauto|done|tauto].
Qed.

Lemma IntersectSets_spec left right : wf_set left → wf_set right →
  wf_set (IntersectSets (Some left) (Some right)) ∧
  (∀ c x, mem (IntersectSets (Some left) (Some right)) c x ↔ mem left c x ∧ mem right c x).
Proof.
  intros Hl Hr. unfold IntersectSets.
  destruct (intersect_clients_spec (IdSet_Clients (Some left)) left right IdSet_New) as [H1 H2];
    [done..|apply wf_set_New|apply Clients_NoDup|done|].
  split; [done|]. intros c x. rewrite H2, elem_of_Clients. pose proof (mem_New c x).
  split; [tauto|]. intros [Hx ?]. right. split; [|done].
  unfold mem, ranges_of in Hx. destruct (clients left !! c); [by eexists|]. by apply covers_nil in Hx.
Qed.

(** ** Difference *)

Lemma insert_loop_append l merged next : Forall (λ c, Range_End c < r_Clock next) l →
  insert_loop l merged false next = merged ++ l ++ [next].
Proof.
  intros Hl. revert merged. induction Hl as [|c l Hc _ IH]; intros merged; cbn; [done|].
  case_if; [|lia]. by rewrite IH, <- app_assoc.
Qed.

Lemma ranges_above_last_Forall lo l r : ranges_above lo (l ++ [r]) →
  Forall (λ c, Range_End c < r_Clock r) l.
Proof.
  intros Hl. apply Forall_lookup. intros i c Hi. pose proof (lookup_lt_Some _ _ _ Hi).
  apply (ranges_above_lookup lo (l ++ [r]) i (length l)); [done..| |].
  - by rewrite lookup_app_l.
  - by rewrite lookup_app_r, Nat.sub_diag.
Qed.

Lemma set_ranges_twice s c l k : set_ranges (set_ranges s c l) c k = set_ranges s c k.
Proof. unfold set_ranges; cbn. by rewrite insert_insert_eq. Qed.

Lemma addRange_append t c l r : ranges_of t c = l → wf_ranges (l ++ [r]) →
  addRange t c (r_Clock r) (r_Length r) = (set_ranges t c (l ++ [r]), None).
Proof.
  intros El Hl. pose proof Hl as (_ & _ & Hr & _)%ranges_above_app. unfold addRange.
  rewrite (proj2 (NewRange_Ok (r_Clock r) (r_Length r) r ltac:(rg) ltac:(rg))) by by destruct r.
  rewrite El. destruct l as [|d l]; [done|].
  by rewrite insert_loop_append by by eapply ranges_above_last_Forall.
Qed.

Lemma addRange_all_append t c l diff : ranges_of t c = l → wf_ranges (l ++ diff) →
  addRange_all t c diff = (match diff with [] => t | _ => set_ranges t c (l ++ diff) end, None).
Proof.
  revert t l. induction diff as [|r diff IH]; intros t l El Hl; cbn [addRange_all]; [done|].
  assert (wf_ranges (l ++ [r])) as Hlr.
  { change (r :: diff) with ([r] ++ diff) in Hl. rewrite app_assoc in Hl.
    by apply ranges_above_app in Hl as [? _]. }
  rewrite (addRange_append t c l r El Hlr), (IH _ (l ++ [r])).
  - rewrite set_ranges_twice, <- app_assoc. by destruct diff.
  - apply ranges_of_set_eq.
  - by rewrite <- app_assoc.
Qed.

Lemma subtract_clients_spec entries other next :
  wf_set other → wf_set next → NoDup entries.*1 →
  Forall (λ e, wf_ranges e.2 ∧ ranges_of next e.1 = []) entries →
  ∃ s', subtract_clients entries other next = (s', None) ∧ wf_set s' ∧
    (∀ c x, mem s' c x ↔ mem next c x ∨ (covers_entries entries c x ∧ ¬ mem other c x)).
Proof.
  intros Ho. revert next. induction entries as [|[c l] entries IH]; intros next Hw Hnd He.
  { exists next. split_and!; [done..|]. intros c x. split; [by left|].
    intros [?|[(? & Hin & _) _]]; [done|]. set_solver. }
  cbn in Hnd. apply NoDup_cons in Hnd as [Hc Hnd]. apply Forall_cons in He as [[Hl Hout] He]; cbn in Hl, Hout.
  set (removals := ranges_of other c).
  assert (wf_ranges removals) as Hrem by by apply wf_ranges_of.
  destruct (subtractRanges_spec (-1) (-1) l removals Hl Hrem) as [Hs1 Hs2].
  set (diff := subtractRanges l removals) in *.
  set (next' := match diff with [] => next | _ => set_ranges next c diff end).
  assert (subtract_clients ((c, l) :: entries) other next = subtract_clients entries other next') as ->.
  { cbn [subtract_clients]. fold removals. destruct l as [|r l].
    - subst next' diff. by destruct removals.
    - rewrite (validateRangeList_wf (-1) _ Hl), (validateRangeList_wf (-1) _ Hrem).
      destruct removals as [|rm removals]; [by rewrite Hout|].
      by rewrite (addRange_all_append next c []). }
  assert (∀ c', ranges_of next' c' = if decide (c = c') then diff else ranges_of next c') as Hr'.
  { intros c'. subst next'. destruct diff as [|r d] eqn:Ed; [by case_decide; subst|apply ranges_of_set]. }
  destruct (IH next') as (s' & E & Hw' & Hm').
  - subst next'. destruct diff; [done|]. by apply wf_set_ranges.
  - done.
  - rewrite Forall_forall in He |- *. intros [c' k] Hin. specialize (He _ Hin). cbn in He |- *.
    split; [tauto|]. rewrite Hr'. case_decide; [subst c'|tauto].
    destruct Hc. apply list_elem_of_fmap. by exists (c, k).
  - exists s'. split_and!; [done..|]. intros c' x. rewrite Hm'. unfold mem at 1. rewrite Hr'.
    unfold covers_entries. setoid_rewrite elem_of_cons. fold (mem next c' x). split.
    + case_decide; [subst c'; rewrite Hs2|]; (intros [?|((k & ? & ?) & ?)]; [|right; eauto]); [|by left].
      right. split; [|tauto]. exists l. tauto.
    + intros [Hx|((k & [[= -> ->]|?] & ?) & ?)]; [|left|right; eauto].
      * left. case_decide; [subst c'|done]. unfold mem in Hx. rewrite Hout in Hx. by apply covers_nil in Hx.
      * rewrite decide_True by done. by rewrite Hs2.
Qed.

Lemma validate_entries_wf entries : Forall (λ e, wf_ranges e.2) entries → validate_entries entries = None.
Proof.
  induction 1 as [|[c l] entries Hl _ IH]; cbn; [done|]. by rewrite (validateRangeList_wf (-1)).
Qed.

Lemma validateSetRanges_wf s : wf_set s → validateSetRanges (Some s) = None.
Proof.
  intros Hw. apply validate_entries_wf, Forall_forall. intros [c l] Hl%elem_of_map_to_list. by apply (Hw c l).
Qed.

Lemma IsEmpty_spec s : wf_set s → IdSet_IsEmpty (Some s) = true ↔ ∀ c x, ¬ mem s c x.
Proof.
  intros Hw. cbn. rewrite bool_decide_eq_true, map_size_empty_iff. split.
  - intros E c x. unfold mem, ranges_of. rewrite E, lookup_empty. apply covers_nil.
  - intros H. apply map_empty. intros c. destruct (clients s !! c) as [l|] eqn:E; [exfalso|done].
    destruct (Hw c l E) as [Hl Hne]. destruct l as [|r l]; [done|].
    apply (H c (r_Clock r)). rewrite mem_lookup by done. apply covers_head. apply Hl.
Qed.

Lemma IdSet_Subtract_spec s other : wf_set s → wf_set other →
  ∃ s', IdSet_Subtract (Some s) (Some other) = (Some s', None) ∧ wf_set s' ∧
    (∀ c x, mem s' c x ↔ mem s c x ∧ ¬ mem other c x).
Proof.
  intros Hs Ho. unfold IdSet_Subtract. destruct (IdSet_IsEmpty (Some s)) eqn:E1.
  { pose proof (proj1 (IsEmpty_spec s Hs) E1) as E1'. exists s. split_and!; [done..|].
    intros c x. specialize (E1' c x). tauto. }
  destruct (IdSet_IsEmpty (Some other)) eqn:E2.
  { pose proof (proj1 (IsEmpty_spec other Ho) E2) as E2'. exists s. split_and!; [done..|].
    intros c x. specialize (E2' c x). tauto. }
  cbn [orb].
  destruct (subtract_clients_spec (map_to_list (clients s)) other IdSet_New) as (s' & -> & Hw' & Hm').
  - done.
  - apply wf_set_New.
  - apply NoDup_fst_map_to_list.
  - apply Forall_forall. intros [c l] Hl%elem_of_map_to_list. split; [by apply (Hs c l)|done].
  - exists s'. split_and!; [done..|]. intros c x. rewrite Hm', covers_entries_map.
    pose proof (mem_New c x). tauto.
Qed.

Lemma SubtractSets_spec left remove : wf_set left → wf_set remove →
  wf_set (SubtractSets (Some left) (Some remove)) ∧
  (∀ c x, mem (SubtractSets (Some left) (Some remove)) c x ↔ mem left c x ∧ ¬ mem remove c x).
Proof.
  intros Hl Hr. unfold SubtractSets. rewrite !validateSetRanges_wf by done.
  assert (IdSet_Clone (Some left) = left) as -> by by destruct left.
  destruct (IdSet_Subtract_spec left remove Hl Hr) as (s' & -> & ? & ?). done.
Qed.

(** ** Slicing *)

(** The segments cover [from, to) without gap or overlap. *)
Fixpoint tiles (from to : Z) (segs : list SliceSegment) : Prop :=
  match segs with
  | [] => from = to
  | g :: segs => seg_Clock g = from ∧ 0 < seg_Length g ∧ tiles (from + seg_Length g) to segs
  end.

(** Every clock of a segment is in the list exactly when the segment says so. *)
Definition flags_ok (l : list Range) (segs : list SliceSegment) : Prop :=
  Forall (λ g, ∀ x, seg_Clock g <= x < seg_Clock g + seg_Length g → covers l x ↔ seg_Exists g = true) segs.

Lemma tiles_app a b c l k : tiles a b l → tiles b c k → tiles a c (l ++ k).
Proof. revert a. induction l as [|g l IH]; intros a; cbn; [by intros ->|]. naive_solver. Qed.

Lemma tiles_le a b l : tiles a b l → a <= b.
Proof. revert a. induction l as [|g l IH]; intros a; cbn; [lia|]. intros (_ & ? & ?%IH). lia. Qed.

Lemma tiles_in a b l g : tiles a b l → g ∈ l → a <= seg_Clock g ∧ seg_Clock g + seg_Length g <= b.
Proof.
  revert a. induction l as [|h l IH]; intros a; cbn; [by intros _ ?%not_elem_of_nil|].
  intros (<- & ? & Hl) [->|Hg]%elem_of_cons; [apply tiles_le in Hl; lia|].
  apply (IH _ Hl) in Hg. lia.
Qed.

Lemma flags_ok_weaken (l l' : list Range) a b segs : tiles a b segs →
  (∀ x, a <= x < b → covers l x ↔ covers l' x) → flags_ok l segs → flags_ok l' segs.
Proof.
  unfold flags_ok. rewrite !Forall_forall. intros Ht H Hf g Hg x Hx.
  rewrite <- H; [by apply Hf|]. destruct (tiles_in _ _ _ _ Ht Hg). lia.
Qed.

Lemma slice_loop_spec lo l e cursor segs cursor' :
  ranges_above lo l → ¬ covers l MaxUint32 → 0 <= cursor <= e → e <= 4294967296 →
  cursor < e ∨ cursor <= lo →
  slice_loop l e cursor = (segs, cursor') →
  tiles cursor cursor' segs ∧ cursor' <= e ∧ flags_ok l segs ∧
  (∀ x, cursor' <= x < e → ¬ covers l x).
Proof.
  intros Hl Hm Hc He Hlo. revert lo cursor segs cursor' Hl Hm Hc Hlo.
  induction l as [|r l IH]; intros lo cursor segs cursor'; cbn [slice_loop].
  { intros _ _ ? _ [= <- <-]. split_and!; [done|lia|constructor|intros x _; apply covers_nil]. }
  intros (Hrlo & Hr & Hl) Hm Hc Hlo. rewrite covers_cons in Hm.
  assert (Range_End r < 4294967296) as Hend.
  { destruct (decide (Range_End r = 4294967296)); [|rg]. exfalso. apply Hm. left. unfold MaxUint32. rg. }
  assert (∀ x, covers l x → Range_End r < x) as Hcl by (intros x Hx; by apply (covers_above _ _ _ Hl)).
  case_if; [|case_if].
  - intros E. apply (IH (Range_End r)) in E as (Ht & Hle & Hf & Hn); [|done|tauto|done|rg].
    split_and!; [done..|eapply flags_ok_weaken; [done| |done]|].
    + intros x Hx. rewrite covers_cons. split; [by right|]. intros [?|?]; [rg|done].
    + intros x Hx. rewrite covers_cons. intros [?|?]; [|by apply (Hn x)].
      apply tiles_le in Ht. rg.
  - intros [= <- <-]. split_and!; [done|lia|constructor|].
    intros x Hx [?|Hy%Hcl]%covers_cons; rg.
  - rewrite (w32_small (Range_End r)) by rg.
    set (start := if r_Clock r <? cursor then _ else _).
    assert (start = Z.max cursor (r_Clock r)) as Hs by (subst start; case_if; lia).
    set (ce := if e <? Range_End r then _ else _).
    assert (ce = Z.min e (Range_End r)) as Hce by (subst ce; case_if; rewrite ?w32_small by rg; lia).
    assert (start < ce) as Hsc by rg.
    destruct (Z.ltb_spec start ce); [|lia].
    destruct (slice_loop l e ce) as [segs1 c1] eqn:E. intros [= <- <-].
    apply (IH (Range_End r)) in E as (Ht & Hle & Hf & Hn); [|done|tauto|rg|rg].
    assert (tiles cursor start (if cursor <? start then [mkSegment cursor (start - cursor) false] else []) ∧
            flags_ok (r :: l) (if cursor <? start then [mkSegment cursor (start - cursor) false] else [])) as [Ha1 Ha2].
    { case_if; cbn.
      - split; [split_and!; lia|]. apply Forall_singleton. cbn. intros x Hx. split; [|done].
        intros [?|Hy%Hcl]%covers_cons; rg.
      - split; [lia|constructor]. }
    assert (flags_ok (r :: l) segs1) as Hf1.
    { eapply flags_ok_weaken; [done| |done]. intros x Hx. rewrite covers_cons. split; [by right|].
      intros [?|?]; [rg|done]. }
    split_and!.
    + eapply tiles_app; [done|]. cbn. split_and!; [done|lia|]. by replace (start + (ce - start)) with ce by lia.
    + done.
    + apply Forall_app. split; [done|]. apply Forall_cons. split; [|done].
      cbn. intros x Hx. split; [done|]. intros _. apply covers_cons. left. rg.
    + intros x Hx. rewrite covers_cons. intros [?|?]; [|by apply (Hn x)]. apply tiles_le in Ht. rg.
Qed.
