(* ===== verification/Varint.v ===== *)
(** * internal/varint: canonical LEB128 integers of at most 32 bits

    [Append], [Read], [Decode] and [encodedLen] of varint.go.  [Read] is written
    once against the [ByteReader] interface, as in the source; the two readers
    that implement it (the package's [sliceReader] and [binary.Reader]) are
    instances of the class, and [ByteReaderLaws] is what the proofs need of them. *)
From S2P Require Import Prelude GoError Binary.

Module varint.

Definition maxVarUintLen : nat := 5.

(** type ByteReader interface: the call returns the byte or the error, and the
    reader after it. *)
Class ByteReader (R : Type) := readByte : R → result Z * R.

(** The loop of [Append] runs at most four times on a uint32. *)
Fixpoint Append_loop (fuel : nat) (dst : bytes) (value : Z) : bytes :=
  match fuel with
  | O => dst ++ [w8 value]
  | S fuel =>
      if 128 <=? value
      then Append_loop fuel (dst ++ [Z.lor (w8 value) 128]) (Z.shiftr value 7)
      else dst ++ [w8 value]
  end.

Definition Append (dst : bytes) (value : Z) : bytes := Append_loop maxVarUintLen dst value.

Fixpoint encodedLen_loop (fuel : nat) (n : nat) (value : Z) : nat :=
  match fuel with
  | O => n
  | S fuel => if 128 <=? value then encodedLen_loop fuel (S n) (Z.shiftr value 7) else n
  end.

Definition encodedLen (value : Z) : nat := encodedLen_loop maxVarUintLen 1 value.

#[global] Arguments Append : simpl never.
#[global] Arguments encodedLen : simpl never.

(** The body of the [for i := 0; i < maxVarUintLen; i++] loop of [Read]; the
    result is Go's triple (value, bytes read, error). *)
Fixpoint Read_loop {R} `{ByteReader R} (fuel : nat) (i : nat) (value : Z) (r : R)
    : (result Z * nat) * R :=
  match fuel with
  | O => ((Err varint_ErrOverflow, maxVarUintLen), r)
  | S fuel =>
      match readByte r with
      | (Err err, r) =>
          if errors_Is err io_EOF || errors_Is err binary_ErrUnexpectedEOF
          then ((Err varint_ErrUnexpectedEOF, i), r)
          else ((Err err, i), r)
      | (Ok b, r) =>
          let n := S i in
          if bool_decide (i = maxVarUintLen - 1)%nat
             && (negb (Z.land b 128 =? 0) || (15 <? b))
          then ((Err varint_ErrOverflow, n), r)
          else
            let value := Z.lor value (w32 (Z.shiftl (Z.land b 127) (7 * Z.of_nat i))) in
            if Z.land b 128 =? 0 then
              if bool_decide (encodedLen value = n)
              then ((Ok value, n), r)
              else ((Err varint_ErrNonCanonical, n), r)
            else Read_loop fuel n value r
      end
  end.

Definition Read {R} `{ByteReader R} (r : R) : (result Z * nat) * R :=
  Read_loop maxVarUintLen 0 0 r.

Record sliceReader := mkSliceReader { buf : bytes; pos : nat }.

#[export] Instance sliceReader_ReadByte : ByteReader sliceReader := λ r,
  if bool_decide (length (buf r) ≤ pos r)%nat then (Err io_EOF, r)
  else (Ok (nth (pos r) (buf r) 0), mkSliceReader (buf r) (S (pos r))).

(** binary.Reader satisfies the interface. *)
#[export] Instance binary_ByteReader : ByteReader Reader := ReadByte.

Definition Decode (src : bytes) : result Z * nat := fst (Read (mkSliceReader src 0)).

(** [value, _, err := varint.Read(r)] on a binary reader. *)
Definition ReadU : RM Z := λ r, let '((res, _), r') := Read r in (res, r').

(** ** What a byte reader promises *)

Class ByteReaderLaws (R : Type) `{ByteReader R} := {
  br_view : R → bytes;
  br_wf : R → Prop;
  br_advance : nat → R → R;
  br_view_advance n r : br_view (br_advance n r) = drop n (br_view r);
  br_wf_advance n r : br_wf r → (n ≤ length (br_view r))%nat → br_wf (br_advance n r);
  br_advance_add n m r : br_advance m (br_advance n r) = br_advance (n + m) r;
  br_readByte_cons r b l : br_wf r → br_view r = b :: l → readByte r = (Ok b, br_advance 1 r);
  br_readByte_nil r : br_wf r → br_view r = [] → ∃ e, readByte r = (Err e, r) ∧
    errors_Is e io_EOF || errors_Is e binary_ErrUnexpectedEOF = true;
}.

#[export] Instance binary_laws : ByteReaderLaws Reader.
Proof.
  refine {| br_view := view; br_wf := wf_reader; br_advance := advance |}.
  - intros. apply view_advance.
  - unfold wf_reader, view, advance; cbn. intros n r. rewrite length_drop. lia.
  - intros. apply advance_advance.
  - intros r b l Hw Hv. by apply (reads_ReadByte b r l).
  - intros r Hw Hv. eexists. split.
    + unfold readByte, binary_ByteReader, ReadByte.
      rewrite <- length_view, Hv by done. done.
    + done.
Defined.

#[export] Instance slice_laws : ByteReaderLaws sliceReader.
Proof.
  refine {| br_view r := drop (pos r) (buf r); br_wf r := (pos r ≤ length (buf r))%nat;
            br_advance n r := mkSliceReader (buf r) (pos r + n) |}.
  - intros n r; cbn. by rewrite drop_drop.
  - intros n r; cbn. rewrite length_drop. lia.
  - intros n m r; cbn. f_equal. lia.
  - intros r b l Hw Hv. unfold readByte, sliceReader_ReadByte.
    assert (buf r !! pos r = Some b) as Hl by by rewrite <- (Nat.add_0_r (pos r)), <- lookup_drop, Hv.
    pose proof (lookup_lt_Some _ _ _ Hl). rewrite bool_decide_false by lia.
    rewrite nth_lookup, Hl. cbn. by rewrite Nat.add_1_r.
  - intros r Hw Hv. exists io_EOF. split; [|done].
    unfold readByte, sliceReader_ReadByte. apply (f_equal length) in Hv.
    rewrite length_drop in Hv. cbn in Hv. by rewrite bool_decide_true by lia.
Defined.

(** ** Byte-level facts *)

Lemma high_bit b : is_u8 b → Z.land b 128 = if 128 <=? b then 128 else 0.
Proof.
  intros Hb. assert (b ∈ (Z.of_nat <$> seq 0 256)) as Hin.
  { apply list_elem_of_fmap. exists (Z.to_nat b). rewrite elem_of_seq. unfold is_u8 in Hb. lia. }
  clear Hb. revert b Hin. rewrite <- Forall_forall. by vm_compute; repeat constructor.
Qed.

Lemma low_bits b : Z.land b 127 = b mod 128.
Proof. exact (land_ones_mod b 7 ltac:(lia)). Qed.

Lemma lor_128 v : 0 <= v < 128 → Z.lor v 128 = v + 128.
Proof. intros Hv. change 128 with (Z.shiftl 1 7) at 1. rewrite lor_shiftl_add; lia. Qed.

Lemma w8_lor_128 v : Z.lor (w8 v) 128 = v mod 128 + 128.
Proof.
  unfold w8. rewrite <- lor_128 by (apply Z.mod_pos_bound; lia).
  apply Z.bits_inj'. intros i Hi. rewrite !Z.lor_spec.
  change (v mod 128) with (v mod 2 ^ 7). change (v mod 256) with (v mod 2 ^ 8).
  rewrite !Z.testbit_mod_pow2 by lia. destruct (decide (i = 7)) as [->|].
  - change 128 with (2 ^ 7). by rewrite Z.pow2_bits_true, !orb_true_r by lia.
  - destruct (Z.ltb_spec i 8), (Z.ltb_spec i 7); try done; lia.
Qed.

Lemma continuation_byte v : Z.land (Z.lor (w8 v) 128) 127 = v mod 128 ∧ is_u8 (Z.lor (w8 v) 128)
  ∧ Z.land (Z.lor (w8 v) 128) 128 = 128.
Proof.
  rewrite w8_lor_128. pose proof (Z.mod_pos_bound v 128 ltac:(lia)).
  assert (is_u8 (v mod 128 + 128)) by u32.
  split_and!; [|done|].
  - rewrite low_bits. rewrite <- Zplus_mod_idemp_r, Z.mod_same, Z.add_0_r by lia.
    by apply Z.mod_mod.
  - rewrite high_bit by done. case_cmp; lia.
Qed.

Lemma high_byte b : is_u8 b → 128 <= b → Z.lor (w8 b) 128 = b.
Proof. intros Hb Hl. rewrite w8_lor_128. lia_mod. Qed.

(** ** Shape of the encoding *)

Lemma Append_loop_app f dst v : Append_loop f dst v = dst ++ Append_loop f [] v.
Proof.
  revert dst v. induction f as [|f IH]; intros dst v; cbn; [done|].
  case_cmp; [|done]. rewrite (IH (dst ++ _)), (IH [_]). by rewrite <- app_assoc.
Qed.

Lemma Append_app dst v : Append dst v = dst ++ Append [] v.
Proof. apply Append_loop_app. Qed.

Lemma Append_loop_cons f v : 128 <= v →
  Append_loop (S f) [] v = Z.lor (w8 v) 128 :: Append_loop f [] (Z.shiftr v 7).
Proof. intros Hv. cbn. case_cmp; [|lia]. by rewrite Append_loop_app. Qed.

Lemma Append_loop_last f v : 0 <= v < 128 → Append_loop f [] v = [v].
Proof.
  intros Hv. destruct f; cbn; [|case_cmp; [lia|]]; by rewrite w8_small by u32.
Qed.

(** One unit of fuel beyond the value's width changes nothing. *)
Lemma Append_loop_fuel f v : 0 <= v < 2 ^ (7 * Z.of_nat (S f)) →
  Append_loop (S f) [] v = Append_loop f [] v.
Proof.
  revert v. induction f as [|f IH]; intros v Hv.
  - by rewrite !Append_loop_last by (change (2 ^ _) with 128 in Hv; lia).
  - destruct (decide (v < 128)); [by rewrite !Append_loop_last by lia|].
    rewrite (Append_loop_cons (S f) v), (Append_loop_cons f v) by lia. f_equal. apply IH.
    apply shiftr_range; [lia..|].
    by replace (7 + 7 * Z.of_nat (S f)) with (7 * Z.of_nat (S (S f))) by lia.
Qed.

Lemma encodedLen_loop_length f n v :
  S (encodedLen_loop f n v) = (n + length (Append_loop f [] v))%nat.
Proof.
  revert n v. induction f as [|f IH]; intros n v; cbn; [lia|].
  case_cmp; [|cbn; lia]. rewrite IH, (Append_loop_app f [_]), length_app. cbn. lia.
Qed.

Lemma encodedLen_length v : encodedLen v = length (Append [] v).
Proof. pose proof (encodedLen_loop_length maxVarUintLen 1 v). unfold encodedLen, Append. lia. Qed.

Lemma Append_loop_length f v : (1 ≤ length (Append_loop f [] v) ≤ S f)%nat.
Proof.
  revert v. induction f as [|f IH]; intros v; cbn; [lia|].
  case_cmp; [|cbn; lia]. rewrite Append_loop_app, length_app. cbn. specialize (IH (Z.shiftr v 7)). lia.
Qed.

Lemma Append_loop_short f v k : 0 <= v < 2 ^ (7 * Z.of_nat (S k)) →
  (length (Append_loop f [] v) ≤ S k)%nat.
Proof.
  revert v k. induction f as [|f IH]; intros v k Hv; cbn; [lia|].
  case_cmp; [|cbn; lia]. rewrite Append_loop_app, length_app.
  destruct k as [|k]; [change (2 ^ _) with 128 in Hv; lia|].
  enough (length (Append_loop f [] (Z.shiftr v 7)) ≤ S k)%nat by (cbn; lia). apply IH.
  apply shiftr_range; [lia..|]. by replace (7 + 7 * Z.of_nat (S k)) with (7 * Z.of_nat (S (S k))) by lia.
Qed.

Lemma Append_bytes f v : 0 <= v → is_bytes (Append_loop f [] v).
Proof.
  revert v. induction f as [|f IH]; intros v Hv; cbn; [by repeat constructor; apply w8_range|].
  case_cmp; [|by repeat constructor; apply w8_range].
  rewrite Append_loop_app. constructor; [apply continuation_byte|].
  apply IH. apply Z.shiftr_nonneg. lia.
Qed.

(** The group of 7 bits a byte contributes. *)
Lemma group_value acc b i : 0 <= acc < 2 ^ (7 * i) → 0 <= i → 0 <= b < 128 → b * 2 ^ (7 * i) < 4294967296 →
  Z.lor acc (w32 (Z.shiftl b (7 * i))) = acc + b * 2 ^ (7 * i).
Proof.
  intros Ha Hi Hb Hw. rewrite w32_small, lor_shiftl_add by (rewrite ?Z.shiftl_mul_pow2; u32). done.
Qed.

Lemma split_group v i : 0 <= i → v * 2 ^ (7 * i) = (v mod 128) * 2 ^ (7 * i) + Z.shiftr v 7 * 2 ^ (7 * (i + 1)).
Proof.
  intros Hi. rewrite Z.shiftr_div_pow2 by lia. change (2 ^ 7) with 128.
  replace (2 ^ (7 * (i + 1))) with (128 * 2 ^ (7 * i)).
  - rewrite (Z.div_mod v 128) at 1 by lia. ring.
  - replace (7 * (i + 1)) with (7 + 7 * i) by lia. by rewrite Z.pow_add_r by lia.
Qed.

(** ** Reading back what [Append] wrote *)

#[local] Arguments Append_loop : simpl never.

Section with_laws.
Context {R : Type} `{ByteReaderLaws R}.

Lemma Read_loop_Append_loop f i acc v r rest :
  (i + S f = 5)%nat → 0 <= v < 2 ^ (32 - 7 * Z.of_nat i) → 0 <= acc < 2 ^ (7 * Z.of_nat i) →
  br_wf r → br_view r = Append_loop f [] v ++ rest →
  encodedLen (acc + v * 2 ^ (7 * Z.of_nat i)) = (i + length (Append_loop f [] v))%nat →
  Read_loop (S f) i acc r =
    ((Ok (acc + v * 2 ^ (7 * Z.of_nat i)), (i + length (Append_loop f [] v))%nat),
     br_advance (length (Append_loop f [] v)) r).
Proof.
  revert i acc v r. induction f as [|f IH]; intros i acc v r Hi Hv Ha Hw Hview Hlen.
  - assert (i = 4%nat) as -> by lia. change (2 ^ (32 - _)) with 16 in Hv.
    change (2 ^ _) with 268435456 in Ha.
    rewrite Append_loop_last in * by lia. cbn [Read_loop].
    rewrite (br_readByte_cons _ _ _ Hw Hview), high_bit, low_bits by u32.
    rewrite (Z.mod_small v) by lia.
    do 2 (case_cmp; try lia). rewrite andb_false_r. cbn.
    rewrite group_value by (change (2 ^ _) with 268435456; lia).
    by rewrite bool_decide_true by exact Hlen.
  - assert (0 <= v * 2 ^ (7 * Z.of_nat i) < 4294967296) as Hb.
    { pose proof (mul_pow2_range v (32 - 7 * Z.of_nat i) (7 * Z.of_nat i) ltac:(lia) ltac:(lia) Hv) as Hm.
      by replace (32 - 7 * Z.of_nat i + 7 * Z.of_nat i) with 32 in Hm by lia. }
    destruct (decide (v < 128)) as [Hlt|Hge].
    + rewrite Append_loop_last in * by lia. cbn [Read_loop].
      rewrite (br_readByte_cons _ _ _ Hw Hview), high_bit, low_bits by u32.
      rewrite (Z.mod_small v) by lia. destruct (Z.leb_spec 128 v); [lia|].
      rewrite bool_decide_false by (unfold maxVarUintLen; lia). cbn.
      rewrite group_value by lia.
      rewrite bool_decide_true by (rewrite Hlen; cbn; lia). cbn. by rewrite Nat.add_1_r.
    + rewrite Append_loop_cons in * by lia.
      destruct (continuation_byte v) as (E1 & E2 & E3).
      remember (S f) as g eqn:Hg. cbn [Read_loop]. subst g.
      rewrite (br_readByte_cons _ _ _ Hw Hview), E3, E1.
      rewrite bool_decide_false by (unfold maxVarUintLen; lia). cbn -[Read_loop].
      pose proof (Z.mod_pos_bound v 128 ltac:(lia)). pose proof (Z.mod_le v 128 ltac:(lia) ltac:(lia)).
      rewrite group_value by nia.
      rewrite (split_group v) in * by lia. rewrite Z.add_assoc in *.
      replace (Z.of_nat i + 1) with (Z.of_nat (S i)) in * by lia.
      rewrite (IH (S i) _ (Z.shiftr v 7)).
      * rewrite br_advance_add. cbn [length]. by rewrite <- Nat.add_succ_comm.
      * lia.
      * apply shiftr_range; [lia..|]. by replace (7 + _) with (32 - 7 * Z.of_nat i) by lia.
      * replace (7 * Z.of_nat (S i)) with (7 + 7 * Z.of_nat i) by lia. rewrite Z.pow_add_r by lia.
        change (2 ^ 7) with 128. nia.
      * apply br_wf_advance; [done|]. rewrite Hview. cbn. lia.
      * by rewrite br_view_advance, Hview.
      * rewrite Hlen. cbn [length]. lia.
Qed.

Lemma Read_encoded v r rest : is_u32 v → br_wf r → br_view r = Append [] v ++ rest →
  Read r = ((Ok v, length (Append [] v)), br_advance (length (Append [] v)) r).
Proof.
  intros Hv Hw Hview. unfold Read. pose proof (encodedLen_length v) as Hl.
  assert (Append [] v = Append_loop 4 [] v) as E
    by (apply Append_loop_fuel; change (2 ^ _) with 34359738368; u32).
  rewrite E in *. change maxVarUintLen with 5%nat. rewrite (Read_loop_Append_loop 4 0 0 v r rest).
  - cbn [Z.of_nat]. change (7 * 0) with 0. by rewrite Z.pow_0_r, Z.mul_1_r.
  - done.
  - exact Hv.
  - cbn. lia.
  - done.
  - done.
  - cbn [Z.of_nat]. change (7 * 0) with 0. by rewrite Z.pow_0_r, Z.mul_1_r.
Qed.

(** A proper prefix of an encoding ends the input early. *)
Lemma Read_loop_truncated f i acc v r missing : (i + S f = 5)%nat → 0 <= v → missing ≠ [] → br_wf r →
  br_view r ++ missing = Append_loop f [] v → ∃ n r', Read_loop (S f) i acc r = ((Err varint_ErrUnexpectedEOF, n), r').
Proof.
  revert i acc v r. induction f as [|f IH]; intros i acc v r Hi Hv Hm Hw Hview.
  all: destruct (br_view r) as [|b l] eqn:E;
    [destruct (br_readByte_nil r Hw E) as (e & He & Hr); cbn [Read_loop]; rewrite He, Hr; by eexists _, _|].
  - apply (f_equal length) in Hview. unfold Append_loop in Hview. cbn in Hview. rewrite length_app in Hview. by destruct missing; cbn in *; [|lia].
  - destruct (decide (v < 128)) as [Hlt|Hge].
    + rewrite Append_loop_last in Hview by lia. apply (f_equal length) in Hview. cbn in Hview. rewrite length_app in Hview.
      by destruct missing; cbn in *; [|lia].
    + rewrite Append_loop_cons in Hview by lia. cbn in Hview. injection Hview as -> Hview. destruct (continuation_byte v) as (E1 & E2 & E3).
      remember (S f) as g eqn:Hg. cbn [Read_loop]. subst g. rewrite (br_readByte_cons _ _ _ Hw E), E3.
      rewrite bool_decide_false by (unfold maxVarUintLen; lia). cbn -[Read_loop].
      apply (IH _ _ (Z.shiftr v 7)); [lia|by apply Z.shiftr_nonneg|done| |by rewrite br_view_advance, E].
      apply br_wf_advance; [done|]. rewrite E. cbn. lia.
Qed.

(** ** Whatever [Read] accepts is the canonical encoding of its result *)

Lemma Read_loop_sound f i acc r tot n r' :
  (i + S f = 5)%nat → 0 <= acc < 2 ^ (7 * Z.of_nat i) → br_wf r → is_bytes (br_view r) →
  Read_loop (S f) i acc r = ((Ok tot, n), r') →
  ∃ bs v, br_view r = bs ++ br_view r' ∧ r' = br_advance (length bs) r ∧ br_wf r' ∧
    n = (i + length bs)%nat ∧ tot = acc + v * 2 ^ (7 * Z.of_nat i) ∧
    0 <= v < 2 ^ (32 - 7 * Z.of_nat i) ∧ encodedLen tot = n ∧
    (bs = Append_loop f [] v ∨ ∃ k, length bs = S (S k) ∧ v < 2 ^ (7 * Z.of_nat (S k))).
Proof.
  revert i acc r. induction f as [|f IH]; intros i acc r Hi Ha Hw Hb.
  all: [> idtac | remember (S f) as g eqn:Hg]; cbn [Read_loop].
  all: destruct (br_view r) as [|b l] eqn:Hview.
  1, 3: destruct (br_readByte_nil r Hw Hview) as (e & -> & Hr); rewrite Hr; done.
  all: rewrite (br_readByte_cons _ _ _ Hw Hview).
  all: assert (is_u8 b) as Hb8 by by inversion_clear Hb.
  all: assert (br_wf (br_advance 1 r)) as Hw1 by (apply br_wf_advance; [done|rewrite Hview; cbn; lia]).
  all: assert (br_view (br_advance 1 r) = l) as Hv1 by by rewrite br_view_advance, Hview.
  all: rewrite high_bit, low_bits by done.
  - assert (i = 4%nat) as -> by lia. rewrite bool_decide_true by done.
    destruct (Z.leb_spec 128 b); [done|]. cbn. destruct (Z.ltb_spec 15 b); [done|].
    rewrite Z.mod_small by u32. change (2 ^ _) with 268435456 in Ha.
    rewrite group_value by (change (2 ^ _) with 268435456; u32).
    case_bool_decide; [|done]. intros [= <- <- <-]. exists [b], b.
    rewrite Hv1. split_and!; try done; [u32|change (2 ^ _) with 16; u32|].
    left. rewrite Append_loop_last; [done|u32].
  - subst g. rewrite bool_decide_false by (unfold maxVarUintLen; lia). cbn -[Read_loop].
    pose proof (Z.mod_pos_bound b 128 ltac:(lia)).
    assert (128 * 2 ^ (7 * Z.of_nat i) <= 2 ^ 28) as Hp.
    { change 128 with (2 ^ 7). rewrite <- Z.pow_add_r by lia. apply Z.pow_le_mono_r; lia. }
    change (2 ^ 28) with 268435456 in Hp.
    rewrite group_value by nia. destruct (Z.leb_spec 128 b); cbn -[Read_loop].
    + intros E. apply (IH (S i)) in E as (bs & v & E1 & -> & Hw' & -> & -> & Hv & Hl & Hc); try done; [|lia| |by rewrite Hv1; inversion Hb].
      2: { replace (7 * Z.of_nat (S i)) with (7 + 7 * Z.of_nat i) by lia. rewrite Z.pow_add_r by lia.
           change (2 ^ 7) with 128. nia. }
      rewrite Hv1, br_advance_add in *.
      assert (∀ x, 2 ^ (7 * Z.of_nat (S x)) = 128 * 2 ^ (7 * Z.of_nat x)) as Hpow.
      { intros x. replace (7 * Z.of_nat (S x)) with (7 + 7 * Z.of_nat x) by lia. by rewrite Z.pow_add_r by lia. }
      exists (b :: bs), (b mod 128 + 128 * v). split_and!; try done.
      * cbn. by rewrite E1 at 1.
      * cbn [length]. lia.
      * rewrite Hpow. ring.
      * lia.
      * replace (32 - 7 * Z.of_nat i) with (7 + (32 - 7 * Z.of_nat (S i))) by lia.
        rewrite Z.pow_add_r by lia. change (2 ^ 7) with 128. lia.
      * destruct Hc as [->|(k & Hk & Hlt)].
        -- destruct (decide (v = 0)) as [->|].
           ++ right. exists 0%nat. rewrite Append_loop_last by lia. cbn [length].
              split; [done|]. change (2 ^ _) with 128. lia.
           ++ left. rewrite Append_loop_cons by lia. f_equal.
              ** rewrite <- (high_byte b Hb8) at 1 by done. rewrite !w8_lor_128. f_equal.
                 by rewrite (Z.mul_comm 128 v), Z.mod_add, Z.mod_mod by lia.
              ** f_equal. rewrite Z.shiftr_div_pow2 by lia. change (2 ^ 7) with 128.
                 by rewrite (Z.mul_comm 128 v), Z.div_add, Z.div_small by lia.
        -- right. exists (S k). cbn [length]. split; [lia|]. rewrite Hpow. lia.
    + rewrite Z.mod_small by u32. case_bool_decide; [|done].
      intros [= <- <- <-]. exists [b], b. rewrite Hv1. split_and!; try done.
      * cbn. lia.
      * u32.
      * apply Z.lt_le_trans with (2 ^ 11); [change (2 ^ 11) with 2048; u32|]. apply Z.pow_le_mono_r; lia.
      * left. rewrite Append_loop_last; [done|u32].
Qed.

Lemma Read_sound r v n r' : br_wf r → is_bytes (br_view r) → Read r = ((Ok v, n), r') →
  is_u32 v ∧ n = length (Append [] v) ∧ br_view r = Append [] v ++ br_view r' ∧
  r' = br_advance (length (Append [] v)) r ∧ br_wf r'.
Proof.
  intros Hw Hb E.
  apply (Read_loop_sound 4 0 0) in E as (bs & x & E1 & -> & Hw' & -> & -> & Hv & Hl & Hc); [|done|cbn; lia|done..].
  cbn [Z.of_nat] in *. change (7 * 0) with 0 in *. rewrite Z.pow_0_r, Z.mul_1_r, Z.add_0_l in *.
  assert (bs = Append [] x) as ->.
  { destruct Hc as [->|(k & Hk & Hlt)].
    - symmetry. apply Append_loop_fuel. split; [lia|].
      apply Z.lt_le_trans with (2 ^ (32 - 0)); [lia|]. apply Z.pow_le_mono_r; lia.
    - exfalso. rewrite encodedLen_length in Hl. unfold Append in Hl.
      pose proof (Append_loop_short maxVarUintLen x k ltac:(lia)). lia. }
  split_and!; try done. all: change (2 ^ _) with 4294967296 in Hv; unfold is_u32; lia.
Qed.

End with_laws.

(** ** The two readers *)

Lemma Read_loop_mono fuel i v (r : Reader) : 0 <= Remaining r →
  0 <= Remaining (snd (Read_loop fuel i v r)) <= Remaining r ∧
  fst (fst (Read_loop fuel i v r)) ≠ Err FuelExhausted.
Proof.
  revert i v r. induction fuel as [|fuel IH]; intros i v r Hr; cbn [Read_loop]; [cbn [fst snd]; split; [lia|done]|].
  change (readByte r) with (ReadByte r).
  destruct (ReadByte_progress r Hr) as [(e & -> & He)|(b & r1 & -> & ? & ?)].
  - destruct (_ || _); cbn [fst snd]; (split; [lia|congruence]).
  - repeat (match goal with |- context [if ?c then _ else _] => destruct c end); cbn [fst snd]; try (split; [lia|done]).
    destruct (IH (S i) (Z.lor v (w32 (Z.shiftl (Z.land b 127) (7 * Z.of_nat i)))) r1 ltac:(lia)). split; [lia|done].
Qed.

Lemma agree_ReadU n : agree n ReadU ReadU.
Proof.
  intros r ?. split; [done|]. unfold ReadU, Read. destruct (Read_loop_mono maxVarUintLen 0 0 r); [lia|].
  destruct (Read_loop _ _ _ r) as [[? ?] ?]. cbn [fst snd] in *. split; [lia|done].
Qed.
#[export] Hint Resolve agree_ReadU : agree.


Lemma reads_ReadU v : is_u32 v → reads ReadU (Append [] v) v.
Proof.
  intros Hv r rest Hw Hview. unfold ReadU. by rewrite (Read_encoded v r rest).
Qed.

Lemma truncates_ReadU v : is_u32 v → truncates ReadU (Append [] v).
Proof.
  intros Hv r missing Hw Hm Hview. unfold ReadU, Read. change maxVarUintLen with 5%nat.
  assert (Append [] v = Append_loop 4 [] v) as E by (apply Append_loop_fuel; change (2 ^ _) with 34359738368; u32).
  rewrite E in Hview. destruct (Read_loop_truncated 4 0 0 v r missing) as (n & r' & ->); [done|u32|done..|].
  by eexists _, _.
Qed.

Lemma parses_ReadU : parses ReadU (λ bs v, is_u32 v ∧ bs = Append [] v).
Proof.
  intros r v r' Hw Hb. unfold ReadU. destruct (Read r) as [[res n] r1] eqn:E.
  intros [= -> ->]. apply Read_sound in E as (Hv & _ & E1 & E2 & Hw'); [|done..].
  exists (Append [] v). done.
Qed.

Lemma Decode_encoded v rest : is_u32 v → Decode (Append [] v ++ rest) = (Ok v, length (Append [] v)).
Proof.
  intros Hv. unfold Decode. rewrite (Read_encoded v _ rest); [done..|cbn; lia|done].
Qed.

Lemma Decode_sound src v n : is_bytes src → Decode src = (Ok v, n) →
  is_u32 v ∧ n = length (Append [] v) ∧ src = Append [] v ++ drop n src.
Proof.
  intros Hb. unfold Decode. destruct (Read _) as [[res k] r'] eqn:E; cbn. intros [= -> ->].
  apply Read_sound in E as (Hv & -> & E1 & -> & _); [by split_and!|cbn; lia|done].
Qed.

Lemma Append_is_bytes v : 0 <= v → is_bytes (Append [] v).
Proof. apply Append_bytes. Qed.

Lemma Append_length v : is_u32 v → (1 ≤ length (Append [] v) ≤ 5)%nat.
Proof.
  intros Hv. unfold Append. rewrite (Append_loop_fuel 4) by (change (2 ^ _) with 34359738368; u32).
  apply Append_loop_length.
Qed.

Lemma Append_inj v w : is_u32 v → is_u32 w → Append [] v = Append [] w → v = w.
Proof.
  intros Hv Hw E. pose proof (Decode_encoded v [] Hv) as E1.
  rewrite E, (Decode_encoded w [] Hw) in E1. by injection E1.
Qed.

End varint.

(** * Properties of internal/varint *)
Import varint.

(** Reading back what [Append] wrote, through any implementation of the
    [ByteReader] interface: whatever follows, [Read] returns the value and the
    number of bytes it takes (between 1 and 5), and leaves the reader exactly
    behind the encoding. *)
Theorem varint_roundtrip {R} `{ByteReaderLaws R} (v : Z) (r : R) (rest : bytes)
    (Hv : is_u32 v) (Hw : br_wf r) (Hview : br_view r = Append [] v ++ rest) :
  Read r = ((Ok v, length (Append [] v)), br_advance (length (Append [] v)) r) ∧
  (1 ≤ length (Append [] v) ≤ 5)%nat ∧ encodedLen v = length (Append [] v).
Proof.
  split_and!; [by eapply Read_encoded|by apply Append_length..|apply encodedLen_length].
Qed.

Lemma varint_roundtrip_witness :
  Read (NewReader [172; 2; 9]) = ((Ok 300, 2%nat), mkReader [172; 2; 9] 2).
Proof.
  destruct (varint_roundtrip 300 (NewReader [172; 2; 9]) [9]) as [H _];
    [unfold is_u32; lia|vm_compute; lia|reflexivity|exact H].
Defined.

(** The encoding is canonical: if [Decode] accepts any byte string, the
    string starts with exactly the bytes [Append] writes for the value, so
    over-long and overflowing encodings are rejected and distinct accepted
    prefixes give distinct values. *)
Theorem varint_canonical (src : bytes) (v : Z) (n : nat)
    (Hb : is_bytes src) (Hd : Decode src = (Ok v, n)) :
  is_u32 v ∧ take n src = Append [] v ∧ n = length (Append [] v).
Proof.
  destruct (Decode_sound src v n Hb Hd) as (Hv & Hn & E). split_and!; [done| |done].
  rewrite E, Hn. apply take_app_length.
Qed.

Lemma varint_canonical_witness : take 2 [172; 2; 9] = Append [] 300.
Proof.
  apply (varint_canonical [172; 2; 9] 300 2).
  - repeat constructor; unfold is_u8; lia.
  - vm_compute. reflexivity.
Defined.
