(* ===== verification/IdSetSpec.v ===== *)
(** * Properties of internal/yidset

    Stated against the set of (client, clock) pairs a normalised [IdSet] denotes
    ([mem]).  The hypothesis that some clock is in no range ([avoids], [room])
    excludes only sets that cover the whole uint32 domain of a client, for
    which [IdSet_full_domain_lost] shows what happens. *)
From S2P Require Import Prelude GoError Ranges IdSet IdSetFacts.

(** [Add] on every branch: a zero length and a range past 2^32 are rejected
    with their error and leave the set alone; otherwise the set stays normalised
    (sorted, disjoint, coalesced ranges) and gains exactly the new clocks. *)
Theorem IdSet_Add_correct (s : IdSet) (client clock len y : Z)
    (Hw : wf_set s) (Hc : is_u32 clock) (Hl : is_u32 len)
    (Hroom : room (ranges_of s client) (mkRange clock len) y) :
  IdSet_Add (Some s) client clock len =
    (if len =? 0 then (Some s, Some (Sentinel yidset_ErrInvalidLength))
     else if 4294967296 <? clock + len then (Some s, Some (Sentinel yidset_ErrRangeOverflow))
     else (Some (set_ranges s client (insert_range (ranges_of s client) (mkRange clock len))), None)) ∧
  (0 < len → clock + len <= 4294967296 →
   added s client (mkRange clock len)
     (set_ranges s client (insert_range (ranges_of s client) (mkRange clock len)))).
Proof.
  split.
  - unfold IdSet_Add. destruct (decide (wf_range (mkRange clock len))) as [Hr|Hr].
    + rewrite (IdSet_add_ranges s client clock len y (mkRange clock len) Hw); [|by apply NewRange_Ok|done..].
      do 2 (case_if; [rg|]). done.
    + unfold IdSet_add. rewrite NewRange_spec by done. do 2 (case_if; [done|]). destruct Hr. rg.
  - intros. eapply insert_added; [done| |done]. rg.
Qed.

Definition sample_set : IdSet := mkIdSet {[ 7 := [mkRange 0 3; mkRange 10 5] ]}.

Lemma IdSet_Add_correct_witness :
  IdSet_Add (Some sample_set) 7 3 7 = (Some (mkIdSet {[ 7 := [mkRange 0 15] ]}), None).
Proof.
  destruct (IdSet_Add_correct sample_set 7 3 7 20) as [H _].
  - apply (bool_decide_unpack _). vm_compute. exact I.
  - unfold is_u32; lia.
  - unfold is_u32; lia.
  - split_and!; apply (bool_decide_unpack _); vm_compute; exact I.
  - rewrite H. vm_compute. reflexivity.
Defined.

(** Two insertions that together cover every clock of a client leave a range
    whose stored length wrapped to zero: the set then contains no clock at all. *)
Theorem IdSet_full_domain_lost (client x : Z) :
  let '(s, e1) := IdSet_Add (Some IdSet_New) client 0 2147483648 in
  let '(s, e2) := IdSet_Add s client 2147483648 2147483648 in
  e1 = None ∧ e2 = None ∧ IdSet_Has s client x = false.
Proof.
  unfold IdSet_Add, IdSet_add. cbn [NewRange rangeEnd]. rewrite !NewRange_spec by u32. cbn [Z.eqb Z.ltb].
  replace (4294967296 <? 0 + 2147483648) with false by (symmetry; apply Z.ltb_ge; lia).
  replace (4294967296 <? 2147483648 + 2147483648) with false by (symmetry; apply Z.ltb_ge; lia).
  change (ranges_of IdSet_New client) with (@nil Range). cbn [last]. rewrite ranges_of_set_eq. cbn.
  split; [done|]. split; [done|]. unfold IdSet_Has. rewrite ranges_of_set_eq.
  assert (mergeRanges (mkRange 0 2147483648) (mkRange 2147483648 2147483648) = mkRange 0 0) as -> by by vm_compute.
  change (Has_loop 2 [mkRange 0 0] x 0 0 = false).
  unfold Has_loop, Range_Contains, Range_End. change (0 <=? 0) with true. change ((0 + 0) / 2) with 0.
  change ([mkRange 0 0] !! Z.to_nat 0) with (Some (mkRange 0 0)). cbn [r_Clock r_Length].
  destruct (Z.leb_spec 0 x), (Z.ltb_spec x (0 + 0)), (Z.ltb_spec x 0); try lia; done.
Qed.

(** [Has] (binary search over the ranges) decides membership. *)
Theorem IdSet_Has_correct (s : IdSet) (client clock : Z) (Hw : wf_set s) :
  IdSet_Has (Some s) client clock = true ↔ mem s client clock.
Proof. by apply IdSet_Has_spec. Qed.

Lemma IdSet_Has_correct_witness : mem sample_set 7 12.
Proof.
  apply (IdSet_Has_correct sample_set 7 12); [apply (bool_decide_unpack _); vm_compute; exact I|].
  vm_compute. reflexivity.
Defined.

(** [MergeIdSets] is the union of its arguments, normalised, and does not
    depend on their order or repetition: argument lists with the same members
    give the same value. *)
Theorem MergeIdSets_union (y : Z) (sets sets' : list (option IdSet)) (Hy : is_u32 y)
    (Hw : Forall (λ s, ∀ s', s = Some s' → wf_set s' ∧ avoids y s') sets)
    (Hmem : ∀ s, s ∈ sets ↔ s ∈ sets') :
  wf_set (MergeIdSets sets) ∧
  (∀ c x, mem (MergeIdSets sets) c x ↔ Exists (λ s, memp s c x) sets) ∧
  MergeIdSets sets' = MergeIdSets sets.
Proof.
  destruct (MergeIdSets_spec y sets Hy Hw) as (H1 & _ & H2). split_and!; [done..|].
  assert (Forall (λ s, ∀ s', s = Some s' → wf_set s' ∧ avoids y s') sets') as Hw'.
  { rewrite Forall_forall in *. naive_solver. }
  destruct (MergeIdSets_spec y sets' Hy Hw') as (H1' & _ & H2').
  apply IdSet_ext; [done..|]. intros c x. rewrite H2, H2', !Exists_exists. naive_solver.
Qed.

Lemma MergeIdSets_union_witness :
  MergeIdSets [Some (mkIdSet {[ 1 := [mkRange 5 5] ]}); None; Some (mkIdSet {[ 1 := [mkRange 0 5] ]})] =
  MergeIdSets [Some (mkIdSet {[ 1 := [mkRange 0 5] ]}); Some (mkIdSet {[ 1 := [mkRange 5 5] ]}); None].
Proof.
  apply (MergeIdSets_union 100).
  - unfold is_u32; lia.
  - repeat (apply Forall_cons; split; [intros s' E; try discriminate E; injection E as <-;
      split; apply (bool_decide_unpack _); vm_compute; exact I|]). apply Forall_nil; exact I.
  - intros s. set_solver.
Defined.

(** [IntersectSets] and [SubtractSets] split a set: the intersection has the
    common clocks, the difference the others, both are normalised, and merging
    the two parts gives back the very set that was split. *)
Theorem intersect_subtract_split (y : Z) (a b : IdSet) (Hy : is_u32 y)
    (Ha : wf_set a) (Hb : wf_set b) (Hay : avoids y a) :
  let i := IntersectSets (Some a) (Some b) in
  let d := SubtractSets (Some a) (Some b) in
  wf_set i ∧ wf_set d ∧
  (∀ c x, mem i c x ↔ mem a c x ∧ mem b c x) ∧
  (∀ c x, mem d c x ↔ mem a c x ∧ ¬ mem b c x) ∧
  MergeIdSets [Some i; Some d] = a.
Proof.
  cbn zeta. destruct (IntersectSets_spec a b Ha Hb) as [Hi1 Hi2].
  destruct (SubtractSets_spec a b Ha Hb) as [Hd1 Hd2]. split_and!; [done..|].
  destruct (MergeIdSets_spec y [Some (IntersectSets (Some a) (Some b)); Some (SubtractSets (Some a) (Some b))])
    as (Hw & _ & Hm); [done| |].
  { repeat (apply Forall_cons; split; [intros ? [= <-]; split; [done|]|]); [..|done];
      intros c; rewrite ?Hi2, ?Hd2; intros [? ?]; by apply (Hay c). }
  apply IdSet_ext; [done..|]. intros c x. rewrite Hm, !Exists_cons, Exists_nil. cbn. rewrite Hi2, Hd2.
  destruct (decide (mem b c x)); tauto.
Qed.

Lemma intersect_subtract_split_witness :
  MergeIdSets [Some (IntersectSets (Some sample_set) (Some (mkIdSet {[ 7 := [mkRange 2 10] ]})));
               Some (SubtractSets (Some sample_set) (Some (mkIdSet {[ 7 := [mkRange 2 10] ]})))] = sample_set.
Proof.
  apply (intersect_subtract_split 100); [unfold is_u32; lia|..];
    apply (bool_decide_unpack _); vm_compute; exact I.
Defined.

(** [Slice] partitions the window: the segments follow each other from
    [clock] to [clock + length] without gap or overlap, none is empty, and each is
    marked present exactly when its clocks are in the set.  No range may reach
    clock 2^32-1 (see [Slice_end_wraps]). *)
Theorem IdSet_Slice_partition (s : IdSet) (client clock len : Z) (Hw : wf_set s)
    (Hc : is_u32 clock) (Hl : 0 < len < 4294967296) (Hle : clock + len <= 4294967296)
    (Htop : ¬ mem s client MaxUint32) :
  tiles clock (clock + len) (IdSet_Slice s client clock len) ∧
  flags_ok (ranges_of s client) (IdSet_Slice s client clock len).
Proof.
  unfold IdSet_Slice, rangeEnd. case_if; [lia|]. case_if; [lia|]. cbn [negb].
  assert (tiles clock (clock + len) [mkSegment clock len false]) as Hone by (cbn; split_and!; lia).
  destruct (ranges_of s client) as [|r l] eqn:E.
  { split; [done|]. apply Forall_singleton. intros x _. cbn. split; [|done]. intros Hx. by apply covers_nil in Hx. }
  rewrite <- E in *. pose proof (wf_ranges_of s client Hw) as Hr.
  destruct (slice_loop (ranges_of s client) (clock + len) clock) as [segs cursor] eqn:Es.
  destruct (slice_loop_spec (-1) (ranges_of s client) (clock + len) clock segs cursor) as (Ht & Hcur & Hf & Hn);
    [done|exact Htop|u32|lia|left; lia|done|].
  rewrite E. rewrite <- E. set (all := if cursor <? clock + len then _ else _).
  enough (tiles clock (clock + len) all ∧ flags_ok (ranges_of s client) all) as [H1 H2].
  { destruct all; [cbn in H1; lia|done]. }
  subst all. pose proof (tiles_le _ _ _ Ht). case_if; [|split; [by replace (clock + len) with cursor by lia|done]].
  assert (w32 (w32 (clock + len) - cursor) = clock + len - cursor) as ->.
  { unfold w32. rewrite Zminus_mod_idemp_l. apply Z.mod_small. unfold is_u32 in Hc. lia. }
  split.
  - eapply tiles_app; [done|]. cbn. split_and!; lia.
  - apply Forall_app. split; [done|]. apply Forall_singleton. cbn. intros x Hx. split; [|done].
    intros Hx'. destruct (Hn x); [lia|done].
Qed.

Lemma IdSet_Slice_partition_witness : tiles 1 (1 + 12) (IdSet_Slice sample_set 7 1 12).
Proof.
  apply (IdSet_Slice_partition sample_set 7 1 12); [|unfold is_u32; lia|lia|lia|];
    apply (bool_decide_unpack _); vm_compute; exact I.
Defined.

(** A range that ends at 2^32 has its end truncated to zero by [Slice], so the
    whole window is reported absent although every clock of it is present. *)
Theorem Slice_end_wraps (client : Z) :
  let s := set_ranges IdSet_New client [mkRange 4294967290 6] in
  wf_set s ∧ IdSet_Slice s client 4294967290 6 = [mkSegment 4294967290 6 false] ∧
  ∀ x, 4294967290 <= x < 4294967296 → IdSet_Has (Some s) client x = true.
Proof.
  cbn zeta. assert (wf_set (set_ranges IdSet_New client [mkRange 4294967290 6])) as Hw.
  { apply wf_set_ranges; [apply wf_set_New| |done]. apply (bool_decide_unpack _). vm_compute. exact I. }
  split_and!; [done| |].
  - unfold IdSet_Slice. rewrite ranges_of_set_eq. vm_compute. reflexivity.
  - intros x Hx. apply IdSet_Has_spec; [done|]. unfold mem. rewrite ranges_of_set_eq.
    apply covers_cons. left. rg.
Qed.
