(* ===== verification/GoText.v ===== *)
(** * Go strings: UTF-8 and UTF-16

    What the code uses of Go's text support: [for _, r := range s] and
    [[]rune(s)] (invalid bytes decode to U+FFFD, one byte each), [string(runes)],
    [utf16.Encode] and [utf16.Decode].  A string is its list of bytes, a rune and
    a UTF-16 unit are integers. *)
From Stdlib Require Import Ascii.
From S2P Require Import Prelude.

(** The bytes of a string constant. *)
Definition str (s : string) : bytes := map (λ c, Z.of_N (N_of_ascii c)) (String.list_ascii_of_string s).

Definition RuneError : Z := 65533.

(** The runes a Go string is iterated as: the ranges of the second byte are the
    ones of unicode/utf8. *)
Definition cont (lo hi b : Z) : bool := (lo <=? b) && (b <=? hi).

Definition second_range (b0 : Z) : Z * Z :=
  if b0 =? 224 then (160, 191) else if b0 =? 237 then (128, 159)
  else if b0 =? 240 then (144, 191) else if b0 =? 244 then (128, 143) else (128, 191).

Fixpoint runes (s : bytes) : list Z :=
  match s with
  | [] => []
  | b0 :: s1 =>
      if b0 <? 128 then b0 :: runes s1
      else
        let '(lo, hi) := second_range b0 in
        match s1 with
        | b1 :: s2 =>
            if negb (cont lo hi b1) then RuneError :: runes s1
            else if (194 <=? b0) && (b0 <=? 223) then (b0 - 192) * 64 + (b1 - 128) :: runes s2
            else
              match s2 with
              | b2 :: s3 =>
                  if negb (cont 128 191 b2) then RuneError :: runes s1
                  else if (224 <=? b0) && (b0 <=? 239)
                       then (b0 - 224) * 4096 + (b1 - 128) * 64 + (b2 - 128) :: runes s3
                  else
                    match s3 with
                    | b3 :: s4 =>
                        if (240 <=? b0) && (b0 <=? 244) && cont 128 191 b3
                        then (b0 - 240) * 262144 + (b1 - 128) * 4096 + (b2 - 128) * 64 + (b3 - 128) :: runes s4
                        else RuneError :: runes s1
                    | [] => RuneError :: runes s1
                    end
              | [] => RuneError :: runes s1
              end
        | [] => RuneError :: runes s1
        end
  end.

(** utf8.AppendRune on a Unicode scalar value. *)
Definition utf8_encode (r : Z) : bytes :=
  if r <? 128 then [r]
  else if r <? 2048 then [192 + r / 64; 128 + r mod 64]
  else if r <? 65536 then [224 + r / 4096; 128 + r / 64 mod 64; 128 + r mod 64]
  else [240 + r / 262144; 128 + r / 4096 mod 64; 128 + r / 64 mod 64; 128 + r mod 64].

Definition is_scalar (r : Z) : Prop := 0 <= r < 55296 ∨ 57344 <= r < 1114112.

#[export] Instance is_scalar_dec r : Decision (is_scalar r).
Proof. unfold is_scalar. apply _. Defined.

(** [string(rs)]: a rune that is no scalar value is written as U+FFFD. *)
Definition string_of_runes (rs : list Z) : bytes :=
  concat ((λ r, utf8_encode (if bool_decide (is_scalar r) then r else RuneError)) <$> rs).

Definition utf16_encode_rune (r : Z) : list Z :=
  if (0 <=? r) && (r <? 55296) || (57344 <=? r) && (r <? 65536) then [r]
  else if (65536 <=? r) && (r <=? 1114111)
       then [55296 + (r - 65536) / 1024; 56320 + (r - 65536) mod 1024]
  else [RuneError].

(** utf16.Encode *)
Definition utf16_encode (rs : list Z) : list Z := concat (utf16_encode_rune <$> rs).

Definition is_high (u : Z) : bool := (55296 <=? u) && (u <? 56320).
Definition is_low (u : Z) : bool := (56320 <=? u) && (u <? 57344).

(** utf16.Decode *)
Fixpoint utf16_decode (us : list Z) : list Z :=
  match us with
  | [] => []
  | u :: us1 =>
      if negb (is_high u || is_low u) then u :: utf16_decode us1
      else
        match us1 with
        | v :: us2 =>
            if is_high u && is_low v
            then (u - 55296) * 1024 + (v - 56320) + 65536 :: utf16_decode us2
            else RuneError :: utf16_decode us1
        | [] => [RuneError]
        end
  end.

(** The number of UTF-16 units of a rune, as the code counts it. *)
Definition rune_units (r : Z) : Z := if r <=? 65535 then 1 else 2.

(** ** Facts *)

Lemma RuneError_scalar : is_scalar RuneError.
Proof. unfold is_scalar, RuneError. lia. Qed.

(** Encoding a scalar value and iterating over the result gives it back. *)
Lemma runes_utf8 r rest : is_scalar r → runes (utf8_encode r ++ rest) = r :: runes rest.
Proof.
  unfold is_scalar. intros Hr. unfold utf8_encode.
  destruct (Z.ltb_spec r 128); [by cbn [app runes]; cmp_known|].
  assert (128 <= 128 + r mod 64 <= 191) by lia_dm.
  destruct (Z.ltb_spec r 2048).
  { assert (194 <= 192 + r / 64 <= 223) by lia_dm. cbn [app runes].
    unfold second_range, cont. cmp_known. f_equal. lia_dm. }
  assert (128 <= 128 + r / 64 mod 64 <= 191) by lia_dm.
  destruct (Z.ltb_spec r 65536).
  { assert (224 <= 224 + r / 4096 <= 239) by lia_dm.
    assert (let '(lo, hi) := second_range (224 + r / 4096) in lo <= 128 + r / 64 mod 64 <= hi) as Hs.
    { unfold second_range. do 4 (case_if; [lia_dm|]). lia_dm. }
    cbn [app runes]. destruct (second_range (224 + r / 4096)) as [lo hi]. unfold cont.
    cmp_known. f_equal. lia_dm. }
  assert (240 <= 240 + r / 262144 <= 244) by lia_dm.
  assert (128 <= 128 + r / 4096 mod 64 <= 191) by lia_dm.
  assert (let '(lo, hi) := second_range (240 + r / 262144) in lo <= 128 + r / 4096 mod 64 <= hi) as Hs.
  { unfold second_range. do 4 (case_if; [lia_dm|]). lia. }
  cbn [app runes]. destruct (second_range (240 + r / 262144)) as [lo hi]. unfold cont.
  cmp_known. f_equal. lia_dm.
Qed.

Lemma runes_string_of_runes rs : Forall is_scalar rs → runes (string_of_runes rs) = rs.
Proof.
  unfold string_of_runes. induction 1 as [|r rs Hr _ IH]; [done|]. cbn [fmap list_fmap concat].
  rewrite bool_decide_true by done. by rewrite runes_utf8, IH.
Qed.

(** The values the three multi-byte forms can take. *)
Lemma second_range_spec b0 lo hi : second_range b0 = (lo, hi) →
  128 <= lo ∧ hi <= 191 ∧ (b0 = 224 → lo = 160) ∧ (b0 = 237 → hi = 159) ∧
  (b0 = 240 → lo = 144) ∧ (b0 = 244 → hi = 143).
Proof. unfold second_range. repeat case_if; intros [= <- <-]; lia. Qed.

Lemma cont_true lo hi b : cont lo hi b = true ↔ lo <= b <= hi.
Proof. unfold cont. rewrite andb_true_iff, !Z.leb_le. lia. Qed.

(** One step of the iteration: the bytes of a rune, the rune, the rest. *)
Lemma runes_step b s : is_bytes (b :: s) → ∃ r p s', b :: s = p ++ s' ∧ p ≠ [] ∧ runes (b :: s) = r :: runes s' ∧
  is_scalar r ∧ rune_units r <= Z.of_nat (length p).
Proof.
  intros Hb. apply Forall_cons in Hb as [U0 Hb1].
  assert (∃ r p s', b :: s = p ++ s' ∧ p ≠ [] ∧ RuneError :: runes s = r :: runes s' ∧ is_scalar r ∧
    rune_units r <= Z.of_nat (length p)) as Hrep.
  { exists RuneError, [b], s. by split_and!; [done..|apply RuneError_scalar|]. }
  cbn [runes]. case_if.
  { exists b, [b], s. split_and!; [done..|unfold is_scalar; u32|]. unfold rune_units. by cmp_known. }
  destruct (second_range b) as [lo hi] eqn:Es. apply second_range_spec in Es.
  destruct s as [|b1 s2]; [done|]. apply Forall_cons in Hb1 as [U1 Hb2].
  destruct (cont lo hi b1) eqn:E1; cbn [negb]; [|done]. apply cont_true in E1.
  destruct ((194 <=? b) && (b <=? 223)) eqn:E2.
  { apply cont_true in E2. eexists _, [b; b1], s2. split_and!; [done..|unfold is_scalar; lia|].
    unfold rune_units. cbn [length]. case_if; lia. }
  destruct s2 as [|b2 s3]; [done|]. apply Forall_cons in Hb2 as [U2 Hb3].
  destruct (cont 128 191 b2) eqn:E3; cbn [negb]; [|done]. apply cont_true in E3.
  destruct ((224 <=? b) && (b <=? 239)) eqn:E4.
  { apply cont_true in E4. eexists _, [b; b1; b2], s3. split_and!; [done..|unfold is_scalar; lia|].
    unfold rune_units. cbn [length]. case_if; lia. }
  destruct s3 as [|b3 s4]; [done|]. apply Forall_cons in Hb3 as [U3 Hb4].
  destruct ((240 <=? b) && (b <=? 244) && cont 128 191 b3) eqn:E5; [|done].
  apply andb_true_iff in E5 as [E5%cont_true E6%cont_true]. eexists _, [b; b1; b2; b3], s4.
  split_and!; [done..|unfold is_scalar; lia|]. unfold rune_units. cbn [length]. case_if; lia.
Qed.

(** The number of UTF-16 units of a list of runes. *)
Definition units (rs : list Z) : Z := foldr (λ r n, rune_units r + n) 0 rs.

Lemma rune_units_range r : 1 <= rune_units r <= 2.
Proof. unfold rune_units. case_if; lia. Qed.
Lemma units_nonneg rs : 0 <= units rs.
Proof. induction rs as [|r rs IH]; [done|]. cbn [units foldr]. fold (units rs). pose proof (rune_units_range r). lia. Qed.

(** Every rune of a string is a scalar value, and a string has at least as many
    bytes as UTF-16 units. *)
Lemma runes_spec s : is_bytes s → Forall is_scalar (runes s) ∧ units (runes s) <= Z.of_nat (length s).
Proof.
  remember (length s) as n eqn:Hn. revert s Hn. induction (lt_wf n) as [n _ IH]. intros s -> Hb.
  destruct s as [|b s]; [by split|].
  destruct (runes_step b s Hb) as (r & p & s' & E & Hp & Er & Hr & Hu). rewrite Er.
  assert (is_bytes s') as Hb' by (rewrite E in Hb; by apply Forall_app in Hb as [_ ?]).
  rewrite E, length_app. destruct (IH (length s')) with (s := s') as [H1 H2]; [|done..|].
  { rewrite E, length_app. destruct p; [done|]. cbn. lia. }
  split; [by constructor|]. cbn [units foldr]. fold (units (runes s')). lia.
Qed.

Lemma runes_scalar s : is_bytes s → Forall is_scalar (runes s).
Proof. intros. by apply runes_spec. Qed.

(** ** UTF-16 *)

Definition is_u16 (u : Z) : Prop := 0 <= u < 65536.

Lemma utf16_encode_rune_spec r : is_scalar r →
  (utf16_encode_rune r = [r] ∧ rune_units r = 1 ∧ is_high r = false ∧ is_low r = false ∧ is_u16 r) ∨
  (∃ u v, utf16_encode_rune r = [u; v] ∧ rune_units r = 2 ∧ is_high u = true ∧ is_low v = true ∧
     r = (u - 55296) * 1024 + (v - 56320) + 65536).
Proof.
  unfold is_scalar, utf16_encode_rune, rune_units, is_high, is_low, is_u16. intros Hr.
  destruct (Z.leb_spec r 65535).
  - left. destruct Hr; cmp_known; repeat split; try lia.
  - right. exists (55296 + (r - 65536) / 1024), (56320 + (r - 65536) mod 1024).
    assert (0 <= (r - 65536) / 1024 < 1024) by lia_dm. assert (0 <= (r - 65536) mod 1024 < 1024) by lia_dm.
    cmp_known. repeat split. lia_dm.
Qed.

(** Decoding a list of units gives scalar values that take the same number of
    units: a lone surrogate becomes U+FFFD, which takes one. *)
Lemma utf16_decode_spec us : Forall is_u16 us →
  Forall is_scalar (utf16_decode us) ∧
  Z.of_nat (length us) = units (utf16_decode us).
Proof.
  remember (length us) as n eqn:Hn. revert us Hn. induction (lt_wf n) as [n _ IH]. intros us -> Hu.
  destruct us as [|u us1]; [by split|]. apply Forall_cons in Hu as [Hu Hu1].
  destruct (IH (length us1) ltac:(cbn; lia) us1 eq_refl Hu1) as [H1 H2].
  assert (Forall is_scalar (RuneError :: utf16_decode us1) ∧ Z.of_nat (length (u :: us1)) =
    units (RuneError :: utf16_decode us1)) as Hrep.
  { split; [by constructor; [apply RuneError_scalar|]|]. cbn [units foldr length]. fold (units (utf16_decode us1)). rewrite <- H2.
    unfold rune_units, RuneError. cmp_known. lia. }
  cbn [utf16_decode]. destruct (is_high u) eqn:Eh; [|destruct (is_low u) eqn:El]; cbn [orb negb].
  - destruct us1 as [|v us2]; [exact Hrep|]. destruct (is_low v) eqn:Ev; cbn [andb]; [|exact Hrep].
    apply Forall_cons in Hu1 as [Hv Hu2]. destruct (IH (length us2) ltac:(cbn; lia) us2 eq_refl Hu2) as [H3 H4].
    unfold is_high, is_low in *. apply andb_true_iff in Eh as [?%Z.leb_le ?%Z.ltb_lt], Ev as [?%Z.leb_le ?%Z.ltb_lt].
    split; [constructor; [unfold is_scalar; lia|done]|]. cbn [units foldr length]. fold (units (utf16_decode us2)). rewrite <- H4.
    unfold rune_units. cmp_known. lia.
  - destruct us1 as [|v us2]; [exact Hrep|]. cbn [andb]. exact Hrep.
  - unfold is_high, is_low, is_u16 in *. apply andb_false_iff in Eh, El. rewrite !Z.leb_gt, !Z.ltb_ge in *.
    split; [constructor; [unfold is_scalar; lia|done]|]. cbn [units foldr length]. fold (units (utf16_decode us1)). rewrite <- H2.
    unfold rune_units. cmp_known. lia.
Qed.

Lemma utf16_encode_length rs : Forall is_scalar rs →
  Z.of_nat (length (utf16_encode rs)) = units rs ∧ Forall is_u16 (utf16_encode rs).
Proof.
  unfold utf16_encode. induction 1 as [|r rs Hr _ [IH1 IH2]]; [by split|].
  cbn [fmap list_fmap concat units foldr]. fold (units rs). rewrite length_app, Nat2Z.inj_add, IH1.
  destruct (utf16_encode_rune_spec r Hr) as [(-> & -> & _ & _ & Hu)|(u & v & -> & -> & Hh & Hl & _)].
  - split; [cbn [length]; lia|]. apply Forall_app. by split; [constructor|].
  - split; [cbn [length]; lia|]. apply Forall_app. split; [|done].
    unfold is_high, is_low in *. apply andb_true_iff in Hh as [?%Z.leb_le ?%Z.ltb_lt], Hl as [?%Z.leb_le ?%Z.ltb_lt].
    repeat constructor; lia.
Qed.

(** The bytes of a rune: at most three per unit. *)
Lemma utf8_encode_spec r : is_scalar r →
  is_bytes (utf8_encode r) ∧ Z.of_nat (length (utf8_encode r)) <= 3 * rune_units r.
Proof.
  unfold is_scalar, utf8_encode, rune_units. intros Hr.
  repeat case_if; try lia; cbn [length]; (split; [|lia]); repeat constructor; unfold is_u8; lia_dm.
Qed.

Lemma string_of_runes_spec rs : Forall is_scalar rs →
  is_bytes (string_of_runes rs) ∧ Z.of_nat (length (string_of_runes rs)) <= 3 * units rs.
Proof.
  unfold string_of_runes. induction 1 as [|r rs Hr _ [IH1 IH2]]; [by split; [constructor|]|].
  cbn [fmap list_fmap concat units foldr]. fold (units rs). rewrite bool_decide_true by done.
  destruct (utf8_encode_spec r Hr) as [H1 H2]. rewrite length_app. split; [by apply Forall_app|lia].
Qed.

(** ** White space *)

(** unicode.IsSpace. *)
Definition IsSpace (r : Z) : bool :=
  ((9 <=? r) && (r <=? 13)) || (r =? 32) || (r =? 133) || (r =? 160) || (r =? 5760) ||
  ((8192 <=? r) && (r <=? 8202)) || (r =? 8232) || (r =? 8233) || (r =? 8239) || (r =? 8287) || (r =? 12288).

(** [strings.TrimSpace(s) == ""]: every rune of the string is white space. *)
Definition is_blank (s : bytes) : bool := forallb IsSpace (runes s).

Lemma is_blank_nil : is_blank [] = true.
Proof. done. Qed.

(** * Strings of the standard library

    strings.TrimSpace, and strconv's decimal numbers as the cluster prints and
    parses them. *)

(** ** strings.TrimSpace *)

(** The encodings of the runes [unicode.IsSpace] accepts. *)
Definition space_encodings : list bytes :=
  utf8_encode <$> [9; 10; 11; 12; 13; 32; 133; 160; 5760; 8192; 8193; 8194; 8195; 8196; 8197; 8198; 8199; 8200; 8201; 8202;
                   8232; 8233; 8239; 8287; 12288].

Definition leading_space (s : bytes) : option bytes := head (filter (λ e, e `prefix_of` s) space_encodings).
Definition trailing_space (s : bytes) : option bytes := head (filter (λ e, e `suffix_of` s) space_encodings).

(** Every round removes at least a byte. *)
Fixpoint trim_left (fuel : nat) (s : bytes) : bytes :=
  match fuel with
  | O => s
  | S fuel => match leading_space s with Some e => trim_left fuel (drop (length e) s) | None => s end
  end.

Fixpoint trim_right (fuel : nat) (s : bytes) : bytes :=
  match fuel with
  | O => s
  | S fuel => match trailing_space s with Some e => trim_right fuel (take (length s - length e) s) | None => s end
  end.

Definition TrimSpace (s : bytes) : bytes :=
  let s := trim_left (length s) s in trim_right (length s) s.

(** ** Decimal numbers *)

Fixpoint digits (fuel : nat) (n : Z) : bytes :=
  match fuel with
  | O => []
  | S fuel => if n <? 10 then [48 + n] else digits fuel (n / 10) ++ [48 + n mod 10]
  end.

(** A [uint64] has at most 20 digits. *)
Definition FormatUint (n : Z) : bytes := digits 20 n.

Definition FormatInt (n : Z) : bytes := if n <? 0 then 45 :: FormatUint (- n) else FormatUint n.

(** [strconv.ParseUint(s, 10, 32)]: an empty string, a byte that is no digit and
    a value above 2^32 - 1 are errors. *)
Fixpoint ParseUint_loop (s : bytes) (n : Z) : option Z :=
  match s with
  | [] => Some n
  | c :: s =>
      if (c <? 48) || (57 <? c) then None
      else let n := n * 10 + (c - 48) in if MaxUint32 <? n then None else ParseUint_loop s n
  end.

Definition ParseUint32 (s : bytes) : option Z := match s with [] => None | _ => ParseUint_loop s 0 end.

(** ** Facts *)

Lemma digits_nonempty fuel n : (fuel ≠ 0)%nat → digits fuel n ≠ [].
Proof. destruct fuel; [done|]. intros _. cbn. case_if; [done|]. by intros [_ ?]%app_nil. Qed.

Lemma ParseUint_loop_app s t n m : ParseUint_loop s n = Some m → ParseUint_loop (s ++ t) n = ParseUint_loop t m.
Proof.
  revert n. induction s as [|c s IH]; intros n; cbn; [by intros [= ->]|]. destruct (_ || _); [done|]. destruct (_ <? _); [done|]. apply IH.
Qed.

Lemma ParseUint_digits fuel n : 0 <= n <= MaxUint32 → n < 10 ^ Z.of_nat fuel → (fuel ≠ 0)%nat →
  ParseUint_loop (digits fuel n) 0 = Some n.
Proof.
  revert n. induction fuel as [|fuel IH]; intros n [Hn Hmax] Hf; [done|]. intros _. cbn [digits].
  assert (∀ d m, 0 <= d < 10 → 0 <= m → m * 10 + d <= MaxUint32 → ParseUint_loop [48 + d] m = Some (m * 10 + d)) as Hlast.
  { intros d m Hd Hm Hle. cbn. replace (48 + d - 48) with d by lia.
    destruct (Z.ltb_spec (48 + d) 48); [lia|]. destruct (Z.ltb_spec 57 (48 + d)); [lia|]. cbn [orb].
    destruct (Z.ltb_spec MaxUint32 (m * 10 + d)); [lia|done]. }
  destruct (Z.ltb_spec n 10) as [Hlt|Hge].
  - rewrite Hlast by lia. done.
  - pose proof (Z.div_mod n 10 ltac:(lia)). pose proof (Z.mod_pos_bound n 10 ltac:(lia)).
    assert (10 ^ Z.of_nat (S fuel) = 10 * 10 ^ Z.of_nat fuel) as Hpow by (rewrite Nat2Z.inj_succ, Z.pow_succ_r by lia; done).
    assert (n / 10 < 10 ^ Z.of_nat fuel) by (apply Z.div_lt_upper_bound; lia).
    rewrite (ParseUint_loop_app _ _ _ (n / 10)).
    + rewrite Hlast by lia. f_equal. lia.
    + apply IH; [lia|done|]. intros ->. cbn in H1. lia.
Qed.

(** Printing a [uint32] and parsing it gives it back. *)
Lemma ParseUint32_FormatUint n : is_u32 n → ParseUint32 (FormatUint n) = Some n.
Proof.
  intros [Hn Hmax]. unfold FormatUint, ParseUint32. pose proof (digits_nonempty 20 n ltac:(done)).
  destruct (digits 20 n) eqn:E; [done|]. rewrite <- E. apply ParseUint_digits; [unfold MaxUint32; lia| |done].
  eapply Z.lt_trans; [exact Hmax|]. vm_compute. reflexivity.
Qed.

(** ** Trimmed strings *)

(** The bytes of the first rune, unless it stands for an invalid one. *)
Lemma runes_head_encoded s r rs : runes s = r :: rs → r ≠ RuneError → utf8_encode r `prefix_of` s.
Proof.
  destruct s as [|b0 s1]; [done|]. cbn [runes]. destruct (Z.ltb_spec b0 128) as [Hlt|Hge].
  { intros [= <- _] _. unfold utf8_encode. rewrite (proj2 (Z.ltb_lt b0 128)) by done. by exists s1. }
  destruct (second_range b0) as [lo hi] eqn:Es. apply second_range_spec in Es.
  destruct s1 as [|b1 s2]; [by intros [= <- _]|]. destruct (cont lo hi b1) eqn:E1; cbn [negb]; [|by intros [= <- _]].
  apply cont_true in E1. destruct ((194 <=? b0) && (b0 <=? 223)) eqn:E2.
  { apply cont_true in E2. intros [= Hr _] _. exists s2. unfold utf8_encode.
    rewrite (proj2 (Z.ltb_ge r 128)), (proj2 (Z.ltb_lt r 2048)) by lia.
    assert (r / 64 = b0 - 192) as -> by (symmetry; apply (Z.div_unique _ _ _ (b1 - 128)); lia).
    assert (r mod 64 = b1 - 128) as -> by (symmetry; apply (Z.mod_unique _ _ (b0 - 192)); lia). cbn. by repeat f_equal; lia. }
  destruct s2 as [|b2 s3]; [by intros [= <- _]|]. destruct (cont 128 191 b2) eqn:E3; cbn [negb]; [|by intros [= <- _]].
  apply cont_true in E3. destruct ((224 <=? b0) && (b0 <=? 239)) eqn:E4.
  { apply cont_true in E4. intros [= Hr _] _. exists s3. unfold utf8_encode.
    rewrite (proj2 (Z.ltb_ge r 128)), (proj2 (Z.ltb_ge r 2048)), (proj2 (Z.ltb_lt r 65536)) by lia.
    assert (r / 4096 = b0 - 224) as -> by (symmetry; apply (Z.div_unique _ _ _ ((b1 - 128) * 64 + (b2 - 128))); lia).
    assert (r / 64 = (b0 - 224) * 64 + (b1 - 128)) as -> by (symmetry; apply (Z.div_unique _ _ _ (b2 - 128)); lia).
    assert (r mod 64 = b2 - 128) as -> by (symmetry; apply (Z.mod_unique _ _ ((b0 - 224) * 64 + (b1 - 128))); lia).
    rewrite Z.add_comm, (Z.add_comm _ (b1 - 128)), Z.mod_add, Z.mod_small by lia. cbn. by repeat f_equal; lia. }
  destruct s3 as [|b3 s4]; [by intros [= <- _]|].
  destruct ((240 <=? b0) && (b0 <=? 244) && cont 128 191 b3) eqn:E5; [|by intros [= <- _]].
  apply andb_true_iff in E5 as [E5%cont_true E6%cont_true]. intros [= Hr _] _. exists s4. unfold utf8_encode.
  rewrite (proj2 (Z.ltb_ge r 128)), (proj2 (Z.ltb_ge r 2048)), (proj2 (Z.ltb_ge r 65536)) by lia.
  assert (r / 262144 = b0 - 240) as -> by (symmetry; apply (Z.div_unique _ _ _ ((b1 - 128) * 4096 + (b2 - 128) * 64 + (b3 - 128))); lia).
  assert (r / 4096 = (b0 - 240) * 64 + (b1 - 128)) as -> by (symmetry; apply (Z.div_unique _ _ _ ((b2 - 128) * 64 + (b3 - 128))); lia).
  assert (r / 64 = ((b0 - 240) * 64 + (b1 - 128)) * 64 + (b2 - 128)) as -> by (symmetry; apply (Z.div_unique _ _ _ (b3 - 128)); lia).
  assert (r mod 64 = b3 - 128) as -> by (symmetry; apply (Z.mod_unique _ _ (((b0 - 240) * 64 + (b1 - 128)) * 64 + (b2 - 128))); lia).
  rewrite (Z.add_comm _ (b1 - 128)), (Z.add_comm _ (b2 - 128)), !Z.mod_add, !Z.mod_small by lia. cbn. by repeat f_equal; lia.
Qed.

Lemma IsSpace_encoding r : IsSpace r = true → utf8_encode r ∈ space_encodings ∧ r ≠ RuneError.
Proof.
  intros Hr. assert (r ∈ [9; 10; 11; 12; 13; 32; 133; 160; 5760; 8192; 8193; 8194; 8195; 8196; 8197; 8198; 8199; 8200; 8201; 8202;
                          8232; 8233; 8239; 8287; 12288]) as Hin.
  { unfold IsSpace in Hr. rewrite !orb_true_iff, !andb_true_iff, !Z.leb_le, !Z.eqb_eq in Hr.
    rewrite !elem_of_cons, elem_of_nil. lia. }
  split; [by apply list_elem_of_fmap_2|]. intros ->. revert Hin. apply (bool_decide_unpack (RuneError ∉ _)). vm_compute. exact Logic.I.
Qed.

Lemma leading_space_None s e : leading_space s = None → e ∈ space_encodings → ¬ e `prefix_of` s.
Proof.
  unfold leading_space. intros Hn He Hp. destruct (filter _ _) as [|? ?] eqn:E; [|done].
  assert (e ∈ filter (λ e, e `prefix_of` s) space_encodings) as Hin by by apply list_elem_of_filter.
  rewrite E in Hin. by apply elem_of_nil in Hin.
Qed.

Lemma leading_space_Some s e : leading_space s = Some e → e `prefix_of` s ∧ e ≠ [].
Proof.
  unfold leading_space. intros He.
  destruct (filter (λ e, e `prefix_of` s) space_encodings) as [|e' l] eqn:E; [done|]. injection He as ->.
  assert (e ∈ filter (λ e, e `prefix_of` s) space_encodings) as [Hp Hin]%list_elem_of_filter by (rewrite E; by left).
  split; [done|]. intros ->. revert Hin. apply (bool_decide_unpack ([] ∉ space_encodings)). vm_compute. exact Logic.I.
Qed.

Lemma trim_left_spec fuel s : (length s ≤ fuel)%nat → leading_space (trim_left fuel s) = None.
Proof.
  revert s. induction fuel as [|fuel IH]; intros s Hl; cbn [trim_left].
  - destruct s; [|cbn in Hl; lia]. vm_compute. reflexivity.
  - destruct (leading_space s) as [e|] eqn:E; [|done]. apply leading_space_Some in E as [[t ->] He].
    apply IH. rewrite length_drop, length_app in *. destruct e; [done|]. cbn [length] in *. lia.
Qed.

Lemma trim_right_prefix fuel s : trim_right fuel s `prefix_of` s.
Proof.
  revert s. induction fuel as [|fuel IH]; intros s; cbn [trim_right]; [done|]. destruct (trailing_space s); [|done].
  etrans; [apply IH|]. apply prefix_take.
Qed.

(** A trimmed string is empty or not blank. *)
Lemma TrimSpace_not_blank s : TrimSpace s ≠ [] → is_blank (TrimSpace s) = false.
Proof.
  unfold TrimSpace. set (u := trim_left (length s) s). intros Hne. apply not_true_is_false. unfold is_blank. intros Hb.
  destruct (runes (trim_right (length u) u)) as [|r rs] eqn:Er.
  - destruct (trim_right (length u) u) as [|b w]; [done|]. clear - Er. cbn [runes] in Er. repeat case_match; done.
  - cbn [forallb] in Hb. apply andb_true_iff in Hb as [Hr _]. destruct (IsSpace_encoding r Hr) as [Hin Hne'].
    apply (leading_space_None u (utf8_encode r)); [by apply trim_left_spec|done|].
    etrans; [by eapply runes_head_encoded|apply trim_right_prefix].
Qed.

(** A string with a hyphen is not blank: the decoding resumes at an ASCII byte. *)
Lemma runes_ascii s b t : 0 <= b < 128 → b ∈ runes (s ++ b :: t).
Proof.
  intros Hb. remember (length s) as n eqn:Hn. revert s Hn. induction (lt_wf n) as [n _ IH]. intros s ->.
  assert (∀ s', (length s' < length s)%nat → b ∈ runes (s' ++ b :: t)) as IH' by (intros; by eapply IH).
  assert (∀ lo hi, 128 <= lo → cont lo hi b = false) as Hcont.
  { intros lo hi Hlo. unfold cont. rewrite (proj2 (Z.leb_gt lo b)) by lia. done. }
  destruct s as [|b0 s1]; [cbn [app runes]; rewrite (proj2 (Z.ltb_lt b 128)) by lia; by left|].
  cbn [length] in IH'. cbn [app runes]. destruct (b0 <? 128); [right; apply IH'; lia|].
  destruct (second_range b0) as [lo hi] eqn:Es. apply second_range_spec in Es.
  destruct s1 as [|b1 s2].
  { cbn [app]. rewrite (Hcont lo hi) by lia. cbn [negb]. right. apply (IH' []). cbn. lia. }
  cbn [app]. destruct (cont lo hi b1); cbn [negb]; [|right; apply (IH' (b1 :: s2)); cbn; lia].
  destruct (_ && _); [right; apply IH'; cbn; lia|].
  destruct s2 as [|b2 s3].
  { cbn [app]. rewrite (Hcont 128 191) by lia. cbn [negb]. right. apply (IH' [b1]). cbn. lia. }
  cbn [app]. destruct (cont 128 191 b2); cbn [negb]; [|right; apply (IH' (b1 :: b2 :: s3)); cbn; lia].
  destruct (_ && _); [right; apply IH'; cbn; lia|].
  destruct s3 as [|b3 s4].
  { cbn [app]. rewrite (Hcont 128 191), andb_false_r by lia. right. apply (IH' [b1; b2]). cbn. lia. }
  cbn [app]. destruct (_ && _); [right; apply IH'; cbn; lia|]. right. apply (IH' (b1 :: b2 :: b3 :: s4)). cbn. lia.
Qed.

Lemma is_blank_hyphen s t : is_blank (s ++ 45 :: t) = false.
Proof.
  apply not_true_is_false. unfold is_blank. rewrite forallb_forall. intros Hb.
  assert (IsSpace 45 = true) as H by (apply Hb, list_elem_of_In, runes_ascii; lia). done.
Qed.
