(* ===== verification/YTypes.v ===== *)
(** * internal/ytypes: identifiers, item headers, parents and structs

    id.go, item_header.go, parent.go, item.go, structs.go.  Content is the
    interface of item.go, a class here; an [Item] is generic in it.  Pointers to
    IDs are immutable once an item is built (the constructors copy or own them),
    so a [*ID] field is an [option ID].  Go strings are byte lists. *)
From S2P Require Import Prelude GoError Binary Varint.
Import varint.

(** ** id.go *)

Record ID := mkID { id_Client : Z; id_Clock : Z }.

#[export] Instance ID_eq_dec : EqDecision ID.
Proof. solve_decision. Defined.

Definition ID_Equal (id other : ID) : bool :=
  (id_Client id =? id_Client other) && (id_Clock id =? id_Clock other).

Definition addClock (clock delta : Z) : result Z :=
  let next := clock + delta in
  if MaxUint32 <? next then Err ytypes_ErrStructOverflow else Ok (w32 next).

Definition ID_Offset (id : ID) (diff : Z) : result ID :=
  clock ← addClock (id_Clock id) diff; Ok (mkID (id_Client id) clock).

Definition AppendID (dst : bytes) (id : ID) : bytes :=
  Append (Append dst (id_Client id)) (id_Clock id).

(** The triple (id, bytes consumed, error). *)
Definition DecodeID (src : bytes) : result ID * nat :=
  match Decode src with
  | (Err err, nClient) => (Err err, nClient)
  | (Ok client, nClient) =>
      match Decode (drop nClient src) with
      | (Err err, nClock) => (Err err, (nClient + nClock)%nat)
      | (Ok clock, nClock) => (Ok (mkID client clock), (nClient + nClock)%nat)
      end
  end.

Definition ReadID {R} `{ByteReader R} (reader : R) : (result ID * nat) * R :=
  match Read reader with
  | ((Err err, nClient), reader) => ((Err err, nClient), reader)
  | ((Ok client, nClient), reader) =>
      match Read reader with
      | ((Err err, nClock), reader) => ((Err err, (nClient + nClock)%nat), reader)
      | ((Ok clock, nClock), reader) => ((Ok (mkID client clock), (nClient + nClock)%nat), reader)
      end
  end.

(** ** item_header.go *)

Definition ItemContentRefMask : Z := 31.
Definition ItemHasParentSub : Z := 32.
Definition ItemHasRightOrigin : Z := 64.
Definition ItemHasOrigin : Z := 128.

Record ItemHeader := mkItemHeader {
  ContentRef : Z; HasOrigin : bool; HasRightOrigin : bool; HasParentSub : bool }.

#[export] Instance ItemHeader_eq_dec : EqDecision ItemHeader.
Proof. solve_decision. Defined.

Definition ItemHeader_Encode (h : ItemHeader) : result Z :=
  if ItemContentRefMask <? ContentRef h then Err ytypes_errInvalidContentRef
  else
    let info := Z.land (ContentRef h) ItemContentRefMask in
    let info := if HasOrigin h then Z.lor info ItemHasOrigin else info in
    let info := if HasRightOrigin h then Z.lor info ItemHasRightOrigin else info in
    let info := if HasParentSub h then Z.lor info ItemHasParentSub else info in
    Ok info.

Definition DecodeItemHeader (info : Z) : ItemHeader :=
  mkItemHeader (Z.land info ItemContentRefMask)
    (negb (Z.land info ItemHasOrigin =? 0))
    (negb (Z.land info ItemHasRightOrigin =? 0))
    (negb (Z.land info ItemHasParentSub =? 0)).

(** ** parent.go *)

Inductive ParentKind := ParentNone | ParentID | ParentRoot.

Record ParentRef := mkParentRef { pr_root : bytes; pr_id : option ID }.

#[export] Instance ParentRef_eq_dec : EqDecision ParentRef.
Proof. solve_decision. Defined.

Definition NewParentID (id : ID) : ParentRef := mkParentRef [] (Some id).

Definition NewParentRoot (root : bytes) : result ParentRef :=
  match root with
  | [] => Err ytypes_ErrInvalidParentRoot
  | _ => Ok (mkParentRef root None)
  end.

Definition ParentRef_Kind (p : ParentRef) : ParentKind :=
  match pr_id p with
  | Some _ => ParentID
  | None => match pr_root p with [] => ParentNone | _ => ParentRoot end
  end.

Definition ParentRef_IsZero (p : ParentRef) : bool :=
  match ParentRef_Kind p with ParentNone => true | _ => false end.

Definition ParentRef_Root (p : ParentRef) : bytes := pr_root p.

Definition ParentRef_ID (p : ParentRef) : ID * bool :=
  match pr_id p with None => (mkID 0 0, false) | Some id => (id, true) end.

(** ** structs.go *)

Inductive Kind := KindGC | KindItem | KindSkip.

#[export] Instance Kind_eq_dec : EqDecision Kind.
Proof. solve_decision. Defined.

Record baseStruct := mkBase { bs_id : ID; bs_length : Z }.

#[export] Instance baseStruct_eq_dec : EqDecision baseStruct.
Proof. solve_decision. Defined.

Definition newBaseStruct (id : ID) (length : Z) : result baseStruct :=
  if length =? 0 then Err ytypes_ErrInvalidLength
  else
    match addClock (id_Clock id) length with
    | Err err => Err err
    | Ok _ => Ok (mkBase id length)
    end.

Definition checkedEndClock (s : baseStruct) : result Z :=
  if bs_length s =? 0 then Err ytypes_ErrInvalidLength
  else addClock (id_Clock (bs_id s)) (bs_length s).

Definition base_EndClock (s : baseStruct) : Z :=
  match checkedEndClock s with
  | Err _ => id_Clock (bs_id s)
  | Ok e => e
  end.

Definition base_LastID (s : baseStruct) : ID :=
  match checkedEndClock s with
  | Err _ => bs_id s
  | Ok e =>
      if e =? id_Clock (bs_id s) then bs_id s
      else mkID (id_Client (bs_id s)) (w32 (e - 1))
  end.

Definition base_ContainsClock (s : baseStruct) (clock : Z) : bool :=
  match checkedEndClock s with
  | Err _ => false
  | Ok e => (id_Clock (bs_id s) <=? clock) && (clock <? e)
  end.

(** ** item.go *)

(** type Content interface *)
Class Content (C : Type) := {
  content_Length : C → Z;
  content_IsCountable : C → bool;
}.

Definition ItemFlagKeep : Z := 1.
Definition ItemFlagCountable : Z := 2.
Definition ItemFlagDeleted : Z := 4.
Definition ItemFlagMarker : Z := 8.

Definition ItemFlags_Has (f flag : Z) : bool := negb (Z.land f flag =? 0).

Record ItemOptions := mkItemOptions {
  opt_Origin : option ID; opt_RightOrigin : option ID; opt_Parent : ParentRef;
  opt_ParentSub : bytes; opt_Redone : option ID; opt_Flags : Z }.

Section item.
Context {C : Type} `{Content C}.

Record Item := mkItem {
  item_base : baseStruct;
  Origin : option ID;
  RightOrigin : option ID;
  Parent : ParentRef;
  ParentSub : bytes;
  Redone : option ID;
  Info : Z;
  ItemContent : C }.

(** Copying a pointed-to ID gives an equal ID: both constructors build the same
    value, they differ only in sharing. *)
Definition newItem (id : ID) (content : option C) (opts : ItemOptions) : result Item :=
  match content with
  | None => Err ytypes_ErrNilContent
  | Some content =>
      match newBaseStruct id (content_Length content) with
      | Err err => Err err
      | Ok base =>
          let info := Z.ldiff (opt_Flags opts) ItemFlagCountable in
          let info := if content_IsCountable content then Z.lor info ItemFlagCountable else info in
          Ok (mkItem base (opt_Origin opts) (opt_RightOrigin opts) (opt_Parent opts)
                (opt_ParentSub opts) (opt_Redone opts) info content)
      end
  end.

Definition NewItem (id : ID) (content : option C) (opts : ItemOptions) : result Item :=
  newItem id content opts.

Definition NewItemOwnedIDs (id : ID) (content : option C) (opts : ItemOptions) : result Item :=
  newItem id content opts.

Definition Item_Deleted (i : Item) : bool := ItemFlags_Has (Info i) ItemFlagDeleted.
Definition Item_Keep (i : Item) : bool := ItemFlags_Has (Info i) ItemFlagKeep.
Definition Item_Countable (i : Item) : bool := ItemFlags_Has (Info i) ItemFlagCountable.
Definition Item_Marker (i : Item) : bool := ItemFlags_Has (Info i) ItemFlagMarker.

Definition with_Info (i : Item) (info : Z) : Item :=
  mkItem (item_base i) (Origin i) (RightOrigin i) (Parent i) (ParentSub i) (Redone i) info (ItemContent i).

Definition setFlag (i : Item) (flag : Z) (enabled : bool) : Item :=
  if enabled then with_Info i (Z.lor (Info i) flag) else with_Info i (Z.ldiff (Info i) flag).

Definition SetKeep (i : Item) (keep : bool) : Item := setFlag i ItemFlagKeep keep.
Definition SetDeleted (i : Item) (deleted : bool) : Item := setFlag i ItemFlagDeleted deleted.
Definition MarkDeleted (i : Item) : Item := with_Info i (Z.lor (Info i) ItemFlagDeleted).
Definition SetMarker (i : Item) (marked : bool) : Item := setFlag i ItemFlagMarker marked.

(** type Struct interface, with its three implementations. *)
Inductive Struct :=
| GC (base : baseStruct)
| Skip (base : baseStruct)
| SItem (item : Item).

Definition NewGC (id : ID) (length : Z) : result Struct :=
  match newBaseStruct id length with Err err => Err err | Ok base => Ok (GC base) end.

Definition NewSkip (id : ID) (length : Z) : result Struct :=
  match newBaseStruct id length with Err err => Err err | Ok base => Ok (Skip base) end.

Definition struct_base (s : Struct) : baseStruct :=
  match s with GC b => b | Skip b => b | SItem i => item_base i end.

Definition struct_Kind (s : Struct) : Kind :=
  match s with GC _ => KindGC | Skip _ => KindSkip | SItem _ => KindItem end.

Definition struct_Deleted (s : Struct) : bool :=
  match s with GC _ => true | Skip _ => false | SItem i => Item_Deleted i end.

Definition struct_ID (s : Struct) : ID := bs_id (struct_base s).
Definition struct_Length (s : Struct) : Z := bs_length (struct_base s).
Definition struct_EndClock (s : Struct) : Z := base_EndClock (struct_base s).
Definition struct_LastID (s : Struct) : ID := base_LastID (struct_base s).
Definition struct_ContainsClock (s : Struct) (clock : Z) : bool := base_ContainsClock (struct_base s) clock.

End item.
Arguments Item C : clear implicits.
Arguments Struct C : clear implicits.

(** ** Well-formedness and basic facts *)

Definition wf_ID (id : ID) : Prop := is_u32 (id_Client id) ∧ is_u32 (id_Clock id).

(** What [newBaseStruct] accepts from uint32 arguments. *)
Definition wf_base (b : baseStruct) : Prop :=
  wf_ID (bs_id b) ∧ 0 < bs_length b ∧ id_Clock (bs_id b) + bs_length b <= MaxUint32.

#[export] Instance wf_ID_dec id : Decision (wf_ID id).
Proof. unfold wf_ID. apply _. Defined.
#[export] Instance wf_base_dec b : Decision (wf_base b).
Proof. unfold wf_base. apply _. Defined.

Lemma addClock_Ok clock delta z : 0 <= clock → 0 <= delta →
  addClock clock delta = Ok z ↔ z = clock + delta ∧ clock + delta <= MaxUint32.
Proof.
  intros. unfold addClock. case_if.
  - split; [done|]. u32.
  - rewrite w32_small by u32. split; [intros [= <-]; u32|]. intros [-> ?]. done.
Qed.

Lemma newBaseStruct_Ok id length b : wf_ID id → is_u32 length →
  newBaseStruct id length = Ok b ↔ b = mkBase id length ∧ wf_base b.
Proof.
  intros Hid Hl. destruct Hid as [Hc Hk]. unfold newBaseStruct. case_if.
  { split; [done|]. intros [-> (_ & ? & _)]. cbn in *. lia. }
  destruct (addClock (id_Clock id) length) as [z|] eqn:E.
  - apply addClock_Ok in E as [-> ?]; [|u32..]. split.
    + intros [= <-]. split; [done|]. unfold wf_base, wf_ID; cbn. u32.
    + by intros [-> ?].
  - split; [done|]. intros [-> (_ & _ & Hle)]. cbn in Hle.
    assert (addClock (id_Clock id) length = Ok (id_Clock id + length)) by (apply addClock_Ok; u32).
    congruence.
Qed.

Lemma base_EndClock_wf b : wf_base b → base_EndClock b = id_Clock (bs_id b) + bs_length b.
Proof.
  intros ([_ Hk] & Hl & Hle). unfold base_EndClock, checkedEndClock. case_if; [lia|].
  destruct Hk. rewrite (proj2 (addClock_Ok (id_Clock (bs_id b)) (bs_length b) _ ltac:(lia) ltac:(lia)) (conj eq_refl Hle)).
  done.
Qed.

Lemma wf_base_newBaseStruct b : wf_base b → newBaseStruct (bs_id b) (bs_length b) = Ok b.
Proof.
  intros Hb. pose proof Hb as (Hid & ? & ?). destruct Hid as [Hc Hk]. apply newBaseStruct_Ok; [done|u32|].
  by destruct b.
Qed.

(** [ytypes.ReadID(r)] on a binary reader, without the byte count. *)
Definition ReadIDU : RM ID := λ r, let '((res, _), r') := ReadID r in (res, r').

Lemma ReadIDU_eq r : ReadIDU r = (client ← ReadU; clock ← ReadU; mret (mkID client clock)) r.
Proof.
  unfold ReadIDU, ReadID, mbind, RM_bind, ReadU.
  destruct (Read r) as [[[] ?] r1]; [|done]. by destruct (Read r1) as [[[] ?] ?].
Qed.

Lemma reads_ReadID id : wf_ID id → reads ReadIDU (AppendID [] id) id.
Proof.
  intros [Hc Hk]. eapply reads_ext; [intros r; symmetry; apply ReadIDU_eq|].
  unfold AppendID. rewrite Append_app. destruct id as [c k].
  eapply reads_bind; [by apply reads_ReadU|]. eapply reads_bind_ret; [by apply reads_ReadU|apply reads_ret].
Qed.

Lemma parses_ReadID : parses ReadIDU (λ bs id, wf_ID id ∧ bs = AppendID [] id).
Proof.
  intros r a r' Hw Hb. rewrite ReadIDU_eq. revert r a r' Hw Hb.
  change (parses (client ← ReadU; clock ← ReadU; mret (mkID client clock)) (λ bs id, wf_ID id ∧ bs = AppendID [] id)).
  eapply parses_weaken.
  - eapply parses_bind; [apply parses_ReadU|]. intros c.
    eapply parses_bind; [apply parses_ReadU|]. intros k. apply parses_ret.
  - intros bs id (bs1 & bs2 & c & -> & [Hc ->] & bs3 & bs4 & k & -> & [Hk ->] & -> & ->).
    split; [done|]. unfold AppendID; cbn. by rewrite app_nil_r, (Append_app (Append [] c)).
Qed.

Lemma AppendID_app dst id : AppendID dst id = dst ++ AppendID [] id.
Proof. unfold AppendID. rewrite Append_app, (Append_app dst), (Append_app (Append [] _)). by rewrite <- app_assoc. Qed.
