(* ===== verification/DeleteSet.v ===== *)
(** * internal/ytypes/delete_set.go and internal/yupdate/delete_set_v1.go

    A [*DeleteSet] is an [option DeleteSet], its field a possibly nil [*IdSet].
    The second half is the V1 block codec; the encoding of one client's ranges
    is shared with the content-id payload (ContentIDs). *)
From S2P Require Import Prelude GoError Binary Ranges IdSet IdSetFacts Varint YTypes.
Import varint.

Record DeleteSet := mkDeleteSet { ds_ids : option IdSet }.

#[export] Instance DeleteSet_eq_dec : EqDecision DeleteSet.
Proof. solve_decision. Defined.

Definition NewDeleteSet : DeleteSet := mkDeleteSet (Some IdSet_New).

(** [ds == nil || ds.ids == nil] gives [None]. *)
Definition ds_set (ds : option DeleteSet) : option IdSet := ds ≫= ds_ids.

Definition DeleteSet_Clone (ds : option DeleteSet) : DeleteSet :=
  match ds_set ds with
  | None => NewDeleteSet
  | Some ids => mkDeleteSet (Some (IdSet_Clone (Some ids)))
  end.

Definition DeleteSet_IsEmpty (ds : option DeleteSet) : bool :=
  match ds_set ds with None => true | Some ids => IdSet_IsEmpty (Some ids) end.

Definition DeleteSet_ClientCount (ds : option DeleteSet) : Z :=
  match ds_set ds with None => 0 | Some ids => IdSet_ClientCount (Some ids) end.

Definition normalizeDeleteSetError (err : option error) : option error :=
  match err with
  | None => None
  | Some e =>
      if errors_Is e yidset_ErrInvalidLength then Some (Sentinel ytypes_ErrInvalidLength)
      else if errors_Is e yidset_ErrRangeOverflow then Some (Sentinel ytypes_ErrStructOverflow)
      else Some e
  end.

Definition ensure (ds : DeleteSet) : IdSet :=
  match ds_ids ds with None => IdSet_New | Some ids => ids end.

(** The receiver is not nil: [ensure] dereferences it. *)
Definition DeleteSet_Add (ds : DeleteSet) (client clock length : Z) : DeleteSet * option error :=
  let '(ids, err) := IdSet_add (ensure ds) client clock length in
  (mkDeleteSet (Some ids), normalizeDeleteSetError err).

Definition DeleteSet_AddID (ds : DeleteSet) (id : ID) (length : Z) : DeleteSet * option error :=
  DeleteSet_Add ds (id_Client id) (id_Clock id) length.

Definition DeleteSet_Merge (ds : DeleteSet) (other : option DeleteSet) : DeleteSet * option error :=
  match ds_set other with
  | None => (ds, None)
  | Some ids =>
      let '(ids, err) := IdSet_Merge (Some (ensure ds)) (Some ids) in
      (mkDeleteSet ids, normalizeDeleteSetError err)
  end.

Definition DeleteSet_Has (ds : option DeleteSet) (id : ID) : bool :=
  match ds_set ds with None => false | Some ids => IdSet_Has (Some ids) (id_Client id) (id_Clock id) end.

Definition DeleteSet_Clients (ds : option DeleteSet) : list Z :=
  match ds_set ds with None => [] | Some ids => IdSet_Clients (Some ids) end.

Definition DeleteSet_Ranges (ds : option DeleteSet) (client : Z) : list Range :=
  match ds_set ds with None => [] | Some ids => IdSet_Ranges (Some ids) client end.

Definition DeleteSet_ForEachClient (ds : option DeleteSet) : list (Z * list Range) :=
  match ds_set ds with None => [] | Some ids => IdSet_ForEachClient (Some ids) end.

Definition DeleteSet_ForEachClientDesc (ds : option DeleteSet) : list (Z * list Range) :=
  match ds_set ds with None => [] | Some ids => IdSet_ForEachClientDesc (Some ids) end.

(** ** The V1 block *)

Definition appendRange (dst : bytes) (r : Range) : bytes := Append (Append dst (r_Clock r)) (r_Length r).

Definition appendClientRanges (dst : bytes) (e : Z * list Range) : bytes :=
  let '(client, ranges) := e in
  let dst := Append dst client in
  let dst := Append dst (w32 (Z.of_nat (length ranges))) in
  fold_left appendRange ranges dst.

Definition AppendDeleteSetBlockV1 (dst : bytes) (ds : option DeleteSet) : bytes :=
  let dst := Append dst (w32 (DeleteSet_ClientCount ds)) in
  fold_left appendClientRanges (DeleteSet_ForEachClientDesc ds) dst.

Definition EncodeDeleteSetBlockV1 (ds : option DeleteSet) : bytes := AppendDeleteSetBlockV1 [] ds.

Definition readDeleteSetVarUint (op : string) : RM Z :=
  catch ReadU (λ _ err, Wrapped ("yupdate: " ++ op) err).

Definition ReadDeleteSetBlockV1 : RM DeleteSet :=
  count ← readDeleteSetVarUint "ler quantidade de clientes";
  for_times (Z.to_nat count) (λ ds,
    client ← readDeleteSetVarUint "ler client id";
    rangeCount ← readDeleteSetVarUint "ler quantidade de ranges";
    for_times (Z.to_nat rangeCount) (λ ds,
      clock ← readDeleteSetVarUint "ler clock do range";
      length ← readDeleteSetVarUint "ler comprimento do range";
      match DeleteSet_Add ds client clock length with
      | (ds, None) => mret ds
      | (_, Some err) => fail (Wrapped "yupdate: adicionar range deletado" err)
      end) ds) NewDeleteSet.

Definition DecodeDeleteSetBlockV1 (src : bytes) : (result DeleteSet) * nat :=
  let '(ds, r) := ReadDeleteSetBlockV1 (NewReader src) in (ds, offset r).

(** ** The encoding of one client's ranges *)

Definition enc_range (r : Range) : bytes := appendRange [] r.
Definition enc_entry (e : Z * list Range) : bytes := appendClientRanges [] e.

Lemma appendRange_app dst r : appendRange dst r = dst ++ enc_range r.
Proof.
  unfold enc_range, appendRange. rewrite Append_app, (Append_app dst), (Append_app (Append [] _)).
  by rewrite <- app_assoc.
Qed.

Lemma appendRanges_app dst l : fold_left appendRange l dst = dst ++ concat (enc_range <$> l).
Proof. apply fold_left_concat, appendRange_app. Qed.

Lemma appendClientRanges_eq dst c l : appendClientRanges dst (c, l) =
  dst ++ Append [] c ++ Append [] (w32 (Z.of_nat (length l))) ++ concat (enc_range <$> l).
Proof.
  unfold appendClientRanges. rewrite appendRanges_app, Append_app, (Append_app dst). by rewrite <- !app_assoc.
Qed.

Lemma appendClientRanges_app dst e : appendClientRanges dst e = dst ++ enc_entry e.
Proof. destruct e as [c l]. unfold enc_entry. by rewrite !appendClientRanges_eq. Qed.

Lemma appendEntries_app dst es : fold_left appendClientRanges es dst = dst ++ concat (enc_entry <$> es).
Proof. apply fold_left_concat, appendClientRanges_app. Qed.

(** A normalised list is short enough for its count to fit a uint32. *)
Lemma ranges_above_length lo l : -1 <= lo → ranges_above lo l → lo + 2 * Z.of_nat (length l) <= 4294967296 ∨ l = [].
Proof.
  revert lo. induction l as [|r l IH]; intros lo Hlo; [by right|]. intros (Hc & Hr & Hl). left.
  destruct (IH (Range_End r)) as [H| ->]; [rg|done| |]; cbn [length]; rg.
Qed.

Lemma wf_ranges_length l : wf_ranges l → is_u32 (Z.of_nat (length l)).
Proof. intros [H| ->]%ranges_above_length; cbn; u32. Qed.

(** ** A set from its entries *)

Definition wf_clients (s : IdSet) : Prop :=
  map_Forall (λ c _, is_u32 c) (clients s) ∧ is_u32 (Z.of_nat (size (clients s))).

#[export] Instance wf_clients_dec s : Decision (wf_clients s).
Proof. unfold wf_clients. apply _. Defined.

Definition set_entry (s : IdSet) (e : Z * list Range) : IdSet := set_ranges s e.1 e.2.

Definition entries_of (s : IdSet) (cs : list Z) : list (Z * list Range) := (λ c, (c, ranges_of s c)) <$> cs.

Lemma set_entries_lookup s cs t c : (∀ c, c ∈ cs → is_Some (clients s !! c)) →
  clients (fold_left set_entry (entries_of s cs) t) !! c = if decide (c ∈ cs) then clients s !! c else clients t !! c.
Proof.
  revert t. induction cs as [|c1 cs IH]; intros t Hs; [done|]. cbn [fmap list_fmap entries_of fold_left].
  unfold entries_of in IH. rewrite IH by set_solver. destruct (decide (c ∈ cs)), (decide (c ∈ c1 :: cs)) as [Hin|Hin]; try set_solver.
  - apply elem_of_cons in Hin as [->|]; [|done]. unfold set_entry, set_ranges; cbn.
    rewrite lookup_insert_eq. destruct (Hs c1 ltac:(set_solver)) as [l Hl]. unfold ranges_of. by rewrite Hl.
  - unfold set_entry, set_ranges; cbn. rewrite lookup_insert_ne by set_solver. done.
Qed.

Lemma set_entries s cs : (∀ c, c ∈ cs ↔ is_Some (clients s !! c)) →
  fold_left set_entry (entries_of s cs) IdSet_New = s.
Proof.
  intros H. enough (clients (fold_left set_entry (entries_of s cs) IdSet_New) = clients s) as E.
  { destruct (fold_left _ _ _), s; cbn in E; by subst. }
  apply map_eq. intros c. rewrite set_entries_lookup by naive_solver. case_decide as Hc; [done|].
  cbn. rewrite lookup_empty. rewrite H in Hc. by apply eq_None_not_Some in Hc.
Qed.

Lemma ForEachClientDesc_entries s : IdSet_ForEachClientDesc (Some s) = entries_of s (rev (IdSet_Clients (Some s))).
Proof. apply ForEachClientDesc_eq. Qed.
Lemma ForEachClient_entries s : IdSet_ForEachClient (Some s) = entries_of s (IdSet_Clients (Some s)).
Proof. apply ForEachClient_eq. Qed.

Lemma length_Clients s : length (IdSet_Clients (Some s)) = size (clients s).
Proof. rewrite Clients_perm, length_fmap. apply length_map_to_list. Qed.

(** The entries still to come are those of new clients. *)
Definition pending (s : IdSet) (es : list (Z * list Range)) : Prop :=
  NoDup es.*1 ∧ Forall (λ e, is_u32 e.1 ∧ wf_ranges e.2 ∧ e.2 ≠ [] ∧ ranges_of s e.1 = []) es.

Lemma pending_step s e es : pending s (e :: es) → pending (set_entry s e) es.
Proof.
  intros [[Hni Hnd]%NoDup_cons [_ He]%Forall_cons]. split; [done|].
  rewrite Forall_forall in *. intros x Hx. destruct (He x Hx) as (? & ? & ? & ?). split_and!; [done..|].
  unfold set_entry. rewrite ranges_of_set_ne; [done|]. intros E. apply Hni. rewrite E. by apply list_elem_of_fmap_2.
Qed.

Lemma pending_entries s cs : wf_set s → wf_clients s → NoDup cs → (∀ c, c ∈ cs → is_Some (clients s !! c)) →
  pending IdSet_New (entries_of s cs).
Proof.
  intros Hw [Hc _] Hnd Hs. unfold pending, entries_of. split.
  - rewrite <- list_fmap_compose. cbn. by rewrite list_fmap_id.
  - apply Forall_fmap, Forall_forall. intros c Hin. cbn. destruct (Hs c Hin) as [l Hl].
    destruct (wf_set_lookup s c l Hw Hl). unfold ranges_of. rewrite Hl. cbn. split_and!; [by apply (Hc c l)|done..].
Qed.

(** ** Round trip of the block *)

Lemma reads_varuint op v : is_u32 v → reads (readDeleteSetVarUint op) (Append [] v) v.
Proof. intros. by apply reads_catch, reads_ReadU. Qed.

Lemma parses_varuint op : parses (readDeleteSetVarUint op) (λ bs v, is_u32 v ∧ bs = Append [] v).
Proof. apply parses_catch, parses_ReadU. Qed.

Lemma DeleteSet_Add_append s c r : wf_ranges (ranges_of s c ++ [r]) →
  DeleteSet_Add (mkDeleteSet (Some s)) c (r_Clock r) (r_Length r) =
    (mkDeleteSet (Some (set_ranges s c (ranges_of s c ++ [r]))), None).
Proof. intros Hl. unfold DeleteSet_Add; cbn. by rewrite (IdSet_add_append s c _ r eq_refl Hl). Qed.

(** Appending a client's ranges one by one builds its list. *)
Lemma fold_append_ranges s c l k : ranges_of s c = l → k ≠ [] →
  fold_left (λ s r, set_ranges s c (ranges_of s c ++ [r])) k s = set_ranges s c (l ++ k).
Proof.
  revert s l. induction k as [|r k IH]; intros s l <- Hk; [done|]. cbn. destruct (decide (k = [])) as [->|Hne]; [done|].
  rewrite (IH _ (ranges_of s c ++ [r])), set_ranges_twice, <- app_assoc by (rewrite ?ranges_of_set_eq; done). done.
Qed.

Lemma reads_ranges_loop (body : DeleteSet → RM DeleteSet) s c l :
  (∀ s r, wf_ranges (ranges_of s c ++ [r]) → reads (body (mkDeleteSet (Some s))) (enc_range r)
     (mkDeleteSet (Some (set_ranges s c (ranges_of s c ++ [r]))))) →
  ranges_of s c = [] → wf_ranges l → l ≠ [] →
  reads (for_times (length l) body (mkDeleteSet (Some s))) (concat (enc_range <$> l))
    (mkDeleteSet (Some (set_ranges s c l))).
Proof.
  intros Hbody Hs Hl Hne. rewrite <- (app_nil_l l), <- (fold_append_ranges s c [] l Hs Hne). cbn [app].
  assert (∀ k s0, fold_left (λ ds r, mkDeleteSet (Some (set_ranges (ensure ds) c (ranges_of (ensure ds) c ++ [r])))) k
    (mkDeleteSet (Some s0)) = mkDeleteSet (Some (fold_left (λ s r, set_ranges s c (ranges_of s c ++ [r])) k s0))) as <-.
  { induction k as [|r k IH]; intros s0; [done|]. cbn. by rewrite IH. }
  apply (reads_for_times _ enc_range _ (λ ds rest, ∃ s, ds = mkDeleteSet (Some s) ∧ wf_ranges (ranges_of s c ++ rest))).
  - intros ds r rest (s1 & -> & Hr). change (r :: rest) with ([r] ++ rest) in Hr. rewrite app_assoc in Hr.
    split; [apply Hbody; by apply ranges_above_app in Hr as [? _]|].
    eexists. split; [done|]. cbn. by rewrite ranges_of_set_eq.
  - exists s. by rewrite Hs.
Qed.

Lemma reads_range_body s c r : wf_ranges (ranges_of s c ++ [r]) →
  reads (clock ← readDeleteSetVarUint "ler clock do range";
         length ← readDeleteSetVarUint "ler comprimento do range";
         match DeleteSet_Add (mkDeleteSet (Some s)) c clock length with
         | (ds, None) => mret ds
         | (_, Some err) => fail (Wrapped "yupdate: adicionar range deletado" err)
         end) (enc_range r) (mkDeleteSet (Some (set_ranges s c (ranges_of s c ++ [r])))).
Proof.
  intros Hl. pose proof Hl as [_ (_ & Hr & _)]%ranges_above_app.
  unfold enc_range, appendRange. rewrite Append_app.
  eapply reads_bind; [apply reads_varuint; rg|]. eapply reads_bind_ret; [apply reads_varuint; rg|].
  rewrite (DeleteSet_Add_append s c r Hl). apply reads_ret.
Qed.

Lemma reads_entry_body s e es : pending s (e :: es) →
  reads (client ← readDeleteSetVarUint "ler client id";
    rangeCount ← readDeleteSetVarUint "ler quantidade de ranges";
    for_times (Z.to_nat rangeCount) (λ ds,
      clock ← readDeleteSetVarUint "ler clock do range";
      length ← readDeleteSetVarUint "ler comprimento do range";
      match DeleteSet_Add ds client clock length with
      | (ds, None) => mret ds
      | (_, Some err) => fail (Wrapped "yupdate: adicionar range deletado" err)
      end) (mkDeleteSet (Some s))) (enc_entry e) (mkDeleteSet (Some (set_entry s e))).
Proof.
  intros [_ [(Hc & Hl & Hne & Hs) _]%Forall_cons]. destruct e as [c l]; cbn [fst snd] in *.
  unfold enc_entry. rewrite appendClientRanges_eq. cbn [app].
  pose proof (wf_ranges_length l Hl). rewrite w32_small by done.
  eapply reads_bind; [by apply reads_varuint|]. eapply reads_bind; [by apply reads_varuint|].
  rewrite Nat2Z.id. apply reads_ranges_loop; [|done..]. intros. by apply reads_range_body.
Qed.

Lemma reads_ReadDeleteSetBlockV1 s : wf_set s → wf_clients s →
  reads ReadDeleteSetBlockV1 (EncodeDeleteSetBlockV1 (Some (mkDeleteSet (Some s)))) (mkDeleteSet (Some s)).
Proof.
  intros Hw Hc. unfold EncodeDeleteSetBlockV1, AppendDeleteSetBlockV1, DeleteSet_ForEachClientDesc, DeleteSet_ClientCount.
  cbn [ds_set ds_ids mbind option_bind]. rewrite ForEachClientDesc_entries, appendEntries_app. cbn [IdSet_ClientCount]. pose proof Hc as [_ Hsz]. rewrite w32_small by done.
  eapply reads_bind; [by apply reads_varuint|].
  rewrite Nat2Z.id, <- length_Clients, <- length_rev, <- (length_fmap (λ c, (c, ranges_of s c))).
  fold (entries_of s (rev (IdSet_Clients (Some s)))).
  assert (mkDeleteSet (Some s) = fold_left (λ ds e, mkDeleteSet (Some (set_entry (ensure ds) e)))
    (entries_of s (rev (IdSet_Clients (Some s)))) NewDeleteSet) as ->.
  { assert (∀ es s0, fold_left (λ ds e, mkDeleteSet (Some (set_entry (ensure ds) e))) es (mkDeleteSet (Some s0)) =
      mkDeleteSet (Some (fold_left set_entry es s0))) as E.
    { induction es as [|e es IH]; intros s0; [done|]. cbn. by rewrite IH. }
    unfold NewDeleteSet. rewrite E, set_entries; [done|]. intros c. by rewrite <- Permutation_rev, elem_of_Clients. }
  apply (reads_for_times _ enc_entry _ (λ ds es, ∃ s, ds = mkDeleteSet (Some s) ∧ pending s es)).
  - intros ds e es (s1 & -> & Hp). split; [by eapply reads_entry_body|].
    eexists. split; [done|]. by apply pending_step.
  - exists IdSet_New. split; [done|]. apply pending_entries; [done..| |].
    + rewrite <- Permutation_rev; apply Clients_NoDup.
    + intros c. by rewrite <- Permutation_rev, elem_of_Clients.
Qed.

(** ** Everything the block reader accepts is the encoding of some entries *)

(** The insertions the reader makes for a list of entries, all successful. *)
Definition add_one (c : Z) (ds : DeleteSet) (r : Range) (ds' : DeleteSet) : Prop :=
  is_u32 (r_Clock r) ∧ is_u32 (r_Length r) ∧ DeleteSet_Add ds c (r_Clock r) (r_Length r) = (ds', None).

Definition add_entry (ds : DeleteSet) (e : Z * list Range) (ds' : DeleteSet) : Prop :=
  is_u32 e.1 ∧ is_u32 (Z.of_nat (length e.2)) ∧ run_list (add_one e.1) ds e.2 ds'.

Definition enc_entries (es : list (Z * list Range)) : bytes :=
  Append [] (w32 (Z.of_nat (length es))) ++ concat (enc_entry <$> es).

Lemma parses_add c clock len ds :
  parses (match DeleteSet_Add ds c clock len with
          | (ds, None) => mret ds
          | (_, Some err) => fail (Wrapped "yupdate: adicionar range deletado" err)
          end) (λ bs ds', bs = [] ∧ DeleteSet_Add ds c clock len = (ds', None)).
Proof.
  destruct (DeleteSet_Add ds c clock len) as [ds1 [err|]].
  - eapply parses_weaken; [apply parses_fail|]. done.
  - eapply parses_weaken; [apply parses_ret|]. by intros ? ? [-> ->].
Qed.

Lemma parses_range_body c ds :
  parses (clock ← readDeleteSetVarUint "ler clock do range";
         length ← readDeleteSetVarUint "ler comprimento do range";
         match DeleteSet_Add ds c clock length with
         | (ds, None) => mret ds
         | (_, Some err) => fail (Wrapped "yupdate: adicionar range deletado" err)
         end) (λ bs ds', ∃ r, bs = enc_range r ∧ add_one c ds r ds').
Proof.
  eapply parses_weaken.
  - eapply parses_bind; [apply parses_varuint|]. intros clock.
    eapply parses_bind; [apply parses_varuint|]. intros len. apply parses_add.
  - intros bs ds' (b1 & b2 & clock & -> & [Hk ->] & b3 & b4 & len & -> & [Hl ->] & -> & Hadd).
    exists (mkRange clock len). split; [|done]. unfold enc_range, appendRange; cbn.
    by rewrite app_nil_r, (Append_app (Append [] clock)).
Qed.

Lemma parses_ReadDeleteSetBlockV1 : parses ReadDeleteSetBlockV1 (λ bs ds, ∃ es,
  bs = enc_entries es ∧ is_u32 (Z.of_nat (length es)) ∧ run_list add_entry NewDeleteSet es ds).
Proof.
  eapply parses_weaken.
  - eapply parses_bind; [apply parses_varuint|]. intros count.
    apply (parses_for_times _ enc_entry add_entry). intros ds. eapply parses_weaken.
    + eapply parses_bind; [apply parses_varuint|]. intros c.
      eapply parses_bind; [apply parses_varuint|]. intros n.
      apply (parses_for_times _ enc_range (add_one c)). intros ds1. apply parses_range_body.
    + intros bs ds' (b1 & b2 & c & -> & [Hc ->] & b3 & b4 & n & -> & [Hn ->] & l & Hl & -> & Hrun).
      exists (c, l). unfold enc_entry. rewrite appendClientRanges_eq. rewrite Hl. unfold is_u32 in Hn.
      rewrite Z2Nat.id, w32_small by u32. split; [done|]. split; [done|]. cbn. rewrite Hl. split; [u32|done].
  - intros bs ds (b1 & b2 & n & -> & [Hn ->] & es & Hes & -> & Hrun).
    exists es. unfold enc_entries. rewrite Hes. unfold is_u32 in Hn. rewrite Z2Nat.id, w32_small by u32. done.
Qed.

Lemma reads_range_run c ds r ds' : add_one c ds r ds' →
  reads (clock ← readDeleteSetVarUint "ler clock do range";
         length ← readDeleteSetVarUint "ler comprimento do range";
         match DeleteSet_Add ds c clock length with
         | (ds, None) => mret ds
         | (_, Some err) => fail (Wrapped "yupdate: adicionar range deletado" err)
         end) (enc_range r) ds'.
Proof.
  intros (Hk & Hl & Hadd). unfold enc_range, appendRange. rewrite Append_app.
  eapply reads_bind; [by apply reads_varuint|]. eapply reads_bind_ret; [by apply reads_varuint|].
  rewrite Hadd. apply reads_ret.
Qed.

(** The encoding of any entries whose insertion succeeds is accepted. *)
Lemma reads_entries es ds : is_u32 (Z.of_nat (length es)) → run_list add_entry NewDeleteSet es ds →
  reads ReadDeleteSetBlockV1 (enc_entries es) ds.
Proof.
  intros Hn Hrun. unfold enc_entries. rewrite w32_small by done.
  eapply reads_bind; [by apply reads_varuint|]. rewrite Nat2Z.id.
  apply (reads_for_times_run _ enc_entry add_entry); [|done].
  intros s [c l] s' (Hc & Hl & Hr). cbn [fst snd] in *. unfold enc_entry. rewrite appendClientRanges_eq. cbn [app].
  rewrite w32_small by done. eapply reads_bind; [by apply reads_varuint|]. eapply reads_bind; [by apply reads_varuint|].
  rewrite Nat2Z.id. apply (reads_for_times_run _ enc_range (add_one c)); [|done].
  intros. by apply reads_range_run.
Qed.

(** The insertions build the union, when some clock stays out of every range. *)
Lemma run_add_one y c ds rs ds' s : is_u32 y → ds = mkDeleteSet (Some s) → wf_set s → avoids y s →
  ¬ covers rs y → run_list (add_one c) ds rs ds' →
  ∃ s', ds' = mkDeleteSet (Some s') ∧ wf_set s' ∧ avoids y s' ∧
    (∀ c' x, mem s' c' x ↔ mem s c' x ∨ (c' = c ∧ covers rs x)).
Proof.
  intros Hy. revert ds s. induction rs as [|r rs IH]; intros ds s -> Hw Ha Hc; cbn.
  { intros <-. exists s. split_and!; try done. intros c' x. pose proof (covers_nil x). tauto. }
  rewrite covers_cons in Hc. intros (ds1 & (Hk & Hl & Hadd) & Hrun).
  unfold DeleteSet_Add in Hadd; cbn in Hadd.
  assert (mkRange (r_Clock r) (r_Length r) = r) as Er by by destruct r.
  destruct (decide (wf_range r)) as [Hr|Hr].
  - destruct (IdSet_add_Ok s c (r_Clock r) (r_Length r) y) as (s1 & E & Hs1); rewrite ?Er; [done..|apply avoids_room; tauto|].
    rewrite E in Hadd. injection Hadd as <-. rewrite Er in Hs1. pose proof Hs1 as [Hw1 Hm1].
    destruct (IH _ s1 eq_refl Hw1 (added_avoids _ _ _ _ _ Hs1 Ha ltac:(tauto)) ltac:(tauto) Hrun) as (s' & -> & Hw' & Ha' & Hm').
    exists s'. split_and!; try done. intros c' x. rewrite Hm', Hm1, covers_cons. tauto.
  - exfalso. rewrite <- Er in Hr. destruct (IdSet_add_Err s c (r_Clock r) (r_Length r) Hk Hl Hr) as [err E].
    rewrite E in Hadd. unfold normalizeDeleteSetError in Hadd.
    repeat (destruct (errors_Is err _) in Hadd; [done|]). done.
Qed.

Lemma run_add_entry y es ds : is_u32 y → ¬ Exists (λ e, covers e.2 y) es → run_list add_entry NewDeleteSet es ds →
  ∃ s, ds = mkDeleteSet (Some s) ∧ wf_set s ∧ avoids y s ∧ (∀ c x, mem s c x ↔ covers_entries es c x).
Proof.
  intros Hy He. enough (∀ s0, wf_set s0 → avoids y s0 → run_list add_entry (mkDeleteSet (Some s0)) es ds →
    ∃ s, ds = mkDeleteSet (Some s) ∧ wf_set s ∧ avoids y s ∧ (∀ c x, mem s c x ↔ mem s0 c x ∨ covers_entries es c x)) as H.
  { intros Hrun. destruct (H IdSet_New) as (s & ? & ? & ? & Hm); [eauto with idset..|done|].
    exists s. split_and!; try done. intros c x. rewrite Hm. pose proof (mem_New c x). tauto. }
  induction es as [|[c rs] es IH]; intros s0 Hw Ha; cbn.
  { intros <-. exists s0. split_and!; try done. intros c x. unfold covers_entries. split; [by left|].
    intros [?|(? & ?%not_elem_of_nil & _)]; done. }
  rewrite Exists_cons in He. intros (ds1 & (_ & _ & Hrun1) & Hrun). cbn in *.
  destruct (run_add_one y c _ rs ds1 s0 Hy eq_refl Hw Ha ltac:(tauto) Hrun1) as (s1 & -> & Hw1 & Ha1 & Hm1).
  destruct (IH ltac:(tauto) s1 Hw1 Ha1 Hrun) as (s & -> & Hw' & Ha' & Hm).
  exists s. split_and!; try done. intros c' x. rewrite Hm, Hm1. unfold covers_entries.
  setoid_rewrite elem_of_cons. naive_solver.
Qed.

(** ** The operations on sets *)

Lemma DeleteSet_Merge_spec y s other : is_u32 y → wf_set s → wf_set other → avoids y s → avoids y other →
  ∃ s', DeleteSet_Merge (mkDeleteSet (Some s)) (Some (mkDeleteSet (Some other))) = (mkDeleteSet (Some s'), None) ∧
    wf_set s' ∧ avoids y s' ∧ (∀ c x, mem s' c x ↔ mem s c x ∨ mem other c x).
Proof.
  intros Hy Hs Ho Has Hao. unfold DeleteSet_Merge. cbn [ds_set ds_ids mbind option_bind ensure].
  destruct (IdSet_Merge_spec y s other) as (s' & -> & ? & ? & ?); [done..|]. by exists s'.
Qed.

Lemma DeleteSet_Has_spec s id : wf_set s →
  DeleteSet_Has (Some (mkDeleteSet (Some s))) id = true ↔ mem s (id_Client id) (id_Clock id).
Proof. intros. by apply IdSet_Has_spec. Qed.

(** The reader never runs out of fuel: it has none. *)
Lemma DeleteSet_Add_err ds c k l ds' err : DeleteSet_Add ds c k l = (ds', Some err) → err ≠ FuelExhausted.
Proof.
  unfold DeleteSet_Add, IdSet_add, NewRange. destruct (l =? 0); [cbn; by intros [= _ <-]|].
  destruct (negb _); [cbn; by intros [= _ <-]|]. destruct (last _); [|done].
  destruct (_ <=? _); [|done]. by destruct (_ <? _).
Qed.

Lemma agree_ReadDeleteSetBlockV1 n : agree n ReadDeleteSetBlockV1 ReadDeleteSetBlockV1.
Proof.
  assert (∀ op, agree n (readDeleteSetVarUint op) (readDeleteSetVarUint op)) as Hv
    by (intros op; apply agree_catch; [done|apply agree_ReadU]).
  unfold ReadDeleteSetBlockV1. apply agree_bind; [done|]. intros cnt. apply agree_for_times. intros ds.
  apply agree_bind; [done|]. intros c. apply agree_bind; [done|]. intros m. apply agree_for_times. intros ds1.
  apply agree_bind; [done|]. intros k. apply agree_bind; [done|]. intros l.
  destruct (DeleteSet_Add ds1 c k l) as [ds2 [err|]] eqn:E; [|apply agree_ret]. by apply agree_fail.
Qed.
