(* ===== verification/Decoder.v ===== *)
(** * internal/yupdate: the V1 decoder's primitives

    decoder_v1.go, decoder_v1_raw.go, limits.go and the two appenders of
    content_v1.go that write what they read.  [decoderV1] only wraps a reader, so
    its methods are computations of [RM].

    [readAnyRaw] recurses on nested lib0 values.  Every level consumes at least
    its tag byte, so the length of the buffer is enough fuel: [readAnyRaw_unfold]
    is the recursive equation of the source, without fuel. *)
From S2P Require Import Prelude GoError Binary Varint GoText YTypes.
Import varint.

Definition wrapError (op : string) (off : Z) (err : error) : error := ParseError PkgYUpdate op off err.

Definition maxDecodedCollectionLength : Z := 1048576.

Definition validateDecodedCollectionLength (op : string) (off length : Z) : result unit :=
  if length <=? maxDecodedCollectionLength then Ok tt
  else Err (wrapError op off (Wrapped "%w: %d > %d" yupdate_ErrDecodedCollectionTooLarge)).

(** ** decoder_v1.go *)

Definition readVarUint (op : string) : RM Z := catch ReadU (λ off err, wrapError op off err).

Definition readInfo : RM Z := catch ReadByte (λ off err, wrapError "ReadInfo" off err).

Definition readID (op : string) : RM ID := catch ReadIDU (λ off err, wrapError op off err).

Definition readString (op : string) : RM bytes :=
  length ← readVarUint (op ++ ".len");
  catch (ReadN length) (λ off err, wrapError op off err).

Definition readBuf (op : string) : RM bytes :=
  length ← readVarUint (op ++ ".len");
  catch (ReadN length) (λ off err, wrapError op off err).

Definition readParentInfo : RM bool :=
  value ← readVarUint "ReadParentInfo";
  if value =? 0 then mret false
  else if value =? 1 then mret true
  else off ← getOffset; fail (wrapError "ReadParentInfo.value" off (Opaque "parent info invalido: %d")).

(** The loop over the runes of the string; the counter is a uint32. *)
Definition utf16Length (s : bytes) : Z := fold_left (λ length r, w32 (length + rune_units r)) (runes s) 0.

Definition appendVarUintV1 (dst : bytes) (value : Z) : bytes := Append dst value.

Definition appendVarStringV1 (dst value : bytes) : bytes :=
  Append dst (w32 (Z.of_nat (length value))) ++ value.

(** ** decoder_v1_raw.go *)

(** The [for i := 0; i < 6; i++] loop. *)
Fixpoint readVarIntRaw_loop (n : nat) (op : string) (raw : bytes) : RM bytes :=
  match n with
  | O => off ← getOffset; fail (wrapError op off (Opaque "varint excedeu 6 bytes"))
  | S n =>
      b ← catch ReadByte (λ off err, wrapError op off err);
      let raw := raw ++ [b] in
      if b <? 128 then mret raw else readVarIntRaw_loop n op raw
  end.

Definition readVarIntRaw (op : string) : RM bytes := readVarIntRaw_loop 6 op [].

Definition isLib0AnyTag (tag : Z) : bool := (116 <=? tag) && (tag <=? 127).

(** [readAnyRawWithTag], with the recursive calls of [readAnyRaw] as a parameter. *)
Definition anyWithTag (readAny : string → RM bytes) (op : string) (start tag : Z) : RM bytes :=
  if negb (isLib0AnyTag tag) then fail (wrapError op start (Opaque "tag any desconhecida: %d"))
  else
    let raw := [tag] in
    if (tag =? 127) || (tag =? 126) || (tag =? 121) || (tag =? 120) then mret raw
    else if tag =? 125 then
      value ← readVarIntRaw (op ++ ".varint"); mret (raw ++ value)
    else if tag =? 124 then
      value ← catch (ReadN 4) (λ off err, wrapError (op ++ ".float32") off err); mret (raw ++ value)
    else if (tag =? 123) || (tag =? 122) then
      value ← catch (ReadN 8) (λ off err, wrapError (op ++ ".float64") off err); mret (raw ++ value)
    else if tag =? 119 then
      value ← readString (op ++ ".string"); mret (appendVarStringV1 raw value)
    else if tag =? 118 then
      length ← readVarUint (op ++ ".object.len");
      for_times (Z.to_nat length) (λ raw,
        key ← readString (op ++ ".object.key");
        value ← readAny (op ++ ".object.value")%string;
        mret (appendVarStringV1 raw key ++ value)) (appendVarUintV1 raw length)
    else if tag =? 117 then
      length ← readVarUint (op ++ ".array.len");
      for_times (Z.to_nat length) (λ raw,
        value ← readAny (op ++ ".array.value")%string; mret (raw ++ value)) (appendVarUintV1 raw length)
    else if tag =? 116 then
      value ← readBuf (op ++ ".buf");
      mret (appendVarUintV1 raw (w32 (Z.of_nat (length value))) ++ value)
    else fail (wrapError op start (Opaque "tag any desconhecida: %d")).

Definition anyStep (readAny : string → RM bytes) (op : string) : RM bytes :=
  start ← getOffset;
  tag ← catch ReadByte (λ _ err, wrapError (op ++ ".tag") start err);
  anyWithTag readAny op start tag.

Fixpoint readAnyRaw_fuel (fuel : nat) (op : string) : RM bytes :=
  match fuel with
  | O => fail FuelExhausted
  | S fuel => anyStep (readAnyRaw_fuel fuel) op
  end.

Definition readAnyRaw (op : string) : RM bytes := λ r, readAnyRaw_fuel (S (length (data r))) op r.

Definition readAnyRawWithTag (op : string) (start tag : Z) : RM bytes := anyWithTag readAnyRaw op start tag.

Fixpoint encodedVarUintLen_loop (fuel : nat) (n : nat) (value : Z) : nat :=
  match fuel with
  | O => n
  | S fuel => if 128 <=? value then encodedVarUintLen_loop fuel (S n) (Z.shiftr value 7) else n
  end.

Definition encodedVarUintLen (value : Z) : nat := encodedVarUintLen_loop 5 1 value.

(** The length of a varstring whose first byte was already read: the state of
    the loop is (i, last, value, rawLen), [shift] is [7 * (i + 1)]. *)
Fixpoint varStringLen_loop (fuel : nat) (op : string) (start : Z) (i : nat) (last value : Z) (rawLen : bytes)
    : RM (Z * bytes) :=
  match fuel with
  | O => fail FuelExhausted
  | S fuel =>
      if Z.land last 128 =? 0 then mret (value, rawLen)
      else if bool_decide (5 ≤ S i)%nat then fail (wrapError (op ++ ".len") start varint_ErrOverflow)
      else
        next ← catch ReadByte (λ _ _, wrapError (op ++ ".len") start varint_ErrUnexpectedEOF);
        if bool_decide (S i = 4%nat) && (negb (Z.land next 128 =? 0) || (15 <? next))
        then fail (wrapError (op ++ ".len") start varint_ErrOverflow)
        else
          varStringLen_loop fuel op start (S i) next
            (Z.lor value (w32 (Z.shiftl (Z.land next 127) (7 * Z.of_nat (S i))))) (rawLen ++ [next])
  end.

Definition readVarStringRawWithFirst (op : string) (start first : Z) : RM bytes :=
  '(value, rawLen) ← varStringLen_loop 6 op start 0 first (Z.land first 127) [first];
  if negb (bool_decide (encodedVarUintLen value = length rawLen))
  then fail (wrapError (op ++ ".len") start varint_ErrNonCanonical)
  else
    payload ← catch (ReadN value) (λ off err, wrapError op off err);
    mret (rawLen ++ payload).

Definition readJSONRawCompat (op : string) : RM bytes :=
  start ← getOffset;
  first ← catch ReadByte (λ _ err, wrapError (op ++ ".tag") start err);
  if isLib0AnyTag first then readAnyRawWithTag (op ++ ".any") start first
  else readVarStringRawWithFirst (op ++ ".json") start first.
