(* ===== verification/DecoderFacts.v ===== *)
(** * What the V1 primitives accept

    Strings and buffers are a length and their bytes; a lib0 value and a JSON
    value are kept as the bytes that were consumed ([parses_readAnyRaw],
    [parses_readJSONRawCompat]), and those bytes are read back the same way in
    any context ([any_ok], [json_ok]). *)
From S2P Require Import Prelude GoError Binary Varint GoText YTypes Decoder.
Import varint.

(** ** Variable-length strings *)

Definition enc_str (s : bytes) : bytes := appendVarStringV1 [] s.

(** A string whose length fits the prefix. *)
Definition str_ok (s : bytes) : Prop := is_u32 (Z.of_nat (length s)) ∧ is_bytes s.

#[export] Instance str_ok_dec s : Decision (str_ok s).
Proof. unfold str_ok. apply _. Defined.

Lemma appendVarString_app dst s : appendVarStringV1 dst s = dst ++ enc_str s.
Proof. unfold enc_str, appendVarStringV1. rewrite Append_app. by rewrite <- app_assoc. Qed.

Lemma enc_str_eq s : str_ok s → enc_str s = Append [] (Z.of_nat (length s)) ++ s.
Proof. intros [H _]. unfold enc_str, appendVarStringV1. by rewrite w32_small. Qed.

Lemma reads_readVarUint op v : is_u32 v → reads (readVarUint op) (Append [] v) v.
Proof. intros. by apply reads_catch, reads_ReadU. Qed.
Lemma parses_readVarUint op : parses (readVarUint op) (λ bs v, is_u32 v ∧ bs = Append [] v).
Proof. apply parses_catch, parses_ReadU. Qed.

Lemma reads_readID op id : wf_ID id → reads (readID op) (AppendID [] id) id.
Proof. intros. by apply reads_catch, reads_ReadID. Qed.
Lemma parses_readID op : parses (readID op) (λ bs id, wf_ID id ∧ bs = AppendID [] id).
Proof. apply parses_catch, parses_ReadID. Qed.

Lemma reads_readString op s : str_ok s → reads (readString op) (enc_str s) s.
Proof.
  intros Hs. rewrite enc_str_eq by done. eapply reads_bind; [by apply reads_readVarUint, Hs|].
  by apply reads_catch, reads_ReadN.
Qed.
Lemma parses_readString op : parses (readString op) (λ bs s, bs = enc_str s ∧ str_ok s).
Proof.
  eapply parses_weaken.
  - eapply parses_bind; [apply parses_readVarUint|]. intros n. apply parses_catch, parses_ReadN.
  - intros bs s (b1 & b2 & n & -> & [Hn ->] & -> & <- & Hb).
    assert (str_ok s) by done. by rewrite enc_str_eq.
Qed.
Lemma reads_readBuf op s : str_ok s → reads (readBuf op) (enc_str s) s.
Proof. apply reads_readString. Qed.
Lemma parses_readBuf op : parses (readBuf op) (λ bs s, bs = enc_str s ∧ str_ok s).
Proof. apply parses_readString. Qed.

Lemma enc_str_bytes s : str_ok s → is_bytes (enc_str s).
Proof.
  intros Hs. rewrite enc_str_eq by done. destruct Hs as [Hl Hb].
  apply Forall_app. split; [apply Append_is_bytes; u32|done].
Qed.

(** The uint32 counter does not wrap on a string that fits a length prefix. *)
Lemma utf16Length_eq s : str_ok s → utf16Length s = units (runes s).
Proof.
  intros [Hl Hb]. destruct (runes_spec s Hb) as [_ Hu]. unfold utf16Length.
  assert (units (runes s) < 4294967296) as Hmax by u32. clear Hl Hb Hu. revert Hmax.
  enough (∀ n rs, 0 <= n → n + units rs < 4294967296 →
    fold_left (λ length r, w32 (length + rune_units r)) rs n = n + units rs) as H.
  { intros. rewrite H; lia. }
  intros n rs. revert n. induction rs as [|r rs IH]; intros n Hn Hs; cbn [fold_left]; [cbn; lia|].
  cbn [units foldr] in *. fold (units rs) in *. pose proof (rune_units_range r). pose proof (units_nonneg rs).
  rewrite w32_small, IH by u32. lia.
Qed.

(** The buffer appender of the source writes the same bytes. *)
Lemma append_buf_app dst s : appendVarUintV1 dst (w32 (Z.of_nat (length s))) ++ s = dst ++ enc_str s.
Proof. apply appendVarString_app. Qed.

(** ** lib0 any values *)

Lemma agree_readVarUint n op : agree n (readVarUint op) (readVarUint op).
Proof. unfold readVarUint. auto with agree. Qed.
Lemma agree_readString n op : agree n (readString op) (readString op).
Proof. apply agree_bind; [apply agree_readVarUint|]. auto with agree. Qed.
Lemma agree_readBuf n op : agree n (readBuf op) (readBuf op).
Proof. apply agree_readString. Qed.
Lemma agree_readVarIntRaw n k op raw : agree n (readVarIntRaw_loop k op raw) (readVarIntRaw_loop k op raw).
Proof.
  revert raw. induction k as [|k IH]; intros raw; cbn; [auto with agree|].
  apply agree_bind; [auto with agree|]. intros b. apply agree_if; auto with agree.
Qed.
#[export] Hint Resolve agree_readVarUint agree_readString agree_readBuf agree_readVarIntRaw : agree.

Lemma agree_anyWithTag n (rec1 rec2 : string → RM bytes) op start tag :
  (∀ op, agree n (rec1 op) (rec2 op)) → agree n (anyWithTag rec1 op start tag) (anyWithTag rec2 op start tag).
Proof.
  intros H. unfold anyWithTag, readVarIntRaw. cbn zeta.
  repeat (apply agree_if || apply agree_ret);
    try (apply agree_bind; [auto with agree|]; intros; auto with agree); auto with agree.
Qed.

Lemma agree_anyStep n rec1 rec2 op : (∀ op, agree (n - 1) (rec1 op) (rec2 op)) →
  agree n (anyStep rec1 op) (anyStep rec2 op).
Proof.
  intros H. unfold anyStep. apply agree_bind; [apply agree_offset|]. intros start.
  apply agree_ReadByte_bind; [done|]. intros tag. by apply agree_anyWithTag.
Qed.

(** Fuel beyond the number of bytes left makes no difference. *)
Lemma readAnyRaw_fuel_agree f1 f2 op n : n < Z.of_nat f1 → n < Z.of_nat f2 →
  agree n (readAnyRaw_fuel f1 op) (readAnyRaw_fuel f2 op).
Proof.
  revert f2 op n. induction f1 as [|f1 IH]; intros [|f2] op n H1 H2; try (intros r ?; lia).
  cbn [readAnyRaw_fuel]. apply agree_anyStep. intros op'. apply IH; lia.
Qed.

Lemma agree_readAnyRaw f op n : n < Z.of_nat f → agree n (readAnyRaw_fuel f op) (readAnyRaw op).
Proof.
  intros Hf r Hr. unfold readAnyRaw.
  apply (readAnyRaw_fuel_agree f _ op (Remaining r)); unfold Remaining in *; lia.
Qed.

(** The recursive equation of the source. *)
Lemma readAnyRaw_unfold op r : wf_reader r → readAnyRaw op r = anyStep readAnyRaw op r.
Proof.
  intros Hw. assert (0 <= Remaining r) by (rewrite <- length_view by done; lia).
  set (n := Remaining r) in *. set (f := S (length (data r))).
  assert (n < Z.of_nat f) by (subst n f; unfold Remaining; lia).
  rewrite <- (proj1 (agree_readAnyRaw (S f) op n ltac:(lia) r ltac:(lia))). cbn [readAnyRaw_fuel].
  apply (agree_anyStep n); [|lia]. intros op'. apply agree_readAnyRaw. lia.
Qed.

(** *** The grammar of the values *)

(** A lib0 signed integer: at most six bytes, all but the last with the high bit. *)
Definition varint_shape (bs : bytes) : Prop :=
  bs ≠ [] ∧ (length bs ≤ 6)%nat ∧ Forall (λ b, 128 <= b) (removelast bs) ∧ ∃ b, last bs = Some b ∧ b < 128.

Inductive any_value : bytes → Prop :=
| any_const tag : tag = 127 ∨ tag = 126 ∨ tag = 121 ∨ tag = 120 → any_value [tag]
| any_int bs : varint_shape bs → any_value (125 :: bs)
| any_f32 bs : length bs = 4%nat → any_value (124 :: bs)
| any_f64 tag bs : tag = 123 ∨ tag = 122 → length bs = 8%nat → any_value (tag :: bs)
| any_string s : str_ok s → any_value (119 :: enc_str s)
| any_object n bs : is_u32 (Z.of_nat n) → any_fields n bs → any_value (118 :: Append [] (Z.of_nat n) ++ bs)
| any_array n bs : is_u32 (Z.of_nat n) → any_items n bs → any_value (117 :: Append [] (Z.of_nat n) ++ bs)
| any_buf s : str_ok s → any_value (116 :: enc_str s)
with any_items : nat → bytes → Prop :=
| items_nil : any_items 0 []
| items_cons n v bs : any_value v → any_items n bs → any_items (S n) (v ++ bs)
with any_fields : nat → bytes → Prop :=
| fields_nil : any_fields 0 []
| fields_cons n k v bs : str_ok k → any_value v → any_fields n bs → any_fields (S n) ((enc_str k ++ v) ++ bs).

Scheme any_value_mut := Minimality for any_value Sort Prop
  with any_items_mut := Minimality for any_items Sort Prop
  with any_fields_mut := Minimality for any_fields Sort Prop.

Lemma reads_varIntRaw k op bs raw : bs ≠ [] → (length bs ≤ k)%nat →
  Forall (λ b, 128 <= b) (removelast bs) → (∃ b, last bs = Some b ∧ b < 128) →
  reads (readVarIntRaw_loop k op raw) bs (raw ++ bs).
Proof.
  revert bs raw. induction k as [|k IH]; intros bs raw Hne Hl Hf (e & He & Hlt); [destruct bs; cbn in Hl; [done|lia]|].
  destruct bs as [|b bs]; [done|]. cbn [readVarIntRaw_loop].
  apply (reads_bind _ _ [b] bs b); [apply reads_catch, reads_ReadByte|].
  destruct bs as [|b2 bs].
  - cbn in He. injection He as ->. cmp_known. apply reads_ret.
  - cbn in Hf. apply Forall_cons in Hf as [Hb Hf]. cmp_known.
    change (raw ++ b :: b2 :: bs) with (raw ++ [b] ++ b2 :: bs). rewrite app_assoc. apply IH; [done|cbn in *; lia|done|].
    exists e. by rewrite <- He.
Qed.

Lemma parses_varIntRaw k op raw : parses (readVarIntRaw_loop k op raw) (λ bs a,
  a = raw ++ bs ∧ bs ≠ [] ∧ (length bs ≤ k)%nat ∧ Forall (λ b, 128 <= b) (removelast bs) ∧
  ∃ b, last bs = Some b ∧ b < 128).
Proof.
  revert raw. induction k as [|k IH]; intros raw; cbn [readVarIntRaw_loop].
  - apply parses_offset. intros o. eapply parses_weaken; [apply parses_fail|done].
  - eapply parses_weaken.
    + eapply parses_bind; [apply parses_catch, parses_ReadByte|]. intros b. cbn zeta.
      instantiate (1 := λ b bs a, (b < 128 ∧ bs = [] ∧ a = raw ++ [b]) ∨
        (128 <= b ∧ a = (raw ++ [b]) ++ bs ∧ bs ≠ [] ∧ (length bs ≤ k)%nat ∧
          Forall (λ b, 128 <= b) (removelast bs) ∧ ∃ b, last bs = Some b ∧ b < 128)). cbn beta.
      destruct (Z.ltb_spec b 128).
      * eapply parses_weaken; [apply parses_ret|]. intros ? ? [-> ->]. by left.
      * eapply parses_weaken; [apply IH|]. intros ? ? ?. by right.
    + intros bs a (b1 & b2 & b & -> & [-> Hb] & [(? & -> & ->)|(? & -> & Hne & Hl & Hf & He)]).
      * split_and!; [done..|cbn; lia|constructor|by exists b].
      * split_and!; [by rewrite <- app_assoc|done|cbn; lia| |].
        -- destruct b2; [done|]. by constructor.
        -- destruct He as (e & He & ?). exists e. split; [|done]. destruct b2; [done|]. by rewrite <- He.
Qed.

#[local] Arguments readVarIntRaw : simpl never.
#[local] Arguments readString : simpl never.
#[local] Arguments readVarUint : simpl never.
#[local] Arguments readBuf : simpl never.
#[local] Arguments for_times : simpl never.
#[local] Arguments appendVarStringV1 : simpl never.
#[local] Arguments appendVarUintV1 : simpl never.
#[local] Arguments catch : simpl never.
#[local] Arguments w32 : simpl never.

(** A value after its tag. *)
Lemma reads_anyStep op tag bs a : (∀ start, reads (anyWithTag readAnyRaw op start tag) bs a) →
  reads (readAnyRaw op) (tag :: bs) a.
Proof.
  intros H r rest Hw Hv. rewrite readAnyRaw_unfold by done. revert r rest Hw Hv.
  change (reads (anyStep readAnyRaw op) (tag :: bs) a). unfold anyStep.
  apply reads_offset. intros start. apply (reads_bind _ _ [tag] bs tag); [apply reads_catch, reads_ReadByte|].
  apply H.
Qed.

(** Every value of the grammar is read, whole, anywhere. *)
Definition any_read (bs : bytes) : Prop := ∃ tag t, bs = tag :: t ∧ isLib0AnyTag tag = true ∧
  ∀ op start, reads (readAnyRawWithTag op start tag) t bs.

Lemma reads_any_read bs op : any_read bs → reads (readAnyRaw op) bs bs.
Proof. intros (tag & t & -> & _ & H). apply reads_anyStep. intros start. apply H. Qed.

Lemma any_value_read bs : any_value bs → any_read bs.
Proof.
  apply (any_value_mut any_read
    (λ n bs, ∀ op raw, reads (for_times n (λ raw, value ← readAnyRaw op; mret (raw ++ value)) raw) bs (raw ++ bs))
    (λ n bs, ∀ op1 op2 raw, reads (for_times n (λ raw, key ← readString op1; value ← readAnyRaw op2;
       mret (appendVarStringV1 raw key ++ value)) raw) bs (raw ++ bs))).
  all: unfold readAnyRawWithTag, anyWithTag.
  - intros tag Ht. exists tag, []. split; [done|]. destruct Ht as [->|[->|[->| ->]]]; (split; [done|]);
      intros op start; apply reads_ret.
  - intros v (Hne & Hl & Hf & He). eexists _, _. do 2 (split; [done|]). intros op start; cbn.
    eapply reads_bind_ret; [by apply reads_varIntRaw|]. apply reads_ret.
  - intros v Hl. eexists _, _. do 2 (split; [done|]). intros op start; cbn.
    eapply reads_bind_ret; [apply reads_catch, reads_ReadN; by rewrite Hl|]. apply reads_ret.
  - intros tag v Ht Hl. eexists _, _. split; [done|]. destruct Ht as [-> | ->]; (split; [done|]); intros op start; cbn;
      (eapply reads_bind_ret; [apply reads_catch, reads_ReadN; by rewrite Hl|]; apply reads_ret).
  - intros v Hs. eexists _, _. do 2 (split; [done|]). intros op start; cbn.
    eapply reads_bind_ret; [by apply reads_readString|]. rewrite appendVarString_app. apply reads_ret.
  - intros n v Hn _ IH. eexists _, _. do 2 (split; [done|]). intros op start; cbn.
    eapply reads_bind; [by apply reads_readVarUint|]. rewrite Nat2Z.id.
    unfold appendVarUintV1. rewrite Append_app.
    change (118 :: Append [] (Z.of_nat n) ++ v) with (([118] ++ Append [] (Z.of_nat n)) ++ v). apply IH.
  - intros n v Hn _ IH. eexists _, _. do 2 (split; [done|]). intros op start; cbn.
    eapply reads_bind; [by apply reads_readVarUint|]. rewrite Nat2Z.id.
    unfold appendVarUintV1. rewrite Append_app.
    change (117 :: Append [] (Z.of_nat n) ++ v) with (([117] ++ Append [] (Z.of_nat n)) ++ v). apply IH.
  - intros v Hs. eexists _, _. do 2 (split; [done|]). intros op start; cbn.
    eapply reads_bind_ret; [by apply reads_readBuf|]. rewrite append_buf_app. apply reads_ret.
  - intros op raw. rewrite app_nil_r. apply reads_ret.
  - intros n v w _ IHv _ IHw op raw. cbn. rewrite app_assoc. eapply reads_bind; [|apply IHw].
    eapply reads_bind_ret; [by apply reads_any_read|]. apply reads_ret.
  - intros op1 op2 raw. rewrite app_nil_r. apply reads_ret.
  - intros n k v w Hk _ IHv _ IHw op1 op2 raw. cbn. rewrite app_assoc. eapply reads_bind; [|apply IHw].
    eapply reads_bind; [by apply reads_readString|]. eapply reads_bind_ret; [by apply reads_any_read|].
    rewrite appendVarString_app, <- app_assoc. apply reads_ret.
Qed.

Lemma reads_any_value bs op : any_value bs → reads (readAnyRaw op) bs bs.
Proof. intros. by apply reads_any_read, any_value_read. Qed.

Lemma any_items_Forall l : Forall any_value l → any_items (length l) (concat l).
Proof. induction 1; cbn; by constructor. Qed.

Lemma any_fields_Forall l : Forall (λ x, ∃ k v, x = enc_str k ++ v ∧ str_ok k ∧ any_value v) l →
  any_fields (length l) (concat l).
Proof. induction 1 as [|x l (k & v & -> & Hk & Hv) _ IH]; cbn; by constructor. Qed.

(** Only the grammar is accepted, and the result is the bytes that were read. *)
Lemma parses_anyWithTag rec op start tag :
  (∀ op, parses (rec op) (λ bs a, a = bs ∧ any_value bs)) →
  parses (anyWithTag rec op start tag) (λ bs a, a = tag :: bs ∧ any_value (tag :: bs)).
Proof.
  intros IH. unfold anyWithTag. destruct (isLib0AnyTag tag); cbn [negb]; [|eapply parses_weaken; [apply parses_fail|done]].
  destruct (Z.eqb_spec tag 127), (Z.eqb_spec tag 126), (Z.eqb_spec tag 121), (Z.eqb_spec tag 120); try lia; cbn [orb].
  1-4: eapply parses_weaken; [apply parses_ret|]; intros ? ? [-> ->]; split; [done|]; apply any_const; tauto.
  case_if; [subst|case_if; [subst|destruct (Z.eqb_spec tag 123), (Z.eqb_spec tag 122); cbn [orb]]].
  1: eapply parses_weaken; [eapply parses_bind; [apply parses_varIntRaw|intros; apply parses_ret]|].
  1: { intros bs a (b1 & b2 & v & -> & (-> & Hv) & -> & ->). rewrite app_nil_r. split; [done|]. by apply any_int. }
  1-4: eapply parses_weaken; [eapply parses_bind; [apply parses_catch, parses_ReadN|intros; apply parses_ret]|];
    intros bs a (b1 & b2 & v & -> & (-> & Hl & _) & -> & ->); rewrite app_nil_r; split; [done|].
  1: apply any_f32; lia.
  1-3: apply any_f64; lia.
  case_if; [subst|case_if; [subst|case_if; [subst|case_if; [subst|eapply parses_weaken; [apply parses_fail|done]]]]].
  - eapply parses_weaken; [eapply parses_bind; [apply parses_readString|intros; apply parses_ret]|].
    intros bs a (b1 & b2 & v & -> & (-> & Hv) & -> & ->). rewrite app_nil_r, appendVarString_app.
    split; [done|]. by apply any_string.
  - eapply parses_weaken.
    + eapply parses_bind; [apply parses_readVarUint|]. intros cnt.
      apply (parses_for_chunks _ (λ x, ∃ k v, x = enc_str k ++ v ∧ str_ok k ∧ any_value v)). intros raw.
      eapply parses_weaken.
      * eapply parses_bind; [apply parses_readString|]. intros k.
        eapply parses_bind; [apply IH|]. intros v. apply parses_ret.
      * intros bs a (b1 & b2 & k & -> & (-> & Hk) & b3 & b4 & v & -> & (-> & Hv) & -> & ->).
        rewrite app_nil_r, appendVarString_app, <- app_assoc. split; [done|]. eauto.
    + intros bs a (b1 & b2 & cnt & -> & (Hn & ->) & -> & l & Hl & -> & Hf).
      unfold appendVarUintV1. rewrite Append_app, <- app_assoc. split; [done|].
      assert (cnt = Z.of_nat (length l)) as -> by (unfold is_u32 in Hn; lia).
      apply any_object; [done|]. by apply any_fields_Forall.
  - eapply parses_weaken.
    + eapply parses_bind; [apply parses_readVarUint|]. intros cnt.
      apply (parses_for_chunks _ any_value). intros raw.
      eapply parses_weaken; [eapply parses_bind; [apply IH|]; intros v; apply parses_ret|].
      intros bs a (b1 & b2 & v & -> & (-> & Hv) & -> & ->). by rewrite app_nil_r.
    + intros bs a (b1 & b2 & cnt & -> & (Hn & ->) & -> & l & Hl & -> & Hf).
      unfold appendVarUintV1. rewrite Append_app, <- app_assoc. split; [done|].
      assert (cnt = Z.of_nat (length l)) as -> by (unfold is_u32 in Hn; lia).
      apply any_array; [done|]. by apply any_items_Forall.
  - eapply parses_weaken; [eapply parses_bind; [apply parses_readBuf|intros; apply parses_ret]|].
    intros bs a (b1 & b2 & v & -> & (-> & Hv) & -> & ->). rewrite app_nil_r, append_buf_app.
    split; [done|]. by apply any_buf.
Qed.

Lemma parses_anyStep rec op :
  (∀ op, parses (rec op) (λ bs a, a = bs ∧ any_value bs)) → parses (anyStep rec op) (λ bs a, a = bs ∧ any_value bs).
Proof.
  intros IH. unfold anyStep. apply parses_offset. intros start. eapply parses_weaken.
  - eapply parses_bind; [apply parses_catch, parses_ReadByte|]. intros tag. by apply parses_anyWithTag.
  - intros bs a (b1 & b2 & tag & -> & (-> & _) & -> & Hv). done.
Qed.

Lemma parses_readAnyRaw op : parses (readAnyRaw op) (λ bs a, a = bs ∧ any_value bs).
Proof.
  enough (∀ f op, parses (readAnyRaw_fuel f op) (λ bs a, a = bs ∧ any_value bs)) as H.
  { intros r a r' Hw Hb E. by apply (H _ _ r a r' Hw Hb E). }
  induction f as [|f IH]; intros op'; cbn [readAnyRaw_fuel].
  - eapply parses_weaken; [apply parses_fail|done].
  - by apply parses_anyStep.
Qed.

(** ** JSON values and their legacy form *)

(** The length loop of [readVarStringRawWithFirst] with its canonicity check. *)
Definition varStringLen (g : nat) (op : string) (start : Z) (i : nat) (last value : Z) (rawLen : bytes)
    : RM (Z * bytes) :=
  '(value, rawLen) ← varStringLen_loop g op start i last value rawLen;
  if negb (bool_decide (encodedVarUintLen value = length rawLen))
  then fail (wrapError (op ++ ".len") start varint_ErrNonCanonical)
  else mret (value, rawLen).

(** What [varint.Read] does once byte [i] was read and added. *)
Definition Read_rest (f i : nat) (last value : Z) (r : Reader) : (result Z * nat) * Reader :=
  if Z.land last 128 =? 0 then
    if bool_decide (encodedLen value = S i) then ((Ok value, S i), r) else ((Err varint_ErrNonCanonical, S i), r)
  else Read_loop f (S i) value r.

Lemma Read_loop_S f i value r b l : wf_reader r → view r = b :: l →
  Read_loop (S f) i value r =
    if bool_decide (i = 4)%nat && (negb (Z.land b 128 =? 0) || (15 <? b))
    then ((Err varint_ErrOverflow, S i), advance 1 r)
    else Read_rest f i b (Z.lor value (w32 (Z.shiftl (Z.land b 127) (7 * Z.of_nat i)))) (advance 1 r).
Proof. intros Hw Hv. cbn [Read_loop]. change (readByte r) with (ReadByte r). by rewrite (reads_ReadByte b r l Hw Hv). Qed.

(** The hand-written loop does what [varint.Read] does. *)
Lemma varStringLen_Read f g op start i last value rawLen r :
  (i + f = 4)%nat → (f < g)%nat → length rawLen = S i → wf_reader r →
  match Read_rest f i last value r with
  | ((Ok v, _), r') => ∃ bs, view r = bs ++ view r' ∧ r' = advance (length bs) r ∧ wf_reader r' ∧
      varStringLen g op start i last value rawLen r = (Ok (v, rawLen ++ bs), r')
  | ((Err _, _), _) => ∃ e r', varStringLen g op start i last value rawLen r = (Err e, r')
  end.
Proof.
  revert g i last value rawLen r. induction f as [|f IH]; intros [|g] i last value rawLen r Hi Hg Hl Hw; try lia;
    unfold Read_rest, varStringLen; cbn [varStringLen_loop]; destruct (Z.eqb_spec (Z.land last 128) 0).
  1, 3: unfold mbind, RM_bind, mret, RM_ret; cbn [negb]; change (encodedVarUintLen value) with (encodedLen value); rewrite Hl;
    case_bool_decide; cbn; [exists []; rewrite app_nil_r, advance_0; done|by eexists _, _].
  - rewrite bool_decide_true by lia. cbn. by eexists _, _.
  - rewrite bool_decide_false by lia. destruct (view r) as [|b l] eqn:Hv.
    + destruct (@br_readByte_nil Reader _ binary_laws r Hw Hv) as (e & He & Hr). cbn [Read_loop]. rewrite He, Hr.
      change (readByte r) with (ReadByte r) in He. unfold mbind, RM_bind, catch. rewrite He. by eexists _, _.
    + rewrite (Read_loop_S f (S i) value r b l Hw Hv).
      pose proof (reads_ReadByte b r l Hw Hv) as Hb. change (length [b]) with 1%nat in Hb.
      unfold mbind, RM_bind, catch. rewrite Hb.
      destruct (bool_decide (S i = 4%nat) && (negb (Z.land b 128 =? 0) || (15 <? b))); [by eexists _, _|].
      assert (wf_reader (advance 1 r)) as Hw1 by (by apply (wf_advance r [b] l)).
      assert (view (advance 1 r) = l) as Hv1 by by rewrite view_advance, Hv.
      specialize (IH g (S i) b (Z.lor value (w32 (Z.shiftl (Z.land b 127) (7 * Z.of_nat (S i))))) (rawLen ++ [b])
        (advance 1 r) ltac:(lia) ltac:(lia) ltac:(rewrite length_app; cbn; lia) Hw1).
      unfold varStringLen, mbind, RM_bind in IH.
      destruct (Read_rest f (S i) b _ (advance 1 r)) as [[[v|e] n1] r'].
      * destruct IH as (bs & Hbs & -> & Hw' & IH). exists (b :: bs). rewrite Hv1 in Hbs.
        split; [by rewrite Hbs at 1|]. split; [apply advance_advance|]. split; [done|].
        rewrite IH. by rewrite <- app_assoc.
      * exact IH.
Qed.

(** On a whole length prefix, starting from its first byte. *)
Lemma varStringLen_ReadU op start first l r : wf_reader r → view r = first :: l →
  match ReadU r with
  | (Ok v, r') => ∃ bs, l = bs ++ view r' ∧ r' = advance (S (length bs)) r ∧ wf_reader r' ∧
      varStringLen 6 op start 0 first (Z.land first 127) [first] (advance 1 r) = (Ok (v, first :: bs), r')
  | (Err _, _) => ∃ e r', varStringLen 6 op start 0 first (Z.land first 127) [first] (advance 1 r) = (Err e, r')
  end.
Proof.
  intros Hw Hv. unfold ReadU, Read. change maxVarUintLen with 5%nat.
  rewrite (Read_loop_S 4 0 0 r first l Hw Hv). rewrite bool_decide_false by lia. cbn [andb].
  change (7 * Z.of_nat 0) with 0. rewrite Z.shiftl_0_r, Z.lor_0_l, w32_small.
  2: { change 127 with (2 ^ 7 - 1); rewrite (land_ones_mod first 7) by lia. pose proof (Z.mod_pos_bound first (2 ^ 7) ltac:(lia)). change (2 ^ 7) with 128 in *. u32. }
  assert (view (advance 1 r) = l) as Hv1 by by rewrite view_advance, Hv.
  pose proof (varStringLen_Read 4 6 op start 0 first (Z.land first 127) [first] (advance 1 r)
    eq_refl ltac:(lia) eq_refl (wf_advance r [first] l Hw Hv)) as H.
  destruct (Read_rest 4 0 first _ (advance 1 r)) as [[[v|e] n] r']; [|exact H].
  destruct H as (bs & Hbs & Hr' & Hw' & H). rewrite Hv1 in Hbs. rewrite advance_advance in Hr'.
  exists bs. split_and!; [done..|]. exact H.
Qed.

Lemma readVarStringRaw_eq op start first r : readVarStringRawWithFirst op start first r =
  ('(value, rawLen) ← varStringLen 6 op start 0 first (Z.land first 127) [first];
   payload ← catch (ReadN value) (λ off err, wrapError op off err);
   mret (rawLen ++ payload)) r.
Proof.
  unfold readVarStringRawWithFirst, varStringLen, mbind, RM_bind.
  destruct (varStringLen_loop _ _ _ _ _ _ _ r) as [[[v raw]|e] r1]; [|done]. by destruct (negb _).
Qed.

(** The JSON texts that are read as such: their length prefix must not start
    with a byte that is also the tag of a lib0 value. *)
Definition json_str (s : bytes) : Prop := str_ok s ∧ ¬ (116 <= Z.of_nat (length s) <= 127).

Definition json_value (bs : bytes) : Prop := any_value bs ∨ ∃ s, json_str s ∧ bs = enc_str s.

(** The first byte of a prefix. *)
Lemma Append_first v : is_u32 v → ∃ b l, Append [] v = b :: l ∧ is_u8 b ∧
  (isLib0AnyTag b = true ↔ 116 <= v <= 127).
Proof.
  intros Hv. destruct (decide (v < 128)).
  - exists v, []. unfold Append. rewrite Append_loop_last by u32. split_and!; [done|u32|].
    unfold isLib0AnyTag. rewrite andb_true_iff, !Z.leb_le. lia.
  - unfold Append, maxVarUintLen. rewrite Append_loop_cons by lia. eexists _, _. split; [done|].
    destruct (continuation_byte v) as (_ & Hb & _). split; [done|]. rewrite w8_lor_128.
    pose proof (Z.mod_pos_bound v 128 ltac:(lia)). unfold isLib0AnyTag. rewrite andb_true_iff, !Z.leb_le. lia.
Qed.

Lemma reads_json_str op s : json_str s → reads (readJSONRawCompat op) (enc_str s) (enc_str s).
Proof.
  intros [Hs Hn] r rest Hw Hv. rewrite enc_str_eq in * by done. pose proof Hs as [Hl _].
  destruct (Append_first (Z.of_nat (length s)) Hl) as (b & l & E & Hb & Ht).
  assert (isLib0AnyTag b = false) as Htag by (destruct (isLib0AnyTag b); tauto).
  rewrite <- app_assoc in Hv.
  pose proof (reads_ReadU _ Hl r _ Hw Hv) as HU.
  assert (view r = b :: l ++ s ++ rest) as Hvb by by rewrite Hv, E.
  unfold readJSONRawCompat, mbind, RM_bind, getOffset. unfold catch at 1.
  rewrite (reads_ReadByte b r _ Hw Hvb), Htag, readVarStringRaw_eq.
  pose proof (varStringLen_ReadU (op ++ ".json") (Offset r) b (l ++ s ++ rest) r Hw Hvb) as Hlen.
  rewrite HU in Hlen. destruct Hlen as (bs & Hbs & Hr' & Hw' & Hlen).
  unfold mbind, RM_bind. change (length [b]) with 1%nat. rewrite Hlen.
  pose proof (view_advance_app _ _ _ Hv) as Hv'.
  rewrite Hv' in Hbs. apply app_inv_tail in Hbs as <-.
  rewrite (reads_catch _ _ _ _ (reads_ReadN s (Z.of_nat (length s)) eq_refl) _ rest Hw' Hv').
  rewrite E, advance_advance, length_app. done.
Qed.

Lemma reads_json_value bs op : json_value bs → reads (readJSONRawCompat op) bs bs.
Proof.
  intros [H|(s & Hs & ->)]; [|by apply reads_json_str].
  destruct (any_value_read bs H) as (tag & v & -> & Ht & Hr). unfold readJSONRawCompat.
  apply reads_offset. intros start. apply (reads_bind _ _ [tag] v tag); [apply reads_catch, reads_ReadByte|].
  rewrite Ht. apply Hr.
Qed.

Lemma parses_readJSONRawCompat op : parses (readJSONRawCompat op) (λ bs a, a = bs ∧ json_value bs).
Proof.
  intros r a r' Hw Hb. unfold readJSONRawCompat. unfold mbind at 1, RM_bind at 1, getOffset.
  destruct (view r) as [|b l] eqn:Hv.
  { destruct (@br_readByte_nil Reader _ binary_laws r Hw Hv) as (e & He & _).
    change (readByte r) with (ReadByte r) in He. unfold mbind, RM_bind, catch. by rewrite He. }
  unfold mbind at 1, RM_bind at 1. unfold catch at 1. rewrite (reads_ReadByte b r l Hw Hv). change (length [b]) with 1%nat.
  pose proof (wf_advance r [b] l Hw Hv) as Hw1. pose proof Hb as [Hb8 Hbl]%Forall_cons.
  assert (view (advance 1 r) = l) as Hv1 by by rewrite view_advance, Hv.
  destruct (isLib0AnyTag b) eqn:Ht; intros E.
  - apply (parses_anyWithTag readAnyRaw _ _ _ parses_readAnyRaw) in E as (bs & Hbs & -> & Hw' & -> & Ha);
      [|done|by rewrite Hv1].
    exists (b :: bs). rewrite Hv1 in Hbs. rewrite advance_advance in *.
    split_and!; [by rewrite Hbs at 1|done|done|done|by left].
  - rewrite readVarStringRaw_eq in E. pose proof (varStringLen_ReadU (op ++ ".json") (Offset r) b l r Hw Hv) as Hlen.
    destruct (ReadU r) as [[n|e] r1] eqn:EU.
    2: { destruct Hlen as (e' & r2 & Hlen). unfold mbind, RM_bind in E. by rewrite Hlen in E. }
    destruct Hlen as (bs & Hbs & -> & Hw2 & Hlen). unfold mbind at 1, RM_bind at 1 in E. rewrite Hlen in E.
    apply parses_ReadU in EU as (bs' & Hbs' & Hr1 & _ & Hn & ->); [|done|by rewrite Hv].
    assert (b :: bs = Append [] n) as En.
    { rewrite Hv, Hbs in Hbs'. change (b :: bs ++ ?x) with ((b :: bs) ++ x) in Hbs'. by apply app_inv_tail in Hbs'. }
    set (r2 := advance (S (length bs)) r) in *.
    assert (is_bytes (view r2)) as Hb2 by (rewrite Hbs in Hbl; by apply Forall_app in Hbl as [_ ?]).
    eapply parses_bind in E; [|apply parses_catch, parses_ReadN|intros; apply parses_ret|done|done].
    destruct E as (bs2 & Hbs2 & -> & Hw3 & b1 & b2 & s & -> & (-> & Hs & Hsb) & -> & ->).
    rewrite app_nil_r in *. exists (Append [] n ++ s).
    assert (str_ok s) as Hok by (by split; [rewrite Hs|]).
    split_and!.
    + rewrite <- app_assoc, <- Hbs2, <- En, Hbs at 1. done.
    + subst r2. rewrite advance_advance, length_app, <- En. done.
    + done.
    + by rewrite En.
    + right. exists s. rewrite enc_str_eq, Hs by done. split; [|done]. split; [done|].
      intros Hr. destruct (Append_first n Hn) as (b' & l' & E' & _ & Ht'). rewrite <- En in E'.
      injection E' as <- <-. rewrite Hs in Hr. apply Ht' in Hr. congruence.
Qed.

(** ** No primitive runs out of fuel *)

Lemma agree_ReadIDU n : agree n ReadIDU ReadIDU.
Proof.
  intros r Hr. rewrite ReadIDU_eq.
  apply (agree_bind n _ ReadU _ (λ client, clock ← ReadU; mret (mkID client clock))); [apply agree_ReadU|auto with agree|done].
Qed.
Lemma agree_readID n op : agree n (readID op) (readID op).
Proof. unfold readID. apply agree_catch; [done|apply agree_ReadIDU]. Qed.

Lemma agree_readAny n op : agree n (readAnyRaw op) (readAnyRaw op).
Proof.
  intros r Hr. destruct (agree_readAnyRaw (S (length (data r))) op (Remaining r)) with (r := r) as (E & H2 & H3);
    [unfold Remaining; lia|lia|]. rewrite E in *. done.
Qed.

Lemma agree_varStringLen n fuel op start i last value rawLen : (5 ≤ i + fuel)%nat → (i ≤ 4)%nat →
  agree n (varStringLen_loop fuel op start i last value rawLen) (varStringLen_loop fuel op start i last value rawLen).
Proof.
  revert i last value rawLen. induction fuel as [|fuel IH]; intros i last value rawLen Hi H4; [lia|].
  cbn [varStringLen_loop]. apply agree_if; [auto with agree|]. case_bool_decide; [auto with agree|].
  apply agree_bind; [auto with agree|]. intros next. apply agree_if; [auto with agree|]. apply IH; lia.
Qed.

Lemma agree_readJSON n op : agree n (readJSONRawCompat op) (readJSONRawCompat op).
Proof.
  unfold readJSONRawCompat. apply agree_bind; [auto with agree|]. intros start.
  apply agree_bind; [auto with agree|]. intros first. apply agree_if.
  - apply agree_anyWithTag. intros. apply agree_readAny.
  - unfold readVarStringRawWithFirst. apply agree_bind; [apply agree_varStringLen; lia|]. intros [v raw].
    apply agree_if; auto with agree.
Qed.
#[export] Hint Resolve agree_readID agree_readAny agree_readJSON : agree.
