(* ===== verification/Content.v ===== *)
(** * internal/yupdate: item contents

    content.go and content_v1.go.  [Raw] is a byte slice the code compares with
    nil, hence an option; the other slices and strings are only read.  The
    grammar of what the reader accepts is [content_ok]; reading is lossless, since
    [Raw] is exactly the bytes that were consumed. *)
From S2P Require Import Prelude GoError Binary Varint GoText YTypes Decoder DecoderFacts.
Import varint.

Definition itemContentDeleted : Z := 1.
Definition itemContentJSON : Z := 2.
Definition itemContentBinary : Z := 3.
Definition itemContentString : Z := 4.
Definition itemContentEmbed : Z := 5.
Definition itemContentFormat : Z := 6.
Definition itemContentType : Z := 7.
Definition itemContentAny : Z := 8.
Definition itemContentDoc : Z := 9.

Definition typeRefYArray : Z := 0.
Definition typeRefYMap : Z := 1.
Definition typeRefYText : Z := 2.
Definition typeRefYXmlElement : Z := 3.
Definition typeRefYXmlFragment : Z := 4.
Definition typeRefYXmlHook : Z := 5.
Definition typeRefYXmlText : Z := 6.

Record ParsedContent := mkContent {
  Ref : Z; LengthVal : Z; Countable : bool; TypeRef : Z; TypeName : bytes;
  Raw : option bytes; Text : bytes; JSON : list bytes; Any : list bytes }.

#[export] Instance ParsedContent_eq_dec : EqDecision ParsedContent.
Proof. solve_decision. Defined.

#[export] Instance ParsedContent_Content : Content ParsedContent :=
  {| content_Length := LengthVal; content_IsCountable := Countable |}.

Definition readTypePayloadV1 (typeRef : Z) : RM bytes :=
  if (typeRef =? typeRefYArray) || (typeRef =? typeRefYMap) || (typeRef =? typeRefYText)
     || (typeRef =? typeRefYXmlFragment) || (typeRef =? typeRefYXmlText)
  then mret []
  else if (typeRef =? typeRefYXmlElement) || (typeRef =? typeRefYXmlHook)
  then readString "ReadTypePayload.key"
  else off ← getOffset; fail (wrapError "ReadTypePayload" off (Wrapped "%w: %d" yupdate_ErrUnknownTypeRef)).

Definition is_named_type (typeRef : Z) : bool := (typeRef =? typeRefYXmlElement) || (typeRef =? typeRefYXmlHook).

Definition readItemContentV1 (info : Z) : RM ParsedContent :=
  let ref := Z.land info ItemContentRefMask in
  if ref =? itemContentDeleted then
    length ← readVarUint "ReadContentDeleted";
    mret (mkContent itemContentDeleted length false 0 [] (Some (appendVarUintV1 [] length)) [] [] [])
  else if ref =? itemContentJSON then
    length ← readVarUint "ReadContentJSON.len";
    off ← getOffset;
    _ ← liftR (validateDecodedCollectionLength "ReadContentJSON.len" off length);
    '(values, raw) ← for_times (Z.to_nat length) (λ '(values, raw),
      value ← readString "ReadContentJSON.value";
      mret (values ++ [value], appendVarStringV1 raw value)) ([], appendVarUintV1 [] length);
    mret (mkContent itemContentJSON length true 0 [] (Some raw) [] values [])
  else if ref =? itemContentBinary then
    buf ← readBuf "ReadContentBinary";
    let raw := appendVarUintV1 [] (w32 (Z.of_nat (length buf))) in
    let raw := raw ++ buf in
    mret (mkContent itemContentBinary 1 true 0 [] (Some raw) [] [] [])
  else if ref =? itemContentString then
    value ← readString "ReadContentString";
    mret (mkContent itemContentString (utf16Length value) true 0 [] (Some (appendVarStringV1 [] value)) value [] [])
  else if ref =? itemContentEmbed then
    raw ← readJSONRawCompat "ReadContentEmbed";
    mret (mkContent itemContentEmbed 1 true 0 [] (Some raw) [] [] [])
  else if ref =? itemContentFormat then
    key ← readString "ReadContentFormat.key";
    valueRaw ← readJSONRawCompat "ReadContentFormat.value";
    let raw := appendVarStringV1 [] key in
    let raw := raw ++ valueRaw in
    mret (mkContent itemContentFormat 1 false 0 key (Some raw) [] [] [])
  else if ref =? itemContentType then
    typeRef ← readVarUint "ReadContentType.ref";
    typeName ← readTypePayloadV1 typeRef;
    let raw := appendVarUintV1 [] typeRef in
    let raw := if is_named_type typeRef then appendVarStringV1 raw typeName else raw in
    mret (mkContent itemContentType 1 true typeRef typeName (Some raw) [] [] [])
  else if ref =? itemContentAny then
    length ← readVarUint "ReadContentAny.len";
    off ← getOffset;
    _ ← liftR (validateDecodedCollectionLength "ReadContentAny.len" off length);
    '(values, raw) ← for_times (Z.to_nat length) (λ '(values, raw),
      valueRaw ← readAnyRaw "ReadContentAny.value";
      mret (values ++ [valueRaw], raw ++ valueRaw)) ([], appendVarUintV1 [] length);
    mret (mkContent itemContentAny length true 0 [] (Some raw) [] [] values)
  else if ref =? itemContentDoc then
    name ← readString "ReadContentDoc.guid";
    optsRaw ← readAnyRaw "ReadContentDoc.opts";
    let raw := appendVarStringV1 [] name in
    let raw := raw ++ optsRaw in
    mret (mkContent itemContentDoc 1 true 0 name (Some raw) [] [] [])
  else off ← getOffset; fail (wrapError "ReadItemContent" off (Wrapped "%w: %d" yupdate_ErrUnknownContentRef)).

(** ** content_v1.go *)

Definition AppendV1 (c : ParsedContent) (dst : bytes) : result bytes :=
  match Raw c with
  | None => Err (Wrapped "%w: ref=%d" yupdate_ErrUnsupportedContentEncode)
  | Some raw => Ok (dst ++ raw)
  end.

(** The copies share nothing with the original and are equal to it. *)
Definition clone (c : ParsedContent) : ParsedContent :=
  mkContent (Ref c) (LengthVal c) (Countable c) (TypeRef c) (TypeName c) (Raw c) (Text c) (JSON c) (Any c).

Definition encodeJSONStringArray (values : list bytes) : bytes :=
  fold_left appendVarStringV1 values (appendVarUintV1 [] (w32 (Z.of_nat (length values)))).

Definition encodeAnyArray (values : list bytes) : bytes :=
  fold_left app values (appendVarUintV1 [] (w32 (Z.of_nat (length values)))).

(** [l[start:end]]; out of range the code panics. *)
Definition slice {A} (start end_ : Z) (l : list A) : list A :=
  take (Z.to_nat (end_ - start)) (drop (Z.to_nat start) l).

Definition go_slice {A} (start end_ : Z) (l : list A) : result (list A) :=
  if (start <=? end_) && (end_ <=? Z.of_nat (length l)) then Ok (slice start end_ l)
  else Err (Opaque "panic: slice bounds out of range").

Definition sliceUTF16Window (s : bytes) (start length : Z) : result bytes :=
  let units := utf16_encode (runes s) in
  let end_ := start + length in
  if Z.of_nat (Datatypes.length units) <? end_ then Err yupdate_ErrInvalidSliceOffset
  else
    let window := slice start end_ units in
    match window with
    | [] => Ok []
    | _ => Ok (string_of_runes (utf16_decode window))
    end.

Definition SliceWindow (c : ParsedContent) (startOffset endTrim : Z) : result ParsedContent :=
  let length := LengthVal c in
  if length <=? startOffset + endTrim then Err yupdate_ErrInvalidSliceOffset
  else if (startOffset =? 0) && (endTrim =? 0) then Ok (clone c)
  else
    let newLen := w32 (length - startOffset - endTrim) in
    if Ref c =? itemContentDeleted then
      Ok (mkContent (Ref c) newLen (Countable c) (TypeRef c) (TypeName c)
            (Some (appendVarUintV1 [] newLen)) (Text c) (JSON c) (Any c))
    else if Ref c =? itemContentJSON then
      values ← go_slice startOffset (startOffset + newLen) (JSON c);
      Ok (mkContent (Ref c) (w32 (Z.of_nat (Datatypes.length values))) (Countable c) (TypeRef c) (TypeName c)
            (Some (encodeJSONStringArray values)) (Text c) values (Any c))
    else if Ref c =? itemContentString then
      match sliceUTF16Window (Text c) startOffset newLen with
      | Err err => Err err
      | Ok text =>
          Ok (mkContent (Ref c) (utf16Length text) (Countable c) (TypeRef c) (TypeName c)
                (Some (appendVarStringV1 [] text)) text (JSON c) (Any c))
      end
    else if Ref c =? itemContentAny then
      values ← go_slice startOffset (startOffset + newLen) (Any c);
      Ok (mkContent (Ref c) (w32 (Z.of_nat (Datatypes.length values))) (Countable c) (TypeRef c) (TypeName c)
            (Some (encodeAnyArray values)) (Text c) (JSON c) values)
    else Err (Wrapped "%w: ref=%d" yupdate_ErrUnsupportedContentSlice).

Definition Slice (c : ParsedContent) (diff : Z) : result ParsedContent := SliceWindow c diff 0.

(** ** What the reader accepts *)

Inductive content_ok : ParsedContent → Prop :=
| ok_deleted n : is_u32 n →
    content_ok (mkContent itemContentDeleted n false 0 [] (Some (Append [] n)) [] [] [])
| ok_json l : Z.of_nat (length l) <= maxDecodedCollectionLength → Forall str_ok l →
    content_ok (mkContent itemContentJSON (Z.of_nat (length l)) true 0 []
      (Some (Append [] (Z.of_nat (length l)) ++ concat (enc_str <$> l))) [] l [])
| ok_binary b : str_ok b →
    content_ok (mkContent itemContentBinary 1 true 0 [] (Some (enc_str b)) [] [] [])
| ok_string s : str_ok s →
    content_ok (mkContent itemContentString (utf16Length s) true 0 [] (Some (enc_str s)) s [] [])
| ok_embed v : json_value v →
    content_ok (mkContent itemContentEmbed 1 true 0 [] (Some v) [] [] [])
| ok_format key v : str_ok key → json_value v →
    content_ok (mkContent itemContentFormat 1 false 0 key (Some (enc_str key ++ v)) [] [] [])
| ok_type t : 0 <= t <= 6 → is_named_type t = false →
    content_ok (mkContent itemContentType 1 true t [] (Some (Append [] t)) [] [] [])
| ok_named_type t name : is_named_type t = true → str_ok name →
    content_ok (mkContent itemContentType 1 true t name (Some (Append [] t ++ enc_str name)) [] [] [])
| ok_any l : Z.of_nat (length l) <= maxDecodedCollectionLength → Forall any_value l →
    content_ok (mkContent itemContentAny (Z.of_nat (length l)) true 0 []
      (Some (Append [] (Z.of_nat (length l)) ++ concat l)) [] [] l)
| ok_doc name v : str_ok name → any_value v →
    content_ok (mkContent itemContentDoc 1 true 0 name (Some (enc_str name ++ v)) [] [] []).

Lemma content_ok_raw c : content_ok c → ∃ bs, Raw c = Some bs.
Proof. destruct 1; by eexists. Qed.

Lemma content_ok_ref c : content_ok c → 1 <= Ref c <= 9.
Proof. destruct 1; cbn; unfold itemContentDeleted, itemContentJSON, itemContentBinary, itemContentString,
  itemContentEmbed, itemContentFormat, itemContentType, itemContentAny, itemContentDoc; lia. Qed.

Lemma appendVarStrings_app l dst : fold_left appendVarStringV1 l dst = dst ++ concat (enc_str <$> l).
Proof. apply fold_left_concat, appendVarString_app. Qed.

(** The loop that collects values and their bytes. *)
Lemma reads_collect (m : RM bytes) (f : bytes → bytes → bytes) (enc : bytes → bytes) (Q : bytes → Prop) l vs raw :
  (∀ v, Q v → reads m (enc v) v) → (∀ raw v, f raw v = raw ++ enc v) → Forall Q l →
  reads (for_times (length l) (λ '(values, raw), value ← m; mret (values ++ [value], f raw value)) (vs, raw))
    (concat (enc <$> l)) (vs ++ l, raw ++ concat (enc <$> l)).
Proof.
  intros Hm Hf. revert vs raw. induction l as [|v l IH]; intros vs raw; cbn.
  - intros _. rewrite !app_nil_r. apply reads_ret.
  - intros [Hv Hl]%Forall_cons. eapply reads_bind; [eapply reads_bind_ret; [by apply Hm|apply reads_ret]|].
    rewrite Hf. replace (vs ++ v :: l) with ((vs ++ [v]) ++ l) by by rewrite <- app_assoc.
    rewrite app_assoc. by apply IH.
Qed.

Lemma parses_collect (m : RM bytes) (f : bytes → bytes → bytes) (enc : bytes → bytes) (Q : bytes → Prop) n vs raw :
  parses m (λ bs v, bs = enc v ∧ Q v) → (∀ raw v, f raw v = raw ++ enc v) →
  parses (for_times n (λ '(values, raw), value ← m; mret (values ++ [value], f raw value)) (vs, raw))
    (λ bs a, ∃ l, length l = n ∧ Forall Q l ∧ bs = concat (enc <$> l) ∧ a = (vs ++ l, raw ++ bs)).
Proof.
  intros Hm Hf. revert vs raw. induction n as [|n IH]; intros vs raw; cbn.
  - eapply parses_weaken; [apply parses_ret|]. intros bs a [-> ->]. exists []. by rewrite !app_nil_r.
  - eapply parses_weaken.
    + eapply parses_bind with (Q := λ s bs a, ∃ l, length l = n ∧ Forall Q l ∧ bs = concat (enc <$> l) ∧ a = (fst s ++ l, snd s ++ bs)).
      * eapply parses_bind; [exact Hm|]. intros v. apply parses_ret.
      * intros [vs1 raw1]. apply IH.
    + intros bs a (b1 & b2 & s1 & -> & (b3 & b4 & v & -> & (-> & Hv) & -> & ->) & l & Hl & HQ & -> & ->).
      exists (v :: l). cbn. rewrite app_nil_r, Hf, Hl, <- !app_assoc. by split_and!; [|constructor|..].
Qed.

(** Reading back the bytes of a content gives the content. *)
Lemma reads_content c bs info : content_ok c → Raw c = Some bs → Z.land info ItemContentRefMask = Ref c →
  reads (readItemContentV1 info) bs c.
Proof.
  intros Hc Hraw Href. unfold readItemContentV1. rewrite Href. cbn zeta.
  destruct Hc; cbn in Hraw; injection Hraw as <-; cbn [Ref]; cbn -[for_times readVarUint readString readBuf validateDecodedCollectionLength].
  - eapply reads_bind_ret; [by apply reads_readVarUint|]. apply reads_ret.
  - assert (is_u32 (Z.of_nat (length l))) by (unfold maxDecodedCollectionLength in *; u32).
    eapply reads_bind; [by apply reads_readVarUint|]. apply reads_offset. intros off.
    rewrite <- (app_nil_l (concat _)). eapply reads_bind.
    { apply reads_lift. unfold validateDecodedCollectionLength. by cmp_known. }
    rewrite Nat2Z.id. eapply reads_bind_ret.
    { by apply (reads_collect _ _ enc_str str_ok); [apply reads_readString|apply appendVarString_app|]. }
    apply reads_ret.
  - eapply reads_bind_ret; [by apply reads_readBuf|]. apply reads_ret.
  - eapply reads_bind_ret; [by apply reads_readString|]. apply reads_ret.
  - eapply reads_bind_ret; [by apply reads_json_value|]. apply reads_ret.
  - eapply reads_bind; [by apply reads_readString|]. eapply reads_bind_ret; [by apply reads_json_value|]. apply reads_ret.
  - eapply reads_bind_ret; [apply reads_readVarUint; u32|].
    assert (t = 0 ∨ t = 1 ∨ t = 2 ∨ t = 3 ∨ t = 4 ∨ t = 5 ∨ t = 6) as Ht by lia.
    unfold readTypePayloadV1.
    destruct Ht as [->|[->|[->|[->|[->|[->| ->]]]]]]; try done; cbn; eapply reads_bind_ret; [apply reads_ret..|]; apply reads_ret.
  - assert (t = typeRefYXmlElement ∨ t = typeRefYXmlHook) as Ht.
    { unfold is_named_type in H. apply orb_true_iff in H as [?%Z.eqb_eq|?%Z.eqb_eq]; auto. }
    eapply reads_bind; [apply reads_readVarUint; destruct Ht as [-> | ->]; unfold typeRefYXmlElement, typeRefYXmlHook; u32|].
    rewrite H. eapply reads_bind_ret.
    + destruct Ht as [-> | ->]; by apply reads_readString.
    + unfold appendVarUintV1. rewrite appendVarString_app. apply reads_ret.
  - assert (is_u32 (Z.of_nat (length l))) by (unfold maxDecodedCollectionLength in *; u32).
    eapply reads_bind; [by apply reads_readVarUint|]. apply reads_offset. intros off.
    rewrite <- (app_nil_l (concat _)). eapply reads_bind.
    { apply reads_lift. unfold validateDecodedCollectionLength. by cmp_known. }
    rewrite Nat2Z.id.
    pose proof (reads_collect (readAnyRaw "ReadContentAny.value") app id any_value l []
      (appendVarUintV1 [] (Z.of_nat (length l)))) as Hr. rewrite list_fmap_id in Hr.
    eapply reads_bind_ret; [apply Hr; [intros; by apply reads_any_value|done|done]|]. apply reads_ret.
  - eapply reads_bind; [by apply reads_readString|]. eapply reads_bind_ret; [by apply reads_any_value|]. apply reads_ret.
Qed.

Lemma parses_typePayload t : is_u32 t → parses (readTypePayloadV1 t) (λ bs name,
  (is_named_type t = false ∧ 0 <= t <= 6 ∧ bs = [] ∧ name = []) ∨
  (is_named_type t = true ∧ bs = enc_str name ∧ str_ok name)).
Proof.
  intros Ht. unfold readTypePayloadV1. fold (is_named_type t).
  destruct (is_named_type t) eqn:Hn.
  - assert (t = typeRefYXmlElement ∨ t = typeRefYXmlHook) as Hcase.
    { unfold is_named_type in Hn. apply orb_true_iff in Hn as [?%Z.eqb_eq|?%Z.eqb_eq]; auto. }
    destruct Hcase as [-> | ->]; (eapply parses_weaken; [apply parses_readString|]; intros ? ? [-> ?]; by right).
  - destruct (_ || _) eqn:E.
    + eapply parses_weaken; [apply parses_ret|]. intros bs a [-> ->]. left. split_and!; [done| | |done..];
        rewrite !orb_true_iff, !Z.eqb_eq in E; unfold typeRefYArray, typeRefYMap, typeRefYText,
          typeRefYXmlFragment, typeRefYXmlText in E; lia.
    + apply parses_offset. intros off. eapply parses_weaken; [apply parses_fail|done].
Qed.

(** The bound on a collection. *)
Lemma parses_validate op off n :
  parses (liftR (validateDecodedCollectionLength op off n)) (λ bs _, bs = [] ∧ n <= maxDecodedCollectionLength).
Proof.
  eapply parses_weaken; [apply parses_lift|]. unfold validateDecodedCollectionLength.
  intros bs a [-> E]. split; [done|]. by destruct (Z.leb_spec n maxDecodedCollectionLength).
Qed.

Lemma parses_json_content : parses (
    length ← readVarUint "ReadContentJSON.len";
    off ← getOffset;
    _ ← liftR (validateDecodedCollectionLength "ReadContentJSON.len" off length);
    '(values, raw) ← for_times (Z.to_nat length) (λ '(values, raw),
      value ← readString "ReadContentJSON.value";
      mret (values ++ [value], appendVarStringV1 raw value)) ([], appendVarUintV1 [] length);
    mret (mkContent itemContentJSON length true 0 [] (Some raw) [] values []))
  (λ bs c, content_ok c ∧ Raw c = Some bs ∧ Ref c = itemContentJSON).
Proof.
  eapply parses_weaken.
  - eapply parses_bind; [apply parses_readVarUint|]. intros n. apply parses_offset. intros off.
    eapply parses_bind; [apply parses_validate|]. intros u.
    eapply parses_bind with (Q := λ s bs c, bs = [] ∧
      c = mkContent itemContentJSON n true 0 [] (Some (snd s)) [] (fst s) []); [|intros [vs raw]; apply parses_ret].
    apply (parses_collect _ _ enc_str str_ok); [apply parses_readString|apply appendVarString_app].
  - intros bs c (b1 & b2 & n & -> & (Hn & ->) & b3 & b4 & u & -> & (-> & Hmax) & b5 & b6 & [vs raw] & -> &
      (l & Hl & Hf & -> & [= -> ->]) & -> & ->). cbn. rewrite app_nil_r.
    assert (n = Z.of_nat (length l)) as -> by (unfold is_u32 in Hn; lia). by split; [constructor|].
Qed.

Lemma parses_any_content : parses (
    length ← readVarUint "ReadContentAny.len";
    off ← getOffset;
    _ ← liftR (validateDecodedCollectionLength "ReadContentAny.len" off length);
    '(values, raw) ← for_times (Z.to_nat length) (λ '(values, raw),
      valueRaw ← readAnyRaw "ReadContentAny.value";
      mret (values ++ [valueRaw], raw ++ valueRaw)) ([], appendVarUintV1 [] length);
    mret (mkContent itemContentAny length true 0 [] (Some raw) [] [] values))
  (λ bs c, content_ok c ∧ Raw c = Some bs ∧ Ref c = itemContentAny).
Proof.
  eapply parses_weaken.
  - eapply parses_bind; [apply parses_readVarUint|]. intros n. apply parses_offset. intros off.
    eapply parses_bind; [apply parses_validate|]. intros u.
    eapply parses_bind with (Q := λ s bs c, bs = [] ∧
      c = mkContent itemContentAny n true 0 [] (Some (snd s)) [] [] (fst s)); [|intros [vs raw]; apply parses_ret].
    apply (parses_collect _ app id any_value); [|done]. eapply parses_weaken; [apply parses_readAnyRaw|].
    by intros ? ? [-> ?].
  - intros bs c (b1 & b2 & n & -> & (Hn & ->) & b3 & b4 & u & -> & (-> & Hmax) & b5 & b6 & [vs raw] & -> &
      (l & Hl & Hf & -> & [= -> ->]) & -> & ->). cbn. rewrite app_nil_r, list_fmap_id.
    assert (n = Z.of_nat (length l)) as -> by (unfold is_u32 in Hn; lia). by split; [constructor|].
Qed.

Ltac use_ref := match goal with E : Z.land _ _ = _ |- _ => rewrite E end.

(** Whatever is accepted is a content, and [Raw] is what was read. *)
Lemma parses_content info : parses (readItemContentV1 info) (λ bs c,
  content_ok c ∧ Raw c = Some bs ∧ Ref c = Z.land info ItemContentRefMask).
Proof.
  unfold readItemContentV1. cbn zeta.
  case_if.
  { use_ref. eapply parses_weaken; [eapply parses_bind; [apply parses_readVarUint|intros; apply parses_ret]|].
    intros bs c (b1 & b2 & w & -> & (Hn & ->) & -> & ->). rewrite app_nil_r. by split; [constructor|]. }
  case_if; [use_ref; apply parses_json_content|].
  case_if.
  { use_ref. eapply parses_weaken; [eapply parses_bind; [apply parses_readBuf|intros; apply parses_ret]|].
    intros bs c (b1 & b2 & w & -> & (-> & Hn) & -> & ->). rewrite app_nil_r, append_buf_app. by split; [constructor|]. }
  case_if.
  { use_ref. eapply parses_weaken; [eapply parses_bind; [apply parses_readString|intros; apply parses_ret]|].
    intros bs c (b1 & b2 & w & -> & (-> & Hn) & -> & ->). rewrite app_nil_r. by split; [constructor|]. }
  case_if.
  { use_ref. eapply parses_weaken; [eapply parses_bind; [apply parses_readJSONRawCompat|intros; apply parses_ret]|].
    intros bs c (b1 & b2 & w & -> & (-> & Hn) & -> & ->). rewrite app_nil_r. by split; [constructor|]. }
  case_if.
  { use_ref. eapply parses_weaken.
    - eapply parses_bind; [apply parses_readString|]. intros key.
      eapply parses_bind; [apply parses_readJSONRawCompat|]. intros v. apply parses_ret.
    - intros bs c (b1 & b2 & k & -> & (-> & Hk) & b3 & b4 & v & -> & (-> & Hv) & -> & ->). rewrite app_nil_r.
      by split; [constructor|]. }
  case_if.
  { use_ref. eapply parses_weaken.
    - eapply parses_bind_dep; [apply parses_readVarUint|]. intros t bs [Ht _].
      eapply parses_bind; [by apply parses_typePayload|intros; apply parses_ret].
    - intros bs c (b1 & b2 & t & -> & (Ht & ->) & b3 & b4 & name & -> & Hp & -> & ->). rewrite app_nil_r.
      destruct Hp as [(Hn & H07 & -> & ->)|(Hn & -> & Hs)]; rewrite Hn.
      + rewrite app_nil_r. by split; [constructor|].
      + unfold appendVarUintV1. rewrite appendVarString_app. by split; [constructor|]. }
  case_if; [use_ref; apply parses_any_content|].
  case_if.
  { use_ref. eapply parses_weaken.
    - eapply parses_bind; [apply parses_readString|]. intros key.
      eapply parses_bind; [apply parses_readAnyRaw|]. intros v. apply parses_ret.
    - intros bs c (b1 & b2 & k & -> & (-> & Hk) & b3 & b4 & v & -> & (-> & Hv) & -> & ->). rewrite app_nil_r.
      by split; [constructor|]. }
  apply parses_offset. intros off. eapply parses_weaken; [apply parses_fail|done].
Qed.

(** ** Slicing *)

Lemma go_slice_Ok {A} start n (l : list A) : 0 <= start → 0 <= n → start + n <= Z.of_nat (length l) →
  go_slice start (start + n) l = Ok (slice start (start + n) l) ∧
  Z.of_nat (length (slice start (start + n) l)) = n.
Proof.
  intros Hs Hn Hl. unfold go_slice, slice. cmp_known. split; [done|].
  rewrite length_take, length_drop. lia.
Qed.

Lemma slice_Forall {A} (P : A → Prop) a b l : Forall P l → Forall P (slice a b l).
Proof. intros H. by apply Forall_take, Forall_drop. Qed.

Lemma fold_left_app_concat (l : list bytes) dst : fold_left app l dst = dst ++ concat l.
Proof. pose proof (fold_left_concat app id l dst (λ _ _, eq_refl)) as H. by rewrite list_fmap_id in H. Qed.

(** A window of a string keeps its length in UTF-16 units, even when it cuts a
    surrogate pair. *)
Lemma sliceUTF16Window_spec s start n : str_ok s → 0 <= start → 0 < n → start + n <= utf16Length s →
  3 * utf16Length s < 4294967296 →
  ∃ text, sliceUTF16Window s start n = Ok text ∧ str_ok text ∧ utf16Length text = n.
Proof.
  intros Hs H0 Hn Hl Hmax. rewrite utf16Length_eq in * by done. destruct Hs as [_ Hb].
  destruct (runes_spec s Hb) as [Hr _]. destruct (utf16_encode_length _ Hr) as [Hlen Hu16].
  unfold sliceUTF16Window. rewrite Hlen. cmp_known.
  destruct (go_slice_Ok start n (utf16_encode (runes s))) as [_ Hw]; [lia..|].
  set (window := slice _ _ _) in *. assert (Forall is_u16 window) as Hwu by by apply slice_Forall.
  destruct (utf16_decode_spec window Hwu) as [Hd1 Hd2].
  destruct window as [|u w] eqn:Ew; [cbn in Hw; lia|]. rewrite <- Ew in *.
  destruct (string_of_runes_spec _ Hd1) as [Hs1 Hs2].
  assert (str_ok (string_of_runes (utf16_decode window))) as Hok by (split; [u32|done]).
  eexists. split; [by rewrite Ew|]. rewrite <- Ew in *. split; [done|].
  rewrite utf16Length_eq by done. rewrite runes_string_of_runes by done. lia.
Qed.

Lemma content_ok_length c : content_ok c → is_u32 (LengthVal c).
Proof.
  destruct 1; cbn; unfold maxDecodedCollectionLength in *; try u32.
  rewrite utf16Length_eq by done. destruct H as [Hl Hb]. pose proof (runes_spec s Hb) as [_ ?].
  pose proof (units_nonneg (runes s)). u32.
Qed.

(** A string must be short enough for its window, whose lone surrogates become
    three bytes each, to stay a string. *)
Definition sliceable (c : ParsedContent) : Prop := Ref c = itemContentString → 3 * LengthVal c < 4294967296.

(** The contents that can be cut are cut to the window; all windows of the others
    are empty or whole. *)
Lemma SliceWindow_spec c a b : content_ok c → 0 <= a → 0 <= b → sliceable c →
  if LengthVal c <=? a + b then SliceWindow c a b = Err yupdate_ErrInvalidSliceOffset
  else ∃ c', SliceWindow c a b = Ok c' ∧ content_ok c' ∧ LengthVal c' = LengthVal c - a - b ∧
    Ref c' = Ref c ∧ Countable c' = Countable c.
Proof.
  intros Hc Ha Hb Hmax. unfold SliceWindow. case_if; [done|].
  destruct (Z.eqb_spec a 0); [destruct (Z.eqb_spec b 0)|]; cbn [andb].
  { exists (clone c). assert (clone c = c) as -> by by destruct c. split_and!; [done..|lia|done|done]. }
  all: rewrite w32_small by (pose proof (content_ok_length c Hc); u32).
  all: destruct Hc; cbn [Ref LengthVal Countable TypeRef TypeName Text JSON Any] in *;
    try lia; cbn [Z.eqb Pos.eqb itemContentDeleted itemContentJSON itemContentString itemContentAny].
  1, 5: eexists; split_and!; [done|constructor; unfold is_u32 in *; lia|done..].
  1, 4: destruct (go_slice_Ok a (Z.of_nat (length l) - a - b) l) as [-> Hl]; [lia..|];
    unfold mbind, result_bind; set (w := slice _ _ _) in *;
    (assert (Forall str_ok w) by by apply slice_Forall);
    eexists; (split; [done|]); unfold encodeJSONStringArray, appendVarUintV1;
    rewrite appendVarStrings_app, w32_small by (unfold maxDecodedCollectionLength in *; u32);
    (split_and!; [constructor; [lia|done]|cbn; lia|done..]).
  1, 3: destruct (sliceUTF16Window_spec s a (utf16Length s - a - b)) as (t & -> & Ht & Hl); [done|lia|lia|lia|by apply Hmax|];
    eexists; split_and!; [done|by constructor|done..].
  all: destruct (go_slice_Ok a (Z.of_nat (length l) - a - b) l) as [-> Hl]; [lia..|];
    unfold mbind, result_bind; set (w := slice _ _ _) in *;
    (assert (Forall any_value w) by by apply slice_Forall);
    eexists; (split; [done|]); unfold encodeAnyArray, appendVarUintV1;
    rewrite fold_left_app_concat, w32_small by (unfold maxDecodedCollectionLength in *; u32);
    (split_and!; [constructor; [lia|done]|cbn; lia|done..]).
Qed.

(** Reading a content never runs out of fuel. *)
Lemma agree_readItemContentV1 n info : agree n (readItemContentV1 info) (readItemContentV1 info).
Proof.
  unfold readItemContentV1, readTypePayloadV1, validateDecodedCollectionLength. cbn zeta.
  repeat (apply agree_if); auto 8 with agree.
  all: apply agree_bind; [auto with agree|]; intros len; apply agree_bind; [auto with agree|]; intros off;
    apply agree_bind; [destruct (_ <=? _); auto with agree|]; intros _;
    (apply agree_bind; [apply agree_for_times; intros [vs raw]; auto with agree|]); intros [vs raw]; auto with agree.
Qed.
