(* ===== verification/Update.v ===== *)
(** * internal/yupdate: reading and writing V1 updates

    reader.go (the lazy reader and [DecodeV1]), lazy_writer_v1.go, encode_v1.go
    and the struct slicing of merge.go.  The reader and the writer are state
    records; their methods return the state also on failure.  The loops of the
    reader have the buffer's length as fuel: every round that does not end the
    loop consumes a byte, and [Decode_total] (UpdateFacts) shows that the fuel is
    never exhausted. *)
From S2P Require Import Prelude GoError Binary Ranges IdSet Varint GoText YTypes DeleteSet Decoder Content.
Import varint.

(** The items of an update hold a [ParsedContent]. *)
Abbreviation UItem := (Item ParsedContent).
Abbreviation UStruct := (Struct ParsedContent).

#[export] Instance Item_eq_dec : EqDecision UItem.
Proof. solve_decision. Defined.
#[export] Instance UStruct_eq_dec : EqDecision UStruct.
Proof. solve_decision. Defined.

Definition struct_clock (s : UStruct) : Z := id_Clock (struct_ID s).
Definition struct_client (s : UStruct) : Z := id_Client (struct_ID s).

Definition is_Some_b {A} (o : option A) : bool := match o with Some _ => true | None => false end.

(** ** The lazy reader *)

Record DecodedUpdate := mkDecoded { Structs : list UStruct; du_DeleteSet : option DeleteSet }.

Record LazyReaderV1 := mkLazy {
  decoder : Reader; remainingClients : Z; remainingStructs : Z;
  currentClient : Z; currentClock : Z; current : option UStruct;
  filterSkips : bool; structsExhausted : bool; deleteSetConsumed : bool }.

(** The state monad of the reader's methods. *)
Definition LM (A : Type) : Type := LazyReaderV1 → result A * LazyReaderV1.

#[export] Instance LM_ret : MRet LM := λ A a r, (Ok a, r).
#[export] Instance LM_bind : MBind LM := λ A B f m r,
  match m r with
  | (Ok a, r') => f a r'
  | (Err e, r') => (Err e, r')
  end.

Definition failL {A} (e : error) : LM A := λ r, (Err e, r).
Definition getL : LM LazyReaderV1 := λ r, (Ok r, r).
Definition modifyL (f : LazyReaderV1 → LazyReaderV1) : LM unit := λ r, (Ok tt, f r).
Definition liftL {A} (m : result A) : LM A := λ r, (m, r).

Definition set_decoder (r : LazyReaderV1) (d : Reader) : LazyReaderV1 :=
  mkLazy d (remainingClients r) (remainingStructs r) (currentClient r) (currentClock r) (current r)
    (filterSkips r) (structsExhausted r) (deleteSetConsumed r).

Definition dec {A} (m : RM A) : LM A := λ r,
  let '(res, d) := m (decoder r) in (res, set_decoder r d).

Definition exhaust (r : LazyReaderV1) : LazyReaderV1 :=
  mkLazy (decoder r) (remainingClients r) (remainingStructs r) (currentClient r) (currentClock r) (current r)
    (filterSkips r) true (deleteSetConsumed r).

Definition enter_block (count client clock : Z) (r : LazyReaderV1) : LazyReaderV1 :=
  mkLazy (decoder r) (w32 (remainingClients r - 1)) count client clock (current r)
    (filterSkips r) (structsExhausted r) (deleteSetConsumed r).

Definition take_struct (r : LazyReaderV1) : LazyReaderV1 :=
  mkLazy (decoder r) (remainingClients r) (w32 (remainingStructs r - 1)) (currentClient r) (currentClock r) (current r)
    (filterSkips r) (structsExhausted r) (deleteSetConsumed r).

Definition add_clock (length : Z) (r : LazyReaderV1) : LazyReaderV1 :=
  mkLazy (decoder r) (remainingClients r) (remainingStructs r) (currentClient r) (w32 (currentClock r + length)) (current r)
    (filterSkips r) (structsExhausted r) (deleteSetConsumed r).

Definition set_current (s : option UStruct) (r : LazyReaderV1) : LazyReaderV1 :=
  mkLazy (decoder r) (remainingClients r) (remainingStructs r) (currentClient r) (currentClock r) s
    (filterSkips r) (structsExhausted r) (deleteSetConsumed r).

Definition consume_deletes (r : LazyReaderV1) : LazyReaderV1 :=
  mkLazy (decoder r) (remainingClients r) (remainingStructs r) (currentClient r) (currentClock r) (current r)
    (filterSkips r) (structsExhausted r) true.

(** Where the item is attached: read only when it has no origin. *)
Definition readParent (info : Z) : RM (ParentRef * bytes) :=
  if Z.land info (Z.lor ItemHasOrigin ItemHasRightOrigin) =? 0 then
    isRoot ← readParentInfo;
    parent ← (if isRoot : bool then
        name ← readString "ReadParentRoot"; liftR (NewParentRoot name)
      else
        parentID ← readID "ReadParentID"; mret (NewParentID parentID));
    parentSub ← (if negb (Z.land info ItemHasParentSub =? 0) then readString "ReadParentSub" else mret []);
    mret (parent, parentSub)
  else mret (mkParentRef [] None, []).

Definition readOptID (has : bool) (op : string) : RM (option ID) :=
  if has then id ← readID op; mret (Some id) else mret None.

(** The part of [readItem] that consumes input, for the item at [id]. *)
Definition readItemAt (id : ID) (info : Z) : RM UItem :=
  origin ← readOptID (negb (Z.land info ItemHasOrigin =? 0)) "ReadOrigin";
  rightOrigin ← readOptID (negb (Z.land info ItemHasRightOrigin =? 0)) "ReadRightOrigin";
  '(parent, parentSub) ← readParent info;
  content ← readItemContentV1 info;
  liftR (NewItemOwnedIDs id (Some content) (mkItemOptions origin rightOrigin parent parentSub None 0)).

Definition readItem (info : Z) : LM UStruct :=
  r ← getL;
  item ← dec (readItemAt (mkID (currentClient r) (currentClock r)) info);
  _ ← modifyL (add_clock (struct_Length (SItem item)));
  mret (SItem item).

(** The [for r.remainingStructs == 0] loop; true when no block is left. *)
Fixpoint nextBlock (fuel : nat) : LM bool :=
  match fuel with
  | O => failL FuelExhausted
  | S fuel =>
      r ← getL;
      if remainingStructs r =? 0 then
        if remainingClients r =? 0 then _ ← modifyL exhaust; mret true
        else
          count ← dec (readVarUint "ReadStructCount");
          client ← dec (readVarUint "ReadClient");
          clock ← dec (readVarUint "ReadStartClock");
          _ ← modifyL (enter_block count client clock);
          nextBlock fuel
      else mret false
  end.

Definition readStruct : LM UStruct :=
  info ← dec readInfo;
  _ ← modifyL take_struct;
  if info =? 10 then
    length ← dec (readVarUint "ReadSkipLength");
    r ← getL;
    skip ← liftL (NewSkip (mkID (currentClient r) (currentClock r)) length);
    _ ← modifyL (add_clock length);
    mret skip
  else if negb (Z.land info ItemContentRefMask =? 0) then readItem info
  else
    length ← dec (readVarUint "ReadGCLength");
    r ← getL;
    gc ← liftL (NewGC (mkID (currentClient r) (currentClock r)) length);
    _ ← modifyL (add_clock length);
    mret gc.

Definition fuel_of (r : LazyReaderV1) : nat := S (S (length (data (decoder r)))).

Definition nextStruct : LM (option UStruct) := λ r,
  (finished ← nextBlock (fuel_of r);
   if finished : bool then mret None else s ← readStruct; mret (Some s)) r.

Definition isSkip (s : UStruct) : bool := bool_decide (struct_Kind s = KindSkip).

Fixpoint advance_loop (fuel : nat) : LM unit :=
  match fuel with
  | O => failL FuelExhausted
  | S fuel =>
      next ← nextStruct;
      r ← getL;
      match next with
      | Some s => if filterSkips r && isSkip s then advance_loop fuel else modifyL (set_current next)
      | None => modifyL (set_current next)
      end
  end.

Definition advanceL : LM unit := λ r, advance_loop (fuel_of r) r.

Definition LazyReader_Next : LM unit := advanceL.

Definition LazyReader_Current (r : LazyReaderV1) : option UStruct := current r.

Definition NewLazyReaderV1 (update : bytes) (filterSkips : bool) : result LazyReaderV1 :=
  match readVarUint "ReadClientBlockCount" (NewReader update) with
  | (Err err, _) => Err err
  | (Ok count, d) =>
      match advanceL (mkLazy d count 0 0 0 None filterSkips false false) with
      | (Err err, _) => Err err
      | (Ok _, r) => Ok r
      end
  end.

(** A nil delete set without error when it was already read. *)
Definition LazyReader_ReadDeleteSet : LM (option DeleteSet) :=
  r ← getL;
  if negb (structsExhausted r) then failL yupdate_ErrDeleteSetBeforeStructsEnd
  else if deleteSetConsumed r then mret None
  else
    ds ← dec ReadDeleteSetBlockV1;
    _ ← modifyL consume_deletes;
    r ← getL;
    if negb (Remaining (decoder r) =? 0)
    then failL (wrapError "ReadDeleteSet.trailing" (Offset (decoder r)) yupdate_ErrTrailingBytes)
    else mret (Some ds).

(** [for current := reader.Current(); current != nil; ... { f; reader.Next() }]
    collecting the structs. *)
Fixpoint collect_loop (fuel : nat) (structs : list UStruct) : LM (list UStruct) :=
  match fuel with
  | O => failL FuelExhausted
  | S fuel =>
      r ← getL;
      match LazyReader_Current r with
      | None => mret structs
      | Some current => _ ← LazyReader_Next; collect_loop fuel (structs ++ [current])
      end
  end.

Definition DecodeV1 (update : bytes) : result DecodedUpdate :=
  match NewLazyReaderV1 update false with
  | Err err => Err err
  | Ok reader =>
      fst ((structs ← collect_loop (fuel_of reader) [];
            ds ← LazyReader_ReadDeleteSet;
            mret (mkDecoded structs ds)) reader)
  end.

(** ** Slicing a struct (merge.go) *)

Definition originForSlice (item : UItem) (diff : Z) : option ID :=
  if diff =? 0 then Origin item
  else
    match ID_Offset (bs_id (item_base item)) (diff - 1) with
    | Err _ => None
    | Ok origin => Some origin
    end.

Definition sliceStructWindowV1 (current : UStruct) (startOffset endTrim : Z) : result UStruct :=
  let length := struct_Length current in
  if length <=? startOffset + endTrim then Err yupdate_ErrInvalidSliceOffset
  else if (startOffset =? 0) && (endTrim =? 0) then Ok current
  else
    let newLength := w32 (length - startOffset - endTrim) in
    if newLength =? 0 then Err yupdate_ErrInvalidSliceOffset
    else
      id ← ID_Offset (struct_ID current) startOffset;
      match current with
      | GC _ => NewGC id newLength
      | Skip _ => NewSkip id newLength
      | SItem value =>
          nextContent ← SliceWindow (ItemContent value) startOffset endTrim;
          SItem <$> NewItem id (Some nextContent)
            (mkItemOptions (originForSlice value startOffset) (RightOrigin value) (Parent value)
               (ParentSub value) (Redone value) (Info value))
      end.

Definition sliceStructV1 (current : UStruct) (diff : Z) : result UStruct :=
  sliceStructWindowV1 current diff 0.

(** ** Writing *)

Definition appendItemV1 (dst : bytes) (item : UItem) : result bytes :=
  let content := ItemContent item in
  let no_origin := negb (is_Some_b (Origin item)) && negb (is_Some_b (RightOrigin item)) in
  let has_sub := negb (bool_decide (ParentSub item = [])) in
  let header := mkItemHeader (Ref content) (is_Some_b (Origin item)) (is_Some_b (RightOrigin item))
                  (no_origin && has_sub) in
  info ← ItemHeader_Encode header;
  let dst := dst ++ [info] in
  let dst := match Origin item with None => dst | Some id => AppendID dst id end in
  let dst := match RightOrigin item with None => dst | Some id => AppendID dst id end in
  dst ← (if no_origin then
           dst ← match ParentRef_Kind (Parent item) with
                 | ParentRoot => Ok (appendVarStringV1 (appendVarUintV1 dst 1) (ParentRef_Root (Parent item)))
                 | ParentID => Ok (AppendID (appendVarUintV1 dst 0) (fst (ParentRef_ID (Parent item))))
                 | ParentNone => Err (Opaque "yupdate: item sem parent wire")
                 end;
           Ok (if has_sub then appendVarStringV1 dst (ParentSub item) else dst)
         else Ok dst);
  AppendV1 content dst.

Definition appendStructV1 (dst : bytes) (current : UStruct) : result bytes :=
  match current with
  | GC b => Ok (appendVarUintV1 (dst ++ [0]) (bs_length b))
  | Skip b => Ok (appendVarUintV1 (dst ++ [10]) (bs_length b))
  | SItem item => appendItemV1 dst item
  end.

Definition appendStructRangeV1 (dst : bytes) (current : UStruct) (startOffset endTrim : Z) : result bytes :=
  if (startOffset =? 0) && (endTrim =? 0) then appendStructV1 dst current
  else
    sliced ← sliceStructWindowV1 current startOffset endTrim;
    appendStructV1 dst sliced.

Record lazyWriterV1 := mkWriter {
  currClient : Z; written : Z; fragmentCount : Z; w_current : bytes; w_body : bytes }.

Definition newLazyWriterV1 : lazyWriterV1 := mkWriter 0 0 0 [] [].

Definition writer_flush (w : lazyWriterV1) : lazyWriterV1 :=
  if written w =? 0 then w
  else mkWriter (currClient w) 0 (w32 (fragmentCount w + 1)) []
         (appendVarUintV1 (w_body w) (written w) ++ w_current w).

(** [w.current] is lost when the struct cannot be written. *)
Definition writer_write (w : lazyWriterV1) (current : UStruct) (startOffset endTrim : Z)
    : lazyWriterV1 * option error :=
  let w := if (0 <? written w) && negb (currClient w =? struct_client current) then writer_flush w else w in
  let start :=
    if written w =? 0 then
      startID ← ID_Offset (struct_ID current) startOffset;
      Ok (mkWriter (struct_client current) (written w) (fragmentCount w)
            (appendVarUintV1 (appendVarUintV1 [] (struct_client current)) (id_Clock startID)) (w_body w))
    else Ok w in
  match start with
  | Err err => (w, Some err)
  | Ok w =>
      match appendStructRangeV1 (w_current w) current startOffset endTrim with
      | Err err => (mkWriter (currClient w) (written w) (fragmentCount w) [] (w_body w), Some err)
      | Ok bs => (mkWriter (currClient w) (w32 (written w + 1)) (fragmentCount w) bs (w_body w), None)
      end
  end.

Definition writer_finish (w : lazyWriterV1) (dst : bytes) : result bytes * lazyWriterV1 :=
  let w := writer_flush w in
  let dst := appendVarUintV1 dst (fragmentCount w) in
  let dst := dst ++ w_body w in
  (Ok dst, mkWriter 0 0 0 [] []).

(** *** Grouping and encoding *)

(** The stable sort by clock: insertion from the right, equal clocks keep their order. *)
Fixpoint insert_by_clock (s : UStruct) (l : list UStruct) : list UStruct :=
  match l with
  | [] => [s]
  | t :: l' => if struct_clock s <=? struct_clock t then s :: l else t :: insert_by_clock s l'
  end.

Definition sort_by_clock (l : list UStruct) : list UStruct := foldr insert_by_clock [] l.

(** The body of the loop: the groups and the clients whose group needs sorting. *)
Definition group_step (st : gmap Z (list UStruct) * gset Z) (current : UStruct)
    : gmap Z (list UStruct) * gset Z :=
  let '(groups, needsSort) := st in
  let client := struct_client current in
  let group := default [] (groups !! client) in
  let needsSort :=
    match last group with
    | Some prev => if struct_clock current <? struct_clock prev then {[ client ]} ∪ needsSort else needsSort
    | None => needsSort
    end in
  (<[client := group ++ [current]]> groups, needsSort).

Definition groupStructsByClient (structs : list UStruct) : gmap Z (list UStruct) :=
  let '(groups, needsSort) := fold_left group_step structs (∅, ∅) in
  map_imap (λ client group, Some (if decide (client ∈ needsSort) then sort_by_clock group else group)) groups.

Fixpoint write_all (w : lazyWriterV1) (structs : list UStruct) : result lazyWriterV1 :=
  match structs with
  | [] => Ok w
  | current :: structs =>
      match writer_write w current 0 0 with
      | (_, Some err) => Err err
      | (w, None) => write_all w structs
      end
  end.

Definition desc_keys {A} (m : gmap Z A) : list Z := rev (merge_sort Z.le (map_to_list m).*1).

Definition encodeStructGroupsV1 (groups : gmap Z (list UStruct)) : result bytes :=
  let clients := desc_keys groups in
  writer ← fold_result (λ w client, write_all w (default [] (groups !! client))) clients newLazyWriterV1;
  fst (writer_finish writer []).

Definition encodeEmptyUpdateV1 : bytes := AppendDeleteSetBlockV1 (Append [] 0) (Some NewDeleteSet).

Definition EncodeV1 (decoded : option DecodedUpdate) : result bytes :=
  match decoded with
  | None => Ok encodeEmptyUpdateV1
  | Some decoded =>
      let clients := groupStructsByClient (Structs decoded) in
      out ← encodeStructGroupsV1 clients;
      Ok (AppendDeleteSetBlockV1 out (du_DeleteSet decoded))
  end.

(** ** Calls that end the operation on an error *)

(** The reader moves on; its error ends the operation. *)
Definition read_next (r : LazyReaderV1) : result LazyReaderV1 :=
  match LazyReader_Next r with
  | (Ok _, r) => Ok r
  | (Err err, _) => Err err
  end.

Definition write_struct (w : lazyWriterV1) (current : UStruct) (startOffset endTrim : Z) : result lazyWriterV1 :=
  match writer_write w current startOffset endTrim with
  | (w, None) => Ok w
  | (_, Some err) => Err err
  end.
