(* ===== verification/UpdateFacts.v ===== *)
(** * The V1 wire format of structs

    [struct_ok] are the structs that can be written, [wire] is what is left of a
    struct after a trip over the wire (flags, redone and the parent of an item
    with an origin are not sent), [enc_struct] its bytes. *)
From S2P Require Import Prelude GoError Binary Ranges IdSet IdSetFacts Varint GoText YTypes DeleteSet Decoder DecoderFacts Content Update.
Import varint.

Definition opt_id_ok (o : option ID) : Prop := match o with None => True | Some id => wf_ID id end.

Definition parent_ok (p : ParentRef) : Prop :=
  (∃ id, p = NewParentID id ∧ wf_ID id) ∨ (∃ root, p = mkParentRef root None ∧ root ≠ [] ∧ str_ok root).

Definition no_origin (i : UItem) : bool := negb (is_Some_b (Origin i)) && negb (is_Some_b (RightOrigin i)).

Definition item_ok (i : UItem) : Prop :=
  content_ok (ItemContent i) ∧ LengthVal (ItemContent i) = bs_length (item_base i) ∧
  opt_id_ok (Origin i) ∧ opt_id_ok (RightOrigin i) ∧
  (no_origin i = true → parent_ok (Parent i) ∧ str_ok (ParentSub i)).

Definition struct_ok (s : UStruct) : Prop :=
  wf_base (struct_base s) ∧ match s with SItem i => item_ok i | _ => True end.

Definition wire_item (i : UItem) : UItem :=
  mkItem (item_base i) (Origin i) (RightOrigin i)
    (if no_origin i then Parent i else mkParentRef [] None)
    (if no_origin i then ParentSub i else []) None
    (if Countable (ItemContent i) then ItemFlagCountable else 0) (ItemContent i).

Definition wire (s : UStruct) : UStruct := match s with SItem i => SItem (wire_item i) | _ => s end.

Lemma wire_base s : struct_base (wire s) = struct_base s.
Proof. by destruct s. Qed.
Lemma wire_kind s : struct_Kind (wire s) = struct_Kind s.
Proof. by destruct s. Qed.
Lemma wire_skip s : isSkip (wire s) = isSkip s.
Proof. unfold isSkip. by rewrite wire_kind. Qed.

(** ** The header byte *)

Definition has_sub (i : UItem) : bool := no_origin i && negb (bool_decide (ParentSub i = [])).

Definition header (i : UItem) : ItemHeader :=
  mkItemHeader (Ref (ItemContent i)) (is_Some_b (Origin i)) (is_Some_b (RightOrigin i)) (has_sub i).

(** Encoding a header and testing its bits. *)
Lemma header_roundtrip ref o ro ps : 0 <= ref <= 31 →
  ∃ info, ItemHeader_Encode (mkItemHeader ref o ro ps) = Ok info ∧ is_u8 info ∧
    DecodeItemHeader info = mkItemHeader ref o ro ps.
Proof.
  intros Hr. assert (ref ∈ (Z.of_nat <$> seq 0 32)) as Hin.
  { apply list_elem_of_fmap. exists (Z.to_nat ref). rewrite elem_of_seq. lia. }
  clear Hr. revert ref Hin. apply Forall_forall.
  destruct o, ro, ps; repeat (apply Forall_cons; split;
    [eexists; split; [vm_compute; reflexivity|split; [unfold is_u8; lia|vm_compute; reflexivity]]|]);
    apply Forall_nil; exact I.
Qed.

(** Both origin bits at once. *)
Lemma origin_bits {A} info (o ro : option A) : negb (Z.land info ItemHasOrigin =? 0) = is_Some_b o →
  negb (Z.land info ItemHasRightOrigin =? 0) = is_Some_b ro →
  (Z.land info (Z.lor ItemHasOrigin ItemHasRightOrigin) =? 0) = negb (is_Some_b o) && negb (is_Some_b ro).
Proof.
  intros <- <-. rewrite !negb_involutive, Z.land_lor_distr_r.
  destruct (Z.eqb_spec (Z.lor (Z.land info ItemHasOrigin) (Z.land info ItemHasRightOrigin)) 0) as [E|E];
    rewrite Z.lor_eq_0_iff in E; destruct (Z.eqb_spec (Z.land info ItemHasOrigin) 0),
    (Z.eqb_spec (Z.land info ItemHasRightOrigin) 0); try done; tauto.
Qed.

Lemma item_header i : item_ok i → ∃ info, ItemHeader_Encode (header i) = Ok info ∧ is_u8 info ∧
  Z.land info ItemContentRefMask = Ref (ItemContent i) ∧
  negb (Z.land info ItemHasOrigin =? 0) = is_Some_b (Origin i) ∧
  negb (Z.land info ItemHasRightOrigin =? 0) = is_Some_b (RightOrigin i) ∧
  negb (Z.land info ItemHasParentSub =? 0) = has_sub i ∧
  (Z.land info (Z.lor ItemHasOrigin ItemHasRightOrigin) =? 0) = no_origin i ∧
  info ≠ 10 ∧ Z.land info ItemContentRefMask ≠ 0.
Proof.
  intros (Hc & _). pose proof (content_ok_ref _ Hc) as Href.
  destruct (header_roundtrip (Ref (ItemContent i)) (is_Some_b (Origin i)) (is_Some_b (RightOrigin i)) (has_sub i)) as (info & He & Hu & Hd); [lia|].
  exists info. split; [done|]. split; [done|]. unfold DecodeItemHeader in Hd. injection Hd as H1 H2 H3 H4.
  split_and!; [done..| | |lia].
  - by apply origin_bits.
  - intros ->. change (Z.land 10 ItemContentRefMask) with 10 in H1. lia.
Qed.

(** ** The bytes of a struct *)

Definition enc_opt_id (o : option ID) : bytes := match o with None => [] | Some id => AppendID [] id end.

Definition enc_parent (p : ParentRef) : bytes :=
  match pr_id p with
  | Some id => Append [] 0 ++ AppendID [] id
  | None => Append [] 1 ++ enc_str (pr_root p)
  end.

Definition enc_item_tail (i : UItem) : bytes :=
  enc_opt_id (Origin i) ++ enc_opt_id (RightOrigin i) ++
  (if no_origin i then enc_parent (Parent i) ++ (if has_sub i then enc_str (ParentSub i) else []) else []) ++
  default [] (Raw (ItemContent i)).

Definition enc_struct (s : UStruct) : bytes :=
  match s with
  | GC b => 0 :: Append [] (bs_length b)
  | Skip b => 10 :: Append [] (bs_length b)
  | SItem i => match ItemHeader_Encode (header i) with Ok info => info :: enc_item_tail i | Err _ => [] end
  end.

Lemma AppendID_opt dst o : match o with None => dst | Some id => AppendID dst id end = dst ++ enc_opt_id o.
Proof. destruct o; cbn; [apply AppendID_app|by rewrite app_nil_r]. Qed.

Lemma appendStructV1_ok dst s : struct_ok s → appendStructV1 dst s = Ok (dst ++ enc_struct s).
Proof.
  intros [_ Hs]. destruct s as [b|b|i]; cbn [appendStructV1 enc_struct].
  1, 2: unfold appendVarUintV1; rewrite Append_app, <- app_assoc; done.
  destruct (item_header i Hs) as (info & He & _). unfold appendItemV1. fold (no_origin i). fold (has_sub i). fold (header i).
  rewrite He. cbn [mbind result_bind]. rewrite !AppendID_opt.
  destruct Hs as (Hc & _ & _ & _ & Hp). destruct (content_ok_raw _ Hc) as [raw Hraw].
  unfold AppendV1, enc_item_tail. rewrite Hraw. cbn [default].
  destruct (no_origin i) eqn:Hno; cbn [mbind result_bind].
  - destruct (Hp eq_refl) as [[(id & -> & Hid)|(root & -> & Hne & Hroot)] Hsub]; cbn [NewParentID ParentRef_Kind pr_id pr_root enc_parent ParentRef_ID fst ParentRef_Root].
    + unfold has_sub. rewrite Hno. cbn [andb]. case_bool_decide; cbn [negb mbind result_bind];
        unfold appendVarUintV1; rewrite ?appendVarString_app, AppendID_app, Append_app, <- ?app_assoc; cbn; by rewrite ?app_nil_r.
    + destruct root; [done|]. unfold has_sub. rewrite Hno. cbn [andb]. case_bool_decide; cbn [negb mbind result_bind];
        unfold appendVarUintV1; rewrite ?appendVarString_app, Append_app, <- ?app_assoc; cbn; by rewrite ?app_nil_r.
  - by rewrite <- !app_assoc.
Qed.

(** ** Reading a struct *)

Lemma reads_optID op o : opt_id_ok o → reads (readOptID (is_Some_b o) op) (enc_opt_id o) o.
Proof.
  intros Ho. destruct o as [id|]; cbn; [|apply reads_ret].
  eapply reads_bind_ret; [by apply reads_readID|apply reads_ret].
Qed.

Lemma reads_parent i info : item_ok i →
  (Z.land info (Z.lor ItemHasOrigin ItemHasRightOrigin) =? 0) = no_origin i →
  negb (Z.land info ItemHasParentSub =? 0) = has_sub i →
  reads (readParent info)
    (if no_origin i then enc_parent (Parent i) ++ (if has_sub i then enc_str (ParentSub i) else []) else [])
    (if no_origin i then Parent i else mkParentRef [] None, if no_origin i then ParentSub i else []).
Proof.
  intros (_ & _ & _ & _ & Hp) H1 H2. unfold readParent. rewrite H1, H2.
  destruct (no_origin i) eqn:Hno; [|apply reads_ret]. destruct (Hp eq_refl) as [Hpar Hsub].
  assert (reads (if has_sub i then readString "ReadParentSub" else mret [])
    (if has_sub i then enc_str (ParentSub i) else []) (ParentSub i)) as Hs.
  { unfold has_sub. rewrite Hno. cbn [andb]. case_bool_decide as E; cbn [negb].
    - rewrite E. apply reads_ret.
    - by apply reads_readString. }
  assert (∀ b : bool, reads readParentInfo (Append [] (if b then 1 else 0)) b) as Hinfo.
  { intros b. unfold readParentInfo. eapply reads_bind_ret; [apply reads_readVarUint; destruct b; u32|].
    destruct b; apply reads_ret. }
  destruct Hpar as [(id & -> & Hid)|(root & -> & Hne & Hroot)]; cbn [enc_parent NewParentID pr_id pr_root];
    rewrite <- app_assoc.
  - eapply reads_bind; [apply (Hinfo false)|]. eapply reads_bind.
    { eapply reads_bind_ret; [by apply reads_readID|apply reads_ret]. }
    eapply reads_bind_ret; [exact Hs|apply reads_ret].
  - eapply reads_bind; [apply (Hinfo true)|]. eapply reads_bind.
    { eapply reads_bind_ret; [by apply reads_readString|apply reads_lift]. destruct root; [done|reflexivity]. }
    eapply reads_bind_ret; [exact Hs|apply reads_ret].
Qed.

Lemma newItem_ok i : struct_ok (SItem i) →
  NewItemOwnedIDs (bs_id (item_base i)) (Some (ItemContent i))
    (mkItemOptions (Origin i) (RightOrigin i) (if no_origin i then Parent i else mkParentRef [] None)
      (if no_origin i then ParentSub i else []) None 0) = Ok (wire_item i).
Proof.
  intros [Hb (_ & Hl & _)]. unfold NewItemOwnedIDs, newItem. cbn [content_Length ParsedContent_Content content_IsCountable].
  rewrite Hl. change (struct_base (SItem i)) with (item_base i) in Hb. rewrite (wf_base_newBaseStruct _ Hb). unfold wire_item. by destruct (Countable (ItemContent i)).
Qed.

Lemma reads_readItemAt i info : struct_ok (SItem i) → ItemHeader_Encode (header i) = Ok info →
  reads (readItemAt (bs_id (item_base i)) info) (enc_item_tail i) (wire_item i).
Proof.
  intros Hs He. pose proof Hs as [_ Hi]. destruct (item_header i Hi) as (info' & He' & _ & H1 & H2 & H3 & H4 & H5 & _).
  rewrite He in He'. injection He' as <-. pose proof Hi as (Hc & _ & Ho & Hro & _).
  destruct (content_ok_raw _ Hc) as [raw Hraw].
  unfold readItemAt, enc_item_tail. rewrite H2, H3, Hraw. cbn [default].
  eapply reads_bind; [by apply reads_optID|]. eapply reads_bind; [by apply reads_optID|].
  eapply reads_bind; [by apply reads_parent|]. eapply reads_bind_ret; [by apply reads_content|].
  apply reads_lift. by apply newItem_ok.
Qed.

(** ** Whatever is accepted as an item *)

Lemma parses_optID has op : parses (readOptID has op) (λ bs o,
  bs = enc_opt_id o ∧ is_Some_b o = has ∧ opt_id_ok o).
Proof.
  unfold readOptID. destruct has.
  - eapply parses_weaken; [eapply parses_bind; [apply parses_readID|intros; apply parses_ret]|].
    intros bs o (b1 & b2 & id & -> & (Hid & ->) & -> & ->). by rewrite app_nil_r.
  - eapply parses_weaken; [apply parses_ret|]. by intros ? ? [-> ->].
Qed.

(** The parent of an item, read back from the same bytes. *)
Definition parent_read (info : Z) (bs : bytes) (ps : ParentRef * bytes) : Prop :=
  reads (readParent info) bs ps ∧
  if Z.land info (Z.lor ItemHasOrigin ItemHasRightOrigin) =? 0 then parent_ok ps.1 ∧ str_ok ps.2
  else ps = (mkParentRef [] None, []).

Lemma parses_parentInfo : parses readParentInfo (λ bs b, bs = Append [] (if b then 1 else 0)).
Proof.
  unfold readParentInfo. eapply parses_weaken.
  - eapply parses_bind with (Q := λ v bs b, bs = [] ∧ v = (if b : bool then 1 else 0)); [apply parses_readVarUint|].
    intros v. case_if; [|case_if].
    + eapply parses_weaken; [apply parses_ret|]. by intros ? ? [-> ->].
    + eapply parses_weaken; [apply parses_ret|]. by intros ? ? [-> ->].
    + apply parses_offset. intros o. eapply parses_weaken; [apply parses_fail|done].
  - intros bs b (b1 & b2 & v & -> & (_ & ->) & -> & ->). by rewrite app_nil_r.
Qed.

Lemma reads_parentInfo (b : bool) : reads readParentInfo (Append [] (if b then 1 else 0)) b.
Proof.
  unfold readParentInfo. eapply reads_bind_ret; [apply reads_readVarUint; destruct b; u32|].
  destruct b; apply reads_ret.
Qed.

(** The parent reference alone. *)
Definition readParentRef (isRoot : bool) : RM ParentRef :=
  if isRoot then name ← readString "ReadParentRoot"; liftR (NewParentRoot name)
  else parentID ← readID "ReadParentID"; mret (NewParentID parentID).

Lemma parses_parentRef b : parses (readParentRef b) (λ bs p, reads (readParentRef b) bs p ∧ parent_ok p).
Proof.
  unfold readParentRef. destruct b.
  - eapply parses_weaken; [eapply parses_bind; [apply parses_readString|intros; apply parses_lift]|].
    intros bs p (b1 & b2 & root & -> & (-> & Hs) & -> & E). split.
    + eapply reads_bind; [by apply reads_readString|by apply reads_lift].
    + right. exists root. destruct root; [done|]. by injection E as <-.
  - eapply parses_weaken; [eapply parses_bind; [apply parses_readID|intros; apply parses_ret]|].
    intros bs p (b1 & b2 & id & -> & (Hid & ->) & -> & ->). split.
    + eapply reads_bind; [by apply reads_readID|apply reads_ret].
    + left. by exists id.
Qed.

Lemma parses_parentSub (has : bool) : parses (if has then readString "ReadParentSub" else mret [])
  (λ bs s, reads (if has then readString "ReadParentSub" else mret []) bs s ∧ str_ok s).
Proof.
  destruct has.
  - eapply parses_weaken; [apply parses_readString|]. intros ? ? [-> ?]. split; [by apply reads_readString|done].
  - eapply parses_weaken; [apply parses_ret|]. intros ? ? [-> ->]. split; [apply reads_ret|].
    split; [unfold is_u32; cbn; lia|constructor].
Qed.

Lemma parses_readParent info : parses (readParent info) (parent_read info).
Proof.
  unfold readParent, parent_read. destruct (Z.land info (Z.lor ItemHasOrigin ItemHasRightOrigin) =? 0) eqn:E.
  - eapply parses_weaken.
    + eapply parses_bind; [apply parses_parentInfo|]. intros isRoot.
      eapply parses_bind; [apply (parses_parentRef isRoot)|]. intros parent.
      eapply parses_bind; [apply parses_parentSub|]. intros sub. apply parses_ret.
    + intros bs ps (b1 & b2 & isRoot & -> & -> & b3 & b4 & parent & -> & (Hp & Hpok) & b5 & b6 & sub & -> & (Hs & Hsok) & -> & ->).
      split; [|done]. unfold readParent. rewrite E.
      eapply reads_bind; [apply reads_parentInfo|]. eapply reads_bind; [exact Hp|].
      eapply reads_bind; [exact Hs|]. apply reads_ret.
  - eapply parses_weaken; [apply parses_ret|]. intros ? ? [-> ->]. split; [|done].
    unfold readParent. rewrite E. apply reads_ret.
Qed.

Lemma parses_readItemAt id info : wf_ID id → parses (readItemAt id info) (λ bs i,
  reads (readItemAt id info) bs i ∧ struct_ok (SItem i) ∧ wire_item i = i ∧ bs_id (item_base i) = id).
Proof.
  intros Hid. unfold readItemAt. eapply parses_weaken.
  - eapply parses_bind; [apply parses_optID|]. intros o.
    eapply parses_bind; [apply parses_optID|]. intros ro.
    eapply parses_bind with (Q := λ ps bs i, ∃ b1 b2 c, bs = b1 ++ b2 ∧
      (content_ok c ∧ Raw c = Some b1 ∧ Ref c = Z.land info ItemContentRefMask) ∧ b2 = [] ∧
      NewItemOwnedIDs id (Some c) (mkItemOptions o ro ps.1 ps.2 None 0) = Ok i); [apply parses_readParent|].
    intros [parent sub]. eapply parses_bind; [apply parses_content|]. intros c. apply parses_lift.
  - intros bs i (b1 & b2 & o & -> & (-> & Hob & Ho) & b3 & b4 & ro & -> & (-> & Hrb & Hro) & b5 & b6 & [p sub] & -> &
      [Hp Hpok] & b7 & b8 & c & -> & (Hc & Hraw & Href) & -> & E). cbn [fst snd] in *.
    split_and!.
    + unfold readItemAt. rewrite <- Hob, <- Hrb.
      eapply reads_bind; [by apply reads_optID|]. eapply reads_bind; [by apply reads_optID|].
      eapply reads_bind; [exact Hp|]. eapply reads_bind; [by apply reads_content|]. by apply reads_lift.
    + unfold NewItemOwnedIDs, newItem in E. cbn [content_Length ParsedContent_Content] in E.
      destruct (newBaseStruct id (LengthVal c)) as [base|] eqn:Eb; [|done].
      apply newBaseStruct_Ok in Eb as [-> Hwf]; [|done|by apply content_ok_length]. injection E as <-.
      split; [done|]. unfold item_ok. cbn. split_and!; [done..|].
      unfold no_origin; cbn. rewrite <- (origin_bits info o ro) by done. intros Hno. by rewrite Hno in Hpok.
    + unfold NewItemOwnedIDs, newItem in E. destruct (newBaseStruct _ _); [|done]. injection E as <-.
      unfold wire_item, no_origin; cbn. rewrite <- (origin_bits info o ro) by done.
      change (content_IsCountable c) with (Countable c).
      destruct (Z.land info (Z.lor ItemHasOrigin ItemHasRightOrigin) =? 0).
      * by destruct (Countable c).
      * injection Hpok as -> ->. by destruct (Countable c).
    + unfold NewItemOwnedIDs, newItem in E. destruct (newBaseStruct _ _) eqn:Eb; [|done]. injection E as <-. cbn.
      apply newBaseStruct_Ok in Eb as [-> _]; [done|done|by apply content_ok_length].
Qed.
