(* ===== verification/UpdateStream.v ===== *)
(** * The lazy reader as a stream of structs

    A V1 update is a list of blocks (client, first clock, encoded structs) and a
    tail, the delete set.  [lazy_at r l tail] says that the reader [r] still has
    the structs [l] to deliver, the current one first, and then the bytes [tail]:
    it is what the algorithms over a reader (StateVector, Diff, Intersect,
    ContentIDs) are proved against.  [lazy_start] establishes it for every
    well-formed block list; [decode_blocks] shows that every accepted update is one. *)
From S2P Require Import Prelude GoError Binary Ranges IdSet IdSetFacts Varint GoText YTypes DeleteSet Decoder DecoderFacts Content Update UpdateFacts.
Import varint.

(** ** Decoder calls of the lazy reader *)

Lemma dec_reads {A} (m : RM A) bs (a : A) r rest : reads m bs a → wf_reader (decoder r) →
  view (decoder r) = bs ++ rest → dec m r = (Ok a, set_decoder r (advance (length bs) (decoder r))).
Proof. intros H Hw Hv. unfold dec. by rewrite (H _ _ Hw Hv). Qed.

Lemma dec_parses {A} (m : RM A) P r (a : A) r' : parses m P → wf_reader (decoder r) →
  is_bytes (view (decoder r)) → dec m r = (Ok a, r') →
  ∃ bs, view (decoder r) = bs ++ view (decoder r') ∧ r' = set_decoder r (advance (length bs) (decoder r)) ∧
    wf_reader (decoder r') ∧ P bs a.
Proof.
  intros H Hw Hb. unfold dec. destruct (m (decoder r)) as [res d] eqn:E. intros [= -> <-].
  destruct (H _ _ _ Hw Hb E) as (bs & ? & -> & ? & ?). exists bs. done.
Qed.

Lemma is_bytes_suffix (bs l : bytes) (r : Reader) : is_bytes (view r) → view r = bs ++ l → is_bytes l.
Proof. intros Hb E. rewrite E in Hb. by apply Forall_app in Hb as [_ ?]. Qed.

(** ** One struct *)

(** The reader behind a struct. *)
Definition after_struct (bs : bytes) (s : UStruct) (r : LazyReaderV1) : LazyReaderV1 :=
  mkLazy (advance (length bs) (decoder r)) (remainingClients r) (w32 (remainingStructs r - 1)) (currentClient r)
    (w32 (currentClock r + struct_Length s)) (current r) (filterSkips r) (structsExhausted r) (deleteSetConsumed r).

(** [bs] is read as [s] wherever a struct of that client and clock is expected. *)
Definition struct_reads (bs : bytes) (s : UStruct) : Prop :=
  bs ≠ [] ∧ struct_ok s ∧ wire s = s ∧
  ∀ r rest, wf_reader (decoder r) → view (decoder r) = bs ++ rest →
    mkID (currentClient r) (currentClock r) = struct_ID s → readStruct r = (Ok s, after_struct bs s r).

Lemma struct_ok_wire s : struct_ok s → struct_ok (wire s).
Proof.
  intros [Hb Hs]. split; [by rewrite wire_base|]. destruct s as [b|b|i]; try done; cbn.
  destruct Hs as (Hc & Hl & Ho & Hro & Hp). split_and!; try done; cbn. fold (no_origin (wire_item i)).
  intros Hn. change (no_origin (wire_item i)) with (no_origin i) in Hn. rewrite Hn. auto.
Qed.

Lemma wire_wire s : wire (wire s) = wire s.
Proof.
  destruct s as [b|b|i]; try done. cbn. f_equal. unfold wire_item at 1. cbn.
  change (no_origin (wire_item i)) with (no_origin i). unfold wire_item. by destruct (no_origin i).
Qed.

(** The length of a GC or Skip is a uint32. *)
Lemma wf_base_length b : wf_base b → is_u32 (bs_length b).
Proof. intros ([_ ?] & ? & ?). u32. Qed.

Lemma newSkip_ok b : wf_base b → NewSkip (C := ParsedContent) (bs_id b) (bs_length b) = Ok (Skip b).
Proof. intros H. unfold NewSkip. by rewrite wf_base_newBaseStruct. Qed.
Lemma newGC_ok b : wf_base b → NewGC (C := ParsedContent) (bs_id b) (bs_length b) = Ok (GC b).
Proof. intros H. unfold NewGC. by rewrite wf_base_newBaseStruct. Qed.

Lemma reads_info b : reads readInfo [b] b.
Proof. apply reads_catch, reads_ReadByte. Qed.

(** The three forms, each with the header byte it is recognised by. *)
Lemma read_gc info b : info ≠ 10 → Z.land info ItemContentRefMask = 0 → wf_base b →
  struct_reads ([info] ++ Append [] (bs_length b)) (GC b).
Proof.
  intros H10 H0 Hb. split; [done|]. split; [done|]. split; [done|]. intros r rest Hw Hv Hid.
  unfold readStruct, mbind, LM_bind. rewrite <- app_assoc in Hv.
  rewrite (dec_reads _ _ _ r _ (reads_info info) Hw Hv). cbn [modifyL].
  rewrite (proj2 (Z.eqb_neq info 10) H10), (proj2 (Z.eqb_eq _ 0) H0). cbn [negb].
  rewrite (dec_reads _ _ _ (take_struct (set_decoder r (advance (length [info]) (decoder r)))) rest
    (reads_readVarUint "ReadGCLength" _ (wf_base_length b Hb))); [|by eapply wf_advance|by apply view_advance_app].
  cbn [getL liftL take_struct set_decoder currentClient currentClock]. rewrite Hid.
  change (struct_ID (GC b)) with (bs_id b). rewrite (newGC_ok b Hb). cbn [modifyL mret LM_ret add_clock take_struct set_decoder decoder]. by rewrite advance_advance.
Qed.

Lemma read_skip b : wf_base b → struct_reads ([10] ++ Append [] (bs_length b)) (Skip b).
Proof.
  intros Hb. split; [done|]. split; [done|]. split; [done|]. intros r rest Hw Hv Hid.
  unfold readStruct, mbind, LM_bind. rewrite <- app_assoc in Hv.
  rewrite (dec_reads _ _ _ r _ (reads_info 10) Hw Hv). cbn [modifyL]. change (10 =? 10) with true. cbv beta iota.
  rewrite (dec_reads _ _ _ (take_struct (set_decoder r (advance (length [10]) (decoder r)))) rest
    (reads_readVarUint "ReadSkipLength" _ (wf_base_length b Hb))); [|by eapply wf_advance|by apply view_advance_app].
  cbn [getL liftL take_struct set_decoder currentClient currentClock]. rewrite Hid.
  change (struct_ID (Skip b)) with (bs_id b). rewrite (newSkip_ok b Hb). cbn [modifyL mret LM_ret add_clock take_struct set_decoder decoder]. by rewrite advance_advance.
Qed.

Lemma read_item info bs i : info ≠ 10 → Z.land info ItemContentRefMask ≠ 0 → struct_ok (SItem i) → wire_item i = i →
  reads (readItemAt (bs_id (item_base i)) info) bs i → struct_reads ([info] ++ bs) (SItem i).
Proof.
  intros H10 H0 Hok Hwire Hr. split; [done|]. split; [done|]. split; [by cbn; rewrite Hwire|]. intros r rest Hw Hv Hid.
  unfold readStruct, mbind, LM_bind. rewrite <- app_assoc in Hv.
  rewrite (dec_reads _ _ _ r _ (reads_info info) Hw Hv). cbn [modifyL].
  rewrite (proj2 (Z.eqb_neq info 10) H10), (proj2 (Z.eqb_neq _ 0) H0). cbn [negb].
  unfold readItem, mbind, LM_bind. cbn [getL take_struct set_decoder currentClient currentClock]. rewrite Hid.
  change (struct_ID (SItem i)) with (bs_id (item_base i)).
  rewrite (dec_reads _ _ _ (take_struct (set_decoder r (advance (length [info]) (decoder r)))) rest Hr);
    [|by eapply wf_advance|by apply view_advance_app].
  cbn [modifyL mret LM_ret take_struct set_decoder add_clock decoder]. by rewrite advance_advance.
Qed.

(** What [appendStructV1] writes is read back, up to [wire]. *)
Lemma enc_struct_reads s : struct_ok s → struct_reads (enc_struct s) (wire s).
Proof.
  intros Hs. pose proof Hs as [Hb Hi]. destruct s as [b|b|i].
  - by apply (read_gc 0).
  - by apply read_skip.
  - destruct (item_header i Hi) as (info & He & _ & _ & _ & _ & _ & _ & Hn10 & Hn0). cbn [enc_struct wire].
    rewrite He. apply (read_item info (enc_item_tail i) (wire_item i)); [done|done| | |].
    + by apply (struct_ok_wire (SItem i)).
    + pose proof (wire_wire (SItem i)) as E. cbn in E. congruence.
    + by apply (reads_readItemAt i).
Qed.

(** Whatever is accepted as a struct. *)
Lemma readStruct_sound r s r' : wf_reader (decoder r) → is_bytes (view (decoder r)) →
  wf_ID (mkID (currentClient r) (currentClock r)) → readStruct r = (Ok s, r') →
  ∃ bs, view (decoder r) = bs ++ view (decoder r') ∧ r' = after_struct bs s r ∧ wf_reader (decoder r') ∧
    struct_reads bs s ∧ struct_ID s = mkID (currentClient r) (currentClock r).
Proof.
  intros Hw Hb Hid. unfold readStruct, mbind, LM_bind.
  destruct (dec readInfo r) as [[info|] r1] eqn:E1; [|done].
  apply (dec_parses _ _ _ _ _ (parses_catch _ _ _ parses_ReadByte) Hw Hb) in E1 as (b1 & Hv1 & -> & Hw1 & -> & _).
  pose proof (is_bytes_suffix _ _ _ Hb Hv1) as Hb1. cbn [modifyL].
  destruct (Z.eqb_spec info 10) as [->|H10]; [|destruct (Z.eqb_spec (Z.land info ItemContentRefMask) 0) as [H0|H0]; cbn [negb]].
  - destruct (dec (readVarUint "ReadSkipLength") _) as [[len|] r2] eqn:E2; [|done].
    eapply dec_parses in E2; [|apply parses_readVarUint|exact Hw1|exact Hb1]. destruct E2 as (b2 & Hv2 & -> & Hw2 & Hlen & ->).
    cbn [getL liftL take_struct set_decoder currentClient currentClock decoder] in *. unfold NewSkip.
    destruct (newBaseStruct _ len) as [base|] eqn:E4; [|done]. intros [= <- <-].
    apply newBaseStruct_Ok in E4 as [-> Hbase]; [|done..]. exists ([10] ++ Append [] len).
    split_and!; [by rewrite Hv1, Hv2, app_assoc|by rewrite advance_advance|done|by apply (read_skip _ Hbase)|done].
  - destruct (dec (readVarUint "ReadGCLength") _) as [[len|] r2] eqn:E2; [|done].
    eapply dec_parses in E2; [|apply parses_readVarUint|exact Hw1|exact Hb1]. destruct E2 as (b2 & Hv2 & -> & Hw2 & Hlen & ->).
    cbn [getL liftL take_struct set_decoder currentClient currentClock decoder] in *. unfold NewGC.
    destruct (newBaseStruct _ len) as [base|] eqn:E4; [|done]. intros [= <- <-].
    apply newBaseStruct_Ok in E4 as [-> Hbase]; [|done..]. exists ([info] ++ Append [] len).
    split_and!; [by rewrite Hv1, Hv2, app_assoc|by rewrite advance_advance|done|by apply (read_gc info _ H10 H0 Hbase)|done].
  - unfold readItem, mbind, LM_bind. cbn [getL take_struct set_decoder currentClient currentClock].
    destruct (dec (readItemAt _ info) _) as [[i|] r2] eqn:E2; [|done].
    eapply dec_parses in E2; [|by apply parses_readItemAt|exact Hw1|exact Hb1]. destruct E2 as (b2 & Hv2 & -> & Hw2 & Hr & Hok & Hwire & Hi).
    cbn [modifyL mret LM_ret]. intros [= <- <-]. exists ([info] ++ b2). cbn [decoder set_decoder take_struct add_clock] in *.
    rewrite <- Hi in Hr.
    split_and!; [by rewrite Hv1, Hv2, app_assoc|by rewrite advance_advance|done|by apply read_item|exact Hi].
Qed.

(** ** Blocks *)

(** A client's block: its encoded structs, the first one at [clock]. *)
Record block := mkBlock { b_client : Z; b_clock : Z; b_structs : list (bytes * UStruct) }.

(** Consecutive structs of one client, starting at a clock. *)
Fixpoint chain (client clock : Z) (l : list UStruct) : Prop :=
  match l with
  | [] => True
  | s :: l => struct_ID s = mkID client clock ∧ chain client (clock + struct_Length s) l
  end.

Definition structs_ok (client clock : Z) (l : list (bytes * UStruct)) : Prop :=
  is_u32 client ∧ is_u32 clock ∧ is_u32 (Z.of_nat (length l)) ∧
  Forall (λ e, struct_reads e.1 e.2) l ∧ chain client clock l.*2.

Definition block_ok (b : block) : Prop := structs_ok (b_client b) (b_clock b) (b_structs b).

Definition enc_block (b : block) : bytes :=
  Append [] (Z.of_nat (length (b_structs b))) ++ Append [] (b_client b) ++ Append [] (b_clock b) ++ concat (b_structs b).*1.

Definition enc_blocks (bs : list block) : bytes := concat (enc_block <$> bs).

Definition blocks_structs (bs : list block) : list UStruct := concat ((λ b, (b_structs b).*2) <$> bs).

(** The reader is inside a block with [cur] to read, then [bs], then [tail]. *)
Record at_stream (r : LazyReaderV1) (cur : list (bytes * UStruct)) (bs : list block) (tail : bytes) : Prop := {
  as_wf : wf_reader (decoder r);
  as_view : view (decoder r) = concat cur.*1 ++ enc_blocks bs ++ tail;
  as_structs : remainingStructs r = Z.of_nat (length cur);
  as_clients : remainingClients r = Z.of_nat (length bs);
  as_cur : structs_ok (currentClient r) (currentClock r) cur;
  as_blocks : Forall block_ok bs ∧ is_u32 (Z.of_nat (length bs));
  as_flags : structsExhausted r = false ∧ deleteSetConsumed r = false;
}.

(** The reader has delivered every struct. *)
Definition at_end (r : LazyReaderV1) (tail : bytes) : Prop :=
  wf_reader (decoder r) ∧ view (decoder r) = tail ∧ structsExhausted r = true ∧ deleteSetConsumed r = false.

Definition stream_structs (cur : list (bytes * UStruct)) (bs : list block) : list UStruct :=
  cur.*2 ++ blocks_structs bs.

Lemma structs_ok_nil client clock : is_u32 client → is_u32 clock → structs_ok client clock [].
Proof. intros. by repeat split; try constructor; u32. Qed.

Lemma struct_length_pos s : struct_ok s → 0 < struct_Length s ∧ struct_clock s + struct_Length s <= MaxUint32.
Proof. by intros [(_ & ? & ?) _]. Qed.

Lemma enc_blocks_cons b bs : enc_blocks (b :: bs) = enc_block b ++ enc_blocks bs.
Proof. done. Qed.

(** Entering a block. *)
Definition enterBlock : LM unit :=
  count ← dec (readVarUint "ReadStructCount");
  client ← dec (readVarUint "ReadClient");
  clock ← dec (readVarUint "ReadStartClock");
  modifyL (enter_block count client clock).

Lemma nextBlock_S fuel r : nextBlock (S fuel) r =
  if remainingStructs r =? 0 then
    if remainingClients r =? 0 then (Ok true, exhaust r) else (_ ← enterBlock; nextBlock fuel) r
  else (Ok false, r).
Proof.
  cbn [nextBlock]. unfold enterBlock, mbind, LM_bind, getL. destruct (_ =? 0); [|done]. destruct (_ =? 0); [done|].
  repeat (destruct (dec _ _) as [[?|?] ?]; [|done]). done.
Qed.

Lemma enter_reads r b bs tail : wf_reader (decoder r) → view (decoder r) = enc_blocks (b :: bs) ++ tail → block_ok b →
  remainingClients r = Z.of_nat (length (b :: bs)) → is_u32 (Z.of_nat (length (b :: bs))) → Forall block_ok bs →
  structsExhausted r = false → deleteSetConsumed r = false →
  ∃ r', enterBlock r = (Ok tt, r') ∧
    at_stream r' (b_structs b) bs tail ∧ data (decoder r') = data (decoder r) ∧
    current r' = current r ∧ filterSkips r' = filterSkips r.
Proof.
  intros Hw Hv Hok Hrc Hlen Hbs Hex Hdc. pose proof Hok as (Hc & Hk & Hl & Hf & Hch).
  rewrite enc_blocks_cons in Hv. unfold enc_block in Hv. rewrite <- !app_assoc in Hv.
  unfold enterBlock, mbind, LM_bind.
  rewrite (dec_reads _ _ _ r _ (reads_readVarUint "ReadStructCount" _ Hl) Hw Hv).
  pose proof (wf_advance _ _ _ Hw Hv) as Hw1. pose proof (view_advance_app _ _ _ Hv) as Hv1.
  erewrite dec_reads; [|apply (reads_readVarUint "ReadClient" _ Hc)|exact Hw1|exact Hv1]. cbn [decoder set_decoder].
  pose proof (wf_advance _ _ _ Hw1 Hv1) as Hw2. pose proof (view_advance_app _ _ _ Hv1) as Hv2.
  erewrite dec_reads; [|apply (reads_readVarUint "ReadStartClock" _ Hk)|exact Hw2|exact Hv2]. cbn [decoder set_decoder].
  pose proof (wf_advance _ _ _ Hw2 Hv2) as Hw3. pose proof (view_advance_app _ _ _ Hv2) as Hv3.
  eexists. split; [done|]. split; [|done]. constructor; cbn; try done.
  - rewrite Hrc, w32_small; cbn [length] in *; [lia|]. u32.
  - split; [done|]. cbn [length] in *. u32.
Qed.

Lemma nextBlock_stream fuel r cur bs tail : at_stream r cur bs tail → (length bs < fuel)%nat →
  match stream_structs cur bs with
  | [] => ∃ r', nextBlock fuel r = (Ok true, r') ∧ at_end r' tail ∧ current r' = current r ∧
            data (decoder r') = data (decoder r) ∧ filterSkips r' = filterSkips r
  | s :: rest => ∃ r' e cur' bs', nextBlock fuel r = (Ok false, r') ∧ at_stream r' (e :: cur') bs' tail ∧
            s = e.2 ∧ rest = stream_structs cur' bs' ∧ current r' = current r ∧
            data (decoder r') = data (decoder r) ∧ filterSkips r' = filterSkips r
  end.
Proof.
  revert r cur bs. induction fuel as [|fuel IH]; intros r cur bs Hat Hf; [lia|].
  pose proof Hat as [Hw Hv Hs Hc Hcur [Hbs Hlen] [Hex Hdc]]. rewrite nextBlock_S.
  destruct cur as [|e cur]; cbn [length] in Hs.
  - rewrite Hs. change (Z.of_nat 0 =? 0) with true. cbn iota. destruct bs as [|b bs]; cbn [length] in Hc.
    + rewrite Hc. change (Z.of_nat 0 =? 0) with true. cbn. by eexists.
    + rewrite (proj2 (Z.eqb_neq (remainingClients r) 0)) by lia. apply Forall_cons in Hbs as [Hb Hbs].
      destruct (enter_reads r b bs tail) as (r1 & E & Hat1 & Hd1 & Hcu1 & Hfi1); [done..|].
      specialize (IH r1 (b_structs b) bs Hat1 ltac:(cbn in Hf; lia)).
      assert (stream_structs [] (b :: bs) = stream_structs (b_structs b) bs) as -> by done.
      unfold mbind, LM_bind. rewrite E.
      destruct (stream_structs (b_structs b) bs).
      * destruct IH as (r' & ? & ? & ? & ? & ?). exists r'. split_and!; [done..|congruence|congruence|congruence].
      * destruct IH as (r' & e & cur' & bs' & ? & ? & ? & ? & ? & ? & ?). exists r', e, cur', bs'.
        split_and!; [done..|congruence|congruence|congruence].
  - rewrite (proj2 (Z.eqb_neq (remainingStructs r) 0)) by lia. cbn. exists r, e, cur, bs. done.
Qed.

(** Blocks are at least as long as their number. *)
Lemma enc_blocks_length bs : Forall block_ok bs → (length bs ≤ length (enc_blocks bs))%nat.
Proof.
  induction 1 as [|b bs (_ & _ & Hl & _) _ IH]; [done|]. rewrite enc_blocks_cons, length_app. cbn [length].
  unfold enc_block. rewrite length_app. pose proof (Append_length _ Hl). lia.
Qed.

Lemma at_stream_fuel r cur bs tail : at_stream r cur bs tail → (length bs < fuel_of r)%nat.
Proof.
  intros [Hw Hv _ _ _ [Hbs _] _]. pose proof (enc_blocks_length bs Hbs).
  apply (f_equal length) in Hv. unfold view in Hv. rewrite length_drop, !length_app in Hv. unfold fuel_of. lia.
Qed.

Lemma at_stream_step r e cur bs tail : at_stream r (e :: cur) bs tail →
  readStruct r = (Ok e.2, after_struct e.1 e.2 r) ∧ at_stream (after_struct e.1 e.2 r) cur bs tail.
Proof.
  intros [Hw Hv Hs Hc (Hcl & Hck & Hl & Hf & Hch) Hbs Hfl]. apply Forall_cons in Hf as [(Hne & Hok & Hwire & Hr) Hf].
  cbn in Hv, Hs, Hl. destruct Hch as [Hid Hch]. rewrite <- app_assoc in Hv. split; [by apply (Hr r _ Hw Hv)|].
  destruct (struct_length_pos _ Hok). assert (struct_clock e.2 = currentClock r) as Ec by (unfold struct_clock; by rewrite Hid).
  assert (is_u32 (currentClock r + struct_Length e.2)) by u32.
  constructor; cbn; try done.
  - by eapply wf_advance.
  - by apply view_advance_app.
  - rewrite Hs, w32_small; u32.
  - rewrite w32_small by done. unfold structs_ok. split_and!; [done..|u32|done|done].
Qed.

Lemma nextStruct_stream r cur bs tail : at_stream r cur bs tail →
  match stream_structs cur bs with
  | [] => ∃ r', nextStruct r = (Ok None, r') ∧ at_end r' tail ∧ filterSkips r' = filterSkips r
  | s :: rest => ∃ r' cur' bs', nextStruct r = (Ok (Some s), r') ∧ at_stream r' cur' bs' tail ∧
      rest = stream_structs cur' bs' ∧ data (decoder r') = data (decoder r) ∧ filterSkips r' = filterSkips r
  end.
Proof.
  intros Hat. pose proof (nextBlock_stream _ r cur bs tail Hat (at_stream_fuel _ _ _ _ Hat)) as H.
  unfold nextStruct, mbind, LM_bind. destruct (stream_structs cur bs) as [|s rest].
  - destruct H as (r' & -> & He & _ & _ & Hfi). by exists r'.
  - destruct H as (r' & e & cur' & bs' & -> & Hat' & -> & -> & Hcu & Hd & Hfi).
    destruct (at_stream_step _ _ _ _ _ Hat') as [-> Hat'']. by exists (after_struct e.1 e.2 r'), cur', bs'.
Qed.

(** ** The client's view *)

(** With [filterSkips] the reader does not deliver skips. *)
Definition visible (f : bool) (l : list UStruct) : list UStruct :=
  if f then filter (λ s, isSkip s = false) l else l.

Lemma visible_cons f s l : visible f (s :: l) = if f && isSkip s then visible f l else s :: visible f l.
Proof.
  unfold visible. destruct f; [|done]. cbn [andb]. rewrite filter_cons. destruct (isSkip s); by case_decide.
Qed.

Lemma at_stream_set_current r cur bs tail s : at_stream r cur bs tail → at_stream (set_current s r) cur bs tail.
Proof. by intros [? ? ? ? ? ? ?]. Qed.

Lemma advance_stream fuel r cur bs tail : at_stream r cur bs tail → (length (stream_structs cur bs) < fuel)%nat →
  match visible (filterSkips r) (stream_structs cur bs) with
  | [] => ∃ r', advance_loop fuel r = (Ok tt, r') ∧ current r' = None ∧ at_end r' tail
  | s :: rest => ∃ r' cur' bs', advance_loop fuel r = (Ok tt, r') ∧ current r' = Some s ∧ at_stream r' cur' bs' tail ∧
      rest = visible (filterSkips r') (stream_structs cur' bs') ∧ filterSkips r' = filterSkips r
  end.
Proof.
  revert r cur bs. induction fuel as [|fuel IH]; intros r cur bs Hat Hf; [lia|].
  cbn [advance_loop]. unfold mbind, LM_bind, getL.
  pose proof (nextStruct_stream r cur bs tail Hat) as H. destruct (stream_structs cur bs) as [|s rest].
  - destruct H as (r' & -> & He & Hfi). assert (visible (filterSkips r) [] = []) as -> by by destruct (filterSkips r).
    exists (set_current None r'). done.
  - destruct H as (r' & cur' & bs' & -> & Hat' & -> & Hd & Hfi). rewrite visible_cons, Hfi.
    destruct (filterSkips r && isSkip s).
    + specialize (IH r' cur' bs' Hat' ltac:(cbn in Hf; lia)). rewrite Hfi in IH.
      destruct (visible (filterSkips r) (stream_structs cur' bs')); [done|].
      destruct IH as (q & c & b & -> & ? & ? & ? & ?). eexists _, _, _. split_and!; [done..|congruence].
    + eexists _, cur', bs'. split_and!; [done|done|by apply at_stream_set_current|by cbn; rewrite Hfi|done].
Qed.

(** Every struct takes a byte. *)
Lemma structs_length l : Forall (λ e, struct_reads e.1 e.2) l → (length l ≤ length (concat l.*1))%nat.
Proof.
  induction 1 as [|[bs s] l (Hne & _) _ IH]; [done|]. cbn [fmap list_fmap concat length]. rewrite length_app.
  cbn in Hne. destruct bs; [done|]. cbn. lia.
Qed.

Lemma blocks_structs_length bs : Forall block_ok bs → (length (blocks_structs bs) ≤ length (enc_blocks bs))%nat.
Proof.
  induction 1 as [|b bs (_ & _ & _ & Hf & _) _ IH]; [done|]. rewrite enc_blocks_cons. unfold blocks_structs, enc_block in *.
  cbn [fmap list_fmap concat]. rewrite !length_app, length_fmap. pose proof (structs_length _ Hf). lia.
Qed.

Lemma advance_fuel r cur bs tail : at_stream r cur bs tail → (length (stream_structs cur bs) < fuel_of r)%nat.
Proof.
  intros [Hw Hv _ _ (_ & _ & _ & Hf & _) [Hbs _] _]. pose proof (blocks_structs_length bs Hbs). pose proof (structs_length _ Hf).
  apply (f_equal length) in Hv. unfold view in Hv. rewrite length_drop, !length_app in Hv.
  unfold fuel_of, stream_structs. rewrite length_app, length_fmap. lia.
Qed.

Definition lazy_at (r : LazyReaderV1) (l : list UStruct) (tail : bytes) : Prop :=
  match l with
  | [] => current r = None ∧ at_end r tail
  | s :: rest => current r = Some s ∧ ∃ cur bs, at_stream r cur bs tail ∧
      rest = visible (filterSkips r) (stream_structs cur bs)
  end.

Lemma advanceL_stream r cur bs tail : at_stream r cur bs tail →
  ∃ r', advanceL r = (Ok tt, r') ∧ lazy_at r' (visible (filterSkips r) (stream_structs cur bs)) tail.
Proof.
  intros Hat. pose proof (advance_stream (fuel_of r) r cur bs tail Hat (advance_fuel _ _ _ _ Hat)) as H.
  unfold advanceL, lazy_at. destruct (visible _ _) as [|s rest].
  - destruct H as (r' & ? & ? & ?). by exists r'.
  - destruct H as (r' & cur' & bs' & ? & ? & ? & ? & ?). exists r'. split; [done|]. split; [done|]. by exists cur', bs'.
Qed.

Lemma lazy_next r s l tail : lazy_at r (s :: l) tail → ∃ r', LazyReader_Next r = (Ok tt, r') ∧ lazy_at r' l tail.
Proof. intros (_ & cur & bs & Hat & ->). by apply advanceL_stream. Qed.

Lemma lazy_current r l tail : lazy_at r l tail → LazyReader_Current r = head l.
Proof. destruct l; by intros [? _]. Qed.

Definition enc_update (bs : list block) (tail : bytes) : bytes :=
  Append [] (Z.of_nat (length bs)) ++ enc_blocks bs ++ tail.

Definition blocks_ok (bs : list block) : Prop := Forall block_ok bs ∧ is_u32 (Z.of_nat (length bs)).

Lemma lazy_start bs tail f : blocks_ok bs →
  ∃ r, NewLazyReaderV1 (enc_update bs tail) f = Ok r ∧ lazy_at r (visible f (blocks_structs bs)) tail.
Proof.
  intros [Hbs Hn]. unfold NewLazyReaderV1, enc_update.
  assert (view (NewReader (Append [] (Z.of_nat (length bs)) ++ enc_blocks bs ++ tail)) =
    Append [] (Z.of_nat (length bs)) ++ enc_blocks bs ++ tail) as Hv by done.
  rewrite (reads_readVarUint "ReadClientBlockCount" _ Hn _ _ (wf_NewReader _) Hv).
  destruct (advanceL_stream (mkLazy (advance (length (Append [] (Z.of_nat (length bs)))) (NewReader
    (Append [] (Z.of_nat (length bs)) ++ enc_blocks bs ++ tail))) (Z.of_nat (length bs)) 0 0 0 None f false false) [] bs tail)
    as (r & E & Hr).
  { constructor; cbn [decoder remainingStructs remainingClients currentClient currentClock structsExhausted deleteSetConsumed].
    - by eapply wf_advance; [apply wf_NewReader|].
    - by apply view_advance_app.
    - done.
    - done.
    - apply structs_ok_nil; u32.
    - done.
    - done. }
  rewrite E. by exists r.
Qed.

(** The delete set, once all structs were delivered. *)
Lemma lazy_deletes r tail ds : lazy_at r [] tail → reads ReadDeleteSetBlockV1 tail ds →
  ∃ r', LazyReader_ReadDeleteSet r = (Ok (Some ds), r').
Proof.
  intros [_ (Hw & Hv & He & Hc)] Hr. unfold LazyReader_ReadDeleteSet, mbind, LM_bind, getL.
  rewrite He, Hc. cbn [negb]. rewrite <- (app_nil_r tail) in Hv. rewrite (dec_reads _ _ _ r [] Hr Hw Hv).
  cbn [modifyL consume_deletes set_decoder decoder].
  assert (Remaining (advance (length tail) (decoder r)) = 0) as ->.
  { rewrite <- length_view by by eapply wf_advance. by rewrite (view_advance_app _ _ _ Hv). }
  by eexists.
Qed.

(** Running over the structs. *)
Lemma collect_stream fuel r l tail acc : lazy_at r l tail → (length l < fuel)%nat →
  ∃ r', collect_loop fuel acc r = (Ok (acc ++ l), r') ∧ lazy_at r' [] tail.
Proof.
  revert fuel r acc. induction l as [|s l IH]; intros [|fuel] r acc Hr Hf; try (cbn in Hf; lia);
    cbn [collect_loop]; unfold mbind, LM_bind, getL; rewrite (lazy_current _ _ _ Hr); cbn [head].
  - rewrite app_nil_r. by exists r.
  - destruct (lazy_next _ _ _ _ Hr) as (r1 & -> & Hr1). rewrite (cons_middle s acc l), app_assoc.
    apply IH; [done|cbn in Hf; lia].
Qed.

(** Decoding a well-formed block list. *)
Lemma lazy_fuel r l tail : lazy_at r l tail → (length l < fuel_of r)%nat.
Proof.
  destruct l as [|s l]; [unfold fuel_of; cbn; lia|]. intros (_ & cur & bs & Hat & ->).
  pose proof (advance_fuel _ _ _ _ Hat).
  enough (length (visible (filterSkips r) (stream_structs cur bs)) ≤ length (stream_structs cur bs))%nat.
  { destruct Hat as [Hw Hv _ _ (_ & _ & _ & Hf & _) [Hbs _] _]. pose proof (blocks_structs_length bs Hbs). pose proof (structs_length _ Hf).
    apply (f_equal length) in Hv. unfold view in Hv. rewrite length_drop, !length_app in Hv.
    unfold fuel_of, stream_structs in *. rewrite length_app, length_fmap in *. cbn [length]. lia. }
  unfold visible. destruct (filterSkips r); [apply length_filter|done].
Qed.

Lemma DecodeV1_blocks bs tail ds : blocks_ok bs → reads ReadDeleteSetBlockV1 tail ds →
  DecodeV1 (enc_update bs tail) = Ok (mkDecoded (blocks_structs bs) (Some ds)).
Proof.
  intros Hbs Hds. unfold DecodeV1. destruct (lazy_start bs tail false Hbs) as (r & -> & Hr).
  cbn [visible] in Hr. destruct (collect_stream (fuel_of r) r _ tail [] Hr (lazy_fuel _ _ _ Hr)) as (r1 & E1 & Hr1).
  unfold mbind, LM_bind. rewrite E1. destruct (lazy_deletes r1 tail ds Hr1 Hds) as (r2 & ->). done.
Qed.

(** ** Every accepted update is a block list *)

(** What holds of the reader between two structs. *)
Record inv (r : LazyReaderV1) : Prop := {
  inv_wf : wf_reader (decoder r);
  inv_bytes : is_bytes (view (decoder r));
  inv_client : is_u32 (currentClient r);
  inv_clock : is_u32 (currentClock r);
  inv_clients : is_u32 (remainingClients r);
  inv_structs : is_u32 (remainingStructs r);
  inv_flags : structsExhausted r = false ∧ deleteSetConsumed r = false;
}.

Lemma enterBlock_sound r r' : inv r → remainingStructs r = 0 → remainingClients r ≠ 0 → enterBlock r = (Ok tt, r') →
  inv r' ∧ (length (view (decoder r')) < length (view (decoder r)))%nat ∧ filterSkips r' = filterSkips r ∧
  current r' = current r ∧
  ∀ cur bs tail, at_stream r' cur bs tail →
    ∃ b, at_stream r [] (b :: bs) tail ∧ b_structs b = cur.
Proof.
  intros [Hw Hb Hcl Hck Hrc Hrs [Hex Hdc]] H0 Hn0. unfold enterBlock, mbind, LM_bind.
  destruct (dec (readVarUint "ReadStructCount") r) as [[cnt|] r1] eqn:E1; [|done].
  eapply dec_parses in E1; [|apply parses_readVarUint|exact Hw|exact Hb]. destruct E1 as (b1 & Hv1 & -> & Hw1 & Hcnt & ->).
  pose proof (is_bytes_suffix _ _ _ Hb Hv1) as Hb1.
  destruct (dec (readVarUint "ReadClient") _) as [[cl|] r2] eqn:E2; [|done].
  eapply dec_parses in E2; [|apply parses_readVarUint|exact Hw1|exact Hb1]. destruct E2 as (b2 & Hv2 & -> & Hw2 & Hc & ->).
  pose proof (is_bytes_suffix _ _ _ Hb1 Hv2) as Hb2.
  destruct (dec (readVarUint "ReadStartClock") _) as [[ck|] r3] eqn:E3; [|done].
  eapply dec_parses in E3; [|apply parses_readVarUint|exact Hw2|exact Hb2]. destruct E3 as (b3 & Hv3 & -> & Hw3 & Hk & ->).
  pose proof (is_bytes_suffix _ _ _ Hb2 Hv3) as Hb3.
  cbn [modifyL]. intros [= <-]. cbn [decoder set_decoder] in *.
  split; [by constructor; cbn; [..|apply w32_range|done|done]|]. split.
  { cbn [enter_block decoder set_decoder]. rewrite Hv1, Hv2, Hv3, !length_app. pose proof (Append_length _ Hcnt). lia. }
  split; [done|]. split; [done|].
  intros cur bs tail [Aw Av As Ac Acur [Abs Alen] _].
  cbn [enter_block set_decoder decoder remainingStructs remainingClients currentClient currentClock] in *.
  assert (is_u32 (Z.of_nat (length (mkBlock cl ck cur :: bs)))) as Hlen.
  { cbn [length]. rewrite w32_small in Ac by u32. u32. }
  exists (mkBlock cl ck cur). split; [|done]. constructor; [done| |done| |by apply structs_ok_nil|split; [by constructor|done]|done].
  - cbn [fmap list_fmap concat app]. rewrite enc_blocks_cons. unfold enc_block. cbn [b_structs b_client b_clock].
    rewrite <- As, <- !app_assoc, Hv1, Hv2, Hv3. by rewrite Av.
  - cbn [length] in *. rewrite w32_small in Ac by u32. lia.
Qed.

Lemma nextBlock_sound fuel r b r' : inv r → nextBlock fuel r = (Ok b, r') →
  (length (view (decoder r')) ≤ length (view (decoder r)))%nat ∧ filterSkips r' = filterSkips r ∧ current r' = current r ∧
  if b : bool then at_end r' (view (decoder r')) ∧ is_bytes (view (decoder r')) ∧
    ∃ bs, at_stream r [] bs (view (decoder r')) ∧ blocks_structs bs = []
  else inv r' ∧ remainingStructs r' ≠ 0 ∧ ∀ cur bs tail, cur ≠ [] → at_stream r' cur bs tail →
    ∃ cur0 bs0, at_stream r cur0 bs0 tail ∧ stream_structs cur0 bs0 = stream_structs cur bs.
Proof.
  revert r. induction fuel as [|fuel IH]; intros r Hinv; [done|]. rewrite nextBlock_S.
  destruct (Z.eqb_spec (remainingStructs r) 0) as [H0|H0]; [destruct (Z.eqb_spec (remainingClients r) 0) as [Hc|Hc]|].
  - intros [= <- <-]. destruct Hinv as [Hw Hb Hcl Hck Hrc Hrs [Hex Hdc]]. cbn [exhaust decoder filterSkips current].
    split_and!; [done..|]. exists []. split; [|done]. by constructor.
  - unfold mbind, LM_bind. destruct (enterBlock r) as [[[]|] r1] eqn:E; [|done]. intros Hn.
    destruct (enterBlock_sound r r1 Hinv H0 Hc E) as (Hinv1 & Hl1 & Hf1 & Hcu1 & Hat1).
    destruct (IH r1 Hinv1 Hn) as (Hl & Hf & Hcu & Hres). split; [lia|]. split; [congruence|]. split; [congruence|].
    destruct b.
    + destruct Hres as (He & Hb & bs & Hat & Hnil). split; [done|]. split; [done|].
      destruct (Hat1 _ _ _ Hat) as (b & Hat' & Hbs). exists (b :: bs). split; [done|].
      unfold blocks_structs in *. cbn [fmap list_fmap concat]. by rewrite Hbs.
    + destruct Hres as (Hinv' & Hne & Hat'). split; [done|]. split; [done|]. intros cur bs tail Hcur Hat.
      destruct (Hat' cur bs tail Hcur Hat) as (cur0 & bs0 & Hat0 & Es).
      destruct (Hat1 _ _ _ Hat0) as (b & Hat2 & Hbs). exists [], (b :: bs0). split; [done|].
      rewrite <- Es. unfold stream_structs, blocks_structs. cbn [fmap list_fmap concat]. by rewrite Hbs.
  - intros [= <- <-]. split_and!; [done..|]. intros cur bs tail _ Hat. by exists cur, bs.
Qed.

Lemma nextStruct_sound r o r' : inv r → nextStruct r = (Ok o, r') →
  filterSkips r' = filterSkips r ∧
  match o with
  | None => at_end r' (view (decoder r')) ∧ is_bytes (view (decoder r')) ∧
      ∃ bs, at_stream r [] bs (view (decoder r')) ∧ blocks_structs bs = []
  | Some s => inv r' ∧ (length (view (decoder r')) < length (view (decoder r)))%nat ∧
      ∀ cur bs tail, at_stream r' cur bs tail →
        ∃ cur0 bs0, at_stream r cur0 bs0 tail ∧ stream_structs cur0 bs0 = s :: stream_structs cur bs
  end.
Proof.
  intros Hinv. unfold nextStruct, mbind, LM_bind. destruct (nextBlock (fuel_of r) r) as [[b|] r1] eqn:E; [|done].
  destruct (nextBlock_sound _ _ _ _ Hinv E) as (Hl & Hf & Hcu & Hres). destruct b.
  { intros [= <- <-]. done. }
  destruct Hres as (Hinv1 & Hne & Hat1). destruct (readStruct r1) as [[s|] r2] eqn:E2; [|done]. intros [= <- <-].
  pose proof Hinv1 as [Hw1 Hb1 Hcl1 Hck1 Hrc1 Hrs1 Hfl1].
  destruct (readStruct_sound r1 s r2 Hw1 Hb1 ltac:(done) E2) as (bs & Hv & -> & Hw2 & Hr & Hid).
  pose proof Hr as (Hnil & Hok & _). destruct (struct_length_pos s Hok) as [Hlen Hmax].
  unfold struct_clock in Hmax. rewrite Hid in Hmax. cbn [id_Clock] in Hmax.
  split; [done|]. split; [|split].
  - constructor; try done; cbn; [by eapply is_bytes_suffix|apply w32_range..].
  - apply (f_equal length) in Hv. rewrite length_app in Hv. assert (length bs ≠ 0%nat) by by destruct bs. lia.
  - intros cur bs' tail Hat. apply (Hat1 ((bs, s) :: cur) bs' tail); [done|].
    destruct Hat as [Aw Av As Ac (_ & _ & Al & Af & Ach) Abs Afl]. 
    cbn [after_struct decoder remainingStructs remainingClients currentClient currentClock] in *.
    constructor; [done| |..|done|done].
    + cbn [fmap list_fmap concat fst]. by rewrite <- app_assoc, Hv, Av.
    + cbn [length]. rewrite w32_small in As by u32. lia.
    + done.
    + split_and!; [done|done| |by constructor|].
      * cbn [length]. rewrite w32_small in As by u32. u32.
      * cbn [fmap list_fmap chain snd]. split; [done|]. by rewrite w32_small in Ach by u32.
Qed.

Lemma advanceL_noskip r res r' : filterSkips r = false → advanceL r = (res, r') →
  ∃ o q, nextStruct r = (o, q) ∧ match o with
    | Ok o => filterSkips q = false → res = Ok tt ∧ r' = set_current o q
    | Err e => res = Err e ∧ r' = q end.
Proof.
  intros Hf. unfold advanceL, fuel_of. cbn [advance_loop]. unfold mbind, LM_bind, getL.
  destruct (nextStruct r) as [[o|e] q] eqn:E; intros Hr; eexists _, _; (split; [done|]); [|by injection Hr].
  intros Hq. rewrite Hq in Hr. cbn [andb] in Hr. destruct o; by injection Hr.
Qed.

(** The state after [advance]: the structs that were not yet delivered. *)
Definition at_sound (r : LazyReaderV1) : Prop :=
  filterSkips r = false ∧ match current r with
  | None => at_end r (view (decoder r)) ∧ is_bytes (view (decoder r))
  | Some _ => inv r
  end.

Lemma inv_set_current s r : inv r → inv (set_current s r).
Proof. by intros [? ? ? ? ? ? ?]. Qed.

Lemma at_stream_unset_current r cur bs tail s : at_stream (set_current s r) cur bs tail → at_stream r cur bs tail.
Proof. by intros [? ? ? ? ? ? ?]. Qed.

Lemma advanceL_sound r r' : inv r → filterSkips r = false → advanceL r = (Ok tt, r') →
  at_sound r' ∧ (current r' ≠ None → length (view (decoder r')) < length (view (decoder r)))%nat ∧
  match current r' with
  | None => ∃ bs, at_stream r [] bs (view (decoder r')) ∧ blocks_structs bs = []
  | Some s => ∀ cur bs tail, at_stream r' cur bs tail →
      ∃ cur0 bs0, at_stream r cur0 bs0 tail ∧ stream_structs cur0 bs0 = s :: stream_structs cur bs
  end.
Proof.
  intros Hinv Hf E. destruct (advanceL_noskip r _ r' Hf E) as ([o|e] & q & En & Hr); [|by destruct Hr].
  destruct (nextStruct_sound r o q Hinv En) as [Hfq Hres]. destruct Hr as [_ ->]; [congruence|].
  destruct o as [s|]; cbn [current set_current decoder].
  - destruct Hres as (Hq & Hl & Hat). split; [split; [cbn; congruence|by apply inv_set_current]|]. split; [done|].
    intros cur bs tail H%at_stream_unset_current. by apply Hat.
  - destruct Hres as (He & Hb & Hat). split; [split; [cbn; congruence|done]|]. split; [done|]. done.
Qed.

Lemma collect_sound fuel acc r out r' : at_sound r → collect_loop fuel acc r = (Ok out, r') →
  at_sound r' ∧ current r' = None ∧
  match current r with
  | None => out = acc ∧ r' = r
  | Some s => ∃ cur bs, at_stream r cur bs (view (decoder r')) ∧ out = acc ++ s :: stream_structs cur bs
  end.
Proof.
  revert acc r. induction fuel as [|fuel IH]; intros acc r Hr; [done|]. cbn [collect_loop].
  unfold mbind, LM_bind, getL, LazyReader_Current. destruct (current r) as [s|] eqn:Ec; [|by intros [= <- <-]].
  pose proof Hr as [Hf Hinv]. rewrite Ec in Hinv.
  destruct (LazyReader_Next r) as [[[]|] r1] eqn:E1; [|done]. intros Hcol.
  destruct (advanceL_sound r r1 Hinv Hf E1) as (Hr1 & _ & Hat). destruct (IH _ _ Hr1 Hcol) as (Hr' & Hc' & Hout).
  split; [done|]. split; [done|]. destruct (current r1) as [s1|].
  - destruct Hout as (cur & bs & Hat1 & ->). destruct (Hat _ _ _ Hat1) as (cur0 & bs0 & Hat0 & Es).
    exists cur0, bs0. split; [done|]. by rewrite Es, <- app_assoc.
  - destruct Hout as [-> ->]. destruct Hat as (bs & Hat & Hnil). exists [], bs. split; [done|].
    unfold stream_structs. by rewrite Hnil.
Qed.

(** The delete set of an accepted update: the entries it was built from. *)
Definition deletes_ok (tail : bytes) (ds : DeleteSet) : Prop := ∃ es,
  tail = enc_entries es ∧ is_u32 (Z.of_nat (length es)) ∧ run_list add_entry NewDeleteSet es ds.

Lemma deletes_ok_reads tail ds : deletes_ok tail ds → reads ReadDeleteSetBlockV1 tail ds.
Proof. intros (es & -> & Hn & Hrun). by apply reads_entries. Qed.

Lemma ReadDeleteSet_sound r o r' : at_sound r → current r = None → LazyReader_ReadDeleteSet r = (Ok o, r') →
  ∃ ds, o = Some ds ∧ deletes_ok (view (decoder r)) ds.
Proof.
  intros [_ Hr] Hc. rewrite Hc in Hr. destruct Hr as [(Hw & _ & He & Hd) Hb].
  unfold LazyReader_ReadDeleteSet, mbind, LM_bind, getL. rewrite He, Hd. cbn [negb].
  destruct (dec ReadDeleteSetBlockV1 r) as [[ds|] r1] eqn:E; [|done]. cbn [modifyL].
  eapply dec_parses in E; [|apply parses_ReadDeleteSetBlockV1|exact Hw|exact Hb].
  destruct E as (bs & Hv & -> & Hw1 & es & -> & Hn & Hrun). cbn [consume_deletes set_decoder decoder] in *.
  destruct (Z.eqb_spec (Remaining (advance (length (enc_entries es)) (decoder r))) 0) as [H0|]; [|done].
  cbn [negb]. intros [= <- <-]. exists ds. split; [done|]. exists es. split; [|done].
  rewrite <- length_view in H0 by done. destruct (view (advance _ _)); [|cbn in H0; lia]. by rewrite Hv, app_nil_r.
Qed.

Theorem decode_blocks u d : is_bytes u → DecodeV1 u = Ok d →
  ∃ bs tail ds, u = enc_update bs tail ∧ blocks_ok bs ∧ deletes_ok tail ds ∧
    d = mkDecoded (blocks_structs bs) (Some ds).
Proof.
  intros Hb. unfold DecodeV1, NewLazyReaderV1.
  destruct (readVarUint "ReadClientBlockCount" (NewReader u)) as [[cnt|] d0] eqn:E0; [|done].
  destruct (parses_readVarUint _ _ _ _ (wf_NewReader u) Hb E0) as (b0 & Hv0 & -> & Hw0 & Hcnt & ->).
  rewrite view_NewReader in Hv0. set (r0 := mkLazy _ cnt 0 0 0 None false false false).
  assert (inv r0) as Hinv.
  { constructor; subst r0; cbn [decoder remainingStructs remainingClients currentClient currentClock structsExhausted deleteSetConsumed];
      [done| |u32|u32|done|u32|done]. apply (is_bytes_suffix (Append [] cnt) _ (NewReader u)); [done|]. by rewrite view_NewReader. }
  destruct (advanceL r0) as [[[]|] r1] eqn:E1; [|done].
  destruct (advanceL_sound r0 r1 Hinv eq_refl E1) as (Hr1 & _ & Hat). unfold mbind, LM_bind.
  destruct (collect_loop (fuel_of r1) [] r1) as [[structs|] r2] eqn:E2; [|done].
  destruct (collect_sound _ _ _ _ _ Hr1 E2) as (Hr2 & Hc2 & Hout).
  destruct (LazyReader_ReadDeleteSet r2) as [[o|] r3] eqn:E3; [|done].
  destruct (ReadDeleteSet_sound _ _ _ Hr2 Hc2 E3) as (ds & -> & Hds). intros [= <-].
  assert (∃ bs, at_stream r0 [] bs (view (decoder r2)) ∧ structs = blocks_structs bs) as (bs & [_ Av _ Ac _ Abs _] & ->).
  { destruct (current r1) as [s|].
    - destruct Hout as (cur & bs & Hat1 & ->). destruct (Hat _ _ _ Hat1) as (cur0 & bs0 & Hat0 & Es).
      exists bs0. pose proof Hat0 as [_ _ As0 _ _ _ _]. destruct cur0; [|cbn in As0; lia]. by rewrite <- Es.
    - destruct Hout as [-> ->]. destruct Hat as (bs & Hat & Hnil). by exists bs. }
  exists bs, (view (decoder r2)), ds. split_and!; [|done..]. unfold enc_update.
  subst r0. cbn [decoder remainingClients] in Av, Ac. cbn [fmap list_fmap concat app] in Av.
  by rewrite <- Ac, <- Av.
Qed.

(** ** Decoding terminates on every input *)

Lemma dec_fine {A} (m : RM A) r : wf_reader (decoder r) → (∀ n, agree n m m) → fst (dec m r) ≠ Err FuelExhausted.
Proof.
  intros Hw Hm. unfold dec. destruct (Hm (Remaining (decoder r)) (decoder r)) as (_ & _ & H).
  { rewrite <- length_view by done. lia. }
  by destruct (m (decoder r)) as [? ?].
Qed.

Lemma newBaseStruct_fine id len : newBaseStruct id len ≠ Err FuelExhausted.
Proof. unfold newBaseStruct, addClock. case_if; [done|]. by case_if. Qed.

Lemma agree_readItemAt n id info : agree n (readItemAt id info) (readItemAt id info).
Proof.
  assert (∀ b op, agree n (readOptID b op) (readOptID b op)) as Ho by (intros [] op; unfold readOptID; auto with agree).
  unfold readItemAt. apply agree_bind; [done|]. intros o. apply agree_bind; [done|]. intros ro.
  apply agree_bind.
  - unfold readParent, readParentInfo. apply agree_if; [|auto with agree].
    apply agree_bind; [apply agree_bind; [auto with agree|]; intros v; repeat apply agree_if; auto with agree|].
    intros isRoot. apply agree_bind; [|intros p; apply agree_bind; [apply agree_if; auto with agree|auto with agree]].
    destruct isRoot; [|auto with agree]. apply agree_bind; [auto with agree|]. intros root. apply agree_lift. by destruct root.
  - intros [p sub]. apply agree_bind; [apply agree_readItemContentV1|]. intros c. apply agree_lift.
    unfold NewItemOwnedIDs, newItem. destruct (newBaseStruct id (content_Length c)) eqn:E; [done|].
    intros [= ->]. by eapply newBaseStruct_fine.
Qed.

Lemma enterBlock_fine r : inv r → fst (enterBlock r) ≠ Err FuelExhausted.
Proof.
  intros [Hw Hb _ _ _ _ _]. unfold enterBlock, mbind, LM_bind.
  assert (∀ op n, agree n (readVarUint op) (readVarUint op)) as Hv by auto with agree.
  pose proof (dec_fine (readVarUint "ReadStructCount") r Hw ltac:(auto)) as H1.
  destruct (dec (readVarUint "ReadStructCount") r) as [[cnt|] r1] eqn:E1; [|cbn in *; congruence].
  eapply dec_parses in E1; [|apply parses_readVarUint|exact Hw|exact Hb]. destruct E1 as (b1 & Hv1 & -> & Hw1 & _).
  pose proof (is_bytes_suffix _ _ _ Hb Hv1) as Hb1.
  pose proof (dec_fine (readVarUint "ReadClient") _ Hw1 ltac:(auto)) as H2.
  destruct (dec (readVarUint "ReadClient") _) as [[cl|] r2] eqn:E2; [|cbn in *; congruence].
  eapply dec_parses in E2; [|apply parses_readVarUint|exact Hw1|exact Hb1]. destruct E2 as (b2 & Hv2 & -> & Hw2 & _).
  pose proof (dec_fine (readVarUint "ReadStartClock") _ Hw2 ltac:(auto)) as H3.
  destruct (dec (readVarUint "ReadStartClock") _) as [[ck|] r3]; cbn in *; congruence.
Qed.

Lemma nextBlock_fine fuel r : inv r → (length (view (decoder r)) < fuel)%nat → fst (nextBlock fuel r) ≠ Err FuelExhausted.
Proof.
  revert r. induction fuel as [|fuel IH]; intros r Hinv Hf; [lia|]. rewrite nextBlock_S.
  destruct (Z.eqb_spec (remainingStructs r) 0) as [H0|]; [destruct (Z.eqb_spec (remainingClients r) 0) as [|Hc]|]; [done| |done].
  unfold mbind, LM_bind. pose proof (enterBlock_fine r Hinv) as He.
  destruct (enterBlock r) as [[[]|e] r1] eqn:E; [|cbn in *; congruence].
  destruct (enterBlock_sound r r1 Hinv H0 Hc E) as (Hinv1 & Hl & _). apply IH; [done|lia].
Qed.

Lemma readStruct_fine r : inv r → fst (readStruct r) ≠ Err FuelExhausted.
Proof.
  intros [Hw Hb _ _ _ _ _]. unfold readStruct, mbind, LM_bind.
  pose proof (dec_fine readInfo r Hw ltac:(intros; unfold readInfo; auto with agree)) as H1.
  destruct (dec readInfo r) as [[info|] r1] eqn:E1; [|cbn in *; congruence].
  eapply dec_parses in E1; [|apply parses_catch, parses_ReadByte|exact Hw|exact Hb]. destruct E1 as (b1 & Hv1 & -> & Hw1 & _).
  cbn [modifyL]. destruct (info =? 10); [|destruct (negb _)].
  - pose proof (dec_fine (readVarUint "ReadSkipLength") (take_struct (set_decoder r (advance (length b1) (decoder r)))) Hw1 ltac:(auto with agree)) as H2.
    destruct (dec (readVarUint "ReadSkipLength") _) as [[len|] r2]; [|cbn in *; congruence]. cbn [getL liftL].
    unfold NewSkip. destruct (newBaseStruct _ len) eqn:E; cbn; [done|]. intros [= ->]. by eapply newBaseStruct_fine.
  - unfold readItem, mbind, LM_bind. cbn [getL].
    pose proof (dec_fine (readItemAt (mkID (currentClient (take_struct (set_decoder r (advance (length b1) (decoder r)))))
      (currentClock (take_struct (set_decoder r (advance (length b1) (decoder r)))))) info)
      (take_struct (set_decoder r (advance (length b1) (decoder r)))) Hw1 ltac:(intros; apply agree_readItemAt)) as H2.
    destruct (dec (readItemAt _ info) _) as [[i|] r2]; [done|cbn in *; congruence].
  - pose proof (dec_fine (readVarUint "ReadGCLength") (take_struct (set_decoder r (advance (length b1) (decoder r)))) Hw1 ltac:(auto with agree)) as H2.
    destruct (dec (readVarUint "ReadGCLength") _) as [[len|] r2]; [|cbn in *; congruence]. cbn [getL liftL].
    unfold NewGC. destruct (newBaseStruct _ len) eqn:E; cbn; [done|]. intros [= ->]. by eapply newBaseStruct_fine.
Qed.

Lemma view_fuel r : (length (view (decoder r)) < fuel_of r)%nat.
Proof. unfold fuel_of, view. rewrite length_drop. lia. Qed.
Lemma view_fuel_S r : (S (length (view (decoder r))) < fuel_of r)%nat.
Proof. unfold fuel_of, view. rewrite length_drop. lia. Qed.

Lemma nextStruct_fine r : inv r → fst (nextStruct r) ≠ Err FuelExhausted.
Proof.
  intros Hinv. unfold nextStruct, mbind, LM_bind. pose proof (nextBlock_fine _ r Hinv (view_fuel r)) as H.
  destruct (nextBlock (fuel_of r) r) as [[b|e] r1] eqn:E; [|cbn in *; congruence].
  destruct (nextBlock_sound _ _ _ _ Hinv E) as (_ & _ & _ & Hres). destruct b; [done|]. destruct Hres as (Hinv1 & _ & _).
  pose proof (readStruct_fine r1 Hinv1) as H2. destruct (readStruct r1) as [[s|e] r2]; cbn in *; congruence.
Qed.

Lemma advance_fine fuel r : inv r → (length (view (decoder r)) < fuel)%nat → fst (advance_loop fuel r) ≠ Err FuelExhausted.
Proof.
  revert r. induction fuel as [|fuel IH]; intros r Hinv Hf; [lia|]. cbn [advance_loop]. unfold mbind, LM_bind, getL.
  pose proof (nextStruct_fine r Hinv) as H. destruct (nextStruct r) as [[o|e] r1] eqn:E; [|cbn in *; congruence].
  destruct (nextStruct_sound _ _ _ Hinv E) as [_ Hres]. destruct o as [s|]; [|done].
  destruct (filterSkips r1 && isSkip s); [|done]. destruct Hres as (Hinv1 & Hl & _). apply IH; [done|lia].
Qed.

Lemma collect_fine fuel acc r : at_sound r → (S (length (view (decoder r))) < fuel)%nat →
  fst (collect_loop fuel acc r) ≠ Err FuelExhausted.
Proof.
  revert acc r. induction fuel as [|fuel IH]; intros acc r Hr Hf; [lia|]. cbn [collect_loop].
  unfold mbind, LM_bind, getL, LazyReader_Current. destruct (current r) as [s|] eqn:Ec; [|done].
  destruct Hr as [Hfs Hinv]. rewrite Ec in Hinv. unfold LazyReader_Next, advanceL.
  pose proof (advance_fine (fuel_of r) r Hinv (view_fuel r)) as H.
  destruct (advance_loop (fuel_of r) r) as [[[]|e] r1] eqn:E; [|cbn in *; congruence].
  destruct (advanceL_sound r r1 Hinv Hfs E) as (Hr1 & Hl & _).
  destruct (current r1) as [s1|] eqn:Ec1; [apply IH; [done|specialize (Hl ltac:(done)); lia]|].
  destruct fuel as [|fuel]; [lia|]. cbn [collect_loop]. unfold mbind, LM_bind, getL, LazyReader_Current. by rewrite Ec1.
Qed.

Lemma Decode_total u : is_bytes u → DecodeV1 u ≠ Err FuelExhausted.
Proof.
  intros Hb. unfold DecodeV1, NewLazyReaderV1.
  destruct (agree_readVarUint (Remaining (NewReader u)) "ReadClientBlockCount" (NewReader u)) as (_ & _ & H0);
    [unfold Remaining; cbn; lia|].
  destruct (readVarUint "ReadClientBlockCount" (NewReader u)) as [[cnt|] d0] eqn:E0; [|cbn in *; congruence].
  destruct (parses_readVarUint _ _ _ _ (wf_NewReader u) Hb E0) as (b0 & Hv0 & -> & Hw0 & Hcnt & ->).
  rewrite view_NewReader in Hv0. set (r0 := mkLazy _ cnt 0 0 0 None false false false).
  assert (inv r0) as Hinv.
  { constructor; subst r0; cbn [decoder remainingStructs remainingClients currentClient currentClock structsExhausted deleteSetConsumed];
      [done| |u32|u32|done|u32|done]. apply (is_bytes_suffix (Append [] cnt) _ (NewReader u)); [done|]. by rewrite view_NewReader. }
  pose proof (advance_fine (fuel_of r0) r0 Hinv (view_fuel r0)) as H1. fold (advanceL r0) in H1.
  destruct (advanceL r0) as [[[]|] r1] eqn:E1; [|cbn in *; congruence].
  destruct (advanceL_sound r0 r1 Hinv eq_refl E1) as (Hr1 & _ & _). unfold mbind, LM_bind.
  pose proof (collect_fine (fuel_of r1) [] r1 Hr1 (view_fuel_S r1)) as H2.
  destruct (collect_loop (fuel_of r1) [] r1) as [[structs|] r2] eqn:E2; [|cbn in *; congruence].
  destruct (collect_sound _ _ _ _ _ Hr1 E2) as (Hr2 & Hc2 & _). destruct Hr2 as [_ Hr2]. rewrite Hc2 in Hr2.
  destruct Hr2 as [(Hw2 & _ & He & Hd) _]. unfold LazyReader_ReadDeleteSet, mbind, LM_bind, getL. rewrite He, Hd. cbn [negb].
  pose proof (dec_fine ReadDeleteSetBlockV1 r2 Hw2 ltac:(intros; apply agree_ReadDeleteSetBlockV1)) as H3.
  destruct (dec ReadDeleteSetBlockV1 r2) as [[ds|] r3]; [|cbn in *; congruence]. cbn [modifyL]. by destruct (negb _).
Qed.
