(* ===== verification/UpdateEncode.v ===== *)
(** * The lazy writer and EncodeV1

    The writer is abstracted by the blocks it has finished and the one it is
    filling ([wstate], [put]); [writer_rep] relates it to the bytes of
    lazy_writer_v1.go.  [write_list] says what any sequence of writes produces:
    the encoding of the well-formed blocks whose structs are those that were
    written. *)
From S2P Require Import Prelude GoError Binary Ranges IdSet IdSetFacts Varint GoText YTypes DeleteSet Decoder DecoderFacts Content Update UpdateFacts UpdateStream.
Import varint.

(** ** The abstract writer *)

(** The block being filled: client, first clock, structs. *)
Definition wstate : Type := list block * option (Z * Z * list UStruct).

Definition wblock (c k : Z) (l : list UStruct) : block :=
  mkBlock c k ((λ s, (enc_struct s, wire s)) <$> l).

Definition put (st : wstate) (s : UStruct) : wstate :=
  match st with
  | (bs, Some (c, k, l)) =>
      if c =? struct_client s then (bs, Some (c, k, l ++ [s]))
      else (bs ++ [wblock c k l], Some (struct_client s, struct_clock s, [s]))
  | (bs, None) => (bs, Some (struct_client s, struct_clock s, [s]))
  end.

Definition wfinish (st : wstate) : list block :=
  match st with
  | (bs, Some (c, k, l)) => bs ++ [wblock c k l]
  | (bs, None) => bs
  end.

(** The clock behind a chain. *)
Definition chain_end (k : Z) (l : list UStruct) : Z := foldl (λ k s, k + struct_Length s) k l.

(** [s] may follow what was written: a struct of the client being written comes
    right behind it. *)
Definition follows (st : wstate) (s : UStruct) : Prop :=
  match st with
  | (_, Some (c, k, l)) => c = struct_client s → struct_clock s = chain_end k l
  | _ => True
  end.

Fixpoint follows_all (st : wstate) (l : list UStruct) : Prop :=
  match l with
  | [] => True
  | s :: l => follows st s ∧ follows_all (put st s) l
  end.

Definition wstructs (st : wstate) : list UStruct :=
  match st with
  | (bs, Some (_, _, l)) => blocks_structs bs ++ (wire <$> l)
  | (bs, None) => blocks_structs bs
  end.

Definition wstate_ok (st : wstate) : Prop :=
  Forall block_ok st.1 ∧
  match st.2 with
  | Some (c, k, l) => l ≠ [] ∧ is_u32 c ∧ is_u32 k ∧ Forall struct_ok l ∧ chain c k l
  | None => True
  end.

Lemma chain_app c k l1 l2 : chain c k (l1 ++ l2) ↔ chain c k l1 ∧ chain c (chain_end k l1) l2.
Proof. revert k. induction l1 as [|s l1 IH]; intros k; cbn; [tauto|]. rewrite IH. tauto. Qed.

(** A chain of well-formed structs is short enough to be counted. *)
Lemma chain_length c k l : chain c k l → Forall struct_ok l → l ≠ [] →
  k + Z.of_nat (length l) <= chain_end k l ∧ chain_end k l <= MaxUint32.
Proof.
  revert k. induction l as [|s l IH]; intros k; [done|]. intros [Hid Hch] [Hs Hl]%Forall_cons _.
  destruct (struct_length_pos s Hs) as [Hpos Hle]. unfold struct_clock in Hle. rewrite Hid in Hle. cbn in Hle |- *.
  destruct l as [|t l]; [cbn; lia|]. destruct (IH _ Hch Hl) as [? ?]; [done|]. cbn in *. lia.
Qed.

Lemma chain_length_u32 c k l : chain c k l → Forall struct_ok l → 0 <= k → is_u32 (Z.of_nat (length l)).
Proof.
  intros Hch Hl Hk. destruct l as [|s l]; [cbn; u32|]. destruct (chain_length c k (s :: l) Hch Hl); [done|]. u32.
Qed.

Lemma chain_wire c k l : chain c k (wire <$> l) ↔ chain c k l.
Proof.
  revert k. induction l as [|s l IH]; intros k; cbn; [done|]. unfold struct_ID, struct_Length. by rewrite wire_base, IH.
Qed.

Lemma struct_ID_eta s : struct_ID s = mkID (struct_client s) (struct_clock s).
Proof. unfold struct_client, struct_clock. by destruct (struct_ID s). Qed.

Lemma struct_ok_ID s : struct_ok s → is_u32 (struct_client s) ∧ is_u32 (struct_clock s).
Proof. by intros [([? ?] & _) _]. Qed.

Lemma wblock_ok c k l : is_u32 c → is_u32 k → is_u32 (Z.of_nat (length l)) → Forall struct_ok l → chain c k l →
  block_ok (wblock c k l).
Proof.
  intros Hc Hk Hl Hf Hch. unfold block_ok, structs_ok; cbn [wblock b_client b_clock b_structs].
  rewrite length_fmap, <- list_fmap_compose. split_and!; [done..| |].
  - apply Forall_fmap. eapply Forall_impl; [done|]. intros s Hs. by apply enc_struct_reads.
  - change (snd ∘ (λ s, (enc_struct s, wire s))) with wire. by apply chain_wire.
Qed.

Lemma enc_wblock c k l : enc_block (wblock c k l) =
  Append [] (Z.of_nat (length l)) ++ Append [] c ++ Append [] k ++ concat (enc_struct <$> l).
Proof. unfold enc_block; cbn [wblock b_client b_clock b_structs]. rewrite length_fmap, <- list_fmap_compose. done. Qed.

Lemma enc_blocks_app b1 b2 : enc_blocks (b1 ++ b2) = enc_blocks b1 ++ enc_blocks b2.
Proof. unfold enc_blocks. by rewrite fmap_app, concat_app. Qed.

Lemma blocks_structs_app b1 b2 : blocks_structs (b1 ++ b2) = blocks_structs b1 ++ blocks_structs b2.
Proof. unfold blocks_structs. by rewrite fmap_app, concat_app. Qed.

Lemma blocks_structs_wblock c k l : blocks_structs [wblock c k l] = wire <$> l.
Proof. unfold blocks_structs; cbn. by rewrite <- list_fmap_compose, app_nil_r. Qed.

Lemma wstructs_put st s : wstructs (put st s) = wstructs st ++ [wire s].
Proof.
  destruct st as [bs [[[c k] l]|]]; cbn [put wstructs]; [|done].
  case_if; cbn [wstructs]; [by rewrite fmap_app, app_assoc|].
  by rewrite blocks_structs_app, blocks_structs_wblock.
Qed.

Lemma wfinish_structs st : blocks_structs (wfinish st) = wstructs st.
Proof.
  destruct st as [bs [[[c k] l]|]]; cbn [wfinish wstructs]; [|done].
  by rewrite blocks_structs_app, blocks_structs_wblock.
Qed.

Lemma put_ok st s : wstate_ok st → struct_ok s → follows st s → wstate_ok (put st s).
Proof.
  intros [Hbs Hcur] Hs Hfo. destruct (struct_ok_ID s Hs). destruct st as [bs [[[c k] l]|]]; cbn in *.
  - destruct Hcur as (Hne & Hc & Hk & Hl & Hch). case_if; cbn.
    + split; [done|]. split_and!; [by destruct l|done|done|apply Forall_app; split; [done|by apply Forall_singleton]|].
      apply chain_app. split; [done|]. cbn. rewrite struct_ID_eta, Hfo by done. by subst.
    + split; [apply Forall_app; split; [done|constructor; [|done]]; apply wblock_ok; try done; eapply chain_length_u32; try done; apply Hk|].
      split_and!; [done..|by constructor|]. cbn. by rewrite struct_ID_eta.
  - split; [done|]. split_and!; [done..|by constructor|]. cbn. by rewrite struct_ID_eta.
Qed.

(** ** The writer implements it *)

Definition writer_rep (w : lazyWriterV1) (st : wstate) : Prop :=
  w_body w = enc_blocks st.1 ∧ fragmentCount w = Z.of_nat (length st.1) ∧
  match st.2 with
  | Some (c, k, l) => currClient w = c ∧ written w = Z.of_nat (length l) ∧ l ≠ [] ∧
      w_current w = Append [] c ++ Append [] k ++ concat (enc_struct <$> l)
  | None => written w = 0
  end.

Lemma rep_new : writer_rep newLazyWriterV1 ([], None).
Proof. done. Qed.

Lemma rep_flush w bs c k l : writer_rep w (bs, Some (c, k, l)) → is_u32 (Z.of_nat (S (length bs))) →
  writer_rep (writer_flush w) (bs ++ [wblock c k l], None) ∧ written (writer_flush w) = 0.
Proof.
  intros (Hb & Hf & Hc & Hw & Hne & Hcur) Hn. cbn [fst snd] in *. unfold writer_flush.
  assert (length l ≠ 0%nat) by by destruct l.
  rewrite (proj2 (Z.eqb_neq (written w) 0)) by lia. split; [|done]. unfold writer_rep. cbn [fst snd w_body fragmentCount written].
  rewrite enc_blocks_app, length_app. cbn [length]. split_and!; [|rewrite Hf, w32_small by u32; lia|done].
  unfold appendVarUintV1. rewrite Append_app, Hb, Hw, Hcur, <- app_assoc. f_equal.
  unfold enc_blocks. cbn [fmap list_fmap concat]. by rewrite app_nil_r, enc_wblock.
Qed.

(** A write, possibly of a window of the struct: the struct [s'] is appended. *)
Definition window (s : UStruct) (a b : Z) (s' : UStruct) : Prop :=
  (a = 0 ∧ b = 0 ∧ s' = s) ∨ ((a = 0 → b ≠ 0) ∧ sliceStructWindowV1 s a b = Ok s').

Lemma appendStructRange_ok dst s a b s' : window s a b s' → struct_ok s' →
  appendStructRangeV1 dst s a b = Ok (dst ++ enc_struct s').
Proof.
  intros [(-> & -> & ->)|[Hab Hs]] Hok; unfold appendStructRangeV1; [by apply appendStructV1_ok|].
  assert ((a =? 0) && (b =? 0) = false) as ->.
  { destruct (Z.eqb_spec a 0), (Z.eqb_spec b 0); try done. tauto. }
  rewrite Hs. cbn. by apply appendStructV1_ok.
Qed.

Lemma rep_write w st s a b s' : writer_rep w st → wstate_ok st → follows st s' → window s a b s' → struct_ok s' →
  struct_client s = struct_client s' → ID_Offset (struct_ID s) a = Ok (struct_ID s') →
  is_u32 (Z.of_nat (length (wfinish (put st s')))) →
  ∃ w', writer_write w s a b = (w', None) ∧ writer_rep w' (put st s').
Proof.
  intros Hrep Hok Hfo Hwin Hs' Hcl Hoff Hn. unfold writer_write. rewrite Hcl.
  assert (∀ w bs, writer_rep w (bs, None) →
    ∃ w', match (if written w =? 0 then startID ← ID_Offset (struct_ID s) a;
             Ok (mkWriter (struct_client s') (written w) (fragmentCount w)
               (appendVarUintV1 (appendVarUintV1 [] (struct_client s')) (id_Clock startID)) (w_body w)) else Ok w) with
      | Ok w0 => match appendStructRangeV1 (w_current w0) s a b with
          | Ok bs => (mkWriter (currClient w0) (w32 (written w0 + 1)) (fragmentCount w0) bs (w_body w0), None)
          | Err err => (mkWriter (currClient w0) (written w0) (fragmentCount w0) [] (w_body w0), Some err) end
      | Err err => (w, Some err) end = (w', None) ∧
      writer_rep w' (bs, Some (struct_client s', struct_clock s', [s']))) as Hfresh.
  { intros w0 bs0 (Hb & Hf & H0). cbn [fst snd] in *. rewrite H0. change (0 =? 0) with true. cbn iota.
    rewrite Hoff. cbn [mbind result_bind w_current]. rewrite (appendStructRange_ok _ s a b s' Hwin Hs').
    eexists. split; [done|]. unfold writer_rep; cbn. rewrite app_nil_r. split_and!; try done.
    unfold appendVarUintV1. rewrite Append_app, <- app_assoc. done. }
  pose proof (put_ok st s' Hok Hs' Hfo) as [_ Hcur']. destruct st as [bs [[[c k] l]|]].
  - pose proof Hrep as (Hb & Hf & Hc & Hw & Hne & Hcur). cbn [fst snd] in *.
    assert (length l ≠ 0%nat) by by destruct l.
    rewrite (proj2 (Z.ltb_lt 0 (written w))) by lia. rewrite Hc. cbn [put andb] in *.
    destruct (Z.eqb_spec c (struct_client s')) as [Heq|Hneq]; cbn [negb].
    + rewrite (proj2 (Z.eqb_neq (written w) 0)) by lia.
      rewrite (appendStructRange_ok _ s a b s' Hwin Hs'). eexists. split; [done|].
      destruct Hcur' as (_ & _ & [Hk _] & Hlok & Hch). pose proof (chain_length_u32 _ _ _ Hch Hlok Hk) as Hlen.
      rewrite length_app in Hlen. unfold writer_rep; cbn. rewrite length_app. cbn [length] in *. split_and!; try done.
      * rewrite Hw, w32_small by u32. lia.
      * by destruct l.
      * rewrite Hcur, fmap_app, concat_app. cbn. by rewrite app_nil_r, <- !app_assoc.
    + cbn [wfinish] in Hn. rewrite !length_app in Hn. cbn [length] in Hn.
      destruct (rep_flush w bs c k l Hrep) as [Hrep' Hw0]; [u32|]. by apply Hfresh.
  - pose proof Hrep as (Hb & Hf & H0). cbn [fst snd] in *.
    replace (0 <? written w) with false by by rewrite H0. cbn [andb put]. by apply Hfresh.
Qed.

Lemma rep_finish w st dst : writer_rep w st → is_u32 (Z.of_nat (length (wfinish st))) →
  fst (writer_finish w dst) = Ok (dst ++ Append [] (Z.of_nat (length (wfinish st))) ++ enc_blocks (wfinish st)).
Proof.
  intros Hrep Hn. unfold writer_finish, appendVarUintV1. cbn [fst]. rewrite Append_app, <- app_assoc.
  destruct st as [bs [[[c k] l]|]]; cbn [wfinish] in *.
  - rewrite length_app in Hn. cbn in Hn. destruct (rep_flush w bs c k l Hrep) as [(Hb & Hf & _) _]; [u32|]. by rewrite Hb, Hf.
  - destruct Hrep as (Hb & Hf & H0). cbn in *. unfold writer_flush. rewrite H0. cbn. by rewrite Hb, Hf.
Qed.

(** ** Sequences of writes *)

(** A write opens at most one block, and none disappears. *)
Lemma wfinish_put st s : (length (wfinish st) ≤ length (wfinish (put st s)) ≤ S (length (wfinish st)))%nat.
Proof. destruct st as [bs [[[c k] l]|]]; cbn; [case_if; cbn|]; rewrite ?length_app; cbn; lia. Qed.

Lemma wfinish_puts l st :
  (length (wfinish st) ≤ length (wfinish (fold_left put l st)) ≤ length (wfinish st) + length l)%nat.
Proof.
  revert st. induction l as [|s l IH]; intros st; cbn; [lia|]. pose proof (wfinish_put st s). specialize (IH (put st s)). lia.
Qed.

Lemma ID_Offset_0 id : wf_ID id → ID_Offset id 0 = Ok id.
Proof.
  intros [_ [? ?]]. unfold ID_Offset. rewrite (proj2 (addClock_Ok (id_Clock id) 0 (id_Clock id) ltac:(lia) ltac:(lia))); [by destruct id|].
  u32.
Qed.

Lemma write_all_rep w st l : writer_rep w st → wstate_ok st → follows_all st l → Forall struct_ok l →
  is_u32 (Z.of_nat (length (wfinish (fold_left put l st)))) →
  ∃ w', write_all w l = Ok w' ∧ writer_rep w' (fold_left put l st) ∧ wstate_ok (fold_left put l st) ∧
    wstructs (fold_left put l st) = wstructs st ++ (wire <$> l).
Proof.
  revert w st. induction l as [|s l IH]; intros w st Hrep Hok Hfo Hs Hn; cbn [write_all fold_left] in *.
  { exists w. rewrite app_nil_r. done. }
  apply Forall_cons in Hs as [Hs Hl]. destruct Hfo as [Hf Hfo]. pose proof (wfinish_puts l (put st s)).
  destruct (rep_write w st s 0 0 s Hrep Hok Hf) as (w1 & -> & Hrep1); [by left|done|done|apply ID_Offset_0, Hs|u32|].
  pose proof (put_ok st s Hok Hs Hf) as Hok1.
  destruct (IH w1 (put st s) Hrep1 Hok1 Hfo Hl Hn) as (w' & E & Hrep' & Hok' & Hst').
  exists w'. split_and!; [done..|]. rewrite Hst', wstructs_put, <- app_assoc. done.
Qed.

Lemma wfinish_ok st : wstate_ok st → is_u32 (Z.of_nat (length (wfinish st))) → blocks_ok (wfinish st).
Proof.
  intros [Hbs Hcur] Hn. destruct st as [bs [[[c k] l]|]]; cbn in *; [|done].
  destruct Hcur as (Hne & Hc & Hk & Hl & Hch). split; [|done].
  apply Forall_app. split; [done|]. constructor; [|done]. apply wblock_ok; try done. eapply chain_length_u32; try done. apply Hk.
Qed.

(** What a finished sequence of writes has written. *)
Lemma finish_list w st : writer_rep w st → wstate_ok st → is_u32 (Z.of_nat (length (wfinish st))) →
  ∃ bs, (∀ tail, fst (writer_finish w []) ≫= (λ out, Ok (out ++ tail)) = Ok (enc_update bs tail)) ∧
    blocks_ok bs ∧ blocks_structs bs = wstructs st.
Proof.
  intros Hrep Hok Hn. exists (wfinish st). split; [|split; [by apply wfinish_ok|apply wfinish_structs]].
  intros tail. rewrite (rep_finish w _ [] Hrep Hn). cbn. unfold enc_update. by rewrite <- app_assoc.
Qed.

(** Any sequence of writes, started and finished. *)
Lemma write_list l : follows_all ([], None) l → Forall struct_ok l →
  is_u32 (Z.of_nat (length (wfinish (fold_left put l ([], None))))) →
  ∃ w bs, write_all newLazyWriterV1 l = Ok w ∧
    (∀ tail, fst (writer_finish w []) ≫= (λ out, Ok (out ++ tail)) = Ok (enc_update bs tail)) ∧
    blocks_ok bs ∧ blocks_structs bs = wire <$> l.
Proof.
  intros Hfo Hs Hn. destruct (write_all_rep newLazyWriterV1 ([], None) l rep_new) as (w & E & Hrep & Hok & Hst); [done..|].
  destruct (finish_list w _ Hrep Hok Hn) as (bs & ? & ? & Hbs). exists w, bs. rewrite Hbs, Hst. done.
Qed.

(** ** Chains follow each other *)

Lemma follows_chain st c k l : chain c k l → (match st with (_, Some (c', k', l')) => c' = c → k = chain_end k' l' | _ => True end) →
  follows_all st l.
Proof.
  revert st k. induction l as [|s l IH]; intros st k; [done|]. intros [Hid Hch] Hst.
  assert (struct_client s = c ∧ struct_clock s = k) as [Hc Hk] by (unfold struct_client, struct_clock; by rewrite Hid).
  split.
  - destruct st as [bs [[[c' k'] l']|]]; cbn; [|done]. intros ->. rewrite Hk. by apply Hst.
  - apply (IH _ (k + struct_Length s) Hch). destruct st as [bs [[[c' k'] l']|]]; cbn.
    + case_if; cbn; intros _; [|by rewrite Hk]. rewrite (Hst ltac:(congruence)).
      unfold chain_end. by rewrite foldl_app.
    + intros _. by rewrite Hk.
Qed.

Lemma follows_all_app st l1 l2 : follows_all st (l1 ++ l2) ↔ follows_all st l1 ∧ follows_all (fold_left put l1 st) l2.
Proof. revert st. induction l1 as [|s l1 IH]; intros st; cbn; [tauto|]. rewrite IH. tauto. Qed.

(** The client being written after a list. *)
Lemma put_client l st c k : chain c k l → l ≠ [] → ∃ bs k' l', fold_left put l st = (bs, Some (c, k', l')).
Proof.
  revert st k. induction l as [|s l IH]; intros st k; [done|]. intros [Hid Hch] _. cbn [fold_left].
  assert (struct_client s = c) as Hc by (unfold struct_client; by rewrite Hid).
  destruct l as [|t l]; [|by eapply IH].
  cbn. destruct st as [bs [[[c' k'] l']|]]; cbn; [case_if|]; rewrite ?Hc; subst; by eauto.
Qed.

(** Groups of distinct clients, each a chain. *)
Lemma follows_groups (gs : list (Z * list UStruct)) st : NoDup gs.*1 →
  Forall (λ g, g.2 ≠ [] ∧ ∃ k, chain g.1 k g.2) gs →
  (match st with (_, Some (c, _, _)) => c ∉ gs.*1 | _ => True end) →
  follows_all st (concat gs.*2).
Proof.
  revert st. induction gs as [|[c l] gs IH]; intros st Hnd Hg Hst; [done|].
  apply NoDup_cons in Hnd as [Hni Hnd]. apply Forall_cons in Hg as [[Hne (k & Hch)] Hg]. cbn in *.
  apply follows_all_app. split.
  - eapply follows_chain; [done|]. destruct st as [bs [[[c' k'] l']|]]; [|done]. intros ->. exfalso. set_solver.
  - apply IH; [done..|]. destruct (put_client l st c k Hch Hne) as (bs & k' & l' & ->). done.
Qed.

(** ** Grouping *)

#[local] Arguments sort_by_clock : simpl never.

Definition client_structs (c : Z) (l : list UStruct) : list UStruct := filter (λ s, struct_client s = c) l.

Abbreviation clock_le := (λ s t : UStruct, struct_clock s <= struct_clock t).

Lemma sort_sorted l : Sorted clock_le l → sort_by_clock l = l.
Proof.
  induction l as [|s l IH]; intros Hs; [done|]. apply Sorted_inv in Hs as [Hl Hh]. change (insert_by_clock s (sort_by_clock l) = s :: l). rewrite IH by done.
  destruct l as [|t l]; [done|]. apply HdRel_inv in Hh. cbn. by cmp_known.
Qed.

Lemma insert_perm s l : insert_by_clock s l ≡ₚ s :: l.
Proof. induction l as [|t l IH]; [done|]. cbn. case_if; [done|]. rewrite IH. apply Permutation_swap. Qed.

Lemma sort_perm l : sort_by_clock l ≡ₚ l.
Proof. induction l as [|s l IH]; [done|]. change (insert_by_clock s (sort_by_clock l) ≡ₚ s :: l). transitivity (s :: sort_by_clock l); [apply insert_perm|by constructor]. Qed.

Lemma Sorted_snoc l s : Sorted clock_le l → (∀ t, last l = Some t → struct_clock t <= struct_clock s) → Sorted clock_le (l ++ [s]).
Proof.
  induction l as [|t l IH]; cbn [app]; intros Hl Hs; [by repeat constructor|].
  apply Sorted_inv in Hl as [Hl Hh]. constructor.
  - apply IH; [done|]. intros t' Ht'. apply Hs. destruct l; [done|]. exact Ht'.
  - destruct l as [|t' l]; cbn.
    + constructor. by apply Hs.
    + apply HdRel_inv in Hh. by constructor.
Qed.

(** The groups and marks after a prefix of the input. *)
Definition grouped (l : list UStruct) (st : gmap Z (list UStruct) * gset Z) : Prop :=
  (∀ c, default [] (st.1 !! c) = client_structs c l ∧ st.1 !! c ≠ Some []) ∧
  (∀ c, c ∉ st.2 → Sorted clock_le (client_structs c l)).

Lemma client_structs_snoc c l s :
  client_structs c (l ++ [s]) = client_structs c l ++ (if decide (struct_client s = c) then [s] else []).
Proof. unfold client_structs. rewrite filter_app. cbn. unfold filter at 2; cbn. by case_decide. Qed.

Lemma group_step_ok l st s : grouped l st → grouped (l ++ [s]) (group_step st s).
Proof.
  destruct st as [m n]. intros [Hm Hn]. destruct (Hm (struct_client s)) as [Ec _]. unfold group_step. cbn [fst snd] in *.
  rewrite Ec. split; cbn [fst snd].
  - intros c. rewrite client_structs_snoc. case_decide as Hc.
    + subst. rewrite lookup_insert_eq. cbn. split; [done|]. intros [= E]. by destruct (client_structs _ l).
    + rewrite lookup_insert_ne by done. rewrite app_nil_r. apply Hm.
  - intros c Hc. rewrite client_structs_snoc. case_decide as Hs; [subst c|rewrite app_nil_r; apply Hn].
    + destruct (last (client_structs (struct_client s) l)) as [t|] eqn:Et.
      * destruct (Z.ltb_spec (struct_clock s) (struct_clock t)); [set_solver|].
        apply Sorted_snoc; [by apply Hn|]. intros t' Ht'. rewrite Et in Ht'. injection Ht' as <-. lia.
      * apply Sorted_snoc; [by apply Hn|]. by rewrite Et.
    + destruct (last _) as [t|]; [|done]. destruct (_ <? _); [set_solver|done].
Qed.

(** Each client's structs in clock order. *)
Lemma groupStructs_lookup l c : groupStructsByClient l !! c =
  match client_structs c l with [] => None | g => Some (sort_by_clock g) end.
Proof.
  unfold groupStructsByClient.
  assert (∀ l0 st, grouped l0 st → grouped (l0 ++ l) (fold_left group_step l st)) as Hall.
  { induction l as [|s l IH]; intros l0 st Hst; cbn; [by rewrite app_nil_r|].
    rewrite (cons_middle s l0 l), app_assoc. by apply IH, group_step_ok. }
  destruct (Hall [] (∅, ∅)) as [Hm Hn].
  { split; cbn; intros c'; rewrite ?lookup_empty; [done|]. intros _. constructor. }
  cbn [app] in *. destruct (fold_left group_step l (∅, ∅)) as [m n]. cbn [fst snd] in *.
  rewrite map_lookup_imap. destruct (Hm c) as [Ec Hne]. specialize (Hn c).
  destruct (m !! c) as [g|]; cbn in *; [|by rewrite <- Ec].
  rewrite <- Ec in *. destruct g as [|s g]; [done|]. f_equal.
  case_decide as Hc; [done|]. symmetry. auto using sort_sorted.
Qed.

(** ** The order of an encoded update *)

Lemma desc_keys_perm {A} (m : gmap Z A) : desc_keys m ≡ₚ (map_to_list m).*1.
Proof. unfold desc_keys. rewrite <- Permutation_rev. apply merge_sort_Permutation. Qed.

Lemma desc_keys_NoDup {A} (m : gmap Z A) : NoDup (desc_keys m).
Proof. rewrite desc_keys_perm. apply NoDup_fst_map_to_list. Qed.

Lemma elem_of_desc_keys {A} (m : gmap Z A) c : c ∈ desc_keys m ↔ is_Some (m !! c).
Proof.
  rewrite desc_keys_perm, list_elem_of_fmap. split.
  - intros ([? l] & -> & H%elem_of_map_to_list). by eexists.
  - intros [l H]. exists (c, l). by rewrite elem_of_map_to_list.
Qed.

(** The structs of a group map, by descending client. *)
Definition group_list (m : gmap Z (list UStruct)) : list (Z * list UStruct) :=
  (λ c, (c, default [] (m !! c))) <$> desc_keys m.

Definition group_structs (m : gmap Z (list UStruct)) : list UStruct := concat (group_list m).*2.

(** Clients in descending order, each client's structs in clock order. *)
Definition update_order (l : list UStruct) : list UStruct := group_structs (groupStructsByClient l).

Lemma groupStructs_default l c : default [] (groupStructsByClient l !! c) = sort_by_clock (client_structs c l).
Proof. rewrite groupStructs_lookup. by destruct (client_structs c l). Qed.

Lemma groupStructs_Some l c g : groupStructsByClient l !! c = Some g → g = sort_by_clock (client_structs c l) ∧ g ≠ [].
Proof.
  intros Hg. pose proof (groupStructs_default l c) as Hd. rewrite Hg in Hd. cbn in Hd. split; [done|]. intros ->.
  pose proof (sort_perm (client_structs c l)) as Hp. rewrite <- Hd in Hp. apply Permutation_nil in Hp.
  by rewrite groupStructs_lookup, Hp in Hg.
Qed.

Lemma client_structs_concat l cs : NoDup cs → (∀ s, s ∈ l → struct_client s ∈ cs) →
  concat ((λ c, client_structs c l) <$> cs) ≡ₚ l.
Proof.
  revert l. induction cs as [|c cs IH]; intros l Hnd Hl; cbn.
  { destruct l as [|s l]; [done|]. specialize (Hl s ltac:(set_solver)). set_solver. }
  apply NoDup_cons in Hnd as [Hni Hnd].
  transitivity (client_structs c l ++ filter (λ s, ¬ struct_client s = c) l);
    [|apply filter_app_complement]. apply Permutation_app; [done|].
  rewrite <- (IH (filter (λ s, ¬ struct_client s = c) l)); [|done|].
  - apply reflexive_eq. f_equal. apply list_fmap_ext. intros i c' Hc'.
    assert (c' ≠ c) by (intros ->; apply Hni; by eapply list_elem_of_lookup_2).
    unfold client_structs. rewrite list_filter_filter. apply list_filter_iff. naive_solver.
  - intros s Hs. rewrite list_elem_of_filter in Hs. destruct Hs as [Hne Hs]. specialize (Hl s Hs). set_solver.
Qed.

Lemma elem_of_client_structs s l : s ∈ client_structs (struct_client s) l ↔ s ∈ l.
Proof. unfold client_structs. rewrite list_elem_of_filter. tauto. Qed.

Lemma groupStructs_is_Some l s : s ∈ l → is_Some (groupStructsByClient l !! struct_client s).
Proof.
  intros Hs. rewrite groupStructs_lookup. apply elem_of_client_structs in Hs.
  destruct (client_structs _ l); [set_solver|by eexists].
Qed.

Lemma update_order_perm l : update_order l ≡ₚ l.
Proof.
  unfold update_order, group_structs, group_list. rewrite <- list_fmap_compose.
  rewrite <- (client_structs_concat l (desc_keys (groupStructsByClient l))) at 2.
  - induction (desc_keys _) as [|c cs IH]; cbn [fmap list_fmap concat]; [done|].
    apply Permutation_app; [|exact IH]. unfold compose; cbn. rewrite groupStructs_default. apply sort_perm.
  - apply desc_keys_NoDup.
  - intros s Hs. by apply elem_of_desc_keys, groupStructs_is_Some.
Qed.

Lemma write_groups w cs (m : gmap Z (list UStruct)) :
  fold_result (λ w client, write_all w (default [] (m !! client))) cs w =
  write_all w (concat ((λ c : Z, default [] (m !! c)) <$> cs)).
Proof.
  assert (∀ w l1 l2, write_all w (l1 ++ l2) = write_all w l1 ≫= λ w, write_all w l2) as Happ.
  { clear. intros w l1. revert w. induction l1 as [|s l1 IH]; intros w l2; [done|]. cbn.
    destruct (writer_write w s 0 0) as [w1 [e|]]; [done|]. apply IH. }
  revert w. induction cs as [|c cs IH]; intros w; [done|]. cbn [fold_result fmap list_fmap concat]. rewrite Happ.
  destruct (write_all w _); cbn; [|done]. apply IH.
Qed.

(** The group maps that can be written. *)
Definition writable (m : gmap Z (list UStruct)) : Prop :=
  map_Forall (λ c g, g ≠ [] ∧ Forall struct_ok g ∧ ∃ k, chain c k g) m ∧ is_u32 (Z.of_nat (size m)).

(** Writing groups opens one block per client. *)
Lemma wfinish_groups (gs : list (Z * list UStruct)) st : NoDup gs.*1 →
  Forall (λ g, g.2 ≠ [] ∧ ∃ k, chain g.1 k g.2) gs →
  (match st with (_, Some (c, _, _)) => c ∉ gs.*1 | _ => True end) →
  length (wfinish (fold_left put (concat gs.*2) st)) = (length (wfinish st) + length gs)%nat.
Proof.
  revert st. induction gs as [|[c l] gs IH]; intros st Hnd Hg Hst; [cbn; lia|].
  apply NoDup_cons in Hnd as [Hni Hnd]. apply Forall_cons in Hg as [[Hne (k & Hch)] Hg]. cbn in *.
  rewrite fold_left_app. destruct l as [|s l]; [done|]. cbn [fold_left].
  assert (∀ l st bs c k g, st = (bs, Some (c, k, g)) → (∃ k', chain c k' l) →
    ∃ g', fold_left put l st = (bs, Some (c, k, g'))) as Hsame.
  { clear. induction l as [|s l IH]; intros st bs c k g -> [k' Hch]; [by exists g|]. destruct Hch as [Hid Hch].
    cbn [fold_left put]. unfold struct_client. rewrite Hid. cbn. rewrite Z.eqb_refl. eapply IH; [done|]. by eexists. }
  destruct Hch as [Hid Hch]. assert (struct_client s = c) as Hc by (unfold struct_client; by rewrite Hid).
  assert (∃ bs, put st s = (bs, Some (c, struct_clock s, [s])) ∧ length bs = length (wfinish st)) as (bs & Hput & Hlen).
  { destruct st as [bs [[[c' k'] l']|]]; cbn; [|by exists bs; rewrite Hc].
    rewrite Hc. destruct (Z.eqb_spec c' c); [subst; set_solver|]. by eexists. }
  destruct (Hsame l _ _ _ _ _ Hput) as (g' & ->); [by eexists|].
  rewrite IH; [cbn; rewrite length_app; cbn; lia|done|done|done].
Qed.

Lemma encode_groups m : writable m → ∃ bs, blocks_ok bs ∧ blocks_structs bs = wire <$> group_structs m ∧
  ∀ tail, encodeStructGroupsV1 m ≫= (λ out, Ok (out ++ tail)) = Ok (enc_update bs tail).
Proof.
  intros [Hm Hsize]. unfold encodeStructGroupsV1. rewrite write_groups.
  assert (concat ((λ c : Z, default [] (m !! c)) <$> desc_keys m) = group_structs m) as ->.
  { unfold group_structs, group_list. by rewrite <- list_fmap_compose. }
  assert ((group_list m).*1 = desc_keys m) as Hkeys.
  { unfold group_list. rewrite <- list_fmap_compose. unfold compose; cbn. apply list_fmap_id. }
  assert (Forall (λ g, g.2 ≠ [] ∧ Forall struct_ok g.2 ∧ ∃ k, chain g.1 k g.2) (group_list m)) as Hg.
  { unfold group_list. apply Forall_fmap, Forall_forall. intros c [g Hg]%elem_of_desc_keys. cbn. rewrite Hg. by apply Hm. }
  assert (Forall (λ g, g.2 ≠ [] ∧ ∃ k, chain g.1 k g.2) (group_list m)) as Hg'.
  { eapply Forall_impl; [exact Hg|]. by intros g (? & _ & ?). }
  assert (NoDup (group_list m).*1) as Hnd by (rewrite Hkeys; apply desc_keys_NoDup).
  destruct (write_list (group_structs m)) as (w & bs & -> & Hout & Hbs & Hst).
  - by apply follows_groups.
  - unfold group_structs. apply Forall_concat, Forall_fmap. eapply Forall_impl; [exact Hg|]. by intros g (_ & ? & _).
  - unfold group_structs. rewrite wfinish_groups by done. cbn [wfinish length Nat.add].
    unfold group_list. rewrite length_fmap, desc_keys_perm, length_fmap. by rewrite length_map_to_list.
  - exists bs. split_and!; [done..|]. intros tail. cbn. apply Hout.
Qed.

(** Each client's structs, in clock order, follow each other. *)
Definition contiguous (l : list UStruct) : Prop := ∀ c, ∃ k, chain c k (sort_by_clock (client_structs c l)).

Lemma contiguous_intro l : Forall (λ c, ∃ k, chain c k (sort_by_clock (client_structs c l))) (struct_client <$> l) → contiguous l.
Proof.
  intros H c. destruct (client_structs c l) as [|s g] eqn:E; [by exists 0|]. rewrite <- E.
  assert (s ∈ client_structs c l) as [Hc Hs]%list_elem_of_filter by (rewrite E; set_solver).
  rewrite Forall_forall in H. apply H, list_elem_of_fmap. by exists s.
Qed.

(** What the structs of an update must satisfy to be written. *)
Definition encodable (l : list UStruct) : Prop :=
  Forall struct_ok l ∧ is_u32 (Z.of_nat (length l)) ∧ contiguous l.

Lemma groups_size l : (size (groupStructsByClient l) ≤ length l)%nat.
Proof.
  rewrite <- (length_map_to_list (groupStructsByClient l)), <- (length_fmap fst), <- desc_keys_perm.
  rewrite <- (update_order_perm l) at 2. unfold update_order, group_structs, group_list. rewrite <- list_fmap_compose.
  assert (∀ c, c ∈ desc_keys (groupStructsByClient l) → is_Some (groupStructsByClient l !! c)) as Hin by (intros c; apply elem_of_desc_keys).
  induction (desc_keys _) as [|c cs IH]; cbn; [lia|]. rewrite length_app.
  destruct (Hin c) as [g Hg]; [set_solver|]. rewrite Hg. cbn. destruct (groupStructs_Some l c g Hg) as [_ Hne].
  assert (length g ≠ 0%nat) by by destruct g. assert (length cs ≤ length (concat ((snd ∘ (λ c : Z, (c, default [] (groupStructsByClient l !! c)))) <$> cs)))%nat; [apply IH; set_solver|]. lia.
Qed.

Lemma encodable_writable l : encodable l → writable (groupStructsByClient l).
Proof.
  intros (Hok & Hlen & Hch). split; [|pose proof (groups_size l); u32].
  intros c g Hg. destruct (groupStructs_Some l c g Hg) as [-> Hne]. split_and!; [done| |apply Hch].
  rewrite sort_perm. apply Forall_forall. intros s [_ Hs]%list_elem_of_filter. rewrite Forall_forall in Hok. auto.
Qed.

Lemma appendDeleteSet_app dst ds : AppendDeleteSetBlockV1 dst ds = dst ++ EncodeDeleteSetBlockV1 ds.
Proof.
  unfold EncodeDeleteSetBlockV1, AppendDeleteSetBlockV1. rewrite !appendEntries_app, Append_app, <- app_assoc. done.
Qed.

(** Encoding groups and a delete set, and decoding the whole update. *)
Lemma encode_groups_update m s : writable m → wf_set s → wf_clients s →
  ∃ out, encodeStructGroupsV1 m = Ok out ∧
    DecodeV1 (AppendDeleteSetBlockV1 out (Some (mkDeleteSet (Some s)))) =
      Ok (mkDecoded (wire <$> group_structs m) (Some (mkDeleteSet (Some s)))).
Proof.
  intros Hm Hw Hc. destruct (encode_groups m Hm) as (bs & Hbs & Hst & Hout).
  specialize (Hout (EncodeDeleteSetBlockV1 (Some (mkDeleteSet (Some s))))).
  destruct (encodeStructGroupsV1 m) as [out|]; [|done]. exists out. split; [done|].
  cbn [mbind result_bind] in Hout. injection Hout as Hout. rewrite appendDeleteSet_app, Hout, <- Hst.
  apply DecodeV1_blocks; [done|]. by apply reads_ReadDeleteSetBlockV1.
Qed.

Lemma EncodeV1_blocks l s : encodable l → wf_set s → wf_clients s →
  ∃ u, EncodeV1 (Some (mkDecoded l (Some (mkDeleteSet (Some s))))) = Ok u ∧
    DecodeV1 u = Ok (mkDecoded (wire <$> update_order l) (Some (mkDeleteSet (Some s)))).
Proof.
  intros Hl Hw Hc. destruct (encode_groups_update _ s (encodable_writable l Hl) Hw Hc) as (out & Hout & Hd).
  eexists. split; [|exact Hd]. unfold EncodeV1. cbn [Structs du_DeleteSet]. by rewrite Hout.
Qed.

(** What the blocks of an update hold is well formed and unchanged by the wire. *)
Lemma blocks_structs_Forall (P : UStruct → Prop) bs : (∀ bs s, struct_reads bs s → P s) →
  Forall block_ok bs → Forall P (blocks_structs bs).
Proof.
  intros HP Hbs. unfold blocks_structs. apply Forall_concat, Forall_fmap. eapply Forall_impl; [exact Hbs|].
  intros b (_ & _ & _ & Hr & _). apply Forall_fmap. eapply Forall_impl; [exact Hr|]. intros e He. exact (HP _ _ He).
Qed.

Lemma blocks_structs_ok bs : Forall block_ok bs → Forall struct_ok (blocks_structs bs).
Proof. apply blocks_structs_Forall. by intros ? ? (_ & ? & _). Qed.

Lemma blocks_structs_wire bs : Forall block_ok bs → Forall (λ s, wire s = s) (blocks_structs bs).
Proof. apply blocks_structs_Forall. by intros ? ? (_ & _ & ? & _). Qed.
