(* ===== verification/UpdateSpec.v ===== *)
(** * Properties of the V1 codec of internal/yupdate

    Delete-set blocks, item contents, whole updates. *)
From S2P Require Import Prelude GoError Binary Ranges IdSet IdSetFacts Varint GoText YTypes DeleteSet Decoder DecoderFacts Content Update UpdateFacts UpdateStream UpdateEncode.
Import varint.

(** ** Delete sets *)

(** Writing a normalised delete set as a V1 block and reading the block back
    gives the same delete set, and reads exactly the bytes that were written. *)
Theorem DeleteSet_block_roundtrip (s : IdSet) (rest : bytes) (Hw : wf_set s) (Hc : wf_clients s) :
  let bs := EncodeDeleteSetBlockV1 (Some (mkDeleteSet (Some s))) in
  DecodeDeleteSetBlockV1 (bs ++ rest) = (Ok (mkDeleteSet (Some s)), length bs).
Proof.
  cbn zeta. unfold DecodeDeleteSetBlockV1.
  by rewrite (reads_ReadDeleteSetBlockV1 s Hw Hc (NewReader _) rest (wf_NewReader _) eq_refl).
Qed.

Definition sample_deletes : IdSet := mkIdSet {[ 300 := [mkRange 5 2]; 7 := [mkRange 0 3; mkRange 10 500] ]}.

Lemma DeleteSet_block_roundtrip_witness :
  DecodeDeleteSetBlockV1 ([2; 172; 2; 1; 5; 2; 7; 2; 0; 3; 10; 244; 3] ++ [99]) =
    (Ok (mkDeleteSet (Some sample_deletes)), 13%nat).
Proof.
  apply (DeleteSet_block_roundtrip sample_deletes [99]); apply (bool_decide_unpack _); vm_compute; exact I.
Defined.

(** What the block reader accepts, whatever the order, the repetition and the
    overlap of the entries in the block: the bytes are those of some list of
    client entries, and the resulting delete set is normalised and contains
    exactly the clocks of the entries. *)
Theorem DeleteSet_block_union (src : bytes) (ds : DeleteSet) (n : nat)
    (Hb : is_bytes src) (Hr : DecodeDeleteSetBlockV1 src = (Ok ds, n)) :
  ∃ es, take n src = enc_entries es ∧
    ∀ y, is_u32 y → ¬ Exists (λ e, covers e.2 y) es →
    ∃ s, ds = mkDeleteSet (Some s) ∧ wf_set s ∧ (∀ c x, mem s c x ↔ covers_entries es c x).
Proof.
  unfold DecodeDeleteSetBlockV1 in Hr. destruct (ReadDeleteSetBlockV1 (NewReader src)) as [res r] eqn:E.
  injection Hr as -> <-.
  destruct (parses_ReadDeleteSetBlockV1 _ _ _ (wf_NewReader src) Hb E) as (bs & Hv & -> & _ & es & -> & _ & Hrun).
  exists es. rewrite view_NewReader in Hv. split.
  - rewrite Hv. cbn [advance offset NewReader Nat.add]. by apply take_app_length'.
  - intros y Hy Ha. destruct (run_add_entry y es ds Hy Ha Hrun) as (s & ? & ? & _ & ?). eauto.
Qed.

Lemma DeleteSet_block_union_witness :
  let ds := mkDeleteSet (Some (mkIdSet {[ 7 := [mkRange 3 9] ]})) in
  ∃ es, take 9%nat [2; 7; 2; 8; 4; 3; 5; 7; 0] = enc_entries es ∧
    ∀ y, is_u32 y → ¬ Exists (λ e, covers e.2 y) es →
    ∃ s, ds = mkDeleteSet (Some s) ∧ wf_set s ∧ (∀ c x, mem s c x ↔ covers_entries es c x).
Proof.
  apply (DeleteSet_block_union [2; 7; 2; 8; 4; 3; 5; 7; 0] _ 9%nat).
  - apply (bool_decide_unpack _). vm_compute. exact I.
  - vm_compute. reflexivity.
Defined.

(** ** Contents *)

(** Reading an item content is lossless: what was consumed is a content of
    the kind the info byte announces, the parsed value writes back exactly these
    bytes, and reading them again gives the same value. *)
Theorem content_lossless (info : Z) (src : bytes) (c : ParsedContent) (r : Reader)
    (Hb : is_bytes src) (Hr : readItemContentV1 info (NewReader src) = (Ok c, r)) :
  ∃ bs, src = bs ++ view r ∧ (∀ dst, AppendV1 c dst = Ok (dst ++ bs)) ∧
    Ref c = Z.land info ItemContentRefMask ∧ content_ok c ∧ reads (readItemContentV1 info) bs c.
Proof.
  destruct (parses_content info _ _ _ (wf_NewReader src) Hb Hr) as (bs & Hv & _ & _ & Hc & Hraw & Href).
  exists bs. rewrite view_NewReader in Hv. split_and!; [done| |done|done|by apply reads_content].
  intros dst. unfold AppendV1. by rewrite Hraw.
Qed.

(** A map [{a: true}] as an Any value, followed by two bytes. *)
Lemma content_lossless_witness : ∃ c r bs,
  [1; 118; 1; 1; 97; 120; 5; 6] = bs ++ view r ∧ (∀ dst, AppendV1 c dst = Ok (dst ++ bs)) ∧
  Ref c = itemContentAny ∧ content_ok c ∧ reads (readItemContentV1 8) bs c ∧ view r = [5; 6].
Proof.
  eexists _, _.
  pose proof (content_lossless 8 [1; 118; 1; 1; 97; 120; 5; 6]
    (mkContent 8 1 true 0 [] (Some [1; 118; 1; 1; 97; 120]) [] [] [[118; 1; 1; 97; 120]])
    (mkReader [1; 118; 1; 1; 97; 120; 5; 6] 6)) as H.
  destruct H as (bs & H1 & H2 & H3 & H4 & H5).
  - apply (bool_decide_unpack _). vm_compute. exact I.
  - vm_compute. reflexivity.
  - exists bs. split_and!; [exact H1|exact H2|exact H3|exact H4|exact H5|reflexivity].
Defined.

(** A window of a content: it fails exactly when nothing would be left (or
    the content cannot be cut), and otherwise the result is a well-formed
    content of the same kind and of the requested length, in UTF-16 units for a
    string even when a surrogate pair is cut. *)
Theorem SliceWindow_correct (c : ParsedContent) (a b : Z)
    (Hc : content_ok c) (Ha : 0 <= a) (Hb : 0 <= b) (Hmax : sliceable c) :
  if LengthVal c <=? a + b then SliceWindow c a b = Err yupdate_ErrInvalidSliceOffset
  else ∃ c', SliceWindow c a b = Ok c' ∧ content_ok c' ∧ LengthVal c' = LengthVal c - a - b ∧
    Ref c' = Ref c ∧ Countable c' = Countable c.
Proof. by apply SliceWindow_spec. Qed.

(** "a", an emoji outside the basic plane and "b": cutting after two units
    splits the surrogate pair. *)
Definition sample_text : bytes := [97; 240; 159; 152; 128; 98].
Definition sample_string : ParsedContent :=
  mkContent itemContentString (utf16Length sample_text) true 0 [] (Some (enc_str sample_text)) sample_text [] [].

Lemma sample_string_ok : content_ok sample_string.
Proof. apply ok_string. apply (bool_decide_unpack _). vm_compute. exact I. Qed.

Lemma SliceWindow_correct_witness : ∃ c', SliceWindow sample_string 2 0 = Ok c' ∧ content_ok c' ∧ LengthVal c' = 2 ∧
  Ref c' = itemContentString ∧ Countable c' = true.
Proof.
  apply (SliceWindow_correct sample_string 2 0 sample_string_ok); [lia|lia|].
  intros _. change (LengthVal sample_string) with 4. lia.
Defined.

(** A JSON value sent as a length-prefixed string (what the official V1
    encoder writes) is read back, except when the payload has 120 to 127 bytes:
    its length byte is then taken for the tag of an Any value and the reader
    never returns what was sent. *)
Theorem readJSONRawCompat_length_clash (op : string) (s rest : bytes) (Hs : str_ok s) (Hr : is_bytes rest) :
  (¬ (116 <= Z.of_nat (length s) <= 127) →
   fst (readJSONRawCompat op (NewReader (enc_str s ++ rest))) = Ok (enc_str s)) ∧
  (120 <= Z.of_nat (length s) <= 127 →
   fst (readJSONRawCompat op (NewReader (enc_str s ++ rest))) ≠ Ok (enc_str s)).
Proof.
  split.
  - intros Hl. by rewrite (reads_json_str op s (conj Hs Hl) (NewReader _) rest (wf_NewReader _) eq_refl).
  - intros Hl E. destruct (readJSONRawCompat op (NewReader (enc_str s ++ rest))) as [res r'] eqn:Er. cbn in E. subst res.
    assert (is_bytes (view (NewReader (enc_str s ++ rest)))) as Hb
      by (rewrite view_NewReader; apply Forall_app; split; [by apply enc_str_bytes|done]).
    destruct (parses_readJSONRawCompat op _ _ _ (wf_NewReader _) Hb Er) as (bs & _ & _ & _ & <- & Hj).
    assert (Append [] (Z.of_nat (length s)) = [Z.of_nat (length s)]) as Ea.
    { assert (Z.of_nat (length s) ∈ [120; 121; 122; 123; 124; 125; 126; 127]) as Hin by (rewrite !elem_of_cons; lia).
      clear -Hin. revert Hin. generalize (Z.of_nat (length s)). apply Forall_forall. repeat constructor. }
    destruct Hj as [Hv|(s' & [Hs' Hl'] & E')].
    + rewrite enc_str_eq, Ea in Hv by done. cbn [app] in Hv. inversion Hv; subst; try lia.
      all: try (assert (length s = 0%nat) by congruence; lia).
      all: cbn in *; try lia.
      destruct H0 as (_ & Hlen & _). lia.
    + assert (s' = s) as ->; [|lia].
      pose proof (reads_readString op s' Hs' (NewReader (enc_str s)) [] (wf_NewReader _)) as R1.
      pose proof (reads_readString op s Hs (NewReader (enc_str s)) [] (wf_NewReader _)) as R2.
      rewrite app_nil_r, view_NewReader in R1, R2. rewrite R2 in R1 by done. specialize (R1 E'). congruence.
Qed.

Lemma readJSONRawCompat_length_clash_witness :
  fst (readJSONRawCompat "op" (NewReader (enc_str (repeat 49 120) ++ []))) ≠ Ok (enc_str (repeat 49 120)).
Proof.
  apply (readJSONRawCompat_length_clash "op" (repeat 49 120) []).
  - apply (bool_decide_unpack _). vm_compute. exact I.
  - constructor.
  - rewrite repeat_length. lia.
Defined.

(** ** Whole updates *)

(** A text item after a GC struct, both of client 1, and a root item of client 9. *)
Definition sample_gc : UStruct := GC (mkBase (mkID 1 0) 2).
Definition sample_item : UItem :=
  mkItem (mkBase (mkID 1 2) 4) (Some (mkID 1 1)) None (mkParentRef [] None) [] None ItemFlagCountable sample_string.
Definition sample_root : UItem :=
  mkItem (mkBase (mkID 9 0) 3) None None (mkParentRef [116] None) [] None 0
    (mkContent itemContentDeleted 3 false 0 [] (Some [3]) [] [] []).
Definition sample_structs : list UStruct := [SItem sample_root; sample_gc; SItem sample_item].

Lemma sample_structs_ok : Forall struct_ok sample_structs.
Proof.
  repeat apply Forall_cons_2; [| | |apply Forall_nil_2];
    (split; [apply (bool_decide_unpack _); vm_compute; exact I|]); [|exact I|].
  - split_and!; [apply (ok_deleted 3); u32|reflexivity|exact I|exact I|]. intros _. split; [right; exists [116]; split_and!|];
      first [done|apply (bool_decide_unpack _); vm_compute; exact I].
  - split_and!; [apply sample_string_ok|reflexivity|apply (bool_decide_unpack _); vm_compute; exact I|exact I|done].
Qed.

Lemma sample_encodable : encodable sample_structs.
Proof.
  split; [apply sample_structs_ok|]. split; [apply (bool_decide_unpack _); vm_compute; exact I|].
  apply contiguous_intro. cbn [fmap list_fmap sample_structs].
  repeat apply Forall_cons_2; [exists 0|exists 0|exists 0|apply Forall_nil_2]; vm_compute; tauto.
Qed.

(** C26: [EncodeV1] never fails on structs that can be sent, and [DecodeV1] of the
    result gives the structs back by descending client and ascending clock, each
    as it is after the wire ([wire]: flags and redone are local, and an item
    with an origin does not send its parent), with the delete set. *)
Theorem EncodeV1_DecodeV1 (l : list UStruct) (s : IdSet) (Hl : encodable l) (Hw : wf_set s) (Hc : wf_clients s) :
  ∃ u, EncodeV1 (Some (mkDecoded l (Some (mkDeleteSet (Some s))))) = Ok u ∧
    DecodeV1 u = Ok (mkDecoded (wire <$> update_order l) (Some (mkDeleteSet (Some s)))) ∧ update_order l ≡ₚ l.
Proof.
  destruct (EncodeV1_blocks l s Hl Hw Hc) as (u & H1 & H2). exists u. split_and!; [done..|]. apply update_order_perm.
Qed.

Lemma EncodeV1_DecodeV1_witness : ∃ u, EncodeV1 (Some (mkDecoded sample_structs (Some (mkDeleteSet (Some sample_deletes))))) = Ok u ∧
  DecodeV1 u = Ok (mkDecoded [SItem sample_root; sample_gc; SItem sample_item] (Some (mkDeleteSet (Some sample_deletes)))).
Proof.
  destruct (EncodeV1_DecodeV1 sample_structs sample_deletes sample_encodable) as (u & H1 & H2 & _).
  - apply (bool_decide_unpack _). vm_compute. exact I.
  - apply (bool_decide_unpack _). vm_compute. exact I.
  - exists u. split; [exact H1|]. rewrite H2. vm_compute. reflexivity.
Defined.

(** C27: What [DecodeV1] accepts: an update is a count and that many client blocks,
    each the bytes of well-formed structs that follow each other from the
    block's clock, then a delete-set block that ends the input; the result is
    the structs in the order of the bytes and the union of the deletes. *)
Theorem DecodeV1_sound (u : bytes) (d : DecodedUpdate) (Hb : is_bytes u) (Hd : DecodeV1 u = Ok d) :
  ∃ bs tail ds, u = enc_update bs tail ∧ blocks_ok bs ∧ deletes_ok tail ds ∧
    d = mkDecoded (blocks_structs bs) (Some ds) ∧ Forall struct_ok (Structs d).
Proof.
  destruct (decode_blocks u d Hb Hd) as (bs & tail & ds & Hu & Hbs & Hds & ->).
  exists bs, tail, ds. split_and!; [done..|]. by apply blocks_structs_ok, Hbs.
Qed.

Definition sample_update : bytes := [1; 2; 1; 0; 0; 2; 132; 1; 1; 6; 97; 240; 159; 152; 128; 98; 1; 7; 1; 0; 3].
Definition sample_decoded : DecodedUpdate :=
  mkDecoded [sample_gc; SItem sample_item] (Some (mkDeleteSet (Some (mkIdSet {[ 7 := [mkRange 0 3] ]})))).

Lemma DecodeV1_sound_witness : ∃ bs tail ds, sample_update = enc_update bs tail ∧ blocks_ok bs ∧ deletes_ok tail ds ∧
  sample_decoded = mkDecoded (blocks_structs bs) (Some ds) ∧ Forall struct_ok (Structs sample_decoded).
Proof.
  apply (DecodeV1_sound sample_update).
  - apply (bool_decide_unpack _). vm_compute. exact I.
  - vm_compute. reflexivity.
Defined.

(** An accepted update whose clients are contiguous is a fixed point of
    decode, encode, decode (up to the order of the clients): nothing that is
    read is lost by writing it. *)
Theorem DecodeV1_reencode (u : bytes) (l : list UStruct) (s : IdSet)
    (Hb : is_bytes u) (Hn : Z.of_nat (length u) < 4294967296)
    (Hd : DecodeV1 u = Ok (mkDecoded l (Some (mkDeleteSet (Some s)))))
    (Hl : contiguous l) (Hw : wf_set s) (Hc : wf_clients s) :
  ∃ u', EncodeV1 (Some (mkDecoded l (Some (mkDeleteSet (Some s))))) = Ok u' ∧
    DecodeV1 u' = Ok (mkDecoded (update_order l) (Some (mkDeleteSet (Some s)))).
Proof.
  destruct (decode_blocks u _ Hb Hd) as (bs & tail & ds & -> & Hbs & _ & [= -> <-]).
  assert (encodable (blocks_structs bs)) as He.
  { split_and!; [by apply blocks_structs_ok, Hbs| |done].
    pose proof (blocks_structs_length bs (proj1 Hbs)). unfold enc_update in Hn. rewrite !length_app in Hn. u32. }
  destruct (EncodeV1_blocks _ s He Hw Hc) as (u' & H1 & H2). exists u'. split; [done|].
  rewrite H2. do 2 f_equal. rewrite <- list_fmap_id. apply Forall_fmap_ext_1.
  rewrite update_order_perm. by apply blocks_structs_wire, Hbs.
Qed.

Lemma DecodeV1_reencode_witness : ∃ u', EncodeV1 (Some sample_decoded) = Ok u' ∧
  DecodeV1 u' = Ok sample_decoded ∧ u' = sample_update.
Proof.
  destruct (DecodeV1_reencode sample_update [sample_gc; SItem sample_item] (mkIdSet {[ 7 := [mkRange 0 3] ]}))
    as (u' & H1 & H2).
  - apply (bool_decide_unpack _). vm_compute. exact I.
  - vm_compute. reflexivity.
  - vm_compute. reflexivity.
  - apply contiguous_intro. repeat apply Forall_cons_2; [exists 0|exists 0|apply Forall_nil_2]; vm_compute; tauto.
  - apply (bool_decide_unpack _). vm_compute. exact I.
  - apply (bool_decide_unpack _). vm_compute. exact I.
  - exists u'. split; [exact H1|]. split; [rewrite H2; vm_compute; reflexivity|].
    vm_compute in H1. injection H1 as H1. rewrite <- H1. reflexivity.
Defined.

(** C28: [DecodeV1] terminates with a result or an error of the code on every
    input: the loops of the lazy reader and of the Any reader never use up the
    fuel the model gives them. *)
Theorem DecodeV1_terminates (u : bytes) (Hb : is_bytes u) : DecodeV1 u ≠ Err FuelExhausted.
Proof. by apply Decode_total. Qed.

Lemma DecodeV1_terminates_witness : DecodeV1 sample_update ≠ Err FuelExhausted.
Proof. apply (DecodeV1_terminates sample_update). apply (bool_decide_unpack _). vm_compute. exact I. Defined.
