(* ===== verification/Aggregate.v ===== *)
(** * internal/yupdate/aggregate.go

    The fan-out used by every operation on several updates: [extract] per
    update, then one [reducer] on the values in the order of the updates.  Below
    five updates the loop is sequential; above, worker goroutines take the
    updates from a channel and deliver results in any order.  A run of the
    workers is described by the indices whose result was delivered and by the
    state of the context at the end ([valid_run]); [aggregate_run] shows that
    every run agrees with the sequential loop.  A context is the error it
    reports, [None] while it is alive; cancellation in the middle of the
    sequential loop is not modelled. *)
From S2P Require Import Prelude GoError.

Definition defaultUpdateAggregateWorkers : Z := 5.
Definition sequentialUpdateAggregateMaxUpdates : Z := 4.

(** [runtime.GOMAXPROCS(0)] is [procs]. *)
Definition resolveWorkerCount (procs requested updatesCount : Z) : Z :=
  if updatesCount <=? 0 then 0
  else
    let requested := if requested <=? 0 then 1 else requested in
    let requested := if updatesCount <? requested then updatesCount else requested in
    let requested := if procs <? requested then procs else requested in
    if requested <? 1 then 1 else requested.

Definition shouldAggregateSequentially (workerCount updatesCount : Z) : bool :=
  (workerCount =? 1) || (updatesCount <=? sequentialUpdateAggregateMaxUpdates).

Lemma resolveWorkerCount_pos procs requested n : 0 < n → 1 <= resolveWorkerCount procs requested n.
Proof.
  intros Hn. unfold resolveWorkerCount. rewrite (proj2 (Z.leb_gt n 0)) by lia. cbn zeta.
  match goal with |- _ <= (if ?r <? 1 then _ else _) => destruct (Z.ltb_spec r 1) end; lia.
Qed.

Section aggregate.
Context {T : Type} `{Inhabited T}.
Variable extract : bytes → result T.
Variable reducer : list T → result T.

Definition runUpdateTaskSafely (data : bytes) : result T := map_err (Wrapped "update[%d]: %w") (extract data).

(** The values of the updates, or the first error. *)
Fixpoint extract_all (updates : list bytes) : result (list T) :=
  match updates with
  | [] => Ok []
  | update :: updates =>
      value ← runUpdateTaskSafely update;
      values ← extract_all updates;
      Ok (value :: values)
  end.

Definition aggregatePayloadsSequentially (ctxErr : option error) (updates : list bytes) : result T :=
  match ctxErr with
  | Some err => Err err
  | None => entries ← extract_all updates; reducer entries
  end.

(** [errs] and [entries] after the results channel is drained. *)
Definition delivered_err (delivered : gset nat) (i : nat) (update : bytes) : option error :=
  if decide (i ∈ delivered) then match runUpdateTaskSafely update with Ok _ => None | Err e => Some e end else None.

Definition delivered_value (delivered : gset nat) (i : nat) (update : bytes) : T :=
  if decide (i ∈ delivered) then match runUpdateTaskSafely update with Ok v => v | Err _ => inhabitant end else inhabitant.

Definition first_error (errs : list (option error)) : option error := head (omap id errs).

Definition aggregateWorkers (delivered : gset nat) (ctxErr : option error) (updates : list bytes) : result T :=
  match first_error (imap (delivered_err delivered) updates) with
  | Some err => Err err
  | None =>
      match ctxErr with
      | Some err => Err err
      | None => reducer (imap (delivered_value delivered) updates)
      end
  end.

Definition aggregatePayloadsInParallel (procs workers : Z) (delivered : gset nat) (ctxErr : option error)
    (updates : list bytes) : result T :=
  match updates with
  | [] => reducer []
  | _ =>
      let workerCount := if 0 <? workers then workers else defaultUpdateAggregateWorkers in
      let workerCount := resolveWorkerCount procs workerCount (Z.of_nat (length updates)) in
      if workerCount =? 0 then Ok inhabitant
      else if shouldAggregateSequentially workerCount (Z.of_nat (length updates))
      then aggregatePayloadsSequentially ctxErr updates
      else aggregateWorkers delivered ctxErr updates
  end.

(** A worker stops early only when the context is done, and the context is done
    only when the caller's is or when a failure was delivered. *)
Definition valid_run (delivered : gset nat) (ctxErr : option error) (updates : list bytes) : Prop :=
  ctxErr = None →
  (∀ i, (i < length updates)%nat → i ∈ delivered) ∨
  (∃ i update e, updates !! i = Some update ∧ i ∈ delivered ∧ extract update = Err e).

Lemma extract_all_Ok updates values : extract_all updates = Ok values ↔
  Forall2 (λ u v, extract u = Ok v) updates values.
Proof.
  revert values. induction updates as [|u us IH]; intros values; cbn [extract_all].
  - split; [intros [= <-]; constructor|by intros ->%Forall2_nil_inv_l].
  - rewrite result_bind_Ok. unfold runUpdateTaskSafely. split.
    + intros (v & Hv & (vs & Hvs & [= <-])%result_bind_Ok). constructor; [|by apply IH].
      by destruct (extract u); cbn in Hv.
    + intros (v & vs & Hv & Hvs & ->)%Forall2_cons_inv_l. exists v. rewrite Hv. split; [done|].
      by rewrite (proj2 (IH vs) Hvs).
Qed.

Lemma extract_all_Err updates e : extract_all updates = Err e →
  ∃ i update e', updates !! i = Some update ∧ extract update = Err e' ∧ e = Wrapped "update[%d]: %w" e'.
Proof.
  revert e. induction updates as [|u us IH]; intros e; cbn [extract_all]; [done|].
  unfold runUpdateTaskSafely at 1. destruct (extract u) as [v|e'] eqn:E; cbn.
  - destruct (extract_all us) as [vs|e1]; cbn; [done|]. intros [= ->]. destruct (IH e eq_refl) as (i & u' & e2 & ? & ? & ?).
    by exists (S i), u', e2.
  - intros [= <-]. by exists 0%nat, u, e'.
Qed.

(** Without a failing update a run delivers everything and no error. *)
Lemma run_complete delivered updates values : Forall2 (λ u v, extract u = Ok v) updates values →
  (∀ i, (i < length updates)%nat → i ∈ delivered) →
  first_error (imap (delivered_err delivered) updates) = None ∧ imap (delivered_value delivered) updates = values.
Proof.
  intros HF Hd. split.
  - unfold first_error. destruct (head _) as [e|] eqn:E; [|done]. exfalso.
    apply head_Some_elem_of, list_elem_of_omap in E as (o & Ho & Heq). cbn in Heq. subst o.
    apply elem_of_lookup_imap in Ho as (i & u & Hu & Hi). unfold delivered_err, runUpdateTaskSafely in Hu.
    destruct (Forall2_lookup_l _ _ _ _ _ HF Hi) as (v & _ & Hv). rewrite Hv in Hu. cbn in Hu. by case_decide.
  - apply list_eq. intros i. rewrite list_lookup_imap. destruct (updates !! i) as [u|] eqn:Hu; cbn.
    + destruct (Forall2_lookup_l _ _ _ _ _ HF Hu) as (v & -> & Hv). unfold delivered_value, runUpdateTaskSafely.
      rewrite decide_True by (apply Hd; by eapply lookup_lt_Some). by rewrite Hv.
    + symmetry. apply lookup_ge_None. rewrite <- (Forall2_length _ _ _ HF). by apply lookup_ge_None.
Qed.

Lemma first_error_delivered delivered updates e : first_error (imap (delivered_err delivered) updates) = Some e →
  ∃ i update e', updates !! i = Some update ∧ extract update = Err e' ∧ e = Wrapped "update[%d]: %w" e'.
Proof.
  intros E%head_Some_elem_of. apply list_elem_of_omap in E as (o & Ho & Heq). cbn in Heq. subst o.
  apply elem_of_lookup_imap in Ho as (i & u & Hu & Hi). unfold delivered_err, runUpdateTaskSafely in Hu.
  case_decide; [|done]. destruct (extract u) as [|e'] eqn:Eu; [done|]. cbn in Hu. injection Hu as ->. by exists i, u, e'.
Qed.

Lemma first_error_some delivered updates i update e :
  updates !! i = Some update → i ∈ delivered → extract update = Err e →
  ∃ e', first_error (imap (delivered_err delivered) updates) = Some e'.
Proof.
  intros Hi Hd He. unfold first_error.
  assert (Wrapped "update[%d]: %w" e ∈ omap id (imap (delivered_err delivered) updates)) as Hin.
  { apply list_elem_of_omap. eexists. split; [|done]. apply elem_of_lookup_imap. exists i, update. split; [|done].
    unfold delivered_err, runUpdateTaskSafely. by rewrite decide_True, He. }
  destruct (omap id _) as [|e' l]; [set_solver|]. by exists e'.
Qed.

(** Every run of the workers agrees with the sequential loop. *)
Lemma aggregate_run delivered updates : valid_run delivered None updates →
  match extract_all updates with
  | Ok values => aggregateWorkers delivered None updates = reducer values
  | Err _ => ∃ i update e, updates !! i = Some update ∧ extract update = Err e ∧
      aggregateWorkers delivered None updates = Err (Wrapped "update[%d]: %w" e)
  end.
Proof.
  intros Hv. unfold aggregateWorkers. specialize (Hv eq_refl). destruct (extract_all updates) as [values|e] eqn:E.
  - apply extract_all_Ok in E. destruct Hv as [Hd|(i & u & e & Hi & _ & He)].
    + by destruct (run_complete delivered updates values E Hd) as [-> ->].
    + destruct (Forall2_lookup_l _ _ _ _ _ E Hi) as (v & _ & Hv). congruence.
  - destruct (first_error _) as [e'|] eqn:Ef.
    + destruct (first_error_delivered _ _ _ Ef) as (i & u & e1 & ? & ? & ->). by exists i, u, e1.
    + exfalso. destruct (extract_all_Err _ _ E) as (i & u & e1 & Hi & He & _). destruct Hv as [Hd|(j & u' & e2 & Hj & Hd & He')].
      * destruct (first_error_some delivered updates i u e1) as [? Ef']; [done|apply Hd; by eapply lookup_lt_Some|done|congruence].
      * destruct (first_error_some delivered updates j u' e2) as [? Ef']; [done..|congruence].
Qed.

(** The operation succeeds with the same value whatever the number of processors
    and the order in which the workers finish. *)
Lemma aggregate_Ok procs workers delivered updates values : valid_run delivered None updates →
  Forall2 (λ u v, extract u = Ok v) updates values →
  aggregatePayloadsInParallel procs workers delivered None updates = reducer values.
Proof.
  intros Hv HF. pose proof (proj2 (extract_all_Ok updates values) HF) as E.
  unfold aggregatePayloadsInParallel. destruct updates as [|u us]; [by apply Forall2_nil_inv_l in HF as ->|].
  pose proof (resolveWorkerCount_pos procs (if 0 <? workers then workers else defaultUpdateAggregateWorkers)
    (Z.of_nat (length (u :: us))) ltac:(cbn; lia)) as Hpos.
  rewrite (proj2 (Z.eqb_neq (resolveWorkerCount _ _ _) 0)) by lia. destruct (shouldAggregateSequentially _ _).
  - unfold aggregatePayloadsSequentially. by rewrite E.
  - pose proof (aggregate_run delivered (u :: us) Hv) as Hr. by rewrite E in Hr.
Qed.

(** Up to four updates are taken in sequence. *)
Lemma aggregate_small procs workers delivered ctxErr updates : updates ≠ [] → (length updates ≤ 4)%nat →
  aggregatePayloadsInParallel procs workers delivered ctxErr updates = aggregatePayloadsSequentially ctxErr updates.
Proof.
  intros Hne Hlen. unfold aggregatePayloadsInParallel. destruct updates as [|u us]; [done|].
  pose proof (resolveWorkerCount_pos procs (if 0 <? workers then workers else defaultUpdateAggregateWorkers)
    (Z.of_nat (length (u :: us))) ltac:(cbn; lia)) as Hpos.
  rewrite (proj2 (Z.eqb_neq (resolveWorkerCount _ _ _) 0)) by lia.
  unfold shouldAggregateSequentially, sequentialUpdateAggregateMaxUpdates.
  rewrite (proj2 (Z.leb_le _ 4)) by lia. by rewrite orb_true_r.
Qed.

End aggregate.
