(* ===== verification/Merge.v ===== *)
(** * internal/yupdate/merge.go: merging V1 updates

    A client's structs are two lists to be merged; the closures of
    [mergeOverlappingStructLists] are functions of the merge state ([result],
    [nextExpected]) and of a cursor: the list [refs[index:]] whose head is the
    current block ([nil] is the empty cursor).  The block set is a map from
    clients to lists. *)
From S2P Require Import Prelude GoError Binary Ranges IdSet Varint YTypes DeleteSet Content Update Aggregate.

Record decodedMergeUpdateV1 := mkMergeUpdate {
  blockSet : gmap Z (list UStruct); mu_deleteSet : option DeleteSet }.

#[export] Instance decodedMergeUpdateV1_inhabited : Inhabited decodedMergeUpdateV1 := populate (mkMergeUpdate ∅ None).

Definition minClock (a b : Z) : Z := if a <? b then a else b.

Definition mergeDisjointStructLists (client : Z) (left right : list UStruct) (gap : Z) : result (list UStruct) :=
  match left, right with
  | [], _ => Ok right
  | _, [] => Ok left
  | l0 :: _, _ =>
      let merged := left in
      merged ←
        (if 0 <? gap then
           skip ← NewSkip (mkID client (struct_EndClock (List.last left l0))) gap;
           Ok (merged ++ [skip])
         else Ok merged);
      Ok (merged ++ right)
  end.

(** *** Overlapping lists *)

Record mergeState := mkMerge { ms_result : list UStruct; nextExpected : Z }.

Definition addToResult (st : mergeState) (block : UStruct) : mergeState :=
  mkMerge (ms_result st ++ [block]) (struct_EndClock block).

(** The first loop of [apply]: Skips and what is already there. *)
Fixpoint apply_drop (next : Z) (refs : list UStruct) : list UStruct :=
  match refs with
  | block :: rest => if isSkip block || (struct_EndClock block <=? next) then apply_drop next rest else refs
  | [] => []
  end.

(** Its last loop: the blocks that start where the result ends. *)
Fixpoint apply_add (st : mergeState) (refs : list UStruct) : mergeState * list UStruct :=
  match refs with
  | block :: rest =>
      if (struct_clock block =? nextExpected st) && negb (isSkip block) then apply_add (addToResult st block) rest
      else (st, refs)
  | [] => (st, [])
  end.

Definition apply (st : mergeState) (refs : list UStruct) : result (mergeState * list UStruct) :=
  let next := nextExpected st in
  refs ←
    (match apply_drop next refs with
     | block :: rest =>
         if (struct_clock block <? next) && (next <? struct_EndClock block) then
           sliced ← sliceStructV1 block (next - struct_clock block);
           Ok (sliced :: rest)
         else Ok (block :: rest)
     | [] => Ok []
     end);
  Ok (apply_add st refs).

(** A Skip up to [clock], when the result ends before it. *)
Definition fill (client : Z) (st : mergeState) (clock : Z) : result mergeState :=
  if nextExpected st <? clock then
    skip ← NewSkip (mkID client (nextExpected st)) (clock - nextExpected st);
    Ok (addToResult st skip)
  else Ok st.

Fixpoint merge_both (fuel : nat) (client : Z) (st : mergeState) (lrefs rrefs : list UStruct)
    : result (mergeState * list UStruct * list UStruct) :=
  match lrefs, rrefs with
  | _ :: _, _ :: _ =>
      match fuel with
      | O => Err FuelExhausted
      | S fuel =>
          '(st, lrefs) ← apply st lrefs;
          '(st, rrefs) ← apply st rrefs;
          match lrefs, rrefs with
          | lblock :: _, rblock :: _ =>
              st ← fill client st (minClock (struct_clock lblock) (struct_clock rblock));
              merge_both fuel client st lrefs rrefs
          | _, _ => Ok (st, lrefs, rrefs)
          end
      end
  | _, _ => Ok (st, lrefs, rrefs)
  end.

Fixpoint merge_rest (fuel : nat) (client : Z) (st : mergeState) (refs : list UStruct) : result mergeState :=
  match refs with
  | [] => Ok st
  | _ =>
      match fuel with
      | O => Err FuelExhausted
      | S fuel =>
          '(st, refs) ← apply st refs;
          st ← (match refs with block :: _ => fill client st (struct_clock block) | [] => Ok st end);
          merge_rest fuel client st refs
      end
  end.

(** The fuel is the number of blocks: every round consumes one, except that the
    first round of a trailing loop may only fill a gap ([merge_both_ok],
    [merge_rest_ok]). *)
Definition mergeOverlappingStructLists (client : Z) (lrefs rrefs : list UStruct) : result (list UStruct) :=
  match lrefs, rrefs with
  | [], _ => Ok rrefs
  | _, [] => Ok lrefs
  | l0 :: _, _ =>
      '(st, lrefs, rrefs) ← merge_both (length lrefs + length rrefs) client (mkMerge [] (struct_clock l0)) lrefs rrefs;
      st ← merge_rest (S (length lrefs)) client st lrefs;
      st ← merge_rest (S (length rrefs)) client st rrefs;
      Ok (ms_result st)
  end.

(** *** Block sets *)

Definition merge_lists (client : Z) (currentRefs newRefs : list UStruct) : result (list UStruct) :=
  match currentRefs, newRefs with
  | c0 :: _, n0 :: _ =>
      let localIsLeft := struct_clock c0 <? struct_clock n0 in
      let '(lrefs, rrefs) := if localIsLeft then (currentRefs, newRefs) else (newRefs, currentRefs) in
      match lrefs, rrefs with
      | l0 :: _, firstRight :: _ =>
          let lastLeft := List.last lrefs l0 in
          let gap := struct_clock firstRight - struct_EndClock lastLeft in
          if 0 <=? gap then mergeDisjointStructLists client lrefs rrefs (w32 gap)
          else mergeOverlappingStructLists client lrefs rrefs
      | _, _ => Err (Opaque "panic: index out of range")
      end
  | _, _ => Err (Opaque "panic: index out of range")
  end.

Definition insertInto_client (b : gmap Z (list UStruct)) (e : Z * list UStruct) : result (gmap Z (list UStruct)) :=
  let '(client, newRefs) := e in
  match b !! client with
  | None => Ok (<[client := newRefs]> b)
  | Some currentRefs =>
      merged ← merge_lists client currentRefs newRefs;
      Ok (<[client := merged]> b)
  end.

(** The entries of [other] in some order: each touches its own client only. *)
Definition insertInto (b other : gmap Z (list UStruct)) : result (gmap Z (list UStruct)) :=
  fold_result insertInto_client (map_to_list other) b.

Definition merge_entry (merged entry : decodedMergeUpdateV1) : result decodedMergeUpdateV1 :=
  b ← insertInto (blockSet merged) (blockSet entry);
  match mu_deleteSet entry with
  | None => Ok (mkMergeUpdate b (mu_deleteSet merged))
  | Some ds =>
      match DeleteSet_Merge (default NewDeleteSet (mu_deleteSet merged)) (Some ds) with
      | (ds', None) => Ok (mkMergeUpdate b (Some ds'))
      | (_, Some err) => Err err
      end
  end.

Definition mergeDecodedUpdatesV1 (entries : list decodedMergeUpdateV1) : result decodedMergeUpdateV1 :=
  fold_result merge_entry entries (mkMergeUpdate ∅ (Some NewDeleteSet)).

Definition decodeMergeUpdateV1 (update : bytes) : result decodedMergeUpdateV1 :=
  decoded ← DecodeV1 update;
  Ok (mkMergeUpdate (groupStructsByClient (Structs decoded)) (du_DeleteSet decoded)).

(** [procs] and [delivered] are the run of the worker pool (Aggregate). *)
Definition MergeUpdatesV1Context (procs : Z) (delivered : gset nat) (ctxErr : option error) (updates : list bytes)
    : result bytes :=
  merged ← aggregatePayloadsInParallel decodeMergeUpdateV1 mergeDecodedUpdatesV1 procs 0 delivered ctxErr updates;
  out ← encodeStructGroupsV1 (blockSet merged);
  Ok (AppendDeleteSetBlockV1 out (mu_deleteSet merged)).

Definition MergeUpdatesV1 (procs : Z) (delivered : gset nat) (updates : list bytes) : result bytes :=
  MergeUpdatesV1Context procs delivered None updates.
