(* ===== verification/MergeFacts.v ===== *)
(** * Facts about slicing and merging lists of structs

    [good] structs can be cut anywhere ([sliceStructWindow_spec]).  The clocks a
    list of structs holds content for are its [holds]; merging two chains of one
    client gives a chain that holds the union, made of structs of both or their
    tails ([mergeOverlapping_spec], [merge_lists_spec]). *)
From S2P Require Import Prelude GoError Binary Ranges IdSet IdSetFacts Varint GoText YTypes DeleteSet Decoder DecoderFacts Content Update UpdateFacts UpdateStream UpdateEncode Aggregate Merge.

(** ** Slicing a struct *)

Definition struct_fits (s : UStruct) : Prop :=
  match s with SItem i => sliceable (ItemContent i) | _ => True end.

Definition good (s : UStruct) : Prop := struct_ok s ∧ struct_fits s.

Definition struct_end (s : UStruct) : Z := struct_clock s + struct_Length s.

Lemma good_bounds s : good s → is_u32 (struct_client s) ∧ 0 <= struct_clock s ∧ 0 < struct_Length s ∧
  struct_end s <= MaxUint32 ∧ struct_EndClock s = struct_end s.
Proof.
  intros [[Hb _] _]. pose proof Hb as ([Hc [Hk _]] & Hl & He). split_and!; [done..|].
  unfold struct_EndClock, struct_end, struct_clock, struct_ID, struct_Length. by apply base_EndClock_wf.
Qed.

Lemma ID_Offset_Ok id d : wf_ID id → 0 <= d → id_Clock id + d <= MaxUint32 →
  ID_Offset id d = Ok (mkID (id_Client id) (id_Clock id + d)).
Proof.
  intros [_ [Hk _]] Hd Hle. unfold ID_Offset.
  rewrite (proj2 (addClock_Ok (id_Clock id) d (id_Clock id + d) Hk Hd)); done.
Qed.

Lemma newBaseStruct_wf id len : wf_ID id → 0 < len → id_Clock id + len <= MaxUint32 →
  newBaseStruct id len = Ok (mkBase id len) ∧ wf_base (mkBase id len).
Proof.
  intros Hid Hl Hle. assert (wf_base (mkBase id len)) as Hb by done. split; [|done]. apply (wf_base_newBaseStruct _ Hb).
Qed.

(** What remains of a struct whose first [a] and last [b] clocks are cut. *)
Definition trimmed (s : UStruct) (a b : Z) (s' : UStruct) : Prop :=
  good s' ∧ struct_client s' = struct_client s ∧ struct_clock s' = struct_clock s + a ∧
  struct_Length s' = struct_Length s - a - b ∧ struct_Kind s' = struct_Kind s.

Lemma sliceStructWindow_spec s a b : good s → 0 <= a → 0 <= b → a + b < struct_Length s →
  ∃ s', sliceStructWindowV1 s a b = Ok s' ∧ trimmed s a b s'.
Proof.
  intros Hg Ha Hb Hab. pose proof (good_bounds s Hg) as (Hc & Hk & Hl & He & _). unfold struct_end in He.
  unfold sliceStructWindowV1. cmp_known.
  destruct ((a =? 0) && (b =? 0)) eqn:E0.
  { apply andb_true_iff in E0 as [->%Z.eqb_eq ->%Z.eqb_eq]. exists s. unfold trimmed. split_and!; [done..|lia|lia|done]. }
  assert (wf_ID (struct_ID s)) as Hid by (split; [done|unfold struct_clock in *; u32]).
  rewrite w32_small by u32. rewrite (proj2 (Z.eqb_neq _ 0)) by lia.
  rewrite ID_Offset_Ok by (unfold struct_clock in *; first [done|lia]). cbn [mbind result_bind].
  assert (wf_ID (mkID (struct_client s) (struct_clock s + a))) as Hid' by (split; [done|]; unfold is_u32; cbn; u32).
  destruct (newBaseStruct_wf (mkID (struct_client s) (struct_clock s + a)) (struct_Length s - a - b)) as [Hnb Hwb]; [done|lia|cbn; lia|].
  fold (struct_client s) (struct_clock s).
  destruct s as [base|base|i].
  1, 2: unfold NewGC, NewSkip; rewrite Hnb; eexists; (split; [done|]); unfold trimmed, good; by split_and!.
  destruct Hg as [[Hwf Hi] Hfit]. destruct Hi as (Hct & Hlv & Ho & Hro & Hp). cbn in Hfit.
  assert (struct_Length (SItem i) = LengthVal (ItemContent i)) as Elv by done. rewrite Elv in *.
  pose proof (SliceWindow_spec (ItemContent i) a b Hct Ha Hb Hfit) as Hs. revert Hs. cmp_known.
  intros (c' & -> & Hc' & Hlc & Href & Hcount). cbn [mbind result_bind]. unfold NewItem, newItem.
  cbn [content_Length ParsedContent_Content]. rewrite Hlc, Hnb. cbn [fmap result_fmap opt_Origin opt_RightOrigin opt_Parent opt_ParentSub opt_Redone].
  eexists. split; [done|]. unfold trimmed. split_and!; [|done|done|unfold struct_Length; cbn; lia|done]. split.
  - split; [done|]. split_and!; cbn; [done|done| |done|].
    + unfold originForSlice. case_if; [done|].
      rewrite ID_Offset_Ok by (unfold struct_clock, struct_ID in *; cbn in *; first [done|lia]). cbn.
      split; [done|]. unfold struct_clock, struct_ID in *; cbn in *. u32.
    + unfold no_origin, originForSlice; cbn. case_if; [done|].
      rewrite ID_Offset_Ok by (unfold struct_clock, struct_ID in *; cbn in *; first [done|lia]). done.
  - cbn. intros Hs. rewrite Href in Hs. specialize (Hfit Hs). lia.
Qed.

Lemma trimmed_skip s a b s' : trimmed s a b s' → isSkip s' = isSkip s.
Proof. intros (_ & _ & _ & _ & Hk). unfold isSkip. by rewrite Hk. Qed.

(** ** Chains and what they hold *)

(** The list has content (not a Skip) at clock [x]. *)
Definition holds (l : list UStruct) (x : Z) : Prop :=
  Exists (λ s, isSkip s = false ∧ struct_clock s <= x < struct_end s) l.

#[export] Instance holds_dec l x : Decision (holds l x).
Proof. unfold holds. apply _. Defined.

Lemma holds_nil x : ¬ holds [] x.
Proof. by intros H%Exists_nil. Qed.

Lemma holds_cons s l x : holds (s :: l) x ↔ (isSkip s = false ∧ struct_clock s <= x < struct_end s) ∨ holds l x.
Proof. apply Exists_cons. Qed.

Lemma holds_app l1 l2 x : holds (l1 ++ l2) x ↔ holds l1 x ∨ holds l2 x.
Proof. apply Exists_app. Qed.

Lemma holds_one s x : holds [s] x ↔ isSkip s = false ∧ struct_clock s <= x < struct_end s.
Proof. rewrite holds_cons. pose proof (holds_nil x). tauto. Qed.

Lemma chain_cons c k s l : chain c k (s :: l) ↔ struct_client s = c ∧ struct_clock s = k ∧ chain c (struct_end s) l.
Proof.
  cbn [chain]. unfold struct_end, struct_client, struct_clock. destruct (struct_ID s) as [c' k']. cbn. split.
  - by intros [[= -> ->] ?].
  - by intros (-> & -> & ?).
Qed.

Lemma chain_end_cons k s l : struct_clock s = k → chain_end k (s :: l) = chain_end (struct_end s) l.
Proof. by intros <-. Qed.

Lemma chain_end_app k l1 l2 : chain_end k (l1 ++ l2) = chain_end (chain_end k l1) l2.
Proof. unfold chain_end. apply foldl_app. Qed.

Lemma chain_end_le c k l : chain c k l → Forall good l → k <= chain_end k l.
Proof.
  revert k. induction l as [|s l IH]; intros k Hch Hg; cbn; [lia|].
  apply chain_cons in Hch as (_ & Hk & Hch). apply Forall_cons in Hg as [Hs Hg].
  pose proof (good_bounds s Hs) as (_ & _ & Hl & _ & _). specialize (IH _ Hch Hg).
  rewrite <- Hk. fold (struct_end s). unfold struct_end in *. unfold chain_end in *. lia.
Qed.

Lemma chain_holds c k l x : chain c k l → Forall good l → holds l x → k <= x < chain_end k l.
Proof.
  revert k. induction l as [|s l IH]; intros k Hch Hg; [by intros ?%holds_nil|].
  apply chain_cons in Hch as (_ & Hk & Hch). apply Forall_cons in Hg as [Hs Hg].
  pose proof (good_bounds s Hs) as (_ & _ & Hl & _ & _). pose proof (chain_end_le _ _ _ Hch Hg).
  rewrite chain_end_cons by done. intros [[_ Hx]|Hx]%holds_cons; [lia|].
  specialize (IH _ Hch Hg Hx). unfold struct_end in *. lia.
Qed.

Lemma chain_last c k l d : chain c k l → Forall good l → l ≠ [] →
  struct_client (List.last l d) = c ∧ struct_EndClock (List.last l d) = chain_end k l ∧ chain_end k l <= MaxUint32.
Proof.
  revert k. induction l as [|s l IH]; intros k Hch Hg Hne; [done|].
  apply chain_cons in Hch as (Hc & Hk & Hch). apply Forall_cons in Hg as [Hs Hg].
  rewrite chain_end_cons by done. destruct l as [|t l]; [|by apply IH].
  cbn. pose proof (good_bounds s Hs) as (_ & _ & _ & He & ->). done.
Qed.

Lemma newSkip_good c k n : is_u32 c → 0 <= k → 0 < n → k + n <= MaxUint32 →
  NewSkip (C := ParsedContent) (mkID c k) n = Ok (Skip (mkBase (mkID c k) n)) ∧ good (Skip (mkBase (mkID c k) n)).
Proof.
  intros Hc Hk Hn Hle. destruct (newBaseStruct_wf (mkID c k) n) as [H Hw]; [split; cbn; u32|done|done|].
  unfold NewSkip. by rewrite H.
Qed.

(** ** The merge state *)

(** [t] is [s] without some of its first clocks. *)
Definition tail_of : UStruct → UStruct → Prop := rtc (λ s t, ∃ d, 0 <= d ∧ sliceStructV1 s d = Ok t).

Definition from (srcs : list UStruct) (t : UStruct) : Prop := isSkip t = true ∨ ∃ s, s ∈ srcs ∧ tail_of s t.

Definition cursor (c : Z) (srcs refs : list UStruct) : Prop :=
  (∃ k, chain c k refs) ∧ Forall good refs ∧ Forall (from srcs) refs.

(** In the middle of merging [L] and [R] from clock [k0]: the result is a chain up
    to [nextExpected] that holds what both hold below it, and the cursors hold
    the rest. *)
Record merging (c k0 : Z) (L R : list UStruct) (st : mergeState) (l r : list UStruct) : Prop := {
  m_chain : chain c k0 (ms_result st);
  m_next : nextExpected st = chain_end k0 (ms_result st);
  m_good : Forall good (ms_result st);
  m_from : Forall (from (L ++ R)) (ms_result st);
  m_left : cursor c (L ++ R) l;
  m_right : cursor c (L ++ R) r;
  m_done : ∀ x, x < nextExpected st → holds (ms_result st) x ↔ holds L x ∨ holds R x;
  m_todo : ∀ x, nextExpected st <= x → (holds L x ↔ holds l x) ∧ (holds R x ↔ holds r x);
}.

Lemma from_swap L R t : from (L ++ R) t → from (R ++ L) t.
Proof. intros [?|(s & Hs & ?)]; [by left|right]. exists s. split; [|done]. set_solver. Qed.

Lemma cursor_swap c L R refs : cursor c (L ++ R) refs → cursor c (R ++ L) refs.
Proof. intros (? & ? & Hf). split_and!; [done..|]. eapply Forall_impl; [exact Hf|]. intros t. apply from_swap. Qed.

Lemma merging_swap c k0 L R st l r : merging c k0 L R st l r → merging c k0 R L st r l.
Proof.
  intros [H1 H2 H3 H4 H5 H6 H7 H8]. split; try done; [|by apply cursor_swap..| |].
  - eapply Forall_impl; [exact H4|]. intros t. apply from_swap.
  - intros x Hx. rewrite H7 by done. tauto.
  - intros x Hx. destruct (H8 x Hx). tauto.
Qed.

Lemma cursor_cons c srcs s l : cursor c srcs (s :: l) →
  good s ∧ from srcs s ∧ struct_client s = c ∧ cursor c srcs l ∧ chain c (struct_end s) l.
Proof.
  intros ((k & Hch) & [Hs Hg]%Forall_cons & [Hf Hfs]%Forall_cons). apply chain_cons in Hch as (? & ? & ?).
  split_and!; [done..|split_and!; [by eexists|done..]|done].
Qed.

(** What the head leaves behind lies after it. *)
Lemma cursor_holds c srcs s l x : cursor c srcs (s :: l) → holds l x → struct_end s <= x.
Proof. intros Hc Hx. apply cursor_cons in Hc as (_ & _ & _ & (_ & Hg & _) & Hch). by apply (chain_holds c _ l x). Qed.

(** Appending a struct that starts where the result ends. *)
Lemma merging_append c k0 L R st l r t l' r' : merging c k0 L R st l r → good t → from (L ++ R) t →
  struct_client t = c → struct_clock t = nextExpected st → cursor c (L ++ R) l' → cursor c (L ++ R) r' →
  (∀ x, struct_clock t <= x < struct_end t → isSkip t = false ↔ holds l x ∨ holds r x) →
  (∀ x, struct_end t <= x → (holds l x ↔ holds l' x) ∧ (holds r x ↔ holds r' x)) →
  merging c k0 L R (addToResult st t) l' r'.
Proof.
  intros Hm Hg Hf Hc Hk Hl' Hr' Hin Hout. pose proof (good_bounds t Hg) as (_ & _ & Hlen & _ & He).
  pose proof Hm as [H1 H2 H3 H4 _ _ H7 H8]. rewrite Hk in Hin.
  split; unfold addToResult; cbn [ms_result nextExpected]; try done.
  - apply chain_app. split; [done|]. rewrite <- H2. by apply chain_cons.
  - rewrite He, chain_end_app, <- H2, <- Hk. done.
  - apply Forall_app. by split; [|constructor].
  - apply Forall_app. by split; [|constructor].
  - intros x Hx. rewrite He in Hx. rewrite holds_app, holds_one. destruct (Z.ltb_spec x (nextExpected st)).
    + rewrite H7 by done. split; [|tauto]. intros [?|[_ ?]]; [done|lia].
    + destruct (H8 x) as [-> ->]; [done|]. rewrite <- Hin by lia.
      assert (¬ holds (ms_result st) x) by (intros ?%(chain_holds c k0); [lia|done..]). rewrite Hk. split; [tauto|].
      intros ?. right. split; [done|lia].
  - intros x Hx. rewrite He in Hx. unfold struct_end in *.
    destruct (H8 x) as [-> ->]; [lia|]. apply Hout. lia.
Qed.

(** ** The steps of the merge *)

Lemma merging_add c k0 L R st b rest r : merging c k0 L R st (b :: rest) r →
  struct_clock b = nextExpected st → isSkip b = false → merging c k0 L R (addToResult st b) rest r.
Proof.
  intros Hm Hk Hs. destruct (cursor_cons _ _ _ _ (m_left _ _ _ _ _ _ _ Hm)) as (Hg & Hf & Hc & Hrest & _).
  eapply merging_append; [done..|apply (m_right _ _ _ _ _ _ _ Hm)| |].
  - intros x Hx. rewrite holds_cons. tauto.
  - intros x Hx. rewrite holds_cons. split; [|done]. split; [|by right]. intros [[_ ?]|?]; [lia|done].
Qed.

Lemma merging_drop c k0 L R st b rest r : merging c k0 L R st (b :: rest) r →
  isSkip b = true ∨ struct_end b <= nextExpected st → merging c k0 L R st rest r.
Proof.
  intros Hm Hb. destruct (cursor_cons _ _ _ _ (m_left _ _ _ _ _ _ _ Hm)) as (_ & _ & _ & Hrest & _).
  destruct Hm as [H1 H2 H3 H4 _ H6 H7 H8]. split; try done.
  intros x Hx. destruct (H8 x Hx) as [-> ?]. split; [|done]. rewrite holds_cons. split; [|by right].
  intros [[Hns ?]|?]; [|done]. destruct Hb as [Hb|Hb]; [congruence|lia].
Qed.

Lemma merging_slice c k0 L R st b rest r : merging c k0 L R st (b :: rest) r →
  struct_clock b < nextExpected st < struct_end b →
  ∃ b', sliceStructV1 b (nextExpected st - struct_clock b) = Ok b' ∧ merging c k0 L R st (b' :: rest) r ∧
    struct_clock b' = nextExpected st ∧ isSkip b' = isSkip b.
Proof.
  intros Hm Hb. pose proof (cursor_cons _ _ _ _ (m_left _ _ _ _ _ _ _ Hm)) as (Hg & Hf & Hc & Hrest & Hch).
  unfold struct_end in *. set (d := nextExpected st - struct_clock b).
  destruct (sliceStructWindow_spec b d 0 Hg) as (b' & Hs & Ht); [unfold d in *; lia..|].
  exists b'. split; [exact Hs|]. pose proof (trimmed_skip _ _ _ _ Ht) as Hskip. destruct Ht as (Hg' & Hc' & Hk' & Hl' & _).
  assert (struct_clock b' = nextExpected st) as Hk by (unfold d in *; lia).
  assert (struct_clock b' + struct_Length b' = struct_clock b + struct_Length b) as Hend by (unfold d in *; lia).
  split_and!; [|done..]. pose proof Hm as [H1 H2 H3 H4 _ H6 H7 H8]. split; try done.
  - destruct Hrest as (_ & ? & ?). split_and!; [|by constructor|].
    + exists (struct_clock b'). apply chain_cons. split_and!; [congruence|done|]. unfold struct_end. by rewrite Hend.
    + constructor; [|done]. destruct Hf as [Hf|(s & Hin & Hs')]; [left; congruence|right].
      exists s. split; [done|]. eapply rtc_r; [done|]. exists d. split; [unfold d; lia|done].
  - intros x Hx. destruct (H8 x Hx) as [-> ?]. split; [|done]. rewrite !holds_cons, Hskip, Hk. unfold struct_end.
    rewrite Hend. split; (intros [[? ?]|?]; [left; split; [done|lia]|by right]).
Qed.

(** Not before [m]: nothing, or the head starts at or after it. *)
Definition starts_at (m : Z) (refs : list UStruct) : Prop := ∀ b, head refs = Some b → m <= struct_clock b.

Lemma starts_holds c srcs refs m x : cursor c srcs refs → starts_at m refs → holds refs x → m <= x.
Proof.
  intros ((k & Hch) & Hg & _) Hm Hx. pose proof (chain_holds _ _ _ _ Hch Hg Hx). destruct refs as [|b refs]; [by apply holds_nil in Hx|].
  apply chain_cons in Hch as (_ & Hk & _). specialize (Hm b eq_refl). lia.
Qed.

Lemma fill_ok c k0 L R st l r m : is_u32 c → 0 <= k0 → merging c k0 L R st l r →
  starts_at m l → starts_at m r → m <= MaxUint32 →
  ∃ st', fill c st m = Ok st' ∧ merging c k0 L R st' l r ∧ nextExpected st' = Z.max (nextExpected st) m.
Proof.
  intros Hc H0 Hm Hl Hr Hmax. unfold fill. case_if; [|exists st; split_and!; [done..|lia]].
  pose proof (chain_end_le c k0 _ (m_chain _ _ _ _ _ _ _ Hm) (m_good _ _ _ _ _ _ _ Hm)).
  pose proof (m_next _ _ _ _ _ _ _ Hm) as Hn.
  destruct (newSkip_good c (nextExpected st) (m - nextExpected st)) as [-> Hg]; [done|lia..|]. cbn [mbind result_bind].
  set (s := Skip _) in *. pose proof (good_bounds s Hg) as (_ & _ & _ & _ & He).
  assert (struct_clock s = nextExpected st ∧ struct_Length s = m - nextExpected st) as [Hk Hlen] by done.
  eexists. split; [done|]. split; [|unfold addToResult; cbn [nextExpected]; rewrite He; unfold struct_end; lia].
  eapply merging_append; [done|done|by left|done|done|apply (m_left _ _ _ _ _ _ _ Hm)|apply (m_right _ _ _ _ _ _ _ Hm)| |done].
  intros x Hx. unfold struct_end in Hx. split; [done|]. intros [Hh|Hh]; exfalso.
  - pose proof (starts_holds _ _ _ _ _ (m_left _ _ _ _ _ _ _ Hm) Hl Hh). lia.
  - pose proof (starts_holds _ _ _ _ _ (m_right _ _ _ _ _ _ _ Hm) Hr Hh). lia.
Qed.

Lemma apply_drop_ok c k0 L R st l r : merging c k0 L R st l r →
  let l' := apply_drop (nextExpected st) l in
  merging c k0 L R st l' r ∧ (length l' ≤ length l)%nat ∧ (length l' = length l → l' = l) ∧
  (∀ b, head l' = Some b → isSkip b = false ∧ nextExpected st < struct_end b).
Proof.
  induction l as [|b l IH]; intros Hm; cbn zeta; cbn [apply_drop]; [by split_and!|].
  destruct (cursor_cons _ _ _ _ (m_left _ _ _ _ _ _ _ Hm)) as (Hg & _).
  pose proof (good_bounds b Hg) as (_ & _ & _ & _ & He). rewrite He.
  destruct (isSkip b || (struct_end b <=? nextExpected st)) eqn:E.
  - destruct IH as (Hm' & Hlen & _ & Hh).
    { eapply merging_drop; [done|]. apply orb_true_iff in E as [?|?%Z.leb_le]; auto. }
    split_and!; [done|cbn; lia|cbn; lia|done].
  - apply orb_false_iff in E as [? ?%Z.leb_gt]. split_and!; [done..|]. by intros b' [= <-].
Qed.

Lemma apply_add_ok c k0 L R st l r : merging c k0 L R st l r →
  ∃ st' l', apply_add st l = (st', l') ∧ merging c k0 L R st' l' r ∧ nextExpected st <= nextExpected st' ∧
    (length l' ≤ length l)%nat ∧
    (∀ b, head l = Some b → isSkip b = false → struct_clock b = nextExpected st → length l' < length l)%nat ∧
    (starts_at (nextExpected st) l → starts_at (nextExpected st') l').
Proof.
  revert st. induction l as [|b l IH]; intros st Hm; cbn [apply_add].
  { exists st, []. by split_and!. }
  destruct ((struct_clock b =? nextExpected st) && negb (isSkip b)) eqn:E.
  - apply andb_true_iff in E as [Hk%Z.eqb_eq Hs%negb_true_iff].
    destruct (cursor_cons _ _ _ _ (m_left _ _ _ _ _ _ _ Hm)) as (Hg & _ & _ & _ & Hch).
    pose proof (good_bounds b Hg) as (_ & _ & ? & _ & He).
    destruct (IH _ (merging_add _ _ _ _ _ _ _ _ Hm Hk Hs)) as (st' & l' & -> & Hm' & Hle & Hlen & _ & Hst).
    exists st', l'. cbn [addToResult nextExpected] in *. rewrite He in *. unfold struct_end in *.
    split_and!; [done|done|lia|cbn; lia|intros; cbn; lia|].
    intros _. apply Hst. intros b' Hb'. destruct l as [|b1 l]; [done|]. injection Hb' as ->.
    apply chain_cons in Hch as (_ & -> & _). done.
  - exists st, (b :: l). split_and!; [done|done|lia|done| |done].
    intros b' [= <-] Hs Hk. rewrite Hs, Hk, Z.eqb_refl in E. done.
Qed.

(** One call of [apply] on the left cursor. *)
Lemma apply_ok c k0 L R st l r : merging c k0 L R st l r →
  ∃ st' l', apply st l = Ok (st', l') ∧ merging c k0 L R st' l' r ∧ nextExpected st <= nextExpected st' ∧
    (length l' ≤ length l)%nat ∧
    (∀ b, head l = Some b → struct_clock b <= nextExpected st → (length l' < length l)%nat) ∧
    starts_at (nextExpected st') l'.
Proof.
  intros Hm. unfold apply. cbn zeta. destruct (apply_drop_ok _ _ _ _ _ _ _ Hm) as (Hm1 & Hlen1 & Hsame & Hh1).
  set (l1 := apply_drop _ _) in *. clearbody l1.
  assert (∃ l2, (match l1 with
     | block :: rest =>
         if (struct_clock block <? nextExpected st) && (nextExpected st <? struct_EndClock block) then
           sliced ← sliceStructV1 block (nextExpected st - struct_clock block); Ok (sliced :: rest)
         else Ok (block :: rest)
     | [] => Ok [] end) = Ok l2 ∧ merging c k0 L R st l2 r ∧ length l2 = length l1 ∧ starts_at (nextExpected st) l2 ∧
     (∀ b1 b2, head l1 = Some b1 → head l2 = Some b2 → isSkip b2 = false ∧
        (struct_clock b1 <= nextExpected st → struct_clock b2 = nextExpected st))) as (l2 & -> & Hm2 & Hlen2 & Hst2 & Hh2).
  { destruct l1 as [|b l1]; [by exists []|]. destruct (Hh1 b eq_refl) as [Hs He].
    destruct (cursor_cons _ _ _ _ (m_left _ _ _ _ _ _ _ Hm1)) as (Hg & _).
    pose proof (good_bounds b Hg) as (_ & _ & _ & _ & ->). rewrite (proj2 (Z.ltb_lt _ (struct_end b))) by done.
    destruct (Z.ltb_spec (struct_clock b) (nextExpected st)); cbn [andb].
    - destruct (merging_slice _ _ _ _ _ _ _ _ Hm1) as (b' & -> & Hm' & Hk & Hs'); [done|].
      exists (b' :: l1). split_and!; [done..| |]; [intros ? [= <-]; lia|]. intros ? ? [= <-] [= <-]. split; [congruence|done].
    - exists (b :: l1). split_and!; [done..| |]; [intros ? [= <-]; done|]. intros ? ? [= <-] [= <-]. split; [done|lia]. }
  cbn [mbind result_bind]. destruct (apply_add_ok _ _ _ _ _ _ _ Hm2) as (st' & l' & -> & Hm' & Hle & Hlen & Hprog & Hst).
  exists st', l'. split_and!; [done|done|done|lia| |by apply Hst].
  intros b Hb Hk. destruct (decide (length l1 = length l)) as [E|]; [|lia].
  rewrite (Hsame E) in *. destruct l2 as [|b2 l2]; [by destruct l|].
  destruct (Hh2 b b2 Hb eq_refl) as [? Hk2]. specialize (Hprog b2 eq_refl). rewrite <- Hlen2. apply Hprog; auto.
Qed.

Lemma apply_right c k0 L R st l r : merging c k0 L R st l r →
  ∃ st' r', apply st r = Ok (st', r') ∧ merging c k0 L R st' l r' ∧ nextExpected st <= nextExpected st' ∧
    (length r' ≤ length r)%nat ∧
    (∀ b, head r = Some b → struct_clock b <= nextExpected st → (length r' < length r)%nat) ∧
    starts_at (nextExpected st') r'.
Proof.
  intros Hm%merging_swap. destruct (apply_ok _ _ _ _ _ _ _ Hm) as (st' & r' & ? & ?%merging_swap & ?). eauto.
Qed.

(** ** The loops *)

Definition ready (st : mergeState) (refs : list UStruct) : Prop :=
  ∃ b, head refs = Some b ∧ struct_clock b <= nextExpected st.

Lemma head_bound c srcs b refs : cursor c srcs (b :: refs) → is_u32 c ∧ struct_clock b <= MaxUint32.
Proof.
  intros (Hg & _ & <- & _)%cursor_cons. pose proof (good_bounds b Hg) as (? & _ & ? & ? & _). unfold struct_end in *.
  split; [done|lia].
Qed.

Lemma merge_both_ok fuel c k0 L R st l r : 0 <= k0 → merging c k0 L R st l r → (length l + length r ≤ fuel)%nat →
  ready st l ∨ ready st r ∨ l = [] ∨ r = [] →
  ∃ st' l' r', merge_both fuel c st l r = Ok (st', l', r') ∧ merging c k0 L R st' l' r' ∧ (l' = [] ∨ r' = []) ∧
    (length l' ≤ length l)%nat ∧ (length r' ≤ length r)%nat.
Proof.
  intros H0. revert st l r. induction fuel as [|fuel IH]; intros st l r Hm Hfuel Hready.
  { destruct l as [|b1 l]; [|cbn in *; lia]. exists st, [], r. split_and!; auto. }
  destruct l as [|b1 l]; [exists st, [], r; split_and!; auto|].
  destruct r as [|b2 r]; [exists st, (b1 :: l), []; split_and!; auto|]. cbn [merge_both].
  destruct (apply_ok _ _ _ _ _ _ _ Hm) as (st1 & l1 & -> & Hm1 & Hle1 & Hlen1 & Hprog1 & Hst1). cbn [mbind result_bind].
  destruct (apply_right _ _ _ _ _ _ _ Hm1) as (st2 & r2 & -> & Hm2 & Hle2 & Hlen2 & Hprog2 & Hst2). cbn [mbind result_bind].
  assert (length l1 + length r2 < length (b1 :: l) + length (b2 :: r))%nat as Hdec.
  { destruct Hready as [(b & [= <-] & Hb)|[(b & [= <-] & Hb)|[?|?]]]; [|specialize (Hprog2 _ eq_refl)|done..].
    - specialize (Hprog1 _ eq_refl Hb). lia.
    - specialize (Hprog2 ltac:(lia)). lia. }
  destruct l1 as [|lb l1]; [exists st2, [], r2; split_and!; [done|done|by left|cbn; lia|done]|].
  destruct r2 as [|rb r2]; [exists st2, (lb :: l1), []; split_and!; [done|done|by right|done|cbn; lia]|].
  destruct (head_bound _ _ _ _ (m_left _ _ _ _ _ _ _ Hm2)) as [Hc Hb1].
  destruct (head_bound _ _ _ _ (m_right _ _ _ _ _ _ _ Hm2)) as [_ Hb2].
  assert (minClock (struct_clock lb) (struct_clock rb) = Z.min (struct_clock lb) (struct_clock rb)) as ->
    by (unfold minClock; case_if; lia).
  destruct (fill_ok _ _ _ _ _ _ _ (Z.min (struct_clock lb) (struct_clock rb)) Hc H0 Hm2) as (st3 & -> & Hm3 & Hn3).
  { intros b [= <-]. lia. } { intros b [= <-]. lia. } { lia. }
  cbn [mbind result_bind]. destruct (IH st3 (lb :: l1) (rb :: r2) Hm3) as (st' & l' & r' & -> & Hm' & Hnil & Hl' & Hr'); [cbn in *; lia| |].
  - destruct (Z.leb_spec (struct_clock lb) (struct_clock rb)); [left; exists lb|right; left; exists rb];
      (split; [done|rewrite Hn3; lia]).
  - exists st', l', r'. split_and!; [done..|cbn in *; lia|cbn in *; lia].
Qed.

Lemma merge_rest_ok fuel c k0 L R st l r : 0 <= k0 → merging c k0 L R st l r → (l = [] ∨ r = []) →
  (length l < fuel)%nat ∨ (length l ≤ fuel)%nat ∧ ready st l →
  ∃ st', merge_rest fuel c st l = Ok st' ∧ merging c k0 L R st' [] r.
Proof.
  intros H0. revert st l. induction fuel as [|fuel IH]; intros st l Hm Hnil Hfuel.
  { destruct l as [|b l]; [by exists st|]. cbn in *. lia. }
  destruct l as [|b l]; [by exists st|]. destruct Hnil as [?| ->]; [done|]. cbn [merge_rest].
  destruct (apply_ok _ _ _ _ _ _ _ Hm) as (st1 & l1 & -> & Hm1 & Hle1 & Hlen1 & Hprog1 & Hst1). cbn [mbind result_bind].
  destruct l1 as [|lb l1]; [exists st1; by destruct fuel|].
  destruct (head_bound _ _ _ _ (m_left _ _ _ _ _ _ _ Hm1)) as [Hc Hb1].
  destruct (fill_ok _ _ _ _ _ _ _ (struct_clock lb) Hc H0 Hm1) as (st2 & -> & Hm2 & Hn2); [by intros ? [= <-]|done|done|].
  cbn [mbind result_bind]. apply IH; [done|by right|]. right. split; [|exists lb; split; [done|lia]].
  destruct Hfuel as [?|[? (b' & [= <-] & Hb)]]; [cbn in *; lia|]. specialize (Hprog1 _ eq_refl Hb). cbn in *. lia.
Qed.

(** ** Merging the lists of one client *)

Definition mergeable (c k : Z) (l : list UStruct) : Prop := chain c k l ∧ Forall good l.

Lemma from_self srcs l : l ⊆ srcs → Forall (from srcs) l.
Proof. intros H. apply Forall_forall. intros s Hs. right. exists s. split; [by apply H|apply rtc_refl]. Qed.

Lemma mergeable_cursor c k l srcs : mergeable c k l → l ⊆ srcs → cursor c srcs l.
Proof. intros [? ?] ?. split_and!; [by eexists|done|by apply from_self]. Qed.

Lemma mergeOverlapping_spec c k1 k2 l r : mergeable c k1 l → mergeable c k2 r → l ≠ [] → r ≠ [] → k1 <= k2 →
  ∃ m, mergeOverlappingStructLists c l r = Ok m ∧ mergeable c k1 m ∧ Forall (from (l ++ r)) m ∧
    ∀ x, holds m x ↔ holds l x ∨ holds r x.
Proof.
  intros Hl Hr Hnl Hnr Hk. unfold mergeOverlappingStructLists.
  destruct l as [|l0 l]; [done|]. destruct r as [|r0 r]; [done|].
  pose proof Hl as [(Hc & Hk1 & _)%chain_cons [Hg0 _]%Forall_cons].
  pose proof (good_bounds l0 Hg0) as (Hcu & H0 & _). rewrite Hk1 in *.
  assert (merging c k1 (l0 :: l) (r0 :: r) (mkMerge [] k1) (l0 :: l) (r0 :: r)) as Hm.
  { split; cbn [ms_result nextExpected]; try done; [by eapply mergeable_cursor; [|set_solver]..|].
    intros x Hx. split; [by intros ?%holds_nil|]. intros [H|H]; exfalso.
    - apply (chain_holds c k1) in H; [lia|apply Hl..].
    - apply (chain_holds c k2) in H; [lia|apply Hr..]. }
  destruct (merge_both_ok (length (l0 :: l) + length (r0 :: r)) _ _ _ _ _ _ _ H0 Hm) as (st1 & l1 & r1 & -> & Hm1 & Hnil & _); [lia| |].
  { left. exists l0. cbn. split; [done|lia]. }
  cbn [mbind result_bind].
  destruct (merge_rest_ok (S (length l1)) _ _ _ _ _ _ _ H0 Hm1 Hnil) as (st2 & -> & Hm2); [lia|]. cbn [mbind result_bind].
  destruct (merge_rest_ok (S (length r1)) _ _ _ _ _ _ _ H0 (merging_swap _ _ _ _ _ _ _ Hm2)) as (st3 & -> & Hm3); [auto|lia|].
  cbn [mbind result_bind]. exists (ms_result st3). apply merging_swap in Hm3. destruct Hm3 as [H1 H2 H3 H4 _ _ H7 H8].
  split_and!; [done|done..|]. intros x. destruct (Z.ltb_spec x (nextExpected st3)); [by apply H7|].
  destruct (H8 x) as [-> ->]; [done|]. split; [intros ?%(chain_holds c k1); [lia|done..]|]. by intros [?%holds_nil|?%holds_nil].
Qed.

Lemma mergeDisjoint_spec c k1 k2 l r : mergeable c k1 l → mergeable c k2 r → l ≠ [] → r ≠ [] → chain_end k1 l <= k2 →
  ∃ m, mergeDisjointStructLists c l r (k2 - chain_end k1 l) = Ok m ∧ mergeable c k1 m ∧ Forall (from (l ++ r)) m ∧
    ∀ x, holds m x ↔ holds l x ∨ holds r x.
Proof.
  intros [Hcl Hgl] [Hcr Hgr] Hnl Hnr Hk. unfold mergeDisjointStructLists.
  destruct l as [|l0 l]; [done|]. destruct r as [|r0 r]; [done|].
  destruct (chain_last c k1 (l0 :: l) l0 Hcl Hgl Hnl) as (_ & -> & Hmax). set (e := chain_end k1 (l0 :: l)) in *.
  pose proof (chain_cons c k1 l0 l) as [(Hc & Hk1 & _) _]; [done|].
  pose proof (chain_cons c k2 r0 r) as [(Hc2 & Hk2 & _) _]; [done|].
  assert (good l0 ∧ good r0) as [Hg0 Hg2] by (split; [by apply Forall_cons in Hgl as [? _]|by apply Forall_cons in Hgr as [? _]]).
  pose proof (good_bounds l0 Hg0) as (Hcu & H0 & _). pose proof (good_bounds r0 Hg2) as (_ & _ & ? & ? & _).
  pose proof (chain_end_le c k1 (l0 :: l) Hcl Hgl). unfold struct_end in *.
  case_if; cbn [mbind result_bind].
  - destruct (newSkip_good c e (k2 - e)) as [-> Hgs]; [by rewrite <- Hc|lia|lia|lia|]. cbn [mbind result_bind].
    eexists. split; [done|]. split_and!; [split| |].
    + rewrite <- app_assoc. apply chain_app. split; [done|]. cbn [app]. apply chain_cons. split_and!; [done|done|].
      change (struct_end _) with (e + (k2 - e)). by replace (e + (k2 - e)) with k2 by lia.
    + rewrite !Forall_app. split_and!; [done|by constructor|done].
    + rewrite !Forall_app. split_and!; [apply from_self; set_solver|constructor; [by left|done]|apply from_self; set_solver].
    + intros x. rewrite !holds_app, holds_one. split; [intros [[?|[? _]]|?]; [by left|done|by right]|tauto].
  - assert (k2 = e) as -> by lia. eexists. split; [done|]. split_and!; [split| |].
    + by apply chain_app.
    + by apply Forall_app.
    + apply Forall_app. split; apply from_self; set_solver.
    + intros x. by rewrite holds_app.
Qed.

(** Neither list is empty nor holds Skips only. *)
Definition nonvoid (l : list UStruct) : Prop := ∃ x, holds l x.

Lemma nonvoid_ne l : nonvoid l → l ≠ [].
Proof. intros [x Hx] ->. by apply holds_nil in Hx. Qed.

Lemma merge_lists_spec c k1 k2 l r : mergeable c k1 l → mergeable c k2 r → l ≠ [] → r ≠ [] →
  ∃ m, merge_lists c l r = Ok m ∧ mergeable c (Z.min k1 k2) m ∧ Forall (from (l ++ r)) m ∧
    ∀ x, holds m x ↔ holds l x ∨ holds r x.
Proof.
  intros Hl Hr Hnl Hnr.
  assert (∀ k1 k2 l r, mergeable c k1 l → mergeable c k2 r → l ≠ [] → r ≠ [] → k1 <= k2 →
    ∃ m, match l, r with
      | l0 :: _, firstRight :: _ =>
          if 0 <=? struct_clock firstRight - struct_EndClock (List.last l l0)
          then mergeDisjointStructLists c l r (w32 (struct_clock firstRight - struct_EndClock (List.last l l0)))
          else mergeOverlappingStructLists c l r
      | _, _ => Err (Opaque "panic: index out of range") end = Ok m ∧
      mergeable c k1 m ∧ Forall (from (l ++ r)) m ∧ ∀ x, holds m x ↔ holds l x ∨ holds r x) as Hcore.
  { clear. intros k1 k2 l r Hl Hr Hnl Hnr Hk. destruct l as [|l0 l]; [done|]. destruct r as [|r0 r]; [done|].
    pose proof Hl as [Hcl Hgl]. pose proof Hr as [(_ & Hk2 & _)%chain_cons [Hg2 _]%Forall_cons].
    pose proof (good_bounds r0 Hg2) as (_ & ? & ? & ? & _). unfold struct_end in *.
    destruct (chain_last c k1 (l0 :: l) l0 Hcl Hgl Hnl) as (_ & -> & Hmax). rewrite Hk2.
    pose proof (chain_end_le c k1 _ Hcl Hgl). pose proof (proj1 (chain_cons c k1 l0 l) Hcl) as (_ & Hk1 & _).
    apply Forall_cons in Hgl as [Hg0 _]. pose proof (good_bounds l0 Hg0) as (_ & ? & _).
    case_if; [rewrite w32_small by u32; apply mergeDisjoint_spec; try done; lia|by eapply mergeOverlapping_spec]. }
  unfold merge_lists. destruct l as [|c0 l]; [done|]. destruct r as [|n0 r]; [done|].
  pose proof Hl as [(_ & Hk1 & _)%chain_cons _]. pose proof Hr as [(_ & Hk2 & _)%chain_cons _]. rewrite Hk1, Hk2.
  case_if.
  - destruct (Hcore k1 k2 (c0 :: l) (n0 :: r)) as (m & ? & ?); [done..|lia|]. exists m. by rewrite Z.min_l by lia.
  - destruct (Hcore k2 k1 (n0 :: r) (c0 :: l)) as (m & Hm & ? & Hf & Hh); [done..|]. exists m.
    rewrite Z.min_r by lia. split_and!; [done..| |].
    + eapply Forall_impl; [exact Hf|]. intros t. apply from_swap.
    + intros x. rewrite Hh. tauto.
Qed.
