(* ===== verification/MergeSpec.v ===== *)
(** * Merging whole updates

    The block sets of the updates are merged client by client ([insertInto_ok]),
    the delete sets are united, and the result is encoded
    ([MergeUpdatesV1_spec]). *)
From S2P Require Import Prelude GoError Binary Ranges IdSet IdSetFacts Varint GoText YTypes DeleteSet Decoder DecoderFacts Content Update UpdateFacts UpdateStream UpdateEncode Aggregate Merge MergeFacts.

(** ** Contents of a list of structs of several clients *)

Definition has_content (l : list UStruct) (c x : Z) : Prop := holds (client_structs c l) x.

#[export] Instance holds_proper : Proper ((≡ₚ) ==> eq ==> iff) holds.
Proof. intros l1 l2 Hl x y ->. unfold holds. by rewrite Hl. Qed.

Lemma sort_chain c k l : chain c k l → Forall good l → sort_by_clock l = l.
Proof.
  intros Hch Hg. apply sort_sorted. revert k Hch. induction l as [|s l IH]; intros k Hch; [constructor|].
  apply Forall_cons in Hg as [Hs Hg]. apply chain_cons in Hch as (_ & _ & Hch). constructor; [by eapply IH|].
  destruct l as [|t l]; constructor. apply chain_cons in Hch as (_ & -> & _).
  pose proof (good_bounds s Hs) as (_ & _ & ? & _). unfold struct_end. lia.
Qed.

Lemma chain_clients c k l : chain c k l → Forall (λ s, struct_client s = c) l.
Proof.
  revert k. induction l as [|s l IH]; intros k; [constructor|]. intros (? & _ & ?)%chain_cons. constructor; [done|by eapply IH].
Qed.

Lemma client_structs_app c l1 l2 : client_structs c (l1 ++ l2) = client_structs c l1 ++ client_structs c l2.
Proof. apply filter_app. Qed.

Lemma client_structs_all c l : Forall (λ s, struct_client s = c) l → client_structs c l = l.
Proof.
  unfold client_structs. induction 1 as [|s l Hs _ IH]; [done|]. rewrite filter_cons_True by done. by rewrite IH.
Qed.

Lemma client_structs_none c c' l : c ≠ c' → Forall (λ s, struct_client s = c') l → client_structs c l = [].
Proof.
  intros Hne. unfold client_structs. induction 1 as [|s l Hs _ IH]; [done|]. rewrite filter_cons_False by congruence. done.
Qed.

(** ** Block sets *)

Definition set_content (m : gmap Z (list UStruct)) (c x : Z) : Prop := holds (default [] (m !! c)) x.

Definition group_ok (c : Z) (g : list UStruct) : Prop := (∃ k, mergeable c k g) ∧ nonvoid g.

Definition set_ok (m : gmap Z (list UStruct)) : Prop := map_Forall group_ok m.

Definition set_from (srcs : list UStruct) (m : gmap Z (list UStruct)) : Prop := map_Forall (λ _, Forall (from srcs)) m.

(** The group of a client read back from the flat list. *)
Lemma client_structs_group m c : set_ok m → client_structs c (group_structs m) = default [] (m !! c).
Proof.
  intros Hm. unfold group_structs, group_list. rewrite <- list_fmap_compose. unfold compose; cbn.
  assert (∀ cs, NoDup cs → client_structs c (concat ((λ c : Z, default [] (m !! c)) <$> cs)) =
    if decide (c ∈ cs) then default [] (m !! c) else []) as Hall.
  { induction cs as [|c' cs IH]; intros Hnd; [done|]. apply NoDup_cons in Hnd as [Hni Hnd]. cbn [fmap list_fmap concat].
    rewrite client_structs_app, IH by done.
    assert (Forall (λ s, struct_client s = c') (default [] (m !! c'))) as Hc'.
    { destruct (m !! c') as [g|] eqn:Hg; [|constructor]. destruct (Hm _ _ Hg) as [(k & Hch & _) _]. by eapply chain_clients. }
    destruct (decide (c = c')) as [->|Hne].
    - rewrite client_structs_all by done. rewrite decide_False by done. rewrite decide_True by set_solver. by rewrite app_nil_r.
    - rewrite (client_structs_none c c') by done. destruct (decide (c ∈ cs)); [rewrite decide_True by set_solver|rewrite decide_False by set_solver]; done. }
  rewrite Hall by apply desc_keys_NoDup. case_decide as Hc; [done|].
  destruct (m !! c) eqn:E; [|done]. destruct Hc. apply elem_of_desc_keys. by eexists.
Qed.

Lemma set_ok_writable m : set_ok m → is_u32 (Z.of_nat (size m)) → writable m.
Proof.
  intros Hm Hs. split; [|done]. intros c g Hg. destruct (Hm c g Hg) as [(k & Hch & Hgd) Hnv].
  split_and!; [by apply nonvoid_ne| |by exists k]. eapply Forall_impl; [exact Hgd|]. by intros s [? _].
Qed.

Lemma from_trans srcs l t : from l t → Forall (from srcs) l → isSkip t = true ∨ from srcs t.
Proof.
  intros [?|(s & Hs & Htail)] Hf; [by left|right]. rewrite Forall_forall in Hf. destruct (Hf s Hs) as [Hskip|(s0 & Hs0 & Ht0)].
  - left. clear -Hskip Htail. induction Htail as [|s t u (d & _ & Hd) _ IH]; [done|]. apply IH.
    unfold sliceStructV1, sliceStructWindowV1 in Hd. destruct (_ <=? _); [done|].
    destruct (_ && _); [congruence|]. destruct (_ =? 0); [done|]. destruct (ID_Offset _ _); [|done]. cbn in Hd. destruct s; try done. unfold NewSkip in Hd.
    by destruct (newBaseStruct _ _); simplify_eq.
  - right. exists s0. split; [done|]. by etrans.
Qed.

Lemma from_mono srcs l m : Forall (from l) m → Forall (from srcs) l → Forall (from srcs) m.
Proof.
  intros Hm Hl. eapply Forall_impl; [exact Hm|]. intros t Ht. destruct (from_trans srcs l t Ht Hl); [by left|done].
Qed.

(** One entry of the other set. *)
Lemma insertInto_client_ok srcs m c g : set_ok m → group_ok c g → set_from srcs m → Forall (from srcs) g →
  ∃ m', insertInto_client m (c, g) = Ok m' ∧ set_ok m' ∧ set_from srcs m' ∧ (size m' ≤ S (size m))%nat ∧
    ∀ c' x, set_content m' c' x ↔ set_content m c' x ∨ (c' = c ∧ holds g x).
Proof.
  intros Hm Hg Hf Hfg. unfold insertInto_client. destruct (m !! c) as [l|] eqn:E.
  - destruct (Hm c l E) as [(k1 & Hl) Hnl]. destruct Hg as [(k2 & Hg) Hng].
    destruct (merge_lists_spec c k1 k2 l g Hl Hg) as (l' & -> & Hl' & Hfl & Hh); [by apply nonvoid_ne..|].
    cbn [mbind result_bind]. eexists. split; [done|]. split_and!.
    + apply map_Forall_insert_2; [|done]. split; [by eexists|]. destruct Hnl as [x Hx]. exists x. apply Hh. by left.
    + apply map_Forall_insert_2; [|done]. eapply from_mono; [done|]. apply Forall_app. split; [by apply Hf in E|done].
    + rewrite map_size_insert, E. cbn. lia.
    + intros c' x. unfold set_content. destruct (decide (c = c')) as [->|].
      * rewrite lookup_insert_eq, E. cbn. rewrite Hh. tauto.
      * rewrite lookup_insert_ne by done. intuition congruence.
  - eexists. split; [done|]. split_and!.
    + by apply map_Forall_insert_2.
    + by apply map_Forall_insert_2.
    + rewrite map_size_insert, E. cbn. lia.
    + intros c' x. unfold set_content. destruct (decide (c = c')) as [->|].
      * rewrite lookup_insert_eq, E. cbn. pose proof (holds_nil x). tauto.
      * rewrite lookup_insert_ne by done. intuition congruence.
Qed.

Lemma insertInto_ok srcs m o : set_ok m → set_ok o → set_from srcs m → set_from srcs o →
  ∃ m', insertInto m o = Ok m' ∧ set_ok m' ∧ set_from srcs m' ∧ (size m' ≤ size m + size o)%nat ∧
    ∀ c x, set_content m' c x ↔ set_content m c x ∨ set_content o c x.
Proof.
  intros Hm Ho Hf Hfo. unfold insertInto.
  assert (∀ es, Forall (λ e, group_ok e.1 e.2 ∧ Forall (from srcs) e.2) es → ∀ m, set_ok m → set_from srcs m →
    ∃ m', fold_result insertInto_client es m = Ok m' ∧ set_ok m' ∧ set_from srcs m' ∧ (size m' ≤ size m + length es)%nat ∧
      ∀ c x, set_content m' c x ↔ set_content m c x ∨ ∃ g, (c, g) ∈ es ∧ holds g x) as Hall.
  { clear. induction es as [|[c g] es IH]; intros Hes m Hm Hf; cbn [fold_result length].
    - exists m. split_and!; [done..|lia|]. intros c x. split; [by left|]. intros [?|(g & Hg & _)]; [done|set_solver].
    - apply Forall_cons in Hes as [[Hg Hfg] Hes]. cbn in Hg, Hfg.
      destruct (insertInto_client_ok srcs m c g Hm Hg Hf Hfg) as (m1 & -> & Hm1 & Hf1 & Hs1 & Hc1).
      destruct (IH Hes m1 Hm1 Hf1) as (m' & -> & Hm' & Hf' & Hs' & Hc'). exists m'. split_and!; [done..|lia|].
      intros c' x. rewrite Hc', Hc1. split.
      + intros [[?|[-> ?]]|(g' & ? & ?)]; [by left|right; exists g; set_solver|right; exists g'; set_solver].
      + intros [?|(g' & [[= -> ->]|Hin]%elem_of_cons & ?)]; [by left; left|by left; right|right; by exists g']. }
  destruct (Hall (map_to_list o)) with (m := m) as (m' & ? & ? & ? & Hs & Hc); [|done..|].
  { apply Forall_forall. intros [c g] Hin%elem_of_map_to_list. split; [by apply Ho|by apply Hfo in Hin]. }
  exists m'. rewrite length_map_to_list in Hs. split_and!; [done..|]. intros c x. rewrite Hc. unfold set_content at 3.
  destruct (o !! c) as [g|] eqn:E; cbn; [|pose proof (holds_nil x)]; split; (intros [?|H']; [by left|right]).
  - destruct H' as (g' & Hg'%elem_of_map_to_list & ?). congruence.
  - exists g. by rewrite elem_of_map_to_list.
  - destruct H' as (g' & Hg'%elem_of_map_to_list & ?). congruence.
  - done.
Qed.

(** ** Delete sets *)

Lemma wf_set_dom s c : wf_set s → is_Some (clients s !! c) ↔ ∃ x, mem s c x.
Proof.
  intros Hw. split.
  - intros [l Hl]. destruct (Hw c l Hl) as [Hr Hne]. destruct l as [|r l]; [done|]. exists (r_Clock r).
    apply (mem_lookup s c _ _ Hl), covers_cons. left. destruct Hr as (_ & Hr & _). unfold in_range, Range_End, wf_range in *. lia.
  - intros [x Hx]. unfold mem, ranges_of in Hx. destruct (clients s !! c); [by eexists|]. by apply covers_nil in Hx.
Qed.

(** What merging needs of a delete set. *)
Definition deletes_fine (s : IdSet) : Prop :=
  wf_set s ∧ avoids MaxUint32 s ∧ map_Forall (λ c _, is_u32 c) (clients s).

Lemma deletes_fine_new : deletes_fine IdSet_New.
Proof. split_and!; [apply wf_set_New|apply avoids_New|apply map_Forall_empty]. Qed.

Lemma deletes_merge s o : deletes_fine s → deletes_fine o →
  ∃ s', DeleteSet_Merge (mkDeleteSet (Some s)) (Some (mkDeleteSet (Some o))) = (mkDeleteSet (Some s'), None) ∧
    deletes_fine s' ∧ (size (clients s') ≤ size (clients s) + size (clients o))%nat ∧
    ∀ c x, mem s' c x ↔ mem s c x ∨ mem o c x.
Proof.
  intros (Hws & Has & Hcs) (Hwo & Hao & Hco).
  destruct (DeleteSet_Merge_spec MaxUint32 s o) as (s' & Hm & Hw' & Ha' & Hmem); [u32|done..|].
  assert (∀ c, is_Some (clients s' !! c) ↔ is_Some (clients s !! c) ∨ is_Some (clients o !! c)) as Hdom.
  { intros c. rewrite !wf_set_dom by done. setoid_rewrite Hmem. split; [intros (x & [?|?]); [left|right]; by exists x|].
    intros [[x ?]|[x ?]]; exists x; tauto. }
  exists s'. split_and!; [done| | |done].
  - split_and!; [done..|]. intros c l Hl. destruct (proj1 (Hdom c)) as [[l' Hl']|[l' Hl']]; [by eexists|by eapply Hcs|by eapply Hco].
  - rewrite <- !size_dom. etrans; [apply (subseteq_size _ (dom (clients s) ∪ dom (clients o)))|rewrite size_union_alt].
    + intros c. rewrite elem_of_union, !elem_of_dom. apply Hdom.
    + pose proof (subseteq_size (dom (clients o) ∖ dom (clients s)) (dom (clients o)) ltac:(set_solver)). lia.
Qed.

(** ** Updates *)

Definition deleted (d : DecodedUpdate) (c x : Z) : Prop :=
  ∃ s, du_DeleteSet d = Some (mkDeleteSet (Some s)) ∧ mem s c x.

Definition content (d : DecodedUpdate) (c x : Z) : Prop := has_content (Structs d) c x.

#[export] Instance content_dec d c x : Decision (content d c x).
Proof. unfold content, has_content. apply _. Defined.

(** What merging needs of a decoded update: structs that can be cut, contiguous
    per client, no client with Skips only, and a normalised delete set. *)
Record mergeable_update (d : DecodedUpdate) : Prop := {
  mu_good : Forall good (Structs d);
  mu_contiguous : contiguous (Structs d);
  mu_nonvoid : Forall (λ s, nonvoid (client_structs (struct_client s) (Structs d))) (Structs d);
  mu_deletes : ∃ s, du_DeleteSet d = Some (mkDeleteSet (Some s)) ∧ deletes_fine s;
}.

(** How many structs and deleted clients an update has. *)
Definition weight (d : DecodedUpdate) : nat :=
  length (Structs d) + match ds_set (du_DeleteSet d) with Some s => size (clients s) | None => 0 end.

Lemma mergeable_set d : mergeable_update d → set_ok (groupStructsByClient (Structs d)).
Proof.
  intros [Hg Hch Hnv _] c g Hgr. destruct (groupStructs_Some _ _ _ Hgr) as [-> Hne]. split.
  - destruct (Hch c) as [k Hk]. exists k. split; [done|]. rewrite sort_perm. apply Forall_forall.
    intros s [_ Hs]%list_elem_of_filter. rewrite Forall_forall in Hg. auto.
  - destruct (client_structs c (Structs d)) as [|s l] eqn:E; [done|]. rewrite <- E in *.
    assert (s ∈ client_structs c (Structs d)) as [<- Hs]%list_elem_of_filter by (rewrite E; set_solver).
    rewrite Forall_forall in Hnv. destruct (Hnv s Hs) as [x Hx]. exists x. by rewrite sort_perm.
Qed.

Lemma set_content_group l c x : set_content (groupStructsByClient l) c x ↔ has_content l c x.
Proof. unfold set_content, has_content. by rewrite groupStructs_default, sort_perm. Qed.

Lemma set_from_group srcs l : l ⊆ srcs → set_from srcs (groupStructsByClient l).
Proof.
  intros Hl c g Hg. destruct (groupStructs_Some _ _ _ Hg) as [-> _]. apply from_self. intros s Hs.
  rewrite sort_perm in Hs. apply Hl. by apply list_elem_of_filter in Hs as [_ ?].
Qed.

(** The merge of the decoded updates. *)
Definition merge_of (srcs : list UStruct) (m : decodedMergeUpdateV1) (ds : list DecodedUpdate) : Prop :=
  set_ok (blockSet m) ∧ set_from srcs (blockSet m) ∧
  (∀ c x, set_content (blockSet m) c x ↔ Exists (λ d, content d c x) ds) ∧
  ∃ s, mu_deleteSet m = Some (mkDeleteSet (Some s)) ∧ deletes_fine s ∧
    (∀ c x, mem s c x ↔ Exists (λ d, deleted d c x) ds) ∧
    (size (blockSet m) + size (clients s) ≤ sum_list_with weight ds)%nat.

Definition entry_of (d : DecodedUpdate) : decodedMergeUpdateV1 :=
  mkMergeUpdate (groupStructsByClient (Structs d)) (du_DeleteSet d).

Lemma merge_entry_ok srcs m ds d : merge_of srcs m ds → mergeable_update d → Structs d ⊆ srcs →
  ∃ m', merge_entry m (entry_of d) = Ok m' ∧ merge_of srcs m' (ds ++ [d]).
Proof.
  intros (Hm & Hf & Hc & s & Hs & Hfine & Hmem & Hsize) Hd Hsrc. unfold merge_entry, entry_of. cbn [blockSet mu_deleteSet].
  destruct (insertInto_ok srcs (blockSet m) (groupStructsByClient (Structs d)) Hm (mergeable_set d Hd) Hf) as
    (b & -> & Hb & Hbf & Hbs & Hbc); [by apply set_from_group|]. cbn [mbind result_bind].
  pose proof (mu_deletes d Hd) as (o & Ho & Hofine). rewrite Ho, Hs. cbn [from_option id].
  destruct (deletes_merge s o Hfine Hofine) as (s' & -> & Hfine' & Hsz & Hmem').
  eexists. split; [done|]. split_and!; cbn [blockSet mu_deleteSet]; [done|done| |exists s'; split_and!; [done..| |]].
  - intros c x. rewrite Hbc, Hc, set_content_group, Exists_app, Exists_cons, Exists_nil. unfold content. tauto.
  - intros c x. rewrite Hmem', Hmem, Exists_app, Exists_cons, Exists_nil. unfold deleted. rewrite Ho.
    split; [intros [?|?]; [by left|right; left; by exists o]|]. intros [?|[(o' & [= <-] & ?)|?]]; [by left|by right|done].
  - rewrite sum_list_with_app. cbn [sum_list_with]. unfold weight at 2. rewrite Ho. cbn. pose proof (groups_size (Structs d)). lia.
Qed.

Lemma mergeDecoded_ok srcs ds : Forall mergeable_update ds → Forall (λ d, Structs d ⊆ srcs) ds →
  ∃ m, mergeDecodedUpdatesV1 (entry_of <$> ds) = Ok m ∧ merge_of srcs m ds.
Proof.
  intros Hds Hsrc. unfold mergeDecodedUpdatesV1.
  assert (∀ ds0 m, merge_of srcs m ds0 → ∃ m', fold_result merge_entry (entry_of <$> ds) m = Ok m' ∧ merge_of srcs m' (ds0 ++ ds)) as Hall.
  { induction ds as [|d ds IH]; intros ds0 m Hm; cbn [fmap list_fmap fold_result]; [exists m; by rewrite app_nil_r|].
    apply Forall_cons in Hds as [Hd Hds], Hsrc as [Hs Hsrc].
    destruct (merge_entry_ok srcs m ds0 d Hm Hd Hs) as (m1 & -> & Hm1).
    destruct (IH Hds Hsrc _ _ Hm1) as (m' & -> & Hm'). exists m'. by rewrite <- app_assoc in Hm'. }
  apply (Hall []). split_and!; [apply map_Forall_empty|apply map_Forall_empty| |exists IdSet_New; split_and!; [done|apply deletes_fine_new| |]].
  - intros c x. rewrite Exists_nil. cbn. unfold set_content. rewrite lookup_empty. split; [by intros ?%holds_nil|done].
  - intros c x. rewrite Exists_nil. split; [apply mem_New|done].
  - cbn [blockSet]. change (clients IdSet_New) with (∅ : gmap Z (list Range)). rewrite !map_size_empty. lia.
Qed.

(** ** The merged update *)

Lemma wire_fits s : struct_fits s → struct_fits (wire s).
Proof. by destruct s. Qed.

Lemma wire_good s : good s → good (wire s).
Proof. intros [? ?]. split; [by apply struct_ok_wire|by apply wire_fits]. Qed.

Lemma wire_client s : struct_client (wire s) = struct_client s.
Proof. unfold struct_client, struct_ID. by rewrite wire_base. Qed.
Lemma wire_clock s : struct_clock (wire s) = struct_clock s.
Proof. unfold struct_clock, struct_ID. by rewrite wire_base. Qed.
Lemma wire_end s : struct_end (wire s) = struct_end s.
Proof. unfold struct_end, struct_Length. by rewrite wire_base, wire_clock. Qed.

Lemma client_structs_wire c l : client_structs c (wire <$> l) = wire <$> client_structs c l.
Proof.
  unfold client_structs. induction l as [|s l IH]; [done|]. rewrite fmap_cons, !filter_cons, wire_client, IH. by case_decide.
Qed.

Lemma holds_wire l x : holds (wire <$> l) x ↔ holds l x.
Proof.
  induction l as [|s l IH]; [done|]. rewrite fmap_cons, !holds_cons, wire_skip, wire_clock, wire_end, IH. done.
Qed.

(** A group map sent over the wire. *)
Lemma has_content_wire m c x : set_ok m → has_content (wire <$> group_structs m) c x ↔ set_content m c x.
Proof. intros Hm. unfold has_content, set_content. by rewrite client_structs_wire, holds_wire, client_structs_group. Qed.

Lemma wire_set_mergeable m s : set_ok m → deletes_fine s →
  mergeable_update (mkDecoded (wire <$> group_structs m) (Some (mkDeleteSet (Some s)))).
Proof.
  intros Hm Hs. split; cbn [Structs du_DeleteSet]; [| | |by exists s].
  - apply Forall_fmap. unfold group_structs, group_list. rewrite <- list_fmap_compose.
    apply Forall_concat, Forall_fmap, Forall_forall. intros c [g Hg]%elem_of_desc_keys. unfold compose; cbn. rewrite Hg.
    destruct (Hm c g Hg) as [(k & _ & Hgood) _]. eapply Forall_impl; [exact Hgood|]. intros t. apply wire_good.
  - intros c. rewrite client_structs_wire, client_structs_group by done. destruct (m !! c) as [g|] eqn:Hg; [|by exists 0].
    destruct (Hm c g Hg) as [(k & Hch & Hgood) _]. exists k. cbn. rewrite (sort_chain c k); [by apply chain_wire|by apply chain_wire|].
    apply Forall_fmap. eapply Forall_impl; [exact Hgood|]. intros t. apply wire_good.
  - apply Forall_fmap, Forall_forall. intros t Ht. unfold compose. rewrite client_structs_wire, wire_client.
    apply elem_of_client_structs in Ht. rewrite client_structs_group in * by done.
    destruct (m !! struct_client t) as [g|] eqn:Hg; [|set_solver]. destruct (Hm _ _ Hg) as [_ [x Hx]].
    exists x. by apply holds_wire.
Qed.

(** The whole of [MergeUpdatesV1]. *)
Lemma MergeUpdatesV1_spec procs delivered us ds : Forall2 (λ u d, DecodeV1 u = Ok d) us ds →
  Forall mergeable_update ds → is_u32 (Z.of_nat (sum_list_with weight ds)) → valid_run decodeMergeUpdateV1 delivered None us →
  ∃ u d, MergeUpdatesV1 procs delivered us = Ok u ∧ DecodeV1 u = Ok d ∧ mergeable_update d ∧
    (∀ c x, content d c x ↔ Exists (λ d, content d c x) ds) ∧
    (∀ c x, deleted d c x ↔ Exists (λ d, deleted d c x) ds) ∧
    Forall (λ t, isSkip t = true ∨ ∃ d s t0, d ∈ ds ∧ s ∈ Structs d ∧ tail_of s t0 ∧ t = wire t0) (Structs d).
Proof.
  intros Hdec Hds Hw Hrun. unfold MergeUpdatesV1, MergeUpdatesV1Context.
  rewrite (aggregate_Ok _ _ procs 0 delivered us (entry_of <$> ds)); [|done|].
  2: { apply Forall2_fmap_r. eapply Forall2_impl; [exact Hdec|]. intros u d Hd. unfold decodeMergeUpdateV1. by rewrite Hd. }
  destruct (mergeDecoded_ok (mjoin (Structs <$> ds)) ds Hds) as (m & -> & Hm & Hf & Hc & s & Hs & Hfine & Hmem & Hsize).
  { apply Forall_forall. intros d Hd t Ht. apply list_elem_of_join. exists (Structs d). split; [done|].
    apply list_elem_of_fmap. by exists d. }
  cbn [mbind result_bind]. rewrite Hs.
  destruct (encode_groups_update (blockSet m) s) as (out & -> & Hout).
  { apply set_ok_writable; [done|]. u32. } { apply Hfine. } { split; [apply Hfine|u32]. }
  eexists _, _. split_and!; [done|exact Hout|by apply wire_set_mergeable| | |].
  - intros c x. unfold content at 1. cbn [Structs]. by rewrite has_content_wire, Hc.
  - intros c x. rewrite <- Hmem. unfold deleted; cbn [du_DeleteSet]. split; [by intros (s' & [= <-] & ?)|]. intros ?. by exists s.
  - cbn [Structs]. apply Forall_fmap. unfold group_structs, group_list. rewrite <- list_fmap_compose.
    apply Forall_concat, Forall_fmap, Forall_forall. intros c [g Hg]%elem_of_desc_keys. unfold compose; cbn. rewrite Hg.
    eapply Forall_impl; [exact (Hf c g Hg)|]. intros t [Ht|(t0 & Hin & Ht0)]; [left; by rewrite wire_skip|right].
    apply list_elem_of_join in Hin as (l & Ht & Hl). apply list_elem_of_fmap in Hl as (d & -> & Hd). by exists d, t0, t.
Qed.

(** * Properties of MergeUpdatesV1

    Stated with what a decoded update holds: [content d c x] (a GC or an item at
    clock [x] of client [c]) and [deleted d c x]. *)

(** C1: The merge of updates that decode to contiguous structs succeeds, whatever
    the number of processors and the order in which the workers finish; the
    result decodes again, holds exactly the contents and the deletions of all
    the updates, each of its structs is a Skip or one of theirs, possibly
    without some first clocks, and it can be merged further. *)
Theorem MergeUpdatesV1_union (procs : Z) (delivered : gset nat) (us : list bytes) (ds : list DecodedUpdate)
    (Hdec : Forall2 (λ u d, DecodeV1 u = Ok d) us ds) (Hds : Forall mergeable_update ds)
    (Hsize : is_u32 (Z.of_nat (sum_list_with weight ds)))
    (Hrun : valid_run decodeMergeUpdateV1 delivered None us) :
  ∃ u d, MergeUpdatesV1 procs delivered us = Ok u ∧ DecodeV1 u = Ok d ∧ mergeable_update d ∧
    (∀ c x, content d c x ↔ Exists (λ d, content d c x) ds) ∧
    (∀ c x, deleted d c x ↔ Exists (λ d, deleted d c x) ds) ∧
    Forall (λ t, isSkip t = true ∨ ∃ d s t0, d ∈ ds ∧ s ∈ Structs d ∧ tail_of s t0 ∧ t = wire t0) (Structs d).
Proof. by apply MergeUpdatesV1_spec. Qed.

(** GC structs 0..3 and 2..5 of client 1: the second is cut. *)
Definition gc_update (clock len : Z) : bytes := [1; 1; 1; clock; 0; len; 0].
Definition gc_decoded (clock len : Z) : DecodedUpdate :=
  mkDecoded [GC (mkBase (mkID 1 clock) len)] (Some NewDeleteSet).

Lemma gc_mergeable clock len : wf_base (mkBase (mkID 1 clock) len) → mergeable_update (gc_decoded clock len).
Proof.
  intros Hb. split.
  - constructor; [|constructor]. done.
  - apply contiguous_intro. cbn. constructor; [|constructor]. by exists clock.
  - constructor; [|constructor]. exists clock. apply holds_one. destruct Hb as (_ & Hl & _). cbn in Hl.
    split; [done|]. unfold struct_end, struct_clock, struct_Length; cbn. lia.
  - exists IdSet_New. split; [done|apply deletes_fine_new].
Qed.

Lemma MergeUpdatesV1_union_witness :
  ∃ u d, MergeUpdatesV1 8 ∅ [gc_update 0 3; gc_update 2 3] = Ok u ∧ DecodeV1 u = Ok d ∧
    Structs d = [GC (mkBase (mkID 1 0) 3); GC (mkBase (mkID 1 3) 2)] ∧
    (∀ c x, content d c x ↔ Exists (λ d, content d c x) [gc_decoded 0 3; gc_decoded 2 3]).
Proof.
  destruct (MergeUpdatesV1_union 8 {[0%nat; 1%nat]} [gc_update 0 3; gc_update 2 3] [gc_decoded 0 3; gc_decoded 2 3])
    as (u & d & H1 & H2 & H3 & H4 & _).
  - repeat constructor; vm_compute; reflexivity.
  - repeat apply Forall_cons_2; try apply Forall_nil_2; apply gc_mergeable; apply (bool_decide_unpack _); vm_compute; exact I.
  - apply (bool_decide_unpack _). vm_compute. exact I.
  - intros _. left. intros i Hi. cbn in Hi. destruct i as [|[|i]]; [set_solver|set_solver|lia].
  - exists u, d. split; [|split; [exact H2|split; [|exact H4]]].
    + exact H1.
    + vm_compute in H1. injection H1 as <-. vm_compute in H2. injection H2 as <-. reflexivity.
Defined.

(** Merging is insensitive to the order and the repetition of the updates:
    two lists with the same members give updates that hold the same contents
    and have the same delete set. *)
Theorem MergeUpdatesV1_convergent (p1 p2 : Z) (run1 run2 : gset nat) (us1 us2 : list bytes) (ds1 ds2 : list DecodedUpdate)
    (Hdec1 : Forall2 (λ u d, DecodeV1 u = Ok d) us1 ds1) (Hdec2 : Forall2 (λ u d, DecodeV1 u = Ok d) us2 ds2)
    (Hds1 : Forall mergeable_update ds1)
    (Hsize1 : is_u32 (Z.of_nat (sum_list_with weight ds1))) (Hsize2 : is_u32 (Z.of_nat (sum_list_with weight ds2)))
    (Hrun1 : valid_run decodeMergeUpdateV1 run1 None us1) (Hrun2 : valid_run decodeMergeUpdateV1 run2 None us2)
    (Hsame : ∀ d, d ∈ ds1 ↔ d ∈ ds2) :
  ∃ u1 u2 d1 d2, MergeUpdatesV1 p1 run1 us1 = Ok u1 ∧ MergeUpdatesV1 p2 run2 us2 = Ok u2 ∧
    DecodeV1 u1 = Ok d1 ∧ DecodeV1 u2 = Ok d2 ∧
    (∀ c x, content d1 c x ↔ content d2 c x) ∧ du_DeleteSet d1 = du_DeleteSet d2.
Proof.
  assert (Forall mergeable_update ds2) as Hds2.
  { apply Forall_forall. intros d Hd%Hsame. rewrite Forall_forall in Hds1. auto. }
  destruct (MergeUpdatesV1_spec p1 run1 us1 ds1) as (u1 & d1 & H1 & D1 & M1 & C1 & X1 & _); [done..|].
  destruct (MergeUpdatesV1_spec p2 run2 us2 ds2) as (u2 & d2 & H2 & D2 & M2 & C2 & X2 & _); [done..|].
  assert (∀ P : DecodedUpdate → Prop, Exists P ds1 ↔ Exists P ds2) as Hex.
  { intros P. rewrite !Exists_exists. setoid_rewrite Hsame. done. }
  exists u1, u2, d1, d2. split_and!; [done..| |].
  - intros c x. rewrite C1, C2. apply Hex.
  - destruct (mu_deletes _ M1) as (s1 & E1 & W1 & _), (mu_deletes _ M2) as (s2 & E2 & W2 & _).
    rewrite E1, E2. do 3 f_equal. apply IdSet_ext; [done..|]. intros c x.
    specialize (X1 c x). specialize (X2 c x). rewrite Hex, <- X2 in X1. unfold deleted in X1. rewrite E1, E2 in X1.
    split; intros Hm; [destruct (proj1 X1) as (s & [= <-] & ?)|destruct (proj2 X1) as (s & [= <-] & ?)]; eauto.
Qed.

Lemma MergeUpdatesV1_convergent_witness :
  ∃ u1 u2 d1 d2, MergeUpdatesV1 8 ∅ [gc_update 0 3; gc_update 2 3] = Ok u1 ∧
    MergeUpdatesV1 1 ∅ [gc_update 2 3; gc_update 0 3; gc_update 2 3] = Ok u2 ∧
    DecodeV1 u1 = Ok d1 ∧ DecodeV1 u2 = Ok d2 ∧
    (∀ c x, content d1 c x ↔ content d2 c x) ∧ du_DeleteSet d1 = du_DeleteSet d2.
Proof.
  apply (MergeUpdatesV1_convergent 8 1 {[0%nat; 1%nat]} {[0%nat; 1%nat; 2%nat]} [gc_update 0 3; gc_update 2 3]
    [gc_update 2 3; gc_update 0 3; gc_update 2 3] [gc_decoded 0 3; gc_decoded 2 3]
    [gc_decoded 2 3; gc_decoded 0 3; gc_decoded 2 3]).
  - repeat constructor; vm_compute; reflexivity.
  - repeat constructor; vm_compute; reflexivity.
  - repeat apply Forall_cons_2; try apply Forall_nil_2; apply gc_mergeable; apply (bool_decide_unpack _); vm_compute; exact I.
  - apply (bool_decide_unpack _). vm_compute. exact I.
  - apply (bool_decide_unpack _). vm_compute. exact I.
  - intros _. left. intros i Hi. cbn in Hi. destruct i as [|[|i]]; [set_solver|set_solver|lia].
  - intros _. left. intros i Hi. cbn in Hi. destruct i as [|[|[|i]]]; [set_solver|set_solver|set_solver|lia].
  - set_solver.
Defined.

(** Merging two nonempty chains of one client, whichever comes first and
    however they overlap: the result is a chain from the smaller clock, gaps
    filled with Skips, that holds the union. *)
Theorem merge_lists_correct (c k1 k2 : Z) (l r : list UStruct)
    (Hl : mergeable c k1 l) (Hr : mergeable c k2 r) (Hnl : l ≠ []) (Hnr : r ≠ []) :
  ∃ m, merge_lists c l r = Ok m ∧ chain c (Z.min k1 k2) m ∧ Forall good m ∧ Forall (from (l ++ r)) m ∧
    ∀ x, holds m x ↔ holds l x ∨ holds r x.
Proof. destruct (merge_lists_spec c k1 k2 l r Hl Hr Hnl Hnr) as (m & ? & [? ?] & ? & ?). by exists m. Qed.

Lemma merge_lists_correct_witness :
  let gc k n := GC (mkBase (mkID 1 k) n) in
  ∃ m, merge_lists 1 [gc 0 2; Skip (mkBase (mkID 1 2) 5); gc 7 1] [gc 3 2] = Ok m ∧ chain 1 0 m ∧
    m = [gc 0 2; Skip (mkBase (mkID 1 2) 1); gc 3 2; Skip (mkBase (mkID 1 5) 2); gc 7 1].
Proof.
  cbn zeta.
  destruct (merge_lists_correct 1 0 3 [GC (mkBase (mkID 1 0) 2); Skip (mkBase (mkID 1 2) 5); GC (mkBase (mkID 1 7) 1)]
    [GC (mkBase (mkID 1 3) 2)]) as (m & H1 & H2 & _).
  - split; [vm_compute; tauto|]. repeat constructor; vm_compute; congruence.
  - split; [vm_compute; tauto|]. repeat constructor; vm_compute; congruence.
  - discriminate.
  - discriminate.
  - exists m. split; [exact H1|]. split; [exact H2|]. vm_compute in H1. injection H1 as <-. reflexivity.
Defined.

(** Skips only: merging two overlapping Skip-only updates of a client leaves
    an empty list for the client, and the next update of that client makes
    [insertInto] index it: the merge panics. *)
Theorem MergeUpdatesV1_skips_panic (procs : Z) (delivered : gset nat) :
  let skips clock := [1; 1; 1; clock; 10; 5; 0] in
  is_Ok (MergeUpdatesV1 procs delivered [skips 0; skips 3]) = true ∧
  MergeUpdatesV1 procs delivered [skips 0; skips 3; gc_update 0 3] = Err (Opaque "panic: index out of range").
Proof.
  cbn zeta. split; unfold MergeUpdatesV1, MergeUpdatesV1Context;
    (rewrite aggregate_small; [vm_compute; reflexivity|discriminate|apply Nat.leb_le; reflexivity]).
Qed.

(** An accepted update may hold two blocks of the same client with a gap
    between them (clocks 0..2 and 5..7 here).  The writer takes structs of one
    client for consecutive ones: encoding what was decoded moves the second
    block to clock 2. *)
Theorem EncodeV1_moves_clocks :
  let u := [2; 1; 1; 0; 0; 2; 1; 1; 5; 0; 2; 0] in
  ∃ d u' d', DecodeV1 u = Ok d ∧ EncodeV1 (Some d) = Ok u' ∧ DecodeV1 u' = Ok d' ∧
    (content d 1 5 ∧ ¬ content d' 1 5) ∧ (¬ content d 1 2 ∧ content d' 1 2).
Proof.
  cbn zeta. eexists _, _, _. split; [vm_compute; reflexivity|]. split; [vm_compute; reflexivity|].
  split; [vm_compute; reflexivity|].
  split; apply (bool_decide_unpack _); vm_compute; exact I.
Qed.

(** The worker pool: every run that is not cancelled gives what the sequential
    loop gives when all updates decode, and otherwise the wrapped error of one
    of the failing updates. *)
Theorem aggregate_deterministic {T : Type} `{Inhabited T} (extract : bytes → result T) (reducer : list T → result T)
    (delivered : gset nat) (updates : list bytes) (Hrun : valid_run extract delivered None updates) :
  match aggregatePayloadsSequentially extract reducer None updates, extract_all extract updates with
  | res, Ok _ => aggregateWorkers extract reducer delivered None updates = res
  | _, Err _ => ∃ i update e, updates !! i = Some update ∧ extract update = Err e ∧
      aggregateWorkers extract reducer delivered None updates = Err (Wrapped "update[%d]: %w" e)
  end.
Proof.
  pose proof (aggregate_run extract reducer delivered updates Hrun) as Hr. unfold aggregatePayloadsSequentially.
  destruct (extract_all extract updates); done.
Qed.

Lemma aggregate_deterministic_witness :
  aggregateWorkers decodeMergeUpdateV1 mergeDecodedUpdatesV1 {[0%nat; 1%nat]} None [gc_update 0 3; gc_update 2 3] =
  aggregatePayloadsSequentially decodeMergeUpdateV1 mergeDecodedUpdatesV1 None [gc_update 0 3; gc_update 2 3].
Proof.
  apply (aggregate_deterministic decodeMergeUpdateV1 mergeDecodedUpdatesV1 {[0%nat; 1%nat]} [gc_update 0 3; gc_update 2 3]).
  intros _. left. intros i Hi. cbn in Hi. destruct i as [|[|i]]; [set_solver|set_solver|lia].
Defined.
