(* ===== verification/StateVector.v ===== *)
(** * internal/yupdate/state_vector.go, state_vector_api.go and diff.go

    State vectors are maps from clients to clocks.  The functions that first
    detect the format of their inputs are in Facade; here is what they run on V1
    updates ([extractStateVectorFromUpdateV1], [mergeStateVectors]) and the two
    functions of the V2 path that work on decoded structs.

    The three loops of [DiffUpdateV1Context] are functions of the reader and the
    writer.  The context is looked at once: a cancellation during the loops is
    not modelled. *)
From S2P Require Import Prelude GoError Binary Ranges IdSet Varint YTypes DeleteSet Content Update Aggregate Merge.
Import varint.

Abbreviation stateVector := (gmap Z Z).

(** The local variables of the loop of [stateVectorFromUpdateV1]. *)
Record svState := mkSv { sv_map : stateVector; currClient : Z; currClock : Z; stopCounting : bool }.

Definition sv_flush (st : svState) : stateVector :=
  if negb (currClock st =? 0) then <[currClient st := currClock st]> (sv_map st) else sv_map st.

(** The body of the loop, before the reader moves on. *)
Definition sv_step (st : svState) (current : UStruct) : svState :=
  let st := if negb (struct_client current =? currClient st)
    then mkSv (sv_flush st) (struct_client current) 0 (negb (struct_clock current =? 0))
    else st in
  let stop := stopCounting st || isSkip current in
  mkSv (sv_map st) (currClient st) (if stop then currClock st else struct_EndClock current) stop.

Fixpoint sv_loop (fuel : nat) (st : svState) : LM stateVector :=
  match fuel with
  | O => failL FuelExhausted
  | S fuel =>
      r ← getL;
      match LazyReader_Current r with
      | None => mret (sv_flush st)
      | Some current => _ ← LazyReader_Next; sv_loop fuel (sv_step st current)
      end
  end.

Definition stateVectorFromUpdateV1 (update : bytes) : result stateVector :=
  match NewLazyReaderV1 update false with
  | Err err => Err err
  | Ok reader =>
      match LazyReader_Current reader with
      | None => Ok ∅
      | Some current =>
          let stop := negb (struct_clock current =? 0) in
          let clock := if stop then 0 else struct_EndClock current in
          fst (sv_loop (fuel_of reader) (mkSv ∅ (struct_client current) clock stop) reader)
      end
  end.

(** Ascending clients, each with its clock. *)
Definition encodeStateVectorMap (sv : stateVector) : bytes :=
  if bool_decide (size sv = 0%nat) then Append [] 0
  else
    let clients := merge_sort Z.le (map_to_list sv).*1 in
    fold_left (λ out client, Append (Append out client) (default 0 (sv !! client))) clients
      (Append [] (w32 (Z.of_nat (size sv)))).

Definition EncodeStateVectorFromUpdateV1 (update : bytes) : result bytes :=
  sv ← stateVectorFromUpdateV1 update; Ok (encodeStateVectorMap sv).

(** The loop of [DecodeStateVectorV1]; bytes after the last entry are ignored. *)
Fixpoint decodeStateVector_loop (n : nat) (out : stateVector) (rest : bytes) : result stateVector :=
  match n with
  | O => Ok out
  | S n =>
      match Decode rest with
      | (Err err, _) => Err err
      | (Ok client, cn) =>
          match Decode (drop cn rest) with
          | (Err err, _) => Err err
          | (Ok clock, kn) => decodeStateVector_loop n (<[client := clock]> out) (drop (cn + kn) rest)
          end
      end
  end.

Definition DecodeStateVectorV1 (data : bytes) : result stateVector :=
  match Decode data with
  | (Err err, _) => Err err
  | (Ok count, n) => decodeStateVector_loop (Z.to_nat count) ∅ (drop n data)
  end.

Definition DecodeStateVector (data : bytes) : result stateVector := DecodeStateVectorV1 data.

(** ** Several updates *)

Definition extractStateVectorFromUpdateV1 (update : bytes) : result stateVector :=
  match update with [] => Ok ∅ | _ => stateVectorFromUpdateV1 update end.

Definition merge_entry_sv (merged : stateVector) (e : Z * Z) : stateVector :=
  let '(client, clock) := e in
  match merged !! client with
  | None => <[client := clock]> merged
  | Some current => if current <? clock then <[client := clock]> merged else merged
  end.

Definition mergeStateVectors (vectors : list stateVector) : result stateVector :=
  Ok (fold_left (λ merged vector, fold_left merge_entry_sv (map_to_list vector) merged) vectors ∅).

(** [StateVectorFromUpdatesContext] once the updates are known to be V1. *)
Definition StateVectorFromUpdates_V1 (procs : Z) (delivered : gset nat) (ctxErr : option error) (updates : list bytes)
    : result stateVector :=
  aggregatePayloadsInParallel extractStateVectorFromUpdateV1 mergeStateVectors procs 0 delivered ctxErr updates.

(** ** The V2 path *)

Definition max_clock (sv : stateVector) (client : Z) (current : UStruct) : stateVector :=
  if default 0 (sv !! client) <? struct_EndClock current then <[client := struct_EndClock current]> sv else sv.

Definition stateVectorFromStructs (structs : list UStruct) : stateVector :=
  fold_left (λ sv current, max_clock sv (struct_client current) current) structs ∅.

Definition stateVectorFromBlockSet (blockSet : gmap Z (list UStruct)) : stateVector :=
  fold_left (λ sv '(client, structs), fold_left (λ sv current, max_clock sv client current) structs sv)
    (map_to_list blockSet) ∅.

(** ** Differences *)

(** The rest of a client is copied. *)
Fixpoint diff_copy (fuel : nat) (client : Z) (r : LazyReaderV1) (w : lazyWriterV1) : result (LazyReaderV1 * lazyWriterV1) :=
  match LazyReader_Current r with
  | Some current =>
      if struct_client current =? client then
        match fuel with
        | O => Err FuelExhausted
        | S fuel =>
            w ← write_struct w current 0 0;
            r ← read_next r;
            diff_copy fuel client r w
        end
      else Ok (r, w)
  | None => Ok (r, w)
  end.

(** The structs the state vector covers are dropped. *)
Fixpoint diff_drop (fuel : nat) (client svClock : Z) (r : LazyReaderV1) : result LazyReaderV1 :=
  match LazyReader_Current r with
  | Some current =>
      if (struct_client current =? client) && (struct_EndClock current <=? svClock) then
        match fuel with
        | O => Err FuelExhausted
        | S fuel => r ← read_next r; diff_drop fuel client svClock r
        end
      else Ok r
  | None => Ok r
  end.

Fixpoint diff_loop (fuel : nat) (state : stateVector) (r : LazyReaderV1) (w : lazyWriterV1)
    : result (LazyReaderV1 * lazyWriterV1) :=
  match LazyReader_Current r with
  | None => Ok (r, w)
  | Some current =>
      match fuel with
      | O => Err FuelExhausted
      | S fuel =>
          let client := struct_client current in
          let svClock := default 0 (state !! client) in
          if isSkip current then
            r ← read_next r;
            diff_loop fuel state r w
          else if svClock <? struct_EndClock current then
            w ← (if struct_clock current <? svClock
                 then write_struct w current (svClock - struct_clock current) 0
                 else write_struct w current 0 0);
            r ← read_next r;
            '(r, w) ← diff_copy fuel client r w;
            diff_loop fuel state r w
          else
            r ← diff_drop (S fuel) client svClock r;
            diff_loop fuel state r w
      end
  end.

(** Every round of every loop moves the reader: the update's length is enough fuel. *)
Definition DiffUpdateV1Context (ctxErr : option error) (update stateVector : bytes) : result bytes :=
  match ctxErr with
  | Some err => Err err
  | None =>
      state ← DecodeStateVectorV1 stateVector;
      reader ← NewLazyReaderV1 update false;
      '(reader, writer) ← diff_loop (fuel_of reader) state reader newLazyWriterV1;
      deleteSet ← fst (LazyReader_ReadDeleteSet reader);
      out ← fst (writer_finish writer []);
      Ok (AppendDeleteSetBlockV1 out deleteSet)
  end.

Definition DiffUpdateV1 (update stateVector : bytes) : result bytes := DiffUpdateV1Context None update stateVector.
