(* ===== verification/StateVectorFacts.v ===== *)
(** * Facts about state vectors

    [frontier l c m]: [m] is the first clock of client [c] that [l] does not
    hold.  On an update with one block per client ([one_block]) the loop of
    [stateVectorFromUpdateV1] computes it ([stateVector_frontier]). *)
From S2P Require Import Prelude GoError Binary Ranges IdSet IdSetFacts Varint GoText YTypes DeleteSet Decoder DecoderFacts Content Update UpdateFacts UpdateStream UpdateEncode Aggregate Merge MergeFacts MergeSpec StateVector.
Import varint.

(** ** Updates with one block per client *)

Definition groups_ok (gs : list (Z * list UStruct)) : Prop :=
  NoDup gs.*1 ∧ Forall (λ g, g.2 ≠ [] ∧ (∃ k, mergeable g.1 k g.2)) gs.

Definition one_block (l : list UStruct) : Prop := ∃ gs, l = concat gs.*2 ∧ groups_ok gs.

Lemma groups_ok_cons c g gs : groups_ok ((c, g) :: gs) → c ∉ gs.*1 ∧ g ≠ [] ∧ (∃ k, mergeable c k g) ∧ groups_ok gs.
Proof. intros [[? ?]%NoDup_cons [[? ?] ?]%Forall_cons]. done. Qed.

Lemma client_structs_groups gs c : groups_ok gs →
  client_structs c (concat gs.*2) = match list_find (λ g, g.1 = c) gs with Some (_, g) => g.2 | None => [] end.
Proof.
  induction gs as [|[c' g] gs IH]; intros Hgs; [done|]. apply groups_ok_cons in Hgs as (Hni & _ & (k & Hch & _) & Hgs).
  cbn [fmap list_fmap concat fst snd list_find]. rewrite client_structs_app, IH by done.
  apply chain_clients in Hch. case_decide as Hc; cbn in Hc.
  - subst c'. rewrite client_structs_all by done. destruct (list_find _ gs) as [[i [c' g']]|] eqn:E; [|cbn; by rewrite app_nil_r].
    apply list_find_Some in E as (Hi & Hc' & _). cbn in Hc'. subst c'. destruct Hni.
    apply list_elem_of_fmap. exists (c, g'). split; [done|by eapply list_elem_of_lookup_2].
  - rewrite (client_structs_none c c') by done. cbn. destruct (list_find _ gs) as [[i [c1 g']]|]; done.
Qed.

Lemma client_structs_in gs c g : groups_ok gs → (c, g) ∈ gs → client_structs c (concat gs.*2) = g.
Proof.
  intros Hgs Hin. rewrite client_structs_groups by done. apply list_elem_of_lookup in Hin as [i Hi].
  destruct (list_find (λ g, g.1 = c) gs) as [[j [c' g']]|] eqn:E; cbn.
  - apply list_find_Some in E as (Hj & Hc & _). cbn in Hc. subst c'. destruct Hgs as [Hnd _].
    assert (i = j) as ->; [|congruence]. eapply NoDup_lookup; [exact Hnd|..]; rewrite list_lookup_fmap; [by rewrite Hi|by rewrite Hj].
  - apply list_find_None in E. rewrite Forall_forall in E. destruct (E (c, g)); [by eapply list_elem_of_lookup_2|done].
Qed.

Lemma client_structs_out gs c : groups_ok gs → c ∉ gs.*1 → client_structs c (concat gs.*2) = [].
Proof.
  intros Hgs Hc. rewrite client_structs_groups by done. destruct (list_find _ gs) as [[j [c' g']]|] eqn:E; [|done].
  apply list_find_Some in E as (Hj & Hc' & _). cbn in Hc'. subst c'. destruct Hc. apply list_elem_of_fmap. exists (c, g').
  split; [done|by eapply list_elem_of_lookup_2].
Qed.

(** ** The frontier of a client *)

Definition frontier_of (g : list UStruct) (m : Z) : Prop := 0 <= m ∧ (∀ x, 0 <= x < m → holds g x) ∧ ¬ holds g m.

Definition frontier (l : list UStruct) (c m : Z) : Prop := frontier_of (client_structs c l) m.

Lemma frontier_of_unique g m1 m2 : frontier_of g m1 → frontier_of g m2 → m1 = m2.
Proof.
  intros (? & H1 & N1) (? & H2 & N2). destruct (Z.lt_trichotomy m1 m2) as [|[|]]; [|done|].
  - destruct N1. apply H2. lia.
  - destruct N2. apply H1. lia.
Qed.

(** The loop of the reader is a fold. *)
Lemma sv_loop_fold fuel st r l tail : lazy_at r l tail → (length l < fuel)%nat →
  ∃ r', sv_loop fuel st r = (Ok (sv_flush (fold_left sv_step l st)), r').
Proof.
  revert st r l. induction fuel as [|fuel IH]; intros st r l Hr Hf; [lia|]. cbn [sv_loop].
  unfold mbind, LM_bind at 1, getL. rewrite (lazy_current _ _ _ Hr). destruct l as [|s l]; cbn [head].
  { by exists r. }
  destruct (lazy_next _ _ _ _ Hr) as (r' & E & Hr'). unfold LM_bind. rewrite E.
  destruct (IH (sv_step st s) r' l Hr') as [r2 E2]; [cbn in Hf; lia|]. by exists r2.
Qed.

(** A chain read while the client is being counted. *)
Lemma sv_fold_same c e g st : currClient st = c → chain c e g → Forall good g →
  fold_left sv_step g st = mkSv (sv_map st) c (currClock (fold_left sv_step g st)) (stopCounting (fold_left sv_step g st)) ∧
  (stopCounting st = true → currClock (fold_left sv_step g st) = currClock st) ∧
  (stopCounting st = false → currClock st = e →
     let m := currClock (fold_left sv_step g st) in e <= m ∧ (∀ x, e <= x < m → holds g x) ∧ ¬ holds g m).
Proof.
  revert e st. induction g as [|s g IH]; intros e st Hc Hch Hg; cbn [fold_left].
  { split_and!; [by subst; destruct st|done|]. intros _ <-. cbn zeta. split_and!; [lia|lia|apply holds_nil]. }
  pose proof Hch as (Hsc & Hsk & Hch')%chain_cons. pose proof Hg as [Hs Hg']%Forall_cons.
  pose proof (good_bounds s Hs) as (_ & _ & Hlen & _ & Hend).
  assert (sv_step st s = mkSv (sv_map st) c (if stopCounting st || isSkip s then currClock st else struct_end s) (stopCounting st || isSkip s)) as Hstep.
  { unfold sv_step. rewrite Hsc, Hc, Z.eqb_refl, Hend. cbn. by rewrite Hc. }
  destruct (IH (struct_end s) (sv_step st s)) as (H1 & H2 & H3); [by rewrite Hstep|done|done|].
  split_and!.
  - rewrite H1 at 1. by rewrite Hstep.
  - intros Hstop. rewrite H2 by (rewrite Hstep; cbn; by rewrite Hstop). rewrite Hstep; cbn. by rewrite Hstop.
  - intros Hstop Hclk. cbn zeta. destruct (isSkip s) eqn:Hskip.
    + rewrite H2 by (rewrite Hstep; cbn; by rewrite orb_true_r). rewrite Hstep; cbn. rewrite orb_true_r, Hclk.
      split_and!; [lia|lia|]. rewrite holds_cons. intros [[? _]|Hh]; [congruence|].
      apply (chain_holds _ _ _ _ Hch' Hg') in Hh. unfold struct_end in Hh. lia.
    + destruct H3 as (? & Hin & Hout); [rewrite Hstep; cbn; by rewrite Hstop|rewrite Hstep; cbn; by rewrite Hstop|].
      unfold struct_end in *. split_and!; [lia| |].
      * intros x Hx. rewrite holds_cons. destruct (Z.ltb_spec x (struct_clock s + struct_Length s)); [left; unfold struct_end; split; [done|lia]|].
        right. apply Hin. lia.
      * rewrite holds_cons. intros [[_ ?]|?]; [unfold struct_end in *; lia|done].
Qed.

(** The fresh state of a client. *)
Definition sv_fresh (m : stateVector) (c k : Z) : svState := mkSv m c 0 (negb (k =? 0)).

Lemma sv_fold_fresh m c k g : mergeable c k g → g ≠ [] →
  let st := fold_left sv_step g (sv_fresh m c k) in sv_map st = m ∧ currClient st = c ∧ frontier_of g (currClock st).
Proof.
  intros [Hch Hg] Hne. cbn zeta. destruct (sv_fold_same c k g (sv_fresh m c k) eq_refl Hch Hg) as (H1 & H2 & H3).
  rewrite H1. cbn [sv_map currClient currClock]. split_and!; [done..|].
  destruct g as [|s g]; [done|]. pose proof Hch as (_ & Hk & _)%chain_cons. pose proof Hg as [Hs _]%Forall_cons.
  pose proof (good_bounds s Hs) as (_ & Hk0 & _). rewrite Hk in Hk0.
  destruct (Z.eqb_spec k 0) as [->|Hne0].
  - destruct H3 as (? & ? & ?); [done..|]. split_and!; done.
  - rewrite H2 by (cbn; by rewrite (proj2 (Z.eqb_neq _ _) Hne0)). cbn. split_and!; [lia|lia|].
    intros Hh. apply (chain_holds _ _ _ _ Hch Hg) in Hh. lia.
Qed.

(** Entering a new client starts fresh. *)
Lemma sv_step_enter st c k g : mergeable c k g → g ≠ [] → currClient st ≠ c →
  fold_left sv_step g st = fold_left sv_step g (sv_fresh (sv_flush st) c k).
Proof.
  intros [Hch _] Hne Hc. destruct g as [|s g]; [done|]. apply chain_cons in Hch as (Hsc & Hsk & _). cbn [fold_left]. f_equal.
  unfold sv_step. rewrite Hsc, Hsk. rewrite (proj2 (Z.eqb_neq _ _)) by congruence. cbn. by rewrite Z.eqb_refl.
Qed.

Lemma sv_fold_groups gs st : groups_ok gs → (∀ c, c ∈ gs.*1 → sv_flush st !! c = None ∧ currClient st ≠ c) →
  let sv := sv_flush (fold_left sv_step (concat gs.*2) st) in
  (∀ c, c ∉ gs.*1 → sv !! c = sv_flush st !! c) ∧
  (∀ c g, (c, g) ∈ gs → frontier_of g (default 0 (sv !! c)) ∧ sv !! c ≠ Some 0).
Proof.
  revert st. induction gs as [|[c g] gs IH]; intros st Hgs Hst; cbn zeta.
  { split; [done|]. intros c g Hin. by apply not_elem_of_nil in Hin. }
  apply groups_ok_cons in Hgs as (Hni & Hne & (k & Hg) & Hgs). cbn [fmap list_fmap concat fst snd] in *. rewrite fold_left_app.
  destruct (Hst c) as [Hnone Hneq]; [set_solver|]. rewrite (sv_step_enter st c k g Hg Hne Hneq).
  destruct (sv_fold_fresh (sv_flush st) c k g Hg Hne) as (Hm & Hcc & Hf). set (st1 := fold_left sv_step g _) in *.
  assert (∀ c', sv_flush st1 !! c' = if decide (c' = c) then (if currClock st1 =? 0 then None else Some (currClock st1)) else sv_flush st !! c') as Hflush.
  { intros c'. unfold sv_flush at 1. rewrite Hm, Hcc. case_decide as Hd; [subst c'|]; destruct (currClock st1 =? 0); cbn.
    - done.
    - by rewrite lookup_insert_eq.
    - done.
    - by rewrite lookup_insert_ne. }
  destruct (IH st1 Hgs) as [Hout Hin].
  { intros c' Hc'. assert (c' ≠ c) by (intros ->; done). split; [|congruence]. rewrite Hflush, decide_False by done. apply Hst. set_solver. }
  split.
  - intros c' Hc'. rewrite Hout by set_solver. rewrite Hflush, decide_False by set_solver. done.
  - intros c' g' [[= -> ->]|Hin']%elem_of_cons; [|by apply Hin].
    rewrite Hout by done. rewrite Hflush, decide_True by done. destruct (Z.eqb_spec (currClock st1) 0) as [E|E]; cbn.
    + rewrite E in Hf. done.
    + split; [done|]. congruence.
Qed.

(** The first struct is counted twice, harmlessly unless it is a Skip at clock 0. *)
Definition no_leading_skip (l : list UStruct) : Prop :=
  ∀ s, head l = Some s → isSkip s = false ∨ struct_clock s ≠ 0.

Lemma stateVector_frontier r l tail : lazy_at r l tail → one_block l → no_leading_skip l →
  ∃ sv, (match LazyReader_Current r with
         | None => Ok ∅
         | Some current =>
             let stop := negb (struct_clock current =? 0) in
             let clock := if stop then 0 else struct_EndClock current in
             fst (sv_loop (fuel_of r) (mkSv ∅ (struct_client current) clock stop) r)
         end) = Ok sv ∧ ∀ c, frontier l c (default 0 (sv !! c)) ∧ sv !! c ≠ Some 0.
Proof.
  intros Hr (gs & -> & Hgs) Hhead. rewrite (lazy_current _ _ _ Hr). destruct gs as [|[c g] gs]; cbn [fmap list_fmap concat head].
  { exists ∅. split; [done|]. intros c. rewrite lookup_empty. split; [|done]. split_and!; cbn; [lia|lia|apply holds_nil]. }
  pose proof Hgs as (Hni & Hne & (k & Hg) & Hgs')%groups_ok_cons. pose proof Hg as [Hch Hgood].
  destruct g as [|s g]; [done|]. cbn [snd app head] in *. pose proof Hch as (Hsc & Hsk & Hch')%chain_cons.
  destruct (sv_loop_fold (fuel_of r) (mkSv ∅ (struct_client s) (if negb (struct_clock s =? 0) then 0 else struct_EndClock s)
    (negb (struct_clock s =? 0))) r _ tail Hr (lazy_fuel _ _ _ Hr)) as (r' & E). cbn zeta. rewrite E. cbn [fst].
  eexists. split; [done|].
  match goal with |- context [fold_left sv_step ?l ?st] =>
    assert (fold_left sv_step l st = fold_left sv_step (concat gs.*2) (fold_left sv_step (s :: g) (sv_fresh ∅ c k))) as -> end.
  { change (concat ((c, s :: g) :: gs).*2) with ((s :: g) ++ concat gs.*2). rewrite fold_left_app. f_equal.
    cbn [fold_left]. f_equal. unfold sv_step, sv_fresh. rewrite Hsc, Hsk. cbn. rewrite Z.eqb_refl. cbn.
    destruct (Hhead s eq_refl) as [Hskip|Hk0]; [rewrite Hskip|rewrite Hsk in Hk0; rewrite (proj2 (Z.eqb_neq _ _) Hk0)]; [|done].
    by destruct (k =? 0). }
  destruct (sv_fold_fresh ∅ c k (s :: g) Hg Hne) as (Hm & Hcc & Hf). set (st1 := fold_left sv_step (s :: g) _) in *.
  assert (∀ c', sv_flush st1 !! c' = if decide (c' = c) then (if currClock st1 =? 0 then None else Some (currClock st1)) else None) as Hflush.
  { intros c'. unfold sv_flush. rewrite Hm, Hcc. case_decide as Hd; [subst c'|]; destruct (currClock st1 =? 0); cbn;
      rewrite ?lookup_insert_eq, ?lookup_insert_ne, ?lookup_empty by done; done. }
  destruct (sv_fold_groups gs st1 Hgs') as [Hout Hin].
  { intros c' Hc'. assert (c' ≠ c) by (intros ->; done). split; [by rewrite Hflush, decide_False|congruence]. }
  intros c'. unfold frontier. change (s :: g ++ concat gs.*2) with (concat ((c, s :: g) :: gs).*2).
  destruct (decide (c' ∈ gs.*1)) as [Hc'|Hc'].
  - apply list_elem_of_fmap in Hc' as ([c1 g1] & -> & Hc1). cbn [fst]. rewrite (client_structs_in _ c1 g1) by (done || set_solver). by apply Hin.
  - rewrite Hout, Hflush by done. case_decide as Hd; [subst c'|].
    + rewrite (client_structs_in _ c (s :: g)) by (done || set_solver).
      destruct (Z.eqb_spec (currClock st1) 0) as [E0|E0]; cbn; [by rewrite E0 in Hf|split; [done|intros [= E1]; exact (E0 E1)]].
    + rewrite client_structs_out by (done || set_solver). cbn. split; [split_and!; [lia|lia|apply holds_nil]|done].
Qed.

(** ** The codec *)

Definition enc_sv_entry (sv : stateVector) (c : Z) : bytes := Append [] c ++ Append [] (default 0 (sv !! c)).

Lemma decodeStateVector_entries sv cs out rest :
  Forall (λ c, is_u32 c ∧ is_u32 (default 0 (sv !! c))) cs →
  decodeStateVector_loop (length cs) out (concat (enc_sv_entry sv <$> cs) ++ rest) =
    Ok (fold_left (λ m c, <[c := default 0 (sv !! c)]> m) cs out).
Proof.
  revert out. induction cs as [|c cs IH]; intros out Hcs; [done|]. apply Forall_cons in Hcs as [[Hc Hk] Hcs].
  cbn [length fmap list_fmap concat decodeStateVector_loop fold_left]. 
  change (enc_sv_entry sv c) with (Append [] c ++ Append [] (default 0 (sv !! c))). rewrite <- !app_assoc.
  rewrite Decode_encoded by done. cbn iota beta. rewrite drop_app_length. rewrite Decode_encoded by done.
  rewrite <- drop_drop, drop_app_length, drop_app_length. by apply IH.
Qed.

Lemma fold_insert_keys (sv : stateVector) cs (out : stateVector) c : NoDup cs →
  fold_left (λ (m : stateVector) c, <[c := default 0 (sv !! c)]> m) cs out !! c =
    if decide (c ∈ cs) then Some (default 0 (sv !! c)) else out !! c.
Proof.
  revert out. induction cs as [|c' cs IH]; intros out Hnd; cbn [fold_left]; [by rewrite decide_False by set_solver|].
  apply NoDup_cons in Hnd as [Hni Hnd]. rewrite IH by done. destruct (decide (c ∈ cs)); [by rewrite decide_True by set_solver|].
  destruct (decide (c = c')) as [->|]; [rewrite decide_True by set_solver; by rewrite lookup_insert_eq|].
  rewrite decide_False by set_solver. by rewrite lookup_insert_ne.
Qed.

Lemma encodeStateVector_eq (sv : stateVector) : size sv ≠ 0%nat → encodeStateVectorMap sv =
  Append [] (w32 (Z.of_nat (size sv))) ++ concat (enc_sv_entry sv <$> merge_sort Z.le (map_to_list sv).*1).
Proof.
  intros Hne. unfold encodeStateVectorMap. rewrite bool_decide_false by done. apply fold_left_concat.
  intros dst c. unfold enc_sv_entry. by rewrite Append_app, (Append_app dst), <- app_assoc.
Qed.

Lemma stateVector_codec (sv : stateVector) rest : map_Forall (λ c k, is_u32 c ∧ is_u32 k) sv → is_u32 (Z.of_nat (size sv)) →
  DecodeStateVectorV1 (encodeStateVectorMap sv ++ rest) = Ok sv.
Proof.
  intros Hsv Hsize. unfold DecodeStateVectorV1. destruct (decide (size sv = 0%nat)) as [E|E].
  { unfold encodeStateVectorMap. rewrite bool_decide_true by done. rewrite Decode_encoded by u32. cbn.
    apply map_size_empty_inv in E. by subst. }
  rewrite encodeStateVector_eq by done. rewrite w32_small by done. rewrite <- app_assoc, Decode_encoded by done.
  rewrite drop_app_length, Nat2Z.id. set (cs := merge_sort Z.le (map_to_list sv).*1).
  assert (cs ≡ₚ (map_to_list sv).*1) as Hp by apply merge_sort_Permutation.
  assert (size sv = length cs) as Hlen by (rewrite Hp, length_fmap; symmetry; apply length_map_to_list).
  assert (∀ c, c ∈ cs ↔ is_Some (sv !! c)) as Hin.
  { intros c. rewrite Hp, list_elem_of_fmap. split.
    - intros ([c' k] & -> & Hk%elem_of_map_to_list). by eexists.
    - intros [k Hk]. exists (c, k). by rewrite elem_of_map_to_list. }
  rewrite Hlen, decodeStateVector_entries.
  - f_equal. apply map_eq. intros c. rewrite fold_insert_keys by (rewrite Hp; apply NoDup_fst_map_to_list).
    case_decide as Hc; [apply Hin in Hc as [k ->]; done|]. rewrite lookup_empty. destruct (sv !! c) eqn:Hk; [|done].
    destruct Hc. apply Hin. by eexists.
  - apply Forall_forall. intros c [k Hk]%Hin. rewrite Hk. by apply (Hsv c k).
Qed.

(** ** Merging vectors *)

Definition max_opt (a b : option Z) : option Z :=
  match a, b with Some a, Some b => Some (Z.max a b) | Some a, None => Some a | None, b => b end.

Lemma merge_entries_sv (vector merged : stateVector) c :
  fold_left merge_entry_sv (map_to_list vector) merged !! c = max_opt (merged !! c) (vector !! c).
Proof.
  assert (∀ es merged, NoDup es.*1 → fold_left merge_entry_sv es merged !! c =
    max_opt (merged !! c) ((list_to_map es : stateVector) !! c)) as Hall.
  { clear. induction es as [|[c' k] es IH]; intros merged Hnd; cbn [fold_left list_to_map foldr].
    - rewrite lookup_empty. by destruct (merged !! c).
    - cbn in Hnd. apply NoDup_cons in Hnd as [Hni Hnd]. rewrite IH by done. cbn [merge_entry_sv fst snd].
      destruct (decide (c = c')) as [->|Hne].
      + rewrite lookup_insert_eq. rewrite (not_elem_of_list_to_map_1 _ _ Hni).
        destruct (merged !! c') as [a|] eqn:Ea; [case_if|]; rewrite ?lookup_insert_eq, ?Ea; cbn; f_equal; lia.
      + rewrite lookup_insert_ne by done. destruct (merged !! c') as [a|] eqn:Ea; [case_if|]; rewrite ?lookup_insert_ne by done; done. }
  rewrite Hall by apply NoDup_fst_map_to_list. by rewrite list_to_map_to_list.
Qed.
