(* ===== verification/DiffSpec.v ===== *)
(** * Properties of state vectors and of DiffUpdateV1

    Diff and intersection write a sequence of windows ([writes]) of the structs
    they read.  When the windows are the structs of groups of distinct clients,
    each a chain, the output decodes to them ([write_windows_update]). *)
From S2P Require Import Prelude GoError Binary Ranges IdSet IdSetFacts Varint GoText YTypes DeleteSet Decoder DecoderFacts Content Update UpdateFacts UpdateStream UpdateEncode Aggregate Merge MergeFacts MergeSpec StateVector StateVectorFacts.
Import varint.

(** A struct with the offset and the trim it is written with. *)
Abbreviation writes := (list (UStruct * Z * Z)).

Definition write_window (w : lazyWriterV1) (p : UStruct * Z * Z) : result lazyWriterV1 :=
  let '(s, a, b) := p in write_struct w s a b.

Definition write_windows (w : lazyWriterV1) (ps : writes) : result lazyWriterV1 := fold_result write_window ps w.

(** [s'] is what writing the window puts on the wire. *)
Definition fits (p : UStruct * Z * Z) (s' : UStruct) : Prop :=
  let '(s, a, b) := p in
  window s a b s' ∧ good s' ∧ struct_client s' = struct_client s ∧ ID_Offset (struct_ID s) a = Ok (struct_ID s').

Lemma fits_whole s : good s → fits (s, 0, 0) s.
Proof. intros Hs. split_and!; [by left|done|done|apply ID_Offset_0, Hs]. Qed.

Lemma fits_window s a b : good s → 0 <= a → 0 <= b → a + b < struct_Length s →
  ∃ s', fits (s, a, b) s' ∧ trimmed s a b s'.
Proof.
  intros Hs Ha Hb Hab. destruct (sliceStructWindow_spec s a b Hs Ha Hb Hab) as (s' & Hw & Ht).
  pose proof Ht as (Hg & Hc & Hk & _). exists s'. split; [|done]. split_and!; [|done|done|].
  - destruct (decide (a = 0 ∧ b = 0)) as [[-> ->]|Hne]; [left|right; split; [tauto|done]].
    split_and!; [done..|]. unfold sliceStructWindowV1 in Hw. rewrite (proj2 (Z.leb_gt _ _)) in Hw by lia. cbn in Hw. congruence.
  - pose proof (good_bounds s Hs) as (? & ? & ? & ? & _). unfold struct_end in *.
    rewrite ID_Offset_Ok by (unfold struct_clock, struct_client in *; first [split; [done|u32]|lia]).
    fold (struct_client s) (struct_clock s). f_equal. rewrite struct_ID_eta. by rewrite Hc, Hk.
Qed.

Lemma write_windows_rep w st ps ss : writer_rep w st → wstate_ok st → Forall2 fits ps ss → follows_all st ss →
  is_u32 (Z.of_nat (length (wfinish (fold_left put ss st)))) →
  ∃ w', write_windows w ps = Ok w' ∧ writer_rep w' (fold_left put ss st) ∧ wstate_ok (fold_left put ss st) ∧
    wstructs (fold_left put ss st) = wstructs st ++ (wire <$> ss).
Proof.
  intros Hrep Hok HF. revert w st Hrep Hok. unfold write_windows.
  induction HF as [|[[s a] b] s' ps ss (Hw & Hg & Hc & Hid) HF IH]; intros w st Hrep Hok Hfo Hn; cbn [fold_result fold_left] in *.
  { exists w. rewrite app_nil_r. done. }
  destruct Hfo as [Hf Hfo]. pose proof (wfinish_puts ss (put st s')).
  destruct (rep_write w st s a b s' Hrep Hok Hf Hw (proj1 Hg)) as (w1 & E & Hrep1); [done|done|u32|].
  assert (write_window w (s, a, b) = Ok w1) as -> by (unfold write_window, write_struct; by rewrite E).
  destruct (IH w1 (put st s') Hrep1 (put_ok st s' Hok (proj1 Hg) Hf) Hfo Hn) as (w' & -> & ? & ? & Hst).
  exists w'. split_and!; [done..|]. rewrite Hst, wstructs_put, <- app_assoc. done.
Qed.

(** Groups that may be empty. *)
Definition kept (gs : list (Z * list UStruct)) : list (Z * list UStruct) := filter (λ g, g.2 ≠ []) gs.

Lemma concat_kept gs : concat (kept gs).*2 = concat gs.*2.
Proof.
  induction gs as [|[c g] gs IH]; [done|]. unfold kept. rewrite filter_cons. destruct (decide ((c, g).2 ≠ [])) as [Hg|Hg]; cbn [snd] in Hg.
  - cbn. f_equal. exact IH.
  - destruct g as [|s g]; [exact IH|]. by destruct Hg.
Qed.

Definition loose_groups (gs : list (Z * list UStruct)) : Prop :=
  NoDup gs.*1 ∧ Forall (λ g, g.2 = [] ∨ (∃ k, mergeable g.1 k g.2)) gs.

Lemma kept_ok gs : loose_groups gs → groups_ok (kept gs).
Proof.
  intros [Hnd Hg]. split.
  - unfold kept. revert Hnd. clear. induction gs as [|[c g] gs IH]; [constructor|].
    intros [Hni Hnd]%NoDup_cons. rewrite filter_cons. case_decide; [|by apply IH]. cbn. apply NoDup_cons. split; [|by apply IH].
    intros (e & -> & [_ He]%list_elem_of_filter)%list_elem_of_fmap. destruct Hni. apply list_elem_of_fmap. by exists e.
  - unfold kept. apply Forall_forall. intros g [Hne Hin]%list_elem_of_filter. rewrite Forall_forall in Hg.
    destruct (Hg g Hin) as [?|?]; done.
Qed.

Lemma client_structs_loose gs c g : loose_groups gs → (c, g) ∈ gs → client_structs c (concat gs.*2) = g.
Proof.
  intros Hgs Hin. rewrite <- concat_kept. pose proof (kept_ok gs Hgs) as Hk. destruct (decide (g = [])) as [->|Hne].
  - apply client_structs_out; [done|]. intros ([c' g'] & Heq & [Hne Hin']%list_elem_of_filter)%list_elem_of_fmap.
    cbn in Heq, Hne. subst c'. destruct Hgs as [Hnd _].
    apply list_elem_of_lookup in Hin as [i Hi], Hin' as [j Hj].
    assert (i = j) as ->; [|congruence]. eapply NoDup_lookup; [exact Hnd|..]; rewrite list_lookup_fmap; [by rewrite Hi|by rewrite Hj].
  - apply client_structs_in; [done|]. apply list_elem_of_filter. done.
Qed.

Lemma client_structs_loose_out gs c : loose_groups gs → c ∉ gs.*1 → client_structs c (concat gs.*2) = [].
Proof.
  intros Hgs Hc. rewrite <- concat_kept. apply client_structs_out; [by apply kept_ok|].
  intros (e & -> & [_ He]%list_elem_of_filter)%list_elem_of_fmap. destruct Hc. apply list_elem_of_fmap. by exists e.
Qed.

(** Writing the windows of such groups. *)
Lemma write_windows_update ps gs ds : Forall2 fits ps (concat gs.*2) → loose_groups gs → is_u32 (Z.of_nat (length gs)) →
  wf_set ds → wf_clients ds →
  ∃ w out, write_windows newLazyWriterV1 ps = Ok w ∧ fst (writer_finish w []) = Ok out ∧
    DecodeV1 (AppendDeleteSetBlockV1 out (Some (mkDeleteSet (Some ds)))) =
      Ok (mkDecoded (wire <$> concat gs.*2) (Some (mkDeleteSet (Some ds)))).
Proof.
  intros HF Hgs Hlen Hw Hc. rewrite <- concat_kept in *. destruct (kept_ok gs Hgs) as [Hnd Hk].
  assert (Forall (λ g, g.2 ≠ [] ∧ ∃ k, chain g.1 k g.2) (kept gs)) as Hch.
  { eapply Forall_impl; [exact Hk|]. intros g (? & k & ? & _). by split; [|exists k]. }
  destruct (write_windows_rep newLazyWriterV1 ([], None) ps (concat (kept gs).*2) rep_new) as (w & -> & Hrep & Hok & Hst); [done|done| | |].
  { by apply follows_groups. }
  { rewrite wfinish_groups by done. cbn. unfold kept. pose proof (length_filter (λ g, g.2 ≠ []) gs). u32. }
  destruct (finish_list w _ Hrep Hok) as (bs & Hout & Hbs & Hbst).
  { rewrite wfinish_groups by done. cbn. unfold kept. pose proof (length_filter (λ g, g.2 ≠ []) gs). u32. }
  specialize (Hout (EncodeDeleteSetBlockV1 (Some (mkDeleteSet (Some ds))))).
  destruct (fst (writer_finish w [])) as [out|] eqn:E; [|done]. exists w, out. split_and!; [done..|].
  cbn [mbind result_bind] in Hout. injection Hout as Hout. rewrite appendDeleteSet_app, Hout.
  rewrite (DecodeV1_blocks bs _ (mkDeleteSet (Some ds)) Hbs); [|by apply reads_ReadDeleteSetBlockV1].
  by rewrite Hbst, Hst.
Qed.

(** The reader's side. *)
Lemma read_next_at r s l tail : lazy_at r (s :: l) tail → ∃ r', read_next r = Ok r' ∧ lazy_at r' l tail.
Proof. intros Hr. destruct (lazy_next _ _ _ _ Hr) as (r' & E & Hr'). unfold read_next. rewrite E. eauto. Qed.

(** A decoded update as a stream. *)
Lemma decoded_stream u d f : is_bytes u → DecodeV1 u = Ok d → ∃ r tail,
  NewLazyReaderV1 u f = Ok r ∧ lazy_at r (visible f (Structs d)) tail ∧
  (∀ r', lazy_at r' [] tail → fst (LazyReader_ReadDeleteSet r') = Ok (du_DeleteSet d)).
Proof.
  intros Hu Hd. destruct (decode_blocks u d Hu Hd) as (bs & tail & ds & -> & Hbs & Hds & ->).
  destruct (lazy_start bs tail f Hbs) as (r & Hr & Hat). exists r, tail. split_and!; [done..|].
  intros r' Hr'. destruct (lazy_deletes r' tail ds Hr') as (r2 & E); [by apply deletes_ok_reads|]. by rewrite E.
Qed.

Lemma content_loose gs c x : loose_groups gs → has_content (concat gs.*2) c x ↔ ∃ g, (c, g) ∈ gs ∧ holds g x.
Proof.
  intros Hgs. unfold has_content. destruct (decide (c ∈ gs.*1)) as [Hc|Hc].
  - apply list_elem_of_fmap in Hc as ([c' g] & -> & Hg). cbn [fst]. rewrite (client_structs_loose _ c' g) by done.
    split; [intros; by exists g|]. intros (g' & Hg' & Hx). destruct Hgs as [Hnd _].
    apply list_elem_of_lookup in Hg as [i Hi], Hg' as [j Hj].
    assert (i = j) as ->; [|congruence]. eapply NoDup_lookup; [exact Hnd|..]; rewrite list_lookup_fmap; [by rewrite Hi|by rewrite Hj].
  - rewrite client_structs_loose_out by done. split; [by intros ?%holds_nil|]. intros (g & Hg & _). destruct Hc.
    apply list_elem_of_fmap. by exists (c, g).
Qed.

Lemma groups_loose gs : groups_ok gs → loose_groups gs.
Proof. intros [? Hg]. split; [done|]. eapply Forall_impl; [exact Hg|]. intros g [_ ?]. by right. Qed.

Lemma groups_length gs : Forall (λ g : Z * list UStruct, g.2 ≠ []) gs → (length gs ≤ length (concat gs.*2))%nat.
Proof.
  induction 1 as [|[c g] gs Hg _ IH]; cbn; [lia|]. rewrite length_app. cbn in Hg.
  assert (length g ≠ 0%nat) by by destruct g. lia.
Qed.

(** The groups sent over the wire can be merged. *)
Lemma wire_groups_mergeable gs s : loose_groups gs → Forall (λ g, g.2 = [] ∨ nonvoid g.2) gs → deletes_fine s →
  mergeable_update (mkDecoded (wire <$> concat gs.*2) (Some (mkDeleteSet (Some s)))).
Proof.
  intros Hgs Hnv Hs. pose proof Hgs as [_ Hm].
  assert (∀ c g, (c, g) ∈ gs → g = [] ∨ (∃ k, mergeable c k g)) as Hin.
  { intros c g Hg. rewrite Forall_forall in Hm. by apply (Hm (c, g)). }
  split; cbn [Structs du_DeleteSet]; [| | |by exists s].
  - apply Forall_fmap, Forall_concat, Forall_fmap, Forall_forall. intros [c g] Hg. cbn.
    destruct (Hin c g Hg) as [->|(k & _ & Hgood)]; [constructor|]. eapply Forall_impl; [exact Hgood|]. intros t. apply wire_good.
  - intros c. rewrite client_structs_wire. destruct (decide (c ∈ gs.*1)) as [Hc|Hc].
    + apply list_elem_of_fmap in Hc as ([c' g] & -> & Hg). cbn [fst]. rewrite (client_structs_loose _ c' g) by done.
      destruct (Hin c' g Hg) as [->|(k & Hch & Hgood)]; [by exists 0|]. exists k.
      rewrite (sort_chain c' k); [by apply chain_wire|by apply chain_wire|].
      apply Forall_fmap. eapply Forall_impl; [exact Hgood|]. intros t. apply wire_good.
    + rewrite client_structs_loose_out by done. by exists 0.
  - apply Forall_fmap, Forall_forall. intros t Ht. unfold compose. rewrite client_structs_wire, wire_client.
    apply elem_of_client_structs in Ht. destruct (decide (struct_client t ∈ gs.*1)) as [Hc|Hc].
    + apply list_elem_of_fmap in Hc as ([c' g] & Hct & Hg). rewrite Hct in *. cbn [fst] in *. rewrite (client_structs_loose _ c' g) in * by done.
      rewrite Forall_forall in Hnv. destruct (Hnv _ Hg) as [Hnil|[x Hx]]; cbn in *; [subst; set_solver|].
      exists x. by apply holds_wire.
    + rewrite client_structs_loose_out in Ht by done. set_solver.
Qed.

(** * Facts about DiffUpdateV1

    The loops write the windows [diff_list] of the structs of the update
    ([diff_loop_list]); on an update with one block per client these are chains
    that hold what the state vector does not cover ([diff_groups]). *)

Definition sv_get (sv : stateVector) (c : Z) : Z := default 0 (sv !! c).

(** What is written; [writing] is the client being copied. *)
Fixpoint diff_list (sv : stateVector) (writing : option Z) (l : list UStruct) : writes :=
  match l with
  | [] => []
  | s :: l =>
      let c := struct_client s in
      if bool_decide (writing = Some c) then (s, 0, 0) :: diff_list sv writing l
      else if isSkip s then diff_list sv None l
      else if sv_get sv c <? struct_EndClock s then
        (s, (if struct_clock s <? sv_get sv c then sv_get sv c - struct_clock s else 0), 0) :: diff_list sv (Some c) l
      else diff_list sv None l
  end.

Definition head_client_ne (c : Z) (l : list UStruct) : Prop := ∀ s, head l = Some s → struct_client s ≠ c.

Lemma diff_list_leave sv c l : head_client_ne c l → diff_list sv (Some c) l = diff_list sv None l.
Proof.
  intros Hl. destruct l as [|s l]; [done|]. cbn [diff_list]. specialize (Hl s eq_refl).
  rewrite bool_decide_false by congruence. by rewrite bool_decide_false by done.
Qed.

Lemma write_windows_app w p q : write_windows w (p ++ q) = write_windows w p ≫= λ w, write_windows w q.
Proof. apply fold_result_app. Qed.

Lemma write_windows_cons w p q : write_windows w (p :: q) = write_window w p ≫= λ w, write_windows w q.
Proof. done. Qed.

(** The copying loop. *)
Lemma diff_copy_list fuel sv c r w l tail : lazy_at r l tail → (length l ≤ fuel)%nat →
  ∃ p q, l = p ++ q ∧ head_client_ne c q ∧
    diff_list sv (Some c) l = ((λ s, (s, 0, 0)) <$> p) ++ diff_list sv None q ∧
    match write_windows w ((λ s, (s, 0, 0)) <$> p) with
    | Ok w' => ∃ r', diff_copy fuel c r w = Ok (r', w') ∧ lazy_at r' q tail
    | Err e => diff_copy fuel c r w = Err e
    end.
Proof.
  revert r w l. induction fuel as [|fuel IH]; intros r w l Hr Hf; cbn [diff_copy]; rewrite (lazy_current _ _ _ Hr).
  { destruct l; [|cbn in Hf; lia]. exists [], []. split_and!; [done..|]. cbn. by exists r. }
  destruct l as [|s l]; cbn [head].
  { exists [], []. split_and!; [done..|]. cbn. by exists r. }
  destruct (Z.eqb_spec (struct_client s) c) as [Hc|Hc].
  - destruct (read_next_at _ _ _ _ Hr) as (r' & Er & Hr'). destruct (write_struct w s 0 0) as [w1|e] eqn:Ew.
    + destruct (IH r' w1 l Hr') as (p & q & -> & Hq & Hl & Hres); [cbn in Hf; lia|].
      exists (s :: p), q. split_and!; [done..| |].
      * cbn [diff_list]. rewrite bool_decide_true by congruence. by rewrite Hl.
      * rewrite fmap_cons, write_windows_cons. cbn [write_window]. rewrite Ew. cbn [mbind result_bind]. rewrite Er. done.
    + destruct (IH r' w l Hr') as (p & q & -> & Hq & Hl & _); [cbn in Hf; lia|].
      exists (s :: p), q. split_and!; [done..| |].
      * cbn [diff_list]. rewrite bool_decide_true by congruence. by rewrite Hl.
      * rewrite fmap_cons, write_windows_cons. cbn [write_window]. by rewrite Ew.
  - exists [], (s :: l). split_and!; [done| |by apply diff_list_leave; intros ? [= <-]|by exists r]. by intros ? [= <-].
Qed.

(** The dropping loop. *)
Lemma diff_drop_list fuel sv c r l tail : lazy_at r l tail → (length l ≤ fuel)%nat →
  ∃ r' q, diff_drop fuel c (sv_get sv c) r = Ok r' ∧ lazy_at r' q tail ∧ diff_list sv None l = diff_list sv None q ∧
    (length q ≤ length l)%nat ∧
    (∀ s, head l = Some s → struct_client s = c → struct_EndClock s <= sv_get sv c → (length q < length l)%nat).
Proof.
  revert r l. induction fuel as [|fuel IH]; intros r l Hr Hf; cbn [diff_drop]; rewrite (lazy_current _ _ _ Hr).
  { destruct l; [|cbn in Hf; lia]. by exists r, []. }
  destruct l as [|s l]; cbn [head]; [by exists r, []|].
  destruct ((struct_client s =? c) && (struct_EndClock s <=? sv_get sv c)) eqn:E.
  - apply andb_true_iff in E as [Hc%Z.eqb_eq He%Z.leb_le]. destruct (read_next_at _ _ _ _ Hr) as (r' & -> & Hr'). cbn [mbind result_bind].
    destruct (IH r' l Hr') as (r2 & q & -> & Hr2 & Hl & Hlen & _); [cbn in Hf; lia|].
    exists r2, q. split_and!; [done..| |cbn; lia|intros; cbn; lia].
    cbn [diff_list]. rewrite Hc. rewrite (proj2 (Z.ltb_ge _ _)) by done. rewrite bool_decide_false by done. by destruct (isSkip s).
  - exists r, (s :: l). split_and!; [done..|]. intros s' [= <-] Hc He. rewrite Hc, Z.eqb_refl, (proj2 (Z.leb_le _ _) He) in E. done.
Qed.

Lemma diff_loop_list fuel sv r w l tail : lazy_at r l tail → (length l ≤ fuel)%nat →
  match write_windows w (diff_list sv None l) with
  | Ok w' => ∃ r', diff_loop fuel sv r w = Ok (r', w') ∧ lazy_at r' [] tail
  | Err e => diff_loop fuel sv r w = Err e
  end.
Proof.
  revert r w l. induction fuel as [|fuel IH]; intros r w l Hr Hf; cbn [diff_loop]; rewrite (lazy_current _ _ _ Hr).
  { destruct l; [|cbn in Hf; lia]. by exists r. }
  destruct l as [|s l]; cbn [head diff_list]; [by exists r|]. cbn [length] in Hf.
  rewrite bool_decide_false by done. fold (sv_get sv (struct_client s)). destruct (isSkip s) eqn:Hskip.
  { destruct (read_next_at _ _ _ _ Hr) as (r' & -> & Hr'). cbn [mbind result_bind]. apply IH; [done|lia]. }
  destruct (Z.ltb_spec (sv_get sv (struct_client s)) (struct_EndClock s)).
  - set (a := if struct_clock s <? _ then _ else _).
    assert ((if struct_clock s <? sv_get sv (struct_client s) then write_struct w s (sv_get sv (struct_client s) - struct_clock s) 0
             else write_struct w s 0 0) = write_window w (s, a, 0)) as -> by (unfold a; by case_if).
    rewrite write_windows_cons. destruct (write_window w (s, a, 0)) as [w1|e]; [|done]. cbn [mbind result_bind].
    destruct (read_next_at _ _ _ _ Hr) as (r' & -> & Hr'). cbn [mbind result_bind].
    destruct (diff_copy_list fuel sv (struct_client s) r' w1 l tail Hr') as (p & q & -> & Hq & -> & Hres); [lia|].
    rewrite write_windows_app. destruct (write_windows w1 _) as [w2|e]; [|by rewrite Hres].
    destruct Hres as (r2 & -> & Hr2). cbn [mbind result_bind]. rewrite length_app in Hf. apply IH; [done|lia].
  - destruct (diff_drop_list (S fuel) sv (struct_client s) r (s :: l) tail Hr) as (r' & q & -> & Hr' & Hl & Hlen & Hprog); [cbn; lia|].
    cbn [mbind result_bind]. specialize (Hprog s eq_refl eq_refl ltac:(done)). cbn [length] in Hprog.
    assert (diff_list sv None l = diff_list sv None q) as ->.
    { rewrite <- Hl. cbn [diff_list]. rewrite bool_decide_false by done. rewrite Hskip, (proj2 (Z.ltb_ge _ _)) by done. done. }
    apply IH; [done|lia].
Qed.

(** ** The windows of one client *)

Lemma diff_list_app sv c g rest writing : Forall (λ s, struct_client s = c) g → head_client_ne c rest →
  (writing = None ∨ writing = Some c) → diff_list sv writing (g ++ rest) = diff_list sv writing g ++ diff_list sv None rest.
Proof.
  intros Hg Hrest. revert writing. induction Hg as [|s g Hs _ IH]; intros writing Hw; cbn [app diff_list].
  - destruct Hw as [-> | ->]; [done|by apply diff_list_leave].
  - rewrite Hs. destruct Hw as [-> | ->].
    + rewrite bool_decide_false by done. destruct (isSkip s); [apply IH; auto|]. case_if; cbn [app]; rewrite IH; auto.
    + rewrite bool_decide_true by done. cbn [app]. rewrite IH; auto.
Qed.

Lemma diff_list_copy sv c g : Forall (λ s, struct_client s = c) g → diff_list sv (Some c) g = (λ s, (s, 0, 0)) <$> g.
Proof. induction 1 as [|s g Hs _ IH]; [done|]. cbn [diff_list]. rewrite bool_decide_true by congruence. by rewrite IH. Qed.

Lemma fits_all g : Forall good g → Forall2 fits ((λ s, (s, 0, 0)) <$> g) g.
Proof. induction 1 as [|s g Hs _ IH]; [constructor|]. constructor; [by apply fits_whole|done]. Qed.

Lemma diff_group sv c k g : mergeable c k g → 0 <= sv_get sv c →
  ∃ ss, Forall2 fits (diff_list sv None g) ss ∧ (ss = [] ∨ (∃ k', mergeable c k' ss) ∧ nonvoid ss) ∧
    ∀ x, holds ss x ↔ holds g x ∧ sv_get sv c <= x.
Proof.
  intros [Hch Hg] Hsv. revert k Hch. induction g as [|s g IH]; intros k Hch.
  { exists []. split_and!; [constructor|by left|]. intros x. pose proof (holds_nil x). tauto. }
  pose proof Hch as (Hc & Hk & Hch')%chain_cons. pose proof Hg as [Hs Hg']%Forall_cons.
  pose proof (good_bounds s Hs) as (_ & ? & ? & _ & Hend). cbn [diff_list].
  rewrite bool_decide_false by done. rewrite Hend, Hc.
  destruct (isSkip s) eqn:Hskip; [|destruct (Z.ltb_spec (sv_get sv c) (struct_end s))].
  - destruct (IH Hg' _ Hch') as (ss & ? & ? & Hh). exists ss. split_and!; [done..|]. intros x. rewrite Hh, holds_cons.
    split; [tauto|]. intros [[[? _]|?] ?]; [congruence|done].
  - set (a := if struct_clock s <? _ then _ else _).
    assert (0 <= a < struct_Length s ∧ struct_clock s + a = Z.max (struct_clock s) (sv_get sv c)) as [Ha Hka].
    { unfold a, struct_end in *. case_if; lia. }
    destruct (fits_window s a 0 Hs) as (s' & Hf & Ht); [lia..|]. pose proof (trimmed_skip _ _ _ _ Ht) as Hsk'.
    destruct Ht as (Hs' & Hc' & Hk' & Hl' & _).
    assert (struct_end s' = struct_end s) as He' by (unfold struct_end in *; lia).
    rewrite (diff_list_copy sv c) by by eapply chain_clients.
    exists (s' :: g). split_and!.
    + constructor; [done|by apply fits_all].
    + right. split; [|exists (struct_clock s'); apply holds_cons; left; split; [congruence|unfold struct_end; lia]].
      exists (struct_clock s'). split; [|by constructor]. apply chain_cons. rewrite He'. split_and!; [congruence|done|done].
    + intros x. rewrite !holds_cons, He', Hsk', Hskip. split.
      * intros [[_ ?]|Hh]; [split; [left; split; [done|lia]|lia]|]. split; [by right|].
        apply (chain_holds _ _ _ _ Hch' Hg') in Hh. lia.
      * intros [[[_ ?]|Hh] ?]; [left; split; [done|lia]|by right].
  - destruct (IH Hg' _ Hch') as (ss & ? & ? & Hh). exists ss. split_and!; [done..|]. intros x. rewrite Hh, holds_cons.
    split; [tauto|]. intros [[[_ ?]|?] ?]; [lia|done].
Qed.

Lemma diff_groups sv gs : groups_ok gs → (∀ c, 0 <= sv_get sv c) →
  ∃ gs', Forall2 fits (diff_list sv None (concat gs.*2)) (concat gs'.*2) ∧ loose_groups gs' ∧ gs'.*1 = gs.*1 ∧
    Forall (λ g, g.2 = [] ∨ nonvoid g.2) gs' ∧
    Forall2 (λ g g', g'.1 = g.1 ∧ ∀ x, holds g'.2 x ↔ holds g.2 x ∧ sv_get sv g.1 <= x) gs gs'.
Proof.
  intros Hgs Hsv. induction gs as [|[c g] gs IH].
  { exists []. split_and!; [constructor|split; constructor|done|constructor|constructor]. }
  pose proof Hgs as (Hni & Hne & (k & Hg) & Hgs')%groups_ok_cons. destruct (IH Hgs') as (gs' & HF & [Hnd Hl] & Hkeys & Hnv & HF2).
  destruct (diff_group sv c k g Hg (Hsv c)) as (ss & Hfit & Hss & Hh).
  exists ((c, ss) :: gs'). cbn [fmap list_fmap concat fst snd]. split_and!.
  - rewrite (diff_list_app sv c g).
    + by apply Forall2_app.
    + destruct Hg as [Hch _]. by eapply chain_clients.
    + destruct gs as [|[c2 g2] gs]; [by intros ?|]. pose proof Hgs' as (_ & Hne2 & (k2 & [Hch2 _]) & _)%groups_ok_cons.
      cbn in Hni |- *. intros s Hs. destruct g2 as [|s2 g2]; [done|]. injection Hs as <-.
      apply chain_cons in Hch2 as (-> & _). set_solver.
    + by left.
  - split; [cbn; constructor; [by rewrite Hkeys|done]|]. constructor; [tauto|done].
  - by rewrite Hkeys.
  - constructor; [tauto|done].
  - constructor; [done|done].
Qed.

Lemma decodeStateVector_range n out rest sv : is_bytes rest → map_Forall (λ c k, is_u32 c ∧ is_u32 k) out →
  decodeStateVector_loop n out rest = Ok sv → map_Forall (λ c k, is_u32 c ∧ is_u32 k) sv.
Proof.
  revert out rest. induction n as [|n IH]; intros out rest Hb Hout; cbn [decodeStateVector_loop]; [by intros [= <-]|].
  destruct (Decode rest) as [[c|] cn] eqn:Ec; [|done]. destruct (Decode (drop cn rest)) as [[k|] kn] eqn:Ek; [|done].
  apply IH; [by apply Forall_drop|]. apply map_Forall_insert_2; [|done].
  apply Decode_sound in Ec; [|done]. apply Decode_sound in Ek; [|by apply Forall_drop]. tauto.
Qed.

Lemma DecodeStateVector_range data sv : is_bytes data → DecodeStateVectorV1 data = Ok sv →
  map_Forall (λ c k, is_u32 c ∧ is_u32 k) sv.
Proof.
  intros Hb. unfold DecodeStateVectorV1. destruct (Decode data) as [[count|] n]; [|done].
  apply decodeStateVector_range; [by apply Forall_drop|apply map_Forall_empty].
Qed.

Lemma sv_get_range sv : map_Forall (λ c k, is_u32 c ∧ is_u32 k) sv → ∀ c, 0 <= sv_get sv c.
Proof.
  intros Hsv c. unfold sv_get. destruct (sv !! c) as [k|] eqn:E; cbn; [|lia]. destruct (Hsv c k E) as [_ [? _]]. lia.
Qed.

(** ** The frontier of a whole update *)

Lemma stateVector_ok u d : is_bytes u → DecodeV1 u = Ok d → one_block (Structs d) → no_leading_skip (Structs d) →
  is_u32 (Z.of_nat (length (Structs d))) →
  ∃ sv, stateVectorFromUpdateV1 u = Ok sv ∧ (∀ c, frontier (Structs d) c (sv_get sv c) ∧ sv !! c ≠ Some 0) ∧
    map_Forall (λ c k, is_u32 c ∧ is_u32 k) sv ∧ is_u32 (Z.of_nat (size sv)).
Proof.
  intros Hu Hd Hone Hhead Hlen. destruct (decoded_stream u d false Hu Hd) as (r & tail & Hr & Hat & _).
  destruct (stateVector_frontier r _ tail Hat Hone Hhead) as (sv & Hsv & Hf). exists sv.
  unfold stateVectorFromUpdateV1. rewrite Hr. split; [done|]. split; [done|].
  destruct Hone as (gs & Egs & Hgs). pose proof Hgs as [Hnd Hg].
  assert (∀ c k, sv !! c = Some k → c ∈ gs.*1 ∧ is_u32 c ∧ is_u32 k) as Hkey.
  { intros c k Hk. destruct (Hf c) as [(H0 & Hin & _) Hne]. rewrite Hk in *. cbn [from_option id] in *.
    assert (0 < k) as Hpos by (destruct (decide (k = 0)); [congruence|lia]).
    specialize (Hin (k - 1) ltac:(lia)). change (has_content (Structs d) c (k - 1)) in Hin. rewrite Egs in Hin.
    apply content_loose in Hin as (g & Hcg & Hx); [|by apply groups_loose].
    rewrite Forall_forall in Hg. destruct (Hg _ Hcg) as (Hne' & k0 & Hch & Hgood). cbn in *.
    destruct (chain_last c k0 g (Skip (mkBase (mkID 0 0) 0)) Hch Hgood Hne') as (_ & _ & Hmax).
    apply (chain_holds c k0) in Hx; [|done..]. split; [apply list_elem_of_fmap; by exists (c, g)|]. split; [|u32].
    destruct g as [|s g]; [done|]. apply chain_cons in Hch as (<- & _). apply Forall_cons in Hgood as [Hs _].
    by apply good_bounds. }
  split; [intros c k Hk; by apply Hkey|].
  assert (size sv ≤ length gs)%nat as Hsize.
  { rewrite <- size_dom. rewrite <- (length_fmap fst gs), <- (size_list_to_set (C := gset Z)) by done.
    apply subseteq_size. intros c [k Hk]%elem_of_dom. apply elem_of_list_to_set. by eapply Hkey. }
  assert (Forall (λ g : Z * list UStruct, g.2 ≠ []) gs) as Hne by (eapply Forall_impl; [exact Hg|]; by intros ? [? _]).
  pose proof (groups_length gs Hne). rewrite Egs in Hlen. u32.
Qed.

(** ** The difference *)

Lemma Diff_ok u d svb sv s : is_bytes u → DecodeV1 u = Ok d → one_block (Structs d) → is_u32 (Z.of_nat (weight d)) →
  du_DeleteSet d = Some (mkDeleteSet (Some s)) → deletes_fine s →
  DecodeStateVectorV1 svb = Ok sv → (∀ c, 0 <= sv_get sv c) →
  ∃ u' d', DiffUpdateV1 u svb = Ok u' ∧ DecodeV1 u' = Ok d' ∧ mergeable_update d' ∧
    (∀ c x, content d' c x ↔ content d c x ∧ sv_get sv c <= x) ∧ du_DeleteSet d' = du_DeleteSet d ∧
    (weight d' ≤ weight d)%nat.
Proof.
  intros Hu Hd (gs & Egs & Hgs) Hw Hds Hs Hsv Hpos.
  destruct (decoded_stream u d false Hu Hd) as (r & tail & Hr & Hat & Hdel). cbn [visible] in Hat.
  destruct (diff_groups sv gs Hgs Hpos) as (gs' & HF & Hl & Hkeys & Hnv & HF2).
  assert (Forall (λ g : Z * list UStruct, g.2 ≠ []) gs) as Hne by (eapply Forall_impl; [apply Hgs|]; by intros ? [? _]).
  pose proof (groups_length gs Hne) as Hgl. unfold weight in Hw. rewrite Hds in Hw. cbn [ds_set mbind option_bind ds_ids] in Hw.
  assert (length gs' = length gs) as Hlen by (rewrite <- (length_fmap fst), Hkeys; apply length_fmap).
  destruct (write_windows_update _ gs' s HF Hl) as (w & out & Hww & Hout & Hdec).
  { rewrite Hlen. rewrite Egs in Hw. u32. } { apply Hs. } { split; [apply Hs|u32]. }
  pose proof (diff_loop_list (fuel_of r) sv r newLazyWriterV1 (Structs d) tail Hat) as Hloop.
  rewrite Egs in Hloop at 2. rewrite Hww in Hloop. destruct Hloop as (r' & Eloop & Hr'); [pose proof (lazy_fuel _ _ _ Hat); lia|].
  exists (AppendDeleteSetBlockV1 out (Some (mkDeleteSet (Some s)))). eexists. split.
  { unfold DiffUpdateV1, DiffUpdateV1Context. rewrite Hsv. cbn [mbind result_bind]. rewrite Hr. cbn [mbind result_bind].
    rewrite Eloop. cbn [mbind result_bind]. rewrite (Hdel r' Hr'). cbn [mbind result_bind]. rewrite Hout. cbn [mbind result_bind].
    by rewrite Hds. }
  split; [exact Hdec|]. split; [by apply wire_groups_mergeable|]. cbn [du_DeleteSet]. split_and!; [|done|].
  - intros c x. unfold content. cbn [Structs]. unfold has_content at 1. rewrite client_structs_wire, holds_wire.
    fold (has_content (concat gs'.*2) c x). rewrite content_loose by done. rewrite Egs, content_loose by by apply groups_loose.
    split.
    + intros (g' & Hin & Hx). apply list_elem_of_lookup in Hin as [i Hi].
      destruct (Forall2_lookup_r _ _ _ _ _ HF2 Hi) as ([c1 g] & Hgi & Hk & Hh). cbn in Hk, Hh. subst c1.
      destruct (proj1 (Hh x) Hx) as [? ?]. split; [|done]. exists g. split; [by eapply list_elem_of_lookup_2|done].
    + intros [(g & Hin & Hx) Hle]. apply list_elem_of_lookup in Hin as [i Hi].
      destruct (Forall2_lookup_l _ _ _ _ _ HF2 Hi) as ([c1 g'] & Hgi & Hk & Hh). cbn in Hk, Hh. subst c1.
      exists g'. split; [by eapply list_elem_of_lookup_2|]. by apply Hh.
  - unfold weight. cbn [Structs du_DeleteSet]. rewrite Hds. cbn [ds_set mbind option_bind ds_ids]. rewrite length_fmap.
    rewrite <- (Forall2_length _ _ _ HF). rewrite <- Egs.
    assert (∀ l wr, length (diff_list sv wr l) ≤ length l)%nat as Hdl.
    { clear. induction l as [|t l IH]; intros wr; cbn [diff_list length]; [lia|].
      pose proof (IH wr). pose proof (IH None). pose proof (IH (Some (struct_client t))).
      destruct (bool_decide _); cbn [length]; [lia|]. destruct (isSkip t); [lia|]. destruct (_ <? struct_EndClock t); cbn [length]; lia. }
    specialize (Hdl (Structs d) None). lia.
Qed.

(** ** Properties *)

(** A state vector survives its wire format: what [encodeStateVectorMap]
    writes (ascending clients) is decoded to the same map, whatever follows. *)
Theorem stateVector_roundtrip (sv : stateVector) (rest : bytes)
    (Hsv : map_Forall (λ c k, is_u32 c ∧ is_u32 k) sv) (Hsize : is_u32 (Z.of_nat (size sv))) :
  DecodeStateVectorV1 (encodeStateVectorMap sv ++ rest) = Ok sv.
Proof. by apply stateVector_codec. Qed.

Definition sample_sv : stateVector := {[ 7 := 300; 1000 := 4; 3 := 0 ]}.

Lemma stateVector_roundtrip_witness :
  DecodeStateVectorV1 ([3; 3; 0; 7; 172; 2; 232; 7; 4] ++ [255; 255]) = Ok sample_sv.
Proof.
  apply (stateVector_roundtrip sample_sv [255; 255]).
  - apply (bool_decide_unpack _). vm_compute. exact I.
  - apply (bool_decide_unpack _). vm_compute. exact I.
Defined.

(** The state vector of an update with one block per client holds, for every
    client, the first clock the update has no content for (none when it is 0),
    provided the update does not begin with a Skip at clock 0. *)
Theorem stateVector_first_missing (u : bytes) (d : DecodedUpdate) (Hu : is_bytes u) (Hd : DecodeV1 u = Ok d)
    (Hone : one_block (Structs d)) (Hhead : no_leading_skip (Structs d)) (Hlen : is_u32 (Z.of_nat (length (Structs d)))) :
  ∃ sv, stateVectorFromUpdateV1 u = Ok sv ∧
    ∀ c, let m := sv_get sv c in
      (∀ x, 0 <= x < m → content d c x) ∧ ¬ content d c m ∧ 0 <= m ∧ (sv !! c = None ↔ m = 0).
Proof.
  destruct (stateVector_ok u d Hu Hd Hone Hhead Hlen) as (sv & Hsv & Hf & _). exists sv. split; [done|].
  intros c. destruct (Hf c) as [(H0 & Hin & Hout) Hne]. cbn zeta. split_and!; [done..|].
  unfold sv_get in *. destruct (sv !! c) as [k|]; cbn in *; [|done]. split; [done|]. intros ->. done.
Qed.

(** GC 0..2 and 3..4 of client 1, the gap a Skip. *)
Definition gap_update : bytes := [1; 3; 1; 0; 0; 2; 10; 1; 0; 1; 0].
Definition gap_decoded : DecodedUpdate :=
  mkDecoded [GC (mkBase (mkID 1 0) 2); Skip (mkBase (mkID 1 2) 1); GC (mkBase (mkID 1 3) 1)] (Some NewDeleteSet).

Lemma gap_mergeable_list : mergeable 1 0 (Structs gap_decoded).
Proof.
  split; [vm_compute; tauto|]. repeat apply Forall_cons_2; try apply Forall_nil_2;
    (split; [split; [apply (bool_decide_unpack _); vm_compute; exact I|exact I]|exact I]).
Qed.

Lemma gap_one_block : one_block (Structs gap_decoded).
Proof.
  exists [(1, Structs gap_decoded)]. split; [reflexivity|]. split; [apply NoDup_singleton|].
  apply Forall_singleton. split; [done|]. exists 0. apply gap_mergeable_list.
Qed.

Lemma stateVector_first_missing_witness : ∃ sv, stateVectorFromUpdateV1 gap_update = Ok sv ∧ sv_get sv 1 = 2 ∧
  ∀ c, let m := sv_get sv c in
    (∀ x, 0 <= x < m → content gap_decoded c x) ∧ ¬ content gap_decoded c m ∧ 0 <= m ∧ (sv !! c = None ↔ m = 0).
Proof.
  destruct (stateVector_first_missing gap_update gap_decoded) as (sv & H1 & H2).
  - apply (bool_decide_unpack _). vm_compute. exact I.
  - vm_compute. reflexivity.
  - apply gap_one_block.
  - intros s [= <-]. left. reflexivity.
  - apply (bool_decide_unpack _). vm_compute. exact I.
  - exists sv. split; [exact H1|]. split; [|exact H2].
    assert (E : stateVectorFromUpdateV1 gap_update = Ok {[ 1 := 2 ]}) by (vm_compute; reflexivity).
    rewrite H1 in E. injection E as ->. reflexivity.
Defined.

(** An update that begins with a Skip at clock 0: its state vector claims the
    clocks of the Skip, for which the update has no content. *)
Theorem stateVector_leading_skip :
  let u := [1; 1; 1; 0; 10; 5; 0] in
  stateVectorFromUpdateV1 u = Ok {[ 1 := 5 ]} ∧ ∃ d, DecodeV1 u = Ok d ∧ ∀ x, ¬ content d 1 x.
Proof.
  cbn zeta. split; [vm_compute; reflexivity|]. eexists. split; [vm_compute; reflexivity|].
  intros x. unfold content, has_content. cbn [Structs]. rewrite client_structs_all by (repeat constructor).
  rewrite holds_one. by intros [? _].
Qed.

(** The V1 and the V2 path disagree on gaps: for the same structs the V1 loop
    stops at the gap and the V2 function takes the last clock, although the
    update has no content at clock 2. *)
Theorem stateVectorFromStructs_counts_gaps :
  stateVectorFromUpdateV1 gap_update = Ok {[ 1 := 2 ]} ∧ DecodeV1 gap_update = Ok gap_decoded ∧
  stateVectorFromStructs (Structs gap_decoded) = {[ 1 := 4 ]} ∧
  stateVectorFromBlockSet (groupStructsByClient (Structs gap_decoded)) = {[ 1 := 4 ]} ∧ ¬ content gap_decoded 1 2.
Proof.
  split_and!; [vm_compute; reflexivity..|]. apply (bool_decide_unpack _). vm_compute. exact I.
Qed.

(** C30: [DiffUpdateV1] against any state vector: the result decodes, holds exactly
    the contents at or above the vector's clock of their client (also when the
    clock falls inside a struct), and keeps the delete set; it can be merged. *)
Theorem DiffUpdateV1_correct (u svb : bytes) (d : DecodedUpdate) (sv : stateVector) (s : IdSet)
    (Hu : is_bytes u) (Hsb : is_bytes svb) (Hd : DecodeV1 u = Ok d) (Hsv : DecodeStateVectorV1 svb = Ok sv)
    (Hone : one_block (Structs d)) (Hw : is_u32 (Z.of_nat (weight d)))
    (Hds : du_DeleteSet d = Some (mkDeleteSet (Some s))) (Hs : deletes_fine s) :
  ∃ u' d', DiffUpdateV1 u svb = Ok u' ∧ DecodeV1 u' = Ok d' ∧ mergeable_update d' ∧
    (∀ c x, content d' c x ↔ content d c x ∧ sv_get sv c <= x) ∧ du_DeleteSet d' = du_DeleteSet d.
Proof.
  destruct (Diff_ok u d svb sv s Hu Hd Hone Hw Hds Hs Hsv) as (u' & d' & ? & ? & ? & ? & ? & _); [|by exists u', d'].
  apply sv_get_range. by eapply DecodeStateVector_range.
Qed.

Lemma DiffUpdateV1_correct_witness : ∃ u' d', DiffUpdateV1 gap_update [1; 1; 1] = Ok u' ∧ DecodeV1 u' = Ok d' ∧
  (∀ c x, content d' c x ↔ content gap_decoded c x ∧ sv_get {[ 1 := 1 ]} c <= x).
Proof.
  destruct (DiffUpdateV1_correct gap_update [1; 1; 1] gap_decoded {[ 1 := 1 ]} IdSet_New) as (u' & d' & H1 & H2 & _ & H3 & _).
  - apply (bool_decide_unpack _). vm_compute. exact I.
  - apply (bool_decide_unpack _). vm_compute. exact I.
  - vm_compute. reflexivity.
  - vm_compute. reflexivity.
  - apply gap_one_block.
  - apply (bool_decide_unpack _). vm_compute. exact I.
  - reflexivity.
  - apply deletes_fine_new.
  - exists u', d'. split; [exact H1|]. split; [exact H2|exact H3].
Defined.

(** C14: One exchange of the sync protocol at the level of updates: the peer with
    update [v] sends its state vector, the other answers with the difference of
    [u], and merging the answer into [v] gives everything of both, whatever the
    state vector hid. *)
Theorem sync_exchange_complete (procs : Z) (run : gset nat) (u v : bytes) (du dv : DecodedUpdate)
    (Hu : is_bytes u) (Hv : is_bytes v) (Hdu : DecodeV1 u = Ok du) (Hdv : DecodeV1 v = Ok dv)
    (Hou : one_block (Structs du)) (Hov : one_block (Structs dv)) (Hhead : no_leading_skip (Structs dv))
    (Hmu : mergeable_update du) (Hmv : mergeable_update dv) (Hw : is_u32 (Z.of_nat (weight du + weight dv))) :
  ∃ svb answer m d, EncodeStateVectorFromUpdateV1 v = Ok svb ∧ DiffUpdateV1 u svb = Ok answer ∧
    MergeUpdatesV1 procs run [v; answer] = Ok m ∧ DecodeV1 m = Ok d ∧
    (∀ c x, content d c x ↔ content dv c x ∨ content du c x) ∧
    (∀ c x, deleted d c x ↔ deleted dv c x ∨ deleted du c x).
Proof.
  destruct (stateVector_ok v dv Hv Hdv Hov Hhead) as (sv & Hsv & Hf & Hrange & Hsize); [unfold weight in Hw; u32|].
  pose proof (stateVector_codec sv [] Hrange Hsize) as Hcodec. rewrite app_nil_r in Hcodec.
  destruct (mu_deletes du Hmu) as (s & Hds & Hs).
  destruct (Diff_ok u du (encodeStateVectorMap sv) sv s Hu Hdu Hou) as (u' & d' & Hdiff & Hd' & Hm' & Hc' & Hdel' & Hw');
    [u32|done..|by apply sv_get_range|].
  destruct (MergeUpdatesV1_spec procs {[0%nat; 1%nat]} [v; u'] [dv; d']) as (m & d & Hm & Hdm & _ & Hc & Hdl & _).
  { by do 2 (constructor; [done|]). } { by do 2 (constructor; [done|]). } { cbn [sum_list_with]. u32. }
  { intros _. left. intros i Hi. cbn in Hi. destruct i as [|[|i]]; [set_solver|set_solver|lia]. }
  exists (encodeStateVectorMap sv), u', m, d. split_and!; [|done| |done| |].
  - unfold EncodeStateVectorFromUpdateV1. by rewrite Hsv.
  - rewrite <- Hm. unfold MergeUpdatesV1, MergeUpdatesV1Context. rewrite !aggregate_small; done || (cbn; lia).
  - intros c x. rewrite Hc, !Exists_cons, Exists_nil, Hc'. destruct (Hf c) as [(_ & Hin & _) _].
    split; [tauto|]. intros [?|Hcx]; [by left|]. destruct (Z.leb_spec (sv_get sv c) x); [by right; left|].
    left. apply Hin. split; [|done].
    destruct Hou as (gs & Egs & Hgs). unfold content in Hcx. rewrite Egs in Hcx. apply content_loose in Hcx as (g & Hg & Hx); [|by apply groups_loose].
    destruct Hgs as [_ Hall]. rewrite Forall_forall in Hall. destruct (Hall _ Hg) as (Hne & k & Hch & Hgood). cbn in *.
    apply (chain_holds c k) in Hx; [|done..]. destruct g as [|t g]; [done|].
    apply chain_cons in Hch as (_ & <- & _). apply Forall_cons in Hgood as [Ht _]. pose proof (good_bounds t Ht) as (_ & ? & _). lia.
  - intros c x. rewrite Hdl, !Exists_cons, Exists_nil. unfold deleted at 2. rewrite Hdel'. fold (deleted du c x). tauto.
Qed.

Lemma gap_mergeable : mergeable_update gap_decoded.
Proof.
  pose proof gap_mergeable_list as [Hch Hg]. split.
  - exact Hg.
  - apply contiguous_intro. repeat apply Forall_cons_2; try apply Forall_nil_2; (exists 0; vm_compute; tauto).
  - repeat apply Forall_cons_2; try apply Forall_nil_2; (exists 0; apply (bool_decide_unpack _); vm_compute; exact I).
  - exists IdSet_New. split; [done|apply deletes_fine_new].
Qed.

(** The peer has 0..2 and 3..4 of client 1 and the other has 1..4. *)
Lemma sync_exchange_complete_witness : ∃ svb answer m d, EncodeStateVectorFromUpdateV1 gap_update = Ok svb ∧
  DiffUpdateV1 [1; 1; 1; 1; 0; 3; 0] svb = Ok answer ∧ MergeUpdatesV1 4 ∅ [gap_update; answer] = Ok m ∧ DecodeV1 m = Ok d ∧
  ∀ c x, content d c x ↔ content gap_decoded c x ∨
    content (mkDecoded [GC (mkBase (mkID 1 1) 3)] (Some NewDeleteSet)) c x.
Proof.
  assert (Hgc : wf_base (mkBase (mkID 1 1) 3)) by (apply (bool_decide_unpack _); vm_compute; exact I).
  destruct (sync_exchange_complete 4 ∅ [1; 1; 1; 1; 0; 3; 0] gap_update
    (mkDecoded [GC (mkBase (mkID 1 1) 3)] (Some NewDeleteSet)) gap_decoded) as (svb & a & m & d & H1 & H2 & H3 & H4 & H5 & _).
  - apply (bool_decide_unpack _). vm_compute. exact I.
  - apply (bool_decide_unpack _). vm_compute. exact I.
  - vm_compute. reflexivity.
  - vm_compute. reflexivity.
  - exists [(1, [GC (mkBase (mkID 1 1) 3)])]. split; [reflexivity|]. split; [apply NoDup_singleton|].
    apply Forall_singleton. split; [done|]. exists 1. split; [vm_compute; tauto|]. apply Forall_singleton. split; [split; [exact Hgc|exact I]|exact I].
  - apply gap_one_block.
  - intros s [= <-]. left. reflexivity.
  - split.
    + apply Forall_singleton. split; [split; [exact Hgc|exact I]|exact I].
    + apply contiguous_intro. repeat apply Forall_cons_2; try apply Forall_nil_2; (exists 1; vm_compute; tauto).
    + repeat apply Forall_cons_2; try apply Forall_nil_2; (exists 1; apply (bool_decide_unpack _); vm_compute; exact I).
    + exists IdSet_New. split; [done|apply deletes_fine_new].
  - apply gap_mergeable.
  - apply (bool_decide_unpack _). vm_compute. exact I.
  - exists svb, a, m, d. split_and!; [exact H1|exact H2|exact H3|exact H4|exact H5].
Defined.
