(* ===== verification/ContentIDs.v ===== *)
(** * internal/yupdate/content_ids.go

    The inserted and the deleted clocks of updates, as id sets.  The parser of
    the stable wire format works on slices: a function of the rest of the data.
    The functions that first detect the format of their inputs are in Facade;
    here is what they run on V1 updates. *)
From S2P Require Import Prelude GoError Binary Ranges IdSet Varint YTypes DeleteSet Content Update Aggregate.
Import varint.

Record ContentIDs := mkContentIDs { Inserts : option IdSet; Deletes : option IdSet }.

#[export] Instance ContentIDs_eq_dec : EqDecision ContentIDs.
Proof. solve_decision. Defined.

Definition NewContentIDs : ContentIDs := mkContentIDs (Some IdSet_New) (Some IdSet_New).

#[export] Instance ContentIDs_inhabited : Inhabited ContentIDs := populate NewContentIDs.

Definition ContentIDs_Clone (c : option ContentIDs) : ContentIDs :=
  match c with
  | None => NewContentIDs
  | Some c => mkContentIDs (Some (IdSet_Clone (Inserts c))) (Some (IdSet_Clone (Deletes c)))
  end.

Definition ContentIDs_IsEmpty (c : option ContentIDs) : bool :=
  match c with
  | None => true
  | Some c => IdSet_IsEmpty (Inserts c) && IdSet_IsEmpty (Deletes c)
  end.

(** ** Extraction *)

(** The insertion not added yet: [hasPending] and its range. *)
Record pendingInsert := mkPending { lastClient : Z; lastClock : Z; lastLen : Z }.

Definition flushInsert (inserts : IdSet) (p : option pendingInsert) : result IdSet :=
  match p with
  | None => Ok inserts
  | Some p =>
      match IdSet_add inserts (lastClient p) (lastClock p) (lastLen p) with
      | (s, None) => Ok s
      | (_, Some err) => Err err
      end
  end.

(** One struct: it extends the pending insertion or starts the next one. *)
Definition insert_step (st : IdSet * option pendingInsert) (current : UStruct) : result (IdSet * option pendingInsert) :=
  let '(inserts, p) := st in
  let fresh := mkPending (struct_client current) (struct_clock current) (struct_Length current) in
  match p with
  | Some q =>
      if (lastClient q =? struct_client current) && (lastClock q + lastLen q =? struct_clock current) then
        Ok (inserts, Some (mkPending (lastClient q) (lastClock q) (w32 (lastLen q + struct_Length current))))
      else
        inserts ← flushInsert inserts p;
        Ok (inserts, Some fresh)
  | None => Ok (inserts, Some fresh)
  end.

Fixpoint insert_loop_lazy (fuel : nat) (st : IdSet * option pendingInsert) : LM (IdSet * option pendingInsert) :=
  match fuel with
  | O => failL FuelExhausted
  | S fuel =>
      r ← getL;
      match LazyReader_Current r with
      | None => mret st
      | Some current =>
          st ← liftL (insert_step st current);
          _ ← LazyReader_Next;
          insert_loop_lazy fuel st
      end
  end.

(** The ranges of one client of the delete set. *)
Definition add_client (s : IdSet) (e : Z * list Range) : result IdSet :=
  let '(client, ranges) := e in
  fold_result (λ s r,
    match IdSet_add s client (r_Clock r) (r_Length r) with
    | (s, None) => Ok s
    | (_, Some err) => Err err
    end) ranges s.

Definition deletes_to_ids (ds : option DeleteSet) : result IdSet :=
  fold_result add_client (DeleteSet_ForEachClient ds) IdSet_New.

Definition ReadUpdateToContentIDsV1 (update : bytes) : result ContentIDs :=
  match NewLazyReaderV1 update true with
  | Err err => Err err
  | Ok reader =>
      fst (('(inserts, p) ← insert_loop_lazy (fuel_of reader) (IdSet_New, None);
            inserts ← liftL (flushInsert inserts p);
            deleteSet ← LazyReader_ReadDeleteSet;
            deletes ← liftL (deletes_to_ids deleteSet);
            mret (mkContentIDs (Some inserts) (Some deletes))) reader)
  end.

Definition CreateContentIDsFromUpdateV1 (update : bytes) : result ContentIDs := ReadUpdateToContentIDsV1 update.

Definition contentIDsFromDecodedUpdate (decoded : option DecodedUpdate) : result ContentIDs :=
  match decoded with
  | None => Ok NewContentIDs
  | Some decoded =>
      '(inserts, p) ← fold_result (λ st current, if isSkip current then Ok st else insert_step st current)
                        (Structs decoded) (IdSet_New, None);
      inserts ← flushInsert inserts p;
      deletes ← deletes_to_ids (du_DeleteSet decoded);
      Ok (mkContentIDs (Some inserts) (Some deletes))
  end.

(** ** Operations *)

(** Errors of [Add] are dropped. *)
Definition add_quiet (target : IdSet) (e : Z * list Range) : IdSet :=
  let '(client, ranges) := e in
  fold_left (λ target r, fst (IdSet_add target client (r_Clock r) (r_Length r))) ranges target.

Definition mergeSet (target : IdSet) (source : option IdSet) : IdSet :=
  match source with
  | None => target
  | Some _ => fold_left add_quiet (IdSet_ForEachClient source) target
  end.

Definition mergeContentIDs_step (out : IdSet * IdSet) (current : option ContentIDs) : IdSet * IdSet :=
  match current with
  | None => out
  | Some current => (mergeSet out.1 (Inserts current), mergeSet out.2 (Deletes current))
  end.

Definition MergeContentIDs (a : option ContentIDs) (b : list (option ContentIDs)) : ContentIDs :=
  let out := fold_left mergeContentIDs_step b (mergeContentIDs_step (IdSet_New, IdSet_New) a) in
  mkContentIDs (Some out.1) (Some out.2).

Definition IntersectContentIDs (a b : option ContentIDs) : ContentIDs :=
  match a, b with
  | Some a, Some b =>
      mkContentIDs (Some (IntersectSets (Inserts a) (Inserts b))) (Some (IntersectSets (Deletes a) (Deletes b)))
  | _, _ => NewContentIDs
  end.

Definition DiffContentIDs (subject remove : option ContentIDs) : ContentIDs :=
  match subject with
  | None => NewContentIDs
  | Some subject =>
      mkContentIDs (Some (SubtractSets (Inserts subject) (remove ≫= Inserts)))
                   (Some (SubtractSets (Deletes subject) (remove ≫= Deletes)))
  end.

(** A nil container panics unless the subject is nil. *)
Definition IsSubsetContentIDs (subject container : option ContentIDs) : result bool :=
  match subject with
  | None => Ok true
  | Some subject =>
      match container with
      | None => Err (Opaque "panic: invalid memory address or nil pointer dereference")
      | Some container =>
          Ok (IdSet_IsEmpty (Some (SubtractSets (Inserts subject) (Inserts container))) &&
              IdSet_IsEmpty (Some (SubtractSets (Deletes subject) (Deletes container))))
      end
  end.

(** ** The wire format *)

Definition appendIDSetToWire (dst : bytes) (set : option IdSet) : bytes :=
  let dst := Append dst (w32 (IdSet_ClientCount set)) in
  fold_left appendClientRanges (IdSet_ForEachClient set) dst.

Definition EncodeContentIDs (contentIDs : option ContentIDs) : bytes :=
  let contentIDs := default NewContentIDs contentIDs in
  appendIDSetToWire (appendIDSetToWire [] (Inserts contentIDs)) (Deletes contentIDs).

(** [fmt.Errorf("%w: %v", err, ErrInvalidContentIDsPayload)]: the operand of [%w]
    is the cause, the package's error is only text. *)
Definition invalidPayload (err : error) : error := Wrapped "%w: yupdate: payload de content ids invalido" err.

Definition decode_uint (rest : bytes) : result (Z * bytes) :=
  match Decode rest with
  | (Err err, _) => Err (invalidPayload err)
  | (Ok v, consumed) => Ok (v, drop consumed rest)
  end.

Fixpoint decode_ranges (n : nat) (client : Z) (out : IdSet) (rest : bytes) : result (IdSet * bytes) :=
  match n with
  | O => Ok (out, rest)
  | S n =>
      '(clock, rest) ← decode_uint rest;
      '(length, rest) ← decode_uint rest;
      match IdSet_add out client clock length with
      | (_, Some err) => Err (Wrapped "%w: adicionar range: yupdate: payload de content ids invalido" err)
      | (out, None) => decode_ranges n client out rest
      end
  end.

Fixpoint decode_clients (n : nat) (out : IdSet) (rest : bytes) : result (IdSet * bytes) :=
  match n with
  | O => Ok (out, rest)
  | S n =>
      '(client, rest) ← decode_uint rest;
      '(rangeCount, rest) ← decode_uint rest;
      '(out, rest) ← decode_ranges (Z.to_nat rangeCount) client out rest;
      decode_clients n out rest
  end.

(** The number of bytes consumed is returned as the rest of the data. *)
Definition decodeContentIDSet (data : bytes) : result (IdSet * bytes) :=
  '(clientCount, rest) ← decode_uint data;
  decode_clients (Z.to_nat clientCount) IdSet_New rest.

Definition DecodeContentIDs (data : bytes) : result ContentIDs :=
  '(inserts, remaining) ← decodeContentIDSet data;
  '(deletes, remaining) ← decodeContentIDSet remaining;
  match remaining with
  | [] => Ok (mkContentIDs (Some inserts) (Some deletes))
  | _ => Err yupdate_ErrContentIDsTrailingBytes
  end.

(** ** Several updates *)

Definition extractContentIDsFromUpdateV1 (update : bytes) : result ContentIDs :=
  match update with [] => Ok NewContentIDs | _ => CreateContentIDsFromUpdateV1 update end.

Definition insert_into (dest src : option IdSet) : result (option IdSet) :=
  match InsertIntoIdSet dest src with
  | (s, None) => Ok s
  | (_, Some err) => Err err
  end.

Definition mergePayload_step (out contentIDs : ContentIDs) : result ContentIDs :=
  if ContentIDs_IsEmpty (Some contentIDs) then Ok out
  else
    inserts ← insert_into (Inserts out) (Inserts contentIDs);
    deletes ← insert_into (Deletes out) (Deletes contentIDs);
    Ok (mkContentIDs inserts deletes).

Definition mergeContentIDPayloads (contents : list ContentIDs) : result ContentIDs :=
  fold_result mergePayload_step contents NewContentIDs.

(** [ContentIDsFromUpdatesContext] once the updates are known to be V1. *)
Definition ContentIDsFromUpdates_V1 (procs : Z) (delivered : gset nat) (ctxErr : option error) (updates : list bytes)
    : result ContentIDs :=
  aggregatePayloadsInParallel extractContentIDsFromUpdateV1 mergeContentIDPayloads procs 0 delivered ctxErr updates.

(** * internal/yupdate/intersect.go

    The closure [skipCurrentClient] and the loops of
    [IntersectUpdateWithContentIDsV1Context] as functions of the reader, the
    writer, the ranges not passed yet ([ranges[rangeIdx:]]), [nextClock] and
    [firstWrite].  The context is looked at once. *)

Record intersectState := mkIntersect { nextClock : Z; firstWrite : bool; i_writer : lazyWriterV1 }.

(** [current] is dropped while it is of the client. *)
Fixpoint skipCurrentClient (fuel : nat) (client : Z) (r : LazyReaderV1) : result LazyReaderV1 :=
  match LazyReader_Current r with
  | Some current =>
      if struct_client current =? client then
        match fuel with
        | O => Err FuelExhausted
        | S fuel => r ← read_next r; skipCurrentClient fuel client r
        end
      else Ok r
  | None => Ok r
  end.

(** Ranges that end before the struct. *)
Fixpoint pass_ranges (currentClock : Z) (ranges : list Range) : list Range :=
  match ranges with
  | r :: rest => if Range_End r <=? currentClock then pass_ranges currentClock rest else ranges
  | [] => []
  end.

(** The Skip between the last write and a segment. *)
Definition write_gap (client : Z) (st : intersectState) (segmentStart : Z) : result lazyWriterV1 :=
  if firstWrite st && (nextClock st <? segmentStart) then
    skip ← NewSkip (mkID client (nextClock st)) (w32 (segmentStart - nextClock st));
    write_struct (i_writer st) skip 0 0
  else Ok (i_writer st).

(** The loop over the ranges for one struct; true when the rest of the client is to be dropped. *)
Fixpoint intersect_ranges (client : Z) (current : UStruct) (st : intersectState) (ranges : list Range)
    : result (intersectState * list Range * bool) :=
  let currentClock := struct_clock current in
  let currentEndClock := struct_EndClock current in
  match ranges with
  | [] => Ok (st, [], false)
  | currentRange :: rest =>
      if currentEndClock <=? r_Clock currentRange then
        Ok (st, ranges, negb (firstWrite st) && (r_Clock currentRange =? currentEndClock))
      else
        let segmentStart := Z.max (r_Clock currentRange) currentClock in
        let segmentEnd := Z.min (Range_End currentRange) currentEndClock in
        if (currentEndClock <=? segmentStart) || (segmentEnd <=? segmentStart) then Ok (st, ranges, false)
        else
          w ← write_gap client st segmentStart;
          let startOffset := w32 (segmentStart - currentClock) in
          let endTrim := w32 (currentEndClock - segmentEnd) in
          w ← write_struct w current startOffset endTrim;
          let st := mkIntersect (w32 segmentEnd) true w in
          if Range_End currentRange <=? currentEndClock then intersect_ranges client current st rest
          else Ok (st, ranges, false)
  end.

(** The structs of one client. *)
Fixpoint intersect_client (fuel : nat) (client : Z) (st : intersectState) (ranges : list Range) (r : LazyReaderV1)
    : result (intersectState * LazyReaderV1) :=
  match LazyReader_Current r with
  | Some current =>
      if struct_client current =? client then
        match fuel with
        | O => Err FuelExhausted
        | S fuel =>
            let ranges := pass_ranges (struct_clock current) ranges in
            '(st, ranges, stopClient) ← intersect_ranges client current st ranges;
            if stopClient : bool then
              r ← skipCurrentClient (S fuel) client r; Ok (st, r)
            else
              r ← read_next r;
              intersect_client fuel client st ranges r
        end
      else Ok (st, r)
  | None => Ok (st, r)
  end.

Fixpoint intersect_loop (fuel : nat) (contentIDs : ContentIDs) (w : lazyWriterV1) (r : LazyReaderV1)
    : result (lazyWriterV1 * LazyReaderV1) :=
  match LazyReader_Current r with
  | None => Ok (w, r)
  | Some current =>
      match fuel with
      | O => Err FuelExhausted
      | S fuel =>
          let client := struct_client current in
          let ranges := IdSet_Ranges (Inserts contentIDs) client in
          '(st, r) ← intersect_client (S fuel) client (mkIntersect (struct_clock current) false w) ranges r;
          intersect_loop fuel contentIDs (i_writer st) r
      end
  end.

Definition intersectDeleteSetWithIDs (ds : option DeleteSet) (ids : option IdSet) : DeleteSet :=
  match ds, ids with
  | None, _ | _, None => NewDeleteSet
  | Some _, Some _ =>
      let deleteIDs := fold_left add_quiet ((λ c, (c, DeleteSet_Ranges ds c)) <$> DeleteSet_Clients ds) IdSet_New in
      let intersection := IntersectSets (Some deleteIDs) ids in
      fold_left (λ result client,
        fold_left (λ result r, fst (DeleteSet_Add result client (r_Clock r) (r_Length r)))
          (IdSet_Ranges (Some intersection) client) result)
        (IdSet_Clients (Some intersection)) NewDeleteSet
  end.

Definition IntersectUpdateWithContentIDsV1Context (ctxErr : option error) (update : bytes) (contentIDs : option ContentIDs)
    : result bytes :=
  match ctxErr with
  | Some err => Err err
  | None =>
      let contentIDs := default NewContentIDs contentIDs in
      reader ← NewLazyReaderV1 update true;
      '(writer, reader) ← intersect_loop (fuel_of reader) contentIDs newLazyWriterV1 reader;
      deleteSet ← fst (LazyReader_ReadDeleteSet reader);
      let filteredDeleteSet := intersectDeleteSetWithIDs deleteSet (Deletes contentIDs) in
      out ← fst (writer_finish writer []);
      Ok (AppendDeleteSetBlockV1 out (Some filteredDeleteSet))
  end.

Definition IntersectUpdateWithContentIDsV1 (update : bytes) (contentIDs : option ContentIDs) : result bytes :=
  IntersectUpdateWithContentIDsV1Context None update contentIDs.
