(* ===== verification/StorageTypes.v ===== *)
(** * pkg/storage: keys, records and their validation

    types.go, distributed.go and errors.go.  Strings are byte lists, records are
    values: [Clone] is the identity on them, and the code clones every record it
    keeps or returns. *)
From S2P Require Import Prelude GoError GoText.

Record DocumentKey := mkDocumentKey { Namespace : bytes; DocumentID : bytes }.

#[export] Instance DocumentKey_eq_dec : EqDecision DocumentKey.
Proof. solve_decision. Defined.

Lemma DocumentKey_eta k : mkDocumentKey (Namespace k) (DocumentID k) = k.
Proof. by destruct k. Qed.

#[export] Instance DocumentKey_countable : Countable DocumentKey :=
  inj_countable' (λ k, (Namespace k, DocumentID k)) (λ p, mkDocumentKey p.1 p.2) DocumentKey_eta.

Definition DocumentKey_Validate (k : DocumentKey) : option error :=
  if is_blank (DocumentID k) then Some (Wrapped "%w: documentID obrigatorio" storage_ErrInvalidDocumentKey) else None.

Abbreviation ShardID := bytes (only parsing).
Abbreviation NodeID := bytes (only parsing).
Abbreviation UpdateOffset := Z (only parsing).

Definition ShardID_Validate (id : ShardID) : option error :=
  if is_blank id then Some (Wrapped "%w: shardID obrigatorio" storage_ErrInvalidShardID) else None.

Definition NodeID_Validate (id : NodeID) : option error :=
  if is_blank id then Some (Wrapped "%w: nodeID obrigatorio" storage_ErrInvalidNodeID) else None.

(** ** Update log *)

Record UpdateLogRecord := mkUpdateLogRecord {
  ul_Key : DocumentKey; ul_Offset : UpdateOffset; UpdateV2 : bytes; UpdateV1 : bytes; ul_Epoch : Z; ul_StoredAt : Z }.

#[export] Instance UpdateLogRecord_eq_dec : EqDecision UpdateLogRecord.
Proof. solve_decision. Defined.

Definition UpdateLogRecord_Validate (r : UpdateLogRecord) : option error :=
  match DocumentKey_Validate (ul_Key r) with
  | Some err => Some err
  | None =>
      match UpdateV2 r, UpdateV1 r with
      | [], [] => Some (Wrapped "%w: update obrigatorio" storage_ErrInvalidUpdatePayload)
      | _, _ => None
      end
  end.

(** ** Placements *)

Record PlacementRecord := mkPlacement { pl_Key : DocumentKey; pl_ShardID : ShardID; Version : Z; UpdatedAt : Z }.

#[export] Instance PlacementRecord_eq_dec : EqDecision PlacementRecord.
Proof. solve_decision. Defined.

Definition PlacementRecord_Validate (r : PlacementRecord) : option error :=
  match DocumentKey_Validate (pl_Key r) with
  | Some err => Some err
  | None => ShardID_Validate (pl_ShardID r)
  end.

(** ** Leases *)

Record OwnerInfo := mkOwner { o_NodeID : NodeID; o_Epoch : Z }.

#[export] Instance OwnerInfo_eq_dec : EqDecision OwnerInfo.
Proof. solve_decision. Defined.

(** [fmt.Errorf("%w: %v", ErrInvalidOwnerInfo, err)]: the cause is only text. *)
Definition OwnerInfo_Validate (o : OwnerInfo) : option error :=
  match NodeID_Validate (o_NodeID o) with
  | Some _ => Some (Wrapped "%w: %v" storage_ErrInvalidOwnerInfo)
  | None => if o_Epoch o =? 0 then Some (Wrapped "%w: epoch obrigatorio" storage_ErrInvalidOwnerInfo) else None
  end.

Record LeaseRecord := mkLease {
  l_ShardID : ShardID; l_Owner : OwnerInfo; l_Token : bytes; AcquiredAt : Z; ExpiresAt : Z }.

#[export] Instance LeaseRecord_eq_dec : EqDecision LeaseRecord.
Proof. solve_decision. Defined.

Definition LeaseRecord_Validate (r : LeaseRecord) : option error :=
  match ShardID_Validate (l_ShardID r) with
  | Some err => Some err
  | None =>
      match OwnerInfo_Validate (l_Owner r) with
      | Some err => Some err
      | None =>
          if is_blank (l_Token r) then Some (Wrapped "%w: token obrigatorio" storage_ErrInvalidLeaseToken)
          else if IsZero (ExpiresAt r) then Some (Wrapped "%w: expiresAt obrigatorio" storage_ErrInvalidLeaseExpiry)
          else if negb (IsZero (AcquiredAt r)) && negb (After (ExpiresAt r) (AcquiredAt r))
          then Some (Wrapped "%w: expiresAt deve ser apos acquiredAt" storage_ErrInvalidLeaseExpiry)
          else None
      end
  end.

Record AuthorityFence := mkFence { af_ShardID : ShardID; af_Owner : OwnerInfo; af_Token : bytes }.

#[export] Instance AuthorityFence_eq_dec : EqDecision AuthorityFence.
Proof. solve_decision. Defined.

Definition AuthorityFence_Validate (f : AuthorityFence) : option error :=
  match ShardID_Validate (af_ShardID f) with
  | Some err => Some err
  | None =>
      match OwnerInfo_Validate (af_Owner f) with
      | Some err => Some err
      | None => if is_blank (af_Token f) then Some (Wrapped "%w: token obrigatorio" storage_ErrInvalidLeaseToken) else None
      end
  end.

(** [NewLeaseStaleEpochError]. *)
Definition NewLeaseStaleEpochError (shardID : ShardID) (current incoming : Z) : error :=
  GoError.LeaseStaleEpochError shardID current incoming.
