(* ===== verification/NodeFrame.v ===== *)
(** * pkg/ynodeproto: the frames exchanged between nodes

    types.go and frame.go: an 8-byte header (version, message type, flags and
    payload length, big endian) and a payload.  A decoded payload that
    references the source buffer (the View functions) has the same value as a
    copy, because nothing writes to the buffer.  [int] has 64 bits. *)
From S2P Require Import Prelude GoError Binary.

(** ** types.go *)

Definition Version1 : Z := 1.
Definition CurrentVersion : Z := Version1.
Definition HeaderSize : Z := 8.

Definition FlagNone : Z := 0.
Definition FlagPersistOnClose : Z := 1.
Definition FlagCloseRetryable : Z := 2.
Definition FlagSupportsUpdateV2 : Z := 4.

Definition MessageTypeHandshake : Z := 1.
Definition MessageTypeHandshakeAck : Z := 2.
Definition MessageTypeDocumentSyncRequest : Z := 16.
Definition MessageTypeDocumentSyncResponse : Z := 17.
Definition MessageTypeDocumentUpdate : Z := 18.
Definition MessageTypeAwarenessUpdate : Z := 19.
Definition MessageTypeQueryAwarenessRequest : Z := 20.
Definition MessageTypeQueryAwarenessResponse : Z := 21.
Definition MessageTypeDisconnect : Z := 22.
Definition MessageTypeClose : Z := 23.
Definition MessageTypeDocumentSyncResponseV2 : Z := 24.
Definition MessageTypeDocumentUpdateV2 : Z := 25.
Definition MessageTypeDocumentSyncRequestV2 : Z := 26.
Definition MessageTypeDocumentUpdateV2FromEdge : Z := 27.
Definition MessageTypePing : Z := 240.
Definition MessageTypePong : Z := 241.

(** The cases of [MessageType.Valid]. *)
Definition known_types : list Z :=
  [MessageTypeHandshake; MessageTypeHandshakeAck; MessageTypeDocumentSyncRequest; MessageTypeDocumentSyncResponse;
   MessageTypeDocumentUpdate; MessageTypeAwarenessUpdate; MessageTypeQueryAwarenessRequest;
   MessageTypeQueryAwarenessResponse; MessageTypeDisconnect; MessageTypeClose; MessageTypeDocumentSyncResponseV2;
   MessageTypeDocumentUpdateV2; MessageTypeDocumentSyncRequestV2; MessageTypeDocumentUpdateV2FromEdge;
   MessageTypePing; MessageTypePong].

Definition MessageType_Valid (t : Z) : bool := existsb (Z.eqb t) known_types.

(** ** frame.go *)

Definition maxHeaderPayloadLength : Z := MaxUint32.
Definition maxIntValue : Z := 9223372036854775807.

Record Header := mkHeader { h_Version : Z; h_Type : Z; h_Flags : Z; h_PayloadLength : Z }.

#[export] Instance Header_eq_dec : EqDecision Header.
Proof. solve_decision. Defined.

Definition Header_Validate (h : Header) : option error :=
  if negb (h_Version h =? CurrentVersion) then Some (Wrapped "%w: %d" ynodeproto_ErrUnsupportedVersion)
  else if negb (MessageType_Valid (h_Type h)) then Some (Wrapped "%w: %d" ynodeproto_ErrUnknownMessageType)
  else None.

Definition NewHeader (typ flags payloadLength : Z) : result Header :=
  if payloadLength <? 0 then Err ynodeproto_ErrInvalidPayloadLength
  else if maxHeaderPayloadLength <? payloadLength then Err (Wrapped "%w: %d" ynodeproto_ErrPayloadTooLarge)
  else
    let header := mkHeader CurrentVersion typ flags (w32 payloadLength) in
    match Header_Validate header with Some err => Err err | None => Ok header end.

Definition AppendHeader (dst : bytes) (header : Header) : result bytes :=
  match Header_Validate header with
  | Some err => Err err
  | None => Ok (dst ++ [h_Version header; h_Type header] ++ put_be 2 (h_Flags header) ++ put_be 4 (h_PayloadLength header))
  end.

Definition EncodeHeader (header : Header) : result bytes := AppendHeader [] header.

Definition DecodeHeader (src : bytes) : result Header :=
  if Z.of_nat (length src) <? HeaderSize then Err (Wrapped "%w: precisa=%d recebeu=%d" ynodeproto_ErrIncompleteHeader)
  else
    let header := mkHeader (nth 0 src 0) (nth 1 src 0) (get_be (take 2 (drop 2 src))) (get_be (take 4 (drop 4 src))) in
    match Header_Validate header with Some err => Err err | None => Ok header end.

Record Frame := mkFrame { f_Header : Header; f_Payload : bytes }.

#[export] Instance Frame_eq_dec : EqDecision Frame.
Proof. solve_decision. Defined.

Definition NewFrame (typ flags : Z) (payload : bytes) : result Frame :=
  header ← NewHeader typ flags (Z.of_nat (length payload));
  Ok (mkFrame header payload).

Definition Frame_Validate (f : option Frame) : option error :=
  match f with
  | None => Some (Sentinel ynodeproto_ErrNilFrame)
  | Some f =>
      match Header_Validate (f_Header f) with
      | Some err => Some err
      | None =>
          if maxHeaderPayloadLength <? Z.of_nat (length (f_Payload f)) then Some (Wrapped "%w: %d" ynodeproto_ErrPayloadTooLarge)
          else if negb (h_PayloadLength (f_Header f) =? w32 (Z.of_nat (length (f_Payload f))))
          then Some (Wrapped "%w: header=%d payload=%d" ynodeproto_ErrPayloadLengthMismatch)
          else None
      end
  end.

Definition AppendFrame (dst : bytes) (frame : option Frame) : result bytes :=
  match Frame_Validate frame, frame with
  | Some err, _ => Err err
  | None, Some frame => dst ← AppendHeader dst (f_Header frame); Ok (dst ++ f_Payload frame)
  | None, None => Err ynodeproto_ErrNilFrame
  end.

Definition EncodeFrame (frame : option Frame) : result bytes :=
  match frame with None => Err ynodeproto_ErrNilFrame | Some _ => AppendFrame [] frame end.

Definition encodedFrameSize (header : Header) : result Z :=
  if maxIntValue - HeaderSize <? h_PayloadLength header then Err (Wrapped "%w: %d" ynodeproto_ErrPayloadTooLarge)
  else Ok (HeaderSize + h_PayloadLength header).

Definition decodeFramePrefix (src : bytes) : result (Frame * Z) :=
  header ← DecodeHeader src;
  totalSize ← encodedFrameSize header;
  if Z.of_nat (length src) <? totalSize then Err (Wrapped "%w: precisa=%d recebeu=%d" ynodeproto_ErrIncompletePayload)
  else
    let frame := mkFrame header (take (Z.to_nat (totalSize - HeaderSize)) (drop (Z.to_nat HeaderSize) src)) in
    match Frame_Validate (Some frame) with Some err => Err err | None => Ok (frame, totalSize) end.

Definition DecodeFramePrefix (src : bytes) : result (Frame * Z) := decodeFramePrefix src.
Definition DecodeFramePrefixView (src : bytes) : result (Frame * Z) := decodeFramePrefix src.

Definition exact_frame (src : bytes) (decoded : result (Frame * Z)) : result Frame :=
  '(frame, consumed) ← decoded;
  if negb (consumed =? Z.of_nat (length src)) then Err (Wrapped "%w: consumiu=%d total=%d" ynodeproto_ErrTrailingBytes)
  else Ok frame.

Definition DecodeFrame (src : bytes) : result Frame := exact_frame src (DecodeFramePrefix src).
Definition DecodeFrameView (src : bytes) : result Frame := exact_frame src (DecodeFramePrefixView src).
