(* ===== verification/NodeMessage.v ===== *)
(** * pkg/ynodeproto/message.go: the typed payloads

    One record per message, the four methods of the [Message] interface as an
    instance of the class [IsMessage], the sum of all messages (the interface is
    closed: it has an unexported method) and one decoder per type.  A nil
    message is [None] where the code accepts an interface value. *)
From S2P Require Import Prelude GoError Binary Varint GoText StorageTypes NodeFrame.
Import varint.

(** The interface [Message]. *)
Class IsMessage (A : Type) := {
  msg_Type : Z;
  msg_FrameFlags : A → Z;
  msg_Validate : A → option error;
  msg_appendPayload : bytes → A → result bytes }.
Arguments msg_Type A {_}.

Definition wrapParseError (op : string) (offset : Z) (err : error) : error := ParseError PkgYNodeProto op offset err.

(** ** Validation *)

Definition validateRoute (key : DocumentKey) (connectionID : bytes) (epoch : Z) : option error :=
  match DocumentKey_Validate key with
  | Some err => Some err
  | None =>
      if is_blank connectionID then Some (Sentinel ynodeproto_ErrInvalidConnectionID)
      else if epoch =? 0 then Some (Sentinel ynodeproto_ErrInvalidEpoch)
      else None
  end.

Definition validateNodeRoute (nodeID : bytes) (key : DocumentKey) (connectionID : bytes) (epoch : Z) : option error :=
  if is_blank nodeID then Some (Sentinel ynodeproto_ErrInvalidNodeID) else validateRoute key connectionID epoch.

Definition validateRoutedBody (key : DocumentKey) (connectionID : bytes) (epoch : Z) (body : bytes) : option error :=
  match validateRoute key connectionID epoch with
  | Some err => Some err
  | None => match body with [] => Some (Sentinel ynodeproto_ErrMissingPayload) | _ => None end
  end.

(** ** Writing fields *)

Definition fixedUint64Size : Z := 8.
Definition fixedUint32Size : Z := 4.

Definition appendUint64 (dst : bytes) (value : Z) : bytes := dst ++ put_be 8 value.
Definition appendUint32 (dst : bytes) (value : Z) : bytes := dst ++ put_be 4 value.

Definition appendString (dst value : bytes) : result bytes :=
  if maxHeaderPayloadLength <? Z.of_nat (length value) then Err (Wrapped "%w: %d" ynodeproto_ErrPayloadTooLarge)
  else Ok (Append dst (w32 (Z.of_nat (length value))) ++ value).

Definition appendDocumentKey (dst : bytes) (key : DocumentKey) : result bytes :=
  dst ← appendString dst (Namespace key);
  appendString dst (DocumentID key).

Definition appendRoutedRoute (dst : bytes) (key : DocumentKey) (connectionID : bytes) (epoch : Z) : result bytes :=
  dst ← appendDocumentKey dst key;
  dst ← appendString dst connectionID;
  Ok (appendUint64 dst epoch).

Definition appendRoutedPayload (dst : bytes) (key : DocumentKey) (connectionID : bytes) (epoch : Z) (body : bytes) : result bytes :=
  dst ← appendRoutedRoute dst key connectionID epoch;
  Ok (dst ++ body).

(** ** Reading fields *)

Definition readString (op : string) : RM bytes :=
  start ← getOffset;
  length ← catch ReadU (λ _ err, wrapParseError (op +:+ ".len") start err);
  catch (ReadN length) (λ off err, wrapParseError op off err).

Definition readNodeID (op : string) : RM bytes :=
  start ← getOffset;
  nodeID ← readString op;
  if is_blank nodeID then fail (wrapParseError op start ynodeproto_ErrInvalidNodeID) else mret nodeID.

Definition readDocumentKey (op : string) : RM DocumentKey :=
  start ← getOffset;
  namespace ← readString (op +:+ ".namespace");
  documentID ← readString (op +:+ ".documentID");
  let key := mkDocumentKey namespace documentID in
  match DocumentKey_Validate key with
  | Some err => fail (wrapParseError op start err)
  | None => mret key
  end.

Definition readUint64 (op : string) : RM Z :=
  start ← getOffset;
  raw ← catch (ReadN fixedUint64Size) (λ _ err, wrapParseError op start err);
  mret (get_be raw).

Definition readUint32 (op : string) : RM Z :=
  start ← getOffset;
  raw ← catch (ReadN fixedUint32Size) (λ _ err, wrapParseError op start err);
  mret (get_be raw).

Definition readOptionalUint32 (op : string) : RM Z :=
  remaining ← getRemaining;
  if remaining =? 0 then mret 0 else readUint32 op.

Definition readRemainingBytes : RM bytes :=
  remaining ← getRemaining;
  if remaining =? 0 then mret [] else catch (ReadN remaining) (λ off err, wrapParseError "readRemainingBytes" off err).

Record routedRoute := mkRoute { rr_DocumentKey : DocumentKey; rr_ConnectionID : bytes; rr_Epoch : Z }.
Record routedPayload := mkRouted { rp_route : routedRoute; rp_Body : bytes }.

Definition readRoutedRoute (keyOp connectionOp epochOp : string) : RM routedRoute :=
  key ← readDocumentKey keyOp;
  connectionID ← readString connectionOp;
  epoch ← readUint64 epochOp;
  mret (mkRoute key connectionID epoch).

Definition readRoutedPayload (keyOp connectionOp epochOp : string) : RM routedPayload :=
  route ← readRoutedRoute keyOp connectionOp epochOp;
  body ← readRemainingBytes;
  mret (mkRouted route body).

(** [if err := message.Validate(); err != nil { return nil, wrapParseError(op, r.Offset(), err) }]. *)
Definition validated {A} `{IsMessage A} (op : string) (m : A) : RM A :=
  off ← getOffset;
  match msg_Validate m with
  | Some err => fail (wrapParseError op off err)
  | None => mret m
  end.

(** ** The messages and their methods *)

Record Handshake := mkHandshake {
  Handshake_Flags : Z; Handshake_NodeID : bytes; Handshake_DocumentKey : DocumentKey;
    Handshake_ConnectionID : bytes; Handshake_ClientID : Z; Handshake_Epoch : Z }.

#[export] Instance Handshake_eq_dec : EqDecision Handshake.
Proof. solve_decision. Defined.

#[export] Instance Handshake_Message : IsMessage Handshake := {|
  msg_Type := MessageTypeHandshake;
  msg_FrameFlags m := Handshake_Flags m;
  msg_Validate m := validateNodeRoute (Handshake_NodeID m) (Handshake_DocumentKey m) (Handshake_ConnectionID m)
    (Handshake_Epoch m);
  msg_appendPayload dst m :=
    dst ← appendString dst (Handshake_NodeID m);
    dst ← appendDocumentKey dst (Handshake_DocumentKey m);
    dst ← appendString dst (Handshake_ConnectionID m);
    Ok (appendUint32 (appendUint64 dst (Handshake_Epoch m)) (Handshake_ClientID m)) |}.

Record HandshakeAck := mkHandshakeAck {
  HandshakeAck_Flags : Z; HandshakeAck_NodeID : bytes; HandshakeAck_DocumentKey : DocumentKey;
    HandshakeAck_ConnectionID : bytes; HandshakeAck_ClientID : Z; HandshakeAck_Epoch : Z }.

#[export] Instance HandshakeAck_eq_dec : EqDecision HandshakeAck.
Proof. solve_decision. Defined.

#[export] Instance HandshakeAck_Message : IsMessage HandshakeAck := {|
  msg_Type := MessageTypeHandshakeAck;
  msg_FrameFlags m := HandshakeAck_Flags m;
  msg_Validate m := validateNodeRoute (HandshakeAck_NodeID m) (HandshakeAck_DocumentKey m)
    (HandshakeAck_ConnectionID m) (HandshakeAck_Epoch m);
  msg_appendPayload dst m :=
    dst ← appendString dst (HandshakeAck_NodeID m);
    dst ← appendDocumentKey dst (HandshakeAck_DocumentKey m);
    dst ← appendString dst (HandshakeAck_ConnectionID m);
    Ok (appendUint32 (appendUint64 dst (HandshakeAck_Epoch m)) (HandshakeAck_ClientID m)) |}.

Record DocumentSyncRequest := mkDocumentSyncRequest {
  DocumentSyncRequest_Flags : Z; DocumentSyncRequest_DocumentKey : DocumentKey;
    DocumentSyncRequest_ConnectionID : bytes; DocumentSyncRequest_Epoch : Z;
      DocumentSyncRequest_StateVector : bytes }.

#[export] Instance DocumentSyncRequest_eq_dec : EqDecision DocumentSyncRequest.
Proof. solve_decision. Defined.

#[export] Instance DocumentSyncRequest_Message : IsMessage DocumentSyncRequest := {|
  msg_Type := MessageTypeDocumentSyncRequest;
  msg_FrameFlags m := DocumentSyncRequest_Flags m;
  msg_Validate m := validateRoutedBody (DocumentSyncRequest_DocumentKey m) (DocumentSyncRequest_ConnectionID m)
    (DocumentSyncRequest_Epoch m) (DocumentSyncRequest_StateVector m);
  msg_appendPayload dst m := appendRoutedPayload dst (DocumentSyncRequest_DocumentKey m)
    (DocumentSyncRequest_ConnectionID m) (DocumentSyncRequest_Epoch m) (DocumentSyncRequest_StateVector m) |}.

Record DocumentSyncRequestV2 := mkDocumentSyncRequestV2 {
  DocumentSyncRequestV2_Flags : Z; DocumentSyncRequestV2_DocumentKey : DocumentKey;
    DocumentSyncRequestV2_ConnectionID : bytes; DocumentSyncRequestV2_Epoch : Z;
      DocumentSyncRequestV2_StateVector : bytes }.

#[export] Instance DocumentSyncRequestV2_eq_dec : EqDecision DocumentSyncRequestV2.
Proof. solve_decision. Defined.

#[export] Instance DocumentSyncRequestV2_Message : IsMessage DocumentSyncRequestV2 := {|
  msg_Type := MessageTypeDocumentSyncRequestV2;
  msg_FrameFlags m := DocumentSyncRequestV2_Flags m;
  msg_Validate m := validateRoutedBody (DocumentSyncRequestV2_DocumentKey m)
    (DocumentSyncRequestV2_ConnectionID m) (DocumentSyncRequestV2_Epoch m) (DocumentSyncRequestV2_StateVector m);
  msg_appendPayload dst m := appendRoutedPayload dst (DocumentSyncRequestV2_DocumentKey m)
    (DocumentSyncRequestV2_ConnectionID m) (DocumentSyncRequestV2_Epoch m) (DocumentSyncRequestV2_StateVector m) |}.

Record DocumentSyncResponse := mkDocumentSyncResponse {
  DocumentSyncResponse_Flags : Z; DocumentSyncResponse_DocumentKey : DocumentKey;
    DocumentSyncResponse_ConnectionID : bytes; DocumentSyncResponse_Epoch : Z;
      DocumentSyncResponse_UpdateV1 : bytes }.

#[export] Instance DocumentSyncResponse_eq_dec : EqDecision DocumentSyncResponse.
Proof. solve_decision. Defined.

#[export] Instance DocumentSyncResponse_Message : IsMessage DocumentSyncResponse := {|
  msg_Type := MessageTypeDocumentSyncResponse;
  msg_FrameFlags m := DocumentSyncResponse_Flags m;
  msg_Validate m := validateRoutedBody (DocumentSyncResponse_DocumentKey m) (DocumentSyncResponse_ConnectionID m)
    (DocumentSyncResponse_Epoch m) (DocumentSyncResponse_UpdateV1 m);
  msg_appendPayload dst m := appendRoutedPayload dst (DocumentSyncResponse_DocumentKey m)
    (DocumentSyncResponse_ConnectionID m) (DocumentSyncResponse_Epoch m) (DocumentSyncResponse_UpdateV1 m) |}.

Record DocumentSyncResponseV2 := mkDocumentSyncResponseV2 {
  DocumentSyncResponseV2_Flags : Z; DocumentSyncResponseV2_DocumentKey : DocumentKey;
    DocumentSyncResponseV2_ConnectionID : bytes; DocumentSyncResponseV2_Epoch : Z;
      DocumentSyncResponseV2_UpdateV2 : bytes }.

#[export] Instance DocumentSyncResponseV2_eq_dec : EqDecision DocumentSyncResponseV2.
Proof. solve_decision. Defined.

#[export] Instance DocumentSyncResponseV2_Message : IsMessage DocumentSyncResponseV2 := {|
  msg_Type := MessageTypeDocumentSyncResponseV2;
  msg_FrameFlags m := DocumentSyncResponseV2_Flags m;
  msg_Validate m := validateRoutedBody (DocumentSyncResponseV2_DocumentKey m)
    (DocumentSyncResponseV2_ConnectionID m) (DocumentSyncResponseV2_Epoch m) (DocumentSyncResponseV2_UpdateV2 m);
  msg_appendPayload dst m := appendRoutedPayload dst (DocumentSyncResponseV2_DocumentKey m)
    (DocumentSyncResponseV2_ConnectionID m) (DocumentSyncResponseV2_Epoch m) (DocumentSyncResponseV2_UpdateV2 m) |}.

Record DocumentUpdate := mkDocumentUpdate {
  DocumentUpdate_Flags : Z; DocumentUpdate_DocumentKey : DocumentKey; DocumentUpdate_ConnectionID : bytes;
    DocumentUpdate_Epoch : Z; DocumentUpdate_UpdateV1 : bytes }.

#[export] Instance DocumentUpdate_eq_dec : EqDecision DocumentUpdate.
Proof. solve_decision. Defined.

#[export] Instance DocumentUpdate_Message : IsMessage DocumentUpdate := {|
  msg_Type := MessageTypeDocumentUpdate;
  msg_FrameFlags m := DocumentUpdate_Flags m;
  msg_Validate m := validateRoutedBody (DocumentUpdate_DocumentKey m) (DocumentUpdate_ConnectionID m)
    (DocumentUpdate_Epoch m) (DocumentUpdate_UpdateV1 m);
  msg_appendPayload dst m := appendRoutedPayload dst (DocumentUpdate_DocumentKey m)
    (DocumentUpdate_ConnectionID m) (DocumentUpdate_Epoch m) (DocumentUpdate_UpdateV1 m) |}.

Record DocumentUpdateV2 := mkDocumentUpdateV2 {
  DocumentUpdateV2_Flags : Z; DocumentUpdateV2_DocumentKey : DocumentKey; DocumentUpdateV2_ConnectionID : bytes;
    DocumentUpdateV2_Epoch : Z; DocumentUpdateV2_UpdateV2 : bytes }.

#[export] Instance DocumentUpdateV2_eq_dec : EqDecision DocumentUpdateV2.
Proof. solve_decision. Defined.

#[export] Instance DocumentUpdateV2_Message : IsMessage DocumentUpdateV2 := {|
  msg_Type := MessageTypeDocumentUpdateV2;
  msg_FrameFlags m := DocumentUpdateV2_Flags m;
  msg_Validate m := validateRoutedBody (DocumentUpdateV2_DocumentKey m) (DocumentUpdateV2_ConnectionID m)
    (DocumentUpdateV2_Epoch m) (DocumentUpdateV2_UpdateV2 m);
  msg_appendPayload dst m := appendRoutedPayload dst (DocumentUpdateV2_DocumentKey m)
    (DocumentUpdateV2_ConnectionID m) (DocumentUpdateV2_Epoch m) (DocumentUpdateV2_UpdateV2 m) |}.

Record DocumentUpdateV2FromEdge := mkDocumentUpdateV2FromEdge {
  DocumentUpdateV2FromEdge_Flags : Z; DocumentUpdateV2FromEdge_DocumentKey : DocumentKey;
    DocumentUpdateV2FromEdge_ConnectionID : bytes; DocumentUpdateV2FromEdge_Epoch : Z;
      DocumentUpdateV2FromEdge_UpdateV2 : bytes }.

#[export] Instance DocumentUpdateV2FromEdge_eq_dec : EqDecision DocumentUpdateV2FromEdge.
Proof. solve_decision. Defined.

#[export] Instance DocumentUpdateV2FromEdge_Message : IsMessage DocumentUpdateV2FromEdge := {|
  msg_Type := MessageTypeDocumentUpdateV2FromEdge;
  msg_FrameFlags m := DocumentUpdateV2FromEdge_Flags m;
  msg_Validate m := validateRoutedBody (DocumentUpdateV2FromEdge_DocumentKey m)
    (DocumentUpdateV2FromEdge_ConnectionID m) (DocumentUpdateV2FromEdge_Epoch m)
      (DocumentUpdateV2FromEdge_UpdateV2 m);
  msg_appendPayload dst m := appendRoutedPayload dst (DocumentUpdateV2FromEdge_DocumentKey m)
    (DocumentUpdateV2FromEdge_ConnectionID m) (DocumentUpdateV2FromEdge_Epoch m)
      (DocumentUpdateV2FromEdge_UpdateV2 m) |}.

Record AwarenessUpdate := mkAwarenessUpdate {
  AwarenessUpdate_Flags : Z; AwarenessUpdate_DocumentKey : DocumentKey; AwarenessUpdate_ConnectionID : bytes;
    AwarenessUpdate_Epoch : Z; AwarenessUpdate_Payload : bytes }.

#[export] Instance AwarenessUpdate_eq_dec : EqDecision AwarenessUpdate.
Proof. solve_decision. Defined.

#[export] Instance AwarenessUpdate_Message : IsMessage AwarenessUpdate := {|
  msg_Type := MessageTypeAwarenessUpdate;
  msg_FrameFlags m := AwarenessUpdate_Flags m;
  msg_Validate m := validateRoutedBody (AwarenessUpdate_DocumentKey m) (AwarenessUpdate_ConnectionID m)
    (AwarenessUpdate_Epoch m) (AwarenessUpdate_Payload m);
  msg_appendPayload dst m := appendRoutedPayload dst (AwarenessUpdate_DocumentKey m)
    (AwarenessUpdate_ConnectionID m) (AwarenessUpdate_Epoch m) (AwarenessUpdate_Payload m) |}.

Record QueryAwarenessRequest := mkQueryAwarenessRequest {
  QueryAwarenessRequest_Flags : Z; QueryAwarenessRequest_DocumentKey : DocumentKey;
    QueryAwarenessRequest_ConnectionID : bytes; QueryAwarenessRequest_Epoch : Z }.

#[export] Instance QueryAwarenessRequest_eq_dec : EqDecision QueryAwarenessRequest.
Proof. solve_decision. Defined.

#[export] Instance QueryAwarenessRequest_Message : IsMessage QueryAwarenessRequest := {|
  msg_Type := MessageTypeQueryAwarenessRequest;
  msg_FrameFlags m := QueryAwarenessRequest_Flags m;
  msg_Validate m := validateRoute (QueryAwarenessRequest_DocumentKey m) (QueryAwarenessRequest_ConnectionID m)
    (QueryAwarenessRequest_Epoch m);
  msg_appendPayload dst m := appendRoutedRoute dst (QueryAwarenessRequest_DocumentKey m)
    (QueryAwarenessRequest_ConnectionID m) (QueryAwarenessRequest_Epoch m) |}.

Record QueryAwarenessResponse := mkQueryAwarenessResponse {
  QueryAwarenessResponse_Flags : Z; QueryAwarenessResponse_DocumentKey : DocumentKey;
    QueryAwarenessResponse_ConnectionID : bytes; QueryAwarenessResponse_Epoch : Z;
      QueryAwarenessResponse_Payload : bytes }.

#[export] Instance QueryAwarenessResponse_eq_dec : EqDecision QueryAwarenessResponse.
Proof. solve_decision. Defined.

#[export] Instance QueryAwarenessResponse_Message : IsMessage QueryAwarenessResponse := {|
  msg_Type := MessageTypeQueryAwarenessResponse;
  msg_FrameFlags m := QueryAwarenessResponse_Flags m;
  msg_Validate m := validateRoutedBody (QueryAwarenessResponse_DocumentKey m)
    (QueryAwarenessResponse_ConnectionID m) (QueryAwarenessResponse_Epoch m) (QueryAwarenessResponse_Payload m);
  msg_appendPayload dst m := appendRoutedPayload dst (QueryAwarenessResponse_DocumentKey m)
    (QueryAwarenessResponse_ConnectionID m) (QueryAwarenessResponse_Epoch m) (QueryAwarenessResponse_Payload m) |}.

Record Disconnect := mkDisconnect {
  Disconnect_Flags : Z; Disconnect_DocumentKey : DocumentKey; Disconnect_ConnectionID : bytes; Disconnect_Epoch : Z }.

#[export] Instance Disconnect_eq_dec : EqDecision Disconnect.
Proof. solve_decision. Defined.

#[export] Instance Disconnect_Message : IsMessage Disconnect := {|
  msg_Type := MessageTypeDisconnect;
  msg_FrameFlags m := Disconnect_Flags m;
  msg_Validate m := validateRoute (Disconnect_DocumentKey m) (Disconnect_ConnectionID m) (Disconnect_Epoch m);
  msg_appendPayload dst m := appendRoutedRoute dst (Disconnect_DocumentKey m) (Disconnect_ConnectionID m)
    (Disconnect_Epoch m) |}.

Record Close := mkClose {
  Close_Flags : Z; Close_DocumentKey : DocumentKey; Close_ConnectionID : bytes; Close_Epoch : Z;
    Close_Retryable : bool; Close_Reason : bytes }.

#[export] Instance Close_eq_dec : EqDecision Close.
Proof. solve_decision. Defined.

#[export] Instance Close_Message : IsMessage Close := {|
  msg_Type := MessageTypeClose;
  msg_FrameFlags m :=
    let flags := Z.ldiff (Close_Flags m) FlagCloseRetryable in
    if Close_Retryable m then Z.lor flags FlagCloseRetryable else flags;
  msg_Validate m := validateRoute (Close_DocumentKey m) (Close_ConnectionID m) (Close_Epoch m);
  msg_appendPayload dst m :=
    dst ← appendRoutedRoute dst (Close_DocumentKey m) (Close_ConnectionID m) (Close_Epoch m);
    if is_blank (Close_Reason m) then Ok dst else appendString dst (Close_Reason m) |}.

Record Ping := mkPing {
  Ping_Flags : Z; Ping_Nonce : Z }.

#[export] Instance Ping_eq_dec : EqDecision Ping.
Proof. solve_decision. Defined.

#[export] Instance Ping_Message : IsMessage Ping := {|
  msg_Type := MessageTypePing;
  msg_FrameFlags m := Ping_Flags m;
  msg_Validate m := if Ping_Nonce m =? 0 then Some (Sentinel ynodeproto_ErrInvalidNonce) else None;
  msg_appendPayload dst m := Ok (appendUint64 dst (Ping_Nonce m)) |}.

Record Pong := mkPong {
  Pong_Flags : Z; Pong_Nonce : Z }.

#[export] Instance Pong_eq_dec : EqDecision Pong.
Proof. solve_decision. Defined.

#[export] Instance Pong_Message : IsMessage Pong := {|
  msg_Type := MessageTypePong;
  msg_FrameFlags m := Pong_Flags m;
  msg_Validate m := if Pong_Nonce m =? 0 then Some (Sentinel ynodeproto_ErrInvalidNonce) else None;
  msg_appendPayload dst m := Ok (appendUint64 dst (Pong_Nonce m)) |}.

(** ** Messages *)

Inductive Message :=
| MHandshake (m : Handshake)
| MHandshakeAck (m : HandshakeAck)
| MDocumentSyncRequest (m : DocumentSyncRequest)
| MDocumentSyncRequestV2 (m : DocumentSyncRequestV2)
| MDocumentSyncResponse (m : DocumentSyncResponse)
| MDocumentSyncResponseV2 (m : DocumentSyncResponseV2)
| MDocumentUpdate (m : DocumentUpdate)
| MDocumentUpdateV2 (m : DocumentUpdateV2)
| MDocumentUpdateV2FromEdge (m : DocumentUpdateV2FromEdge)
| MAwarenessUpdate (m : AwarenessUpdate)
| MQueryAwarenessRequest (m : QueryAwarenessRequest)
| MQueryAwarenessResponse (m : QueryAwarenessResponse)
| MDisconnect (m : Disconnect)
| MClose (m : Close)
| MPing (m : Ping)
| MPong (m : Pong).

#[export] Instance Message_eq_dec : EqDecision Message.
Proof. solve_decision. Defined.

(** The methods of the interface, dispatched on the dynamic type. *)
Definition with_message {B} (f : ∀ A, IsMessage A → A → B) (m : Message) : B :=
  match m with
  | MHandshake m => f _ _ m
  | MHandshakeAck m => f _ _ m
  | MDocumentSyncRequest m => f _ _ m
  | MDocumentSyncRequestV2 m => f _ _ m
  | MDocumentSyncResponse m => f _ _ m
  | MDocumentSyncResponseV2 m => f _ _ m
  | MDocumentUpdate m => f _ _ m
  | MDocumentUpdateV2 m => f _ _ m
  | MDocumentUpdateV2FromEdge m => f _ _ m
  | MAwarenessUpdate m => f _ _ m
  | MQueryAwarenessRequest m => f _ _ m
  | MQueryAwarenessResponse m => f _ _ m
  | MDisconnect m => f _ _ m
  | MClose m => f _ _ m
  | MPing m => f _ _ m
  | MPong m => f _ _ m
  end.

Definition Message_Type : Message → Z := with_message (λ A _ _, msg_Type A).
Definition Message_FrameFlags : Message → Z := with_message (λ A _ m, msg_FrameFlags m).
Definition Message_Validate : Message → option error := with_message (λ A _ m, msg_Validate m).
Definition Message_appendPayload (dst : bytes) : Message → result bytes := with_message (λ A _ m, msg_appendPayload
  dst m).

(** ** Decoders of the payloads *)

Definition decodeHandshake (flags : Z) : RM Handshake :=
  nodeID ← readNodeID "ReadHandshake.nodeID";
  key ← readDocumentKey "ReadHandshake.documentKey";
  connectionID ← readString "ReadHandshake.connectionID";
  epoch ← readUint64 "ReadHandshake.epoch";
  clientID ← readOptionalUint32 "ReadHandshake.clientID";
  validated "ReadHandshake.validate" (mkHandshake flags nodeID key connectionID clientID epoch).

Definition decodeHandshakeAck (flags : Z) : RM HandshakeAck :=
  nodeID ← readNodeID "ReadHandshakeAck.nodeID";
  key ← readDocumentKey "ReadHandshakeAck.documentKey";
  connectionID ← readString "ReadHandshakeAck.connectionID";
  epoch ← readUint64 "ReadHandshakeAck.epoch";
  clientID ← readOptionalUint32 "ReadHandshakeAck.clientID";
  validated "ReadHandshakeAck.validate" (mkHandshakeAck flags nodeID key connectionID clientID epoch).

Definition decodeDocumentSyncRequest (flags : Z) : RM DocumentSyncRequest :=
  routed ← readRoutedPayload "ReadDocumentSyncRequest.documentKey" "ReadDocumentSyncRequest.connectionID"
    "ReadDocumentSyncRequest.epoch";
  let route := rp_route routed in
  validated "ReadDocumentSyncRequest.validate" (mkDocumentSyncRequest flags (rr_DocumentKey route)
    (rr_ConnectionID route) (rr_Epoch route) (rp_Body routed)).

Definition decodeDocumentSyncRequestV2 (flags : Z) : RM DocumentSyncRequestV2 :=
  routed ← readRoutedPayload "ReadDocumentSyncRequestV2.documentKey" "ReadDocumentSyncRequestV2.connectionID"
    "ReadDocumentSyncRequestV2.epoch";
  let route := rp_route routed in
  validated "ReadDocumentSyncRequestV2.validate" (mkDocumentSyncRequestV2 flags (rr_DocumentKey route)
    (rr_ConnectionID route) (rr_Epoch route) (rp_Body routed)).

Definition decodeDocumentSyncResponse (flags : Z) : RM DocumentSyncResponse :=
  routed ← readRoutedPayload "ReadDocumentSyncResponse.documentKey" "ReadDocumentSyncResponse.connectionID"
    "ReadDocumentSyncResponse.epoch";
  let route := rp_route routed in
  validated "ReadDocumentSyncResponse.validate" (mkDocumentSyncResponse flags (rr_DocumentKey route)
    (rr_ConnectionID route) (rr_Epoch route) (rp_Body routed)).

Definition decodeDocumentSyncResponseV2 (flags : Z) : RM DocumentSyncResponseV2 :=
  routed ← readRoutedPayload "ReadDocumentSyncResponseV2.documentKey" "ReadDocumentSyncResponseV2.connectionID"
    "ReadDocumentSyncResponseV2.epoch";
  let route := rp_route routed in
  validated "ReadDocumentSyncResponseV2.validate" (mkDocumentSyncResponseV2 flags (rr_DocumentKey route)
    (rr_ConnectionID route) (rr_Epoch route) (rp_Body routed)).

Definition decodeDocumentUpdate (flags : Z) : RM DocumentUpdate :=
  routed ← readRoutedPayload "ReadDocumentUpdate.documentKey" "ReadDocumentUpdate.connectionID"
    "ReadDocumentUpdate.epoch";
  let route := rp_route routed in
  validated "ReadDocumentUpdate.validate" (mkDocumentUpdate flags (rr_DocumentKey route) (rr_ConnectionID route)
    (rr_Epoch route) (rp_Body routed)).

Definition decodeDocumentUpdateV2 (flags : Z) : RM DocumentUpdateV2 :=
  routed ← readRoutedPayload "ReadDocumentUpdateV2.documentKey" "ReadDocumentUpdateV2.connectionID"
    "ReadDocumentUpdateV2.epoch";
  let route := rp_route routed in
  validated "ReadDocumentUpdateV2.validate" (mkDocumentUpdateV2 flags (rr_DocumentKey route)
    (rr_ConnectionID route) (rr_Epoch route) (rp_Body routed)).

Definition decodeDocumentUpdateV2FromEdge (flags : Z) : RM DocumentUpdateV2FromEdge :=
  routed ← readRoutedPayload "ReadDocumentUpdateV2FromEdge.documentKey" "ReadDocumentUpdateV2FromEdge.connectionID"
    "ReadDocumentUpdateV2FromEdge.epoch";
  let route := rp_route routed in
  validated "ReadDocumentUpdateV2FromEdge.validate" (mkDocumentUpdateV2FromEdge flags (rr_DocumentKey route)
    (rr_ConnectionID route) (rr_Epoch route) (rp_Body routed)).

Definition decodeAwarenessUpdate (flags : Z) : RM AwarenessUpdate :=
  routed ← readRoutedPayload "ReadAwarenessUpdate.documentKey" "ReadAwarenessUpdate.connectionID"
    "ReadAwarenessUpdate.epoch";
  let route := rp_route routed in
  validated "ReadAwarenessUpdate.validate" (mkAwarenessUpdate flags (rr_DocumentKey route) (rr_ConnectionID route)
    (rr_Epoch route) (rp_Body routed)).

Definition decodeQueryAwarenessRequest (flags : Z) : RM QueryAwarenessRequest :=
  route ← readRoutedRoute "ReadQueryAwarenessRequest.documentKey" "ReadQueryAwarenessRequest.connectionID"
    "ReadQueryAwarenessRequest.epoch";
  validated "ReadQueryAwarenessRequest.validate" (mkQueryAwarenessRequest flags (rr_DocumentKey route)
    (rr_ConnectionID route) (rr_Epoch route)).

Definition decodeQueryAwarenessResponse (flags : Z) : RM QueryAwarenessResponse :=
  routed ← readRoutedPayload "ReadQueryAwarenessResponse.documentKey" "ReadQueryAwarenessResponse.connectionID"
    "ReadQueryAwarenessResponse.epoch";
  let route := rp_route routed in
  validated "ReadQueryAwarenessResponse.validate" (mkQueryAwarenessResponse flags (rr_DocumentKey route)
    (rr_ConnectionID route) (rr_Epoch route) (rp_Body routed)).

Definition decodeDisconnect (flags : Z) : RM Disconnect :=
  route ← readRoutedRoute "ReadDisconnect.documentKey" "ReadDisconnect.connectionID" "ReadDisconnect.epoch";
  validated "ReadDisconnect.validate" (mkDisconnect flags (rr_DocumentKey route) (rr_ConnectionID route)
    (rr_Epoch route)).

Definition decodeClose (flags : Z) : RM Close :=
  route ← readRoutedRoute "ReadClose.documentKey" "ReadClose.connectionID" "ReadClose.epoch";
  remaining ← getRemaining;
  reason ← (if 0 <? remaining then readString "ReadClose.reason" else mret []);
  validated "ReadClose.validate" (mkClose flags (rr_DocumentKey route) (rr_ConnectionID route) (rr_Epoch route)
    (negb (Z.land flags FlagCloseRetryable =? 0)) reason).

Definition decodePing (flags : Z) : RM Ping :=
  nonce ← readUint64 "ReadPing.nonce";
  validated "ReadPing.validate" (mkPing flags nonce).

Definition decodePong (flags : Z) : RM Pong :=
  nonce ← readUint64 "ReadPong.nonce";
  validated "ReadPong.validate" (mkPong flags nonce).

(** The switch of [DecodeMessagePayload]. *)
Definition decodeTyped (typ flags : Z) : RM Message :=
  if typ =? MessageTypeHandshake then (m ← decodeHandshake flags; mret (MHandshake m)) else
  if typ =? MessageTypeHandshakeAck then (m ← decodeHandshakeAck flags; mret (MHandshakeAck m)) else
  if typ =? MessageTypeDocumentSyncRequest then (m ← decodeDocumentSyncRequest flags;
    mret (MDocumentSyncRequest m)) else
  if typ =? MessageTypeDocumentSyncResponse then (m ← decodeDocumentSyncResponse flags;
    mret (MDocumentSyncResponse m)) else
  if typ =? MessageTypeDocumentUpdate then (m ← decodeDocumentUpdate flags; mret (MDocumentUpdate m)) else
  if typ =? MessageTypeDocumentSyncResponseV2 then (m ← decodeDocumentSyncResponseV2 flags;
    mret (MDocumentSyncResponseV2 m)) else
  if typ =? MessageTypeDocumentUpdateV2 then (m ← decodeDocumentUpdateV2 flags; mret (MDocumentUpdateV2 m)) else
  if typ =? MessageTypeDocumentSyncRequestV2 then (m ← decodeDocumentSyncRequestV2 flags;
    mret (MDocumentSyncRequestV2 m)) else
  if typ =? MessageTypeDocumentUpdateV2FromEdge then (m ← decodeDocumentUpdateV2FromEdge flags;
    mret (MDocumentUpdateV2FromEdge m)) else
  if typ =? MessageTypeAwarenessUpdate then (m ← decodeAwarenessUpdate flags; mret (MAwarenessUpdate m)) else
  if typ =? MessageTypeQueryAwarenessRequest then (m ← decodeQueryAwarenessRequest flags;
    mret (MQueryAwarenessRequest m)) else
  if typ =? MessageTypeQueryAwarenessResponse then (m ← decodeQueryAwarenessResponse flags;
    mret (MQueryAwarenessResponse m)) else
  if typ =? MessageTypeDisconnect then (m ← decodeDisconnect flags; mret (MDisconnect m)) else
  if typ =? MessageTypeClose then (m ← decodeClose flags; mret (MClose m)) else
  if typ =? MessageTypePing then (m ← decodePing flags; mret (MPing m)) else
  if typ =? MessageTypePong then (m ← decodePong flags; mret (MPong m)) else
  fail (Wrapped "%w: %d" ynodeproto_ErrUnknownMessageType).

(** ** Payloads and frames *)

Definition EncodeMessagePayload (message : option Message) : result bytes :=
  match message with
  | None => Err ynodeproto_ErrNilMessage
  | Some message =>
      match Message_Validate message with
      | Some err => Err err
      | None => Message_appendPayload [] message
      end
  end.

Definition NewMessageFrame (message : option Message) : result Frame :=
  payload ← EncodeMessagePayload message;
  match message with
  | None => Err ynodeproto_ErrNilMessage
  | Some message => NewFrame (Message_Type message) (Message_FrameFlags message) payload
  end.

Definition EncodeMessageFrame (message : option Message) : result bytes :=
  payload ← EncodeMessagePayload message;
  match message with
  | None => Err ynodeproto_ErrNilMessage
  | Some message =>
      header ← NewHeader (Message_Type message) (Message_FrameFlags message) (Z.of_nat (length payload));
      dst ← AppendHeader [] header;
      Ok (dst ++ payload)
  end.

Definition DecodeMessagePayload (typ flags : Z) (payload : bytes) : result Message :=
  if negb (MessageType_Valid typ) then Err (Wrapped "%w: %d" ynodeproto_ErrUnknownMessageType)
  else
    match decodeTyped typ flags (NewReader payload) with
    | (Err err, _) => Err err
    | (Ok message, reader) =>
        if negb (Remaining reader =? 0)
        then Err (wrapParseError "DecodeMessagePayload.trailing" (Offset reader) ynodeproto_ErrTrailingPayloadBytes)
        else Ok message
    end.

Definition DecodeFrameMessage (frame : option Frame) : result Message :=
  match Frame_Validate frame, frame with
  | Some err, _ => Err err
  | None, Some frame => DecodeMessagePayload (h_Type (f_Header frame)) (h_Flags (f_Header frame)) (f_Payload frame)
  | None, None => Err ynodeproto_ErrNilFrame
  end.

Definition DecodeMessageFrame (src : bytes) : result Message :=
  frame ← DecodeFrame src; DecodeFrameMessage (Some frame).

Definition DecodeMessageFrameView (src : bytes) : result Message :=
  frame ← DecodeFrameView src; DecodeFrameMessage (Some frame).
