(* ===== verification/NodeSpec.v ===== *)
(** * What the node protocol guarantees

    Big endian integers, the header and the frame prefix in both directions, the
    fields of a payload, and the decoders that read to the end of their payload
    ([reads_all]); then frames on a stream, the round trip of every message, and
    the shape of whatever is accepted. *)
From S2P Require Import Prelude GoError Binary Varint GoText YTypes Decoder DecoderFacts StorageTypes NodeFrame NodeMessage.
Import varint.

Definition is_u64 (z : Z) : Prop := 0 <= z < 18446744073709551616.
#[export] Instance is_u64_dec z : Decision (is_u64 z).
Proof. unfold is_u64. apply _. Defined.

(** ** Headers and frames *)

Definition enc_header (h : Header) : bytes :=
  [h_Version h; h_Type h] ++ put_be 2 (h_Flags h) ++ put_be 4 (h_PayloadLength h).

Definition enc_frame (f : Frame) : bytes := enc_header (f_Header f) ++ f_Payload f.

Definition header_ok (h : Header) : Prop :=
  Header_Validate h = None ∧ is_u16 (h_Flags h) ∧ is_u32 (h_PayloadLength h).

Definition frame_ok (f : Frame) : Prop :=
  header_ok (f_Header f) ∧ is_bytes (f_Payload f) ∧ h_PayloadLength (f_Header f) = Z.of_nat (length (f_Payload f)).

Lemma length_enc_header h : length (enc_header h) = 8%nat.
Proof. unfold enc_header. by rewrite !length_app, !length_put_be. Qed.

Lemma DecodeHeader_encoded h rest : header_ok h → DecodeHeader (enc_header h ++ rest) = Ok h.
Proof.
  intros (Hv & Hf & Hp). unfold DecodeHeader, HeaderSize. rewrite length_app, length_enc_header.
  case_if; [lia|]. destruct h as [v t fl pl]. set (src := _ ++ rest). cbn [h_Version h_Type h_Flags h_PayloadLength] in *.
  assert (take 2 (drop 2 src) = put_be 2 fl) as -> by reflexivity.
  assert (take 4 (drop 4 src) = put_be 4 pl) as -> by reflexivity.
  rewrite !get_put_be by (unfold is_u16, is_u32 in *; cbn; lia). cbn [src nth enc_header h_Version h_Type app]. by rewrite Hv.
Qed.

Lemma Header_Validate_inv h : Header_Validate h = None → h_Version h = 1 ∧ MessageType_Valid (h_Type h) = true.
Proof.
  unfold Header_Validate, CurrentVersion, Version1. destruct (Z.eqb_spec (h_Version h) 1); [|done].
  by destruct (MessageType_Valid _).
Qed.

Lemma DecodeHeader_sound src h : is_bytes src → DecodeHeader src = Ok h →
  header_ok h ∧ src = enc_header h ++ drop 8 src.
Proof.
  intros Hb. unfold DecodeHeader, HeaderSize. case_if; [done|].
  destruct src as [|b0 [|b1 [|b2 [|b3 [|b4 [|b5 [|b6 [|b7 rest]]]]]]]]; cbn [length] in *; try lia.
  cbn [nth take drop]. change (take 0 rest) with (@nil Z). destruct (Header_Validate _) eqn:E; [done|]. intros [= <-].
  assert (is_bytes [b2; b3] ∧ is_bytes [b4; b5; b6; b7]) as [H1 H2].
  { repeat match goal with H : is_bytes (_ :: _) |- _ => apply Forall_cons in H as [??] end.
    split; repeat apply Forall_cons_2; try apply Forall_nil_2; done. }
  split.
  - split_and!; [done| |].
    + pose proof (get_be_range _ H1) as R. cbn [length] in R. change (256 ^ Z.of_nat 2) with 65536 in R. exact R.
    + pose proof (get_be_range _ H2) as R. cbn [length] in R. change (256 ^ Z.of_nat 4) with 4294967296 in R. exact R.
  - unfold enc_header. cbn [h_Version h_Type h_Flags h_PayloadLength].
    pose proof (put_get_be _ H1) as E1. pose proof (put_get_be _ H2) as E2. cbn [length] in E1, E2. by rewrite E1, E2.
Qed.

Lemma Frame_Validate_ok f : header_ok (f_Header f) → Frame_Validate (Some f) = None ↔
  h_PayloadLength (f_Header f) = Z.of_nat (length (f_Payload f)).
Proof.
  intros (Hv & _ & Hp). unfold Frame_Validate, maxHeaderPayloadLength. rewrite Hv. case_if.
  - split; [done|]. u32.
  - rewrite w32_small by u32. destruct (Z.eqb_spec (h_PayloadLength (f_Header f)) (Z.of_nat (length (f_Payload f)))); done.
Qed.

Lemma encodedFrameSize_ok h : is_u32 (h_PayloadLength h) → encodedFrameSize h = Ok (8 + h_PayloadLength h).
Proof. intros H. unfold encodedFrameSize, maxIntValue, HeaderSize. case_if; [u32|done]. Qed.

Lemma decodeFramePrefix_encoded f rest : frame_ok f →
  decodeFramePrefix (enc_frame f ++ rest) = Ok (f, Z.of_nat (length (enc_frame f))).
Proof.
  intros (Hh & Hb & Hl). unfold decodeFramePrefix, enc_frame. rewrite <- app_assoc, DecodeHeader_encoded by done.
  cbn [mbind result_bind]. rewrite encodedFrameSize_ok by apply Hh. cbn [mbind result_bind].
  rewrite !length_app, length_enc_header, Hl. case_if; [lia|].
  rewrite drop_app_prefix by (by rewrite length_enc_header).
  rewrite take_app_prefix by (unfold HeaderSize; lia). destruct f as [h p]. cbn [f_Header f_Payload] in *.
  rewrite (proj2 (Frame_Validate_ok (mkFrame h p) Hh)) by done. repeat f_equal. lia.
Qed.

Lemma decodeFramePrefix_sound src f n : is_bytes src → decodeFramePrefix src = Ok (f, n) →
  frame_ok f ∧ n = Z.of_nat (length (enc_frame f)) ∧ src = enc_frame f ++ drop (Z.to_nat n) src.
Proof.
  intros Hb. unfold decodeFramePrefix. destruct (DecodeHeader src) as [h|] eqn:E; [|done]. cbn [mbind result_bind].
  apply DecodeHeader_sound in E as [Hh Hsrc]; [|done]. rewrite encodedFrameSize_ok by apply Hh. cbn [mbind result_bind].
  case_if; [done|]. destruct (Frame_Validate _) eqn:Ev; [done|]. intros [= <- <-].
  apply Frame_Validate_ok in Ev; [|done]. cbn [f_Header f_Payload] in Ev. unfold HeaderSize in *.
  change (Z.to_nat 8) with 8%nat in *. set (p := take _ _) in *.
  assert (Hn : Z.to_nat (8 + h_PayloadLength h - 8) = length p) by lia.
  assert (Hsplit : drop 8 src = p ++ drop (length p) (drop 8 src)).
  { unfold p at 1. rewrite Hn. by rewrite take_drop. }
  unfold enc_frame. cbn [f_Header f_Payload]. split_and!.
  - split_and!; [done| |done]. by apply Forall_take, Forall_drop.
  - rewrite length_app, length_enc_header. lia.
  - replace (Z.to_nat (8 + h_PayloadLength h)) with (8 + length p)%nat by lia.
    rewrite <- drop_drop, <- app_assoc, <- Hsplit. done.
Qed.

(** A strict prefix of a frame is reported as incomplete. *)
Lemma decodeFramePrefix_incomplete f k : frame_ok f → (k < length (enc_frame f))%nat →
  ∃ err, decodeFramePrefix (take k (enc_frame f)) = Err err ∧
    (errors_Is err ynodeproto_ErrIncompleteHeader || errors_Is err ynodeproto_ErrIncompletePayload) = true.
Proof.
  intros (Hh & Hb & Hl) Hk. unfold enc_frame in *. rewrite length_app, length_enc_header in Hk.
  unfold decodeFramePrefix. destruct (decide (k < 8)%nat) as [Hlt|Hge].
  - unfold DecodeHeader, HeaderSize. rewrite length_take, length_app, length_enc_header. case_if; [|lia]. by eexists.
  - rewrite take_app_ge by (rewrite length_enc_header; lia). rewrite DecodeHeader_encoded by done. cbn [mbind result_bind].
    rewrite encodedFrameSize_ok by apply Hh. cbn [mbind result_bind].
    rewrite length_app, length_take, length_enc_header. case_if; [by eexists|lia].
Qed.

(** ** Decoders that read to the end *)

Definition reads_all {A} (m : RM A) (bs : bytes) (a : A) : Prop :=
  ∀ r, wf_reader r → view r = bs → m r = (Ok a, advance (length bs) r).

Lemma reads_all_of {A} (m : RM A) bs a : reads m bs a → reads_all m bs a.
Proof. intros H r Hw Hv. apply (H r []); [done|]. by rewrite app_nil_r. Qed.

Lemma reads_all_bind {A B} (m : RM A) (k : A → RM B) bs1 bs2 a b :
  reads m bs1 a → reads_all (k a) bs2 b → reads_all (m ≫= k) (bs1 ++ bs2) b.
Proof.
  intros H1 H2 r Hw Hv. unfold mbind, RM_bind. rewrite (H1 _ _ Hw Hv).
  rewrite H2 by eauto with go. by rewrite advance_advance, length_app.
Qed.

(** Nothing is left for the continuation. *)
Lemma reads_all_bind_ret {A B} (m : RM A) (k : A → RM B) bs a b :
  reads_all m bs a → reads (k a) [] b → reads_all (m ≫= k) bs b.
Proof.
  intros H1 H2 r Hw Hv. unfold mbind, RM_bind. rewrite (H1 _ Hw Hv).
  rewrite (H2 _ []); [by rewrite advance_0| |].
  - apply (wf_advance r bs []); [done|]. by rewrite app_nil_r.
  - apply view_advance_app. by rewrite app_nil_r.
Qed.

Lemma Remaining_all r bs : wf_reader r → view r = bs → Remaining r = Z.of_nat (length bs).
Proof. intros Hw Hv. by rewrite <- length_view, Hv. Qed.

Lemma reads_all_remaining {B} (k : Z → RM B) bs b :
  reads_all (k (Z.of_nat (length bs))) bs b → reads_all (getRemaining ≫= k) bs b.
Proof.
  intros H r Hw Hv. unfold mbind, RM_bind, getRemaining. rewrite (Remaining_all r bs) by done. by apply H.
Qed.

Lemma parses_remaining {B} (k : Z → RM B) Q : (∀ n, parses (k n) Q) → parses (getRemaining ≫= k) Q.
Proof. intros H r b r' Hw Hb E. by apply (H _ _ _ _ Hw Hb E). Qed.

Lemma reads_all_run {A} (m : RM A) bs a : reads_all m bs a → m (NewReader bs) = (Ok a, advance (length bs) (NewReader bs)).
Proof. intros H. apply H; [apply wf_NewReader|done]. Qed.

(** ** Fields *)

Lemma reads_string op s : str_ok s → reads (NodeMessage.readString op) (enc_str s) s.
Proof.
  intros Hs. rewrite enc_str_eq by done. apply reads_offset. intros o.
  eapply reads_bind; [by apply reads_catch, reads_ReadU, Hs|]. by apply reads_catch, reads_ReadN.
Qed.

Lemma parses_string op : parses (NodeMessage.readString op) (λ bs s, bs = enc_str s ∧ str_ok s).
Proof.
  apply parses_offset. intros o. eapply parses_weaken.
  - eapply parses_bind; [apply parses_catch, parses_ReadU|]. intros n. apply parses_catch, parses_ReadN.
  - intros bs s (b1 & b2 & n & -> & [Hn ->] & -> & <- & Hb).
    assert (str_ok s) by done. by rewrite enc_str_eq.
Qed.

Lemma appendString_ok dst s : str_ok s → appendString dst s = Ok (dst ++ enc_str s).
Proof.
  intros Hs. unfold appendString, maxHeaderPayloadLength. destruct Hs as [Hl Hb]. case_if; [u32|].
  rewrite Append_app, w32_small, <- app_assoc, enc_str_eq by done. done.
Qed.

Definition key_ok (k : DocumentKey) : Prop := str_ok (Namespace k) ∧ str_ok (DocumentID k).
Definition enc_key (k : DocumentKey) : bytes := enc_str (Namespace k) ++ enc_str (DocumentID k).

#[export] Instance key_ok_dec k : Decision (key_ok k).
Proof. unfold key_ok. apply _. Defined.

Lemma appendDocumentKey_ok dst k : key_ok k → appendDocumentKey dst k = Ok (dst ++ enc_key k).
Proof.
  intros [H1 H2]. unfold appendDocumentKey. rewrite appendString_ok by done. cbn [mbind result_bind].
  rewrite appendString_ok by done. unfold enc_key. by rewrite app_assoc.
Qed.

Lemma reads_key op k : key_ok k → DocumentKey_Validate k = None → reads (readDocumentKey op) (enc_key k) k.
Proof.
  intros [H1 H2] Hv. apply reads_offset. intros o. eapply reads_bind; [by apply reads_string|].
  eapply reads_bind_ret; [by apply reads_string|]. destruct k as [n d]. cbn [Namespace DocumentID]. rewrite Hv. apply reads_ret.
Qed.

Lemma parses_key op : parses (readDocumentKey op) (λ bs k, bs = enc_key k ∧ key_ok k ∧ DocumentKey_Validate k = None).
Proof.
  apply parses_offset. intros o. eapply parses_weaken.
  - eapply parses_bind; [apply parses_string|]. intros n. eapply (parses_bind _ _ _ (λ d bs k,
      bs = [] ∧ k = mkDocumentKey n d ∧ DocumentKey_Validate k = None)); [apply parses_string|]. intros d.
    cbn zeta. destruct (DocumentKey_Validate _) eqn:E.
    + eapply parses_weaken; [apply parses_fail|done].
    + eapply parses_weaken; [apply parses_ret|]. by intros ? ? [-> ->].
  - intros bs k (b1 & b2 & n & -> & [-> Hn] & b3 & b4 & d & -> & [-> Hd] & -> & -> & Hv).
    by rewrite app_nil_r.
Qed.

Lemma reads_be n op (f : bytes → Z) v : f = get_be → 0 <= v < 256 ^ Z.of_nat n →
  reads (start ← getOffset; raw ← catch (ReadN (Z.of_nat n)) (λ _ err, wrapParseError op start err); mret (f raw)) (put_be n v) v.
Proof.
  intros -> Hv. apply reads_offset. intros o. eapply reads_bind_ret.
  - apply reads_catch, reads_ReadN. by rewrite length_put_be.
  - rewrite get_put_be by done. apply reads_ret.
Qed.

Lemma parses_be n op :
  parses (start ← getOffset; raw ← catch (ReadN (Z.of_nat n)) (λ _ err, wrapParseError op start err); mret (get_be raw))
    (λ bs v, bs = put_be n v ∧ 0 <= v < 256 ^ Z.of_nat n).
Proof.
  apply parses_offset. intros o. eapply parses_weaken.
  - eapply parses_bind; [apply parses_catch, parses_ReadN|]. intros a. apply parses_ret.
  - intros bs v (b1 & b2 & raw & -> & (-> & Hl & Hb) & -> & ->). rewrite app_nil_r.
    assert (length raw = n) as <- by lia. rewrite put_get_be by done. split; [done|by apply get_be_range].
Qed.

Lemma reads_uint64 op v : is_u64 v → reads (readUint64 op) (put_be 8 v) v.
Proof. intros Hv. by apply (reads_be 8). Qed.
Lemma parses_uint64 op : parses (readUint64 op) (λ bs v, bs = put_be 8 v ∧ is_u64 v).
Proof. apply (parses_be 8). Qed.
Lemma reads_uint32 op v : is_u32 v → reads (readUint32 op) (put_be 4 v) v.
Proof. intros Hv. by apply (reads_be 4). Qed.
Lemma parses_uint32 op : parses (readUint32 op) (λ bs v, bs = put_be 4 v ∧ is_u32 v).
Proof. apply (parses_be 4). Qed.

(** ** Routes *)

Definition route_ok (key : DocumentKey) (connectionID : bytes) (epoch : Z) : Prop :=
  key_ok key ∧ str_ok connectionID ∧ is_u64 epoch.

#[export] Instance route_ok_dec k c e : Decision (route_ok k c e).
Proof. unfold route_ok. apply _. Defined.

Definition enc_route (key : DocumentKey) (connectionID : bytes) (epoch : Z) : bytes :=
  enc_key key ++ enc_str connectionID ++ put_be 8 epoch.

Lemma appendRoutedRoute_ok dst k c e : route_ok k c e → appendRoutedRoute dst k c e = Ok (dst ++ enc_route k c e).
Proof.
  intros (Hk & Hc & _). unfold appendRoutedRoute. rewrite appendDocumentKey_ok by done. cbn [mbind result_bind].
  rewrite appendString_ok by done. cbn [mbind result_bind]. unfold appendUint64, enc_route. by rewrite <- !app_assoc.
Qed.

Lemma validateRoute_key k c e : validateRoute k c e = None → DocumentKey_Validate k = None.
Proof. unfold validateRoute. by destruct (DocumentKey_Validate k). Qed.

Lemma reads_route o1 o2 o3 k c e : route_ok k c e → DocumentKey_Validate k = None →
  reads (readRoutedRoute o1 o2 o3) (enc_route k c e) (mkRoute k c e).
Proof.
  intros (Hk & Hc & He) Hv. eapply reads_bind; [by apply reads_key|]. eapply reads_bind; [by apply reads_string|].
  eapply reads_bind_ret; [by apply reads_uint64|]. apply reads_ret.
Qed.

Lemma parses_route o1 o2 o3 : parses (readRoutedRoute o1 o2 o3)
  (λ _ r, route_ok (rr_DocumentKey r) (rr_ConnectionID r) (rr_Epoch r)).
Proof.
  eapply parses_weaken.
  - eapply parses_bind; [apply parses_key|]. intros k. eapply parses_bind; [apply parses_string|]. intros c.
    eapply parses_bind; [apply parses_uint64|]. intros e. apply parses_ret.
  - by intros bs r (? & ? & k & ? & (? & ? & ?) & ? & ? & c & ? & (? & ?) & ? & ? & e & ? & (? & ?) & ? & ->).
Qed.

Lemma reads_all_rest bs : reads_all readRemainingBytes bs bs.
Proof.
  apply reads_all_remaining. case_if.
  - destruct bs; [|cbn in *; lia]. apply reads_all_of, reads_ret.
  - by apply reads_all_of, reads_catch, reads_ReadN.
Qed.

Lemma parses_rest : parses readRemainingBytes (λ bs a, is_bytes a).
Proof.
  apply parses_remaining. intros n. case_if.
  - eapply parses_weaken; [apply parses_ret|]. intros ? ? [-> ->]. apply Forall_nil_2.
  - eapply parses_weaken; [apply parses_catch, parses_ReadN|]. by intros ? ? (_ & _ & ?).
Qed.

Lemma reads_all_routed o1 o2 o3 k c e body : route_ok k c e → DocumentKey_Validate k = None →
  reads_all (readRoutedPayload o1 o2 o3) (enc_route k c e ++ body) (mkRouted (mkRoute k c e) body).
Proof.
  intros Hr Hv. eapply reads_all_bind; [by apply reads_route|].
  eapply reads_all_bind_ret; [apply reads_all_rest|]. apply reads_ret.
Qed.

Lemma parses_routed o1 o2 o3 : parses (readRoutedPayload o1 o2 o3) (λ _ r,
  route_ok (rr_DocumentKey (rp_route r)) (rr_ConnectionID (rp_route r)) (rr_Epoch (rp_route r)) ∧ is_bytes (rp_Body r)).
Proof.
  eapply parses_weaken.
  - eapply parses_bind; [apply parses_route|]. intros k. eapply parses_bind; [apply parses_rest|]. intros c.
    apply parses_ret.
  - by intros bs r (? & ? & k & ? & ? & ? & ? & c & ? & ? & ? & ->).
Qed.

Lemma reads_validated {A} `{IsMessage A} op (m : A) : msg_Validate m = None → reads (validated op m) [] m.
Proof. intros Hv. apply reads_offset. intros o. rewrite Hv. apply reads_ret. Qed.

Lemma parses_validated {A} `{IsMessage A} op (m : A) : parses (validated op m) (λ _ a, a = m ∧ msg_Validate m = None).
Proof.
  apply parses_offset. intros o. destruct (msg_Validate m).
  - eapply parses_weaken; [apply parses_fail|done].
  - eapply parses_weaken; [apply parses_ret|]. by intros ? ? [_ ->].
Qed.

(** ** Messages *)

(** Every field is in the range of its Go type and fits its length prefix. *)
Definition message_ok (m : Message) : Prop :=
  match m with
  | MHandshake (mkHandshake fl node k c cid e) | MHandshakeAck (mkHandshakeAck fl node k c cid e) =>
      is_u16 fl ∧ str_ok node ∧ route_ok k c e ∧ is_u32 cid
  | MDocumentSyncRequest (mkDocumentSyncRequest fl k c e body)
  | MDocumentSyncRequestV2 (mkDocumentSyncRequestV2 fl k c e body)
  | MDocumentSyncResponse (mkDocumentSyncResponse fl k c e body)
  | MDocumentSyncResponseV2 (mkDocumentSyncResponseV2 fl k c e body)
  | MDocumentUpdate (mkDocumentUpdate fl k c e body)
  | MDocumentUpdateV2 (mkDocumentUpdateV2 fl k c e body)
  | MDocumentUpdateV2FromEdge (mkDocumentUpdateV2FromEdge fl k c e body)
  | MAwarenessUpdate (mkAwarenessUpdate fl k c e body)
  | MQueryAwarenessResponse (mkQueryAwarenessResponse fl k c e body) => is_u16 fl ∧ route_ok k c e ∧ is_bytes body
  | MQueryAwarenessRequest (mkQueryAwarenessRequest fl k c e)
  | MDisconnect (mkDisconnect fl k c e) => is_u16 fl ∧ route_ok k c e
  | MClose (mkClose fl k c e retry reason) => is_u16 fl ∧ route_ok k c e ∧ str_ok reason
  | MPing (mkPing fl nonce) | MPong (mkPong fl nonce) => is_u16 fl ∧ is_u64 nonce
  end.

#[export] Instance is_u16_dec z : Decision (is_u16 z).
Proof. unfold is_u16. apply _. Defined.

#[export] Instance message_ok_dec m : Decision (message_ok m).
Proof. destruct m as [[]|[]|[]|[]|[]|[]|[]|[]|[]|[]|[]|[]|[]|[]|[]|[]]; apply _. Defined.

(** What the wire keeps of a message: a Close carries [Retryable] in its flags
    and no blank reason. *)
Definition wire_message (m : Message) : Message :=
  match m with
  | MClose m =>
      MClose (mkClose (msg_FrameFlags m) (Close_DocumentKey m) (Close_ConnectionID m) (Close_Epoch m) (Close_Retryable m)
        (if is_blank (Close_Reason m) then [] else Close_Reason m))
  | m => m
  end.

(** ** The flag bit of Close *)

Lemma land_2 f : Z.land f 2 = if Z.testbit f 1 then 2 else 0.
Proof.
  apply Z.bits_inj'. intros i Hi. rewrite Z.land_spec. change 2 with (2 ^ 1) at 1. rewrite Z.pow2_bits_eqb by lia.
  destruct (Z.eqb_spec 1 i) as [<-|].
  - rewrite andb_true_r. by destruct (Z.testbit f 1).
  - rewrite andb_false_r. destruct (Z.testbit f 1); [|by rewrite Z.bits_0].
    change 2 with (2 ^ 1). rewrite Z.pow2_bits_eqb by lia. symmetry. by apply Z.eqb_neq.
Qed.

Lemma is_u16_bits a : 0 <= a → (∀ i, 16 <= i → Z.testbit a i = false) → is_u16 a.
Proof.
  intros Ha Hb. assert (a = a mod 2 ^ 16) as ->.
  { apply Z.bits_inj'. intros i Hi. destruct (decide (i < 16)).
    - by rewrite Z.mod_pow2_bits_low.
    - rewrite Z.mod_pow2_bits_high by lia. apply Hb. lia. }
  apply Z.mod_pos_bound. lia.
Qed.

Definition close_flags (fl : Z) (retry : bool) : Z :=
  if retry then Z.lor (Z.ldiff fl FlagCloseRetryable) FlagCloseRetryable else Z.ldiff fl FlagCloseRetryable.

Lemma close_flags_retry fl retry : negb (Z.land (close_flags fl retry) FlagCloseRetryable =? 0) = retry.
Proof.
  unfold close_flags, FlagCloseRetryable. destruct retry.
  - by rewrite Z.land_lor_distr_l, Z.land_ldiff.
  - by rewrite Z.land_ldiff.
Qed.

Lemma close_flags_wire fl : close_flags fl (negb (Z.land fl FlagCloseRetryable =? 0)) = fl.
Proof.
  unfold close_flags, FlagCloseRetryable. rewrite land_2. rewrite <- (Z.lor_ldiff_and fl 2) at 4. rewrite land_2.
  destruct (Z.testbit fl 1); cbn [negb Z.eqb]; [done|]. by rewrite Z.lor_0_r.
Qed.

Lemma close_flags_u16 fl retry : is_u16 fl → is_u16 (close_flags fl retry).
Proof.
  intros H. assert (∀ i, 16 <= i → Z.testbit fl i = false) as Hb by (intros; apply (testbit_high _ 16); [exact H|done]).
  unfold is_u16 in H. apply is_u16_bits.
  - unfold close_flags, FlagCloseRetryable. destruct retry; [apply Z.lor_nonneg; split; [|lia]|]; apply Z.ldiff_nonneg; lia.
  - intros i Hi. assert (Z.testbit (Z.ldiff fl 2) i = false) as E by by rewrite Z.ldiff_spec, Hb.
    unfold close_flags, FlagCloseRetryable. destruct retry; [|done]. rewrite Z.lor_spec, E.
    apply (testbit_high 2 16); lia.
Qed.

(** ** Payloads *)

(** The decoder of a type reads all the bytes the message writes. *)
Lemma typed_reads {A} (dec : RM A) (inj : A → Message) bs a :
  reads_all dec bs a → reads_all (m ← dec; mret (inj m)) bs (inj a).
Proof. intros H. eapply reads_all_bind_ret; [exact H|]. apply reads_ret. Qed.

Lemma routed_reads {A} `{IsMessage A} op o1 o2 o3 k c e body (mk : routedPayload → A) bs :
  route_ok k c e → validateRoute k c e = None → msg_Validate (mk (mkRouted (mkRoute k c e) body)) = None →
  bs = enc_route k c e ++ body →
  reads_all (routed ← readRoutedPayload o1 o2 o3; validated op (mk routed)) bs (mk (mkRouted (mkRoute k c e) body)).
Proof.
  intros Hr Hk Hv ->. eapply reads_all_bind_ret; [apply reads_all_routed; [done|by eapply validateRoute_key]|].
  by apply reads_validated.
Qed.

Lemma route_reads {A} `{IsMessage A} op o1 o2 o3 k c e (mk : routedRoute → A) :
  route_ok k c e → validateRoute k c e = None → msg_Validate (mk (mkRoute k c e)) = None →
  reads_all (route ← readRoutedRoute o1 o2 o3; validated op (mk route)) (enc_route k c e) (mk (mkRoute k c e)).
Proof.
  intros Hr Hk Hv. apply reads_all_of. eapply reads_bind_ret; [apply reads_route; [done|by eapply validateRoute_key]|].
  by apply reads_validated.
Qed.

Lemma validateRoutedBody_route k c e body : validateRoutedBody k c e body = None → validateRoute k c e = None.
Proof. unfold validateRoutedBody. by destruct (validateRoute k c e). Qed.

Lemma enc_route_bytes k c e : route_ok k c e → is_bytes (enc_route k c e).
Proof.
  intros ((? & ?) & ? & ?). unfold enc_route, enc_key.
  rewrite !Forall_app. split_and!; try (by apply enc_str_bytes); apply put_be_bytes.
Qed.

Lemma routed_payload_ok k c e body : route_ok k c e → appendRoutedPayload [] k c e body = Ok (enc_route k c e ++ body).
Proof. intros H. unfold appendRoutedPayload. by rewrite appendRoutedRoute_ok. Qed.

Lemma route_payload_ok k c e : route_ok k c e → appendRoutedRoute [] k c e = Ok (enc_route k c e).
Proof. apply appendRoutedRoute_ok. Qed.

Definition enc_node (node : bytes) (k : DocumentKey) (c : bytes) (e cid : Z) : bytes :=
  enc_str node ++ enc_key k ++ enc_str c ++ put_be 8 e ++ put_be 4 cid.

(** The common reader of both handshake messages. *)
Lemma handshake_reads {A} `{IsMessage A} op o1 o2 o3 o4 o5 node k c e cid (mk : bytes → DocumentKey → bytes → Z → Z → A) :
  str_ok node → route_ok k c e → is_u32 cid → validateNodeRoute node k c e = None →
  msg_Validate (mk node k c e cid) = None →
  reads_all (nodeID ← readNodeID o1; key ← readDocumentKey o2; connectionID ← NodeMessage.readString o3;
    epoch ← readUint64 o4; clientID ← readOptionalUint32 o5; validated op (mk nodeID key connectionID epoch clientID))
    (enc_node node k c e cid) (mk node k c e cid).
Proof.
  intros Hn (Hk & Hc & He) Hcid Hv Hm. unfold validateNodeRoute in Hv. destruct (is_blank node) eqn:Hb; [done|].
  eapply reads_all_bind.
  { apply reads_offset. intros o. eapply reads_bind_ret; [by apply reads_string|]. rewrite Hb. apply reads_ret. }
  eapply reads_all_bind; [apply reads_key; [done|by eapply validateRoute_key]|].
  eapply reads_all_bind; [by apply reads_string|]. eapply reads_all_bind; [by apply reads_uint64|].
  eapply reads_all_bind_ret; [|by apply reads_validated].
  apply reads_all_remaining. rewrite length_put_be. cbn [Z.eqb]. change (Z.of_nat 4 =? 0) with false.
  by apply reads_all_of, reads_uint32.
Qed.

Lemma appendNode_ok node k c e cid : str_ok node → route_ok k c e →
  (dst ← appendString [] node; dst ← appendDocumentKey dst k; dst ← appendString dst c;
   Ok (appendUint32 (appendUint64 dst e) cid)) = Ok (enc_node node k c e cid).
Proof.
  intros Hn (Hk & Hc & He). rewrite appendString_ok by done. cbn [mbind result_bind].
  rewrite appendDocumentKey_ok by done. cbn [mbind result_bind]. rewrite appendString_ok by done. cbn [mbind result_bind].
  unfold appendUint32, appendUint64, enc_node. by rewrite <- !app_assoc.
Qed.

Lemma enc_node_bytes node k c e cid : str_ok node → route_ok k c e → is_bytes (enc_node node k c e cid).
Proof.
  intros Hn ((? & ?) & ? & ?). unfold enc_node, enc_key.
  rewrite !Forall_app. split_and!; try (by apply enc_str_bytes); apply put_be_bytes.
Qed.

(** A Close may end behind its route. *)
Lemma close_reads k c e fl reason bs : route_ok k c e → str_ok reason → validateRoute k c e = None →
  bs = (if is_blank reason then [] else enc_str reason) →
  reads_all (decodeClose fl) (enc_route k c e ++ bs)
    (mkClose fl k c e (negb (Z.land fl FlagCloseRetryable =? 0)) (if is_blank reason then [] else reason)).
Proof.
  intros Hr Hs Hv ->. eapply reads_all_bind; [apply reads_route; [done|by eapply validateRoute_key]|].
  apply reads_all_remaining. destruct (is_blank reason) eqn:Hb.
  - cbn [length]. change (0 <? Z.of_nat 0) with false. cbv iota. apply reads_all_of.
    apply (reads_bind_ret (mret []) _ [] []); [apply reads_ret|]. by apply reads_validated.
  - rewrite (proj2 (Z.ltb_lt _ _)).
    + eapply reads_all_bind_ret; [apply reads_all_of; by apply reads_string|]. by apply reads_validated.
    + rewrite enc_str_eq, length_app by done. pose proof (Append_length _ (proj1 Hs)). lia.
Qed.

Ltac valid := match goal with H : Message_Validate _ = None |- _ => exact H end.

Ltac routed_case :=
  eexists; split_and!; [by apply routed_payload_ok|apply Forall_app; split; [by apply enc_route_bytes|done]|];
  apply typed_reads; eapply reads_all_bind_ret;
  [apply reads_all_routed; [done|eapply validateRoute_key, validateRoutedBody_route; valid]|by apply reads_validated].

Ltac route_case :=
  eexists; split_and!; [by apply route_payload_ok|by apply enc_route_bytes|];
  apply typed_reads, reads_all_of; eapply reads_bind_ret;
  [apply reads_route; [done|eapply validateRoute_key; valid]|by apply reads_validated].

Ltac handshake_case mk :=
  eexists; split_and!; [by apply appendNode_ok|by apply enc_node_bytes|]; apply typed_reads;
  by apply (handshake_reads _ _ _ _ _ _ _ _ _ _ _ (λ n k c e cid, mk n k c cid e)).

Ltac ping_case :=
  eexists; split_and!; [done|apply put_be_bytes|]; apply typed_reads, reads_all_of;
  eapply reads_bind_ret; [by apply reads_uint64|by apply reads_validated].

Lemma close_payload fl k c e retry reason : route_ok k c e → str_ok reason → validateRoute k c e = None →
  ∃ bs, Message_appendPayload [] (MClose (mkClose fl k c e retry reason)) = Ok bs ∧ is_bytes bs ∧
    reads_all (m ← decodeClose (close_flags fl retry); mret (MClose m)) bs
      (MClose (mkClose (close_flags fl retry) k c e retry (if is_blank reason then [] else reason))).
Proof.
  intros Hr Hs Hv. eexists (enc_route k c e ++ (if is_blank reason then [] else enc_str reason)). split_and!.
  - cbn [Message_appendPayload with_message msg_appendPayload Close_Message Close_DocumentKey Close_ConnectionID Close_Epoch
      Close_Reason]. rewrite route_payload_ok by done. cbn [mbind result_bind]. destruct (is_blank reason); [by rewrite app_nil_r|].
    by rewrite appendString_ok.
  - apply Forall_app. split; [by apply enc_route_bytes|]. destruct (is_blank reason); [apply Forall_nil_2|by apply enc_str_bytes].
  - apply typed_reads. pose proof (close_reads k c e (close_flags fl retry) reason _ Hr Hs Hv eq_refl) as H.
    by rewrite close_flags_retry in H.
Qed.

Lemma payload_read m : message_ok m → Message_Validate m = None →
  ∃ bs, Message_appendPayload [] m = Ok bs ∧ is_bytes bs ∧
    reads_all (decodeTyped (Message_Type m) (Message_FrameFlags m)) bs (wire_message m).
Proof.
  destruct m as [m|m|m|m|m|m|m|m|m|m|m|m|m|m|m|m]; destruct m; cbn [message_ok]; intros Hok Hv; destruct_and? Hok;
    cbn [wire_message]; try (handshake_case (mkHandshake Handshake_Flags) || handshake_case (mkHandshakeAck HandshakeAck_Flags)
      || routed_case || route_case || ping_case).
  by apply close_payload.
Qed.

(** ** What is accepted *)

Lemma parses_validated_bind {A B} `{IsMessage A} (dec : RM B) (P : bytes → B → Prop) (mk : B → A) op (Q : A → Prop) :
  parses dec P → (∀ bs b, P bs b → msg_Validate (mk b) = None → Q (mk b)) →
  parses (b ← dec; validated op (mk b)) (λ _ a, Q a).
Proof.
  intros Hd HQ. eapply parses_weaken; [eapply parses_bind; [exact Hd|]; intros b; apply parses_validated|].
  intros bs a (? & ? & b & _ & Hb & -> & Hv). eauto.
Qed.

(** The message is well formed, valid, and of the announced type and flags. *)
Definition typed (typ flags : Z) (m : Message) : Prop :=
  message_ok m ∧ Message_Validate m = None ∧ Message_Type m = typ ∧ Message_FrameFlags m = flags.

Lemma typed_parses {A} (dec : RM A) (inj : A → Message) (Q : Message → Prop) :
  parses dec (λ _ a, Q (inj a)) → parses (m ← dec; mret (inj m)) (λ _ m, Q m).
Proof.
  intros H. eapply parses_weaken; [eapply parses_bind; [exact H|intros; apply parses_ret]|].
  by intros bs m (? & ? & a & _ & Ha & _ & ->).
Qed.

Lemma parses_node op : parses (readNodeID op) (λ _ s, str_ok s).
Proof.
  apply parses_offset. intros o. eapply parses_weaken.
  - eapply parses_bind; [apply parses_string|]. intros s. instantiate (1 := λ s bs a, a = s). cbn beta.
    destruct (is_blank s); [eapply parses_weaken; [apply parses_fail|done]|].
    eapply parses_weaken; [apply parses_ret|]. by intros ? ? [_ ->].
  - by intros bs a (? & ? & s & _ & [_ ?] & ->).
Qed.

Lemma parses_optional op : parses (readOptionalUint32 op) (λ _ v, is_u32 v).
Proof.
  apply parses_remaining. intros n. case_if.
  - eapply parses_weaken; [apply parses_ret|]. intros ? ? [_ ->]. u32.
  - eapply parses_weaken; [apply parses_uint32|]. by intros ? ? [_ ?].
Qed.

Lemma handshake_parses {A} `{IsMessage A} op o1 o2 o3 o4 o5 (mk : bytes → DocumentKey → bytes → Z → Z → A) (Q : A → Prop) :
  (∀ node k c e cid, str_ok node → route_ok k c e → is_u32 cid → msg_Validate (mk node k c e cid) = None →
    Q (mk node k c e cid)) →
  parses (nodeID ← readNodeID o1; key ← readDocumentKey o2; connectionID ← NodeMessage.readString o3;
    epoch ← readUint64 o4; clientID ← readOptionalUint32 o5; validated op (mk nodeID key connectionID epoch clientID))
    (λ _ a, Q a).
Proof.
  intros HQ. eapply parses_weaken.
  - eapply parses_bind; [apply parses_node|]. intros n. eapply parses_bind; [apply parses_key|]. intros k.
    eapply parses_bind; [apply parses_string|]. intros c. eapply parses_bind; [apply parses_uint64|]. intros e.
    eapply parses_bind; [apply parses_optional|]. intros cid. apply parses_validated.
  - intros bs a (? & ? & n & _ & Hn & ? & ? & k & _ & (_ & Hk & _) & ? & ? & c & _ & (_ & Hc) & ? & ? & e & _ & (_ & He)
      & ? & ? & cid & _ & Hcid & -> & Hv). by apply HQ.
Qed.

Lemma close_parses fl : parses (decodeClose fl) (λ _ m,
  message_ok (MClose (mkClose 0 (Close_DocumentKey m) (Close_ConnectionID m) (Close_Epoch m) false (Close_Reason m))) ∧
  msg_Validate m = None ∧ Close_Flags m = fl ∧ Close_Retryable m = negb (Z.land fl FlagCloseRetryable =? 0)).
Proof.
  eapply parses_weaken.
  - eapply parses_bind; [apply parses_route|]. intros r. apply parses_remaining. intros n.
    eapply (parses_bind _ _ (λ _ s, str_ok s)); [|intros s; apply parses_validated].
    case_if.
    + eapply parses_weaken; [apply parses_string|]. by intros ? ? [_ ?].
    + eapply parses_weaken; [apply parses_ret|]. intros ? ? [_ ->]. split; [change (is_u32 0); u32|apply Forall_nil_2].
  - intros bs m (? & ? & r & _ & Hr & ? & ? & s & _ & Hs & -> & Hv). by split_and!.
Qed.

Ltac typed_branch :=
  match goal with
  | |- parses (if ?t =? _ then _ else _) _ =>
      match goal with |- parses (if _ =? ?k then _ else _) _ => destruct (Z.eqb_spec t k) as [->|_] end
  end.

Lemma decodeTyped_sound typ flags : is_u16 flags → parses (decodeTyped typ flags) (λ _ m, typed typ flags m).
Proof.
  intros Hfl. unfold decodeTyped.
  repeat (typed_branch; [apply typed_parses;
    first [apply handshake_parses; by intros|
           eapply parses_validated_bind; [apply parses_routed|]; by intros ? ? [??] ?|
           eapply parses_validated_bind; [apply parses_route|]; by intros|
           eapply parses_validated_bind; [apply parses_uint64|]; by intros ? ? [_ ?] ?|
           idtac]|]).
  - eapply parses_weaken; [apply close_parses|]. intros bs m ((_ & Hr & Hs) & Hv & Hf & Hret). destruct m; cbn in *. subst.
    split_and!; [done..|]. apply close_flags_wire.
  - eapply parses_weaken; [apply parses_fail|done].
Qed.

(** ** Frames and messages *)

Lemma EncodeFrame_ok f : frame_ok f → EncodeFrame (Some f) = Ok (enc_frame f).
Proof.
  intros (Hh & Hb & Hl). unfold EncodeFrame, AppendFrame. rewrite (proj2 (Frame_Validate_ok f Hh)) by done.
  unfold AppendHeader. by rewrite (proj1 Hh).
Qed.

Lemma DecodeFrame_encoded f : frame_ok f → DecodeFrame (enc_frame f) = Ok f.
Proof.
  intros Hf. unfold DecodeFrame, exact_frame, DecodeFramePrefix. pose proof (decodeFramePrefix_encoded f [] Hf) as E.
  rewrite app_nil_r in E. rewrite E. cbn [mbind result_bind]. by rewrite Z.eqb_refl.
Qed.

Lemma Message_Type_valid m : MessageType_Valid (Message_Type m) = true.
Proof. by destruct m. Qed.

Lemma message_flags_u16 m : message_ok m → is_u16 (Message_FrameFlags m).
Proof.
  destruct m as [m|m|m|m|m|m|m|m|m|m|m|m|m|m|m|m]; destruct m; cbn [message_ok]; intros Hok; destruct_and? Hok; try done.
  by apply close_flags_u16.
Qed.

Lemma DecodeFrameMessage_ok m bs : message_ok m → is_bytes bs → is_u32 (Z.of_nat (length bs)) →
  reads_all (decodeTyped (Message_Type m) (Message_FrameFlags m)) bs (wire_message m) →
  let f := mkFrame (mkHeader CurrentVersion (Message_Type m) (Message_FrameFlags m) (Z.of_nat (length bs))) bs in
  frame_ok f ∧ DecodeFrameMessage (Some f) = Ok (wire_message m).
Proof.
  intros Hok Hb Hl Hr. cbn zeta. set (f := mkFrame _ _).
  assert (frame_ok f) as Hf.
  { split; [split; [|split; [by apply message_flags_u16|done]]|by split]. unfold Header_Validate.
    cbn [h_Version h_Type f_Header f]. by rewrite Message_Type_valid. }
  split; [done|]. unfold DecodeFrameMessage. rewrite (proj2 (Frame_Validate_ok f (proj1 Hf))) by apply Hf.
  unfold DecodeMessagePayload. cbn [f f_Header f_Payload h_Type h_Flags]. rewrite Message_Type_valid. cbn [negb].
  rewrite (reads_all_run _ _ _ Hr). unfold Remaining, advance, NewReader; cbn [data offset].
  replace (Z.of_nat (length bs) - Z.of_nat (0 + length bs)) with 0 by lia. done.
Qed.

(** Frames on a stream: an encoded frame is decoded whatever follows it and
    reports its exact size, every strict prefix of it is reported as incomplete
    (so that a reader knows to wait), and [DecodeFrame] rejects extra bytes. *)
Theorem frame_stream (f : Frame) (rest : bytes) (Hf : frame_ok f) :
  ∃ src, EncodeFrame (Some f) = Ok src ∧ DecodeFramePrefix (src ++ rest) = Ok (f, Z.of_nat (length src)) ∧
    (∀ k, (k < length src)%nat → ∃ err, DecodeFramePrefix (take k src) = Err err ∧
      (errors_Is err ynodeproto_ErrIncompleteHeader || errors_Is err ynodeproto_ErrIncompletePayload) = true) ∧
    (rest ≠ [] → ∃ err, DecodeFrame (src ++ rest) = Err err ∧ errors_Is err ynodeproto_ErrTrailingBytes = true).
Proof.
  exists (enc_frame f). split_and!.
  - by apply EncodeFrame_ok.
  - by apply decodeFramePrefix_encoded.
  - intros k Hk. by apply decodeFramePrefix_incomplete.
  - intros Hr. unfold DecodeFrame, exact_frame, DecodeFramePrefix. rewrite decodeFramePrefix_encoded by done.
    cbn [mbind result_bind]. rewrite length_app. destruct (Z.eqb_spec (Z.of_nat (length (enc_frame f)))
      (Z.of_nat (length (enc_frame f) + length rest))); [destruct rest; [done|cbn [length] in *; lia]|]. by eexists.
Qed.

Definition sample_frame : Frame := mkFrame (mkHeader 1 MessageTypePing 4 8) [0; 0; 0; 0; 0; 0; 1; 44].

Lemma frame_stream_witness : ∃ src, EncodeFrame (Some sample_frame) = Ok src ∧
  DecodeFramePrefix (src ++ [1]) = Ok (sample_frame, 16).
Proof.
  destruct (frame_stream sample_frame [1]) as (src & H1 & H2 & _).
  - split; [split; [reflexivity|apply (bool_decide_unpack _); vm_compute; exact I]|].
    split; [apply (bool_decide_unpack _); vm_compute; exact I|reflexivity].
  - exists src. assert (Z.of_nat (length src) = 16) as E by (injection H1 as <-; reflexivity). rewrite E in H2. by split.
Defined.

(** C31: Every message survives the wire: a valid message whose fields are in the
    range of their Go types has a payload; its frame decodes, with or without a
    copy, to the message as the wire carries it; and it has a frame exactly when
    the payload fits the header's 32-bit length. *)
Theorem message_roundtrip (m : Message) (Hok : message_ok m) (Hv : Message_Validate m = None) :
  ∃ payload, EncodeMessagePayload (Some m) = Ok payload ∧
    (if bool_decide (is_u32 (Z.of_nat (length payload))) then
       ∃ src f, EncodeMessageFrame (Some m) = Ok src ∧ NewMessageFrame (Some m) = Ok f ∧ EncodeFrame (Some f) = Ok src ∧
         DecodeMessageFrame src = Ok (wire_message m) ∧ DecodeMessageFrameView src = Ok (wire_message m)
     else ∃ err, EncodeMessageFrame (Some m) = Err err ∧ errors_Is err ynodeproto_ErrPayloadTooLarge = true).
Proof.
  destruct (payload_read m Hok Hv) as (bs & He & Hb & Hr). exists bs. unfold EncodeMessageFrame, NewMessageFrame, EncodeMessagePayload.
  rewrite Hv, He. cbn [mbind result_bind]. split; [done|]. unfold NewFrame, NewHeader, maxHeaderPayloadLength.
  rewrite (proj2 (Z.ltb_ge _ 0)) by lia. case_bool_decide as Hl.
  - case_if; [u32|]. rewrite w32_small by done. set (h := mkHeader _ _ _ _).
    destruct (DecodeFrameMessage_ok m bs) as [Hf Hd]; [done..|]. fold h in Hf, Hd.
    pose proof (proj1 (proj1 Hf)) as Hh. cbn [f_Header] in Hh. rewrite Hh. cbn [mbind result_bind f_Header]. exists (enc_frame (mkFrame h bs)), (mkFrame h bs).
    unfold DecodeMessageFrame, DecodeMessageFrameView. change (DecodeFrameView ?x) with (DecodeFrame x).
    rewrite DecodeFrame_encoded by done. split_and!; [|done|by apply EncodeFrame_ok|done..].
    unfold AppendHeader. by rewrite Hh.
  - case_if; [by eexists|]. exfalso. apply Hl. u32.
Qed.

Definition sample_key : DocumentKey := mkDocumentKey [110; 115] [100; 111; 99].
Definition sample_close : Message := MClose (mkClose 7 sample_key [99] 9 false [32; 9]).

Lemma message_roundtrip_witness : ∃ src, EncodeMessageFrame (Some sample_close) = Ok src ∧
  DecodeMessageFrame src = Ok (MClose (mkClose 5 sample_key [99] 9 false [])).
Proof.
  destruct (message_roundtrip sample_close) as (p & Hp & H).
  - apply (bool_decide_unpack _). vm_compute. exact I.
  - reflexivity.
  - injection Hp as <-. destruct H as (src & f & H1 & _ & _ & H2 & _). by exists src.
Defined.

(** Whatever [DecodeMessageFrame] accepts is a typed message: its header is
    version 1 with the type and the flags of the message and the length of the
    payload, the message is valid, and its fields are in range. *)
Theorem DecodeMessageFrame_typed (src : bytes) (m : Message) (Hsrc : is_bytes src) (Hm : DecodeMessageFrame src = Ok m) :
  message_ok m ∧ Message_Validate m = None ∧
  ∃ payload, src = [1; Message_Type m] ++ put_be 2 (Message_FrameFlags m) ++ put_be 4 (Z.of_nat (length payload)) ++ payload.
Proof.
  unfold DecodeMessageFrame, DecodeFrame, exact_frame, DecodeFramePrefix in Hm.
  destruct (decodeFramePrefix src) as [[f n]|] eqn:E; [|done]. cbn [mbind result_bind] in Hm.
  apply decodeFramePrefix_sound in E as (Hf & -> & Hs); [|done].
  destruct (Z.eqb_spec (Z.of_nat (length (enc_frame f))) (Z.of_nat (length src))) as [Hl|]; [|done]. cbn [negb mbind result_bind] in Hm.
  rewrite Hl, Nat2Z.id, drop_all, app_nil_r in Hs. unfold DecodeFrameMessage in Hm.
  rewrite (proj2 (Frame_Validate_ok f (proj1 Hf))) in Hm by apply Hf. unfold DecodeMessagePayload in Hm.
  destruct (MessageType_Valid _); [|done]. cbn [negb] in Hm. destruct (decodeTyped _ _ _) as [[m'|] r'] eqn:Ed; [|done].
  destruct (negb _); [done|]. injection Hm as ->. destruct Hf as ((Hhv & Hfl & _) & Hb & Hpl).
  destruct (decodeTyped_sound _ _ Hfl _ _ _ (wf_NewReader _) Hb Ed) as (_ & _ & _ & _ & Hok & Hv & Ht & Hff).
  split_and!; [done..|]. exists (f_Payload f). rewrite Ht, Hff, <- Hpl, Hs. unfold enc_frame, enc_header.
  rewrite <- !app_assoc. cbn [app]. repeat f_equal. by apply Header_Validate_inv.
Qed.

Lemma DecodeMessageFrame_typed_witness :
  message_ok (MPing (mkPing 4 300)) ∧ ∃ payload, [1; 240; 0; 4; 0; 0; 0; 8; 0; 0; 0; 0; 0; 0; 1; 44] =
    [1; 240] ++ put_be 2 4 ++ put_be 4 (Z.of_nat (length payload)) ++ payload.
Proof.
  destruct (DecodeMessageFrame_typed [1; 240; 0; 4; 0; 0; 0; 8; 0; 0; 0; 0; 0; 0; 1; 44] (MPing (mkPing 4 300)))
    as (H & _ & Hp); [apply (bool_decide_unpack _); vm_compute; exact I|vm_compute; reflexivity|]. by split.
Defined.
