(* ===== verification/MemoryStore.v ===== *)
(** * pkg/storage/memory: the in-memory store

    store.go and distributed.go.  Every operation holds the store's mutex, so it
    is one atomic step from store to store; the argument [now] is what
    [s.nowTime()] returns in it and [ctxErr] what [ctx.Err()] returns.  The
    receiver is not nil and its maps exist ([ensureStoreInitializedLocked]).
    Records are values: the code stores and returns clones.

    The codec of snapshots and the conversion of updates to V2 are arguments of
    the operations that call them: nothing proved about the store depends on
    them. *)
From S2P Require Import Prelude GoError GoText StorageTypes.

Record memorySnapshotRecord := mkMemorySnapshot {
  ms_key : DocumentKey; ms_updateV2 : bytes; ms_through : UpdateOffset; ms_epoch : Z; ms_storedAt : Z }.

Record Store := mkStore {
  items : gmap DocumentKey memorySnapshotRecord;
  updateLogs : gmap DocumentKey (list UpdateLogRecord);
  updateNext : gmap DocumentKey UpdateOffset;
  placements : gmap DocumentKey PlacementRecord;
  leases : gmap bytes LeaseRecord;
  leaseLast : gmap bytes Z }.

Definition Store_New : Store := mkStore ∅ ∅ ∅ ∅ ∅ ∅.

Definition set_items f (s : Store) := mkStore (f (items s)) (updateLogs s) (updateNext s) (placements s) (leases s) (leaseLast s).
Definition set_updateLogs f (s : Store) := mkStore (items s) (f (updateLogs s)) (updateNext s) (placements s) (leases s) (leaseLast s).
Definition set_updateNext f (s : Store) := mkStore (items s) (updateLogs s) (f (updateNext s)) (placements s) (leases s) (leaseLast s).
Definition set_placements f (s : Store) := mkStore (items s) (updateLogs s) (updateNext s) (f (placements s)) (leases s) (leaseLast s).
Definition set_leases f (s : Store) := mkStore (items s) (updateLogs s) (updateNext s) (placements s) (f (leases s)) (leaseLast s).
Definition set_leaseLast f (s : Store) := mkStore (items s) (updateLogs s) (updateNext s) (placements s) (leases s) (f (leaseLast s)).

(** A missing map entry reads as the zero value. *)
Definition get0 {K} `{Countable K} (m : gmap K Z) (k : K) : Z := default 0 (m !! k).

(** The early returns shared by the operations. *)
Definition guard_err (errs : list (option error)) : option error :=
  foldr (λ e acc, match e with Some err => Some err | None => acc end) None errs.

Definition require_nonempty (msg : string) (update : bytes) : option error :=
  match update with [] => Some (Wrapped msg storage_ErrInvalidUpdatePayload) | _ => None end.

(** The outcome of an operation and the store after it. *)
Definition failing {A} (err : error) (s : Store) : result A * Store := (Err err, s).

(** ** Authority *)

Definition validateAuthorityLocked (s : Store) (key : DocumentKey) (fence : AuthorityFence) (now : Z) : option error :=
  match placements s !! key with
  | None => Some (Wrapped "%w: placement ausente" storage_ErrAuthorityLost)
  | Some placement =>
      if negb (bool_decide (pl_ShardID placement = af_ShardID fence))
      then Some (Wrapped "%w: placement shard != fence shard" storage_ErrAuthorityLost)
      else
        match leases s !! af_ShardID fence with
        | None => Some (Wrapped "%w: lease ausente" storage_ErrAuthorityLost)
        | Some lease =>
            if negb (bool_decide (l_Owner lease = af_Owner fence))
            then Some (Wrapped "%w: owner atual != fence" storage_ErrAuthorityLost)
            else if negb (bool_decide (l_Token lease = af_Token fence))
            then Some (Wrapped "%w: token atual nao corresponde ao fence" storage_ErrAuthorityLost)
            else if negb (After (ExpiresAt lease) now)
            then Some (Wrapped "%w: lease expirada" storage_ErrAuthorityLost)
            else None
        end
  end.

(** ** The update log *)

Definition newUpdateLogRecord (key : DocumentKey) (offset : UpdateOffset) (updateV1 updateV2 : bytes) (epoch storedAt : Z)
    : UpdateLogRecord := mkUpdateLogRecord key offset updateV2 updateV1 epoch storedAt.

(** The tail of every append. *)
Definition append_record (s : Store) (key : DocumentKey) (updateV1 updateV2 : bytes) (epoch now : Z)
    : result UpdateLogRecord * Store :=
  let offset := w64 (get0 (updateNext s) key + 1) in
  let record := newUpdateLogRecord key offset updateV1 updateV2 epoch now in
  (Ok record,
   set_updateNext <[key := offset]> (set_updateLogs <[key := default [] (updateLogs s !! key) ++ [record]]> s)).

Definition AppendUpdate (ConvertUpdateToV2 : bytes → option bytes) (ctxErr : option error) (now : Z)
    (key : DocumentKey) (update : bytes) (s : Store) : result UpdateLogRecord * Store :=
  match guard_err [ctxErr; DocumentKey_Validate key; require_nonempty "%w: updateV1 obrigatorio" update] with
  | Some err => failing err s
  | None =>
      let updateV2 := default [] (ConvertUpdateToV2 update) in
      append_record s key update updateV2 0 now
  end.

Definition AppendUpdateAuthoritative (ConvertUpdateToV2 : bytes → option bytes) (ctxErr : option error) (now : Z)
    (key : DocumentKey) (update : bytes) (fence : AuthorityFence) (s : Store) : result UpdateLogRecord * Store :=
  match guard_err [ctxErr; DocumentKey_Validate key; require_nonempty "%w: updateV1 obrigatorio" update; AuthorityFence_Validate fence] with
  | Some err => failing err s
  | None =>
      let updateV2 := default [] (ConvertUpdateToV2 update) in
      match validateAuthorityLocked s key fence now with
      | Some err => failing err s
      | None => append_record s key update updateV2 (o_Epoch (af_Owner fence)) now
      end
  end.

Definition appendUpdateV2 (ctxErr : option error) (now : Z) (key : DocumentKey) (updateV2 : bytes) (epoch : Z)
    (fence : option AuthorityFence) (s : Store) : result UpdateLogRecord * Store :=
  match guard_err [ctxErr; DocumentKey_Validate key; require_nonempty "%w: updateV2 obrigatorio" updateV2; fence ≫= AuthorityFence_Validate] with
  | Some err => failing err s
  | None =>
      match fence ≫= (λ fence, validateAuthorityLocked s key fence now) with
      | Some err => failing err s
      | None => append_record s key [] updateV2 epoch now
      end
  end.

Definition AppendUpdateV2 (ctxErr : option error) (now : Z) (key : DocumentKey) (update : bytes) (s : Store) :=
  appendUpdateV2 ctxErr now key update 0 None s.

Definition AppendUpdateV2Authoritative (ctxErr : option error) (now : Z) (key : DocumentKey) (update : bytes)
    (fence : AuthorityFence) (s : Store) :=
  appendUpdateV2 ctxErr now key update (o_Epoch (af_Owner fence)) (Some fence) s.

(** sort.Search: the smallest index in [0, n] at which [f] holds, by bisection. *)
Fixpoint Search_loop (fuel : nat) (f : nat → bool) (i j : nat) : nat :=
  match fuel with
  | O => i
  | S fuel =>
      if (i <? j)%nat then
        let h := ((i + j) / 2)%nat in
        if f h then Search_loop fuel f i h else Search_loop fuel f (S h) j
      else i
  end.

Definition Search (n : nat) (f : nat → bool) : nat := Search_loop n f 0 n.

Definition firstUpdateLogIndexAfter (records : list UpdateLogRecord) (after : UpdateOffset) : nat :=
  Search (length records) (λ i, match records !! i with Some r => after <? ul_Offset r | None => false end).

Definition ListUpdates (ctxErr : option error) (key : DocumentKey) (after : UpdateOffset) (limit : Z) (s : Store)
    : result (list UpdateLogRecord) :=
  match guard_err [ctxErr; DocumentKey_Validate key] with
  | Some err => Err err
  | None =>
      let records := default [] (updateLogs s !! key) in
      let start := firstUpdateLogIndexAfter records after in
      if (length records <=? start)%nat then Ok []
      else
        let maxResults := Z.of_nat (length records - start) in
        let maxResults := if (0 <? limit) && (limit <? maxResults) then limit else maxResults in
        Ok (take (Z.to_nat maxResults) (drop start records))
  end.

Definition trimUpdateLogRecordPointers (records : list UpdateLogRecord) (firstRemaining : nat) : list UpdateLogRecord :=
  drop firstRemaining records.

(** The tail of both trims. *)
Definition trim_records (key : DocumentKey) (through : UpdateOffset) (s : Store) : Store :=
  match default [] (updateLogs s !! key) with
  | [] => s
  | records =>
      let firstRemaining := firstUpdateLogIndexAfter records through in
      if (firstRemaining =? 0)%nat then s
      else if (length records <=? firstRemaining)%nat then set_updateLogs (delete key) s
      else set_updateLogs <[key := trimUpdateLogRecordPointers records firstRemaining]> s
  end.

Definition TrimUpdates (ctxErr : option error) (key : DocumentKey) (through : UpdateOffset) (s : Store)
    : option error * Store :=
  match guard_err [ctxErr; DocumentKey_Validate key] with
  | Some err => (Some err, s)
  | None => (None, trim_records key through s)
  end.

Definition TrimUpdatesAuthoritative (ctxErr : option error) (now : Z) (key : DocumentKey) (through : UpdateOffset)
    (fence : AuthorityFence) (s : Store) : option error * Store :=
  match guard_err [ctxErr; DocumentKey_Validate key; AuthorityFence_Validate fence] with
  | Some err => (Some err, s)
  | None =>
      match validateAuthorityLocked s key fence now with
      | Some err => (Some err, s)
      | None => (None, trim_records key through s)
      end
  end.

(** ** Placements *)

Definition SavePlacement (ctxErr : option error) (now : Z) (placement : PlacementRecord) (s : Store)
    : result PlacementRecord * Store :=
  match ctxErr with
  | Some err => failing err s
  | None =>
      let record :=
        if IsZero (UpdatedAt placement)
        then mkPlacement (pl_Key placement) (pl_ShardID placement) (Version placement) now else placement in
      match PlacementRecord_Validate record with
      | Some err => failing err s
      | None => (Ok record, set_placements <[pl_Key record := record]> s)
      end
  end.

Definition LoadPlacement (ctxErr : option error) (key : DocumentKey) (s : Store) : result PlacementRecord :=
  match guard_err [ctxErr; DocumentKey_Validate key] with
  | Some err => Err err
  | None => match placements s !! key with None => Err storage_ErrPlacementNotFound | Some record => Ok record end
  end.

(** Go compares strings byte by byte. *)
Fixpoint string_le (a b : bytes) : bool :=
  match a, b with
  | [], _ => true
  | _, [] => false
  | x :: a, y :: b => (x <? y) || ((x =? y) && string_le a b)
  end.

Definition placement_le (a b : PlacementRecord) : bool :=
  if negb (bool_decide (Namespace (pl_Key a) = Namespace (pl_Key b)))
  then string_le (Namespace (pl_Key a)) (Namespace (pl_Key b))
  else string_le (DocumentID (pl_Key a)) (DocumentID (pl_Key b)).

Definition placement_rel (a b : PlacementRecord) : Prop := Is_true (placement_le a b).

#[export] Instance placement_rel_dec : RelDecision placement_rel.
Proof. unfold placement_rel. intros a b. apply _. Defined.

Definition ListPlacements (ctxErr : option error) (namespace : bytes) (limit : Z) (s : Store)
    : result (list PlacementRecord) :=
  match ctxErr with
  | Some err => Err err
  | None =>
      let selected := filter (λ record, namespace = [] ∨ Namespace (pl_Key record) = namespace)
                        ((map_to_list (placements s)).*2) in
      let selected := merge_sort placement_rel selected in
      Ok (if (0 <? limit) && (limit <? Z.of_nat (length selected)) then take (Z.to_nat limit) selected else selected)
  end.

(** ** Leases *)

Definition sameLeaseRecord (current next : LeaseRecord) : bool :=
  bool_decide (l_ShardID current = l_ShardID next) && bool_decide (l_Owner current = l_Owner next) &&
  bool_decide (l_Token current = l_Token next).

Definition with_AcquiredAt (t : Z) (l : LeaseRecord) : LeaseRecord :=
  mkLease (l_ShardID l) (l_Owner l) (l_Token l) t (ExpiresAt l).

Definition lease_epoch (l : LeaseRecord) : Z := o_Epoch (l_Owner l).

(** The switch of [SaveLease]: the record to store, or why it is refused. *)
Definition admit_lease (current : option LeaseRecord) (lastEpoch : Z) (record : LeaseRecord) : result LeaseRecord :=
  match current with
  | None =>
      if lease_epoch record <=? lastEpoch
      then Err (NewLeaseStaleEpochError (l_ShardID record) lastEpoch (lease_epoch record))
      else Ok record
  | Some current =>
      if sameLeaseRecord current record then Ok (with_AcquiredAt (AcquiredAt current) record)
      else if After (ExpiresAt current) (AcquiredAt record) then
        if lease_epoch record <=? lease_epoch current
        then Err (NewLeaseStaleEpochError (l_ShardID record) (lease_epoch current) (lease_epoch record))
        else Err (Wrapped "%w: shard %s token %q" storage_ErrLeaseConflict)
      else if (lease_epoch record <=? lease_epoch current) || (lease_epoch record <=? lastEpoch)
      then Err (NewLeaseStaleEpochError (l_ShardID record) (Z.max (lease_epoch current) lastEpoch) (lease_epoch record))
      else Ok record
  end.

Definition SaveLease (ctxErr : option error) (now : Z) (lease : LeaseRecord) (s : Store) : result LeaseRecord * Store :=
  match ctxErr with
  | Some err => failing err s
  | None =>
      let record := if IsZero (AcquiredAt lease) then with_AcquiredAt now lease else lease in
      match LeaseRecord_Validate record with
      | Some err => failing err s
      | None =>
          let shard := l_ShardID record in
          let lastEpoch := get0 (leaseLast s) shard in
          match admit_lease (leases s !! shard) lastEpoch record with
          | Err err => failing err s
          | Ok record =>
              if negb (After (ExpiresAt record) (AcquiredAt record))
              then failing (Wrapped "%w: expiresAt deve ser apos acquiredAt" storage_ErrInvalidLeaseExpiry) s
              else
                let s := if lastEpoch <? lease_epoch record then set_leaseLast <[shard := lease_epoch record]> s else s in
                (Ok record, set_leases <[shard := record]> s)
          end
      end
  end.

Definition require_token (msg : string) (token : bytes) : option error :=
  if is_blank token then Some (Wrapped msg storage_ErrInvalidLeaseToken) else None.

Definition validateLeaseToken (token : bytes) : option error := require_token "%w: token obrigatorio" token.

Definition HandoffLease (ctxErr : option error) (now : Z) (shardID : ShardID) (currentToken : bytes) (next : LeaseRecord)
    (s : Store) : result LeaseRecord * Store :=
  match guard_err [ctxErr; ShardID_Validate shardID; require_token "%w: currentToken obrigatorio" currentToken] with
  | Some err => failing err s
  | None =>
      if negb (bool_decide (l_ShardID next = shardID))
      then failing (Wrapped "%w: next shard %q != %q" storage_ErrInvalidShardID) s
      else
        let record := if IsZero (AcquiredAt next) then with_AcquiredAt now next else next in
        match LeaseRecord_Validate record with
        | Some err => failing err s
        | None =>
            if negb (After (ExpiresAt record) (AcquiredAt record))
            then failing (Wrapped "%w: expiresAt deve ser apos acquiredAt" storage_ErrInvalidLeaseExpiry) s
            else
              match leases s !! shardID with
              | None => failing storage_ErrLeaseNotFound s
              | Some current =>
                  if negb (bool_decide (l_Token current = currentToken))
                  then failing (Wrapped "%w: shard %s token %q" storage_ErrLeaseConflict) s
                  else if negb (After (ExpiresAt current) (AcquiredAt record))
                  then failing (Wrapped "%w: shard %s lease expirada" storage_ErrLeaseConflict) s
                  else if negb (lease_epoch record =? w64 (lease_epoch current + 1))
                  then failing (NewLeaseStaleEpochError shardID (lease_epoch current) (lease_epoch record)) s
                  else if lease_epoch record <=? get0 (leaseLast s) shardID
                  then failing (NewLeaseStaleEpochError shardID (get0 (leaseLast s) shardID) (lease_epoch record)) s
                  else (Ok record, set_leases <[shardID := record]> (set_leaseLast <[shardID := lease_epoch record]> s))
              end
        end
  end.

Definition LoadLease (ctxErr : option error) (shardID : ShardID) (s : Store) : result LeaseRecord :=
  match guard_err [ctxErr; ShardID_Validate shardID] with
  | Some err => Err err
  | None => match leases s !! shardID with None => Err storage_ErrLeaseNotFound | Some record => Ok record end
  end.

Definition ReleaseLease (ctxErr : option error) (shardID : ShardID) (token : bytes) (s : Store) : option error * Store :=
  match guard_err [ctxErr; ShardID_Validate shardID; validateLeaseToken token] with
  | Some err => (Some err, s)
  | None =>
      match leases s !! shardID with
      | None => (Some (Sentinel storage_ErrLeaseNotFound), s)
      | Some record =>
          if negb (bool_decide (l_Token record = token)) then (Some (Sentinel storage_ErrLeaseNotFound), s)
          else
            let s := if get0 (leaseLast s) shardID <? lease_epoch record
                     then set_leaseLast <[shardID := lease_epoch record]> s else s in
            (None, set_leases (delete shardID) s)
      end
  end.

(** ** Snapshots *)

Section snapshots.
Context {PersistedSnapshot : Type}.
Variable EncodePersistedSnapshotV2 : PersistedSnapshot → result bytes.
Variable DecodePersistedSnapshotV2 : bytes → result PersistedSnapshot.

Record SnapshotRecord := mkSnapshotRecord {
  sr_Key : DocumentKey; sr_Snapshot : PersistedSnapshot; sr_Through : UpdateOffset; sr_Epoch : Z; sr_StoredAt : Z }.

Definition newMemorySnapshotRecord (key : DocumentKey) (updateV2 : bytes) (through : UpdateOffset) (epoch storedAt : Z) :=
  mkMemorySnapshot key updateV2 through epoch storedAt.

Definition snapshotRecordFromSnapshot (key : DocumentKey) (snapshot : PersistedSnapshot) (through : UpdateOffset)
    (epoch storedAt : Z) := mkSnapshotRecord key snapshot through epoch storedAt.

(** The tail of both saves. *)
Definition save_snapshot (s : Store) (key : DocumentKey) (snapshot : PersistedSnapshot) (updateV2 : bytes)
    (through : UpdateOffset) (epoch now : Z) : result SnapshotRecord * Store :=
  (Ok (snapshotRecordFromSnapshot key snapshot through epoch now),
   set_items <[key := newMemorySnapshotRecord key updateV2 through epoch now]> s).

Definition SaveSnapshotCheckpointEpoch (ctxErr : option error) (now : Z) (key : DocumentKey)
    (snapshot : option PersistedSnapshot) (through : UpdateOffset) (epoch : Z) (s : Store) : result SnapshotRecord * Store :=
  match guard_err [ctxErr; DocumentKey_Validate key], snapshot with
  | Some err, _ => failing err s
  | None, None => failing storage_ErrNilPersistedSnapshot s
  | None, Some snapshot =>
      match EncodePersistedSnapshotV2 snapshot with
      | Err err => failing err s
      | Ok updateV2 => save_snapshot s key snapshot updateV2 through epoch now
      end
  end.

Definition SaveSnapshotCheckpoint ctxErr now key snapshot through s :=
  SaveSnapshotCheckpointEpoch ctxErr now key snapshot through 0 s.

Definition SaveSnapshot ctxErr now key snapshot s := SaveSnapshotCheckpoint ctxErr now key snapshot 0 s.

Definition SaveSnapshotCheckpointAuthoritative (ctxErr : option error) (now : Z) (key : DocumentKey)
    (snapshot : option PersistedSnapshot) (through : UpdateOffset) (fence : AuthorityFence) (s : Store)
    : result SnapshotRecord * Store :=
  match guard_err [ctxErr; DocumentKey_Validate key], snapshot with
  | Some err, _ => failing err s
  | None, None => failing storage_ErrNilPersistedSnapshot s
  | None, Some snapshot =>
      match AuthorityFence_Validate fence with
      | Some err => failing err s
      | None =>
          match EncodePersistedSnapshotV2 snapshot with
          | Err err => failing err s
          | Ok updateV2 =>
              match validateAuthorityLocked s key fence now with
              | Some err => failing err s
              | None => save_snapshot s key snapshot updateV2 through (o_Epoch (af_Owner fence)) now
              end
          end
      end
  end.

Definition SaveSnapshotAuthoritative ctxErr now key snapshot fence s :=
  SaveSnapshotCheckpointAuthoritative ctxErr now key snapshot 0 fence s.

Definition toSnapshotRecord (r : memorySnapshotRecord) : result SnapshotRecord :=
  snapshot ← DecodePersistedSnapshotV2 (ms_updateV2 r);
  Ok (mkSnapshotRecord (ms_key r) snapshot (ms_through r) (ms_epoch r) (ms_storedAt r)).

Definition LoadSnapshot (ctxErr : option error) (key : DocumentKey) (s : Store) : result SnapshotRecord :=
  match guard_err [ctxErr; DocumentKey_Validate key] with
  | Some err => Err err
  | None =>
      match items s !! key with
      | None => Err storage_ErrSnapshotNotFound
      | Some record => toSnapshotRecord record
      end
  end.

End snapshots.
