(* ===== verification/StoreSpec.v ===== *)
(** * What the in-memory store guarantees

    A call is an operation that may change the store, with its context and its
    time; [perform] dispatches it to the operation, [reachable] are the stores
    after any history of calls (the operations are atomic, so every interleaving
    of concurrent callers is such a history).  Each operation changes the store
    in one of a few ways ([effect]), which is what the invariants are proved
    against: the invariant of every reachable store, the refinement of the lease
    part to a small specification of fencing, the consequence for writes made
    under a fence, and the update log as a list. *)
From S2P Require Import Prelude GoError GoText StorageTypes MemoryStore.

Section store.
Context {PersistedSnapshot : Type}.
Variable ConvertUpdateToV2 : bytes → option bytes.
Variable EncodePersistedSnapshotV2 : PersistedSnapshot → result bytes.

Inductive request :=
| AppendUpdate_ (key : DocumentKey) (update : bytes)
| AppendUpdateV2_ (key : DocumentKey) (update : bytes)
| AppendUpdateAuthoritative_ (key : DocumentKey) (update : bytes) (fence : AuthorityFence)
| AppendUpdateV2Authoritative_ (key : DocumentKey) (update : bytes) (fence : AuthorityFence)
| TrimUpdates_ (key : DocumentKey) (through : Z)
| TrimUpdatesAuthoritative_ (key : DocumentKey) (through : Z) (fence : AuthorityFence)
| SavePlacement_ (placement : PlacementRecord)
| SaveLease_ (lease : LeaseRecord)
| HandoffLease_ (shardID currentToken : bytes) (next : LeaseRecord)
| ReleaseLease_ (shardID token : bytes)
| SaveSnapshotCheckpointEpoch_ (key : DocumentKey) (snapshot : option PersistedSnapshot) (through epoch : Z)
| SaveSnapshotCheckpointAuthoritative_ (key : DocumentKey) (snapshot : option PersistedSnapshot) (through : Z) (fence : AuthorityFence).

Record call := mkCall { c_ctxErr : option error; c_now : Z; c_request : request }.

Definition outcome {A} (r : result A * Store) : option error * Store :=
  match r with (Ok _, s) => (None, s) | (Err err, s) => (Some err, s) end.

Definition perform (c : call) (s : Store) : option error * Store :=
  let ctx := c_ctxErr c in let now := c_now c in
  match c_request c with
  | AppendUpdate_ key update => outcome (AppendUpdate ConvertUpdateToV2 ctx now key update s)
  | AppendUpdateV2_ key update => outcome (AppendUpdateV2 ctx now key update s)
  | AppendUpdateAuthoritative_ key update fence =>
      outcome (AppendUpdateAuthoritative ConvertUpdateToV2 ctx now key update fence s)
  | AppendUpdateV2Authoritative_ key update fence => outcome (AppendUpdateV2Authoritative ctx now key update fence s)
  | TrimUpdates_ key through => TrimUpdates ctx key through s
  | TrimUpdatesAuthoritative_ key through fence => TrimUpdatesAuthoritative ctx now key through fence s
  | SavePlacement_ placement => outcome (SavePlacement ctx now placement s)
  | SaveLease_ lease => outcome (SaveLease ctx now lease s)
  | HandoffLease_ shardID currentToken next => outcome (HandoffLease ctx now shardID currentToken next s)
  | ReleaseLease_ shardID token => ReleaseLease ctx shardID token s
  | SaveSnapshotCheckpointEpoch_ key snapshot through epoch =>
      outcome (SaveSnapshotCheckpointEpoch EncodePersistedSnapshotV2 ctx now key snapshot through epoch s)
  | SaveSnapshotCheckpointAuthoritative_ key snapshot through fence =>
      outcome (SaveSnapshotCheckpointAuthoritative EncodePersistedSnapshotV2 ctx now key snapshot through fence s)
  end.

(** The fence of a call that writes under a fence. *)
Definition fence_of (r : request) : option (DocumentKey * AuthorityFence) :=
  match r with
  | AppendUpdateAuthoritative_ key _ fence | AppendUpdateV2Authoritative_ key _ fence
  | TrimUpdatesAuthoritative_ key _ fence | SaveSnapshotCheckpointAuthoritative_ key _ _ fence => Some (key, fence)
  | _ => None
  end.

(** Stores with their history, the latest call first. *)
Inductive reachable : list (call * option error) → Store → Prop :=
| reachable_new : reachable [] Store_New
| reachable_call h s c out s' : reachable h s → perform c s = (out, s') → reachable ((c, out) :: h) s'.

(** ** Effects *)

Definition key_valid (key : DocumentKey) : Prop := DocumentKey_Validate key = None.

(** The lease a successful [SaveLease] or [HandoffLease] stores. *)
Definition lease_valid (l : LeaseRecord) : Prop :=
  LeaseRecord_Validate l = None ∧ AcquiredAt l < ExpiresAt l.

Inductive effect (s : Store) : Store → Prop :=
| effect_none : effect s s
| effect_append key record : key_valid key → UpdateLogRecord_Validate record = None → ul_Key record = key →
    ul_Offset record = w64 (get0 (updateNext s) key + 1) →
    effect s (set_updateNext <[key := ul_Offset record]>
      (set_updateLogs <[key := default [] (updateLogs s !! key) ++ [record]]> s))
| effect_trim key through : effect s (trim_records key through s)
| effect_place r : PlacementRecord_Validate r = None → effect s (set_placements <[pl_Key r := r]> s)
| effect_grant r : lease_valid r → get0 (leaseLast s) (l_ShardID r) < lease_epoch r →
    effect s (set_leases <[l_ShardID r := r]> (set_leaseLast <[l_ShardID r := lease_epoch r]> s))
| effect_renew current r : lease_valid r → leases s !! l_ShardID r = Some current →
    l_Owner r = l_Owner current → l_Token r = l_Token current →
    effect s (set_leases <[l_ShardID r := r]> s)
| effect_release shard r : leases s !! shard = Some r → effect s (set_leases (delete shard) s)
| effect_snapshot key m : key_valid key → ms_key m = key → effect s (set_items <[key := m]> s).

(** The epoch of the lease of a shard is the last one granted. *)
Definition lease_inv (s : Store) : Prop :=
  ∀ shard l, leases s !! shard = Some l →
    l_ShardID l = shard ∧ lease_valid l ∧ get0 (leaseLast s) shard = lease_epoch l.

Lemma guard_err_None errs : guard_err errs = None ↔ Forall (λ e, e = None) errs.
Proof.
  induction errs as [|[e|] errs IH]; cbn.
  - split; [constructor|done].
  - split; [done|]. by intros [[=] _]%Forall_cons.
  - rewrite IH. split; [by constructor|]. by intros [_ ?]%Forall_cons.
Qed.

Lemma require_nonempty_None msg u : require_nonempty msg u = None ↔ u ≠ [].
Proof. by destruct u. Qed.

Ltac guards := rewrite guard_err_None, !Forall_cons in *; destruct_and?.

Lemma append_record_effect s key v1 v2 epoch now : key_valid key → v1 ≠ [] ∨ v2 ≠ [] →
  effect s (snd (append_record s key v1 v2 epoch now)).
Proof.
  intros Hk Hv. cbn [append_record snd].
  apply (effect_append s key (newUpdateLogRecord key (w64 (get0 (updateNext s) key + 1)) v1 v2 epoch now)); [done| |done..].
  unfold UpdateLogRecord_Validate. cbn. rewrite Hk. by destruct v2, v1, Hv.
Qed.

Lemma admit_lease_spec s record r : lease_inv s →
  admit_lease (leases s !! l_ShardID record) (get0 (leaseLast s) (l_ShardID record)) record = Ok r →
  (r = record ∧ get0 (leaseLast s) (l_ShardID record) < lease_epoch record) ∨
  (∃ current, leases s !! l_ShardID record = Some current ∧ r = with_AcquiredAt (AcquiredAt current) record ∧
    l_Owner record = l_Owner current ∧ l_Token record = l_Token current).
Proof.
  intros Hinv. unfold admit_lease. destruct (leases s !! _) as [current|] eqn:E.
  - destruct (Hinv _ _ E) as (Hs & _ & Hl). unfold sameLeaseRecord.
    repeat case_bool_decide; cbn [andb]; try (intros [= <-]; right; by exists current).
    all: destruct (After _ _); [by case_if|]; destruct (Z.leb_spec (lease_epoch record) (lease_epoch current)); [done|];
      destruct (Z.leb_spec (lease_epoch record) (get0 (leaseLast s) (l_ShardID record))); [done|]; intros [= <-]; by left.
  - case_if; [done|]. intros [= <-]. by left.
Qed.

Lemma Validate_AcquiredAt t r : LeaseRecord_Validate r = None → t < ExpiresAt r →
  LeaseRecord_Validate (with_AcquiredAt t r) = None.
Proof.
  unfold LeaseRecord_Validate, with_AcquiredAt. cbn [l_ShardID l_Owner l_Token AcquiredAt ExpiresAt].
  destruct (ShardID_Validate _); [done|]. destruct (OwnerInfo_Validate _); [done|].
  destruct (is_blank _); [done|]. destruct (IsZero (ExpiresAt r)); [done|]. intros _ Ht.
  unfold After. rewrite (proj2 (Z.ltb_lt t (ExpiresAt r)) Ht). by rewrite andb_false_r.
Qed.

Lemma After_false a b : negb (After a b) = false ↔ b < a.
Proof. unfold After. destruct (Z.ltb_spec b a); cbn; split; (done || lia). Qed.

Lemma SaveLease_effect ctx now lease s out s' : lease_inv s → SaveLease ctx now lease s = (out, s') → effect s s'.
Proof.
  intros Hinv. unfold SaveLease, failing. destruct ctx; [intros [= _ <-]; constructor|].
  set (record := if IsZero _ then _ else _). destruct (LeaseRecord_Validate record) eqn:Hv; [intros [= _ <-]; constructor|].
  destruct (admit_lease _ _ record) as [r|] eqn:Ha; [|intros [= _ <-]; constructor].
  destruct (negb (After _ _)) eqn:Hex; [intros [= _ <-]; constructor|]. intros [= _ <-]. apply After_false in Hex.
  destruct (admit_lease_spec s record r Hinv Ha) as [[-> Hlt]|(current & Hc & -> & Ho & Ht)].
  - rewrite (proj2 (Z.ltb_lt _ _)) by done. by apply effect_grant.
  - destruct (Hinv _ _ Hc) as (Hsh & _ & Hl). cbn in Hex.
    assert (lease_epoch (with_AcquiredAt (AcquiredAt current) record) = lease_epoch current) as ->
      by (unfold lease_epoch; cbn; by rewrite Ho).
    rewrite (proj2 (Z.ltb_ge _ _)) by lia.
    apply (effect_renew s current (with_AcquiredAt (AcquiredAt current) record)); [|done..].
    split; [by apply Validate_AcquiredAt|done].
Qed.

Lemma HandoffLease_effect ctx now shard token next s out s' :
  HandoffLease ctx now shard token next s = (out, s') → effect s s'.
Proof.
  unfold HandoffLease, failing. destruct (guard_err _); [intros [= _ <-]; constructor|].
  case_bool_decide as Hs; [|intros [= _ <-]; constructor]. cbn [negb].
  set (record := if IsZero _ then _ else _).
  destruct (LeaseRecord_Validate record) eqn:Hv; [intros [= _ <-]; constructor|].
  destruct (negb (After (ExpiresAt record) _)) eqn:Hex; [intros [= _ <-]; constructor|]. apply After_false in Hex.
  destruct (leases s !! shard) as [current|]; [|intros [= _ <-]; constructor].
  repeat (match goal with |- (if ?c then _ else _) = _ → _ => destruct c eqn:? end; [intros [= _ <-]; constructor|]).
  intros [= _ <-]. assert (l_ShardID record = shard) as <- by (unfold record; by destruct (IsZero _)).
  apply effect_grant; [done|]. match goal with H : (_ <=? _) = false |- _ => by apply Z.leb_gt in H end.
Qed.

Lemma ReleaseLease_effect ctx shard token s out s' : lease_inv s → ReleaseLease ctx shard token s = (out, s') → effect s s'.
Proof.
  intros Hinv. unfold ReleaseLease. destruct (guard_err _); [intros [= _ <-]; constructor|].
  destruct (leases s !! shard) as [r|] eqn:E; [|intros [= _ <-]; constructor].
  destruct (negb _); [intros [= _ <-]; constructor|]. intros [= _ <-].
  destruct (Hinv _ _ E) as (_ & _ & Hl). rewrite (proj2 (Z.ltb_ge _ _)) by lia. by eapply effect_release.
Qed.

Lemma outcome_snd {A} (r : result A * Store) out s' : outcome r = (out, s') → snd r = s'.
Proof. destruct r as [[] ?]; by intros [= _ <-]. Qed.

(** Every call has one of the effects. *)
Lemma perform_effect c s out s' : lease_inv s → perform c s = (out, s') → effect s s'.
Proof.
  intros Hinv. unfold perform. destruct (c_request c).
  - intros H%outcome_snd. revert H. unfold AppendUpdate, failing. destruct (guard_err _) eqn:Hg; [intros <-; constructor|].
    guards. intros <-. apply append_record_effect; [done|]. left. by eapply require_nonempty_None.
  - intros H%outcome_snd. revert H. unfold AppendUpdateV2, appendUpdateV2, failing.
    destruct (guard_err _) eqn:Hg; [intros <-; constructor|]. cbn [mbind option_bind].
    guards. intros <-. apply append_record_effect; [done|]. right. by eapply require_nonempty_None.
  - intros H%outcome_snd. revert H. unfold AppendUpdateAuthoritative, failing.
    destruct (guard_err _) eqn:Hg; [intros <-; constructor|]. destruct (validateAuthorityLocked _ _ _ _); [intros <-; constructor|].
    guards. intros <-. apply append_record_effect; [done|]. left. by eapply require_nonempty_None.
  - intros H%outcome_snd. revert H. unfold AppendUpdateV2Authoritative, appendUpdateV2, failing.
    destruct (guard_err _) eqn:Hg; [intros <-; constructor|]. cbn [mbind option_bind].
    destruct (validateAuthorityLocked _ _ _ _); [intros <-; constructor|].
    guards. intros <-. apply append_record_effect; [done|]. right. by eapply require_nonempty_None.
  - unfold TrimUpdates. destruct (guard_err _); intros [= _ <-]; constructor.
  - unfold TrimUpdatesAuthoritative. destruct (guard_err _); [intros [= _ <-]; constructor|].
    destruct (validateAuthorityLocked _ _ _ _); intros [= _ <-]; constructor.
  - intros H%outcome_snd. revert H. unfold SavePlacement, failing. destruct (c_ctxErr c); [intros <-; constructor|].
    destruct (PlacementRecord_Validate _) eqn:Hv; intros <-; [constructor|]. by apply effect_place.
  - intros H%outcome_snd. destruct (SaveLease _ _ _ s) eqn:E. cbn in H. subst. by eapply SaveLease_effect.
  - intros H%outcome_snd. destruct (HandoffLease _ _ _ _ _ s) eqn:E. cbn in H. subst. by eapply HandoffLease_effect.
  - by apply ReleaseLease_effect.
  - intros H%outcome_snd. revert H. unfold SaveSnapshotCheckpointEpoch, failing.
    destruct (guard_err _) eqn:Hg; [intros <-; constructor|]. destruct snapshot; [|intros <-; constructor].
    destruct (EncodePersistedSnapshotV2 _); intros <-; [|constructor]. guards. by apply effect_snapshot.
  - intros H%outcome_snd. revert H. unfold SaveSnapshotCheckpointAuthoritative, failing.
    destruct (guard_err _) eqn:Hg; [intros <-; constructor|]. destruct snapshot; [|intros <-; constructor].
    destruct (AuthorityFence_Validate _); [intros <-; constructor|].
    destruct (EncodePersistedSnapshotV2 _); [|intros <-; constructor].
    destruct (validateAuthorityLocked _ _ _ _); intros <-; [constructor|]. guards. by apply effect_snapshot.
Qed.

End store.

(** ** sort.Search *)

Lemma Search_loop_spec f fuel i j :
  (j - i <= fuel)%nat → (i ≤ j)%nat →
  (∀ a b, (i ≤ a ≤ b)%nat → (b < j)%nat → f a = true → f b = true) →
  let k := Search_loop fuel f i j in
  (i ≤ k ≤ j)%nat ∧ (∀ a, (i ≤ a < k)%nat → f a = false) ∧ (∀ a, (k ≤ a < j)%nat → f a = true).
Proof.
  revert i j. induction fuel as [|fuel IH]; intros i j Hf Hij Hm; cbn [Search_loop]; cbv zeta; [split_and!; [lia..| |]; intros; lia|].
  destruct (Nat.ltb_spec i j); [|split_and!; [lia..| |]; intros; lia].
  set (h := ((i + j) / 2)%nat). assert (i ≤ h < j)%nat as Hh.
  { unfold h. split; [apply Nat.div_le_lower_bound; lia|apply Nat.Div0.div_lt_upper_bound; lia]. }
  destruct (f h) eqn:E.
  - destruct (IH i h) as (? & H1 & H2); [lia..|by intros; eapply Hm; eauto; lia|]. split_and!; [lia..|done|].
    intros a Ha. destruct (decide (a < h)%nat); [apply H2; lia|]. apply (Hm h a); [lia|lia|done].
  - destruct (IH (S h) j) as (? & H1 & H2); [lia..|by intros; eapply Hm; eauto; lia|]. split_and!; [lia..| |done].
    intros a Ha. destruct (decide (S h ≤ a)%nat); [apply H1; lia|].
    destruct (f a) eqn:Ea; [|done]. rewrite (Hm a h) in E; [done|lia|lia|done].
Qed.

Lemma filter_threshold {A} (P : A → Prop) `{∀ x, Decision (P x)} (l : list A) k :
  (k ≤ length l)%nat → (∀ i x, (i < k)%nat → l !! i = Some x → ¬ P x) → (∀ i x, (k ≤ i)%nat → l !! i = Some x → P x) →
  filter P l = drop k l.
Proof.
  revert k. induction l as [|x l IH]; intros k Hk Hlo Hhi; [by destruct k|]. destruct k as [|k].
  - rewrite drop_0. rewrite filter_cons_True by (by apply (Hhi 0%nat)). f_equal.
    rewrite <- (drop_0 l) at 2. apply IH; [lia|lia|]. intros i y _ Hy. apply (Hhi (S i) y); [lia|done].
  - rewrite filter_cons_False by (apply (Hlo 0%nat); [lia|done]). cbn [drop]. apply IH; [cbn in Hk; lia| |].
    + intros i y Hi Hy. apply (Hlo (S i)); [lia|done].
    + intros i y Hi Hy. apply (Hhi (S i)); [lia|done].
Qed.

(** ** The invariant *)

Definition log_ok (key : DocumentKey) (next : Z) (rs : list UpdateLogRecord) : Prop :=
  StronglySorted (λ a b, ul_Offset a < ul_Offset b) rs ∧
  Forall (λ r, ul_Key r = key ∧ UpdateLogRecord_Validate r = None ∧ 1 <= ul_Offset r <= next) rs.

(** Entries are filed under their own key and valid; offsets of a log increase
    and never pass the counter; the lease of a shard is unexpired at its
    acquisition and has the last granted epoch. *)
Record store_ok (s : Store) : Prop := {
  ok_lease : lease_inv s;
  ok_log : ∀ key rs, updateLogs s !! key = Some rs → rs ≠ [] ∧ log_ok key (get0 (updateNext s) key) rs;
  ok_place : ∀ key p, placements s !! key = Some p → pl_Key p = key ∧ PlacementRecord_Validate p = None;
  ok_items : ∀ key m, items s !! key = Some m → ms_key m = key ∧ key_valid key }.

Abbreviation log s key := (default [] (updateLogs s !! key)).

Lemma log_ok_default s key : store_ok s → log_ok key (get0 (updateNext s) key) (log s key).
Proof.
  intros Hs. destruct (updateLogs s !! key) eqn:E; cbn; [by apply (ok_log s)|]. split; constructor.
Qed.

Lemma SSorted_lookup rs i j (a b : UpdateLogRecord) : StronglySorted (λ a b, ul_Offset a < ul_Offset b) rs →
  (i ≤ j)%nat → rs !! i = Some a → rs !! j = Some b → ul_Offset a <= ul_Offset b.
Proof.
  intros Hs. revert i j. induction Hs as [|x rs Hs IH Hx]; intros i j Hij; [done|].
  destruct i as [|i], j as [|j]; cbn; intros Ha Hb; simplify_eq; [lia| |lia|by eapply (IH i j); [lia|..]].
  rewrite Forall_lookup in Hx. specialize (Hx _ _ Hb). cbn in Hx. lia.
Qed.

(** The bisection finds the first record behind an offset. *)
Lemma first_index_filter rs after : StronglySorted (λ a b, ul_Offset a < ul_Offset b) rs →
  drop (firstUpdateLogIndexAfter rs after) rs = filter (λ r, after < ul_Offset r) rs ∧
  (firstUpdateLogIndexAfter rs after ≤ length rs)%nat.
Proof.
  intros Hs. unfold firstUpdateLogIndexAfter, Search. set (f := λ i, _).
  destruct (Search_loop_spec f (length rs) 0 (length rs)) as (Hk & Hlo & Hhi); [lia|lia| |].
  { intros a b [_ Hab] Hb. unfold f. destruct (rs !! a) as [x|] eqn:Ea; [|done].
    destruct (lookup_lt_is_Some_2 rs b) as [y Ey]; [lia|]. rewrite Ey. intros Hx%Z.ltb_lt. apply Z.ltb_lt.
    pose proof (SSorted_lookup rs a b x y Hs Hab Ea Ey). lia. }
  split; [|lia]. symmetry. apply filter_threshold; [lia| |].
  - intros i x Hi Hx. specialize (Hlo i ltac:(lia)). unfold f in Hlo. rewrite Hx in Hlo. apply Z.ltb_ge in Hlo. lia.
  - intros i x Hi Hx. specialize (Hhi i). unfold f in Hhi. rewrite Hx in Hhi.
    apply Z.ltb_lt, Hhi. split; [done|]. by eapply lookup_lt_Some.
Qed.

Lemma SSorted_filter {A} (R : A → A → Prop) (P : A → Prop) `{∀ x, Decision (P x)} l :
  StronglySorted R l → StronglySorted R (filter P l).
Proof.
  induction 1 as [|x l Hl IH Hx]; [constructor|]. rewrite filter_cons. destruct (decide _); [|done].
  constructor; [done|]. rewrite Forall_forall in *. intros y [_ Hy]%list_elem_of_filter. by apply Hx.
Qed.

Lemma Forall_filter_keep {A} (Q P : A → Prop) `{∀ x, Decision (P x)} l : Forall Q l → Forall Q (filter P l).
Proof. rewrite !Forall_forall. intros HQ x [_ Hx]%list_elem_of_filter. by apply HQ. Qed.

(** A trim keeps the records behind the offset. *)
Lemma trim_records_log key through s key' : store_ok s →
  log (trim_records key through s) key' =
    (if decide (key' = key) then filter (λ r, through < ul_Offset r) (log s key) else log s key').
Proof.
  intros Hs. pose proof (log_ok_default s key Hs) as [Hsort _].
  destruct (first_index_filter _ through Hsort) as [<- Hle]. unfold trim_records.
  destruct (log s key) as [|r rs] eqn:E.
  - case_decide as Hd; [|done]. subst. by rewrite E, drop_nil.
  - set (k := firstUpdateLogIndexAfter _ _) in *. destruct (Nat.eqb_spec k 0) as [->|].
    + rewrite drop_0. case_decide as Hd; [by rewrite Hd|done].
    + destruct (Nat.leb_spec (length (r :: rs)) k); cbn [updateLogs set_updateLogs].
      * rewrite drop_ge by lia. case_decide as Hd; [subst; by rewrite lookup_delete_eq|by rewrite lookup_delete_ne by done].
      * case_decide as Hd; [subst; by rewrite lookup_insert_eq|by rewrite lookup_insert_ne by done].
Qed.

Lemma trim_records_same key through s : leases (trim_records key through s) = leases s ∧
  leaseLast (trim_records key through s) = leaseLast s ∧ updateNext (trim_records key through s) = updateNext s ∧
  placements (trim_records key through s) = placements s ∧ items (trim_records key through s) = items s.
Proof. unfold trim_records. destruct (log s key); [done|]. repeat case_match; done. Qed.

Lemma get0_insert {K} `{Countable K} (m : gmap K Z) k v k' : get0 (<[k := v]> m) k' = if decide (k' = k) then v else get0 m k'.
Proof. unfold get0. case_decide; [subst; by rewrite lookup_insert_eq|by rewrite lookup_insert_ne]. Qed.

(** ** Effects and the invariant *)

Lemma lease_inv_effect s s' : lease_inv s → effect s s' → lease_inv s'.
Proof.
  intros Hinv He shard l. destruct He; cbn [leases leaseLast set_items set_updateLogs set_updateNext set_placements set_leases set_leaseLast];
    try apply Hinv.
  - destruct (trim_records_same key through s) as (-> & -> & _). apply Hinv.
  - intros [[<- <-]|[Hne Hl]]%lookup_insert_Some.
    + split_and!; [done..|]. rewrite get0_insert. by case_decide.
    + destruct (Hinv _ _ Hl) as (? & ? & ?). split_and!; [done..|]. rewrite get0_insert. by case_decide.
  - intros [[<- <-]|[Hne Hl]]%lookup_insert_Some; [|by apply Hinv]. destruct (Hinv _ _ H0) as (? & ? & ?).
    split_and!; [done..|]. unfold lease_epoch. by rewrite H1.
  - intros [_ Hl]%lookup_delete_Some. by apply Hinv.
Qed.

Lemma log_ok_app key next rs r : log_ok key next rs → ul_Key r = key → UpdateLogRecord_Validate r = None →
  ul_Offset r = next + 1 → 0 <= next → log_ok key (next + 1) (rs ++ [r]).
Proof.
  intros [Hs Hf] Hk Hv Ho Hn. split.
  - clear Hv Hk. induction Hs as [|x rs Hs IH Hx]; cbn; [repeat constructor|].
    apply Forall_cons in Hf as [(_ & _ & Hx2) Hf]. constructor; [by apply IH|].
    apply Forall_app. split; [done|]. apply Forall_singleton. lia.
  - apply Forall_app. split; [|apply Forall_singleton; split_and!; [done..|lia|lia]].
    eapply Forall_impl; [exact Hf|]. intros x (? & ? & ?). split_and!; [done..|lia|lia].
Qed.

Lemma store_ok_trim s key through : store_ok s → store_ok (trim_records key through s).
Proof.
  intros Hs. destruct (trim_records_same key through s) as (_ & _ & Enext & Eplace & Eitems).
  split; [by eapply lease_inv_effect; [apply Hs|constructor]| |rewrite Eplace; apply (ok_place s Hs)|rewrite Eitems; apply (ok_items s Hs)].
  intros key' rs Hrs. rewrite Enext.
  assert (rs = log (trim_records key through s) key') as Ers by by rewrite Hrs.
  split.
  + revert Hrs. unfold trim_records. destruct (log s key) as [|r0 rs0] eqn:E; [by intros; eapply (ok_log s Hs)|].
    case_match; [by intros; eapply (ok_log s Hs)|]. destruct (Nat.leb_spec (length (r0 :: rs0)) (firstUpdateLogIndexAfter (r0 :: rs0) through)).
    * cbn [updateLogs set_updateLogs]. intros [_ ?]%lookup_delete_Some. by eapply (ok_log s Hs).
    * cbn [updateLogs set_updateLogs]. intros [[_ <-]|[_ ?]]%lookup_insert_Some; [|by eapply (ok_log s Hs)]. unfold trimUpdateLogRecordPointers.
      intros Hd%(f_equal length). rewrite length_drop in Hd. change (length []) with 0%nat in Hd. lia.
  + rewrite Ers, trim_records_log by done. destruct (log_ok_default s key' Hs) as [Hsort Hf].
    case_decide as Hd; [subst key'|done]. split; [by apply SSorted_filter|by apply Forall_filter_keep].
Qed.

Lemma store_ok_snapshot s key m : store_ok s → key_valid key → ms_key m = key → store_ok (set_items <[key := m]> s).
Proof.
  intros Hs Hkv Hk. split; [apply (ok_lease s Hs)|apply (ok_log s Hs)|apply (ok_place s Hs)|].
  cbn. intros key' m' [[<- <-]|[? ?]]%lookup_insert_Some; [done|by apply (ok_items s Hs)].
Qed.

Lemma store_ok_effect s s' n : store_ok s → (∀ key, 0 <= get0 (updateNext s) key <= n) → n + 1 < 18446744073709551616 →
  effect s s' → store_ok s' ∧ ∀ key, 0 <= get0 (updateNext s') key <= n + 1.
Proof.
  intros Hs Hn Hmax He. pose proof (lease_inv_effect _ _ (ok_lease _ Hs) He) as Hl.
  assert (∀ key, 0 <= get0 (updateNext s) key <= n + 1) as Hn' by (intros key; specialize (Hn key); lia).
  destruct He as [|key r Hkv Hv Hk Ho|key through|p Hp|r Hr Hlt|current r Hr Hc Ho Ht|shard r Hr|key m Hkv Hk]; try done.
  - specialize (Hn key). rewrite Ho. unfold w64. rewrite Z.mod_small by lia.
    split; [split; [done| |apply (ok_place s Hs)|apply (ok_items s Hs)]|].
    + cbn. intros key' rs [[<- <-]|[Hne Hrs]]%lookup_insert_Some.
      * split; [by destruct (log s key)|]. rewrite get0_insert. case_decide; [|done].
        apply log_ok_app; [by apply log_ok_default|done..| |lia]. rewrite Ho. unfold w64. by rewrite Z.mod_small by lia.
      * rewrite get0_insert. case_decide; [congruence|]. by apply (ok_log s Hs).
    + intros key'. cbn. rewrite get0_insert. case_decide; [lia|apply Hn'].
  - destruct (trim_records_same key through s) as (_ & _ & Enext & _). rewrite Enext. split; [by apply store_ok_trim|done].
  - split; [|done]. split; [done|apply (ok_log s Hs)| |apply (ok_items s Hs)].
    cbn. intros key' p' [[<- <-]|[? ?]]%lookup_insert_Some; [done|by apply (ok_place s Hs)].
  - split; [|done]. split; [done|apply (ok_log s Hs)|apply (ok_place s Hs)|apply (ok_items s Hs)].
  - split; [|done]. split; [done|apply (ok_log s Hs)|apply (ok_place s Hs)|apply (ok_items s Hs)].
  - split; [|done]. split; [done|apply (ok_log s Hs)|apply (ok_place s Hs)|apply (ok_items s Hs)].
  - split; [by apply store_ok_snapshot|done].
Qed.

Lemma store_ok_new : store_ok Store_New.
Proof. split; [intros ? ?|intros ? ?..]; cbn; by rewrite lookup_empty. Qed.

(** ** Histories *)

Section histories.
Context {PersistedSnapshot : Type}.
Variable ConvertUpdateToV2 : bytes → option bytes.
Variable EncodePersistedSnapshotV2 : PersistedSnapshot → result bytes.
Abbreviation perform := (perform ConvertUpdateToV2 EncodePersistedSnapshotV2).
Abbreviation reachable := (reachable ConvertUpdateToV2 EncodePersistedSnapshotV2).

Lemma reachable_lease_inv h s : reachable h s → lease_inv s.
Proof.
  induction 1 as [|h s c out s' _ IH Hp]; [apply (ok_lease _ store_ok_new)|].
  eapply lease_inv_effect; [done|]. by eapply perform_effect.
Qed.

Lemma reachable_ok h s : reachable h s → Z.of_nat (length h) < 18446744073709551616 →
  store_ok s ∧ ∀ key, 0 <= get0 (updateNext s) key <= Z.of_nat (length h).
Proof.
  induction 1 as [|h s c out s' Hr IH Hp]; intros Hl.
  - split; [apply store_ok_new|]. intros key. unfold get0. cbn. rewrite lookup_empty. cbn. lia.
  - cbn [length] in *. rewrite Nat2Z.inj_succ in *. destruct IH as [Hs Hn]; [lia|].
    eapply (store_ok_effect s s' (Z.of_nat (length h))); [done|done|lia|]. eapply perform_effect; [by apply (ok_lease s)|done].
Qed.

(** A refused call leaves the store as it was. *)
Lemma perform_error c s err s' : perform c s = (Some err, s') → s' = s.
Proof.
  unfold StoreSpec.perform. destruct (c_request c); unfold outcome, AppendUpdate, AppendUpdateV2, AppendUpdateAuthoritative,
    AppendUpdateV2Authoritative, appendUpdateV2, append_record, TrimUpdates, TrimUpdatesAuthoritative, SavePlacement,
    SaveLease, HandoffLease, ReleaseLease, SaveSnapshotCheckpointEpoch, SaveSnapshotCheckpointAuthoritative, save_snapshot, failing;
    cbv zeta; repeat case_match; intros; simplify_eq; done.
Qed.

(** ** Fencing *)

(** The specification of leases of one shard: the last epoch granted and the
    holder of the lease. *)
Record lease_spec := mkSpec { sp_last : Z; sp_holder : option (OwnerInfo * bytes) }.

Inductive spec_step : lease_spec → lease_spec → Prop :=
| spec_keep a : spec_step a a
| spec_grant last h o t : last < o_Epoch o → spec_step (mkSpec last h) (mkSpec (o_Epoch o) (Some (o, t)))
| spec_release last h : spec_step (mkSpec last (Some h)) (mkSpec last None).

Definition abs (s : Store) (shard : bytes) : lease_spec :=
  mkSpec (get0 (leaseLast s) shard) ((λ l, (l_Owner l, l_Token l)) <$> leases s !! shard).

Lemma effect_spec_step s s' shard : effect s s' → spec_step (abs s shard) (abs s' shard).
Proof.
  intros He. destruct He as [|key r Hkv Hv Hk Ho|key through|p Hp|r Hr Hlt|current r Hr Hc Ho Ht|shard' r Hr|key m Hkv Hk];
    try apply spec_keep.
  - unfold abs. destruct (trim_records_same key through s) as (-> & -> & _). apply spec_keep.
  - unfold abs. cbn. rewrite get0_insert. case_decide as Hd; [subst shard|].
    + rewrite lookup_insert_eq. by apply spec_grant.
    + rewrite lookup_insert_ne by done. apply spec_keep.
  - unfold abs. cbn. destruct (decide (shard = l_ShardID r)) as [->|Hne].
    + rewrite lookup_insert_eq, Hc. cbn. rewrite Ho, Ht. apply spec_keep.
    + rewrite lookup_insert_ne by done. apply spec_keep.
  - unfold abs. cbn. destruct (decide (shard = shard')) as [->|Hne].
    + rewrite lookup_delete_eq, Hr. apply spec_release.
    + rewrite lookup_delete_ne by done. apply spec_keep.
Qed.

(** The fences of the successful writes to a shard, the latest first. *)
Definition fences_of (shard : bytes) (e : call * option error) : option AuthorityFence :=
  match fence_of (PersistedSnapshot := PersistedSnapshot) (c_request e.1), e.2 with
  | Some (_, fence), None => if decide (af_ShardID fence = shard) then Some fence else None
  | _, _ => None
  end.

Definition authorised (shard : bytes) (h : list (call * option error)) : list AuthorityFence := omap (fences_of shard) h.

Definition same_holder (f g : AuthorityFence) : Prop := af_Owner f = af_Owner g ∧ af_Token f = af_Token g.

(** [f] may follow [g]. *)
Definition fenced (f g : AuthorityFence) : Prop :=
  o_Epoch (af_Owner g) <= o_Epoch (af_Owner f) ∧ (o_Epoch (af_Owner g) = o_Epoch (af_Owner f) → same_holder f g).

Lemma fenced_call c s s' key fence : perform c s = (None, s') → fence_of (c_request c) = Some (key, fence) →
  validateAuthorityLocked s key fence (c_now c) = None.
Proof.
  unfold StoreSpec.perform. destruct (c_request c); intros H [= -> ->]; revert H;
    unfold AppendUpdateAuthoritative, AppendUpdateV2Authoritative, appendUpdateV2, TrimUpdatesAuthoritative,
      SaveSnapshotCheckpointAuthoritative, failing; cbn [mbind option_bind];
    repeat case_match; intros; simplify_eq; done.
Qed.

Lemma validateAuthority_lease s key fence now : validateAuthorityLocked s key fence now = None →
  ∃ l, leases s !! af_ShardID fence = Some l ∧ l_Owner l = af_Owner fence ∧ l_Token l = af_Token fence ∧ now < ExpiresAt l.
Proof.
  unfold validateAuthorityLocked. destruct (placements s !! key); [|done]. destruct (negb _); [done|].
  destruct (leases s !! _) as [l|]; [|done]. case_bool_decide; [|done]. case_bool_decide; [|done]. cbn [negb].
  destruct (negb (After _ _)) eqn:E; [done|]. intros _. exists l. by apply After_false in E.
Qed.

(** What is remembered of the writes: no later lease has an earlier epoch, and
    the current one of the same epoch has the same holder. *)
Definition remembers (s : Store) (shard : bytes) (f : AuthorityFence) : Prop :=
  o_Epoch (af_Owner f) <= get0 (leaseLast s) shard ∧
  ∀ l, leases s !! shard = Some l → lease_epoch l = o_Epoch (af_Owner f) → l_Owner l = af_Owner f ∧ l_Token l = af_Token f.

Lemma remembers_step s s' shard f : spec_step (abs s shard) (abs s' shard) → remembers s shard f → remembers s' shard f.
Proof.
  remember (abs s shard) as a1 eqn:E1. remember (abs s' shard) as a2 eqn:E2.
  intros Hstep [Hle Hl]. destruct Hstep as [a|last h o t Hlt|last h].
  - rewrite E1 in E2. unfold abs in E2. injection E2 as E2 E3. split; [by rewrite <- E2|]. intros l El Hep. rewrite El in E3.
    destruct (leases s !! shard) as [l0|] eqn:E0; [|done]. cbn in E3. injection E3 as Eo Et. rewrite <- Eo, <- Et.
    apply (Hl l0 eq_refl). unfold lease_epoch in *. by rewrite Eo.
  - injection E1 as E1 _. injection E2 as E2 E3. split; [lia|]. intros l El Hep. rewrite El in E3. cbn in E3.
    injection E3 as E3 _. unfold lease_epoch in Hep. rewrite <- E3 in Hep. lia.
  - injection E1 as E1 _. injection E2 as E2 E3. split; [lia|]. intros l El. by rewrite El in E3.
Qed.

Lemma authorised_inv h s : reachable h s → ∀ shard,
  Forall (remembers s shard) (authorised shard h) ∧ ForallOrdPairs fenced (authorised shard h).
Proof.
  induction 1 as [|h s c out s' Hr IH Hp]; intros shard; [split; constructor|].
  destruct (IH shard) as [Hrem Hord]. pose proof (reachable_lease_inv _ _ Hr) as Hinv.
  pose proof (effect_spec_step _ _ shard (perform_effect _ _ _ _ _ _ Hinv Hp)) as Hstep.
  assert (Forall (remembers s' shard) (authorised shard h)) as Hrem'.
  { eapply Forall_impl; [exact Hrem|]. intros f. by apply remembers_step. }
  unfold authorised. cbn [omap list_omap]. fold (authorised shard h).
  destruct (fences_of shard (c, out)) as [f|] eqn:E; [|done]. unfold fences_of in E. cbn [fst snd] in E.
  destruct (fence_of (c_request c)) as [[key fence]|] eqn:Ef; [|done]. destruct out; [done|].
  case_decide as Hd; [|done]. injection E as <-. subst shard.
  pose proof (fenced_call _ _ _ _ _ Hp Ef) as Hv. apply validateAuthority_lease in Hv as (l & Hl & Ho & Ht & _).
  destruct (Hinv _ _ Hl) as (_ & _ & Hlast). unfold lease_epoch in Hlast. rewrite Ho in Hlast.
  split; constructor; [|done| |done].
  - eapply remembers_step; [exact Hstep|]. split; [lia|]. intros l' Hl' _. simplify_eq. done.
  - eapply Forall_impl; [exact Hrem|]. intros g [Hg1 Hg2]. split; [lia|]. intros He.
    destruct (Hg2 l Hl) as [E1 E2]; [unfold lease_epoch; by rewrite Ho|]. split; congruence.
Qed.

(** ** Properties *)

(** C33: The invariant of the store: after any history of fewer than 2^64 calls,
    whatever failed and whoever made them, every entry is filed under its own
    key and valid, the offsets of every update log strictly increase and never
    pass the counter of the document (which counts appends only), and the lease
    of a shard is valid and carries the last epoch granted for it. *)
Theorem store_invariant (h : list (call * option error)) (s : Store) (Hr : reachable h s)
    (Hh : Z.of_nat (length h) < 18446744073709551616) :
  store_ok s ∧ ∀ key, 0 <= get0 (updateNext s) key <= Z.of_nat (length h).
Proof. by apply reachable_ok. Qed.

(** C15: The leases refine the specification of fencing: on every shard each call
    grants the lease with an epoch above every earlier one, releases it, or
    changes nothing (so a renewal never changes owner, epoch or token); the
    holder has the last epoch; and a refused call changes nothing at all. *)
Theorem store_refines_lease_spec (h : list (call * option error)) (s s' : Store) (c : call) (out : option error)
    (Hr : reachable h s) (Hp : perform c s = (out, s')) :
  (∀ shard, spec_step (abs s shard) (abs s' shard)) ∧
  (∀ shard o t, sp_holder (abs s' shard) = Some (o, t) → o_Epoch o = sp_last (abs s' shard)) ∧
  (out ≠ None → s' = s).
Proof.
  pose proof (reachable_lease_inv _ _ Hr) as Hinv. pose proof (perform_effect _ _ _ _ _ _ Hinv Hp) as He. split_and!.
  - intros shard. by apply effect_spec_step.
  - intros shard o t. unfold abs. cbn. destruct (leases s' !! shard) as [l|] eqn:E; [|done]. cbn. intros [= <- <-].
    by destruct (lease_inv_effect _ _ Hinv He _ _ E) as (_ & _ & ->).
  - destruct out; [|done]. intros _. by eapply perform_error.
Qed.

(** C32: Fencing: among all writes that succeeded under a fence of a shard
    (appends, trims and snapshots, over any interleaving), the epochs never go
    back, and two writes with the same epoch were made by the same owner with
    the same token.  An owner whose lease was taken over can never write again. *)
Theorem fenced_writes (h : list (call * option error)) (s : Store) (shard : bytes) (i j : nat) (f g : AuthorityFence)
    (Hr : reachable h s) (Hij : (i < j)%nat) (Hf : authorised shard h !! i = Some f) (Hg : authorised shard h !! j = Some g) :
  o_Epoch (af_Owner g) <= o_Epoch (af_Owner f) ∧
  (o_Epoch (af_Owner g) = o_Epoch (af_Owner f) → af_Owner f = af_Owner g ∧ af_Token f = af_Token g).
Proof.
  destruct (authorised_inv h s Hr shard) as [_ Hord]. clear Hr. revert i j Hij Hf Hg.
  induction Hord as [|x l Hx Hord IH]; intros i j Hij Hf Hg; [done|].
  destruct i as [|i], j as [|j]; try lia; cbn in Hf, Hg.
  - injection Hf as <-. rewrite Forall_lookup in Hx. by apply (Hx j).
  - apply (IH i j); [lia|done..].
Qed.

(** A shard can always be taken over: once its lease is released or expired
    at the acquisition time, a valid lease with a larger epoch than the last one
    is granted, and until it expires its owner may write to every document
    placed on the shard. *)
Theorem lease_takeover (h : list (call * option error)) (s : Store) (now later : Z) (l : LeaseRecord) (key : DocumentKey)
    (p : PlacementRecord) (Hr : reachable h s) (Hv : LeaseRecord_Validate l = None) (Ha : AcquiredAt l ≠ 0)
    (Hepoch : get0 (leaseLast s) (l_ShardID l) < lease_epoch l)
    (Hfree : ∀ old, leases s !! l_ShardID l = Some old → ExpiresAt old <= AcquiredAt l)
    (Hplace : placements s !! key = Some p) (Hshard : pl_ShardID p = l_ShardID l) (Hlater : later < ExpiresAt l) :
  ∃ s', SaveLease None now l s = (Ok l, s') ∧
    validateAuthorityLocked s' key (mkFence (l_ShardID l) (l_Owner l) (l_Token l)) later = None.
Proof.
  pose proof (reachable_lease_inv _ _ Hr) as Hinv. unfold SaveLease, IsZero. rewrite (proj2 (Z.eqb_neq _ _)) by done.
  rewrite Hv. assert (admit_lease (leases s !! l_ShardID l) (get0 (leaseLast s) (l_ShardID l)) l = Ok l) as ->.
  { unfold admit_lease. destruct (leases s !! l_ShardID l) as [old|] eqn:E.
    - destruct (Hinv _ _ E) as (_ & _ & Hl). specialize (Hfree _ eq_refl). unfold sameLeaseRecord.
      rewrite (bool_decide_eq_false_2 (l_Owner old = l_Owner l)) by (intros Ho; unfold lease_epoch in *; rewrite Ho in Hl; lia).
      rewrite andb_false_r. unfold After. cbn [andb]. rewrite (proj2 (Z.ltb_ge _ _)) by done.
      rewrite !(proj2 (Z.leb_gt _ _)) by lia. done.
    - by rewrite (proj2 (Z.leb_gt _ _)) by lia. }
  assert (negb (After (ExpiresAt l) (AcquiredAt l)) = false) as Hex.
  { unfold LeaseRecord_Validate, IsZero in Hv. destruct (ShardID_Validate _), (OwnerInfo_Validate (l_Owner l)); try done.
    destruct (is_blank (l_Token l)), (ExpiresAt l =? 0); try done. rewrite (proj2 (Z.eqb_neq _ _)) in Hv by done.
    by destruct (negb (After _ _)). }
  rewrite Hex. rewrite (proj2 (Z.ltb_lt _ _)) by done. eexists. split; [done|]. unfold validateAuthorityLocked.
  cbn. rewrite Hplace, Hshard, lookup_insert_eq. rewrite !bool_decide_eq_true_2 by done. cbn. unfold After.
  by rewrite (proj2 (Z.ltb_lt _ _)).
Qed.

(** The update log is a list: appending puts the record behind all others
    with an offset never used before, listing returns the records behind an
    offset (the first [limit] of them), trimming removes exactly the records up
    to an offset; each leaves the logs of other documents alone, and a trim up
    to a checkpoint does not change what is listed behind it. *)
Theorem update_log (h : list (call * option error)) (s : Store) (key : DocumentKey) (Hr : reachable h s)
    (Hh : Z.of_nat (length h) + 1 < 18446744073709551616) (Hk : DocumentKey_Validate key = None) :
  (∀ after limit, ListUpdates None key after limit s =
     Ok (let rs := filter (λ r, after < ul_Offset r) (log s key) in
         if 0 <? limit then take (Z.to_nat limit) rs else rs)) ∧
  (∀ through, ∃ s', TrimUpdates None key through s = (None, s') ∧
     log s' key = filter (λ r, through < ul_Offset r) (log s key) ∧ (∀ key', key' ≠ key → log s' key' = log s key') ∧
     ∀ after limit, through <= after → ListUpdates None key after limit s' = ListUpdates None key after limit s) ∧
  (∀ now update, update ≠ [] → ∃ r s', AppendUpdateV2 None now key update s = (Ok r, s') ∧
     UpdateV2 r = update ∧ ul_Offset r = get0 (updateNext s) key + 1 ∧ Forall (λ r', ul_Offset r' < ul_Offset r) (log s key) ∧
     log s' key = log s key ++ [r] ∧ ∀ key', key' ≠ key → log s' key' = log s key').
Proof.
  destruct (reachable_ok h s Hr) as [Hs Hn]; [lia|]. pose proof (log_ok_default s key Hs) as [Hsort Hbound].
  assert (∀ s after limit, StronglySorted (λ a b, ul_Offset a < ul_Offset b) (log s key) → ListUpdates None key after limit s =
     Ok (let rs := filter (λ r, after < ul_Offset r) (log s key) in if 0 <? limit then take (Z.to_nat limit) rs else rs)) as Hlist.
  { clear - Hk. intros s after limit Hsort. destruct (first_index_filter _ after Hsort) as [<- Hle].
    unfold ListUpdates. cbn [guard_err foldr]. rewrite Hk. set (k := firstUpdateLogIndexAfter _ _) in *.
    destruct (Nat.leb_spec (length (log s key)) k).
    - rewrite drop_ge by lia. by case_if; rewrite ?take_nil.
    - f_equal. cbv zeta. destruct (Z.ltb_spec 0 limit); cbn [andb]; [case_if; [done|]|]; rewrite ?take_ge by (rewrite length_drop; lia); done. }
  split_and!.
  - intros after limit. by apply Hlist.
  - intros through. exists (trim_records key through s). pose proof (trim_records_log key through s key Hs) as Hlog.
    rewrite decide_True in Hlog by done. split_and!; [by unfold TrimUpdates; cbn; rewrite Hk|done| |].
    + intros key' Hne. rewrite trim_records_log by done. by rewrite decide_False.
    + intros after limit Hta. rewrite !Hlist, Hlog by (rewrite ?Hlog; try apply SSorted_filter; done).
      do 2 f_equal. by rewrite list_filter_filter_l by (intros; lia).
  - intros now update Hu. unfold AppendUpdateV2, appendUpdateV2. cbn [guard_err foldr mbind option_bind]. rewrite Hk.
    destruct update as [|b update]; [done|]. cbn [require_nonempty]. unfold append_record. eexists _, _. split; [done|].
    specialize (Hn key). cbn. unfold w64. rewrite Z.mod_small by lia. split_and!; [done..| | |].
    + eapply Forall_impl; [exact Hbound|]. cbn. intros r (_ & _ & ?). lia.
    + by rewrite lookup_insert_eq.
    + intros key' Hne. by rewrite lookup_insert_ne.
Qed.

End histories.

(** ** A history *)

Definition no_conversion (_ : bytes) : option bytes := None.
Definition unit_snapshot (_ : unit) : result bytes := Ok [0].

(** Run calls, the earliest first. *)
Fixpoint run (cs : list (call (PersistedSnapshot := unit))) (h : list (call * option error)) (s : Store) : list (call * option error) * Store :=
  match cs with
  | [] => (h, s)
  | c :: cs => let '(out, s') := StoreSpec.perform no_conversion unit_snapshot c s in run cs ((c, out) :: h) s'
  end.

Lemma reachable_run cs h s : StoreSpec.reachable no_conversion unit_snapshot h s →
  StoreSpec.reachable no_conversion unit_snapshot (run cs h s).1 (run cs h s).2.
Proof.
  revert h s. induction cs as [|c cs IH]; intros h s Hr; [done|]. cbn [run].
  destruct (StoreSpec.perform _ _ c s) as [out s'] eqn:E. apply IH. by eapply reachable_call.
Qed.

Definition sample_doc : DocumentKey := mkDocumentKey [] [100].
Definition owner_a : OwnerInfo := mkOwner [97] 1.
Definition owner_b : OwnerInfo := mkOwner [98] 2.
Definition lease_a : LeaseRecord := mkLease [115] owner_a [116] 10 100.
Definition lease_b : LeaseRecord := mkLease [115] owner_b [117] 100 200.
Definition fence_a : AuthorityFence := mkFence [115] owner_a [116].
Definition fence_b : AuthorityFence := mkFence [115] owner_b [117].

(** [a] writes twice and trims, [b] takes over, [a] is refused, [b] writes. *)
Definition sample_calls : list (call (PersistedSnapshot := unit)) :=
  [mkCall None 5 (SavePlacement_ (mkPlacement sample_doc [115] 0 0));
   mkCall None 10 (SaveLease_ lease_a);
   mkCall None 20 (AppendUpdateV2Authoritative_ sample_doc [1] fence_a);
   mkCall None 21 (AppendUpdateAuthoritative_ sample_doc [2] fence_a);
   mkCall None 22 (TrimUpdatesAuthoritative_ sample_doc 1 fence_a);
   mkCall None 100 (SaveLease_ lease_b);
   mkCall None 110 (AppendUpdateV2Authoritative_ sample_doc [3] fence_a);
   mkCall None 111 (SaveSnapshotCheckpointAuthoritative_ sample_doc (Some tt) 1 fence_b)].

Definition sample_history : list (call * option error) := (run sample_calls [] Store_New).1.
Definition sample_store : Store := (run sample_calls [] Store_New).2.

Lemma sample_reachable : StoreSpec.reachable no_conversion unit_snapshot sample_history sample_store.
Proof. apply (reachable_run sample_calls), reachable_new. Qed.

Lemma store_invariant_witness : store_ok sample_store ∧ get0 (updateNext sample_store) sample_doc = 2.
Proof.
  split; [|vm_compute; reflexivity].
  apply (store_invariant no_conversion unit_snapshot sample_history sample_store sample_reachable). vm_compute. reflexivity.
Defined.

Lemma store_refines_lease_spec_witness :
  let s' := snd (SaveLease None 150 (mkLease [115] owner_b [117] 150 300) sample_store) in
  spec_step (abs sample_store [115]) (abs s' [115]) ∧ abs s' [115] = mkSpec 2 (Some (owner_b, [117])).
Proof.
  cbv zeta. split; [|vm_compute; reflexivity].
  destruct (store_refines_lease_spec no_conversion unit_snapshot sample_history sample_store
    (snd (SaveLease None 150 (mkLease [115] owner_b [117] 150 300) sample_store))
    (mkCall None 150 (SaveLease_ (mkLease [115] owner_b [117] 150 300))) None sample_reachable) as (H & _ & _).
  - vm_compute. reflexivity.
  - apply H.
Defined.

Lemma fenced_writes_witness : authorised [115] sample_history = [fence_b; fence_a; fence_a; fence_a] ∧
  o_Epoch (af_Owner fence_a) <= o_Epoch (af_Owner fence_b).
Proof.
  split; [vm_compute; reflexivity|].
  refine (proj1 (fenced_writes no_conversion unit_snapshot sample_history sample_store [115] 0 2 fence_b fence_a
    sample_reachable _ _ _)); [lia|vm_compute; reflexivity..].
Defined.

Lemma lease_takeover_witness : ∃ s', SaveLease None 200 (mkLease [115] (mkOwner [97] 3) [118] 200 300) sample_store =
    (Ok (mkLease [115] (mkOwner [97] 3) [118] 200 300), s') ∧
  validateAuthorityLocked s' sample_doc (mkFence [115] (mkOwner [97] 3) [118]) 299 = None.
Proof.
  apply (lease_takeover no_conversion unit_snapshot sample_history sample_store 200 299
    (mkLease [115] (mkOwner [97] 3) [118] 200 300) sample_doc (mkPlacement sample_doc [115] 0 5) sample_reachable);
    [vm_compute; reflexivity|done|vm_compute; reflexivity| |vm_compute; reflexivity|reflexivity|reflexivity].
  intros old. cbn [l_ShardID]. replace (leases sample_store !! [115]) with (Some lease_b) by (vm_compute; reflexivity).
  intros [= <-]. cbn. lia.
Defined.

Lemma update_log_witness : ∃ s', TrimUpdates None sample_doc 2 sample_store = (None, s') ∧ default [] (updateLogs s' !! sample_doc) = [].
Proof.
  destruct (update_log no_conversion unit_snapshot sample_history sample_store sample_doc sample_reachable)
    as (_ & H & _); [vm_compute; reflexivity..|].
  destruct (H 2) as (s' & H1 & H2 & _). exists s'. split; [done|]. rewrite H2. vm_compute. reflexivity.
Defined.
