(* ===== verification/ClusterTypes.v ===== *)
(** * pkg/ycluster: identifiers, leases, placements and shards

    types.go, resolver.go, the conversions of storage_adapter.go and the fences
    of authority_fence.go.  A node id is a byte string, a shard id a [uint32];
    the storage keeps the shard in decimal.  Records are values, so [Clone] is
    the identity. *)
From S2P Require Import Prelude GoError GoText StorageTypes.

(** [fmt.Errorf("%w: %v", target, err)]: the cause is only text. *)
Definition with_cause (target : sentinel) (r : option error) : option error :=
  match r with Some _ => Some (Wrapped "%w: %v" target) | None => None end.

(** ** Nodes and shards *)

Definition NodeID_Valid (id : bytes) : option error :=
  if is_blank id then Some (Sentinel ycluster_ErrInvalidNodeID) else None.

(** [ShardID.String]. *)
Definition ShardID_String (id : Z) : bytes := FormatUint id.

Definition StorageShardID (id : Z) : bytes := ShardID_String id.
Definition StorageNodeID (id : bytes) : bytes := id.

Definition ParseStorageShardID (id : bytes) : result Z :=
  match ShardID_Validate id with
  | Some _ => Err (Wrapped "%w: %v" ycluster_ErrInvalidPlacement)
  | None =>
      match ParseUint32 id with
      | None => Err (Wrapped "%w: shard storage %q invalido" ycluster_ErrInvalidPlacement)
      | Some value => Ok value
      end
  end.

Definition ParseStorageNodeID (id : bytes) : result bytes :=
  match NodeID_Valid id with Some err => Err err | None => Ok id end.

(** ** Leases *)

Record Lease := mkClusterLease {
  cl_ShardID : Z; Holder : bytes; Epoch : Z; Token : bytes; cl_AcquiredAt : Z; cl_ExpiresAt : Z }.

#[export] Instance Lease_eq_dec : EqDecision Lease.
Proof. solve_decision. Defined.

Definition Lease_Validate (l : Lease) : option error :=
  match NodeID_Valid (Holder l) with
  | Some _ => Some (Wrapped "%w: %v" ycluster_ErrInvalidLease)
  | None =>
      if Epoch l =? 0 then Some (Wrapped "%w: epoch obrigatorio" ycluster_ErrInvalidLease)
      else if is_blank (Token l) then Some (Wrapped "%w: token obrigatorio" ycluster_ErrInvalidLease)
      else if IsZero (cl_ExpiresAt l) then Some (Wrapped "%w: expiresAt obrigatorio" ycluster_ErrInvalidLease)
      else if negb (IsZero (cl_AcquiredAt l)) && negb (After (cl_ExpiresAt l) (cl_AcquiredAt l))
      then Some (Wrapped "%w: expiresAt deve ser posterior a acquiredAt" ycluster_ErrInvalidLease)
      else None
  end.

Definition ActiveAt (l : Lease) (now : Z) : bool :=
  if IsZero (cl_ExpiresAt l) then false else Before now (cl_ExpiresAt l).

Definition ExpiredAt (l : Lease) (now : Z) : bool :=
  if IsZero (cl_ExpiresAt l) then false else negb (Before now (cl_ExpiresAt l)).

Record LeaseRequest := mkLeaseRequest { lr_ShardID : Z; lr_Holder : bytes; lr_TTL : Z; lr_Token : bytes }.

Definition LeaseRequest_Validate (r : LeaseRequest) : option error :=
  match NodeID_Valid (lr_Holder r) with
  | Some _ => Some (Wrapped "%w: %v" ycluster_ErrInvalidLeaseRequest)
  | None => if lr_TTL r <=? 0 then Some (Wrapped "%w: ttl obrigatorio" ycluster_ErrInvalidLeaseRequest) else None
  end.

Definition LeaseFromStorageRecord (record : option LeaseRecord) : result Lease :=
  match record with
  | None => Err (Wrapped "%w: lease storage nil" ycluster_ErrInvalidLease)
  | Some record =>
      match LeaseRecord_Validate record with
      | Some _ => Err (Wrapped "%w: %v" ycluster_ErrInvalidLease)
      | None =>
          match ParseStorageShardID (l_ShardID record) with
          | Err _ => Err (Wrapped "%w: %v" ycluster_ErrInvalidLease)
          | Ok shardID =>
              match ParseStorageNodeID (o_NodeID (l_Owner record)) with
              | Err _ => Err (Wrapped "%w: %v" ycluster_ErrInvalidLease)
              | Ok holder =>
                  let lease := mkClusterLease shardID holder (o_Epoch (l_Owner record)) (l_Token record)
                                 (AcquiredAt record) (ExpiresAt record) in
                  match Lease_Validate lease with Some err => Err err | None => Ok lease end
              end
          end
      end
  end.

(** ** Placements *)

Record Placement := mkClusterPlacement { p_ShardID : Z; p_NodeID : bytes; p_Lease : option Lease; p_Version : Z }.

Definition Placement_Validate (p : Placement) : option error :=
  match NodeID_Valid (p_NodeID p) with
  | Some _ => Some (Wrapped "%w: %v" ycluster_ErrInvalidPlacement)
  | None =>
      match p_Lease p with
      | None => None
      | Some lease =>
          match Lease_Validate lease with
          | Some _ => Some (Wrapped "%w: %v" ycluster_ErrInvalidPlacement)
          | None =>
              if negb (cl_ShardID lease =? p_ShardID p)
              then Some (Wrapped "%w: lease shard %s difere do placement %s" ycluster_ErrInvalidPlacement)
              else if negb (bool_decide (Holder lease = p_NodeID p))
              then Some (Wrapped "%w: lease holder %q difere do owner %q" ycluster_ErrInvalidPlacement)
              else None
          end
      end
  end.

(** [OwnerLookupRequest.Validate]. *)
Definition OwnerLookupRequest_Validate (key : DocumentKey) : option error :=
  with_cause ycluster_ErrInvalidOwnerLookupRequest (DocumentKey_Validate key).

Record OwnerResolution := mkResolution { r_DocumentKey : DocumentKey; r_Placement : Placement; Local : bool }.

(** ** Shards: FNV-1a over the namespace, a zero byte and the document id *)

Record ShardResolver := mkResolver { ResolveShard : DocumentKey → result Z; ShardCount : Z }.

Definition fnv64_offset : Z := 14695981039346656037.
Definition fnv64_prime : Z := 1099511628211.

(** hash/fnv's New64a and Write. *)
Definition fnv64a (hash : Z) (s : bytes) : Z :=
  fold_left (λ hash c, w64 (Z.lxor hash c * fnv64_prime)) s hash.

Definition DeterministicShardResolver_ResolveShard (shardCount : Z) (key : DocumentKey) : result Z :=
  if shardCount =? 0 then Err ycluster_ErrInvalidShardCount
  else
    match DocumentKey_Validate key with
    | Some err => Err err
    | None =>
        let hash := fnv64a (fnv64a (fnv64a fnv64_offset (Namespace key)) [0]) (DocumentID key) in
        Ok (w32 (hash mod shardCount))
    end.

Definition NewDeterministicShardResolver (shardCount : Z) : result ShardResolver :=
  if shardCount =? 0 then Err ycluster_ErrInvalidShardCount
  else Ok (mkResolver (DeterministicShardResolver_ResolveShard shardCount) shardCount).

(** ** Fences *)

Definition isAuthorityUnavailable (err : error) : bool :=
  errors_Is err ycluster_ErrOwnerNotFound || errors_Is err ycluster_ErrPlacementNotFound ||
  errors_Is err ycluster_ErrLeaseExpired || errors_Is err ycluster_ErrInvalidPlacement ||
  errors_Is err ycluster_ErrInvalidLease.

Definition AuthorityFenceFromResolution (resolution : option OwnerResolution) : result AuthorityFence :=
  match resolution with
  | None => Err (Wrapped "%w: owner resolution ausente" storage_ErrAuthorityLost)
  | Some resolution =>
      if negb (Local resolution) then Err (Wrapped "%w: owner remoto %q" storage_ErrAuthorityLost)
      else
        let placement := r_Placement resolution in
        match Placement_Validate placement with
        | Some err => Err err
        | None =>
            match p_Lease placement with
            | None => Err (Wrapped "%w: lease ausente para shard %s" storage_ErrAuthorityLost)
            | Some lease =>
                let fence := mkFence (StorageShardID (p_ShardID placement))
                               (mkOwner (StorageNodeID (p_NodeID placement)) (Epoch lease)) (Token lease) in
                match AuthorityFence_Validate fence with Some err => Err err | None => Ok fence end
            end
        end
  end.
