(* ===== verification/Effects.v ===== *)
(** * Computations over shared state

    A function of the source that calls a service other processes use at the same
    time, reads the clock and asks its context is a tree of such actions
    ([prog]): [reply] types what each action returns.  A [Handler] answers the
    actions from a state, in the surroundings of the [instant].  [wp] is the
    weakest precondition of a computation when anything the relation [R] allows
    may happen to the state before each action; [run] executes it alone.  A pool of
    computations runs interleaved, action by action ([pool_step]). *)
From stdpp Require Import relations.
From S2P Require Import Prelude GoError.

(** ** Computations *)

Inductive prog {op : Type} (reply : op → Type) (A : Type) :=
| Ret (x : A)
| Act (a : op) (k : reply a → prog reply A).
Arguments Ret {op reply A} x.
Arguments Act {op reply A} a k.

Fixpoint prog_bind_ {op} {reply : op → Type} {A B} (f : A → prog reply B) (m : prog reply A) : prog reply B :=
  match m with Ret x => f x | Act a k => Act a (λ r, prog_bind_ f (k r)) end.

#[export] Instance prog_ret {op} (reply : op → Type) : MRet (prog reply) := λ A, Ret.
#[export] Instance prog_bind {op} (reply : op → Type) : MBind (prog reply) := λ A B, prog_bind_.
#[export] Instance prog_fmap {op} (reply : op → Type) : FMap (prog reply) := λ A B f, prog_bind_ (λ x, Ret (f x)).

Definition act {op} {reply : op → Type} (a : op) : prog reply (reply a) := Act a Ret.

(** [x, err := m; if err != nil { return err }; k x]. *)
Definition io_then {op} {reply : op → Type} {A B} (m : prog reply (result A)) (k : A → prog reply (result B)) : prog reply (result B) :=
  r ← m; match r with Ok x => k x | Err err => Ret (Err err) end.

(** [if err := check; err != nil { return err }; k]. *)
Definition io_require {op} {reply : op → Type} {B} (check : option error) (k : prog reply (result B)) : prog reply (result B) :=
  match check with Some err => Ret (Err err) | None => k end.

Declare Scope io_scope.
Delimit Scope io_scope with io.
Notation "x '<-?' m ; k" := (io_then m (λ x, k)) (at level 20, m at level 100, k at level 200) : io_scope.
Notation "'require' c ; k" := (io_require c k) (at level 20, c at level 100, k at level 200) : io_scope.

(** ** Surroundings and handlers *)

(** What an action sees of its surroundings: whether its context has ended, and the clock. *)
Inductive ctx_end := Canceled | DeadlineExceeded.

Definition ctx_error (e : ctx_end) : error :=
  match e with Canceled => context_Canceled | DeadlineExceeded => context_DeadlineExceeded end.

Record instant := mkInstant { i_ctx : option ctx_end; i_now : Z }.

(** [ctx.Err()]. *)
Definition i_ctxErr (i : instant) : option error := ctx_error <$> i_ctx i.

Class Handler {op : Type} (reply : op → Type) (St : Type) := answer : ∀ a : op, instant → St → reply a * St.

(** ** Execution *)

Section exec.
Context {op : Type} {reply : op → Type} {St : Type} `{Handler op reply St}.
Abbreviation io := (prog reply).

(** What may happen to the storage between two actions, and the surroundings. *)
Variable R : St → St → Prop.
Variable C : instant → Prop.

Fixpoint wp {A} (m : io A) (Q : A → St → Prop) (s : St) : Prop :=
  match m with
  | Ret x => Q x s
  | Act a k => ∀ s1 i, R s s1 → C i → wp (k (answer a i s1).1) Q (answer a i s1).2
  end.

Lemma wp_bind {A B} (m : io A) (f : A → io B) Q s : wp (m ≫= f) Q s ↔ wp m (λ x, wp (f x) Q) s.
Proof.
  revert s. induction m as [x|a k IH]; intros s; [done|]. cbn.
  split; intros Hm s1 i HR HI; apply IH; by apply Hm.
Qed.

Lemma wp_mono {A} (m : io A) (P Q : A → St → Prop) s : (∀ x s, P x s → Q x s) → wp m P s → wp m Q s.
Proof. intros HPQ. revert s. induction m as [x|a k IH]; intros s; cbn; [apply HPQ|]. intros Hm s1 i HR HI. by apply IH, Hm. Qed.

(** Every computation ends. *)
Lemma wp_any {A} (m : io A) s : wp m (λ _ _, True) s.
Proof. revert s. induction m as [x|a k IH]; intros s; cbn; [done|]. intros. apply IH. Qed.

Lemma wp_act a Q s : wp (act a) Q s ↔ ∀ s1 i, R s s1 → C i → Q (answer a i s1).1 (answer a i s1).2.
Proof. done. Qed.

Lemma wp_then {A B} (m : io (result A)) (k : A → io (result B)) Q s :
  wp (io_then m k) Q s ↔ wp m (λ r, match r with Ok x => wp (k x) Q | Err err => Q (Err err) end) s.
Proof. unfold io_then. rewrite wp_bind. split; apply wp_mono; by intros []. Qed.

Lemma wp_require {B} check (k : io (result B)) (Q : result B → St → Prop) s :
  (∀ err, check = Some err → Q (Err err) s) → (check = None → wp k Q s) → wp (io_require check k) Q s.
Proof. destruct check; cbn; eauto. Qed.

(** The executions [wp] quantifies over. *)
Fixpoint exec {A} (m : io A) (s : St) (x : A) (s' : St) : Prop :=
  match m with
  | Ret y => y = x ∧ s = s'
  | Act a k => ∃ s1 i, R s s1 ∧ C i ∧ exec (k (answer a i s1).1) (answer a i s1).2 x s'
  end.

Lemma wp_exec {A} (m : io A) Q s : wp m Q s ↔ ∀ x s', exec m s x s' → Q x s'.
Proof.
  revert s. induction m as [y|a k IH]; intros s; cbn.
  - split; [by intros HQ x s' [-> ->]|]. intros HQ. by apply HQ.
  - split.
    + intros Hw x s' (s1 & i & HR & HI & Hk). eapply IH; [by apply Hw|done].
    + intros HQ s1 i HR HI. apply IH. intros x s' He. apply HQ. by exists s1, i.
Qed.

(** [P] holds at every moment: at the start and after each action, wherever the
    process stops. *)
Fixpoint always {A} (P : St → Prop) (m : io A) (s : St) : Prop :=
  P s ∧ match m with
        | Ret _ => True
        | Act a k => ∀ s1 i, R s s1 → C i → always P (k (answer a i s1).1) (answer a i s1).2
        end.

Lemma always_end {A} P (m : io A) s : always P m s → wp m (λ _, P) s.
Proof. revert s. induction m as [x|a k IH]; intros s [HP Hm]; cbn; [done|]. intros s1 i HR HI. apply IH. by apply Hm. Qed.

Lemma always_bind {A B} P (m : io A) (f : A → io B) s :
  always P m s → wp m (λ x, always P (f x)) s → always P (m ≫= f) s.
Proof.
  revert s. induction m as [x|a k IH]; intros s; [done|]. cbn. intros [HP Hm] Hw. split; [done|].
  intros s1 i HR HI. apply IH; [by apply Hm|by apply Hw].
Qed.

(** Every action of [m] is one of [allowed]. *)
Fixpoint only {A} (allowed : op → Prop) (m : io A) : Prop :=
  match m with Ret _ => True | Act a k => allowed a ∧ ∀ r, only allowed (k r) end.

Lemma only_bind {A B} allowed (m : io A) (f : A → io B) : only allowed m → (∀ x, only allowed (f x)) → only allowed (m ≫= f).
Proof. intros Hm Hf. induction m as [x|a k IH]; [apply Hf|]. destruct Hm as [Ha Hm]. split; [done|]. intros r. by apply IH. Qed.

Lemma only_then {A B} allowed (m : io (result A)) (f : A → io (result B)) :
  only allowed m → (∀ x, only allowed (f x)) → only allowed (io_then m f).
Proof. intros Hm Hf. apply only_bind; [done|]. by intros []. Qed.

(** What the actions of [m] preserve, and everybody else, holds at every moment. *)
Lemma always_only {A} allowed (P : St → Prop) (m : io A) s :
  (∀ s s1 a i, allowed a → P s → R s s1 → C i → P (answer a i s1).2) → only allowed m → P s → always P m s.
Proof.
  intros Hst. revert s. induction m as [x|a k IH]; intros s Ho HP; cbn; [done|]. destruct Ho as [Ha Ho].
  split; [done|]. intros s1 i HR HI. apply IH; [done|]. by eapply Hst.
Qed.

(** Alone, with the surroundings of each action in a list. *)
Fixpoint run {A} (m : io A) (ts : list instant) (s : St) : option (A * St) :=
  match m, ts with
  | Ret x, _ => Some (x, s)
  | Act a k, [] => None
  | Act a k, i :: ts => run (k (answer a i s).1) ts (answer a i s).2
  end.

(** With what others do before each action. *)
Fixpoint run_among {A} (m : io A) (ts : list ((St → St) * instant)) (s : St) : option (A * St) :=
  match m, ts with
  | Ret x, _ => Some (x, s)
  | Act a k, [] => None
  | Act a k, (f, i) :: ts => run_among (k (answer a i (f s)).1) ts (answer a i (f s)).2
  end.

Lemma run_among_exec {A} (m : io A) ts s x s' :
  Forall (λ t, (∀ s, R s (t.1 s)) ∧ C t.2) ts → run_among m ts s = Some (x, s') → exec m s x s'.
Proof.
  revert ts s. induction m as [y|a k IH]; intros ts s Ht; cbn; [by intros [= -> ->]|].
  destruct ts as [|[f i] ts]; [done|]. apply Forall_cons in Ht as [[HR HC] Ht]. intros Hr. exists (f s), i.
  split; [apply HR|]. split; [done|]. by eapply IH.
Qed.

Lemma wp_run {A} (m : io A) Q ts s x s' : Reflexive R → Forall C ts → wp m Q s → run m ts s = Some (x, s') → Q x s'.
Proof.
  intros HR. revert ts s. induction m as [y|a k IH]; intros ts s HI Hw; cbn; [by intros [= <- <-]|].
  destruct ts as [|i ts]; [done|]. apply Forall_cons in HI as [? ?]. apply IH; [done|]. by apply Hw.
Qed.

End exec.

(** ** Pools of computations *)

Section pool.
Context {op : Type} {reply : op → Type} {St : Type} `{Handler op reply St} {A : Type}.

(** The actions that do not have to wait, and the computations that may start at any time. *)
Variable enabled : op → St → Prop.
Variable starts : prog reply A → Prop.

Abbreviation config := (list (prog reply A) * St)%type.

(** Some computation of the pool takes its next action. *)
Inductive act_step : config → config → Prop :=
| act_step_intro j a k i ts s : ts !! j = Some (Act a k) → enabled a s →
    act_step (ts, s) (<[j := k (answer a i s).1]> ts, (answer a i s).2).

Inductive pool_step : config → config → Prop :=
| pool_start m ts s : starts m → pool_step (ts, s) (ts ++ [m], s)
| pool_act c c' : act_step c c' → pool_step c c'.

Definition child (m' m : prog reply A) : Prop := match m with Ret _ => False | Act _ k => ∃ x, m' = k x end.

(** One of the pool has taken an action. *)
Definition shorter (ts' ts : list (prog reply A)) : Prop := ∃ j m m', ts !! j = Some m ∧ child m' m ∧ ts' = <[j := m']> ts.

Lemma shorter_wf ts : Acc shorter ts.
Proof.
  induction ts as [|m ts IH]; [constructor; by intros ts' (j & m & m' & Hj & _)|]. revert ts IH.
  induction m as [x|a k IHk]; intros ts IH; induction IH as [ts Hts IH]; constructor; intros ts' ([|j] & m & m' & Hj & Hc & ->); cbn in *.
  - by injection Hj as <-.
  - apply IH. by exists j, m, m'.
  - injection Hj as <-. destruct Hc as [x ->]. by apply IHk.
  - apply IH. by exists j, m, m'.
Qed.

(** A pool that nothing is added to comes to an end, whatever the schedule. *)
Lemma pool_ends c : Acc (λ c' c, act_step c c') c.
Proof.
  destruct c as [ts s]. revert s. induction (shorter_wf ts) as [ts _ IH]. intros s. constructor. intros c' Hc.
  inversion Hc as [j a k i ts0 s0 Hj]; subst. apply IH. eexists j, _, _. split; [exact Hj|]. split; [by eexists|done].
Qed.

(** A schedule: a computation that starts, or the number of the one whose turn it
    is, in its surroundings. *)
Context `{∀ a s, Decision (enabled a s)}.

Definition turn (t : prog reply A + nat * instant) (c : config) : option config :=
  match t with
  | inl m => Some (c.1 ++ [m], c.2)
  | inr (j, i) =>
      match c.1 !! j with
      | Some (Act a k) => if decide (enabled a c.2) then Some (<[j := k (answer a i c.2).1]> c.1, (answer a i c.2).2) else None
      | _ => None
      end
  end.

Fixpoint schedule (l : list (prog reply A + nat * instant)) (c : config) : option config :=
  match l with [] => Some c | t :: l => match turn t c with Some c => schedule l c | None => None end end.

Lemma schedule_steps l c c' : Forall (λ t, match t with inl m => starts m | inr _ => True end) l → schedule l c = Some c' → rtc pool_step c c'.
Proof.
  revert c. induction l as [|t l IH]; intros [ts s] Hl; cbn; [by intros [= <-]|]. apply Forall_cons in Hl as [Ht Hl].
  destruct (turn t (ts, s)) as [c|] eqn:E; [|done]. intros Hs. apply rtc_l with c; [|by apply IH]. destruct t as [m|[j i]]; cbn in E.
  - injection E as <-. by constructor.
  - destruct (ts !! j) as [[|a k]|] eqn:Ej; [done| |done]. destruct (decide _); [|done]. injection E as <-. apply pool_act. by econstructor.
Qed.

End pool.
