(* ===== verification/ClusterIO.v ===== *)
(** * The storage the cluster computes over

    The operations of pkg/ycluster are computations ([Effects]) over a storage
    that other nodes use at the same time.  [Storage] is the contract of
    pkg/storage's interfaces: what a lease store promises; [StorageLaws] is
    discharged by the memory store. *)
From stdpp Require Import relations.
From S2P Require Import Prelude GoError GoText StorageTypes MemoryStore StoreSpec Effects.

(** ** Actions *)

(** The stores return a pointer and an error: [Ok None] is a nil pointer without an error. *)
Inductive op :=
| Now
| CtxErr
| DoLoadLease (shardID : bytes)
| DoSaveLease (lease : LeaseRecord)
| DoHandoffLease (shardID currentToken : bytes) (next : LeaseRecord)
| DoReleaseLease (shardID token : bytes)
| DoLoadPlacement (key : DocumentKey)
| DoSavePlacement (placement : PlacementRecord)
| DoListPlacements (namespace : bytes) (limit : Z).

Definition reply (a : op) : Type :=
  match a with
  | Now => Z
  | CtxErr => option error
  | DoLoadLease _ | DoSaveLease _ | DoHandoffLease _ _ _ => result (option LeaseRecord)
  | DoReleaseLease _ _ => option error
  | DoLoadPlacement _ | DoSavePlacement _ => result (option PlacementRecord)
  | DoListPlacements _ _ => result (list (option PlacementRecord))
  end.

Abbreviation io := (prog reply).

(** ** The contract of a storage *)

Class Storage (St : Type) := {
  storage_handler :: Handler reply St;
  st_inv : St → Prop;
  st_step : St → St → Prop;
  held : St → bytes → option LeaseRecord;
  last_epoch : St → bytes → Z;
  placed : St → DocumentKey → option PlacementRecord }.

(** A shard of the storage as the specification of fencing sees it. *)
Definition spec_of {St} `{Storage St} (s : St) (shard : bytes) : lease_spec :=
  mkSpec (last_epoch s shard) ((λ l, (l_Owner l, l_Token l)) <$> held s shard).

(** [errors.As(err, &staleEpoch)]: the epoch of the first such error of the chain. *)
Fixpoint errors_As_stale (err : error) : option Z :=
  match err with
  | LeaseStaleEpochError _ current _ => Some current
  | BinaryParseError _ _ _ _ _ e | ParseError _ _ _ e | Wrapped _ e => errors_As_stale e
  | Joined _ e1 e2 => match errors_As_stale e1 with Some c => Some c | None => errors_As_stale e2 end
  | Sentinel _ | Opaque _ | FuelExhausted => None
  end.

(** [r] is the lease record [l] as stored: its acquisition time may be filled in. *)
Definition stores (l r : LeaseRecord) : Prop :=
  l_ShardID r = l_ShardID l ∧ l_Owner r = l_Owner l ∧ l_Token r = l_Token l ∧ ExpiresAt r = ExpiresAt l.

(** The actions that only read. *)
Definition is_read (a : op) : bool :=
  match a with Now | CtxErr | DoLoadLease _ | DoLoadPlacement _ | DoListPlacements _ _ => true | _ => false end.

Class StorageLaws (St : Type) `{Storage St} := {
  law_read (s : St) a i : is_read a = true → (answer a i s).2 = s;
  law_now (s : St) i : (answer Now i s).1 = i_now i;
  law_inv (s s' : St) : st_inv s → st_step s s' → st_inv s';
  law_answer (s : St) a i : st_inv s → st_step s (answer a i s).2;
  law_step (s s' : St) shard : st_inv s → st_step s s' → spec_step (spec_of s shard) (spec_of s' shard);
  law_held (s : St) shard r : st_inv s → held s shard = Some r →
    l_ShardID r = shard ∧ lease_valid r ∧ lease_epoch r = last_epoch s shard;
  law_load (s : St) shard i r : (answer (DoLoadLease shard) i s).1 = Ok (Some r) → held s shard = Some r;
  law_load_none (s : St) shard i err : (answer (DoLoadLease shard) i s).1 = Err err →
    errors_Is err storage_ErrLeaseNotFound = true → held s shard = None;
  law_save (s : St) l i r : st_inv s → (answer (DoSaveLease l) i s).1 = Ok (Some r) →
    stores l r ∧ held (answer (DoSaveLease l) i s).2 (l_ShardID l) = Some r ∧
    (last_epoch s (l_ShardID l) < lease_epoch l ∨
     ∃ current, held s (l_ShardID l) = Some current ∧ l_Owner current = l_Owner l ∧ l_Token current = l_Token l);
  law_save_stale (s : St) l i err current : st_inv s → (answer (DoSaveLease l) i s).1 = Err err →
    errors_As_stale err = Some current → current = last_epoch s (l_ShardID l);
  law_handoff (s : St) shard token next i r : st_inv s → (answer (DoHandoffLease shard token next) i s).1 = Ok (Some r) →
    stores next r ∧ held (answer (DoHandoffLease shard token next) i s).2 shard = Some r ∧ last_epoch s shard < lease_epoch next ∧
    ∃ current, held s shard = Some current ∧ l_Token current = token ∧ lease_epoch next = w64 (lease_epoch current + 1);
  law_release (s : St) shard token i : (answer (DoReleaseLease shard token) i s).1 = None →
    held (answer (DoReleaseLease shard token) i s).2 shard = None ∧
    ∃ current, held s shard = Some current ∧ l_Token current = token;
  law_load_placement (s : St) key i p : (answer (DoLoadPlacement key) i s).1 = Ok (Some p) → placed s key = Some p;
  law_save_placement (s : St) p i p' : (answer (DoSavePlacement p) i s).1 = Ok (Some p') →
    placed (answer (DoSavePlacement p) i s).2 (pl_Key p) = Some p' ∧ pl_Key p' = pl_Key p ∧ pl_ShardID p' = pl_ShardID p ∧
    Version p' = Version p }.

(** Anybody may do anything the storage allows, at any time. *)
Abbreviation wp_shared C := (wp (rtc st_step) C).

(** ** The memory store *)

(** The memory store never returns a nil pointer without an error. *)
Definition pointer {A} (r : result A) : result (option A) := Some <$> r.

Definition memory_answer (a : op) (i : instant) (s : Store) : reply a * Store :=
  let ctx := i_ctxErr i in let now := i_now i in
  match a with
  | Now => (now, s)
  | CtxErr => (ctx, s)
  | DoLoadLease shardID => (pointer (LoadLease ctx shardID s), s)
  | DoSaveLease lease => let r := SaveLease ctx now lease s in (pointer r.1, r.2)
  | DoHandoffLease shardID currentToken next => let r := HandoffLease ctx now shardID currentToken next s in (pointer r.1, r.2)
  | DoReleaseLease shardID token => ReleaseLease ctx shardID token s
  | DoLoadPlacement key => (pointer (LoadPlacement ctx key s), s)
  | DoSavePlacement placement => let r := SavePlacement ctx now placement s in (pointer r.1, r.2)
  | DoListPlacements namespace limit => (list_fmap _ _ Some <$> ListPlacements ctx namespace limit s, s)
  end.

(** What every history of calls preserves of leases and placements. *)
Definition shared_inv (s : Store) : Prop :=
  lease_inv s ∧ ∀ key p, placements s !! key = Some p → pl_Key p = key ∧ PlacementRecord_Validate p = None.

#[export] Instance memory_storage : Storage Store := {|
  storage_handler := memory_answer; st_inv := shared_inv; st_step := effect;
  held s shard := leases s !! shard; last_epoch s shard := get0 (leaseLast s) shard; placed s key := placements s !! key |}.

Lemma shared_inv_effect s s' : shared_inv s → effect s s' → shared_inv s'.
Proof.
  intros [Hl Hp] He. split; [by eapply lease_inv_effect|].
  destruct He as [|key r Hkv Hv Hk Ho|key through|p Hpv|r Hr Hlt|current r Hr Hc Ho Ht|shard r Hr|key m Hkv Hk]; try done.
  - by destruct (trim_records_same key through s) as (_ & _ & _ & -> & _).
  - cbn. intros key p' [[<- <-]|[? ?]]%lookup_insert_Some; [done|by apply Hp].
Qed.

Lemma memory_answer_effect a i s : lease_inv s → effect s (memory_answer a i s).2.
Proof.
  intros Hinv. destruct a; cbn [memory_answer snd]; try constructor.
  - destruct (SaveLease _ _ _ _) eqn:E. by eapply SaveLease_effect.
  - destruct (HandoffLease _ _ _ _ _ _) eqn:E. by eapply HandoffLease_effect.
  - destruct (ReleaseLease _ _ _ _) eqn:E. by eapply ReleaseLease_effect.
  - unfold SavePlacement, failing. destruct (i_ctxErr i); [constructor|].
    destruct (PlacementRecord_Validate _) eqn:Hv; [constructor|]. by apply effect_place.
Qed.

Lemma pointer_Ok {A} (r : result A) x : pointer r = Ok (Some x) → r = Ok x.
Proof. unfold pointer. destruct r; [|done]. by intros [= ->]. Qed.

Lemma SaveLease_stores s l ctx now r : lease_inv s → (SaveLease ctx now l s).1 = Ok r →
  stores l r ∧ leases (SaveLease ctx now l s).2 !! l_ShardID l = Some r ∧
  (get0 (leaseLast s) (l_ShardID l) < lease_epoch l ∨
   ∃ current, leases s !! l_ShardID l = Some current ∧ l_Owner current = l_Owner l ∧ l_Token current = l_Token l).
Proof.
  intros Hinv. unfold SaveLease, failing. destruct ctx; [done|].
  set (record := if IsZero _ then _ else _).
  assert (stores l record) as Hst by (unfold record, stores; by destruct (IsZero _)).
  destruct Hst as (Hs & Ho & Ht & He).
  destruct (LeaseRecord_Validate record); [done|]. destruct (admit_lease _ _ record) as [r'|] eqn:Ha; [|done].
  destruct (negb _); [done|]. cbn [fst snd]. intros [= ->].
  assert (lease_epoch record = lease_epoch l) as Hep by (unfold lease_epoch; by rewrite Ho).
  destruct (admit_lease_spec s record r Hinv Ha) as [[-> Hlt]|(current & Hc & -> & Ho' & Ht')].
  - split_and!; [done..| |]; rewrite <- Hs.
    + case_match; cbn; by rewrite lookup_insert_eq.
    + left. by rewrite <- Hep.
  - split_and!; [done..| |].
    + rewrite <- Hs. case_match; cbn; by rewrite lookup_insert_eq.
    + right. exists current. rewrite <- Hs. split_and!; congruence.
Qed.

(** Validation never fails with a stale epoch. *)
Lemma Validate_not_stale r err : LeaseRecord_Validate r = Some err → errors_As_stale err = None.
Proof.
  unfold LeaseRecord_Validate, ShardID_Validate, OwnerInfo_Validate, NodeID_Validate. repeat case_match; intros; simplify_eq; done.
Qed.

(** The epoch a stale-epoch error reports is the last one granted. *)
Lemma SaveLease_stale s l i err current : lease_inv s →
  (SaveLease (i_ctxErr i) (i_now i) l s).1 = Err err → errors_As_stale err = Some current →
  current = get0 (leaseLast s) (l_ShardID l).
Proof.
  intros Hinv. unfold SaveLease, failing, i_ctxErr. destruct (i_ctx i) as [[]|]; [by intros [= <-]..|]. cbn [fmap option_fmap option_map].
  set (record := if IsZero _ then _ else _).
  assert (l_ShardID record = l_ShardID l) as <- by (unfold record; by destruct (IsZero _)).
  destruct (LeaseRecord_Validate record) as [err'|] eqn:Hv; [cbn; intros [= <-]; by erewrite Validate_not_stale|].
  destruct (admit_lease _ _ record) as [r|err'] eqn:Ha; [destruct (negb _); [by intros [= <-]|done]|]. cbn [fst]. intros [= ->]. revert Ha.
  unfold admit_lease, NewLeaseStaleEpochError. destruct (leases s !! l_ShardID record) as [cur|] eqn:E.
  - destruct (Hinv _ _ E) as (_ & _ & Hl). destruct (sameLeaseRecord _ _); [done|].
    destruct (After _ _); [destruct (_ <=? _)|destruct (_ || _)]; try done; intros [= <-]; cbn [errors_As_stale]; intros [= <-]; lia.
  - case_match; [|done]. intros [= <-]. cbn [errors_As_stale]. intros [= <-]. lia.
Qed.

Lemma HandoffLease_stores s shard token next ctx now r : (HandoffLease ctx now shard token next s).1 = Ok r →
  stores next r ∧ leases (HandoffLease ctx now shard token next s).2 !! shard = Some r ∧
  get0 (leaseLast s) shard < lease_epoch next ∧
  ∃ current, leases s !! shard = Some current ∧ l_Token current = token ∧ lease_epoch next = w64 (lease_epoch current + 1).
Proof.
  unfold HandoffLease, failing. destruct (guard_err _); [done|]. case_bool_decide as Hs; [|done]. cbn [negb].
  set (record := if IsZero _ then _ else _).
  assert (stores next record) as (Hs' & Ho & Ht & He) by (unfold record, stores; by destruct (IsZero _)).
  assert (lease_epoch record = lease_epoch next) as Hep by (unfold lease_epoch; by rewrite Ho).
  destruct (LeaseRecord_Validate record); [done|]. destruct (negb (After (ExpiresAt record) _)); [done|].
  destruct (leases s !! shard) as [current|]; [|done]. case_bool_decide as Htok; [|done]. cbn [negb].
  destruct (negb (After _ _)); [done|]. destruct (Z.eqb_spec (lease_epoch record) (w64 (lease_epoch current + 1))); [|done]. cbn [negb].
  destruct (Z.leb_spec (lease_epoch record) (get0 (leaseLast s) shard)); [done|]. cbn. intros [= ->].
  rewrite <- Hep. split_and!; [done..|by rewrite lookup_insert_eq|done|by exists current].
Qed.

Lemma ReleaseLease_releases s shard token ctx : (ReleaseLease ctx shard token s).1 = None →
  leases (ReleaseLease ctx shard token s).2 !! shard = None ∧ ∃ current, leases s !! shard = Some current ∧ l_Token current = token.
Proof.
  unfold ReleaseLease. destruct (guard_err _); [done|]. destruct (leases s !! shard) as [r|] eqn:E; [|done].
  case_bool_decide; [|done]. cbn. intros _. split; [by rewrite lookup_delete_eq|]. by exists r.
Qed.

Lemma SavePlacement_places s p ctx now p' : (SavePlacement ctx now p s).1 = Ok p' →
  placements (SavePlacement ctx now p s).2 !! pl_Key p = Some p' ∧ pl_Key p' = pl_Key p ∧ pl_ShardID p' = pl_ShardID p ∧
  Version p' = Version p.
Proof.
  unfold SavePlacement, failing. destruct ctx; [done|].
  destruct (IsZero (UpdatedAt p)); (destruct (PlacementRecord_Validate _); [done|]); cbn; intros [= <-];
    cbn; by rewrite lookup_insert_eq.
Qed.

#[export] Instance memory_laws : StorageLaws Store.
Proof.
  split.
  - intros s a i. by destruct a.
  - done.
  - apply shared_inv_effect.
  - intros s a i [Hl _]. by apply memory_answer_effect.
  - intros s s' shard _. apply effect_spec_step.
  - intros s shard r [Hl _] Hr. destruct (Hl _ _ Hr) as (? & ? & Hlast). split_and!; [done..|]. by rewrite <- Hlast.
  - intros s shard i r. cbn. intros Hr%pointer_Ok. unfold LoadLease in Hr. destruct (guard_err _); [done|].
    by destruct (leases s !! shard); simplify_eq.
  - intros s shard i err. cbn. unfold pointer, LoadLease, i_ctxErr. destruct (i_ctx i) as [[]|]; [by intros [= <-]..|]. cbn.
    unfold ShardID_Validate. destruct (is_blank shard); [by intros [= <-]|]. by destruct (leases s !! shard).
  - intros s l i r [Hl _]. cbn. intros Hr%pointer_Ok. by apply SaveLease_stores.
  - intros s l i err current [Hl _]. cbn. unfold pointer. destruct (SaveLease _ _ _ _).1 eqn:E; [done|].
    intros [= ->]. by eapply SaveLease_stale.
  - intros s shard token next i r _. cbn. intros Hr%pointer_Ok. by apply HandoffLease_stores.
  - intros s shard token i. cbn. apply ReleaseLease_releases.
  - intros s key i p. cbn. intros Hp%pointer_Ok. unfold LoadPlacement in Hp. destruct (guard_err _); [done|].
    by destruct (placements s !! key); simplify_eq.
  - intros s p i p'. cbn. intros Hp%pointer_Ok. by apply SavePlacement_places.
Qed.
