(* ===== verification/Leases.v ===== *)
(** * pkg/ycluster: owner lookup, leases over the storage and their manager

    storage_adapter.go, lookup.go, authority_fence.go and lease_manager.go as
    computations ([ClusterIO.io]).  The metrics are left out, receivers are not
    nil; the cached lease of a manager is passed along. *)
From S2P Require Import Prelude GoError GoText StorageTypes ClusterTypes Effects ClusterIO.
#[local] Open Scope io_scope.

Definition nowTime : io Z := act Now.
Definition ctxErr : io (option error) := act CtxErr.
Definition storageLoadLease (shardID : bytes) : io (result (option LeaseRecord)) := act (DoLoadLease shardID).
Definition storageSaveLease (lease : LeaseRecord) : io (result (option LeaseRecord)) := act (DoSaveLease lease).
Definition storageHandoffLease (shardID currentToken : bytes) (next : LeaseRecord) : io (result (option LeaseRecord)) :=
  act (DoHandoffLease shardID currentToken next).
Definition storageReleaseLease (shardID token : bytes) : io (option error) := act (DoReleaseLease shardID token).
Definition storageLoadPlacement (key : DocumentKey) : io (result (option PlacementRecord)) := act (DoLoadPlacement key).
Definition storageSavePlacement (p : PlacementRecord) : io (result (option PlacementRecord)) := act (DoSavePlacement p).

(** ** Owner lookup *)

(** [OwnerLookup.LookupOwner]: a pointer and an error. *)
Definition OwnerLookup : Type := DocumentKey → io (result (option OwnerResolution)).

Record StorageOwnerLookup := mkOwnerLookup { ol_localNodeID : bytes; ol_resolver : ShardResolver }.

Definition NewStorageOwnerLookup (localNode : bytes) (resolver : option ShardResolver) (placements leases : bool)
    : result StorageOwnerLookup :=
  match with_cause ycluster_ErrNilLocalNode (NodeID_Valid localNode), resolver with
  | Some err, _ => Err err
  | None, None => Err ycluster_ErrNilShardResolver
  | None, Some resolver =>
      if negb placements then Err ycluster_ErrNilPlacementStore
      else if negb leases then Err ycluster_ErrNilLeaseStore
      else Ok (mkOwnerLookup localNode resolver)
  end.

(** The checks of the placement record, between the two loads. *)
Definition lookup_placement (shardID : Z) (loaded : result (option PlacementRecord)) : result PlacementRecord :=
  match loaded with
  | Err err => Err (if errors_Is err storage_ErrPlacementNotFound then Sentinel ycluster_ErrPlacementNotFound else err)
  | Ok None => Err ycluster_ErrPlacementNotFound
  | Ok (Some record) =>
      match PlacementRecord_Validate record with
      | Some _ => Err (Wrapped "%w: %v" ycluster_ErrInvalidPlacement)
      | None =>
          if negb (bool_decide (pl_ShardID record = StorageShardID shardID))
          then Err (Wrapped "%w: shard %q != %q" ycluster_ErrInvalidPlacement)
          else Ok record
      end
  end.

Definition owner_error (err : error) : error :=
  if errors_Is err storage_ErrLeaseNotFound then Sentinel ycluster_ErrOwnerNotFound else err.

Definition StorageOwnerLookup_LookupOwner (l : StorageOwnerLookup) (key : DocumentKey) : io (result OwnerResolution) :=
  require OwnerLookupRequest_Validate key;
  match ResolveShard (ol_resolver l) key with
  | Err err => Ret (Err err)
  | Ok shardID =>
      loaded ← storageLoadPlacement key;
      match lookup_placement shardID loaded with
      | Err err => Ret (Err err)
      | Ok placementRecord =>
          r ← storageLoadLease (pl_ShardID placementRecord);
          match map_err owner_error r ≫= LeaseFromStorageRecord with
          | Err err => Ret (Err err)
          | Ok lease =>
              if negb (cl_ShardID lease =? shardID)
              then Ret (Err (Wrapped "%w: lease shard %s != %s" ycluster_ErrInvalidLease))
              else
                now ← nowTime;
                if ExpiredAt lease now then Ret (Err ycluster_ErrLeaseExpired)
                else
                  let placement := mkClusterPlacement shardID (Holder lease) (Some lease) (Version placementRecord) in
                  require Placement_Validate placement;
                  Ret (Ok (mkResolution key placement (bool_decide (Holder lease = ol_localNodeID l))))
          end
      end
  end.

(** lookup.go: the lookup over a store of placements with their leases. *)
Definition NewPlacementOwnerLookup (localNode : bytes) (resolver : option ShardResolver) (placements : bool)
    : result (bytes * ShardResolver) :=
  match with_cause ycluster_ErrNilLocalNode (NodeID_Valid localNode), resolver with
  | Some err, _ => Err err
  | None, None => Err ycluster_ErrNilShardResolver
  | None, Some resolver => if negb placements then Err ycluster_ErrNilPlacementStore else Ok (localNode, resolver)
  end.

Definition PlacementOwnerLookup_LookupOwner (localNodeID : bytes) (resolver : ShardResolver)
    (LoadPlacement : Z → io (result (option Placement))) (key : DocumentKey) : io (result OwnerResolution) :=
  require OwnerLookupRequest_Validate key;
  match ResolveShard resolver key with
  | Err err => Ret (Err err)
  | Ok shardID =>
      placement <-? LoadPlacement shardID;
      match placement with
      | None => Ret (Err ycluster_ErrOwnerNotFound)
      | Some placement =>
          require Placement_Validate placement;
          if negb (p_ShardID placement =? shardID) then Ret (Err (Wrapped "%w: shard %s != %s" ycluster_ErrInvalidPlacement))
          else
            match p_Lease placement with
            | None => Ret (Err ycluster_ErrOwnerNotFound)
            | Some lease =>
                now ← nowTime;
                if ExpiredAt lease now then Ret (Err ycluster_ErrLeaseExpired)
                else Ret (Ok (mkResolution key placement (bool_decide (Holder lease = localNodeID))))
            end
      end
  end.

Definition ResolveStorageAuthorityFence (lookup : option OwnerLookup) (key : DocumentKey) : io (result AuthorityFence) :=
  match lookup with
  | None => Ret (Err (Wrapped "%w: owner lookup ausente" storage_ErrAuthorityLost))
  | Some lookup =>
      r ← lookup key;
      match r with
      | Err err => Ret (Err (if isAuthorityUnavailable err then Wrapped "%w: %v" storage_ErrAuthorityLost else err))
      | Ok resolution => Ret (AuthorityFenceFromResolution resolution)
      end
  end.

(** ** Leases over the storage *)

(** [LeaseStore] of interfaces.go; [leaseLoader] when the store has [LoadLease]. *)
Record LeaseStore := mkLeaseStore {
  AcquireLease : LeaseRequest → io (result Lease);
  RenewLease : LeaseRequest → io (result Lease);
  ReleaseLease : Lease → io (option error);
  leaseLoader : option (Z → io (result (option Lease))) }.

Definition StorageLeaseStore_LoadLease (shardID : Z) : io (result Lease) :=
  r ← storageLoadLease (StorageShardID shardID);
  match map_err owner_error r ≫= LeaseFromStorageRecord with
  | Err err => Ret (Err err)
  | Ok lease =>
      now ← nowTime;
      Ret (if ExpiredAt lease now then Err ycluster_ErrLeaseExpired else Ok lease)
  end.

(** Nanoseconds since 1970, in an [int64]. *)
Definition UnixNano (t : Z) : Z := to_int64 (t - 62135596800 * Second).

(** [fmt.Sprintf("%s-%s-%d", holder, shardID, now.UnixNano())]. *)
Definition generated_token (holder : bytes) (shardID : Z) (now : Z) : bytes :=
  holder ++ [45] ++ ShardID_String shardID ++ [45] ++ FormatInt (UnixNano now).

Definition request_token (token holder : bytes) (shardID : Z) (now : Z) : bytes :=
  match TrimSpace token with [] => generated_token holder shardID now | token => token end.

Definition lease_record (shardID : Z) (holder : bytes) (epoch : Z) (token : bytes) (acquiredAt expiresAt : Z) : LeaseRecord :=
  mkLease (StorageShardID shardID) (mkOwner (StorageNodeID holder) epoch) token acquiredAt expiresAt.

(** [!l.ExpiresAt.IsZero() && now.Before(l.ExpiresAt)]. *)
Definition unexpired (l : LeaseRecord) (now : Z) : bool := negb (IsZero (ExpiresAt l)) && Before now (ExpiresAt l).

(** The switch of [AcquireLease]: the epoch to ask for. *)
Definition acquire_epoch (holder : bytes) (now : Z) (existing : result (option LeaseRecord)) : result Z :=
  match existing with
  | Ok None => Err ycluster_ErrOwnerNotFound
  | Ok (Some existing) =>
      if bool_decide (o_NodeID (l_Owner existing) = StorageNodeID holder) && unexpired existing now
      then Err (Wrapped "%w: shard %s ja esta leased para %q" ycluster_ErrInvalidLeaseRequest)
      else if unexpired existing now
      then Err (Wrapped "%w: shard %s esta leased para %q ate %s" ycluster_ErrLeaseHeld)
      else if 0 <? o_Epoch (l_Owner existing) then Ok (w64 (o_Epoch (l_Owner existing) + 1)) else Ok 1
  | Err err => if errors_Is err storage_ErrLeaseNotFound then Ok 1 else Err err
  end.

(** A save that failed for good. *)
Definition acquire_error (err : error) : error :=
  if errors_Is err storage_ErrLeaseConflict then Sentinel ycluster_ErrLeaseHeld else err.

(** The record [AcquireLease] saves: both its literals, at the first and the second save. *)
Definition acquire_record (req : LeaseRequest) (now epoch : Z) : LeaseRecord :=
  lease_record (lr_ShardID req) (lr_Holder req) epoch (request_token (lr_Token req) (lr_Holder req) (lr_ShardID req) now)
    now (now + lr_TTL req).

Definition StorageLeaseStore_AcquireLease (req : LeaseRequest) : io (result Lease) :=
  require LeaseRequest_Validate req;
  now ← nowTime;
  existing ← storageLoadLease (StorageShardID (lr_ShardID req));
  match acquire_epoch (lr_Holder req) now existing with
  | Err err => Ret (Err err)
  | Ok epoch =>
      r ← storageSaveLease (acquire_record req now epoch);
      match r with
      | Ok record => Ret (LeaseFromStorageRecord record)
      | Err err =>
          match errors_As_stale err with
          | Some current =>
              if epoch <=? current then
                r ← storageSaveLease (acquire_record req now (w64 (current + 1)));
                match r with
                | Ok record => Ret (LeaseFromStorageRecord record)
                | Err err => Ret (Err (acquire_error err))
                end
              else Ret (Err (acquire_error err))
          | None => Ret (Err (acquire_error err))
          end
      end
  end.

(** The checks of [RenewLease] before the clock is read. *)
Definition renewable (holder : bytes) (existing : result (option LeaseRecord)) : result LeaseRecord :=
  match existing with
  | Err err => Err (owner_error err)
  | Ok None => Err ycluster_ErrOwnerNotFound
  | Ok (Some existing) =>
      if negb (bool_decide (o_NodeID (l_Owner existing) = StorageNodeID holder))
      then Err (Wrapped "%w: holder %q nao corresponde ao owner persistido %q" ycluster_ErrInvalidLeaseRequest)
      else Ok existing
  end.

Definition StorageLeaseStore_RenewLease (req : LeaseRequest) : io (result Lease) :=
  require LeaseRequest_Validate req;
  loaded ← storageLoadLease (StorageShardID (lr_ShardID req));
  match renewable (lr_Holder req) loaded with
  | Err err => Ret (Err err)
  | Ok existing =>
      now ← nowTime;
      if negb (IsZero (ExpiresAt existing)) && negb (Before now (ExpiresAt existing)) then Ret (Err ycluster_ErrLeaseExpired)
      else
        let token := TrimSpace (lr_Token req) in
        if negb (bool_decide (token = [])) && negb (bool_decide (token = l_Token existing))
        then Ret (Err ycluster_ErrLeaseTokenMismatch)
        else
          let token := if bool_decide (token = []) then l_Token existing else token in
          record <-? storageSaveLease (mkLease (StorageShardID (lr_ShardID req))
            (mkOwner (o_NodeID (l_Owner existing)) (o_Epoch (l_Owner existing))) token (AcquiredAt existing) (now + lr_TTL req));
          Ret (LeaseFromStorageRecord record)
  end.

Definition handoff_error (err : error) : error :=
  if errors_Is err storage_ErrLeaseNotFound then Sentinel ycluster_ErrOwnerNotFound
  else if errors_Is err storage_ErrLeaseConflict then Sentinel ycluster_ErrLeaseTokenMismatch else err.

(** [supported]: the storage has the atomic handoff. *)
Definition StorageLeaseStore_HandoffLease (supported : bool) (current : Lease) (req : LeaseRequest) : io (result Lease) :=
  require Lease_Validate current;
  require LeaseRequest_Validate req;
  if negb (lr_ShardID req =? 0) && negb (lr_ShardID req =? cl_ShardID current)
  then Ret (Err (Wrapped "%w: next shard %s difere do atual %s" ycluster_ErrInvalidLeaseRequest))
  else
    now ← nowTime;
    if ExpiredAt current now then Ret (Err ycluster_ErrLeaseExpired)
    else if negb supported then Ret (Err ycluster_ErrLeaseHandoffUnsupported)
    else
      let token := request_token (lr_Token req) (lr_Holder req) (cl_ShardID current) now in
      r ← storageHandoffLease (StorageShardID (cl_ShardID current)) (Token current)
            (lease_record (cl_ShardID current) (lr_Holder req) (w64 (Epoch current + 1)) token now (now + lr_TTL req));
      match r with
      | Err err => Ret (Err (handoff_error err))
      | Ok record => Ret (LeaseFromStorageRecord record)
      end.

Definition StorageLeaseStore_ReleaseLease (lease : Lease) : io (option error) :=
  match Lease_Validate lease with
  | Some err => Ret (Some err)
  | None => storageReleaseLease (StorageShardID (cl_ShardID lease)) (Token lease)
  end.

Definition StorageLeaseStore : LeaseStore :=
  mkLeaseStore StorageLeaseStore_AcquireLease StorageLeaseStore_RenewLease StorageLeaseStore_ReleaseLease
    (Some (λ shardID, lease <-? StorageLeaseStore_LoadLease shardID; Ret (Ok (Some lease)))).

(** ** The manager of a lease *)

Record LeaseManager := mkManager {
  m_store : LeaseStore; m_shardID : Z; m_holder : bytes; m_ttl : Z; m_token : bytes; m_current : option Lease }.

Definition setCurrent (lease : option Lease) (m : LeaseManager) : LeaseManager :=
  mkManager (m_store m) (m_shardID m) (m_holder m) (m_ttl m) (m_token m) lease.

Definition LeaseManagerConfig_Validate (store : option LeaseStore) (holder : bytes) (ttl : Z) : option error :=
  match store with
  | None => Some (Sentinel ycluster_ErrNilLeaseStore)
  | Some _ =>
      match NodeID_Valid holder with
      | Some _ => Some (Wrapped "%w: %v" ycluster_ErrInvalidLeaseRequest)
      | None => if ttl <=? 0 then Some (Wrapped "%w: ttl obrigatorio" ycluster_ErrInvalidLeaseRequest) else None
      end
  end.

Definition NewLeaseManager (store : option LeaseStore) (shardID : Z) (holder : bytes) (ttl : Z) (token : bytes)
    : result LeaseManager :=
  match LeaseManagerConfig_Validate store holder ttl, store with
  | Some err, _ => Err err
  | None, None => Err ycluster_ErrNilLeaseStore
  | None, Some store => Ok (mkManager store shardID holder ttl token None)
  end.

(** The cached lease changes only when a lease is taken over as the manager's own. *)
Definition tryAdoptActiveLease (m : LeaseManager) : io (result (option Lease) * LeaseManager) :=
  match leaseLoader (m_store m) with
  | None => Ret (Ok None, m)
  | Some LoadLease =>
      r ← LoadLease (m_shardID m);
      match r with
      | Err err =>
          if errors_Is err ycluster_ErrOwnerNotFound || errors_Is err ycluster_ErrLeaseExpired
          then Ret (Ok None, m) else Ret (Err err, m)
      | Ok None => Ret (Ok None, m)
      | Ok (Some lease) =>
          now ← nowTime;
          if ExpiredAt lease now then Ret (Ok None, m)
          else if negb (bool_decide (Holder lease = m_holder m))
          then Ret (Err (Wrapped "%w: shard %s esta leased para %q" ycluster_ErrLeaseHeld), m)
          else if negb (bool_decide (m_token m = [])) && negb (bool_decide (Token lease = m_token m))
          then Ret (Err ycluster_ErrLeaseTokenMismatch, m)
          else Ret (Ok (Some lease), setCurrent (Some lease) m)
      end
  end.

Definition acquireAction (m : LeaseManager) : io (result (Lease * bool) * LeaseManager) :=
  '(adopted, m) ← tryAdoptActiveLease m;
  match adopted with
  | Err err => Ret (Err err, m)
  | Ok (Some lease) => Ret (Ok (lease, false), m)
  | Ok None =>
      r ← AcquireLease (m_store m) (mkLeaseRequest (m_shardID m) (m_holder m) (m_ttl m) (m_token m));
      match r with
      | Err err => Ret (Err err, m)
      | Ok lease => Ret (Ok (lease, true), setCurrent (Some lease) m)
      end
  end.

Definition LeaseManager_Acquire (m : LeaseManager) : io (result Lease * LeaseManager) :=
  p ← acquireAction m; Ret (match p.1 with Ok (lease, _) => Ok lease | Err err => Err err end, p.2).

Definition Ensure (renewWithin : Z) (m : LeaseManager) : io (result (Lease * bool) * LeaseManager) :=
  if renewWithin <? 0 then Ret (Err (Wrapped "%w: renewWithin invalido" ycluster_ErrInvalidLeaseRequest), m)
  else
    now ← nowTime;
    match m_current m with
    | None => acquireAction m
    | Some current =>
        if ExpiredAt current now then acquireAction (setCurrent None m)
        else if (renewWithin =? 0) || (renewWithin <? Sub (cl_ExpiresAt current) now) then Ret (Ok (current, false), m)
        else
          r ← RenewLease (m_store m) (mkLeaseRequest (m_shardID m) (m_holder m) (m_ttl m) (Token current));
          match r with
          | Ok lease => Ret (Ok (lease, true), setCurrent (Some lease) m)
          | Err err =>
              if errors_Is err ycluster_ErrLeaseExpired || errors_Is err ycluster_ErrOwnerNotFound
              then acquireAction (setCurrent None m)
              else if errors_Is err ycluster_ErrLeaseTokenMismatch || errors_Is err ycluster_ErrLeaseHeld
              then Ret (Err err, setCurrent None m)
              else Ret (Err err, m)
          end
    end.

Definition LeaseManager_Release (m : LeaseManager) : io (option error * LeaseManager) :=
  match m_current m with
  | None => Ret (Some (Sentinel ycluster_ErrOwnerNotFound), m)
  | Some current =>
      r ← ReleaseLease (m_store m) current;
      match r with Some err => Ret (Some err, m) | None => Ret (None, setCurrent None m) end
  end.

(** [RenewWithin] and [Interval] with their defaults; durations divide as integers. *)
Definition normalizeRunConfig (ttl renewWithin interval : Z) : result (Z * Z) :=
  if renewWithin <? 0 then Err (Wrapped "%w: renewWithin invalido" ycluster_ErrInvalidLeaseRequest)
  else if interval <? 0 then Err (Wrapped "%w: interval invalido" ycluster_ErrInvalidLeaseRequest)
  else
    let renewWithin :=
      if renewWithin =? 0 then let d := Z.quot ttl 3 in if d <=? 0 then ttl else d else renewWithin in
    let interval :=
      if interval =? 0 then
        let d := Z.quot renewWithin 2 in
        let d := if d <=? 0 then Z.quot ttl 4 else d in
        if d <=? 0 then Second else d
      else interval in
    Ok (renewWithin, interval).

(** [Run]: the rounds of the loop, until the context ends or a round fails; the
    leases are those given to [OnLeaseChange].  The wait for the next tick ends
    with the context or with the tick. *)
Fixpoint Run_loop (rounds : nat) (renewWithin : Z) (m : LeaseManager) (seen : list Lease) {struct rounds}
    : io (error * list Lease * LeaseManager) :=
  match rounds with
  | O => Ret (FuelExhausted, seen, m)
  | S rounds =>
      done ← ctxErr;
      match done with
      | Some err => Ret (err, seen, m)
      | None =>
          '(r, m) ← Ensure renewWithin m;
          match (r : result (Lease * bool)) with
          | Err err => Ret (err, seen, m)
          | Ok (lease, changed) =>
              let seen := if changed then seen ++ [lease] else seen in
              done ← ctxErr;
              match done with
              | Some err => Ret (err, seen, m)
              | None => Run_loop rounds renewWithin m seen
              end
          end
      end
  end.

Definition LeaseManager_Run (rounds : nat) (renewWithin interval : Z) (m : LeaseManager) : io (error * list Lease * LeaseManager) :=
  match normalizeRunConfig (m_ttl m) renewWithin interval with
  | Err err => Ret (err, [], m)
  | Ok (renewWithin, _) => Run_loop rounds renewWithin m []
  end.
