(* ===== verification/Ownership.v ===== *)
(** * pkg/ycluster: the ownership of documents

    ownership_coordinator.go: claims, promotions and handoffs of a document over
    placements and leases.  [co_handoff] says whether the storage has the atomic
    handoff; the metrics are left out and receivers are not nil. *)
From S2P Require Import Prelude GoError GoText StorageTypes ClusterTypes Effects ClusterIO Leases.
#[local] Open Scope io_scope.

Record StorageOwnershipCoordinator := mkCoordinator {
  co_localNode : bytes; co_resolver : ShardResolver; co_handoff : bool; co_ttl : Z }.

Definition StorageOwnershipCoordinatorConfig_Validate (localNode : bytes) (resolver : option ShardResolver)
    (placements leases : bool) (ttl : Z) : option error :=
  match with_cause ycluster_ErrNilLocalNode (NodeID_Valid localNode), resolver with
  | Some err, _ => Some err
  | None, None => Some (Sentinel ycluster_ErrNilShardResolver)
  | None, Some _ =>
      if negb placements then Some (Sentinel ycluster_ErrNilPlacementStore)
      else if negb leases then Some (Sentinel ycluster_ErrNilLeaseStore)
      else if ttl <=? 0 then Some (Wrapped "%w: ttl obrigatorio" ycluster_ErrInvalidLeaseRequest) else None
  end.

Definition NewStorageOwnershipCoordinator (localNode : bytes) (resolver : option ShardResolver) (placements leases handoff : bool)
    (ttl : Z) : result StorageOwnershipCoordinator :=
  match StorageOwnershipCoordinatorConfig_Validate localNode resolver placements leases ttl with
  | Some err => Err err
  | None =>
      match NewStorageOwnerLookup localNode resolver placements leases with
      | Err err => Err err
      | Ok lookup => Ok (mkCoordinator (ol_localNodeID lookup) (ol_resolver lookup) handoff ttl)
      end
  end.

Record DocumentOwnership := mkOwnership {
  do_DocumentKey : DocumentKey; do_ShardID : Z; do_Placement : option PlacementRecord; do_Lease : Lease; do_Manager : LeaseManager }.

Record ClaimDocumentRequest := mkClaim {
  cr_DocumentKey : DocumentKey; cr_Holder : bytes; cr_TTL : Z; cr_Token : bytes; cr_PlacementVersion : Z }.

Record HandoffDocumentRequest := mkHandoff {
  hr_DocumentKey : DocumentKey; hr_Current : Lease; hr_NextHolder : bytes; hr_TTL : Z; hr_Token : bytes }.

Section coordinator.
Variable c : StorageOwnershipCoordinator.

Definition LookupOwner : OwnerLookup := λ key,
  resolution <-? StorageOwnerLookup_LookupOwner (mkOwnerLookup (co_localNode c) (co_resolver c)) key;
  Ret (Ok (Some resolution)).

Definition ResolveAuthorityFence (key : DocumentKey) : io (result AuthorityFence) :=
  ResolveStorageAuthorityFence (Some LookupOwner) key.

(** The holder of a request; the empty one is the local node. *)
Definition request_holder (holder : bytes) : result bytes :=
  let holder := if bool_decide (holder = []) then co_localNode c else holder in
  match NodeID_Valid holder with
  | Some _ => Err (Wrapped "%w: %v" ycluster_ErrInvalidLeaseRequest)
  | None => Ok holder
  end.

Definition request_ttl (ttl : Z) : Z := if ttl <=? 0 then co_ttl c else ttl.

(** What [resolvePlacementVersion] makes of the placement it loads. *)
Definition placement_version (shardID : Z) (existing : result (option PlacementRecord)) : result Z :=
  match existing with
  | Err err => if errors_Is err storage_ErrPlacementNotFound then Ok 0 else Err err
  | Ok None => Ok 0
  | Ok (Some existing) =>
      match PlacementRecord_Validate existing with
      | Some _ => Err (Wrapped "%w: %v" ycluster_ErrInvalidPlacement)
      | None =>
          if negb (bool_decide (pl_ShardID existing = StorageShardID shardID))
          then Err (Wrapped "%w: shard %q != %q" ycluster_ErrInvalidPlacement)
          else Ok (Version existing)
      end
  end.

Definition resolvePlacementVersion (key : DocumentKey) (shardID requested : Z) : io (result Z) :=
  if negb (requested =? 0) then Ret (Ok requested)
  else existing ← storageLoadPlacement key; Ret (placement_version shardID existing).

Definition NewDocumentManager (shardID : Z) (holder : bytes) (ttl : Z) (token : bytes) : result LeaseManager :=
  NewLeaseManager (Some StorageLeaseStore) shardID holder ttl token.

(** A lease acquired for a placement that cannot be saved is released. *)
Definition ClaimDocument (req : ClaimDocumentRequest) : io (result DocumentOwnership) :=
  require DocumentKey_Validate (cr_DocumentKey req);
  match request_holder (cr_Holder req) with
  | Err err => Ret (Err err)
  | Ok holder =>
      match ResolveShard (co_resolver c) (cr_DocumentKey req) with
      | Err err => Ret (Err err)
      | Ok shardID =>
          placementVersion <-? resolvePlacementVersion (cr_DocumentKey req) shardID (cr_PlacementVersion req);
          match NewDocumentManager shardID holder (request_ttl (cr_TTL req)) (cr_Token req) with
          | Err err => Ret (Err err)
          | Ok manager =>
              '(r, manager) ← acquireAction manager;
              match r with
              | Err err => Ret (Err err)
              | Ok (lease, acquiredLease) =>
                  p ← storageSavePlacement (mkPlacement (cr_DocumentKey req) (StorageShardID shardID) placementVersion 0);
                  match p with
                  | Err err =>
                      if (acquiredLease : bool) then _ ← LeaseManager_Release manager; Ret (Err err) else Ret (Err err)
                  | Ok placement => Ret (Ok (mkOwnership (cr_DocumentKey req) shardID placement lease manager))
                  end
              end
          end
      end
  end.

Definition canPromoteAfterOwnerLookup (err : error) : bool :=
  errors_Is err ycluster_ErrOwnerNotFound || errors_Is err ycluster_ErrPlacementNotFound || errors_Is err ycluster_ErrLeaseExpired.

Definition PromoteDocument (req : ClaimDocumentRequest) : io (result DocumentOwnership) :=
  require DocumentKey_Validate (cr_DocumentKey req);
  r ← LookupOwner (cr_DocumentKey req);
  match r with
  | Ok None => ClaimDocument req
  | Ok (Some resolution) =>
      if negb (Local resolution) then Ret (Err (Wrapped "%w: documento %s/%s pertence a %q" ycluster_ErrLeaseHeld))
      else ClaimDocument req
  | Err err => if canPromoteAfterOwnerLookup err then ClaimDocument req else Ret (Err err)
  end.

Definition HandoffDocument (req : HandoffDocumentRequest) : io (result DocumentOwnership) :=
  require DocumentKey_Validate (hr_DocumentKey req);
  require Lease_Validate (hr_Current req);
  match request_holder (hr_NextHolder req) with
  | Err err => Ret (Err err)
  | Ok holder =>
      if bool_decide (holder = Holder (hr_Current req))
      then Ret (Err (Wrapped "%w: next holder %q ja detem a lease" ycluster_ErrInvalidLeaseRequest))
      else
        let ttl := request_ttl (hr_TTL req) in
        match ResolveShard (co_resolver c) (hr_DocumentKey req) with
        | Err err => Ret (Err err)
        | Ok shardID =>
            if negb (cl_ShardID (hr_Current req) =? shardID)
            then Ret (Err (Wrapped "%w: current shard %s difere do documento %s" ycluster_ErrInvalidLease))
            else
              loaded ← storageLoadPlacement (hr_DocumentKey req);
              match lookup_placement shardID loaded with
              | Err err => Ret (Err err)
              | Ok placement =>
                  lease <-? StorageLeaseStore_HandoffLease (co_handoff c) (hr_Current req)
                              (mkLeaseRequest shardID holder ttl (hr_Token req));
                  match NewDocumentManager shardID holder ttl (Token lease) with
                  | Err err => Ret (Err err)
                  | Ok manager =>
                      Ret (Ok (mkOwnership (hr_DocumentKey req) shardID (Some placement) lease (setCurrent (Some lease) manager)))
                  end
              end
        end
  end.

(** The release when a run ends, in a context of its own; [timeout] only bounds it. *)
Definition releaseDocumentOwnership (manager : LeaseManager) : io (option error * LeaseManager) :=
  '(r, manager) ← LeaseManager_Release manager;
  match r with
  | Some err => Ret (if errors_Is err ycluster_ErrOwnerNotFound then None else Some err, manager)
  | None => Ret (None, manager)
  end.

(** [RunDocumentOwnership] returns only with an error: the one that ended the loop
    and, joined to it, that of the release. *)
Definition RunDocumentOwnership (rounds : nat) (claim : ClaimDocumentRequest) (renewWithin interval releaseTimeout : Z)
    (releaseOnStop : bool) : io error :=
  if releaseTimeout <? 0 then Ret (Wrapped "%w: releaseTimeout invalido" ycluster_ErrInvalidLeaseRequest)
  else
    r ← ClaimDocument claim;
    match r with
    | Err err => Ret err
    | Ok ownership =>
        '(err, _, manager) ← LeaseManager_Run rounds renewWithin interval (do_Manager ownership);
        if releaseOnStop then
          '(r, _) ← releaseDocumentOwnership manager;
          match r with
          | Some releaseErr => Ret (Joined "errors.Join" err (Wrapped "release document ownership: %w" releaseErr))
          | None => Ret err
          end
        else Ret err
    end.

Definition LeaseManagerForDocument (key : DocumentKey) (holder : bytes) (ttl : Z) (token : bytes) : result LeaseManager :=
  match DocumentKey_Validate key with
  | Some err => Err err
  | None =>
      match ResolveShard (co_resolver c) key with
      | Err err => Err err
      | Ok shardID =>
          NewDocumentManager shardID (if bool_decide (holder = []) then co_localNode c else holder) (request_ttl ttl) token
      end
  end.

End coordinator.
