(* ===== verification/Runtime.v ===== *)
(** * pkg/ycluster/ownership_runtime.go: one ownership run per document

    The runtime runs the ownership of a document in a goroutine that all local
    callers share, by a count of references.  Every function is a computation
    ([Effects]): the sections under the mutex of the runtime are one action each, a
    goroutine that [go] starts is a computation of its own ([runEntry]), and a wait on
    a channel is an action that is not enabled before the channel is closed, unless
    the caller's context ends ([gives_up]).  Entries and handles are pointers:
    positions in heaps.  The run of an entry reaches the storage through the
    coordinator; its context ends when the entry is cancelled.  The manager of a
    published ownership is the one of the claim; the loop works on its own. *)
From S2P Require Import Prelude GoError GoText StorageTypes ClusterTypes Effects ClusterIO Leases Ownership.
#[local] Open Scope io_scope.

(** ** State *)

(** [en_canceled]: [cancel] was called; [en_ready], [en_done]: the channel is closed. *)
Record documentOwnershipRuntimeEntry := mkEntry {
  en_key : DocumentKey; en_canceled : bool; en_ready : bool; en_done : bool; en_refs : Z; en_ownership : option DocumentOwnership;
  en_err : option error }.

(** The [once] of a handle: nobody called Release, a call is in it, or it is over with an error or none. *)
Inductive once := Unused | Entered | Over (err : option error).

Record DocumentOwnershipHandle := mkHandle { ha_entry : nat; ha_once : once }.

Record DocumentOwnershipRuntimeConfig := mkRuntimeConfig {
  rc_Coordinator : option StorageOwnershipCoordinator; rc_RenewWithin : Z; rc_Interval : Z; rc_ReleaseTimeout : Z }.

Definition DocumentOwnershipRuntimeConfig_Validate (cfg : DocumentOwnershipRuntimeConfig) : option error :=
  match rc_Coordinator cfg with
  | None => Some (Sentinel ycluster_ErrNilOwnershipCoordinator)
  | Some _ => if rc_ReleaseTimeout cfg <? 0 then Some (Wrapped "%w: releaseTimeout invalido" ycluster_ErrInvalidLeaseRequest) else None
  end.

Record DocumentOwnershipRuntime := mkRuntime {
  or_coordinator : StorageOwnershipCoordinator; or_renewWithin : Z; or_interval : Z; or_releaseTimeout : Z }.

Definition NewDocumentOwnershipRuntime (cfg : DocumentOwnershipRuntimeConfig) : result DocumentOwnershipRuntime :=
  match DocumentOwnershipRuntimeConfig_Validate cfg, rc_Coordinator cfg with
  | Some err, _ => Err err
  | None, None => Err ycluster_ErrNilOwnershipCoordinator
  | None, Some coordinator => Ok (mkRuntime coordinator (rc_RenewWithin cfg) (rc_Interval cfg) (rc_ReleaseTimeout cfg))
  end.

(** What all calls share; [sh_go] are the goroutines that were started and have not begun. *)
Record shared (St : Type) := mkShared {
  sh_closed : bool; sh_entries : gmap DocumentKey nat; sh_heap : list documentOwnershipRuntimeEntry;
  sh_handles : list DocumentOwnershipHandle; sh_go : gmap nat ClaimDocumentRequest; sh_storage : St }.
Arguments mkShared {St}.
Arguments sh_closed {St}.
Arguments sh_entries {St}.
Arguments sh_heap {St}.
Arguments sh_handles {St}.
Arguments sh_go {St}.
Arguments sh_storage {St}.

Definition Runtime_New {St} (s : St) : shared St := mkShared false ∅ [] [] ∅ s.

(** ** Actions *)

Inductive runtime_op :=
| Run (entry : nat) (a : op)
| Background (a : op)
| AcquireEntry (key : DocumentKey)
| Go (entry : nat) (req : ClaimDocumentRequest)
| Begin (entry : nat)
| WaitReady (entry : nat) (gives_up : option error)
| WaitDone (entry : nat) (gives_up : option error)
| ReadEntry (entry : nat)
| NewHandle (entry : nat)
| MarkReady (entry : nat) (ownership : DocumentOwnership)
| UpdateLease (entry : nat) (lease : Lease)
| FinishEntry (entry : nat) (err : error)
| DropRef (entry : nat)
| OnceEnter (handle : nat)
| OnceLeave (handle : nat) (err : option error)
| CloseAll.

(** [AcquireEntry]: the entry, and whether it is new; [OnceEnter]: the entry for the
    call that goes in, or the error of the one that did; [CloseAll]: nothing when the
    runtime is closed already. *)
Definition runtime_reply (a : runtime_op) : Type :=
  match a with
  | Run _ a | Background a => reply a
  | AcquireEntry _ => result (nat * bool)
  | Begin _ => option ClaimDocumentRequest
  | WaitReady _ _ | WaitDone _ _ => option error
  | ReadEntry _ => documentOwnershipRuntimeEntry
  | NewHandle _ => nat
  | DropRef _ => bool
  | OnceEnter _ => nat + option error
  | CloseAll => option (list nat)
  | _ => unit
  end.

Abbreviation rio := (prog runtime_reply).

(** The mutex of the runtime, or a channel. *)
Definition doing (a : runtime_op) : rio (runtime_reply a) := act a.

(** A computation on the storage. *)
Fixpoint on_storage {A} (wrap : ∀ a : op, { b : runtime_op & runtime_reply b → reply a }) (m : io A) : rio A :=
  match m with Ret x => Ret x | Act a k => Act (projT1 (wrap a)) (λ r, on_storage wrap (k (projT2 (wrap a) r))) end.

Definition in_run (entry : nat) {A} (m : io A) : rio A := on_storage (λ a, existT (Run entry a) (λ r, r)) m.
Definition in_background {A} (m : io A) : rio A := on_storage (λ a, existT (Background a) (λ r, r)) m.

(** ** The operations *)

Section runtime.
Variable r : DocumentOwnershipRuntime.
(** The rounds of the loop of a run. *)
Variable rounds : nat.

(** The loop of LeaseManager.Run with [updateEntryLease] as its [OnLeaseChange]. *)
Fixpoint run_loop (rounds : nat) (entry : nat) (renewWithin : Z) (m : LeaseManager) {struct rounds} : rio (error * LeaseManager) :=
  match rounds with
  | O => Ret (FuelExhausted, m)
  | S rounds =>
      done ← in_run entry ctxErr;
      match done with
      | Some err => Ret (err, m)
      | None =>
          '(res, m) ← in_run entry (Ensure renewWithin m);
          match (res : result (Lease * bool)) with
          | Err err => Ret (err, m)
          | Ok (lease, changed) =>
              _ ← (if changed then doing (UpdateLease entry lease) else Ret tt);
              done ← in_run entry ctxErr;
              match done with
              | Some err => Ret (err, m)
              | None => run_loop rounds entry renewWithin m
              end
          end
      end
  end.

(** RunDocumentOwnership with [markEntryReady] as its [OnClaimed] and [ReleaseOnStop]. *)
Definition run_ownership (entry : nat) (claim : ClaimDocumentRequest) : rio error :=
  if or_releaseTimeout r <? 0 then Ret (Wrapped "%w: releaseTimeout invalido" ycluster_ErrInvalidLeaseRequest)
  else
    res ← in_run entry (ClaimDocument (or_coordinator r) claim);
    match (res : result DocumentOwnership) with
    | Err err => Ret err
    | Ok ownership =>
        _ ← doing (MarkReady entry ownership);
        '(err, manager) ←
          match normalizeRunConfig (m_ttl (do_Manager ownership)) (or_renewWithin r) (or_interval r) with
          | Err err => Ret (err, do_Manager ownership)
          | Ok (renewWithin, _) => run_loop rounds entry renewWithin (do_Manager ownership)
          end;
        '(released, _) ← in_background (releaseDocumentOwnership manager);
        Ret (match released with
             | Some releaseErr => Joined "errors.Join" err (Wrapped "release document ownership: %w" releaseErr)
             | None => err
             end)
    end.

(** The goroutine, which somebody has started. *)
Definition runEntry (entry : nat) : rio unit :=
  begun ← doing (Begin entry);
  match (begun : option ClaimDocumentRequest) with
  | None => Ret tt
  | Some req => err ← run_ownership entry req; doing (FinishEntry entry err)
  end.

Definition waitEntryReady (entry : nat) (gives_up : option error) : rio (result nat) :=
  ended ← doing (WaitReady entry gives_up);
  match (ended : option error) with
  | Some err => Ret (Err err)
  | None =>
      e ← doing (ReadEntry entry);
      match en_ownership e, en_err e with
      | None, Some err => Ret (Err err)
      | _, _ => handle ← doing (NewHandle entry); Ret (Ok handle)
      end
  end.

(** [wait]: the last reference waits for the end of the run. *)
Definition releaseEntry (entry : nat) (wait : bool) (gives_up : option error) : rio (option error) :=
  last ← doing (DropRef entry);
  if negb last || negb wait then Ret None
  else
    ended ← doing (WaitDone entry gives_up);
    match (ended : option error) with
    | Some err => Ret (Some err)
    | None =>
        e ← doing (ReadEntry entry);
        Ret (match en_err e with
             | Some err => if errors_Is err context_Canceled then None else Some err
             | None => None
             end)
    end.

(** The handle, or an error; the contexts of a caller that joins are not used. *)
Definition AcquireDocumentOwnership (req : ClaimDocumentRequest) (gives_up : option error) : rio (result nat) :=
  require DocumentKey_Validate (cr_DocumentKey req);
  acquired <-? doing (AcquireEntry (cr_DocumentKey req));
  let '(entry, created) := acquired in
  _ ← (if (created : bool) then doing (Go entry req) else Ret tt);
  handle ← waitEntryReady entry gives_up;
  match handle with
  | Err err => _ ← releaseEntry entry false None; Ret (Err err)
  | Ok handle => Ret (Ok handle)
  end.

Definition DocumentOwnershipHandle_Release (handle : option nat) (gives_up : option error) : rio (option error) :=
  match handle with
  | None => Ret None
  | Some handle =>
      entered ← doing (OnceEnter handle);
      match (entered : nat + option error) with
      | inr err => Ret err
      | inl entry =>
          err ← releaseEntry entry true gives_up;
          _ ← doing (OnceLeave handle err);
          Ret err
      end
  end.

(** The errors of the entries that the caller stopped waiting for. *)
Fixpoint wait_all (entries : list nat) (gives_up : nat → option error) (joined : option error) : rio (option error) :=
  match entries with
  | [] => Ret joined
  | entry :: entries =>
      ended ← doing (WaitDone entry (gives_up entry));
      wait_all entries gives_up
        (match (ended : option error), joined with
         | None, _ => joined
         | Some err, None => Some err
         | Some err, Some before => Some (Joined "errors.Join" before err)
         end)
  end.

Definition Runtime_Close (gives_up : nat → option error) : rio (option error) :=
  entries ← doing CloseAll;
  match (entries : option (list nat)) with
  | None => Ret None
  | Some entries => wait_all entries gives_up None
  end.

End runtime.

(** ** What the actions do *)

Definition no_entry : documentOwnershipRuntimeEntry := mkEntry (mkDocumentKey [] []) true true true 0 None None.
Definition entry_at {St} (s : shared St) (entry : nat) : documentOwnershipRuntimeEntry := default no_entry (sh_heap s !! entry).

Definition newEntry (key : DocumentKey) : documentOwnershipRuntimeEntry := mkEntry key false false false 1 None None.

Definition set_refs (refs : Z) (canceled : bool) (e : documentOwnershipRuntimeEntry) : documentOwnershipRuntimeEntry :=
  mkEntry (en_key e) canceled (en_ready e) (en_done e) refs (en_ownership e) (en_err e).

Definition markEntryReady (ownership : DocumentOwnership) (e : documentOwnershipRuntimeEntry) : documentOwnershipRuntimeEntry :=
  if en_ready e then e else mkEntry (en_key e) (en_canceled e) true (en_done e) (en_refs e) (Some ownership) None.

Definition updateEntryLease (lease : Lease) (e : documentOwnershipRuntimeEntry) : documentOwnershipRuntimeEntry :=
  match en_ownership e with
  | None => e
  | Some o =>
      mkEntry (en_key e) (en_canceled e) (en_ready e) (en_done e) (en_refs e)
        (Some (mkOwnership (do_DocumentKey o) (do_ShardID o) (do_Placement o) lease (do_Manager o))) (en_err e)
  end.

Definition finishEntry (err : error) (e : documentOwnershipRuntimeEntry) : documentOwnershipRuntimeEntry :=
  mkEntry (en_key e) (en_canceled e) true true (en_refs e) (en_ownership e) (Some err).

(** One reference less; the last one cancels the run. *)
Definition dropRef (e : documentOwnershipRuntimeEntry) : documentOwnershipRuntimeEntry :=
  let refs := if 0 <? en_refs e then en_refs e - 1 else en_refs e in
  set_refs refs (en_canceled e || (refs =? 0)) e.

Section handler.
Context {St : Type} `{Handler op reply St}.
(** The order in which the map of the entries is visited. *)
Variable order : gmap DocumentKey nat → list nat.

Definition with_heap (heap : list documentOwnershipRuntimeEntry) (s : shared St) : shared St :=
  mkShared (sh_closed s) (sh_entries s) heap (sh_handles s) (sh_go s) (sh_storage s).
Definition with_handles (handles : list DocumentOwnershipHandle) (s : shared St) : shared St :=
  mkShared (sh_closed s) (sh_entries s) (sh_heap s) handles (sh_go s) (sh_storage s).
Definition with_go (go : gmap nat ClaimDocumentRequest) (s : shared St) : shared St :=
  mkShared (sh_closed s) (sh_entries s) (sh_heap s) (sh_handles s) go (sh_storage s).

Definition on_entry (f : documentOwnershipRuntimeEntry → documentOwnershipRuntimeEntry) (entry : nat) (s : shared St) : shared St :=
  with_heap (alter f entry (sh_heap s)) s.

Definition asked {A} (x : A * St) (s : shared St) : A * shared St :=
  (x.1, mkShared (sh_closed s) (sh_entries s) (sh_heap s) (sh_handles s) (sh_go s) x.2).

Definition acquireEntry (key : DocumentKey) (s : shared St) : result (nat * bool) * shared St :=
  if sh_closed s then (Err ycluster_ErrOwnershipRuntimeClosed, s)
  else
    match sh_entries s !! key with
    | Some entry => (Ok (entry, false), on_entry (λ e, set_refs (en_refs e + 1) (en_canceled e) e) entry s)
    | None =>
        let entry := length (sh_heap s) in
        (Ok (entry, true), mkShared (sh_closed s) (<[key := entry]> (sh_entries s)) (sh_heap s ++ [newEntry key]) (sh_handles s) (sh_go s) (sh_storage s))
    end.

Definition remove_entry (entry : nat) (s : shared St) : shared St :=
  let key := en_key (entry_at s entry) in
  if bool_decide (sh_entries s !! key = Some entry)
  then mkShared (sh_closed s) (delete key (sh_entries s)) (sh_heap s) (sh_handles s) (sh_go s) (sh_storage s) else s.

Definition close_all (s : shared St) : option (list nat) * shared St :=
  if sh_closed s then (None, s)
  else
    let entries := order (sh_entries s) in
    (Some entries, mkShared true (sh_entries s) (foldr (alter (set_refs 0 true)) (sh_heap s) entries) (sh_handles s) (sh_go s) (sh_storage s)).

#[export] Instance runtime_handler : Handler runtime_reply (shared St) := λ a i s,
  match a with
  | Run entry a => asked (answer a (mkInstant (if en_canceled (entry_at s entry) then Some Canceled else None) (i_now i)) (sh_storage s)) s
  | Background a => asked (answer a i (sh_storage s)) s
  | AcquireEntry key => acquireEntry key s
  | Go entry req => (tt, with_go (<[entry := req]> (sh_go s)) s)
  | Begin entry => (sh_go s !! entry, with_go (delete entry (sh_go s)) s)
  | WaitReady _ gives_up | WaitDone _ gives_up => (gives_up, s)
  | ReadEntry entry => (entry_at s entry, s)
  | NewHandle entry => (length (sh_handles s), with_handles (sh_handles s ++ [mkHandle entry Unused]) s)
  | MarkReady entry ownership => (tt, on_entry (markEntryReady ownership) entry s)
  | UpdateLease entry lease => (tt, on_entry (updateEntryLease lease) entry s)
  | FinishEntry entry err => (tt, on_entry (finishEntry err) entry (remove_entry entry s))
  | DropRef entry => let s := on_entry dropRef entry s in (en_refs (entry_at s entry) =? 0, s)
  | OnceEnter handle =>
      match sh_handles s !! handle with
      | Some (mkHandle entry Unused) => (inl entry, with_handles (<[handle := mkHandle entry Entered]> (sh_handles s)) s)
      | Some (mkHandle _ (Over err)) => (inr err, s)
      | _ => (inr None, s)
      end
  | OnceLeave handle err => (tt, with_handles (alter (λ h, mkHandle (ha_entry h) (Over err)) handle (sh_handles s)) s)
  | CloseAll => close_all s
  end.

(** A channel that is open makes the caller wait, as does a [once] that another call is in. *)
Definition runtime_enabled (a : runtime_op) (s : shared St) : Prop :=
  match a with
  | WaitReady entry gives_up => is_Some gives_up ∨ en_ready (entry_at s entry) = true
  | WaitDone entry gives_up => is_Some gives_up ∨ en_done (entry_at s entry) = true
  | OnceEnter handle => ∀ e, sh_handles s !! handle ≠ Some (mkHandle e Entered)
  | _ => True
  end.

(** Ownership, Done and Err of a handle. *)
Definition handle_view {A} (f : documentOwnershipRuntimeEntry → A) (none : A) (handle : option nat) (s : shared St) : A :=
  match handle ≫= (sh_handles s !!.) with Some h => f (entry_at s (ha_entry h)) | None => none end.
Definition DocumentOwnershipHandle_Ownership : option nat → shared St → option DocumentOwnership := handle_view en_ownership None.
Definition DocumentOwnershipHandle_Done : option nat → shared St → bool := handle_view en_done true.
Definition DocumentOwnershipHandle_Err : option nat → shared St → option error := handle_view en_err None.

End handler.
