(* ===== verification/Rebalance.v ===== *)
(** * pkg/ycluster: membership and the rebalancing of documents

    membership.go, rebalance.go, rebalance_plan.go, rebalance_source.go and
    rebalance_controller.go.  The health sources, target sources and the token
    function are arguments; the callbacks that only observe are left out. *)
From S2P Require Import Prelude GoError GoText StorageTypes MemoryStore ClusterTypes Effects ClusterIO Leases Ownership.
#[local] Open Scope io_scope.

(** ** Targets *)

Definition string_rel (a b : bytes) : Prop := Is_true (string_le a b).

#[export] Instance string_rel_dec : RelDecision string_rel.
Proof. unfold string_rel. intros a b. apply _. Defined.

(** The loop over the targets: the ones seen and the ones kept, in reverse. *)
Fixpoint distinct_targets (targets : list bytes) (seen : gset bytes) (out : list bytes) : result (list bytes) :=
  match targets with
  | [] => Ok out
  | target :: targets =>
      match NodeID_Valid target with
      | Some _ => Err (Wrapped "%w: %v" ycluster_ErrInvalidRebalancePlan)
      | None =>
          if decide (target ∈ seen) then distinct_targets targets seen out
          else distinct_targets targets ({[target]} ∪ seen) (out ++ [target])
      end
  end.

Definition normalizeRebalanceTargets (targets : list bytes) : result (list bytes) :=
  match targets with
  | [] => Err (Wrapped "%w: targetHolders obrigatorio" ycluster_ErrInvalidRebalancePlan)
  | _ => out ← distinct_targets targets ∅ []; Ok (merge_sort string_rel out)
  end.

Definition normalizeRebalanceTargetsFromContext (targets : list bytes) (err : option error) : io (result (list bytes)) :=
  require err;
  done ← ctxErr;
  require done;
  Ret (normalizeRebalanceTargets targets).

(** [StaticRebalanceTargetSource] and [RebalanceTargetSourceFunc]. *)
Definition StaticRebalanceTargetSource (targets : list bytes) : io (result (list bytes)) :=
  normalizeRebalanceTargetsFromContext targets None.

Definition RebalanceTargetSourceFunc (f : io (result (list bytes))) : io (result (list bytes)) :=
  r ← f;
  match r with
  | Err err => normalizeRebalanceTargetsFromContext [] (Some err)
  | Ok targets => normalizeRebalanceTargetsFromContext targets None
  end.

(** ** Membership *)

Definition NodeHealthUnknown : string := "unknown".
Definition NodeHealthReady : string := "ready".
Definition NodeHealthDraining : string := "draining".
Definition NodeHealthUnhealthy : string := "unhealthy".

Record NodeHealth := mkNodeHealth { nh_NodeID : bytes; nh_State : string; LastSeen : Z; Labels : gmap bytes bytes }.

Definition normalizeNodeHealthState (state : string) : string :=
  if bool_decide (state = EmptyString) then NodeHealthUnknown else state.

Definition NodeHealth_Validate (h : NodeHealth) : option error :=
  match NodeID_Valid (nh_NodeID h) with
  | Some _ => Some (Wrapped "%w: %v" ycluster_ErrInvalidNodeHealth)
  | None =>
      if bool_decide (normalizeNodeHealthState (nh_State h) ∈
           [NodeHealthUnknown; NodeHealthReady; NodeHealthDraining; NodeHealthUnhealthy])
      then None else Some (Wrapped "%w: state %q" ycluster_ErrInvalidNodeHealth)
  end.

Definition StaticNodeHealthSource_ListNodeHealth (nodes : list NodeHealth) : io (result (list NodeHealth)) :=
  done ← ctxErr; require done; Ret (Ok nodes).

Record HealthyRebalanceTargetSource := mkHealthySource {
  hs_includeDraining : bool; hs_maxStaleness : Z; hs_requiredLabels : gmap bytes bytes }.

Definition NewHealthyRebalanceTargetSource (source includeDraining : bool) (maxStaleness : Z) (requiredLabels : gmap bytes bytes)
    : result HealthyRebalanceTargetSource :=
  if negb source then Err (Wrapped "%w: node health source obrigatorio" ycluster_ErrInvalidRebalancePlan)
  else if maxStaleness <? 0 then Err (Wrapped "%w: maxStaleness negativo" ycluster_ErrInvalidRebalancePlan)
  else Ok (mkHealthySource includeDraining maxStaleness requiredLabels).

Section healthy.
Variable s : HealthyRebalanceTargetSource.

Definition acceptsState (state : string) : bool :=
  let state := normalizeNodeHealthState state in
  if bool_decide (state = NodeHealthReady) then true
  else if bool_decide (state = NodeHealthDraining) then hs_includeDraining s else false.

Definition isStale (node : NodeHealth) (now : Z) : bool :=
  if hs_maxStaleness s <=? 0 then false
  else if IsZero (LastSeen node) then true
  else hs_maxStaleness s <? Sub now (LastSeen node).

(** A missing label reads as the empty string. *)
Definition labelsMatch (actual required : gmap bytes bytes) : bool :=
  forallb (λ kv, bool_decide (default [] (actual !! kv.1) = kv.2)) (map_to_list required).

Definition accepts (now : Z) (node : NodeHealth) : bool :=
  acceptsState (nh_State node) && negb (isStale node now) && labelsMatch (Labels node) (hs_requiredLabels s).

Fixpoint healthy_targets (now : Z) (nodes : list NodeHealth) (seen : gset bytes) (targets : list bytes) : result (list bytes) :=
  match nodes with
  | [] => Ok targets
  | node :: nodes =>
      match NodeHealth_Validate node with
      | Some err => Err err
      | None =>
          if negb (accepts now node) then healthy_targets now nodes seen targets
          else if decide (nh_NodeID node ∈ seen) then healthy_targets now nodes seen targets
          else healthy_targets now nodes ({[nh_NodeID node]} ∪ seen) (targets ++ [nh_NodeID node])
      end
  end.

Definition HealthyRebalanceTargets (ListNodeHealth : io (result (list NodeHealth))) : io (result (list bytes)) :=
  nodes <-? ListNodeHealth;
  now ← nowTime;
  match healthy_targets now nodes ∅ [] with
  | Err err => Ret (Err err)
  | Ok targets =>
      match merge_sort string_rel targets with
      | [] => Ret (Err (Wrapped "%w: nenhum target saudavel" ycluster_ErrInvalidRebalancePlan))
      | targets => Ret (Ok targets)
      end
  end.

End healthy.

(** ** Moving one document *)

Record RebalanceDocumentRequest := mkRebalance {
  rr_DocumentKey : DocumentKey; rr_TargetHolder : bytes; rr_TTL : Z; rr_Token : bytes;
  rr_PromoteIfOwnerMissing : bool; rr_PlacementVersion : Z }.

Record RebalanceDocumentResult := mkRebalanceResult {
  rd_DocumentKey : DocumentKey; rd_From : bytes; rd_To : bytes; rd_Changed : bool;
  rd_Previous : option OwnerResolution; rd_Ownership : DocumentOwnership; rd_PromotedFromLost : bool }.

Definition normalizeRebalanceOwnerLookupError (err : error) : error :=
  if errors_Is err ycluster_ErrPlacementNotFound then Joined "%w: %w" ycluster_ErrOwnerNotFound err else err.

Definition ownershipFromResolution (resolution : OwnerResolution) (ttl : Z) : result DocumentOwnership :=
  match p_Lease (r_Placement resolution) with
  | None => Err ycluster_ErrOwnerNotFound
  | Some lease =>
      let placement := mkPlacement (r_DocumentKey resolution) (StorageShardID (p_ShardID (r_Placement resolution)))
                         (p_Version (r_Placement resolution)) 0 in
      match PlacementRecord_Validate placement with
      | Some _ => Err (Wrapped "%w: %v" ycluster_ErrInvalidPlacement)
      | None =>
          manager ← NewDocumentManager (p_ShardID (r_Placement resolution)) (p_NodeID (r_Placement resolution)) ttl (Token lease);
          Ok (mkOwnership (r_DocumentKey resolution) (p_ShardID (r_Placement resolution)) (Some placement) lease
                (setCurrent (Some lease) manager))
      end
  end.

Section rebalance.
Variable c : StorageOwnershipCoordinator.

(** The promotion or the handoff, once the lookup answered. *)
Definition rebalance_found (req : RebalanceDocumentRequest) (target : bytes) (ttl : Z) (found : result (option OwnerResolution))
    : io (result RebalanceDocumentResult) :=
  match found with
  | Err err =>
      if negb (canPromoteAfterOwnerLookup err) || negb (rr_PromoteIfOwnerMissing req)
      then Ret (Err (normalizeRebalanceOwnerLookupError err))
      else
        ownership <-? PromoteDocument c (mkClaim (rr_DocumentKey req) target ttl (rr_Token req) (rr_PlacementVersion req));
        Ret (Ok (mkRebalanceResult (rr_DocumentKey req) [] target true None ownership true))
  | Ok None => Ret (Err ycluster_ErrOwnerNotFound)
  | Ok (Some resolution) =>
      match p_Lease (r_Placement resolution) with
      | None => Ret (Err ycluster_ErrOwnerNotFound)
      | Some lease =>
          let currentHolder := p_NodeID (r_Placement resolution) in
          if bool_decide (currentHolder = target) then
            match ownershipFromResolution resolution ttl with
            | Err err => Ret (Err err)
            | Ok ownership =>
                Ret (Ok (mkRebalanceResult (rr_DocumentKey req) currentHolder target false (Some resolution) ownership false))
            end
          else
            ownership <-? HandoffDocument c (mkHandoff (rr_DocumentKey req) lease target ttl (rr_Token req));
            Ret (Ok (mkRebalanceResult (rr_DocumentKey req) currentHolder target true (Some resolution) ownership false))
      end
  end.

Definition RebalanceDocument (req : RebalanceDocumentRequest) : io (result RebalanceDocumentResult) :=
  require DocumentKey_Validate (rr_DocumentKey req);
  match request_holder c (rr_TargetHolder req) with
  | Err err => Ret (Err err)
  | Ok target =>
      let ttl := request_ttl c (rr_TTL req) in
      if ttl <=? 0 then Ret (Err (Wrapped "%w: ttl obrigatorio" ycluster_ErrInvalidLeaseRequest))
      else
        found ← LookupOwner c (rr_DocumentKey req);
        rebalance_found req target ttl found
  end.

End rebalance.

(** ** Planning *)

Definition RebalanceReasonMissingOwner : string := "owner_missing".
Definition RebalanceReasonOwnerOutsideTargets : string := "owner_outside_targets".
Definition RebalanceReasonLoadShedding : string := "load_shedding".

Record PlannedRebalance := mkMove { mv_DocumentKey : DocumentKey; mv_From : bytes; mv_To : bytes; mv_Reason : string }.
#[export] Instance PlannedRebalance_eq_dec : EqDecision PlannedRebalance.
Proof. solve_decision. Defined.

Record SkippedRebalanceDocument := mkSkip { sk_DocumentKey : DocumentKey; sk_Reason : string; sk_Err : option error }.

(** The plan with the maps the planner keeps; [Go]'s maps read zero for a missing key. *)
Record planner := mkPlanner {
  Moves : list PlannedRebalance; Skipped : list SkippedRebalanceDocument;
  loads : gmap bytes Z; docsByOwner : gmap bytes (list DocumentKey); moved : gset DocumentKey }.

Definition rebalanceMoveLimitReached (maxMoves : Z) (current : nat) : bool := (0 <? maxMoves) && (maxMoves <=? Z.of_nat current).

Definition leastLoadedTarget (targets : list bytes) (loads : gmap bytes Z) : bytes :=
  match targets with
  | [] => []
  | t :: ts => fold_left (λ selected target, if get0 loads target <? get0 loads selected then target else selected) ts t
  end.

Definition mostLoadedTarget (targets : list bytes) (loads : gmap bytes Z) : bytes :=
  match targets with
  | [] => []
  | t :: ts => fold_left (λ selected target, if get0 loads selected <? get0 loads target then target else selected) ts t
  end.

Fixpoint nextMovableDocument (keys : list DocumentKey) (moved : gset DocumentKey) : option DocumentKey :=
  match keys with
  | [] => None
  | key :: keys => if decide (key ∈ moved) then nextMovableDocument keys moved else Some key
  end.

Definition skip (key : DocumentKey) (reason : string) (err : option error) (p : planner) : planner :=
  mkPlanner (Moves p) (Skipped p ++ [mkSkip key reason err]) (loads p) (docsByOwner p) (moved p).

Definition add_load (t : bytes) (d : Z) (loads : gmap bytes Z) : gmap bytes Z := <[t := get0 loads t + d]> loads.

(** A document without an accepted owner goes to the least loaded target. *)
Definition assign (targets : list bytes) (key : DocumentKey) (from : bytes) (reason : string) (p : planner) : planner :=
  let target := leastLoadedTarget targets (loads p) in
  mkPlanner (Moves p ++ [mkMove key from target reason]) (Skipped p) (add_load target 1 (loads p)) (docsByOwner p)
    ({[key]} ∪ moved p).

(** The owner is a target: the document counts for it. *)
Definition keep (key : DocumentKey) (owner : bytes) (p : planner) : planner :=
  mkPlanner (Moves p) (Skipped p) (add_load owner 1 (loads p))
    (<[owner := default [] (docsByOwner p !! owner) ++ [key]]> (docsByOwner p)) (moved p).

Definition plan_document (targets : list bytes) (maxMoves : Z) (promote : bool) (key : DocumentKey)
    (found : result (option OwnerResolution)) (p : planner) : planner :=
  match found with
  | Err err =>
      if canPromoteAfterOwnerLookup err && promote && negb (rebalanceMoveLimitReached maxMoves (length (Moves p)))
      then assign targets key [] RebalanceReasonMissingOwner p
      else skip key "owner_lookup_failed" (Some (normalizeRebalanceOwnerLookupError err)) p
  | Ok None => skip key "owner_lookup_failed" (Some (Sentinel ycluster_ErrOwnerNotFound)) p
  | Ok (Some resolution) =>
      let owner := p_NodeID (r_Placement resolution) in
      if bool_decide (owner ∈ targets) then keep key owner p
      else if rebalanceMoveLimitReached maxMoves (length (Moves p)) then skip key "max_moves_reached" None p
      else assign targets key owner RebalanceReasonOwnerOutsideTargets p
  end.

(** One round of the second loop; [None] is its [break]. *)
Definition shed (targets : list bytes) (maxMoves : Z) (p : planner) : option planner :=
  if rebalanceMoveLimitReached maxMoves (length (Moves p)) then None
  else
    let from := mostLoadedTarget targets (loads p) in
    let to := leastLoadedTarget targets (loads p) in
    if bool_decide (from = []) || bool_decide (to = []) || bool_decide (from = to) ||
       (get0 (loads p) from - get0 (loads p) to <=? 1) then None
    else
      match nextMovableDocument (default [] (docsByOwner p !! from)) (moved p) with
      | None => None
      | Some key =>
          Some (mkPlanner (Moves p ++ [mkMove key from to RebalanceReasonLoadShedding]) (Skipped p)
                  (add_load to 1 (add_load from (-1) (loads p))) (docsByOwner p) ({[key]} ∪ moved p))
      end.

(** [None]: the fuel does not reach the [break]. *)
Fixpoint shed_loop (fuel : nat) (targets : list bytes) (maxMoves : Z) (p : planner) : option planner :=
  match shed targets maxMoves p with
  | None => Some p
  | Some p' => match fuel with O => None | S fuel => shed_loop fuel targets maxMoves p' end
  end.

Record RebalancePlanRequest := mkPlanRequest {
  pr_Documents : list DocumentKey; pr_TargetHolders : list bytes; pr_MaxMoves : Z; pr_PromoteIfOwnerMissing : bool }.

(** The initial loads: the targets, with none. *)
Definition start_planner (targets : list bytes) : planner :=
  mkPlanner [] [] (list_to_map ((λ t, (t, 0)) <$> targets)) ∅ ∅.

Section planning.
Variable c : StorageOwnershipCoordinator.

Fixpoint plan_documents (targets : list bytes) (maxMoves : Z) (promote : bool) (keys : list DocumentKey) (p : planner)
    : io planner :=
  match keys with
  | [] => Ret p
  | key :: keys =>
      match DocumentKey_Validate key with
      | Some err => plan_documents targets maxMoves promote keys (skip key "invalid_document" (Some err) p)
      | None =>
          found ← LookupOwner c key;
          plan_documents targets maxMoves promote keys (plan_document targets maxMoves promote key found p)
      end
  end.

(** A round of the second loop moves a document it had not moved: a round per
    document is enough. *)
Definition PlanDocumentRebalance (req : RebalancePlanRequest) : io (result planner) :=
  if pr_MaxMoves req <? 0 then Ret (Err (Wrapped "%w: maxMoves negativo" ycluster_ErrInvalidRebalancePlan))
  else
    match normalizeRebalanceTargets (pr_TargetHolders req) with
    | Err err => Ret (Err err)
    | Ok targets =>
        p ← plan_documents targets (pr_MaxMoves req) (pr_PromoteIfOwnerMissing req) (pr_Documents req) (start_planner targets);
        Ret (match shed_loop (length (pr_Documents req)) targets (pr_MaxMoves req) p with
             | Some p => Ok p
             | None => Err FuelExhausted
             end)
    end.

(** ** Executing a plan *)

Record RebalancePlanExecutionResult := mkExecution {
  ex_Planned : PlannedRebalance; ex_Result : result RebalanceDocumentResult }.

(** [errors.Join]. *)
Definition errors_Join (errs : list error) : option error :=
  match errs with [] => None | e :: errs => Some (fold_left (Joined "errors.Join") errs e) end.

Fixpoint execute_moves (ttl : Z) (TokenForDocument : option (PlannedRebalance → bytes)) (moves : list PlannedRebalance)
    (results : list RebalancePlanExecutionResult) (errs : list error) : io (list RebalancePlanExecutionResult * option error) :=
  match moves with
  | [] => Ret (results, errors_Join errs)
  | move :: moves =>
      done ← ctxErr;
      match done with
      | Some err => Ret (results, errors_Join (errs ++ [err]))
      | None =>
          let token := match TokenForDocument with Some f => f move | None => [] end in
          r ← RebalanceDocument c (mkRebalance (mv_DocumentKey move) (mv_To move) ttl token (bool_decide (mv_From move = [])) 0);
          execute_moves ttl TokenForDocument moves (results ++ [mkExecution move r])
            (match r with Err err => errs ++ [Wrapped "rebalance %s/%s to %q: %w" err] | Ok _ => errs end)
      end
  end.

Definition ExecuteRebalancePlan (plan : option (list PlannedRebalance)) (ttl : Z)
    (TokenForDocument : option (PlannedRebalance → bytes)) : io (list RebalancePlanExecutionResult * option error) :=
  match plan with
  | None => Ret ([], Some (Wrapped "%w: plano nil" ycluster_ErrInvalidRebalancePlan))
  | Some moves => execute_moves ttl TokenForDocument moves [] []
  end.

(** ** The controller *)

(** rebalance_source.go: the keys of the placements the storage lists. *)
Definition NewStoragePlacementDocumentSource (placements : bool) (namespace : bytes) (limit : Z) : result (bytes * Z) :=
  if negb placements then Err ycluster_ErrNilPlacementStore
  else if limit <? 0 then Err (Wrapped "%w: limit negativo" ycluster_ErrInvalidRebalancePlan) else Ok (namespace, limit).

Definition StoragePlacementDocumentSource (namespace : bytes) (limit : Z) : io (result (list DocumentKey)) :=
  r ← act (DoListPlacements namespace limit);
  Ret (match r : result (list (option PlacementRecord)) with
       | Err err => Err err
       | Ok placements => Ok (omap (fmap pl_Key) placements)
       end).

Record RebalanceController := mkController {
  rc_source : io (result (list DocumentKey)); rc_targetSource : io (result (list bytes)); rc_interval : Z; rc_maxMoves : Z;
  rc_promoteIfOwnerMissing : bool; rc_ttl : Z; rc_tokenForDocument : option (PlannedRebalance → bytes) }.

Definition RebalanceControllerConfig_Validate (coordinator : bool) (source : option (io (result (list DocumentKey)))) (interval maxMoves : Z)
    (targetHolders : list bytes) (targetSource : option (io (result (list bytes)))) : option error :=
  if negb coordinator then Some (Sentinel ycluster_ErrNilOwnershipCoordinator)
  else
    match source with
    | None => Some (Wrapped "%w: document source obrigatorio" ycluster_ErrInvalidRebalancePlan)
    | Some _ =>
        if interval <=? 0 then Some (Wrapped "%w: interval obrigatorio" ycluster_ErrInvalidRebalancePlan)
        else if maxMoves <? 0 then Some (Wrapped "%w: maxMoves negativo" ycluster_ErrInvalidRebalancePlan)
        else
          match targetSource with
          | Some _ => None
          | None => match normalizeRebalanceTargets targetHolders with Err err => Some err | Ok _ => None end
          end
    end.

Definition NewRebalanceController (coordinator : bool) (source : option (io (result (list DocumentKey)))) (targetHolders : list bytes)
    (targetSource : option (io (result (list bytes)))) (interval maxMoves : Z) (promote : bool) (ttl : Z)
    (token : option (PlannedRebalance → bytes)) : result RebalanceController :=
  match RebalanceControllerConfig_Validate coordinator source interval maxMoves targetHolders targetSource, source with
  | Some err, _ => Err err
  | None, None => Err (Wrapped "%w: document source obrigatorio" ycluster_ErrInvalidRebalancePlan)
  | None, Some source =>
      targetSource ← match targetSource with
                     | Some targetSource => Ok targetSource
                     | None => targets ← normalizeRebalanceTargets targetHolders; Ok (StaticRebalanceTargetSource targets)
                     end;
      Ok (mkController source targetSource interval maxMoves promote ttl token)
  end.

Record RunResult := mkRunResult {
  run_Documents : nat; run_Targets : list bytes; run_Plan : option planner; run_Results : list RebalancePlanExecutionResult }.

Definition RunOnce (rc : RebalanceController) : io (RunResult * option error) :=
  documents ← rc_source rc;
  match documents with
  | Err err => Ret (mkRunResult 0 [] None [], Some err)
  | Ok documents =>
      targets ← rc_targetSource rc;
      match targets with
      | Err err => Ret (mkRunResult (length documents) [] None [], Some err)
      | Ok targets =>
          plan ← PlanDocumentRebalance (mkPlanRequest documents targets (rc_maxMoves rc) (rc_promoteIfOwnerMissing rc));
          match plan with
          | Err err => Ret (mkRunResult (length documents) targets None [], Some err)
          | Ok plan =>
              '(results, err) ← ExecuteRebalancePlan (Some (Moves plan)) (rc_ttl rc) (rc_tokenForDocument rc);
              Ret (mkRunResult (length documents) targets (Some plan) results, err)
          end
      end
  end.

(** [Run]: cycles until the context ends between two ticks or a cycle fails. *)
Fixpoint RebalanceController_Run (rounds : nat) (rc : RebalanceController) : io error :=
  match rounds with
  | O => Ret FuelExhausted
  | S rounds =>
      '(_, err) ← RunOnce rc;
      match err with
      | Some err => Ret err
      | None =>
          done ← ctxErr;
          match done with Some err => Ret err | None => RebalanceController_Run rounds rc end
      end
  end.

End planning.
