(* ===== verification/LeaseFacts.v ===== *)
(** * Facts on the cluster's records and computations

    The conversions between persisted and cluster leases, the rules of [wp] when
    anybody may use the storage, what each lease operation guarantees, and that a
    claim on a free shard succeeds: the memory store while others leave one shard
    and one document alone, and the outcome of a claim followed by a lookup. *)
From stdpp Require Import relations.
From S2P Require Import Prelude GoError GoText StorageTypes MemoryStore StoreSpec ClusterTypes Effects ClusterIO Leases Ownership.

(** ** Printed shards *)

Lemma digits_head fuel n : (fuel ≠ 0)%nat → 0 <= n → ∃ c s, digits fuel n = c :: s ∧ 48 <= c < 58.
Proof.
  revert n. induction fuel as [|fuel IH]; intros n Hf Hn; [done|]. cbn [digits].
  destruct (Z.ltb_spec n 10); [by exists (48 + n), []; split; [done|lia]|].
  destruct (decide (fuel = 0%nat)) as [->|Hne].
  - exists (48 + n mod 10), []. split; [done|]. pose proof (Z.mod_pos_bound n 10 ltac:(lia)). lia.
  - destruct (IH (n / 10) Hne) as (c & s & -> & Hc); [by apply Z.div_pos|]. by eexists c, _.
Qed.

Lemma is_blank_ascii c s : 0 <= c < 128 → is_blank (c :: s) = IsSpace c && is_blank s.
Proof. intros Hc. unfold is_blank. cbn [runes]. by rewrite (proj2 (Z.ltb_lt c 128)) by lia. Qed.

Lemma is_blank_digits fuel n s : (fuel ≠ 0)%nat → 0 <= n → is_blank (digits fuel n ++ s) = false.
Proof.
  intros Hf Hn. destruct (digits_head fuel n Hf Hn) as (c & t & -> & Hc). cbn [app]. rewrite is_blank_ascii by lia.
  assert (IsSpace c = false) as ->; [|done]. apply not_true_is_false. unfold IsSpace.
  rewrite !orb_true_iff, !andb_true_iff, !Z.leb_le, !Z.eqb_eq. lia.
Qed.

Lemma StorageShardID_valid n : 0 <= n → ShardID_Validate (StorageShardID n) = None.
Proof.
  intros Hn. unfold ShardID_Validate, StorageShardID, ShardID_String, FormatUint.
  rewrite <- (app_nil_r (digits 20 n)). by rewrite is_blank_digits.
Qed.

Lemma ParseStorageShardID_String n : is_u32 n → ParseStorageShardID (StorageShardID n) = Ok n.
Proof.
  intros Hn. unfold ParseStorageShardID. rewrite StorageShardID_valid by apply Hn.
  unfold StorageShardID, ShardID_String. by rewrite ParseUint32_FormatUint.
Qed.

Lemma StorageShardID_inj n m : is_u32 n → is_u32 m → StorageShardID n = StorageShardID m → n = m.
Proof. intros Hn Hm E. apply ParseStorageShardID_String in Hn, Hm. congruence. Qed.

(** ** Persisted leases *)

(** The lease of shard [n] that a record persists. *)
Definition lease_of_record (n : Z) (r : LeaseRecord) : Lease :=
  mkClusterLease n (o_NodeID (l_Owner r)) (o_Epoch (l_Owner r)) (l_Token r) (AcquiredAt r) (ExpiresAt r).

Lemma LeaseFromStorageRecord_spec n r : is_u32 n → l_ShardID r = StorageShardID n →
  match LeaseRecord_Validate r with
  | None => LeaseFromStorageRecord (Some r) = Ok (lease_of_record n r) ∧ Lease_Validate (lease_of_record n r) = None
  | Some _ => ∃ err, LeaseFromStorageRecord (Some r) = Err err
  end.
Proof.
  intros Hn Hs. unfold LeaseFromStorageRecord. destruct (LeaseRecord_Validate r) eqn:Hv; [by eexists|].
  assert (NodeID_Valid (o_NodeID (l_Owner r)) = None ∧ Lease_Validate (lease_of_record n r) = None) as [Hid Hl].
  { unfold LeaseRecord_Validate, OwnerInfo_Validate, NodeID_Validate, Lease_Validate, NodeID_Valid, lease_of_record in *.
    cbn [Holder Epoch Token cl_AcquiredAt cl_ExpiresAt].
    destruct (ShardID_Validate _); [done|]. destruct (is_blank (o_NodeID _)); [done|].
    destruct (o_Epoch _ =? 0); [done|]. destruct (is_blank (l_Token r)); [done|]. destruct (IsZero (ExpiresAt r)); [done|].
    by destruct (negb _ && negb _). }
  rewrite Hs, ParseStorageShardID_String by done. unfold ParseStorageNodeID. rewrite Hid.
  fold (lease_of_record n r). by rewrite Hl.
Qed.

Lemma LeaseFromStorageRecord_Ok n r l : is_u32 n → l_ShardID r = StorageShardID n → LeaseFromStorageRecord (Some r) = Ok l →
  l = lease_of_record n r ∧ Lease_Validate l = None ∧ LeaseRecord_Validate r = None.
Proof.
  intros Hn Hs Hl. pose proof (LeaseFromStorageRecord_spec n r Hn Hs) as H. destruct (LeaseRecord_Validate r).
  - destruct H. congruence.
  - destruct H as [H1 H2]. rewrite H1 in Hl. by injection Hl as <-.
Qed.

(** ** Reasoning about shared computations *)

Section shared.
Context {St : Type} `{StorageLaws St}.
Context {C : instant → Prop}.
Implicit Types s : St.

Lemma steps_inv s s' : rtc st_step s s' → st_inv s → st_inv s'.
Proof. induction 1; [done|]. intros. eauto using law_inv. Qed.

Lemma steps_last s s' shard : rtc st_step s s' → st_inv s → last_epoch s shard <= last_epoch s' shard.
Proof.
  induction 1 as [|s s1 s2 Hs _ IH]; [lia|]. intros Hi. pose proof (law_step _ _ shard Hi Hs) as Hstep. pose proof (law_inv _ _ Hi Hs).
  assert (last_epoch s shard <= last_epoch s1 shard) by (unfold spec_of in Hstep; inversion Hstep; subst; lia).
  etrans; [done|]. by apply IH.
Qed.

(** A lease only appears with an epoch above the last one granted. *)
Lemma steps_appears s s' shard : rtc st_step s s' → st_inv s → held s shard = None → held s' shard ≠ None →
  last_epoch s shard < last_epoch s' shard.
Proof.
  induction 1 as [|s s1 s2 Hs Hr IH]; [done|]. intros Hi Hn Hh. pose proof (law_step _ _ shard Hi Hs) as Hstep.
  pose proof (law_inv _ _ Hi Hs) as Hi1. pose proof (steps_last _ _ shard Hr Hi1).
  destruct (held s1 shard) eqn:E; [|specialize (IH Hi1 eq_refl Hh); unfold spec_of in Hstep; rewrite Hn, E in Hstep; cbn in Hstep; inversion Hstep; subst; lia].
  unfold spec_of in Hstep. rewrite Hn, E in Hstep. cbn in Hstep. inversion Hstep; subst; lia.
Qed.

(** After an action: others ran up to [s1], where the action was performed. *)
Lemma wp_shared_act {B} a (k : reply a → io B) Q s :
  st_inv s →
  (∀ s1 i, rtc st_step s s1 → st_inv s1 → st_inv (answer a i s1).2 → rtc st_step s1 (answer a i s1).2 → C i →
    wp_shared C (k (answer a i s1).1) Q (answer a i s1).2) →
  wp_shared C (act a ≫= k) Q s.
Proof.
  intros Hi Hk. cbn. intros s1 i Hs HC. pose proof (steps_inv _ _ Hs Hi) as Hi1. pose proof (law_answer s1 a i Hi1) as Ha.
  apply Hk; [done|done| |by apply rtc_once|done]. by eapply law_inv.
Qed.

(** After an action that only reads. *)
Lemma wp_shared_read {B} a (k : reply a → io B) Q s :
  st_inv s → is_read a = true →
  (∀ s1 i, rtc st_step s s1 → st_inv s1 → C i → wp_shared C (k (answer a i s1).1) Q s1) →
  wp_shared C (act a ≫= k) Q s.
Proof.
  intros Hi Ha Hk. apply wp_shared_act; [done|]. intros s1 i Hs Hi1 _ _ HC. rewrite (law_read s1 a i Ha). by apply Hk.
Qed.

(** What is shown of a computation may use that the storage only made steps. *)
Lemma wp_shared_frame {A} (m : io A) (Q : A → St → Prop) s :
  st_inv s → wp_shared C m Q s → wp_shared C m (λ x s', Q x s' ∧ st_inv s' ∧ rtc st_step s s') s.
Proof.
  revert s. induction m as [x|a k IH]; intros s Hi; cbn; [done|]. intros Hm s1 i Hs HC.
  pose proof (steps_inv _ _ Hs Hi) as Hi1. pose proof (law_answer s1 a i Hi1) as Ha.
  eapply wp_mono; [|apply IH; [by eapply law_inv|by apply Hm]]. cbn. intros x s' (? & ? & ?). split_and!; [done..|].
  etrans; [done|]. etrans; [by apply rtc_once|done].
Qed.

(** Sequencing: the second computation runs from where the first one ended. *)
Lemma wp_shared_bind {A B} (m : io A) (f : A → io B) (P : A → St → Prop) (Q : B → St → Prop) s :
  st_inv s → wp_shared C m P s →
  (∀ x s1, P x s1 → st_inv s1 → rtc st_step s s1 → wp_shared C (f x) Q s1) → wp_shared C (m ≫= f) Q s.
Proof.
  intros Hi Hm Hf. rewrite wp_bind. eapply wp_mono; [|by apply wp_shared_frame]. cbn. intros x s1 (? & ? & ?). by apply Hf.
Qed.

(** A lease the store holds, read as a lease of shard [n]. *)
Definition holds_lease s (l : Lease) : Prop :=
  ∃ r, held s (StorageShardID (cl_ShardID l)) = Some r ∧ l = lease_of_record (cl_ShardID l) r.

Lemma holds_lease_last s l : st_inv s → holds_lease s l → Epoch l = last_epoch s (StorageShardID (cl_ShardID l)).
Proof. intros Hi (r & Hr & ->). cbn [Epoch lease_of_record cl_ShardID] in *. by destruct (law_held _ _ _ Hi Hr) as (_ & _ & <-). Qed.

Lemma held_holds_lease s n r l : st_inv s → is_u32 n → held s (StorageShardID n) = Some r →
  LeaseFromStorageRecord (Some r) = Ok l → cl_ShardID l = n ∧ holds_lease s l ∧ Lease_Validate l = None ∧ l = lease_of_record n r.
Proof.
  intros Hi Hn Hr Hl. destruct (law_held _ _ _ Hi Hr) as (Hs & _). apply (LeaseFromStorageRecord_Ok n) in Hl as (-> & ? & _); [|done..].
  split_and!; [done| |done..]. by exists r.
Qed.
End shared.

(** * What the lease operations of the cluster guarantee

    Against the contract of the storage, whatever other nodes do in between:
    what a successful acquire, renewal, handoff, load or lookup returns is the
    lease the storage held, with the last epoch it had granted. *)

Lemma w64_succ_gt x : x <= w64 (x + 1) → x < w64 (x + 1).
Proof.
  unfold w64. intros H. destruct (decide (x = (x + 1) mod 18446744073709551616)) as [E|]; [|lia].
  pose proof (Z.mod_pos_bound (x + 1) 18446744073709551616 ltac:(lia)).
  assert (0 <= x < 18446744073709551616) as Hx by lia. destruct (decide (x = 18446744073709551615)) as [->|]; [done|].
  rewrite Z.mod_small in E by lia. lia.
Qed.

Section ops.
Context {St : Type} `{StorageLaws St}.
Context {C : instant → Prop}.
Implicit Types s : St.

(** A saved record, read back: the lease [l] of shard [n]. *)
Lemma saved_lease s n rec i r l : st_inv s → is_u32 n → l_ShardID rec = StorageShardID n →
  (answer (DoSaveLease rec) i s).1 = Ok r → LeaseFromStorageRecord r = Ok l →
  let s' := (answer (DoSaveLease rec) i s).2 in
  holds_lease s' l ∧ cl_ShardID l = n ∧ Holder l = o_NodeID (l_Owner rec) ∧ Epoch l = lease_epoch rec ∧ Token l = l_Token rec ∧
  Lease_Validate l = None ∧
  (last_epoch s (StorageShardID n) < lease_epoch rec ∨
   ∃ current, held s (StorageShardID n) = Some current ∧ l_Owner current = l_Owner rec ∧ l_Token current = l_Token rec).
Proof.
  intros Hi Hn Hs Hr Hl. destruct r as [r|]; [|done]. destruct (law_save s rec i r Hi Hr) as ((Hs1 & Ho & Ht & _) & Hh & Hlast).
  rewrite Hs in Hh, Hlast. destruct (held_holds_lease _ n r l (law_inv _ _ Hi (law_answer s (DoSaveLease rec) i Hi)) Hn Hh Hl) as (Hn' & Hhl & Hv & E).
  split_and!; [done|done| | | |done|done]; rewrite E; cbn; by rewrite ?Ho, ?Ht.
Qed.

(** The epoch saved after a load is above the last one at the load. *)
Lemma saved_epoch s s1 n rec e : rtc st_step s s1 → st_inv s →
  last_epoch s (StorageShardID n) < e ∨ held s (StorageShardID n) = None ∨ e = w64 (last_epoch s (StorageShardID n) + 1) →
  lease_epoch rec = e →
  last_epoch s1 (StorageShardID n) < e ∨
    (∃ current, held s1 (StorageShardID n) = Some current ∧ l_Owner current = l_Owner rec ∧ l_Token current = l_Token rec) →
  last_epoch s (StorageShardID n) < e.
Proof.
  intros Hs Hi Hload He Hsave. pose proof (steps_last _ _ (StorageShardID n) Hs Hi) as Hle.
  destruct Hsave as [?|(cur & Hc & Ho & _)]; [lia|].
  destruct (law_held s1 (StorageShardID n) cur (steps_inv _ _ Hs Hi) Hc) as (_ & _ & Hce).
  assert (lease_epoch cur = e) as Hcur by (unfold lease_epoch in *; by rewrite Ho).
  destruct Hload as [?|[Hnone|Hsucc]]; [done| |].
  - assert (last_epoch s (StorageShardID n) < last_epoch s1 (StorageShardID n)) as Hap; [|lia].
    apply steps_appears; [done..|by rewrite Hc].
  - rewrite Hsucc. apply w64_succ_gt. lia.
Qed.

Lemma acquire_epoch_load s n holder now i e : st_inv s →
  acquire_epoch holder now (answer (DoLoadLease (StorageShardID n)) i s).1 = Ok e →
  last_epoch s (StorageShardID n) < e ∨ held s (StorageShardID n) = None ∨ e = w64 (last_epoch s (StorageShardID n) + 1).
Proof.
  intros Hi. unfold acquire_epoch. destruct (answer (DoLoadLease _) i s).1 as [[r|]|err] eqn:E; [|done|].
  - pose proof (law_load _ _ _ _ E) as Hh. destruct (law_held _ _ _ Hi Hh) as (_ & _ & Hlast). unfold lease_epoch in Hlast.
    destruct (_ && _); [done|]. destruct (unexpired _ _); [done|]. rewrite Hlast.
    destruct (Z.ltb_spec 0 (last_epoch s (StorageShardID n))); intros [= <-]; [by right; right|left; lia].
  - destruct (errors_Is err storage_ErrLeaseNotFound) eqn:Hnf; [|done]. intros [= <-]. right. left. by eapply law_load_none.
Qed.

(** What a successful operation on shard [n] for [holder] returns, from [s] to [s']:
    the lease the storage holds at the end. *)
Record confirmed (s s' : St) (n : Z) (holder : bytes) (l : Lease) : Prop := {
  g_held : holds_lease s' l; g_shard : cl_ShardID l = n; g_holder : Holder l = holder; g_valid : Lease_Validate l = None;
  g_epoch : last_epoch s (StorageShardID n) <= Epoch l }.

Lemma acquire_granted s req : st_inv s → is_u32 (lr_ShardID req) →
  wp_shared C (StorageLeaseStore_AcquireLease req)
    (λ r s', ∀ l, r = Ok l → confirmed s s' (lr_ShardID req) (lr_Holder req) l ∧
      last_epoch s (StorageShardID (lr_ShardID req)) < Epoch l) s.
Proof.
  intros Hi Hn. set (n := lr_ShardID req) in *. unfold StorageLeaseStore_AcquireLease, nowTime, storageLoadLease, storageSaveLease.
  apply wp_require; [done|]. intros _. apply wp_shared_read; [done..|]. intros s1 i1 Hs1 Hi1 _.
  set (now := (answer Now i1 s1).1). set (rec := acquire_record req now). fold n.
  apply wp_shared_read; [done..|]. intros s2 i2 Hs2 Hi2 _.
  pose proof (steps_last _ _ (StorageShardID n) Hs1 Hi) as L1. pose proof (steps_last _ _ (StorageShardID n) Hs2 Hi1) as L2.
  destruct (acquire_epoch _ _ _) as [e|] eqn:He; [|done]. apply acquire_epoch_load in He; [|done].
  apply wp_shared_act; [done|]. intros s3 i3 Hs3 Hi3 Hi4 Hs4 _.
  pose proof (steps_last _ _ (StorageShardID n) Hs3 Hi2) as L3.
  assert (∀ e : Z, l_ShardID (rec e) = StorageShardID n ∧ o_NodeID (l_Owner (rec e)) = lr_Holder req ∧ lease_epoch (rec e) = e) as Hrec by done.
  destruct (answer (DoSaveLease (rec e)) i3 s3).1 as [r|err] eqn:Hsave.
  - intros l Hl. destruct (saved_lease s3 n (rec e) i3 r l) as (? & ? & Hh & Hep & _ & ? & Hor); [done..|].
    assert (last_epoch s (StorageShardID n) < Epoch l); [|split; [split; [done..|lia]|done]].
    rewrite Hep. eapply Z.le_lt_trans; [|by eapply (saved_epoch s2 s3 n (rec e) e)]. lia.
  - destruct (errors_As_stale err) as [current|] eqn:Hst; [|done]. destruct (e <=? current); [|done].
    pose proof (law_save_stale _ _ _ _ _ Hi3 Hsave Hst) as Hcur. change (l_ShardID (rec e)) with (StorageShardID n) in Hcur.
    apply wp_shared_act; [done|]. intros s5 i5 Hs5 Hi5 Hi6 Hs6 _. set (e' := w64 (current + 1)).
    destruct (answer (DoSaveLease (rec e')) i5 s5).1 as [r|err'] eqn:Hsave2; [|done].
    intros l Hl. destruct (saved_lease s5 n (rec e') i5 r l) as (? & ? & Hh & Hep & _ & ? & Hor); [done..|].
    assert (last_epoch s (StorageShardID n) < Epoch l); [|split; [split; [done..|lia]|done]].
    rewrite Hep. eapply Z.le_lt_trans; [|eapply (saved_epoch s3 s5 n (rec e') e')]; [lia|by etrans| |right; right|..]; [done|by unfold e'; rewrite Hcur|done|done].
Qed.

(** A renewed lease continues the one the storage held just before. *)
Definition continues (s s' : St) (l : Lease) : Prop :=
  ∃ s1 old, rtc st_step s s1 ∧ rtc st_step s1 s' ∧ held s1 (StorageShardID (cl_ShardID l)) = Some old ∧
    l_Owner old = mkOwner (Holder l) (Epoch l) ∧ l_Token old = Token l.

Lemma renew_confirmed s req : st_inv s → is_u32 (lr_ShardID req) →
  wp_shared C (StorageLeaseStore_RenewLease req)
    (λ r s', ∀ l, r = Ok l → confirmed s s' (lr_ShardID req) (lr_Holder req) l ∧ continues s s' l) s.
Proof.
  intros Hi Hn. set (n := lr_ShardID req) in *. unfold StorageLeaseStore_RenewLease, nowTime, storageLoadLease, storageSaveLease.
  apply wp_require; [done|]. intros _. apply wp_shared_read; [done..|]. intros s1 i1 Hs1 Hi1 _.
  destruct (renewable _ _) as [existing|] eqn:Hex; [|done].
  assert (held s1 (StorageShardID n) = Some existing ∧ o_NodeID (l_Owner existing) = lr_Holder req) as [Hh1 Hholder].
  { unfold renewable in Hex. destruct (answer _ _ _).1 as [[r|]|] eqn:E; [|done..]. case_bool_decide; [|done].
    injection Hex as ->. split; [by eapply law_load|done]. }
  destruct (law_held _ _ _ Hi1 Hh1) as (_ & _ & Hlast).
  apply wp_shared_read; [done..|]. intros s2 i2 Hs2 Hi2 _. destruct (_ && _); [done|]. cbv zeta.
  destruct (negb _ && negb _); [done|]. apply wp_then. set (rec := mkLease _ _ _ _ _).
  intros s3 i3 Hs3 _. pose proof (steps_inv _ _ Hs3 Hi2) as Hi3.
  destruct (answer (DoSaveLease rec) i3 s3).1 as [r|err] eqn:Hsave; [|done].
  intros l Hl. destruct (saved_lease s3 n rec i3 r l) as (? & Hsh & Hho & Hep & Htok & ? & Hor); [done..|].
  assert (rtc st_step s1 s3) as Hs13 by by etrans.
  pose proof (steps_last _ _ (StorageShardID n) Hs1 Hi) as L1. pose proof (steps_last _ _ (StorageShardID n) Hs13 Hi1) as L3.
  assert (lease_epoch rec = last_epoch s1 (StorageShardID n)) as Hrec by done.
  split; [split; [done|done|by rewrite Hho, <- Hholder|done|lia]|].
  destruct Hor as [?|(cur & Hc & Ho & Ht)]; [lia|]. exists s3, cur. rewrite Hsh. split_and!.
  - by etrans.
  - apply rtc_once. by apply law_answer.
  - done.
  - rewrite Ho, Hho, Hep. done.
  - by rewrite Ht, Htok.
Qed.

Lemma handoff_confirmed s supported current req : st_inv s → is_u32 (cl_ShardID current) →
  wp_shared C (StorageLeaseStore_HandoffLease supported current req)
    (λ r s', ∀ l, r = Ok l → confirmed s s' (cl_ShardID current) (lr_Holder req) l ∧
      last_epoch s (StorageShardID (cl_ShardID current)) < Epoch l ∧ Epoch l = w64 (Epoch current + 1) ∧
      ∃ s1 old, rtc st_step s s1 ∧ rtc st_step s1 s' ∧ held s1 (StorageShardID (cl_ShardID l)) = Some old ∧
        l_Token old = Token current) s.
Proof.
  intros Hi Hn. set (n := cl_ShardID current) in *. unfold StorageLeaseStore_HandoffLease, nowTime, storageHandoffLease.
  apply wp_require; [done|]. intros _. apply wp_require; [done|]. intros _. destruct (negb _ && negb _); [done|].
  apply wp_shared_read; [done..|]. intros s1 i1 Hs1 Hi1 _. destruct (ExpiredAt _ _); [done|]. destruct supported; [|done]. cbn [negb].
  cbv zeta. fold n. set (rec := lease_record _ _ _ _ _ _).
  apply wp_shared_act; [done|]. intros s2 i2 Hs2 Hi2 Hi3 Hs3 _.
  destruct (answer (DoHandoffLease _ _ rec) i2 s2).1 as [[r|]|err] eqn:Ha; [|done..].
  destruct (law_handoff _ _ _ _ _ _ Hi2 Ha) as ((_ & Ho & Ht & _) & Hh & Hlast & old & Hold & Htok & _).
  intros l Hl. destruct (held_holds_lease _ n r l Hi3 Hn Hh Hl) as (Hsh & Hhl & Hv & E).
  pose proof (steps_last _ _ (StorageShardID n) Hs1 Hi) as L1. pose proof (steps_last _ _ (StorageShardID n) Hs2 Hi1) as L2.
  assert (Epoch l = w64 (Epoch current + 1)) as Hep by (rewrite E; cbn; by rewrite Ho).
  assert (Holder l = lr_Holder req) by (rewrite E; cbn; by rewrite Ho).
  change (lease_epoch rec) with (w64 (Epoch current + 1)) in Hlast.
  split_and!; [split; [done..|lia]|lia|done|].
  exists s2, old. rewrite Hsh. split_and!; [by etrans|done..].
Qed.

(** A loaded lease is unexpired at a time the clock showed while the store held it. *)
Lemma load_confirmed s n : st_inv s → is_u32 n →
  wp_shared C (StorageLeaseStore_LoadLease n)
    (λ r s', ∀ l, r = Ok l → ∃ s1, rtc st_step s s1 ∧ rtc st_step s1 s' ∧ confirmed s s1 n (Holder l) l) s.
Proof.
  intros Hi Hn. unfold StorageLeaseStore_LoadLease, nowTime, storageLoadLease.
  apply wp_shared_read; [done..|]. intros s1 i1 Hs1 Hi1 _.
  destruct (answer _ _ _).1 as [[r|]|err] eqn:E; [|done..]. cbn [map_err mbind result_bind].
  destruct (LeaseFromStorageRecord (Some r)) as [lease|] eqn:El; [|done].
  apply wp_shared_read; [done..|]. intros s2 i2 Hs2 _ _. cbn [wp]. intros l. destruct (ExpiredAt _ _); [done|]. intros [= <-].
  apply law_load in E. destruct (held_holds_lease _ n r lease Hi1 Hn E El) as (Hsh & Hhl & Hv & _).
  exists s1. split_and!; [done..|]. split; [done..|]. rewrite (holds_lease_last _ _ Hi1 Hhl), Hsh. by apply steps_last.
Qed.

End ops.

(** * What the lease manager keeps

    The cached lease of a manager is always one the storage granted to its
    holder for its shard, and the leases it hands out never go back to an
    earlier epoch. *)

Section manager.
Context {St : Type} `{StorageLaws St}.
Context {C : instant → Prop}.
Implicit Types s : St.

(** The lease [l] belongs to [m] and is not newer than the storage. *)
Definition own_lease (m : LeaseManager) s (l : Lease) : Prop :=
  cl_ShardID l = m_shardID m ∧ Holder l = m_holder m ∧ Lease_Validate l = None ∧
  Epoch l <= last_epoch s (StorageShardID (m_shardID m)).

Record manager_ok (m : LeaseManager) (s : St) : Prop := {
  mo_store : m_store m = StorageLeaseStore; mo_shard : is_u32 (m_shardID m);
  mo_current : ∀ l, m_current m = Some l → own_lease m s l }.

(** Only the cached lease differs. *)
Definition same_config (m m' : LeaseManager) : Prop := m' = setCurrent (m_current m') m.

Lemma same_config_shard m m' : same_config m m' → m_shardID m' = m_shardID m ∧ m_holder m' = m_holder m ∧ m_ttl m' = m_ttl m.
Proof. by intros ->. Qed.

Lemma same_config_trans m m1 m2 : same_config m m1 → same_config m1 m2 → same_config m m2.
Proof. unfold same_config. intros E1 ->. by rewrite E1. Qed.

Lemma own_lease_steps m s s' l : st_inv s → rtc st_step s s' → own_lease m s l → own_lease m s' l.
Proof. intros Hi Hs (? & ? & ? & ?). split_and!; [done..|]. etrans; [done|]. by apply steps_last. Qed.

Lemma manager_ok_steps m s s' : manager_ok m s → st_inv s → rtc st_step s s' → manager_ok m s'.
Proof. intros [? ? Hc] Hi Hs. split; [done..|]. intros l Hl. eapply own_lease_steps; eauto. Qed.

Lemma manager_ok_clear m s : manager_ok m s → manager_ok (setCurrent None m) s.
Proof. intros [? ? ?]. by split. Qed.

Lemma manager_ok_set m s l : manager_ok m s → own_lease m s l → manager_ok (setCurrent (Some l) m) s.
Proof. intros [? ? ?] ?. split; [done..|]. by intros ? [= <-]. Qed.

Lemma confirmed_own m s s' l : st_inv s' → confirmed s s' (m_shardID m) (m_holder m) l → own_lease m s' l.
Proof.
  intros Hi [Hh Hs Hho Hv _]. split_and!; [done..|]. rewrite (holds_lease_last _ _ Hi Hh), Hs. done.
Qed.

(** What an operation of [m] started at [s] leaves: the manager [m'] in order,
    and a lease it returns is its own, cached, and no older than [s]. *)
Definition managed (m : LeaseManager) (s : St) (p : result (Lease * bool) * LeaseManager) (s' : St) : Prop :=
  manager_ok p.2 s' ∧ same_config m p.2 ∧
  ∀ l changed, p.1 = Ok (l, changed) → m_current p.2 = Some l ∧ (changed = true → last_epoch s (StorageShardID (m_shardID m)) <= Epoch l).

Lemma managed_error m m' s s' err : manager_ok m' s' → same_config m m' → managed m s (Err err, m') s'.
Proof. intros ? ?. split_and!; [done..|]. by cbn. Qed.

Lemma tryAdopt_ok m s : st_inv s → manager_ok m s →
  wp_shared C (tryAdoptActiveLease m)
    (λ p s', manager_ok p.2 s' ∧ same_config m p.2 ∧ ∀ l, p.1 = Ok (Some l) → m_current p.2 = Some l) s.
Proof.
  intros Hi Hm. pose proof Hm as [Hstore Hn _]. unfold tryAdoptActiveLease. rewrite Hstore. cbn [leaseLoader StorageLeaseStore].
  assert (∀ (err : result (option Lease)) s', rtc st_step s s' → (∀ l, err ≠ Ok (Some l)) → manager_ok (err, m).2 s' ∧ same_config m (err, m).2 ∧ ∀ l, (err, m).1 = Ok (Some l) → m_current (err, m).2 = Some l) as Hkeep.
  { intros err s' Hs Herr. split_and!; [eapply manager_ok_steps; eauto|by destruct m|]. cbn. intros l Hl. by destruct (Herr l). }
  eapply (wp_shared_bind _ _ (λ r s', ∀ o, r = Ok o → ∃ l, o = Some l ∧ ∃ s1, rtc st_step s s1 ∧ rtc st_step s1 s' ∧ confirmed s s1 (m_shardID m) (Holder l) l));
    [done|apply wp_then; eapply wp_mono; [|by apply load_confirmed]|].
  { intros [l|err] s'; cbn; [|done]. intros Hl o [= <-]. eauto. }
  intros [[l|]|err] s1 Hl Hi1 Hs1; cbn [wp].
  - destruct (Hl _ eq_refl) as (l' & [= <-] & s0 & Hs0 & Hs01 & Hc).
    apply wp_shared_read; [done..|]. intros s2 i2 Hs2 Hi2 _. assert (rtc st_step s s2) as Hs02 by by transitivity s1.
    destruct (ExpiredAt _ _); [by apply Hkeep|]. case_bool_decide as Hho; cbn [negb]; [|by apply Hkeep].
    destruct (negb _ && negb _); [by apply Hkeep|]. cbn [wp fst snd]. split_and!; [|by destruct m|by intros ? [= <-]].
    rewrite Hho in Hc. pose proof (steps_inv _ _ Hs0 Hi) as Hi0. apply manager_ok_set; [eapply manager_ok_steps; eauto|].
    apply (own_lease_steps _ s0); [done|by transitivity s1|eapply confirmed_own; eauto].
  - by apply Hkeep.
  - destruct (_ || _); by apply Hkeep.
Qed.

Lemma acquireAction_ok m s : st_inv s → manager_ok m s → wp_shared C (acquireAction m) (managed m s) s.
Proof.
  intros Hi Hm. unfold acquireAction. eapply wp_shared_bind; [done|by apply tryAdopt_ok|].
  intros [[[l|]|err] m1] s1 (Hm1 & Hcfg & Hl) Hi1 Hs1; cbn [fst snd] in *; cbn [wp].
  - split_and!; [done..|]. cbn. intros ? ? [= <- <-]. split; [by apply Hl|done].
  - pose proof (mo_store _ _ Hm1) as ->. cbn [AcquireLease StorageLeaseStore].
    eapply wp_shared_bind; [done|apply acquire_granted; [done|apply (mo_shard _ _ Hm1)]|].
    cbn [lr_ShardID lr_Holder]. intros [l|err] s2 Hg Hi2 Hs2; cbn [wp].
    + destruct (Hg _ eq_refl) as [Hc Hlt]. split_and!; cbn [fst snd].
      * apply manager_ok_set; [eapply manager_ok_steps; eauto|eapply confirmed_own; eauto].
      * by apply (same_config_trans _ m1).
      * intros ? ? [= <- <-]. split; [done|]. intros _. rewrite (proj1 (same_config_shard _ _ Hcfg)) in Hlt.
        pose proof (steps_last _ _ (StorageShardID (m_shardID m)) Hs1 Hi). lia.
    + apply managed_error; [eapply manager_ok_steps; eauto|done].
  - by apply managed_error.
Qed.

Lemma managed_weaken m m1 s s1 p s' : rtc st_step s s1 → st_inv s → same_config m m1 → managed m1 s1 p s' → managed m s p s'.
Proof.
  intros Hs Hi Hcfg (Hm & Hcfg' & Hl). split_and!; [done|by apply (same_config_trans _ m1)|]. intros l ch Hp. destruct (Hl l ch Hp) as [? Hle]. split; [done|]. intros Hch. specialize (Hle Hch).
  rewrite (proj1 (same_config_shard _ _ Hcfg)) in Hle. pose proof (steps_last _ _ (StorageShardID (m_shardID m)) Hs Hi). lia.
Qed.

Lemma Ensure_ok renewWithin m s : st_inv s → manager_ok m s → wp_shared C (Ensure renewWithin m) (managed m s) s.
Proof.
  intros Hi Hm. unfold Ensure, nowTime. assert (same_config m m) as Hself by by destruct m.
  assert (same_config m (setCurrent None m)) as Hclear by done.
  destruct (renewWithin <? 0); [by apply managed_error|]. apply wp_shared_read; [done..|]. intros s1 i1 Hs1 Hi1 _.
  assert (manager_ok m s1) as Hm1 by (eapply manager_ok_steps; eauto).
  assert (∀ m1 s2, same_config m m1 → manager_ok m1 s2 → st_inv s2 → rtc st_step s s2 → wp_shared C (acquireAction m1) (managed m s) s2) as Hacq.
  { intros m1 s2 Hc Hm2 Hi2 Hs2. eapply wp_mono; [|by apply acquireAction_ok]. intros p s3. by apply managed_weaken. }
  destruct (m_current m) as [current|] eqn:Ec; [|by apply Hacq].
  destruct (ExpiredAt _ _); [apply Hacq; [done|by apply manager_ok_clear|done..]|].
  destruct (_ || _); [by split_and!; [..|intros ? ? [= <- <-]]|].
  pose proof (mo_store _ _ Hm) as ->. cbn [RenewLease StorageLeaseStore].
  eapply wp_shared_bind; [done|apply renew_confirmed; [done|apply (mo_shard _ _ Hm)]|].
  cbn [lr_ShardID lr_Holder]. intros [l|err] s2 Hg Hi2 Hs2.
  - destruct (Hg _ eq_refl) as [Hc _]. cbn [wp]. split_and!; [|done|]; cbn [fst snd].
    + apply manager_ok_set; [eapply manager_ok_steps; eauto|eapply confirmed_own; eauto].
    + intros ? ? [= <- <-]. split; [done|]. intros _. pose proof (g_epoch _ _ _ _ _ Hc).
      pose proof (steps_last _ _ (StorageShardID (m_shardID m)) Hs1 Hi). lia.
  - assert (manager_ok m s2) by (eapply manager_ok_steps; eauto).
    destruct (_ || _); [apply Hacq; [done|by apply manager_ok_clear|done|by transitivity s1]|].
    destruct (_ || _); (apply managed_error; [|done]); [by apply manager_ok_clear|done].
Qed.

(** The leases reported by a run that started at [s0]. *)
Definition reports (m : LeaseManager) (s0 s : St) (seen : list Lease) : Prop :=
  StronglySorted (λ a b, Epoch a <= Epoch b) seen ∧
  Forall (λ l, own_lease m s l ∧ last_epoch s0 (StorageShardID (m_shardID m)) <= Epoch l) seen.

Lemma reports_steps m s0 s s' seen : reports m s0 s seen → st_inv s → rtc st_step s s' → reports m s0 s' seen.
Proof.
  intros [Hs Hf] Hi Hst. split; [done|]. eapply Forall_impl; [exact Hf|]. intros l [? ?]. split; [|done]. by eapply own_lease_steps.
Qed.

Lemma SSorted_snoc {A} (R : A → A → Prop) l x : StronglySorted R l → Forall (λ y, R y x) l → StronglySorted R (l ++ [x]).
Proof.
  induction 1 as [|y l Hl IH Hy]; intros Hx; cbn; [repeat constructor|]. apply Forall_cons in Hx as [? ?].
  constructor; [by apply IH|]. apply Forall_app. split; [done|]. by apply Forall_singleton.
Qed.

Lemma reports_snoc m s0 s1 s seen l : reports m s0 s1 seen → st_inv s0 → rtc st_step s0 s1 → st_inv s1 → rtc st_step s1 s → own_lease m s l →
  last_epoch s1 (StorageShardID (m_shardID m)) <= Epoch l → reports m s0 s (seen ++ [l]).
Proof.
  intros Hr Hi0 Hs01 Hi1 Hs1 Ho Hle. pose proof (steps_last _ _ (StorageShardID (m_shardID m)) Hs01 Hi0). split.
  - apply SSorted_snoc; [apply Hr|]. eapply Forall_impl; [apply Hr|]. cbn. intros x [(_ & _ & _ & ?) _]. lia.
  - apply Forall_app. split; [by eapply reports_steps|]. apply Forall_singleton. split; [done|lia].
Qed.

Lemma Run_loop_ok rounds renewWithin m s0 s seen : st_inv s0 → rtc st_step s0 s → st_inv s → manager_ok m s → reports m s0 s seen →
  wp_shared C (Run_loop rounds renewWithin m seen)
    (λ p s', reports m s0 s' p.1.2 ∧ manager_ok p.2 s' ∧ same_config m p.2) s.
Proof.
  intros Hi0. revert m s seen. induction rounds as [|rounds IH]; intros m s seen Hs0 Hi Hm Hr; cbn [Run_loop].
  { split_and!; [done..|by destruct m]. }
  apply wp_shared_read; [done..|]. intros s1 i1 Hs1 Hi1 _.
  assert (manager_ok m s1) as Hm1 by (eapply manager_ok_steps; eauto). assert (reports m s0 s1 seen) as Hr1 by (eapply reports_steps; eauto).
  assert (rtc st_step s0 s1) as Hs01 by by transitivity s.
  destruct (answer CtxErr i1 s1).1; [split_and!; [done..|by destruct m]|].
  eapply wp_shared_bind; [done|by apply Ensure_ok|]. intros [r m2] s2 (Hm2 & Hcfg & Hl) Hi2 Hs2. cbn [fst snd] in *.
  destruct r as [[l changed]|err]; [|split_and!; [eapply reports_steps; eauto|done..]]. cbv zeta.
  destruct (Hl l changed eq_refl) as [Hcur Hfresh]. pose proof (mo_current _ _ Hm2 l Hcur) as Hown.
  destruct (same_config_shard _ _ Hcfg) as (Hsh & Hho & _). unfold own_lease in Hown. rewrite Hsh, Hho in Hown. fold (own_lease m s2 l) in Hown.
  set (seen' := if changed then seen ++ [l] else seen).
  assert (reports m s0 s2 seen') as Hr2.
  { unfold seen'. destruct changed; [|eapply reports_steps; eauto]. eapply reports_snoc; eauto. }
  apply wp_shared_read; [done..|]. intros s3 i3 Hs3 Hi3 _.
  assert (manager_ok m2 s3) as Hm3 by (eapply manager_ok_steps; eauto). assert (reports m s0 s3 seen') as Hr3 by (eapply reports_steps; eauto).
  destruct (answer CtxErr i3 s3).1; [done|].
  eapply wp_mono; [|apply (IH m2 s3 seen'); [|done|done|]].
  - intros p s4 (Hr4 & ? & ?). split_and!; [|done|by eapply same_config_trans].
    unfold reports, own_lease in *. by rewrite Hsh, Hho in Hr4.
  - etrans; [exact Hs01|]. by etrans.
  - unfold reports, own_lease in *. by rewrite Hsh, Hho.
Qed.

End manager.

Lemma request_token_not_blank token holder n now : is_blank (request_token token holder n now) = false.
Proof.
  unfold request_token. destruct (TrimSpace token) eqn:E.
  - unfold generated_token. apply is_blank_hyphen.
  - rewrite <- E. apply TrimSpace_not_blank. by rewrite E.
Qed.

Section quiet.
Variable n : Z.
Variable key : DocumentKey.
Variables t0 ttl : Z.
Hypothesis Hn : is_u32 n.
Hypothesis Hkey : DocumentKey_Validate key = None.
Hypothesis Ht0 : 0 < t0.
Hypothesis Httl : 0 < ttl.

Let shard := StorageShardID n.

(** What the computations can see of the shard and the document. *)
Definition view (s : Store) := (leases s !! shard, get0 (leaseLast s) shard, placements s !! key).

(** Others leave the shard's lease and the document's placement alone. *)
Definition elsewhere (s s' : Store) : Prop := (shared_inv s → shared_inv s') ∧ view s' = view s.

(** No context ends, and the clock shows times of a window as long as the lease. *)
Definition in_window (i : instant) : Prop := i_ctx i = None ∧ t0 <= i_now i < t0 + ttl.

Abbreviation wpq := (wp elsewhere in_window).

Lemma wpq_act {B} a (k : reply a → io B) Q s : shared_inv s →
  (∀ s1 i, shared_inv s1 → view s1 = view s → in_window i → wpq (k (answer a i s1).1) Q (answer a i s1).2) →
  wpq (act a ≫= k) Q s.
Proof. intros Hi Hk. cbn. intros s1 i [HR Hv] HC. by apply Hk; [apply HR| |]. Qed.

Lemma shard_valid : ShardID_Validate shard = None.
Proof. apply StorageShardID_valid, Hn. Qed.

(** The answers to the actions on the shard and the document. *)
Lemma answer_LoadLease s i : in_window i → answer (DoLoadLease shard) i s =
  (match leases s !! shard with Some l => Ok (Some l) | None => Err storage_ErrLeaseNotFound end, s).
Proof.
  intros [Hc _]. cbn [answer storage_handler memory_storage memory_answer]. unfold LoadLease, i_ctxErr. rewrite Hc. cbn [fmap option_fmap option_map guard_err foldr]. rewrite shard_valid.
  by destruct (leases s !! shard).
Qed.

Lemma answer_LoadPlacement s i : in_window i → answer (DoLoadPlacement key) i s =
  (match placements s !! key with Some p => Ok (Some p) | None => Err storage_ErrPlacementNotFound end, s).
Proof.
  intros [Hc _]. cbn [answer storage_handler memory_storage memory_answer]. unfold LoadPlacement, i_ctxErr. rewrite Hc. cbn [fmap option_fmap option_map guard_err foldr]. rewrite Hkey.
  by destruct (placements s !! key).
Qed.

Lemma answer_SavePlacement s i version : in_window i → shared_inv s →
  let p := mkPlacement key shard version (i_now i) in
  answer (DoSavePlacement (mkPlacement key shard version 0)) i s = (Ok (Some p), set_placements <[key := p]> s).
Proof.
  intros [Hc Hnow] _. cbn [answer storage_handler memory_storage memory_answer]. unfold SavePlacement, i_ctxErr. rewrite Hc. cbn [fmap option_fmap option_map].
  change (IsZero (UpdatedAt (mkPlacement key shard version 0))) with true. cbn iota.
  unfold PlacementRecord_Validate. cbn [pl_Key pl_ShardID]. by rewrite Hkey, shard_valid.
Qed.

(** The lease of the shard is missing or expired by [t0]. *)
Definition free (s : Store) : Prop := ∀ l, leases s !! shard = Some l → ExpiresAt l <= t0.

Definition new_lease (holder : bytes) (epoch : Z) (token : bytes) (now : Z) : LeaseRecord :=
  lease_record n holder epoch token now (now + ttl).

Lemma new_lease_valid holder epoch token now : NodeID_Valid holder = None → epoch ≠ 0 → is_blank token = false → t0 <= now →
  LeaseRecord_Validate (new_lease holder epoch token now) = None.
Proof.
  intros Hh He Htok Hnow. unfold LeaseRecord_Validate, new_lease, lease_record. cbn [l_ShardID l_Owner l_Token ExpiresAt AcquiredAt].
  fold shard. rewrite shard_valid. unfold OwnerInfo_Validate, NodeID_Validate, NodeID_Valid, StorageNodeID in *.
  cbn [o_NodeID o_Epoch]. destruct (is_blank holder); [done|]. rewrite (proj2 (Z.eqb_neq epoch 0)) by done. rewrite Htok.
  unfold IsZero, After. rewrite (proj2 (Z.eqb_neq (now + ttl) 0)), (proj2 (Z.ltb_lt now (now + ttl))) by lia. by rewrite andb_false_r.
Qed.

(** Saving a lease on the free shard, above the last epoch, grants it. *)
Lemma answer_SaveLease s i holder epoch token now : in_window i → shared_inv s → free s → NodeID_Valid holder = None →
  epoch ≠ 0 → is_blank token = false → t0 <= now → get0 (leaseLast s) shard < epoch →
  let l := new_lease holder epoch token now in
  answer (DoSaveLease l) i s = (Ok (Some l), set_leases <[shard := l]> (set_leaseLast <[shard := epoch]> s)).
Proof.
  intros [Hc _] [Hinv _] Hfree Hh He Htok Hnow Hlt. cbv zeta.
  cbn [answer storage_handler memory_storage memory_answer]. unfold SaveLease, i_ctxErr. rewrite Hc. cbn [fmap option_fmap option_map].
  set (l := new_lease holder epoch token now).
  assert (IsZero (AcquiredAt l) = false) as -> by (apply Z.eqb_neq; cbn; lia).
  assert (LeaseRecord_Validate l = None) as -> by by apply new_lease_valid.
  change (l_ShardID l) with shard. change (lease_epoch l) with epoch.
  assert (admit_lease (leases s !! shard) (get0 (leaseLast s) shard) l = Ok l) as ->.
  { unfold admit_lease. change (lease_epoch l) with epoch. destruct (leases s !! shard) as [old|] eqn:E.
    - destruct (Hinv _ _ E) as (_ & _ & Hl). specialize (Hfree _ E). unfold sameLeaseRecord.
      rewrite (bool_decide_eq_false_2 (l_Owner old = l_Owner l)) by (intros Ho; unfold lease_epoch in *; rewrite Ho in Hl; change (o_Epoch (l_Owner l)) with epoch in Hl; lia).
      rewrite andb_false_r. cbn [andb]. unfold After. cbn [AcquiredAt l new_lease lease_record].
      rewrite (proj2 (Z.ltb_ge _ _)) by lia. by rewrite !(proj2 (Z.leb_gt _ _)) by lia.
    - by rewrite (proj2 (Z.leb_gt _ _)) by lia. }
  change (l_ShardID l) with shard. change (lease_epoch l) with epoch.
  rewrite (proj2 (Z.ltb_lt _ _) Hlt). unfold After, l. cbn [ExpiresAt AcquiredAt new_lease lease_record].
  by rewrite (proj2 (Z.ltb_lt now (now + ttl))) by lia.
Qed.

(** An epoch that was granted already is refused with the last one. *)
Lemma answer_SaveLease_stale s i holder epoch token now : in_window i → shared_inv s → leases s !! shard = None →
  NodeID_Valid holder = None → epoch ≠ 0 → is_blank token = false → t0 <= now → epoch <= get0 (leaseLast s) shard →
  answer (DoSaveLease (new_lease holder epoch token now)) i s =
    (Err (LeaseStaleEpochError shard (get0 (leaseLast s) shard) epoch), s).
Proof.
  intros [Hc _] [Hinv _] Hnone Hh He Htok Hnow Hle.
  cbn [answer storage_handler memory_storage memory_answer]. unfold SaveLease, i_ctxErr. rewrite Hc. cbn [fmap option_fmap option_map].
  set (l := new_lease holder epoch token now).
  assert (IsZero (AcquiredAt l) = false) as -> by (apply Z.eqb_neq; cbn; lia).
  assert (LeaseRecord_Validate l = None) as -> by by apply new_lease_valid.
  change (l_ShardID l) with shard. rewrite Hnone. unfold admit_lease. change (lease_epoch l) with epoch.
  by rewrite (proj2 (Z.leb_le _ _)) by done.
Qed.

Lemma view_eq s s' : view s' = view s → leases s' !! shard = leases s !! shard ∧
  get0 (leaseLast s') shard = get0 (leaseLast s) shard ∧ placements s' !! key = placements s !! key.
Proof.
  intros Hv. split_and!; [apply (f_equal (λ v, v.1.1)) in Hv|apply (f_equal (λ v, v.1.2)) in Hv|apply (f_equal snd) in Hv]; exact Hv.
Qed.

Lemma view_free s s' : view s' = view s → free s → free s'.
Proof. intros (E & _)%view_eq. unfold free. by rewrite E. Qed.

(** The computations continue from a state with the same view. *)
Lemma answer_inv a i s : shared_inv s → shared_inv (answer a i s).2.
Proof. intros Hi. apply (shared_inv_effect s); [done|]. apply memory_answer_effect, Hi. Qed.

Section claim.
Variable holder : bytes.
Variable last : Z.
Hypothesis Hholder : NodeID_Valid holder = None.
Hypothesis Hlast : 0 <= last < 18446744073709551615.

(** The shard is leased to the holder, for the window and longer. *)
Definition leased (place : option PlacementRecord) (s : Store) (l : Lease) : Prop :=
  shared_inv s ∧ ∃ token now, t0 <= now ∧ is_blank token = false ∧
    l = lease_of_record n (new_lease holder (last + 1) token now) ∧
    view s = (Some (new_lease holder (last + 1) token now), last + 1, place).

Lemma leased_save s i token now place : in_window i → shared_inv s → free s → get0 (leaseLast s) shard = last →
  placements s !! key = place → is_blank token = false → t0 <= now →
  let l := new_lease holder (last + 1) token now in
  LeaseFromStorageRecord (Some l) = Ok (lease_of_record n l) ∧
  (answer (DoSaveLease l) i s).1 = Ok (Some l) ∧ leased place (answer (DoSaveLease l) i s).2 (lease_of_record n l).
Proof.
  intros Hi Hinv Hfree Hl Hp Htok Hnow. cbv zeta. pose proof (answer_inv (DoSaveLease (new_lease holder (last + 1) token now)) i s Hinv) as Hinv'.
  rewrite (answer_SaveLease s i holder (last + 1) token now) in Hinv' |- * by (done || lia). cbn [fst snd] in *. split_and!; [|done|].
  - pose proof (LeaseFromStorageRecord_spec n (new_lease holder (last + 1) token now) Hn eq_refl) as H.
    rewrite new_lease_valid in H by (done || lia). apply H.
  - split; [done|]. exists token, now. split_and!; [done..|]. unfold view. cbn [leases leaseLast placements set_leases set_leaseLast].
    by rewrite get0_insert, lookup_insert_eq, decide_True, Hp.
Qed.

Lemma quiet_acquire s req : shared_inv s → free s → get0 (leaseLast s) shard = last →
  lr_ShardID req = n → lr_Holder req = holder → lr_TTL req = ttl →
  wpq (StorageLeaseStore_AcquireLease req) (λ r s', ∃ l, r = Ok l ∧ leased (placements s !! key) s' l) s.
Proof.
  intros Hinv Hfree Hl Es Eh Et. unfold StorageLeaseStore_AcquireLease, nowTime, storageLoadLease, storageSaveLease.
  assert (LeaseRequest_Validate req = None) as ->.
  { unfold LeaseRequest_Validate. rewrite Eh, Hholder, Et. by rewrite (proj2 (Z.leb_gt ttl 0)) by lia. }
  cbn [io_require]. apply wpq_act; [done|]. intros s1 i1 Hinv1 Hv1 HC1. cbn [answer storage_handler memory_storage memory_answer fst snd].
  set (now := i_now i1). assert (t0 <= now) as Hnow by apply HC1. rewrite Es, Eh. fold shard.
  apply wpq_act; [done|]. intros s2 i2 Hinv2 Hv2 HC2. rewrite answer_LoadLease by done. cbn [fst snd].
  assert (free s2) as Hfree2 by (apply (view_free s); [by rewrite Hv2|done]).
  assert (∀ s3, view s3 = view s2 → get0 (leaseLast s3) shard = last ∧ placements s3 !! key = placements s !! key ∧ free s3 ∧ leases s3 !! shard = leases s2 !! shard) as Hview.
  { intros s3 Hv3. assert (view s3 = view s) as Hv by by rewrite Hv3, Hv2. destruct (view_eq _ _ Hv) as (_ & E2 & E3).
    destruct (view_eq _ _ Hv3) as (E4 & _). split_and!; [by rewrite E2|done|by apply (view_free s2)|done]. }
  destruct (Hview s2 eq_refl) as (Hl2 & _ & _ & _).
  set (token := request_token (lr_Token req) holder n now). pose proof (request_token_not_blank (lr_Token req) holder n now : is_blank token = false) as Htok.
  assert (∀ e, acquire_record req now e = new_lease holder e token now) as Hrec.
  { intros e. unfold acquire_record, new_lease, token. by rewrite Es, Eh, Et. }
  destruct (leases s2 !! shard) as [old|] eqn:Eold.
  - assert (acquire_epoch holder now (Ok (Some old)) = Ok (last + 1)) as ->.
    { specialize (Hfree2 old Eold). unfold acquire_epoch, unexpired, Before. rewrite (proj2 (Z.ltb_ge now (ExpiresAt old))) by lia.
      rewrite !andb_false_r. destruct (proj1 Hinv2 _ _ Eold) as (_ & [Hval _] & Hep). rewrite Hl2 in Hep. unfold lease_epoch in Hep. rewrite <- Hep.
      assert (last ≠ 0).
      { intros E0. unfold LeaseRecord_Validate, OwnerInfo_Validate in Hval. rewrite <- Hep, E0 in Hval. by repeat case_match. }
      rewrite (proj2 (Z.ltb_lt 0 last)) by lia. unfold w64. by rewrite Z.mod_small by lia. }
    cbv beta iota. rewrite Hrec. apply wpq_act; [done|]. intros s3 i3 Hinv3 Hv3 HC3. destruct (Hview s3 Hv3) as (Hl3 & Hp3 & Hfree3 & _).
    destruct (leased_save s3 i3 token now (placements s !! key)) as (Hlf & -> & Hleased); [done..|]. rewrite Hlf. cbn [wp]. eauto.
  - change (acquire_epoch holder now (Err storage_ErrLeaseNotFound)) with (@Ok Z 1).
    cbv beta iota. rewrite Hrec. apply wpq_act; [done|]. intros s3 i3 Hinv3 Hv3 HC3. destruct (Hview s3 Hv3) as (Hl3 & Hp3 & Hfree3 & Enone).
    destruct (decide (last = 0)) as [E0|Hne].
    + replace 1 with (last + 1) by lia.
      destruct (leased_save s3 i3 token now (placements s !! key)) as (Hlf & -> & Hleased); [done..|]. rewrite Hlf. cbn [wp]. eauto.
    + rewrite answer_SaveLease_stale by (done || lia). cbn [fst snd errors_As_stale]. rewrite Hl3.
      rewrite (proj2 (Z.leb_le 1 last)) by lia. assert (w64 (last + 1) = last + 1) as -> by (unfold w64; by rewrite Z.mod_small by lia).
      cbv beta iota. rewrite Hrec. apply wpq_act; [done|]. intros s4 i4 Hinv4 Hv4 HC4.
      destruct (Hview s4 (eq_trans Hv4 Hv3)) as (Hl4 & Hp4 & Hfree4 & _).
      destruct (leased_save s4 i4 token now (placements s !! key)) as (Hlf & -> & Hleased); [done..|]. rewrite Hlf. cbn [wp]. eauto.
Qed.

Lemma leased_view place s s' l : leased place s l → shared_inv s' → view s' = view s → leased place s' l.
Proof. intros [_ Hl] Hi Hv. split; [done|]. by rewrite Hv. Qed.

(** A record of the store is read back as a lease. *)
Lemma stored_lease s r : shared_inv s → leases s !! shard = Some r →
  LeaseFromStorageRecord (Some r) = Ok (lease_of_record n r) ∧ ExpiresAt r ≠ 0.
Proof.
  intros [Hinv _] Hr. destruct (Hinv _ _ Hr) as (Hs & [Hv _] & _). pose proof (LeaseFromStorageRecord_spec n r Hn Hs) as H.
  rewrite Hv in H. split; [apply H|]. intros E. unfold LeaseRecord_Validate, IsZero in Hv. rewrite E in Hv. by repeat case_match.
Qed.

Lemma quiet_adopt s m : shared_inv s → free s → m_store m = StorageLeaseStore → m_shardID m = n →
  wpq (tryAdoptActiveLease m) (λ p s', p = (Ok None, m) ∧ shared_inv s' ∧ view s' = view s) s.
Proof.
  intros Hinv Hfree Hst Es. unfold tryAdoptActiveLease. rewrite Hst, Es. cbn [leaseLoader StorageLeaseStore].
  rewrite wp_bind, wp_then. unfold StorageLeaseStore_LoadLease, storageLoadLease, nowTime. fold shard.
  apply wpq_act; [done|]. intros s1 i1 Hinv1 Hv1 HC1. rewrite answer_LoadLease by done. cbn [fst snd].
  destruct (leases s1 !! shard) as [old|] eqn:E; [|cbn [map_err mbind result_bind wp]; by split_and!].
  destruct (stored_lease s1 old Hinv1 E) as [Hl Hexp]. cbn [map_err mbind result_bind]. rewrite Hl.
  apply wpq_act; [done|]. intros s2 i2 Hinv2 Hv2 HC2. cbn [answer storage_handler memory_storage memory_answer fst snd wp].
  assert (ExpiredAt (lease_of_record n old) (i_now i2) = true) as ->.
  { unfold ExpiredAt, IsZero, Before. cbn [cl_ExpiresAt lease_of_record]. rewrite (proj2 (Z.eqb_neq _ _)) by done.
    assert (free s1) as Hf1 by (apply (view_free s); done). specialize (Hf1 _ E). destruct HC2 as (_ & ? & _).
    by rewrite (proj2 (Z.ltb_ge _ _)) by lia. }
  cbn [wp errors_Is]. split_and!; [done..|by rewrite Hv2].
Qed.

Lemma quiet_acquireAction s m : shared_inv s → free s → get0 (leaseLast s) shard = last → m_store m = StorageLeaseStore →
  m_shardID m = n → m_holder m = holder → m_ttl m = ttl →
  wpq (acquireAction m) (λ p s', ∃ l, p = (Ok (l, true), setCurrent (Some l) m) ∧ leased (placements s !! key) s' l) s.
Proof.
  intros Hinv Hfree Hl Est Es Eh Et. unfold acquireAction. rewrite wp_bind. eapply wp_mono; [|by apply quiet_adopt].
  intros p s1 (-> & Hinv1 & Hv1). destruct (view_eq _ _ Hv1) as (E1 & E2 & E3). cbn beta iota. rewrite Est. cbn [AcquireLease StorageLeaseStore].
  rewrite wp_bind. eapply wp_mono; [|apply (quiet_acquire s1); [done|by apply (view_free s)|by rewrite E2|done..]].
  intros r s2 (l & -> & Hld). cbn [wp]. exists l. split; [done|]. by rewrite <- E3.
Qed.

(** The resolution a lookup of the leased document gives. *)
Definition resolution_of (c : StorageOwnershipCoordinator) (p : PlacementRecord) (l : Lease) : OwnerResolution :=
  mkResolution key (mkClusterPlacement n holder (Some l) (Version p)) (bool_decide (holder = co_localNode c)).

Lemma leased_valid place s l : leased place s l → Holder l = holder ∧ cl_ShardID l = n ∧ Epoch l = last + 1 ∧
  Lease_Validate l = None ∧ is_blank (Token l) = false ∧ ∀ t, t < t0 + ttl → t < cl_ExpiresAt l.
Proof.
  intros (Hinv & token & now & Hnow & Htok & -> & Hv). split_and!; [done..| |done|cbn; lia].
  pose proof (LeaseFromStorageRecord_spec n (new_lease holder (last + 1) token now) Hn eq_refl) as H.
  rewrite new_lease_valid in H by (done || lia). apply H.
Qed.

Lemma quiet_lookup c s p l : ResolveShard (co_resolver c) key = Ok n → leased (Some p) s l → pl_ShardID p = shard →
  wpq (LookupOwner c key) (λ r s', r = Ok (Some (resolution_of c p l)) ∧ leased (Some p) s' l) s.
Proof.
  intros Hres Hld Hp. unfold LookupOwner. rewrite wp_then. unfold StorageOwnerLookup_LookupOwner, storageLoadPlacement, storageLoadLease, nowTime.
  assert (OwnerLookupRequest_Validate key = None) as -> by (unfold OwnerLookupRequest_Validate; by rewrite Hkey).
  cbn [io_require ol_resolver]. rewrite Hres. apply wpq_act; [apply Hld|]. intros s1 i1 Hinv1 Hv1 HC1.
  pose proof (leased_view _ _ _ _ Hld Hinv1 Hv1) as Hld1. rewrite answer_LoadPlacement by done. cbn [fst snd].
  pose proof Hld1 as (_ & token & now & Hnow & Htok & El & Ev). 
  assert (placements s1 !! key = Some p) as Epl by exact (f_equal snd Ev). rewrite Epl.
  destruct (proj2 Hinv1 _ _ Epl) as [Hpk Hpv].
  assert (lookup_placement n (Ok (Some p)) = Ok p) as ->.
  { unfold lookup_placement. rewrite Hpv. by rewrite (bool_decide_eq_true_2 _ Hp). }
  rewrite Hp. apply wpq_act; [done|]. intros s2 i2 Hinv2 Hv2 HC2. pose proof (leased_view _ _ _ _ Hld1 Hinv2 Hv2) as Hld2.
  rewrite answer_LoadLease by done. cbn [fst snd].
  assert (leases s2 !! shard = Some (new_lease holder (last + 1) token now)) as Els.
  { destruct (view_eq _ _ Hv2) as (-> & _). exact (f_equal (λ v, v.1.1) Ev). }
  rewrite Els. destruct (stored_lease s2 _ Hinv2 Els) as [Hl Hexp]. cbn [map_err mbind result_bind]. rewrite Hl, <- El.
  destruct (leased_valid _ _ _ Hld) as (Eh & Esh & _ & Hlv & _ & Hlt). rewrite Esh, Z.eqb_refl. cbn [negb].
  apply wpq_act; [done|]. intros s3 i3 Hinv3 Hv3 HC3. pose proof (leased_view _ _ _ _ Hld2 Hinv3 Hv3) as Hld3.
  cbn [answer storage_handler memory_storage memory_answer fst snd].
  assert (ExpiredAt l (i_now i3) = false) as ->.
  { unfold ExpiredAt, Before. destruct (IsZero _); [done|]. destruct HC3 as (_ & _ & ?). by rewrite (proj2 (Z.ltb_lt _ _)) by (by apply Hlt). }
  assert (Placement_Validate (mkClusterPlacement n (Holder l) (Some l) (Version p)) = None) as ->.
  { unfold Placement_Validate. cbn [p_NodeID p_Lease p_ShardID]. rewrite Eh, Hholder, Hlv, Esh, Z.eqb_refl. cbn [negb]. by rewrite bool_decide_eq_true_2. }
  cbn [io_require wp]. split; [|done]. unfold resolution_of. by rewrite Eh.
Qed.

End claim.
End quiet.
