(* ===== verification/ClusterSpec.v ===== *)
(** * What the cluster guarantees

    The lease operations and the fences they lead to, whatever other nodes do at
    the same time; the leases a manager reports; shards; and a claim that ends
    in a fence the storage accepts. *)
From stdpp Require Import relations.
From S2P Require Import Prelude GoError GoText StorageTypes MemoryStore StoreSpec ClusterTypes Effects ClusterIO Leases Ownership LeaseFacts.

Section shared.
Context {St : Type} `{StorageLaws St}.
Context {C : instant → Prop}.
Implicit Types s : St.

(** C16: The lease operations over a shared storage: whatever other nodes do between
    their actions, what a successful acquire, renewal or handoff returns is the
    valid lease of the requested shard and holder that the storage holds at the
    end, with the last epoch it granted.  An acquire and a handoff come with an
    epoch above every one granted before the call (a handoff with the successor
    of the lease it replaces, which had the token it was given); a renewal
    continues the owner, epoch and token of the lease held just before; and
    after a successful release the shard is free. *)
Theorem lease_operations (s : St) (Hi : st_inv s) :
  (∀ req, is_u32 (lr_ShardID req) → wp_shared C (StorageLeaseStore_AcquireLease req) (λ r s', ∀ l, r = Ok l →
     confirmed s s' (lr_ShardID req) (lr_Holder req) l ∧ last_epoch s (StorageShardID (lr_ShardID req)) < Epoch l) s) ∧
  (∀ req, is_u32 (lr_ShardID req) → wp_shared C (StorageLeaseStore_RenewLease req) (λ r s', ∀ l, r = Ok l →
     confirmed s s' (lr_ShardID req) (lr_Holder req) l ∧ continues s s' l) s) ∧
  (∀ supported current req, is_u32 (cl_ShardID current) →
     wp_shared C (StorageLeaseStore_HandoffLease supported current req) (λ r s', ∀ l, r = Ok l →
       confirmed s s' (cl_ShardID current) (lr_Holder req) l ∧
       last_epoch s (StorageShardID (cl_ShardID current)) < Epoch l ∧ Epoch l = w64 (Epoch current + 1) ∧
       ∃ s1 old, rtc st_step s s1 ∧ rtc st_step s1 s' ∧ held s1 (StorageShardID (cl_ShardID l)) = Some old ∧
         l_Token old = Token current) s) ∧
  (∀ lease, wp_shared C (StorageLeaseStore_ReleaseLease lease) (λ r s', r = None →
     held s' (StorageShardID (cl_ShardID lease)) = None) s).
Proof.
  split_and!; [intros; by apply acquire_granted|intros; by apply renew_confirmed|intros; by apply handoff_confirmed|].
  intros lease. unfold StorageLeaseStore_ReleaseLease, storageReleaseLease. destruct (Lease_Validate lease); [done|].
  intros s1 i _ _ Hr. by apply law_release.
Qed.

(** C35: The leases a manager reports: however long it runs and whatever happens to
    the storage, every lease given to its callback is a valid one of its own
    shard and holder, with an epoch the storage had granted by then, and the
    epochs never go back; the lease it caches is one of these too. *)
Theorem manager_run (s : St) (shardID : Z) (holder : bytes) (ttl : Z) (token : bytes) (m : LeaseManager)
    (rounds : nat) (renewWithin interval : Z)
    (Hi : st_inv s) (Hn : is_u32 shardID) (Hm : NewLeaseManager (Some StorageLeaseStore) shardID holder ttl token = Ok m) :
  wp_shared C (LeaseManager_Run rounds renewWithin interval m) (λ p s',
    StronglySorted (λ a b, Epoch a <= Epoch b) p.1.2 ∧
    ∀ l, l ∈ p.1.2 ∨ m_current p.2 = Some l →
      cl_ShardID l = shardID ∧ Holder l = holder ∧ Lease_Validate l = None ∧ Epoch l <= last_epoch s' (StorageShardID shardID)) s.
Proof.
  assert (manager_ok m s ∧ m_shardID m = shardID ∧ m_holder m = holder) as (Hok & <- & <-).
  { unfold NewLeaseManager in Hm. destruct (LeaseManagerConfig_Validate _ _ _); [done|]. by injection Hm as <-. }
  unfold LeaseManager_Run. destruct (normalizeRunConfig _ _ _) as [[rw iv]|err].
  - eapply wp_mono; [|apply (Run_loop_ok rounds rw m s s []); [done..|by repeat constructor]].
    intros p s' ([Hs Hf] & Hm' & Hcfg). split; [done|]. intros l [Hl|Hl].
    + rewrite Forall_forall in Hf. by destruct (Hf l Hl).
    + destruct (same_config_shard _ _ Hcfg) as (E1 & E2 & _). rewrite <- E1, <- E2. by apply (mo_current _ _ Hm').
  - cbn [wp fst snd]. split; [constructor|]. intros l [Hl%elem_of_nil|Hl]; [done|by apply (mo_current _ _ Hok)].
Qed.

(** What [LookupOwner] answers was so while it ran. *)
Lemma lookup_confirmed ol key s t : st_inv s → (∀ i, C i → t <= i_now i) →
  (∀ n, ResolveShard (ol_resolver ol) key = Ok n → is_u32 n) →
  wp_shared C (StorageOwnerLookup_LookupOwner ol key) (λ r s', ∀ res, r = Ok res →
    ∃ n p l s1 s2, ResolveShard (ol_resolver ol) key = Ok n ∧ rtc st_step s s1 ∧ rtc st_step s1 s2 ∧ rtc st_step s2 s' ∧
      placed s1 key = Some p ∧ pl_ShardID p = StorageShardID n ∧ holds_lease s2 l ∧ cl_ShardID l = n ∧ t < cl_ExpiresAt l ∧
      Placement_Validate (r_Placement res) = None ∧
      res = mkResolution key (mkClusterPlacement n (Holder l) (Some l) (Version p)) (bool_decide (Holder l = ol_localNodeID ol))) s.
Proof.
  intros Hi Ht Hres. unfold StorageOwnerLookup_LookupOwner, storageLoadPlacement, storageLoadLease, nowTime.
  apply wp_require; [done|]. intros _. destruct (ResolveShard _ _) as [n|]; [|done]. specialize (Hres n eq_refl).
  apply wp_shared_read; [done..|]. intros s1 i1 Hs1 Hi1 _.
  destruct (lookup_placement _ _) as [p|] eqn:Hp; [|done].
  assert (placed s1 key = Some p ∧ pl_ShardID p = StorageShardID n) as [Hpl Hsh].
  { unfold lookup_placement in Hp. destruct (answer _ i1 s1).1 as [[p'|]|] eqn:E; [|done..]. destruct (PlacementRecord_Validate p'); [done|].
    case_bool_decide; [|done]. injection Hp as ->. split; [by eapply law_load_placement|done]. }
  rewrite Hsh. apply wp_shared_read; [done..|]. intros s2 i2 Hs2 Hi2 _.
  destruct (answer _ i2 s2).1 as [[r|]|err] eqn:E; [|done..]. cbn [map_err mbind result_bind].
  destruct (LeaseFromStorageRecord (Some r)) as [l|] eqn:El; [|done]. apply law_load in E.
  destruct (held_holds_lease _ n r l Hi2 Hres E El) as (Hln & Hh & Hlv & _).
  destruct (negb (cl_ShardID l =? n)); [done|]. apply wp_shared_read; [done..|]. intros s3 i3 Hs3 Hi3 HC3.
  destruct (ExpiredAt l _) eqn:Hex; [done|]. cbv zeta. apply wp_require; [done|]. intros Hpv. cbn [wp]. intros res [= <-].
  exists n, p, l, s1, s2. split_and!; [done..| |done|done].
  rewrite (law_now s3 i3) in Hex. specialize (Ht _ HC3). unfold ExpiredAt, Before in Hex. destruct (IsZero (cl_ExpiresAt l)) eqn:Hz.
  - unfold Lease_Validate in Hlv. rewrite Hz in Hlv. by repeat case_match.
  - apply negb_false_iff, Z.ltb_lt in Hex. lia.
Qed.

(** A fence is the local node's lease: when the coordinator resolves a fence for
    a document, then while it did so the storage placed the document on the
    fence's shard and held, for the local node and not expired at any time
    before the call, a lease with exactly the owner, epoch and token of the
    fence. *)
Theorem fence_of_local_lease (c : StorageOwnershipCoordinator) (key : DocumentKey) (s : St) (t : Z) (Hi : st_inv s)
    (Ht : ∀ i, C i → t <= i_now i) (Hres : ∀ n, ResolveShard (co_resolver c) key = Ok n → is_u32 n) :
  wp_shared C (ResolveAuthorityFence c key) (λ r s', ∀ fence, r = Ok fence →
    ∃ s1 s2 p l, rtc st_step s s1 ∧ rtc st_step s1 s2 ∧ rtc st_step s2 s' ∧
      placed s1 key = Some p ∧ pl_ShardID p = af_ShardID fence ∧
      held s2 (af_ShardID fence) = Some l ∧ l_Owner l = af_Owner fence ∧ l_Token l = af_Token fence ∧
      o_NodeID (af_Owner fence) = co_localNode c ∧ t < ExpiresAt l ∧ AuthorityFence_Validate fence = None) s.
Proof.
  unfold ResolveAuthorityFence, ResolveStorageAuthorityFence, LookupOwner. rewrite wp_bind, wp_then.
  eapply wp_mono; [|by apply (lookup_confirmed (mkOwnerLookup (co_localNode c) (co_resolver c)) key s t)].
  intros [res|err] s' Hl; cbn [wp]; [|by destruct (isAuthorityUnavailable err)].
  destruct (Hl res eq_refl) as (n & p & l & s1 & s2 & _ & Hs1 & Hs2 & Hs3 & Hp & Hsh & (r & Hr & El) & Hln & Hlt & Hpv & ->).
  intros fence Hf. unfold AuthorityFenceFromResolution in Hf. cbn [Local r_Placement] in Hf. case_bool_decide as Hloc; [|done]. cbn [negb] in Hf.
  cbn [r_Placement] in Hpv, Hf. rewrite Hpv in Hf. cbn [p_Lease p_ShardID p_NodeID] in Hf.
  destruct (AuthorityFence_Validate _) eqn:Hv; [done|]. injection Hf as <-. cbn [af_ShardID af_Owner af_Token o_NodeID].
  rewrite Hln in El, Hr. exists s1, s2, p, r. split_and!; [done..| | |done| |done].
  - rewrite El. by destruct r as [? [] ? ? ?].
  - by rewrite El.
  - by rewrite El in Hlt.
Qed.

End shared.

(** ** A claim on a free shard *)

(** Claim a document, then resolve its fence. *)
Definition claim_and_fence (c : StorageOwnershipCoordinator) (req : ClaimDocumentRequest)
    : io (result DocumentOwnership * result AuthorityFence) :=
  own ← ClaimDocument c req; fence ← ResolveAuthorityFence c (cr_DocumentKey req); Ret (own, fence).

Lemma quiet_claim c req n t0 last s : is_u32 n → DocumentKey_Validate (cr_DocumentKey req) = None → 0 < t0 → 0 < request_ttl c (cr_TTL req) →
  NodeID_Valid (co_localNode c) = None → cr_Holder req = [] ∨ cr_Holder req = co_localNode c →
  ResolveShard (co_resolver c) (cr_DocumentKey req) = Ok n → 0 <= last < 18446744073709551615 →
  shared_inv s → free n t0 s → get0 (leaseLast s) (StorageShardID n) = last →
  (∀ p, placements s !! cr_DocumentKey req = Some p → pl_ShardID p = StorageShardID n) →
  wp (elsewhere n (cr_DocumentKey req)) (in_window t0 (request_ttl c (cr_TTL req))) (ClaimDocument c req)
    (λ r s', ∃ own p, r = Ok own ∧ pl_ShardID p = StorageShardID n ∧
       leased n (cr_DocumentKey req) t0 (request_ttl c (cr_TTL req)) (co_localNode c) last (Some p) s' (do_Lease own)) s.
Proof.
  intros Hn Hkey Ht0 Httl Hloc Hh Hres Hlast Hinv Hfree Hl Hplace. set (key := cr_DocumentKey req) in *. set (ttl := request_ttl _ _) in *.
  unfold ClaimDocument. fold key. rewrite Hkey. cbn [io_require].
  assert (request_holder c (cr_Holder req) = Ok (co_localNode c)) as ->.
  { unfold request_holder. destruct Hh as [-> | ->]; [|case_bool_decide]; by rewrite ?bool_decide_eq_true_2, Hloc by done. }
  rewrite Hres, wp_then. fold ttl. eapply (wp_mono _ _ _ (λ r s', ∃ version, r = Ok version ∧ shared_inv s' ∧ view n key s' = view n key s)).
  { intros r s1 (version & -> & Hinv1 & Hv1). destruct (view_eq _ _ _ _ Hv1) as (E1 & E2 & E3).
    assert (NewDocumentManager n (co_localNode c) ttl (cr_Token req) = Ok (mkManager StorageLeaseStore n (co_localNode c) ttl (cr_Token req) None)) as ->.
    { unfold NewDocumentManager, NewLeaseManager, LeaseManagerConfig_Validate. rewrite Hloc. by rewrite (proj2 (Z.leb_gt ttl 0)) by lia. }
    rewrite wp_bind. eapply wp_mono; [|apply (quiet_acquireAction n key t0 ttl Hn Ht0 Httl (co_localNode c) last Hloc Hlast s1);
      [done|by apply (view_free _ key _ s)|by rewrite E2|done..]].
    intros p s2 (l & -> & Hld). cbn beta iota. apply (wpq_act n key t0 ttl); [apply Hld|]. intros s3 i3 Hinv3 Hv3 HC3.
    pose proof (answer_inv (DoSavePlacement (mkPlacement key (StorageShardID n) version 0)) i3 s3 Hinv3) as Hinv4.
    rewrite (answer_SavePlacement n key t0 ttl Hn Hkey s3 i3 version HC3 Hinv3) in Hinv4 |- *. cbn [fst snd wp] in *.
    eexists _, _. split_and!; [done| |split; [done|]]; [|cbn [do_Lease]].
    2:{ destruct Hld as (_ & token & now & ? & ? & ? & Hv2). exists token, now. split_and!; [done..|].
        rewrite <- Hv3 in Hv2. unfold view in *. cbn [leases leaseLast placements set_placements].
        rewrite lookup_insert_eq. f_equal. exact (f_equal fst Hv2). }
    done. }
  unfold resolvePlacementVersion, storageLoadPlacement. destruct (negb _); [by eexists|].
  apply (wpq_act n key t0 ttl); [done|]. intros s1 i1 Hinv1 Hv1 HC1. rewrite (answer_LoadPlacement key t0 ttl Hkey) by done. cbn [fst snd wp].
  destruct (view_eq _ _ _ _ Hv1) as (_ & _ & E3). rewrite E3. destruct (placements s !! key) as [p|] eqn:Ep; [|by eexists].
  destruct (proj2 Hinv _ _ Ep) as [_ Hpv]. unfold placement_version. rewrite Hpv, (bool_decide_eq_true_2 _ (Hplace _ eq_refl)). by eexists.
Qed.

(** C34: A claim leads to a fence: when the shard of a document is free at [t0] and
    nobody touches that shard's lease or that document's placement meanwhile
    (others may do anything elsewhere), a node that claims the document and then
    resolves its fence succeeds in both, the epoch is the successor of the last
    one granted, and the storage accepts writes under the fence for the whole
    duration asked for.  Nothing is assumed of the token: an empty or blank one
    is replaced by a generated one. *)
Theorem claim_then_write (c : StorageOwnershipCoordinator) (req : ClaimDocumentRequest) (n t0 : Z) (s : Store)
    (Hn : is_u32 n) (Hkey : DocumentKey_Validate (cr_DocumentKey req) = None) (Ht0 : 0 < t0) (Httl : 0 < request_ttl c (cr_TTL req))
    (Hloc : NodeID_Valid (co_localNode c) = None) (Hh : cr_Holder req = [] ∨ cr_Holder req = co_localNode c)
    (Hres : ResolveShard (co_resolver c) (cr_DocumentKey req) = Ok n) (Hinv : shared_inv s) (Hfree : free n t0 s)
    (Hlast : 0 <= get0 (leaseLast s) (StorageShardID n) < 18446744073709551615)
    (Hplace : ∀ p, placements s !! cr_DocumentKey req = Some p → pl_ShardID p = StorageShardID n) :
  wp (elsewhere n (cr_DocumentKey req)) (in_window t0 (request_ttl c (cr_TTL req))) (claim_and_fence c req)
    (λ r s', ∃ own fence, r = (Ok own, Ok fence) ∧
       af_Owner fence = mkOwner (co_localNode c) (get0 (leaseLast s) (StorageShardID n) + 1) ∧
       Epoch (do_Lease own) = get0 (leaseLast s) (StorageShardID n) + 1 ∧
       ∀ t, t < t0 + request_ttl c (cr_TTL req) → validateAuthorityLocked s' (cr_DocumentKey req) fence t = None) s.
Proof.
  unfold claim_and_fence. rewrite wp_bind. eapply wp_mono; [|by apply (quiet_claim c req n t0 (get0 (leaseLast s) (StorageShardID n)))].
  set (last := get0 (leaseLast s) (StorageShardID n)) in *. set (key := cr_DocumentKey req) in *. set (ttl := request_ttl _ _) in *.
  intros r s1 (own & p & -> & Hps & Hld). rewrite wp_bind. unfold ResolveAuthorityFence, ResolveStorageAuthorityFence. rewrite wp_bind.
  eapply wp_mono; [|by apply (quiet_lookup n key t0 ttl Hn Hkey Ht0 Httl (co_localNode c) last Hloc Hlast c s1 p (do_Lease own))].
  intros r s2 (-> & Hld2). cbn [wp]. destruct (leased_valid _ _ _ _ Hn Ht0 Httl _ _ Hloc Hlast _ _ _ Hld2) as (Eh & Esh & Eep & Hlv & Htok & Hlt).
  assert (AuthorityFenceFromResolution (Some (resolution_of n key (co_localNode c) c p (do_Lease own))) =
    Ok (mkFence (StorageShardID n) (mkOwner (co_localNode c) (last + 1)) (Token (do_Lease own)))) as ->.
  { unfold AuthorityFenceFromResolution, resolution_of. cbn [Local r_Placement p_Lease p_ShardID p_NodeID].
    rewrite bool_decide_eq_true_2 by done. cbn [negb].
    assert (Placement_Validate (mkClusterPlacement n (co_localNode c) (Some (do_Lease own)) (Version p)) = None) as ->.
    { unfold Placement_Validate. cbn [p_NodeID p_Lease p_ShardID]. rewrite Hloc, Hlv, Esh, Z.eqb_refl. cbn [negb].
      by rewrite bool_decide_eq_true_2. }
    rewrite Eep. unfold AuthorityFence_Validate, OwnerInfo_Validate, NodeID_Validate. cbn [af_ShardID af_Owner af_Token o_NodeID o_Epoch].
    rewrite StorageShardID_valid by apply Hn. unfold NodeID_Valid in Hloc. unfold StorageNodeID.
    destruct (is_blank (co_localNode c)); [done|]. rewrite (proj2 (Z.eqb_neq (last + 1) 0)) by lia. by rewrite Htok. }
  exists own, (mkFence (StorageShardID n) (mkOwner (co_localNode c) (last + 1)) (Token (do_Lease own))). split_and!; [done..|].
  intros t Ht. destruct Hld2 as (_ & token & now & Hnow & _ & El & Hv2).
  assert (leases s2 !! StorageShardID n = Some (new_lease n ttl (co_localNode c) (last + 1) token now)) as E1 by exact (f_equal (λ v, v.1.1) Hv2).
  assert (placements s2 !! key = Some p) as E3 by exact (f_equal snd Hv2).
  unfold validateAuthorityLocked. cbn [af_ShardID af_Owner af_Token]. rewrite E3, Hps, bool_decide_eq_true_2 by done. cbn [negb].
  rewrite E1. rewrite !bool_decide_eq_true_2 by (done || (rewrite El; done)). cbn [negb]. unfold After.
  cbn [ExpiresAt new_lease lease_record]. by rewrite (proj2 (Z.ltb_lt t (now + ttl))) by lia.
Qed.

(** ** Shards *)

Lemma ParseUint_loop_range s m n : 0 <= m <= MaxUint32 → ParseUint_loop s m = Some n → is_u32 n.
Proof.
  revert m. induction s as [|ch s IH]; intros m Hm; cbn [ParseUint_loop]; [intros [= <-]; unfold is_u32, MaxUint32 in *; lia|].
  destruct (_ || _) eqn:E; [done|]. apply orb_false_iff in E as [E1%Z.ltb_ge E2%Z.ltb_ge]. cbv zeta.
  destruct (Z.ltb_spec MaxUint32 (m * 10 + (ch - 48))); [done|]. apply IH. lia.
Qed.

(** Shards stay in range and survive the storage: a resolver over [count] shards
    maps every valid document, and only those, to a shard below [count], the one
    of the FNV-1a hash of the namespace, a zero byte and the document id; the
    decimal form the storage keeps parses back to the shard, two shards never
    share it, and whatever parses is a 32-bit shard. *)
Theorem shard_ids (count : Z) (r : ShardResolver) (Hcount : is_u32 count) (Hr : NewDeterministicShardResolver count = Ok r) :
  (∀ key, DocumentKey_Validate key = None → ∃ n, ResolveShard r key = Ok n ∧ 0 <= n < count ∧ is_u32 n ∧
     n = fnv64a fnv64_offset (Namespace key ++ 0 :: DocumentID key) mod count) ∧
  (∀ key n, ResolveShard r key = Ok n → DocumentKey_Validate key = None) ∧
  (∀ n, is_u32 n → ParseStorageShardID (StorageShardID n) = Ok n) ∧
  (∀ n m, is_u32 n → is_u32 m → StorageShardID n = StorageShardID m → n = m) ∧
  (∀ id n, ParseStorageShardID id = Ok n → is_u32 n).
Proof.
  unfold NewDeterministicShardResolver in Hr. destruct (Z.eqb_spec count 0) as [|Hne]; [done|]. injection Hr as <-. cbn [ResolveShard].
  unfold DeterministicShardResolver_ResolveShard. rewrite (proj2 (Z.eqb_neq count 0)) by done. unfold is_u32 in Hcount. split_and!.
  - intros key ->. eexists. split; [done|].
    assert (fnv64a (fnv64a (fnv64a fnv64_offset (Namespace key)) [0]) (DocumentID key) =
      fnv64a fnv64_offset (Namespace key ++ 0 :: DocumentID key)) as -> by (unfold fnv64a; by rewrite fold_left_app).
    pose proof (Z.mod_pos_bound (fnv64a fnv64_offset (Namespace key ++ 0 :: DocumentID key)) count ltac:(lia)).
    unfold w32. rewrite Z.mod_small by lia. unfold is_u32. split_and!; (done || lia).
  - intros key n. by destruct (DocumentKey_Validate key).
  - apply ParseStorageShardID_String.
  - apply StorageShardID_inj.
  - intros id n. unfold ParseStorageShardID. destruct (ShardID_Validate id); [done|].
    destruct (ParseUint32 id) as [v|] eqn:E; [|done]. intros [= <-]. unfold ParseUint32 in E. destruct id; [done|].
    by eapply ParseUint_loop_range; [|exact E].
Qed.

(** ** Two nodes *)

Definition sample_resolver : ShardResolver := mkResolver (DeterministicShardResolver_ResolveShard 4) 4.
Definition node_a : StorageOwnershipCoordinator := mkCoordinator [97] sample_resolver true 50.
Definition sample_key : DocumentKey := mkDocumentKey [110; 115] [100].
Definition sample_claim : ClaimDocumentRequest := mkClaim sample_key [] 0 [] 0.

Lemma sample_shard : ResolveShard (co_resolver node_a) (cr_DocumentKey sample_claim) = Ok 2.
Proof. vm_compute. reflexivity. Qed.

Lemma shared_inv_new : shared_inv Store_New.
Proof. split; [intros ? ?|intros ? ?]; cbn; by rewrite lookup_empty. Qed.

Lemma free_new : free 2 100 Store_New.
Proof. intros l. unfold Store_New. cbn [leases]. by rewrite lookup_empty. Qed.

Lemma unplaced_new p : placements Store_New !! cr_DocumentKey sample_claim = Some p → pl_ShardID p = StorageShardID 2.
Proof. unfold Store_New. cbn [placements]. by rewrite lookup_empty. Qed.

(** Alone, at time [t]. *)
Definition at_time (t : Z) (k : nat) : list instant := replicate k (mkInstant None t).

Definition finished {A} (o : option A) : bool := match o with Some _ => true | None => false end.

Lemma elsewhere_refl n key : Reflexive (elsewhere n key).
Proof. by intros s. Qed.

Lemma claim_then_write_witness : ∃ own fence s', run (claim_and_fence node_a sample_claim) (at_time 120 20) Store_New = Some ((Ok own, Ok fence), s') ∧
  af_Owner fence = mkOwner [97] 1 ∧ validateAuthorityLocked s' sample_key fence 149 = None.
Proof.
  unshelve epose proof (claim_then_write node_a sample_claim 2 100 Store_New _ _ _ _ _ _ _ _ _ _ _) as H;
    [by vm_compute|reflexivity|lia|reflexivity|reflexivity|by left|exact sample_shard|exact shared_inv_new|exact free_new|
     by vm_compute|exact unplaced_new|].
  assert (Forall (in_window 100 (request_ttl node_a (cr_TTL sample_claim))) (at_time 120 20)) as Hin.
  { apply Forall_replicate. split; [reflexivity|]. split; [vm_compute; discriminate|reflexivity]. }
  assert (finished (run (claim_and_fence node_a sample_claim) (at_time 120 20) Store_New) = true) as Hfin by (vm_compute; reflexivity).
  pose proof (λ x s', wp_run _ _ _ _ (at_time 120 20) Store_New x s' (elsewhere_refl 2 sample_key) Hin H) as Hrun. clear H Hin.
  destruct (run (claim_and_fence node_a sample_claim) (at_time 120 20) Store_New) as [[r s']|]; [clear Hfin|discriminate Hfin].
  destruct (Hrun r s' eq_refl) as (own & fence & -> & Ho & _ & Hv). exists own, fence, s'. clear Hrun.
  split; [reflexivity|]. split; [exact Ho|apply Hv; reflexivity].
Defined.

Lemma shard_ids_witness : ∃ n, ResolveShard sample_resolver sample_key = Ok n ∧ 0 <= n < 4.
Proof.
  destruct (shard_ids 4 sample_resolver) as (H & _); [by vm_compute|reflexivity|].
  destruct (H sample_key eq_refl) as (n & ? & ? & _). eauto.
Defined.

Lemma st_inv_new : st_inv Store_New.
Proof. exact shared_inv_new. Qed.

(** A run succeeded. *)
Definition succeeded {A B} (o : option (result A * B)) : bool := match o with Some (Ok _, _) => true | _ => false end.

Lemma run_inv {A} (m : io A) ts s x s' : shared_inv s → run m ts s = Some (x, s') → shared_inv s'.
Proof.
  revert ts s. induction m as [y|a k IH]; intros ts s Hi; cbn [run]; [by intros [= _ <-]|].
  destruct ts as [|i ts]; [done|]. apply IH. by apply answer_inv.
Qed.

Lemma at_time_any t k : Forall (λ _ : instant, True) (at_time t k).
Proof. by apply Forall_replicate. Qed.

(** What holds with any surroundings holds of a run alone. *)
Lemma shared_run {A} (C : instant → Prop) (m : io A) (Q : A → Store → Prop) ts s x s' :
  Forall C ts → wp_shared C m Q s → run m ts s = Some (x, s') → Q x s'.
Proof. apply wp_run. intros ?. apply rtc_refl. Qed.

Definition sample_request : LeaseRequest := mkLeaseRequest 2 [97] 50 [].

Lemma lease_operations_witness : ∃ l s', run (StorageLeaseStore_AcquireLease sample_request) (at_time 120 5) Store_New = Some (Ok l, s') ∧
  confirmed Store_New s' 2 [97] l ∧ 0 < Epoch l.
Proof.
  assert (is_u32 2) as H2 by by vm_compute.
  destruct (lease_operations (C := λ _, True) Store_New st_inv_new) as (Hacq & _). specialize (Hacq sample_request H2).
  pose proof (λ x s', shared_run _ _ _ (at_time 120 5) Store_New x s' (at_time_any 120 5) Hacq) as Hrun.
  assert (succeeded (run (StorageLeaseStore_AcquireLease sample_request) (at_time 120 5) Store_New) = true) as Hok by (vm_compute; reflexivity).
  clear Hacq. destruct (run _ _ _) as [[[l|] s']|]; [clear Hok|discriminate Hok..].
  destruct (Hrun _ s' eq_refl l eq_refl) as [Hc He]. exists l, s'. split; [reflexivity|]. split; [exact Hc|exact He].
Defined.

Definition sample_manager : LeaseManager := mkManager StorageLeaseStore 2 [97] 50 [] None.

Lemma manager_run_witness : ∃ e seen m s', run (LeaseManager_Run 2 0 0 sample_manager) (at_time 120 20) Store_New = Some ((e, seen, m), s') ∧
  length seen = 1%nat ∧ ∀ l, l ∈ seen → Holder l = [97].
Proof.
  pose proof (manager_run (C := λ _, True) Store_New 2 [97] 50 [] sample_manager 2 0 0 st_inv_new ltac:(by vm_compute) ltac:(reflexivity)) as H.
  pose proof (λ x s', shared_run _ _ _ (at_time 120 20) Store_New x s' (at_time_any 120 20) H) as Hrun. clear H.
  assert (match run (LeaseManager_Run 2 0 0 sample_manager) (at_time 120 20) Store_New with
          | Some ((_, seen, _), _) => (length seen =? 1)%nat | None => false end = true) as Hok by (vm_compute; reflexivity).
  destruct (run _ _ _) as [[[[e seen] m] s']|]; [|discriminate Hok].
  destruct (Hrun _ s' eq_refl) as [_ Hseen]. cbn [fst snd] in Hseen. exists e, seen, m, s'. split; [reflexivity|].
  split; [by apply Nat.eqb_eq|]. intros l Hl. apply (Hseen l). left. exact Hl.
Defined.

Lemma fence_of_local_lease_witness : ∃ s fence s' l, shared_inv s ∧
  run (ResolveAuthorityFence node_a sample_key) (at_time 120 10) s = Some (Ok fence, s') ∧
  l_Owner l = af_Owner fence ∧ 120 < ExpiresAt l.
Proof.
  assert (match run (ClaimDocument node_a sample_claim) (at_time 120 20) Store_New with
          | Some (_, s) => succeeded (run (ResolveAuthorityFence node_a sample_key) (at_time 120 10) s)
          | None => false end = true) as Hok by (vm_compute; reflexivity).
  pose proof (λ x s', run_inv (ClaimDocument node_a sample_claim) (at_time 120 20) Store_New x s' shared_inv_new) as Hinv.
  destruct (run (ClaimDocument _ _) _ _) as [[x s]|]; [|discriminate Hok]. specialize (Hinv x s eq_refl).
  assert (∀ n, ResolveShard (co_resolver node_a) sample_key = Ok n → is_u32 n) as Hres.
  { intros n E. change sample_key with (cr_DocumentKey sample_claim) in E. rewrite sample_shard in E. injection E as <-. by vm_compute. }
  pose proof (fence_of_local_lease (C := λ i, 120 <= i_now i) node_a sample_key s 120 (Hinv : st_inv s) (λ i Hi, Hi) Hres) as H. clear Hres.
  assert (Forall (λ i, 120 <= i_now i) (at_time 120 10)) as Hin by (apply Forall_replicate; cbn; lia).
  pose proof (λ x s', shared_run _ _ _ (at_time 120 10) s x s' Hin H) as Hrun. clear H Hin.
  destruct (run (ResolveAuthorityFence _ _) _ _) as [[[fence|] s']|] eqn:E; [clear Hok|discriminate Hok..].
  destruct (Hrun _ s' eq_refl fence eq_refl) as (s1 & s2 & p & l & _ & _ & _ & _ & _ & _ & Ho & _ & _ & Hlt & _).
  exists s, fence, s', l. split; [exact Hinv|]. split; [exact E|]. split; [exact Ho|exact Hlt].
Defined.
