(* ===== verification/RuntimeSpec.v ===== *)
(** * Properties of the ownership runtime

    Any number of calls on a runtime and the goroutines they start, interleaved
    action by action: one run per document, references that add up, and no call
    that waits for ever.  A call holds references ([hold]); [lp] follows what each
    action does to what the call holds, and [counts_ok] adds up what all calls and
    handles hold. *)
From stdpp Require Import relations.
From S2P Require Import Prelude GoError GoText StorageTypes MemoryStore ClusterTypes Effects ClusterIO Leases Ownership ClusterSpec Runtime.
#[local] Open Scope io_scope.

(** ** Sums *)

Definition total {A} (f : A → Z) (l : list A) : Z := foldr (λ x sum, f x + sum) 0 l.

#[local] Arguments total : simpl never.

Lemma total_cons {A} (f : A → Z) x l : total f (x :: l) = f x + total f l.
Proof. done. Qed.

Lemma total_app {A} (f : A → Z) l1 l2 : total f (l1 ++ l2) = total f l1 + total f l2.
Proof. induction l1 as [|x l1 IH]; cbn [app]; [done|]. rewrite !total_cons. lia. Qed.

Lemma total_insert {A} (f : A → Z) l j x y : l !! j = Some x → total f (<[j := y]> l) = total f l - f x + f y.
Proof.
  intros Hj. rewrite insert_take_drop by by eapply lookup_lt_Some. pose proof (take_drop_middle l j x Hj) as E.
  apply (f_equal (total f)) in E. rewrite total_app, total_cons in E |- *. lia.
Qed.

Lemma total_nonneg {A} (f : A → Z) l : (∀ x, 0 <= f x) → 0 <= total f l.
Proof. intros Hf. induction l as [|x l IH]; [done|]. rewrite total_cons. specialize (Hf x). lia. Qed.

Lemma total_pos {A} (f : A → Z) l j x : (∀ x, 0 <= f x) → l !! j = Some x → f x <= total f l.
Proof.
  intros Hf Hj. rewrite <- (take_drop_middle l j x Hj), total_app, total_cons.
  pose proof (total_nonneg f (take j l) Hf). pose proof (total_nonneg f (drop (S j) l) Hf). lia.
Qed.

Lemma total_some {A} (f : A → Z) l : (∀ x, f x = 0 ∨ f x = 1) → total f l ≠ 0 → ∃ j x, l !! j = Some x ∧ f x = 1.
Proof.
  intros Hf. induction l as [|z l IH]; [done|]. rewrite total_cons. destruct (Hf z) as [E|E]; [|by exists 0%nat, z]. rewrite E. intros H.
  destruct IH as (j & x & Hj & Hx); [by intros E'; apply H; rewrite E'|]. by exists (S j), x.
Qed.

(** ** What a call holds *)

(** How far an acquirer has come: its run is to be started, it waits, it knows that the
    channel is closed, it knows that there is an ownership. *)
Inductive phase := New | Waiting | Ready | Owned.

(** A reference of an entry; the run of an entry; the [once] of a handle, with the
    reference of the handle or without. *)
Inductive hold := Idle | Using (entry : nat) (p : phase) | Running (entry : nat) | Entering (handle entry : nat) | Leaving (handle : nat).

#[export] Instance phase_eq_dec : EqDecision phase.
Proof. solve_decision. Defined.
#[export] Instance hold_eq_dec : EqDecision hold.
Proof. solve_decision. Defined.

Definition uses (entry : nat) (h : hold) : Z :=
  match h with Using e _ | Entering _ e => if decide (e = entry) then 1 else 0 | _ => 0 end.
Definition runs (entry : nat) (h : hold) : Z :=
  match h with Using e New | Running e => if decide (e = entry) then 1 else 0 | _ => 0 end.
Definition inside (handle : nat) (h : hold) : Z :=
  match h with Entering x _ | Leaving x => if decide (x = handle) then 1 else 0 | _ => 0 end.
(** A handle that nobody has called Release on. *)
Definition unused (entry : nat) (h : DocumentOwnershipHandle) : Z :=
  match h with mkHandle e Unused => if decide (e = entry) then 1 else 0 | _ => 0 end.

Record entry_ok (e : documentOwnershipRuntimeEntry) : Prop := {
  eo_done : en_done e = true → en_ready e = true;
  eo_owned : en_ready e = true → en_ownership e = None → en_err e ≠ None;
  eo_refs : 0 <= en_refs e }.

(** [lp m Q h]: holding [h], [m] keeps to the protocol of references and ends in [Q]. *)
Fixpoint lp {A} (m : rio A) (Q : A → hold → Prop) (h : hold) : Prop :=
  match m with
  | Ret x => Q x h
  | Act a k =>
      match a as a return (runtime_reply a → hold → Prop) → Prop with
      | Run _ _ | Background _ => λ rest, ∀ x, rest x h
      | AcquireEntry _ => λ rest, h = Idle ∧ ∀ x, rest x (match x with Ok (e, created) => Using e (if created then New else Waiting) | Err _ => Idle end)
      | Go e _ => λ rest, h = Using e New ∧ rest tt (Using e Waiting)
      | Begin e => λ rest, h = Idle ∧ ∀ x, rest x (match x with Some _ => Running e | None => Idle end)
      | WaitReady e _ => λ rest, h = Using e Waiting ∧ ∀ x, rest x (match x with Some _ => h | None => Using e Ready end)
      | WaitDone e _ => λ rest, (h = Idle ∨ ∃ x, h = Leaving x) ∧ ∀ x, rest x h
      | ReadEntry e => λ rest, ∀ x, (h = Using e Ready → entry_ok x ∧ en_ready x = true) →
          rest x (match h, en_ownership x with Using e' Ready, Some _ => if decide (e' = e) then Using e Owned else h | _, _ => h end)
      | NewHandle e => λ rest, h = Using e Owned ∧ ∀ x, rest x Idle
      | MarkReady e _ | UpdateLease e _ => λ rest, h = Running e ∧ rest tt h
      | FinishEntry e _ => λ rest, h = Running e ∧ rest tt Idle
      | DropRef e => λ rest, ((∃ p, p ≠ New ∧ h = Using e p) ∧ ∀ x, rest x Idle) ∨ (∃ handle, h = Entering handle e ∧ ∀ x, rest x (Leaving handle))
      | OnceEnter handle => λ rest, h = Idle ∧ ∀ x, rest x (match x with inl e => Entering handle e | inr _ => Idle end)
      | OnceLeave handle _ => λ rest, h = Leaving handle ∧ rest tt Idle
      | CloseAll => λ rest, h = Idle ∧ ∀ x, rest x Idle
      end (λ x, lp (k x) Q)
  end.

Lemma lp_weaken {A} (m : rio A) (P Q : A → hold → Prop) h : (∀ x h, P x h → Q x h) → lp m P h → lp m Q h.
Proof.
  intros HPQ. revert h. induction m as [x|a k IH]; intros h; cbn; [apply HPQ|]. destruct a; try (intros H x; by apply IH); try (intros [? H]; split; [done|]; by intros; apply IH, H).
  - intros H x Hx. by apply IH, H.
  - intros [[? H]|(hd & ? & H)]; [left|right; exists hd]; (split; [done|]); intros x; by apply IH.
Qed.

Lemma lp_then_bind {A B} (m : rio A) (f : A → rio B) Q h : lp m (λ x, lp (f x) Q) h → lp (m ≫= f) Q h.
Proof.
  revert h. induction m as [x|a k IH]; intros h; cbn; [done|]. destruct a; try (intros H x; by apply IH); try (intros [? H]; split; [done|]; by intros; apply IH, H).
  - intros H x Hx. by apply IH, H.
  - intros [[? H]|(hd & ? & H)]; [left|right; exists hd]; (split; [done|]); intros x; by apply IH.
Qed.

(** A call that starts and ends with nothing. *)
Definition disciplined {A} (m : rio A) : Prop := lp m (λ _ h, h = Idle) Idle.

Lemma in_run_lp {A} entry (m : io A) (Q : A → hold → Prop) h : (∀ x, Q x h) → lp (in_run entry m) Q h.
Proof. intros HQ. unfold in_run. induction m as [x|a k IH]; cbn; [apply HQ|]. intros x. apply IH. Qed.

Lemma in_background_lp {A} (m : io A) (Q : A → hold → Prop) h : (∀ x, Q x h) → lp (in_background m) Q h.
Proof. intros HQ. unfold in_background. induction m as [x|a k IH]; cbn; [apply HQ|]. intros x. apply IH. Qed.

Section operations.
Context (r : DocumentOwnershipRuntime).

Lemma run_loop_lp rounds e renewWithin m : lp (run_loop rounds e renewWithin m) (λ _ h, h = Running e) (Running e).
Proof.
  revert m. induction rounds as [|rounds IH]; intros m; [done|]. cbn [run_loop]. apply lp_then_bind, in_run_lp. intros [err|]; [done|].
  apply lp_then_bind, in_run_lp. intros [[[lease changed]|err] m']; [|done]. apply lp_then_bind. assert (∀ h, h = Running e → lp (done ← in_run e ctxErr; match done with Some err => Ret (err, m') | None => run_loop rounds e renewWithin m' end) (λ _ h, h = Running e) h)
    as Hrest by (intros h ->; apply lp_then_bind, in_run_lp; intros [err|]; [done|apply IH]).
  destruct changed; [split; [done|]|]; by apply Hrest.
Qed.

Lemma run_ownership_lp rounds e claim : lp (run_ownership r rounds e claim) (λ _ h, h = Running e) (Running e).
Proof.
  unfold run_ownership. destruct (_ <? 0); [done|]. apply lp_then_bind, in_run_lp. intros [ownership|err]; [|done]. cbn. split; [done|].
  apply lp_then_bind. eapply lp_weaken; [|instantiate (1 := λ _ h, h = Running e); destruct (normalizeRunConfig _ _ _) as [[renew interval]|err]; [apply run_loop_lp|done]].
  cbn. intros [err manager] h ->. apply lp_then_bind, in_background_lp. intros [released m]. done.
Qed.

Lemma runEntry_disciplined rounds e : disciplined (runEntry r rounds e).
Proof.
  split; [done|]. intros [req|]; [|done]. apply lp_then_bind. eapply lp_weaken; [|apply run_ownership_lp]. intros err h ->. done.
Qed.

(** A reference, after a failed wait. *)
Definition still_using (e : nat) (h : hold) : Prop := ∃ p, p ≠ New ∧ h = Using e p.

Lemma waitEntryReady_lp e gives_up : lp (waitEntryReady e gives_up) (λ res h, match res with Ok _ => h = Idle | Err _ => still_using e h end) (Using e Waiting).
Proof.
  split; [done|]. intros [err|]; [by exists Waiting|]. intros x Hx. destruct (Hx eq_refl) as [Hok Hready].
  destruct (en_ownership x) as [o|] eqn:Eo; cbn.
  - rewrite decide_True, Eo by done. by split.
  - rewrite Eo. destruct (en_err x) as [err|] eqn:Ee; [by exists Ready|]. by destruct (eo_owned _ Hok Hready Eo).
Qed.

Lemma release_handle_lp e handle gives_up : lp (releaseEntry e true gives_up) (λ _ h, h = Leaving handle) (Entering handle e).
Proof.
  right. exists handle. split; [done|]. intros last. cbn. destruct last; cbn; [|done]. split; [right; by exists handle|]. intros [err|]; [done|]. by intros x _.
Qed.

Lemma Acquire_disciplined req gives_up : disciplined (AcquireDocumentOwnership req gives_up).
Proof.
  unfold disciplined, AcquireDocumentOwnership. destruct (DocumentKey_Validate _); [done|]. split; [done|]. intros [[e created]|err]; [|done]. cbn.
  assert (lp (handle ← waitEntryReady e gives_up; match handle with Err err => _ ← releaseEntry e false None; Ret (Err err) | Ok handle => Ret (Ok handle) end)
    (λ _ h, h = Idle) (Using e Waiting)) as Hwait.
  { apply lp_then_bind. eapply lp_weaken; [|apply waitEntryReady_lp]. intros [handle|err] h Hh; [done|]. left. split; [done|]. intros last. cbn. by rewrite orb_true_r. }
  destruct created; [|done]. split; [done|exact Hwait].
Qed.

Lemma Release_disciplined handle gives_up : disciplined (DocumentOwnershipHandle_Release handle gives_up).
Proof.
  destruct handle as [handle|]; [|done]. split; [done|]. intros [e|err]; [|done]. apply lp_then_bind. eapply lp_weaken; [|apply release_handle_lp]. intros err h ->. by split.
Qed.

Lemma Runtime_Close_disciplined gives_up : disciplined (Runtime_Close gives_up).
Proof.
  split; [done|]. intros [entries|]; [|done]. generalize (@None error) as joined. induction entries as [|e entries IH]; intros joined; [done|].
  split; [by left|]. intros x. apply IH.
Qed.

End operations.

(** ** The run of an entry is the coordinator's *)

(** What is left of a run without the mutex of the runtime and without the contexts. *)
Inductive erases {A B} (R : A → B → Prop) : rio A → io B → Prop :=
| erases_ret x y : R x y → erases R (Ret x) (Ret y)
| erases_run e a k k' : (∀ x, erases R (k x) (k' x)) → erases R (Act (Run e a) k) (Act a k')
| erases_background a k k' : (∀ x, erases R (k x) (k' x)) → erases R (Act (Background a) k) (Act a k')
| erases_ready e ownership k m : erases R (k tt) m → erases R (Act (MarkReady e ownership) k) m
| erases_lease e lease k m : erases R (k tt) m → erases R (Act (UpdateLease e lease) k) m.

Lemma erases_bind {A B A' B'} (R : A → B → Prop) (S : A' → B' → Prop) m m' f f' :
  erases R m m' → (∀ x y, R x y → erases S (f x) (f' y)) → erases S (m ≫= f) (m' ≫= f').
Proof. intros Hm Hf. induction Hm as [x y Hxy|e a k k' _ IH|a k k' _ IH|e o k m _ IH|e l k m _ IH]; [by apply Hf|by constructor..]. Qed.

Lemma erases_in_run {A} e (m : io A) : erases eq (in_run e m) m.
Proof. unfold in_run. induction m as [x|a k IH]; by constructor. Qed.

Lemma erases_in_background {A} (m : io A) : erases eq (in_background m) m.
Proof. unfold in_background. induction m as [x|a k IH]; by constructor. Qed.

Definition ends_alike (x : error * LeaseManager) (y : error * list Lease * LeaseManager) : Prop := x.1 = y.1.1 ∧ x.2 = y.2.

Lemma erases_loop rounds e renewWithin m seen : erases ends_alike (run_loop rounds e renewWithin m) (Run_loop rounds renewWithin m seen).
Proof.
  revert m seen. induction rounds as [|rounds IH]; intros m seen; [by constructor|]. cbn [run_loop Run_loop].
  eapply erases_bind; [apply erases_in_run|]. intros x y <-. destruct x; [by constructor|].
  eapply erases_bind; [apply erases_in_run|]. intros [res m'] y <-. destruct res as [[lease changed]|err]; [|by constructor].
  assert (∀ seen, erases ends_alike (done ← in_run e ctxErr; match done with Some err => Ret (err, m') | None => run_loop rounds e renewWithin m' end)
    (done ← ctxErr; match done with Some err => Ret (err, seen, m') | None => Run_loop rounds renewWithin m' seen end)) as Hrest.
  { intros seen'. eapply erases_bind; [apply erases_in_run|]. intros x y <-. destruct x; [by constructor|apply IH]. }
  destruct changed; [apply erases_lease|]; apply Hrest.
Qed.

(** The goroutine of an entry takes the actions of the coordinator's run, with the
    news for the entry in between, and ends with the same error. *)
Theorem run_is_the_coordinators (r : DocumentOwnershipRuntime) (rounds e : nat) (claim : ClaimDocumentRequest) :
  erases eq (run_ownership r rounds e claim)
    (RunDocumentOwnership (or_coordinator r) rounds claim (or_renewWithin r) (or_interval r) (or_releaseTimeout r) true).
Proof.
  unfold run_ownership, RunDocumentOwnership. destruct (_ <? 0); [by constructor|]. eapply erases_bind; [apply erases_in_run|]. intros res y <-.
  destruct res as [ownership|err]; [|by constructor]. apply erases_ready. eapply (erases_bind ends_alike).
  { unfold LeaseManager_Run. destruct (normalizeRunConfig _ _ _) as [[renew interval]|err]; [apply erases_loop|by constructor]. }
  intros [err manager] [[err' seen] manager'] [E1 E2]. cbn in E1, E2. subst err' manager'. eapply erases_bind; [apply erases_in_background|]. intros [released m] y <-.
  by destruct released; constructor.
Qed.

(** ** Calls and goroutines *)

Inductive request :=
| ReqAcquire (req : ClaimDocumentRequest) (gives_up : option error)
| ReqRelease (handle : option nat) (gives_up : option error)
| ReqClose (gives_up : nat → option error)
| ReqGoroutine (entry : nat) (rounds : nat).

Section calls.
Context {St : Type} `{Handler op reply St} (r : DocumentOwnershipRuntime) (order : gmap DocumentKey nat → list nat).
#[local] Existing Instance runtime_handler.

Definition outcome (err : option error) : result (option nat) := match err with Some err => Err err | None => Ok None end.

Definition serve (q : request) : rio (result (option nat)) :=
  match q with
  | ReqAcquire req gives_up => handle ← AcquireDocumentOwnership req gives_up; Ret (match handle with Ok h => Ok (Some h) | Err err => Err err end)
  | ReqRelease handle gives_up => err ← DocumentOwnershipHandle_Release handle gives_up; Ret (outcome err)
  | ReqClose gives_up => err ← Runtime_Close gives_up; Ret (outcome err)
  | ReqGoroutine entry rounds => _ ← runEntry r rounds entry; Ret (Ok None)
  end.

Definition starts (m : rio (result (option nat))) : Prop := ∃ q, m = serve q.

Abbreviation step := (pool_step (St := shared St) (H := runtime_handler order) runtime_enabled starts).
Abbreviation acts := (act_step (St := shared St) (H := runtime_handler order) (A := result (option nat)) runtime_enabled).

Lemma call_disciplined q : disciplined (serve q).
Proof.
  destruct q; apply lp_then_bind; (eapply lp_weaken; [|first [apply Acquire_disciplined|apply Release_disciplined|apply Runtime_Close_disciplined|apply runEntry_disciplined]]); done.
Qed.

Definition running (s : shared St) (e : nat) : Z := match sh_heap s !! e with Some en => if en_done en then 0 else 1 | None => 0 end.
Definition refs (s : shared St) (e : nat) : Z := match sh_heap s !! e with Some en => en_refs en | None => 0 end.
Definition going (s : shared St) (e : nat) : Z := match sh_go s !! e with Some _ => 1 | None => 0 end.
Definition entered (s : shared St) (handle : nat) : Z := match sh_handles s !! handle with Some (mkHandle _ Entered) => 1 | _ => 0 end.

Definition owned (s : shared St) (e : nat) : Prop := ∃ en, sh_heap s !! e = Some en ∧ en_ownership en ≠ None.

Definition knows (s : shared St) (h : hold) : Prop :=
  match h with
  | Using e Owned => owned s e
  | Using e Ready => ∃ en, sh_heap s !! e = Some en ∧ en_ready en = true
  | Using e _ | Running e | Entering _ e => is_Some (sh_heap s !! e)
  | _ => True
  end.

(** An entry later. *)
Record entry_next (e e' : documentOwnershipRuntimeEntry) : Prop := {
  en_same_key : en_key e' = en_key e;
  en_stays_ready : en_ready e = true → en_ready e' = true;
  en_stays_done : en_done e = true → en_done e' = true;
  en_stays_owned : en_ownership e ≠ None → en_ownership e' ≠ None;
  en_stays_canceled : en_canceled e = true → en_canceled e' = true }.

Lemma entry_next_refl e : entry_next e e.
Proof. by split. Qed.

Lemma entry_next_trans e1 e2 e3 : entry_next e1 e2 → entry_next e2 e3 → entry_next e1 e3.
Proof. intros [] []. split; [congruence|auto..]. Qed.

(** A run is cancelled when its last reference goes, or with the runtime. *)
Record later (s s' : shared St) : Prop := {
  la_entry e en : sh_heap s !! e = Some en → ∃ en', sh_heap s' !! e = Some en' ∧ entry_next en en' ∧
    (en_canceled en = false → en_canceled en' = true → en_refs en' = 0 ∨ (sh_closed s = false ∧ sh_closed s' = true));
  la_closed : sh_closed s = true → sh_closed s' = true }.

Lemma later_same s s' : sh_heap s' = sh_heap s → sh_closed s' = sh_closed s → later s s'.
Proof. intros E1 E2. split; [|by rewrite E2]. intros e en He. exists en. rewrite E1. split_and!; [done|apply entry_next_refl|by intros ->]. Qed.

Lemma knows_later s s' h : later s s' → knows s h → knows s' h.
Proof.
  intros [L _]. destruct h as [|e p|e|handle e|]; cbn; try done.
  - destruct p; [intros [en He]|intros [en He]|intros (en & He & Hr)|intros (en & He & Hr)]; destruct (L _ _ He) as (en' & He' & [] & _); [by exists en'..| |]; exists en'; auto.
  - intros [en He]. destruct (L _ _ He) as (en' & He' & _). by exists en'.
  - intros [en He]. destruct (L _ _ He) as (en' & He' & _). by exists en'.
Qed.

Record counts_ok (ts : list (rio (result (option nat)))) (s : shared St) (hs : list hold) : Prop := {
  co_calls : Forall2 (λ m h, lp m (λ _ h, h = Idle) h) ts hs;
  co_entry e en : sh_heap s !! e = Some en → entry_ok en;
  co_map key e : sh_entries s !! key = Some e ↔ ∃ en, sh_heap s !! e = Some en ∧ en_key en = key ∧ en_done en = false;
  co_runs e : total (runs e) hs + going s e = running s e;
  co_refs e : sh_closed s = false → total (uses e) hs + total (unused e) (sh_handles s) = refs s e;
  co_once handle : total (inside handle) hs = entered s handle;
  co_known j h : hs !! j = Some h → knows s h;
  co_handles handle h : sh_handles s !! handle = Some h → owned s (ha_entry h) }.

Lemma counts_new s : counts_ok [] (Runtime_New s) [].
Proof.
  split; try done. intros key e. cbn. split; [by rewrite lookup_empty|]. by intros (en & He & _).
Qed.

Lemma counts_start m ts s hs : starts m → counts_ok ts s hs → counts_ok (ts ++ [m]) s (hs ++ [Idle]).
Proof.
  intros [q ->] [Hc He Hm Hr Hf Ho Hk Hh]. split; try done.
  - apply Forall2_app; [done|]. constructor; [apply call_disciplined|constructor].
  - intros e. rewrite total_app, <- Hr. change (total (runs e) [Idle]) with 0. lia.
  - intros e Hcl. rewrite total_app, <- Hf by done. change (total (uses e) [Idle]) with 0. lia.
  - intros handle. rewrite total_app, <- Ho. change (total (inside handle) [Idle]) with 0. lia.
  - intros j h [Hj|[_ Hj]]%lookup_app_Some; [by eapply Hk|]. by apply list_lookup_singleton_Some in Hj as [_ <-].
Qed.

(** One call takes an action: what it holds changes by what the state changes. *)
Lemma counts_change j m ts s s' hs h h' : counts_ok ts s hs → hs !! j = Some h → lp m (λ _ h, h = Idle) h' → later s s' →
  (∀ e en, sh_heap s' !! e = Some en → entry_ok en) →
  (∀ key e, sh_entries s' !! key = Some e ↔ ∃ en, sh_heap s' !! e = Some en ∧ en_key en = key ∧ en_done en = false) →
  (∀ e, runs e h' + going s' e - running s' e = runs e h + going s e - running s e) →
  (∀ e, sh_closed s' = false → uses e h' + total (unused e) (sh_handles s') - refs s' e = uses e h + total (unused e) (sh_handles s) - refs s e) →
  (∀ handle, inside handle h' - entered s' handle = inside handle h - entered s handle) →
  knows s' h' → (∀ handle x, sh_handles s' !! handle = Some x → owned s' (ha_entry x)) →
  counts_ok (<[j := m]> ts) s' (<[j := h']> hs).
Proof.
  intros [Hc He Hm Hr Hf Ho Hk Hh] Hj Hl L Xe Xm Xr Xf Xo Xk Xh. split; [by apply Forall2_insert|done|done|..|done].
  - intros e. rewrite (total_insert _ _ _ h) by done. specialize (Hr e). specialize (Xr e). lia.
  - intros e Hcl. rewrite (total_insert _ _ _ h) by done. assert (sh_closed s = false) as Hcl' by (destruct (sh_closed s) eqn:E; [by rewrite (la_closed _ _ L E) in Hcl|done]).
    specialize (Hf e Hcl'). specialize (Xf e Hcl). lia.
  - intros handle. rewrite (total_insert _ _ _ h) by done. specialize (Ho handle). specialize (Xo handle). lia.
  - intros j' h0 [(_ & <- & _)|[_ Hj']]%list_lookup_insert_Some; [done|]. eapply knows_later; [done|by eapply Hk].
Qed.

(** An action that leaves entries and handles alone. *)
Lemma counts_same j m ts s s' hs h h' : counts_ok ts s hs → hs !! j = Some h → lp m (λ _ h, h = Idle) h' →
  sh_closed s' = sh_closed s → sh_entries s' = sh_entries s → sh_heap s' = sh_heap s → sh_handles s' = sh_handles s → sh_go s' = sh_go s →
  (∀ e, runs e h' = runs e h) → (∀ e, uses e h' = uses e h) → (∀ handle, inside handle h' = inside handle h) → knows s h' →
  counts_ok (<[j := m]> ts) s' (<[j := h']> hs) ∧ later s s'.
Proof.
  intros Hok Hj Hl E1 E2 E3 E4 E5 W1 W2 W3 Hk. assert (later s s') as L by by apply later_same. split; [|done].
  eapply counts_change; [done..| | | | | | |]; unfold running, refs, going, entered, owned; rewrite ?E1, ?E2, ?E3, ?E4, ?E5; try apply Hok.
  - intros e. by rewrite W1.
  - intros e _. by rewrite W2.
  - intros handle. by rewrite W3.
  - by eapply knows_later.
Qed.

Lemma counts_quiet j m ts s s' hs h : counts_ok ts s hs → hs !! j = Some h → lp m (λ _ h, h = Idle) h →
  sh_closed s' = sh_closed s → sh_entries s' = sh_entries s → sh_heap s' = sh_heap s → sh_handles s' = sh_handles s → sh_go s' = sh_go s →
  counts_ok (<[j := m]> ts) s' hs ∧ later s s'.
Proof.
  intros Hok Hj Hl E1 E2 E3 E4 E5. rewrite <- (list_insert_id hs j h) by done. eapply counts_same; try done. by eapply co_known.
Qed.

Lemma on_entry_lookup f e (s : shared St) e' : sh_heap (on_entry f e s) !! e' = (if decide (e = e') then f else id) <$> sh_heap s !! e'.
Proof. cbn. destruct (decide (e = e')) as [->|Hne]; [apply list_lookup_alter_eq|]. rewrite list_lookup_alter_ne by done. by destruct (sh_heap s !! e'). Qed.

(** An action on an entry that does not end its run. *)
Lemma counts_entry f e x j m ts s hs h h' : counts_ok ts s hs → hs !! j = Some h → lp m (λ _ h, h = Idle) h' →
  sh_heap s !! e = Some x → entry_next x (f x) → en_done (f x) = en_done x → entry_ok (f x) →
  (en_canceled x = false → en_canceled (f x) = true → en_refs (f x) = 0) →
  (∀ e', runs e' h' = runs e' h) → (∀ e', sh_closed s = false → uses e' h' = uses e' h + (if decide (e = e') then en_refs (f x) - en_refs x else 0)) →
  (∀ handle, inside handle h' = inside handle h) → knows (on_entry f e s) h' →
  counts_ok (<[j := m]> ts) (on_entry f e s) (<[j := h']> hs) ∧ later s (on_entry f e s).
Proof.
  intros Hok Hj Hl Hx Hn Hd Hex Hcan W1 W2 W3 Hk.
  assert (later s (on_entry f e s)) as L.
  { split; [|done]. intros e' en He'. rewrite on_entry_lookup, He'. eexists. split; [done|]. destruct (decide (e = e')) as [<-|Hne]; [|cbn; split; [apply entry_next_refl|by intros ->]].
    rewrite Hx in He'. injection He' as <-. split; [done|]. intros. left. by apply Hcan. }
  split; [|done]. eapply counts_change; [done..| | | | | | |].
  - intros e' en. rewrite on_entry_lookup. destruct (decide (e = e')) as [<-|]; [rewrite Hx; by intros [= <-]|]. rewrite option_fmap_id. apply Hok.
  - intros key e'. change (sh_entries (on_entry f e s)) with (sh_entries s). rewrite (co_map _ _ _ Hok), on_entry_lookup. destruct (decide (e = e')) as [<-|]; [|by rewrite option_fmap_id].
    rewrite Hx. cbn. split; intros (en & [= <-] & Hkey & Hden); eexists; (split; [done|]).
    + by rewrite (en_same_key _ _ Hn), Hd.
    + by rewrite (en_same_key _ _ Hn) in Hkey; rewrite Hd in Hden.
  - intros e'. rewrite W1. unfold running. rewrite on_entry_lookup. change (going (on_entry f e s) e') with (going s e').
    destruct (decide (e = e')) as [<-|]; [rewrite Hx; cbn; by rewrite Hd|by rewrite option_fmap_id].
  - intros e' Hcl. rewrite W2 by done. unfold refs. rewrite on_entry_lookup. cbn [sh_handles on_entry with_heap]. destruct (decide (e = e')) as [<-|]; [rewrite Hx; cbn; lia|rewrite option_fmap_id; lia].
  - intros handle. by rewrite W3.
  - done.
  - intros handle y Hy. destruct (co_handles _ _ _ Hok handle y Hy) as (en & He & Ho). destruct (la_entry _ _ L _ _ He) as (en' & He' & Hn' & _).
    exists en'. split; [done|]. by apply Hn'.
Qed.

(** A weight of a call is at most what all have. *)
Lemma runs_one ts s hs j h e : counts_ok ts s hs → hs !! j = Some h → runs e h = 1 → running s e = 1 ∧ going s e = 0.
Proof.
  intros Hok Hj Hh. pose proof (co_runs _ _ _ Hok e) as E. assert (runs e h <= total (runs e) hs) as Hle.
  { apply (total_pos _ _ j); [|done]. intros [|? []| | |]; cbn; repeat case_decide; lia. }
  unfold running, going in *. repeat case_match; lia.
Qed.

Lemma uses_one ts s hs j h e : counts_ok ts s hs → hs !! j = Some h → uses e h = 1 → sh_closed s = false → 0 < refs s e.
Proof.
  intros Hok Hj Hh Hcl. pose proof (co_refs _ _ _ Hok e Hcl) as E. assert (uses e h <= total (uses e) hs) as Hle.
  { apply (total_pos _ _ j); [|done]. intros []; cbn; repeat case_decide; lia. }
  assert (0 <= total (unused e) (sh_handles s)) by (apply total_nonneg; intros [? []]; cbn; repeat case_decide; lia). lia.
Qed.

Lemma unused_nonneg e (l : list DocumentOwnershipHandle) : 0 <= total (unused e) l.
Proof. apply total_nonneg. intros [? []]; cbn; repeat case_decide; lia. Qed.

Lemma step_acquire j (k : result (nat * bool) → rio (result (option nat))) key ts (s : shared St) hs : counts_ok ts s hs → hs !! j = Some Idle →
  (∀ x, lp (k x) (λ (_ : result (option nat)) h, h = Idle) (match x with Ok (e, created) => Using e (if created then New else Waiting) | Err _ => Idle end)) →
  ∃ h', counts_ok (<[j := k (acquireEntry key s).1]> ts) (acquireEntry key s).2 (<[j := h']> hs) ∧ later s (acquireEntry key s).2.
Proof.
  intros Hok Hj Hk. unfold acquireEntry. destruct (sh_closed s) eqn:Hcl.
  { eexists. eapply counts_same; try done; apply Hk. }
  destruct (sh_entries s !! key) as [e|] eqn:Ee.
  - apply (co_map _ _ _ Hok) in Ee as (x & Hx & Hkey & Hd). pose proof (eo_refs _ (co_entry _ _ _ Hok _ _ Hx)) as Hpos. exists (Using e Waiting).
    apply (counts_entry _ e x j (k (Ok (e, false))) ts s hs Idle (Using e Waiting)); try done.
    + destruct (co_entry _ _ _ Hok _ _ Hx). split; cbn; [done|done|lia].
    + cbn. by intros ->.
    + intros e' _. cbn. case_decide; lia.
    + cbn. exists (set_refs (en_refs x + 1) (en_canceled x) x). by rewrite list_lookup_alter_eq, Hx.
  - set (e := length (sh_heap s)). set (s' := mkShared _ _ _ _ _ _). exists (Using e New).
    assert (∀ e', sh_heap s' !! e' = if decide (e' = e) then Some (newEntry key) else sh_heap s !! e') as Hheap.
    { intros e'. cbn. destruct (decide (e' = e)) as [->|Hne]; [by rewrite list_lookup_middle|]. destruct (decide (e' < e)%nat); [by rewrite lookup_app_l|].
      rewrite !lookup_ge_None_2 by (rewrite ?length_app; cbn; lia). done. }
    assert (sh_heap s !! e = None) as Hnone by by apply lookup_ge_None_2.
    assert (later s s') as L.
    { split; [|by rewrite Hcl]. intros e' en He'. exists en. rewrite Hheap. case_decide as E; [by subst e'; rewrite Hnone in He'|].
      split_and!; [done|apply entry_next_refl|by intros ->]. }
    cbn [fst snd]. split; [|done]. eapply counts_change; [done..|apply (Hk (Ok (e, true)))| | | | | | | |]; [done|..].
    + intros e' en. rewrite Hheap. case_decide; [intros [= <-]; by split|apply Hok].
    + intros key' e'. rewrite Hheap. cbn [sh_entries s']. destruct (decide (key' = key)) as [->|Hne].
      * rewrite lookup_insert_eq. split; [intros [= <-]; rewrite decide_True by done; by exists (newEntry key)|]. intros (en & He & Hkey & Hd). f_equal.
        case_decide as E; [done|]. assert (sh_entries s !! key = Some e') by (apply (co_map _ _ _ Hok); eauto). congruence.
      * rewrite lookup_insert_ne by done. rewrite (co_map _ _ _ Hok). case_decide as E; [subst e'|done]. rewrite Hnone. split; [by intros (? & [=] & _)|]. by intros (en & [= <-] & Hkey & _).
    + intros e'. unfold running. rewrite Hheap. change (going s' e') with (going s e'). cbn [runs]. case_decide as E; [subst e'; rewrite decide_True, Hnone by done; cbn; lia|].
      rewrite decide_False by congruence. done.
    + intros e' _. unfold refs. rewrite Hheap. cbn [uses sh_handles s']. case_decide as E; [subst e'; rewrite decide_True, Hnone by done; cbn; lia|].
      rewrite decide_False by congruence. done.
    + done.
    + cbn [knows]. rewrite Hheap, decide_True by done. by eexists.
    + intros handle x Hx. destruct (co_handles _ _ _ Hok handle x Hx) as (en & He & Ho). destruct (la_entry _ _ L _ _ He) as (en' & He' & Hn' & _).
      exists en'. split; [done|]. by apply Hn'.
Qed.

(** The goroutines, with the entries as they are. *)
Lemma counts_go j m ts s hs h h' go : counts_ok ts s hs → hs !! j = Some h → lp m (λ _ h, h = Idle) h' →
  (∀ e, runs e h' + match go !! e with Some _ => 1 | None => 0 end = runs e h + going s e) →
  (∀ e, uses e h' = uses e h) → (∀ handle, inside handle h' = inside handle h) → knows s h' →
  counts_ok (<[j := m]> ts) (with_go go s) (<[j := h']> hs) ∧ later s (with_go go s).
Proof.
  intros Hok Hj Hl W1 W2 W3 Hk. assert (later s (with_go go s)) as L by by apply later_same. split; [|done].
  eapply counts_change; [done..| | | | | | |]; try apply Hok.
  - intros e. specialize (W1 e). unfold going at 1. cbn [with_go sh_go]. change (running (with_go go s) e) with (running s e). lia.
  - intros e _. by rewrite W2.
  - intros handle. by rewrite W3.
  - done.
Qed.

Lemma step_go j m e req ts s hs : counts_ok ts s hs → hs !! j = Some (Using e New) → lp m (λ _ h, h = Idle) (Using e Waiting) →
  counts_ok (<[j := m]> ts) (with_go (<[e := req]> (sh_go s)) s) (<[j := Using e Waiting]> hs) ∧ later s (with_go (<[e := req]> (sh_go s)) s).
Proof.
  intros Hok Hj Hl. destruct (runs_one _ _ _ _ _ e Hok Hj) as [_ Hgo]; [cbn; by rewrite decide_True|]. eapply counts_go; try done; [|by apply (co_known _ _ _ Hok _ _ Hj)].
  intros e'. unfold going in *. cbn [runs]. destruct (decide (e = e')) as [<-|Hne]; [by rewrite lookup_insert_eq, Hgo|by rewrite lookup_insert_ne].
Qed.

Lemma step_begin j (k : option ClaimDocumentRequest → rio (result (option nat))) e ts s hs : counts_ok ts s hs → hs !! j = Some Idle →
  (∀ x, lp (k x) (λ _ h, h = Idle) (match x with Some _ => Running e | None => Idle end)) →
  ∃ h', counts_ok (<[j := k (sh_go s !! e)]> ts) (with_go (delete e (sh_go s)) s) (<[j := h']> hs) ∧ later s (with_go (delete e (sh_go s)) s).
Proof.
  intros Hok Hj Hl. eexists. eapply counts_go; [done..|apply Hl| | | |].
  - intros e'. unfold going. destruct (sh_go s !! e) as [req|] eqn:Eg; cbn [runs].
    + destruct (decide (e = e')) as [<-|Hne]; [by rewrite lookup_delete_eq, Eg|by rewrite lookup_delete_ne].
    + destruct (decide (e = e')) as [<-|Hne]; [by rewrite lookup_delete_eq, Eg|by rewrite lookup_delete_ne].
  - intros e'. by destruct (sh_go s !! e).
  - intros handle. by destruct (sh_go s !! e).
  - destruct (sh_go s !! e) as [req|] eqn:Eg; [|done]. cbn. pose proof (co_runs _ _ _ Hok e) as E. unfold going, running in E. rewrite Eg in E.
    destruct (sh_heap s !! e); [by eexists|]. assert (0 <= total (runs e) hs) by (apply total_nonneg; intros [|? []| | |]; cbn; repeat case_decide; lia). lia.
Qed.

(** The handles, with the entries as they are. *)
Lemma counts_handles j m ts s hs h h' handles : counts_ok ts s hs → hs !! j = Some h → lp m (λ _ h, h = Idle) h' →
  (∀ e, runs e h' = runs e h) → (∀ e, uses e h' + total (unused e) handles = uses e h + total (unused e) (sh_handles s)) →
  (∀ handle, inside handle h' - entered (with_handles handles s) handle = inside handle h - entered s handle) → knows s h' →
  (∀ handle x, handles !! handle = Some x → owned s (ha_entry x)) →
  counts_ok (<[j := m]> ts) (with_handles handles s) (<[j := h']> hs) ∧ later s (with_handles handles s).
Proof.
  intros Hok Hj Hl W1 W2 W3 Hk Hh. assert (later s (with_handles handles s)) as L by by apply later_same. split; [|done].
  eapply counts_change; [done..| | | | | | |]; try apply Hok; try done.
  - intros e. rewrite W1. done.
  - intros e _. specialize (W2 e). change (refs (with_handles handles s) e) with (refs s e). cbn [with_handles sh_handles]. lia.
Qed.

Lemma step_handle j m e ts s hs : counts_ok ts s hs → hs !! j = Some (Using e Owned) → lp m (λ _ h, h = Idle) Idle →
  counts_ok (<[j := m]> ts) (with_handles (sh_handles s ++ [mkHandle e Unused]) s) (<[j := Idle]> hs) ∧
  later s (with_handles (sh_handles s ++ [mkHandle e Unused]) s).
Proof.
  intros Hok Hj Hl. eapply counts_handles; try done.
  - intros e'. rewrite total_app. cbn [uses]. change (total (unused e') [mkHandle e Unused]) with ((if decide (e = e') then 1 else 0) + 0). lia.
  - intros handle. unfold entered. cbn [inside with_handles sh_handles]. destruct (decide (handle < length (sh_handles s))%nat); [by rewrite lookup_app_l|].
    rewrite (lookup_ge_None_2 (sh_handles s)) by lia. destruct (decide (handle = length (sh_handles s))) as [->|]; [by rewrite list_lookup_middle|].
    rewrite lookup_ge_None_2 by (rewrite length_app; cbn; lia). done.
  - intros handle x [Hx|[_ Hx]]%lookup_app_Some; [by eapply co_handles|]. apply list_lookup_singleton_Some in Hx as [_ <-]. by apply (co_known _ _ _ Hok _ _ Hj).
Qed.

Lemma step_leave j m handle err ts s hs : counts_ok ts s hs → hs !! j = Some (Leaving handle) → lp m (λ _ h, h = Idle) Idle →
  let s' := with_handles (alter (λ h, mkHandle (ha_entry h) (Over err)) handle (sh_handles s)) s in
  counts_ok (<[j := m]> ts) s' (<[j := Idle]> hs) ∧ later s s'.
Proof.
  intros Hok Hj Hl s'. assert (entered s handle = 1) as He.
  { rewrite <- (co_once _ _ _ Hok). assert (inside handle (Leaving handle) <= total (inside handle) hs) as Hle.
    { apply (total_pos _ _ j); [|done]. intros []; cbn; repeat case_decide; lia. }
    cbn in Hle. rewrite decide_True in Hle by done. rewrite (co_once _ _ _ Hok) in *. unfold entered in *. repeat case_match; lia. }
  unfold entered in He. destruct (sh_handles s !! handle) as [[e []]|] eqn:Eh; try done.
  assert (alter (λ h, mkHandle (ha_entry h) (Over err)) handle (sh_handles s) = <[handle := mkHandle e (Over err)]> (sh_handles s)) as Ea.
  { apply list_eq. intros i. destruct (decide (handle = i)) as [<-|Hne]; [|by rewrite list_lookup_alter_ne, list_lookup_insert_ne].
    rewrite list_lookup_alter_eq, Eh, list_lookup_insert_eq by by eapply lookup_lt_Some. done. }
  subst s'. rewrite Ea. eapply counts_handles; try done.
  - intros e'. rewrite (total_insert _ _ _ (mkHandle e Entered)) by done. cbn. lia.
  - intros handle'. unfold entered. cbn [inside with_handles sh_handles]. destruct (decide (handle = handle')) as [<-|Hne].
    + rewrite Eh, list_lookup_insert_eq by by eapply lookup_lt_Some. done.
    + by rewrite list_lookup_insert_ne.
  - intros handle' x [(<- & <- & _)|[_ Hx]]%list_lookup_insert_Some; [by apply (co_handles _ _ _ Hok handle (mkHandle e Entered))|by eapply co_handles].
Qed.

Lemma step_enter j (k : nat + option error → rio (result (option nat))) handle ts s hs : counts_ok ts s hs → hs !! j = Some Idle →
  (∀ e, sh_handles s !! handle ≠ Some (mkHandle e Entered)) →
  (∀ x, lp (k x) (λ _ h, h = Idle) (match x with inl e => Entering handle e | inr _ => Idle end)) →
  let a := match sh_handles s !! handle with
           | Some (mkHandle entry Unused) => (inl entry, with_handles (<[handle := mkHandle entry Entered]> (sh_handles s)) s)
           | Some (mkHandle _ (Over err)) => (inr err, s)
           | _ => (inr None, s)
           end in
  ∃ h', counts_ok (<[j := k a.1]> ts) a.2 (<[j := h']> hs) ∧ later s a.2.
Proof.
  intros Hok Hj He Hl. destruct (sh_handles s !! handle) as [[e [| |err]]|] eqn:Eh; cbn zeta; cbn [fst snd].
  2: by destruct (He e).
  2, 3: eexists; by eapply counts_same; try done; apply Hl.
  exists (Entering handle e). eapply counts_handles; try done.
  3: by destruct (co_handles _ _ _ Hok _ _ Eh) as (en & He' & _); exists en.
  - intros e'. rewrite (total_insert _ _ _ (mkHandle e Unused)) by done. cbn. lia.
  - intros handle'. unfold entered. cbn [inside with_handles sh_handles]. destruct (decide (handle = handle')) as [<-|Hne].
    + rewrite Eh, list_lookup_insert_eq by by eapply lookup_lt_Some. done.
    + by rewrite list_lookup_insert_ne.
  - intros handle' x [(<- & <- & _)|[_ Hx]]%list_lookup_insert_Some; [by apply (co_handles _ _ _ Hok handle (mkHandle e Unused))|by eapply co_handles].
Qed.

Lemma step_finish j m e err ts s hs : counts_ok ts s hs → hs !! j = Some (Running e) → lp m (λ _ h, h = Idle) Idle →
  let s' := on_entry (finishEntry err) e (remove_entry e s) in counts_ok (<[j := m]> ts) s' (<[j := Idle]> hs) ∧ later s s'.
Proof.
  intros Hok Hj Hl s'. destruct (runs_one _ _ _ _ _ e Hok Hj) as [Hr _]; [cbn; by rewrite decide_True|]. unfold running in Hr.
  destruct (sh_heap s !! e) as [x|] eqn:Hx; [|done]. destruct (en_done x) eqn:Hd; [done|]. assert (sh_entries s !! en_key x = Some e) as Hmap by (apply (co_map _ _ _ Hok); eauto).
  assert (s' = on_entry (finishEntry err) e (mkShared (sh_closed s) (delete (en_key x) (sh_entries s)) (sh_heap s) (sh_handles s) (sh_go s) (sh_storage s))) as E.
  { subst s'. unfold remove_entry, entry_at. rewrite Hx. cbn [default from_option id]. by rewrite bool_decide_true. }
  clearbody s'. subst s'. set (s0 := mkShared _ _ _ _ _ _).
  assert (∀ e', sh_heap (on_entry (finishEntry err) e s0) !! e' = (if decide (e = e') then finishEntry err else id) <$> sh_heap s !! e') as Hheap by (intros e'; apply (on_entry_lookup (finishEntry err) e s0)).
  assert (later s (on_entry (finishEntry err) e s0)) as L.
  { split; [|done]. intros e' en He'. rewrite Hheap, He'. eexists. split; [done|]. destruct (decide (e = e')); cbn; [|by split; [apply entry_next_refl|intros ->]].
    split; [by split|by intros ->]. }
  split; [|done]. eapply counts_change; [done..| | | | | | |].
  - intros e' en. rewrite Hheap. destruct (decide (e = e')) as [<-|]; [|rewrite option_fmap_id; apply Hok]. rewrite Hx. intros [= <-]. destruct (co_entry _ _ _ Hok _ _ Hx). by split.
  - intros key e'. change (sh_entries (on_entry (finishEntry err) e s0)) with (delete (en_key x) (sh_entries s)). rewrite Hheap. destruct (decide (e = e')) as [<-|Hne].
    + rewrite Hx. split; [|by intros (en & [= <-] & _ & [=])]. intros [Hne (en & He & Hkey & _)%(co_map _ _ _ Hok)]%lookup_delete_Some. congruence.
    + rewrite option_fmap_id, <- (co_map _ _ _ Hok). split; [by intros [_ ?]%lookup_delete_Some|]. intros He'. apply lookup_delete_Some. split; [|done]. congruence.
  - intros e'. unfold running. rewrite Hheap. change (going (on_entry (finishEntry err) e s0) e') with (going s e'). cbn [runs]. destruct (decide (e = e')) as [<-|Hne].
    + rewrite Hx, Hd. cbn. lia.
    + by rewrite option_fmap_id.
  - intros e' _. unfold refs. rewrite Hheap. cbn [uses on_entry with_heap sh_handles s0]. destruct (decide (e = e')) as [<-|Hne]; [by rewrite Hx|by rewrite option_fmap_id].
  - done.
  - done.
  - intros handle y Hy. destruct (co_handles _ _ _ Hok handle y Hy) as (en & He & Ho). destruct (la_entry _ _ L _ _ He) as (en' & He' & Hn' & _).
    exists en'. split; [done|]. by apply Hn'.
Qed.

Lemma alter_all_lookup {A} (f : A → A) (l : list A) entries e : (∀ x, f (f x) = f x) →
  foldr (alter f) l entries !! e = (if decide (e ∈ entries) then f else id) <$> l !! e.
Proof.
  intros Hf. induction entries as [|e' entries IH]; cbn [foldr]; [by rewrite decide_False, option_fmap_id by apply not_elem_of_nil|].
  destruct (decide (e' = e)) as [->|Hne].
  - rewrite list_lookup_alter_eq, IH, (decide_True (P := e ∈ e :: entries)) by by left. destruct (decide (e ∈ entries)); [|by rewrite option_fmap_id]. destruct (l !! e); cbn; [by rewrite Hf|done].
  - rewrite list_lookup_alter_ne, IH by done. destruct (decide (e ∈ entries)); [by rewrite (decide_True (P := e ∈ e' :: entries)) by by right|rewrite (decide_False (P := e ∈ e' :: entries)); [done|]].
    rewrite elem_of_cons. by intros [->|].
Qed.

Lemma step_close j (k : option (list nat) → rio (result (option nat))) ts (s : shared St) hs : counts_ok ts s hs → hs !! j = Some Idle →
  (∀ x, lp (k x) (λ _ h, h = Idle) Idle) →
  counts_ok (<[j := k (close_all order s).1]> ts) (close_all order s).2 (<[j := Idle]> hs) ∧ later s (close_all order s).2.
Proof.
  intros Hok Hj Hl. unfold close_all. destruct (sh_closed s) eqn:Hcl; [by eapply counts_same; try done; apply Hl|]. cbn [fst snd]. set (s' := mkShared _ _ _ _ _ _).
  assert (∀ e, sh_heap s' !! e = (if decide (e ∈ order (sh_entries s)) then set_refs 0 true else id) <$> sh_heap s !! e) as Hheap by (intros; by apply alter_all_lookup).
  assert (later s s') as L.
  { split; [|done]. intros e en He. rewrite Hheap, He. eexists. split; [done|]. split; [|by right]. destruct (decide _); [by split|apply entry_next_refl]. }
  split; [|done]. eapply counts_change; [done..|apply Hl|done| | | | | | |].
  - intros e en. rewrite Hheap. destruct (decide _); [|rewrite option_fmap_id; apply Hok]. destruct (sh_heap s !! e) as [x|] eqn:Hx; [|done]. intros [= <-].
    destruct (co_entry _ _ _ Hok _ _ Hx). by split.
  - intros key e. change (sh_entries s') with (sh_entries s). rewrite (co_map _ _ _ Hok), Hheap. destruct (decide _); [|by rewrite option_fmap_id].
    split; [intros (en & -> & ? & ?); by exists (set_refs 0 true en)|]. destruct (sh_heap s !! e) as [x|]; [|by intros (? & [=] & _)]. intros (en & [= <-] & ? & ?). by exists x.
  - intros e. unfold running. rewrite Hheap. change (going s' e) with (going s e). destruct (decide _); [|by rewrite option_fmap_id]. by destruct (sh_heap s !! e).
  - done.
  - done.
  - done.
  - intros handle y Hy. destruct (co_handles _ _ _ Hok handle y Hy) as (en & He & Ho). destruct (la_entry _ _ L _ _ He) as (en' & He' & Hn' & _).
    exists en'. split; [done|]. by apply Hn'.
Qed.

Lemma step_drop j m e ts s hs h h' : counts_ok ts s hs → hs !! j = Some h → lp m (λ _ h, h = Idle) h' →
  ((∃ p, p ≠ New ∧ h = Using e p) ∧ h' = Idle ∨ ∃ handle, h = Entering handle e ∧ h' = Leaving handle) →
  is_Some (sh_heap s !! e) → counts_ok (<[j := m]> ts) (on_entry dropRef e s) (<[j := h']> hs) ∧ later s (on_entry dropRef e s).
Proof.
  intros Hok Hj Hl Hh [x Hx]. destruct (co_entry _ _ _ Hok _ _ Hx) as [E1 E2 E3]. apply (counts_entry _ e x j m ts s hs h h'); try done.
  - split; cbn; try done. by intros ->.
  - split; cbn; [done|done|]. destruct (Z.ltb_spec 0 (en_refs x)); lia.
  - cbn. intros -> [=H1]. by apply Z.eqb_eq.
  - intros e'. destruct Hh as [[(p & Hp & ->) ->]|(handle & -> & ->)]; [by destruct p|done].
  - intros e' Hcl. assert (0 < en_refs x) as Hpos.
    { pose proof (uses_one _ _ _ _ _ e Hok Hj) as Hu. unfold refs in Hu. rewrite Hx in Hu. apply Hu; [|done].
      destruct Hh as [[(p & Hp & ->) _]|(handle & -> & _)]; cbn; by rewrite decide_True. }
    cbn. rewrite (proj2 (Z.ltb_lt _ _)) by done. destruct Hh as [[(p & Hp & ->) ->]|(handle & -> & ->)]; cbn; repeat case_decide; lia.
  - intros handle'. destruct Hh as [[(p & Hp & ->) ->]|(handle & -> & ->)]; done.
  - destruct Hh as [[_ ->]|(handle & _ & ->)]; done.
Qed.

Lemma step_mark j m e ownership ts s hs : counts_ok ts s hs → hs !! j = Some (Running e) → lp m (λ _ h, h = Idle) (Running e) →
  counts_ok (<[j := m]> ts) (on_entry (markEntryReady ownership) e s) (<[j := Running e]> hs) ∧ later s (on_entry (markEntryReady ownership) e s).
Proof.
  intros Hok Hj Hl. destruct (co_known _ _ _ Hok _ _ Hj) as [x Hx]. pose proof (co_entry _ _ _ Hok _ _ Hx) as Hex.
  apply (counts_entry _ e x j m ts s hs (Running e) (Running e)); try done; unfold markEntryReady.
  - destruct (en_ready x) eqn:Er; [apply entry_next_refl|]. by split.
  - by destruct (en_ready x).
  - destruct (en_ready x) eqn:Er; [done|]. destruct Hex as [E1 E2 E3]. by split.
  - by destruct (en_ready x); cbn; intros ->.
  - intros e' _. cbn [uses]. destruct (en_ready x); cbn; case_decide; lia.
  - cbn. rewrite list_lookup_alter_eq, Hx. by eexists.
Qed.

Lemma step_update j m e lease ts s hs : counts_ok ts s hs → hs !! j = Some (Running e) → lp m (λ _ h, h = Idle) (Running e) →
  counts_ok (<[j := m]> ts) (on_entry (updateEntryLease lease) e s) (<[j := Running e]> hs) ∧ later s (on_entry (updateEntryLease lease) e s).
Proof.
  intros Hok Hj Hl. destruct (co_known _ _ _ Hok _ _ Hj) as [x Hx]. pose proof (co_entry _ _ _ Hok _ _ Hx) as Hex.
  apply (counts_entry _ e x j m ts s hs (Running e) (Running e)); try done; unfold updateEntryLease.
  - destruct (en_ownership x) eqn:Eo; [by split|apply entry_next_refl].
  - by destruct (en_ownership x).
  - destruct (en_ownership x) eqn:Eo; [|done]. destruct Hex as [E1 E2 E3]. by split.
  - by destruct (en_ownership x); cbn; intros ->.
  - intros e' _. cbn [uses]. destruct (en_ownership x); cbn; case_decide; lia.
  - cbn. rewrite list_lookup_alter_eq, Hx. by eexists.
Qed.

Lemma step_read j (k : documentOwnershipRuntimeEntry → rio (result (option nat))) e ts s hs h : counts_ok ts s hs → hs !! j = Some h →
  (∀ x, (h = Using e Ready → entry_ok x ∧ en_ready x = true) →
    lp (k x) (λ _ h, h = Idle) (match h, en_ownership x with Using e' Ready, Some _ => if decide (e' = e) then Using e Owned else h | _, _ => h end)) →
  ∃ h', counts_ok (<[j := k (entry_at s e)]> ts) s (<[j := h']> hs) ∧ later s s.
Proof.
  intros Hok Hj Hl. assert (h = Using e Ready → ∃ x, sh_heap s !! e = Some x ∧ entry_at s e = x ∧ entry_ok x ∧ en_ready x = true) as Hr.
  { intros ->. destruct (co_known _ _ _ Hok _ _ Hj) as (x & Hx & Hr). exists x. unfold entry_at. rewrite Hx. split_and!; try done. by apply (co_entry _ _ _ Hok e). }
  assert (lp (k (entry_at s e)) (λ _ h, h = Idle) h ∨ (h = Using e Ready ∧ lp (k (entry_at s e)) (λ _ h, h = Idle) (Using e Owned) ∧ owned s e)) as Hcase.
  { specialize (Hl (entry_at s e)). destruct (decide (h = Using e Ready)) as [->|Hne].
    - destruct (Hr eq_refl) as (x & Hx & Ex & Hok' & Hr'). rewrite Ex in *. destruct (en_ownership x) as [o|] eqn:Eo; [right|left; by apply Hl].
      rewrite decide_True in Hl by done. split_and!; [done|by apply Hl|]. exists x. by rewrite Eo.
    - left. assert (h ≠ Using e Ready) as Hn by done. specialize (Hl (λ E, False_ind _ (Hn E))). destruct h as [|e' []| | |]; try done. destruct (en_ownership _); [|done].
      rewrite decide_False in Hl by congruence. done. }
  destruct Hcase as [Hm|(-> & Hm & Ho)].
  - exists h. rewrite (list_insert_id hs j h) by done. by eapply counts_quiet.
  - exists (Using e Owned). by eapply counts_same.
Qed.

Lemma counts_step c c' hs : counts_ok c.1 c.2 hs → acts c c' → ∃ hs', counts_ok c'.1 c'.2 hs' ∧ later c.2 c'.2.
Proof.
  intros Hok Hs. destruct Hs as [j a k i ts s Hj He]. cbn [fst snd] in *. destruct (Forall2_lookup_l _ _ _ _ _ (co_calls _ _ _ Hok) Hj) as (h & Hh & Hm).
  destruct a; cbn in Hm, He.
  - exists hs. by eapply counts_quiet.
  - exists hs. by eapply counts_quiet.
  - destruct Hm as [-> Hm]. destruct (step_acquire j k key ts s hs Hok Hh Hm) as (h' & ?). by eexists.
  - destruct Hm as [-> Hm]. eexists. by apply (step_go j (k tt) entry req).
  - destruct Hm as [-> Hm]. destruct (step_begin j k entry ts s hs Hok Hh Hm) as (h' & ?). by eexists.
  - destruct Hm as [-> Hm]. specialize (Hm gives_up). exists (<[j := match gives_up with Some _ => Using entry Waiting | None => Using entry Ready end]> hs). eapply counts_same; try done; try by destruct gives_up.
    destruct (co_known _ _ _ Hok _ _ Hh) as [x Hx]. cbn. destruct gives_up; [by exists x|]. exists x. split; [done|]. destruct He as [[]|He]; [done|].
    unfold entry_at in He. by rewrite Hx in He.
  - destruct Hm as [_ Hm]. exists hs. by eapply counts_quiet.
  - destruct (step_read j k entry ts s hs h Hok Hh Hm) as (h' & ?). by eexists.
  - destruct Hm as [-> Hm]. eexists. by apply (step_handle j (k _) entry).
  - destruct Hm as [-> Hm]. eexists. by apply (step_mark j (k tt) entry).
  - destruct Hm as [-> Hm]. eexists. by apply (step_update j (k tt) entry).
  - destruct Hm as [-> Hm]. eexists. by apply (step_finish j (k tt) entry).
  - destruct Hm as [[(p & Hp & ->) Hm]|(handle & -> & Hm)]; eexists.
    + eapply (step_drop j (k _) entry ts s hs (Using entry p) Idle); try done; [left; by eauto|]. pose proof (co_known _ _ _ Hok _ _ Hh) as Hx. destruct p; cbn in Hx; destruct Hx as [x Hx]; try done; by destruct Hx as [-> _].
    + eapply (step_drop j (k _) entry ts s hs (Entering handle entry) (Leaving handle)); try done; [right; by eauto|]. by apply (co_known _ _ _ Hok _ _ Hh).
  - destruct Hm as [-> Hm]. destruct (step_enter j k handle ts s hs Hok Hh He Hm) as (h' & ?). by eexists.
  - destruct Hm as [-> Hm]. eexists. by apply (step_leave j (k tt) handle err).
  - destruct Hm as [-> Hm]. eexists. by apply (step_close j k).
Qed.

Lemma counts_pool_step c c' hs : counts_ok c.1 c.2 hs → step c c' → ∃ hs', counts_ok c'.1 c'.2 hs' ∧ later c.2 c'.2.
Proof. intros Hok Hs; destruct Hs as [m ts w Hm|c c' Hs]; [|by eapply counts_step]. exists (hs ++ [Idle]). split; [by apply (counts_start m)|by apply later_same]. Qed.

Lemma counts_reached st ts s : rtc step ([], Runtime_New st) (ts, s) → ∃ hs, counts_ok ts s hs.
Proof.
  intros Hs. assert (∀ c, rtc step c (ts, s) → (∃ hs, counts_ok c.1 c.2 hs) → ∃ hs, counts_ok ts s hs) as Hrun; [|apply (Hrun _ Hs); exists []; apply counts_new].
  clear Hs. intros c Hs. remember (ts, s) as c' eqn:E. revert E. induction Hs as [c|c1 c2 c3 H12 _ IH]; intros E [hs Hok]; [by rewrite E in Hok; eexists|].
  apply IH; [done|]. destruct (counts_pool_step _ _ _ Hok H12) as (hs2 & Hok2 & _). by exists hs2.
Qed.

(** ** Properties *)

Definition returned (m : rio (result (option nat))) : bool := match m with Ret _ => true | _ => false end.


(** A call that has yet to run an entry never waits. *)
Lemma runner_enabled {A} a (k : runtime_reply a → rio A) Q h e (s : shared St) : runs e h = 1 → lp (Act a k) Q h → runtime_enabled a s.
Proof.
  destruct h as [|e' []|e'| |]; try done; intros _; cbn; destruct a; cbn; try done; try (by intros [? _]); by intros [[?|[? ?]] _].
Qed.

Lemma runner_acts ts s hs e : counts_ok ts s hs → total (runs e) hs ≠ 0 → ∃ c, acts (ts, s) c.
Proof.
  intros Hok Ht. destruct (total_some (runs e) hs) as (j & h & Hj & Hh); [|done|].
  { intros [|? []| | |]; cbn; repeat case_decide; auto. }
  destruct (Forall2_lookup_r _ _ _ _ _ (co_calls _ _ _ Hok) Hj) as (m & Hm & Hl). destruct m as [x|a k]; [by cbn in Hl; subst h|].
  eexists. apply (act_step_intro runtime_enabled j a k (mkInstant None 0)); [done|]. by eapply runner_enabled.
Qed.

Lemma unfinished_acts ts s hs e : counts_ok ts s hs → (∀ e, sh_go s !! e = None) → en_done (entry_at s e) = false → ∃ c, acts (ts, s) c.
Proof.
  intros Hok Hgo Hd. apply (runner_acts ts s hs e); [done|]. pose proof (co_runs _ _ _ Hok e) as E. unfold going, running, entry_at in *. rewrite Hgo in E.
  destruct (sh_heap s !! e) as [x|]; [|done]. cbn in Hd. rewrite Hd in E. lia.
Qed.

Lemma blocked_acts ts s hs j a k : counts_ok ts s hs → (∀ e, sh_go s !! e = None) → ts !! j = Some (Act a k) → ∃ c, acts (ts, s) c.
Proof.
  intros Hok Hgo Hj.
  assert (∀ j a k, ts !! j = Some (Act a k) → (∀ handle, a ≠ OnceEnter handle) → ∃ c, acts (ts, s) c) as Hwait.
  { clear j a k Hj. intros j a k Hj Hne. assert (runtime_enabled a s → ∃ c, acts (ts, s) c) as Hen by (intros; eexists; by apply (act_step_intro runtime_enabled j a k (mkInstant None 0))).
    destruct a; try (by apply Hen); [| |by destruct (Hne handle)].
    - destruct gives_up as [err|]; [apply Hen; left; by eexists|]. destruct (en_ready (entry_at s entry)) eqn:Er; [apply Hen; by right|].
      apply (unfinished_acts ts s hs entry); [done..|]. unfold entry_at in *. destruct (sh_heap s !! entry) as [x|] eqn:Hx; [|done]. cbn in *.
      destruct (en_done x) eqn:Ed; [|done]. by rewrite (eo_done _ (co_entry _ _ _ Hok _ _ Hx) Ed) in Er.
    - destruct gives_up as [err|]; [apply Hen; left; by eexists|]. destruct (en_done (entry_at s entry)) eqn:Er; [apply Hen; by right|]. by apply (unfinished_acts ts s hs entry). }
  assert ((∃ handle, a = OnceEnter handle) ∨ ∀ handle, a ≠ OnceEnter handle) as [[handle ->]|Hne] by (destruct a; eauto); [|by apply (Hwait j a k)].
  destruct (decide (entered s handle = 0)) as [H0|H0].
  - eexists. apply (act_step_intro runtime_enabled j _ k (mkInstant None 0)); [done|]. intros e E. unfold entered in H0. by rewrite E in H0.
  - destruct (total_some (inside handle) hs) as (j' & h & Hj' & Hh); [|by rewrite (co_once _ _ _ Hok)|].
    { intros []; cbn; repeat case_decide; auto. }
    destruct (Forall2_lookup_r _ _ _ _ _ (co_calls _ _ _ Hok) Hj') as (m & Hm & Hl). destruct m as [x|a' k']; [by cbn in Hl; subst h|].
    apply (Hwait j' a' k' Hm). intros handle' ->. cbn in Hl. destruct Hl as [-> _]. done.
Qed.


End calls.

(** ** Runs on the memory store *)

Definition visit_entries (m : gmap DocumentKey nat) : list nat := (map_to_list m).*2.
Definition sample_runtime : DocumentOwnershipRuntime := mkRuntime node_a 0 0 0.

#[local] Instance sample_handler : Handler runtime_reply (shared Store) := runtime_handler visit_entries.

#[export] Instance runtime_enabled_dec (a : runtime_op) (s : shared Store) : Decision (runtime_enabled a s).
Proof.
  destruct a; cbn; try apply _. destruct (sh_handles s !! handle) as [[e []]|]; try (left; intros; congruence). right. intros Hn. by apply (Hn e).
Defined.

(** A call begins; the [j]th one takes its next [n] actions; [i_now] is 120 throughout. *)
Definition first_turns (l : list (request + nat * nat)) : list (prog runtime_reply (result (option nat)) + nat * instant) :=
  concat (map (λ t, match t with inl q => [inl (serve sample_runtime q)] | inr (j, n) => replicate n (inr (j, mkInstant None 120)) end) l).
Definition perform (l : list (request + nat * nat)) : option (list (rio (result (option nat))) * shared Store) :=
  schedule runtime_enabled (first_turns l) ([], Runtime_New Store_New).

Abbreviation reachable := (rtc (pool_step (St := shared Store) runtime_enabled (starts sample_runtime)) ([], Runtime_New Store_New)).

Lemma perform_reaches (P : list (rio (result (option nat))) * shared Store → Prop) l :
  match perform l with Some c => P c | None => False end → ∃ c, reachable c ∧ P c.
Proof.
  destruct (perform l) as [c|] eqn:E; [|done]. intros Hc. exists c. split; [|done]. eapply schedule_steps; [|exact E].
  unfold first_turns. apply Forall_concat, Forall_fmap, Forall_forall. intros [q|[j n]] _; cbn; [|by apply Forall_replicate]. constructor; [by exists q|constructor].
Qed.

(** One caller gets a handle and releases it; before the run, which is cancelled by
    that, has ended, a second caller asks for the same document; then the run ends. *)
Definition acquired_first : list (request + nat * nat) :=
  [inl (ReqAcquire sample_claim None); inr (0%nat, 2%nat); inl (ReqGoroutine 0 5); inr (1%nat, 9%nat); inr (0%nat, 3%nat)].
Definition released_then_acquired : list (request + nat * nat) :=
  acquired_first ++ [inl (ReqRelease (Some 0%nat) None); inr (2%nat, 2%nat); inl (ReqAcquire sample_claim None); inr (3%nat, 4%nat)].

(** The second caller joins a run that is already cancelled and gets a handle; the
    run ends without an error of its own, and nobody holds the lease of the shard. *)
Theorem acquire_joins_cancelled_run :
  match perform released_then_acquired, perform (released_then_acquired ++ [inr (1%nat, 4%nat)]) with
  | Some (ts, s), Some (_, s') =>
      ts !! 3%nat = Some (Ret (Ok (Some 1%nat))) ∧ en_canceled (entry_at s 0) = true ∧ en_refs (entry_at s 0) = 1 ∧
      DocumentOwnershipHandle_Done (Some 1%nat) s' = true ∧ DocumentOwnershipHandle_Err (Some 1%nat) s' = Some (Sentinel context_Canceled) ∧
      leases (sh_storage s') = ∅
  | _, _ => False
  end.
Proof. vm_compute. repeat split. Qed.


