(* ===== verification/RebalanceSpec.v ===== *)
(** * The planner of rebalances

    The selection of targets, and the invariant of the planner: every document
    moves at most once, the loads it keeps are the documents each target would
    own, and no target receives more than the least loaded one can match. *)
From S2P Require Import Prelude GoError GoText StorageTypes MemoryStore StoreSpec ClusterTypes Effects ClusterIO Leases Ownership Rebalance ClusterSpec.

(** ** Targets *)

Lemma string_le_total a b : string_le a b = true ∨ string_le b a = true.
Proof.
  revert b. induction a as [|x a IH]; intros [|y b]; cbn; [by left..|by right|].
  destruct (Z.ltb_spec x y), (Z.ltb_spec y x); cbn; [lia|by left|by right|]. assert (x = y) as -> by lia. rewrite Z.eqb_refl. apply IH.
Qed.

Lemma string_le_trans a b c : string_le a b = true → string_le b c = true → string_le a c = true.
Proof.
  revert b c. induction a as [|x a IH]; intros [|y b] [|z c]; cbn; try done.
  rewrite !orb_true_iff, !andb_true_iff, !Z.ltb_lt, !Z.eqb_eq. intros [?|[-> ?]] [?|[-> ?]]; [left; lia|by left|by left|right]. split; [done|by eapply IH].
Qed.

#[export] Instance string_rel_total : Total string_rel.
Proof. intros a b. unfold string_rel. destruct (string_le_total a b) as [-> | ->]; [by left|by right]. Qed.

#[export] Instance string_rel_trans : Transitive string_rel.
Proof. intros a b c. unfold string_rel. rewrite !Is_true_true. apply string_le_trans. Qed.

Lemma distinct_targets_spec targets seen out r : (∀ t, t ∈ seen ↔ t ∈ out) → NoDup out → Forall (λ t, NodeID_Valid t = None) out →
  distinct_targets targets seen out = Ok r →
  NoDup r ∧ (∀ t, t ∈ r ↔ t ∈ out ∨ t ∈ targets) ∧ Forall (λ t, NodeID_Valid t = None) r.
Proof.
  revert seen out. induction targets as [|x targets IH]; intros seen out Hseen Hnd Hv; cbn [distinct_targets].
  { intros [= <-]. split_and!; [done| |done]. intros t. split; [by left|]. by intros [|?%elem_of_nil]. }
  destruct (NodeID_Valid x) eqn:Hx; [done|]. destruct (decide (x ∈ seen)) as [Hin|Hni]; intros Hr.
  - destruct (IH _ _ Hseen Hnd Hv Hr) as (? & Hm & ?). split_and!; [done| |done]. intros t. rewrite Hm, elem_of_cons.
    split; [tauto|]. intros [?|[->|?]]; [by left|left; by apply Hseen|by right].
  - destruct (IH ({[x]} ∪ seen) (out ++ [x])) as (? & Hm & ?); [| | |done|].
    + intros t. specialize (Hseen t). set_solver.
    + apply NoDup_app. split_and!; [done| |apply NoDup_singleton]. intros t Ht E%list_elem_of_singleton. subst t. by apply Hni, Hseen.
    + apply Forall_app. split; [done|]. by apply Forall_singleton.
    + split_and!; [done| |done]. intros t. rewrite Hm. set_solver.
Qed.

(** The normalized targets: the same nodes, each once, in order, all valid. *)
Lemma normalizeRebalanceTargets_spec targets out : normalizeRebalanceTargets targets = Ok out →
  out ≠ [] ∧ NoDup out ∧ StronglySorted string_rel out ∧ (∀ t, t ∈ out ↔ t ∈ targets) ∧ Forall (λ t, NodeID_Valid t = None) out.
Proof.
  unfold normalizeRebalanceTargets. destruct targets as [|x targets]; [done|]. rewrite result_bind_Ok. intros (r & Hr & [= <-]).
  destruct (distinct_targets_spec (x :: targets) ∅ [] r) as (Hnd & Hm & Hv); [set_solver|constructor..|done|].
  pose proof (merge_sort_Permutation string_rel r) as Hp. split_and!.
  - intros E. rewrite E in Hp. apply Permutation_nil_l in Hp. subst r.
    assert (x ∈ ([] : list bytes)) as ?%elem_of_nil; [|done]. apply Hm. right. by left.
  - by rewrite Hp.
  - apply StronglySorted_merge_sort; apply _.
  - intros t. rewrite Hp, Hm. split; [by intros [?%elem_of_nil|]|by right].
  - by rewrite Hp.
Qed.

(** ** The extremes of the loads *)

Lemma fold_select_spec (f : bytes → Z) ts t :
  let best := fold_left (λ selected target, if f target <? f selected then target else selected) ts t in
  best ∈ t :: ts ∧ ∀ u, u ∈ t :: ts → f best <= f u.
Proof.
  revert t. induction ts as [|x ts IH]; intros t; cbn [fold_left].
  { split; [by left|]. intros u [->|?%elem_of_nil]%elem_of_cons; [lia|done]. }
  set (t' := if f x <? f t then x else t). destruct (IH t') as [Hin Hmin]. set (best := fold_left _ ts t') in *.
  assert (t' ∈ [t; x] ∧ f t' <= f t ∧ f t' <= f x) as (Ht' & ? & ?).
  { unfold t'. destruct (Z.ltb_spec (f x) (f t)); (split_and!; [set_solver|lia|lia]). }
  clearbody best t'. split; [set_solver|]. intros u Hu. pose proof (Hmin t' ltac:(by left)).
  assert (u = t ∨ u = x ∨ u ∈ ts) as [->|[->|Hts]] by set_solver; [lia..|]. apply Hmin. by right.
Qed.

Lemma least_spec targets l : targets ≠ [] → leastLoadedTarget targets l ∈ targets ∧
  ∀ u, u ∈ targets → get0 l (leastLoadedTarget targets l) <= get0 l u.
Proof. destruct targets as [|t ts]; [done|]. intros _. apply (fold_select_spec (get0 l)). Qed.

Lemma fold_left_ext {A B} (f g : A → B → A) l a : (∀ a b, f a b = g a b) → fold_left f l a = fold_left g l a.
Proof. intros E. revert a. induction l as [|x l IH]; intros a; cbn; [done|]. by rewrite E, IH. Qed.

Lemma most_spec targets l : targets ≠ [] → mostLoadedTarget targets l ∈ targets ∧
  ∀ u, u ∈ targets → get0 l u <= get0 l (mostLoadedTarget targets l).
Proof.
  destruct targets as [|t ts]; [done|]. intros _. unfold mostLoadedTarget.
  rewrite (fold_left_ext _ (λ selected target, if - get0 l target <? - get0 l selected then target else selected)).
  - destruct (fold_select_spec (λ t, - get0 l t) ts t) as [Hin Hmax]. split; [done|]. intros u Hu. specialize (Hmax u Hu). lia.
  - intros a b. destruct (Z.ltb_spec (get0 l a) (get0 l b)), (Z.ltb_spec (- get0 l b) (- get0 l a)); (done || lia).
Qed.

Lemma nextMovableDocument_spec keys moved :
  match nextMovableDocument keys moved with
  | Some k => k ∈ keys ∧ k ∉ moved
  | None => ∀ k, k ∈ keys → k ∈ moved
  end.
Proof.
  induction keys as [|k keys IH]; cbn [nextMovableDocument]; [by intros ? ?%elem_of_nil|].
  destruct (decide (k ∈ moved)).
  - destruct (nextMovableDocument keys moved); [split; [by right; apply IH|by apply IH]|].
    intros k' [->|?]%elem_of_cons; [done|by apply IH].
  - split; [by left|done].
Qed.

(** ** The planner *)

Abbreviation docs p t := (default [] (docsByOwner p !! t)).

(** The documents a target keeps, the moves it receives, and what it would own. *)
Definition stays (p : planner) (t : bytes) : list DocumentKey := filter (λ k, k ∉ moved p) (docs p t).
Definition arrivals (p : planner) (t : bytes) : list PlannedRebalance := filter (λ mv, mv_To mv = t) (Moves p).
Definition planned (p : planner) (t : bytes) : Z := Z.of_nat (length (stays p t)) + Z.of_nat (length (arrivals p t)).

Record plan_ok (targets : list bytes) (maxMoves : Z) (seen : list DocumentKey) (p : planner) : Prop := {
  pk_moved : ∀ k, k ∈ moved p ↔ k ∈ mv_DocumentKey <$> Moves p;
  pk_moves : Forall (λ mv, mv_To mv ∈ targets ∧ mv_From mv ≠ mv_To mv ∧ mv_DocumentKey mv ∈ seen) (Moves p);
  pk_once : NoDup (mv_DocumentKey <$> Moves p);
  pk_docs : ∀ t ks, docsByOwner p !! t = Some ks → t ∈ targets ∧ NoDup ks ∧ ∀ k, k ∈ ks → k ∈ seen;
  pk_owner : ∀ t u k, k ∈ docs p t → k ∈ docs p u → t = u;
  pk_loads : ∀ t, t ∈ targets → get0 (loads p) t = planned p t;
  pk_fair : ∀ t u, t ∈ targets → u ∈ targets → Z.of_nat (length (arrivals p t)) <= get0 (loads p) u + 1;
  pk_cover : ∀ k, k ∈ seen → k ∈ moved p ∨ (∃ t, k ∈ docs p t) ∨ k ∈ sk_DocumentKey <$> Skipped p;
  pk_limit : 0 < maxMoves → Z.of_nat (length (Moves p)) <= maxMoves }.

Lemma get0_start targets t : get0 (list_to_map ((λ t, (t, 0)) <$> targets) : gmap bytes Z) t = 0.
Proof.
  unfold get0. destruct (_ !! t) as [z|] eqn:E; [|done]. apply elem_of_list_to_map_2 in E.
  by apply list_elem_of_fmap in E as (? & [= -> ->] & _).
Qed.

Lemma start_planner_ok targets maxMoves : plan_ok targets maxMoves [] (start_planner targets).
Proof.
  unfold start_planner. split; cbn [moved Moves docsByOwner loads Skipped fmap list_fmap].
  - set_solver.
  - constructor.
  - constructor.
  - intros t ks. by rewrite lookup_empty.
  - intros t u k. rewrite lookup_empty. cbn. by intros ?%elem_of_nil.
  - intros t _. rewrite get0_start. unfold planned, stays, arrivals. cbn. by rewrite lookup_empty.
  - intros t u _ _. rewrite get0_start. cbn. lia.
  - by intros k ?%elem_of_nil.
  - cbn. lia.
Qed.

Lemma get0_add_load l t d u : get0 (add_load t d l) u = if decide (u = t) then get0 l t + d else get0 l u.
Proof. unfold add_load. by rewrite get0_insert. Qed.

Lemma in_moved_seen targets maxMoves seen p k : plan_ok targets maxMoves seen p → k ∈ moved p → k ∈ seen.
Proof.
  intros Hp Hk. apply (pk_moved _ _ _ _ Hp) in Hk. apply list_elem_of_fmap in Hk as (mv & -> & Hmv).
  pose proof (pk_moves _ _ _ _ Hp) as Hf. rewrite Forall_forall in Hf. by apply Hf.
Qed.

Lemma docs_seen targets maxMoves seen p t k : plan_ok targets maxMoves seen p → k ∈ docs p t → k ∈ seen.
Proof.
  intros Hp. destruct (docsByOwner p !! t) as [ks|] eqn:E; cbn; [|by intros ?%elem_of_nil]. apply (pk_docs _ _ _ _ Hp _ _ E).
Qed.

Lemma plan_ok_seen targets maxMoves seen p key : plan_ok targets maxMoves seen p →
  (key ∈ seen ∨ key ∈ moved p ∨ (∃ t, key ∈ docs p t) ∨ key ∈ sk_DocumentKey <$> Skipped p) → plan_ok targets maxMoves (seen ++ [key]) p.
Proof.
  intros Hp Hkey. destruct Hp as [H1 H2 H3 H4 H5 H6 H7 H8 H9]. split; try done.
  - eapply Forall_impl; [exact H2|]. cbn. set_solver.
  - intros t ks E. destruct (H4 t ks E) as (? & ? & ?). split_and!; [done..|]. set_solver.
  - intros k [?|E%list_elem_of_singleton]%elem_of_app; [by apply H8|subst k]. destruct Hkey as [?|?]; [by apply H8|done].
Qed.

Lemma filter_ext_in {A} (P Q : A → Prop) `{∀ x, Decision (P x), ∀ x, Decision (Q x)} (l : list A) :
  (∀ x, x ∈ l → (P x ↔ Q x)) → filter P l = filter Q l.
Proof.
  induction l as [|x l IH]; intros HPQ; [done|]. rewrite !filter_cons. destruct (HPQ x) as [H1 H2]; [by left|].
  assert (filter P l = filter Q l) as -> by (apply IH; intros; apply HPQ; by right).
  destruct (decide (P x)), (decide (Q x)); tauto || done.
Qed.

(** Moving a document of the list leaves one fewer behind. *)
Lemma filter_remove (ks : list DocumentKey) key (m : gset DocumentKey) : key ∈ ks → NoDup ks → key ∉ m →
  length (filter (λ k, k ∉ m) ks) = S (length (filter (λ k, k ∉ {[key]} ∪ m) ks)).
Proof.
  induction ks as [|k ks IH]; intros Hin Hnd Hkm; [by apply elem_of_nil in Hin|]. apply NoDup_cons in Hnd as [Hk Hnd].
  destruct (decide (k = key)) as [->|Hne].
  - rewrite filter_cons_True by done. rewrite filter_cons_False by set_solver. cbn. f_equal.
    f_equal. apply filter_ext_in. intros x Hx. set_solver.
  - rewrite !filter_cons. specialize (IH ltac:(set_solver) Hnd Hkm). destruct (decide (k ∉ m)); [rewrite decide_True by set_solver; cbn; lia|].
    by rewrite decide_False by set_solver.
Qed.

Section steps.
Variable targets : list bytes.
Variable maxMoves : Z.
Hypothesis Hne : targets ≠ [].
Abbreviation ok := (plan_ok targets maxMoves).

Lemma skip_ok seen p key reason err : ok seen p → ok (seen ++ [key]) (skip key reason err p).
Proof.
  intros Hp. apply plan_ok_seen; [|right; right; right; unfold skip; cbn [Skipped]; rewrite fmap_app; set_solver].
  destruct Hp as [H1 H2 H3 H4 H5 H6 H7 H8 H9]. split; try done.
  intros k Hk. destruct (H8 k Hk) as [?|[?|?]]; [by left|right; by left|]. right. right. unfold skip. cbn [Skipped]. rewrite fmap_app. set_solver.
Qed.

Lemma docs_keep p key owner t : docs (keep key owner p) t = if decide (t = owner) then docs p owner ++ [key] else docs p t.
Proof. unfold keep. cbn [docsByOwner]. case_decide; [subst; by rewrite lookup_insert_eq|by rewrite lookup_insert_ne]. Qed.

Lemma planned_keep p key owner t : key ∉ moved p → planned (keep key owner p) t = planned p t + (if decide (t = owner) then 1 else 0).
Proof.
  intros Hk. unfold planned, stays, arrivals. rewrite docs_keep. cbn [keep moved Moves]. case_decide; [subst|lia].
  rewrite filter_app, length_app, filter_cons_True by done. cbn. lia.
Qed.

Lemma keep_ok seen p key owner : ok seen p → key ∉ seen → owner ∈ targets → ok (seen ++ [key]) (keep key owner p).
Proof.
  intros Hp Hk Ho. assert (key ∉ moved p) as Hkm by (by intros ?%(in_moved_seen _ _ _ _ _ Hp)).
  assert (∀ t, key ∉ docs p t) as Hkd by (by intros t ?%(docs_seen _ _ _ _ _ _ Hp)).
  pose proof Hp as [H1 H2 H3 H4 H5 H6 H7 H8 H9]. split.
  - done.
  - eapply Forall_impl; [exact H2|]. cbn. set_solver.
  - done.
  - intros t ks. unfold keep. cbn [docsByOwner]. intros [[<- <-]|[Hto E]]%lookup_insert_Some.
    + split_and!; [done| |].
      * destruct (docsByOwner p !! owner) as [ks|] eqn:E; cbn; [|apply NoDup_singleton]. specialize (Hkd owner). rewrite E in Hkd. cbn in Hkd.
        apply NoDup_app. split_and!; [by apply (H4 _ _ E)|set_solver|apply NoDup_singleton].
      * intros k [Hin|Hin]%elem_of_app; [|set_solver]. apply (docs_seen _ _ _ _ _ _ Hp) in Hin. set_solver.
    + destruct (H4 t ks E) as (? & ? & ?). split_and!; [done..|]. set_solver.
  - intros t u k. rewrite !docs_keep. intros Ht Hu. destruct (decide (t = owner)) as [->|], (decide (u = owner)) as [->|]; [done| | |by eapply H5].
    + apply elem_of_app in Ht as [Ht|Ht%list_elem_of_singleton]; [by eapply H5|]. subst k. by apply Hkd in Hu.
    + apply elem_of_app in Hu as [Hu|Hu%list_elem_of_singleton]; [by eapply H5|]. subst k. by apply Hkd in Ht.
  - intros t Ht. rewrite planned_keep, <- H6 by done. cbn [keep loads]. rewrite get0_add_load. case_decide; [subst|]; lia.
  - intros t u Ht Hu. cbn [keep loads]. rewrite get0_add_load. specialize (H7 t u Ht Hu). unfold arrivals in *. cbn [keep Moves].
    case_decide; [subst|]; lia.
  - intros k [Hin|Hin%list_elem_of_singleton]%elem_of_app.
    + destruct (H8 k Hin) as [?|[[t ?]|?]]; [by left|right; left|by right; right]. exists t. rewrite docs_keep. case_decide; [subst; set_solver|done].
    + subst k. right. left. exists owner. rewrite docs_keep, decide_True by done. set_solver.
  - done.
Qed.

(** A move of [key] to the least loaded target, with the loads adjusted to [l']. *)
Definition move_to (key : DocumentKey) (from to : bytes) (reason : string) (l' : gmap bytes Z) (p : planner) : planner :=
  mkPlanner (Moves p ++ [mkMove key from to reason]) (Skipped p) l' (docsByOwner p) ({[key]} ∪ moved p).

Lemma arrivals_move key from to reason l' p t :
  length (arrivals (move_to key from to reason l' p) t) = (length (arrivals p t) + (if decide (t = to) then 1 else 0))%nat.
Proof.
  unfold arrivals. cbn [move_to Moves]. rewrite filter_app, length_app. f_equal. case_decide; [subst; by rewrite filter_cons_True|].
  by rewrite filter_cons_False by (cbn; congruence).
Qed.

(** What a move preserves, whatever it does to the loads. *)
Lemma move_ok seen seen' p key from to reason l' : ok seen p → (∀ k, k ∈ seen' ↔ k ∈ seen ∨ k = key) → key ∉ moved p → from ≠ to →
  to ∈ targets → rebalanceMoveLimitReached maxMoves (length (Moves p)) = false →
  (∀ t, t ∈ targets → get0 l' t = planned (move_to key from to reason l' p) t) →
  (∀ t u, t ∈ targets → u ∈ targets → Z.of_nat (length (arrivals (move_to key from to reason l' p) t)) <= get0 l' u + 1) →
  ok seen' (move_to key from to reason l' p).
Proof.
  intros [H1 H2 H3 H4 H5 H6 H7 H8 H9] Hs Hkm Hft Hto Hlim Hl Hf. split; cbn [move_to Moves moved docsByOwner Skipped loads]; try done.
  - intros k. rewrite fmap_app, elem_of_union, elem_of_app, H1. set_solver.
  - apply Forall_app. split; [|apply Forall_singleton; cbn; split_and!; [done..|apply Hs; by right]].
    eapply Forall_impl; [exact H2|]. intros mv (? & ? & ?). split_and!; [done..|]. apply Hs. by left.
  - rewrite fmap_app. apply NoDup_app. split_and!; [done| |apply NoDup_singleton]. intros k Hin Hin'.
    assert (k = key) as -> by set_solver. by apply Hkm, H1.
  - intros t ks E. destruct (H4 t ks E) as (? & ? & Hks). split_and!; [done..|]. intros k Hk. apply Hs. left. by apply Hks.
  - intros k Hin. apply Hs in Hin as [Hin | ->]; [|left; set_solver].
    destruct (H8 k Hin) as [?|[?|?]]; [left; set_solver|right; by left|by right; right].
  - intros Hm. unfold rebalanceMoveLimitReached in Hlim. rewrite (proj2 (Z.ltb_lt 0 maxMoves)) in Hlim by done. cbn [andb] in Hlim.
    apply Z.leb_gt in Hlim. rewrite length_app. change (length [_]) with 1%nat. lia.
Qed.

Lemma stays_move key from to reason l' p t : key ∉ docs p t → stays (move_to key from to reason l' p) t = stays p t.
Proof.
  intros Hk. unfold stays. cbn [move_to moved docsByOwner]. apply filter_ext_in. intros k Hin. set_solver.
Qed.

Lemma assign_ok seen p key from reason : ok seen p → key ∉ seen → from ∉ targets →
  rebalanceMoveLimitReached maxMoves (length (Moves p)) = false → ok (seen ++ [key]) (assign targets key from reason p).
Proof.
  intros Hp Hk Hfrom Hlim. destruct (least_spec targets (loads p) Hne) as [Hto Hmin]. 
  change (assign targets key from reason p) with
    (move_to key from (leastLoadedTarget targets (loads p)) reason (add_load (leastLoadedTarget targets (loads p)) 1 (loads p)) p).
  set (to := leastLoadedTarget targets (loads p)) in *.
  assert (key ∉ moved p) as Hkm by (by intros ?%(in_moved_seen _ _ _ _ _ Hp)).
  assert (∀ t, key ∉ docs p t) as Hkd by (by intros t ?%(docs_seen _ _ _ _ _ _ Hp)).
  apply (move_ok seen); [done|set_solver|done|congruence|done|done| |].
  - intros t Ht. unfold planned. rewrite stays_move, arrivals_move, get0_add_load by done. pose proof (pk_loads _ _ _ _ Hp t Ht) as Hl.
    unfold planned in Hl. case_decide; [subst t|]; lia.
  - intros t u Ht Hu. rewrite arrivals_move, get0_add_load. pose proof (pk_fair _ _ _ _ Hp t u Ht Hu). pose proof (Hmin u Hu).
    pose proof (pk_loads _ _ _ _ Hp to Hto) as Hl. unfold planned in Hl. repeat case_decide; subst; lia.
Qed.

(** The document shed by the most loaded target. *)
Lemma shed_ok seen p p' : ok seen p → shed targets maxMoves p = Some p' →
  ok seen p' ∧ ∃ k, k ∈ seen ∧ k ∉ moved p ∧ moved p' = {[k]} ∪ moved p.
Proof.
  intros Hp. unfold shed. destruct (rebalanceMoveLimitReached _ _) eqn:Hlim; [done|].
  destruct (least_spec targets (loads p) Hne) as [Hto Hmin]. destruct (most_spec targets (loads p) Hne) as [Hfrom Hmax].
  set (from := mostLoadedTarget targets (loads p)) in *. set (to := leastLoadedTarget targets (loads p)) in *. cbv zeta.
  destruct (_ || _ || _ || _) eqn:Hbreak; [done|]. rewrite !orb_false_iff, !bool_decide_eq_false, Z.leb_gt in Hbreak.
  destruct Hbreak as [[[_ _] Hft] Hgap].
  pose proof (nextMovableDocument_spec (docs p from) (moved p)) as Hnext. destruct (nextMovableDocument _ _) as [key|]; [|done].
  destruct Hnext as [Hkd Hkm]. intros [= <-]. pose proof (docs_seen _ _ _ _ _ _ Hp Hkd) as Hks.
  split; [|by exists key].
  change (ok seen (move_to key from to RebalanceReasonLoadShedding (add_load to 1 (add_load from (-1) (loads p))) p)).
  apply (move_ok seen); [done|intros k; split; [by left|by intros [? | ->]]|done|done|done|done| |].
  - intros t Ht. unfold planned. rewrite arrivals_move, !get0_add_load. pose proof (pk_loads _ _ _ _ Hp t Ht) as Hl. unfold planned in Hl.
    destruct (decide (t = from)) as [->|Htf].
    + rewrite Hl. unfold stays. cbn [move_to moved docsByOwner].
      destruct (docsByOwner p !! from) as [ks|] eqn:E; [|by apply elem_of_nil in Hkd]. cbn [default from_option id] in Hkd |- *.
      rewrite (filter_remove ks key) by (done || by apply (pk_docs _ _ _ _ Hp _ _ E)). repeat case_decide; (congruence || lia).
    + rewrite stays_move; [|intros Hin; by apply Htf, (pk_owner _ _ _ _ Hp t from key)].
      repeat case_decide; subst; (congruence || lia).
  - intros t u Ht Hu. rewrite arrivals_move, !get0_add_load. pose proof (pk_fair _ _ _ _ Hp t u Ht Hu). pose proof (pk_fair _ _ _ _ Hp t to Ht Hto).
    pose proof (Hmin u Hu). pose proof (pk_loads _ _ _ _ Hp to Hto) as Hl. unfold planned in Hl. repeat case_decide; subst; lia.
Qed.
(** The second loop: it ends within its fuel, with nothing left to shed. *)
Lemma shed_loop_ok fuel seen p : ok seen p → (size (list_to_set seen ∖ moved p : gset DocumentKey) ≤ fuel)%nat →
  ∃ p', shed_loop fuel targets maxMoves p = Some p' ∧ ok seen p' ∧ shed targets maxMoves p' = None.
Proof.
  revert p. induction fuel as [|fuel IH]; intros p Hp Hf; cbn [shed_loop]; destruct (shed targets maxMoves p) as [p'|] eqn:E; [|by exists p| |by exists p].
  - destruct (shed_ok _ _ _ Hp E) as (_ & k & Hk & Hkm & _). assert (k ∈ (list_to_set seen ∖ moved p : gset DocumentKey)) as Hin by set_solver.
    assert (size (list_to_set seen ∖ moved p : gset DocumentKey) = 0%nat) as Hz by lia. apply size_empty_inv in Hz. set_solver.
  - destruct (shed_ok _ _ _ Hp E) as (Hp' & k & Hk & Hkm & Em). apply IH; [done|].
    assert (list_to_set seen ∖ moved p' ⊂ (list_to_set seen ∖ moved p : gset DocumentKey)) as Hsub%subset_size by (rewrite Em; set_solver).
    lia.
Qed.

(** With nothing left to shed and moves left to make, the loads differ by at most one. *)
Lemma shed_done_balanced seen p t u : ok seen p → Forall (λ t, t ≠ []) targets → shed targets maxMoves p = None →
  rebalanceMoveLimitReached maxMoves (length (Moves p)) = false → t ∈ targets → u ∈ targets → planned p t <= planned p u + 1.
Proof.
  intros Hp Hne' Hs Hlim Ht Hu. rewrite <- !(pk_loads _ _ _ _ Hp) by done. unfold shed in Hs. rewrite Hlim in Hs.
  destruct (least_spec targets (loads p) Hne) as [Hto Hmin]. destruct (most_spec targets (loads p) Hne) as [Hfrom Hmax].
  set (from := mostLoadedTarget targets (loads p)) in *. set (to := leastLoadedTarget targets (loads p)) in *. cbv zeta in Hs.
  pose proof (Hmin u Hu). pose proof (Hmax t Ht). rewrite Forall_forall in Hne'. pose proof (Hne' from Hfrom). pose proof (Hne' to Hto).
  rewrite (bool_decide_eq_false_2 (from = [])), (bool_decide_eq_false_2 (to = [])) in Hs by done. cbn [orb] in Hs.
  case_bool_decide as Heq; [rewrite Heq in *; lia|]. cbn [orb] in Hs.
  destruct (Z.leb_spec (get0 (loads p) from - get0 (loads p) to) 1); [lia|].
  pose proof (nextMovableDocument_spec (docs p from) (moved p)) as Hnext. destruct (nextMovableDocument _ _); [done|].
  pose proof (pk_loads _ _ _ _ Hp from Hfrom) as Hl. pose proof (pk_fair _ _ _ _ Hp from to Hfrom Hto).
  assert (stays p from = []) as E.
  { unfold stays. destruct (filter _ _) as [|k ks] eqn:E; [done|].
    assert (k ∈ filter (λ k, k ∉ moved p) (docs p from)) as [Hk Hin]%list_elem_of_filter by (rewrite E; by left). by apply Hnext, Hk in Hin. }
  unfold planned in Hl. rewrite E in Hl. cbn [length] in Hl. lia.
Qed.

(** The first loop, whatever the lookups answer. *)
Lemma plan_document_ok seen p key promote found : ok seen p → key ∉ seen → [] ∉ targets →
  ok (seen ++ [key]) (plan_document targets maxMoves promote key found p).
Proof.
  intros Hp Hk Hblank. unfold plan_document. destruct found as [[res|]|err].
  - case_bool_decide as Ho; [by apply keep_ok|]. destruct (rebalanceMoveLimitReached _ _) eqn:E; [by apply skip_ok|by apply assign_ok].
  - by apply skip_ok.
  - destruct (_ && _ && _) eqn:E; [|by apply skip_ok]. apply andb_true_iff in E as [_ E%negb_true_iff]. by apply assign_ok.
Qed.

Lemma plan_documents_ok {St} `{Storage St} (R : St → St → Prop) C c promote keys seen p s : ok seen p → NoDup (seen ++ keys) → [] ∉ targets →
  wp R C (plan_documents c targets maxMoves promote keys p) (λ p' _, ok (seen ++ keys) p') s.
Proof.
  intros Hp Hnd Hblank. revert seen p s Hp Hnd. induction keys as [|key keys IH]; intros seen p s Hp Hnd; cbn [plan_documents].
  { cbn [wp]. by rewrite app_nil_r. }
  assert (key ∉ seen) as Hk by (apply NoDup_app in Hnd as (_ & Hd & _); intros Hin; apply (Hd key Hin); by left).
  rewrite cons_middle, (assoc_L (++)) in Hnd |- *. destruct (DocumentKey_Validate key).
  - apply IH; [by apply skip_ok|done].
  - rewrite wp_bind. eapply (wp_mono _ _ _ (λ _ _, True)); [|by apply wp_any]. intros found s1 _. apply IH; [by apply plan_document_ok|done].
Qed.
End steps.

(** * What a rebalance plan guarantees

    The plan of a list of documents over the accepted nodes, whatever the lookups
    answer and whatever else uses the storage; and the selection of healthy
    nodes. *)

Lemma valid_targets_not_blank targets : Forall (λ t, NodeID_Valid t = None) targets → Forall (λ t, t ≠ []) targets ∧ [] ∉ targets.
Proof.
  intros Hv. assert (Forall (λ t, t ≠ []) targets) as Hne by (eapply Forall_impl; [exact Hv|]; by intros t Ht ->).
  split; [done|]. intros Hin. rewrite Forall_forall in Hne. by apply (Hne [] Hin).
Qed.

Lemma size_seen (docs : list DocumentKey) (m : gset DocumentKey) : NoDup docs → (size (list_to_set docs ∖ m : gset DocumentKey) ≤ length docs)%nat.
Proof.
  intros Hnd. rewrite <- (size_list_to_set (C := gset DocumentKey) docs) by done. apply subseteq_size. set_solver.
Qed.

(** C36: A rebalance plan: planning always ends with a plan unless the limit is
    negative or the targets are refused.  Then every move is of a listed
    document, to a target other than where it is from, and no document moves
    twice; the limit of moves is kept; every listed document is moved, kept by a
    target or skipped; and unless the limit was reached, the numbers of documents
    any two targets would own differ by at most one. *)
Theorem rebalance_plan {St : Type} `{Storage St} (R : St → St → Prop) (C : instant → Prop) (c : StorageOwnershipCoordinator)
    (req : RebalancePlanRequest) (s : St) (Hnd : NoDup (pr_Documents req)) :
  wp R C (PlanDocumentRebalance c req) (λ r _,
    match r with
    | Err err => errors_Is err ycluster_ErrInvalidRebalancePlan = true ∧
        (pr_MaxMoves req < 0 ∨ normalizeRebalanceTargets (pr_TargetHolders req) = Err err)
    | Ok p =>
        NoDup (mv_DocumentKey <$> Moves p) ∧
        (∀ mv, mv ∈ Moves p → mv_To mv ∈ pr_TargetHolders req ∧ mv_From mv ≠ mv_To mv ∧ mv_DocumentKey mv ∈ pr_Documents req) ∧
        (0 < pr_MaxMoves req → Z.of_nat (length (Moves p)) <= pr_MaxMoves req) ∧
        (∀ key, key ∈ pr_Documents req →
           key ∈ mv_DocumentKey <$> Moves p ∨ (∃ t, key ∈ stays p t) ∨ key ∈ sk_DocumentKey <$> Skipped p) ∧
        (rebalanceMoveLimitReached (pr_MaxMoves req) (length (Moves p)) = false →
           ∀ t u, t ∈ pr_TargetHolders req → u ∈ pr_TargetHolders req → planned p t <= planned p u + 1)
    end) s.
Proof.
  unfold PlanDocumentRebalance. destruct (Z.ltb_spec (pr_MaxMoves req) 0) as [|Hmax]; [cbn; tauto|].
  destruct (normalizeRebalanceTargets (pr_TargetHolders req)) as [targets|err] eqn:Ht.
  2:{ cbn [wp]. split; [|by right]. revert Ht. unfold normalizeRebalanceTargets. destruct (pr_TargetHolders req) as [|x l]; [by intros [= <-]|].
      generalize (x :: l). intros l'. generalize (∅ : gset bytes) at 1, ([] : list bytes) at 1.
      induction l' as [|t l' IH]; intros seen out; cbn [distinct_targets]; [done|].
      destruct (NodeID_Valid t); [by intros [= <-]|]. destruct (decide _); apply IH. }
  destruct (normalizeRebalanceTargets_spec _ _ Ht) as (Hne & _ & _ & Hm & Hv). destruct (valid_targets_not_blank _ Hv) as [Hnb Hblank].
  rewrite wp_bind. eapply wp_mono; [|by apply (plan_documents_ok targets (pr_MaxMoves req) Hne R C c _ _ [] _ s (start_planner_ok _ _))].
  cbn [app]. intros p s1 Hp. cbn [wp].
  destruct (shed_loop_ok _ _ Hne (length (pr_Documents req)) _ p Hp (size_seen _ _ Hnd)) as (p' & -> & Hp' & Hdone).
  split_and!.
  - apply Hp'.
  - intros mv Hmv. pose proof (pk_moves _ _ _ _ Hp') as Hf. rewrite Forall_forall in Hf. destruct (Hf mv Hmv) as (? & ? & ?). by rewrite <- Hm.
  - apply Hp'.
  - intros key Hkey. destruct (decide (key ∈ moved p')) as [Hk|Hk]; [left; by apply (pk_moved _ _ _ _ Hp')|].
    destruct (pk_cover _ _ _ _ Hp' key Hkey) as [?|[[t Hin]|?]]; [done|right; left|by right; right]. exists t. by apply list_elem_of_filter.
  - intros Hlim t u Htt Hu. by apply (shed_done_balanced targets (pr_MaxMoves req) Hne (pr_Documents req)); rewrite ?Hm.
Qed.

(** ** Healthy nodes *)

Lemma healthy_targets_spec h now nodes seen out r : (∀ t, t ∈ seen ↔ t ∈ out) → NoDup out →
  healthy_targets h now nodes seen out = Ok r →
  NoDup r ∧ Forall (λ node, NodeHealth_Validate node = None) nodes ∧
  ∀ t, t ∈ r ↔ t ∈ out ∨ ∃ node, node ∈ nodes ∧ nh_NodeID node = t ∧ accepts h now node = true.
Proof.
  revert seen out. induction nodes as [|node nodes IH]; intros seen out Hseen Hnd; cbn [healthy_targets].
  { intros [= <-]. split_and!; [done|constructor|]. intros t. split; [by left|]. by intros [|(? & ?%elem_of_nil & _)]. }
  destruct (NodeHealth_Validate node) eqn:Hv; [done|]. destruct (accepts h now node) eqn:Ha; cbn [negb].
  - destruct (decide (nh_NodeID node ∈ seen)) as [Hin|Hni]; intros Hr.
    + destruct (IH _ _ Hseen Hnd Hr) as (? & ? & Hm). split_and!; [done|by constructor|]. intros t. rewrite Hm. apply Hseen in Hin. split.
      * intros [?|(n & ? & ? & ?)]; [by left|right]. exists n. split; [by right|done].
      * intros [?|(n & [->|?]%elem_of_cons & <- & ?)]; [by left|by left|right; by exists n].
    + destruct (IH ({[nh_NodeID node]} ∪ seen) (out ++ [nh_NodeID node])) as (? & ? & Hm); [|apply NoDup_app; split_and!; [done| |apply NoDup_singleton]|done|].
      * intros t. specialize (Hseen t). set_solver.
      * intros t Ht E%list_elem_of_singleton. subst t. by apply Hni, Hseen.
      * split_and!; [done|by constructor|]. intros t. rewrite Hm. split.
        { intros [[?|E%list_elem_of_singleton]%elem_of_app|(n & ? & ? & ?)]; [by left|right; exists node; split; [by left|done]|right].
          exists n. split; [by right|done]. }
        { intros [?|(n & [->|?]%elem_of_cons & <- & ?)]; [left; set_solver|left; set_solver|right; by exists n]. }
  - intros Hr. destruct (IH _ _ Hseen Hnd Hr) as (? & ? & Hm). split_and!; [done|by constructor|]. intros t. rewrite Hm. split.
    + intros [?|(n & ? & ? & ?)]; [by left|right]. exists n. split; [by right|done].
    + intros [?|(n & [->|?]%elem_of_cons & ? & ?)]; [by left|congruence|right; by exists n].
Qed.

(** The targets of a healthy source: exactly the nodes accepted at the time the
    clock showed, each once and in order; at least one. *)
Theorem healthy_rebalance_targets {St : Type} `{Storage St} (R : St → St → Prop) (C : instant → Prop) (h : HealthyRebalanceTargetSource)
    (nodes : list NodeHealth) (s : St) :
  wp R C (HealthyRebalanceTargets h (Ret (Ok nodes))) (λ r _, ∀ targets, r = Ok targets →
    targets ≠ [] ∧ NoDup targets ∧ StronglySorted string_rel targets ∧
    ∃ now, ∀ t, t ∈ targets ↔ ∃ node, node ∈ nodes ∧ nh_NodeID node = t ∧ accepts h now node = true) s.
Proof.
  unfold HealthyRebalanceTargets, nowTime. rewrite wp_then. cbn [wp]. rewrite wp_bind. intros s1 i _ _. cbn [wp]. set (now := (answer Now i s1).1).
  destruct (healthy_targets h now nodes ∅ []) as [r|] eqn:E; [|done].
  destruct (healthy_targets_spec h now nodes ∅ [] r) as (Hnd & _ & Hm); [set_solver|constructor|done|].
  pose proof (merge_sort_Permutation string_rel r) as Hp.
  assert (StronglySorted string_rel (merge_sort string_rel r)) as Hs by (apply StronglySorted_merge_sort; apply _).
  destruct (merge_sort string_rel r) as [|t ts] eqn:Er; [done|]. rewrite <- Er in *. cbn [wp]. intros targets [= <-].
  split_and!; [by rewrite Er|by rewrite Hp|done|]. exists now. intros t'. rewrite Hp, Hm. split; [by intros [?%elem_of_nil|]|by right].
Qed.

(** ** A plan *)

(** Two documents of node [a] and one without an owner, over [a] and [b]. *)
Definition doc (k : Z) : DocumentKey := mkDocumentKey [110] [k].
Definition lease_a1 : LeaseRecord := lease_record 0 [97] 1 [116] 10 100.

Definition resolver_by_id : ShardResolver := mkResolver (λ key, Ok (if bool_decide (DocumentID key = [51]) then 1 else 0)) 2.
Definition planner_node : StorageOwnershipCoordinator := mkCoordinator [97] resolver_by_id true 50.

Definition two_owned : Store :=
  set_placements (λ m, <[doc 49 := mkPlacement (doc 49) (StorageShardID 0) 0 5]> (<[doc 50 := mkPlacement (doc 50) (StorageShardID 0) 0 5]>
    (<[doc 52 := mkPlacement (doc 52) (StorageShardID 0) 0 5]> m)))
    (set_leases <[StorageShardID 0 := lease_a1]> (set_leaseLast <[StorageShardID 0 := 1]> Store_New)).

Definition sample_plan : RebalancePlanRequest := mkPlanRequest [doc 51; doc 49; doc 50; doc 52] [[98]; [97]; [98]] 0 true.

Lemma rebalance_plan_witness : ∃ p s', run (PlanDocumentRebalance planner_node sample_plan) (at_time 20 20) two_owned = Some (Ok p, s') ∧
  Moves p = [mkMove (doc 51) [] [97] "owner_missing"; mkMove (doc 49) [97] [98] "load_shedding"; mkMove (doc 50) [97] [98] "load_shedding"] ∧
  NoDup (mv_DocumentKey <$> Moves p) ∧ planned p [97] <= planned p [98] + 1.
Proof.
  assert (NoDup (pr_Documents sample_plan)) as Hnd by (apply (bool_decide_unpack _); vm_compute; exact Logic.I).
  pose proof (rebalance_plan eq (λ _, True) planner_node sample_plan two_owned Hnd) as H.
  pose proof (λ x s', wp_run _ _ _ _ (at_time 20 20) two_owned x s' eq_Reflexive (at_time_any 20 20) H) as Hrun. clear H.
  assert (match run (PlanDocumentRebalance planner_node sample_plan) (at_time 20 20) two_owned with
          | Some (Ok p, _) => bool_decide (Moves p =
              [mkMove (doc 51) [] [97] "owner_missing"; mkMove (doc 49) [97] [98] "load_shedding"; mkMove (doc 50) [97] [98] "load_shedding"])
          | _ => false end = true) as Hok by (vm_compute; reflexivity).
  destruct (run _ _ _) as [[[p|] s']|]; [|discriminate Hok..]. apply bool_decide_eq_true in Hok.
  destruct (Hrun _ s' eq_refl) as (Hn & _ & _ & _ & Hbal). exists p, s'. split; [reflexivity|]. split; [exact Hok|]. split; [exact Hn|].
  apply Hbal; [reflexivity|..]; apply (bool_decide_unpack _); vm_compute; exact Logic.I.
Defined.
