(* ===== verification/GoJson.v ===== *)
(** * encoding/json: validation and compaction

    The scanner of Go's encoding/json as the package runs it: a step function
    of a state, a stack of open objects and arrays (at most [maxNestingDepth])
    and the flags [endTop] and [err].  A step either keeps the byte, skips it
    (white space outside of strings) or fails.  [json.Valid] runs it, and
    [json.Compact] keeps the bytes it does not skip.

    The theorem of this file: what [Compact] returns is left unchanged by
    [Compact]. *)
From S2P Require Import Prelude.

Inductive scanState :=
| BeginValueOrEmpty | BeginValue | BeginStringOrEmpty | BeginString | EndValue | EndTop
| InString | InStringEsc | InStringEscU | InStringEscU1 | InStringEscU12 | InStringEscU123
| Neg | State1 | State0 | Dot | Dot0 | StateE | ESign | E0
| T | Tr | Tru | F | Fa | Fal | Fals | N | Nu | Nul
| StateError.

Inductive parseState := parseObjectKey | parseObjectValue | parseArrayValue.

(** What a step says of its byte; [scanEnd] is a skip. *)
Inductive scanCode := Keep | Skip | Error.

Record scanner := mkScanner { st : scanState; stack : list parseState; endTop : bool; failed : bool }.

Definition maxNestingDepth : Z := 10000.

Definition isSpace (c : Z) : bool := (c =? 32) || (c =? 9) || (c =? 13) || (c =? 10).
Definition isDigit (c : Z) : bool := (48 <=? c) && (c <=? 57).
Definition isHex (c : Z) : bool := isDigit c || ((97 <=? c) && (c <=? 102)) || ((65 <=? c) && (c <=? 70)).

Definition goto (x : scanState) (s : scanner) : scanCode * scanner := (Keep, mkScanner x (stack s) (endTop s) (failed s)).
Definition scan_error (s : scanner) : scanCode * scanner := (Error, mkScanner StateError (stack s) (endTop s) true).

Definition pushParseState (x : scanState) (p : parseState) (s : scanner) : scanCode * scanner :=
  let s := mkScanner x (p :: stack s) (endTop s) (failed s) in
  if Z.of_nat (length (stack s)) <=? maxNestingDepth then (Keep, s) else scan_error s.

Definition popParseState (s : scanner) : scanner :=
  match tail (stack s) with
  | [] => mkScanner EndTop [] true (failed s)
  | rest => mkScanner EndValue rest (endTop s) (failed s)
  end.

(** A byte behind the value is an error that is only noticed at the next step. *)
Definition stateEndTop (s : scanner) (c : Z) : scanCode * scanner :=
  if isSpace c then (Skip, s) else (Skip, snd (scan_error s)).

Definition stateEndValue (s : scanner) (c : Z) : scanCode * scanner :=
  match stack s with
  | [] => stateEndTop (mkScanner EndTop [] true (failed s)) c
  | p :: rest =>
      if isSpace c then (Skip, mkScanner EndValue (stack s) (endTop s) (failed s))
      else
        match p with
        | parseObjectKey =>
            if c =? 58 then (Keep, mkScanner BeginValue (parseObjectValue :: rest) (endTop s) (failed s)) else scan_error s
        | parseObjectValue =>
            if c =? 44 then (Keep, mkScanner BeginString (parseObjectKey :: rest) (endTop s) (failed s))
            else if c =? 125 then (Keep, popParseState s) else scan_error s
        | parseArrayValue =>
            if c =? 44 then goto BeginValue s
            else if c =? 93 then (Keep, popParseState s) else scan_error s
        end
  end.

Definition stateBeginValue (s : scanner) (c : Z) : scanCode * scanner :=
  if isSpace c then (Skip, s)
  else if c =? 123 then pushParseState BeginStringOrEmpty parseObjectKey s
  else if c =? 91 then pushParseState BeginValueOrEmpty parseArrayValue s
  else if c =? 34 then goto InString s
  else if c =? 45 then goto Neg s
  else if c =? 48 then goto State0 s
  else if c =? 116 then goto T s
  else if c =? 102 then goto F s
  else if c =? 110 then goto N s
  else if (49 <=? c) && (c <=? 57) then goto State1 s
  else scan_error s.

Definition stateBeginString (s : scanner) (c : Z) : scanCode * scanner :=
  if isSpace c then (Skip, s) else if c =? 34 then goto InString s else scan_error s.

Definition expect (b : Z) (x : scanState) (s : scanner) (c : Z) : scanCode * scanner :=
  if c =? b then goto x s else scan_error s.

Definition state0 (s : scanner) (c : Z) : scanCode * scanner :=
  if c =? 46 then goto Dot s else if (c =? 101) || (c =? 69) then goto StateE s else stateEndValue s c.

Definition stateESign (s : scanner) (c : Z) : scanCode * scanner := if isDigit c then goto E0 s else scan_error s.

Definition step (s : scanner) (c : Z) : scanCode * scanner :=
  match st s with
  | BeginValueOrEmpty =>
      if isSpace c then (Skip, s) else if c =? 93 then stateEndValue s c else stateBeginValue s c
  | BeginValue => stateBeginValue s c
  | BeginStringOrEmpty =>
      if isSpace c then (Skip, s)
      else if c =? 125 then
        stateEndValue (mkScanner (st s) (parseObjectValue :: tail (stack s)) (endTop s) (failed s)) c
      else stateBeginString s c
  | BeginString => stateBeginString s c
  | EndValue => stateEndValue s c
  | EndTop => stateEndTop s c
  | InString =>
      if c =? 34 then goto EndValue s else if c =? 92 then goto InStringEsc s
      else if c <? 32 then scan_error s else goto InString s
  | InStringEsc =>
      if existsb (Z.eqb c) [98; 102; 110; 114; 116; 92; 47; 34] then goto InString s
      else if c =? 117 then goto InStringEscU s else scan_error s
  | InStringEscU => if isHex c then goto InStringEscU1 s else scan_error s
  | InStringEscU1 => if isHex c then goto InStringEscU12 s else scan_error s
  | InStringEscU12 => if isHex c then goto InStringEscU123 s else scan_error s
  | InStringEscU123 => if isHex c then goto InString s else scan_error s
  | Neg => if c =? 48 then goto State0 s else if (49 <=? c) && (c <=? 57) then goto State1 s else scan_error s
  | State1 => if isDigit c then goto State1 s else state0 s c
  | State0 => state0 s c
  | Dot => if isDigit c then goto Dot0 s else scan_error s
  | Dot0 => if isDigit c then goto Dot0 s else if (c =? 101) || (c =? 69) then goto StateE s else stateEndValue s c
  | StateE => if (c =? 43) || (c =? 45) then goto ESign s else stateESign s c
  | ESign => stateESign s c
  | E0 => if isDigit c then goto E0 s else stateEndValue s c
  | T => expect 114 Tr s c
  | Tr => expect 117 Tru s c
  | Tru => expect 101 EndValue s c
  | F => expect 97 Fa s c
  | Fa => expect 108 Fal s c
  | Fal => expect 115 Fals s c
  | Fals => expect 101 EndValue s c
  | N => expect 117 Nu s c
  | Nu => expect 108 Nul s c
  | Nul => expect 108 EndValue s c
  | StateError => (Error, s)
  end.

Definition reset : scanner := mkScanner BeginValue [] false false.

(** [eof] accepts. *)
Definition eof (s : scanner) : bool :=
  if failed s then false
  else if endTop s then true
  else endTop (snd (step s 32)).

(** The kept bytes and the state at the end, unless a step fails. *)
Fixpoint scan (s : scanner) (src : bytes) : option (bytes * scanner) :=
  match src with
  | [] => Some ([], s)
  | c :: src =>
      match step s c with
      | (Error, _) => None
      | (Skip, s) => scan s src
      | (Keep, s) => '(kept, s) ← scan s src; Some (c :: kept, s)
      end
  end.

Definition Valid (src : bytes) : bool :=
  match scan reset src with Some (_, s) => eof s | None => false end.

Definition Compact (src : bytes) : option bytes :=
  match scan reset src with
  | Some (kept, s) => if eof s then Some kept else None
  | None => None
  end.

(** ** Compaction is idempotent *)

Definition ended (x : scanState) : bool :=
  match x with EndValue | State1 | State0 | Dot0 | E0 => true | _ => false end.

(** The scanner of the original text and of the kept bytes: they differ only
    where white space behind a value has been skipped. *)
Inductive similar : scanner → scanner → Prop :=
| similar_eq s : similar s s
| similar_value x p ps : ended x = true → similar (mkScanner EndValue (p :: ps) false false) (mkScanner x (p :: ps) false false)
| similar_top x : ended x = true → similar (mkScanner EndTop [] true false) (mkScanner x [] false false).

(** [endTop] is set behind the value only, and a failed scanner stays so. *)
Definition open_ok (s : scanner) : Prop :=
  if failed s then st s = StateError else endTop s = true → st s = EndTop ∧ stack s = [].

Lemma failed_stays s c code s' : step s c = (code, s') → failed s' = false → failed s = false.
Proof.
  destruct s as [x k e f]. unfold step, state0, stateESign, stateBeginValue, stateBeginString, expect, stateEndValue, stateEndTop,
    pushParseState, popParseState, goto, scan_error. cbn.
  repeat case_match; intros; simplify_eq; done.
Qed.

Ltac scan_cases :=
  unfold step, state0, stateESign, stateBeginValue, stateBeginString, expect, stateEndValue, stateEndTop, pushParseState,
    popParseState, goto, scan_error in *; cbn [st stack endTop failed tail fst snd] in *.

Lemma open_ok_step s c code s' : open_ok s → step s c = (code, s') → open_ok s'.
Proof.
  destruct s as [x k e f]. unfold open_ok. scan_cases. intros H. destruct f; [subst x; scan_cases; by intros [= _ <-]|].
  destruct e; [destruct (H eq_refl) as [-> ->]|clear H; destruct x];
    scan_cases; repeat case_match; intros; simplify_eq; done.
Qed.

Lemma skip_similar s c s' : open_ok s → step s c = (Skip, s') → failed s' = false → similar s' s.
Proof.
  intros H E F. pose proof (failed_stays _ _ _ _ E F) as Hf. destruct s as [x k e f]. cbn in Hf. subst f.
  unfold open_ok in H. scan_cases.
  destruct e; [destruct (H eq_refl) as [-> ->]|clear H; destruct x]; scan_cases; repeat case_match; simplify_eq;
    try apply similar_eq; try (by apply similar_value); by apply similar_top.
Qed.

Lemma isSpace_spec c : isSpace c = true → c = 32 ∨ c = 9 ∨ c = 13 ∨ c = 10.
Proof. unfold isSpace. rewrite !orb_true_iff, !Z.eqb_eq. tauto. Qed.

(** Number states hand every byte that ends a value to [stateEndValue]. *)
Lemma ended_step x k c s' : ended x = true → step (mkScanner EndValue k false false) c = (Keep, s') →
  step (mkScanner x k false false) c = (Keep, s').
Proof.
  intros Hx. destruct x; try done; scan_cases; destruct k as [|p k]; scan_cases; try (by case_match).
  all: destruct (isSpace c) eqn:Hs; [done|]; destruct p; repeat case_match; intros; simplify_eq; try done.
  all: unfold isDigit in *; repeat match goal with H : (_ =? _) = true |- _ => apply Z.eqb_eq in H; subst end; done.
Qed.

Lemma step_similar s s' c s1 : similar s s' → step s c = (Keep, s1) → step s' c = (Keep, s1).
Proof.
  intros [s0|x p ps Hx|x Hx] E; [done|by apply ended_step|].
  exfalso. revert E. scan_cases. by destruct (isSpace c).
Qed.

Lemma eof_similar s s' : similar s s' → eof s = true → eof s' = true.
Proof.
  intros [s0|x p ps Hx|x Hx]; [done| |].
  - unfold eof. scan_cases. change (isSpace 32) with true. by destruct x.
  - intros _. unfold eof. scan_cases. by destruct x.
Qed.

Lemma similar_trans s1 s2 s3 : similar s1 s2 → similar s2 s3 → similar s1 s3.
Proof.
  intros H1 H2. destruct H1; [done| |]; inversion H2; subst; try (by constructor); try done; by constructor.
Qed.

Lemma scan_similar src kept s s' s1 : open_ok s → similar s s' → scan s src = Some (kept, s1) → eof s1 = true →
  ∃ s1', scan s' kept = Some (kept, s1') ∧ similar s1 s1'.
Proof.
  revert kept s s'. induction src as [|c src IH]; intros kept s s' Ho Hs; cbn [scan].
  { intros [= <- <-] _. by exists s'. }
  destruct (step s c) as [[] s2] eqn:E.
  - destruct (scan s2 src) as [[k s3]|] eqn:E2; [|done]. cbn. intros [= <- <-] He.
    destruct (IH k s2 s2 (open_ok_step _ _ _ _ Ho E) (similar_eq s2) E2 He) as (s1' & H1 & H2).
    exists s1'. cbn [scan]. by rewrite (step_similar _ _ _ _ Hs E), H1.
  - intros E2 He. assert (failed s2 = false) as Hf.
    { destruct (failed s2) eqn:Hf; [|done]. exfalso.
      pose proof (open_ok_step _ _ _ _ Ho E) as Ho2. unfold open_ok in Ho2. rewrite Hf in Ho2. destruct src as [|d src]; cbn [scan] in E2.
      - injection E2 as _ <-. unfold eof in He. by rewrite Hf in He.
      - unfold step in E2. by rewrite Ho2 in E2. }
    apply (IH kept s2 s'); [by eapply open_ok_step| |done..].
    eapply similar_trans; [by eapply skip_similar|done].
  - done.
Qed.

Lemma Valid_Compact src : Valid src = true ↔ is_Some (Compact src).
Proof.
  unfold Valid, Compact. destruct (scan reset src) as [[k s]|]; [|by split; [|intros []]].
  destruct (eof s); split; done.
Qed.

(** What [Compact] returns is valid, not empty and compact. *)
Lemma Compact_idem src t : Compact src = Some t → Compact t = Some t ∧ Valid t = true ∧ t ≠ [].
Proof.
  intros H. enough (Compact t = Some t) as Ht.
  { split_and!; [done|by apply Valid_Compact; eexists|]. intros ->. done. }
  unfold Compact in *. destruct (scan reset src) as [[k s]|] eqn:E; [|done]. destruct (eof s) eqn:He; [|done].
  injection H as ->. destruct (scan_similar src t reset reset s) as (s' & -> & Hs); [done|constructor|done..|].
  by rewrite (eof_similar _ _ Hs He).
Qed.
