(* ===== verification/GoFloat.v ===== *)
(** * Floating-point numbers of Go

    A [float64] or [float32] is its IEEE 754 bit pattern, an integer.  A finite
    pattern stands for a mantissa times a power of two; rounding, parsing and
    printing are exact integer arithmetic on fractions.  What the code uses:
    conversions between the two widths and integers, [math.Trunc], the reading of
    JSON numbers ([strconv.ParseInt], [strconv.ParseFloat]) and their printing by
    encoding/json ([strconv.AppendFloat] with precision -1). *)
From S2P Require Import Prelude GoText GoJson.

(** ** Formats *)

Record format := mkFormat { mantBits : Z; expBits : Z }.

Definition binary64 : format := mkFormat 52 11.
Definition binary32 : format := mkFormat 23 8.

(** The least exponent of the last place. *)
Definition emin (f : format) : Z := 2 - 2 ^ (expBits f - 1) - mantBits f.

(** The pattern of infinity, above all finite ones. *)
Definition inf_bits (f : format) : Z := (2 ^ expBits f - 1) * 2 ^ mantBits f.
Definition sign_bit (f : format) : Z := 2 ^ (mantBits f + expBits f).

Definition negative (f : format) (b : Z) : bool := sign_bit f <=? b.
Definition magnitude (f : format) (b : Z) : Z := if negative f b then b - sign_bit f else b.

Definition IsNaN (f : format) (b : Z) : bool := inf_bits f <? magnitude f b.
Definition IsInf (f : format) (b : Z) : bool := magnitude f b =? inf_bits f.

Definition with_sign (f : format) (neg : bool) (m : Z) : Z := if neg then m + sign_bit f else m.

(** The mantissa and the exponent of a finite magnitude. *)
Definition mant_exp (f : format) (m : Z) : Z * Z :=
  let field := m / 2 ^ mantBits f in
  let fraction := m mod 2 ^ mantBits f in
  if field =? 0 then (fraction, emin f) else (fraction + 2 ^ mantBits f, field - 1 + emin f).

(** [n * b^e] as a fraction with a positive denominator. *)
Definition power (b n e : Z) : Z * Z := if 0 <=? e then (n * b ^ e, 1) else (n, b ^ (- e)).

(** ** Rounding to the nearest, ties to even *)

Definition round_even (n d : Z) : Z :=
  let q := n / d in
  let r := 2 * (n mod d) in
  if r <? d then q else if d <? r then q + 1 else if Z.even q then q else q + 1.

(** [num / den] in units of [2^e]. *)
Definition units (num den e : Z) : Z * Z := if 0 <=? e then (num, den * 2 ^ e) else (num * 2 ^ (- e), den).

Definition last_place (f : format) (num den : Z) : Z :=
  let p := mantBits f in
  let e := Z.log2 num - Z.log2 den - p in
  let '(n, d) := units num den e in
  Z.max (emin f) (if n <? d * 2 ^ p then e - 1 else e).

(** The magnitude of [num / den]; a carry of the mantissa runs into the exponent. *)
Definition round_magnitude (f : format) (num den : Z) : Z :=
  if num =? 0 then 0
  else
    let e := last_place f num den in
    let '(n, d) := units num den e in
    Z.min (inf_bits f) ((e - emin f) * 2 ^ mantBits f + round_even n d).

(** ** Conversions *)

(** [float64(x)] of a [float32]; a NaN stays one. *)
Definition widen (b : Z) : Z :=
  let m := magnitude binary32 b in
  let neg := negative binary32 b in
  if IsNaN binary32 b then with_sign binary64 neg (inf_bits binary64 + 2 ^ 51)
  else if IsInf binary32 b then with_sign binary64 neg (inf_bits binary64)
  else let '(n, d) := let '(x, e) := mant_exp binary32 m in power 2 x e in with_sign binary64 neg (round_magnitude binary64 n d).

(** [float32(x)] of a finite [float64]. *)
Definition narrow (b : Z) : Z :=
  let '(n, d) := let '(x, e) := mant_exp binary64 (magnitude binary64 b) in power 2 x e in
  with_sign binary32 (negative binary64 b) (round_magnitude binary32 n d).

(** [float64(x)] of an [int64]. *)
Definition float_of_int (z : Z) : Z := with_sign binary64 (z <? 0) (round_magnitude binary64 (Z.abs z) 1).

(** [x == y] of finite numbers: the zeros are equal. *)
Definition float_eq (x y : Z) : bool :=
  (x =? y) || ((magnitude binary64 x =? 0) && (magnitude binary64 y =? 0)).

(** [math.Trunc(x) == x] of a finite number. *)
Definition is_integral (b : Z) : bool :=
  let '(x, e) := mant_exp binary64 (magnitude binary64 b) in
  let '(n, d) := power 2 x e in n mod d =? 0.

(** [int64(x)]: outside of the range the language leaves the value to the
    processor; amd64 gives the least integer, and no processor gives one whose
    use below differs. *)
Definition int_of_float (b : Z) : Z :=
  let '(x, e) := mant_exp binary64 (magnitude binary64 b) in
  let '(n, d) := power 2 x e in
  let z := if negative binary64 b then - (n / d) else n / d in
  if (-9223372036854775808 <=? z) && (z <=? 9223372036854775807) then z else -9223372036854775808.

(** ** Numbers in decimal notation *)

Fixpoint span_digits (s : bytes) : bytes * bytes :=
  match s with
  | c :: s' => if isDigit c then let '(ds, rest) := span_digits s' in (c :: ds, rest) else ([], s)
  | [] => ([], [])
  end.

Definition digits_value (ds : bytes) : Z := fold_left (λ n c, 10 * n + (c - 48)) ds 0.

(** An exponent has at most five digits that count. *)
Definition exponent_value (ds : bytes) : Z := fold_left (λ n c, if n <? 10000 then 10 * n + (c - 48) else n) ds 0.

Definition read_sign (s : bytes) : bool * bytes :=
  match s with
  | c :: s' => if c =? 45 then (true, s') else if c =? 43 then (false, s') else (false, s)
  | [] => (false, [])
  end.

Definition read_fraction (s : bytes) : bytes * bytes :=
  match s with c :: s' => if c =? 46 then span_digits s' else ([], s) | [] => ([], []) end.

(** The sign, the digits as an integer and its power of ten. *)
Definition read_decimal (s : bytes) : option (bool * Z * Z) :=
  let '(neg, s) := read_sign s in
  let '(int, s) := span_digits s in
  let '(frac, s) := read_fraction s in
  match int ++ frac with
  | [] => None
  | ds =>
      let mant := digits_value ds in
      let scale := - Z.of_nat (length frac) in
      match s with
      | [] => Some (neg, mant, scale)
      | c :: s =>
          if (c =? 101) || (c =? 69) then
            let '(eneg, s) := read_sign s in
            match span_digits s with
            | (e :: ds, []) => let x := exponent_value (e :: ds) in Some (neg, mant, scale + if eneg then - x else x)
            | _ => None
            end
          else None
      end
  end.

(** [strconv.ParseFloat(s, 64)]: nothing on a syntax or a range error. *)
Definition ParseFloat (s : bytes) : option Z :=
  match read_decimal s with
  | None => None
  | Some (neg, mant, e) =>
      let '(n, d) := power 10 mant e in
      let m := round_magnitude binary64 n d in
      if m =? inf_bits binary64 then None else Some (with_sign binary64 neg m)
  end.

(** [strconv.ParseInt(s, 10, 64)]. *)
Definition ParseInt (s : bytes) : option Z :=
  let '(neg, s) := read_sign s in
  match span_digits s with
  | (d :: ds, []) =>
      let z := digits_value (d :: ds) in
      let z := if neg then - z else z in
      if (-9223372036854775808 <=? z) && (z <=? 9223372036854775807) then Some z else None
  | _ => None
  end.

(** ** The shortest decimal *)

(** The least [k] from the given one on with [x < 10^k], for a fraction. *)
Fixpoint decimal_point (fuel : nat) (n d k : Z) : Z :=
  match fuel with
  | O => k
  | S fuel => let '(pn, pd) := power 10 1 k in if n * pd <? pn * d then k else decimal_point fuel n d (k + 1)
  end.

(** The interval of the numbers that round to a magnitude, in quarters of its last
    place: the lower and the upper end, and whether the ends belong to it. *)
Definition rounding_interval (f : format) (m : Z) : Z * Z * bool :=
  let '(x, e) := mant_exp f m in
  let narrow_below := (m mod 2 ^ mantBits f =? 0) && (emin f <? e) in
  (4 * x - (if narrow_below then 1 else 2), 4 * x + 2, Z.even x).

(** The digits of the nearest decimal with [n] digits that rounds to [m], if there is one. *)
Definition decimal_with (f : format) (m k n : Z) : option Z :=
  let '(x, e) := mant_exp f m in
  let '(lo, hi, closed) := rounding_interval f m in
  let '(pn, pd) := power 2 1 (e - 2) in
  let '(tn, td) := power 10 1 (k - n) in
  let den := pd * tn in
  let at_ z := z * pn * td in
  let down := at_ (4 * x) / den in
  let inside c := if closed then (at_ lo <=? c * den) && (c * den <=? at_ hi) else (at_ lo <? c * den) && (c * den <? at_ hi) in
  match inside down, inside (down + 1) with
  | true, true =>
      let r := 2 * (at_ (4 * x) - down * den) in
      Some (if r <? den then down else if den <? r then down + 1 else if Z.even down then down else down + 1)
  | true, false => Some down
  | false, true => Some (down + 1)
  | false, false => None
  end.

(** Seventeen digits are always enough for a [float64]. *)
Fixpoint shortest_from (f : format) (m k : Z) (fuel : nat) (n : Z) : option (Z * Z) :=
  match fuel with
  | O => None
  | S fuel => match decimal_with f m k n with Some c => Some (c, n) | None => shortest_from f m k fuel (n + 1) end
  end.

Fixpoint strip_zeros (fuel : nat) (ds : bytes) : bytes :=
  match fuel with
  | O => ds
  | S fuel => match last ds with Some 48 => strip_zeros fuel (take (length ds - 1) ds) | _ => ds end
  end.

(** The digits and the position of the decimal point of a nonzero magnitude. *)
Definition shortest (f : format) (m : Z) : bytes * Z :=
  let '(x, e) := mant_exp f m in
  let '(n, d) := power 2 x e in
  let k := decimal_point 6 n d ((Z.log2 x + e) * 1233 / 4096 - 1) in
  match shortest_from f m k 17 1 with
  | Some (c, nd) =>
      let ds := digits 20 c in
      (strip_zeros (length ds) ds, k + (Z.of_nat (length ds) - nd))
  | None => ([], 0)
  end.

(** ** Printing *)

Definition zeros (n : Z) : bytes := replicate (Z.to_nat n) 48.

(** Format 'f', precision -1. *)
Definition format_f (neg : bool) (ds : bytes) (dp : Z) : bytes :=
  let nd := Z.of_nat (length ds) in
  let int := if 0 <? dp then take (Z.to_nat dp) ds ++ zeros (dp - nd) else [48] in
  let frac := if dp <? nd then 46 :: zeros (- dp) ++ drop (Z.to_nat dp) ds else [] in
  (if neg then [45] else []) ++ int ++ frac.

(** Format 'e', precision -1, as encoding/json cleans it up: an exponent of one
    digit and a sign has no leading zero. *)
Definition format_e (neg : bool) (ds : bytes) (dp : Z) : bytes :=
  let e := dp - 1 in
  (if neg then [45] else []) ++ take 1 ds ++ (match drop 1 ds with [] => [] | frac => 46 :: frac end) ++
  101 :: (if e <? 0 then 45 else 43) :: FormatUint (Z.abs e).

(** [floatEncoder(64)]: nothing for NaN and the infinities. *)
Definition json_float (b : Z) : option bytes :=
  let m := magnitude binary64 b in
  let neg := negative binary64 b in
  if IsNaN binary64 b || IsInf binary64 b then None
  else if m =? 0 then Some (if neg then [45; 48] else [48])
  else
    let '(ds, dp) := shortest binary64 m in
    let '(n, d) := let '(x, e) := mant_exp binary64 m in power 2 x e in
    Some (if (n * 10 ^ 6 <? d) || (10 ^ 21 * d <=? n) then format_e neg ds dp else format_f neg ds dp).
