(* ===== verification/GoAny.v ===== *)
(** * encoding/json: values of type [any]

    [Decoder.Decode] into an [any] with [UseNumber], and [Marshal].  A value is one
    of the dynamic types the package's decoders make; a [map[string]any] is its
    list of entries in the order of their keys, the order both encoders of the
    package write it in.  [readValue] finds the end of the next value of a stream
    with the scanner of [GoJson]; the value is then parsed by recursive descent,
    with the length of the text as fuel. *)
From S2P Require Import Prelude GoError GoText GoJson GoFloat.

(** [VNumber] is a [json.Number], [VInt] an [int64], [VFloat] a [float64], [VBytes] a [[]byte]. *)
Inductive value :=
| VNil
| VBool (b : bool)
| VString (s : bytes)
| VNumber (s : bytes)
| VInt (z : Z)
| VFloat (f : Z)
| VBytes (b : bytes)
| VArray (l : list value)
| VObject (l : list (bytes * value)).

#[export] Instance value_inhabited : Inhabited value := populate VNil.

(** [strings.Compare(a, b) < 0] *)
Fixpoint string_lt (a b : bytes) : bool :=
  match a, b with
  | [], [] => false
  | [], _ :: _ => true
  | _ :: _, [] => false
  | x :: a, y :: b => (x <? y) || ((x =? y) && string_lt a b)
  end.

(** [m[key] = v] *)
Fixpoint object_set {V} (key : bytes) (v : V) (l : list (bytes * V)) : list (bytes * V) :=
  match l with
  | [] => [(key, v)]
  | (k, w) :: rest =>
      if string_lt key k then (key, v) :: l
      else if bool_decide (key = k) then (key, v) :: rest
      else (k, w) :: object_set key v rest
  end.

(** ** The next value of a stream *)

(** [readValue]: the text of the value and what follows it.  The scanner ends at a
    closing bracket, or at the byte behind any other value. *)
Fixpoint read_value_loop (s : scanner) (text src : bytes) : result (bytes * bytes) :=
  match src with
  | [] =>
      if endTop (step s 32).2 then Ok (text, [])
      else Err (Sentinel (if forallb isSpace text then io_EOF else io_ErrUnexpectedEOF))
  | c :: src' =>
      match step s c with
      | (Error, _) => Err (Opaque "json: SyntaxError")
      | (Keep, s) => if endTop s then Ok (text ++ [c], src') else read_value_loop s (text ++ [c]) src'
      | (Skip, s) => if endTop s then Ok (text, src) else read_value_loop s (text ++ [c]) src'
      end
  end.

Definition readValue (src : bytes) : result (bytes * bytes) := read_value_loop reset [] src.

(** ** Strings *)

(** [utf8.DecodeRune]: the rune and its size. *)
Definition DecodeRune (s : bytes) : Z * nat :=
  match runes (take 4 s) with
  | [] => (RuneError, O)
  | r :: _ => if (r =? RuneError) && negb (bool_decide (utf8_encode RuneError `prefix_of` s)) then (r, 1%nat) else (r, length (utf8_encode r))
  end.

Definition hex_digit (c : Z) : option Z :=
  if isDigit c then Some (c - 48)
  else if (97 <=? c) && (c <=? 102) then Some (c - 87)
  else if (65 <=? c) && (c <=? 70) then Some (c - 55) else None.

Definition hex4 (a b c d : Z) : option Z :=
  a ← hex_digit a; b ← hex_digit b; c ← hex_digit c; d ← hex_digit d;
  Some (((a * 16 + b) * 16 + c) * 16 + d).

(** [getu4], behind the backslash. *)
Definition getu4 (s : bytes) : option Z :=
  match s with
  | u :: a :: b :: c :: d :: _ => if u =? 117 then hex4 a b c d else None
  | _ => None
  end.

(** The rest of a text that starts with the byte [b]. *)
Definition behind_byte (b : Z) (s : bytes) : option bytes :=
  match s with c :: s => if c =? b then Some s else None | [] => None end.

Definition escaped_byte (c : Z) : option Z :=
  if (c =? 34) || (c =? 92) || (c =? 47) then Some c
  else if c =? 98 then Some 8 else if c =? 102 then Some 12 else if c =? 110 then Some 10
  else if c =? 114 then Some 13 else if c =? 116 then Some 9 else None.

(** The rune of [\uXXXX] at the start of the rest, a surrogate with the escape that
    follows it; the bytes it takes behind the backslash. *)
Definition unicode_escape (s : bytes) : option (Z * nat) :=
  rr ← getu4 s;
  if is_high rr || is_low rr then
    match behind_byte 92 (drop 5 s) ≫= getu4 with
    | Some rr1 =>
        if is_high rr && is_low rr1 then Some ((rr - 55296) * 1024 + (rr1 - 56320) + 65536, 11%nat) else Some (RuneError, 5%nat)
    | None => Some (RuneError, 5%nat)
    end
  else Some (rr, 5%nat).

(** [unquote], from behind the opening quote: the string and what follows it. *)
Fixpoint unquote (fuel : nat) (out s : bytes) : option (bytes * bytes) :=
  match fuel with
  | O => None
  | S fuel =>
      match s with
      | [] => None
      | c :: s' =>
          if c =? 34 then Some (out, s')
          else if c =? 92 then
            match s' with
            | [] => None
            | e :: s'' =>
                if e =? 117 then
                  '(r, n) ← unicode_escape s'; unquote fuel (out ++ utf8_encode r) (drop n s')
                else b ← escaped_byte e; unquote fuel (out ++ [b]) s''
            end
          else if c <? 32 then None
          else if c <? 128 then unquote fuel (out ++ [c]) s'
          else let '(r, n) := DecodeRune s in unquote fuel (out ++ utf8_encode r) (drop n s)
      end
  end.

(** ** Values *)

Fixpoint skip_spaces (s : bytes) : bytes :=
  match s with c :: s' => if isSpace c then skip_spaces s' else s | [] => [] end.

Definition number_byte (c : Z) : bool := isDigit c || (c =? 45) || (c =? 43) || (c =? 46) || (c =? 101) || (c =? 69).

Fixpoint span_number (s : bytes) : bytes * bytes :=
  match s with
  | c :: s' => if number_byte c then let '(n, rest) := span_number s' in (c :: n, rest) else ([], s)
  | [] => ([], [])
  end.

(** [valueInterface], [arrayInterface] and [objectInterface]; a text the scanner
    accepted never leads to [None]. *)
Fixpoint parse_value (fuel : nat) (s : bytes) : option (value * bytes) :=
  match fuel with
  | O => None
  | S fuel =>
      match skip_spaces s with
      | [] => None
      | c :: s' =>
          if c =? 34 then '(str, rest) ← unquote (S (length s')) [] s'; Some (VString str, rest)
          else if c =? 91 then
            match behind_byte 93 (skip_spaces s') with
            | Some rest => Some (VArray [], rest)
            | None => parse_elements fuel [] s'
            end
          else if c =? 123 then
            match behind_byte 125 (skip_spaces s') with
            | Some rest => Some (VObject [], rest)
            | None => parse_members fuel [] s'
            end
          else if c =? 116 then Some (VBool true, drop 3 s')
          else if c =? 102 then Some (VBool false, drop 4 s')
          else if c =? 110 then Some (VNil, drop 3 s')
          else let '(n, rest) := span_number (c :: s') in Some (VNumber n, rest)
      end
  end
with parse_elements (fuel : nat) (l : list value) (s : bytes) : option (value * bytes) :=
  match fuel with
  | O => None
  | S fuel =>
      '(v, rest) ← parse_value fuel s;
      let rest := skip_spaces rest in
      match behind_byte 44 rest with
      | Some rest => parse_elements fuel (l ++ [v]) rest
      | None => rest ← behind_byte 93 rest; Some (VArray (l ++ [v]), rest)
      end
  end
with parse_members (fuel : nat) (l : list (bytes * value)) (s : bytes) : option (value * bytes) :=
  match fuel with
  | O => None
  | S fuel =>
      s ← behind_byte 34 (skip_spaces s);
      '(key, rest) ← unquote (S (length s)) [] s;
      rest ← behind_byte 58 (skip_spaces rest);
      '(v, rest) ← parse_value fuel rest;
      let l := object_set key v l in
      let rest := skip_spaces rest in
      match behind_byte 44 rest with
      | Some rest => parse_members fuel l rest
      | None => rest ← behind_byte 125 rest; Some (VObject l, rest)
      end
  end.

(** Every call takes a byte or follows one that does. *)
Definition unmarshal (text : bytes) : result value :=
  match parse_value (S (2 * length text)) text with
  | Some (v, _) => Ok v
  | None => Err (Opaque "json: internal error")
  end.

(** [dec.Decode(&value)] on the stream: the value and the rest of the stream. *)
Definition Decode_value (src : bytes) : result (value * bytes) :=
  '(text, rest) ← readValue src;
  v ← unmarshal text;
  Ok (v, rest).

(** [dec.Decode(&struct{}{}) == io.EOF]: nothing but white space is left.  Any
    value, broken or not, gives another result. *)
Definition at_EOF (rest : bytes) : bool := forallb isSpace rest.

(** [json.Unmarshal] into a [map[string]json.RawMessage]: the texts of the values. *)
Fixpoint raw_members (fuel : nat) (l : list (bytes * bytes)) (s : bytes) : option (list (bytes * bytes)) :=
  match fuel with
  | O => None
  | S fuel =>
      s ← behind_byte 34 (skip_spaces s);
      '(key, rest) ← unquote (S (length s)) [] s;
      rest ← behind_byte 58 (skip_spaces rest);
      let text := skip_spaces rest in
      '(_, rest) ← parse_value (S (2 * length text)) text;
      let l := object_set key (take (length text - length rest) text) l in
      let rest := skip_spaces rest in
      match behind_byte 44 rest with
      | Some rest => raw_members fuel l rest
      | None => _ ← behind_byte 125 rest; Some l
      end
  end.

Definition unmarshal_raw (text : bytes) : option (list (bytes * bytes)) :=
  if negb (Valid text) then None
  else
    s ← behind_byte 123 (skip_spaces text);
    match behind_byte 125 (skip_spaces s) with Some _ => Some [] | None => raw_members (S (length s)) [] s end.

(** ** Marshal *)

Definition hex (n : Z) : Z := if n <? 10 then 48 + n else 87 + n.

Definition escape_ascii (c : Z) : bytes :=
  if (c =? 92) || (c =? 34) then [92; c]
  else if c =? 8 then [92; 98] else if c =? 12 then [92; 102] else if c =? 10 then [92; 110]
  else if c =? 13 then [92; 114] else if c =? 9 then [92; 116]
  else if (c <? 32) || (c =? 60) || (c =? 62) || (c =? 38) then [92; 117; 48; 48; hex (c / 16); hex (c mod 16)]
  else [c].

(** [appendString] with HTML escaping. *)
Fixpoint quote_loop (fuel : nat) (out s : bytes) : bytes :=
  match fuel, s with
  | S fuel, c :: s' =>
      if c <? 128 then quote_loop fuel (out ++ escape_ascii c) s'
      else
        let '(r, n) := DecodeRune s in
        let esc :=
          if (r =? RuneError) && (n =? 1)%nat then [92; 117; 102; 102; 102; 100]
          else if (r =? 8232) || (r =? 8233) then [92; 117; 50; 48; 50; hex (r mod 16)]
          else take n s in
        quote_loop fuel (out ++ esc) (drop n s)
  | _, _ => out
  end.

Definition quote (s : bytes) : bytes := quote_loop (length s) [34] s ++ [34].

Definition base64_digit (n : Z) : Z :=
  if n <? 26 then 65 + n else if n <? 52 then 71 + n else if n <? 62 then n - 4 else if n =? 62 then 43 else 47.

(** base64.StdEncoding *)
Fixpoint base64 (s : bytes) : bytes :=
  match s with
  | a :: b :: c :: s =>
      base64_digit (a / 4) :: base64_digit (a mod 4 * 16 + b / 16) :: base64_digit (b mod 16 * 4 + c / 64) ::
      base64_digit (c mod 64) :: base64 s
  | [a; b] => [base64_digit (a / 4); base64_digit (a mod 4 * 16 + b / 16); base64_digit (b mod 16 * 4); 61]
  | [a] => [base64_digit (a / 4); base64_digit (a mod 4 * 16); 61; 61]
  | [] => []
  end.

(** [isValidNumber]: a literal the scanner takes for a number. *)
Definition isValidNumber (s : bytes) : bool :=
  match s with
  | c :: _ => ((c =? 45) || isDigit c) && forallb number_byte s && Valid s
  | [] => false
  end.

Definition join (sep : bytes) (l : list bytes) : bytes :=
  match l with [] => [] | x :: l => fold_left (λ out y, out ++ sep ++ y) l x end.

Fixpoint Marshal (v : value) : result bytes :=
  match v with
  | VNil => Ok [110; 117; 108; 108]
  | VBool true => Ok [116; 114; 117; 101]
  | VBool false => Ok [102; 97; 108; 115; 101]
  | VString s => Ok (quote s)
  | VNumber s =>
      let s := match s with [] => [48] | _ => s end in
      if isValidNumber s then Ok s else Err (Opaque "json: invalid number literal %q")
  | VInt z => Ok (FormatInt z)
  | VFloat f => match json_float f with Some s => Ok s | None => Err (Opaque "json: UnsupportedValueError") end
  | VBytes b => Ok (34 :: base64 b ++ [34])
  | VArray l =>
      items ← (fix items (l : list value) : result (list bytes) :=
        match l with
        | [] => Ok []
        | v :: l => x ← Marshal v; rest ← items l; Ok (x :: rest)
        end) l;
      Ok (91 :: join [44] items ++ [93])
  | VObject l =>
      items ← (fix items (l : list (bytes * value)) : result (list bytes) :=
        match l with
        | [] => Ok []
        | (k, v) :: l => x ← Marshal v; rest ← items l; Ok ((quote k ++ 58 :: x) :: rest)
        end) l;
      Ok (123 :: join [44] items ++ [125])
  end.

(** [appendCompact] with HTML escaping, behind [Compact]: the bytes are in strings. *)
Fixpoint escape_html (s : bytes) : bytes :=
  match s with
  | [] => []
  | a :: s' =>
      match s' with
      | b :: c :: rest =>
          if (a =? 226) && (b =? 128) && ((c =? 168) || (c =? 169)) then [92; 117; 50; 48; 50; hex (c mod 16)] ++ escape_html rest
          else (if (a =? 60) || (a =? 62) || (a =? 38) then escape_ascii a else [a]) ++ escape_html s'
      | _ => (if (a =? 60) || (a =? 62) || (a =? 38) then escape_ascii a else [a]) ++ escape_html s'
      end
  end.

(** [json.Marshal] of a [map[string]json.RawMessage]. *)
Fixpoint marshal_members (l : list (bytes * bytes)) : option (list bytes) :=
  match l with
  | [] => Some []
  | (key, raw) :: l =>
      compact ← Compact (match raw with [] => [110; 117; 108; 108] | _ => raw end);
      rest ← marshal_members l;
      Some ((quote key ++ 58 :: escape_html compact) :: rest)
  end.

Definition marshal_raw (l : list (bytes * bytes)) : option bytes :=
  items ← marshal_members l; Some (123 :: join [44] items ++ [125]).
