(* ===== verification/Awareness.v ===== *)
(** * internal/yawareness: presence of the clients of a document

    state.go and protocol.go.  A JSON state is its bytes; a manager whose maps
    are nil is one whose maps are empty.  Each operation holds the manager's
    mutex; the time is the argument of the deterministic variants.  Maps are
    iterated in any order, which no result depends on. *)
From S2P Require Import Prelude GoError Binary Varint GoText GoFloat GoJson GoAny.
Import varint.

Definition null_state : bytes := [110; 117; 108; 108].

(** [normalizeState]: empty is null, anything else must be JSON and is compacted. *)
Definition normalizeState (state : bytes) : result bytes :=
  match state with
  | [] => Ok null_state
  | _ =>
      if negb (Valid state) then Err yawareness_ErrInvalidJSON
      else match Compact state with None => Err yawareness_ErrInvalidJSON | Some compact => Ok compact end
  end.

Record ClientState := mkClient { ClientID : Z; Clock : Z; State : bytes }.

#[export] Instance ClientState_eq_dec : EqDecision ClientState.
Proof. solve_decision. Defined.

Definition IsNull (c : ClientState) : bool := bool_decide (State c = null_state).

Abbreviation Update := (list ClientState).

(** ** The payload *)

Definition awarenessError (op : string) (offset : Z) (err : error) : error := ParseError PkgYAwareness op offset err.

Definition appendVarString (dst value : bytes) : bytes := Append dst (w32 (Z.of_nat (length value))) ++ value.

Definition append_client (dst : bytes) (client : ClientState) : result bytes :=
  state ← normalizeState (State client);
  Ok (appendVarString (Append (Append dst (ClientID client)) (Clock client)) state).

Definition AppendUpdate (dst : bytes) (update : option Update) : result bytes :=
  let clients := default [] update in
  fold_result append_client clients (Append dst (w32 (Z.of_nat (length clients)))).

Definition EncodeUpdate (update : option Update) : result bytes := AppendUpdate [] update.

Definition readVarStringJSON (op : string) : RM bytes :=
  start ← getOffset;
  length ← catch ReadU (λ _ err, awarenessError (op +:+ ".len") start err);
  data ← catch (ReadN length) (λ off err, awarenessError op off err);
  match normalizeState data with
  | Err err => fail (awarenessError op start err)
  | Ok state => mret state
  end.

Definition read_client : RM ClientState :=
  clientStart ← getOffset;
  clientID ← catch ReadU (λ _ err, awarenessError "ReadUpdate.clientID" clientStart err);
  clockStart ← getOffset;
  clock ← catch ReadU (λ _ err, awarenessError "ReadUpdate.clock" clockStart err);
  state ← readVarStringJSON "ReadUpdate.state";
  mret (mkClient clientID clock state).

Definition ReadUpdate : RM Update :=
  start ← getOffset;
  count ← catch ReadU (λ _ err, awarenessError "ReadUpdate.count" start err);
  for_times (Z.to_nat count) (λ clients, client ← read_client; mret (clients ++ [client])) [].

Definition DecodeUpdate (src : bytes) : result Update :=
  match ReadUpdate (NewReader src) with
  | (Err err, _) => Err err
  | (Ok update, reader) =>
      if negb (Remaining reader =? 0)
      then Err (awarenessError "DecodeUpdate.trailing" (Offset reader) yawareness_ErrTrailingBytes)
      else Ok update
  end.

(** ** The manager *)

Definition OutdatedTimeout : Z := 30 * Second.

Record ClientMeta := mkMeta { meta_Clock : Z; LastUpdated : Z }.

#[export] Instance ClientMeta_eq_dec : EqDecision ClientMeta.
Proof. solve_decision. Defined.

Record Change := mkChange { Added : list Z; Updated : list Z; Removed : list Z }.

Definition Change_Empty (c : Change) : bool :=
  match Added c, Updated c, Removed c with [], [], [] => true | _, _, _ => false end.

Definition no_change : Change := mkChange [] [] [].

Record StateManager := mkManager {
  localClientID : Z; hasLocalClientID : bool; states : gmap Z ClientState; meta : gmap Z ClientMeta }.

Definition NewStateManager (localClientID : Z) : StateManager := mkManager localClientID true ∅ ∅.

(** The zero value, before [SetLocalClientID]. *)
Definition zeroManager : StateManager := mkManager 0 false ∅ ∅.

Definition SetLocalClientID (clientID : Z) (m : StateManager) : StateManager :=
  mkManager clientID true (states m) (meta m).

Definition put_state (client : Z) (c : ClientState) (m : StateManager) : StateManager :=
  mkManager (localClientID m) (hasLocalClientID m) (<[client := c]> (states m)) (meta m).
Definition drop_state (client : Z) (m : StateManager) : StateManager :=
  mkManager (localClientID m) (hasLocalClientID m) (delete client (states m)) (meta m).
Definition put_meta (client : Z) (x : ClientMeta) (m : StateManager) : StateManager :=
  mkManager (localClientID m) (hasLocalClientID m) (states m) (<[client := x]> (meta m)).

Inductive changeKind := changeNone | changeAdded | changeUpdated | changeRemoved.

Definition changeKindForStateTransition (hadState hasState : bool) : changeKind :=
  match hadState, hasState with
  | false, true => changeAdded
  | true, true => changeUpdated
  | true, false => changeRemoved
  | false, false => changeNone
  end.

Definition applyClientLocked (m : StateManager) (client : ClientState) (now : Z) : (Z * changeKind) * StateManager :=
  match normalizeState (State client) with
  | Err _ => ((0, changeNone), m)
  | Ok state =>
      let client := mkClient (ClientID client) (Clock client) state in
      let id := ClientID client in
      let currentState := states m !! id in
      let hasState := bool_decide (is_Some currentState) in
      let stale :=
        match meta m !! id with
        | None => false
        | Some currentMeta =>
            (Clock client <=? meta_Clock currentMeta) &&
            (negb (meta_Clock currentMeta =? Clock client) || negb (IsNull client) || negb hasState)
        end in
      if stale then ((0, changeNone), m)
      else
        let '(clock, nextHasState, m) :=
          if IsNull client then
            match currentState with
            | Some current =>
                if hasLocalClientID m && (id =? localClientID m) then
                  (w32 (Clock client + 1), true, put_state id (mkClient (ClientID current) (w32 (Clock client + 1)) (State current)) m)
                else (Clock client, false, drop_state id m)
            | None => (Clock client, false, drop_state id m)
            end
          else (Clock client, true, put_state id client m) in
        ((id, changeKindForStateTransition hasState nextHasState), put_meta id (mkMeta clock now) m)
  end.

Record changeBuilder := mkBuilder { added : gset Z; updated : gset Z; removed : gset Z }.

Definition builder_add (b : changeBuilder) (entry : Z * changeKind) : changeBuilder :=
  let '(id, kind) := entry in
  match kind with
  | changeAdded => mkBuilder (added b ∪ {[id]}) (updated b ∖ {[id]}) (removed b ∖ {[id]})
  | changeUpdated =>
      if bool_decide (id ∈ added b) then b
      else mkBuilder (added b) (updated b ∪ {[id]}) (removed b ∖ {[id]})
  | changeRemoved => mkBuilder (added b ∖ {[id]}) (updated b ∖ {[id]}) (removed b ∪ {[id]})
  | changeNone => b
  end.

Definition sortedChangeIDs (ids : gset Z) : list Z := merge_sort (≤) (elements ids).

Definition builder_finish (b : changeBuilder) : Change :=
  mkChange (sortedChangeIDs (added b)) (sortedChangeIDs (updated b)) (sortedChangeIDs (removed b)).

Definition apply_loop (now : Z) (acc : changeBuilder * StateManager) (client : ClientState) : changeBuilder * StateManager :=
  let '(entry, m) := applyClientLocked acc.2 client now in (builder_add acc.1 entry, m).

Definition ApplyWithChangeAt (update : option Update) (now : Z) (m : StateManager) : Change * StateManager :=
  match update with
  | None => (no_change, m)
  | Some clients =>
      let '(change, m) := fold_left (apply_loop now) clients (mkBuilder ∅ ∅ ∅, m) in
      (builder_finish change, m)
  end.

Definition ApplyAt (update : option Update) (now : Z) (m : StateManager) : StateManager := snd (ApplyWithChangeAt update now m).

Definition Snapshot (m : StateManager) : Update :=
  omap (λ id, states m !! id) (merge_sort (≤) ((map_to_list (states m)).*1)).

Definition update_for (m : StateManager) (clientID : Z) : option ClientState :=
  match meta m !! clientID with
  | None => None
  | Some x =>
      Some (mkClient clientID (meta_Clock x)
        (match states m !! clientID with Some state => State state | None => null_state end))
  end.

Definition UpdateForClients (clientIDs : list Z) (m : StateManager) : Update := omap (update_for m) clientIDs.

Definition Get (clientID : Z) (m : StateManager) : option ClientState := states m !! clientID.
Definition Meta (clientID : Z) (m : StateManager) : option ClientMeta := meta m !! clientID.

Definition localChangeForState (clientID : Z) (hadState hasState : bool) : Change :=
  match changeKindForStateTransition hadState hasState with
  | changeAdded => mkChange [clientID] [] []
  | changeUpdated => mkChange [] [clientID] []
  | changeRemoved => mkChange [] [] [clientID]
  | changeNone => no_change
  end.

Definition SetLocalStateWithChangeAt (state : bytes) (now : Z) (m : StateManager) : result Change * StateManager :=
  match normalizeState state with
  | Err err => (Err err, m)
  | Ok state =>
      if negb (hasLocalClientID m) then (Err yawareness_ErrLocalClientIDNotConfigured, m)
      else
        let id := localClientID m in
        let hadState := bool_decide (is_Some (states m !! id)) in
        let clock := match meta m !! id with Some x => w32 (meta_Clock x + 1) | None => 0 end in
        let client := mkClient id clock state in
        let m := if IsNull client then drop_state id m else put_state id client m in
        (Ok (localChangeForState id hadState (negb (IsNull client))), put_meta id (mkMeta clock now) m)
  end.

Definition SetLocalStateAt (state : bytes) (now : Z) (m : StateManager) : option error * StateManager :=
  match SetLocalStateWithChangeAt state now m with
  | (Err err, m) => (Some err, m)
  | (Ok _, m) => (None, m)
  end.

(** What [SetLocalStateField] reads, under a lock that it then gives back: the local
    state with the field. *)
Definition local_state_with_field (key value : bytes) (m : StateManager) : result bytes :=
  let state := match states m !! localClientID m with Some current => State current | None => [] end in
  let fields := if bool_decide (state = []) || bool_decide (state = null_state) then Some [] else unmarshal_raw state in
  match fields with
  | None => Err yawareness_ErrInvalidJSON
  | Some fields => match marshal_raw (object_set key value fields) with Some next => Ok next | None => Err yawareness_ErrInvalidJSON end
  end.

Definition SetLocalStateFieldWithChangeAt (key value : bytes) (now : Z) (m : StateManager) : result Change * StateManager :=
  match normalizeState value with
  | Err err => (Err err, m)
  | Ok value =>
      match local_state_with_field key value m with
      | Err err => (Err err, m)
      | Ok next => SetLocalStateWithChangeAt next now m
      end
  end.

Definition SetLocalStateFieldAt (key value : bytes) (now : Z) (m : StateManager) : option error * StateManager :=
  match SetLocalStateFieldWithChangeAt key value now m with
  | (Err err, m) => (Some err, m)
  | (Ok _, m) => (None, m)
  end.

Definition RenewLocalIfDueAt (now timeout : Z) (m : StateManager) : (bool * option error) * StateManager :=
  if negb (hasLocalClientID m) then ((false, None), m)
  else
    match states m !! localClientID m, meta m !! localClientID m with
    | Some state, Some x =>
        if Sub now (LastUpdated x) <? Z.quot timeout 2 then ((false, None), m)
        else let '(err, m) := SetLocalStateAt (State state) now m in ((true, err), m)
    | _, _ => ((false, None), m)
    end.

(** The clients the loop removes. *)
Definition stale_clients (now timeout : Z) (m : StateManager) : list Z :=
  (filter (λ e : Z * ClientMeta, negb (hasLocalClientID m && (e.1 =? localClientID m)) ∧ is_Some (states m !! e.1) ∧
    timeout <= Sub now (LastUpdated e.2)) (map_to_list (meta m))).*1.

Definition ExpireStaleWithChangeAt (now timeout : Z) (m : StateManager) : Change * StateManager :=
  if bool_decide (states m = ∅) then (no_change, m)
  else
    let ids := stale_clients now timeout m in
    (mkChange [] [] (merge_sort (≤) ids),
     mkManager (localClientID m) (hasLocalClientID m) (foldr delete (states m) ids) (meta m)).

Definition ExpireStaleAt (now timeout : Z) (m : StateManager) : list Z * StateManager :=
  let '(change, m) := ExpireStaleWithChangeAt now timeout m in (Removed change, m).
