(* ===== verification/AwarenessSpec.v ===== *)
(** * What the awareness component guarantees

    One entry at a time: the view of a client (its clock and its state, if it has
    one), the join an accepted entry computes on it, the invariant of the manager,
    and what one entry of an update does to all of them.  Then the invariant under
    all operations, convergence (the view of a remote client is the newest entry
    delivered, whatever the order and the repetitions), what a reported change
    means, the protection of the local presence, and the round trip of the payload. *)
From S2P Require Import Prelude GoError Binary Varint GoText GoJson GoAny Awareness.
Import varint.

Lemma normalizeState_idem s t : normalizeState s = Ok t → normalizeState t = Ok t ∧ t ≠ [].
Proof.
  assert (∀ t, Compact t = Some t → Valid t = true → t ≠ [] → normalizeState t = Ok t) as Hfix.
  { intros u Hc Hv Hn. unfold normalizeState. rewrite Hv, Hc. by destruct u. }
  unfold normalizeState at 1. destruct s as [|b s].
  - intros [= <-]. split; [reflexivity|done].
  - destruct (Valid _); [|done]. cbn [negb]. destruct (Compact _) as [c|] eqn:E; [|done]. intros [= <-].
    apply Compact_idem in E as (? & ? & ?). split; [by apply Hfix|done].
Qed.

(** ** Views *)

(** Clock and state of a client; no state is a tombstone. *)
Abbreviation cell := (option (Z * option bytes)).

Definition view (m : StateManager) (c : Z) : cell :=
  (λ x, (meta_Clock x, State <$> states m !! c)) <$> meta m !! c.

Definition entry (client : ClientState) : cell :=
  match normalizeState (State client) with
  | Ok s => Some (Clock client, if decide (s = null_state) then None else Some s)
  | Err _ => None
  end.

Definition is_Some_b {A} (x : option A) : bool := match x with Some _ => true | None => false end.

(** The newer clock wins; at equal clocks a tombstone replaces a state. *)
Definition cell_join (cur : cell) (e : Z * option bytes) : cell :=
  match cur with
  | None => Some e
  | Some (k, s) => if (e.1 <? k) || ((e.1 =? k) && (is_Some_b e.2 || negb (is_Some_b s))) then cur else Some e
  end.

Definition join_entry (cur e : cell) : cell := match e with None => cur | Some e => cell_join cur e end.

Definition is_local (m : StateManager) (c : Z) : bool := hasLocalClientID m && (c =? localClientID m).

(** ** The invariant *)

(** A stored state is filed under its client, normalised and not null, and has
    the clock the metadata remembers. *)
Definition state_ok (m : StateManager) (c : Z) (s : ClientState) : Prop :=
  ClientID s = c ∧ normalizeState (State s) = Ok (State s) ∧ State s ≠ null_state ∧
  ∃ x, meta m !! c = Some x ∧ meta_Clock x = Clock s.

Definition manager_ok (m : StateManager) : Prop := ∀ c s, states m !! c = Some s → state_ok m c s.

(** What the reported kind says of the state before and after. *)
Definition transition (client : ClientState) (before after : option ClientState) (e : Z * changeKind) : Prop :=
  match e.2 with
  | changeNone => after = before
  | changeAdded => e.1 = ClientID client ∧ before = None ∧ is_Some after
  | changeUpdated => e.1 = ClientID client ∧ is_Some before ∧ is_Some after ∧ (0 <= Clock client < MaxUint32 → after ≠ before)
  | changeRemoved => e.1 = ClientID client ∧ is_Some before ∧ after = None
  end.

Record applied (m : StateManager) (client : ClientState) (e : Z * changeKind) (m' : StateManager) : Prop := {
  ap_ok : manager_ok m';
  ap_local : localClientID m' = localClientID m ∧ hasLocalClientID m' = hasLocalClientID m;
  ap_other : ∀ c, c ≠ ClientID client → states m' !! c = states m !! c ∧ meta m' !! c = meta m !! c;
  ap_view : is_local m (ClientID client) = false →
    view m' (ClientID client) = join_entry (view m (ClientID client)) (entry client);
  ap_transition : transition client (states m !! ClientID client) (states m' !! ClientID client) e;
  ap_monotone : 0 <= Clock client < MaxUint32 → ∀ x, meta m !! ClientID client = Some x →
    ∃ x', meta m' !! ClientID client = Some x' ∧ meta_Clock x <= meta_Clock x';
  ap_present : is_local m (ClientID client) = true → is_Some (states m !! ClientID client) →
    is_Some (states m' !! ClientID client) }.

Lemma applied_none m client : manager_ok m → join_entry (view m (ClientID client)) (entry client) = view m (ClientID client) →
  applied m client (0, changeNone) m.
Proof. intros Hm Hv. split; try done. intros _ x Hx. exists x. split; [done|lia]. Qed.

(** Storing the state and the metadata of one client. *)
Definition store_client (m m' : StateManager) (c : Z) (s : option ClientState) (x : ClientMeta) : Prop :=
  localClientID m' = localClientID m ∧ hasLocalClientID m' = hasLocalClientID m ∧
  (∀ c', states m' !! c' = if decide (c' = c) then s else states m !! c') ∧
  (∀ c', meta m' !! c' = if decide (c' = c) then Some x else meta m !! c').

Lemma store_client_put m c s k now : store_client m (put_meta c (mkMeta k now) (put_state c s m)) c (Some s) (mkMeta k now).
Proof.
  split_and!; [done..| |]; intros c'; cbn; case_decide; subst; by rewrite ?lookup_insert_eq, ?lookup_insert_ne.
Qed.

Lemma store_client_drop m c k now : store_client m (put_meta c (mkMeta k now) (drop_state c m)) c None (mkMeta k now).
Proof.
  split_and!; [done..| |]; intros c'; cbn; case_decide; subst;
    by rewrite ?lookup_delete_eq, ?lookup_delete_ne, ?lookup_insert_eq, ?lookup_insert_ne.
Qed.

Lemma store_client_ok m m' c s x : manager_ok m → store_client m m' c s x →
  (∀ s', s = Some s' → ClientID s' = c ∧ normalizeState (State s') = Ok (State s') ∧ State s' ≠ null_state ∧ Clock s' = meta_Clock x) →
  manager_ok m'.
Proof.
  intros Hm (_ & _ & Hst & Hme) Hs c' s'. unfold state_ok. rewrite Hst, Hme. case_decide as Hd.
  - intros ->. destruct (Hs s' eq_refl) as (? & ? & ? & ?). subst. split_and!; [done..|]. by eexists.
  - intros H. destruct (Hm _ _ H) as (? & ? & ? & ?). by split_and!.
Qed.

Lemma store_client_view m m' c s x : store_client m m' c s x → view m' c = Some (meta_Clock x, State <$> s).
Proof. intros (_ & _ & Hst & Hme). unfold view. rewrite Hst, Hme. by rewrite !decide_True. Qed.

Lemma store_client_applied m client s x e m' :
  manager_ok m → store_client m m' (ClientID client) s x →
  (∀ s', s = Some s' → ClientID s' = ClientID client ∧ normalizeState (State s') = Ok (State s') ∧ State s' ≠ null_state ∧
    Clock s' = meta_Clock x) →
  (is_local m (ClientID client) = false → Some (meta_Clock x, State <$> s) = join_entry (view m (ClientID client)) (entry client)) →
  transition client (states m !! ClientID client) s e →
  (0 <= Clock client < MaxUint32 → ∀ y, meta m !! ClientID client = Some y → meta_Clock y <= meta_Clock x) →
  (is_local m (ClientID client) = true → is_Some (states m !! ClientID client) → is_Some s) →
  applied m client e m'.
Proof.
  intros Hm Hst Hs Hv Ht Hc Hp. pose proof Hst as (Hl & Hh & H1 & H2). split.
  - by eapply store_client_ok.
  - done.
  - intros c Hne. rewrite H1, H2. by rewrite !decide_False.
  - intros Hloc. rewrite (store_client_view _ _ _ _ _ Hst). by apply Hv.
  - rewrite H1, decide_True by done. done.
  - intros Hr y Hy. exists x. rewrite H2, decide_True by done. split; [done|by eapply Hc].
  - intros Hloc Hsome. rewrite H1, decide_True by done. by apply Hp.
Qed.

Lemma view_meta m c x : meta m !! c = Some x → view m c = Some (meta_Clock x, State <$> states m !! c).
Proof. intros H. unfold view. by rewrite H. Qed.

Lemma view_None m c : meta m !! c = None → view m c = None.
Proof. intros H. unfold view. by rewrite H. Qed.

Lemma IsNull_spec id k s : IsNull (mkClient id k s) = bool_decide (s = null_state).
Proof. done. Qed.

(** The test of [applyClientLocked] is the one of the join. *)
Lemma stale_join m id k s : manager_ok m →
  let had := bool_decide (is_Some (states m !! id)) in
  let e := (k, if decide (s = null_state) then None else Some s) in
  match meta m !! id with
  | None => view m id = None
  | Some x =>
      if (k <=? meta_Clock x) && (negb (meta_Clock x =? k) || negb (bool_decide (s = null_state)) || negb had)
      then cell_join (view m id) e = view m id
      else cell_join (view m id) e = Some e ∧ meta_Clock x <= k ∧ (s ≠ null_state → meta_Clock x < k)
  end.
Proof.
  intros Hm. cbv zeta. destruct (meta m !! id) as [x|] eqn:Ex; [|by apply view_None].
  rewrite (view_meta _ _ _ Ex). unfold cell_join. cbn [fst snd].
  destruct (Z.leb_spec k (meta_Clock x)), (Z.eqb_spec (meta_Clock x) k), (Z.ltb_spec k (meta_Clock x)), (Z.eqb_spec k (meta_Clock x));
    try lia; cbn [andb orb negb]; try done; destruct (decide (s = null_state)) as [Hd|Hd];
    rewrite ?(bool_decide_eq_true_2 (s = null_state)), ?(bool_decide_eq_false_2 (s = null_state)) by done; cbn [andb orb negb is_Some_b];
    try done; try (split_and!; [done|lia|done || (intros; lia)]).
  destruct (states m !! id) as [st|]; cbn; [|done]. split_and!; [done|lia|done].
Qed.

Lemma manager_no_meta m id : manager_ok m → meta m !! id = None → states m !! id = None.
Proof. intros Hm H. destruct (states m !! id) as [s|] eqn:E; [|done]. destruct (Hm _ _ E) as (_ & _ & _ & x & Hx & _). congruence. Qed.

(** Storing a state that is not null. *)
Lemma apply_state_spec m client s now : manager_ok m → normalizeState (State client) = Ok s → s ≠ null_state →
  (∀ x, meta m !! ClientID client = Some x → meta_Clock x < Clock client ∧
    cell_join (view m (ClientID client)) (Clock client, Some s) = Some (Clock client, Some s)) →
  applied m client (ClientID client, changeKindForStateTransition (bool_decide (is_Some (states m !! ClientID client))) true)
    (put_meta (ClientID client) (mkMeta (Clock client) now) (put_state (ClientID client) (mkClient (ClientID client) (Clock client) s) m)).
Proof.
  intros Hm Hn Hs Hx. pose proof (normalizeState_idem _ _ Hn) as [Hn' _].
  eapply store_client_applied; [done|apply store_client_put|..].
  - intros s' [= <-]. done.
  - intros _. unfold entry. rewrite Hn, decide_False by done. cbn.
    destruct (meta m !! ClientID client) as [x|] eqn:Ex.
    + symmetry. by eapply Hx.
    + by rewrite view_None.
  - unfold transition. cbn [fst snd]. destruct (states m !! ClientID client) as [s0|] eqn:E0; cbn; [|done].
    split_and!; [done..|]. intros _ [= E]. destruct (Hm _ _ E0) as (_ & _ & _ & x & Ex & Ek). destruct (Hx _ Ex) as [Hlt _].
    apply (f_equal Clock) in E. cbn in E. lia.
  - intros _ y Hy. destruct (Hx _ Hy). cbn. lia.
  - intros _ _. done.
Qed.

(** A tombstone drops the state of another client. *)
Lemma apply_null_spec m client now : manager_ok m → normalizeState (State client) = Ok null_state →
  (is_local m (ClientID client) = true → states m !! ClientID client = None) →
  (∀ x, meta m !! ClientID client = Some x → meta_Clock x <= Clock client ∧
    cell_join (view m (ClientID client)) (Clock client, None) = Some (Clock client, None)) →
  applied m client (ClientID client, changeKindForStateTransition (bool_decide (is_Some (states m !! ClientID client))) false)
    (put_meta (ClientID client) (mkMeta (Clock client) now) (drop_state (ClientID client) m)).
Proof.
  intros Hm Hn Hloc Hx. eapply store_client_applied; [done|apply store_client_drop|done|..].
  - intros _. unfold entry. rewrite Hn, decide_True by done. cbn.
    destruct (meta m !! ClientID client) as [x|] eqn:Ex.
    + symmetry. by eapply Hx.
    + by rewrite view_None.
  - unfold transition. cbn [fst snd]. by destruct (states m !! ClientID client) as [s0|] eqn:E0.
  - intros _ y Hy. destruct (Hx _ Hy). done.
  - intros Hl [s0 Hs]. rewrite Hloc in Hs; done.
Qed.

(** A tombstone for the local client makes its state newer. *)
Lemma apply_local_null_spec m client current now : manager_ok m →
  is_local m (ClientID client) = true → states m !! ClientID client = Some current →
  (∀ x, meta m !! ClientID client = Some x → meta_Clock x <= Clock client) →
  applied m client (ClientID client, changeUpdated)
    (put_meta (ClientID client) (mkMeta (w32 (Clock client + 1)) now)
      (put_state (ClientID client) (mkClient (ClientID current) (w32 (Clock client + 1)) (State current)) m)).
Proof.
  intros Hm Hloc Hc Hx. destruct (Hm _ _ Hc) as (Hid & Hn & Hnn & x & Ex & Ek). specialize (Hx _ Ex).
  eapply store_client_applied; [done|apply store_client_put|..].
  - intros s' [= <-]. done.
  - by rewrite Hloc.
  - unfold transition. cbn [fst snd]. rewrite Hc. split_and!; [done..|]. intros Hr [= E]. apply (f_equal Clock) in E. cbn in E.
    rewrite w32_small in E by u32. lia.
  - intros Hr y Hy. simplify_eq. cbn. rewrite w32_small by u32. lia.
  - done.
Qed.

Lemma applyClient_spec m client now e m' : manager_ok m → applyClientLocked m client now = (e, m') → applied m client e m'.
Proof.
  intros Hm. unfold applyClientLocked. destruct (normalizeState (State client)) as [s|] eqn:Hn.
  2:{ intros [= <- <-]. apply applied_none; [done|]. unfold entry. by rewrite Hn. }
  cbn [ClientID Clock State]. rewrite IsNull_spec. pose proof (stale_join m (ClientID client) (Clock client) s Hm) as Hj. cbv zeta in Hj.
  destruct (match meta m !! ClientID client with Some _ => _ | None => false end) eqn:Hstale.
  { intros [= <- <-]. apply applied_none; [done|]. unfold entry. rewrite Hn. cbn.
    destruct (meta m !! ClientID client) as [x|]; [|done]. by rewrite Hstale in Hj. }
  assert (∀ x, meta m !! ClientID client = Some x → meta_Clock x <= Clock client ∧ (s ≠ null_state → meta_Clock x < Clock client) ∧
    cell_join (view m (ClientID client)) (Clock client, if decide (s = null_state) then None else Some s) =
      Some (Clock client, if decide (s = null_state) then None else Some s)) as Hx.
  { intros x Ex. rewrite Ex in Hstale, Hj. rewrite Hstale in Hj. by destruct Hj as (? & ? & ?). }
  clear Hj Hstale. destruct (decide (s = null_state)) as [->|Hs].
  - rewrite bool_decide_eq_true_2 by done. fold (is_local m (ClientID client)).
    destruct (states m !! ClientID client) as [current|] eqn:Hc.
    + destruct (is_local m (ClientID client)) eqn:Hloc; intros [= <- <-].
      * apply apply_local_null_spec; [done..|]. intros x Ex. by destruct (Hx x Ex).
      * pose proof (apply_null_spec m client now Hm Hn) as H. rewrite Hc in H. apply H; [by rewrite Hloc|].
        intros x Ex. by destruct (Hx x Ex) as (? & _ & ?).
    + intros [= <- <-]. pose proof (apply_null_spec m client now Hm Hn) as H. rewrite Hc in H. apply H; [done|].
      intros x Ex. by destruct (Hx x Ex) as (? & _ & ?).
  - rewrite bool_decide_eq_false_2 by done. intros [= <- <-]. apply apply_state_spec; [done..|].
    intros x Ex. destruct (Hx x Ex) as (_ & ? & ?). auto.
Qed.

(** ** Whole updates *)

Lemma apply_loop_eq now b m client : apply_loop now (b, m) client =
  (builder_add b (applyClientLocked m client now).1, (applyClientLocked m client now).2).
Proof. unfold apply_loop. cbn [fst snd]. by destruct (applyClientLocked m client now). Qed.

(** The manager after a list of entries. *)
Definition apply_all (now : Z) (clients : list ClientState) (m : StateManager) : StateManager :=
  fold_left (λ m client, (applyClientLocked m client now).2) clients m.

Lemma apply_loop_snd now clients b m : (fold_left (apply_loop now) clients (b, m)).2 = apply_all now clients m.
Proof. revert b m. induction clients as [|x l IH]; intros b m; [done|]. cbn [fold_left]. rewrite apply_loop_eq. apply IH. Qed.

Lemma ApplyAt_all clients now m : ApplyAt (Some clients) now m = apply_all now clients m.
Proof.
  unfold ApplyAt, ApplyWithChangeAt. pose proof (apply_loop_snd now clients (mkBuilder ∅ ∅ ∅) m) as H.
  destruct (fold_left _ _ _). exact H.
Qed.

Lemma applyClient_applied m client now : manager_ok m →
  applied m client (applyClientLocked m client now).1 (applyClientLocked m client now).2.
Proof. intros Hm. apply (applyClient_spec m client now); [done|apply surjective_pairing]. Qed.

Definition entries (c : Z) (clients : list ClientState) : list cell := entry <$> filter (λ x, ClientID x = c) clients.

Lemma is_local_same m m' c : localClientID m' = localClientID m ∧ hasLocalClientID m' = hasLocalClientID m → is_local m' c = is_local m c.
Proof. unfold is_local. by intros [-> ->]. Qed.

Lemma apply_all_spec now clients m : manager_ok m → let m' := apply_all now clients m in
  manager_ok m' ∧ (localClientID m' = localClientID m ∧ hasLocalClientID m' = hasLocalClientID m) ∧
  (∀ c, is_local m c = false → view m' c = fold_left join_entry (entries c clients) (view m c)) ∧
  (∀ c, is_local m c = true → is_Some (states m !! c) → is_Some (states m' !! c)) ∧
  (Forall (λ x, 0 <= Clock x < MaxUint32) clients → ∀ c x, meta m !! c = Some x →
     ∃ x', meta m' !! c = Some x' ∧ meta_Clock x <= meta_Clock x').
Proof.
  cbv zeta. revert m. induction clients as [|client l IH]; intros m Hm; [split_and!; try done; intros _ c x Hx; by exists x|].
  destruct (applyClient_applied m client now Hm) as [Hok Hloc Hoth Hview _ Hmono Hpres].
  cbn [apply_all fold_left]. fold (apply_all now l). set (m1 := (applyClientLocked m client now).2) in *.
  destruct (IH m1 Hok) as (H1 & [H2a H2b] & H3 & H4 & H5). destruct Hloc as [La Lb].
  split_and!; [done|by rewrite <- La|by rewrite <- Lb| | |].
  - intros c Hc. rewrite H3 by (by rewrite (is_local_same m)) . unfold entries. rewrite filter_cons. case_decide as Hd.
    + subst c. cbn. by rewrite Hview.
    + f_equal. destruct (Hoth c) as [E1 E2]; [done|]. unfold view. by rewrite E1, E2.
  - intros c Hc Hs. apply H4; [by rewrite (is_local_same m)|]. destruct (decide (c = ClientID client)) as [->|Hne]; [by apply Hpres|].
    destruct (Hoth c Hne) as [-> _]. done.
  - intros [Hx Hl]%Forall_cons c x Hcx. destruct (decide (c = ClientID client)) as [->|Hne].
    + destruct (Hmono Hx _ Hcx) as (x1 & E1 & ?). destruct (H5 Hl _ _ E1) as (x2 & ? & ?). exists x2. split; [done|lia].
    + destruct (Hoth c Hne) as [_ E]. by apply (H5 Hl c x); rewrite E.
Qed.

(** ** The join *)

Lemma join_best (l : list cell) : match fold_left join_entry l None with
  | None => Forall (λ e, e = None) l
  | Some (k, s) => Some (k, s) ∈ l ∧ ∀ k' s', Some (k', s') ∈ l → k' < k ∨ (k' = k ∧ (s = None ∨ is_Some s'))
  end.
Proof.
  induction l as [|e l IH] using rev_ind; [constructor|]. rewrite fold_left_app. cbn [fold_left].
  destruct (fold_left join_entry l None) as [[k s]|].
  - destruct IH as [Hin Hmax]. destruct e as [[k1 s1]|]; cbn [join_entry cell_join fst snd].
    + destruct (Z.ltb_spec k1 k), (Z.eqb_spec k1 k); cbn [orb andb]; try lia.
      * split; [set_solver|]. intros k' s' [?|[= -> ->]%list_elem_of_singleton]%elem_of_app; [by apply Hmax|lia].
      * subst k1. destruct (is_Some_b s1 || negb (is_Some_b s)) eqn:Eb.
        -- split; [set_solver|]. intros k' s' [?|[= -> ->]%list_elem_of_singleton]%elem_of_app; [by apply Hmax|].
           right. split; [done|]. destruct s as [?|], s1 as [?|]; try done; by auto.
        -- destruct s1; [done|]. split; [set_solver|]. intros k' s' [Hl|[= -> ->]%list_elem_of_singleton]%elem_of_app; [|by auto].
           destruct (Hmax _ _ Hl) as [?|[-> _]]; [by left|by auto].
      * split; [set_solver|]. intros k' s' [Hl|[= -> ->]%list_elem_of_singleton]%elem_of_app.
        -- destruct (Hmax _ _ Hl) as [?|[-> _]]; left; lia.
        -- right. split; [done|]. destruct s1; [by right|by left].
    + split; [set_solver|]. intros k' s' [?|[=]%list_elem_of_singleton]%elem_of_app. by apply Hmax.
  - destruct e as [[k1 s1]|]; cbn [join_entry cell_join].
    + split; [set_solver|]. rewrite Forall_forall in IH.
      intros k' s' [Hl%IH|[= -> ->]%list_elem_of_singleton]%elem_of_app; [done|]. right. split; [done|]. destruct s1; [by right|by left].
    + apply Forall_app. split; [done|]. by apply Forall_singleton.
Qed.

(** At one clock a client has one state. *)
Definition coherent (l : list cell) : Prop := ∀ k s s', Some (k, Some s) ∈ l → Some (k, Some s') ∈ l → s = s'.

Lemma join_unique l1 l2 : (∀ e, e ∈ l1 ↔ e ∈ l2) → coherent l1 → fold_left join_entry l1 None = fold_left join_entry l2 None.
Proof.
  intros Heq Hc. pose proof (join_best l1) as H1. pose proof (join_best l2) as H2.
  destruct (fold_left join_entry l1 None) as [[k1 s1]|], (fold_left join_entry l2 None) as [[k2 s2]|].
  - destruct H1 as [Hi1 Hm1], H2 as [Hi2 Hm2]. pose proof (Hm1 k2 s2 (proj2 (Heq _) Hi2)) as Ha.
    pose proof (Hm2 k1 s1 (proj1 (Heq _) Hi1)) as Hb. assert (k1 = k2) as -> by (destruct Ha as [?|[? _]], Hb as [?|[? _]]; lia).
    destruct Ha as [?|[_ Ha]], Hb as [?|[_ Hb]]; try lia. do 2 f_equal.
    destruct s1 as [s1|], s2 as [s2|]; [|by destruct Ha as [?|[]]|by destruct Hb as [?|[]]|done].
    f_equal. apply (Hc k2); [done|by apply Heq].
  - rewrite Forall_forall in H2. destruct H1 as [H1 _]. by apply Heq, H2 in H1.
  - rewrite Forall_forall in H1. destruct H2 as [H2 _]. by apply Heq, H1 in H2.
  - done.
Qed.

(** ** Deliveries *)

(** A list of updates, each with the time it is applied at. *)
Definition deliver (ds : list (Update * Z)) (m : StateManager) : StateManager :=
  fold_left (λ m d, ApplyAt (Some d.1) d.2 m) ds m.

Definition delivered (c : Z) (ds : list (Update * Z)) : list cell := entries c (concat ds.*1).

Lemma entries_app c l1 l2 : entries c (l1 ++ l2) = entries c l1 ++ entries c l2.
Proof. unfold entries. by rewrite filter_app, fmap_app. Qed.

Lemma deliver_view ds m c : manager_ok m → is_local m c = false →
  view (deliver ds m) c = fold_left join_entry (delivered c ds) (view m c).
Proof.
  revert m. induction ds as [|[u now] ds IH]; intros m Hm Hc; [done|]. cbn [deliver fold_left fst snd].
  rewrite ApplyAt_all. destruct (apply_all_spec now u m Hm) as (Hm' & Hl & Hv & _). fold (deliver ds).
  rewrite IH by (rewrite ?(is_local_same m); done). rewrite Hv by done. unfold delivered.
  change (concat ((u, now) :: ds).*1) with (u ++ concat ds.*1). by rewrite entries_app, fold_left_app.
Qed.

Lemma NewStateManager_ok local : manager_ok (NewStateManager local).
Proof. intros c s H. unfold NewStateManager in H. cbn [states] in H. by rewrite lookup_empty in H. Qed.

Lemma NewStateManager_local local c : c ≠ local → is_local (NewStateManager local) c = false.
Proof. intros H. by apply Z.eqb_neq. Qed.

(** ** The operations *)

Inductive astep : StateManager → StateManager → Prop :=
  | astep_id c m : astep m (SetLocalClientID c m)
  | astep_apply u now m : astep m (ApplyWithChangeAt u now m).2
  | astep_local s now m : astep m (SetLocalStateAt s now m).2
  | astep_field key value now m : astep m (SetLocalStateFieldAt key value now m).2
  | astep_renew now timeout m : astep m (RenewLocalIfDueAt now timeout m).2
  | astep_expire now timeout m : astep m (ExpireStaleAt now timeout m).2.

Inductive areachable : StateManager → Prop :=
  | ar_new local : areachable (NewStateManager local)
  | ar_zero : areachable zeroManager
  | ar_step m m' : areachable m → astep m m' → areachable m'.

(** What every operation keeps. *)
Definition keeps (m m' : StateManager) : Prop :=
  (manager_ok m → manager_ok m') ∧ ∀ c, is_Some (meta m !! c) → is_Some (meta m' !! c).

Lemma keeps_refl m : keeps m m.
Proof. by split. Qed.

Lemma keeps_store m m' c s x : store_client m m' c s x →
  (manager_ok m → ∀ s', s = Some s' → ClientID s' = c ∧ normalizeState (State s') = Ok (State s') ∧ State s' ≠ null_state ∧ Clock s' = meta_Clock x) →
  keeps m m'.
Proof.
  intros Hst Hs. split.
  - intros Hm. eapply store_client_ok; eauto.
  - intros c' Hc. destruct Hst as (_ & _ & _ & ->). by case_decide.
Qed.

Lemma applyClient_meta m client now c : is_Some (meta m !! c) → is_Some (meta (applyClientLocked m client now).2 !! c).
Proof.
  assert (∀ id x (m1 : StateManager), is_Some (meta m1 !! c) → is_Some (meta (put_meta id x m1) !! c)) as Hput.
  { intros id x m1 H. cbn. destruct (decide (c = id)) as [->|]; [by rewrite lookup_insert_eq|by rewrite lookup_insert_ne]. }
  intros H. unfold applyClientLocked. destruct (normalizeState _); [|done]. cbv zeta. cbn [ClientID Clock].
  destruct (match meta m !! ClientID client with Some _ => _ | None => false end); [done|].
  destruct (IsNull _), (states m !! _) as [cur|]; cbn [snd]; try (destruct (hasLocalClientID m && _)); cbn [snd]; by apply Hput.
Qed.

Lemma keeps_apply u now m : keeps m (ApplyWithChangeAt u now m).2.
Proof.
  destruct u as [l|]; [|apply keeps_refl]. fold (ApplyAt (Some l) now m). rewrite ApplyAt_all. split.
  - intros Hm. by apply apply_all_spec.
  - intros c. revert m. induction l as [|x l IH]; intros m Hc; [done|]. apply IH. by apply applyClient_meta.
Qed.

Lemma keeps_local s now m : keeps m (SetLocalStateAt s now m).2.
Proof.
  unfold SetLocalStateAt, SetLocalStateWithChangeAt. destruct (normalizeState s) as [t|] eqn:Hn; [|apply keeps_refl].
  destruct (negb _); [apply keeps_refl|]. cbv zeta. cbn [snd]. rewrite IsNull_spec. case_bool_decide as Hnull.
  - eapply keeps_store; [apply store_client_drop|done].
  - eapply keeps_store; [apply store_client_put|]. intros _ s' [= <-]. cbn. by destruct (normalizeState_idem _ _ Hn).
Qed.

Lemma lookup_foldr_delete {V} (m : gmap Z V) ids c : foldr delete m ids !! c = if decide (c ∈ ids) then None else m !! c.
Proof.
  induction ids as [|i ids IH]; cbn [foldr]; [by rewrite decide_False by set_solver|].
  destruct (decide (c = i)) as [->|Hne]; [rewrite lookup_delete_eq, decide_True by set_solver; done|].
  rewrite lookup_delete_ne, IH by done. case_decide; case_decide; set_solver.
Qed.

Lemma keeps_expire now timeout m : keeps m (ExpireStaleAt now timeout m).2.
Proof.
  unfold ExpireStaleAt, ExpireStaleWithChangeAt. case_bool_decide; [apply keeps_refl|]. split; [|done].
  intros Hm c s. cbn. rewrite lookup_foldr_delete. case_decide; [done|]. intros Hs. by destruct (Hm c s Hs).
Qed.

(** A field is set by setting the whole state. *)
Lemma field_sets_state key value now m : (SetLocalStateFieldAt key value now m).2 = m ∨
  ∃ s, (SetLocalStateFieldAt key value now m) = SetLocalStateAt s now m.
Proof.
  unfold SetLocalStateFieldAt, SetLocalStateFieldWithChangeAt. destruct (normalizeState value) as [v|]; [|by left].
  destruct (local_state_with_field key v m) as [next|]; [|by left]. right. by exists next.
Qed.

Lemma astep_keeps m m' : astep m m' → keeps m m'.
Proof.
  intros [c m1|u now m1|s now m1|key value now m1|now timeout m1|now timeout m1]; [by split|apply keeps_apply|apply keeps_local| | |apply keeps_expire].
  { destruct (field_sets_state key value now m1) as [->|[s ->]]; [apply keeps_refl|apply keeps_local]. }
  unfold RenewLocalIfDueAt. destruct (negb _); [apply keeps_refl|].
  destruct (states m1 !! localClientID m1) as [st|], (meta m1 !! localClientID m1) as [x|]; try apply keeps_refl.
  case_if; [apply keeps_refl|]. pose proof (keeps_local (State st) now m1) as Hk. by destruct (SetLocalStateAt _ _ _).
Qed.

Lemma areachable_ok m : areachable m → manager_ok m.
Proof.
  induction 1 as [local| |m m' _ IH Hs]; [apply NewStateManager_ok|intros c s H; unfold zeroManager in H; cbn [states] in H; by rewrite lookup_empty in H|].
  by apply (astep_keeps _ _ Hs).
Qed.

(** ** Changes *)

(** What a change says of one client, given its state before and after. *)
Definition says (b : changeBuilder) (c : Z) (before after : option ClientState) : Prop :=
  (c ∈ added b ↔ before = None ∧ is_Some after) ∧
  (c ∈ removed b ↔ is_Some before ∧ after = None) ∧
  (c ∈ updated b ↔ is_Some before ∧ is_Some after ∧ after ≠ before).

Definition same_at (b b' : changeBuilder) (c : Z) : Prop :=
  (c ∈ added b' ↔ c ∈ added b) ∧ (c ∈ removed b' ↔ c ∈ removed b) ∧ (c ∈ updated b' ↔ c ∈ updated b).

Definition silent (b : changeBuilder) (c : Z) : Prop := (c ∉ added b) ∧ (c ∉ removed b) ∧ (c ∉ updated b).

Lemma builder_add_other b e c : (e.2 ≠ changeNone → e.1 ≠ c) → same_at b (builder_add b e) c.
Proof.
  destruct e as [id []]; cbn; intros H; unfold same_at; [done|..]; assert (id ≠ c) by (by apply H);
    try case_bool_decide; cbn; set_solver.
Qed.

Lemma builder_add_says b e client before after : silent b (ClientID client) → 0 <= Clock client < MaxUint32 →
  transition client before after e → says (builder_add b e) (ClientID client) before after.
Proof.
  destruct e as [id kind]. unfold silent, transition, says. cbn [fst snd]. intros (? & ? & ?) Hr.
  destruct kind; cbn [builder_add].
  - intros ->. destruct before; split_and!; split; try set_solver; try (by intros (? & ? & ?)); by intros [[] ?].
  - intros (-> & -> & [s ->]). cbn. split_and!; split; try set_solver; by intros [[] ?].
  - intros (-> & [s ->] & [t ->] & Hne). rewrite bool_decide_eq_false_2 by done. cbn.
    split_and!; split; try set_solver; try (by intros [? ?]); intros _; split_and!; try done; by apply Hne.
  - intros (-> & [s ->] & ->). cbn. split_and!; split; try set_solver; try (by intros [? ?]); by intros (? & [] & ?).
Qed.

Lemma applied_transition_other m client e m' c : applied m client e m' → c ≠ ClientID client →
  states m' !! c = states m !! c ∧ (e.2 ≠ changeNone → e.1 ≠ c).
Proof.
  intros H Hne. destruct (ap_other _ _ _ _ H c Hne) as [? _]. split; [done|]. pose proof (ap_transition _ _ _ _ H) as Ht.
  unfold transition in Ht. intros Hk. destruct e as [id []]; cbn in *; [done|..]; destruct Ht as [-> _]; by apply not_eq_sym.
Qed.

Lemma apply_loop_says now clients b m b' m' c : manager_ok m → NoDup (ClientID <$> clients) →
  Forall (λ x, 0 <= Clock x < MaxUint32) clients → fold_left (apply_loop now) clients (b, m) = (b', m') →
  if decide (c ∈ ClientID <$> clients) then silent b c → says b' c (states m !! c) (states m' !! c)
  else same_at b b' c ∧ states m' !! c = states m !! c.
Proof.
  revert b m. induction clients as [|x l IH]; intros b m Hm Hd Hr H.
  { cbn in H. injection H as <- <-. by rewrite decide_False by set_solver. }
  cbn [fold_left] in H. rewrite apply_loop_eq in H. rewrite fmap_cons in *. apply NoDup_cons in Hd as [Hx Hd].
  apply Forall_cons in Hr as [Hr1 Hr]. pose proof (applyClient_applied m x now Hm) as Ha.
  specialize (IH _ _ (ap_ok _ _ _ _ Ha) Hd Hr H). destruct (decide (c = ClientID x)) as [->|Hne].
  - rewrite decide_True by set_solver. rewrite decide_False in IH by done. destruct IH as [(I1 & I2 & I3) ->]. intros Hs.
    unfold says. rewrite I1, I2, I3. apply builder_add_says; [done..|]. apply Ha.
  - destruct (applied_transition_other _ _ _ _ c Ha Hne) as [E Hk]. pose proof (builder_add_other b _ c Hk) as (S1 & S2 & S3).
    rewrite E in IH. destruct (decide (c ∈ ClientID <$> l)) as [Hc|Hc].
    + rewrite decide_True by set_solver. intros (? & ? & ?). apply IH. unfold silent. by rewrite S1, S2, S3.
    + rewrite decide_False by set_solver. destruct IH as [(I1 & I2 & I3) ->]. split; [|done].
      unfold same_at. by rewrite I1, I2, I3, S1, S2, S3.
Qed.

Lemma elem_of_sorted c ids : c ∈ sortedChangeIDs ids ↔ c ∈ ids.
Proof. unfold sortedChangeIDs. by rewrite merge_sort_Permutation, elem_of_elements. Qed.

(** ** The payload *)

Definition normalised (client : ClientState) : ClientState :=
  match normalizeState (State client) with Ok s => mkClient (ClientID client) (Clock client) s | Err _ => client end.

(** The numbers fit the wire format. *)
Definition wire_client (client : ClientState) : Prop :=
  is_u32 (ClientID client) ∧ is_u32 (Clock client) ∧ is_u32 (Z.of_nat (length (State (normalised client)))).

Definition encode_client (client : ClientState) : bytes :=
  let s := State (normalised client) in
  Append [] (ClientID client) ++ Append [] (Clock client) ++ Append [] (Z.of_nat (length s)) ++ s.

Lemma append_client_ok dst client bs : wire_client client → append_client dst client = Ok bs →
  bs = dst ++ encode_client client ∧ normalizeState (State client) = Ok (State (normalised client)).
Proof.
  intros (Hi & Hc & Hl). unfold append_client, encode_client, normalised in *. destruct (normalizeState _) as [s|]; [|done]. cbn in *.
  intros [= <-]. split; [|done]. unfold appendVarString. rewrite w32_small by done. 
  rewrite (Append_app (Append (Append dst _) _)), (Append_app (Append dst _)), (Append_app dst). by rewrite <- !app_assoc.
Qed.

Lemma append_clients_ok clients dst bs : Forall wire_client clients → fold_result append_client clients dst = Ok bs →
  bs = dst ++ concat (encode_client <$> clients) ∧
  Forall (λ x, normalizeState (State x) = Ok (State (normalised x))) clients.
Proof.
  revert dst. induction clients as [|x l IH]; intros dst; cbn; [intros _ [= <-]; by rewrite app_nil_r|].
  intros [Hx Hl]%Forall_cons. destruct (append_client dst x) as [d|] eqn:E; [|done]. apply append_client_ok in E as [-> Hn]; [|done].
  intros [-> ?]%IH; [|done]. split; [by rewrite <- app_assoc|by constructor].
Qed.

Lemma reads_client client : wire_client client → normalizeState (State client) = Ok (State (normalised client)) →
  reads read_client (encode_client client) (normalised client).
Proof.
  intros (Hi & Hc & Hl) Hn. unfold read_client, encode_client. apply reads_offset. intros o1.
  eapply reads_bind; [by apply reads_catch, reads_ReadU|]. apply reads_offset. intros o2.
  eapply reads_bind; [by apply reads_catch, reads_ReadU|].
  apply (reads_bind_ret _ _ _ (State (normalised client))).
  - unfold readVarStringJSON. apply reads_offset. intros o. eapply reads_bind; [by apply reads_catch, reads_ReadU|].
    eapply reads_bind_ret; [by apply reads_catch, reads_ReadN|]. destruct (normalizeState_idem _ _ Hn) as [-> _]. apply reads_ret.
  - unfold normalised. rewrite Hn. cbn. apply reads_ret.
Qed.

(** The counted loop of both awareness readers. *)
Lemma reads_client_loop (m : RM ClientState) clients :
  (∀ x, wire_client x → normalizeState (State x) = Ok (State (normalised x)) → reads m (encode_client x) (normalised x)) →
  Forall wire_client clients → Forall (λ x, normalizeState (State x) = Ok (State (normalised x))) clients →
  reads (for_times (length clients) (λ l, client ← m; mret (l ++ [client])) []) (concat (encode_client <$> clients))
    (normalised <$> clients).
Proof.
  intros Hm Hw Hn. assert (normalised <$> clients = fold_left (λ s x, s ++ [normalised x]) clients []) as ->.
  { rewrite (fold_left_concat (λ s x, s ++ [normalised x]) (λ x, [normalised x])) by done. cbn. clear.
    induction clients; cbn; [done|by f_equal]. }
  apply (reads_for_times _ encode_client (λ s x, s ++ [normalised x])
    (λ _ l, Forall (λ x, wire_client x ∧ normalizeState (State x) = Ok (State (normalised x))) l)).
  - intros s x l [[Hx Hx'] Hl]%Forall_cons. split; [|done]. eapply reads_bind_ret; [by apply Hm|apply reads_ret].
  - apply Forall_and. by split.
Qed.

(** ** The theorems *)

(** The invariant of the awareness manager under every operation: whatever
    is applied, set, renewed or expired, each stored state is filed under its
    client id, is normalised JSON other than null and carries the clock its
    metadata remembers; no operation ever forgets the clock of a client (so a
    tombstone outlives the state); and an update leaves clocks below the
    maximum no smaller than before. *)
Theorem awareness_invariant (m m' : StateManager) (Hr : areachable m) (Hs : astep m m') :
  (∀ c s, Get c m' = Some s → state_ok m' c s) ∧
  (∀ c, is_Some (Meta c m) → is_Some (Meta c m')) ∧
  (∀ clients now c x, m' = ApplyAt (Some clients) now m → Forall (λ x, 0 <= Clock x < MaxUint32) clients → Meta c m = Some x →
     ∃ x', Meta c m' = Some x' ∧ meta_Clock x <= meta_Clock x').
Proof.
  pose proof (areachable_ok m Hr) as Hm. destruct (astep_keeps m m' Hs) as [Hok Hmeta]. split_and!; [by apply Hok|done|].
  intros clients now c x -> Hc. rewrite ApplyAt_all. by apply apply_all_spec.
Qed.

Lemma awareness_invariant_witness :
  state_ok (ApplyAt (Some [mkClient 2 5 [123; 32; 125]]) 100 (NewStateManager 1)) 2 (mkClient 2 5 [123; 125]).
Proof.
  refine (proj1 (awareness_invariant (NewStateManager 1) _ (ar_new 1) _) 2 (mkClient 2 5 [123; 125]) _).
  - exact (astep_apply (Some [mkClient 2 5 [123; 32; 125]]) 100 (NewStateManager 1)).
  - vm_compute. reflexivity.
Defined.

(** C25: Convergence: two managers that received the same entries of a remote
    client, in any order, grouping and multiplicity and at any times, agree on
    its clock and on its state (or its absence); and what they agree on is one
    of the entries delivered, newer than or as new as all others, a tombstone
    winning over a state of the same clock. *)
Theorem awareness_converges (local1 local2 c : Z) (ds1 ds2 : list (Update * Z)) (H1 : c ≠ local1) (H2 : c ≠ local2)
    (Hc : coherent (delivered c ds1)) (Heq : ∀ e, e ∈ delivered c ds1 ↔ e ∈ delivered c ds2) :
  view (deliver ds1 (NewStateManager local1)) c = view (deliver ds2 (NewStateManager local2)) c ∧
  match view (deliver ds1 (NewStateManager local1)) c with
  | None => Forall (λ e, e = None) (delivered c ds1)
  | Some (k, s) => Some (k, s) ∈ delivered c ds1 ∧
      ∀ k' s', Some (k', s') ∈ delivered c ds1 → k' < k ∨ (k' = k ∧ (s = None ∨ is_Some s'))
  end.
Proof.
  rewrite !deliver_view by (try apply NewStateManager_ok; by apply NewStateManager_local).
  rewrite !(view_None (NewStateManager _)) by done. split; [by apply join_unique|apply join_best].
Qed.

Lemma awareness_converges_witness :
  view (deliver [([mkClient 7 1 [49]; mkClient 7 2 []], 5)] (NewStateManager 1)) 7 =
  view (deliver [([mkClient 7 2 []], 3); ([mkClient 7 1 [49]; mkClient 7 2 [110; 117; 108; 108]], 9)] (NewStateManager 2)) 7.
Proof.
  apply (awareness_converges 1 2 7); [done|done| |].
  - intros k s s'. vm_compute. intros H H'. apply list_elem_of_In in H, H'. cbn in H, H'. intuition congruence.
  - intros e. rewrite !list_elem_of_In. vm_compute. tauto.
Defined.

(** The change an update reports is exact: applied to a manager that meets
    the invariant, an update that mentions each client once reports as added
    the clients that had no state and have one, as removed those that had one
    and have none, and as updated those that had one and have another. *)
Theorem reported_change_exact (m m' : StateManager) (clients : list ClientState) (now c : Z) (change : Change)
    (Hm : areachable m) (Hd : NoDup (ClientID <$> clients)) (Hc : Forall (λ x, 0 <= Clock x < MaxUint32) clients)
    (Ha : ApplyWithChangeAt (Some clients) now m = (change, m')) :
  (c ∈ Added change ↔ Get c m = None ∧ is_Some (Get c m')) ∧
  (c ∈ Removed change ↔ is_Some (Get c m) ∧ Get c m' = None) ∧
  (c ∈ Updated change ↔ is_Some (Get c m) ∧ is_Some (Get c m') ∧ Get c m' ≠ Get c m).
Proof.
  unfold ApplyWithChangeAt in Ha. destruct (fold_left (apply_loop now) clients (mkBuilder ∅ ∅ ∅, m)) as [b m1] eqn:E.
  injection Ha as <- <-. pose proof (apply_loop_says now clients _ m b m1 c (areachable_ok m Hm) Hd Hc E) as H.
  cbn [builder_finish Added Removed Updated]. rewrite !elem_of_sorted. unfold Get. destruct (decide (c ∈ ClientID <$> clients)).
  - apply H. unfold silent. cbn. set_solver.
  - destruct H as [(-> & -> & ->) ->]. cbn. split_and!; split; try set_solver; try (by intros [-> [? ?]]); by intros [[? ->] ?].
Qed.

Lemma reported_change_exact_witness : 7 ∈ Removed (ApplyWithChangeAt (Some [mkClient 7 2 []]) 9
  (ApplyWithChangeAt (Some [mkClient 7 1 [49]]) 5 (NewStateManager 1)).2).1.
Proof.
  refine (proj2 (proj1 (proj2 (reported_change_exact (ApplyWithChangeAt (Some [mkClient 7 1 [49]]) 5 (NewStateManager 1)).2 _
    [mkClient 7 2 []] 9 7 _ _ _ _ (surjective_pairing _)))) _).
  - eapply ar_step; [apply (ar_new 1)|apply astep_apply].
  - apply (bool_decide_unpack _). vm_compute. exact I.
  - constructor; [cbn; unfold MaxUint32; lia|constructor].
  - split; vm_compute; [eexists; reflexivity|reflexivity].
Defined.

(** The awareness payload round trips: whatever the encoder accepts, the
    decoder returns with every state normalised, and it consumes all the bytes;
    encoding the decoded update again gives the same bytes. *)
Theorem awareness_roundtrip (clients : Update) (bs : bytes) (Hw : Forall wire_client clients)
    (Hn : is_u32 (Z.of_nat (length clients))) (He : EncodeUpdate (Some clients) = Ok bs) :
  DecodeUpdate bs = Ok (normalised <$> clients).
Proof.
  unfold EncodeUpdate, AppendUpdate in He. cbn [default from_option id] in He. rewrite w32_small in He by done.
  apply append_clients_ok in He as [-> Hs]; [|done]. cbn [app].
  assert (reads ReadUpdate (Append [] (Z.of_nat (length clients)) ++ concat (encode_client <$> clients)) (normalised <$> clients)) as Hr.
  { unfold ReadUpdate. apply reads_offset. intros o. eapply reads_bind; [by apply reads_catch, reads_ReadU|]. rewrite Nat2Z.id.
    by apply reads_client_loop; [apply reads_client|..]. }
  unfold DecodeUpdate. specialize (Hr (NewReader (Append [] (Z.of_nat (length clients)) ++ concat (encode_client <$> clients))) [] (wf_NewReader _)).
  rewrite Hr by by rewrite view_NewReader, app_nil_r. unfold Remaining. cbn [data offset advance NewReader].
  rewrite (proj2 (Z.eqb_eq _ _)) by lia. done.
Qed.

Lemma awareness_roundtrip_witness : DecodeUpdate [1; 2; 5; 2; 123; 125] = Ok [mkClient 2 5 [123; 125]].
Proof.
  apply (awareness_roundtrip [mkClient 2 5 [123; 32; 125]]).
  - constructor; [|constructor]. unfold wire_client. vm_compute. split_and!; done.
  - vm_compute. done.
  - vm_compute. reflexivity.
Defined.

(** A remote tombstone of the largest clock for the local client wraps the
    local clock to 0, and a peer that has the tombstone ignores what follows. *)
Theorem local_clock_wraps (m peer : StateManager) (current s : ClientState) (now later : Z)
    (Hm : areachable m) (Hl : is_local m (localClientID m) = true) (Hs : Get (localClientID m) m = Some current)
    (Hk : ∀ x, Meta (localClientID m) m = Some x → meta_Clock x < MaxUint32)
    (Hp : view peer (localClientID m) = Some (MaxUint32, None))
    (Hg : Get (localClientID m) (ApplyAt (Some [mkClient (localClientID m) MaxUint32 []]) now m) = Some s) :
  Clock s = 0 ∧ ApplyAt (Some [s]) later peer = peer.
Proof.
  rewrite ApplyAt_all in *. cbn [apply_all fold_left] in *. destruct (areachable_ok m Hm _ _ Hs) as (Hid & Hn & Hnn & x & Hx & Hkx).
  specialize (Hk x Hx). unfold Get, Meta in *. assert (s = mkClient (localClientID m) 0 (State current)) as ->.
  { revert Hg. unfold applyClientLocked. cbn [State ClientID Clock normalizeState]. rewrite Hx, Hs. rewrite IsNull_spec, bool_decide_eq_true_2 by done.
    rewrite (proj2 (Z.leb_gt MaxUint32 _)) by done. cbn [andb]. unfold is_local in Hl. rewrite Hl. cbn. rewrite lookup_insert_eq, Hid. by intros [= <-]. }
  split; [done|]. unfold view in Hp. destruct (meta peer !! _) as [y|] eqn:Ey; [|done]. injection Hp as Hy _.
  unfold applyClientLocked. cbn [State ClientID Clock]. rewrite Hn, Ey, Hy, IsNull_spec. rewrite (bool_decide_eq_false_2 (State current = null_state)) by done.
  rewrite (proj2 (Z.leb_le 0 MaxUint32)) by u32. by rewrite orb_true_r, orb_true_l.
Qed.

Lemma local_clock_wraps_witness :
  Clock (mkClient 1 0 [49]) = 0 ∧
  ApplyAt (Some [mkClient 1 0 [49]]) 9 (ApplyAt (Some [mkClient 1 MaxUint32 []]) 5 (NewStateManager 2)) =
  ApplyAt (Some [mkClient 1 MaxUint32 []]) 5 (NewStateManager 2).
Proof.
  apply (local_clock_wraps (SetLocalStateAt [49] 3 (NewStateManager 1)).2 _ (mkClient 1 0 [49]) _ 5 9).
  - eapply ar_step; [apply (ar_new 1)|apply astep_local].
  - vm_compute. reflexivity.
  - vm_compute. reflexivity.
  - intros x Hx. assert (Some x = Some (mkMeta 0 3)) as [= ->]; [|done]. rewrite <- Hx. vm_compute. reflexivity.
  - vm_compute. reflexivity.
  - vm_compute. reflexivity.
Defined.

(** A field of the local state. *)
Definition local_field (key : bytes) (m : StateManager) : option bytes :=
  state ← Get (localClientID m) m; fields ← unmarshal_raw (State state);
  found ← list_find (λ e : bytes * bytes, e.1 = key) fields; Some found.2.2.

(** Between reading the state and setting it SetLocalStateField holds no lock: when
    two callers set different fields at the same time, both succeed and one field is lost. *)
Theorem fields_set_together_are_lost :
  let m := (SetLocalStateAt (str "{}") 3 (NewStateManager 1)).2 in
  let one := local_state_with_field (str "a") (str "1") m in
  let other := local_state_with_field (str "b") (str "2") m in
  match one, other with
  | Ok one, Ok other =>
      let m1 := (SetLocalStateAt one 4 m).2 in
      let '(err, m2) := SetLocalStateAt other 4 m1 in
      err = None ∧ local_field (str "a") m1 = Some (str "1") ∧ local_field (str "a") m2 = None ∧ local_field (str "b") m2 = Some (str "2") ∧
      local_field (str "a") (SetLocalStateFieldAt (str "b") (str "2") 4 m1).2 = Some (str "1")
  | _, _ => False
  end.
Proof. vm_compute. repeat split. Qed.
