(* ===== verification/YProtocol.v ===== *)
(** * internal/yprotocol: the messages of the y-protocols envelope

    types.go, sync.go, auth.go, query_awareness.go and dispatch.go: every
    encoder, reader and decoder.  [AwarenessClient] has the fields of
    [yawareness.ClientState] and is that record here (pkg/yprotocol converts
    one into the other field by field); a Go string is its bytes; [int] has 64
    bits, so the length read from the wire is the number of bytes asked for. *)
From S2P Require Import Prelude GoError Binary Varint YTypes Decoder Aggregate Merge StateVector GoJson Awareness.
Import varint.

Definition protocolError (op : string) (offset : Z) (err : error) : error := ParseError PkgYProtocol op offset err.

(** ** types.go *)

Definition ProtocolTypeSync : Z := 0.
Definition ProtocolTypeAwareness : Z := 1.
Definition ProtocolTypeAuth : Z := 2.
Definition ProtocolTypeQueryAwareness : Z := 3.

Definition ProtocolType_Valid (t : Z) : bool :=
  existsb (Z.eqb t) [ProtocolTypeSync; ProtocolTypeAwareness; ProtocolTypeAuth; ProtocolTypeQueryAwareness].

Definition AppendProtocolType (dst : bytes) (typ : Z) : bytes := Append dst typ.

Definition ReadProtocolType : RM Z :=
  start ← getOffset;
  value ← catch ReadU (λ _ err, protocolError "ReadProtocolType" start err);
  if negb (ProtocolType_Valid value)
  then fail (protocolError "ReadProtocolType" start (Wrapped "%w: %d" yprotocol_ErrUnknownProtocolType))
  else mret value.

(** ** Shared pieces *)

Definition appendVarBytes (dst payload : bytes) : bytes := Append dst (w32 (Z.of_nat (length payload))) ++ payload.

Definition readVarBytes (op : string) : RM bytes :=
  start ← getOffset;
  length ← catch ReadU (λ _ err, protocolError (op +:+ ".len") start err);
  catch (ReadN length) (λ off err, protocolError op off err).

(** The [Decode] functions: read one message and reject what follows it. *)
Definition decode_all {A} (op : string) (m : RM A) (src : bytes) : result A :=
  match m (NewReader src) with
  | (Err err, _) => Err err
  | (Ok message, reader) =>
      if negb (Remaining reader =? 0) then Err (protocolError op (Offset reader) yprotocol_ErrTrailingBytes) else Ok message
  end.

(** The [ReadProtocol] functions: the envelope must be of the given type. *)
Definition expect_protocol {A} (op : string) (want : Z) (m : RM A) : RM A :=
  start ← getOffset;
  typ ← ReadProtocolType;
  if negb (typ =? want) then fail (protocolError op start (Wrapped "%w: %s" yprotocol_ErrUnexpectedProtocolType)) else m.

(** ** sync.go *)

Definition SyncMessageTypeStep1 : Z := 0.
Definition SyncMessageTypeStep2 : Z := 1.
Definition SyncMessageTypeUpdate : Z := 2.

Record SyncMessage := mkSync { sm_Type : Z; sm_Payload : bytes }.

Definition SyncMessageType_Valid (t : Z) : bool :=
  existsb (Z.eqb t) [SyncMessageTypeStep1; SyncMessageTypeStep2; SyncMessageTypeUpdate].

Definition AppendSyncMessage (dst : bytes) (typ : Z) (payload : bytes) : result bytes :=
  if negb (SyncMessageType_Valid typ) then Err (Wrapped "%w: %d" yprotocol_ErrUnknownSyncMessageType)
  else Ok (appendVarBytes (Append dst typ) payload).

Definition EncodeSyncMessage (typ : Z) (payload : bytes) : result bytes := AppendSyncMessage [] typ payload.

Definition encodeKnownSyncMessage (typ : Z) (payload : bytes) : bytes := appendVarBytes (Append [] typ) payload.

Definition EncodeSyncStep1 (stateVector : bytes) : bytes := encodeKnownSyncMessage SyncMessageTypeStep1 stateVector.
Definition EncodeSyncStep2 (update : bytes) : bytes := encodeKnownSyncMessage SyncMessageTypeStep2 update.
Definition EncodeSyncUpdate (update : bytes) : bytes := encodeKnownSyncMessage SyncMessageTypeUpdate update.

Definition EncodeProtocolSyncMessage (typ : Z) (payload : bytes) : result bytes :=
  inner ← EncodeSyncMessage typ payload;
  Ok (AppendProtocolType [] ProtocolTypeSync ++ inner).

Definition EncodeProtocolSyncStep1 (stateVector : bytes) : bytes :=
  AppendProtocolType [] ProtocolTypeSync ++ EncodeSyncStep1 stateVector.
Definition EncodeProtocolSyncStep2 (update : bytes) : bytes :=
  AppendProtocolType [] ProtocolTypeSync ++ EncodeSyncStep2 update.
Definition EncodeProtocolSyncUpdate (update : bytes) : bytes :=
  AppendProtocolType [] ProtocolTypeSync ++ EncodeSyncUpdate update.

(** From updates; [procs] and [delivered] are the run of the worker pool. *)
Definition EncodeSyncStep1FromUpdateV1 (update : bytes) : result bytes :=
  stateVector ← EncodeStateVectorFromUpdateV1 update;
  EncodeSyncMessage SyncMessageTypeStep1 stateVector.
Definition EncodeSyncStep2FromUpdatesV1 (procs : Z) (delivered : gset nat) (updates : list bytes) : result bytes :=
  merged ← MergeUpdatesV1 procs delivered updates;
  EncodeSyncMessage SyncMessageTypeStep2 merged.
Definition EncodeProtocolSyncStep1FromUpdateV1 (update : bytes) : result bytes :=
  stateVector ← EncodeStateVectorFromUpdateV1 update;
  EncodeProtocolSyncMessage SyncMessageTypeStep1 stateVector.
Definition EncodeProtocolSyncStep2FromUpdatesV1 (procs : Z) (delivered : gset nat) (updates : list bytes) : result bytes :=
  merged ← MergeUpdatesV1 procs delivered updates;
  EncodeProtocolSyncMessage SyncMessageTypeStep2 merged.

Definition ReadSyncMessage : RM SyncMessage :=
  start ← getOffset;
  value ← catch ReadU (λ _ err, protocolError "ReadSyncMessage.type" start err);
  if negb (SyncMessageType_Valid value)
  then fail (protocolError "ReadSyncMessage.type" start (Wrapped "%w: %d" yprotocol_ErrUnknownSyncMessageType))
  else
    payload ← readVarBytes "ReadSyncMessage.payload";
    mret (mkSync value payload).

Definition ReadProtocolSyncMessage : RM SyncMessage :=
  expect_protocol "ReadProtocolSyncMessage.protocol" ProtocolTypeSync ReadSyncMessage.
Definition DecodeSyncMessage (src : bytes) : result SyncMessage := decode_all "DecodeSyncMessage.trailing" ReadSyncMessage src.
Definition DecodeProtocolSyncMessage (src : bytes) : result SyncMessage :=
  decode_all "DecodeProtocolSyncMessage.trailing" ReadProtocolSyncMessage src.

(** ** auth.go *)

Definition AuthMessageTypePermissionDenied : Z := 0.

Record AuthMessage := mkAuth { am_Type : Z; am_Reason : bytes }.

Definition AuthMessageType_Valid (t : Z) : bool := t =? AuthMessageTypePermissionDenied.

Definition AppendAuthMessage (dst : bytes) (typ : Z) (reason : bytes) : result bytes :=
  if negb (AuthMessageType_Valid typ) then Err (Wrapped "%w: %d" yprotocol_ErrUnknownAuthMessageType)
  else
    let dst := Append dst typ in
    if typ =? AuthMessageTypePermissionDenied then Ok (appendVarBytes dst reason)
    else Err (Wrapped "%w: %d" yprotocol_ErrUnknownAuthMessageType).

Definition EncodeAuthMessage (typ : Z) (reason : bytes) : result bytes := AppendAuthMessage [] typ reason.
Definition EncodeAuthPermissionDenied (reason : bytes) : bytes :=
  appendVarBytes (Append [] AuthMessageTypePermissionDenied) reason.
Definition EncodeProtocolAuthMessage (typ : Z) (reason : bytes) : result bytes :=
  inner ← EncodeAuthMessage typ reason;
  Ok (AppendProtocolType [] ProtocolTypeAuth ++ inner).
Definition EncodeProtocolAuthPermissionDenied (reason : bytes) : bytes :=
  AppendProtocolType [] ProtocolTypeAuth ++ EncodeAuthPermissionDenied reason.

Definition ReadAuthMessage : RM AuthMessage :=
  start ← getOffset;
  value ← catch ReadU (λ _ err, protocolError "ReadAuthMessage.type" start err);
  if negb (AuthMessageType_Valid value)
  then fail (protocolError "ReadAuthMessage.type" start (Wrapped "%w: %d" yprotocol_ErrUnknownAuthMessageType))
  else if value =? AuthMessageTypePermissionDenied then
    reason ← readVarBytes "ReadAuthMessage.reason";
    mret (mkAuth value reason)
  else fail (protocolError "ReadAuthMessage.type" start (Wrapped "%w: %d" yprotocol_ErrUnknownAuthMessageType)).

Definition ReadProtocolAuthMessage : RM AuthMessage :=
  expect_protocol "ReadProtocolAuthMessage.protocol" ProtocolTypeAuth ReadAuthMessage.
Definition DecodeAuthMessage (src : bytes) : result AuthMessage := decode_all "DecodeAuthMessage.trailing" ReadAuthMessage src.
Definition DecodeProtocolAuthMessage (src : bytes) : result AuthMessage :=
  decode_all "DecodeProtocolAuthMessage.trailing" ReadProtocolAuthMessage src.

(** ** query_awareness.go *)

Inductive QueryAwarenessMessage := mkQueryAwareness.

Definition EncodeProtocolQueryAwareness : bytes := AppendProtocolType [] ProtocolTypeQueryAwareness.
Definition ReadProtocolQueryAwareness : RM QueryAwarenessMessage :=
  expect_protocol "ReadProtocolQueryAwareness.protocol" ProtocolTypeQueryAwareness (mret mkQueryAwareness).
Definition DecodeProtocolQueryAwareness (src : bytes) : result QueryAwarenessMessage :=
  decode_all "DecodeProtocolQueryAwareness.trailing" ReadProtocolQueryAwareness src.

(** ** dispatch.go *)

Record ProtocolMessage := mkMessage {
  Protocol : Z; pm_Sync : option SyncMessage; pm_Awareness : option Update; pm_Auth : option AuthMessage;
  pm_QueryAwareness : option QueryAwarenessMessage }.

Definition AppendProtocolMessagePayload (dst : bytes) (protocol : Z) (payload : bytes) : result bytes :=
  if negb (ProtocolType_Valid protocol) then Err (Wrapped "%w: %d" yprotocol_ErrUnknownProtocolType)
  else
    let dst := AppendProtocolType dst protocol in
    let dst := if protocol =? ProtocolTypeAwareness then Append dst (w32 (Z.of_nat (length payload))) else dst in
    Ok (dst ++ payload).

Definition EncodeProtocolMessage (protocol : Z) (payload : bytes) : result bytes :=
  AppendProtocolMessagePayload [] protocol payload.

Definition normalizeJSON (state : bytes) : result bytes :=
  match state with
  | [] => Ok null_state
  | _ =>
      if negb (Valid state) then Err yprotocol_ErrInvalidAwarenessJSON
      else match Compact state with None => Err yprotocol_ErrInvalidAwarenessJSON | Some compact => Ok compact end
  end.

Definition readAwarenessState (op : string) : RM bytes :=
  start ← getOffset;
  length ← catch ReadU (λ _ err, protocolError (op +:+ ".len") start err);
  raw ← catch (ReadN length) (λ off err, protocolError op off err);
  match normalizeJSON raw with
  | Err err => fail (protocolError op start err)
  | Ok state => mret state
  end.

Definition read_awareness_client : RM ClientState :=
  clientStart ← getOffset;
  clientID ← catch ReadU (λ _ err, protocolError "ReadAwarenessMessage.clientID" clientStart err);
  clockStart ← getOffset;
  clock ← catch ReadU (λ _ err, protocolError "ReadAwarenessMessage.clock" clockStart err);
  state ← readAwarenessState "ReadAwarenessMessage.state";
  mret (mkClient clientID clock state).

Definition readAwarenessPayload : RM Update :=
  start ← getOffset;
  count ← catch ReadU (λ _ err, protocolError "ReadAwarenessMessage.count" start err);
  for_times (Z.to_nat count) (λ clients, client ← read_awareness_client; mret (clients ++ [client])) [].

Definition readAwarenessMessage : RM Update :=
  start ← getOffset;
  payloadLength ← catch ReadU (λ _ err, protocolError "ReadAwarenessMessage.payloadLen" start err);
  payload ← catch (ReadN payloadLength) (λ off err, protocolError "ReadAwarenessMessage.payload" off err);
  liftR (decode_all "ReadAwarenessMessage.payload.trailing" readAwarenessPayload payload).

Definition ReadProtocolMessage : RM ProtocolMessage :=
  start ← getOffset;
  protocol ← ReadProtocolType;
  if protocol =? ProtocolTypeSync then
    message ← ReadSyncMessage; mret (mkMessage protocol (Some message) None None None)
  else if protocol =? ProtocolTypeAwareness then
    message ← catch readAwarenessMessage (λ _ err, protocolError "ReadProtocolMessage.awareness" start err);
    mret (mkMessage protocol None (Some message) None None)
  else if protocol =? ProtocolTypeAuth then
    message ← catch ReadAuthMessage (λ _ err, protocolError "ReadProtocolMessage.auth" start err);
    mret (mkMessage protocol None None (Some message) None)
  else if protocol =? ProtocolTypeQueryAwareness then mret (mkMessage protocol None None None (Some mkQueryAwareness))
  else fail (protocolError "ReadProtocolMessage.protocol" start (Wrapped "%w: %d" yprotocol_ErrUnknownProtocolType)).

Definition DecodeProtocolMessage (src : bytes) : result ProtocolMessage :=
  decode_all "DecodeProtocolMessage.trailing" ReadProtocolMessage src.

(** * The envelope at the two ends of the protocol

    internal/yawareness/protocol.go (the awareness envelope) and pkg/yprotocol:
    encode.go and the decoders of protocol.go, which wrap the internal message
    into the exported one (the same record here). *)
Import varint.

(** ** internal/yawareness/protocol.go *)

Definition EncodeProtocolUpdate (update : option Update) : result bytes :=
  payload ← EncodeUpdate update;
  let dst := AppendProtocolType [] ProtocolTypeAwareness in
  let dst := Append dst (w32 (Z.of_nat (length payload))) in
  Ok (dst ++ payload).

(** [ReadUpdate] on the bytes of the payload, all of which it must use. *)
Definition read_whole_update (op : string) (payload : bytes) : result Update :=
  match ReadUpdate (NewReader payload) with
  | (Err err, _) => Err err
  | (Ok update, reader) =>
      if negb (Remaining reader =? 0) then Err (awarenessError op (Offset reader) yawareness_ErrTrailingBytes) else Ok update
  end.

Definition ReadProtocolUpdate : RM Update :=
  start ← getOffset;
  typ ← ReadProtocolType;
  if negb (typ =? ProtocolTypeAwareness)
  then fail (awarenessError "ReadProtocolUpdate.protocol" start (Wrapped "%w: %s" yprotocol_ErrUnexpectedProtocolType))
  else
    payloadLengthStart ← getOffset;
    payloadLength ← catch ReadU (λ _ err, awarenessError "ReadProtocolUpdate.payloadLen" payloadLengthStart err);
    payload ← catch (ReadN payloadLength) (λ off err, awarenessError "ReadProtocolUpdate.payload" off err);
    liftR (read_whole_update "ReadProtocolUpdate.payload.trailing" payload).

Definition DecodeProtocolUpdate (src : bytes) : result Update :=
  match ReadProtocolUpdate (NewReader src) with
  | (Err err, _) => Err err
  | (Ok update, reader) =>
      if negb (Remaining reader =? 0)
      then Err (awarenessError "DecodeProtocolUpdate.trailing" (Offset reader) yawareness_ErrTrailingBytes)
      else Ok update
  end.

(** ** pkg/yprotocol/encode.go *)

Definition populated (m : ProtocolMessage) : Z :=
  (if pm_Sync m then 1 else 0) + (if pm_Awareness m then 1 else 0) + (if pm_Auth m then 1 else 0) +
  (if pm_QueryAwareness m then 1 else 0).

Definition is_nil {A} (x : option A) : bool := match x with None => true | Some _ => false end.

Definition validateProtocolMessage (message : option ProtocolMessage) : option error :=
  match message with
  | None => Some (Sentinel pkg_yprotocol_ErrNilProtocolMessage)
  | Some m =>
      let invalid := Some (Wrapped "%w: payload" pkg_yprotocol_ErrInvalidProtocolMessage) in
      if Protocol m =? ProtocolTypeSync then
        if is_nil (pm_Sync m) || negb (populated m =? 1) then invalid else None
      else if Protocol m =? ProtocolTypeAwareness then
        if is_nil (pm_Awareness m) || negb (populated m =? 1) then invalid else None
      else if Protocol m =? ProtocolTypeAuth then
        if is_nil (pm_Auth m) || negb (populated m =? 1) then invalid else None
      else if Protocol m =? ProtocolTypeQueryAwareness then
        if (1 <? populated m) || negb (is_nil (pm_Sync m)) || negb (is_nil (pm_Awareness m)) || negb (is_nil (pm_Auth m))
        then invalid else None
      else Some (Wrapped "%w: %d" yprotocol_ErrUnknownProtocolType)
  end.

(** The type of the message decides which payload is written; validation made
    sure that it is there. *)
Definition appendProtocolEnvelope (dst : bytes) (message : option ProtocolMessage) : result bytes :=
  match validateProtocolMessage message, message with
  | Some err, _ => Err err
  | None, None => Err (Sentinel pkg_yprotocol_ErrNilProtocolMessage)
  | None, Some m =>
      if Protocol m =? ProtocolTypeSync then
        match pm_Sync m with
        | Some s => AppendSyncMessage (AppendProtocolType dst ProtocolTypeSync) (sm_Type s) (sm_Payload s)
        | None => Err (Opaque "nil pointer dereference")
        end
      else if Protocol m =? ProtocolTypeAwareness then
        encoded ← EncodeProtocolUpdate (pm_Awareness m);
        Ok (dst ++ encoded)
      else if Protocol m =? ProtocolTypeAuth then
        match pm_Auth m with
        | Some a => AppendAuthMessage (AppendProtocolType dst ProtocolTypeAuth) (am_Type a) (am_Reason a)
        | None => Err (Opaque "nil pointer dereference")
        end
      else if Protocol m =? ProtocolTypeQueryAwareness then Ok (AppendProtocolType dst ProtocolTypeQueryAwareness)
      else Err (Wrapped "%w: %d" yprotocol_ErrUnknownProtocolType)
  end.

Definition EncodeProtocolEnvelope (message : option ProtocolMessage) : result bytes := appendProtocolEnvelope [] message.

Definition EncodeProtocolEnvelopes (messages : list (option ProtocolMessage)) : result bytes :=
  fold_result (λ dst message, map_err (Wrapped "encode protocol envelope %d: %w") (appendProtocolEnvelope dst message)) messages [].
