(* ===== verification/YStream.v ===== *)
(** * internal/yprotocol/stream.go: messages from a stream

    The context and the [io.Reader] are one state [W], whose operations the
    class lists: [Read] with the size of the buffer, the three optional
    contracts of the stream (ReadContext, Close, SetReadDeadline), the error of
    the context, its deadline and the outcome of the [select] between
    cancellation and the end of a read.  The incremental loop may run for ever
    on an endless stream, so it takes fuel (a run of [fuel] reads). *)
From S2P Require Import Prelude GoError Binary Varint YProtocol.

Abbreviation ReadResult := (bytes * option error)%type.

Class IoStream (W : Type) := {
  stream_Read : Z → W → ReadResult * W;
  stream_ReadContext : option (Z → W → ReadResult * W);
  stream_Close : option (W → W);
  stream_SetReadDeadline : option (bool → W → option error * W);
  ctx_Err : W → option error;
  ctx_hasDeadline : W → bool;
  ctx_done_first : W → bool }.

Definition isRecoverableStreamEOF (err : error) : bool :=
  errors_Is err binary_ErrUnexpectedEOF || errors_Is err varint_ErrUnexpectedEOF.

(** ** From a buffer *)

(** The loop of [readProtocolMessagesN]; every message has at least a byte. *)
Fixpoint read_messages_loop (fuel : nat) (n : Z) (messages : list ProtocolMessage) : RM (list ProtocolMessage) := λ r,
  match fuel with
  | O => (Err FuelExhausted, r)
  | S fuel =>
      if (n <? 0) || (Z.of_nat (length messages) <? n) then
        if Remaining r =? 0 then (Ok messages, r)
        else
          match ReadProtocolMessage r with
          | (Err err, r) => (Err err, r)
          | (Ok message, r) => read_messages_loop fuel n (messages ++ [message]) r
          end
      else (Ok messages, r)
  end.

Definition readProtocolMessagesN (n : Z) : RM (list ProtocolMessage) := λ r,
  read_messages_loop (S (Z.to_nat (Remaining r))) n [] r.

Definition ReadProtocolMessages : RM (list ProtocolMessage) := readProtocolMessagesN (-1).

Definition DecodeProtocolMessages (src : bytes) : result (list ProtocolMessage) := (ReadProtocolMessages (NewReader src)).1.

Definition ReadProtocolMessagesN (n : Z) : RM (list ProtocolMessage) :=
  if n <? 0 then fail (protocolError "ReadProtocolMessagesN.count" 0 (Opaque "n deve ser nao negativo"))
  else readProtocolMessagesN n.

(** ** From a stream *)

Section stream.
Context {W : Type} `{IoStream W}.

Definition readWithDeadline (setDeadline : bool → W → option error * W) (n : Z) (w : W) : ReadResult * W :=
  match setDeadline true w with
  | (Some err, w) => (([], Some err), w)
  | (None, w) =>
      let '((read, err), w) := stream_Read n w in
      match setDeadline false w with
      | (Some resetErr, w) => ((read, match err with None => Some resetErr | Some _ => err end), w)
      | (None, w) => ((read, err), w)
      end
  end.

Definition readWithCancel (close : W → W) (n : Z) (w : W) : ReadResult * W :=
  match ctx_Err w with
  | Some err => (([], Some err), w)
  | None =>
      if ctx_done_first w then let w := close w in (([], ctx_Err w), w)
      else stream_Read n w
  end.

Definition readFromStream (n : Z) (w : W) : ReadResult * W :=
  match ctx_Err w with
  | Some err => (([], Some err), w)
  | None =>
      match stream_ReadContext, stream_Close, stream_SetReadDeadline with
      | Some readContext, _, _ => readContext n w
      | None, Some close, _ => readWithCancel close n w
      | None, None, Some setDeadline => if ctx_hasDeadline w then readWithDeadline setDeadline n w else stream_Read n w
      | None, None, None => stream_Read n w
      end
  end.

(** The error and the target after the call. *)
Definition readAndAppendStreamBytes (target : bytes) (limitBytes chunkSize : Z) (w : W) : (option error * bytes) * W :=
  let available := limitBytes - Z.of_nat (length target) in
  if (0 <? limitBytes) && (available <=? 0) then ((Some (Sentinel yprotocol_ErrProtocolStreamByteLimitExceeded), target), w)
  else
    let readLimit := if (0 <? limitBytes) && (available <? chunkSize) then available else chunkSize in
    let '((chunk, err), w) := readFromStream readLimit w in
    let target := target ++ chunk in
    match err with
    | Some err => ((Some err, target), w)
    | None => ((match chunk with [] => Some (Sentinel io_ErrNoProgress) | _ => None end, target), w)
    end.

Definition readChunkSize : Z := 4096.

(** The inner loop: the messages so far, the reader, and the start of the
    incomplete message with its error when more bytes are needed. *)
Fixpoint parse_buffer (fuel : nat) (n : Z) (messages : list ProtocolMessage) (reader : Reader)
    : result (list ProtocolMessage * Reader * option (Z * error)) :=
  match fuel with
  | O => Err FuelExhausted
  | S fuel =>
      if (n <? 0) || (Z.of_nat (length messages) <? n) then
        if Remaining reader =? 0 then Ok (messages, reader, None)
        else
          match ReadProtocolMessage reader with
          | (Ok message, reader) => parse_buffer fuel n (messages ++ [message]) reader
          | (Err err, reader') =>
              if isRecoverableStreamEOF err then Ok (messages, reader', Some (Offset reader, err)) else Err err
          end
      else Ok (messages, reader, None)
  end.

Fixpoint stream_loop (fuel : nat) (n limitBytes : Z) (messages : list ProtocolMessage) (streamBuffer : bytes) (w : W)
    : result (list ProtocolMessage) * W :=
  match fuel with
  | O => (Err FuelExhausted, w)
  | S fuel =>
      match ctx_Err w with
      | Some err => (Err err, w)
      | None =>
          match parse_buffer (S (length streamBuffer)) n messages (NewReader streamBuffer) with
          | Err err => (Err err, w)
          | Ok (messages, reader, incomplete) =>
              let streamBuffer :=
                drop (Z.to_nat (match incomplete with Some (start, _) => start | None => Offset reader end)) streamBuffer in
              let len := Z.of_nat (length streamBuffer) in
              if Z.of_nat (length messages) =? n then (Ok messages, w)
              else if len =? 0 then
                match readAndAppendStreamBytes streamBuffer limitBytes readChunkSize w with
                | ((Some err, _), w) => (if errors_Is err io_EOF then Ok messages else Err err, w)
                | ((None, streamBuffer), w) => stream_loop fuel n limitBytes messages streamBuffer w
                end
              else if (limitBytes <=? len) && (0 <? limitBytes) then (Err yprotocol_ErrProtocolStreamByteLimitExceeded, w)
              else
                match incomplete with
                | Some (_, incompleteErr) =>
                    if (0 <? limitBytes) && (limitBytes <? len) then (Err yprotocol_ErrProtocolStreamByteLimitExceeded, w)
                    else
                      match readAndAppendStreamBytes streamBuffer limitBytes readChunkSize w with
                      | ((Some err, _), w) => (if errors_Is err io_EOF then Err incompleteErr else Err err, w)
                      | ((None, streamBuffer), w) => stream_loop fuel n limitBytes messages streamBuffer w
                      end
                | None => (Ok messages, w)
                end
          end
      end
  end.

Definition ReadProtocolMessagesFromStreamNWithLimit (fuel : nat) (n limitBytes : Z) (w : W)
    : result (list ProtocolMessage) * W :=
  if n <? -1 then
    (Err (protocolError "ReadProtocolMessagesFromStreamNWithLimit.count" 0 (Opaque "n deve ser nao negativo")), w)
  else if limitBytes <? 0 then
    (Err (protocolError "ReadProtocolMessagesFromStreamNWithLimit.limitBytes" 0 (Opaque "limite de bytes deve ser nao negativo")), w)
  else stream_loop fuel n limitBytes [] [] w.

Definition ReadProtocolMessagesFromStreamN (fuel : nat) (n : Z) (w : W) : result (list ProtocolMessage) * W :=
  ReadProtocolMessagesFromStreamNWithLimit fuel n 0 w.

Definition ReadProtocolMessagesFromStream (fuel : nat) (w : W) : result (list ProtocolMessage) * W :=
  ReadProtocolMessagesFromStreamNWithLimit fuel (-1) 0 w.

End stream.
