(* ===== verification/YProtocolSpec.v ===== *)
(** * What the envelope guarantees

    For every message the encoder accepts: the reader returns it (normalised)
    from its encoding, and fails for want of bytes on every proper prefix.  Then the
    round trip of a sequence of messages, the shape of whatever is decoded, and
    the incremental reader: the messages do not depend on how the stream cuts
    the bytes, and a finite stream always gives a result. *)
From S2P Require Import Prelude GoError Varint GoJson Awareness AwarenessSpec YProtocol YStream Binary.
Import varint.

(** [bs] is the encoding of [a]. *)
Definition codes {A} (m : RM A) (bs : bytes) (a : A) : Prop := reads m bs a ∧ truncates m bs.

Lemma codes_bind {A B} (m : RM A) (k : A → RM B) bs1 bs2 a b :
  codes m bs1 a → codes (k a) bs2 b → codes (m ≫= k) (bs1 ++ bs2) b.
Proof. intros [] []. split; [by eapply reads_bind|by eapply truncates_bind]. Qed.

Lemma codes_bind_ret {A B} (m : RM A) (k : A → RM B) bs a b : codes m bs a → reads (k a) [] b → codes (m ≫= k) bs b.
Proof. intros [] ?. split; [by eapply reads_bind_ret|by eapply truncates_bind_ret]. Qed.

Lemma codes_offset {B} (k : Z → RM B) bs b : (∀ o, codes (k o) bs b) → codes (getOffset ≫= k) bs b.
Proof. intros H. split; [apply reads_offset|apply truncates_offset]; intros o; apply H. Qed.

Lemma codes_catch {A} (m : RM A) wrap bs a : (∀ o e, eof_error e = true → eof_error (wrap o e) = true) →
  codes m bs a → codes (catch m wrap) bs a.
Proof. intros ? []. split; [by apply reads_catch|by apply truncates_catch]. Qed.

Lemma codes_ReadU v : is_u32 v → codes ReadU (Append [] v) v.
Proof. split; [by apply reads_ReadU|by apply truncates_ReadU]. Qed.

Lemma codes_ReadN bs n : n = Z.of_nat (length bs) → codes (ReadN n) bs bs.
Proof. split; [by apply reads_ReadN|by apply truncates_ReadN]. Qed.

Lemma eof_protocolError op o e : eof_error e = true → eof_error (protocolError op o e) = true.
Proof. done. Qed.

Create HintDb codes.
#[export] Hint Resolve codes_ReadU codes_ReadN codes_catch eof_protocolError : codes.

Lemma reads_decode_all {A} op (m : RM A) bs a : reads m bs a → decode_all op m bs = Ok a.
Proof.
  intros H. unfold decode_all. rewrite (H (NewReader bs) []) by (rewrite ?view_NewReader, ?app_nil_r; done || apply wf_NewReader).
  unfold Remaining. cbn [data offset advance NewReader]. by rewrite (proj2 (Z.eqb_eq _ _)) by lia.
Qed.

Lemma codes_readVarBytes op payload : is_u32 (Z.of_nat (length payload)) → codes (readVarBytes op) (appendVarBytes [] payload) payload.
Proof.
  intros Hl. unfold readVarBytes, appendVarBytes. rewrite w32_small by done. apply codes_offset. intros o.
  eapply codes_bind; eauto with codes.
Qed.

Lemma appendVarBytes_app dst payload : appendVarBytes dst payload = dst ++ appendVarBytes [] payload.
Proof. unfold appendVarBytes. by rewrite Append_app, <- app_assoc. Qed.

Lemma listed_u32 t l : existsb (Z.eqb t) l = true → Forall is_u32 l → is_u32 t.
Proof. intros (x & Hx & ->%Z.eqb_eq)%existsb_exists Hl. rewrite Forall_forall in Hl. by apply Hl, list_elem_of_In. Qed.

Lemma codes_ReadProtocolType t : ProtocolType_Valid t = true → codes ReadProtocolType (AppendProtocolType [] t) t.
Proof.
  intros Ht. assert (is_u32 t) by (eapply listed_u32; [exact Ht|by repeat constructor]).
  apply codes_offset. intros o. eapply codes_bind_ret; [by eauto with codes|]. rewrite Ht. apply reads_ret.
Qed.

(** ** The kinds of messages *)

Lemma codes_ReadSyncMessage s : SyncMessageType_Valid (sm_Type s) = true → is_u32 (Z.of_nat (length (sm_Payload s))) →
  codes ReadSyncMessage (Append [] (sm_Type s) ++ appendVarBytes [] (sm_Payload s)) s.
Proof.
  intros Ht Hl. assert (is_u32 (sm_Type s)) by (eapply listed_u32; [exact Ht|by repeat constructor]).
  apply codes_offset. intros o. eapply codes_bind; [by eauto with codes|]. rewrite Ht. cbn [negb].
  eapply codes_bind_ret; [by apply codes_readVarBytes|]. destruct s. apply reads_ret.
Qed.

Lemma codes_ReadAuthMessage a : AuthMessageType_Valid (am_Type a) = true → is_u32 (Z.of_nat (length (am_Reason a))) →
  codes ReadAuthMessage (Append [] (am_Type a) ++ appendVarBytes [] (am_Reason a)) a.
Proof.
  intros Ht Hl. pose proof Ht as E. unfold AuthMessageType_Valid, AuthMessageTypePermissionDenied in E. apply Z.eqb_eq in E.
  assert (is_u32 (am_Type a)) by (rewrite E; u32).
  apply codes_offset. intros o. eapply codes_bind; [by eauto with codes|]. rewrite Ht. cbn [negb].
  rewrite E. change (0 =? AuthMessageTypePermissionDenied) with true. rewrite <- E.
  eapply codes_bind_ret; [by apply codes_readVarBytes|]. destruct a. apply reads_ret.
Qed.

Lemma normalizeJSON_Ok s t : normalizeState s = Ok t → normalizeJSON s = Ok t.
Proof.
  unfold normalizeState, normalizeJSON. destruct s; [done|]. destruct (Valid _); [|done]. cbn [negb]. by destruct (Compact _).
Qed.

Lemma reads_awareness_client client : wire_client client → normalizeState (State client) = Ok (State (normalised client)) →
  reads read_awareness_client (encode_client client) (normalised client).
Proof.
  intros (Hi & Hc & Hl) Hn. unfold read_awareness_client, encode_client. apply reads_offset. intros o1.
  eapply reads_bind; [by apply reads_catch, reads_ReadU|]. apply reads_offset. intros o2.
  eapply reads_bind; [by apply reads_catch, reads_ReadU|].
  apply (reads_bind_ret _ _ _ (State (normalised client))).
  - unfold readAwarenessState. apply reads_offset. intros o. eapply reads_bind; [by apply reads_catch, reads_ReadU|].
    eapply reads_bind_ret; [by apply reads_catch, reads_ReadN|].
    destruct (normalizeState_idem _ _ Hn) as [->%normalizeJSON_Ok _]. apply reads_ret.
  - unfold normalised. rewrite Hn. cbn. apply reads_ret.
Qed.

(** The payload of an awareness message. *)
Definition awareness_payload (clients : Update) : bytes :=
  Append [] (Z.of_nat (length clients)) ++ concat (encode_client <$> clients).

Definition wire_update (clients : Update) : Prop :=
  Forall wire_client clients ∧ is_u32 (Z.of_nat (length clients)) ∧ is_u32 (Z.of_nat (length (awareness_payload clients))).

Lemma EncodeUpdate_payload update bs : Forall wire_client (default [] update) → is_u32 (Z.of_nat (length (default [] update))) →
  EncodeUpdate update = Ok bs → bs = awareness_payload (default [] update) ∧
  Forall (λ x, normalizeState (State x) = Ok (State (normalised x))) (default [] update).
Proof.
  intros Hw Hn He. unfold EncodeUpdate, AppendUpdate in He. rewrite w32_small in He by done.
  by apply append_clients_ok in He as [-> ?].
Qed.

Lemma codes_readAwarenessMessage clients : wire_update clients →
  Forall (λ x, normalizeState (State x) = Ok (State (normalised x))) clients →
  codes readAwarenessMessage (Append [] (Z.of_nat (length (awareness_payload clients))) ++ awareness_payload clients)
    (normalised <$> clients).
Proof.
  intros (Hw & Hn & Hl) Hs. apply codes_offset. intros o. eapply codes_bind; [by eauto with codes|].
  eapply codes_bind_ret; [by eauto with codes|]. apply reads_lift, reads_decode_all. unfold readAwarenessPayload, awareness_payload.
  apply reads_offset. intros o'. eapply reads_bind; [by apply reads_catch, reads_ReadU|]. rewrite Nat2Z.id.
  by apply reads_client_loop; [apply reads_awareness_client|..].
Qed.

(** ** Whole messages *)

Lemma validate_shape m : validateProtocolMessage (Some m) = None →
  (∃ s, m = mkMessage ProtocolTypeSync (Some s) None None None) ∨
  (∃ u, m = mkMessage ProtocolTypeAwareness None (Some u) None None) ∨
  (∃ a, m = mkMessage ProtocolTypeAuth None None (Some a) None) ∨
  (∃ q, m = mkMessage ProtocolTypeQueryAwareness None None None q).
Proof.
  unfold validateProtocolMessage, populated. destruct m as [p s aw au q]. cbn [Protocol pm_Sync pm_Awareness pm_Auth pm_QueryAwareness].
  destruct (Z.eqb_spec p ProtocolTypeSync) as [->|]; [destruct s, aw, au, q; cbn; try done; intros _; left; by eexists|].
  destruct (Z.eqb_spec p ProtocolTypeAwareness) as [->|]; [destruct s, aw, au, q; cbn; try done; intros _; right; left; by eexists|].
  destruct (Z.eqb_spec p ProtocolTypeAuth) as [->|]; [destruct s, aw, au, q; cbn; try done; intros _; do 2 right; left; by eexists|].
  destruct (Z.eqb_spec p ProtocolTypeQueryAwareness) as [->|]; [|done]. destruct s, aw, au; cbn; try done; try (by destruct q).
  intros _. do 3 right. by eexists.
Qed.

(** The sizes fit the wire format. *)
Definition wire_message (m : ProtocolMessage) : Prop :=
  match pm_Sync m with Some s => is_u32 (Z.of_nat (length (sm_Payload s))) | None => True end ∧
  match pm_Awareness m with Some u => wire_update u | None => True end ∧
  match pm_Auth m with Some a => is_u32 (Z.of_nat (length (am_Reason a))) | None => True end.

(** What arrives: the states are normalised, the query carries its empty payload. *)
Definition normal_message (m : ProtocolMessage) : ProtocolMessage :=
  mkMessage (Protocol m) (pm_Sync m) ((λ u : Update, normalised <$> u) <$> pm_Awareness m) (pm_Auth m)
    (if Protocol m =? ProtocolTypeQueryAwareness then Some mkQueryAwareness else pm_QueryAwareness m).

Lemma AppendProtocolType_app dst t : AppendProtocolType dst t = dst ++ AppendProtocolType [] t.
Proof. apply Append_app. Qed.

Lemma codes_message t bs m : ProtocolType_Valid t = true →
  (∀ start, codes (
    if t =? ProtocolTypeSync then message ← ReadSyncMessage; mret (mkMessage t (Some message) None None None)
    else if t =? ProtocolTypeAwareness then
      message ← catch readAwarenessMessage (λ _ err, protocolError "ReadProtocolMessage.awareness" start err);
      mret (mkMessage t None (Some message) None None)
    else if t =? ProtocolTypeAuth then
      message ← catch ReadAuthMessage (λ _ err, protocolError "ReadProtocolMessage.auth" start err);
      mret (mkMessage t None None (Some message) None)
    else if t =? ProtocolTypeQueryAwareness then mret (mkMessage t None None None (Some mkQueryAwareness))
    else fail (protocolError "ReadProtocolMessage.protocol" start (Wrapped "%w: %d" yprotocol_ErrUnknownProtocolType))) bs m) →
  codes ReadProtocolMessage (AppendProtocolType [] t ++ bs) m ∧ AppendProtocolType [] t ++ bs ≠ [].
Proof.
  intros Ht H. split.
  - apply codes_offset. intros o. eapply codes_bind; [by apply codes_ReadProtocolType|]. apply H.
  - intros [E _]%app_nil. assert (is_u32 t) as Hu by (eapply listed_u32; [exact Ht|by repeat constructor]).
    pose proof (Append_length t Hu) as Hl. unfold AppendProtocolType in E. rewrite E in Hl. cbn in Hl. lia.
Qed.

Lemma codes_envelope dst m bs : wire_message m → appendProtocolEnvelope dst (Some m) = Ok bs →
  ∃ e, bs = dst ++ e ∧ e ≠ [] ∧ codes ReadProtocolMessage e (normal_message m).
Proof.
  intros (Hs & Hw & Ha). unfold appendProtocolEnvelope. destruct (validateProtocolMessage (Some m)) eqn:E; [done|].
  apply validate_shape in E as [[s ->]|[[u ->]|[[a ->]|[q ->]]]]; cbn [Protocol pm_Sync pm_Awareness pm_Auth pm_QueryAwareness] in *.
  - rewrite Z.eqb_refl. unfold AppendSyncMessage. destruct (SyncMessageType_Valid (sm_Type s)) eqn:Ht; [|done]. intros [= <-].
    eexists. rewrite appendVarBytes_app, Append_app, AppendProtocolType_app, <- !app_assoc. split; [done|].
    apply and_comm. apply codes_message; [done|]. intros o. rewrite Z.eqb_refl.
    eapply codes_bind_ret; [by apply codes_ReadSyncMessage|apply reads_ret].
  - change (ProtocolTypeAwareness =? ProtocolTypeSync) with false. rewrite Z.eqb_refl. cbn iota.
    intros (e & He & [= <-])%result_bind_Ok. unfold EncodeProtocolUpdate in He. apply result_bind_Ok in He as (payload & Hp & [= <-]).
    destruct Hw as (Hw & Hn & Hl). apply EncodeUpdate_payload in Hp as [-> Hp]; [|done..]. cbn [default from_option id] in *.
    eexists. split; [done|]. apply and_comm. rewrite Append_app, w32_small, <- app_assoc by done. apply codes_message; [done|]. intros o.
    change (ProtocolTypeAwareness =? ProtocolTypeSync) with false. rewrite Z.eqb_refl.
    eapply codes_bind_ret; [apply codes_catch; [done|by apply codes_readAwarenessMessage]|apply reads_ret].
  - change (ProtocolTypeAuth =? ProtocolTypeSync) with false. change (ProtocolTypeAuth =? ProtocolTypeAwareness) with false. rewrite Z.eqb_refl.
    unfold AppendAuthMessage. destruct (AuthMessageType_Valid (am_Type a)) eqn:Ht; [|done]. cbn [negb].
    unfold AuthMessageType_Valid in Ht. rewrite Ht. intros [= <-].
    eexists. rewrite appendVarBytes_app, Append_app, AppendProtocolType_app, <- !app_assoc. split; [done|].
    apply and_comm. apply codes_message; [done|]. intros o.
    eapply codes_bind_ret; [by apply codes_catch, codes_ReadAuthMessage|apply reads_ret].
  - intros [= <-]. eexists. rewrite AppendProtocolType_app. split; [done|]. apply and_comm. rewrite <- (app_nil_r (AppendProtocolType [] _)).
    apply codes_message; [done|]. intros o. split; [apply reads_ret|apply truncates_nil].
Qed.

Lemma appendProtocolEnvelope_app dst m : appendProtocolEnvelope dst m = e ← appendProtocolEnvelope [] m; Ok (dst ++ e).
Proof.
  unfold appendProtocolEnvelope. destruct (validateProtocolMessage m), m as [m|]; try done.
  destruct (Protocol m =? ProtocolTypeSync); [destruct (pm_Sync m) as [s|]; [|done]; unfold AppendSyncMessage|].
  { destruct (negb _); [done|]. cbn. by rewrite appendVarBytes_app, Append_app, AppendProtocolType_app, (appendVarBytes_app (Append _ _)),
      (Append_app (AppendProtocolType [] _)), <- !app_assoc. }
  destruct (Protocol m =? ProtocolTypeAwareness); [by destruct (EncodeProtocolUpdate _)|].
  destruct (Protocol m =? ProtocolTypeAuth); [destruct (pm_Auth m) as [a|]; [|done]; unfold AppendAuthMessage|].
  { destruct (negb _); [done|]. destruct (_ =? _); [|done]. cbn. by rewrite appendVarBytes_app, Append_app, AppendProtocolType_app,
      (appendVarBytes_app (Append _ _)), (Append_app (AppendProtocolType [] _)), <- !app_assoc. }
  destruct (Protocol m =? ProtocolTypeQueryAwareness); [|done]. cbn. by rewrite AppendProtocolType_app.
Qed.

(** ** What is read *)

Lemma RM_bind_Ok {A B} (m : RM A) (k : A → RM B) r b r' :
  (m ≫= k) r = (Ok b, r') → ∃ a r1, m r = (Ok a, r1) ∧ k a r1 = (Ok b, r').
Proof. unfold mbind, RM_bind. destruct (m r) as [[a|] r1]; [|done]. intros H. by exists a, r1. Qed.

Lemma ReadProtocolMessage_shape r m r' : ReadProtocolMessage r = (Ok m, r') →
  validateProtocolMessage (Some m) = None ∧ populated m = 1.
Proof.
  unfold ReadProtocolMessage. intros (start & r0 & _ & (t & r1 & _ & H)%RM_bind_Ok)%RM_bind_Ok.
  destruct (t =? ProtocolTypeSync) eqn:E1; [|destruct (t =? ProtocolTypeAwareness) eqn:E2;
    [|destruct (t =? ProtocolTypeAuth) eqn:E3; [|destruct (t =? ProtocolTypeQueryAwareness) eqn:E4; [|done]]]].
  all: try (apply RM_bind_Ok in H as (x & r2 & _ & H)); injection H as <- <-; split; [|done];
    unfold validateProtocolMessage; cbn [Protocol]; by rewrite ?E1, ?E2, ?E3, ?E4.
Qed.

(** ** Sequences of encoded messages *)

(** An encoding and the message read from it. *)
Definition coded (x : bytes * ProtocolMessage) : Prop := x.1 ≠ [] ∧ codes ReadProtocolMessage x.1 x.2.

Lemma encoded_envelopes messages dst bs : Forall wire_message messages →
  fold_result (λ dst message, map_err (Wrapped "encode protocol envelope %d: %w") (appendProtocolEnvelope dst message))
    (Some <$> messages) dst = Ok bs →
  ∃ l, bs = dst ++ concat l.*1 ∧ l.*2 = normal_message <$> messages ∧ Forall coded l ∧
    Forall (λ x, ∃ m, m ∈ messages ∧ EncodeProtocolEnvelope (Some m) = Ok x.1) l.
Proof.
  revert dst. induction messages as [|m ms IH]; intros dst; cbn [fmap list_fmap fold_result].
  - intros _ [= <-]. exists []. split_and!; [by rewrite app_nil_r|done|constructor..].
  - intros [Hm Hms]%Forall_cons. destruct (appendProtocolEnvelope dst (Some m)) as [b|] eqn:E; [|done].
    pose proof E as Ee. rewrite appendProtocolEnvelope_app in Ee. apply result_bind_Ok in Ee as (e1 & Ee & [= E1]).
    apply codes_envelope in E as (e & -> & He & Hc); [|done]. apply app_inv_head in E1 as ->. cbn [map_err]. intros H.
    destruct (IH _ Hms H) as (l & -> & Hl & Hf & Hs). exists ((e, normal_message m) :: l). cbn. split_and!.
    + by rewrite <- app_assoc.
    + by rewrite <- Hl.
    + constructor; done.
    + constructor; [exists m; split; [constructor|done]|]. eapply Forall_impl; [exact Hs|]. intros x (m' & ? & ?). exists m'. split; [by constructor|done].
Qed.

(** Each of them is the encoding of one of the messages. *)
Lemma encoded_envelopes_each messages bs : Forall wire_message messages →
  EncodeProtocolEnvelopes (Some <$> messages) = Ok bs →
  ∃ l, bs = concat l.*1 ∧ l.*2 = normal_message <$> messages ∧ Forall coded l ∧
    Forall (λ x, ∃ m, m ∈ messages ∧ EncodeProtocolEnvelope (Some m) = Ok x.1) l.
Proof.
  intros Hw He. destruct (encoded_envelopes messages [] bs Hw He) as (l & -> & Hl & Hc & Hs). by exists l.
Qed.

Lemma coded_empty l : Forall coded l → concat l.*1 = [] → l = [].
Proof. destruct l as [|x l]; [done|]. cbn. intros [[Hx _] _]%Forall_cons [E _]%app_nil. done. Qed.

Lemma read_messages_spec l : Forall coded l → ∀ fuel messages r, wf_reader r → view r = concat l.*1 →
  (length (view r) < fuel)%nat → ∃ r', read_messages_loop fuel (-1) messages r = (Ok (messages ++ l.*2), r') ∧ wf_reader r' ∧ view r' = [].
Proof.
  induction l as [|[e m] l IH]; intros Hl fuel messages r Hw Hv Hf; (destruct fuel as [|fuel]; [lia|]);
    cbn [read_messages_loop]; rewrite <- length_view, Hv by done.
  - cbn. rewrite app_nil_r. by eexists.
  - apply Forall_cons in Hl as [[He [Hr _]] Hl]. cbn [fmap list_fmap concat fst snd] in *. rewrite length_app.
    assert (length e ≠ 0%nat) by by destruct e. rewrite (proj2 (Z.eqb_neq _ _)) by lia. cbn [orb Z.ltb Z.compare].
    rewrite (Hr r (concat l.*1)) by done. destruct (IH Hl fuel (messages ++ [m]) (advance (length e) r)) as (r' & -> & ? & ?).
    + by eapply wf_advance.
    + by apply view_advance_app.
    + rewrite (view_advance_app _ _ _ Hv). rewrite Hv, length_app in Hf. lia.
    + exists r'. rewrite <- app_assoc. done.
Qed.

(** ** The incremental reader *)

(** What the buffer holds of the messages to come: the whole of [l1] and a part
    [p] of the rest. *)
Record parsed (n : Z) (messages : list ProtocolMessage) (r : Reader) (missing : bytes) (l1 l2 : list (bytes * ProtocolMessage))
    (r' : Reader) (need : option (Z * error)) (p : bytes) : Prop := {
  pa_more : n < 0 ∨ Z.of_nat (length (messages ++ l1.*2)) < n;
  pa_view : view r = concat l1.*1 ++ p;
  pa_rest : p ++ missing = concat l2.*1;
  pa_need : match need with
    | None => p = [] ∧ Offset r' = Offset r + Z.of_nat (length (concat l1.*1))
    | Some (start, _) => p ≠ [] ∧ start = Offset r + Z.of_nat (length (concat l1.*1)) ∧
        ∃ x l, l2 = x :: l ∧ (length p < length x.1)%nat
    end }.

Lemma parse_buffer_spec l : Forall coded l → ∀ fuel n messages r missing, wf_reader r → view r ++ missing = concat l.*1 →
  (length (view r) < fuel)%nat → n < 0 ∨ Z.of_nat (length messages) <= n →
  ∃ l1 l2 r' need, l = l1 ++ l2 ∧ parse_buffer fuel n messages r = Ok (messages ++ l1.*2, r', need) ∧
    (Z.of_nat (length (messages ++ l1.*2)) = n ∨ ∃ p, parsed n messages r missing l1 l2 r' need p).
Proof.
  induction l as [|[e m] l IH]; intros Hl fuel n messages r missing Hw Hv Hf Hn; (destruct fuel as [|fuel]; [lia|]);
    cbn [parse_buffer].
  all: destruct ((n <? 0) || (Z.of_nat (length messages) <? n)) eqn:Hstop;
    [|match goal with |- ∃ l1 l2 r' need, ?L = _ ∧ _ => exists [], L end; eexists _, _; cbn; rewrite app_nil_r;
      split_and!; [done..|left; lia]].
  all: assert (n < 0 ∨ Z.of_nat (length messages) < n) as Hmore by lia; rewrite <- length_view by done.
  - cbn in Hv. apply app_nil in Hv as [Hv ->]. rewrite Hv. cbn. exists [], []. eexists _, _. cbn. rewrite app_nil_r.
    split_and!; [done..|right]. exists []. split; cbn; rewrite ?app_nil_r; try done. split; [done|lia].
  - apply Forall_cons in Hl as [[He [Hr Ht]] Hl]. cbn [fmap list_fmap concat fst snd] in *.
    destruct (decide (view r = [])) as [E|E].
    { rewrite E in *. cbn. exists [], ((e, m) :: l). eexists _, _. cbn. rewrite app_nil_r. split_and!; [done..|right]. exists [].
      split; cbn; rewrite ?app_nil_r; try done. split; [done|lia]. }
    rewrite (proj2 (Z.eqb_neq _ _)) by (by destruct (view r); [|cbn; lia]).
    destruct (decide (length (view r) < length e)%nat) as [Hlt|Hge].
    + apply app_eq_inv in Hv as [(t & Hv & Ht')|(t & Hv & ->)]; [rewrite Hv, length_app in Hlt; lia|].
      destruct (Ht r t Hw) as (err & r' & -> & Herr); [by intros ->; rewrite Hv, app_nil_r in Hlt; lia|done|].
      change (isRecoverableStreamEOF err) with (eof_error err). rewrite Herr.
      exists [], ((e, m) :: l). eexists _, _. cbn. rewrite app_nil_r. split_and!; [done..|right]. exists (view r).
      split; cbn; rewrite ?app_nil_r; [done|done|by rewrite Hv, <- app_assoc|].
      split_and!; [done|lia|]. by eexists _, _.
    + assert (∃ t, view r = e ++ t ∧ t ++ missing = concat l.*1) as (t & Hvr & Ht2).
      { apply app_eq_inv in Hv as [(t & Hv & Ht')|(t & Hv & ->)]; [by exists t|]. exists []. rewrite Hv, length_app in Hge.
        assert (t = []) as -> by by destruct t; cbn in *; [|lia]. by rewrite app_nil_r in *. }
      rewrite (Hr r t) by done.
      destruct (IH Hl fuel n (messages ++ [m]) (advance (length e) r) missing) as (l1 & l2 & r' & need & -> & -> & H).
      * by eapply wf_advance.
      * by rewrite (view_advance_app e t).
      * rewrite (view_advance_app e t) by done. rewrite Hvr, length_app in Hf. assert (length e ≠ 0%nat) by by destruct e. lia.
      * rewrite length_app. cbn. lia.
      * exists ((e, m) :: l1), l2, r', need. cbn. rewrite <- app_assoc in *. split_and!; [done..|]. destruct H as [H|(p & [H1 H2 H3 H4])].
        { left. exact H. }
        right. exists p. rewrite <- app_assoc in H1. rewrite (view_advance_app e t) in H2 by done.
        assert (Offset (advance (length e) r) = Offset r + Z.of_nat (length e)) as Eo by (unfold Offset, advance; cbn; lia).
        rewrite Eo in H4. split; cbn; [done|by rewrite Hvr, H2, <- app_assoc|done|].
        rewrite length_app. destruct need as [[start ?]|]; [destruct H4 as (? & -> & ?)|destruct H4 as [? ->]]; split_and!; try done; lia.
Qed.

Section stream.
Context {W : Type} `{IoStream W}.

(** The stream gives its bytes in non-empty pieces, then the end of file, and
    the context is not cancelled: the contract of [io.Reader]. *)
Definition honest_stream (delivers : W → bytes → Prop) : Prop := ∀ w bs n, delivers w bs → 0 < n →
  ctx_Err w = None ∧ ∃ chunk err w', readFromStream n w = ((chunk, err), w') ∧
    ((err = None ∧ chunk ≠ [] ∧ ∃ rest, bs = chunk ++ rest ∧ delivers w' rest) ∨
     (err = Some (Sentinel io_EOF) ∧ chunk = [] ∧ bs = [])).

Variable delivers : W → bytes → Prop.
Hypothesis Hhonest : honest_stream delivers.

Lemma readAndAppend_spec w bs target limit : delivers w bs → (limit = 0 ∨ Z.of_nat (length target) < limit) →
  ∃ w', (bs = [] ∧ readAndAppendStreamBytes target limit readChunkSize w = ((Some (Sentinel io_EOF), target), w')) ∨
    ∃ chunk rest, chunk ≠ [] ∧ bs = chunk ++ rest ∧ delivers w' rest ∧
      readAndAppendStreamBytes target limit readChunkSize w = ((None, target ++ chunk), w').
Proof.
  intros Hd Hl. unfold readAndAppendStreamBytes. cbv zeta.
  assert ((0 <? limit) && (limit - Z.of_nat (length target) <=? 0) = false) as -> by lia.
  set (rl := if _ && _ then _ else _). assert (0 < rl) as Hrl by (unfold rl, readChunkSize; destruct (_ && _) eqn:E; lia).
  destruct (Hhonest w bs rl Hd Hrl) as (_ & chunk & err & w' & -> & [(-> & Hc & rest & -> & Hd')|(-> & -> & ->)]); exists w'.
  - right. exists chunk, rest. destruct chunk; done.
  - left. by rewrite app_nil_r.
Qed.

Definition up_to (n : Z) (messages : list ProtocolMessage) : list ProtocolMessage :=
  if n <? 0 then messages else take (Z.to_nat n) messages.

Lemma stream_loop_spec fuel n limit l messages buffer w bs :
  delivers w bs → Forall coded l → buffer ++ bs = concat l.*1 → (length bs < fuel)%nat →
  n < 0 ∨ Z.of_nat (length messages) <= n →
  0 <= limit → (0 < limit → Forall (λ x, Z.of_nat (length x.1) <= limit) l) →
  (stream_loop fuel n limit messages buffer w).1 = Ok (up_to n (messages ++ l.*2)).
Proof.
  revert l messages buffer w bs. induction fuel as [|fuel IH]; intros l messages buffer w bs Hd Hl Hb Hf Hn H0 Hlim; [lia|].
  cbn [stream_loop]. destruct (Hhonest w bs 1 Hd ltac:(lia)) as (-> & _).
  destruct (parse_buffer_spec l Hl (S (length buffer)) n messages (NewReader buffer) bs) as (l1 & l2 & r' & need & -> & -> & H1);
    [apply wf_NewReader|by rewrite view_NewReader|rewrite view_NewReader; lia|done|].
  set (start := Z.to_nat _). rewrite fmap_app in *. destruct (Z.eqb_spec (Z.of_nat (length (messages ++ l1.*2))) n) as [En|Hne].
  { cbn. f_equal. unfold up_to. rewrite (proj2 (Z.ltb_ge n 0)) by lia. rewrite app_assoc, take_app_le by lia. rewrite take_ge by lia. done. }
  destruct H1 as [?|(p & [Hmore Hv Hr Hneed])]; [done|]. rewrite view_NewReader in Hv.
  assert (drop start buffer = p) as ->.
  { subst start. unfold Offset in Hneed. cbn [offset NewReader] in Hneed. destruct need as [[s ?]|].
    - destruct Hneed as (_ & -> & _). rewrite Hv, drop_app_length'; [done|lia].
    - unfold Offset. destruct Hneed as [-> ->]. rewrite Hv, drop_app_length'; [done|lia]. }
  apply Forall_app in Hl as [_ Hl2]. assert (0 < limit → Forall (λ x, Z.of_nat (length x.1) <= limit) l2) as Hlim2.
  { intros Hp. by apply Hlim, Forall_app in Hp as [_ ?]. }
  rewrite app_assoc. destruct (Z.eqb_spec (Z.of_nat (length p)) 0) as [Hp|Hp].
  - assert (p = []) as -> by by destruct p. destruct (readAndAppend_spec w bs [] limit Hd ltac:(cbn; lia)) as
      (w' & [[-> ->]|(chunk & rest & Hc & -> & Hd' & ->)]).
    + cbn. f_equal. cbn in Hr. symmetry in Hr. apply coded_empty in Hr as ->; [|done]. unfold up_to. destruct (Z.ltb_spec n 0); [by rewrite app_nil_r|].
      cbn. rewrite app_nil_r, take_ge by lia. done.
    + apply (IH l2 _ _ _ rest); try done; [|lia]. rewrite length_app in Hf. assert (length chunk ≠ 0%nat) by by destruct chunk. lia.
  - destruct need as [[s err]|]; [|by destruct Hneed as [-> _]]. destruct Hneed as (Hpn & _ & x & l3 & -> & Hx).
    assert (0 < limit → Z.of_nat (length p) < limit) as Hpl by (intros Hp'; apply Hlim2, Forall_cons in Hp' as [? _]; lia).
    assert ((limit <=? Z.of_nat (length p)) && (0 <? limit) = false) as -> by lia.
    assert ((0 <? limit) && (limit <? Z.of_nat (length p)) = false) as -> by lia.
    destruct (readAndAppend_spec w bs p limit Hd ltac:(lia)) as (w' & [[-> _]|(chunk & rest & Hc & -> & Hd' & ->)]).
    { rewrite app_nil_r in Hr. apply (f_equal length) in Hr. cbn in Hr. rewrite length_app in Hr. lia. }
    apply (IH (x :: l3) _ _ _ rest); try done; [by rewrite <- app_assoc| |lia].
    rewrite length_app in Hf. assert (length chunk ≠ 0%nat) by by destruct chunk. lia.
Qed.

End stream.

(** ** A stream made of chunks *)

#[export] Instance chunk_stream : IoStream (list bytes) := {|
  stream_Read n w :=
    match w with
    | [] => (([], Some (Sentinel io_EOF)), [])
    | c :: w => ((take (Z.to_nat n) c, None), match drop (Z.to_nat n) c with [] => w | rest => rest :: w end)
    end;
  stream_ReadContext := None; stream_Close := None; stream_SetReadDeadline := None;
  ctx_Err _ := None; ctx_hasDeadline _ := false; ctx_done_first _ := false |}.

Definition chunks_of (w : list bytes) (bs : bytes) : Prop := Forall (λ c, c ≠ []) w ∧ concat w = bs.

Lemma chunk_stream_honest : honest_stream chunks_of.
Proof.
  intros w bs n [Hc <-] Hn. split; [done|]. unfold readFromStream. cbn. destruct w as [|c w].
  - eexists _, _, _. split; [done|]. by right.
  - apply Forall_cons in Hc as [Hc Hw]. eexists _, _, _. split; [done|]. left. split_and!; [done| |].
    + destruct c; [done|]. destruct (Z.to_nat n) eqn:E; [lia|done].
    + exists (drop (Z.to_nat n) c ++ concat w). cbn. rewrite app_assoc, take_drop. split; [done|].
      destruct (drop (Z.to_nat n) c) eqn:E; [done|]. split; [by constructor|done].
Qed.

(** The file ends together with the last bytes: another stream [io.Reader]
    allows. *)
Definition last_read_stream : IoStream (list bytes) := {|
  stream_Read n w :=
    match w with
    | [c] => ((c, Some (Sentinel io_EOF)), [])
    | [] => (([], Some (Sentinel io_EOF)), [])
    | c :: w => ((c, None), w)
    end;
  stream_ReadContext := None; stream_Close := None; stream_SetReadDeadline := None;
  ctx_Err _ := None; ctx_hasDeadline _ := false; ctx_done_first _ := false |}.

(** ** The theorems *)

(** Messages round trip through the envelope: if a list of messages encodes
    (and their sizes fit the wire format), the decoder returns exactly these
    messages, in order, with awareness states normalised. *)
Theorem envelope_roundtrip (messages : list ProtocolMessage) (bs : bytes) (Hw : Forall wire_message messages)
    (He : EncodeProtocolEnvelopes (Some <$> messages) = Ok bs) :
  DecodeProtocolMessages bs = Ok (normal_message <$> messages).
Proof.
  apply encoded_envelopes_each in He as (l & -> & <- & Hl & _); [|done].
  unfold DecodeProtocolMessages, ReadProtocolMessages, readProtocolMessagesN.
  destruct (read_messages_spec l Hl (S (Z.to_nat (Remaining (NewReader (concat l.*1))))) [] (NewReader (concat l.*1)))
    as (r' & -> & _); [apply wf_NewReader|by rewrite view_NewReader|rewrite <- length_view by apply wf_NewReader; lia|done].
Qed.

Definition sample_messages : list ProtocolMessage :=
  [mkMessage ProtocolTypeSync (Some (mkSync SyncMessageTypeStep1 [0])) None None None;
   mkMessage ProtocolTypeAwareness None (Some [mkClient 7 1 [123; 32; 125]]) None None;
   mkMessage ProtocolTypeQueryAwareness None None None None].

Lemma sample_wire : Forall wire_message sample_messages.
Proof.
  repeat constructor; cbn; try done. all: unfold wire_client; vm_compute; split_and!; done.
Qed.

Lemma envelope_roundtrip_witness : DecodeProtocolMessages [0; 0; 1; 0; 1; 6; 1; 7; 1; 2; 123; 125; 3] =
  Ok (normal_message <$> sample_messages).
Proof. apply envelope_roundtrip; [apply sample_wire|vm_compute; reflexivity]. Defined.



(** Whatever arrives is well formed: a decoded message has exactly the
    payload its protocol type announces, so the handlers never meet a message
    without payload. *)
Theorem decoded_message_valid (src : bytes) (messages : list ProtocolMessage)
    (Hd : DecodeProtocolMessages src = Ok messages) :
  Forall (λ m, validateProtocolMessage (Some m) = None ∧ populated m = 1) messages.
Proof.
  unfold DecodeProtocolMessages, ReadProtocolMessages, readProtocolMessagesN in Hd.
  revert Hd. generalize (S (Z.to_nat (Remaining (NewReader src)))) as fuel. intros fuel.
  assert (Forall (λ m, validateProtocolMessage (Some m) = None ∧ populated m = 1) []) as H0 by constructor. revert H0.
  generalize (@nil ProtocolMessage) as acc. generalize (NewReader src) as r.
  induction fuel as [|fuel IH]; intros r acc H0; cbn [read_messages_loop]; [done|].
  destruct (_ || _); [|by intros [= <-]]. destruct (Remaining r =? 0); [by intros [= <-]|].
  destruct (ReadProtocolMessage r) as [[m|e] r'] eqn:E; [|done]. apply IH. apply Forall_app. split; [done|]. apply Forall_singleton.
  by eapply ReadProtocolMessage_shape.
Qed.

Lemma decoded_message_valid_witness : Forall (λ m, validateProtocolMessage (Some m) = None ∧ populated m = 1)
  [mkMessage ProtocolTypeQueryAwareness None None None (Some mkQueryAwareness)].
Proof. apply (decoded_message_valid [3]). vm_compute. reflexivity. Defined.

(** [m] asks for more bytes right after [bs], whatever follows. *)
Definition starves {A} (m : RM A) (bs : bytes) : Prop :=
  ∀ r rest, wf_reader r → view r = bs ++ rest → ∃ e r', m r = (Err e, r') ∧ eof_error e = true.

Lemma starves_bind {A B} (m : RM A) (k : A → RM B) bs1 bs2 a : reads m bs1 a → starves (k a) bs2 → starves (m ≫= k) (bs1 ++ bs2).
Proof.
  intros Hr Hs r rest Hw Hv. rewrite <- app_assoc in Hv. unfold mbind, RM_bind. rewrite (Hr r (bs2 ++ rest)) by done.
  apply (Hs _ rest); [by eapply wf_advance|by apply view_advance_app].
Qed.

Lemma starves_bind_first {A B} (m : RM A) (k : A → RM B) bs : starves m bs → starves (m ≫= k) bs.
Proof. intros Hs r rest Hw Hv. unfold mbind, RM_bind. destruct (Hs r rest Hw Hv) as (e & r' & -> & He). by exists e, r'. Qed.

Lemma starves_offset {B} (k : Z → RM B) bs : (∀ o, starves (k o) bs) → starves (getOffset ≫= k) bs.
Proof. intros H r rest Hw Hv. by apply (H _ r rest). Qed.

(** An awareness message whose frame is complete but whose payload is cut short
    counts as one that has not fully arrived: whatever follows it, the reader
    asks for more bytes instead of rejecting it. *)
Theorem malformed_awareness_stalls (rest : bytes) (n : Z) (Hn : n < 0) :
  ∃ reader err, parse_buffer (S (length ([1; 1; 5] ++ rest))) n [] (NewReader ([1; 1; 5] ++ rest)) = Ok ([], reader, Some (0, err)).
Proof.
  assert (starves ReadProtocolMessage ([1] ++ [1] ++ [5])) as Hs.
  { apply starves_offset. intros o. eapply starves_bind; [by apply (codes_ReadProtocolType 1)|]. cbn [Z.eqb].
    apply starves_bind_first. intros r rest' Hw Hv. unfold catch.
    assert (starves readAwarenessMessage ([1] ++ [5])) as Hs'.
    { apply starves_offset. intros o'. eapply starves_bind; [by apply reads_catch, (reads_ReadU 1)|].
      rewrite <- (app_nil_r [5]). eapply starves_bind; [by apply reads_catch, reads_ReadN|].
      intros r1 rest1 _ _. eexists _, r1. split; vm_compute; reflexivity. }
    destruct (Hs' r rest' Hw Hv) as (e & r' & -> & He). by eexists _, _. }
  cbn [parse_buffer]. rewrite (proj2 (Z.ltb_lt n 0)) by done. cbn [orb].
  rewrite (proj2 (Z.eqb_neq _ _)) by (unfold Remaining; cbn; lia).
  destruct (Hs (NewReader ([1; 1; 5] ++ rest)) rest (wf_NewReader _) (view_NewReader _)) as (e & r' & -> & He).
  change (isRecoverableStreamEOF e) with (eof_error e). rewrite He. by eexists _, _.
Qed.

Lemma malformed_awareness_stalls_witness : ∃ reader err,
  parse_buffer 8 (-1) [] (NewReader [1; 1; 5; 3; 3; 3; 3]) = Ok ([], reader, Some (0, err)).
Proof. apply (malformed_awareness_stalls [3; 3; 3; 3] (-1)). lia. Defined.

(** A stream may return its last bytes together with the end of file; the
    messages they hold are dropped without an error. *)
Theorem last_read_lost (bs : bytes) (fuel : nat) (limit : Z) (Hl : limit = 0) (Hf : (0 < fuel)%nat) :
  (@ReadProtocolMessagesFromStreamNWithLimit _ last_read_stream fuel (-1) limit [bs]).1 = Ok [].
Proof. subst limit. destruct fuel; [lia|]. reflexivity. Qed.

Lemma last_read_lost_witness : (@ReadProtocolMessagesFromStreamNWithLimit _ last_read_stream 5 (-1) 0 [[3; 3]]).1 = Ok [].
Proof. apply last_read_lost; [reflexivity|lia]. Defined.
