(* ===== verification/Lib0.v ===== *)
(** * internal/yupdate: the column codecs of the V2 format

    lib0_v2.go and lib0_v2_encode.go: lib0's signed integers, the three
    run-length codecs and the string table.  A decoder and an encoder are state
    records; a method returns the state also on failure.  The counters of a
    decoder are int64 and never overflow (they come from 32-bit lengths). *)
From S2P Require Import Prelude GoError Binary Varint GoText YTypes Decoder.
Import varint.

Definition MaxInt64 : Z := 9223372036854775807.

(** ** Integers *)

Definition readLib0VarUint (op : string) : RM Z := catch ReadU (λ off err, wrapError op off err).

(** The [for i := 0; i < 9; i++] loop. *)
Fixpoint readLib0VarInt_loop (fuel : nat) (op : string) (negative : bool) (value mult : Z) : RM (Z * bool) :=
  match fuel with
  | O => off ← getOffset; fail (wrapError op off varint_ErrOverflow)
  | S fuel =>
      b ← catch ReadByte (λ off _, wrapError op off varint_ErrUnexpectedEOF);
      off ← getOffset;
      if Z.quot MaxInt64 128 <? mult then fail (wrapError op off varint_ErrOverflow)
      else
        let next := Z.land b 127 in
        if Z.quot (MaxInt64 - value) mult <? next then fail (wrapError op off varint_ErrOverflow)
        else
          let value := value + next * mult in
          if Z.land b 128 =? 0 then mret (if negative then - value else value, negative)
          else readLib0VarInt_loop fuel op negative value (mult * 128)
  end.

Definition readLib0VarInt (op : string) : RM (Z * bool) :=
  first ← catch ReadByte (λ off _, wrapError op off varint_ErrUnexpectedEOF);
  let negative := negb (Z.land first 64 =? 0) in
  let value := Z.land first 63 in
  if Z.land first 128 =? 0 then mret (if negative then - value else value, negative)
  else readLib0VarInt_loop 9 op negative value 64.

Definition floorDiv2 (value : Z) : Z :=
  let quotient := Z.quot value 2 in
  if (value <? 0) && negb (Z.rem value 2 =? 0) then quotient - 1 else quotient.

(** The [for value > 0] loop; a nonnegative int64 has at most nine groups. *)
Fixpoint appendLib0_loop (fuel : nat) (dst : bytes) (value : Z) : bytes :=
  match fuel with
  | O => dst
  | S fuel =>
      if 0 <? value then
        let next := Z.land value 127 in
        let value := Z.quot value 128 in
        appendLib0_loop fuel (dst ++ [if 0 <? value then Z.lor next 128 else next]) value
      else dst
  end.

Definition appendLib0VarIntSigned (dst : bytes) (value : Z) (negative : bool) : bytes :=
  let first := Z.land value 63 in
  let value := Z.quot value 64 in
  let first := if negative then Z.lor first 64 else first in
  let first := if 0 <? value then Z.lor first 128 else first in
  appendLib0_loop 9 (dst ++ [first]) value.

Definition appendLib0VarInt (dst : bytes) (value : Z) : bytes :=
  let negative := value <? 0 in
  let value := if negative then - value else value in
  appendLib0VarIntSigned dst value negative.

Definition readLib0VarString (op : string) : RM bytes :=
  length ← readLib0VarUint (op +:+ ".len");
  catch (ReadN length) (λ off err, wrapError op off err).

Definition readLib0VarUint8ArrayView (op : string) : RM bytes :=
  length ← readLib0VarUint (op +:+ ".len");
  catch (ReadN length) (λ off err, wrapError op off err).

(** A copy of the same bytes. *)
Definition readLib0VarUint8Array (op : string) : RM bytes := readLib0VarUint8ArrayView op.

(** The [for i := 0; i < 10; i++] loop. *)
Fixpoint readLib0VarIntRaw_loop (n : nat) (op : string) (raw : bytes) : RM bytes :=
  match n with
  | O => off ← getOffset; fail (wrapError op off varint_ErrOverflow)
  | S n =>
      b ← catch ReadByte (λ off _, wrapError op off varint_ErrUnexpectedEOF);
      let raw := raw ++ [b] in
      if Z.land b 128 =? 0 then mret raw else readLib0VarIntRaw_loop n op raw
  end.

Definition readLib0VarIntRaw (op : string) : RM bytes := readLib0VarIntRaw_loop 10 op [].

Definition readLib0BigEndian (op : string) (size : Z) : RM bytes := catch (ReadN size) (λ off err, wrapError op off err).

Definition appendLib0VarString (dst value : bytes) : bytes := appendVarStringV1 dst value.

Definition appendLib0VarUint8Array (dst value : bytes) : bytes :=
  appendVarUintV1 dst (w32 (Z.of_nat (length value))) ++ value.

(** ** A decoder over its own reader *)

(** [trailing]: what every [ensureDrained] checks. *)
Definition drained (count : Z) (op : string) (reader : Reader) : option error :=
  if (0 <? count) || negb (Remaining reader =? 0)
  then Some (wrapError (op +:+ ".trailing") (Offset reader) yupdate_ErrTrailingBytes) else None.

Record uintOptRleDecoder := mkUintDec { u_reader : Reader; u_value : Z; u_count : Z; u_op : string }.

Definition newUintOptRleDecoder (data : bytes) (op : string) : uintOptRleDecoder := mkUintDec (NewReader data) 0 0 op.

(** The value of a run, and whether a count follows. *)
Definition uint_value (op : string) : RM (Z * bool) :=
  '(value, negative) ← readLib0VarInt (op +:+ ".value");
  let value := if value <? 0 then - value else value in
  off ← getOffset;
  if MaxUint32 <? value then fail (wrapError (op +:+ ".value") off varint_ErrOverflow) else mret (value, negative).

Definition uint_read (d : uintOptRleDecoder) : result Z * uintOptRleDecoder :=
  let op := u_op d in
  if u_count d =? 0 then
    match uint_value op (u_reader d) with
    | (Err err, reader) => (Err err, mkUintDec reader (u_value d) (u_count d) op)
    | (Ok (value, negative), reader) =>
        if negative : bool then
          match readLib0VarUint (op +:+ ".count") reader with
          | (Err err, reader) => (Err err, mkUintDec reader value 1 op)
          | (Ok count, reader) => (Ok value, mkUintDec reader value (count + 2 - 1) op)
          end
        else (Ok value, mkUintDec reader value (1 - 1) op)
    end
  else (Ok (u_value d), mkUintDec (u_reader d) (u_value d) (u_count d - 1) op).

Definition uint_ensureDrained (d : uintOptRleDecoder) : option error := drained (u_count d) (u_op d) (u_reader d).

Record intDiffOptRleDecoder := mkIntDec { i_reader : Reader; i_value : Z; i_diff : Z; i_count : Z; i_op : string }.

Definition newIntDiffOptRleDecoder (data : bytes) (op : string) : intDiffOptRleDecoder := mkIntDec (NewReader data) 0 0 0 op.

(** The step every read takes once a run is open. *)
Definition diff_take (d : intDiffOptRleDecoder) : result Z * intDiffOptRleDecoder :=
  let value := i_value d + i_diff d in
  let d := mkIntDec (i_reader d) value (i_diff d) (i_count d - 1) (i_op d) in
  if (value <? 0) || (MaxUint32 <? value)
  then (Err (wrapError (i_op d +:+ ".value") (Offset (i_reader d)) varint_ErrOverflow), d)
  else (Ok value, d).

Definition diff_read (d : intDiffOptRleDecoder) : result Z * intDiffOptRleDecoder :=
  let op := i_op d in
  if i_count d =? 0 then
    match readLib0VarInt (op +:+ ".diff") (i_reader d) with
    | (Err err, reader) => (Err err, mkIntDec reader (i_value d) (i_diff d) (i_count d) op)
    | (Ok (encodedDiff, _), reader) =>
        let hasCount := negb (Z.land encodedDiff 1 =? 0) in
        let diff := floorDiv2 encodedDiff in
        if hasCount then
          match readLib0VarUint (op +:+ ".count") reader with
          | (Err err, reader) => (Err err, mkIntDec reader (i_value d) diff 1 op)
          | (Ok count, reader) => diff_take (mkIntDec reader (i_value d) diff (count + 2) op)
          end
        else diff_take (mkIntDec reader (i_value d) diff 1 op)
    end
  else diff_take d.

Definition diff_ensureDrained (d : intDiffOptRleDecoder) : option error := drained (i_count d) (i_op d) (i_reader d).

(** The last run has no count: it never ends. *)
Record rleByteDecoder := mkRleDec { r_reader : Reader; r_value : Z; r_count : Z; r_op : string }.

Definition newRleByteDecoder (data : bytes) (op : string) : rleByteDecoder := mkRleDec (NewReader data) 0 0 op.

Definition rle_read (d : rleByteDecoder) : result Z * rleByteDecoder :=
  let op := r_op d in
  if r_count d =? 0 then
    match catch ReadByte (λ off err, wrapError (op +:+ ".value") off err) (r_reader d) with
    | (Err err, reader) => (Err err, mkRleDec reader (r_value d) (r_count d) op)
    | (Ok value, reader) =>
        if 0 <? Remaining reader then
          match readLib0VarUint (op +:+ ".count") reader with
          | (Err err, reader) => (Err err, mkRleDec reader value (r_count d) op)
          | (Ok count, reader) => (Ok value, mkRleDec reader value (count + 1 - 1) op)
          end
        else (Ok value, mkRleDec reader value (-1 - 1) op)
    end
  else (Ok (r_value d), mkRleDec (r_reader d) (r_value d) (r_count d - 1) op).

Definition rle_ensureDrained (d : rleByteDecoder) : option error := drained (r_count d) (r_op d) (r_reader d).

(** ** Strings: one table, cut by lengths in UTF-16 units *)

Record stringDecoderV2 := mkStrDec {
  s_lengths : uintOptRleDecoder; s_table : bytes; s_units : option (list Z); s_pos : Z; s_op : string }.

Definition isASCIIString (value : bytes) : bool := forallb (λ b, b <? 128) value.

Definition encodeUTF16Units (value : bytes) : list Z :=
  concat ((λ current, if current <=? 65535 then [current]
                      else [55296 + (current - 65536) / 1024; 56320 + (current - 65536) mod 1024]) <$> runes value).

Definition newStringDecoderV2 (data : bytes) (op : string) : result stringDecoderV2 :=
  match readLib0VarString (op +:+ ".table") (NewReader data) with
  | (Err err, _) => Err err
  | (Ok value, reader) =>
      match ReadN (Remaining reader) reader with
      | (Err err, reader) => Err (wrapError (op +:+ ".lengths") (Offset reader) err)
      | (Ok remaining, _) =>
          Ok (mkStrDec (newUintOptRleDecoder remaining (op +:+ ".lengths")) value
                (if isASCIIString value then None else Some (encodeUTF16Units value)) 0 op)
      end
  end.

Definition str_utf16Length (d : stringDecoderV2) : Z :=
  match s_units d with None => Z.of_nat (length (s_table d)) | Some units => Z.of_nat (length units) end.

Definition cut {A} (pos e : Z) (l : list A) : list A := take (Z.to_nat (e - pos)) (drop (Z.to_nat pos) l).

Definition str_read (d : stringDecoderV2) : result bytes * stringDecoderV2 :=
  match uint_read (s_lengths d) with
  | (Err err, lengths) => (Err err, mkStrDec lengths (s_table d) (s_units d) (s_pos d) (s_op d))
  | (Ok length, lengths) =>
      let d := mkStrDec lengths (s_table d) (s_units d) (s_pos d) (s_op d) in
      let e := s_pos d + length in
      if (e <? s_pos d) || (str_utf16Length d <? e)
      then (Err (wrapError (s_op d +:+ ".slice") (s_pos d) varint_ErrUnexpectedEOF), d)
      else
        let value :=
          match s_units d with
          | None => cut (s_pos d) e (s_table d)
          | Some units => string_of_runes (utf16_decode (cut (s_pos d) e units))
          end in
        (Ok value, mkStrDec lengths (s_table d) (s_units d) e (s_op d))
  end.

Definition str_ensureDrained (d : stringDecoderV2) : option error :=
  if negb (s_pos d =? str_utf16Length d)
  then Some (wrapError (s_op d +:+ ".trailing") (s_pos d) yupdate_ErrTrailingBytes)
  else uint_ensureDrained (s_lengths d).

(** ** Encoders *)

Record uintOptRleEncoder := mkUintEnc { ue_value : Z; ue_count : Z; ue_data : bytes }.

Definition uint_flush (e : uintOptRleEncoder) : uintOptRleEncoder :=
  if ue_count e =? 0 then e
  else
    let data := appendLib0VarIntSigned (ue_data e) (ue_value e) (1 <? ue_count e) in
    let data := if 1 <? ue_count e then appendVarUintV1 data (w32 (ue_count e - 2)) else data in
    mkUintEnc (ue_value e) 0 data.

Definition uint_write (e : uintOptRleEncoder) (value : Z) : uintOptRleEncoder :=
  if (0 <? ue_count e) && (ue_value e =? value) then mkUintEnc (ue_value e) (ue_count e + 1) (ue_data e)
  else mkUintEnc value 1 (ue_data (uint_flush e)).

Definition uint_bytes (e : uintOptRleEncoder) : bytes := ue_data (uint_flush e).

Record intDiffOptRleEncoder := mkIntEnc { ie_value : Z; ie_diff : Z; ie_count : Z; ie_data : bytes }.

Definition diff_flush (e : intDiffOptRleEncoder) : intDiffOptRleEncoder :=
  if ie_count e =? 0 then e
  else
    let encodedDiff := ie_diff e * 2 in
    let encodedDiff := if 1 <? ie_count e then encodedDiff + 1 else encodedDiff in
    let data := appendLib0VarInt (ie_data e) encodedDiff in
    let data := if 1 <? ie_count e then appendVarUintV1 data (w32 (ie_count e - 2)) else data in
    mkIntEnc (ie_value e) (ie_diff e) 0 data.

Definition diff_write (e : intDiffOptRleEncoder) (value : Z) : intDiffOptRleEncoder :=
  let diff := value - ie_value e in
  if (0 <? ie_count e) && (ie_diff e =? diff) then mkIntEnc value (ie_diff e) (ie_count e + 1) (ie_data e)
  else mkIntEnc value diff 1 (ie_data (diff_flush e)).

Definition diff_bytes (e : intDiffOptRleEncoder) : bytes := ie_data (diff_flush e).

Record rleByteEncoder := mkRleEnc { re_value : Z; re_count : Z; re_data : bytes }.

Definition rle_write (e : rleByteEncoder) (value : Z) : rleByteEncoder :=
  if (0 <? re_count e) && (re_value e =? value) then mkRleEnc (re_value e) (re_count e + 1) (re_data e)
  else
    let data := if 0 <? re_count e then appendVarUintV1 (re_data e) (w32 (re_count e - 1)) else re_data e in
    mkRleEnc value 1 (data ++ [value]).

Definition rle_bytes (e : rleByteEncoder) : bytes := re_data e.

Record stringEncoderV2 := mkStrEnc { se_table : bytes; se_lengths : uintOptRleEncoder }.

Definition str_write (e : stringEncoderV2) (value : bytes) : stringEncoderV2 :=
  mkStrEnc (se_table e ++ value) (uint_write (se_lengths e) (utf16Length value)).

Definition str_bytes (e : stringEncoderV2) : bytes :=
  appendLib0VarString [] (se_table e) ++ uint_bytes (se_lengths e).

Definition unsupportedV2FeatureFlag (flag : Z) : error := Wrapped "%w: feature flag %d" yupdate_ErrUnsupportedUpdateFormatV2.
