(* ===== verification/DecoderV2.v ===== *)
(** * internal/yupdate: reading V2 updates

    decoder_v2.go and reader_v2.go.  The decoder holds a column codec for each
    kind of field and the rest of the update; its methods are computations of
    the state monad [DM].  [readAnyRaw] recurses on nested values as in the V1
    decoder, with the length of the rest as fuel. *)
From S2P Require Import Prelude GoError Binary Ranges IdSet Varint GoText YTypes DeleteSet Decoder Content Update Lib0.
Import varint.

Record decoderV2 := mkDecV2 {
  d_rest : Reader; d_keyClock : intDiffOptRleDecoder; d_client : uintOptRleDecoder; d_leftClock : intDiffOptRleDecoder;
  d_rightClock : intDiffOptRleDecoder; d_info : rleByteDecoder; d_strings : stringDecoderV2; d_parentInfo : rleByteDecoder;
  d_typeRef : uintOptRleDecoder; d_lengths : uintOptRleDecoder; d_keys : list bytes; d_dsCurrVal : Z }.

Definition DM (A : Type) : Type := decoderV2 → result A * decoderV2.

#[export] Instance DM_ret : MRet DM := λ A a d, (Ok a, d).
#[export] Instance DM_bind : MBind DM := λ A B f m d,
  match m d with
  | (Ok a, d') => f a d'
  | (Err e, d') => (Err e, d')
  end.

Definition failD {A} (e : error) : DM A := λ d, (Err e, d).
Definition getD : DM decoderV2 := λ d, (Ok d, d).
Definition liftD {A} (m : result A) : DM A := λ d, (m, d).

(** Computations on one column. *)
Definition set_rest (x : Reader) (d : decoderV2) : decoderV2 :=
  mkDecV2 x (d_keyClock d) (d_client d) (d_leftClock d) (d_rightClock d) (d_info d) (d_strings d) (d_parentInfo d)
    (d_typeRef d) (d_lengths d) (d_keys d) (d_dsCurrVal d).
Definition set_keyClock (x : intDiffOptRleDecoder) (d : decoderV2) : decoderV2 :=
  mkDecV2 (d_rest d) x (d_client d) (d_leftClock d) (d_rightClock d) (d_info d) (d_strings d) (d_parentInfo d)
    (d_typeRef d) (d_lengths d) (d_keys d) (d_dsCurrVal d).
Definition set_client (x : uintOptRleDecoder) (d : decoderV2) : decoderV2 :=
  mkDecV2 (d_rest d) (d_keyClock d) x (d_leftClock d) (d_rightClock d) (d_info d) (d_strings d) (d_parentInfo d)
    (d_typeRef d) (d_lengths d) (d_keys d) (d_dsCurrVal d).
Definition set_leftClock (x : intDiffOptRleDecoder) (d : decoderV2) : decoderV2 :=
  mkDecV2 (d_rest d) (d_keyClock d) (d_client d) x (d_rightClock d) (d_info d) (d_strings d) (d_parentInfo d)
    (d_typeRef d) (d_lengths d) (d_keys d) (d_dsCurrVal d).
Definition set_rightClock (x : intDiffOptRleDecoder) (d : decoderV2) : decoderV2 :=
  mkDecV2 (d_rest d) (d_keyClock d) (d_client d) (d_leftClock d) x (d_info d) (d_strings d) (d_parentInfo d)
    (d_typeRef d) (d_lengths d) (d_keys d) (d_dsCurrVal d).
Definition set_info (x : rleByteDecoder) (d : decoderV2) : decoderV2 :=
  mkDecV2 (d_rest d) (d_keyClock d) (d_client d) (d_leftClock d) (d_rightClock d) x (d_strings d) (d_parentInfo d)
    (d_typeRef d) (d_lengths d) (d_keys d) (d_dsCurrVal d).
Definition set_strings (x : stringDecoderV2) (d : decoderV2) : decoderV2 :=
  mkDecV2 (d_rest d) (d_keyClock d) (d_client d) (d_leftClock d) (d_rightClock d) (d_info d) x (d_parentInfo d)
    (d_typeRef d) (d_lengths d) (d_keys d) (d_dsCurrVal d).
Definition set_parentInfo (x : rleByteDecoder) (d : decoderV2) : decoderV2 :=
  mkDecV2 (d_rest d) (d_keyClock d) (d_client d) (d_leftClock d) (d_rightClock d) (d_info d) (d_strings d) x
    (d_typeRef d) (d_lengths d) (d_keys d) (d_dsCurrVal d).
Definition set_typeRef (x : uintOptRleDecoder) (d : decoderV2) : decoderV2 :=
  mkDecV2 (d_rest d) (d_keyClock d) (d_client d) (d_leftClock d) (d_rightClock d) (d_info d) (d_strings d) (d_parentInfo d)
    x (d_lengths d) (d_keys d) (d_dsCurrVal d).
Definition set_lengths (x : uintOptRleDecoder) (d : decoderV2) : decoderV2 :=
  mkDecV2 (d_rest d) (d_keyClock d) (d_client d) (d_leftClock d) (d_rightClock d) (d_info d) (d_strings d) (d_parentInfo d)
    (d_typeRef d) x (d_keys d) (d_dsCurrVal d).
Definition set_keys (x : list bytes) (d : decoderV2) : decoderV2 :=
  mkDecV2 (d_rest d) (d_keyClock d) (d_client d) (d_leftClock d) (d_rightClock d) (d_info d) (d_strings d) (d_parentInfo d)
    (d_typeRef d) (d_lengths d) x (d_dsCurrVal d).
Definition set_dsCurrVal (x : Z) (d : decoderV2) : decoderV2 :=
  mkDecV2 (d_rest d) (d_keyClock d) (d_client d) (d_leftClock d) (d_rightClock d) (d_info d) (d_strings d) (d_parentInfo d)
    (d_typeRef d) (d_lengths d) (d_keys d) x.

Definition on {S A} (get : decoderV2 → S) (set : S → decoderV2 → decoderV2) (m : S → result A * S) : DM A := λ d,
  let '(res, s) := m (get d) in (res, set s d).

Definition rest {A} (m : RM A) : DM A := on d_rest set_rest m.

Definition modifyD (f : decoderV2 → decoderV2) : DM unit := λ d, (Ok tt, f d).

(** ** decoder_v2.go *)

Definition newDecoderV2 (data : bytes) : result decoderV2 :=
  fst ((featureFlag ← readLib0VarUint "ReadV2FeatureFlag";
        if negb (featureFlag =? 0) then fail (unsupportedV2FeatureFlag featureFlag)
        else
          keyClockData ← readLib0VarUint8ArrayView "ReadV2KeyClockEncoder";
          clientData ← readLib0VarUint8ArrayView "ReadV2ClientEncoder";
          leftClockData ← readLib0VarUint8ArrayView "ReadV2LeftClockEncoder";
          rightClockData ← readLib0VarUint8ArrayView "ReadV2RightClockEncoder";
          infoData ← readLib0VarUint8ArrayView "ReadV2InfoEncoder";
          stringData ← readLib0VarUint8ArrayView "ReadV2StringEncoder";
          parentInfoData ← readLib0VarUint8ArrayView "ReadV2ParentInfoEncoder";
          typeRefData ← readLib0VarUint8ArrayView "ReadV2TypeRefEncoder";
          lengthData ← readLib0VarUint8ArrayView "ReadV2LenEncoder";
          remaining ← getRemaining;
          restData ← catch (ReadN remaining) (λ off err, wrapError "ReadV2Rest" off err);
          strings ← liftR (newStringDecoderV2 stringData "ReadV2StringEncoder");
          mret (mkDecV2 (NewReader restData) (newIntDiffOptRleDecoder keyClockData "ReadV2KeyClock")
            (newUintOptRleDecoder clientData "ReadV2Client") (newIntDiffOptRleDecoder leftClockData "ReadV2LeftClock")
            (newIntDiffOptRleDecoder rightClockData "ReadV2RightClock") (newRleByteDecoder infoData "ReadV2Info")
            strings (newRleByteDecoder parentInfoData "ReadV2ParentInfo") (newUintOptRleDecoder typeRefData "ReadV2TypeRef")
            (newUintOptRleDecoder lengthData "ReadV2Len") [] 0)) (NewReader data)).

(** The first error of the columns, in order. *)
Definition ensureDrained (d : decoderV2) : option error :=
  foldr (λ e rest, match e with Some _ => e | None => rest end) None
    [diff_ensureDrained (d_keyClock d); uint_ensureDrained (d_client d); diff_ensureDrained (d_leftClock d);
     diff_ensureDrained (d_rightClock d); rle_ensureDrained (d_info d); str_ensureDrained (d_strings d);
     rle_ensureDrained (d_parentInfo d); uint_ensureDrained (d_typeRef d); uint_ensureDrained (d_lengths d)].

Definition d_offset : DM Z := rest getOffset.
Definition readRestVarUint (op : string) : DM Z := rest (readLib0VarUint op).
Definition readClientD : DM Z := on d_client set_client uint_read.
Definition readInfoD : DM Z := on d_info set_info rle_read.
Definition readStringD : DM bytes := on d_strings set_strings str_read.
Definition readTypeRef : DM Z := on d_typeRef set_typeRef uint_read.
Definition readLen : DM Z := on d_lengths set_lengths uint_read.

Definition readParentInfoD : DM bool :=
  value ← on d_parentInfo set_parentInfo rle_read;
  if value =? 0 then mret false
  else if value =? 1 then mret true
  else d ← getD; failD (wrapError "ReadV2ParentInfo.value" (Offset (r_reader (d_parentInfo d))) (Opaque "parent info invalido: %d")).

Definition readLeftID : DM ID :=
  client ← readClientD;
  clock ← on d_leftClock set_leftClock diff_read;
  mret (mkID client clock).

Definition readRightID : DM ID :=
  client ← readClientD;
  clock ← on d_rightClock set_rightClock diff_read;
  mret (mkID client clock).

Definition readKey : DM bytes :=
  keyClock ← on d_keyClock set_keyClock diff_read;
  d ← getD;
  match d_keys d !! Z.to_nat keyClock with
  | Some key => mret key
  | None =>
      key ← readStringD;
      d ← getD;
      _ ← modifyD (set_keys (d_keys d ++ [key]));
      mret key
  end.

(** [readAnyRawWithTag], with the recursive calls of [readAnyRaw] as a parameter. *)
Definition anyWithTagV2 (readAny : string → RM bytes) (op : string) (start tag : Z) : RM bytes :=
  let raw := [tag] in
  if (tag =? 127) || (tag =? 126) || (tag =? 121) || (tag =? 120) then mret raw
  else if tag =? 125 then
    value ← readLib0VarIntRaw (op +:+ ".varint"); mret (raw ++ value)
  else if tag =? 124 then
    value ← readLib0BigEndian (op +:+ ".float32") 4; mret (raw ++ value)
  else if (tag =? 123) || (tag =? 122) then
    value ← readLib0BigEndian (op +:+ ".float64") 8; mret (raw ++ value)
  else if tag =? 119 then
    value ← readLib0VarString (op +:+ ".string"); mret (appendLib0VarString raw value)
  else if tag =? 118 then
    length ← readLib0VarUint (op +:+ ".object.len");
    off ← getOffset;
    _ ← liftR (validateDecodedCollectionLength (op +:+ ".object.len") off length);
    for_times (Z.to_nat length) (λ raw,
      key ← readLib0VarString (op +:+ ".object.key");
      let raw := appendLib0VarString raw key in
      value ← readAny (op +:+ ".object.value");
      mret (raw ++ value)) (appendVarUintV1 raw length)
  else if tag =? 117 then
    length ← readLib0VarUint (op +:+ ".array.len");
    off ← getOffset;
    _ ← liftR (validateDecodedCollectionLength (op +:+ ".array.len") off length);
    for_times (Z.to_nat length) (λ raw,
      value ← readAny (op +:+ ".array.value"); mret (raw ++ value)) (appendVarUintV1 raw length)
  else if tag =? 116 then
    value ← readLib0VarUint8ArrayView (op +:+ ".buf"); mret (appendLib0VarUint8Array raw value)
  else fail (wrapError op start (Opaque "tag any desconhecida: %d")).

Definition anyStepV2 (readAny : string → RM bytes) (op : string) : RM bytes :=
  start ← getOffset;
  tag ← catch ReadByte (λ _ err, wrapError (op +:+ ".tag") start err);
  anyWithTagV2 readAny op start tag.

Fixpoint readAnyRawV2_fuel (fuel : nat) (op : string) : RM bytes :=
  match fuel with
  | O => fail FuelExhausted
  | S fuel => anyStepV2 (readAnyRawV2_fuel fuel) op
  end.

Definition readAnyRawV2 (op : string) : RM bytes := λ r, readAnyRawV2_fuel (S (length (data r))) op r.
Definition readAnyRawWithTagV2 (op : string) (start tag : Z) : RM bytes := anyWithTagV2 readAnyRawV2 op start tag.

(** The same loop over the length of a string as in the V1 decoder. *)
Definition readVarStringRawWithFirstV2 (op : string) (start first : Z) : RM bytes :=
  '(value, rawLen) ← varStringLen_loop 6 op start 0 first (Z.land first 127) [first];
  if negb (bool_decide (encodedVarUintLen value = length rawLen))
  then fail (wrapError (op +:+ ".len") start varint_ErrNonCanonical)
  else
    payload ← catch (ReadN value) (λ off err, wrapError op off err);
    mret (rawLen ++ payload).

Definition readJSONRawCompatV2 (op : string) : RM bytes :=
  start ← getOffset;
  first ← catch ReadByte (λ _ err, wrapError (op +:+ ".tag") start err);
  if isLib0AnyTag first then readAnyRawWithTagV2 (op +:+ ".any") start first
  else readVarStringRawWithFirstV2 (op +:+ ".json") start first.

Definition readDSClock : DM Z :=
  diff ← readRestVarUint "ReadV2DSClock";
  d ← getD;
  off ← d_offset;
  let next := d_dsCurrVal d + diff in
  if MaxUint32 <? next then failD (wrapError "ReadV2DSClock" off varint_ErrOverflow)
  else _ ← modifyD (set_dsCurrVal next); mret next.

Definition readDSLen : DM Z :=
  encoded ← readRestVarUint "ReadV2DSLen";
  d ← getD;
  off ← d_offset;
  let length := encoded + 1 in
  let next := d_dsCurrVal d + length in
  if (MaxUint32 <? length) || (MaxUint32 <? next) then failD (wrapError "ReadV2DSLen" off varint_ErrOverflow)
  else _ ← modifyD (set_dsCurrVal next); mret length.

(** ** reader_v2.go *)

(** Counted loops in [DM]. *)
Fixpoint for_timesD {S} (n : nat) (body : S → DM S) (s : S) : DM S :=
  match n with
  | O => mret s
  | Datatypes.S n => s ← body s; for_timesD n body s
  end.

Definition readTypePayloadV2 (typeRef : Z) : DM bytes :=
  if (typeRef =? typeRefYArray) || (typeRef =? typeRefYMap) || (typeRef =? typeRefYText)
     || (typeRef =? typeRefYXmlFragment) || (typeRef =? typeRefYXmlText)
  then mret []
  else if (typeRef =? typeRefYXmlElement) || (typeRef =? typeRefYXmlHook) then readKey
  else off ← d_offset; failD (wrapError "ReadV2TypePayload" off (Wrapped "%w: %d" yupdate_ErrUnknownTypeRef)).

Definition readItemContentV2 (info : Z) : DM ParsedContent :=
  let ref := Z.land info ItemContentRefMask in
  if ref =? itemContentDeleted then
    length ← readLen;
    mret (mkContent itemContentDeleted length false 0 [] (Some (appendVarUintV1 [] length)) [] [] [])
  else if ref =? itemContentJSON then
    length ← readLen;
    off ← d_offset;
    _ ← liftD (validateDecodedCollectionLength "ReadV2ContentJSON.length" off length);
    '(values, raw) ← for_timesD (Z.to_nat length) (λ '(values, raw),
      value ← readStringD;
      mret (values ++ [value], appendVarStringV1 raw value)) ([], appendVarUintV1 [] length);
    mret (mkContent itemContentJSON length true 0 [] (Some raw) [] values [])
  else if ref =? itemContentBinary then
    buf ← rest (readLib0VarUint8ArrayView "ReadV2ContentBinary");
    mret (mkContent itemContentBinary 1 true 0 [] (Some (appendVarUintV1 [] (w32 (Z.of_nat (length buf))) ++ buf)) [] [] [])
  else if ref =? itemContentString then
    value ← readStringD;
    mret (mkContent itemContentString (utf16Length value) true 0 [] (Some (appendVarStringV1 [] value)) value [] [])
  else if ref =? itemContentEmbed then
    raw ← rest (readJSONRawCompatV2 "ReadV2ContentEmbed");
    mret (mkContent itemContentEmbed 1 true 0 [] (Some raw) [] [] [])
  else if ref =? itemContentFormat then
    key ← readKey;
    valueRaw ← rest (readJSONRawCompatV2 "ReadV2ContentFormat.value");
    mret (mkContent itemContentFormat 1 false 0 key (Some (appendVarStringV1 [] key ++ valueRaw)) [] [] [])
  else if ref =? itemContentType then
    typeRef ← readTypeRef;
    typeName ← readTypePayloadV2 typeRef;
    let raw := appendVarUintV1 [] typeRef in
    let raw := if is_named_type typeRef then appendVarStringV1 raw typeName else raw in
    mret (mkContent itemContentType 1 true typeRef typeName (Some raw) [] [] [])
  else if ref =? itemContentAny then
    length ← readLen;
    off ← d_offset;
    _ ← liftD (validateDecodedCollectionLength "ReadV2ContentAny.length" off length);
    '(values, raw) ← for_timesD (Z.to_nat length) (λ '(values, raw),
      valueRaw ← rest (readAnyRawV2 "ReadV2ContentAny.value");
      mret (values ++ [valueRaw], raw ++ valueRaw)) ([], appendVarUintV1 [] length);
    mret (mkContent itemContentAny length true 0 [] (Some raw) [] [] values)
  else if ref =? itemContentDoc then
    name ← readStringD;
    optsRaw ← rest (readAnyRawV2 "ReadV2ContentDoc.opts");
    mret (mkContent itemContentDoc 1 true 0 name (Some (appendVarStringV1 [] name ++ optsRaw)) [] [] [])
  else off ← d_offset; failD (wrapError "ReadV2ItemContent" off (Wrapped "%w: %d" yupdate_ErrUnknownContentRef)).

Definition readParentV2 (info : Z) : DM (ParentRef * bytes) :=
  if Z.land info (Z.lor ItemHasOrigin ItemHasRightOrigin) =? 0 then
    isRoot ← readParentInfoD;
    parent ← (if isRoot : bool then name ← readStringD; liftD (NewParentRoot name)
              else parentID ← readLeftID; mret (NewParentID parentID));
    parentSub ← (if negb (Z.land info ItemHasParentSub =? 0) then readStringD else mret []);
    mret (parent, parentSub)
  else mret (mkParentRef [] None, []).

Definition readOptIDV2 (has : bool) (m : DM ID) : DM (option ID) := if has then id ← m; mret (Some id) else mret None.

Definition readItemV2 (info : Z) (id : ID) : DM UStruct :=
  origin ← readOptIDV2 (negb (Z.land info ItemHasOrigin =? 0)) readLeftID;
  rightOrigin ← readOptIDV2 (negb (Z.land info ItemHasRightOrigin =? 0)) readRightID;
  '(parent, parentSub) ← readParentV2 info;
  content ← readItemContentV2 info;
  item ← liftD (NewItemOwnedIDs id (Some content) (mkItemOptions origin rightOrigin parent parentSub None 0));
  mret (SItem item).

Definition readStructV2 (info client clock : Z) : DM UStruct :=
  let id := mkID client clock in
  if info =? 10 then length ← readRestVarUint "ReadV2SkipLength"; liftD (NewSkip id length)
  else if negb (Z.land info ItemContentRefMask =? 0) then readItemV2 info id
  else length ← readLen; liftD (NewGC id length).

Definition delete_range_step (client : Z) (ds : DeleteSet) : DM DeleteSet :=
  clock ← readDSClock;
  length ← readDSLen;
  match DeleteSet_Add ds client clock length with
  | (_, Some err) => failD (Wrapped "yupdate: adicionar range deletado v2: %w" err)
  | (ds, None) => mret ds
  end.

Definition delete_client_step (ds : DeleteSet) : DM DeleteSet :=
  _ ← modifyD (set_dsCurrVal 0);
  client ← readRestVarUint "ReadV2DeleteSet.client";
  rangeCount ← readRestVarUint "ReadV2DeleteSet.rangeCount";
  for_timesD (Z.to_nat rangeCount) (delete_range_step client) ds.

Definition readDeleteSetV2 : DM DeleteSet :=
  count ← readRestVarUint "ReadV2DeleteSet.clients";
  for_timesD (Z.to_nat count) delete_client_step NewDeleteSet.

(** The clock of the next struct and the structs so far. *)
Definition struct_step (client : Z) (st : Z * list UStruct) : DM (Z * list UStruct) :=
  let '(clock, structs) := st in
  info ← readInfoD;
  next ← readStructV2 info client clock;
  mret (w32 (clock + struct_Length next), structs ++ [next]).

Definition block_step (structs : list UStruct) : DM (list UStruct) :=
  count ← readRestVarUint "ReadV2StructCount";
  client ← readClientD;
  clock ← readRestVarUint "ReadV2StartClock";
  '(_, structs) ← for_timesD (Z.to_nat count) (struct_step client) (clock, structs);
  mret structs.

Definition decodeV2_body : DM DecodedUpdate :=
  clientBlocks ← readRestVarUint "ReadV2ClientBlockCount";
  structs ← for_timesD (Z.to_nat clientBlocks) block_step [];
  ds ← readDeleteSetV2;
  d ← getD;
  if negb (Remaining (d_rest d) =? 0)
  then failD (wrapError "ReadV2DeleteSet.trailing" (Offset (d_rest d)) yupdate_ErrTrailingBytes)
  else
    match ensureDrained d with
    | Some err => failD err
    | None => mret (mkDecoded structs (Some ds))
    end.

Definition DecodeV2 (update : bytes) : result DecodedUpdate :=
  match newDecoderV2 update with
  | Err err => Err err
  | Ok decoder => fst (decodeV2_body decoder)
  end.
