(* ===== verification/EncodeV2.v ===== *)
(** * internal/yupdate/encode_v2.go: writing V2 updates

    The encoder is a state record; writing a struct appends to the columns and
    to the rest.  Slicing a raw payload past its end panics, which is an error
    here. *)
From S2P Require Import Prelude GoError Binary Ranges IdSet Varint GoText YTypes DeleteSet Decoder Content Update Lib0.
Import varint.

Record updateEncoderV2 := mkEncV2 {
  e_rest : bytes; e_keyClock : intDiffOptRleEncoder; e_client : uintOptRleEncoder; e_leftClock : intDiffOptRleEncoder;
  e_rightClock : intDiffOptRleEncoder; e_info : rleByteEncoder; e_strings : stringEncoderV2; e_parentInfo : rleByteEncoder;
  e_typeRef : uintOptRleEncoder; e_lengths : uintOptRleEncoder; e_keyClockN : Z }.

Definition newEncoderV2 : updateEncoderV2 :=
  mkEncV2 [] (mkIntEnc 0 0 0 []) (mkUintEnc 0 0 []) (mkIntEnc 0 0 0 []) (mkIntEnc 0 0 0 []) (mkRleEnc 0 0 [])
    (mkStrEnc [] (mkUintEnc 0 0 [])) (mkRleEnc 0 0 []) (mkUintEnc 0 0 []) (mkUintEnc 0 0 []) 0.

(** Writing to one column. *)
Definition put_rest (bs : bytes) (e : updateEncoderV2) : updateEncoderV2 :=
  mkEncV2 (e_rest e ++ bs) (e_keyClock e) (e_client e) (e_leftClock e) (e_rightClock e) (e_info e) (e_strings e)
    (e_parentInfo e) (e_typeRef e) (e_lengths e) (e_keyClockN e).
Definition put_client (v : Z) (e : updateEncoderV2) : updateEncoderV2 :=
  mkEncV2 (e_rest e) (e_keyClock e) (uint_write (e_client e) v) (e_leftClock e) (e_rightClock e) (e_info e) (e_strings e)
    (e_parentInfo e) (e_typeRef e) (e_lengths e) (e_keyClockN e).
Definition put_leftClock (v : Z) (e : updateEncoderV2) : updateEncoderV2 :=
  mkEncV2 (e_rest e) (e_keyClock e) (e_client e) (diff_write (e_leftClock e) v) (e_rightClock e) (e_info e) (e_strings e)
    (e_parentInfo e) (e_typeRef e) (e_lengths e) (e_keyClockN e).
Definition put_rightClock (v : Z) (e : updateEncoderV2) : updateEncoderV2 :=
  mkEncV2 (e_rest e) (e_keyClock e) (e_client e) (e_leftClock e) (diff_write (e_rightClock e) v) (e_info e) (e_strings e)
    (e_parentInfo e) (e_typeRef e) (e_lengths e) (e_keyClockN e).
Definition put_info (v : Z) (e : updateEncoderV2) : updateEncoderV2 :=
  mkEncV2 (e_rest e) (e_keyClock e) (e_client e) (e_leftClock e) (e_rightClock e) (rle_write (e_info e) v) (e_strings e)
    (e_parentInfo e) (e_typeRef e) (e_lengths e) (e_keyClockN e).
Definition put_string (v : bytes) (e : updateEncoderV2) : updateEncoderV2 :=
  mkEncV2 (e_rest e) (e_keyClock e) (e_client e) (e_leftClock e) (e_rightClock e) (e_info e) (str_write (e_strings e) v)
    (e_parentInfo e) (e_typeRef e) (e_lengths e) (e_keyClockN e).
Definition put_parentInfo (v : Z) (e : updateEncoderV2) : updateEncoderV2 :=
  mkEncV2 (e_rest e) (e_keyClock e) (e_client e) (e_leftClock e) (e_rightClock e) (e_info e) (e_strings e)
    (rle_write (e_parentInfo e) v) (e_typeRef e) (e_lengths e) (e_keyClockN e).
Definition put_typeRef (v : Z) (e : updateEncoderV2) : updateEncoderV2 :=
  mkEncV2 (e_rest e) (e_keyClock e) (e_client e) (e_leftClock e) (e_rightClock e) (e_info e) (e_strings e)
    (e_parentInfo e) (uint_write (e_typeRef e) v) (e_lengths e) (e_keyClockN e).
Definition put_length (v : Z) (e : updateEncoderV2) : updateEncoderV2 :=
  mkEncV2 (e_rest e) (e_keyClock e) (e_client e) (e_leftClock e) (e_rightClock e) (e_info e) (e_strings e)
    (e_parentInfo e) (e_typeRef e) (uint_write (e_lengths e) v) (e_keyClockN e).
Definition put_keyClock (e : updateEncoderV2) : updateEncoderV2 :=
  mkEncV2 (e_rest e) (diff_write (e_keyClock e) (e_keyClockN e)) (e_client e) (e_leftClock e) (e_rightClock e) (e_info e)
    (e_strings e) (e_parentInfo e) (e_typeRef e) (e_lengths e) (w32 (e_keyClockN e + 1)).

Definition writeLeftID (id : ID) (e : updateEncoderV2) : updateEncoderV2 :=
  put_leftClock (id_Clock id) (put_client (id_Client id) e).
Definition writeRightID (id : ID) (e : updateEncoderV2) : updateEncoderV2 :=
  put_rightClock (id_Clock id) (put_client (id_Client id) e).
Definition writeKey (key : bytes) (e : updateEncoderV2) : updateEncoderV2 := put_string key (put_keyClock e).

(** [content.Raw[len(appendVarStringV1(nil, content.TypeName)):]] *)
Definition after_name (content : ParsedContent) (raw : bytes) : result bytes :=
  let n := length (appendVarStringV1 [] (TypeName content)) in
  if (length raw <? n)%nat then Err (Opaque "panic: slice bounds out of range") else Ok (drop n raw).

Definition unsupported (content : ParsedContent) : error := Wrapped "%w: ref=%d" yupdate_ErrUnsupportedContentEncode.

Definition writeContent (content : ParsedContent) (e : updateEncoderV2) : result updateEncoderV2 :=
  let ref := Ref content in
  if ref =? itemContentDeleted then Ok (put_length (LengthVal content) e)
  else if ref =? itemContentJSON then
    Ok (fold_left (λ e value, put_string value e) (JSON content) (put_length (LengthVal content) e))
  else if ref =? itemContentBinary then
    match Raw content with None => Err (unsupported content) | Some raw => Ok (put_rest raw e) end
  else if ref =? itemContentString then Ok (put_string (Text content) e)
  else if ref =? itemContentEmbed then
    match Raw content with None => Err (unsupported content) | Some raw => Ok (put_rest raw e) end
  else if ref =? itemContentFormat then
    match Raw content with
    | None => Err (unsupported content)
    | Some raw => value ← after_name content raw; Ok (put_rest value (writeKey (TypeName content) e))
    end
  else if ref =? itemContentType then
    let e := put_typeRef (TypeRef content) e in
    Ok (if is_named_type (TypeRef content) then writeKey (TypeName content) e else e)
  else if ref =? itemContentAny then
    Ok (fold_left (λ e value, put_rest value e) (Any content) (put_length (LengthVal content) e))
  else if ref =? itemContentDoc then
    match Raw content with
    | None => Err (unsupported content)
    | Some raw => value ← after_name content raw; Ok (put_rest value (put_string (TypeName content) e))
    end
  else Err (unsupported content).

Definition writeItem (item : UItem) (e : updateEncoderV2) : result updateEncoderV2 :=
  let content := ItemContent item in
  let no_origin := negb (is_Some_b (Origin item)) && negb (is_Some_b (RightOrigin item)) in
  let has_sub := negb (bool_decide (ParentSub item = [])) in
  info ← ItemHeader_Encode (mkItemHeader (Ref content) (is_Some_b (Origin item)) (is_Some_b (RightOrigin item)) (no_origin && has_sub));
  let e := put_info info e in
  let e := match Origin item with None => e | Some id => writeLeftID id e end in
  let e := match RightOrigin item with None => e | Some id => writeRightID id e end in
  e ← (if no_origin then
         e ← match ParentRef_Kind (Parent item) with
             | ParentRoot => Ok (put_string (ParentRef_Root (Parent item)) (put_parentInfo 1 e))
             | ParentID => Ok (writeLeftID (fst (ParentRef_ID (Parent item))) (put_parentInfo 0 e))
             | ParentNone => Err (Opaque "yupdate: item sem parent wire")
             end;
         Ok (if has_sub then put_string (ParentSub item) e else e)
       else Ok e);
  writeContent content e.

Definition writeStruct (current : UStruct) (e : updateEncoderV2) : result updateEncoderV2 :=
  match current with
  | GC b => Ok (put_length (bs_length b) (put_info 0 e))
  | Skip b => Ok (put_rest (Append [] (bs_length b)) (put_info 10 e))
  | SItem item => writeItem item e
  end.

(** One client: the number of its structs, its id, its first clock, its structs. *)
Definition write_group (groups : gmap Z (list UStruct)) (e : updateEncoderV2) (client : Z) : result updateEncoderV2 :=
  let structs := default [] (groups !! client) in
  let startClock := match structs with s :: _ => struct_clock s | [] => 0 end in
  let e := put_rest (Append [] (w32 (Z.of_nat (length structs)))) e in
  let e := put_client client e in
  let e := put_rest (Append [] startClock) e in
  fold_result (λ e current, writeStruct current e) structs e.

Definition writeStructGroups (groups : gmap Z (list UStruct)) (e : updateEncoderV2) : result updateEncoderV2 :=
  let clients := filter (λ client, default [] (groups !! client) ≠ []) (desc_keys groups) in
  fold_result (write_group groups) clients (put_rest (Append [] (w32 (Z.of_nat (length clients)))) e).

(** [current] is where the previous range of the client ended. *)
Definition write_range (st : Z * bytes) (r : Range) : Z * bytes :=
  let '(current, out) := st in
  let out := Append out (w32 (r_Clock r - current)) in
  let out := Append out (w32 (r_Length r - 1)) in
  (w32 (r_Clock r + r_Length r), out).

Definition write_client_ranges (out : bytes) (entry : Z * list Range) : bytes :=
  let '(client, ranges) := entry in
  let out := Append (Append out client) (w32 (Z.of_nat (length ranges))) in
  (fold_left write_range ranges (0, out)).2.

Definition writeDeleteSet (ds : option DeleteSet) (e : updateEncoderV2) : updateEncoderV2 :=
  let out := Append [] (w32 (DeleteSet_ClientCount ds)) in
  put_rest (fold_left write_client_ranges (DeleteSet_ForEachClientDesc ds) out) e.

Definition encoder_bytes (e : updateEncoderV2) : bytes :=
  let out := Append [] 0 in
  let out := appendLib0VarUint8Array out (diff_bytes (e_keyClock e)) in
  let out := appendLib0VarUint8Array out (uint_bytes (e_client e)) in
  let out := appendLib0VarUint8Array out (diff_bytes (e_leftClock e)) in
  let out := appendLib0VarUint8Array out (diff_bytes (e_rightClock e)) in
  let out := appendLib0VarUint8Array out (rle_bytes (e_info e)) in
  let out := appendLib0VarUint8Array out (str_bytes (e_strings e)) in
  let out := appendLib0VarUint8Array out (rle_bytes (e_parentInfo e)) in
  let out := appendLib0VarUint8Array out (uint_bytes (e_typeRef e)) in
  let out := appendLib0VarUint8Array out (uint_bytes (e_lengths e)) in
  out ++ e_rest e.

Definition EncodeV2 (decoded : option DecodedUpdate) : result bytes :=
  let decoded := default (mkDecoded [] (Some NewDeleteSet)) decoded in
  encoder ← writeStructGroups (groupStructsByClient (Structs decoded)) newEncoderV2;
  Ok (encoder_bytes (writeDeleteSet (du_DeleteSet decoded) encoder)).

Definition encodeEmptyUpdateV2 : bytes := match EncodeV2 None with Ok bs => bs | Err _ => [] end.
