(* ===== verification/Facade.v ===== *)
(** * internal/yupdate/format.go and derived_format.go: telling V1 from V2

    An operation on several updates runs them through the worker pool of
    Aggregate; [Run] is one run of it (processors, results delivered, context).
    [UpdateFormat] of an error is always unknown, so a pair (format, error) is a
    [result]. *)
From S2P Require Import Prelude GoError Binary Ranges IdSet Varint YTypes DeleteSet Content Update Aggregate Merge StateVector ContentIDs DecoderV2 EncodeV2.
Import varint.

Inductive UpdateFormat := UpdateFormatUnknown | UpdateFormatV1 | UpdateFormatV2.

#[export] Instance UpdateFormat_eq_dec : EqDecision UpdateFormat.
Proof. solve_decision. Defined.
#[export] Instance UpdateFormat_inhabited : Inhabited UpdateFormat := populate UpdateFormatUnknown.

Definition UpdateFormat_String (f : UpdateFormat) : string :=
  match f with UpdateFormatV1 => "v1" | UpdateFormatV2 => "v2" | UpdateFormatUnknown => "unknown" end.

Record Run := mkRun { procs : Z; delivered : gset nat; ctxErr : option error }.

Definition aggregate {T} `{Inhabited T} (run : Run) (extract : bytes → result T) (reducer : list T → result T)
    (updates : list bytes) : result T :=
  aggregatePayloadsInParallel extract reducer (procs run) 0 (delivered run) (ctxErr run) updates.

Definition isMalformedUpdatePayloadForV1 (err : error) : bool :=
  errors_Is err varint_ErrUnexpectedEOF || errors_Is err varint_ErrNonCanonical || errors_Is err varint_ErrOverflow ||
  errors_Is err ytypes_ErrInvalidLength || errors_Is err ytypes_ErrStructOverflow ||
  errors_Is err yidset_ErrInvalidLength || errors_Is err yidset_ErrRangeOverflow.

(** The [for i := 0; i < 9; i++] loop. *)
Fixpoint header_loop (n : nat) : RM unit :=
  match n with
  | O => mret tt
  | S n => length ← ReadU; _ ← ReadN length; header_loop n
  end.

Definition validateV2HeaderPrefix (src : bytes) : option error :=
  match fst (header_loop 9 (NewReader src)) with Ok _ => None | Err err => Some err end.

Definition detectUpdateFormatWithReason (update : bytes) : result UpdateFormat :=
  match update with
  | [] => Err yupdate_ErrUnknownUpdateFormat
  | _ =>
      match Decode update with
      | (Err err, _) => Err err
      | (Ok first, consumed) =>
          if negb (first =? 0) then Ok UpdateFormatV1
          else
            let rest := drop consumed update in
            let v1Err :=
              match ReadDeleteSetBlockV1 (NewReader rest) with
              | (Ok _, reader) => if Remaining reader =? 0 then None else Some (Sentinel yupdate_ErrTrailingBytes)
              | (Err err, _) =>
                  Some (if negb (isMalformedUpdatePayloadForV1 err) then Sentinel yupdate_ErrAmbiguousUpdateFormat else err)
              end in
            match v1Err with
            | None => Ok UpdateFormatV1
            | Some v1Err =>
                match validateV2HeaderPrefix rest with
                | None => Ok UpdateFormatV2
                | Some _ => Err v1Err
                end
            end
      end
  end.

Definition DetectUpdateFormatWithReason (update : bytes) : result UpdateFormat := detectUpdateFormatWithReason update.

Definition DetectUpdateFormat (update : bytes) : UpdateFormat :=
  match DetectUpdateFormatWithReason update with Ok format => format | Err _ => UpdateFormatUnknown end.

Definition detectSingleUpdateFormat (update : bytes) : result UpdateFormat :=
  match update with [] => Ok UpdateFormatUnknown | _ => detectUpdateFormatWithReason update end.

Definition merge_format (last : option UpdateFormat) (format : UpdateFormat) : result (option UpdateFormat) :=
  if decide (format = UpdateFormatUnknown) then Ok last
  else
    match last with
    | None => Ok (Some format)
    | Some lastFormat =>
        if decide (format ≠ lastFormat) then Err (Wrapped "%w" yupdate_ErrMismatchedUpdateFormats) else Ok last
    end.

Definition mergeUpdateFormats (formats : list UpdateFormat) : result UpdateFormat :=
  match formats with
  | [] => Err yupdate_ErrUnknownUpdateFormat
  | _ =>
      last ← fold_result merge_format formats None;
      match last with None => Err yupdate_ErrUnknownUpdateFormat | Some format => Ok format end
  end.

Definition DetectUpdatesFormatWithReasonContext (run : Run) (updates : list bytes) : result UpdateFormat :=
  aggregate run detectSingleUpdateFormat mergeUpdateFormats updates.

(** ** derived_format.go *)

Definition hasNonEmptyUpdate (updates : list bytes) : bool := existsb (λ update, negb (bool_decide (update = []))) updates.

Definition detectAggregateUpdateFormatSkippingEmptyContext (run : Run) (updates : list bytes) : result UpdateFormat :=
  match DetectUpdatesFormatWithReasonContext run updates with
  | Err err =>
      if errors_Is err yupdate_ErrUnknownUpdateFormat && negb (hasNonEmptyUpdate updates) then Ok UpdateFormatUnknown else Err err
  | Ok format => Ok format
  end.

(** * internal/yupdate/api.go: operations on updates of either format

    Detection, then the operation of the format; also the V2 branches of
    state_vector_api.go, content_ids.go and merge.go.  A function that uses the
    worker pool twice takes two runs; cancellation between the steps of a
    function is not modelled, a context is alive or not throughout. *)
Import varint.

Definition ValidateUpdateFormatWithReason (update : bytes) : result UpdateFormat := DetectUpdateFormatWithReason update.

Definition ValidateUpdatesFormatWithReasonContext (run : Run) (updates : list bytes) : result UpdateFormat :=
  DetectUpdatesFormatWithReasonContext run updates.

Definition known (format : result UpdateFormat) : result UpdateFormat :=
  match format with
  | Err err => if errors_Is err yupdate_ErrAmbiguousUpdateFormat then Err yupdate_ErrUnknownUpdateFormat else Err err
  | Ok UpdateFormatUnknown => Err yupdate_ErrUnknownUpdateFormat
  | Ok format => Ok format
  end.

Definition FormatFromUpdate (update : bytes) : result UpdateFormat := known (DetectUpdateFormatWithReason update).

Definition FormatFromUpdatesContext (run : Run) (updates : list bytes) : result UpdateFormat :=
  if existsb (λ update, bool_decide (update = [])) updates then Err yupdate_ErrUnknownUpdateFormat
  else known (ValidateUpdatesFormatWithReasonContext run updates).

(** The dispatch every operation on one update makes. *)
Definition by_format {A} (update : bytes) (v1 v2 : result A) : result A :=
  format ← FormatFromUpdate update;
  match format with
  | UpdateFormatV1 => v1
  | UpdateFormatV2 => v2
  | UpdateFormatUnknown => Err yupdate_ErrUnknownUpdateFormat
  end.

Definition DecodeUpdate (update : bytes) : result DecodedUpdate := by_format update (DecodeV1 update) (DecodeV2 update).

Definition ValidateUpdate (update : bytes) : option error :=
  match DecodeUpdate update with Ok _ => None | Err err => Some err end.

Fixpoint ValidateUpdatesContext (ctxErr : option error) (updates : list bytes) : option error :=
  match updates with
  | [] => None
  | update :: updates =>
      match ctxErr with
      | Some err => Some err
      | None =>
          match ValidateUpdate update with
          | Some err => Some (Wrapped "update[%d]: %w" err)
          | None => ValidateUpdatesContext ctxErr updates
          end
      end
  end.

Definition ValidateUpdates (updates : list bytes) : option error := ValidateUpdatesContext None updates.

Definition StateVectorFromUpdate (update : bytes) : result stateVector :=
  by_format update (stateVectorFromUpdateV1 update)
    (decoded ← DecodeV2 update; Ok (stateVectorFromStructs (Structs decoded))).

Definition EncodeStateVectorFromUpdate (update : bytes) : result bytes :=
  stateVector ← StateVectorFromUpdate update; Ok (encodeStateVectorMap stateVector).

(** content_ids.go *)
Definition CreateContentIDsFromUpdateV2 (update : bytes) : result ContentIDs :=
  decoded ← DecodeV2 update; contentIDsFromDecodedUpdate (Some decoded).

Definition CreateContentIDsFromUpdate (update : bytes) : result ContentIDs :=
  by_format update (CreateContentIDsFromUpdateV1 update) (CreateContentIDsFromUpdateV2 update).

Definition EncodeUpdate (update : option DecodedUpdate) : result bytes := EncodeV1 update.
Definition EncodeUpdateV2 (update : option DecodedUpdate) : result bytes := EncodeV2 update.

Definition ConvertUpdateToV1 (update : bytes) : result bytes := decoded ← DecodeUpdate update; EncodeUpdate (Some decoded).
Definition ConvertUpdateToV2 (update : bytes) : result bytes := decoded ← DecodeUpdate update; EncodeUpdateV2 (Some decoded).

(** ** Several updates *)

Definition non_empty (updates : list bytes) : list bytes := filter (λ update, update ≠ []) updates.

(** merge.go *)
Definition decodeMergeUpdate (update : bytes) : result decodedMergeUpdateV1 :=
  decoded ← DecodeUpdate update;
  Ok (mkMergeUpdate (groupStructsByClient (Structs decoded)) (du_DeleteSet decoded)).

(** The map is iterated in some order. *)
Definition blockSet_structs (b : gmap Z (list UStruct)) : list UStruct := concat (map_to_list b).*2.

Definition merge_run (run : Run) (updates : list bytes) : result bytes :=
  MergeUpdatesV1Context (procs run) (delivered run) (ctxErr run) updates.

Definition merge_any (run : Run) (updates : list bytes) : result decodedMergeUpdateV1 :=
  aggregate run decodeMergeUpdate mergeDecodedUpdatesV1 (non_empty updates).

Definition convertV2UpdatesToV1Context (run : Run) (updates : list bytes) : result bytes :=
  match ctxErr run, updates with
  | Some err, _ :: _ => Err err
  | _, _ =>
      merged ← merge_any run updates;
      out ← encodeStructGroupsV1 (blockSet merged);
      Ok (AppendDeleteSetBlockV1 out (mu_deleteSet merged))
  end.

Definition ConvertUpdatesToV1Context (run1 run2 : Run) (updates : list bytes) : result bytes :=
  match updates with
  | [] => merge_run run2 []
  | _ =>
      format ← detectAggregateUpdateFormatSkippingEmptyContext run1 updates;
      match format with
      | UpdateFormatUnknown => merge_run run2 []
      | UpdateFormatV1 => merge_run run2 (non_empty updates)
      | UpdateFormatV2 => convertV2UpdatesToV1Context run2 updates
      end
  end.

Definition ConvertUpdatesToV2Context (run1 run2 : Run) (updates : list bytes) : result bytes :=
  match updates with
  | [] => EncodeUpdateV2 None
  | _ =>
      format ← detectAggregateUpdateFormatSkippingEmptyContext run1 updates;
      match format with
      | UpdateFormatUnknown => EncodeUpdateV2 None
      | _ =>
          merged ← merge_any run2 updates;
          EncodeUpdateV2 (Some (mkDecoded (blockSet_structs (blockSet merged)) (mu_deleteSet merged)))
      end
  end.

Definition DiffUpdateContext (ctxErr : option error) (update stateVector : bytes) : result bytes :=
  by_format update (DiffUpdateV1Context ctxErr update stateVector)
    (converted ← ConvertUpdateToV1 update; DiffUpdateV1Context ctxErr converted stateVector).

Definition DiffUpdate (update stateVector : bytes) : result bytes := DiffUpdateContext None update stateVector.

Definition live (ctxErr : option error) : result unit := match ctxErr with Some err => Err err | None => Ok tt end.

Definition DiffUpdateV2Context (ctxErr : option error) (update stateVector : bytes) : result bytes :=
  diffV1 ← DiffUpdateContext ctxErr update stateVector;
  _ ← live ctxErr;
  ConvertUpdateToV2 diffV1.

Definition DiffUpdateV2 (update stateVector : bytes) : result bytes := DiffUpdateV2Context None update stateVector.

Definition IntersectUpdateWithContentIDsContext (ctxErr : option error) (update : bytes) (contentIDs : option ContentIDs) : result bytes :=
  by_format update (IntersectUpdateWithContentIDsV1Context ctxErr update contentIDs)
    (converted ← ConvertUpdateToV1 update; IntersectUpdateWithContentIDsV1Context ctxErr converted contentIDs).

Definition IntersectUpdateWithContentIDs (update : bytes) (contentIDs : option ContentIDs) : result bytes :=
  IntersectUpdateWithContentIDsContext None update contentIDs.

Definition IntersectUpdateWithContentIDsV2Context (ctxErr : option error) (update : bytes) (contentIDs : option ContentIDs) : result bytes :=
  intersectedV1 ← IntersectUpdateWithContentIDsContext ctxErr update contentIDs;
  _ ← live ctxErr;
  ConvertUpdateToV2 intersectedV1.

Definition IntersectUpdateWithContentIDsV2 (update : bytes) (contentIDs : option ContentIDs) : result bytes :=
  IntersectUpdateWithContentIDsV2Context None update contentIDs.

Definition MergeUpdatesContext (run1 run2 : Run) (updates : list bytes) : result bytes :=
  if negb (hasNonEmptyUpdate updates) then merge_run run2 []
  else
    format ← FormatFromUpdatesContext run1 updates;
    match format with
    | UpdateFormatV1 => merge_run run2 updates
    | UpdateFormatV2 => convertV2UpdatesToV1Context run2 updates
    | UpdateFormatUnknown => Err yupdate_ErrUnknownUpdateFormat
    end.

Definition MergeUpdatesV2Context (run1 run2 : Run) (updates : list bytes) : result bytes :=
  ConvertUpdatesToV2Context run1 run2 updates.

(** state_vector_api.go *)
Definition StateVectorFromUpdatesContext (run1 run2 : Run) (updates : list bytes) : result stateVector :=
  format ← detectAggregateUpdateFormatSkippingEmptyContext run1 updates;
  match format with
  | UpdateFormatUnknown => Ok ∅
  | UpdateFormatV2 => merged ← merge_any run2 updates; Ok (stateVectorFromBlockSet (blockSet merged))
  | UpdateFormatV1 => StateVectorFromUpdates_V1 (procs run2) (delivered run2) (ctxErr run2) updates
  end.

Definition EncodeStateVectorFromUpdatesContext (run1 run2 : Run) (updates : list bytes) : result bytes :=
  stateVector ← StateVectorFromUpdatesContext run1 run2 updates; Ok (encodeStateVectorMap stateVector).

(** content_ids.go *)
Definition extractContentIDsFromUpdateV2 (update : bytes) : result ContentIDs :=
  match update with [] => Ok NewContentIDs | _ => CreateContentIDsFromUpdateV2 update end.

Definition ContentIDsFromUpdatesContext (run1 run2 : Run) (updates : list bytes) : result ContentIDs :=
  format ← detectAggregateUpdateFormatSkippingEmptyContext run1 updates;
  match format with
  | UpdateFormatUnknown => Ok NewContentIDs
  | UpdateFormatV2 => aggregate run2 extractContentIDsFromUpdateV2 mergeContentIDPayloads updates
  | UpdateFormatV1 => aggregate run2 extractContentIDsFromUpdateV1 mergeContentIDPayloads updates
  end.
