(* ===== verification/WireCompat.v ===== *)
(** * internal/yupdate/wire_compat.go: embeds and formats as Yjs writes them

    Yjs writes the values of embeds and formats as JSON strings in V1 updates and
    as lib0 values in V2 updates.  The conversions decode an update of either
    format and rewrite these contents.  Only the contents change, item by item; the
    items of a decoded update are shared with nothing. *)
From S2P Require Import Prelude GoError Binary Varint GoText YTypes Decoder Content Update GoJson GoFloat GoAny Lib0 DecoderV2 EncodeV2 Facade.
Import varint.

(** ** lib0 values *)

Definition int64_of_uint64 (z : Z) : Z := if z <? 9223372036854775808 then z else z - 18446744073709551616.

(** A value behind its tag, with the recursive calls as a parameter. *)
Definition decodeAnyWithTag (decode : string → RM value) (op : string) (tag : Z) : RM value :=
  if (tag =? 127) || (tag =? 126) then mret VNil
  else if tag =? 125 then '(value, _) ← readLib0VarInt (op +:+ ".int"); mret (VInt value)
  else if tag =? 124 then data ← readLib0BigEndian (op +:+ ".float32") 4; mret (VFloat (widen (get_be data)))
  else if tag =? 123 then data ← readLib0BigEndian (op +:+ ".float64") 8; mret (VFloat (get_be data))
  else if tag =? 122 then data ← readLib0BigEndian (op +:+ ".bigint") 8; mret (VInt (int64_of_uint64 (get_be data)))
  else if tag =? 121 then mret (VBool false)
  else if tag =? 120 then mret (VBool true)
  else if tag =? 119 then value ← readLib0VarString (op +:+ ".string"); mret (VString value)
  else if tag =? 118 then
    length ← readLib0VarUint (op +:+ ".object.len");
    obj ← for_times (Z.to_nat length) (λ obj,
      key ← readLib0VarString (op +:+ ".object.key");
      value ← decode (op +:+ ".object.value");
      mret (object_set key value obj)) [];
    mret (VObject obj)
  else if tag =? 117 then
    length ← readLib0VarUint (op +:+ ".array.len");
    arr ← for_times (Z.to_nat length) (λ arr, value ← decode (op +:+ ".array.value"); mret (arr ++ [value])) [];
    mret (VArray arr)
  else if tag =? 116 then value ← readLib0VarUint8Array (op +:+ ".uint8"); mret (VBytes value)
  else fail (Opaque "tag any desconhecida: %d").

Definition decodeAnyStep (decode : string → RM value) (op : string) : RM value :=
  start ← getOffset;
  tag ← catch ReadByte (λ _ err, wrapError (op +:+ ".tag") start err);
  decodeAnyWithTag decode op tag.

(** Every level takes a byte. *)
Fixpoint decodeLib0AnyValue_fuel (fuel : nat) (op : string) : RM value :=
  match fuel with
  | O => fail FuelExhausted
  | S fuel => decodeAnyStep (decodeLib0AnyValue_fuel fuel) op
  end.

Definition decodeLib0AnyValue (op : string) : RM value := λ r, decodeLib0AnyValue_fuel (S (length (data r))) op r.

Definition decodeLib0AnyRawExact (raw : bytes) : result value :=
  match decodeLib0AnyValue "ReadAny" (NewReader raw) with
  | (Err err, _) => Err err
  | (Ok value, reader) => if negb (Remaining reader =? 0) then Err yupdate_ErrTrailingBytes else Ok value
  end.

Definition canEncodeAsLib0Int (value : Z) : bool := (-2147483648 <=? value) && (value <=? 2147483648).

Definition appendLib0Number (dst : bytes) (f : Z) : result bytes :=
  if IsNaN binary64 f || IsInf binary64 f then Err (Opaque "numero invalido: %v")
  else if is_integral f && canEncodeAsLib0Int (int_of_float f) then Ok (appendLib0VarInt (dst ++ [125]) (int_of_float f))
  else if float_eq (widen (narrow f)) f then Ok (dst ++ [124] ++ put_be 4 (narrow f))
  else Ok (dst ++ [123] ++ put_be 8 f).

(** The error of the number is dropped, and with it what was written before. *)
Definition appendLib0Int (dst : bytes) (value : Z) : bytes :=
  if canEncodeAsLib0Int value then appendLib0VarInt (dst ++ [125]) value
  else match appendLib0Number dst (float_of_int value) with Ok dst => dst | Err _ => [] end.

Fixpoint appendLib0Any (dst : bytes) (v : value) : result bytes :=
  match v with
  | VNil => Ok (dst ++ [126])
  | VBool b => Ok (dst ++ [if b then 120 else 121])
  | VString s => Ok (appendLib0VarString (dst ++ [119]) s)
  | VNumber s =>
      match ParseInt s with
      | Some z => if canEncodeAsLib0Int z then Ok (appendLib0VarInt (dst ++ [125]) z)
                  else match ParseFloat s with Some f => appendLib0Number dst f | None => Err (Opaque "strconv.NumError") end
      | None => match ParseFloat s with Some f => appendLib0Number dst f | None => Err (Opaque "strconv.NumError") end
      end
  | VInt z => Ok (appendLib0Int dst z)
  | VFloat f => appendLib0Number dst f
  | VBytes b => Ok (appendLib0VarUint8Array (dst ++ [116]) b)
  | VArray l =>
      (fix entries (l : list value) (dst : bytes) : result bytes :=
         match l with
         | [] => Ok dst
         | entry :: l => dst ← appendLib0Any dst entry; entries l dst
         end) l (appendVarUintV1 (dst ++ [117]) (w32 (Z.of_nat (length l))))
  | VObject l =>
      (fix entries (l : list (bytes * value)) (dst : bytes) : result bytes :=
         match l with
         | [] => Ok dst
         | (key, v) :: l => dst ← appendLib0Any (appendLib0VarString dst key) v; entries l dst
         end) l (appendVarUintV1 (dst ++ [118]) (w32 (Z.of_nat (length l))))
  end.

Definition encodeLib0AnyRaw (v : value) : result bytes := appendLib0Any [] v.

(** ** JSON strings *)

(** The length prefix of [raw]: its end, and the length with its bytes. *)
Definition string_prefix (raw : bytes) : result (nat * nat) :=
  match raw with
  | [] => Err yupdate_ErrTrailingBytes
  | _ =>
      match varint.Decode raw with
      | (Err err, _) => Err err
      | (Ok length_, n) =>
          let end_ := (n + Z.to_nat length_)%nat in
          if (length raw <? end_)%nat then Err varint_ErrUnexpectedEOF else Ok (n, end_)
      end
  end.

Definition splitV1StringPrefix (raw : bytes) : result (bytes * bytes) :=
  '(_, end_) ← string_prefix raw;
  Ok (take end_ raw, drop end_ raw).

Definition undefined : bytes := [117; 110; 100; 101; 102; 105; 110; 101; 100].

Definition decodeV1JSONRaw (raw : bytes) : result value :=
  '(n, end_) ← string_prefix raw;
  if negb (bool_decide (end_ = length raw)) then Err yupdate_ErrTrailingBytes
  else
    let payload := drop n raw in
    if decide (payload = undefined) then Ok VNil
    else
      '(value, rest) ← Decode_value payload;
      if negb (at_EOF rest) then Err yupdate_ErrTrailingBytes else Ok value.

Definition encodeV1JSONRaw (v : value) : result bytes := data ← Marshal v; Ok (appendVarStringV1 [] data).

(** ** Contents *)

Definition anyOrJSONRawToAnyRaw (raw : bytes) : result bytes :=
  match decodeLib0AnyRawExact raw with
  | Ok _ => Ok raw
  | Err _ => value ← decodeV1JSONRaw raw; encodeLib0AnyRaw value
  end.

Definition anyOrJSONRawToV1JSONRaw (raw : bytes) : result bytes :=
  match decodeV1JSONRaw raw with
  | Ok _ => Ok raw
  | Err _ => value ← decodeLib0AnyRawExact raw; encodeV1JSONRaw value
  end.

Definition with_raw (raw : bytes) (c : ParsedContent) : ParsedContent :=
  mkContent (Ref c) (LengthVal c) (Countable c) (TypeRef c) (TypeName c) (Some raw) (Text c) (JSON c) (Any c).

Definition with_content (c : ParsedContent) (item : UItem) : UItem :=
  mkItem (item_base item) (Origin item) (RightOrigin item) (Parent item) (ParentSub item) (Redone item) (Info item) c.

(** The body of both loops; a raw payload that is nil is empty here. *)
Definition rewrite_content (convert : bytes → result bytes) (content : ParsedContent) : result ParsedContent :=
  let raw := default [] (Raw content) in
  if Ref content =? itemContentEmbed then
    raw ← convert raw; Ok (with_raw raw content)
  else if Ref content =? itemContentFormat then
    '(keyRaw, valueRaw) ← splitV1StringPrefix raw;
    valueRaw ← convert valueRaw;
    Ok (with_raw (keyRaw ++ valueRaw) content)
  else Ok content.

Definition rewrite_struct (convert : bytes → result bytes) (current : UStruct) : result UStruct :=
  match current with
  | SItem item => content ← rewrite_content convert (ItemContent item); Ok (SItem (with_content content item))
  | _ => Ok current
  end.

Fixpoint rewrite_structs (convert : bytes → result bytes) (structs : list UStruct) : result (list UStruct) :=
  match structs with
  | [] => Ok []
  | current :: structs => s ← rewrite_struct convert current; rest ← rewrite_structs convert structs; Ok (s :: rest)
  end.

Definition rewrite (convert : bytes → result bytes) (decoded : DecodedUpdate) : result DecodedUpdate :=
  structs ← rewrite_structs convert (Structs decoded); Ok (mkDecoded structs (du_DeleteSet decoded)).

Definition rewriteEmbedAndFormatToV2AnyWire : DecodedUpdate → result DecodedUpdate := rewrite anyOrJSONRawToAnyRaw.
Definition rewriteEmbedAndFormatToV1JSONWire : DecodedUpdate → result DecodedUpdate := rewrite anyOrJSONRawToV1JSONRaw.

Definition ConvertUpdateToV1YjsWire (update : bytes) : result bytes :=
  decoded ← DecodeUpdate update;
  decoded ← rewriteEmbedAndFormatToV1JSONWire decoded;
  EncodeV1 (Some decoded).

Definition ConvertUpdateToV2YjsWire (update : bytes) : result bytes :=
  decoded ← DecodeUpdate update;
  decoded ← rewriteEmbedAndFormatToV2AnyWire decoded;
  EncodeV2 (Some decoded).
