(* ===== verification/Gc.v ===== *)
(** * internal/yupdate/gc.go: deleted contents become GC structs

    [garbageCollectStruct] walks the delete ranges of the struct's client with a
    cursor; [gcState] holds its variables. *)
From S2P Require Import Prelude GoError Binary Ranges IdSet Varint YTypes DeleteSet Content Update.

Definition minUint32 (a b : Z) : Z := if a <? b then a else b.
Definition maxUint32 (a b : Z) : Z := if b <? a then a else b.
Definition minUint64 (a b : Z) : Z := if a <? b then a else b.

(** A client's clocks that an origin or a right origin names. *)
Definition add_reference (referenced : gmap Z (list Z)) (id : option ID) : gmap Z (list Z) :=
  match id with
  | None => referenced
  | Some id => <[id_Client id := default [] (referenced !! id_Client id) ++ [id_Clock id]]> referenced
  end.

Definition reference_step (referenced : gmap Z (list Z)) (current : UStruct) : gmap Z (list Z) :=
  match current with
  | SItem item => add_reference (add_reference referenced (Origin item)) (RightOrigin item)
  | _ => referenced
  end.

Definition referencedItemClocks (structs : list UStruct) : gmap Z (list Z) := fold_left reference_step structs ∅.

Definition hasReferencedClock (client startClock endClock : Z) (referenced : gmap Z (list Z)) : bool :=
  existsb (λ clock, (startClock <=? clock) && (clock <? endClock)) (default [] (referenced !! client)).

Definition sliceStructByClock (current : UStruct) (startClock endClock : Z) : result UStruct :=
  if (startClock =? struct_clock current) && (endClock =? struct_EndClock current) then Ok current
  else sliceStructWindowV1 current (w32 (startClock - struct_clock current)) (w32 (struct_EndClock current - endClock)).

Definition kept_item (current : UStruct) : bool :=
  match current with SItem item => Item_Keep item | _ => false end.

Definition garbageCollectStructWindow (current : UStruct) (startClock endClock : Z) (referenced : gmap Z (list Z))
    : result UStruct :=
  if kept_item current then sliceStructByClock current startClock endClock
  else if hasReferencedClock (struct_client current) startClock endClock referenced then
    sliceStructByClock current startClock endClock
  else
    id ← ID_Offset (struct_ID current) (w32 (startClock - struct_clock current));
    NewGC id (w32 (endClock - startClock)).

Record gcState := mkGcState { gc_result : list UStruct; cursor : Z; overlapped : bool }.

(** The part of the struct before the range is kept. *)
Definition gc_keep (current : UStruct) (st : gcState) (rangeStart : Z) : result gcState :=
  if cursor st <? rangeStart then
    let keepEnd := minUint32 rangeStart (struct_EndClock current) in
    segment ← sliceStructByClock current (cursor st) keepEnd;
    Ok (mkGcState (gc_result st ++ [segment]) keepEnd (overlapped st))
  else Ok st.

(** The part in the range is collected. *)
Definition gc_collect (current : UStruct) (referenced : gmap Z (list Z)) (st : gcState) (rangeStart rangeEnd64 : Z) : result gcState :=
  let end_ := struct_EndClock current in
  let deleteStart := maxUint32 (cursor st) rangeStart in
  let deleteEnd := minUint32 end_ (w32 (minUint64 rangeEnd64 end_)) in
  if deleteStart <? deleteEnd then
    segment ← garbageCollectStructWindow current deleteStart deleteEnd referenced;
    Ok (mkGcState (gc_result st ++ [segment]) deleteEnd true)
  else Ok st.

(** The loop over the ranges: [continue] and the two [break]s. *)
Fixpoint gc_loop (current : UStruct) (referenced : gmap Z (list Z)) (st : gcState) (ranges : list Range) : result gcState :=
  match ranges with
  | [] => Ok st
  | r :: ranges =>
      let end_ := struct_EndClock current in
      let rangeEnd64 := r_Clock r + r_Length r in
      if rangeEnd64 <=? cursor st then gc_loop current referenced st ranges
      else if end_ <=? r_Clock r then Ok st
      else
        st ← gc_keep current st (r_Clock r);
        st ← gc_collect current referenced st (r_Clock r) rangeEnd64;
        if end_ <=? cursor st then Ok st else gc_loop current referenced st ranges
  end.

Definition garbageCollectStruct (current : UStruct) (ranges : list Range) (referenced : gmap Z (list Z)) : result (list UStruct) :=
  match ranges with
  | [] => Ok [current]
  | _ =>
      st ← gc_loop current referenced (mkGcState [] (struct_clock current) false) ranges;
      if negb (overlapped st) then Ok [current]
      else if cursor st <? struct_EndClock current then
        segment ← sliceStructByClock current (cursor st) (struct_EndClock current);
        Ok (gc_result st ++ [segment])
      else Ok (gc_result st)
  end.

(** [deleteRanges]: the ranges of the delete set by client. *)
Definition deleteRanges (ds : option DeleteSet) : gmap Z (list Range) := list_to_map (DeleteSet_ForEachClient ds).

Definition gc_step (ranges : gmap Z (list Range)) (referenced : gmap Z (list Z)) (structs : list UStruct) (current : UStruct)
    : result (list UStruct) :=
  next ← garbageCollectStruct current (default [] (ranges !! struct_client current)) referenced;
  Ok (structs ++ next).

Definition garbageCollectDeletedContent (decoded : DecodedUpdate) : result DecodedUpdate :=
  if DeleteSet_IsEmpty (du_DeleteSet decoded) then Ok decoded
  else
    structs ← fold_result (gc_step (deleteRanges (du_DeleteSet decoded)) (referencedItemClocks (Structs decoded)))
                (Structs decoded) [];
    Ok (mkDecoded structs (Some (DeleteSet_Clone (du_DeleteSet decoded)))).
