(* ===== verification/Snapshot.v ===== *)
(** * internal/yupdate: snapshots and persisted snapshots

    snapshot.go, persisted_snapshot.go and persisted_snapshot_codec.go.  A
    document's snapshot is its state vector and delete set; the persisted form
    is the garbage-collected update in both formats.  A function that uses the
    worker pool twice takes two runs (Facade). *)
From S2P Require Import Prelude GoError Binary Ranges IdSet Varint YTypes DeleteSet Content Update Aggregate Merge StateVector DecoderV2 EncodeV2 Facade Gc.

(** The maps and the delete set may be nil. *)
Record Snapshot := mkSnapshot { s_StateVector : stateVector; s_DeleteSet : option DeleteSet }.

Definition NewSnapshot : Snapshot := mkSnapshot ∅ (Some NewDeleteSet).

Definition Snapshot_Clone (s : option Snapshot) : Snapshot :=
  match s with
  | None => NewSnapshot
  | Some s => mkSnapshot (s_StateVector s) (Some (DeleteSet_Clone (s_DeleteSet s)))
  end.

Definition Snapshot_IsEmpty (s : option Snapshot) : bool :=
  match s with
  | None => true
  | Some s => bool_decide (s_StateVector s = ∅) && DeleteSet_IsEmpty (s_DeleteSet s)
  end.

Definition snapshotFromDecodedUpdate (decoded : option DecodedUpdate) : Snapshot :=
  match decoded with
  | None => NewSnapshot
  | Some decoded =>
      mkSnapshot (stateVectorFromStructs (Structs decoded))
        (Some (match du_DeleteSet decoded with None => NewDeleteSet | Some _ => DeleteSet_Clone (du_DeleteSet decoded) end))
  end.

Definition SnapshotFromUpdate (update : bytes) : result Snapshot :=
  decoded ← DecodeUpdate update; Ok (snapshotFromDecodedUpdate (Some decoded)).

Definition extractSnapshotFromUpdateV1Context (ctxErr : option error) (update : bytes) : result Snapshot :=
  _ ← live ctxErr;
  match update with
  | [] => Ok NewSnapshot
  | _ =>
      decoded ← DecodeV1 update;
      _ ← live ctxErr;
      stateVector ← extractStateVectorFromUpdateV1 update;
      Ok (mkSnapshot stateVector (Some (DeleteSet_Clone (du_DeleteSet decoded))))
  end.

Definition SnapshotFromUpdateV1 (update : bytes) : result Snapshot := extractSnapshotFromUpdateV1Context None update.

Definition SnapshotFromUpdatesContext (run1 run2 : Run) (updates : list bytes) : result Snapshot :=
  format ← detectAggregateUpdateFormatSkippingEmptyContext run1 updates;
  match format with
  | UpdateFormatUnknown => Ok NewSnapshot
  | UpdateFormatV2 =>
      merged ← merge_any run2 updates;
      Ok (snapshotFromDecodedUpdate (Some (mkDecoded (blockSet_structs (blockSet merged)) (mu_deleteSet merged))))
  | UpdateFormatV1 => merged ← merge_run run2 (non_empty updates); SnapshotFromUpdateV1 merged
  end.

(** ** Persisted snapshots *)

Record PersistedSnapshot := mkPersisted { UpdateV2 : bytes; UpdateV1 : bytes; ps_Snapshot : option Snapshot }.

Definition NewPersistedSnapshot : PersistedSnapshot :=
  mkPersisted encodeEmptyUpdateV2 encodeEmptyUpdateV1 (Some NewSnapshot).

Definition PersistedSnapshot_Clone (s : option PersistedSnapshot) : PersistedSnapshot :=
  match s with
  | None => NewPersistedSnapshot
  | Some s =>
      mkPersisted (UpdateV2 s) (UpdateV1 s)
        (Some (match ps_Snapshot s with None => NewSnapshot | Some snapshot => Snapshot_Clone (Some snapshot) end))
  end.

Definition PersistedSnapshot_IsEmpty (s : option PersistedSnapshot) : bool :=
  match s with
  | None => true
  | Some s =>
      match ps_Snapshot s with
      | Some snapshot => Snapshot_IsEmpty (Some snapshot)
      | None =>
          (bool_decide (UpdateV2 s = []) || bool_decide (UpdateV2 s = encodeEmptyUpdateV2)) &&
          (bool_decide (UpdateV1 s = []) || bool_decide (UpdateV1 s = encodeEmptyUpdateV1))
      end
  end.

Definition persistedSnapshotFromDecodedUpdate (decoded : DecodedUpdate) : result PersistedSnapshot :=
  decoded ← garbageCollectDeletedContent decoded;
  updateV2 ← EncodeUpdateV2 (Some decoded);
  updateV1 ← EncodeUpdate (Some decoded);
  Ok (mkPersisted updateV2 updateV1 (Some (snapshotFromDecodedUpdate (Some decoded)))).

Definition PersistedSnapshotFromUpdate (update : bytes) : result PersistedSnapshot :=
  decoded ← DecodeUpdate update; persistedSnapshotFromDecodedUpdate decoded.

Definition PersistedSnapshotFromUpdatesContext (run1 run2 : Run) (updates : list bytes) : result PersistedSnapshot :=
  updateV2 ← ConvertUpdatesToV2Context run1 run2 updates;
  decoded ← DecodeV2 updateV2;
  persistedSnapshotFromDecodedUpdate decoded.

(** ** The stored payloads *)

Definition compact (encode : option DecodedUpdate → result bytes) (empty update : bytes) : result bytes :=
  match update with
  | [] => Ok empty
  | _ =>
      decoded ← DecodeUpdate update;
      decoded ← garbageCollectDeletedContent decoded;
      encode (Some decoded)
  end.

Definition compactUpdateAsV1 : bytes → result bytes := compact EncodeUpdate encodeEmptyUpdateV1.
Definition compactUpdateAsV2 : bytes → result bytes := compact EncodeUpdateV2 encodeEmptyUpdateV2.

(** [snapshot.Snapshot != nil && !snapshot.Snapshot.IsEmpty()] *)
Definition has_content (snapshot : PersistedSnapshot) : bool := negb (Snapshot_IsEmpty (ps_Snapshot snapshot)).

Definition EncodePersistedSnapshotV1 (snapshot : option PersistedSnapshot) : result bytes :=
  match snapshot with
  | None => Ok encodeEmptyUpdateV1
  | Some snapshot =>
      match UpdateV1 snapshot, UpdateV2 snapshot with
      | [], [] => if has_content snapshot then Err yupdate_ErrInconsistentPersistedSnapshot else Ok encodeEmptyUpdateV1
      | [], _ => compactUpdateAsV1 (UpdateV2 snapshot)
      | _, _ =>
          updateV1 ← compactUpdateAsV1 (UpdateV1 snapshot);
          if has_content snapshot && bool_decide (updateV1 = encodeEmptyUpdateV1)
          then Err yupdate_ErrInconsistentPersistedSnapshot else Ok updateV1
      end
  end.

Definition EncodePersistedSnapshotV2 (snapshot : option PersistedSnapshot) : result bytes :=
  match snapshot with
  | None => Ok encodeEmptyUpdateV2
  | Some snapshot' =>
      match UpdateV2 snapshot' with
      | [] => updateV1 ← EncodePersistedSnapshotV1 snapshot; compactUpdateAsV2 updateV1
      | _ =>
          updateV2 ← compactUpdateAsV2 (UpdateV2 snapshot');
          if has_content snapshot' && bool_decide (updateV2 = encodeEmptyUpdateV2)
          then Err yupdate_ErrInconsistentPersistedSnapshot else Ok updateV2
      end
  end.

Definition DecodePersistedSnapshotV1Context (ctxErr : option error) (payload : bytes) : result PersistedSnapshot :=
  _ ← live ctxErr;
  match payload with
  | [] => Ok NewPersistedSnapshot
  | _ =>
      format ← FormatFromUpdate payload;
      if decide (format = UpdateFormatV2) then Err yupdate_ErrUnsupportedUpdateFormatV2
      else
        decoded ← DecodeV1 payload;
        _ ← live ctxErr;
        persistedSnapshotFromDecodedUpdate decoded
  end.

Definition DecodePersistedSnapshotV1 (payload : bytes) : result PersistedSnapshot := DecodePersistedSnapshotV1Context None payload.

Definition DecodePersistedSnapshotV2Context (ctxErr : option error) (payload : bytes) : result PersistedSnapshot :=
  _ ← live ctxErr;
  match payload with
  | [] => Ok NewPersistedSnapshot
  | _ =>
      format ← FormatFromUpdate payload;
      if decide (format ≠ UpdateFormatV2) then Err yupdate_ErrUnsupportedUpdateFormatV2
      else
        decoded ← DecodeV2 payload;
        _ ← live ctxErr;
        persistedSnapshotFromDecodedUpdate decoded
  end.

Definition DecodePersistedSnapshotV2 (payload : bytes) : result PersistedSnapshot := DecodePersistedSnapshotV2Context None payload.
