(* ===== verification/Session.v ===== *)
(** * pkg/yprotocol: sync messages from updates, and sessions

    The encoders of protocol.go and internal/yprotocol/sync.go that build a
    message from updates, and session.go: a document in the V2 format with the
    presence of its clients, and the answers to the messages about it.  Each
    operation that touches the document or the presence holds the session's lock or
    the manager's; a session is passed along and returned, on failure too.  A merge
    takes the runs of the worker pool that [pool] gives for its updates; [now] is
    the time of the awareness manager.  An output format is one of the three
    declared ones. *)
From S2P Require Import Prelude GoError Binary Varint YTypes Decoder Content Update Aggregate Merge StateVector Awareness YProtocol YStream Facade WireCompat Snapshot.

Section session.
Variable pool : list bytes → Run * Run.

(** ** Sync messages from updates *)

Definition state_vector_of (updates : list bytes) : result bytes :=
  EncodeStateVectorFromUpdatesContext (pool updates).1 (pool updates).2 updates.
Definition merged_V1 (updates : list bytes) : result bytes := MergeUpdatesContext (pool updates).1 (pool updates).2 updates.
Definition merged_V2 (updates : list bytes) : result bytes := MergeUpdatesV2Context (pool updates).1 (pool updates).2 updates.

Definition EncodeSyncStep1FromUpdate (update : bytes) : result bytes :=
  stateVector ← EncodeStateVectorFromUpdate update; EncodeSyncMessage SyncMessageTypeStep1 stateVector.

Definition EncodeSyncStep1FromUpdatesV1 (updates : list bytes) : result bytes :=
  stateVector ← state_vector_of updates; EncodeSyncMessage SyncMessageTypeStep1 stateVector.

Definition EncodeSyncStep1FromUpdatesContext (updates : list bytes) : result bytes :=
  stateVector ← state_vector_of updates; EncodeSyncMessage SyncMessageTypeStep1 stateVector.

Definition EncodeSyncStep2FromUpdatesContext (updates : list bytes) : result bytes :=
  merged ← merged_V1 updates; EncodeSyncMessage SyncMessageTypeStep2 merged.

Definition EncodeSyncStep2FromUpdatesV2Context (updates : list bytes) : result bytes :=
  merged ← merged_V2 updates;
  wire ← ConvertUpdateToV2YjsWire merged;
  EncodeSyncMessage SyncMessageTypeStep2 wire.

Definition EncodeSyncUpdateV2 (update : bytes) : result bytes :=
  converted ← ConvertUpdateToV2YjsWire update; EncodeSyncMessage SyncMessageTypeUpdate converted.

Definition EncodeProtocolSyncStep1FromUpdate (update : bytes) : result bytes :=
  stateVector ← EncodeStateVectorFromUpdate update; EncodeProtocolSyncMessage SyncMessageTypeStep1 stateVector.

Definition EncodeProtocolSyncStep1FromUpdatesV1 (updates : list bytes) : result bytes :=
  stateVector ← state_vector_of updates; EncodeProtocolSyncMessage SyncMessageTypeStep1 stateVector.

Definition EncodeProtocolSyncStep1FromUpdatesContext (updates : list bytes) : result bytes :=
  stateVector ← state_vector_of updates; EncodeProtocolSyncMessage SyncMessageTypeStep1 stateVector.

Definition EncodeProtocolSyncStep2FromUpdatesContext (updates : list bytes) : result bytes :=
  merged ← merged_V1 updates; EncodeProtocolSyncMessage SyncMessageTypeStep2 merged.

Definition EncodeProtocolSyncStep2FromUpdatesV2Context (updates : list bytes) : result bytes :=
  merged ← merged_V2 updates;
  wire ← ConvertUpdateToV2YjsWire merged;
  EncodeProtocolSyncMessage SyncMessageTypeStep2 wire.

Definition EncodeProtocolSyncUpdateV2 (update : bytes) : result bytes :=
  converted ← ConvertUpdateToV2YjsWire update; EncodeProtocolSyncMessage SyncMessageTypeUpdate converted.

(** ** Answers in the format of the peer *)

(** The V1 form is converted only when the room has it. *)
Definition diffForSyncOutputFormatFromUpdates (ctxErr : option error) (updateV1 updateV2 stateVector : bytes) (format : UpdateFormat)
    : result bytes :=
  match format with
  | UpdateFormatV2 =>
      diffV1 ← DiffUpdateContext ctxErr updateV2 stateVector; ConvertUpdateToV2YjsWire diffV1
  | _ =>
      match updateV1 with
      | [] => updateV1 ← ConvertUpdateToV1YjsWire updateV2; DiffUpdateContext ctxErr updateV1 stateVector
      | _ => diffV1 ← DiffUpdateContext ctxErr updateV1 stateVector; ConvertUpdateToV1YjsWire diffV1
      end
  end.

Definition diffForSyncOutputFormat (ctxErr : option error) (updateV2 stateVector : bytes) (format : UpdateFormat) : result bytes :=
  diffForSyncOutputFormatFromUpdates ctxErr [] updateV2 stateVector format.

Definition convertForSyncOutputFormat (updateV2 : bytes) (format : UpdateFormat) : result bytes :=
  match format with UpdateFormatV2 => ConvertUpdateToV2YjsWire updateV2 | _ => ConvertUpdateToV1YjsWire updateV2 end.

Definition newEmptyUpdateV2 : bytes := UpdateV2 NewPersistedSnapshot.

(** ** Sessions *)

Record Session := mkSession { ses_updateV2 : bytes; ses_awareness : StateManager }.

Definition NewSession (localClientID : Z) : Session := mkSession newEmptyUpdateV2 (NewStateManager localClientID).

Definition set_update (updateV2 : bytes) (s : Session) : Session := mkSession updateV2 (ses_awareness s).
Definition set_awareness (m : StateManager) (s : Session) : Session := mkSession (ses_updateV2 s) m.

(** Nothing when the conversion fails. *)
Definition Session_UpdateV1 (s : Session) : bytes :=
  match ses_updateV2 s with
  | [] => []
  | updateV2 => match ConvertUpdateToV1YjsWire updateV2 with Ok updateV1 => updateV1 | Err _ => [] end
  end.

Definition Session_UpdateV2 (s : Session) : bytes := ses_updateV2 s.

Definition LoadUpdate (update : bytes) (s : Session) : option error * Session :=
  match ConvertUpdateToV2YjsWire update with
  | Err err => (Some err, s)
  | Ok updateV2 => (None, set_update updateV2 s)
  end.

Definition LoadPersistedSnapshot (snapshot : option PersistedSnapshot) (s : Session) : option error * Session :=
  if PersistedSnapshot_IsEmpty snapshot then (None, set_update newEmptyUpdateV2 s)
  else
    match EncodePersistedSnapshotV2 snapshot with
    | Err err => (Some err, s)
    | Ok updateV2 => LoadUpdate updateV2 s
    end.

Definition Session_PersistedSnapshot (s : Session) : result PersistedSnapshot := PersistedSnapshotFromUpdate (ses_updateV2 s).

Definition sync_message (typ : Z) (payload : bytes) : ProtocolMessage :=
  mkMessage ProtocolTypeSync (Some (mkSync typ payload)) None None None.
Definition awareness_message (update : Update) : ProtocolMessage := mkMessage ProtocolTypeAwareness None (Some update) None None.

Definition diffForSyncStep1 (stateVector : bytes) (format : UpdateFormat) (s : Session) : result bytes :=
  diffForSyncOutputFormat None (ses_updateV2 s) stateVector format.

Definition handleSyncMessage (message : SyncMessage) (format : UpdateFormat) (s : Session) : result (list ProtocolMessage) * Session :=
  if sm_Type message =? SyncMessageTypeStep1 then
    match diffForSyncStep1 (sm_Payload message) format s with
    | Err err => (Err err, s)
    | Ok diff => (Ok [sync_message SyncMessageTypeStep2 diff], s)
    end
  else if (sm_Type message =? SyncMessageTypeStep2) || (sm_Type message =? SyncMessageTypeUpdate) then
    match ConvertUpdateToV2YjsWire (sm_Payload message) with
    | Err err => (Err err, s)
    | Ok updateV2 =>
        match merged_V2 [ses_updateV2 s; updateV2] with
        | Err err => (Err err, s)
        | Ok merged => (Ok [], set_update merged s)
        end
    end
  else (Err (Wrapped "%w: %d" yprotocol_ErrUnknownSyncMessageType), s).

(** [format] is the option SyncOutputFormat. *)
Definition HandleProtocolMessageWithOptions (now : Z) (message : option ProtocolMessage) (format : UpdateFormat) (s : Session)
    : result (list ProtocolMessage) * Session :=
  match validateProtocolMessage message, message with
  | Some err, _ => (Err err, s)
  | None, None => (Err (Sentinel pkg_yprotocol_ErrNilProtocolMessage), s)
  | None, Some m =>
      if Protocol m =? ProtocolTypeSync then
        match pm_Sync m with
        | Some sync => handleSyncMessage sync format s
        | None => (Err (Opaque "nil pointer dereference"), s)
        end
      else if Protocol m =? ProtocolTypeAwareness then (Ok [], set_awareness (ApplyAt (pm_Awareness m) now (ses_awareness s)) s)
      else if Protocol m =? ProtocolTypeAuth then (Ok [], s)
      else if Protocol m =? ProtocolTypeQueryAwareness then (Ok [awareness_message (Awareness.Snapshot (ses_awareness s))], s)
      else (Err (Wrapped "%w: %d" yprotocol_ErrUnknownProtocolType), s)
  end.

Definition HandleProtocolMessage (now : Z) (message : option ProtocolMessage) (s : Session) : result (list ProtocolMessage) * Session :=
  HandleProtocolMessageWithOptions now message UpdateFormatUnknown s.

(** The messages before a refused one have been applied. *)
Fixpoint handle_messages (now : Z) (format : UpdateFormat) (messages : list (option ProtocolMessage)) (out : list ProtocolMessage)
    (s : Session) : result (list ProtocolMessage) * Session :=
  match messages with
  | [] => (Ok out, s)
  | message :: messages =>
      match HandleProtocolMessageWithOptions now message format s with
      | (Err err, s) => (Err (Wrapped "handle protocol message %d: %w" err), s)
      | (Ok responses, s) => handle_messages now format messages (out ++ responses) s
      end
  end.

Definition HandleProtocolMessagesWithOptions (now : Z) (format : UpdateFormat) (messages : list (option ProtocolMessage)) (s : Session)
    : result (list ProtocolMessage) * Session := handle_messages now format messages [] s.

Definition HandleEncodedMessagesWithOptions (now : Z) (src : bytes) (format : UpdateFormat) (s : Session) : result bytes * Session :=
  match DecodeProtocolMessages src with
  | Err err => (Err err, s)
  | Ok messages =>
      match HandleProtocolMessagesWithOptions now format (Some <$> messages) s with
      | (Err err, s) => (Err err, s)
      | (Ok responses, s) => (EncodeProtocolEnvelopes (Some <$> responses), s)
      end
  end.

Definition Session_HandleEncodedMessages (now : Z) (src : bytes) (s : Session) : result bytes * Session :=
  HandleEncodedMessagesWithOptions now src UpdateFormatUnknown s.

End session.
