(* ===== verification/Http.v ===== *)
(** * pkg/yhttp: what a request has to pass

    auth.go, origin.go, rate_limit.go, quota.go, registry.go, sync_format.go,
    redaction.go, security_requirements.go, the decisions of owner_aware.go and of
    server.go.  A header is a map from canonical names to values;
    of the rest of an HTTP request only what the package looks at is kept.  Hooks,
    metrics and the writing of responses are left out, as is the answer to a CORS
    preflight. *)
From S2P Require Import Prelude GoError GoText StorageTypes NodeFrame ClusterTypes Facade.

(** ** config.go *)

Record Principal := mkPrincipal { Subject : bytes; Tenant : bytes; Scopes : list bytes }.

Record Request := mkRequest {
  rq_DocumentKey : DocumentKey; rq_ConnectionID : bytes; rq_ClientID : Z; rq_PersistOnClose : bool;
  rq_SyncOutputFormat : UpdateFormat; rq_Principal : option Principal }.

Definition set_principal (p : option Principal) (req : Request) : Request :=
  mkRequest (rq_DocumentKey req) (rq_ConnectionID req) (rq_ClientID req) (rq_PersistOnClose req) (rq_SyncOutputFormat req) p.

Abbreviation Header := (gmap bytes (list bytes)).

(** [Header.Get] and [Header.Set] for a canonical name. *)
Definition header_get (h : Header) (name : bytes) : bytes := match h !! name with Some (v :: _) => v | _ => [] end.
Definition header_set (name v : bytes) (h : Header) : Header := <[name := [v]]> h.

(** What is looked at of an [*http.Request]: the headers, the query parameter
    [sync], and the address of the peer. *)
Record HTTPRequest := mkHTTP { ht_Header : Header; ht_sync : bytes; ht_RemoteAddr : bytes }.

(** [strings.ToLower] and [strings.EqualFold], where one side is a constant whose
    letters no other rune folds to. *)
Definition ascii_lower (s : bytes) : bytes := map (λ c, if (65 <=? c) && (c <=? 90) then c + 32 else c) s.
Definition equal_fold (s constant : bytes) : bool := bool_decide (ascii_lower s = ascii_lower constant).

(** [strings.CutPrefix]. *)
Definition CutPrefix (s prefix : bytes) : option bytes :=
  if bool_decide (prefix `prefix_of` s) then Some (drop (length prefix) s) else None.

(** ** auth.go *)

Definition BearerTokenAuthenticator_AuthenticateHTTP (tokens : gmap bytes Principal) (r : HTTPRequest) : result Principal :=
  let value := TrimSpace (header_get (ht_Header r) (str "Authorization")) in
  match value with
  | [] => Err yhttp_ErrUnauthorized
  | _ =>
      match CutPrefix value (str "Bearer ") with
      | None => Err yhttp_ErrUnauthorized
      | Some token =>
          match TrimSpace token with
          | [] => Err yhttp_ErrUnauthorized
          | token => match tokens !! token with Some principal => Ok principal | None => Err yhttp_ErrUnauthorized end
          end
      end
  end.

Definition documentNamespaceMatchesTenant (key : DocumentKey) (tenant : bytes) : bool :=
  bool_decide (TrimSpace (Namespace key) = TrimSpace tenant).

Definition TenantAuthorizer_AuthorizeHTTP (allowEmptyTenant : bool) (principal : option Principal) (req : Request) : option error :=
  match principal with
  | None => Some (Sentinel yhttp_ErrUnauthorized)
  | Some p =>
      if bool_decide (TrimSpace (Tenant p) = []) && allowEmptyTenant then None
      else if negb (documentNamespaceMatchesTenant (rq_DocumentKey req) (Tenant p)) then Some (Sentinel yhttp_ErrForbidden)
      else None
  end.

Definition statusFromAuthError (err : error) : Z :=
  if errors_Is err yhttp_ErrUnauthorized then 401
  else if errors_Is err yhttp_ErrForbidden then 403
  else if errors_Is err yhttp_ErrRateLimited then 429
  else if errors_Is err yhttp_ErrQuotaExceeded then 429
  else if errors_Is err yhttp_ErrQuotaUnavailable then 503
  else if errors_Is err yhttp_ErrOriginDenied then 403
  else 403.

(** ** origin.go *)

(** The policy without what a preflight asks; [MaxAge] is in nanoseconds. *)
Record StaticOriginPolicy := mkOrigin {
  AllowedOrigins : list bytes; AllowedMethods : list bytes; AllowedHeaders : list bytes; ExposedHeaders : list bytes;
  AllowCredentials : bool; AllowMissingOrigin : bool; MaxAge : Z }.

Definition requestOrigin (r : HTTPRequest) : bytes := TrimSpace (header_get (ht_Header r) (str "Origin")).

Section origin.
Variable p : StaticOriginPolicy.

Definition any_origin (allowed : bytes) : bool := bool_decide (TrimSpace allowed = [42]) && negb (AllowCredentials p).

Definition originAllowed (origin : bytes) : bool :=
  match TrimSpace origin with
  | [] => false
  | origin =>
      existsb (λ allowed, negb (bool_decide (TrimSpace allowed = [])) && (any_origin allowed || bool_decide (TrimSpace allowed = origin)))
        (AllowedOrigins p)
  end.

Definition CheckHTTPOrigin (r : HTTPRequest) : option error :=
  match requestOrigin r with
  | [] => if AllowMissingOrigin p then None else Some (Sentinel yhttp_ErrOriginDenied)
  | origin => if originAllowed origin then None else Some (Sentinel yhttp_ErrOriginDenied)
  end.

Definition allowedOriginHeader (origin : bytes) : bytes := if existsb any_origin (AllowedOrigins p) then [42] else origin.

(** [strings.Split(s, sep)] for a separator of one byte. *)
Fixpoint split_on (sep : Z) (word s : bytes) : list bytes :=
  match s with
  | [] => [word]
  | c :: s => if c =? sep then word :: split_on sep [] s else split_on sep (word ++ [c]) s
  end.
Definition Split (s : bytes) (sep : Z) : list bytes := split_on sep [] s.

Definition joinHeaderValues (values : list bytes) : bytes :=
  match filter (λ v, v ≠ []) (TrimSpace <$> values) with
  | [] => []
  | v :: vs => fold_left (λ out v, out ++ str ", " ++ v) vs v
  end.

Definition writeVaryOrigin (h : Header) : Header :=
  let vary := default [] (h !! str "Vary") in
  if existsb (λ value, existsb (λ part, equal_fold (TrimSpace part) (str "Origin")) (Split value 44)) vary then h
  else <[str "Vary" := vary ++ [str "Origin"]]> h.

Definition set_joined (name : string) (values : list bytes) (h : Header) : Header :=
  match joinHeaderValues values with [] => h | v => header_set (str name) v h end.

Definition WriteCORSHeaders (r : HTTPRequest) (h : Header) : Header :=
  match requestOrigin r with
  | [] => h
  | origin =>
      if negb (originAllowed origin) then h
      else
        let h := writeVaryOrigin h in
        let h := header_set (str "Access-Control-Allow-Origin") (allowedOriginHeader origin) h in
        let h := if AllowCredentials p then header_set (str "Access-Control-Allow-Credentials") (str "true") h else h in
        let h := set_joined "Access-Control-Allow-Methods" (AllowedMethods p) h in
        let h := set_joined "Access-Control-Allow-Headers" (AllowedHeaders p) h in
        let h := set_joined "Access-Control-Expose-Headers" (ExposedHeaders p) h in
        if 0 <? MaxAge p then header_set (str "Access-Control-Max-Age") (FormatInt (Z.quot (MaxAge p) Second)) h else h
  end.

(** The patterns for the upgrade, or that any origin passes. *)
Fixpoint origin_patterns (allowed patterns : list bytes) : list bytes * bool :=
  match allowed with
  | [] => (patterns, false)
  | a :: allowed =>
      match TrimSpace a with
      | [] => origin_patterns allowed patterns
      | a => if any_origin a then ([], true) else origin_patterns allowed (patterns ++ [a])
      end
  end.

Definition websocketOriginPatterns : list bytes * bool := origin_patterns (AllowedOrigins p) [].

End origin.

(** ** sync_format.go *)

Definition parseSyncOutputFormat (value : bytes) : result UpdateFormat :=
  let v := ascii_lower (TrimSpace value) in
  if bool_decide (v ∈ [[]; str "v1"; str "1"; str "update-v1"; str "yjs-sync-v1"]) then Ok UpdateFormatV1
  else if bool_decide (v ∈ [str "v2"; str "2"; str "update-v2"; str "yjs-sync-v2"]) then Ok UpdateFormatV2
  else Err (Wrapped "%w: %s" yupdate_ErrUnknownUpdateFormat).

(** The first token that asks for a format; one that parses only folds to what it lowers to. *)
Fixpoint first_format (tokens : list bytes) : UpdateFormat :=
  match tokens with
  | [] => UpdateFormatV1
  | token :: tokens =>
      match parseSyncOutputFormat token with
      | Err _ => first_format tokens
      | Ok format =>
          if bool_decide (format = UpdateFormatV2) || equal_fold (TrimSpace token) (str "yjs-sync-v1") then format
          else first_format tokens
      end
  end.

Definition syncOutputFormatFromSubprotocols (values : list bytes) : result UpdateFormat :=
  Ok (first_format (concat (map (λ value, Split value 44) values))).

Definition SyncOutputFormatFromHTTPRequest (r : HTTPRequest) : result UpdateFormat :=
  match TrimSpace (ht_sync r) with
  | [] =>
      match TrimSpace (header_get (ht_Header r) (str "X-Yjs-Sync-Output-Format")) with
      | [] => syncOutputFormatFromSubprotocols (default [] (ht_Header r !! str "Sec-Websocket-Protocol"))
      | value => parseSyncOutputFormat value
      end
  | value => parseSyncOutputFormat value
  end.

(** ** rate_limit.go *)

(** Where a byte first and last is, or nothing. *)
Definition index_byte (s : bytes) (c : Z) : option nat := fst <$> list_find (λ b, b = c) s.
Definition last_index_byte (s : bytes) (c : Z) : option nat := (λ i, (length s - 1 - i)%nat) <$> index_byte (reverse s) c.

(** The host of [net.SplitHostPort], or nothing on an error. *)
Definition SplitHostPort (hostport : bytes) : option bytes :=
  i ← last_index_byte hostport 58;
  '(host, j, k) ← match hostport with
    | 91 :: _ =>
        e ← index_byte hostport 93;
        if (e + 1 =? i)%nat then Some (take (e - 1) (drop 1 hostport), 1%nat, (e + 1)%nat) else None
    | _ => if bool_decide (is_Some (index_byte (take i hostport) 58)) then None else Some (take i hostport, 0%nat, 0%nat)
    end;
  if bool_decide (is_Some (index_byte (drop j hostport) 91)) || bool_decide (is_Some (index_byte (drop k hostport) 93))
  then None else Some host.

Definition remoteAddrHost (r : HTTPRequest) : bytes :=
  let other := match TrimSpace (ht_RemoteAddr r) with [] => str "unknown" | addr => addr end in
  match SplitHostPort (ht_RemoteAddr r) with
  | Some host => if bool_decide (TrimSpace host = []) then other else host
  | None => other
  end.

Definition RateLimitByPrincipalOrRemoteAddr (r : HTTPRequest) (principal : option Principal) : bytes :=
  match principal with
  | Some p => match TrimSpace (Subject p) with [] => str "remote:" ++ remoteAddrHost r | s => str "principal:" ++ s end
  | None => str "remote:" ++ remoteAddrHost r
  end.

Definition RateLimitByDocument (req : Request) : bytes :=
  str "document:" ++ TrimSpace (Namespace (rq_DocumentKey req)) ++ str "/" ++ TrimSpace (DocumentID (rq_DocumentKey req)).

Definition RateLimitByTenant (principal : option Principal) (req : Request) : bytes :=
  match principal with
  | Some p => match TrimSpace (Tenant p) with [] => str "tenant:" ++ TrimSpace (Namespace (rq_DocumentKey req)) | t => str "tenant:" ++ t end
  | None => str "tenant:" ++ TrimSpace (Namespace (rq_DocumentKey req))
  end.

Record fixedWindowBucket := mkBucket { b_start : Z; b_count : Z }.

Record FixedWindowRateLimiter := mkLimiter { rl_limit : Z; rl_window : Z; rl_buckets : gmap bytes fixedWindowBucket }.

Definition NewFixedWindowRateLimiter (limit window : Z) : result FixedWindowRateLimiter :=
  if limit <=? 0 then Err (Opaque "yhttp: limite de rate limit deve ser positivo")
  else if window <=? 0 then Err (Opaque "yhttp: janela de rate limit deve ser positiva")
  else Ok (mkLimiter limit window ∅).

Definition set_bucket (key : bytes) (b : fixedWindowBucket) (l : FixedWindowRateLimiter) : FixedWindowRateLimiter :=
  mkLimiter (rl_limit l) (rl_window l) (<[key := b]> (rl_buckets l)).

(** [rawKey] is what the key function makes of the request. *)
Definition AllowHTTP (ctxErr : option error) (rawKey : bytes) (now : Z) (l : FixedWindowRateLimiter)
    : option error * FixedWindowRateLimiter :=
  match ctxErr with
  | Some err => (Some err, l)
  | None =>
      let key := match TrimSpace rawKey with [] => str "anonymous" | key => key end in
      let bucket := default (mkBucket 0 0) (rl_buckets l !! key) in
      let bucket :=
        if IsZero (b_start bucket) || (rl_window l <=? Sub now (b_start bucket)) || Before now (b_start bucket)
        then mkBucket now 0 else bucket in
      if rl_limit l <=? b_count bucket then (Some (Sentinel yhttp_ErrRateLimited), set_bucket key bucket l)
      else (None, set_bucket key (mkBucket (b_start bucket) (b_count bucket + 1)) l)
  end.

(** ** quota.go *)

Inductive QuotaDirection := QuotaDirectionInbound | QuotaDirectionOutbound | QuotaDirectionOther.

Record LocalQuotaLimiterConfig := mkQuotaConfig {
  MaxConnections : Z; MaxConnectionsPerTenant : Z; MaxConnectionsPerDocument : Z; MaxInboundFrameBytes : Z;
  MaxOutboundFrameBytes : Z; MaxInboundBytesPerConnection : Z; MaxOutboundBytesPerConnection : Z }.

Record LocalQuotaLimiter := mkQuota { q_cfg : LocalQuotaLimiterConfig; q_total : Z; q_byTenant : gmap bytes Z; q_byDocument : gmap bytes Z }.

Definition NewLocalQuotaLimiter (cfg : LocalQuotaLimiterConfig) : result LocalQuotaLimiter :=
  if (MaxConnections cfg <? 0) || (MaxConnectionsPerTenant cfg <? 0) || (MaxConnectionsPerDocument cfg <? 0) ||
     (MaxInboundFrameBytes cfg <? 0) || (MaxOutboundFrameBytes cfg <? 0) || (MaxInboundBytesPerConnection cfg <? 0) ||
     (MaxOutboundBytesPerConnection cfg <? 0)
  then Err (Opaque "yhttp: quotas nao podem ser negativas") else Ok (mkQuota cfg 0 ∅ ∅).

Definition quotaTenantKey (req : Request) : bytes :=
  let namespace := TrimSpace (Namespace (rq_DocumentKey req)) in
  let by_namespace := match namespace with [] => str "tenant:unknown" | _ => str "namespace:" ++ namespace end in
  match rq_Principal req with
  | Some p => match TrimSpace (Tenant p) with [] => by_namespace | t => str "principal:" ++ t end
  | None => by_namespace
  end.

Definition quotaDocumentKey (req : Request) : bytes :=
  TrimSpace (Namespace (rq_DocumentKey req)) ++ str "/" ++ TrimSpace (DocumentID (rq_DocumentKey req)).

(** A lease with its counters of bytes. *)
Record localQuotaLease := mkQuotaLease { lq_tenantKey : bytes; lq_documentKey : bytes; lq_closed : bool; lq_inbound : Z; lq_outbound : Z }.

Definition count_of (m : gmap bytes Z) (key : bytes) : Z := default 0 (m !! key).

Definition OpenQuota (req : Request) (l : LocalQuotaLimiter) : result localQuotaLease * LocalQuotaLimiter :=
  let tenantKey := quotaTenantKey req in
  let documentKey := quotaDocumentKey req in
  let cfg := q_cfg l in
  if (0 <? MaxConnections cfg) && (MaxConnections cfg <=? q_total l) then (Err yhttp_ErrQuotaExceeded, l)
  else if (0 <? MaxConnectionsPerTenant cfg) && (MaxConnectionsPerTenant cfg <=? count_of (q_byTenant l) tenantKey)
  then (Err yhttp_ErrQuotaExceeded, l)
  else if (0 <? MaxConnectionsPerDocument cfg) && (MaxConnectionsPerDocument cfg <=? count_of (q_byDocument l) documentKey)
  then (Err yhttp_ErrQuotaExceeded, l)
  else
    (Ok (mkQuotaLease tenantKey documentKey false 0 0),
     mkQuota cfg (q_total l + 1) (<[tenantKey := count_of (q_byTenant l) tenantKey + 1]> (q_byTenant l))
       (<[documentKey := count_of (q_byDocument l) documentKey + 1]> (q_byDocument l))).

Definition decrementQuotaCounter (values : gmap bytes Z) (key : bytes) : gmap bytes Z :=
  if count_of values key <=? 1 then delete key values else <[key := count_of values key - 1]> values.

Definition release (tenantKey documentKey : bytes) (l : LocalQuotaLimiter) : LocalQuotaLimiter :=
  mkQuota (q_cfg l) (if 0 <? q_total l then q_total l - 1 else q_total l) (decrementQuotaCounter (q_byTenant l) tenantKey)
    (decrementQuotaCounter (q_byDocument l) documentKey).

(** The bytes of a refused frame have been counted, when the frame is not too large by itself. *)
Definition AllowFrame (cfg : LocalQuotaLimiterConfig) (direction : QuotaDirection) (bytes : Z) (l : localQuotaLease)
    : option error * localQuotaLease :=
  if (bytes <? 0) || lq_closed l then (Some (Sentinel yhttp_ErrQuotaExceeded), l)
  else
    match direction with
    | QuotaDirectionInbound =>
        if (0 <? MaxInboundFrameBytes cfg) && (MaxInboundFrameBytes cfg <? bytes) then (Some (Sentinel yhttp_ErrQuotaExceeded), l)
        else
          let inbound := to_int64 (lq_inbound l + bytes) in
          (if (0 <? MaxInboundBytesPerConnection cfg) && (MaxInboundBytesPerConnection cfg <? inbound)
           then Some (Sentinel yhttp_ErrQuotaExceeded) else None,
           mkQuotaLease (lq_tenantKey l) (lq_documentKey l) (lq_closed l) inbound (lq_outbound l))
    | QuotaDirectionOutbound =>
        if (0 <? MaxOutboundFrameBytes cfg) && (MaxOutboundFrameBytes cfg <? bytes) then (Some (Sentinel yhttp_ErrQuotaExceeded), l)
        else
          let outbound := to_int64 (lq_outbound l + bytes) in
          (if (0 <? MaxOutboundBytesPerConnection cfg) && (MaxOutboundBytesPerConnection cfg <? outbound)
           then Some (Sentinel yhttp_ErrQuotaExceeded) else None,
           mkQuotaLease (lq_tenantKey l) (lq_documentKey l) (lq_closed l) (lq_inbound l) outbound)
    | QuotaDirectionOther => (Some (Sentinel yhttp_ErrQuotaExceeded), l)
    end.

Definition QuotaLease_Close (lease : localQuotaLease) (l : LocalQuotaLimiter) : localQuotaLease * LocalQuotaLimiter :=
  if lq_closed lease then (lease, l)
  else (mkQuotaLease (lq_tenantKey lease) (lq_documentKey lease) true (lq_inbound lease) (lq_outbound lease),
        release (lq_tenantKey lease) (lq_documentKey lease) l).

(** ** registry.go *)

Section registry.
Context {peer : Type}.

Abbreviation roomRegistry := (gmap DocumentKey (gmap bytes peer)).

Definition registry_add (key : DocumentKey) (connectionID : bytes) (p : peer) (r : roomRegistry) : roomRegistry :=
  <[key := <[connectionID := p]> (default ∅ (r !! key))]> r.

Definition registry_remove (key : DocumentKey) (connectionID : bytes) (r : roomRegistry) : roomRegistry :=
  match r !! key with
  | None => r
  | Some room =>
      let room := delete connectionID room in
      if bool_decide (room = ∅) then delete key r else <[key := room]> r
  end.

(** The peers in an order of the map. *)
Definition peersExcept (order : gmap bytes peer → list (bytes * peer)) (key : DocumentKey) (exclude : bytes) (r : roomRegistry) : list peer :=
  snd <$> filter (λ e, e.1 ≠ exclude) (order (default ∅ (r !! key))).

End registry.

(** ** redaction.go *)

Section redaction.
(** SHA-256. *)
Variable sha256 : bytes → bytes.
Variable salt : bytes.

Record HashingRequestRedactor := mkRedactor { KeepNamespace : bool; KeepTenant : bool; KeepScopes : bool }.

Definition hex_encode (s : bytes) : bytes :=
  let digit n := if n <? 10 then 48 + n else 87 + n in concat (map (λ c, [digit (c / 16); digit (c mod 16)]) s).

Definition redactString (value : bytes) : bytes :=
  match TrimSpace value with
  | [] => []
  | value => str "redacted-" ++ hex_encode (take 8 (sha256 (salt ++ [0] ++ value)))
  end.

Definition RedactRequest (r : HashingRequestRedactor) (req : Request) : Request :=
  let key := rq_DocumentKey req in
  mkRequest
    (mkDocumentKey (if KeepNamespace r then Namespace key else redactString (Namespace key)) (redactString (DocumentID key)))
    (redactString (rq_ConnectionID req)) (rq_ClientID req) (rq_PersistOnClose req) (rq_SyncOutputFormat req)
    ((λ p, mkPrincipal (redactString (Subject p)) (if KeepTenant r then Tenant p else redactString (Tenant p))
             (match Scopes p with [] => [] | _ => if KeepScopes r then Scopes p else [str "redacted"] end)) <$> rq_Principal req).

Definition sensitiveHTTPHeaders : list bytes :=
  [str "Authorization"; str "Cookie"; str "Proxy-Authorization"; str "Set-Cookie"; str "X-Yjs-Node-Authorization"; str "X-Api-Key";
   str "X-Auth-Token"].

(** The headers that remain of a request. *)
Definition RedactHTTPRequest (h : Header) : Header := foldl (λ h name, delete name h) h sensitiveHTTPHeaders.

End redaction.

(** ** security_requirements.go *)

Definition productionRequirementError (field : string) : error := Wrapped "%w: %s obrigatorio em producao" yhttp_ErrForbidden.

(** Which hooks a server has: each is set to something that is not nil. *)
Record hooks := mkHooks {
  has_authenticator : bool; has_authorizer : bool; has_rateLimiter : bool; has_quotaLimiter : bool; has_originPolicy : bool;
  has_redactor : bool }.

Definition validateProductionServerHooks (prefix : string) (h : hooks) : option error :=
  if negb (has_authenticator h) then Some (productionRequirementError (prefix +:+ ".Authenticator"))
  else if negb (has_authorizer h) then Some (productionRequirementError (prefix +:+ ".Authorizer"))
  else if negb (has_rateLimiter h) then Some (productionRequirementError (prefix +:+ ".RateLimiter"))
  else if negb (has_quotaLimiter h) then Some (productionRequirementError (prefix +:+ ".QuotaLimiter"))
  else if negb (has_originPolicy h) then Some (productionRequirementError (prefix +:+ ".OriginPolicy"))
  else if negb (has_redactor h) then Some (productionRequirementError (prefix +:+ ".Redactor"))
  else None.

(** ** owner_aware.go *)

Inductive lookup_result := ResultLocal | ResultRemote | ResultNotFound | ResultInvalid | ResultUnavailable | ResultError.

Definition ownerLookupResultFromResolution (resolution : OwnerResolution) : lookup_result := if Local resolution then ResultLocal else ResultRemote.

Definition ownerLookupResultFromLookupError (err : error) : lookup_result :=
  if errors_Is err ycluster_ErrInvalidOwnerLookupRequest || errors_Is err storage_ErrInvalidDocumentKey then ResultInvalid
  else if errors_Is err ycluster_ErrOwnerNotFound || errors_Is err ycluster_ErrPlacementNotFound then ResultNotFound
  else if errors_Is err ycluster_ErrLeaseExpired || errors_Is err ycluster_ErrInvalidPlacement || errors_Is err ycluster_ErrInvalidLease
  then ResultUnavailable else ResultError.

Definition statusFromOwnerLookupError (err : error) : Z :=
  if errors_Is err ycluster_ErrInvalidOwnerLookupRequest || errors_Is err storage_ErrInvalidDocumentKey then 400
  else if errors_Is err ycluster_ErrOwnerNotFound || errors_Is err ycluster_ErrPlacementNotFound || errors_Is err ycluster_ErrLeaseExpired ||
          errors_Is err ycluster_ErrInvalidPlacement || errors_Is err ycluster_ErrInvalidLease then 503
  else 500.

Definition isOwnerUnavailableForLocalPromotion (err : error) : bool :=
  errors_Is err ycluster_ErrOwnerNotFound || errors_Is err ycluster_ErrPlacementNotFound || errors_Is err ycluster_ErrLeaseExpired.

(** [promote]: PromoteLocalOnOwnerUnavailable with an ownership runtime. *)
Definition canPromoteLocalOwner (promote runtime : bool) (err : error) : bool :=
  promote && runtime && isOwnerUnavailableForLocalPromotion err.

(** Where [ServeHTTP] sends a request whose owner was looked up. *)
Inductive route := RouteLocal | RouteLocalPromote | RouteRemote (resolution : OwnerResolution) | RouteError (status : Z).

Definition route_request (promote runtime : bool) (lookup : result (option OwnerResolution)) : route :=
  let failed err := if canPromoteLocalOwner promote runtime err then RouteLocalPromote else RouteError (statusFromOwnerLookupError err) in
  match lookup with
  | Err err => failed err
  | Ok None => failed (Sentinel ycluster_ErrOwnerNotFound)
  | Ok (Some resolution) => if Local resolution then RouteLocal else RouteRemote resolution
  end.

(** The seconds of the header Retry-After, if it is set. *)
Definition setRetryAfterHeader (retryAfter : Z) : option Z :=
  if retryAfter <=? 0 then None
  else
    let seconds := Z.quot retryAfter Second in
    let seconds := if negb (Z.rem retryAfter Second =? 0) then seconds + 1 else seconds in
    Some (if seconds <? 1 then 1 else seconds).

(** ** server.go: errors and close signals *)

Definition isAuthorityLostRetryableError (err : error) : bool :=
  errors_Is err pkg_yprotocol_ErrAuthorityLost || errors_Is err storage_ErrAuthorityLost.

Definition statusFromOpenError (err : error) : Z :=
  if errors_Is err storage_ErrInvalidDocumentKey || errors_Is err pkg_yprotocol_ErrInvalidConnectionID then 400
  else if errors_Is err pkg_yprotocol_ErrConnectionExists then 409
  else if isAuthorityLostRetryableError err then 503 else 500.

Definition statusFromOwnershipError (err : error) : Z :=
  if errors_Is err storage_ErrInvalidDocumentKey || errors_Is err ycluster_ErrInvalidLeaseRequest then 400
  else if errors_Is err ycluster_ErrLeaseHeld || errors_Is err ycluster_ErrLeaseExpired || errors_Is err ycluster_ErrOwnershipRuntimeClosed ||
          errors_Is err context_Canceled || errors_Is err context_DeadlineExceeded then 503
  else 500.

Definition authorityLostCloseReason : bytes := str "authority_lost".
Definition retryableRemoteOwnerCloseReason : bytes := str "retryable_close".

Record remoteOwnerCloseSignal := mkSignal { cs_reason : bytes; cs_retryable : bool }.

Definition normalizeRemoteOwnerCloseReason (value fallback : bytes) : bytes := if is_blank value then fallback else value.

Definition metricReason (s : remoteOwnerCloseSignal) (fallback : bytes) : bytes :=
  if is_blank (cs_reason s) then normalizeRemoteOwnerCloseReason [] fallback else cs_reason s.

Definition StatusTryAgainLater : Z := 1013.
Definition StatusGoingAway : Z := 1001.
Definition StatusPolicyViolation : Z := 1008.
Definition StatusUnsupportedData : Z := 1003.

Definition websocketStatus (s : remoteOwnerCloseSignal) : Z := if cs_retryable s then StatusTryAgainLater else StatusGoingAway.

Definition websocketCloseFromRuntimeError (err : error) (fallbackStatus : Z) (fallbackReason : bytes) : Z * bytes :=
  if isAuthorityLostRetryableError err then (StatusTryAgainLater, authorityLostCloseReason) else (fallbackStatus, fallbackReason).

Definition remoteOwnerCloseSignalFromError (err : error) (fallback : bytes) : remoteOwnerCloseSignal :=
  if isAuthorityLostRetryableError err then mkSignal authorityLostCloseReason true
  else mkSignal (normalizeRemoteOwnerCloseReason fallback (str "close")) false.

Definition quotaCloseStatus (err : error) : Z := if errors_Is err yhttp_ErrQuotaUnavailable then StatusTryAgainLater else StatusPolicyViolation.
