(* ===== verification/HttpNode.v ===== *)
(** * pkg/yhttp: one node speaks to another

    remote_owner_node_auth.go: the credentials of a handshake, bearer tokens or an
    HMAC with a time window and nonces.  peers.go: messages of the y-protocols as
    messages between nodes and back.  The handshake and the checks of
    remote_owner_endpoint.go and remote_owner_forward.go.  HMAC-SHA256 is a
    parameter. *)
From S2P Require Import Prelude GoError GoText GoFloat GoJson GoAny StorageTypes NodeFrame NodeMessage ClusterTypes Awareness YProtocol YStream Facade WireCompat Http.

Definition unauthorized : error := Wrapped "%w: %s" yhttp_ErrUnauthorized.

(** ** remote_owner_node_auth.go: bearer tokens *)

Definition authorization_header : bytes := str "X-Yjs-Node-Authorization".

Definition RemoteOwnerBearerAuthHeaders (token : bytes) : result Header :=
  match TrimSpace token with
  | [] => Err yhttp_ErrUnauthorized
  | token => Ok (header_set authorization_header (str "Bearer " ++ token) ∅)
  end.

Definition RemoteOwnerBearerAuthenticator (tokens : list bytes) (h : Header) : option error :=
  let allowed := filter (λ t, t ≠ []) (TrimSpace <$> tokens) in
  match CutPrefix (TrimSpace (header_get h authorization_header)) (str "Bearer ") with
  | None => Some (Sentinel yhttp_ErrUnauthorized)
  | Some token => if bool_decide (TrimSpace token ∈ allowed) then None else Some (Sentinel yhttp_ErrUnauthorized)
  end.

(** ** remote_owner_node_auth.go: nonces *)

(** The nonces that were used, with the time until which they count. *)
Abbreviation NonceStore := (gmap bytes Z).

(** [early] and [late] are the errors of the context before and behind the mutex. *)
Definition CheckAndStore (early late : option error) (key : bytes) (expiresAt now : Z) (s : NonceStore) : option error * NonceStore :=
  match early with
  | Some err => (Some err, s)
  | None =>
      match TrimSpace key with
      | [] => (Some unauthorized, s)
      | key =>
          if IsZero expiresAt then (Some unauthorized, s)
          else
            match late with
            | Some err => (Some err, s)
            | None =>
                let s := filter (λ e : bytes * Z, Before e.2 now = false) s in
                match s !! key with
                | Some storedExpiry => if negb (Before storedExpiry now) then (Some unauthorized, s) else (None, <[key := expiresAt]> s)
                | None => (None, <[key := expiresAt]> s)
                end
            end
      end
  end.

(** ** remote_owner_node_auth.go: HMAC *)

Record RemoteOwnerAuthRequest := mkAuthRequest {
  ar_NodeID : bytes; ar_DocumentKey : DocumentKey; ar_ConnectionID : bytes; ar_ClientID : Z; ar_Epoch : Z; ar_Flags : Z;
  ar_Header : Header }.

Definition timestamp_header : bytes := str "X-Yjs-Node-Timestamp".
Definition nonce_header : bytes := str "X-Yjs-Node-Nonce".
Definition signature_header : bytes := str "X-Yjs-Node-Signature".
Definition key_id_header : bytes := str "X-Yjs-Node-Key-Id".

Definition remoteOwnerEpoch (resolution : OwnerResolution) : result Z :=
  match p_Lease (r_Placement resolution) with
  | None => Err (Wrapped "%w: owner remoto sem epoch ativo" ycluster_ErrInvalidLease)
  | Some lease => if Epoch lease =? 0 then Err (Wrapped "%w: owner remoto sem epoch ativo" ycluster_ErrInvalidLease) else Ok (Epoch lease)
  end.

Definition remoteOwnerRequestFlags (req : Request) : Z :=
  if rq_PersistOnClose req then Z.lor FlagNone FlagPersistOnClose else FlagNone.

Definition remoteOwnerAuthRequestFromDial (nodeID : bytes) (req : Request) (resolution : OwnerResolution) : result RemoteOwnerAuthRequest :=
  epoch ← remoteOwnerEpoch resolution;
  Ok (mkAuthRequest nodeID (rq_DocumentKey req) (rq_ConnectionID req) (rq_ClientID req) epoch (remoteOwnerRequestFlags req) ∅).

(** The timestamp, the nonce, the signature and the key id. *)
Definition remoteOwnerAuthHeaderValues (h : Header) : result (bytes * bytes * bytes * bytes) :=
  if bool_decide (h = ∅) then Err yhttp_ErrUnauthorized
  else
    let timestamp := TrimSpace (header_get h timestamp_header) in
    let nonce := TrimSpace (header_get h nonce_header) in
    let signature := TrimSpace (header_get h signature_header) in
    let keyID := TrimSpace (header_get h key_id_header) in
    if bool_decide (timestamp = []) || bool_decide (nonce = []) || bool_decide (signature = []) then Err yhttp_ErrUnauthorized
    else Ok (timestamp, nonce, signature, keyID).

(** json.Marshal of the struct [remoteOwnerHMACPayload]. *)
Definition field (name : string) (value : bytes) : bytes := quote (str name) ++ [58] ++ value.

Definition remoteOwnerHMACPayloadBytes (req : RemoteOwnerAuthRequest) (timestamp nonce keyID : bytes) : bytes :=
  str "{" ++ join (str ",")
    ([field "version" (quote (str "v1")); field "nodeId" (quote (ar_NodeID req));
      field "namespace" (quote (Namespace (ar_DocumentKey req))); field "documentId" (quote (DocumentID (ar_DocumentKey req)));
      field "connectionId" (quote (ar_ConnectionID req)); field "clientId" (FormatUint (ar_ClientID req));
      field "epoch" (FormatUint (ar_Epoch req)); field "flags" (FormatUint (ar_Flags req));
      field "timestamp" (quote timestamp); field "nonce" (quote nonce)] ++
     match TrimSpace keyID with [] => [] | keyID => [field "keyId" (quote keyID)] end) ++ str "}".

(** base64.RawURLEncoding *)
Definition url_digit (n : Z) : Z := if n =? 62 then 45 else if n =? 63 then 95 else base64_digit n.

Fixpoint base64_url (s : bytes) : bytes :=
  match s with
  | a :: b :: c :: s =>
      url_digit (a / 4) :: url_digit (a mod 4 * 16 + b / 16) :: url_digit (b mod 16 * 4 + c / 64) :: url_digit (c mod 64) :: base64_url s
  | [a; b] => [url_digit (a / 4); url_digit (a mod 4 * 16 + b / 16); url_digit (b mod 16 * 4)]
  | [a] => [url_digit (a / 4); url_digit (a mod 4 * 16)]
  | [] => []
  end.

Definition url_value (c : Z) : option Z :=
  if (65 <=? c) && (c <=? 90) then Some (c - 65)
  else if (97 <=? c) && (c <=? 122) then Some (c - 71)
  else if (48 <=? c) && (c <=? 57) then Some (c + 4)
  else if c =? 45 then Some 62 else if c =? 95 then Some 63 else None.

(** The low bits of the last digit may be anything. *)
Fixpoint base64_groups (s : list Z) : option bytes :=
  match s with
  | a :: b :: c :: d :: s =>
      rest ← base64_groups s; Some (a * 4 + b / 16 :: b mod 16 * 16 + c / 4 :: c mod 4 * 64 + d :: rest)
  | [a; b; c] => Some [a * 4 + b / 16; b mod 16 * 16 + c / 4]
  | [a; b] => Some [a * 4 + b / 16]
  | [_] => None
  | [] => Some []
  end.

Definition base64_url_decode (s : bytes) : option bytes :=
  digits ← mapM url_value (filter (λ c, c ≠ 10 ∧ c ≠ 13) s); base64_groups digits.

Definition remoteOwnerEncodeSignature (sum : bytes) : bytes := str "v1" ++ str "=" ++ base64_url sum.

(** The text before the first "=" is the version. *)
Definition remoteOwnerDecodeSignature (value : bytes) : result bytes :=
  let value := TrimSpace value in
  match index_byte value 61 with
  | None => Err yhttp_ErrUnauthorized
  | Some i =>
      let encoded := drop (i + 1) value in
      if negb (bool_decide (take i value = str "v1")) || bool_decide (encoded = []) then Err yhttp_ErrUnauthorized
      else match base64_url_decode encoded with Some sum => Ok sum | None => Err (Opaque "base64.CorruptInputError") end
  end.

(** [time.Unix(seconds, 0)]; the seconds since the year 1 are an [int64]. *)
Definition unix_to_internal : Z := 62135596800.
Definition parseRemoteOwnerTimestamp (value : bytes) : option Z :=
  seconds ← ParseInt (TrimSpace value); Some (to_int64 (seconds + unix_to_internal) * Second).

(** The entries in the order in which the map is visited. *)
Definition cloneHMACSecrets (src : list (bytes * bytes)) : gmap bytes bytes :=
  foldl (λ cloned e,
    let keyID := TrimSpace e.1 in let secret := TrimSpace e.2 in
    if bool_decide (keyID = []) || bool_decide (secret = []) then cloned else <[keyID := secret]> cloned) ∅ src.

Definition resolveRemoteOwnerHMACSecret (fallback : bytes) (secrets : gmap bytes bytes) (keyID : bytes) (requireKeyID : bool) : result bytes :=
  match TrimSpace keyID with
  | [] =>
      if requireKeyID then Err unauthorized
      else match TrimSpace fallback with [] => Err unauthorized | secret => Ok secret end
  | keyID => match TrimSpace (default [] (secrets !! keyID)) with [] => Err unauthorized | secret => Ok secret end
  end.

Definition remoteOwnerNonceStoreKey (nodeID keyID nonce : bytes) : bytes :=
  nodeID ++ str ":" ++ match TrimSpace keyID with [] => str "default" | keyID => keyID end ++ str ":" ++ nonce.

Record RemoteOwnerHMACAuthenticatorConfig := mkHMACConfig {
  hc_Secret : bytes; hc_Secrets : list (bytes * bytes); hc_RequireKeyID : bool; hc_TimeWindow : Z }.

Definition defaultRemoteOwnerHMACTimeWindow : Z := 120 * Second.

Definition hmac_window (cfg : RemoteOwnerHMACAuthenticatorConfig) : Z :=
  if hc_TimeWindow cfg <=? 0 then defaultRemoteOwnerHMACTimeWindow else hc_TimeWindow cfg.

Section hmac.
Variable hmac : bytes → bytes → bytes.

Definition remoteOwnerHMACDigest (secret : bytes) (req : RemoteOwnerAuthRequest) (timestamp nonce keyID : bytes) : bytes :=
  hmac secret (remoteOwnerHMACPayloadBytes req timestamp nonce keyID).

Definition remoteOwnerHMACSignature (secret : bytes) (req : RemoteOwnerAuthRequest) (timestamp nonce keyID : bytes) : bytes :=
  remoteOwnerEncodeSignature (remoteOwnerHMACDigest secret req timestamp nonce keyID).

(** The headers of a dial at the time [now], with the nonce that was drawn. *)
Definition RemoteOwnerHMACAuthHeaders (secret keyID nodeID : bytes) (now : Z) (drawn : result bytes) (req : Request)
    (resolution : OwnerResolution) : result Header :=
  let secret := TrimSpace secret in
  let keyID := TrimSpace keyID in
  if bool_decide (secret = []) then Err unauthorized
  else
    match NodeID_Valid nodeID with
    | Some err => Err err
    | None =>
        authReq ← remoteOwnerAuthRequestFromDial nodeID req resolution;
        let timestamp := FormatInt (now / Second - unix_to_internal) in
        nonce ← drawn;
        let nonce := TrimSpace nonce in
        if bool_decide (nonce = []) then Err unauthorized
        else
          let header := header_set timestamp_header timestamp ∅ in
          let header := header_set nonce_header nonce header in
          let header := header_set signature_header (remoteOwnerHMACSignature secret authReq timestamp nonce keyID) header in
          Ok (if bool_decide (keyID = []) then header else header_set key_id_header keyID header)
    end.

(** [now] is read for the window, [later] by the store of nonces. *)
Definition RemoteOwnerHMACAuthenticator (cfg : RemoteOwnerHMACAuthenticatorConfig) (early late : option error) (now later : Z)
    (req : RemoteOwnerAuthRequest) (s : NonceStore) : option error * NonceStore :=
  match NodeID_Valid (ar_NodeID req) with
  | Some _ => (Some unauthorized, s)
  | None =>
      match remoteOwnerAuthHeaderValues (ar_Header req) with
      | Err err => (Some err, s)
      | Ok (timestamp, nonce, signature, keyID) =>
          match resolveRemoteOwnerHMACSecret (TrimSpace (hc_Secret cfg)) (cloneHMACSecrets (hc_Secrets cfg)) keyID (hc_RequireKeyID cfg) with
          | Err err => (Some err, s)
          | Ok secret =>
              match parseRemoteOwnerTimestamp timestamp with
              | None => (Some unauthorized, s)
              | Some observedAt =>
                  if Before observedAt (now - hmac_window cfg) || After observedAt (now + hmac_window cfg) then (Some unauthorized, s)
                  else
                    match remoteOwnerDecodeSignature signature with
                    | Err _ => (Some unauthorized, s)
                    | Ok actual =>
                        if negb (bool_decide (actual = remoteOwnerHMACDigest secret req timestamp nonce keyID)) then (Some unauthorized, s)
                        else
                          CheckAndStore early late (remoteOwnerNonceStoreKey (ar_NodeID req) keyID nonce) (observedAt + hmac_window cfg) later s
                    end
              end
          end
      end
  end.

End hmac.

(** ** peers.go: messages between nodes *)

(** [%w]-wrapped errors of the package apart, they are plain ones. *)
Definition refused_message (what : string) : error := Opaque what.

(** The conversion a peer of the V2 format asks for; the messages are those decoded, with their payloads replaced. *)
Definition convert_sync_message (message : ProtocolMessage) : result (ProtocolMessage * bool) :=
  match pm_Sync message with
  | Some sync =>
      if (sm_Type sync =? SyncMessageTypeStep2) || (sm_Type sync =? SyncMessageTypeUpdate) then
        converted ← ConvertUpdateToV2YjsWire (sm_Payload sync);
        Ok (mkMessage (Protocol message) (Some (mkSync (sm_Type sync) converted)) (pm_Awareness message) (pm_Auth message) (pm_QueryAwareness message), true)
      else Ok (message, false)
  | None => Ok (message, false)
  end.

Definition protocolPayloadForSyncOutputFormat (payload : bytes) (format : UpdateFormat) : result bytes :=
  match format with
  | UpdateFormatV2 =>
      messages ← DecodeProtocolMessages payload;
      converted ← mapM convert_sync_message messages;
      if existsb snd converted then EncodeProtocolEnvelopes (Some <$> (fst <$> converted)) else Ok payload
  | _ => Ok payload
  end.

Section route.
Variables (key : DocumentKey) (connectionID : bytes) (epoch : Z).

Definition awareness_body (update : Update) : result Message :=
  encoded ← Awareness.EncodeUpdate (Some update); Ok (MAwarenessUpdate (mkAwarenessUpdate 0 key connectionID epoch encoded)).

(** A message of the owner for an edge. *)
Definition remote_message (format : UpdateFormat) (message : ProtocolMessage) : result Message :=
  match pm_Sync message with
  | Some sync =>
      if sm_Type sync =? SyncMessageTypeStep2 then
        match format with
        | UpdateFormatV2 =>
            updateV2 ← ConvertUpdateToV2 (sm_Payload sync); Ok (MDocumentSyncResponseV2 (mkDocumentSyncResponseV2 0 key connectionID epoch updateV2))
        | _ =>
            updateV1 ← ConvertUpdateToV1 (sm_Payload sync); Ok (MDocumentSyncResponse (mkDocumentSyncResponse 0 key connectionID epoch updateV1))
        end
      else if sm_Type sync =? SyncMessageTypeUpdate then
        match format with
        | UpdateFormatV2 =>
            updateV2 ← ConvertUpdateToV2 (sm_Payload sync); Ok (MDocumentUpdateV2 (mkDocumentUpdateV2 0 key connectionID epoch updateV2))
        | _ =>
            updateV1 ← ConvertUpdateToV1 (sm_Payload sync); Ok (MDocumentUpdate (mkDocumentUpdate 0 key connectionID epoch updateV1))
        end
      else Err (refused_message "yhttp: sync remoto outbound nao suportado no indice %d: %v")
  | None =>
      match pm_Awareness message with
      | Some update => awareness_body update
      | None => Err (refused_message "yhttp: protocol outbound remoto nao suportado no indice %d")
      end
  end.

Definition protocolPayloadToRemoteMessagesForFormat (payload : bytes) (format : UpdateFormat) : result (list Message) :=
  messages ← DecodeProtocolMessages payload; mapM (remote_message format) messages.

Definition query_awareness_message (message : ProtocolMessage) : result Message :=
  match pm_Awareness message with
  | Some update =>
      encoded ← Awareness.EncodeUpdate (Some update);
      Ok (MQueryAwarenessResponse (mkQueryAwarenessResponse 0 key connectionID epoch encoded))
  | None => Err (refused_message "yhttp: query-awareness direto nao suportado no indice %d")
  end.

Definition protocolPayloadToQueryAwarenessMessages (payload : bytes) : result (list Message) :=
  messages ← DecodeProtocolMessages payload; mapM query_awareness_message messages.

(** A message of an edge for the owner. *)
Definition owner_message (format : UpdateFormat) (message : ProtocolMessage) : result Message :=
  match pm_Sync message with
  | Some sync =>
      if sm_Type sync =? SyncMessageTypeStep1 then
        Ok (match format with
            | UpdateFormatV2 => MDocumentSyncRequestV2 (mkDocumentSyncRequestV2 0 key connectionID epoch (sm_Payload sync))
            | _ => MDocumentSyncRequest (mkDocumentSyncRequest 0 key connectionID epoch (sm_Payload sync))
            end)
      else if (sm_Type sync =? SyncMessageTypeStep2) || (sm_Type sync =? SyncMessageTypeUpdate) then
        match format with
        | UpdateFormatV2 =>
            updateV2 ← ConvertUpdateToV2 (sm_Payload sync); Ok (MDocumentUpdateV2FromEdge (mkDocumentUpdateV2FromEdge 0 key connectionID epoch updateV2))
        | _ =>
            updateV1 ← ConvertUpdateToV1 (sm_Payload sync); Ok (MDocumentUpdate (mkDocumentUpdate 0 key connectionID epoch updateV1))
        end
      else Err (refused_message "yhttp: sync remoto inbound nao suportado no indice %d: %v")
  | None =>
      match pm_Awareness message, pm_QueryAwareness message with
      | Some update, _ => awareness_body update
      | None, Some _ => Ok (MQueryAwarenessRequest (mkQueryAwarenessRequest 0 key connectionID epoch))
      | None, None => Err (refused_message "yhttp: protocol inbound remoto nao suportado no indice %d")
      end
  end.

Definition protocolPayloadToOwnerMessagesForFormat (payload : bytes) (format : UpdateFormat) : result (list Message) :=
  messages ← DecodeProtocolMessages payload; mapM (owner_message format) messages.

End route.

Definition protocolPayloadToRemoteMessages (key : DocumentKey) (connectionID : bytes) (epoch : Z) (payload : bytes) : result (list Message) :=
  protocolPayloadToRemoteMessagesForFormat key connectionID epoch payload UpdateFormatV1.

Definition protocolPayloadToOwnerMessages (key : DocumentKey) (connectionID : bytes) (epoch : Z) (payload : bytes) : result (list Message) :=
  protocolPayloadToOwnerMessagesForFormat key connectionID epoch payload UpdateFormatV1.

(** What an edge makes of a message of the owner: bytes for the client, or a close. *)
Definition remoteMessageToProtocolPayload (message : Message) : result (bytes * option Close) :=
  match message with
  | MHandshakeAck _ | MPing _ | MPong _ => Ok ([], None)
  | MDocumentSyncResponse m => Ok (EncodeProtocolSyncStep2 (DocumentSyncResponse_UpdateV1 m), None)
  | MDocumentSyncResponseV2 m => Ok (EncodeProtocolSyncStep2 (DocumentSyncResponseV2_UpdateV2 m), None)
  | MDocumentUpdate m => Ok (EncodeProtocolSyncUpdate (DocumentUpdate_UpdateV1 m), None)
  | MDocumentUpdateV2 m => Ok (EncodeProtocolSyncUpdate (DocumentUpdateV2_UpdateV2 m), None)
  | MAwarenessUpdate m => payload ← EncodeProtocolMessage ProtocolTypeAwareness (AwarenessUpdate_Payload m); Ok (payload, None)
  | MQueryAwarenessResponse m => payload ← EncodeProtocolMessage ProtocolTypeAwareness (QueryAwarenessResponse_Payload m); Ok (payload, None)
  | MClose m => Ok ([], Some m)
  | _ => Err (refused_message "yhttp: message type remoto nao suportado: %T")
  end.

(** What the owner makes of a message of an edge. *)
Definition ownerMessageToProtocolPayload (message : Message) : result bytes :=
  match message with
  | MDocumentSyncRequest m => Ok (EncodeProtocolSyncStep1 (DocumentSyncRequest_StateVector m))
  | MDocumentSyncRequestV2 m => Ok (EncodeProtocolSyncStep1 (DocumentSyncRequestV2_StateVector m))
  | MDocumentUpdate m => Ok (EncodeProtocolSyncUpdate (DocumentUpdate_UpdateV1 m))
  | MDocumentUpdateV2FromEdge m => Ok (EncodeProtocolSyncUpdate (DocumentUpdateV2FromEdge_UpdateV2 m))
  | MAwarenessUpdate m => EncodeProtocolMessage ProtocolTypeAwareness (AwarenessUpdate_Payload m)
  | MQueryAwarenessRequest _ => Ok EncodeProtocolQueryAwareness
  | _ => Err (refused_message "yhttp: message type owner nao suportado: %T")
  end.

(** ** The handshake *)

Definition has_flag (flags flag : Z) : bool := negb (Z.land flags flag =? 0).

Definition requestWantsInterNodeV2 (req : Request) : bool := bool_decide (rq_SyncOutputFormat req = UpdateFormatV2).
Definition handshakeRequestsInterNodeV2 (h : Handshake) : bool := has_flag (Handshake_Flags h) FlagSupportsUpdateV2.
Definition handshakeAckConfirmsInterNodeV2 (ack : HandshakeAck) : bool := has_flag (HandshakeAck_Flags ack) FlagSupportsUpdateV2.

Definition ownerToEdgeFormatFromAck (req : Request) (ack : HandshakeAck) : UpdateFormat :=
  if requestWantsInterNodeV2 req && handshakeAckConfirmsInterNodeV2 ack then UpdateFormatV2 else UpdateFormatV1.

(** The message [sendHandshake] sends. *)
Definition sendHandshake (localNodeID : bytes) (req : Request) (epoch : Z) : Handshake :=
  let flags := if rq_PersistOnClose req then Z.lor FlagNone FlagPersistOnClose else FlagNone in
  let flags := if requestWantsInterNodeV2 req then Z.lor flags FlagSupportsUpdateV2 else flags in
  mkHandshake flags localNodeID (rq_DocumentKey req) (rq_ConnectionID req) (rq_ClientID req) epoch.

Definition receiveHandshake (message : Message) : result Handshake :=
  match message with
  | MHandshake h => match Message_Validate message with Some err => Err err | None => Ok h end
  | _ => Err (refused_message "yhttp: handshake inicial obrigatorio, recebido %T")
  end.

(** What [authenticateHandshake] hands to the authenticator. *)
Definition auth_request (h : Handshake) (header : Header) : RemoteOwnerAuthRequest :=
  mkAuthRequest (Handshake_NodeID h) (Handshake_DocumentKey h) (Handshake_ConnectionID h) (Handshake_ClientID h) (Handshake_Epoch h)
    (Handshake_Flags h) header.

Definition requestFromHandshake (h : Handshake) : Request :=
  mkRequest (Handshake_DocumentKey h) (Handshake_ConnectionID h) (Handshake_ClientID h) (has_flag (Handshake_Flags h) FlagPersistOnClose)
    (if handshakeRequestsInterNodeV2 h then UpdateFormatV2 else UpdateFormatUnknown) None.

Definition sendHandshakeAck (localNodeID : bytes) (h : Handshake) : HandshakeAck :=
  mkHandshakeAck (if handshakeRequestsInterNodeV2 h then Z.lor FlagNone FlagSupportsUpdateV2 else FlagNone) localNodeID (Handshake_DocumentKey h)
    (Handshake_ConnectionID h) (Handshake_ClientID h) (Handshake_Epoch h).

Definition validateRemoteOwnerRouteFields (req : Request) (epoch : Z) (key : DocumentKey) (connectionID : bytes) (messageEpoch : Z)
    : option error :=
  if negb (bool_decide (rq_DocumentKey req = key)) then Some (Opaque "yhttp: remote owner route mismatch: document key got %#v want %#v")
  else if negb (bool_decide (TrimSpace connectionID = rq_ConnectionID req)) then Some (Opaque "yhttp: remote owner route mismatch: connection id got %q want %q")
  else if negb (messageEpoch =? epoch) then Some (Opaque "yhttp: remote owner route mismatch: epoch got %d want %d") else None.

(** The checks of an owner on a message of an edge. *)
Definition validateRemoteOwnerRoute (req : Request) (epoch : Z) (message : Message) : option error :=
  let fields := validateRemoteOwnerRouteFields req epoch in
  let v2 err := if negb (requestWantsInterNodeV2 req) then Some (Opaque err) else None in
  match message with
  | MDocumentSyncRequest m => fields (DocumentSyncRequest_DocumentKey m) (DocumentSyncRequest_ConnectionID m) (DocumentSyncRequest_Epoch m)
  | MDocumentSyncRequestV2 m =>
      match v2 "yhttp: edge remoto enviou sync request V2 sem negociacao inter-node" with
      | Some err => Some err
      | None => fields (DocumentSyncRequestV2_DocumentKey m) (DocumentSyncRequestV2_ConnectionID m) (DocumentSyncRequestV2_Epoch m)
      end
  | MDocumentUpdate m => fields (DocumentUpdate_DocumentKey m) (DocumentUpdate_ConnectionID m) (DocumentUpdate_Epoch m)
  | MDocumentUpdateV2FromEdge m =>
      match v2 "yhttp: edge remoto enviou update V2 sem negociacao inter-node" with
      | Some err => Some err
      | None => fields (DocumentUpdateV2FromEdge_DocumentKey m) (DocumentUpdateV2FromEdge_ConnectionID m) (DocumentUpdateV2FromEdge_Epoch m)
      end
  | MAwarenessUpdate m => fields (AwarenessUpdate_DocumentKey m) (AwarenessUpdate_ConnectionID m) (AwarenessUpdate_Epoch m)
  | MQueryAwarenessRequest m => fields (QueryAwarenessRequest_DocumentKey m) (QueryAwarenessRequest_ConnectionID m) (QueryAwarenessRequest_Epoch m)
  | MDisconnect m => fields (Disconnect_DocumentKey m) (Disconnect_ConnectionID m) (Disconnect_Epoch m)
  | MClose m => fields (Close_DocumentKey m) (Close_ConnectionID m) (Close_Epoch m)
  | _ => Some (refused_message "yhttp: message type remoto nao suportado pelo owner endpoint: %T")
  end.

Definition validateRemoteOwnerAuthorityEpoch (handshakeEpoch authorityEpoch : Z) : option error :=
  if (authorityEpoch =? 0) || (handshakeEpoch =? authorityEpoch) then None
  else Some (Opaque "yhttp: remote owner authority epoch mismatch: handshake got %d want %d").

Definition validateRemoteOwnerHandshakeAck (req : Request) (ownerNode : bytes) (epoch : Z) (ack : HandshakeAck) : option error :=
  match validateRemoteOwnerRouteFields req epoch (HandshakeAck_DocumentKey ack) (HandshakeAck_ConnectionID ack) (HandshakeAck_Epoch ack) with
  | Some err => Some err
  | None =>
      if negb (bool_decide (TrimSpace (HandshakeAck_NodeID ack) = ownerNode)) then Some (Opaque "yhttp: handshake ack route mismatch: node id got %q want %q")
      else if negb (HandshakeAck_ClientID ack =? rq_ClientID req) then Some (Opaque "yhttp: handshake ack route mismatch: client id got %d want %d") else None
  end.

(** The checks of an edge on a message of the owner. *)
Definition validateRemoteOwnerUpstreamMessage (req : Request) (ownerNode : bytes) (epoch : Z) (ownerToEdgeFormat : UpdateFormat) (message : Message)
    : option error :=
  let fields := validateRemoteOwnerRouteFields req epoch in
  let v2 := if bool_decide (ownerToEdgeFormat = UpdateFormatV2) then None else Some (Opaque "yhttp: owner remoto enviou V2 sem negociacao inter-node") in
  match message with
  | MHandshakeAck ack => validateRemoteOwnerHandshakeAck req ownerNode epoch ack
  | MDocumentSyncResponse m => fields (DocumentSyncResponse_DocumentKey m) (DocumentSyncResponse_ConnectionID m) (DocumentSyncResponse_Epoch m)
  | MDocumentUpdate m => fields (DocumentUpdate_DocumentKey m) (DocumentUpdate_ConnectionID m) (DocumentUpdate_Epoch m)
  | MDocumentSyncResponseV2 m =>
      match v2 with
      | Some err => Some err
      | None => fields (DocumentSyncResponseV2_DocumentKey m) (DocumentSyncResponseV2_ConnectionID m) (DocumentSyncResponseV2_Epoch m)
      end
  | MDocumentUpdateV2 m =>
      match v2 with
      | Some err => Some err
      | None => fields (DocumentUpdateV2_DocumentKey m) (DocumentUpdateV2_ConnectionID m) (DocumentUpdateV2_Epoch m)
      end
  | MAwarenessUpdate m => fields (AwarenessUpdate_DocumentKey m) (AwarenessUpdate_ConnectionID m) (AwarenessUpdate_Epoch m)
  | MQueryAwarenessResponse m => fields (QueryAwarenessResponse_DocumentKey m) (QueryAwarenessResponse_ConnectionID m) (QueryAwarenessResponse_Epoch m)
  | MClose m => fields (Close_DocumentKey m) (Close_ConnectionID m) (Close_Epoch m)
  | MPing _ | MPong _ => None
  | _ => Some (refused_message "yhttp: message type remoto nao suportado pelo edge relay: %T")
  end.

Definition remoteOwnerCloseSignalFromMessage (m : Close) : remoteOwnerCloseSignal :=
  mkSignal (normalizeRemoteOwnerCloseReason (Close_Reason m) (if Close_Retryable m then retryableRemoteOwnerCloseReason else str "remote_close"))
    (Close_Retryable m).

(** What [receiveHandshakeAck] makes of the first message: the format of the owner's
    updates, a close of the owner, or an error. *)
Inductive ack_error := AckClosed (signal : remoteOwnerCloseSignal) | AckRefused (err : error).

Definition receiveHandshakeAck (req : Request) (ownerNode : bytes) (epoch : Z) (message : Message) : UpdateFormat + ack_error :=
  match message with
  | MHandshakeAck ack =>
      match Message_Validate message with
      | Some err => inr (AckRefused err)
      | None =>
          match validateRemoteOwnerHandshakeAck req ownerNode epoch ack with
          | Some err => inr (AckRefused err)
          | None => inl (ownerToEdgeFormatFromAck req ack)
          end
      end
  | MClose m =>
      match validateRemoteOwnerRouteFields req epoch (Close_DocumentKey m) (Close_ConnectionID m) (Close_Epoch m) with
      | Some err => inr (AckRefused err)
      | None => inr (AckClosed (remoteOwnerCloseSignalFromMessage m))
      end
  | _ => inr (AckRefused (refused_message "yhttp: handshake ack inicial obrigatorio, recebido %T"))
  end.

(** The requests of a session that begins; [stateVector] is that of no update. *)
Definition sendBootstrapRequests (req : Request) (epoch : Z) (format : UpdateFormat) (stateVector : bytes) : list Message :=
  [match format with
   | UpdateFormatV2 => MDocumentSyncRequestV2 (mkDocumentSyncRequestV2 0 (rq_DocumentKey req) (rq_ConnectionID req) epoch stateVector)
   | _ => MDocumentSyncRequest (mkDocumentSyncRequest 0 (rq_DocumentKey req) (rq_ConnectionID req) epoch stateVector)
   end;
   MQueryAwarenessRequest (mkQueryAwarenessRequest 0 (rq_DocumentKey req) (rq_ConnectionID req) epoch)].
