(* ===== verification/Replay.v ===== *)
(** * pkg/storage/replay.go: documents from a checkpoint and the log behind it

    Recovery loads the snapshot of a document and replays the updates logged
    behind it; compaction saves the result as the new snapshot and trims the
    log.  The functions are computations ([Effects]) over a store others use at
    the same time.  A store or base that may be nil is a flag or an option; the
    observers are left out.  Each merge takes the runs of the worker pool that
    [pool] gives for its payloads (Facade). *)
From S2P Require Import Prelude GoError StorageTypes MemoryStore Effects Facade Snapshot.
#[local] Open Scope io_scope.

Abbreviation SnapshotRecord := (@MemoryStore.SnapshotRecord (option PersistedSnapshot)).

(** ** Actions *)

(** The calls on the context and on the stores, with the optional interfaces. *)
Inductive log_op :=
| LogCtxErr
| DoListUpdates (key : DocumentKey) (after : UpdateOffset) (limit : Z)
| DoLoadSnapshot (key : DocumentKey)
| DoSaveSnapshot (key : DocumentKey) (snapshot : option PersistedSnapshot)
| DoSaveSnapshotCheckpoint (key : DocumentKey) (snapshot : option PersistedSnapshot) (through : UpdateOffset)
| DoSaveSnapshotCheckpointEpoch (key : DocumentKey) (snapshot : option PersistedSnapshot) (through : UpdateOffset) (epoch : Z)
| DoSaveSnapshotCheckpointAuthoritative (key : DocumentKey) (snapshot : option PersistedSnapshot) (through : UpdateOffset)
    (fence : AuthorityFence)
| DoTrimUpdates (key : DocumentKey) (through : UpdateOffset)
| DoTrimUpdatesAuthoritative (key : DocumentKey) (through : UpdateOffset) (fence : AuthorityFence).

Definition log_reply (a : log_op) : Type :=
  match a with
  | LogCtxErr | DoTrimUpdates _ _ | DoTrimUpdatesAuthoritative _ _ _ => option error
  | DoListUpdates _ _ _ => result (list (option UpdateLogRecord))
  | _ => result (option SnapshotRecord)
  end.

Abbreviation io := (prog log_reply).

Definition ctxErr : io (option error) := act LogCtxErr.

(** ** Records of the log *)

Definition defaultRecoverSnapshotStateLimit : Z := 512.

Definition boundedReplayLimit (limit : Z) : Z := if limit <=? 0 then defaultRecoverSnapshotStateLimit else limit.

Definition updateLogRecordV2 (record : option UpdateLogRecord) : result bytes :=
  match record with
  | None => Err storage_ErrInvalidUpdatePayload
  | Some record => match StorageTypes.UpdateV2 record with [] => ConvertUpdateToV2 (StorageTypes.UpdateV1 record) | v2 => Ok v2 end
  end.

Definition validateReplayEpochProgression (lastEpoch nextEpoch : Z) : option error :=
  if (lastEpoch =? 0) || (nextEpoch =? 0) then None
  else if nextEpoch <? lastEpoch then Some (Wrapped "%w: current=%d next=%d" storage_ErrUpdateLogEpochRegression) else None.

(** Where a replay stands in the log. *)
Record position := mkPosition { Through : UpdateOffset; LastEpoch : Z }.

(** The checks both replays make of the next record. *)
Definition check_record (key : DocumentKey) (pos : position) (record : option UpdateLogRecord) : result UpdateLogRecord :=
  match record with
  | None => Err (Wrapped "%w: record %d nil" storage_ErrInvalidUpdatePayload)
  | Some record =>
      match UpdateLogRecord_Validate record with
      | Some err => Err (Wrapped "update log record %d: %w" err)
      | None =>
          if negb (bool_decide (ul_Key record = key)) then Err (Wrapped "%w: record %d key %#v" storage_ErrUpdateLogKeyMismatch)
          else if ul_Offset record <=? Through pos then Err (Wrapped "%w: offset %d after %d" storage_ErrUpdateLogOffsetsOutOfOrder)
          else
            match validateReplayEpochProgression (LastEpoch pos) (ul_Epoch record) with
            | Some err => Err (Wrapped "update log record %d: %w" err)
            | None => Ok record
            end
      end
  end.

Definition next_position (record : UpdateLogRecord) (pos : position) : position :=
  mkPosition (ul_Offset record) (if 0 <? ul_Epoch record then ul_Epoch record else LastEpoch pos).

(** The loop of both replays: page after page behind the position, as long as there
    are records; [take] is the body on a page, [fuel] bounds the pages. *)
Fixpoint page_loop {A} (pos_of : A → position) (take : list (option UpdateLogRecord) → A → result A) (key : DocumentKey)
    (limit : Z) (fuel : nat) (acc : A) : io (result A) :=
  match fuel with
  | O => Ret (Err FuelExhausted)
  | S fuel =>
      done ← ctxErr;
      match done with
      | Some err => Ret (Err err)
      | None =>
          records <-? act (DoListUpdates key (Through (pos_of acc)) limit);
          match records with
          | [] => Ret (Ok acc)
          | _ => match take records acc with Err err => Ret (Err err) | Ok acc => page_loop pos_of take key limit fuel acc end
          end
      end
  end.

(** ** Replaying records *)

Section replay.
(** The two runs of the worker pool of a merge. *)
Variable pool : list bytes → Run * Run.

Definition merge (payloads : list bytes) : result bytes :=
  MergeUpdatesV2Context (pool payloads).1 (pool payloads).2 payloads.

(** The context is asked again before the snapshot is decoded. *)
Definition decode_snapshot (update : bytes) : io (result PersistedSnapshot) :=
  done ← ctxErr; Ret (DecodePersistedSnapshotV2Context done update).

(** The loop of [ReplaySnapshot]. *)
Fixpoint replay_payloads (updates : list (option UpdateLogRecord)) (payloads : list bytes) : io (result (list bytes)) :=
  match updates with
  | [] => Ret (Ok payloads)
  | record :: updates =>
      done ← ctxErr;
      match done, record with
      | Some err, _ => Ret (Err err)
      | None, None => Ret (Err (Wrapped "%w: record %d nil" storage_ErrInvalidUpdatePayload))
      | None, Some r =>
          match UpdateLogRecord_Validate r with
          | Some err => Ret (Err (Wrapped "update log record %d: %w" err))
          | None =>
              match updateLogRecordV2 record with
              | Err err => Ret (Err (Wrapped "update log record %d: %w" err))
              | Ok updateV2 => replay_payloads updates (payloads ++ [updateV2])
              end
          end
      end
  end.

Definition ReplaySnapshot (base : option PersistedSnapshot) (updates : list (option UpdateLogRecord)) : io (result PersistedSnapshot) :=
  match EncodePersistedSnapshotV2 base with
  | Err err => Ret (Err err)
  | Ok currentUpdate =>
      match updates with
      | [] => decode_snapshot currentUpdate
      | _ =>
          payloads <-? replay_payloads updates [currentUpdate];
          match merge payloads with Err err => Ret (Err err) | Ok merged => decode_snapshot merged end
      end
  end.

(** [Applied] counts the records; the position is [result.Through] and [result.LastEpoch]. *)
Record UpdateLogReplayResult := mkReplayResult { rep_Snapshot : PersistedSnapshot; rep_Position : position; rep_Applied : nat }.

Fixpoint replay_records (key : DocumentKey) (records : list (option UpdateLogRecord)) (updates : list bytes) (pos : position)
    (applied : nat) : result (list bytes * position * nat) :=
  match records with
  | [] => Ok (updates, pos, applied)
  | record :: records =>
      record ← check_record key pos record;
      match updateLogRecordV2 (Some record) with
      | Err err => Err (Wrapped "update log record %d: %w" err)
      | Ok updateV2 => replay_records key records (updates ++ [updateV2]) (next_position record pos) (S applied)
      end
  end.

Definition replayUpdateBatchContext (key : DocumentKey) (currentUpdate : bytes) (pos : position) (applied : nat)
    (records : list (option UpdateLogRecord)) : result (bytes * position * nat) :=
  '(updates, pos, applied) ← replay_records key records [currentUpdate] pos applied;
  currentUpdate ← merge updates;
  Ok (currentUpdate, pos, applied).

(** The update so far, the position and the number of records. *)
Definition replay_state : Type := bytes * position * nat.

Definition replay_page (key : DocumentKey) (records : list (option UpdateLogRecord)) (state : replay_state) : result replay_state :=
  replayUpdateBatchContext key state.1.1 state.1.2 state.2 records.

Definition replay_loop (fuel : nat) (key : DocumentKey) (limit : Z) (state : replay_state) : io (result replay_state) :=
  page_loop (λ state : replay_state, state.1.2) (replay_page key) key limit fuel state.

Definition replayUpdateLogContext (fuel : nat) (store : bool) (key : DocumentKey) (base : option PersistedSnapshot)
    (after : UpdateOffset) (limit : Z) (initialEpoch : Z) : io (result UpdateLogReplayResult) :=
  if negb store then Ret (Err storage_ErrNilUpdateLogStore)
  else
    require DocumentKey_Validate key;
    match EncodePersistedSnapshotV2 base with
    | Err err => Ret (Err err)
    | Ok currentUpdate =>
        replayed <-? replay_loop fuel key limit (currentUpdate, mkPosition after initialEpoch, 0%nat);
        let '(currentUpdate, pos, applied) := replayed : replay_state in
        snapshot <-? decode_snapshot currentUpdate;
        Ret (Ok (mkReplayResult snapshot pos applied))
    end.

Definition ReplayUpdateLogContext (fuel : nat) (store : bool) (key : DocumentKey) (base : option PersistedSnapshot)
    (after : UpdateOffset) (limit : Z) : io (result UpdateLogReplayResult) :=
  replayUpdateLogContext fuel store key base after limit 0.

(** ** Recovery *)

(** The records behind the position and the position after them. *)
Fixpoint tail_records (key : DocumentKey) (records : list (option UpdateLogRecord)) (tail : list UpdateLogRecord) (pos : position)
    : result (list UpdateLogRecord * position) :=
  match records with
  | [] => Ok (tail, pos)
  | record :: records =>
      record ← check_record key pos record;
      tail_records key records (tail ++ [record]) (next_position record pos)
  end.

Definition tail_state : Type := list UpdateLogRecord * position.

Definition tail_loop (fuel : nat) (key : DocumentKey) (limit : Z) (state : tail_state) : io (result tail_state) :=
  page_loop (λ state : tail_state, state.2) (λ records state, tail_records key records state.1 state.2) key limit fuel state.

Definition listReplayTailContext (fuel : nat) (store : bool) (key : DocumentKey) (after : UpdateOffset) (limit checkpointEpoch : Z)
    : io (result tail_state) :=
  if negb store then Ret (Err storage_ErrNilUpdateLogStore) else tail_loop fuel key limit ([], mkPosition after checkpointEpoch).

(** A snapshot, the offset it includes and its epoch. *)
Definition loadReplayBaseSnapshot (snapshots : bool) (key : DocumentKey) : io (result (PersistedSnapshot * UpdateOffset * Z)) :=
  if negb snapshots then Ret (Ok (NewPersistedSnapshot, 0, 0))
  else
    record ← act (DoLoadSnapshot key);
    Ret (match record : result (option SnapshotRecord) with
         | Err err => if errors_Is err storage_ErrSnapshotNotFound then Ok (NewPersistedSnapshot, 0, 0) else Err err
         | Ok None => Ok (NewPersistedSnapshot, 0, 0)
         | Ok (Some record) =>
             match sr_Snapshot record with
             | None => Ok (NewPersistedSnapshot, sr_Through record, sr_Epoch record)
             | Some snapshot => Ok (PersistedSnapshot_Clone (Some snapshot), sr_Through record, sr_Epoch record)
             end
         end).

Record RecoveryResult := mkRecovery {
  rec_Snapshot : PersistedSnapshot; rec_Updates : list UpdateLogRecord; rec_CheckpointThrough : UpdateOffset;
  rec_CheckpointEpoch : Z; rec_Last : position }.

(** A requested offset must be that of the checkpoint, when both are given. *)
Definition replay_after (checkpointThrough after : UpdateOffset) : result UpdateOffset :=
  if (0 <? checkpointThrough) && (0 <? after) && negb (after =? checkpointThrough)
  then Err (Wrapped "%w: snapshot through %d, after %d" storage_ErrSnapshotCheckpointMismatch)
  else Ok (if after <? checkpointThrough then checkpointThrough else after).

Definition RecoverSnapshot (fuel : nat) (snapshots updates : bool) (key : DocumentKey) (after : UpdateOffset) (limit : Z)
    : io (result RecoveryResult) :=
  require DocumentKey_Validate key;
  loaded <-? loadReplayBaseSnapshot snapshots key;
  let '(base, checkpointThrough, checkpointEpoch) := loaded : PersistedSnapshot * UpdateOffset * Z in
  match replay_after checkpointThrough after with
  | Err err => Ret (Err err)
  | Ok replayAfter =>
      let unchanged := mkRecovery base [] checkpointThrough checkpointEpoch (mkPosition replayAfter checkpointEpoch) in
      if negb updates then Ret (Ok unchanged)
      else
        listed <-? listReplayTailContext fuel updates key replayAfter limit checkpointEpoch;
        match (listed : tail_state) with
        | ([], _) => Ret (Ok unchanged)
        | (tail, last) =>
            snapshot <-? ReplaySnapshot (Some base) (Some <$> tail);
            Ret (Ok (mkRecovery snapshot tail checkpointThrough checkpointEpoch last))
        end
  end.

Record RecoveryStateResult := mkRecoveryState {
  rst_Snapshot : PersistedSnapshot; rst_CheckpointThrough : UpdateOffset; rst_CheckpointEpoch : Z; rst_Last : position;
  rst_Applied : nat }.

Definition RecoverSnapshotStateContext (fuel : nat) (snapshots updates : bool) (key : DocumentKey) (after : UpdateOffset) (limit : Z)
    : io (result RecoveryStateResult) :=
  require DocumentKey_Validate key;
  loaded <-? loadReplayBaseSnapshot snapshots key;
  let '(base, checkpointThrough, checkpointEpoch) := loaded : PersistedSnapshot * UpdateOffset * Z in
  match replay_after checkpointThrough after with
  | Err err => Ret (Err err)
  | Ok replayAfter =>
      if negb updates then
        Ret (Ok (mkRecoveryState base checkpointThrough checkpointEpoch (mkPosition replayAfter checkpointEpoch) 0))
      else
        replay <-? replayUpdateLogContext fuel updates key (Some base) replayAfter (boundedReplayLimit limit) checkpointEpoch;
        Ret (Ok (mkRecoveryState (rep_Snapshot replay) checkpointThrough checkpointEpoch (rep_Position replay) (rep_Applied replay)))
  end.

(** ** Compaction *)

(** The interfaces a snapshot store may implement beyond [SnapshotStore]. *)
Inductive checkpoints := NoCheckpoint | Checkpoint | CheckpointEpoch.

Definition saveSnapshotCheckpoint (support : checkpoints) (key : DocumentKey) (snapshot : PersistedSnapshot) (through : UpdateOffset)
    (epoch : Z) : io (result (option SnapshotRecord)) :=
  match support with
  | CheckpointEpoch => act (DoSaveSnapshotCheckpointEpoch key (Some snapshot) through epoch)
  | Checkpoint => act (DoSaveSnapshotCheckpoint key (Some snapshot) through)
  | NoCheckpoint => act (DoSaveSnapshot key (Some snapshot))
  end.

Record UpdateLogCompactionResult := mkCompaction {
  cmp_Snapshot : PersistedSnapshot; cmp_Record : option SnapshotRecord; cmp_Position : position; cmp_Applied : nat }.

(** The result comes with the error when the replay itself succeeded. *)
Definition CompactUpdateLogContext (fuel : nat) (store : option checkpoints) (key : DocumentKey) (base : option PersistedSnapshot)
    (after : UpdateOffset) (limit : Z) : io (option UpdateLogCompactionResult * option error) :=
  match store with
  | None => Ret (None, Some (Sentinel storage_ErrNilSnapshotLogStore))
  | Some support =>
      replayed ← ReplayUpdateLogContext fuel true key base after (boundedReplayLimit limit);
      match (replayed : result UpdateLogReplayResult) with
      | Err err => Ret (None, Some err)
      | Ok replay =>
          let result record := mkCompaction (rep_Snapshot replay) record (rep_Position replay) (rep_Applied replay) in
          if (rep_Applied replay =? 0)%nat then Ret (Some (result None), None)
          else
            saved ← saveSnapshotCheckpoint support key (rep_Snapshot replay) (Through (rep_Position replay)) (LastEpoch (rep_Position replay));
            match (saved : GoError.result (option SnapshotRecord)) with
            | Err err => Ret (Some (result None), Some (Wrapped "save compacted snapshot: %w" err))
            | Ok record =>
                trimmed ← act (DoTrimUpdates key (Through (rep_Position replay)));
                Ret (Some (result record), Wrapped "trim compacted updates through %d: %w" <$> (trimmed : option error))
            end
      end
  end.

Definition raise_epoch (epoch : Z) (pos : position) : position :=
  mkPosition (Through pos) (if LastEpoch pos <? epoch then epoch else LastEpoch pos).

Definition CompactUpdateLogAuthoritativeContext (fuel : nat) (store : bool) (key : DocumentKey) (base : option PersistedSnapshot)
    (after : UpdateOffset) (limit : Z) (fence : AuthorityFence) : io (option UpdateLogCompactionResult * option error) :=
  if negb store then Ret (None, Some (Sentinel storage_ErrNilSnapshotLogStore))
  else
    match AuthorityFence_Validate fence with
    | Some err => Ret (None, Some err)
    | None =>
        replayed ← ReplayUpdateLogContext fuel true key base after (boundedReplayLimit limit);
        match (replayed : result UpdateLogReplayResult) with
        | Err err => Ret (None, Some err)
        | Ok replay =>
            let result record pos := mkCompaction (rep_Snapshot replay) record pos (rep_Applied replay) in
            if (rep_Applied replay =? 0)%nat then Ret (Some (result None (rep_Position replay)), None)
            else
              let pos := raise_epoch (o_Epoch (af_Owner fence)) (rep_Position replay) in
              saved ← act (DoSaveSnapshotCheckpointAuthoritative key (Some (rep_Snapshot replay)) (Through pos) fence);
              match (saved : GoError.result (option SnapshotRecord)) with
              | Err err => Ret (Some (result None pos), Some (Wrapped "save compacted snapshot: %w" err))
              | Ok record =>
                  let pos := match record with Some record => raise_epoch (sr_Epoch record) pos | None => pos end in
                  trimmed ← act (DoTrimUpdatesAuthoritative key (Through pos) fence);
                  Ret (Some (result record pos), Wrapped "trim compacted updates through %d: %w" <$> (trimmed : option error))
              end
        end
    end.

End replay.

(** ** The memory store *)

Definition with_pointer (r : result (@MemoryStore.SnapshotRecord PersistedSnapshot)) : result (option SnapshotRecord) :=
  (λ r, Some (mkSnapshotRecord (sr_Key r) (Some (sr_Snapshot r)) (sr_Through r) (sr_Epoch r) (sr_StoredAt r))) <$> r.

Definition convert_update (update : bytes) : option bytes :=
  match ConvertUpdateToV2 update with Ok updateV2 => Some updateV2 | Err _ => None end.

Definition encode_persisted (snapshot : PersistedSnapshot) : result bytes := EncodePersistedSnapshotV2 (Some snapshot).

#[export] Instance memory_log : Handler log_reply Store := λ a i s,
  let ctx := i_ctxErr i in let now := i_now i in
  match a with
  | LogCtxErr => (ctx, s)
  | DoListUpdates key after limit => (list_fmap _ _ Some <$> ListUpdates ctx key after limit s, s)
  | DoLoadSnapshot key => (with_pointer (LoadSnapshot DecodePersistedSnapshotV2 ctx key s), s)
  | DoSaveSnapshot key snapshot =>
      let r := SaveSnapshot encode_persisted ctx now key snapshot s in (with_pointer r.1, r.2)
  | DoSaveSnapshotCheckpoint key snapshot through =>
      let r := SaveSnapshotCheckpoint encode_persisted ctx now key snapshot through s in (with_pointer r.1, r.2)
  | DoSaveSnapshotCheckpointEpoch key snapshot through epoch =>
      let r := SaveSnapshotCheckpointEpoch encode_persisted ctx now key snapshot through epoch s in (with_pointer r.1, r.2)
  | DoSaveSnapshotCheckpointAuthoritative key snapshot through fence =>
      let r := SaveSnapshotCheckpointAuthoritative encode_persisted ctx now key snapshot through fence s in (with_pointer r.1, r.2)
  | DoTrimUpdates key through => TrimUpdates ctx key through s
  | DoTrimUpdatesAuthoritative key through fence => TrimUpdatesAuthoritative ctx now key through fence s
  end.
