(* ===== verification/Provider.v ===== *)
(** * pkg/yprotocol/provider.go: rooms and their connections

    A provider has a room for each open document: the document in the V2 format, its
    place in the update log and the connections attached to it, all guarded by the
    mutex of the room.  Each function is a computation ([Effects]): the mutex of a
    room is taken and released by actions that hand its contents over, the sections
    under the mutex of the provider are one action each, and so are the calls on
    the store, on the resolver of fences and on the group that shares the loads of a
    room (golang.org/x/sync/singleflight).  Many calls run at the same time.

    Rooms and connections are pointers: a room is a position in the heap, a
    connection a room and a position among the connections it ever had.  The
    receivers are not nil, except where a connection is an option.  A visit of the
    connections takes the order that [order] gives.  Metrics are left out. *)
From S2P Require Import Prelude GoError GoText Binary Awareness YProtocol YStream StorageTypes MemoryStore Effects Facade WireCompat Snapshot Session Replay.
#[local] Open Scope io_scope.

(** ** Rooms *)

(** A connection always has its room and its provider. *)
Record Connection := mkConnection { cn_id : bytes; cn_clientID : Z; cn_session : Session; cn_closed : bool }.

(** [room_objects] are the connections ever attached, [room_connections] the map by
    their names. *)
Record providerRoom := mkRoom {
  room_key : DocumentKey; room_snapshot : option PersistedSnapshot; room_updateV2 : bytes; room_lastOffset : UpdateOffset;
  room_compactedAt : UpdateOffset; room_authority : option AuthorityFence; room_authorityLost : bool;
  room_connections : gmap bytes nat; room_objects : list Connection }.

Definition room_new (key : DocumentKey) (updateV2 : bytes) (lastOffset compactedAt : UpdateOffset) (authority : option AuthorityFence)
    : providerRoom := mkRoom key None updateV2 lastOffset compactedAt authority false ∅ [].

Definition no_room : providerRoom := room_new (mkDocumentKey [] []) [] 0 0 None.

Definition lose_authority (r : providerRoom) : providerRoom :=
  mkRoom (room_key r) (room_snapshot r) (room_updateV2 r) (room_lastOffset r) (room_compactedAt r) (room_authority r) true
    (room_connections r) (room_objects r).

Definition set_authority (authority : option AuthorityFence) (r : providerRoom) : providerRoom :=
  mkRoom (room_key r) (room_snapshot r) (room_updateV2 r) (room_lastOffset r) (room_compactedAt r) authority (room_authorityLost r)
    (room_connections r) (room_objects r).

Definition set_document (updateV2 : bytes) (lastOffset compactedAt : UpdateOffset) (r : providerRoom) : providerRoom :=
  mkRoom (room_key r) None updateV2 lastOffset compactedAt (room_authority r) (room_authorityLost r) (room_connections r) (room_objects r).

Definition raise_compactedAt (lastOffset : UpdateOffset) (r : providerRoom) : providerRoom :=
  if room_compactedAt r <? lastOffset then
    mkRoom (room_key r) (room_snapshot r) (room_updateV2 r) (room_lastOffset r) lastOffset (room_authority r) (room_authorityLost r)
      (room_connections r) (room_objects r)
  else r.

Definition set_connections (connections : gmap bytes nat) (objects : list Connection) (r : providerRoom) : providerRoom :=
  mkRoom (room_key r) (room_snapshot r) (room_updateV2 r) (room_lastOffset r) (room_compactedAt r) (room_authority r)
    (room_authorityLost r) connections objects.

(** A room and a position in it. *)
Record conn := mkConn { conn_room : nat; conn_index : nat }.

Definition no_connection : Connection := mkConnection [] 0 (NewSession 0) true.
Definition object (c : conn) (r : providerRoom) : Connection := default no_connection (room_objects r !! conn_index c).

Definition set_session (s : Session) (o : Connection) : Connection := mkConnection (cn_id o) (cn_clientID o) s (cn_closed o).
Definition update_session (c : conn) (s : Session) (r : providerRoom) : providerRoom :=
  set_connections (room_connections r) (alter (set_session s) (conn_index c) (room_objects r)) r.

(** ** Configuration *)

(** The interfaces the store of the provider implements beyond [SnapshotStore]. *)
Record store_interfaces := mkInterfaces {
  has_UpdateLogStore : bool; has_UpdateLogStoreV2 : bool; has_SnapshotCheckpointStore : bool;
  has_AuthoritativeUpdateLogStore : bool; has_AuthoritativeUpdateLogStoreV2 : bool;
  has_AuthoritativeSnapshotStore : bool; has_AuthoritativeSnapshotCheckpointStore : bool }.

(** [resolves]: the provider has a ResolveAuthorityFence. *)
Record Provider := mkProvider { pv_store : option store_interfaces; pv_resolves : bool }.

Definition store_has (interface : store_interfaces → bool) (p : Provider) : bool :=
  match pv_store p with Some s => interface s | None => false end.

(** [opts]; both formats are declared ones, as validateConnectionHandleOptions requires. *)
Record ConnectionHandleOptions := mkOptions { DirectSyncOutputFormat : UpdateFormat; BroadcastSyncOutputFormat : UpdateFormat }.

Record DispatchResult := mkDispatch { Direct : bytes; Broadcast : bytes }.

(** ** Actions *)

(** [background]: the call has the background context instead of the caller's. *)
Inductive provider_op :=
| Storage (background : bool) (a : log_op)
| DoAppendUpdate (key : DocumentKey) (update : bytes)
| DoAppendUpdateV2 (key : DocumentKey) (update : bytes)
| DoAppendUpdateAuthoritative (key : DocumentKey) (update : bytes) (fence : AuthorityFence)
| DoAppendUpdateV2Authoritative (key : DocumentKey) (update : bytes) (fence : AuthorityFence)
| DoSaveSnapshotAuthoritative (key : DocumentKey) (snapshot : option PersistedSnapshot) (fence : AuthorityFence)
| DoResolveAuthorityFence (key : DocumentKey)
| DoNow
| JoinLoad (name : bytes)
| FinishLoad (name : bytes) (res : result nat)
| FindRoom (key : DocumentKey)
| PublishRoom (key : DocumentKey) (room : providerRoom)
| RemoveRoom (key : DocumentKey) (room : nat)
| LockRoom (room : nat)
| UnlockRoom (room : nat) (contents : providerRoom).

Definition provider_reply (a : provider_op) : Type :=
  match a with
  | Storage _ a => log_reply a
  | DoAppendUpdate _ _ | DoAppendUpdateV2 _ _ | DoAppendUpdateAuthoritative _ _ _ | DoAppendUpdateV2Authoritative _ _ _ =>
      result (option UpdateLogRecord)
  | DoSaveSnapshotAuthoritative _ _ _ => result (option SnapshotRecord)
  | DoResolveAuthorityFence _ => result (option AuthorityFence)
  | DoNow => Z
  | JoinLoad _ => option (result nat)
  | FindRoom _ => option nat
  | PublishRoom _ _ => nat
  | LockRoom _ => providerRoom
  | FinishLoad _ _ | RemoveRoom _ _ | UnlockRoom _ _ => unit
  end.

Abbreviation io := (prog provider_reply).

(** A computation on the store alone. *)
Fixpoint on_store {A} (background : bool) (m : prog log_reply A) : io A :=
  match m with Ret x => Ret x | Act a k => Act (Storage background a) (λ r, on_store background (k r)) end.

Definition ctx_err : io (option error) := act (Storage false LogCtxErr).

Section provider.
Variable pool : list bytes → Run * Run.
(** The pages of a replay. *)
Variable fuel : nat.
Variable order : gmap bytes nat → list nat.
Variable p : Provider.

(** ** Authority *)

Definition wrapAuthorityLost (err : option error) : error :=
  match err with None => pkg_yprotocol_ErrAuthorityLost | Some _ => Wrapped "%w: %v" pkg_yprotocol_ErrAuthorityLost end.

Definition authorityFenceEqual (a b : option AuthorityFence) : bool :=
  match a, b with
  | None, None => true
  | Some a, Some b =>
      bool_decide (af_ShardID a = af_ShardID b) && bool_decide (af_Owner a = af_Owner b) && bool_decide (af_Token a = af_Token b)
  | _, _ => false
  end.

Definition resolveRoomAuthority (key : DocumentKey) : io (result (option AuthorityFence)) :=
  if negb (pv_resolves p) then Ret (Ok None)
  else if negb (store_has has_AuthoritativeSnapshotStore p) || negb (store_has has_AuthoritativeUpdateLogStore p)
  then Ret (Err pkg_yprotocol_ErrAuthorityFenceUnsupported)
  else
    fence ← act (DoResolveAuthorityFence key);
    Ret (match (fence : result (option AuthorityFence)) with
         | Err err => if errors_Is err storage_ErrAuthorityLost then Err (wrapAuthorityLost (Some err)) else Err err
         | Ok None => Err (wrapAuthorityLost (Some (Sentinel storage_ErrAuthorityLost)))
         | Ok (Some fence) => match AuthorityFence_Validate fence with Some err => Err err | None => Ok (Some fence) end
         end).

(** ** Storage *)

Definition persistedSnapshotUpdateV2 (snapshot : option PersistedSnapshot) : result bytes :=
  match snapshot with
  | Some s => match UpdateV2 s with [] => EncodePersistedSnapshotV2 snapshot | updateV2 => Ok updateV2 end
  | None => EncodePersistedSnapshotV2 snapshot
  end.

(** The snapshot, the last offset it includes and the offset of the checkpoint. *)
Definition loadSnapshot (background : bool) (key : DocumentKey) : io (result (PersistedSnapshot * UpdateOffset * UpdateOffset)) :=
  match pv_store p with
  | None => Ret (Ok (NewPersistedSnapshot, 0, 0))
  | Some s =>
      if has_UpdateLogStore s then
        recovered <-? on_store background (RecoverSnapshotStateContext pool fuel true true key 0 0);
        Ret (Ok (PersistedSnapshot_Clone (Some (rst_Snapshot recovered)), Through (rst_Last recovered), rst_CheckpointThrough recovered))
      else
        record ← act (Storage background (DoLoadSnapshot key));
        Ret (match (record : result (option SnapshotRecord)) with
             | Err err => if errors_Is err storage_ErrSnapshotNotFound then Ok (NewPersistedSnapshot, 0, 0) else Err err
             | Ok None => Ok (NewPersistedSnapshot, 0, 0)
             | Ok (Some record) =>
                 match sr_Snapshot record with
                 | None => Ok (NewPersistedSnapshot, sr_Through record, sr_Through record)
                 | Some snapshot => Ok (PersistedSnapshot_Clone (Some snapshot), sr_Through record, sr_Through record)
                 end
             end)
  end.

Definition saveSnapshot (key : DocumentKey) (snapshot : PersistedSnapshot) (through : UpdateOffset) (authority : option AuthorityFence)
    : io (result (option SnapshotRecord)) :=
  match authority with
  | None =>
      if store_has has_SnapshotCheckpointStore p then act (Storage false (DoSaveSnapshotCheckpoint key (Some snapshot) through))
      else act (Storage false (DoSaveSnapshot key (Some snapshot)))
  | Some fence =>
      if store_has has_AuthoritativeSnapshotCheckpointStore p
      then act (Storage false (DoSaveSnapshotCheckpointAuthoritative key (Some snapshot) through fence))
      else act (DoSaveSnapshotAuthoritative key (Some snapshot) fence)
  end.

Definition trimUpdates (key : DocumentKey) (through : UpdateOffset) (authority : option AuthorityFence) : io (option error) :=
  if negb (store_has has_UpdateLogStore p) then Ret None
  else
    match authority with
    | None => act (Storage false (DoTrimUpdates key through))
    | Some fence => act (Storage false (DoTrimUpdatesAuthoritative key through fence))
    end.

(** The update goes to the log as V2, or converted when the store only takes V1;
    the outer error is that of the conversion. *)
Definition append_document (key : DocumentKey) (updateV2 : bytes) (authority : option AuthorityFence)
    : io (result (result (option UpdateLogRecord))) :=
  let converted (append : bytes → provider_op) (reply : ∀ u, provider_reply (append u) → result (option UpdateLogRecord)) :=
    match ConvertUpdateToV1YjsWire updateV2 with
    | Err err => Ret (Err err)
    | Ok updateV1 => record ← act (append updateV1); Ret (Ok (reply updateV1 record))
    end in
  match authority with
  | Some fence =>
      if store_has has_AuthoritativeUpdateLogStoreV2 p
      then record ← act (DoAppendUpdateV2Authoritative key updateV2 fence); Ret (Ok record)
      else converted (λ u, DoAppendUpdateAuthoritative key u fence) (λ _ r, r)
  | None =>
      if store_has has_UpdateLogStoreV2 p
      then record ← act (DoAppendUpdateV2 key updateV2); Ret (Ok record)
      else converted (λ u, DoAppendUpdate key u) (λ _ r, r)
  end.

(** ** Loading a room *)

Definition loadRoom (key : DocumentKey) : io (result nat) :=
  authority <-? resolveRoomAuthority key;
  loaded <-? loadSnapshot false key;
  let '(snapshot, lastOffset, compactedAt) := loaded : PersistedSnapshot * UpdateOffset * UpdateOffset in
  match persistedSnapshotUpdateV2 (Some snapshot) with
  | Err err => Ret (Err err)
  | Ok updateV2 =>
      room ← act (PublishRoom key (room_new key updateV2 lastOffset compactedAt authority));
      Ret (Ok room)
  end.

Definition providerRoomLoadKey (key : DocumentKey) : bytes := Namespace key ++ [0] ++ DocumentID key.

(** What is run for all callers that ask for the room at the same time. *)
Definition load_once (key : DocumentKey) : io (result nat) :=
  found ← act (FindRoom key);
  match (found : option nat) with Some current => Ret (Ok current) | None => loadRoom key end.

(** The load is that of another caller, or this one runs it. *)
Definition ensureRoom (key : DocumentKey) : io (result nat) :=
  found ← act (FindRoom key);
  match (found : option nat) with
  | Some room => Ret (Ok room)
  | None =>
      joined ← act (JoinLoad (providerRoomLoadKey key));
      match (joined : option (result nat)) with
      | Some loaded => Ret loaded
      | None =>
          loaded ← load_once key;
          _ ← act (FinishLoad (providerRoomLoadKey key) loaded);
          Ret loaded
      end
  end.

(** ** Connections *)

(** The section of [Open] under the mutex of the room. *)
Definition attach (room : nat) (connectionID : bytes) (localClientID : Z) (r : providerRoom) : result conn * providerRoom :=
  if room_authorityLost r then (Err pkg_yprotocol_ErrAuthorityLost, r)
  else if bool_decide (is_Some (room_connections r !! connectionID)) then (Err pkg_yprotocol_ErrConnectionExists, r)
  else if existsb (λ i, let existing := object (mkConn room i) r in negb (cn_closed existing) && (cn_clientID existing =? localClientID))
            (order (room_connections r))
  then (Err pkg_yprotocol_ErrClientIDExists, r)
  else
    let index := length (room_objects r) in
    (Ok (mkConn room index),
     set_connections (<[connectionID := index]> (room_connections r))
       (room_objects r ++ [mkConnection connectionID localClientID (NewSession localClientID) false]) r).

Definition Open (key : DocumentKey) (connectionID : bytes) (localClientID : Z) : io (result conn) :=
  if is_blank connectionID then Ret (Err pkg_yprotocol_ErrInvalidConnectionID)
  else
    require DocumentKey_Validate key;
    room <-? ensureRoom key;
    r ← act (LockRoom room);
    let '(out, r) := attach room connectionID localClientID r in
    _ ← act (UnlockRoom room r);
    Ret out.

Definition AuthorityLost (c : option conn) : io bool :=
  match c with
  | None => Ret false
  | Some c => r ← act (LockRoom (conn_room c)); _ ← act (UnlockRoom (conn_room c) r); Ret (room_authorityLost r)
  end.

Definition AuthorityEpoch (c : option conn) : io Z :=
  match c with
  | None => Ret 0
  | Some c =>
      r ← act (LockRoom (conn_room c)); _ ← act (UnlockRoom (conn_room c) r);
      Ret (match room_authority r with Some fence => o_Epoch (af_Owner fence) | None => 0 end)
  end.

(** What every use of a connection checks first. *)
Definition refused (c : conn) (r : providerRoom) : option error :=
  if cn_closed (object c r) then Some (Sentinel pkg_yprotocol_ErrConnectionClosed)
  else if room_authorityLost r then Some (Sentinel pkg_yprotocol_ErrAuthorityLost) else None.

(** [room.mu.Lock(); room.authorityLost = true; room.mu.Unlock()]. *)
Definition mark_lost {A} (room : nat) (out : A) : io A :=
  r ← act (LockRoom room); _ ← act (UnlockRoom room (lose_authority r)); Ret out.

Definition RevalidateAuthority (c : option conn) : io (option error) :=
  match c with
  | None => Ret (Some (Sentinel pkg_yprotocol_ErrConnectionClosed))
  | Some c =>
      let room := conn_room c in
      r ← act (LockRoom room);
      _ ← act (UnlockRoom room r);
      match refused c r with
      | Some err => Ret (Some err)
      | None =>
          let current := room_authority r in
          if negb (pv_resolves p) || bool_decide (current = None) then Ret None
          else
            resolved ← resolveRoomAuthority (room_key r);
            match (resolved : result (option AuthorityFence)) with
            | Err err =>
                if errors_Is err pkg_yprotocol_ErrAuthorityLost || errors_Is err storage_ErrAuthorityLost
                then mark_lost room (Some (wrapAuthorityLost (Some err)))
                else Ret (Some err)
            | Ok resolved =>
                if negb (authorityFenceEqual current resolved)
                then mark_lost room (Some (wrapAuthorityLost (Some (Sentinel storage_ErrAuthorityLost))))
                else
                  r ← act (LockRoom room);
                  _ ← act (UnlockRoom room (if room_authorityLost r then r else set_authority resolved r));
                  Ret None
            end
      end
  end.

(** ** Messages *)

Definition applyDocumentPayloadLocked (key : DocumentKey) (payload : bytes) (r : providerRoom) : io (result bytes * providerRoom) :=
  if room_authorityLost r then Ret (Err pkg_yprotocol_ErrAuthorityLost, r)
  else
    done ← ctx_err;
    match (done : option error) with
    | Some err => Ret (Err err, r)
    | None =>
        match ConvertUpdateToV2YjsWire payload with
        | Err err => Ret (Err err, r)
        | Ok updateV2 =>
            done ← ctx_err;
            match (done : option error) with
            | Some err => Ret (Err err, r)
            | None =>
                appended ← (if store_has has_UpdateLogStore p then append_document key updateV2 (room_authority r) else Ret (Ok (Ok None)));
                match (appended : result (result (option UpdateLogRecord))) with
                | Err err => Ret (Err err, r)
                | Ok (Err err) =>
                    if errors_Is err storage_ErrAuthorityLost
                    then Ret (Err (wrapAuthorityLost (Some err)), lose_authority r)
                    else Ret (Err err, r)
                | Ok (Ok record) =>
                    let appendedOffset := match record with Some record => ul_Offset record | None => 0 end in
                    match merged_V2 pool [room_updateV2 r; updateV2] with
                    | Ok merged =>
                        Ret (Ok updateV2,
                             set_document merged (if 0 <? appendedOffset then appendedOffset else room_lastOffset r) (room_compactedAt r) r)
                    | Err err =>
                        if appendedOffset =? 0 then Ret (Err err, r)
                        else
                          recovered ← loadSnapshot true key;
                          match (recovered : result (PersistedSnapshot * UpdateOffset * UpdateOffset)) with
                          | Err recoverErr => Ret (Err (Wrapped "rebuild room snapshot: %w (recover: %v)" err), r)
                          | Ok (recovered, lastOffset, compactedAt) =>
                              match persistedSnapshotUpdateV2 (Some recovered) with
                              | Err updateErr => Ret (Err (Wrapped "rebuild room snapshot v2: %w" updateErr), r)
                              | Ok recoveredUpdateV2 =>
                                  let lastOffset := if lastOffset <? appendedOffset then appendedOffset else lastOffset in
                                  Ret (Ok recoveredUpdateV2, set_document recoveredUpdateV2 lastOffset compactedAt r)
                              end
                          end
                    end
                end
            end
        end
    end.

Definition client_of (o : Connection) : Update := UpdateForClients [cn_clientID o] (ses_awareness (cn_session o)).

(** The presence of each connection's own client. *)
Definition aggregateLocalAwarenessLocked (room : nat) (excludeConnectionID : bytes) (r : providerRoom) : Update :=
  concat (map (λ i, let connection := object (mkConn room i) r in
                    if bool_decide (cn_id connection = excludeConnectionID) || cn_closed connection then [] else client_of connection)
            (order (room_connections r))).

Definition room_updateV1 (r : providerRoom) : bytes := match room_snapshot r with Some s => UpdateV1 s | None => [] end.

(** [sender.session.HandleProtocolMessage(message)]. *)
Definition session_handle (sender : conn) (message : ProtocolMessage) (r : providerRoom) : io (result unit * providerRoom) :=
  now ← act DoNow;
  let '(out, s) := HandleProtocolMessage pool now (Some message) (cn_session (object sender r)) in
  Ret ((λ _, tt) <$> out, update_session sender s r).

(** The messages for the sender, the bytes for the others. *)
Definition dispatched : Type := list ProtocolMessage * bytes.

Definition handleMessageLocked (sender : conn) (message : ProtocolMessage) (opts : ConnectionHandleOptions) (r : providerRoom)
    : io (result dispatched * providerRoom) :=
  if room_authorityLost r then Ret (Err pkg_yprotocol_ErrAuthorityLost, r)
  else
    match validateProtocolMessage (Some message) with
    | Some err => Ret (Err err, r)
    | None =>
        if Protocol message =? ProtocolTypeQueryAwareness then
          Ret (Ok ([awareness_message (aggregateLocalAwarenessLocked (conn_room sender) [] r)], []), r)
        else if Protocol message =? ProtocolTypeSync then
          match pm_Sync message with
          | None => Ret (Err (Opaque "nil pointer dereference"), r)
          | Some sync =>
              if (sm_Type sync =? SyncMessageTypeStep2) || (sm_Type sync =? SyncMessageTypeUpdate) then
                applied ← applyDocumentPayloadLocked (room_key r) (sm_Payload sync) r;
                let '(out, r) := applied : result bytes * providerRoom in
                Ret (updateV2 ← out;
                     payload ← convertForSyncOutputFormat updateV2 (BroadcastSyncOutputFormat opts);
                     encoded ← EncodeProtocolEnvelope (Some (sync_message (sm_Type sync) payload));
                     Ok ([], encoded), r)
              else if negb (sm_Type sync =? SyncMessageTypeStep1)
              then Ret (Err (Wrapped "%w: %d" yprotocol_ErrUnknownSyncMessageType), r)
              else
                done ← ctx_err;
                Ret (diff ← diffForSyncOutputFormatFromUpdates done (room_updateV1 r) (room_updateV2 r) (sm_Payload sync) (DirectSyncOutputFormat opts);
                     Ok ([sync_message SyncMessageTypeStep2 diff], []), r)
          end
        else if Protocol message =? ProtocolTypeAwareness then
          handled ← session_handle sender message r;
          let '(out, r) := handled : result unit * providerRoom in
          Ret (_ ← out; encoded ← EncodeProtocolEnvelope (Some message); Ok ([], encoded), r)
        else if Protocol message =? ProtocolTypeAuth then
          handled ← session_handle sender message r;
          let '(out, r) := handled : result unit * providerRoom in
          Ret ((λ _, ([], [])) <$> out, r)
        else Ret (Err (Wrapped "%w: %d" yprotocol_ErrUnknownProtocolType), r)
    end.

(** The loop over the messages; those before a refused one have been applied. *)
Fixpoint handle_each (sender : conn) (opts : ConnectionHandleOptions) (messages : list ProtocolMessage) (acc : dispatched)
    (r : providerRoom) : io (result dispatched * providerRoom) :=
  match messages with
  | [] => Ret (Ok acc, r)
  | message :: messages =>
      done ← ctx_err;
      match (done : option error) with
      | Some err => Ret (Err err, r)
      | None =>
          handled ← handleMessageLocked sender message opts r;
          let '(out, r) := handled : result dispatched * providerRoom in
          match out with
          | Err err => Ret (Err (Wrapped "provider handle message %d: %w" err), r)
          | Ok (direct, broadcast) => handle_each sender opts messages (acc.1 ++ direct, acc.2 ++ broadcast) r
          end
      end
  end.

(** The difference is computed after the mutex of the room is released. *)
Definition handleSyncStep1Only (c : conn) (message : ProtocolMessage) (sync : SyncMessage) (opts : ConnectionHandleOptions)
    : io (result DispatchResult) :=
  require validateProtocolMessage (Some message);
  r ← act (LockRoom (conn_room c));
  _ ← act (UnlockRoom (conn_room c) r);
  require refused c r;
  done ← ctx_err;
  Ret (diff ← diffForSyncOutputFormatFromUpdates done (room_updateV1 r) (room_updateV2 r) (sm_Payload sync) (DirectSyncOutputFormat opts);
       encodedDirect ← EncodeProtocolEnvelope (Some (sync_message SyncMessageTypeStep2 diff));
       Ok (mkDispatch encodedDirect [])).

(** The only message of the stream when it asks for the document. *)
Definition step1_only (messages : list ProtocolMessage) : option (ProtocolMessage * SyncMessage) :=
  match messages with
  | [message] =>
      if Protocol message =? ProtocolTypeSync then
        match pm_Sync message with
        | Some sync => if sm_Type sync =? SyncMessageTypeStep1 then Some (message, sync) else None
        | None => None
        end
      else None
  | _ => None
  end.

Definition HandleEncodedMessagesContextWithOptions (c : option conn) (src : bytes) (opts : ConnectionHandleOptions)
    : io (result DispatchResult) :=
  match c with
  | None => Ret (Err pkg_yprotocol_ErrConnectionClosed)
  | Some c =>
      done ← ctx_err;
      require done;
      match DecodeProtocolMessages src with
      | Err err => Ret (Err err)
      | Ok messages =>
          match step1_only messages with
          | Some (message, sync) => handleSyncStep1Only c message sync opts
          | None =>
              r ← act (LockRoom (conn_room c));
              match refused c r with
              | Some err => _ ← act (UnlockRoom (conn_room c) r); Ret (Err err)
              | None =>
                  handled ← handle_each c opts messages ([], []) r;
                  let '(out, r) := handled : result dispatched * providerRoom in
                  _ ← act (UnlockRoom (conn_room c) r);
                  Ret ('(direct, broadcast) ← out;
                       encodedDirect ← EncodeProtocolEnvelopes (Some <$> direct);
                       Ok (mkDispatch encodedDirect broadcast))
              end
          end
      end
  end.

Definition HandleEncodedMessagesContext (c : option conn) (src : bytes) : io (result DispatchResult) :=
  HandleEncodedMessagesContextWithOptions c src (mkOptions UpdateFormatUnknown UpdateFormatUnknown).

(** ** Persisting *)

(** A record may come with an error: the snapshot was saved, the log not trimmed. *)
Definition Persist (c : option conn) : io (option SnapshotRecord * option error) :=
  match c with
  | None => Ret (None, Some (Sentinel pkg_yprotocol_ErrConnectionClosed))
  | Some c =>
      let room := conn_room c in
      r ← act (LockRoom room);
      _ ← act (UnlockRoom room r);
      match refused c r with
      | Some err => Ret (None, Some err)
      | None =>
          if bool_decide (pv_store p = None) then Ret (None, Some (Sentinel pkg_yprotocol_ErrPersistenceDisabled))
          else
            let key := room_key r in
            let lastOffset := room_lastOffset r in
            let shouldTrim := room_compactedAt r <? lastOffset in
            let authority := room_authority r in
            decoded ← (match room_snapshot r with
                       | Some snapshot => Ret (Ok (PersistedSnapshot_Clone (Some snapshot)))
                       | None => done ← ctx_err; Ret (DecodePersistedSnapshotV2Context done (room_updateV2 r))
                       end);
            match (decoded : result PersistedSnapshot) with
            | Err err => Ret (None, Some err)
            | Ok snapshot =>
                saved ← saveSnapshot key snapshot lastOffset authority;
                match (saved : result (option SnapshotRecord)) with
                | Err err =>
                    if errors_Is err storage_ErrAuthorityLost then mark_lost room (None, Some (wrapAuthorityLost (Some err)))
                    else Ret (None, Some err)
                | Ok record =>
                    if store_has has_UpdateLogStore p && shouldTrim then
                      trimmed ← trimUpdates key lastOffset authority;
                      match (trimmed : option error) with
                      | Some err =>
                          if errors_Is err storage_ErrAuthorityLost then mark_lost room (record, Some (wrapAuthorityLost (Some err)))
                          else Ret (record, Some (Wrapped "trim compacted updates through %d: %w" err))
                      | None =>
                          r ← act (LockRoom room);
                          _ ← act (UnlockRoom room (raise_compactedAt lastOffset r));
                          Ret (record, None)
                      end
                    else Ret (record, None)
                end
            end
      end
  end.

(** ** Closing *)

(** The presence of the connection's client is cleared. *)
Definition localAwarenessTombstone (now : Z) (o : Connection) : Update * Session :=
  let s := cn_session o in
  match Meta (cn_clientID o) (ses_awareness s) with
  | None => ([], s)
  | Some _ =>
      match SetLocalStateAt [] now (ses_awareness s) with
      | (Some _, m) => ([], set_awareness m s)
      | (None, m) => (UpdateForClients [cn_clientID o] m, set_awareness m s)
      end
  end.

Definition close_object (o : Connection) : Connection := mkConnection (cn_id o) (cn_clientID o) (cn_session o) true.

(** [c.closed = true; delete(room.connections, c.id)]. *)
Definition detach (c : conn) (r : providerRoom) : providerRoom :=
  set_connections (delete (cn_id (object c r)) (room_connections r)) (alter close_object (conn_index c) (room_objects r)) r.

Definition Connection_Close (c : option conn) : io (result DispatchResult) :=
  match c with
  | None => Ret (Err pkg_yprotocol_ErrConnectionClosed)
  | Some c =>
      let room := conn_room c in
      r ← act (LockRoom room);
      if cn_closed (object c r) then _ ← act (UnlockRoom room r); Ret (Err pkg_yprotocol_ErrConnectionClosed)
      else
        now ← act DoNow;
        let '(tombstone, s) := localAwarenessTombstone now (object c r) in
        let r := update_session c s r in
        let broadcast := match tombstone with [] => Ok [] | _ => EncodeProtocolEnvelope (Some (awareness_message tombstone)) end in
        match broadcast with
        | Err err => _ ← act (UnlockRoom room r); Ret (Err err)
        | Ok broadcast =>
            let r := detach c r in
            _ ← act (UnlockRoom room r);
            _ ← (if bool_decide (room_connections r = ∅) then act (RemoveRoom (room_key r) room) else Ret tt);
            Ret (Ok (mkDispatch [] broadcast))
        end
  end.

End provider.

(** ** The world of a provider *)

(** The rooms, the map of the provider, the mutexes that are held, what the loads
    returned, and the store.  A new room is where no pointer points. *)
Record World := mkWorld {
  w_heap : gmap nat providerRoom; w_rooms : gmap DocumentKey nat; w_locked : gset nat; w_loads : gmap bytes (list (result nat));
  w_store : Store }.

Definition World_New (s : Store) : World := mkWorld ∅ ∅ ∅ ∅ s.

Definition set_store (s : Store) (w : World) : World := mkWorld (w_heap w) (w_rooms w) (w_locked w) (w_loads w) s.

(** The services around a provider: which load in flight a caller joins, if any,
    and what the resolver of fences answers.  A caller that joins a load gets what
    a load of that name returned. *)
Class Services := {
  flight : World → bytes → option (result nat);
  resolve : instant → World → DocumentKey → result (option AuthorityFence);
  flight_shares w name res : flight w name = Some res → res ∈ default [] (w_loads w !! name) }.

Definition room_at (w : World) (room : nat) : providerRoom := default no_room (w_heap w !! room).

Definition appended (w : World) (r : result UpdateLogRecord * Store) : result (option UpdateLogRecord) * World :=
  (Some <$> r.1, set_store r.2 w).

#[export] Instance provider_handler `{Services} : Handler provider_reply World := λ a i w,
  let ctx := i_ctxErr i in
  match a with
  | Storage background a =>
      let r := answer a (if background then mkInstant None (i_now i) else i) (w_store w) in (r.1, set_store r.2 w)
  | DoAppendUpdate key update => appended w (AppendUpdate convert_update ctx (i_now i) key update (w_store w))
  | DoAppendUpdateV2 key update => appended w (AppendUpdateV2 ctx (i_now i) key update (w_store w))
  | DoAppendUpdateAuthoritative key update fence => appended w (AppendUpdateAuthoritative convert_update ctx (i_now i) key update fence (w_store w))
  | DoAppendUpdateV2Authoritative key update fence => appended w (AppendUpdateV2Authoritative ctx (i_now i) key update fence (w_store w))
  | DoSaveSnapshotAuthoritative key snapshot fence =>
      let r := SaveSnapshotAuthoritative encode_persisted ctx (i_now i) key snapshot fence (w_store w) in
      (with_pointer r.1, set_store r.2 w)
  | DoResolveAuthorityFence key => (resolve i w key, w)
  | DoNow => (i_now i, w)
  | JoinLoad name => (flight w name, w)
  | FinishLoad name res =>
      (tt, mkWorld (w_heap w) (w_rooms w) (w_locked w) (<[name := res :: default [] (w_loads w !! name)]> (w_loads w)) (w_store w))
  | FindRoom key => (w_rooms w !! key, w)
  | PublishRoom key room =>
      match w_rooms w !! key with
      | Some current => (current, w)
      | None =>
          let new := fresh (dom (w_heap w) ∪ w_locked w) in
          (new, mkWorld (<[new := room]> (w_heap w)) (<[key := new]> (w_rooms w)) (w_locked w) (w_loads w) (w_store w))
      end
  | RemoveRoom key room =>
      (tt, if bool_decide (w_rooms w !! key = Some room)
           then mkWorld (w_heap w) (delete key (w_rooms w)) (w_locked w) (w_loads w) (w_store w) else w)
  | LockRoom room => (room_at w room, mkWorld (w_heap w) (w_rooms w) ({[room]} ∪ w_locked w) (w_loads w) (w_store w))
  | UnlockRoom room contents =>
      (tt, mkWorld (<[room := contents]> (w_heap w)) (w_rooms w) (w_locked w ∖ {[room]}) (w_loads w) (w_store w))
  end.
