(* ===== verification/Server.v ===== *)
(** * pkg/yhttp: the handlers of HTTP and of sockets

    server.go, owner_aware.go, authority_revalidation.go and the peers that write
    (peers.go).  A handler is a computation ([Effects]) over the hooks of the
    configuration, the provider, the ownership runtime, sockets and streams, the
    registries of the server and the channels of a session; a goroutine that [go]
    starts is a computation of its own ([worker]).  The request of HTTP is that of
    the call, so the hooks do not name it.  A loop over frames ends with its fuel:
    a computation of the type [sess] returns nothing when it was still going on.
    Errors that are only reported, and durations, are left out. *)
From S2P Require Import Prelude GoError GoText StorageTypes NodeFrame NodeMessage ClusterTypes Effects YProtocol Facade WireCompat Session Http HttpNode Provider.
#[local] Open Scope io_scope.

(** ** Peers *)

(** A socket with its quota and format: [syncOutputFormatWrapPeer] around
    [quotaWrapPeer] around a [websocketPeer]; or a [remoteStreamPeer]. *)
Inductive room_peer :=
| SocketPeer (socket : nat) (quota : option nat) (format : UpdateFormat)
| StreamPeer (stream : nat) (key : DocumentKey) (connectionID : bytes) (epoch : Z) (format : UpdateFormat).

(** Where a client's frames go: a connection of this server ([localConnectionPeer]),
    or the owner ([remoteOwnerUpstreamPeer]). *)
Inductive target :=
| LocalTarget (session : nat) (req : Request) (c : conn) (peer : room_peer)
| RemoteTarget (stream : nat) (key : DocumentKey) (connectionID : bytes) (epoch : Z) (format : UpdateFormat).

(** Which context a call has: that of a session, of a client, of the bridge to an
    owner, or another one. *)
Inductive context := SessionCtx (session : nat) | ClientCtx (client : nat) | BridgeCtx (bridge : nat) | OtherCtx.

Record remoteOwnerSession := mkRemote { rs_stream : nat; rs_resolution : OwnerResolution; rs_epoch : Z; rs_format : UpdateFormat }.

(** What [go] starts. *)
Inductive goroutine :=
| PipeToLocal (client : nat) (req : Request) (socket : nat) (quota : option nat)
| PipeToRemote (client : nat) (req : Request) (socket : nat) (quota : option nat)
| PipeToClient (bridge : nat) (req : Request) (socket : nat) (session : remoteOwnerSession) (quota : option nat)
| Revalidate (session : nat) (req : Request) (c : conn) (closes : option nat)
| RevalidateOwner (session : nat) (c : conn)
| Unregister (session : nat) (key : DocumentKey) (connectionID : bytes).

(** An entry of the registry of revalidations; [as_closes] is the socket that is closed. *)
Record authorityRevalidationSession := mkRevalidation { as_req : Request; as_connection : conn; as_session : nat; as_closes : option nat }.

(** ** Actions *)

(** [NewSession] makes a context with the channel of its close signal, [NewClient]
    the context, the channel of errors and the switchable peer of a client,
    [NewBridge] those of a bridge.  The waits are [AwaitClient] (the client's error,
    or the end of the session), [AwaitBridge] (the client's error, or the
    owner's), [AwaitTarget] (nothing when the context ends first), [AwaitEnd]
    and [AwaitTick] (whether it was a tick). *)
Inductive server_op :=
| HandleCORSPreflight | DoResolveRequest | DoCheckOrigin (req : Request) | DoAuthenticate
| DoAuthorize (principal : option Principal) (req : Request) | DoAllow (principal : option Principal) (req : Request)
| DoOpenQuota (req : Request) | DoAllowFrame (quota : nat) (direction : QuotaDirection) (size : Z) | DoCloseQuota (quota : nat)
| DoAcquireOwnership (key : DocumentKey) | DoReleaseOwnership (handle : nat)
| DoOpen (key : DocumentKey) (connectionID : bytes) (clientID : Z) | DoHandle (ctx : context) (c : conn) (payload : bytes)
| DoAuthorityEpoch (c : conn) | DoAuthorityLost (c : conn) | DoRevalidateAuthority (c : conn) | DoPersist (c : conn) | DoClose (c : conn)
| NextConnID
| Respond (status : Z) (retryAfter : option Z) | Accept
| ReadSocket (ctx : context) (socket : nat) | WriteSocket (socket : nat) (payload : bytes)
| CloseSocket (socket : nat) (status : Z) (reason : bytes) | CloseSocketNow (socket : nat)
| ConnectionOpened (req : Request) | ConnectionClosed (req : Request)
| AddPeer (key : DocumentKey) (connectionID : bytes) (peer : room_peer) | RemovePeer (key : DocumentKey) (connectionID : bytes)
| PeersExcept (key : DocumentKey) (exclude : bytes)
| AddRevalidation (key : DocumentKey) (connectionID : bytes) (s : authorityRevalidationSession)
| RemoveRevalidation (key : DocumentKey) (connectionID : bytes) | RevalidationsOf (key : DocumentKey)
| NewSession | CancelSession (session : nat) | SignalClose (session : nat) (signal : remoteOwnerCloseSignal) | DrainSignal (session : nat)
| NewClient | CancelClient (client : nat) | SendClient (client : nat) (err : option error) | AwaitClient (client session : nat)
| SwitchTarget (client : nat) (t : option target) | AwaitTarget (client : nat)
| NewBridge | CancelBridge (bridge : nat) | SendBridge (bridge : nat) (err : option ack_error) | AwaitBridge (client bridge : nat)
| AwaitEnd (session : nat) | AwaitTick (session : nat)
| Go (g : goroutine) | Begin
| DoLookupOwner (key : DocumentKey) | Pause
| DialRemoteOwner (req : Request) (resolution : OwnerResolution)
| SendNode (stream : nat) (message : Message) | ReceiveNode (ctx : context) (stream : nat) | CloseStream (stream : nat)
| AuthenticateNode (req : RemoteOwnerAuthRequest) | CtxErr.

Definition server_reply (a : server_op) : Type :=
  match a with
  | HandleCORSPreflight | DoAuthorityLost _ | AwaitTick _ => bool
  | DoResolveRequest => result Request
  | DoAuthenticate => result Principal
  | DoCheckOrigin _ | DoAuthorize _ _ | DoAllow _ _ | DoAllowFrame _ _ _ | DoCloseQuota _ | DoReleaseOwnership _
  | DoRevalidateAuthority _ | WriteSocket _ _ | CloseSocket _ _ _ | CloseSocketNow _ | SendNode _ _ | CloseStream _ | AuthenticateNode _
  | DoPersist _ | CtxErr | Pause => option error
  | DoOpenQuota _ => result (option nat)
  | DoAcquireOwnership _ => result nat
  | DoOpen _ _ _ => result conn
  | DoHandle _ _ _ | DoClose _ => result DispatchResult
  | DoAuthorityEpoch _ | NextConnID => Z
  | Accept => result nat
  | ReadSocket _ _ => result (bool * bytes)
  | PeersExcept _ _ => list room_peer
  | RevalidationsOf _ => list authorityRevalidationSession
  | NewSession | NewClient | NewBridge => nat
  | DrainSignal _ => option remoteOwnerCloseSignal
  | AwaitClient _ _ => option (option error)
  | AwaitTarget _ => option target
  | AwaitBridge _ _ => option error + option ack_error
  | Begin => option goroutine
  | DoLookupOwner _ => result (option OwnerResolution)
  | DialRemoteOwner _ _ => result nat
  | ReceiveNode _ _ => result Message
  | _ => unit
  end.

Abbreviation sio := (prog server_reply).

(** A computation that may still be going on. *)
Abbreviation sess A := (sio (option A)).
Definition ended {A} (x : A) : sess A := Ret (Some x).
Definition sess_then {A B} (m : sess A) (k : A → sess B) : sess B :=
  x ← m; match (x : option A) with Some x => k x | None => Ret None end.
Notation "x '<~' m ; k" := (sess_then m (λ x, k)) (at level 20, m at level 100, k at level 200) : io_scope.

Definition doing (a : server_op) : sio (server_reply a) := act a.
(** A call whose result is only reported, or not looked at. *)
Definition just (a : server_op) : sio unit := _ ← doing a; Ret tt.
Definition when (b : bool) (m : sio unit) : sio unit := if b then m else Ret tt.

(** ** The configuration *)

Record Server := mkServer {
  sv_hooks : hooks; sv_corsPreflight : bool; sv_ownershipRuntime : bool; sv_bootstrapOnConnect : bool; sv_bootstrapSyncOnConnect : bool;
  sv_revalidates : bool }.

(** What the authority-loss handler of a switchable session is handed beyond the
    session: its client and the quota. *)
Record authorityLossHandoffState := mkHandoff { ho_client : nat; ho_quota : option nat }.

Definition AuthorityLossHandler : Type := Request → nat → Z → option authorityLossHandoffState → sess (option error).

(** [revalidateCh] and the context of the session are [so_session]. *)
Record serverSocketSessionOptions := mkSessionOptions {
  so_observe : bool; so_bootstrap : bool; so_bootstrapSync : bool; so_handler : option AuthorityLossHandler;
  so_ownership : option nat; so_quota : option nat }.

Definition quotaCloseReason (err : error) : bytes :=
  if errors_Is err yhttp_ErrQuotaUnavailable then str "quota indisponivel" else str "quota excedida".

Definition newConnectionID (n : Z) : bytes := str "conn-" ++ FormatUint n.

Definition set_connection_id (id : bytes) (req : Request) : Request :=
  mkRequest (rq_DocumentKey req) id (rq_ClientID req) (rq_PersistOnClose req) (rq_SyncOutputFormat req) (rq_Principal req).

Section transport.
(** The status a peer closed its socket with, and whether the text of an error says
    that the connection is closed. *)
Variable CloseStatus : error → Z.
Variable says_closed : error → bool.

Definition isIgnorableTransportError (err : error) : bool :=
  errors_Is err net_ErrClosed || errors_Is err context_Canceled || says_closed err.

Definition StatusNormalClosure : Z := 1000.
Definition isExpectedClientCloseStatus (status : Z) : bool :=
  (status =? StatusNormalClosure) || (status =? StatusGoingAway) || (status =? StatusTryAgainLater).

(** ** Peers that write *)

(** [quotaPeer.deliver] on a [websocketPeer]. *)
Definition deliver_socket (socket : nat) (quota : option nat) (payload : bytes) : sio (option error) :=
  refused ← match quota with
            | Some quota => doing (DoAllowFrame quota QuotaDirectionOutbound (Z.of_nat (length payload)))
            | None => Ret None
            end;
  match (refused : option error) with Some err => Ret (Some err) | None => doing (WriteSocket socket payload) end.

Fixpoint send_each (stream : nat) (messages : list Message) : sio (option error) :=
  match messages with
  | [] => Ret None
  | message :: messages =>
      sent ← doing (SendNode stream message);
      match (sent : option error) with Some err => Ret (Some err) | None => send_each stream messages end
  end.

Definition send_all (stream : nat) (messages : result (list Message)) : sio (option error) :=
  match messages with Err err => Ret (Some err) | Ok messages => send_each stream messages end.

Definition syncOutputFormat (peer : room_peer) : option UpdateFormat :=
  match peer with SocketPeer _ _ UpdateFormatV2 => Some UpdateFormatV2 | _ => None end.

Definition deliver (peer : room_peer) (payload : bytes) : sio (option error) :=
  match peer with
  | SocketPeer socket quota format =>
      match protocolPayloadForSyncOutputFormat payload format with
      | Err err => Ret (Some err)
      | Ok converted => deliver_socket socket quota converted
      end
  | StreamPeer stream key connectionID epoch format =>
      send_all stream (protocolPayloadToRemoteMessagesForFormat key connectionID epoch payload format)
  end.

Definition deliverPrepared (peer : room_peer) (payload : bytes) : sio (option error) :=
  match peer with SocketPeer socket quota _ => deliver_socket socket quota payload | StreamPeer _ _ _ _ _ => deliver peer payload end.

Definition close_peer (peer : room_peer) (reason : bytes) : sio unit :=
  match peer with SocketPeer socket _ _ => just (CloseSocket socket StatusGoingAway reason) | StreamPeer stream _ _ _ _ => just (CloseStream stream) end.

(** ** Broadcasts *)

(** The payload of V2 peers, when there is one. *)
Record broadcastPayloads := mkPayloads { bp_v1 : bytes; bp_v2 : result bytes }.

Definition wants_V2 (peer : room_peer) : bool := bool_decide (syncOutputFormat peer = Some UpdateFormatV2).

Definition prepare (payload : bytes) (peers : list room_peer) : broadcastPayloads :=
  mkPayloads payload (if existsb wants_V2 peers then protocolPayloadForSyncOutputFormat payload UpdateFormatV2 else Ok []).

Definition payloadFor (p : broadcastPayloads) (peer : room_peer) : result bytes := if wants_V2 peer then bp_v2 p else Ok (bp_v1 p).

Definition writeBroadcastPeer (peer : room_peer) (p : broadcastPayloads) : sio (option error) :=
  match payloadFor p peer with
  | Err err => Ret (Some err)
  | Ok payload => if wants_V2 peer then deliverPrepared peer payload else deliver peer payload
  end.

(** One peer after the other; the workers only do it side by side. *)
Fixpoint writeBroadcastPeers (peers : list room_peer) (p : broadcastPayloads) : sio (list (option error)) :=
  match peers with
  | [] => Ret []
  | peer :: peers =>
      out ← writeBroadcastPeer peer p;
      rest ← writeBroadcastPeers peers p;
      Ret (out :: rest)
  end.

Definition broadcast_failed : bytes := str "falha ao entregar broadcast local".

Fixpoint close_failed (peers : list room_peer) (results : list (option error)) : sio unit :=
  match peers, results with
  | peer :: peers, out :: results =>
      _ ← when (bool_decide (is_Some (out : option error))) (close_peer peer broadcast_failed);
      close_failed peers results
  | _, _ => Ret tt
  end.

Definition fanout (req : Request) (payload : bytes) : sio unit :=
  peers ← doing (PeersExcept (rq_DocumentKey req) (rq_ConnectionID req));
  match (peers : list room_peer) with
  | [] => Ret tt
  | peers => results ← writeBroadcastPeers peers (prepare payload peers); close_failed peers results
  end.

Definition broadcast (req : Request) (payload : bytes) : sio unit := match payload with [] => Ret tt | _ => fanout req payload end.

(** A direct answer, if there is one. *)
Definition writeBinary (peer : room_peer) (payload : bytes) : sio (option error) := match payload with [] => Ret None | _ => deliver peer payload end.

(** ** The switchable peer *)

(** The result of a client's frame for the connection: [localConnectionPeer.deliver]. *)
Definition deliver_local (ctx : context) (session : nat) (req : Request) (c : conn) (peer : room_peer) (payload : bytes) : sio (option error) :=
  handled ← doing (DoHandle ctx c payload);
  match (handled : result DispatchResult) with
  | Err err =>
      _ ← when (isAuthorityLostRetryableError err)
            (_ ← just (SignalClose session (remoteOwnerCloseSignalFromError err (str "handle"))); just (CancelSession session));
      Ret (Some err)
  | Ok out =>
      written ← writeBinary peer (Direct out);
      match (written : option error) with
      | Some err => Ret (Some err)
      | None => _ ← broadcast req (Broadcast out); Ret None
      end
  end.

Definition deliver_target (client : nat) (payload : bytes) : sio (option error) :=
  t ← doing (AwaitTarget client);
  match (t : option target) with
  | None => err ← doing CtxErr; Ret err
  | Some (LocalTarget session req c peer) => deliver_local (ClientCtx client) session req c peer payload
  | Some (RemoteTarget stream key connectionID epoch format) =>
      send_all stream (protocolPayloadToOwnerMessagesForFormat key connectionID epoch payload format)
  end.

(** ** Quotas and ownership *)

Section server.
Variable s : Server.

Definition openQuota (req : Request) : sio (result (option nat)) :=
  if has_quotaLimiter (sv_hooks s) then doing (DoOpenQuota req) else Ret (Ok None).

Definition closeQuota (quota : option nat) : sio unit := match quota with Some quota => just (DoCloseQuota quota) | None => Ret tt end.

Definition allowQuotaFrame (quota : option nat) (direction : QuotaDirection) (size : Z) : sio (option error) :=
  match quota with Some quota => doing (DoAllowFrame quota direction size) | None => Ret None end.

Definition acquireRequestOwnership (req : Request) : sio (result (option nat)) :=
  if sv_ownershipRuntime s then
    handle ← doing (DoAcquireOwnership (rq_DocumentKey req)); Ret (Some <$> (handle : result nat))
  else Ret (Ok None).

Definition releaseRequestOwnership (ownership : option nat) : sio unit :=
  match ownership with Some handle => just (DoReleaseOwnership handle) | None => Ret tt end.

(** The peer is removed, the document saved when the request asks for it, the
    connection closed, the ownership released. *)
Definition cleanupConnectionWithOwnership (req : Request) (c : conn) (ownership : option nat) : sio unit :=
  _ ← just (RemovePeer (rq_DocumentKey req) (rq_ConnectionID req));
  _ ← when (rq_PersistOnClose req) (lost ← doing (DoAuthorityLost c); when (negb lost) (just (DoPersist c)));
  closed ← doing (DoClose c);
  _ ← match (closed : result DispatchResult) with Ok out => broadcast req (Broadcast out) | Err _ => Ret tt end;
  releaseRequestOwnership ownership.

(** ** Revalidation of authority *)

(** [closes] is the socket that [onAuthorityLoss] closes. *)
Definition revalidateAuthoritySession (session : nat) (c : conn) (closes : option nat) : sio (option error) :=
  err ← doing (DoRevalidateAuthority c);
  match (err : option error) with
  | None => Ret None
  | Some err =>
      if errors_Is err pkg_yprotocol_ErrConnectionClosed then Ret (Some err)
      else if isAuthorityLostRetryableError err then
        let signal := remoteOwnerCloseSignalFromError err (str "revalidate_authority") in
        _ ← just (SignalClose session signal);
        _ ← match closes with
            | Some socket => just (CloseSocket socket (websocketStatus signal) (metricReason signal authorityLostCloseReason))
            | None => Ret tt
            end;
        _ ← just (CancelSession session);
        Ret (Some err)
      else Ret (Some err)
  end.

Fixpoint revalidator_loop (ticks : nat) (session : nat) (c : conn) (closes : option nat) : sess unit :=
  match ticks with
  | O => Ret None
  | S ticks =>
      tick ← doing (AwaitTick session);
      if negb tick then ended tt
      else
        err ← revalidateAuthoritySession session c closes;
        match (err : option error) with
        | None => revalidator_loop ticks session c closes
        | Some err =>
            if errors_Is err pkg_yprotocol_ErrConnectionClosed then revalidator_loop ticks session c closes
            else if isAuthorityLostRetryableError err then ended tt
            else revalidator_loop ticks session c closes
        end
  end.

(** The goroutine with the ticker. *)
Definition revalidator (ticks : nat) (session : nat) (req : Request) (c : conn) (closes : option nat) : sess unit :=
  _ <~ revalidator_loop ticks session c closes;
  _ ← just (RemoveRevalidation (rq_DocumentKey req) (rq_ConnectionID req));
  ended tt.

(** [context.AfterFunc] *)
Definition unregister (session : nat) (key : DocumentKey) (connectionID : bytes) : sess unit :=
  _ ← just (AwaitEnd session); _ ← just (RemoveRevalidation key connectionID); ended tt.

Definition startAuthorityRevalidator (session : nat) (req : Request) (c : conn) (closes : option nat) : sio unit :=
  _ ← just (AddRevalidation (rq_DocumentKey req) (rq_ConnectionID req) (mkRevalidation req c session closes));
  if sv_revalidates s then just (Go (Revalidate session req c closes))
  else just (Go (Unregister session (rq_DocumentKey req) (rq_ConnectionID req))).

Record AuthorityRevalidationResult := mkRevalidated { ar_Checked : Z; ar_AuthorityLost : Z }.

Fixpoint revalidate_each (sessions : list authorityRevalidationSession) (out : AuthorityRevalidationResult) (errs : list error)
    : sio (AuthorityRevalidationResult * list error) :=
  match sessions with
  | [] => Ret (out, errs)
  | session :: sessions =>
      cancelled ← doing CtxErr;
      match (cancelled : option error) with
      | Some err => Ret (out, errs ++ [err])
      | None =>
          let out := mkRevalidated (ar_Checked out + 1) (ar_AuthorityLost out) in
          err ← revalidateAuthoritySession (as_session session) (as_connection session) (as_closes session);
          match (err : option error) with
          | None => revalidate_each sessions out errs
          | Some err =>
              if errors_Is err pkg_yprotocol_ErrConnectionClosed then revalidate_each sessions out errs
              else if isAuthorityLostRetryableError err
              then revalidate_each sessions (mkRevalidated (ar_Checked out) (ar_AuthorityLost out + 1)) errs
              else revalidate_each sessions out (errs ++ [err])
          end
      end
  end.

Definition RevalidateDocumentAuthority (key : DocumentKey) : sio (result (AuthorityRevalidationResult * list error)) :=
  match DocumentKey_Validate key with
  | Some err => Ret (Err err)
  | None =>
      sessions ← doing (RevalidationsOf key);
      out ← revalidate_each sessions (mkRevalidated 0 0) [];
      Ret (Ok out)
  end.

(** ** Sessions *)

Definition authority_lost : remoteOwnerCloseSignal := mkSignal authorityLostCloseReason true.

Definition close_with (socket : nat) (signal : remoteOwnerCloseSignal) : sio unit :=
  just (CloseSocket socket (websocketStatus signal) (metricReason signal authorityLostCloseReason)).

Definition handleAuthorityLoss (req : Request) (socket : nat) (previousEpoch : Z) (handler : option AuthorityLossHandler)
    (handoff : option authorityLossHandoffState) (signal : remoteOwnerCloseSignal) : sess unit :=
  match handler with
  | None => _ ← close_with socket signal; ended tt
  | Some handler =>
      err <~ handler req socket previousEpoch handoff;
      match (err : option error) with
      | None => ended tt
      | Some _ => _ ← close_with socket signal; ended tt
      end
  end.

Definition bootstrapConnectionPayload (req : Request) (c : conn) (peer : room_peer) (payload : bytes) : sio (option error) :=
  handled ← doing (DoHandle OtherCtx c payload);
  match (handled : result DispatchResult) with
  | Err err => Ret (Some err)
  | Ok out =>
      written ← writeBinary peer (Direct out);
      match (written : option error) with
      | Some err => Ret (Some err)
      | None => _ ← broadcast req (Broadcast out); Ret None
      end
  end.

Definition bootstrapConnection (req : Request) (c : conn) (peer : room_peer) (includeSync : bool) : sio (option error) :=
  synced ← (if includeSync then bootstrapConnectionPayload req c peer (EncodeProtocolSyncStep1 [0]) else Ret None);
  match (synced : option error) with
  | Some err => Ret (Some err)
  | None => bootstrapConnectionPayload req c peer EncodeProtocolQueryAwareness
  end.

Definition socketPeer (socket : nat) (req : Request) (quota : option nat) : room_peer := SocketPeer socket quota (rq_SyncOutputFormat req).

Definition unsupported_data : bytes := str "yjs-crdt-golang-server aceita apenas frames binarios".
Definition invalid_payload : bytes := str "payload do y-protocol invalido".
Definition bootstrap_failed : bytes := str "falha ao assumir owner local".

(** The end of a session whose socket has been closed, or is closed now. *)
Definition leave (req : Request) (c : conn) (socket : nat) (ownership : option nat) : sess unit :=
  _ ← cleanupConnectionWithOwnership req c ownership; _ ← just (CloseSocketNow socket); ended tt.

(** A session that ends because its authority is lost. *)
Definition leave_lost (req : Request) (c : conn) (socket : nat) (ownership : option nat) (handler : option AuthorityLossHandler)
    (signal : remoteOwnerCloseSignal) : sess unit :=
  _ ← cleanupConnectionWithOwnership req c ownership;
  epoch ← doing (DoAuthorityEpoch c);
  handleAuthorityLoss req socket epoch handler None signal.

(** The loop of [serveConnectedSocket]. *)
Fixpoint serve_frames (frames : nat) (session : nat) (req : Request) (c : conn) (socket : nat) (peer : room_peer)
    (options : serverSocketSessionOptions) {struct frames} : sess unit :=
  match frames with
  | O => Ret None
  | S frames =>
      let leave := leave req c socket (so_ownership options) in
      frame ← doing (ReadSocket (SessionCtx session) socket);
      match (frame : result (bool * bytes)) with
      | Err err =>
          signal ← doing (DrainSignal session);
          match (signal : option remoteOwnerCloseSignal) with
          | Some signal => leave_lost req c socket (so_ownership options) (so_handler options) signal
          | None => leave
          end
      | Ok (binary, payload) =>
          if negb binary then _ ← just (CloseSocket socket StatusUnsupportedData unsupported_data); leave
          else
            refused ← allowQuotaFrame (so_quota options) QuotaDirectionInbound (Z.of_nat (length payload));
            match (refused : option error) with
            | Some err => _ ← just (CloseSocket socket (quotaCloseStatus err) (quotaCloseReason err)); leave
            | None =>
                handled ← doing (DoHandle (SessionCtx session) c payload);
                match (handled : result DispatchResult) with
                | Err err =>
                    if isAuthorityLostRetryableError err
                    then leave_lost req c socket (so_ownership options) (so_handler options) (remoteOwnerCloseSignalFromError err (str "handle"))
                    else
                      let '(status, reason) := websocketCloseFromRuntimeError err StatusPolicyViolation invalid_payload in
                      _ ← just (CloseSocket socket status reason); leave
                | Ok out =>
                    written ← writeBinary peer (Direct out);
                    match (written : option error) with
                    | Some _ => leave
                    | None => _ ← broadcast req (Broadcast out); serve_frames frames session req c socket peer options
                    end
                end
            end
      end
  end.

(** What both kinds of sessions do when the bootstrap fails. *)
Definition bootstrap_refused (req : Request) (c : conn) (socket : nat) (options : serverSocketSessionOptions) (err : error) (rest : sess unit)
    : sess unit :=
  if isAuthorityLostRetryableError err then leave_lost req c socket (so_ownership options) (so_handler options) authority_lost
  else
    let '(status, reason) := websocketCloseFromRuntimeError err StatusGoingAway bootstrap_failed in
    _ ← just (CloseSocket socket status reason);
    _ ← cleanupConnectionWithOwnership req c (so_ownership options);
    rest.

(** The deferred calls behind a session. *)
Definition session_over (observe : bool) (req : Request) (session : nat) : sess unit :=
  _ ← doing (DrainSignal session);
  _ ← when observe (just (ConnectionClosed req));
  _ ← just (CancelSession session);
  ended tt.

Definition serve_plain (frames : nat) (req : Request) (c : conn) (socket : nat) (options : serverSocketSessionOptions) : sess unit :=
  session ← doing NewSession;
  _ ← when (so_observe options) (just (ConnectionOpened req));
  let peer := socketPeer socket req (so_quota options) in
  _ ← just (AddPeer (rq_DocumentKey req) (rq_ConnectionID req) peer);
  _ ← startAuthorityRevalidator session req c (Some socket);
  failed ← (if so_bootstrap options then bootstrapConnection req c peer (so_bootstrapSync options) else Ret None);
  _ <~ match (failed : option error) with
       | Some err => bootstrap_refused req c socket options err (_ ← just (CloseSocketNow socket); ended tt)
       | None => serve_frames frames session req c socket peer options
       end;
  session_over (so_observe options) req session.

(** The loop over the frames of a client whose destination may change. *)
Fixpoint pipe_client (frames : nat) (quota_check : option nat → bytes → sio (option error)) (deliver : bytes → sio (option error))
    (ignorable : error → bool) (client : nat) (socket : nat) (quota : option nat) {struct frames} : sess (option error) :=
  match frames with
  | O => Ret None
  | S frames =>
      frame ← doing (ReadSocket (ClientCtx client) socket);
      match (frame : result (bool * bytes)) with
      | Err err =>
          ended (if negb (isExpectedClientCloseStatus (CloseStatus err)) && negb (isIgnorableTransportError err) then Some err else None)
      | Ok (binary, payload) =>
          if negb binary then _ ← just (CloseSocket socket StatusUnsupportedData unsupported_data); ended None
          else
            refused ← quota_check quota payload;
            match (refused : option error) with
            | Some err => _ ← just (CloseSocket socket (quotaCloseStatus err) (quotaCloseReason err)); ended (Some err)
            | None =>
                out ← deliver payload;
                match (out : option error) with
                | Some err => ended (if ignorable err then None else Some err)
                | None => pipe_client frames quota_check deliver ignorable client socket quota
                end
            end
      end
  end.

Definition quota_inbound (quota : option nat) (payload : bytes) : sio (option error) :=
  allowQuotaFrame quota QuotaDirectionInbound (Z.of_nat (length payload)).

Definition pipeClientToLocal (frames : nat) (client : nat) (req : Request) (socket : nat) (quota : option nat) : sess (option error) :=
  pipe_client frames quota_inbound (deliver_target client) isIgnorableTransportError client socket quota.

(** The last part of [serveSwitchableConnectedSocket]: one of the two channels ends it. *)
Definition serve_switchable_end (client session : nat) (req : Request) (c : conn) (socket : nat) (options : serverSocketSessionOptions) : sess unit :=
  woken ← doing (AwaitClient client session);
  signal ← doing (DrainSignal session);
  match (signal : option remoteOwnerCloseSignal) with
  | Some signal =>
      previousEpoch ← doing (DoAuthorityEpoch c);
      _ ← just (SwitchTarget client None);
      _ ← cleanupConnectionWithOwnership req c (so_ownership options);
      handleAuthorityLoss req socket previousEpoch (so_handler options) (Some (mkHandoff client (so_quota options))) signal
  | None =>
      _ ← cleanupConnectionWithOwnership req c (so_ownership options);
      _ ← when (bool_decide ((woken : option (option error)) = None)) (just (CancelClient client));
      _ ← just (CloseSocketNow socket);
      ended tt
  end.

Definition serveSwitchableConnectedSocket (req : Request) (c : conn) (socket : nat) (options : serverSocketSessionOptions) : sess unit :=
  session ← doing NewSession;
  _ ← when (so_observe options) (just (ConnectionOpened req));
  let peer := socketPeer socket req (so_quota options) in
  _ ← just (AddPeer (rq_DocumentKey req) (rq_ConnectionID req) peer);
  _ ← startAuthorityRevalidator session req c None;
  failed ← (if so_bootstrap options then bootstrapConnection req c peer (so_bootstrapSync options) else Ret None);
  _ <~ match (failed : option error) with
       | Some err => bootstrap_refused req c socket options err (ended tt)
       | None =>
           client ← doing NewClient;
           _ ← just (SwitchTarget client (Some (LocalTarget session req c peer)));
           _ ← just (Go (PipeToLocal client req socket (so_quota options)));
           _ <~ serve_switchable_end client session req c socket options;
           _ ← just (CancelClient client);
           ended tt
       end;
  session_over (so_observe options) req session.

Definition serveConnectedSocket (frames : nat) (req : Request) (c : conn) (socket : nat) (options : serverSocketSessionOptions) : sess unit :=
  _ <~ match so_handler options with
       | Some _ => serveSwitchableConnectedSocket req c socket options
       | None => serve_plain frames req c socket options
       end;
  _ ← closeQuota (so_quota options);
  ended tt.

(** ** Requests *)

Definition respond (status : Z) : sess unit := _ ← just (Respond status (if status =? 503 then Some 1 else None)); ended tt.
Definition respond_auth (err : error) : sess unit := _ ← just (Respond (statusFromAuthError err) None); ended tt.

Definition serveResolvedHTTPWithOptions (frames : nat) (req : Request) (observe bootstrap bootstrapSync : bool)
    (handler : option AuthorityLossHandler) : sess unit :=
  match DocumentKey_Validate (rq_DocumentKey req) with
  | Some _ => _ ← just (Respond 400 None); ended tt
  | None =>
      req ← (if is_blank (rq_ConnectionID req) then n ← doing NextConnID; Ret (set_connection_id (newConnectionID n) req) else Ret req);
      quota ← openQuota req;
      match (quota : result (option nat)) with
      | Err err => respond_auth err
      | Ok quota =>
          ownership ← acquireRequestOwnership req;
          match (ownership : result (option nat)) with
          | Err err => _ ← closeQuota quota; respond (statusFromOwnershipError err)
          | Ok ownership =>
              opened ← doing (DoOpen (rq_DocumentKey req) (rq_ConnectionID req) (rq_ClientID req));
              match (opened : result conn) with
              | Err err => _ ← closeQuota quota; _ ← releaseRequestOwnership ownership; respond (statusFromOpenError err)
              | Ok c =>
                  accepted ← doing Accept;
                  match (accepted : result nat) with
                  | Err _ =>
                      _ ← just (DoClose c); _ ← releaseRequestOwnership ownership; _ ← closeQuota quota; ended tt
                  | Ok socket =>
                      serveConnectedSocket frames req c socket (mkSessionOptions observe bootstrap bootstrapSync handler ownership quota)
                  end
              end
          end
      end
  end.

Definition authenticateAndAuthorize (req : Request) : sio (result Request) :=
  authenticated ← (if has_authenticator (sv_hooks s) then
                     principal ← doing DoAuthenticate; Ret ((λ p, (Some p, set_principal (Some p) req)) <$> (principal : result Principal))
                   else Ret (Ok (None, req)));
  match (authenticated : result (option Principal * Request)) with
  | Err err => Ret (Err err)
  | Ok (principal, req) =>
      denied ← (if has_authorizer (sv_hooks s) then doing (DoAuthorize principal req) else Ret None);
      match (denied : option error) with
      | Some err => Ret (Err err)
      | None =>
          limited ← (if has_rateLimiter (sv_hooks s) then doing (DoAllow principal req) else Ret None);
          Ret (match (limited : option error) with Some err => Err err | None => Ok req end)
      end
  end.

Definition checkOrigin (req : Request) : sio (option error) :=
  if has_originPolicy (sv_hooks s) then doing (DoCheckOrigin req) else Ret None.

(** What every request passes before it is served; [get] is whether its method is GET. *)
Definition pass_guards (get : bool) (k : Request → sess unit) : sess unit :=
  preflight ← (if sv_corsPreflight s then doing HandleCORSPreflight else Ret false);
  if (preflight : bool) then ended tt
  else if negb get then _ ← just (Respond 405 None); ended tt
  else
    resolved ← doing DoResolveRequest;
    match (resolved : result Request) with
    | Err _ => _ ← just (Respond 400 None); ended tt
    | Ok req =>
        denied ← checkOrigin req;
        match (denied : option error) with
        | Some err => respond_auth err
        | None =>
            admitted ← authenticateAndAuthorize req;
            match (admitted : result Request) with Err err => respond_auth err | Ok req => k req end
        end
    end.

Definition serveLocal (frames : nat) (handler : option AuthorityLossHandler) (req : Request) : sess unit :=
  serveResolvedHTTPWithOptions frames req true (sv_bootstrapOnConnect s) (sv_bootstrapSyncOnConnect s) handler.

Definition Server_ServeHTTP (frames : nat) (get : bool) : sess unit := pass_guards get (serveLocal frames None).

(** ** OwnerAwareServer *)

Record OwnerAwareServer := mkOwnerAware {
  oa_promoteLocal : bool; oa_onRemoteOwner : option (Request → OwnerResolution → sess bool);
  oa_onLocalAuthorityLost : option AuthorityLossHandler; oa_retryAfter : Z }.

Definition OwnerAwareServer_ServeHTTP (o : OwnerAwareServer) (frames : nat) (get : bool) : sess unit :=
  pass_guards get (λ req,
    lookup ← doing (DoLookupOwner (rq_DocumentKey req));
    match route_request (oa_promoteLocal o) (sv_ownershipRuntime s) lookup with
    | RouteLocal | RouteLocalPromote => serveLocal frames (oa_onLocalAuthorityLost o) req
    | RouteError status =>
        _ ← just (Respond status (if status =? 503 then setRetryAfterHeader (oa_retryAfter o) else None)); ended tt
    | RouteRemote resolution =>
        req ← (if is_blank (rq_ConnectionID req) then n ← doing NextConnID; Ret (set_connection_id (newConnectionID n) req) else Ret req);
        handled <~ match oa_onRemoteOwner o with Some handler => handler req resolution | None => ended false end;
        if (handled : bool) then ended tt else _ ← just (Respond 409 (setRetryAfterHeader (oa_retryAfter o))); ended tt
    end).

End server.
End transport.
