(* ===== verification/Forward.v ===== *)
(** * pkg/yhttp: sessions between nodes

    remote_owner_forward.go: an edge forwards the frames of its client to the owner of
    the document, follows the owner when it changes, and takes the document over
    when it becomes the owner.  remote_owner_endpoint.go: the owner serves the
    stream of an edge.  As in [Server], with [worker] for every goroutine, and the
    state that calls share ([World]): the registries, the channels, the goroutines
    that were started.  Timeouts are contexts that end. *)
From S2P Require Import Prelude GoError GoText StorageTypes NodeFrame NodeMessage ClusterTypes Effects Aggregate YProtocol StateVector Facade WireCompat Session Http HttpNode Provider Server.
#[local] Open Scope io_scope.

(** ** Helpers *)

Definition headerContainsToken (values : list bytes) (want : bytes) : bool :=
  existsb (λ value, existsb (λ token, equal_fold (TrimSpace token) want) (Split value 44)) values.

Definition isWebSocketUpgrade (h : Header) : bool :=
  headerContainsToken (default [] (h !! str "Connection")) (str "upgrade") && equal_fold (TrimSpace (header_get h (str "Upgrade"))) (str "websocket").

Definition isIgnorableRemoteOwnerStreamError (err : error) : bool := errors_Is err context_Canceled || errors_Is err io_EOF.
Definition isIgnorableNodeStreamError (err : error) : bool := isIgnorableRemoteOwnerStreamError err || errors_Is err context_Canceled.

Definition statusFromRemoteOwnerOpenError (err : ack_error) : Z :=
  match err with AckClosed signal => if cs_retryable signal then 503 else 502 | AckRefused _ => 502 end.

(** A remoteOwnerClosedError among other errors. *)
Definition ack_err (err : ack_error) : error :=
  match err with AckClosed _ => Opaque "yhttp: owner remoto encerrou a conexao (%s)" | AckRefused err => err end.

Definition client_closed : bytes := str "client_closed".
Definition bridge_error : bytes := str "bridge_error".

(** [local] is the server of the node, if the forwarder has one. *)
Record remoteOwnerForwarder := mkForwarder { fw_localNodeID : bytes; fw_local : option Server; fw_ownerLookup : bool }.

(** [dialer]: the configuration has one. *)
Definition newRemoteOwnerForwarder (dialer : bool) (localNodeID : bytes) (local : option Server) (ownerLookup : bool) : result remoteOwnerForwarder :=
  if negb dialer then Err yhttp_ErrNilRemoteOwnerDialer
  else match NodeID_Valid localNodeID with Some err => Err err | None => Ok (mkForwarder localNodeID local ownerLookup) end.

Section forward.
Variable CloseStatus : error → Z.
Variable says_closed : error → bool.
Variable pool : list bytes → Run * Run.

Section forwarder.
Variable f : remoteOwnerForwarder.

Definition f_openQuota (req : Request) : sio (result (option nat)) :=
  match fw_local f with Some s => openQuota s req | None => Ret (Ok None) end.
Definition f_closeQuota (quota : option nat) : sio unit := match fw_local f with Some _ => closeQuota quota | None => Ret tt end.
Definition f_allowQuotaFrame (quota : option nat) (direction : QuotaDirection) (size : Z) : sio (option error) :=
  match fw_local f with Some _ => allowQuotaFrame quota direction size | None => Ret None end.

(** ** Streams *)

Definition closeStream (stream : nat) : sio unit := just (CloseStream stream).

Definition sendDisconnect (req : Request) (stream : nat) (epoch : Z) : sio unit :=
  if (epoch =? 0) || bool_decide (DocumentID (rq_DocumentKey req) = []) || is_blank (rq_ConnectionID req) then Ret tt
  else just (SendNode stream (MDisconnect (mkDisconnect 0 (rq_DocumentKey req) (rq_ConnectionID req) epoch))).

Definition closeRemoteOwnerSession (req : Request) (session : option remoteOwnerSession) (disconnect : bool) : sio unit :=
  match session with
  | None => Ret tt
  | Some session =>
      _ ← when disconnect (sendDisconnect req (rs_stream session) (rs_epoch session));
      closeStream (rs_stream session)
  end.

Definition handshake_with (req : Request) (resolution : OwnerResolution) (stream : nat) (epoch : Z) : sio (UpdateFormat + ack_error) :=
  sent ← doing (SendNode stream (MHandshake (sendHandshake (fw_localNodeID f) req epoch)));
  match (sent : option error) with
  | Some err => Ret (inr (AckRefused err))
  | None =>
      received ← doing (ReceiveNode OtherCtx stream);
      Ret (match (received : result Message) with
           | Err err => inr (AckRefused err)
           | Ok message => receiveHandshakeAck req (p_NodeID (r_Placement resolution)) epoch message
           end)
  end.

Definition openRemoteOwnerSession (req : Request) (resolution : OwnerResolution) (epoch : Z) (bootstrap : bool)
    : sio (remoteOwnerSession + ack_error) :=
  dialed ← doing (DialRemoteOwner req resolution);
  match (dialed : result nat) with
  | Err err => Ret (inr (AckRefused err))
  | Ok stream =>
      agreed ← handshake_with req resolution stream epoch;
      match (agreed : UpdateFormat + ack_error) with
      | inr err => _ ← closeStream stream; Ret (inr err)
      | inl format =>
          let session := mkRemote stream resolution epoch format in
          if negb bootstrap then Ret (inl session)
          else
            sent ← match state_vector_of pool [] with
                   | Err err => Ret (Some err)
                   | Ok stateVector => send_each stream (sendBootstrapRequests req epoch format stateVector)
                   end;
            match (sent : option error) with
            | Some err => _ ← closeRemoteOwnerSession req (Some session) false; Ret (inr (AckRefused err))
            | None => Ret (inl session)
            end
      end
  end.

(** ** Following the owner *)

Definition lookupNextRemoteOwner (req : Request) (previousEpoch : Z) (allowLocal : bool) : sio (result OwnerResolution) :=
  found ← doing (DoLookupOwner (rq_DocumentKey req));
  Ret (match (found : result (option OwnerResolution)) with
       | Err err => Err err
       | Ok None => Err ycluster_ErrOwnerNotFound
       | Ok (Some resolution) =>
           let currentEpoch := match p_Lease (r_Placement resolution) with Some lease => Epoch lease | None => 0 end in
           if currentEpoch <=? previousEpoch then Err (Wrapped "%w: epoch remoto ainda nao avancou (got=%d want>%d)" ycluster_ErrLeaseExpired)
           else if Local resolution && negb allowLocal
           then Err (Wrapped "%w: owner ainda local durante handoff (epoch=%d)" ycluster_ErrLeaseExpired)
           else Ok resolution
       end).

(** This node is the owner, or a session with the owner. *)
Definition rebind_target : Type := option remoteOwnerSession.

Definition rebind_once (req : Request) (previousEpoch : Z) (allowLocal : bool) : sio (rebind_target + ack_error) :=
  found ← lookupNextRemoteOwner req previousEpoch allowLocal;
  match (found : result OwnerResolution) with
  | Err err => Ret (inr (AckRefused err))
  | Ok resolution =>
      if Local resolution then Ret (inl None)
      else
        match remoteOwnerEpoch resolution with
        | Err err => Ret (inr (AckRefused err))
        | Ok epoch =>
            opened ← openRemoteOwnerSession req resolution epoch true;
            Ret (match (opened : remoteOwnerSession + ack_error) with inl session => inl (Some session) | inr err => inr err end)
        end
  end.

(** Until an attempt succeeds or the time is over. *)
Fixpoint rebind_loop (attempts : nat) (req : Request) (previousEpoch : Z) (allowLocal : bool) : sess (rebind_target + ack_error) :=
  match attempts with
  | O => Ret None
  | S attempts =>
      out ← rebind_once req previousEpoch allowLocal;
      match (out : rebind_target + ack_error) with
      | inl t => ended (inl t)
      | inr lastErr =>
          over ← doing Pause;
          match (over : option error) with Some _ => ended (inr lastErr) | None => rebind_loop attempts req previousEpoch allowLocal end
      end
  end.

Variable attempts : nat.

Definition rebindRemoteOwnerSession (req : Request) (previousEpoch : Z) (allowLocal : bool) : sess (rebind_target + ack_error) :=
  if negb (fw_ownerLookup f) then ended (inr (AckRefused (Opaque "yhttp: owner lookup obrigatorio para rebind remoto")))
  else rebind_loop attempts req previousEpoch allowLocal.

(** ** The bridge *)

Definition session_target (req : Request) (session : remoteOwnerSession) : target :=
  RemoteTarget (rs_stream session) (rq_DocumentKey req) (rq_ConnectionID req) (rs_epoch session) (rs_format session).
Definition switchSession (client : nat) (req : Request) (session : remoteOwnerSession) : sio unit :=
  just (SwitchTarget client (Some (session_target req session))).

(** The reason of the end, and the signal when the session may be opened again. *)
Definition bridge (req : Request) (socket : nat) (session : remoteOwnerSession) (client : nat) (quota : option nat)
    : sio (bytes * option remoteOwnerCloseSignal) :=
  b ← doing NewBridge;
  _ ← just (Go (PipeToClient b req socket session quota));
  woken ← doing (AwaitBridge client b);
  _ ← just (CancelBridge b);
  match (woken : option error + option ack_error) with
  | inl None => Ret (client_closed, None)
  | inl (Some _) | inr None => Ret (bridge_error, None)
  | inr (Some (AckRefused _)) =>
      _ ← just (CloseSocket socket StatusGoingAway (str "falha ao encaminhar para owner remoto")); Ret (bridge_error, None)
  | inr (Some (AckClosed signal)) =>
      let reason := metricReason signal (str "remote_close") in
      if cs_retryable signal then Ret (reason, Some signal)
      else
        _ ← just (CloseSocket socket (websocketStatus signal) (metricReason signal (str "owner remoto encerrou a conexao")));
        Ret (reason, None)
  end.

(** What a chain of sessions ends with: its error, the session that is still open for
    the caller, the reason. *)
Record bridged := mkBridged { br_err : option error; br_session : option remoteOwnerSession; br_reason : bytes }.

(** [bridge_on]: how the sessions with another owner go on. *)
Definition takeoverLocalOwner (bridge_on : remoteOwnerSession → sess bridged) (req : Request) (socket client : nat) (quota : option nat)
    (closeReason : bytes) : sess bridged :=
  let over err reason := mkBridged err None reason in
  match fw_local f with
  | None => ended (over (Some (Opaque "yhttp: server local obrigatorio para takeover")) closeReason)
  | Some s =>
      ownership ← acquireRequestOwnership s req;
      match (ownership : result (option nat)) with
      | Err err => ended (over (Some err) closeReason)
      | Ok ownership =>
          opened ← doing (DoOpen (rq_DocumentKey req) (rq_ConnectionID req) (rq_ClientID req));
          match (opened : result conn) with
          | Err err => _ ← releaseRequestOwnership ownership; ended (over (Some err) closeReason)
          | Ok c =>
              let peer := socketPeer socket req quota in
              _ ← just (AddPeer (rq_DocumentKey req) (rq_ConnectionID req) peer);
              session ← doing NewSession;
              _ ← startAuthorityRevalidator s session req c None;
              failed ← bootstrapConnection req c peer true;
              out <~ match (failed : option error) with
                     | Some err => _ ← cleanupConnectionWithOwnership req c ownership; ended (over (Some err) closeReason)
                     | None =>
                         _ ← just (SwitchTarget client (Some (LocalTarget session req c peer)));
                         woken ← doing (AwaitClient client session);
                         _ ← cleanupConnectionWithOwnership req c ownership;
                         signal ← doing (DrainSignal session);
                         match (signal : option remoteOwnerCloseSignal) with
                         | None => ended (over (match (woken : option (option error)) with Some err => err | None => None end) closeReason)
                         | Some signal =>
                             epoch ← doing (DoAuthorityEpoch c);
                             _ ← just (SwitchTarget client None);
                             t <~ rebindRemoteOwnerSession req epoch false;
                             match (t : rebind_target + ack_error) with
                             | inl (Some next) =>
                                 _ ← switchSession client req next;
                                 out <~ bridge_on next;
                                 ended (over (br_err out) (br_reason out))
                             | _ =>
                                 _ ← close_with socket signal;
                                 _ ← just (CancelClient client);
                                 ended (over None (metricReason signal authorityLostCloseReason))
                             end
                         end
                     end;
              _ ← doing (DrainSignal session);
              _ ← just (CancelSession session);
              ended out
          end
      end
  end.

(** The sessions with one owner after the other; [changes] bounds them. *)
Fixpoint bridgeRemoteOwnerSessions (changes : nat) (req : Request) (socket client : nat) (quota : option nat) (session : remoteOwnerSession)
    {struct changes} : sess bridged :=
  match changes with
  | O => Ret None
  | S changes =>
      result ← bridge req socket session client quota;
      let '(reason, signal) := result : bytes * option remoteOwnerCloseSignal in
      match signal with
      | None => ended (mkBridged None (Some session) reason)
      | Some signal =>
          _ ← just (SwitchTarget client None);
          _ ← closeRemoteOwnerSession req (Some session) false;
          t <~ rebindRemoteOwnerSession req (rs_epoch session) true;
          match (t : rebind_target + ack_error) with
          | inr _ =>
              _ ← close_with socket signal;
              _ ← just (CancelClient client);
              ended (mkBridged None None (metricReason signal retryableRemoteOwnerCloseReason))
          | inl None =>
              takeoverLocalOwner (bridgeRemoteOwnerSessions changes req socket client quota) req socket client quota client_closed
          | inl (Some next) =>
              _ ← switchSession client req next;
              bridgeRemoteOwnerSessions changes req socket client quota next
          end
      end
  end.

Definition cleanup (req : Request) (socket : nat) (session : option remoteOwnerSession) (closeReason : bytes) (observe : bool) : sio unit :=
  let by_client := bool_decide (closeReason = client_closed) in
  _ ← closeRemoteOwnerSession req session by_client;
  _ ← when by_client (just (CloseSocketNow socket));
  when observe (just (ConnectionClosed req)).

Variable changes : nat.

Definition serveRemoteForwardedSocket (req : Request) (socket : nat) (session : remoteOwnerSession) (quota : option nat) (observe : bool)
    : sess (option error) :=
  _ ← when observe (just (ConnectionOpened req));
  client ← doing NewClient;
  _ ← switchSession client req session;
  _ ← just (Go (PipeToRemote client req socket quota));
  out <~ bridgeRemoteOwnerSessions changes req socket client quota session;
  _ ← cleanup req socket (br_session out) (br_reason out) observe;
  _ ← just (CancelClient client);
  _ ← when observe (just (ConnectionClosed req));
  _ ← f_closeQuota quota;
  ended (br_err out).

(** The handler of requests whose owner is another node. *)
Definition handle (header : Header) (req : Request) (resolution : OwnerResolution) : sess bool :=
  let answer status retryAfter := _ ← just (Respond status retryAfter); ended true in
  if negb (isWebSocketUpgrade header) then ended false
  else
    match remoteOwnerEpoch resolution with
    | Err _ => answer 503 None
    | Ok epoch =>
        quota ← f_openQuota req;
        match (quota : result (option nat)) with
        | Err err => answer (statusFromAuthError err) None
        | Ok quota =>
            opened ← openRemoteOwnerSession req resolution epoch false;
            match (opened : remoteOwnerSession + ack_error) with
            | inr err =>
                _ ← f_closeQuota quota;
                let status := statusFromRemoteOwnerOpenError err in
                answer status (if status =? 503 then Some 1 else None)
            | inl session =>
                accepted ← doing Accept;
                match (accepted : result nat) with
                | Err _ => _ ← closeRemoteOwnerSession req (Some session) false; _ ← f_closeQuota quota; ended true
                | Ok socket => _ <~ serveRemoteForwardedSocket req socket session quota true; ended true
                end
            end
        end
    end.

(** The handler of local sessions that lose their authority.  The deferred cleanup
    has the session and the reason of the moment it was deferred. *)
Definition handleLocalAuthorityLoss : AuthorityLossHandler := λ req socket previousEpoch handoff,
  t <~ rebindRemoteOwnerSession req previousEpoch false;
  match (t : rebind_target + ack_error) with
  | inr err => ended (Some (ack_err err))
  | inl None => ended None
  | inl (Some session) =>
      match handoff with
      | Some h =>
          _ ← switchSession (ho_client h) req session;
          out <~ bridgeRemoteOwnerSessions changes req socket (ho_client h) (ho_quota h) session;
          _ ← cleanup req socket (Some session) client_closed false;
          ended (br_err out)
      | None => serveRemoteForwardedSocket req socket session None false
      end
  end.

(** ** The goroutines of a bridge *)

Definition pipeClientToRemote (frames : nat) (client : nat) (req : Request) (socket : nat) (quota : option nat) : sess (option error) :=
  pipe_client CloseStatus says_closed frames (λ quota payload, f_allowQuotaFrame quota QuotaDirectionInbound (Z.of_nat (length payload)))
    (deliver_target client) isIgnorableRemoteOwnerStreamError client socket quota.

Definition to_client (req : Request) (socket : nat) (session : remoteOwnerSession) (quota : option nat) (payload : bytes)
    : sio (option (option ack_error)) :=
  let refused err := Ret (Some (Some (AckRefused err))) in
  match (if bool_decide (rs_format session = UpdateFormatV2) then Ok payload
         else protocolPayloadForSyncOutputFormat payload (rq_SyncOutputFormat req)) with
  | Err err => refused err
  | Ok payload =>
      denied ← f_allowQuotaFrame quota QuotaDirectionOutbound (Z.of_nat (length payload));
      match (denied : option error) with
      | Some err => _ ← just (CloseSocket socket (quotaCloseStatus err) (quotaCloseReason err)); refused err
      | None =>
          written ← doing (WriteSocket socket payload);
          match (written : option error) with
          | None => Ret None
          | Some err => if isIgnorableTransportError says_closed err then Ret (Some None) else refused err
          end
      end
  end.

Fixpoint pipeRemoteToClient (frames : nat) (b : nat) (req : Request) (socket : nat) (session : remoteOwnerSession) (quota : option nat)
    : sess (option ack_error) :=
  match frames with
  | O => Ret None
  | S frames =>
      received ← doing (ReceiveNode (BridgeCtx b) (rs_stream session));
      match (received : result Message) with
      | Err err => ended (if isIgnorableRemoteOwnerStreamError err then None else Some (AckRefused err))
      | Ok message =>
          match validateRemoteOwnerUpstreamMessage req (p_NodeID (r_Placement (rs_resolution session))) (rs_epoch session) (rs_format session) message with
          | Some err => ended (Some (AckRefused err))
          | None =>
              match remoteMessageToProtocolPayload message with
              | Err err => ended (Some (AckRefused err))
              | Ok (_, Some close) => ended (Some (AckClosed (remoteOwnerCloseSignalFromMessage close)))
              | Ok ([], None) => pipeRemoteToClient frames b req socket session quota
              | Ok (payload, None) =>
                  out ← to_client req socket session quota payload;
                  match (out : option (option ack_error)) with
                  | Some err => ended err
                  | None => pipeRemoteToClient frames b req socket session quota
                  end
              end
          end
      end
  end.

Definition goroutine_body (frames ticks : nat) (g : goroutine) : sess unit :=
  match g with
  | PipeToLocal client req socket quota =>
      err <~ pipeClientToLocal CloseStatus says_closed frames client req socket quota; _ ← just (SendClient client err); ended tt
  | PipeToRemote client req socket quota =>
      err <~ pipeClientToRemote frames client req socket quota; _ ← just (SendClient client err); ended tt
  | PipeToClient b req socket session quota =>
      err <~ pipeRemoteToClient frames b req socket session quota; _ ← just (SendBridge b err); ended tt
  | Revalidate session req c closes => revalidator ticks session req c closes
  | RevalidateOwner session c => revalidator_loop ticks session c None
  | Unregister session key connectionID => unregister session key connectionID
  end.

(** A goroutine that somebody has started. *)
Definition worker (frames ticks : nat) : sess unit :=
  g ← doing Begin;
  match (g : option goroutine) with Some g => goroutine_body frames ticks g | None => ended tt end.

End forwarder.

(** ** remote_owner_endpoint.go *)

Record RemoteOwnerEndpoint := mkEndpoint { ep_local : Server; ep_localNodeID : bytes; ep_authenticates : bool }.

Section endpoint.
Variable e : RemoteOwnerEndpoint.

Definition sendRemoteOwnerClose (req : Request) (epoch : Z) (stream : nat) (signal : remoteOwnerCloseSignal) : sio unit :=
  if (epoch =? 0) || bool_decide (DocumentID (rq_DocumentKey req) = []) || is_blank (rq_ConnectionID req) then Ret tt
  else just (SendNode stream (MClose (mkClose 0 (rq_DocumentKey req) (rq_ConnectionID req) epoch (cs_retryable signal) (metricReason signal (str "close"))))).

(** [closeSignal]: the edge is told. *)
Definition cleanupRemoteOwnerStream (req : Request) (epoch : Z) (c : conn) (stream : nat) (ownership : option nat)
    (closeSignal : option remoteOwnerCloseSignal) : sio unit :=
  _ ← match closeSignal with Some signal => sendRemoteOwnerClose req epoch stream signal | None => Ret tt end;
  _ ← when (rq_PersistOnClose req) (lost ← doing (DoAuthorityLost c); when (negb lost) (just (DoPersist c)));
  closed ← doing (DoClose c);
  _ ← match (closed : result DispatchResult) with Ok out => broadcast req (Broadcast out) | Err _ => Ret tt end;
  _ ← releaseRequestOwnership ownership;
  _ ← just (CloseStream stream);
  just (ConnectionClosed req).

Definition writeRemoteDirect (req : Request) (epoch : Z) (peer : room_peer) (stream : nat) (message : Message) (payload : bytes) : sio (option error) :=
  match message with
  | MQueryAwarenessRequest _ =>
      send_all stream (protocolPayloadToQueryAwarenessMessages (rq_DocumentKey req) (rq_ConnectionID req) epoch payload)
  | _ => deliver peer payload
  end.

(** What a message leads to: the session goes on, stops with a reason, or fails with one. *)
Inductive message_outcome := GoesOn | Stops | Fails (reason : bytes) (err : error).

Definition handle_document_message (req : Request) (epoch : Z) (c : conn) (peer : room_peer) (stream : nat) (message : Message)
    : sio message_outcome :=
  match validateRemoteOwnerRoute req epoch message with
  | Some err => Ret (Fails (str "route_mismatch") err)
  | None =>
      match ownerMessageToProtocolPayload message with
      | Err err => Ret (Fails (str "decode_error") err)
      | Ok payload =>
          handled ← doing (DoHandle OtherCtx c payload);
          match (handled : result DispatchResult) with
          | Err err => Ret (Fails (metricReason (remoteOwnerCloseSignalFromError err (str "handle_error")) (str "handle_error")) err)
          | Ok out =>
              written ← match Direct out with [] => Ret None | direct => writeRemoteDirect req epoch peer stream message direct end;
              match (written : option error) with
              | Some err => Ret (Fails (str "write_direct_error") err)
              | None => _ ← broadcast req (Broadcast out); Ret GoesOn
              end
          end
      end
  end.

Definition handleRemoteOwnerMessage (req : Request) (epoch : Z) (c : conn) (peer : room_peer) (stream : nat) (message : Message)
    : sio message_outcome :=
  match message with
  | MPing m =>
      sent ← doing (SendNode stream (MPong (mkPong 0 (Ping_Nonce m))));
      Ret (match (sent : option error) with Some err => Fails (str "pong_error") err | None => GoesOn end)
  | MPong _ => Ret GoesOn
  | MDisconnect _ | MClose _ =>
      Ret (match validateRemoteOwnerRoute req epoch message with Some err => Fails (str "route_mismatch") err | None => Stops end)
  | MHandshake _ | MHandshakeAck _ =>
      Ret (Fails (str "unexpected_handshake") (refused_message "yhttp: mensagem de handshake inesperada apos inicializacao: %T"))
  | _ => handle_document_message req epoch c peer stream message
  end.

(** The signal for the edge, if it is told, and the error of the call. *)
Fixpoint serve_messages (frames : nat) (session : nat) (req : Request) (epoch : Z) (c : conn) (peer : room_peer) (stream : nat)
    : sess (option remoteOwnerCloseSignal * option error) :=
  match frames with
  | O => Ret None
  | S frames =>
      received ← doing (ReceiveNode (SessionCtx session) stream);
      match (received : result Message) with
      | Err err =>
          signal ← doing (DrainSignal session);
          match (signal : option remoteOwnerCloseSignal) with
          | Some signal => ended (Some signal, None)
          | None =>
              if isIgnorableNodeStreamError err then ended (None, None)
              else ended (Some (remoteOwnerCloseSignalFromError err (str "stream_error")), Some err)
          end
      | Ok message =>
          out ← handleRemoteOwnerMessage req epoch c peer stream message;
          match (out : message_outcome) with
          | GoesOn => serve_messages frames session req epoch c peer stream
          | Stops => ended (None, None)
          | Fails reason err =>
              ended (Some (remoteOwnerCloseSignalFromError err reason), if isAuthorityLostRetryableError err then None else Some err)
          end
      end
  end.

(** The session of an edge whose handshake is accepted, up to its cleanup. *)
Definition serve_edge (frames : nat) (h : Handshake) (req : Request) (c : conn) (stream : nat)
    : sess (option remoteOwnerCloseSignal * option error) :=
  sent ← doing (SendNode stream (MHandshakeAck (sendHandshakeAck (ep_localNodeID e) h)));
  match (sent : option error) with
  | Some err => ended (Some (remoteOwnerCloseSignalFromError err (str "handshake_error")), Some err)
  | None =>
      session ← doing NewSession;
      _ ← when (sv_revalidates (ep_local e)) (just (Go (RevalidateOwner session c)));
      let format := if handshakeRequestsInterNodeV2 h then UpdateFormatV2 else UpdateFormatV1 in
      let peer := StreamPeer stream (rq_DocumentKey req) (rq_ConnectionID req) (Handshake_Epoch h) format in
      _ ← just (AddPeer (rq_DocumentKey req) (rq_ConnectionID req) peer);
      out <~ serve_messages frames session req (Handshake_Epoch h) c peer stream;
      _ ← just (RemovePeer (rq_DocumentKey req) (rq_ConnectionID req));
      _ ← doing (DrainSignal session);
      _ ← just (CancelSession session);
      ended out
  end.

(** The edge is told that the authority is elsewhere. *)
Definition refuse_edge (req : Request) (epoch : Z) (stream : nat) (signal : remoteOwnerCloseSignal) : sess (option error) :=
  _ ← sendRemoteOwnerClose req epoch stream signal; _ ← just (CloseStream stream); ended None.

Definition open_for_edge (frames : nat) (h : Handshake) (req : Request) (stream : nat) (ownership : option nat) : sess (option error) :=
  let epoch := Handshake_Epoch h in
  opened ← doing (DoOpen (rq_DocumentKey req) (rq_ConnectionID req) (rq_ClientID req));
  match (opened : result conn) with
  | Err err =>
      _ ← releaseRequestOwnership ownership;
      if isAuthorityLostRetryableError err then refuse_edge req epoch stream (remoteOwnerCloseSignalFromError err (str "open_error"))
      else ended (Some err)
  | Ok c =>
      authorityEpoch ← doing (DoAuthorityEpoch c);
      match validateRemoteOwnerAuthorityEpoch epoch authorityEpoch with
      | Some _ =>
          _ ← releaseRequestOwnership ownership;
          _ ← just (DoClose c);
          refuse_edge req epoch stream authority_lost
      | None =>
          _ ← just (ConnectionOpened req);
          out <~ serve_edge frames h req c stream;
          _ ← cleanupRemoteOwnerStream req epoch c stream ownership (out.1);
          ended (out.2)
      end
  end.

Definition serveStream (frames : nat) (stream : nat) (header : Header) : sess (option error) :=
  received ← doing (ReceiveNode OtherCtx stream);
  match (message ← (received : result Message); receiveHandshake message) with
  | Err err => ended (Some err)
  | Ok h =>
      let req := requestFromHandshake h in
      denied ← (if ep_authenticates e then doing (AuthenticateNode (auth_request h header)) else Ret None);
      match (denied : option error) with
      | Some err => ended (Some err)
      | None =>
          ownership ← acquireRequestOwnership (ep_local e) req;
          match (ownership : result (option nat)) with
          | Err err =>
              if statusFromOwnershipError err =? 503 then refuse_edge req (Handshake_Epoch h) stream authority_lost else ended (Some err)
          | Ok ownership => open_for_edge frames h req stream ownership
          end
      end
  end.

(** The stream is the one of the socket. *)
Definition RemoteOwnerEndpoint_ServeHTTP (frames : nat) (get : bool) (header : Header) : sess unit :=
  if negb get then _ ← just (Respond 405 None); ended tt
  else if negb (isWebSocketUpgrade header) then _ ← just (Respond 400 None); ended tt
  else
    accepted ← doing Accept;
    match (accepted : result nat) with
    | Err _ => ended tt
    | Ok socket =>
        err <~ serveStream frames socket header;
        _ ← match (err : option error) with
            | Some err =>
                when (negb (isIgnorableNodeStreamError err)) (just (CloseSocket socket StatusPolicyViolation (str "falha ao materializar owner remoto")))
            | None => Ret tt
            end;
        ended tt
    end.

End endpoint.
End forward.

(** ** What calls share *)

(** The channels of a session, of a client, of a bridge: whether the context has ended,
    and what is in the channel. *)
Record session_chan := mkSessionChan { sc_over : bool; sc_signal : option remoteOwnerCloseSignal }.
Record client_chan := mkClientChan { cc_over : bool; cc_err : option (option error); cc_target : option target }.
Record bridge_chan := mkBridgeChan { bc_over : bool; bc_err : option (option ack_error) }.

Record World := mkWorld {
  w_next : Z; w_registry : gmap DocumentKey (gmap bytes room_peer);
  w_revalidations : gmap DocumentKey (gmap bytes authorityRevalidationSession); w_sessions : list session_chan;
  w_clients : list client_chan; w_bridges : list bridge_chan; w_go : list goroutine; w_gauge : Z }.

Definition World_New : World := mkWorld 0 ∅ ∅ [] [] [] [] 0.

Definition set_sessions (l : list session_chan) (w : World) : World :=
  mkWorld (w_next w) (w_registry w) (w_revalidations w) l (w_clients w) (w_bridges w) (w_go w) (w_gauge w).
Definition set_clients (l : list client_chan) (w : World) : World :=
  mkWorld (w_next w) (w_registry w) (w_revalidations w) (w_sessions w) l (w_bridges w) (w_go w) (w_gauge w).
Definition set_bridges (l : list bridge_chan) (w : World) : World :=
  mkWorld (w_next w) (w_registry w) (w_revalidations w) (w_sessions w) (w_clients w) l (w_go w) (w_gauge w).
Definition set_registry (r : gmap DocumentKey (gmap bytes room_peer)) (w : World) : World :=
  mkWorld (w_next w) r (w_revalidations w) (w_sessions w) (w_clients w) (w_bridges w) (w_go w) (w_gauge w).
Definition set_revalidations (r : gmap DocumentKey (gmap bytes authorityRevalidationSession)) (w : World) : World :=
  mkWorld (w_next w) (w_registry w) r (w_sessions w) (w_clients w) (w_bridges w) (w_go w) (w_gauge w).
Definition set_go (l : list goroutine) (w : World) : World :=
  mkWorld (w_next w) (w_registry w) (w_revalidations w) (w_sessions w) (w_clients w) (w_bridges w) l (w_gauge w).
Definition add_gauge (n : Z) (w : World) : World :=
  mkWorld (w_next w) (w_registry w) (w_revalidations w) (w_sessions w) (w_clients w) (w_bridges w) (w_go w) (w_gauge w + n).
Definition next_id (w : World) : World :=
  mkWorld (w64 (w_next w + 1)) (w_registry w) (w_revalidations w) (w_sessions w) (w_clients w) (w_bridges w) (w_go w) (w_gauge w).

Definition session_at (w : World) (i : nat) : session_chan := default (mkSessionChan true None) (w_sessions w !! i).
Definition client_at (w : World) (i : nat) : client_chan := default (mkClientChan true None None) (w_clients w !! i).
Definition bridge_at (w : World) (i : nat) : bridge_chan := default (mkBridgeChan true None) (w_bridges w !! i).

(** A send on a channel of one place that does not wait. *)
Definition signalRemoteOwnerClose (signal : remoteOwnerCloseSignal) (s : session_chan) : session_chan :=
  mkSessionChan (sc_over s) (match sc_signal s with Some before => Some before | None => Some signal end).

(** The rest of the program and of the world: what it answers, and which channel a
    select with two ready ones takes. *)
Class HTTPServices := { service : ∀ a, instant → server_reply a; takes_first : instant → bool }.

Definition authorityRevalidation_snapshot (order : gmap bytes authorityRevalidationSession → list (bytes * authorityRevalidationSession))
    (key : DocumentKey) (r : gmap DocumentKey (gmap bytes authorityRevalidationSession)) : list authorityRevalidationSession :=
  snd <$> order (default ∅ (r !! key)).

#[export] Instance server_handler `{HTTPServices} : Handler server_reply World := λ a i w,
  match a as a return server_reply a * World with
  | NextConnID => (w64 (w_next w + 1), next_id w)
  | ConnectionOpened _ => (tt, add_gauge 1 w)
  | ConnectionClosed _ => (tt, add_gauge (-1) w)
  | AddPeer key id peer => (tt, set_registry (registry_add key id peer (w_registry w)) w)
  | RemovePeer key id => (tt, set_registry (registry_remove key id (w_registry w)) w)
  | PeersExcept key exclude => (peersExcept map_to_list key exclude (w_registry w), w)
  | AddRevalidation key id s => (tt, set_revalidations (registry_add key id s (w_revalidations w)) w)
  | RemoveRevalidation key id => (tt, set_revalidations (registry_remove key id (w_revalidations w)) w)
  | RevalidationsOf key => (authorityRevalidation_snapshot map_to_list key (w_revalidations w), w)
  | NewSession => (length (w_sessions w), set_sessions (w_sessions w ++ [mkSessionChan false None]) w)
  | CancelSession i => (tt, set_sessions (alter (λ s, mkSessionChan true (sc_signal s)) i (w_sessions w)) w)
  | SignalClose i signal => (tt, set_sessions (alter (signalRemoteOwnerClose signal) i (w_sessions w)) w)
  | DrainSignal i => (sc_signal (session_at w i), set_sessions (alter (λ s, mkSessionChan (sc_over s) None) i (w_sessions w)) w)
  | NewClient => (length (w_clients w), set_clients (w_clients w ++ [mkClientChan false None None]) w)
  | CancelClient i => (tt, set_clients (alter (λ c, mkClientChan true (cc_err c) (cc_target c)) i (w_clients w)) w)
  | SendClient i err => (tt, set_clients (alter (λ c, mkClientChan (cc_over c) (Some err) (cc_target c)) i (w_clients w)) w)
  | SwitchTarget i t => (tt, set_clients (alter (λ c, mkClientChan (cc_over c) (cc_err c) t) i (w_clients w)) w)
  | AwaitTarget i => (cc_target (client_at w i), w)
  | AwaitClient j n =>
      match cc_err (client_at w j) with
      | Some err =>
          if sc_over (session_at w n) && negb (takes_first i) then (None, w)
          else (Some err, set_clients (alter (λ c, mkClientChan (cc_over c) None (cc_target c)) j (w_clients w)) w)
      | None => (None, w)
      end
  | NewBridge => (length (w_bridges w), set_bridges (w_bridges w ++ [mkBridgeChan false None]) w)
  | CancelBridge i => (tt, set_bridges (alter (λ b, mkBridgeChan true (bc_err b)) i (w_bridges w)) w)
  | SendBridge i err => (tt, set_bridges (alter (λ b, mkBridgeChan (bc_over b) (Some err)) i (w_bridges w)) w)
  | AwaitBridge j b =>
      match cc_err (client_at w j), bc_err (bridge_at w b) with
      | Some err, None => (inl err, set_clients (alter (λ c, mkClientChan (cc_over c) None (cc_target c)) j (w_clients w)) w)
      | Some err, Some remote =>
          if takes_first i then (inl err, set_clients (alter (λ c, mkClientChan (cc_over c) None (cc_target c)) j (w_clients w)) w)
          else (inr remote, w)
      | None, Some remote => (inr remote, w)
      | None, None => (inl None, w)
      end
  | AwaitEnd _ => (tt, w)
  | AwaitTick n => (negb (sc_over (session_at w n)), w)
  | Go g => (tt, set_go (w_go w ++ [g]) w)
  | Begin => (head (w_go w), set_go (tail (w_go w)) w)
  | ReadSocket (SessionCtx n) _ as a =>
      (if sc_over (session_at w n) then Err context_Canceled else service a i, w)
  | ReadSocket (ClientCtx n) _ as a =>
      (if cc_over (client_at w n) then Err context_Canceled else service a i, w)
  | ReceiveNode (SessionCtx n) _ as a =>
      (if sc_over (session_at w n) then Err context_Canceled else service a i, w)
  | ReceiveNode (BridgeCtx n) _ as a =>
      (if bc_over (bridge_at w n) then Err context_Canceled else service a i, w)
  | a => (service a i, w)
  end.

(** What makes a call wait; an end of the time for a frame is left out. *)
Definition server_enabled (a : server_op) (w : World) : Prop :=
  match a with
  | AwaitTarget i => cc_over (client_at w i) = true ∨ is_Some (cc_target (client_at w i))
  | AwaitClient i n => is_Some (cc_err (client_at w i)) ∨ sc_over (session_at w n) = true
  | AwaitBridge i b => is_Some (cc_err (client_at w i)) ∨ is_Some (bc_err (bridge_at w b))
  | AwaitEnd n => sc_over (session_at w n) = true
  | Begin => w_go w ≠ []
  | _ => True
  end.

#[export] Instance server_enabled_dec a w : Decision (server_enabled a w).
Proof. destruct a; cbn; apply _. Defined.
