(* ===== verification/ProviderFacts.v ===== *)
(** * Rooms under concurrent calls

    What the mutex of a room protects, and the rule by which every call of a
    provider keeps it: a call holds at most one mutex, gives the room back in order
    and only moves it forward. *)
From stdpp Require Import relations.
From S2P Require Import Prelude GoError GoText Awareness AwarenessSpec YProtocol YStream StorageTypes MemoryStore Effects Facade WireCompat Snapshot Session Replay Provider.
#[local] Open Scope io_scope.

(** ** Rooms in order *)

Definition own_session (o : Connection) : Prop :=
  ses_updateV2 (cn_session o) = newEmptyUpdateV2 ∧ localClientID (ses_awareness (cn_session o)) = cn_clientID o ∧
  hasLocalClientID (ses_awareness (cn_session o)) = true.

(** The map has exactly the open connections by their names, no two of them have the
    same client, and each has its own session, without a document. *)
Record room_ok (r : providerRoom) : Prop := {
  ro_snapshot : room_snapshot r = None;
  ro_names id i : room_connections r !! id = Some i → ∃ o, room_objects r !! i = Some o ∧ cn_id o = id ∧ cn_closed o = false;
  ro_open i o : room_objects r !! i = Some o → cn_closed o = false → room_connections r !! cn_id o = Some i;
  ro_clients i j o o' : room_objects r !! i = Some o → room_objects r !! j = Some o' → cn_closed o = false → cn_closed o' = false →
    cn_clientID o = cn_clientID o' → i = j;
  ro_sessions i o : room_objects r !! i = Some o → own_session o }.

(** The same connection later. *)
Definition object_next (o o' : Connection) : Prop :=
  cn_id o' = cn_id o ∧ cn_clientID o' = cn_clientID o ∧ (cn_closed o = true → cn_closed o' = true).

(** The same room later: it keeps its key and its connections; closed connections
    stay closed and lost authority stays lost. *)
Record room_next (r r' : providerRoom) : Prop := {
  rn_key : room_key r' = room_key r;
  rn_lost : room_authorityLost r = true → room_authorityLost r' = true;
  rn_objects i o : room_objects r !! i = Some o → ∃ o', room_objects r' !! i = Some o' ∧ object_next o o' }.

Lemma object_next_refl o : object_next o o.
Proof. done. Qed.

Lemma object_next_trans o1 o2 o3 : object_next o1 o2 → object_next o2 o3 → object_next o1 o3.
Proof. intros (H1 & H2 & H3) (H4 & H5 & H6). split_and!; [congruence..|auto]. Qed.

Lemma room_next_refl r : room_next r r.
Proof. split; [done..|]. intros i o Ho. by exists o. Qed.

Lemma room_next_trans r1 r2 r3 : room_next r1 r2 → room_next r2 r3 → room_next r1 r3.
Proof.
  intros [K1 L1 O1] [K2 L2 O2]. split; [congruence|auto|]. intros i o Ho. destruct (O1 _ _ Ho) as (o2 & H2 & N2).
  destruct (O2 _ _ H2) as (o3 & H3 & N3). exists o3. split; [done|by eapply object_next_trans].
Qed.

#[export] Instance room_next_preorder : PreOrder room_next.
Proof. split; [exact room_next_refl|exact room_next_trans]. Qed.

(** In order, and later than [r]. *)
Definition good_next (r r' : providerRoom) : Prop := room_next r r' ∧ room_ok r'.

Lemma good_next_refl r : room_ok r → good_next r r.
Proof. by split. Qed.

Lemma good_next_trans r1 r2 r3 : good_next r1 r2 → good_next r2 r3 → good_next r1 r3.
Proof. intros [? _] [? ?]. split; [by etrans|done]. Qed.

(** Changes that leave the connections alone. *)
Lemma same_connections_ok r r' : room_connections r' = room_connections r → room_objects r' = room_objects r → room_snapshot r' = None →
  room_ok r → room_ok r'.
Proof. intros Hc Ho Hs [? ? ? ? ?]. by split; rewrite ?Hc, ?Ho. Qed.

Lemma same_objects_next r r' : room_key r' = room_key r → (room_authorityLost r = true → room_authorityLost r' = true) →
  room_objects r' = room_objects r → room_next r r'.
Proof. intros Hk Hl Ho. split; [done..|]. intros i o Hi. exists o. by rewrite Ho. Qed.

Lemma lose_authority_good r : room_ok r → good_next r (lose_authority r).
Proof. intros Hr. split; [by apply same_objects_next|]. apply (same_connections_ok r); [done..|apply Hr|done]. Qed.

Lemma set_authority_good a r : room_ok r → good_next r (set_authority a r).
Proof. intros Hr. split; [by apply same_objects_next|]. apply (same_connections_ok r); [done..|apply Hr|done]. Qed.

Lemma set_document_good u l c r : room_ok r → good_next r (set_document u l c r).
Proof. intros Hr. split; [by apply same_objects_next|by apply (same_connections_ok r)]. Qed.

Lemma room_new_ok key u l c a : room_ok (room_new key u l c a).
Proof. by split. Qed.

Lemma object_lookup c r o : room_objects r !! conn_index c = Some o → object c r = o.
Proof. unfold object. by intros ->. Qed.

(** Changes of one connection. *)
Lemma alter_next (f : Connection → Connection) i m r : (∀ o, room_objects r !! i = Some o → object_next o (f o)) →
  room_next r (set_connections m (alter f i (room_objects r)) r).
Proof.
  intros Hf. split; [done..|]. intros j o Hj. cbn [room_objects set_connections]. rewrite list_lookup_alter.
  case_decide; [subst j; rewrite Hj; exists (f o); split; [done|by apply Hf]|by exists o].
Qed.

Lemma alter_back (f : Connection → Connection) i (l : list Connection) j x : alter f i l !! j = Some x →
  ∃ y, l !! j = Some y ∧ ((i ≠ j ∧ x = y) ∨ (i = j ∧ x = f y)).
Proof.
  rewrite list_lookup_alter. case_decide as E; [|by exists x; auto]. subst j. intros (y & Hy & ->)%fmap_Some. exists y. auto.
Qed.

Lemma update_session_good c s r : room_ok r → (∀ o, room_objects r !! conn_index c = Some o → own_session (set_session s o)) →
  good_next r (update_session c s r).
Proof.
  intros [Hs Hn Ho Hc Hse] Hown. split; [by apply alter_next|]. unfold update_session.
  assert (∀ j x, alter (set_session s) (conn_index c) (room_objects r) !! j = Some x →
    ∃ y, room_objects r !! j = Some y ∧ cn_closed x = cn_closed y ∧ cn_clientID x = cn_clientID y ∧ cn_id x = cn_id y) as Hback.
  { intros j x (y & Hy & [[_ ->]|[_ ->]])%alter_back; by exists y. }
  split; cbn [room_snapshot room_connections room_objects set_connections]; [done|..].
  - intros id i Hi. destruct (Hn _ _ Hi) as (o & Hio & <- & Hcl). rewrite list_lookup_alter. case_decide; [subst i; rewrite Hio; by exists (set_session s o)|by exists o].
  - intros i o (y & Hy & -> & _ & ->)%Hback. by apply Ho.
  - intros i j o o' (y & Hy & -> & -> & _)%Hback (y' & Hy' & -> & -> & _)%Hback. by apply Hc.
  - intros i o Hi. destruct (alter_back _ _ _ _ _ Hi) as (y & Hy & [[_ E]|[Ei E]]); subst o; [by eapply Hse|]. rewrite <- Ei in Hy. by apply Hown.
Qed.

Lemma detach_good c r : room_ok r → (∃ o, room_objects r !! conn_index c = Some o ∧ cn_closed o = false) → good_next r (detach c r).
Proof.
  intros [Hs Hn Ho Hc Hse] (o & Hi & Hcl). split; [by apply alter_next|]. unfold detach. rewrite (object_lookup _ _ _ Hi).
  assert (∀ j x, alter close_object (conn_index c) (room_objects r) !! j = Some x → cn_closed x = false → j ≠ conn_index c ∧ room_objects r !! j = Some x) as Hback.
  { by intros j x (y & Hy & [[? ->]|[_ ->]])%alter_back. }
  split; cbn [room_snapshot room_connections room_objects set_connections]; [done|..].
  - intros id j [Hid Hj]%lookup_delete_Some. destruct (Hn _ _ Hj) as (x & Hx & <- & ?). exists x. split; [|done].
    rewrite list_lookup_alter_ne; [done|]. intros <-. simplify_eq.
  - intros j x Hx Hx'. destruct (Hback _ _ Hx Hx') as [Hj Hy]. rewrite lookup_delete_ne; [by apply Ho|]. intros E. pose proof (Ho _ _ Hi Hcl) as E1. pose proof (Ho _ _ Hy Hx') as E2. rewrite E in E1. congruence.
  - intros i j x y Hx Hy Hcx Hcy. destruct (Hback _ _ Hx Hcx), (Hback _ _ Hy Hcy). by eapply Hc.
  - intros j x (y & Hy & [[_ ->]|[_ ->]])%alter_back; by eapply Hse in Hy.
Qed.

(** The manager of a session keeps its client. *)
Definition same_client (m m' : StateManager) : Prop := localClientID m' = localClientID m ∧ hasLocalClientID m' = hasLocalClientID m.

Lemma apply_client_same m client now : same_client m (applyClientLocked m client now).2.
Proof. unfold applyClientLocked. repeat case_match; simplify_eq; by split. Qed.

Lemma apply_loop_same now l acc : same_client acc.2 (fold_left (apply_loop now) l acc).2.
Proof.
  revert acc. induction l as [|client l IH]; intros [b m]; cbn [fold_left]; [by split|].
  assert (same_client m (apply_loop now (b, m) client).2) as [H1 H2].
  { unfold apply_loop. cbn. pose proof (apply_client_same m client now) as Hc. by destruct (applyClientLocked m client now). }
  destruct (IH (apply_loop now (b, m) client)) as [H3 H4]. split; cbn; [by rewrite H3|by rewrite H4].
Qed.

Lemma ApplyAt_same update now m : same_client m (ApplyAt update now m).
Proof.
  unfold ApplyAt, ApplyWithChangeAt. destruct update as [l|]; [|by split].
  pose proof (apply_loop_same now l (mkBuilder ∅ ∅ ∅, m)) as H. by destruct (fold_left _ l _).
Qed.

Lemma SetLocalStateAt_same state now m : same_client m (SetLocalStateAt state now m).2.
Proof. unfold SetLocalStateAt, SetLocalStateWithChangeAt. repeat case_match; simplify_eq; cbn; by split. Qed.

Lemma own_presence o m : own_session o → same_client (ses_awareness (cn_session o)) m → own_session (set_session (set_awareness m (cn_session o)) o).
Proof. intros (H1 & H2 & H3) [H4 H5]. split_and!; [exact H1|etrans; [exact H4|exact H2]|etrans; [exact H5|exact H3]]. Qed.

(** A session asked about presence or permissions keeps its document. *)
Lemma HandleProtocolMessage_own pool now message o : own_session o → Protocol message ≠ ProtocolTypeSync →
  own_session (set_session (HandleProtocolMessage pool now (Some message) (cn_session o)).2 o).
Proof.
  intros Ho Hp. unfold HandleProtocolMessage, HandleProtocolMessageWithOptions.
  destruct (validateProtocolMessage _); [by destruct o|]. apply Z.eqb_neq in Hp. rewrite Hp.
  destruct (Protocol message =? ProtocolTypeAwareness); [apply own_presence; [done|apply ApplyAt_same]|].
  repeat case_match; by destruct o.
Qed.

Lemma tombstone_own now o : own_session o → own_session (set_session (localAwarenessTombstone now o).2 o).
Proof.
  intros Ho. unfold localAwarenessTombstone. destruct (Meta _ _); [|by destruct o].
  pose proof (SetLocalStateAt_same [] now (ses_awareness (cn_session o))) as Hs.
  destruct (SetLocalStateAt _ _ _) as [[err|] m]; by apply own_presence.
Qed.

(** ** The mutexes of a call *)

(** The room a call holds, with its contents when it was taken. *)
Definition hold : Type := option (nat * providerRoom).

(** [lp m Q h]: holding [h], [m] takes one mutex at a time, finds rooms in order,
    gives them back in order and ends in [Q]. *)
Fixpoint lp {A} (m : io A) (Q : A → hold → Prop) (h : hold) : Prop :=
  match m with
  | Ret x => Q x h
  | Act a k =>
      match a as a return (provider_reply a → io A) → (provider_reply a → hold → Prop) → Prop with
      | LockRoom room => λ _ rest, h = None ∧ ∀ r, room_ok r → rest r (Some (room, r))
      | UnlockRoom room r' => λ _ rest, ∃ r, h = Some (room, r) ∧ good_next r r' ∧ rest tt None
      | PublishRoom key r => λ _ rest, h = None ∧ room_ok r ∧ room_key r = key ∧ ∀ x, rest x h
      | _ => λ _ rest, ∀ x, rest x h
      end k (λ x, lp (k x) Q)
  end.

Lemma lp_bind {A B} (m : io A) (f : A → io B) Q h : lp (m ≫= f) Q h ↔ lp m (λ x, lp (f x) Q) h.
Proof.
  revert h. induction m as [x|a k IH]; intros h; [done|]. destruct a; cbn; try (split; intros H x; by apply IH).
  - split; intros (? & ? & ? & H); (split_and!; [done..|]; intros x; by apply IH).
  - split; (intros [? H]; split; [done|]; intros r Hr; apply IH; by apply H).
  - split; intros (r & ? & ? & H); exists r; (split_and!; [done..|]; by apply IH).
Qed.

Lemma lp_mono {A} (m : io A) (P Q : A → hold → Prop) h : (∀ x h, P x h → Q x h) → lp m P h → lp m Q h.
Proof.
  intros HPQ. revert h. induction m as [x|a k IH]; intros h; cbn; [apply HPQ|]. destruct a; try (intros H x; by apply IH).
  - intros (? & ? & ? & H). split_and!; [done..|]. intros x. by apply IH.
  - intros [? H]. split; [done|]. intros r Hr. by apply IH, H.
  - intros (r & ? & ? & H). exists r. split_and!; [done..|]. by apply IH.
Qed.

Lemma lp_then {A B} (m : io (result A)) (k : A → io (result B)) Q h :
  lp (io_then m k) Q h ↔ lp m (λ r, match r with Ok x => lp (k x) Q | Err err => Q (Err err) end) h.
Proof. unfold io_then. rewrite lp_bind. split; apply lp_mono; by intros []. Qed.

Lemma lp_require {B} check (k : io (result B)) Q h : (∀ err, Q (Err err) h) → lp k Q h → lp (io_require check k) Q h.
Proof. intros HE Hk. destruct check; [apply HE|done]. Qed.

(** A computation that neither takes nor gives back a mutex nor makes a room. *)
Definition plain_op (a : provider_op) : Prop := match a with LockRoom _ | UnlockRoom _ _ | PublishRoom _ _ => False | _ => True end.

Lemma lp_plain {A} (m : io A) Q h : only plain_op m → (∀ x, Q x h) → lp m Q h.
Proof. intros Ho HQ. induction m as [x|a k IH]; [apply HQ|]. destruct Ho as [Ha Ho]. destruct a; try done; cbn; intros y; by apply IH. Qed.

Lemma on_store_plain {A} background (m : prog log_reply A) : only plain_op (on_store background m).
Proof. by induction m as [x|a k IH]. Qed.

(** ** Every operation keeps the rule *)

Section operations.
Variable pool : list bytes → Run * Run.
Variable fuel : nat.
Variable order : gmap bytes nat → list nat.
Variable p : Provider.
Hypothesis order_visits : ∀ m, order m ≡ₚ (map_to_list m).*2.

Lemma order_elem m i : i ∈ order m ↔ ∃ id, m !! id = Some i.
Proof.
  rewrite order_visits, list_elem_of_fmap. split.
  - intros ([id j] & -> & H%elem_of_map_to_list). by exists id.
  - intros [id H]. exists (id, i). split; [done|by apply elem_of_map_to_list].
Qed.

Lemma attach_good room id client r : room_ok r → good_next r (attach order room id client r).2.
Proof.
  intros Hr. unfold attach. destruct (room_authorityLost r); [by apply good_next_refl|].
  case_bool_decide as Hid; [by apply good_next_refl|]. destruct (existsb _ _) eqn:E; [by apply good_next_refl|].
  assert (∀ i o, room_objects r !! i = Some o → cn_closed o = false → cn_clientID o ≠ client) as Hfree.
  { intros i o Ho Hcl Hc. assert (i ∈ order (room_connections r)) as Hi by (apply order_elem; exists (cn_id o); by apply Hr).
    apply not_true_iff_false in E. apply E, existsb_exists. exists i. split; [by apply list_elem_of_In|].
    rewrite (object_lookup (mkConn room i) r o Ho), Hcl. cbn. by apply Z.eqb_eq. }
  destruct Hr as [Hs Hn Ho Hc Hse]. set (new := mkConnection id client (NewSession client) false). cbn [snd].
  assert (∀ i o, (room_objects r ++ [new]) !! i = Some o → room_objects r !! i = Some o ∨ (i = length (room_objects r) ∧ o = new)) as Happ.
  { intros i o [H|[Hl H]]%lookup_app_Some; [by left|]. apply list_lookup_singleton_Some in H as [H <-]. right. split; [lia|done]. }
  assert (∀ i o, room_objects r !! i = Some o → (room_objects r ++ [new]) !! i = Some o) as Hold by (intros; by apply lookup_app_l_Some).
  assert ((room_objects r ++ [new]) !! length (room_objects r) = Some new) as Hnew by (by apply list_lookup_middle).
  split; [split; [done..|]; intros i o Hi; exists o; by split; [apply Hold|]|].
  split; cbn [room_snapshot room_connections room_objects set_connections]; [done|..].
  - intros id' i [[<- <-]|[Hne Hi]]%lookup_insert_Some; [by exists new|]. destruct (Hn _ _ Hi) as (o & ? & ?). exists o. split; [by apply Hold|done].
  - intros i o [Hi|[-> ->]]%Happ Hcl; [|by rewrite lookup_insert_eq]. rewrite lookup_insert_ne; [by apply Ho|].
    intros ->. apply Hid. exists i. by apply Ho.
  - intros i j o o' [Hi|[-> ->]]%Happ [Hj|[-> ->]]%Happ Hcl Hcl' E1; [by eapply Hc| | |done].
    + by destruct (Hfree i o).
    + by destruct (Hfree j o').
  - intros i o [Hi|[-> ->]]%Happ; [by eapply Hse|done].
Qed.

(** The reply of an action, by cases. *)
Tactic Notation "reply" simple_intropattern(pat) := let x := fresh "x" in intros x; cbn in x; destruct x as pat.

(** What a section under the mutex leaves. *)
Definition section {A} (r : providerRoom) (h : hold) (x : A * providerRoom) (h' : hold) : Prop := h' = h ∧ good_next r x.2.

Lemma recover_plain background key : only plain_op (loadSnapshot pool fuel p background key).
Proof.
  unfold loadSnapshot. destruct (pv_store p) as [s|]; [|done]. destruct (has_UpdateLogStore s); [|by split].
  apply only_then; [apply on_store_plain|by intros]. 
Qed.

Lemma resolve_plain key : only plain_op (resolveRoomAuthority p key).
Proof. unfold resolveRoomAuthority. repeat case_match; by split. Qed.

Lemma append_plain key u authority : only plain_op (append_document p key u authority).
Proof. unfold append_document. repeat case_match; cbn; by split_and?. Qed.

Lemma save_plain key s t authority : only plain_op (saveSnapshot p key s t authority).
Proof. unfold saveSnapshot. repeat case_match; by split. Qed.

Lemma trim_plain key t authority : only plain_op (trimUpdates p key t authority).
Proof. unfold trimUpdates. repeat case_match; by split. Qed.

Lemma apply_section key payload r h : room_ok r → lp (applyDocumentPayloadLocked pool fuel p key payload r) (section r h) h.
Proof.
  intros Hr. pose proof (good_next_refl r Hr) as Hrefl. unfold applyDocumentPayloadLocked. destruct (room_authorityLost r); [by split|].
  reply [err|]; [by split|]. destruct (ConvertUpdateToV2YjsWire payload) as [u|]; [|by split]. reply [err|]; [by split|]. apply lp_bind.
  apply lp_plain; [case_match; [apply append_plain|done]|]. intros [[record|err]|err]; [| |by split].
  - destruct (merged_V2 _ _) as [m|err]; [split; [done|by apply set_document_good]|]. case_match; [by split|]. apply lp_bind.
    apply lp_plain; [apply recover_plain|]. intros [[[s t] c]|err']; [|by split]. destruct (persistedSnapshotUpdateV2 _); [|by split].
    split; [done|by apply set_document_good].
  - case_match; (split; [done|]); [by apply lose_authority_good|done].
Qed.

Lemma session_section c message r h : room_ok r → Protocol message ≠ ProtocolTypeSync → lp (session_handle pool c message r) (section r h) h.
Proof.
  intros Hr Hp now. pose proof (λ o, HandleProtocolMessage_own pool now message o) as Hown.
  cbn. destruct (HandleProtocolMessage pool now (Some message) (cn_session (object c r))) as [out s] eqn:E. split; [done|]. cbn [snd].
  apply update_session_good; [done|]. intros o Ho. specialize (Hown o (ro_sessions r Hr _ _ Ho) Hp). by rewrite (object_lookup _ _ _ Ho) in E; rewrite E in Hown.
Qed.

Lemma message_section c message opts r h : room_ok r → lp (handleMessageLocked pool fuel order p c message opts r) (section r h) h.
Proof.
  intros Hr. pose proof (good_next_refl r Hr) as Hrefl. unfold handleMessageLocked. destruct (room_authorityLost r); [by split|].
  destruct (validateProtocolMessage _); [by split|]. destruct (_ =? ProtocolTypeQueryAwareness); [by split|].
  destruct (Z.eqb_spec (Protocol message) ProtocolTypeSync) as [Hp|Hp].
  - destruct (pm_Sync message) as [sync|]; [|by split]. destruct (_ || _).
    + apply lp_bind. eapply lp_mono; [|by apply apply_section]. by intros [out r'] h' [-> ?].
    + destruct (negb _); [by split|]. intros done. by split.
  - destruct (_ =? ProtocolTypeAwareness); [|destruct (_ =? ProtocolTypeAuth); [|by split]];
      apply lp_bind; (eapply lp_mono; [|by apply session_section]); by intros [out r'] h' [-> ?].
Qed.

Lemma each_section c opts messages acc r h : room_ok r → lp (handle_each pool fuel order p c opts messages acc r) (section r h) h.
Proof.
  revert acc r. induction messages as [|message messages IH]; intros acc r Hr; [by split; [|apply good_next_refl]|].
  cbn [handle_each]. reply [err|]; [by split; [|apply good_next_refl]|]. apply lp_bind. eapply lp_mono; [|by apply message_section].
  intros [out r'] h' [-> Hr']. destruct out as [[direct broadcast]|err]; [|by split].
  eapply lp_mono; [|apply IH, Hr']. intros x h' [-> Hx]. split; [done|]. by eapply good_next_trans.
Qed.

(** A whole call. *)
Definition disciplined {A} (m : io A) : Prop := lp m (λ _ h, h = None) None.

Lemma disciplined_ret {A} (x : A) : disciplined (Ret x).
Proof. done. Qed.

Lemma disciplined_bind {A B} (m : io A) (f : A → io B) : disciplined m → (∀ x, disciplined (f x)) → disciplined (m ≫= f).
Proof. intros Hm Hf. apply lp_bind. eapply lp_mono; [|exact Hm]. intros x h ->. apply Hf. Qed.

Lemma disciplined_then {A B} (m : io (result A)) (f : A → io (result B)) : disciplined m → (∀ x, disciplined (f x)) → disciplined (io_then m f).
Proof. intros Hm Hf. apply disciplined_bind; [done|]. by intros []. Qed.

Lemma disciplined_plain {A} (m : io A) : only plain_op m → disciplined m.
Proof. intros Hm. by apply lp_plain. Qed.

(** A look at the room. *)
Lemma disciplined_look {A} room (k : providerRoom → io A) : (∀ r, room_ok r → disciplined (k r)) →
  disciplined (r ← act (LockRoom room); _ ← act (UnlockRoom room r); k r).
Proof. intros Hk. split; [done|]. intros r Hr. exists r. split; [done|]. split; [by apply good_next_refl|by apply Hk]. Qed.

(** A look or a change of the room. *)
Lemma disciplined_change {A} room (f : providerRoom → providerRoom) (k : providerRoom → io A) : (∀ r, room_ok r → good_next r (f r)) → (∀ r, disciplined (k r)) →
  disciplined (r ← act (LockRoom room); _ ← act (UnlockRoom room (f r)); k r).
Proof. intros Hf Hk. split; [done|]. intros r Hr. exists r. split; [done|]. split; [by apply Hf|apply Hk]. Qed.

Lemma mark_lost_disciplined {A} room (out : A) : disciplined (mark_lost room out).
Proof. apply (disciplined_change room lose_authority (λ _, Ret out)); [by intros; apply lose_authority_good|done]. Qed.

Lemma loadRoom_disciplined key : disciplined (loadRoom pool fuel p key).
Proof.
  apply disciplined_then; [apply disciplined_plain, resolve_plain|]. intros authority. apply disciplined_then; [apply disciplined_plain, recover_plain|].
  intros [[s t] c]. destruct (persistedSnapshotUpdateV2 _) as [u|]; [|done]. split_and!; [done|apply room_new_ok|done|]. by intros room.
Qed.

Lemma ensureRoom_disciplined key : disciplined (ensureRoom pool fuel p key).
Proof.
  unfold ensureRoom. reply [room|]; [done|]. reply [loaded|]; [done|]. apply lp_bind. reply [room|]; [done|].
  eapply lp_mono; [|apply loadRoom_disciplined]. by intros x h ->.
Qed.

Lemma Open_disciplined key id client : disciplined (Open pool fuel order p key id client).
Proof.
  unfold Open. destruct (is_blank id); [done|]. destruct (DocumentKey_Validate key); [done|]. apply disciplined_then; [apply ensureRoom_disciplined|].
  intros room. split; [done|]. intros r Hr. pose proof (attach_good room id client r Hr) as Ha. cbn. destruct (attach order room id client r) as [out r'].
  by exists r.
Qed.

Lemma Revalidate_disciplined c : disciplined (RevalidateAuthority p c).
Proof.
  destruct c as [c|]; [|done]. apply disciplined_look. intros r Hr. destruct (refused c r); [done|]. cbn zeta. destruct (negb (pv_resolves p) || _); [done|].
  apply disciplined_bind; [apply disciplined_plain, resolve_plain|]. intros [resolved|err].
  - destruct (negb _); [apply mark_lost_disciplined|].
    apply (disciplined_change (conn_room c) (λ r, if room_authorityLost r then r else set_authority resolved r) (λ _, Ret None)); [|done].
    intros r' Hr'. case_match; [by apply good_next_refl|by apply set_authority_good].
  - destruct (_ || _); [apply mark_lost_disciplined|done].
Qed.

Lemma Handle_disciplined c src opts : disciplined (HandleEncodedMessagesContextWithOptions pool fuel order p c src opts).
Proof.
  destruct c as [c|]; [|done]. cbn [HandleEncodedMessagesContextWithOptions]. reply [err|]; [done|]. cbn.
  destruct (DecodeProtocolMessages src) as [messages|]; [|done]. destruct (step1_only messages) as [[message sync]|].
  - unfold handleSyncStep1Only. apply lp_require; [done|]. apply disciplined_look. intros r Hr. by apply lp_require.
  - split; [done|]. intros r Hr. cbn. destruct (refused c r); [exists r; split; [done|]; split; [by apply good_next_refl|done]|].
    apply lp_bind. eapply lp_mono; [|by apply each_section]. intros [out r'] h [-> Hr']. by exists r.
Qed.

Lemma Persist_disciplined c : disciplined (Persist p c).
Proof.
  destruct c as [c|]; [|done]. apply disciplined_look. intros r Hr. destruct (refused c r); [done|]. case_bool_decide; [done|].
  apply disciplined_bind; [by case_match|]. intros [snapshot|]; [|done]. apply disciplined_bind; [apply disciplined_plain, save_plain|].
  intros [record|err]; [|case_match; [apply mark_lost_disciplined|done]]. destruct (_ && _); [|done].
  apply disciplined_bind; [apply disciplined_plain, trim_plain|]. intros [err|]; [case_match; [apply mark_lost_disciplined|done]|].
  apply (disciplined_change (conn_room c) (raise_compactedAt (room_lastOffset r)) (λ _, Ret (record, None))); [|done].
  intros r' Hr'. unfold raise_compactedAt. case_match; [|by apply good_next_refl]. split; [by apply same_objects_next|]. apply (same_connections_ok r'); [done..|apply Hr'|done].
Qed.

Lemma Close_disciplined c : disciplined (Connection_Close c).
Proof.
  destruct c as [c|]; [|done]. split; [done|]. intros r Hr. cbn. destruct (cn_closed (object c r)) eqn:Hcl.
  { exists r. split; [done|]. split; [by apply good_next_refl|done]. }
  intros now. cbn. assert (∃ o, room_objects r !! conn_index c = Some o) as [o Ho].
  { unfold object in Hcl. destruct (room_objects r !! conn_index c) as [o|]; [by exists o|done]. }
  rewrite (object_lookup _ _ _ Ho) in *. pose proof (tombstone_own now o (ro_sessions r Hr _ _ Ho)) as Hown.
  destruct (localAwarenessTombstone now o) as [tombstone s]. cbn [snd] in Hown.
  assert (good_next r (update_session c s r)) as Hu by (apply update_session_good; [done|]; intros o' Ho'; by simplify_eq).
  destruct (match tombstone with [] => _ | _ => _ end) as [b|]; [|by exists r]. exists r. split; [done|]. split.
  - eapply good_next_trans; [exact Hu|]. apply detach_good; [apply Hu|]. exists (set_session s o). split; [|done].
    unfold update_session. cbn. rewrite list_lookup_alter_eq, Ho. done.
  - by case_match.
Qed.

End operations.
