(* ===== verification/ReplayFacts.v ===== *)
(** * The pages of an update log

    Both replays list the log page by page from the position of the last record
    they took ([Replay.page_loop]).  While nobody removes records behind the
    position it starts from, the loop consumes exactly the log as it is when its last
    page comes back empty. *)
From stdpp Require Import relations.
From S2P Require Import Prelude GoError StorageTypes MemoryStore StoreSpec Effects Facade Snapshot Replay.
#[local] Open Scope io_scope.

(** ** The log behind an offset *)

Definition behind (key : DocumentKey) (after : Z) (s : Store) : list UpdateLogRecord :=
  filter (λ r, after < ul_Offset r) (log s key).

(** The last offset of a list of records, [after] without any. *)
Definition last_offset (after : Z) (rs : list UpdateLogRecord) : Z := default after (ul_Offset <$> last rs).

Lemma last_offset_app after rs page : last_offset after (rs ++ page) = last_offset (last_offset after rs) page.
Proof. unfold last_offset. rewrite last_app. by destruct (last page). Qed.

Lemma last_offset_above after rs : Forall (λ r, after < ul_Offset r) rs → after <= last_offset after rs.
Proof.
  intros Hrs. unfold last_offset. destruct (last rs) as [r|] eqn:E; cbn; [|lia].
  rewrite Forall_forall in Hrs. specialize (Hrs r (last_Some_elem_of _ _ E)). cbn in Hrs. lia.
Qed.

Abbreviation ascending := (StronglySorted (λ a b, ul_Offset a < ul_Offset b)).

Lemma ascending_app rs rs' : ascending (rs ++ rs') → ascending rs ∧ ascending rs' ∧
  ∀ a b, a ∈ rs → b ∈ rs' → ul_Offset a < ul_Offset b.
Proof.
  induction rs as [|r rs IH]; cbn [app]; intros H; [split_and!; [constructor|done|set_solver]|].
  apply StronglySorted_inv in H as [Hs Hr]. destruct (IH Hs) as (H1 & H2 & H3). rewrite Forall_app in Hr. destruct Hr as [Hr Hr'].
  split_and!; [by constructor|done|]. rewrite Forall_forall in Hr'. intros a b [->|Ha]%elem_of_cons Hb; [by apply Hr'|by apply H3].
Qed.

(** Behind the last of the first records are the others. *)
Lemma filter_last_offset after rs rest : ascending (rs ++ rest) → Forall (λ r, after < ul_Offset r) (rs ++ rest) →
  filter (λ r, last_offset after rs < ul_Offset r) (rs ++ rest) = rest.
Proof.
  intros Hs Ha. destruct (ascending_app _ _ Hs) as (Hs1 & _ & Hlt). apply Forall_app in Ha as [_ Ha].
  rewrite filter_app. assert (filter (λ r, last_offset after rs < ul_Offset r) rs = []) as ->.
  { apply filter_none. clear -Hs1. induction rs as [|x rs IH] using rev_ind; [constructor|].
    unfold last_offset. rewrite last_snoc. cbn. destruct (ascending_app _ _ Hs1) as (_ & _ & H).
    apply Forall_app. split; [|by constructor; [lia|]]. apply Forall_forall. intros y Hy. specialize (H y x Hy ltac:(set_solver)). lia. }
  cbn. apply filter_all. apply Forall_forall. intros r Hr. unfold last_offset.
  destruct (last rs) as [x|] eqn:E; cbn; [|rewrite Forall_forall in Ha; by apply Ha].
  apply Hlt; [by apply last_Some_elem_of|done].
Qed.

Lemma behind_ascending key after s : store_ok s → ascending (behind key after s).
Proof. intros Hs. apply SSorted_filter. apply (log_ok_default s key Hs). Qed.

Lemma behind_above key after s : Forall (λ r, after < ul_Offset r) (behind key after s).
Proof. apply Forall_forall. by intros r [? _]%list_elem_of_filter. Qed.

Lemma behind_behind key after after' s : after <= after' →
  behind key after' s = filter (λ r, after' < ul_Offset r) (behind key after s).
Proof.
  intros Ha. unfold behind. rewrite list_filter_filter. apply list_filter_iff. intros r. lia.
Qed.

(** What is left of the log behind its first records. *)
Lemma behind_last key after s rs rest : store_ok s → behind key after s = rs ++ rest →
  behind key (last_offset after rs) s = rest.
Proof.
  intros Hs Hb. pose proof (behind_ascending key after s Hs) as Hasc. pose proof (behind_above key after s) as Hab. rewrite Hb in Hasc, Hab.
  rewrite (behind_behind key after); [|apply last_offset_above; by apply Forall_app in Hab as [? _]]. rewrite Hb. by apply filter_last_offset.
Qed.

(** A page is the beginning of what is behind the offset, and not empty without need. *)
Lemma ListUpdates_page s key after limit : store_ok s → DocumentKey_Validate key = None →
  ∃ page rest, ListUpdates None key after limit s = Ok page ∧ behind key after s = page ++ rest ∧ (page = [] → rest = []).
Proof.
  intros Hs Hk. unfold ListUpdates. cbn [guard_err foldr]. rewrite Hk. destruct (log_ok_default s key Hs) as [Hsort _].
  destruct (first_index_filter _ after Hsort) as [Hd Hle]. set (start := firstUpdateLogIndexAfter _ _) in *.
  change (filter (λ r, after < ul_Offset r) (log s key)) with (behind key after s) in Hd.
  destruct (Nat.leb_spec (length (log s key)) start) as [Hst|Hst].
  - exists [], []. split_and!; [done| |done]. rewrite <- Hd. by apply drop_ge.
  - rewrite <- Hd. set (n := Z.to_nat _). exists (take n (drop start (log s key))), (drop n (drop start (log s key))).
    split_and!; [done|by rewrite take_drop|]. intros Hn%(f_equal length). rewrite length_take, length_drop in Hn. cbn in Hn.
    destruct n eqn:E; [|lia]. exfalso. destruct ((0 <? limit) && _) eqn:El; [|lia]. apply andb_true_iff in El as [El _]. apply Z.ltb_lt in El. lia.
Qed.

(** ** What others may do *)

Abbreviation call := (@call PersistedSnapshot).
Abbreviation perform := (perform convert_update encode_persisted).

(** A call that neither trims the log of the document behind [after] nor saves a
    snapshot of it. *)
Definition harmless (key : DocumentKey) (after : Z) (c : call) : bool :=
  match c_request c with
  | TrimUpdates_ k through | TrimUpdatesAuthoritative_ k through _ => negb (bool_decide (k = key)) || (through <=? after)
  | SaveSnapshotCheckpointEpoch_ k _ _ _ | SaveSnapshotCheckpointAuthoritative_ k _ _ _ => negb (bool_decide (k = key))
  | _ => true
  end.

(** No offset counter is at its end. *)
Definition room (s : Store) : Prop := ∀ k, get0 (updateNext s) k + 1 < 18446744073709551616.

Definition others (key : DocumentKey) (after : Z) (s s' : Store) : Prop :=
  ∃ c out, perform c s = (out, s') ∧ harmless key after c = true ∧ room s.

Definition sound (s : Store) : Prop := store_ok s ∧ ∀ k, 0 <= get0 (updateNext s) k.

Lemma sound_perform c s out s' : sound s → room s → perform c s = (out, s') → sound s'.
Proof.
  intros [Hs Hn] Hr He%perform_effect; [|apply (ok_lease _ Hs)].
  destruct (store_ok_effect s s' 18446744073709551614 Hs) as [Hs' Hn']; [|lia|done|].
  - intros k. specialize (Hn k). specialize (Hr k). lia.
  - split; [done|]. intros k. apply Hn'.
Qed.

(** A call that is not a trim leaves the logs alone or appends one record to one of them. *)
Definition appends (s s' : Store) : Prop :=
  updateLogs s' = updateLogs s ∨ ∃ k r, updateLogs s' = <[k := log s k ++ [r]]> (updateLogs s).

Lemma appends_record s k v1 v2 epoch now : appends s (append_record s k v1 v2 epoch now).2.
Proof. right. by eexists k, _. Qed.

Ltac same_logs := unfold failing; repeat case_match; cbn; first [by left|apply appends_record].

Lemma perform_appends c s out s' : perform c s = (out, s') →
  match c_request c with TrimUpdates_ _ _ | TrimUpdatesAuthoritative_ _ _ _ => True | _ => appends s s' end.
Proof.
  destruct c as [ctx now r]; destruct r; cbn [StoreSpec.perform c_request c_ctxErr c_now]; intros H;
    try (apply outcome_snd in H; subst s'); try exact I.
  - unfold AppendUpdate. same_logs.
  - unfold AppendUpdateV2, appendUpdateV2. same_logs.
  - unfold AppendUpdateAuthoritative. same_logs.
  - unfold AppendUpdateV2Authoritative, appendUpdateV2. same_logs.
  - unfold SavePlacement. same_logs.
  - unfold SaveLease. same_logs.
  - unfold HandoffLease. same_logs.
  - assert (s' = (ReleaseLease ctx shardID token s).2) as -> by by rewrite H. unfold ReleaseLease. same_logs.
  - unfold SaveSnapshotCheckpointEpoch. same_logs.
  - unfold SaveSnapshotCheckpointAuthoritative. same_logs.
Qed.

Lemma appends_behind key after s s' : appends s s' → behind key after s `prefix_of` behind key after s'.
Proof.
  unfold behind. intros [->|(k & r & ->)]; [done|]. destruct (decide (k = key)) as [->|Hk].
  - rewrite lookup_insert_eq. cbn [default from_option id]. rewrite filter_app. by eexists.
  - by rewrite lookup_insert_ne.
Qed.

Lemma trim_behind key after k through s : store_ok s → k ≠ key ∨ through <= after →
  behind key after (trim_records k through s) = behind key after s.
Proof.
  intros Hs Hk. unfold behind. rewrite trim_records_log by done. destruct (decide (key = k)) as [->|]; [|done].
  rewrite list_filter_filter. apply list_filter_iff. intros r. destruct Hk; [done|lia].
Qed.

(** What a call may do to the snapshots. *)
Lemma perform_items c s out s' : perform c s = (out, s') →
  items s' = items s ∨ ∃ k m, items s' = <[k := m]> (items s) ∧
    match c_request c with
    | SaveSnapshotCheckpointEpoch_ k' _ _ _ | SaveSnapshotCheckpointAuthoritative_ k' _ _ _ => k' = k
    | _ => False
    end.
Proof.
  destruct c as [ctx now r]; destruct r; cbn [StoreSpec.perform c_request c_ctxErr c_now]; intros H;
    try (apply outcome_snd in H; subst s'); try (left; done).
  - left. unfold AppendUpdate, failing. by repeat case_match.
  - left. unfold AppendUpdateV2, appendUpdateV2, failing. by repeat case_match.
  - left. unfold AppendUpdateAuthoritative, failing. by repeat case_match.
  - left. unfold AppendUpdateV2Authoritative, appendUpdateV2, failing. by repeat case_match.
  - left. unfold TrimUpdates in H. case_match; simplify_eq; [done|apply trim_records_same].
  - left. unfold TrimUpdatesAuthoritative in H. repeat case_match; simplify_eq; first [done|apply trim_records_same].
  - left. unfold SavePlacement, failing. by repeat case_match.
  - left. unfold SaveLease, failing. by repeat case_match.
  - left. unfold HandoffLease, failing. by repeat case_match.
  - left. assert (s' = (ReleaseLease ctx shardID token s).2) as -> by by rewrite H. unfold ReleaseLease. by repeat case_match.
  - unfold SaveSnapshotCheckpointEpoch, failing. repeat case_match; cbn; eauto 10.
  - unfold SaveSnapshotCheckpointAuthoritative, failing. repeat case_match; cbn; eauto 10.
Qed.

(** Others only add to the log behind [after], and leave the snapshot of the document. *)
Record kept (key : DocumentKey) (after : Z) (s s' : Store) : Prop := {
  kept_sound : sound s';
  kept_log : behind key after s `prefix_of` behind key after s';
  kept_item : items s' !! key = items s !! key }.

Lemma kept_refl key after s : sound s → kept key after s s.
Proof. by split. Qed.

Lemma kept_trans key after s1 s2 s3 : kept key after s1 s2 → kept key after s2 s3 → kept key after s1 s3.
Proof. intros [] []. split; [done|by etrans|congruence]. Qed.

Lemma others_kept key after s s' : sound s → others key after s s' → kept key after s s'.
Proof.
  intros Hs (c & out & Hp & Hc & Hr). split; [by eapply sound_perform| |].
  - pose proof (perform_appends _ _ _ _ Hp) as Ha. unfold harmless in Hc. destruct (c_request c) eqn:E; try by apply appends_behind.
    + assert (s' = (TrimUpdates (c_ctxErr c) key0 through s).2) as ->
        by (unfold StoreSpec.perform in Hp; rewrite E in Hp; by rewrite Hp).
      unfold TrimUpdates. case_match; [done|]. cbn [snd]. rewrite trim_behind; [done|apply Hs|].
      apply orb_true_iff in Hc as [Hc|Hc]; [left; by case_bool_decide|right; lia].
    + assert (s' = (TrimUpdatesAuthoritative (c_ctxErr c) (c_now c) key0 through fence s).2) as ->
        by (unfold StoreSpec.perform in Hp; rewrite E in Hp; by rewrite Hp).
      unfold TrimUpdatesAuthoritative. repeat case_match; [done..|]. cbn [snd]. rewrite trim_behind; [done|apply Hs|].
      apply orb_true_iff in Hc as [Hc|Hc]; [left; by case_bool_decide|right; lia].
  - destruct (perform_items _ _ _ _ Hp) as [->|(k & m & -> & Hk)]; [done|]. unfold harmless in Hc.
    destruct (c_request c); try done; subst k; case_bool_decide; try done; by rewrite lookup_insert_ne.
Qed.

Lemma rtc_others_kept key after s s' : sound s → rtc (others key after) s s' → kept key after s s'.
Proof.
  intros Hs Hr. induction Hr as [s|s s1 s2 H1 _ IH]; [by apply kept_refl|].
  pose proof (others_kept _ _ _ _ Hs H1) as Hk. eapply kept_trans; [done|]. apply IH, Hk.
Qed.

(** ** The loop over the pages *)

Definition alive (i : instant) : Prop := i_ctx i = None.

Abbreviation wp_others key after := (wp (rtc (others key after)) alive).

Section pages.
Context {A : Type} {pos_of : A → position} {step : list (option UpdateLogRecord) → A → result A}.
Variables (key : DocumentKey) (limit : Z).

(** [Inv rs acc]: [acc] is what the records [rs] make of the start. *)
Context {after : Z} (Inv : list UpdateLogRecord → A → Prop).
Hypothesis Inv_pos : ∀ rs acc, Inv rs acc → Through (pos_of acc) = last_offset after rs.
Hypothesis Inv_step : ∀ rs acc page acc', Inv rs acc → page ≠ [] → step (Some <$> page) acc = Ok acc' → Inv (rs ++ page) acc'.
Hypothesis key_ok : DocumentKey_Validate key = None.

(** The loop ends with the log as it is in the end, or at a page [step] refuses;
    it needs at most a round per record of the log, and one more. *)
Definition paged (fuel : nat) (rs : list UpdateLogRecord) (r : result A) (s' : Store) : Prop :=
  match r with
  | Ok acc => Inv (behind key after s') acc
  | Err err => (err = FuelExhausted ∧ (fuel + length rs ≤ length (behind key after s'))%nat) ∨
      ∃ rs' page acc, Inv rs' acc ∧ rs' ++ page `prefix_of` behind key after s' ∧ step (Some <$> page) acc = Err err
  end.

Lemma page_loop_spec fuel rs acc s : sound s → Inv rs acc → rs `prefix_of` behind key after s →
  wp_others key after (page_loop pos_of step key limit fuel acc) (λ r s', kept key after s s' ∧ paged fuel rs r s') s.
Proof.
  revert rs acc s. induction fuel as [|fuel IH]; intros rs acc s Hs Hi Hp; cbn [page_loop wp].
  - split; [by apply kept_refl|]. left. split; [done|]. by apply prefix_length in Hp.
  - intros s1 i1 H1 Hl1. cbn [answer memory_log fst snd]. unfold i_ctxErr. rewrite Hl1. cbn [fmap option_fmap option_map].
    pose proof (rtc_others_kept _ _ _ _ Hs H1) as K1. apply wp_then. cbn [wp act].
    intros s2 i2 H2 Hl2. pose proof (rtc_others_kept _ _ _ _ (kept_sound _ _ _ _ K1) H2) as K2.
    pose proof (kept_trans _ _ _ _ _ K1 K2) as K. cbn [answer memory_log fst snd]. unfold i_ctxErr. rewrite Hl2. cbn [fmap option_fmap option_map].
    destruct (ListUpdates_page s2 key (Through (pos_of acc)) limit) as (page & rest & -> & Hb & Hpage); [apply K|done|].
    cbn [fmap result_fmap]. rewrite (Inv_pos _ _ Hi) in Hb.
    destruct Hp as [k Hk]. destruct (kept_log _ _ _ _ K) as [k2 Hk2]. rewrite Hk, <- app_assoc in Hk2.
    rewrite (behind_last key after s2 rs (k ++ k2)) in Hb; [|apply K|done].
    destruct page as [|r page]; [|rewrite fmap_cons; cbn iota; rewrite <- fmap_cons].
    + split; [done|]. cbn. rewrite Hpage in Hb by done. rewrite Hk2, Hb. cbn. by rewrite app_nil_r.
    + assert (rs ++ r :: page `prefix_of` behind key after s2) as Hpre.
      { exists rest. rewrite Hk2, Hb. by rewrite <- app_assoc. }
      destruct (step (Some <$> (r :: page)) acc) as [acc'|err] eqn:E; cbn [wp].
      * eapply wp_mono; [|apply (IH (rs ++ r :: page) acc' s2); [apply K|by eapply Inv_step|done]].
        cbn. intros x s' [K' Hx]. split; [by eapply kept_trans|]. destruct x as [x|err]; [done|].
        destruct Hx as [[-> Hx]|Hx]; [left|by right]. split; [done|]. rewrite length_app in Hx. cbn in Hx. lia.
      * split; [done|]. right. by exists rs, (r :: page), acc.
Qed.

End pages.

(** ** The records a replay takes *)

Definition end_pos (pos : position) (rs : list UpdateLogRecord) : position := fold_left (λ pos r, next_position r pos) rs pos.

Lemma end_pos_app pos rs page : end_pos pos (rs ++ page) = end_pos (end_pos pos rs) page.
Proof. apply fold_left_app. Qed.

Lemma end_pos_Through pos rs : Through (end_pos pos rs) = last_offset (Through pos) rs.
Proof.
  induction rs as [|r rs IH] using rev_ind; [done|]. rewrite end_pos_app. unfold last_offset. by rewrite last_snoc.
Qed.

(** Every record passes the checks from the position before it. *)
Fixpoint accepted (key : DocumentKey) (pos : position) (rs : list UpdateLogRecord) : Prop :=
  match rs with
  | [] => True
  | r :: rs => check_record key pos (Some r) = Ok r ∧ accepted key (next_position r pos) rs
  end.

Lemma accepted_app key pos rs page : accepted key pos (rs ++ page) ↔ accepted key pos rs ∧ accepted key (end_pos pos rs) page.
Proof. revert pos. induction rs as [|r rs IH]; intros pos; cbn; [tauto|]. rewrite IH. unfold end_pos. cbn. tauto. Qed.

Lemma check_record_Some key pos r r' : check_record key pos (Some r) = Ok r' → r' = r.
Proof. unfold check_record. repeat case_match; congruence. Qed.

(** In a sound store only the epochs are left to check. *)
Lemma check_record_log key pos r err : ul_Key r = key → UpdateLogRecord_Validate r = None → Through pos < ul_Offset r →
  check_record key pos (Some r) = Err err → errors_Is err storage_ErrUpdateLogEpochRegression = true ∧ ul_Epoch r < LastEpoch pos.
Proof.
  intros Hk Hv Ho. unfold check_record, validateReplayEpochProgression. rewrite Hv. rewrite bool_decide_eq_true_2 by done. cbn [negb].
  rewrite (proj2 (Z.leb_gt _ _)) by lia. destruct (_ || _); [done|]. destruct (Z.ltb_spec (ul_Epoch r) (LastEpoch pos)); [|done].
  by intros [= <-].
Qed.

Lemma tail_records_Ok key page tail pos tail' pos' : tail_records key (Some <$> page) tail pos = Ok (tail', pos') ↔
  tail' = tail ++ page ∧ pos' = end_pos pos page ∧ accepted key pos page.
Proof.
  revert tail pos. induction page as [|r page IH]; intros tail pos; cbn [fmap list_fmap tail_records accepted].
  - rewrite app_nil_r. split; [by intros [= <- <-]|by intros (-> & -> & _)].
  - destruct (check_record key pos (Some r)) as [r'|] eqn:E; cbn [mbind result_bind]; [|by split; [|intros (_ & _ & ? & _)]].
    pose proof (check_record_Some _ _ _ _ E) as ->. rewrite IH, <- app_assoc. unfold end_pos. cbn. tauto.
Qed.

(** The payloads of a page, converted. *)
Abbreviation payload_of := (λ r v, updateLogRecordV2 (Some r) = Ok v).

Lemma replay_records_Ok key page updates pos n updates' pos' n' :
  replay_records key (Some <$> page) updates pos n = Ok (updates', pos', n') ↔
  ∃ v2s, Forall2 payload_of page v2s ∧ updates' = updates ++ v2s ∧ pos' = end_pos pos page ∧ n' = (n + length page)%nat ∧ accepted key pos page.
Proof.
  revert updates pos n. induction page as [|r page IH]; intros updates pos n; cbn [fmap list_fmap replay_records accepted].
  - split; [intros [= <- <- <-]; exists []; rewrite app_nil_r; split_and!; [constructor|done..|cbn; lia|done]|].
    intros (v2s & ->%Forall2_nil_inv_l & -> & -> & -> & _). rewrite app_nil_r. cbn. by rewrite Nat.add_0_r.
  - destruct (check_record key pos (Some r)) as [r'|] eqn:E; cbn [mbind result_bind]; [|by split; [|intros (? & _ & _ & _ & _ & ? & _)]].
    pose proof (check_record_Some _ _ _ _ E) as ->. destruct (updateLogRecordV2 (Some r)) as [v|err] eqn:Ev.
    + rewrite IH. split.
      * intros (v2s & Hv & -> & -> & -> & Ha). exists (v :: v2s). rewrite <- app_assoc. split_and!; [by constructor|done..|cbn; lia|done|done].
      * intros (v2s & (v' & v2s' & Hv & Hv2 & ->)%Forall2_cons_inv_l & -> & -> & -> & _ & Ha). rewrite Ev in Hv. injection Hv as <-.
        exists v2s'. rewrite <- app_assoc. split_and!; [done..|cbn; lia|done].
    + split; [done|]. intros (v2s & (v' & v2s' & Hv & _)%Forall2_cons_inv_l & _). congruence.
Qed.

Section pool.
Variable pool : list bytes → Run * Run.

(** [u] is [u0] merged with the payloads of the records, some at a time. *)
Inductive replayed (u0 : bytes) : list UpdateLogRecord → bytes → Prop :=
| replayed_nil : replayed u0 [] u0
| replayed_page rs u page v2s u' : replayed u0 rs u → Forall2 payload_of page v2s → merge pool (u :: v2s) = Ok u' →
    replayed u0 (rs ++ page) u'.

Definition tail_inv (key : DocumentKey) (pos : position) (rs : list UpdateLogRecord) (state : tail_state) : Prop :=
  state = (rs, end_pos pos rs) ∧ accepted key pos rs.

Lemma tail_inv_step key pos rs state page state' : tail_inv key pos rs state →
  tail_records key (Some <$> page) state.1 state.2 = Ok state' → tail_inv key pos (rs ++ page) state'.
Proof.
  intros [-> Ha] H. destruct state' as [tail' pos']. apply tail_records_Ok in H as (-> & -> & Hp).
  split; [by rewrite end_pos_app|]. by apply accepted_app.
Qed.

Definition replay_inv (key : DocumentKey) (u0 : bytes) (pos : position) (rs : list UpdateLogRecord) (state : replay_state) : Prop :=
  state.1.2 = end_pos pos rs ∧ state.2 = length rs ∧ accepted key pos rs ∧ replayed u0 rs state.1.1.

Lemma replay_inv_step key u0 pos rs state page state' : replay_inv key u0 pos rs state →
  replay_page pool key (Some <$> page) state = Ok state' → replay_inv key u0 pos (rs ++ page) state'.
Proof.
  intros (Hp & Hn & Ha & Hr) H. unfold replay_page, replayUpdateBatchContext in H.
  destruct (replay_records _ _ _ _ _) as [[[updates pos'] n']|] eqn:E; [|done]. cbn [mbind result_bind] in H.
  apply replay_records_Ok in E as (v2s & Hv & -> & -> & -> & Hacc). destruct (merge pool _) as [u'|] eqn:Em; [|done]. cbn in H. injection H as <-.
  split; cbn [fst snd]; [by rewrite end_pos_app, Hp|]. split; [rewrite length_app; lia|]. rewrite Hp in Hacc.
  split; [by apply accepted_app|by eapply replayed_page].
Qed.

End pool.

(** ** Loading and replaying *)

Section recover.
Variable pool : list bytes → Run * Run.
Variables (key : DocumentKey) (after : Z).
Hypothesis key_ok : DocumentKey_Validate key = None.

(** What [loadReplayBaseSnapshot] makes of the stored snapshot. *)
Definition stored_base (s : Store) : result (PersistedSnapshot * Z * Z) :=
  match items s !! key with
  | None => Ok (NewPersistedSnapshot, 0, 0)
  | Some m => p ← DecodePersistedSnapshotV2 (ms_updateV2 m); Ok (PersistedSnapshot_Clone (Some p), ms_through m, ms_epoch m)
  end.

Lemma stored_base_kept s s' : kept key after s s' → stored_base s' = stored_base s.
Proof. intros K. unfold stored_base. by rewrite (kept_item _ _ _ _ K). Qed.

Lemma load_spec s base : sound s → stored_base s = Ok base →
  wp_others key after (loadReplayBaseSnapshot true key) (λ r s', kept key after s s' ∧ r = Ok base) s.
Proof.
  intros Hs Hb s1 i H1 Hl. pose proof (rtc_others_kept _ _ _ _ Hs H1) as K. split; [done|].
  rewrite <- (stored_base_kept _ _ K) in Hb. unfold stored_base in Hb.
  cbn [answer memory_log fst snd]. unfold i_ctxErr, LoadSnapshot. rewrite Hl. cbn [fmap option_fmap option_map guard_err foldr]. rewrite key_ok.
  destruct (items s1 !! key) as [m|]; cbn [with_pointer fmap result_fmap]; [|done].
  unfold toSnapshotRecord. destruct (DecodePersistedSnapshotV2 (ms_updateV2 m)) as [p|]; [|done]. cbn in *. done.
Qed.

(** The payloads of the records behind the base. *)
Definition convert_records (rs : list UpdateLogRecord) (payloads : list bytes) : result (list bytes) :=
  fold_result (λ payloads r, v ← map_err (Wrapped "update log record %d: %w") (updateLogRecordV2 (Some r)); Ok (payloads ++ [v])) rs payloads.

Definition replayed_snapshot (base : PersistedSnapshot) (rs : list UpdateLogRecord) : result PersistedSnapshot :=
  currentUpdate ← EncodePersistedSnapshotV2 (Some base);
  payloads ← convert_records rs [currentUpdate];
  merged ← merge pool payloads;
  DecodePersistedSnapshotV2 merged.

Lemma ctxErr_spec {B} (k : option error → io B) Q s : sound s →
  (∀ s1, kept key after s s1 → wp_others key after (k None) Q s1) → wp_others key after (ctxErr ≫= k) Q s.
Proof.
  intros Hs Hk s1 i H1 Hl. cbn [answer memory_log fst snd]. unfold i_ctxErr. rewrite Hl. apply Hk. by apply rtc_others_kept.
Qed.

Lemma decode_spec s u : sound s →
  wp_others key after (decode_snapshot u) (λ r s', kept key after s s' ∧ r = DecodePersistedSnapshotV2 u) s.
Proof. intros Hs. apply ctxErr_spec; [done|]. intros s1 K. done. Qed.

Lemma replay_payloads_spec s rs payloads : sound s → Forall (λ r, UpdateLogRecord_Validate r = None) rs →
  wp_others key after (replay_payloads (Some <$> rs) payloads) (λ r s', kept key after s s' ∧ r = convert_records rs payloads) s.
Proof.
  intros Hs Hv. revert s Hs payloads. induction Hv as [|r rs Hr Hv IH]; intros s Hs payloads; [by split; [apply kept_refl|]|].
  rewrite fmap_cons. cbn [replay_payloads]. apply ctxErr_spec; [done|]. intros s1 K1. rewrite Hr. unfold convert_records. cbn [fold_result].
  destruct (updateLogRecordV2 (Some r)) as [v|err]; cbn [map_err mbind result_bind]; [|done].
  eapply wp_mono; [|apply IH, K1]. cbn. intros x s' [K ->]. split; [by eapply kept_trans|done].
Qed.

Lemma ReplaySnapshot_spec s base rs : sound s → rs ≠ [] → Forall (λ r, UpdateLogRecord_Validate r = None) rs →
  wp_others key after (ReplaySnapshot pool (Some base) (Some <$> rs)) (λ r s', kept key after s s' ∧ r = replayed_snapshot base rs) s.
Proof.
  intros Hs Hne Hv. unfold ReplaySnapshot, replayed_snapshot. destruct (EncodePersistedSnapshotV2 (Some base)) as [u0|err]; [|by split; [apply kept_refl|]].
  cbn [mbind result_bind]. destruct rs as [|r rs]; [done|]. rewrite fmap_cons. cbn iota. rewrite <- fmap_cons.
  apply wp_then. eapply wp_mono; [|by apply replay_payloads_spec]. cbn beta. intros x s1 [K1 ->].
  destruct (convert_records _ _) as [payloads|err]; cbn [mbind result_bind]; [|done].
  destruct (merge pool payloads) as [merged|err]; [|done]. eapply wp_mono; [|apply decode_spec, K1].
  cbn. intros x s' [K ->]. split; [by eapply kept_trans|done].
Qed.

Lemma log_records s rs : sound s → rs `prefix_of` behind key after s →
  Forall (λ r, ul_Key r = key ∧ UpdateLogRecord_Validate r = None) rs.
Proof.
  intros [Hs _] [k Hk]. destruct (log_ok_default s key Hs) as [_ Hf].
  assert (Forall (λ r, ul_Key r = key ∧ UpdateLogRecord_Validate r = None) (behind key after s)) as H.
  { apply Forall_filter_keep. eapply Forall_impl; [exact Hf|]. by intros r (? & ? & _). }
  rewrite Hk in H. by apply Forall_app in H as [? _].
Qed.

End recover.
