(* ===== verification/Lib0Facts.v ===== *)
(** * The column codecs round trip

    [yields read drained s l]: reading from the decoder state [s] gives exactly
    the values [l], after which the column is drained.  For each codec: what an
    encoder wrote, a decoder over its bytes yields. *)
From S2P Require Import Prelude GoError Binary Varint GoText YTypes Decoder DecoderFacts Lib0.
Import varint.

(** ** Lib0 integers *)

Lemma seven_bits b : 0 <= b < 128 →
  Z.land (Z.lor b 128) 127 = b ∧ (Z.land (Z.lor b 128) 128 =? 0) = false ∧ Z.land b 127 = b ∧ (Z.land b 128 =? 0) = true.
Proof.
  intros Hb. assert (b ∈ seqZ 0 128) as Hin by (apply elem_of_seqZ; lia). clear Hb. revert b Hin.
  apply Forall_forall. apply (bool_decide_unpack _). vm_compute. exact I.
Qed.

(** The first byte: six bits, the sign and whether another byte follows. *)
Lemma first_byte v (neg more : bool) : 0 <= v < 64 →
  let b := (if more then Z.lor (if neg then Z.lor v 64 else v) 128 else if neg then Z.lor v 64 else v) in
  Z.land b 63 = v ∧ negb (Z.land b 64 =? 0) = neg ∧ (Z.land b 128 =? 0) = negb more.
Proof.
  intros Hv. assert (v ∈ seqZ 0 64) as Hin by (apply elem_of_seqZ; lia). clear Hv. revert v Hin.
  apply Forall_forall. destruct neg, more; apply (bool_decide_unpack _); vm_compute; exact I.
Qed.

Lemma appendLib0_loop_app fuel dst v : appendLib0_loop fuel dst v = dst ++ appendLib0_loop fuel [] v.
Proof.
  revert dst v. induction fuel as [|fuel IH]; intros dst v; cbn; [by rewrite app_nil_r|].
  case_if; [|by rewrite app_nil_r]. by rewrite IH, (IH [_]), app_assoc.
Qed.

Lemma appendLib0VarIntSigned_app dst v neg : appendLib0VarIntSigned dst v neg = dst ++ appendLib0VarIntSigned [] v neg.
Proof. unfold appendLib0VarIntSigned. by rewrite (appendLib0_loop_app 9 (dst ++ _)), (appendLib0_loop_app 9 ([] ++ _)), <- app_assoc. Qed.

Lemma reads_byte {A} (k : Z → RM A) wrap b bs a : reads (k b) bs a → reads (catch ReadByte wrap ≫= k) (b :: bs) a.
Proof. intros H. by apply (reads_bind _ _ [b] bs b); [apply reads_catch, reads_ReadByte|]. Qed.

Lemma mod128 v : Z.land v 127 = v mod 128.
Proof. apply (land_ones_mod v 7). lia. Qed.

(** [k] groups of seven bits are left. *)
Lemma reads_lib0_groups op neg k fr fa q value mult : (k ≤ fr)%nat → (k ≤ fa)%nat → 0 < q < 128 ^ Z.of_nat k →
  0 <= value → 0 < mult → value + q * mult <= MaxInt64 → mult * 128 ^ (Z.of_nat k - 1) <= Z.quot MaxInt64 128 →
  reads (readLib0VarInt_loop fr op neg value mult) (appendLib0_loop fa [] q)
    (if neg then - (value + q * mult) else value + q * mult, neg).
Proof.
  revert fr fa q value mult. induction k as [|k IH]; intros fr fa q value mult Hr Ha Hq Hv Hm Hmax Hmul.
  { change (128 ^ Z.of_nat 0) with 1 in Hq. lia. }
  destruct fr as [|fr]; [lia|]. destruct fa as [|fa]; [lia|]. cbn [readLib0VarInt_loop appendLib0_loop].
  rewrite (proj2 (Z.ltb_lt 0 q)) by lia. rewrite (Z.quot_div_nonneg q 128) by lia. rewrite mod128.
  assert (1 <= 128 ^ Z.of_nat k) as Hp by (apply (Z.pow_le_mono_r 128 0); lia).
  replace (Z.of_nat (S k) - 1) with (Z.of_nat k) in Hmul by lia.
  pose proof (Z.mod_pos_bound q 128 ltac:(lia)) as Hmod. pose proof (Z.div_mod q 128 ltac:(lia)) as Hdm.
  assert (0 <= q / 128) as Hd by (apply Z.div_pos; lia).
  destruct (seven_bits (q mod 128) Hmod) as (E1 & E2 & E3 & E4).
  assert ((Z.quot MaxInt64 128 <? mult) = false) as Hov by (apply Z.ltb_ge; nia).
  assert ((Z.quot (MaxInt64 - value) mult <? q mod 128) = false) as Hov2.
  { apply Z.ltb_ge. rewrite Z.quot_div_nonneg by nia. apply Z.div_le_lower_bound; nia. }
  rewrite appendLib0_loop_app. cbn [app]. apply reads_byte, reads_offset. intros off. rewrite Hov.
  destruct (Z.ltb_spec 0 (q / 128)) as [Hmore|Hlast].
  - rewrite E1, Hov2, E2.
    assert (q * mult = q mod 128 * mult + q / 128 * (mult * 128)) as Eq by (rewrite Hdm at 1; ring).
    rewrite Eq, Z.add_assoc in *. apply IH; try lia; try nia.
    + replace (Z.of_nat (S k)) with (Z.of_nat k + 1) in Hq by lia. rewrite Z.pow_add_r in Hq by lia.
      change (128 ^ 1) with 128 in Hq. split; [lia|]. apply Z.div_lt_upper_bound; lia.
    + destruct k as [|k].
      * exfalso. change (128 ^ Z.of_nat 1) with 128 in Hq. lia.
      * replace (Z.of_nat (S k)) with (Z.of_nat (S k) - 1 + 1) in Hmul by lia. rewrite Z.pow_add_r in Hmul by lia.
        change (128 ^ 1) with 128 in Hmul. lia.
  - rewrite E3, Hov2, E4. assert (q / 128 = 0) as E0 by lia. rewrite E0, Z.mul_0_r, Z.add_0_l in Hdm.
    rewrite <- Hdm. destruct fa; cbn [appendLib0_loop]; [|rewrite E0; change (0 <? 0) with false; cbn iota]; apply reads_ret.
Qed.

Lemma reads_lib0_signed op v (neg : bool) : 0 <= v < 4611686018427387904 →
  reads (readLib0VarInt op) (appendLib0VarIntSigned [] v neg) (if neg then - v else v, neg).
Proof.
  intros Hv. unfold readLib0VarInt, appendLib0VarIntSigned. rewrite appendLib0_loop_app. cbn [app].
  rewrite (Z.quot_div_nonneg v 64) by lia. change (Z.land v 63) with (Z.land v (2 ^ 6 - 1)). rewrite (land_ones_mod v 6) by lia. change (2 ^ 6) with 64.
  pose proof (Z.mod_pos_bound v 64 ltac:(lia)) as Hm. pose proof (Z.div_mod v 64 ltac:(lia)) as Hdm.
  destruct (first_byte (v mod 64) neg (0 <? v / 64) Hm) as (E1 & E2 & E3). cbn zeta in *.
  apply reads_byte. rewrite E1, E2, E3. destruct (Z.ltb_spec 0 (v / 64)); cbn [negb].
  - pose proof (reads_lib0_groups op neg 8 9 9 (v / 64) (v mod 64) 64) as G.
    replace (v mod 64 + v / 64 * 64) with v in G by lia. change (128 ^ Z.of_nat 8) with 72057594037927936 in G.
    apply G; try lia; [unfold MaxInt64; lia|vm_compute; discriminate].
  - assert (0 <= v / 64) by (apply Z.div_pos; lia). assert (v / 64 = 0) as -> by lia.
    assert (v mod 64 = v) as -> by lia. apply reads_ret.
Qed.

Lemma reads_lib0_int op v : - 4611686018427387904 < v < 4611686018427387904 →
  reads (readLib0VarInt op) (appendLib0VarInt [] v) (v, v <? 0).
Proof.
  intros Hv. unfold appendLib0VarInt. pose proof (reads_lib0_signed op (if v <? 0 then - v else v) (v <? 0)) as H.
  destruct (Z.ltb_spec v 0); [rewrite Z.opp_involutive in H|]; apply H; lia.
Qed.

Lemma appendLib0VarInt_app dst v : appendLib0VarInt dst v = dst ++ appendLib0VarInt [] v.
Proof. apply appendLib0VarIntSigned_app. Qed.

Lemma reads_lib0_uint op v : is_u32 v → reads (readLib0VarUint op) (Append [] v) v.
Proof. intros. by apply reads_catch, reads_ReadU. Qed.

Lemma reads_lib0_string op s : str_ok s → reads (readLib0VarString op) (enc_str s) s.
Proof.
  intros Hs. rewrite enc_str_eq by done. eapply reads_bind; [apply reads_lib0_uint, Hs|]. by apply reads_catch, reads_ReadN.
Qed.

(** ** What a column delivers *)

Fixpoint yields {S A} (read : S → result A * S) (drained : S → option error) (s : S) (l : list A) : Prop :=
  match l with
  | [] => drained s = None
  | a :: l => ∃ s', read s = (Ok a, s') ∧ yields read drained s' l
  end.

Abbreviation uint_yields := (yields uint_read uint_ensureDrained).
Abbreviation diff_yields := (yields diff_read diff_ensureDrained).
Abbreviation rle_yields := (yields rle_read rle_ensureDrained).
Abbreviation str_yields := (yields str_read str_ensureDrained).

Lemma drained_end count op r : wf_reader r → view r = [] → count <= 0 → drained count op r = None.
Proof.
  intros Hw Hv Hc. unfold drained. rewrite <- length_view, Hv by done. cbn [length].
  by rewrite (proj2 (Z.ltb_ge 0 count)) by lia.
Qed.

(** Fewer than 2^32 values: run lengths fit their varint. *)
Definition few {A} (l : list A) : Prop := Z.of_nat (length l) < 4294967296.

#[export] Instance few_dec {A} (l : list A) : Decision (few l).
Proof. unfold few. apply _. Defined.

Lemma few_app_l {A} (l k : list A) : few (l ++ k) → few l.
Proof. unfold few. rewrite length_app. lia. Qed.
Lemma few_app_r {A} (l k : list A) : few (l ++ k) → few k.
Proof. unfold few. rewrite length_app. lia. Qed.

(** ** Unsigned runs *)

(** Where a run starts, the bytes [bs] give the values [l]. *)
Definition udec (op : string) (bs : bytes) (l : list Z) : Prop :=
  ∀ r v, wf_reader r → view r = bs → uint_yields (mkUintDec r v 0 op) l.

Lemma udec_nil op : udec op [] [].
Proof. intros r v Hw Hv. by apply drained_end. Qed.

Lemma uint_pending op r v n l : uint_yields (mkUintDec r v 0 op) l →
  uint_yields (mkUintDec r v (Z.of_nat n) op) (replicate n v ++ l).
Proof.
  intros H. induction n as [|n IH]; [done|]. cbn [replicate app yields].
  exists (mkUintDec r v (Z.of_nat n) op). split; [|done]. unfold uint_read. cbn [u_count u_op u_reader u_value]. cmp_known.
  do 2 f_equal. lia.
Qed.

(** The bytes of a run. *)
Definition uint_run (v n : Z) : bytes :=
  appendLib0VarIntSigned [] v (1 <? n) ++ (if 1 <? n then Append [] (n - 2) else []).

Lemma reads_uint_value op v (neg : bool) : is_u32 v → reads (uint_value op) (appendLib0VarIntSigned [] v neg) (v, neg).
Proof.
  intros Hv. eapply reads_bind_ret; [apply reads_lib0_signed; u32|]. apply reads_offset. intros off.
  assert ((if (if neg then - v else v) <? 0 then - (if neg then - v else v) else if neg then - v else v) = v) as ->
    by (destruct neg; case_if; u32).
  rewrite (proj2 (Z.ltb_ge MaxUint32 v)) by u32. apply reads_ret.
Qed.

Lemma udec_run op v n bs l : is_u32 v → Z.of_nat (S n) < 4294967296 → udec op bs l →
  udec op (uint_run v (Z.of_nat (S n)) ++ bs) (replicate (S n) v ++ l).
Proof.
  intros Hv Hn H r v0 Hw Hview. unfold uint_run in Hview. rewrite <- app_assoc in Hview.
  cbn [replicate app yields]. unfold uint_read at 1. cbn [u_count u_op u_reader]. change (0 =? 0) with true. cbn iota.
  rewrite (reads_uint_value op v (1 <? Z.of_nat (S n)) Hv r _ Hw Hview).
  pose proof (wf_advance _ _ _ Hw Hview) as Hw1. pose proof (view_advance_app _ _ _ Hview) as Hv1.
  set (r1 := advance _ r) in *.
  destruct (Z.ltb_spec 1 (Z.of_nat (S n))).
  - rewrite (reads_lib0_uint (op +:+ ".count") (Z.of_nat (S n) - 2) ltac:(u32) r1 bs Hw1 Hv1).
    eexists. split; [done|]. replace (Z.of_nat (S n) - 2 + 2 - 1) with (Z.of_nat n) by lia.
    apply uint_pending, H; [by eapply wf_advance|by apply view_advance_app].
  - assert (n = 0%nat) as -> by lia. eexists. split; [done|]. by apply H.
Qed.

(** The encoder holds the values [l]: the last run is pending. *)
Definition uenc (e : uintOptRleEncoder) (l : list Z) : Prop :=
  ∃ l0 n, l = l0 ++ replicate n (ue_value e) ∧ ue_count e = Z.of_nat n ∧ (n ≠ 0%nat → is_u32 (ue_value e)) ∧
    (few l → ∀ op bs k, udec op bs k → udec op (ue_data e ++ bs) (l0 ++ k)).

Lemma uenc_new : uenc (mkUintEnc 0 0 []) [].
Proof. exists [], 0%nat. by split_and!. Qed.

Lemma uenc_flush e l op bs k : uenc e l → few l → udec op bs k → udec op (ue_data (uint_flush e) ++ bs) (l ++ k).
Proof.
  intros (l0 & n & -> & Hc & Hv & H) Hf Hk. unfold uint_flush. rewrite Hc. destruct n as [|n].
  - cbn. rewrite app_nil_r. by apply H.
  - assert (Z.of_nat (S n) < 4294967296) as Hn.
    { apply few_app_r in Hf. unfold few in Hf. by rewrite length_replicate in Hf. }
    rewrite (proj2 (Z.eqb_neq (Z.of_nat (S n)) 0)) by lia. cbn [ue_data].
    assert ((if 1 <? Z.of_nat (S n)
      then appendVarUintV1 (appendLib0VarIntSigned (ue_data e) (ue_value e) (1 <? Z.of_nat (S n))) (w32 (Z.of_nat (S n) - 2))
      else appendLib0VarIntSigned (ue_data e) (ue_value e) (1 <? Z.of_nat (S n))) =
      ue_data e ++ uint_run (ue_value e) (Z.of_nat (S n))) as ->.
    { rewrite appendLib0VarIntSigned_app. unfold uint_run, appendVarUintV1. case_if.
      - rewrite w32_small by u32. by rewrite Append_app, <- app_assoc.
      - by rewrite app_nil_r. }
    rewrite <- !app_assoc. apply H; [done|]. apply udec_run; auto.
Qed.

Lemma uenc_write e l x : is_u32 x → uenc e l → uenc (uint_write e x) (l ++ [x]).
Proof.
  intros Hx He. unfold uint_write. destruct ((0 <? ue_count e) && (ue_value e =? x)) eqn:E.
  - apply andb_true_iff in E as [_ Ev%Z.eqb_eq]. destruct He as (l0 & n & -> & Hc & Hv & H).
    exists l0, (S n). cbn [ue_value ue_count ue_data]. subst x. split_and!; [|lia|done|].
    + by rewrite <- app_assoc, <- replicate_cons_app.
    + intros Hf. apply H. by apply few_app_l in Hf.
  - exists l, 1%nat. cbn [ue_value ue_count ue_data]. split_and!; [done..|].
    intros Hf op bs k. apply uenc_flush; [done|]. by apply few_app_l in Hf.
Qed.

Lemma uenc_bytes e l op : uenc e l → few l → uint_yields (newUintOptRleDecoder (uint_bytes e) op) l.
Proof.
  intros He Hf. pose proof (uenc_flush e l op [] [] He Hf (udec_nil op)) as H. rewrite !app_nil_r in H.
  by apply H; [apply wf_NewReader|].
Qed.

(** ** Runs of equal differences *)

(** [n] values after [v], [d] apart. *)
Fixpoint steps (v d : Z) (n : nat) : list Z :=
  match n with O => [] | S n => (v + d) :: steps (v + d) d n end.

Lemma steps_snoc v d n : steps v d (S n) = steps v d n ++ [v + Z.of_nat (S n) * d].
Proof.
  revert v. induction n as [|n IH]; intros v; [cbn; by replace (v + Z.of_nat 1 * d) with (v + d) by lia|]. cbn [steps app]. f_equal.
  change (v + d + d :: steps (v + d + d) d n) with (steps (v + d) d (S n)). rewrite IH.
  by replace (v + d + Z.of_nat (S n) * d) with (v + Z.of_nat (S (S n)) * d) by lia.
Qed.

Lemma length_steps v d n : length (steps v d n) = n.
Proof. revert v. induction n as [|n IH]; intros v; cbn; [done|by rewrite IH]. Qed.

(** Where a run starts with the last value [v]. *)
Definition ddec (op : string) (v : Z) (bs : bytes) (l : list Z) : Prop :=
  ∀ r d, wf_reader r → view r = bs → diff_yields (mkIntDec r v d 0 op) l.

Lemma ddec_nil op v : ddec op v [] [].
Proof. intros r d Hw Hv. by apply drained_end. Qed.

Lemma diff_take_ok r v d n op : is_u32 (v + d) →
  diff_take (mkIntDec r v d n op) = (Ok (v + d), mkIntDec r (v + d) d (n - 1) op).
Proof. intros H. unfold diff_take. cbn [i_value i_diff i_count i_reader i_op]. unfold MaxUint32, is_u32 in *. by cmp_known. Qed.

Lemma diff_pending op r v d n l : Forall is_u32 (steps v d n) → diff_yields (mkIntDec r (v + Z.of_nat n * d) d 0 op) l →
  diff_yields (mkIntDec r v d (Z.of_nat n) op) (steps v d n ++ l).
Proof.
  revert v. induction n as [|n IH]; intros v Hl H.
  - change (Z.of_nat 0) with 0 in *. by rewrite Z.mul_0_l, Z.add_0_r in H.
  - apply Forall_cons in Hl as [Hv Hl]. cbn [steps app yields]. unfold diff_read at 1. cbn [i_count i_op i_reader i_value].
    rewrite (proj2 (Z.eqb_neq (Z.of_nat (S n)) 0)) by lia. rewrite diff_take_ok by done.
    eexists. split; [done|]. replace (Z.of_nat (S n) - 1) with (Z.of_nat n) by lia. apply IH; [done|].
    by replace (v + d + Z.of_nat n * d) with (v + Z.of_nat (S n) * d) by lia.
Qed.

Definition diff_run (d n : Z) : bytes :=
  appendLib0VarInt [] (if 1 <? n then d * 2 + 1 else d * 2) ++ (if 1 <? n then Append [] (n - 2) else []).

(** The low bit says whether a count follows, the rest is the difference. *)
Lemma diff_code d (more : bool) : let x := if more then d * 2 + 1 else d * 2 in
  negb (Z.land x 1 =? 0) = more ∧ floorDiv2 x = d.
Proof.
  cbn zeta. rewrite (land_ones_mod _ 1) by lia. change (2 ^ 1) with 2. unfold floorDiv2. split.
  - destruct more; case_cmp; cbn; try done; lia_dm.
  - destruct more; case_cmp; cbn [andb]; try (rewrite Z.quot_div_nonneg by lia; lia_dm).
    all: case_cmp; cbn [negb]; Z.to_euclidean_division_equations; lia.
Qed.

Lemma ddec_run op v d n bs l : - 4294967296 < d < 4294967296 → Z.of_nat (S n) < 4294967296 →
  Forall is_u32 (steps v d (S n)) → ddec op (v + Z.of_nat (S n) * d) bs l →
  ddec op v (diff_run d (Z.of_nat (S n)) ++ bs) (steps v d (S n) ++ l).
Proof.
  intros Hd Hn Hl H r d0 Hw Hview. unfold diff_run in Hview. rewrite <- app_assoc in Hview.
  destruct (diff_code d (1 <? Z.of_nat (S n))) as [E1 E2]. cbn zeta in *.
  cbn [steps app yields]. unfold diff_read at 1. cbn [i_count i_op i_reader i_value]. change (0 =? 0) with true. cbn iota.
  set (x := if 1 <? Z.of_nat (S n) then d * 2 + 1 else d * 2) in *.
  rewrite (reads_lib0_int (op +:+ ".diff") x ltac:(subst x; case_if; lia) r _ Hw Hview), E1, E2.
  pose proof (wf_advance _ _ _ Hw Hview) as Hw1. pose proof (view_advance_app _ _ _ Hview) as Hv1.
  set (r1 := advance _ r) in *. apply Forall_cons in Hl as [Hv Hl].
  replace (v + Z.of_nat (S n) * d) with (v + d + Z.of_nat n * d) in H by lia.
  destruct (Z.ltb_spec 1 (Z.of_nat (S n))).
  - rewrite (reads_lib0_uint (op +:+ ".count") (Z.of_nat (S n) - 2) ltac:(u32) r1 bs Hw1 Hv1), diff_take_ok by done.
    eexists. split; [done|]. replace (Z.of_nat (S n) - 2 + 2 - 1) with (Z.of_nat n) by lia.
    apply diff_pending; [done|]. apply H; [by eapply wf_advance|by apply view_advance_app].
  - assert (n = 0%nat) as -> by lia. rewrite diff_take_ok by done. eexists. split; [done|].
    change (Z.of_nat 0) with 0 in H. rewrite Z.mul_0_l, Z.add_0_r in H. by apply H.
Qed.

Definition denc (e : intDiffOptRleEncoder) (l : list Z) : Prop :=
  ∃ l0 v0 n, l = l0 ++ steps v0 (ie_diff e) n ∧ ie_value e = v0 + Z.of_nat n * ie_diff e ∧ ie_count e = Z.of_nat n ∧
    Forall is_u32 l ∧ is_u32 (ie_value e) ∧ (n ≠ 0%nat → - 4294967296 < ie_diff e < 4294967296) ∧
    (few l → ∀ op bs k, ddec op v0 bs k → ddec op 0 (ie_data e ++ bs) (l0 ++ k)).

Lemma denc_new : denc (mkIntEnc 0 0 0 []) [].
Proof. exists [], 0, 0%nat. by split_and!. Qed.

Lemma denc_flush e l op bs k : denc e l → few l → ddec op (ie_value e) bs k →
  ddec op 0 (ie_data (diff_flush e) ++ bs) (l ++ k).
Proof.
  intros (l0 & v0 & n & -> & Hval & Hc & Hl & _ & Hd & H) Hf Hk. unfold diff_flush. rewrite Hc. destruct n as [|n].
  - cbn. rewrite app_nil_r. apply H; [done|]. rewrite Hval in Hk. change (Z.of_nat 0) with 0 in Hk.
    by rewrite Z.mul_0_l, Z.add_0_r in Hk.
  - assert (Z.of_nat (S n) < 4294967296) as Hn.
    { apply few_app_r in Hf. unfold few in Hf. by rewrite length_steps in Hf. }
    rewrite (proj2 (Z.eqb_neq (Z.of_nat (S n)) 0)) by lia. cbn [ie_data].
    assert ((if 1 <? Z.of_nat (S n)
      then appendVarUintV1 (appendLib0VarInt (ie_data e) (if 1 <? Z.of_nat (S n) then ie_diff e * 2 + 1 else ie_diff e * 2))
             (w32 (Z.of_nat (S n) - 2))
      else appendLib0VarInt (ie_data e) (if 1 <? Z.of_nat (S n) then ie_diff e * 2 + 1 else ie_diff e * 2)) =
      ie_data e ++ diff_run (ie_diff e) (Z.of_nat (S n))) as ->.
    { rewrite appendLib0VarInt_app. unfold diff_run, appendVarUintV1. case_if.
      - rewrite w32_small by u32. by rewrite Append_app, <- app_assoc.
      - by rewrite app_nil_r. }
    rewrite <- !app_assoc. apply H; [done|]. apply Forall_app in Hl as [_ Hl]. apply ddec_run; [auto..|by rewrite <- Hval].
Qed.

Lemma denc_write e l x : is_u32 x → denc e l → denc (diff_write e x) (l ++ [x]).
Proof.
  intros Hx He. unfold diff_write. destruct ((0 <? ie_count e) && (ie_diff e =? x - ie_value e)) eqn:E.
  - apply andb_true_iff in E as [_ Ev%Z.eqb_eq]. destruct He as (l0 & v0 & n & -> & Hval & Hc & Hl & Hv & Hd & H).
    exists l0, v0, (S n). cbn [ie_value ie_diff ie_count ie_data].
    assert (x = v0 + Z.of_nat (S n) * ie_diff e) as Ex by lia. split_and!; [|done|lia| |done|u32|].
    + rewrite steps_snoc, <- Ex. by rewrite <- app_assoc.
    + apply Forall_app. by split; [|constructor].
    + intros Hf. apply H. by apply few_app_l in Hf.
  - pose proof He as (l0 & v0 & n & _ & _ & _ & Hl & Hv & _).
    exists l, (ie_value e), 1%nat. cbn [ie_value ie_diff ie_count ie_data steps].
    replace (ie_value e + (x - ie_value e)) with x by lia. split_and!; [done|lia|done| |done|u32|].
    + apply Forall_app. by split; [|constructor].
    + intros Hf op bs k. apply denc_flush; [done|]. by apply few_app_l in Hf.
Qed.

Lemma denc_bytes e l op : denc e l → few l → diff_yields (newIntDiffOptRleDecoder (diff_bytes e) op) l.
Proof.
  intros He Hf. pose proof (denc_flush e l op [] [] He Hf (ddec_nil op _)) as H. rewrite !app_nil_r in H.
  by apply H; [apply wf_NewReader|].
Qed.

(** ** Runs of bytes: the last one has no count *)

Definition rdec (op : string) (bs : bytes) (l : list Z) : Prop :=
  ∀ r v, wf_reader r → view r = bs → rle_yields (mkRleDec r v 0 op) l.

Lemma rle_pending op r v n l : rle_yields (mkRleDec r v 0 op) l →
  rle_yields (mkRleDec r v (Z.of_nat n) op) (replicate n v ++ l).
Proof.
  intros H. induction n as [|n IH]; [done|]. cbn [replicate app yields].
  exists (mkRleDec r v (Z.of_nat n) op). split; [|done]. unfold rle_read. cbn [r_count r_op r_reader r_value]. cmp_known.
  do 2 f_equal. lia.
Qed.

(** A run without count goes on as long as it is read. *)
Lemma rle_endless op r v c n : wf_reader r → view r = [] → c < 0 → rle_yields (mkRleDec r v c op) (replicate n v).
Proof.
  intros Hw Hv. revert c. induction n as [|n IH]; intros c Hc; cbn [replicate yields].
  - apply drained_end; [done..|]. cbn. lia.
  - exists (mkRleDec r v (c - 1) op). split; [|apply IH; lia]. unfold rle_read. cbn [r_count r_op r_reader r_value]. by cmp_known.
Qed.

Lemma rle_first op r v b bs : wf_reader r → view r = b :: bs →
  rle_read (mkRleDec r v 0 op) =
    if 0 <? Z.of_nat (length bs) then
      match readLib0VarUint (op +:+ ".count") (advance 1 r) with
      | (Err err, reader) => (Err err, mkRleDec reader b 0 op)
      | (Ok count, reader) => (Ok b, mkRleDec reader b (count + 1 - 1) op)
      end
    else (Ok b, mkRleDec (advance 1 r) b (-1 - 1) op).
Proof.
  intros Hw Hv. unfold rle_read. cbn [r_count r_op r_reader]. change (0 =? 0) with true. cbn iota.
  rewrite (reads_catch ReadByte _ [b] b (reads_ReadByte b) r bs Hw Hv). change (length [b]) with 1%nat.
  pose proof (view_advance_app [b] bs r Hv) as Hv1. pose proof (wf_advance r [b] bs Hw Hv) as Hw1.
  change (length [b]) with 1%nat in *. rewrite <- (length_view _ Hw1), Hv1. done.
Qed.

Lemma rdec_run op v n bs l : Z.of_nat (S n) < 4294967296 → rdec op bs l →
  rdec op (v :: Append [] (Z.of_nat n) ++ bs) (replicate (S n) v ++ l).
Proof.
  intros Hn H r v0 Hw Hview. cbn [replicate app yields]. rewrite (rle_first op r v0 v _ Hw Hview).
  assert (is_u32 (Z.of_nat n)) as Hu by u32. pose proof (Append_length _ Hu). rewrite length_app.
  rewrite (proj2 (Z.ltb_lt 0 _)) by lia.
  pose proof (wf_advance r [v] _ Hw Hview) as Hw1. pose proof (view_advance_app [v] _ r Hview) as Hv1.
  change (length [v]) with 1%nat in *. rewrite (reads_lib0_uint (op +:+ ".count") _ Hu _ bs Hw1 Hv1).
  eexists. split; [done|]. replace (Z.of_nat n + 1 - 1) with (Z.of_nat n) by lia.
  apply rle_pending, H; [by eapply wf_advance|by apply view_advance_app].
Qed.

Lemma rdec_last op v n : rdec op [v] (replicate (S n) v).
Proof.
  intros r v0 Hw Hview. cbn [replicate yields]. rewrite (rle_first op r v0 v [] Hw Hview). change (0 <? Z.of_nat (length [])) with false.
  eexists. split; [done|]. apply rle_endless; [by apply (wf_advance r [v] [])|by apply (view_advance_app [v] [])|lia].
Qed.

Definition renc (e : rleByteEncoder) (l : list Z) : Prop :=
  (l = [] ∧ e = mkRleEnc 0 0 []) ∨
  ∃ l0 n d0, l = l0 ++ replicate (S n) (re_value e) ∧ re_count e = Z.of_nat (S n) ∧ re_data e = d0 ++ [re_value e] ∧
    (few l → ∀ op bs k, rdec op bs k → rdec op (d0 ++ bs) (l0 ++ k)).

Lemma renc_new : renc (mkRleEnc 0 0 []) [].
Proof. by left. Qed.

Lemma renc_write e l x : renc e l → renc (rle_write e x) (l ++ [x]).
Proof.
  intros [[-> ->]|(l0 & n & d0 & -> & Hc & Hd & H)].
  - right. exists [], 0%nat, []. by split_and!.
  - right. unfold rle_write. rewrite Hc. rewrite (proj2 (Z.ltb_lt 0 (Z.of_nat (S n)))) by lia. cbn [andb].
    destruct (Z.eqb_spec (re_value e) x) as [<-|Hne].
    + exists l0, (S n), d0. cbn [re_value re_count re_data]. split_and!; [|lia|exact Hd|].
      * by rewrite <- app_assoc, <- replicate_cons_app.
      * intros Hf. apply H. by apply few_app_l in Hf.
    + exists (l0 ++ replicate (S n) (re_value e)), 0%nat, (appendVarUintV1 (re_data e) (w32 (re_count e - 1))).
      cbn [re_value re_count re_data]. rewrite Hc. split_and!; [done..|]. intros Hf op bs k Hk. apply few_app_l in Hf.
      assert (Z.of_nat (S n) < 4294967296) as Hn.
      { pose proof (few_app_r _ _ Hf) as Hr. unfold few in Hr. by rewrite length_replicate in Hr. }
      unfold appendVarUintV1. rewrite Append_app, Hd, w32_small by u32. replace (Z.of_nat (S n) - 1) with (Z.of_nat n) by lia.
      rewrite <- !app_assoc. cbn [app]. apply (H Hf). by apply rdec_run.
Qed.

Lemma renc_bytes e l op : renc e l → few l → rle_yields (newRleByteDecoder (rle_bytes e) op) l.
Proof.
  intros [[-> ->]|(l0 & n & d0 & -> & Hc & Hd & H)] Hf.
  - by apply drained_end; [apply wf_NewReader|..].
  - unfold rle_bytes. rewrite Hd. apply (H Hf op [re_value e] _ (rdec_last op _ n)); [apply wf_NewReader|done].
Qed.

(** ** The string table *)

(** Valid UTF-8: what iterating over the runes and writing them again preserves. *)
Definition utf8_ok (s : bytes) : Prop := str_ok s ∧ string_of_runes (runes s) = s.

#[export] Instance utf8_ok_dec s : Decision (utf8_ok s).
Proof. unfold utf8_ok. apply _. Defined.

Lemma utf8_ok_runes s : utf8_ok s → Forall is_scalar (runes s).
Proof. intros [[_ Hb] _]. by apply runes_scalar. Qed.

Lemma string_of_runes_app a b : string_of_runes (a ++ b) = string_of_runes a ++ string_of_runes b.
Proof. unfold string_of_runes. by rewrite fmap_app, concat_app. Qed.

(** The code's inline encoder is [utf16.Encode] on the runes of a string. *)
Lemma encodeUTF16Units_runes rs : Forall is_scalar rs → encodeUTF16Units (string_of_runes rs) = utf16_encode rs.
Proof.
  intros Hrs. unfold encodeUTF16Units, utf16_encode. rewrite runes_string_of_runes by done. f_equal.
  apply Forall_fmap_ext_1. eapply Forall_impl; [exact Hrs|]. intros r Hr. unfold utf16_encode_rune, is_scalar in *.
  destruct (Z.leb_spec r 65535).
  - destruct Hr; cmp_known; done.
  - by cmp_known.
Qed.

Lemma utf16_encode_app a b : utf16_encode (a ++ b) = utf16_encode a ++ utf16_encode b.
Proof. unfold utf16_encode. by rewrite fmap_app, concat_app. Qed.

Lemma utf16_decode_encode rs : Forall is_scalar rs → utf16_decode (utf16_encode rs) = rs.
Proof.
  unfold utf16_encode. induction 1 as [|r rs Hr _ IH]; [done|]. cbn [fmap list_fmap concat].
  destruct (utf16_encode_rune_spec r Hr) as [(-> & _ & Hh & Hl & _)|(u & v & -> & _ & Hh & Hl & Er)]; cbn [app utf16_decode].
  - rewrite Hh, Hl. cbn [orb negb]. by rewrite IH.
  - rewrite Hh, Hl. cbn [orb negb andb]. rewrite IH. by rewrite <- Er.
Qed.

Lemma units_table l : Forall utf8_ok l → encodeUTF16Units (concat l) = concat (utf16_encode ∘ runes <$> l).
Proof.
  intros Hl. assert (concat l = string_of_runes (concat (runes <$> l)) ∧ Forall is_scalar (concat (runes <$> l))) as [E Hs].
  { induction Hl as [|s l Hs _ [IH1 IH2]]; [done|]. cbn [fmap list_fmap concat]. rewrite string_of_runes_app, <- IH1.
    pose proof (utf8_ok_runes s Hs). destruct Hs as [_ ->]. split; [done|]. by apply Forall_app. }
  rewrite E, encodeUTF16Units_runes by done. clear E Hs Hl. induction l as [|s l IH]; [done|].
  cbn [fmap list_fmap concat]. by rewrite utf16_encode_app, IH.
Qed.

Lemma ascii_units s : isASCIIString s = true → is_bytes s → runes s = s ∧ units s = Z.of_nat (length s).
Proof.
  induction s as [|b s IH]; intros Ha Hb; [done|]. cbn in Ha. apply andb_true_iff in Ha as [Hb0%Z.ltb_lt Ha].
  apply Forall_cons in Hb as [H0 Hb]. destruct (IH Ha Hb) as [E1 E2]. cbn [runes]. rewrite (proj2 (Z.ltb_lt b 128)), E1 by done.
  split; [done|]. cbn [units foldr length]. fold (units s). rewrite E2. unfold rune_units, is_u8 in *. cmp_known. lia.
Qed.

(** The units of a list of strings. *)
Definition total_units (l : list bytes) : Z := foldr (λ s n, units (runes s) + n) 0 l.

Lemma total_units_nonneg l : 0 <= total_units l.
Proof. induction l as [|s l IH]; [done|]. cbn [total_units foldr]. fold (total_units l). pose proof (units_nonneg (runes s)). lia. Qed.

Lemma total_units_app a b : total_units (a ++ b) = total_units a + total_units b.
Proof. induction a as [|s a IH]; cbn [app total_units foldr]; [reflexivity|]. fold (total_units (a ++ b)) (total_units a). lia. Qed.

Lemma cut_middle {A} (a b c : list A) pos e : pos = Z.of_nat (length a) → e = pos + Z.of_nat (length b) →
  cut pos e (a ++ b ++ c) = b.
Proof.
  intros -> ->. unfold cut. rewrite Nat2Z.id, drop_app_length.
  replace (Z.to_nat _) with (length b) by lia. by rewrite take_app_length.
Qed.

Lemma units_length l : Forall utf8_ok l → Z.of_nat (length (concat (utf16_encode ∘ runes <$> l))) = total_units l.
Proof.
  induction 1 as [|s l Hs _ IH]; [done|]. cbn [fmap list_fmap concat total_units foldr]. fold (total_units l).
  rewrite length_app, Nat2Z.inj_add, IH. cbn [compose]. f_equal. apply utf16_encode_length. by apply utf8_ok_runes.
Qed.

Lemma isASCII_app a b : isASCIIString (a ++ b) = isASCIIString a && isASCIIString b.
Proof. apply forallb_app. Qed.

Lemma ascii_length l : Forall utf8_ok l → isASCIIString (concat l) = true → Z.of_nat (length (concat l)) = total_units l.
Proof.
  induction 1 as [|s l [[_ Hb] _] _ IH]; [done|]. cbn [concat total_units foldr]. fold (total_units l).
  rewrite isASCII_app, andb_true_iff, length_app, Nat2Z.inj_add. intros [Ha Hl]. rewrite IH by done. f_equal.
  destruct (ascii_units s Ha Hb) as [-> ->]. done.
Qed.

(** The strings [pre] are read, [l] are to come. *)
Definition str_at (d : stringDecoderV2) (pre l : list bytes) : Prop :=
  s_table d = concat (pre ++ l) ∧
  s_units d = (if isASCIIString (s_table d) then None else Some (encodeUTF16Units (s_table d))) ∧
  s_pos d = total_units pre ∧ uint_yields (s_lengths d) (utf16Length <$> l).

Lemma str_at_length d pre l : Forall utf8_ok (pre ++ l) → str_at d pre l → str_utf16Length d = total_units (pre ++ l).
Proof.
  intros Hl (Ht & Hu & _ & _). unfold str_utf16Length. rewrite Hu, Ht. destruct (isASCIIString (concat (pre ++ l))) eqn:Ea.
  - by apply ascii_length.
  - rewrite units_table by done. by apply units_length.
Qed.

Lemma str_at_read d pre s l : Forall utf8_ok (pre ++ s :: l) → str_at d pre (s :: l) →
  ∃ d', str_read d = (Ok s, d') ∧ str_at d' (pre ++ [s]) l.
Proof.
  intros Hl Hat. pose proof (str_at_length _ _ _ Hl Hat) as Hlen. destruct Hat as (Ht & Hu & Hp & (lens & Hr & Hy)).
  pose proof Hl as [Hpre [Hs Hl']%Forall_cons]%Forall_app. pose proof Hs as [Hok Es].
  unfold str_read. rewrite Hr. cbn [s_pos s_units s_table s_op]. unfold str_utf16Length in *. cbn [s_units s_table].
  rewrite utf16Length_eq, Hp, Hlen, total_units_app by done. cbn [total_units foldr]. fold (total_units l).
  pose proof (total_units_nonneg pre). pose proof (total_units_nonneg l). pose proof (units_nonneg (runes s)).
  cmp_known. eexists. split.
  - f_equal. f_equal. rewrite Hu, Ht, concat_app. cbn [concat]. destruct (isASCIIString (concat pre ++ s ++ concat l)) eqn:Ea.
    + rewrite !isASCII_app, !andb_true_iff in Ea. destruct Ea as (Ea1 & Ea2 & Ea3).
      apply cut_middle; [by rewrite ascii_length|]. destruct Hok as [_ Hb]. by destruct (ascii_units s Ea2 Hb) as [-> ->].
    + change (concat pre ++ s ++ concat l) with (concat pre ++ concat (s :: l)). rewrite <- concat_app, units_table by done.
      rewrite fmap_app, concat_app. cbn [fmap list_fmap concat].
      rewrite cut_middle; [by cbn [compose]; rewrite utf16_decode_encode by (by apply utf8_ok_runes)|by rewrite units_length|].
      cbn [compose]. f_equal. symmetry. apply utf16_encode_length. by apply utf8_ok_runes.
  - unfold str_at. cbn [s_table s_units s_pos s_lengths]. split_and!; [by rewrite <- app_assoc|done| |done].
    rewrite total_units_app. cbn. lia.
Qed.

Lemma str_at_yields d pre l : Forall utf8_ok (pre ++ l) → str_at d pre l → str_yields d l.
Proof.
  revert d pre. induction l as [|s l IH]; intros d pre Hl Hat; cbn [yields].
  - unfold str_ensureDrained. rewrite (str_at_length d pre []) by done. destruct Hat as (_ & _ & -> & Hy).
    rewrite app_nil_r, Z.eqb_refl. exact Hy.
  - destruct (str_at_read d pre s l Hl Hat) as (d' & E & Hat'). exists d'. split; [done|].
    apply (IH d' (pre ++ [s])); [by rewrite <- app_assoc|done].
Qed.

Definition senc (e : stringEncoderV2) (l : list bytes) : Prop :=
  se_table e = concat l ∧ Forall utf8_ok l ∧ uenc (se_lengths e) (utf16Length <$> l).

Lemma senc_new : senc (mkStrEnc [] (mkUintEnc 0 0 [])) [].
Proof. split_and!; [done|constructor|apply uenc_new]. Qed.

Lemma utf16Length_u32 s : str_ok s → is_u32 (utf16Length s).
Proof.
  intros Hs. rewrite utf16Length_eq by done. destruct Hs as [Hl Hb]. pose proof (runes_spec s Hb) as [_ ?].
  pose proof (units_nonneg (runes s)). u32.
Qed.

Lemma senc_write e l s : utf8_ok s → senc e l → senc (str_write e s) (l ++ [s]).
Proof.
  intros Hs (Ht & Hl & He). unfold str_write. split_and!; cbn [se_table se_lengths].
  - rewrite Ht, concat_app. cbn. by rewrite app_nil_r.
  - apply Forall_app. by split; [|constructor].
  - rewrite fmap_app. apply uenc_write; [apply utf16Length_u32, Hs|done].
Qed.

Lemma senc_bytes e l op : senc e l → few l → is_u32 (Z.of_nat (length (concat l))) →
  ∃ d, newStringDecoderV2 (str_bytes e) op = Ok d ∧ str_yields d l.
Proof.
  intros (Ht & Hl & He) Hf Hlen. unfold str_bytes, newStringDecoderV2, appendLib0VarString. rewrite Ht.
  fold (enc_str (concat l)).
  assert (str_ok (concat l)) as Hok.
  { split; [done|]. clear -Hl. induction Hl as [|s l [[_ ?] _] _ IH]; [constructor|]. cbn. by apply Forall_app. }
  set (src := enc_str (concat l) ++ uint_bytes (se_lengths e)).
  assert (view (NewReader src) = enc_str (concat l) ++ uint_bytes (se_lengths e)) as Hv by done.
  rewrite (reads_lib0_string _ _ Hok _ _ (wf_NewReader _) Hv).
  pose proof (wf_advance _ _ _ (wf_NewReader _) Hv) as Hw1. pose proof (view_advance_app _ _ _ Hv) as Hv1.
  rewrite (reads_ReadN (uint_bytes (se_lengths e)) _) with (rest := []); [|by rewrite <- length_view, Hv1|done|by rewrite app_nil_r].
  eexists. split; [done|]. apply (str_at_yields _ []); [done|]. unfold str_at. cbn [s_table s_units s_pos s_lengths app].
  split_and!; [done|done|done|]. apply uenc_bytes; [done|]. unfold few in *. by rewrite length_fmap.
Qed.
