(* ===== verification/WireFacts.v ===== *)
(** * Embedded values in both wire forms

    A JSON value written as a lib0 value is one any reader of the package accepts
    ([any_value]), and decodes to the value it was, numbers turned into integers or
    floats ([canon]).  What is written stays below 2^32 bytes, as lengths do. *)
From S2P Require Import Prelude GoError Binary Varint GoText YTypes Decoder DecoderFacts GoJson GoFloat GoAny Lib0 Lib0Facts WireCompat.
Import varint.

(** ** Induction on values *)

Section value_ind.
Variable P : value → Prop.
Hypothesis Pnil : P VNil.
Hypothesis Pbool : ∀ b, P (VBool b).
Hypothesis Pstring : ∀ s, P (VString s).
Hypothesis Pnumber : ∀ s, P (VNumber s).
Hypothesis Pint : ∀ z, P (VInt z).
Hypothesis Pfloat : ∀ f, P (VFloat f).
Hypothesis Pbytes : ∀ b, P (VBytes b).
Hypothesis Parray : ∀ l, Forall P l → P (VArray l).
Hypothesis Pobject : ∀ l, Forall (λ p, P p.2) l → P (VObject l).

Fixpoint value_nested_ind (v : value) : P v :=
  match v with
  | VNil => Pnil | VBool b => Pbool b | VString s => Pstring s | VNumber s => Pnumber s
  | VInt z => Pint z | VFloat f => Pfloat f | VBytes b => Pbytes b
  | VArray l => Parray l ((fix go l : Forall P l := match l with [] => Forall_nil_2 _ | v :: l => Forall_cons_2 _ _ _ (value_nested_ind v) (go l) end) l)
  | VObject l => Pobject l ((fix go l : Forall (λ p, P p.2) l := match l with [] => Forall_nil_2 _ | p :: l => Forall_cons_2 (λ p : bytes * value, P p.2) _ _ (value_nested_ind p.2) (go l) end) l)
  end.
End value_ind.

(** ** Objects *)

Definition key_lt (p q : bytes * value) : Prop := string_lt p.1 q.1 = true.
Abbreviation ordered := (StronglySorted key_lt).

Lemma string_lt_irrefl a : string_lt a a = false.
Proof. induction a as [|x a IH]; cbn; [done|]. by rewrite Z.ltb_irrefl, Z.eqb_refl, IH. Qed.

Lemma string_lt_trans a b c : string_lt a b = true → string_lt b c = true → string_lt a c = true.
Proof.
  revert b c. induction a as [|x a IH]; intros [|y b] [|z c]; cbn; try done.
  rewrite !orb_true_iff, !andb_true_iff, !Z.ltb_lt, !Z.eqb_eq. intros [?|[-> ?]] [?|[-> ?]]; [left; lia|by left|by left|right]. split; [done|by eapply IH].
Qed.

Lemma string_lt_total a b : string_lt a b = false → a ≠ b → string_lt b a = true.
Proof.
  revert b. induction a as [|x a IH]; intros [|y b]; cbn; [done..|]. rewrite orb_false_iff, andb_false_iff, Z.ltb_ge, Z.eqb_neq.
  intros [H1 H2] Hne. apply orb_true_iff. rewrite andb_true_iff, Z.ltb_lt, Z.eqb_eq. destruct (decide (x = y)) as [->|]; [right|left; lia].
  split; [done|]. apply IH; [by destruct H2|]. by intros ->.
Qed.

Lemma object_set_keys (P : bytes * value → Prop) key v l : P (key, v) → Forall P l → Forall P (object_set key v l).
Proof.
  intros Hp. induction 1 as [|[k w] l Hk Hl IH]; cbn; [by constructor|]. destruct (string_lt key k); [by repeat constructor|].
  case_bool_decide; by constructor.
Qed.

Lemma object_set_ordered key v l : ordered l → ordered (object_set key v l).
Proof.
  induction 1 as [|[k w] l Hl IH Hk]; cbn; [by repeat constructor|]. destruct (string_lt key k) eqn:E.
  - constructor; [by constructor|]. constructor; [done|]. eapply Forall_impl; [exact Hk|]. intros p. by apply string_lt_trans.
  - case_bool_decide as Hkey; [subst k; by constructor|]. constructor; [done|]. apply object_set_keys; [|done].
    by apply string_lt_total.
Qed.

Lemma object_set_last {V} key (v : V) l : Forall (λ p, string_lt p.1 key = true) l → object_set key v l = l ++ [(key, v)].
Proof.
  induction 1 as [|[k w] l Hk _ IH]; cbn; [done|]. destruct (string_lt key k) eqn:E.
  - pose proof (string_lt_trans _ _ _ E Hk) as H. by rewrite string_lt_irrefl in H.
  - rewrite bool_decide_false, IH; [done|]. intros ->. cbn in Hk. by rewrite string_lt_irrefl in Hk.
Qed.

(** The entries of an ordered object, set one by one. *)
Lemma object_set_all l acc : ordered l → Forall (λ p, Forall (λ q, string_lt p.1 q.1 = true) l) acc →
  fold_left (λ obj p, object_set p.1 p.2 obj) l acc = acc ++ l.
Proof.
  intros Hl. revert acc. induction Hl as [|[k w] l Hl IH Hk]; intros acc Ha; cbn; [by rewrite app_nil_r|].
  rewrite object_set_last by (eapply Forall_impl; [exact Ha|]; by intros p [? _]%Forall_cons).
  rewrite IH; [by rewrite <- app_assoc|]. apply Forall_app. split; [|by repeat constructor].
  eapply Forall_impl; [exact Ha|]. by intros p [_ ?]%Forall_cons.
Qed.

(** ** Rounded numbers are patterns *)

Record wf_format (f : format) : Prop := { wf_mant : 0 <= mantBits f; wf_exp : 0 < expBits f }.

Lemma wf_binary64 : wf_format binary64. Proof. by split. Qed.
Lemma wf_binary32 : wf_format binary32. Proof. by split. Qed.

Lemma units_pos num den e : 0 <= num → 0 < den → 0 <= (units num den e).1 ∧ 0 < (units num den e).2.
Proof.
  intros Hn Hd. unfold units. destruct (Z.leb_spec 0 e); cbn [fst snd].
  - pose proof (Z.pow_pos_nonneg 2 e). nia.
  - pose proof (Z.pow_pos_nonneg 2 (- e)). nia.
Qed.

Lemma round_even_nonneg n d : 0 <= n → 0 < d → 0 <= round_even n d.
Proof. intros Hn Hd. pose proof (Z.div_pos n d Hn Hd). unfold round_even. repeat case_match; lia. Qed.

Lemma inf_bits_range f : wf_format f → 0 <= inf_bits f < sign_bit f.
Proof.
  intros [Hm He]. unfold inf_bits, sign_bit. rewrite Z.pow_add_r by lia.
  pose proof (Z.pow_pos_nonneg 2 (mantBits f)). pose proof (Z.pow_pos_nonneg 2 (expBits f)). nia.
Qed.

Lemma round_magnitude_range f num den : wf_format f → 0 <= num → 0 < den → 0 <= round_magnitude f num den <= inf_bits f.
Proof.
  intros Hf Hn Hd. pose proof (inf_bits_range f Hf). unfold round_magnitude. destruct (num =? 0); [lia|].
  pose proof (units_pos num den (last_place f num den) Hn Hd) as [H1 H2]. destruct (units _ _ _) as [n d]. cbn [fst snd] in *.
  pose proof (round_even_nonneg n d H1 H2). assert (emin f <= last_place f num den).
  { unfold last_place. destruct (units _ _ _). lia. }
  destruct Hf as [Hm _]. pose proof (Z.pow_pos_nonneg 2 (mantBits f)). split; [|lia]. apply Z.min_glb; [lia|nia].
Qed.

Lemma with_sign_range f neg m : wf_format f → 0 <= m <= inf_bits f → 0 <= with_sign f neg m < 2 * sign_bit f.
Proof. intros Hf Hm. pose proof (inf_bits_range f Hf). unfold with_sign. destruct neg; lia. Qed.

Lemma power_pos b n e : 0 < b → 0 <= n → 0 <= (power b n e).1 ∧ 0 < (power b n e).2.
Proof.
  intros Hb Hn. unfold power. destruct (Z.leb_spec 0 e); cbn [fst snd].
  - pose proof (Z.pow_nonneg b e). nia.
  - pose proof (Z.pow_pos_nonneg b (- e)). lia.
Qed.

Lemma mant_exp_nonneg f m : wf_format f → 0 <= m → 0 <= (mant_exp f m).1.
Proof.
  intros [Hf _] Hm. pose proof (Z.pow_pos_nonneg 2 (mantBits f)). unfold mant_exp.
  pose proof (Z.mod_pos_bound m (2 ^ mantBits f)). case_match; cbn [fst]; lia.
Qed.

Lemma magnitude_nonneg f b : 0 <= b → 0 <= magnitude f b.
Proof. intros Hb. unfold magnitude, negative. destruct (Z.leb_spec (sign_bit f) b); lia. Qed.

Lemma narrow_range b : 0 <= b → 0 <= narrow b < 4294967296.
Proof.
  intros Hb. unfold narrow. pose proof (mant_exp_nonneg binary64 _ wf_binary64 (magnitude_nonneg binary64 b Hb)) as Hx.
  destruct (mant_exp _ _) as [x e]. pose proof (power_pos 2 x e ltac:(lia) Hx) as [H1 H2]. destruct (power 2 x e) as [n d].
  change 4294967296 with (2 * sign_bit binary32). apply with_sign_range, round_magnitude_range; done || apply wf_binary32.
Qed.

Lemma digits_value_nonneg ds n : Forall (λ c, isDigit c = true) ds → 0 <= n → 0 <= fold_left (λ n c, 10 * n + (c - 48)) ds n.
Proof.
  intros Hd. revert n. induction Hd as [|c ds Hc _ IH]; intros n Hn; cbn; [done|]. apply IH.
  unfold isDigit in Hc. rewrite andb_true_iff, !Z.leb_le in Hc. lia.
Qed.

Lemma span_digits_digits s : Forall (λ c, isDigit c = true) (span_digits s).1.
Proof.
  induction s as [|c s IH]; cbn; [constructor|]. destruct (isDigit c) eqn:E; [|constructor].
  destruct (span_digits s) as [ds rest]. by constructor.
Qed.

Lemma read_fraction_digits s : Forall (λ c, isDigit c = true) (read_fraction s).1.
Proof. destruct s as [|c s]; cbn; [constructor|]. destruct (c =? 46); [apply span_digits_digits|constructor]. Qed.

Lemma ParseFloat_range s f : ParseFloat s = Some f → 0 <= f < 18446744073709551616.
Proof.
  unfold ParseFloat. destruct (read_decimal s) as [[[neg mant] e]|] eqn:E; [|done].
  assert (0 <= mant) as Hm.
  { unfold read_decimal in E. destruct (read_sign s) as [neg' s1]. pose proof (span_digits_digits s1) as D1.
    destruct (span_digits s1) as [int s2]. cbn [fst] in D1.
    pose proof (read_fraction_digits s2) as D2. destruct (read_fraction s2) as [frac s3]. cbn [fst] in D2.
    assert (0 <= digits_value (int ++ frac)) by (apply digits_value_nonneg; [by apply Forall_app|lia]).
    destruct (int ++ frac); [done|]. repeat case_match; simplify_eq; done. }
  pose proof (power_pos 10 mant e ltac:(lia) Hm) as [H1 H2]. destruct (power 10 mant e) as [n d]. cbn [fst snd] in *.
  destruct (_ =? _); [done|]. intros [= <-]. change 18446744073709551616 with (2 * sign_bit binary64).
  apply with_sign_range, round_magnitude_range; done || apply wf_binary64.
Qed.

(** ** Values decoded from JSON *)

Inductive json_wf : value → Prop :=
| wf_nil : json_wf VNil
| wf_bool b : json_wf (VBool b)
| wf_string s : is_bytes s → json_wf (VString s)
| wf_number s : json_wf (VNumber s)
| wf_array l : Forall json_wf l → json_wf (VArray l)
| wf_object l : Forall (λ p, is_bytes p.1 ∧ json_wf p.2) l → ordered l → json_wf (VObject l).

Definition canon_float (f : Z) : value :=
  if is_integral f && canEncodeAsLib0Int (int_of_float f) then VInt (int_of_float f) else VFloat f.

Definition canon_number (s : bytes) : value :=
  match ParseInt s with
  | Some z => if canEncodeAsLib0Int z then VInt z else default VNil (canon_float <$> ParseFloat s)
  | None => default VNil (canon_float <$> ParseFloat s)
  end.

Fixpoint canon (v : value) : value :=
  match v with
  | VNumber s => canon_number s
  | VArray l => VArray (map canon l)
  | VObject l => VObject (map (λ p, (p.1, canon p.2)) l)
  | _ => v
  end.

Lemma canon_ordered l : ordered l → ordered (map (λ p : bytes * value, (p.1, canon p.2)) l).
Proof. induction 1 as [|p l Hl IH Hp]; cbn; constructor; [done|]. by apply Forall_fmap. Qed.

(** ** What is written for a value *)

(** [bs] is a lib0 value that decodes to [w]. *)
Definition lib0_form (bs : bytes) (w : value) : Prop :=
  any_value bs ∧ ∀ f op, (length bs ≤ f)%nat → reads (decodeLib0AnyValue_fuel f op) bs w.

Lemma any_value_nonempty bs : any_value bs → (1 ≤ length bs)%nat.
Proof. destruct 1; cbn; lia. Qed.

Lemma lib0_form_tag tag bs w : any_value (tag :: bs) →
  (∀ f op, (length bs ≤ f)%nat → reads (decodeAnyWithTag (decodeLib0AnyValue_fuel f) op tag) bs w) → lib0_form (tag :: bs) w.
Proof.
  intros Ha Hr. split; [done|]. intros [|f] op Hf; [cbn in Hf; lia|]. cbn [decodeLib0AnyValue_fuel]. unfold decodeAnyStep.
  apply reads_offset. intros start. apply reads_byte. apply Hr. cbn in Hf. lia.
Qed.

Lemma or_128 b : 0 <= b < 128 → Z.lor b 128 = b + 128.
Proof.
  intros Hb. assert (b ∈ seqZ 0 128) as Hin by (apply elem_of_seqZ; lia). clear Hb. revert b Hin.
  apply Forall_forall. apply (bool_decide_unpack _). vm_compute. exact I.
Qed.

Lemma first_byte_high v (neg more : bool) : 0 <= v < 64 →
  let b := (if more then Z.lor (if neg then Z.lor v 64 else v) 128 else if neg then Z.lor v 64 else v) in
  if more then 128 <= b else b < 128.
Proof.
  intros Hv. assert (v ∈ seqZ 0 64) as Hin by (apply elem_of_seqZ; lia). clear Hv. revert v Hin.
  apply Forall_forall. destruct neg, more; apply (bool_decide_unpack _); vm_compute; exact I.
Qed.

Lemma lib0_groups_shape k fuel q : (k ≤ fuel)%nat → 0 < q < 128 ^ Z.of_nat k →
  let bs := appendLib0_loop fuel [] q in
  bs ≠ [] ∧ (length bs ≤ k)%nat ∧ Forall (λ b, 128 <= b) (removelast bs) ∧ ∃ b, last bs = Some b ∧ b < 128.
Proof.
  revert fuel q. induction k as [|k IH]; intros [|fuel] q Hk Hq; [cbn in Hq; lia..|lia|].
  cbn zeta. cbn [appendLib0_loop]. rewrite (proj2 (Z.ltb_lt 0 q)) by lia. rewrite appendLib0_loop_app, mod128.
  rewrite Nat2Z.inj_succ, Z.pow_succ_r in Hq by lia. pose proof (Z.mod_pos_bound q 128 ltac:(lia)).
  rewrite Z.quot_div_nonneg by lia. destruct (Z.ltb_spec 0 (q / 128)) as [Hmore|Hlast].
  - destruct (IH fuel (q / 128)) as (Hne & Hl & Hf & b & Hb & Hlt); [lia|split; [done|]; apply Z.div_lt_upper_bound; lia|].
    cbn [app]. split; [done|]. split; [cbn; lia|]. destruct (appendLib0_loop fuel [] (q / 128)) as [|b1 bs] eqn:E; [done|].
    split; [|by exists b]. constructor; [|done]. rewrite or_128; lia.
  - assert (q / 128 = 0) as -> by (pose proof (Z.div_pos q 128); lia). destruct fuel; cbn; split_and!; try done; try lia; try constructor;
      exists (q mod 128); split; [done|lia|done|lia].
Qed.

Lemma lib0_int_shape z : canEncodeAsLib0Int z = true → varint_shape (appendLib0VarInt [] z).
Proof.
  unfold canEncodeAsLib0Int. rewrite andb_true_iff, !Z.leb_le. intros Hz. unfold appendLib0VarInt, appendLib0VarIntSigned.
  assert (∃ v, (if z <? 0 then - z else z) = v ∧ 0 <= v < 4294967296) as (v & -> & Hv) by (eexists; split; [done|]; destruct (Z.ltb_spec z 0); lia).
  generalize (z <? 0). intros neg. assert (Z.land v 63 = v mod 64) as -> by (apply (land_ones_mod v 6); lia).
  pose proof (Z.mod_pos_bound v 64 ltac:(lia)). pose proof (first_byte_high (v mod 64) neg (0 <? Z.quot v 64) ltac:(lia)) as Hb. cbn zeta in Hb.
  rewrite appendLib0_loop_app. cbn [app]. rewrite Z.quot_div_nonneg in * by lia. destruct (Z.ltb_spec 0 (v / 64)) as [Hmore|Hlast].
  - destruct (lib0_groups_shape 5 9 (v / 64)) as (Hne & Hl & Hf & b & Hlb & Hlt); [lia|split; [done|]; change (128 ^ Z.of_nat 5) with 34359738368; apply Z.div_lt_upper_bound; lia|].
    split; [done|]. split; [cbn [length]; lia|]. destruct (appendLib0_loop 9 [] (v / 64)) as [|b1 bs]; [done|]. split; [by constructor|by exists b].
  - assert (v / 64 = 0) as -> by (pose proof (Z.div_pos v 64); lia). cbn. split; [done|]. split; [cbn; lia|]. split; [constructor|by eexists].
Qed.

Lemma lib0_int_form z : canEncodeAsLib0Int z = true → lib0_form (125 :: appendLib0VarInt [] z) (VInt z).
Proof.
  intros Hz. apply lib0_form_tag; [by apply any_int, lib0_int_shape|]. intros f op _. cbn.
  unfold canEncodeAsLib0Int in Hz. rewrite andb_true_iff, !Z.leb_le in Hz.
  eapply reads_bind_ret; [apply reads_lib0_int; lia|]. apply reads_ret.
Qed.

Lemma reads_bytes op n bs : n = Z.of_nat (length bs) → reads (readLib0BigEndian op n) bs bs.
Proof. intros ->. by apply reads_catch, reads_ReadN. Qed.

Lemma zero_integral f : magnitude binary64 f = 0 → is_integral f = true ∧ int_of_float f = 0.
Proof. intros Hm. unfold is_integral, int_of_float. rewrite Hm. split; [by vm_compute|]. by destruct (negative binary64 f); vm_compute. Qed.

Lemma number_form dst f raw : 0 <= f < 18446744073709551616 → appendLib0Number dst f = Ok raw →
  ∃ bs, raw = dst ++ bs ∧ lib0_form bs (canon_float f).
Proof.
  intros Hf. unfold appendLib0Number, canon_float. destruct (_ || _); [done|].
  destruct (is_integral f && canEncodeAsLib0Int (int_of_float f)) eqn:Ei.
  { intros [= <-]. apply andb_true_iff in Ei as [_ Ei]. rewrite appendLib0VarInt_app, <- app_assoc. eexists. split; [done|]. by apply lib0_int_form. }
  destruct (float_eq _ _) eqn:E; intros Hraw;
    [assert (raw = dst ++ 124 :: put_be 4 (narrow f)) as -> by by injection Hraw|assert (raw = dst ++ 123 :: put_be 8 f) as -> by by injection Hraw].
  - pose proof (narrow_range f ltac:(lia)) as Hn. eexists. split; [done|]. assert (widen (narrow f) = f) as Hw.
    { unfold float_eq in E. apply orb_true_iff in E as [E|E]; [by apply Z.eqb_eq|]. apply andb_true_iff in E as [_ E]. apply Z.eqb_eq in E.
      destruct (zero_integral f E) as [H1 H2]. by rewrite H1, H2 in Ei. }
    apply lib0_form_tag; [apply any_f32, length_put_be|]. intros fuel op _. cbn -[put_be widen get_be].
    eapply reads_bind_ret; [apply reads_bytes; by rewrite length_put_be|]. rewrite get_put_be by (change (256 ^ Z.of_nat 4) with 4294967296; lia).
    rewrite Hw. apply reads_ret.
  - eexists. split; [done|]. apply lib0_form_tag; [apply any_f64; [by left|apply length_put_be]|]. intros fuel op _. cbn -[put_be get_be].
    eapply reads_bind_ret; [apply reads_bytes; by rewrite length_put_be|].
    rewrite get_put_be by (change (256 ^ Z.of_nat 8) with 18446744073709551616; lia). apply reads_ret.
Qed.

Definition short (bs : bytes) : Prop := Z.of_nat (length bs) < 4294967296.

Lemma short_app a b : short (a ++ b) → short a ∧ short b.
Proof. unfold short. rewrite length_app. lia. Qed.

Definition writes_value (v : value) : Prop := ∀ dst raw,
  appendLib0Any dst v = Ok raw → short raw → ∃ bs, raw = dst ++ bs ∧ lib0_form bs (canon v).

Definition append_entries (l : list value) (dst : bytes) : result bytes := fold_result appendLib0Any l dst.
Definition append_field (dst : bytes) (p : bytes * value) : result bytes := appendLib0Any (appendLib0VarString dst p.1) p.2.
Definition append_fields (l : list (bytes * value)) (dst : bytes) : result bytes := fold_result append_field l dst.

Lemma appendLib0Any_array dst l :
  appendLib0Any dst (VArray l) = append_entries l (appendVarUintV1 (dst ++ [117]) (w32 (Z.of_nat (length l)))).
Proof.
  cbn [appendLib0Any]. generalize (appendVarUintV1 (dst ++ [117]) (w32 (Z.of_nat (length l)))). unfold append_entries.
  induction l as [|v l IH]; intros d; cbn [fold_result]; [done|]. destruct (appendLib0Any d v); [apply IH|done].
Qed.

Lemma appendLib0Any_object dst l :
  appendLib0Any dst (VObject l) = append_fields l (appendVarUintV1 (dst ++ [118]) (w32 (Z.of_nat (length l)))).
Proof.
  cbn [appendLib0Any]. generalize (appendVarUintV1 (dst ++ [118]) (w32 (Z.of_nat (length l)))). unfold append_fields.
  induction l as [|[k v] l IH]; intros d; cbn [fold_result]; [done|]. unfold append_field at 1. cbn [fst snd].
  destruct (appendLib0Any _ v); [apply IH|done].
Qed.

Lemma entries_form l dst raw : Forall writes_value l → append_entries l dst = Ok raw → short raw →
  ∃ bss, raw = dst ++ concat bss ∧ Forall2 lib0_form bss (map canon l).
Proof.
  intros Hl. revert dst. induction Hl as [|v l Hv _ IH]; intros dst; cbn.
  { intros [= <-] _. exists []. by rewrite app_nil_r. }
  destruct (appendLib0Any dst v) as [d|] eqn:E; [|done]. intros Hr Hs. destruct (IH d Hr Hs) as (bss & -> & Hf).
  apply short_app in Hs as [Hs _]. destruct (Hv _ _ E Hs) as (bs & -> & Hb). exists (bs :: bss). cbn. rewrite app_assoc. by auto.
Qed.

Definition field_form (bs : bytes) (p : bytes * value) : Prop := ∃ b, bs = enc_str p.1 ++ b ∧ str_ok p.1 ∧ lib0_form b p.2.

Lemma fields_form l dst raw : Forall (λ p, is_bytes p.1 ∧ writes_value p.2) l → append_fields l dst = Ok raw → short raw →
  ∃ bss, raw = dst ++ concat bss ∧ Forall2 field_form bss (map (λ p, (p.1, canon p.2)) l).
Proof.
  intros Hl. revert dst. induction Hl as [|[k v] l [Hk Hv] _ IH]; intros dst; cbn.
  { intros [= <-] _. exists []. by rewrite app_nil_r. }
  unfold append_field at 1. cbn [fst snd] in *. destruct (appendLib0Any _ v) as [d|] eqn:E; [|done]. intros Hr Hs.
  destruct (IH d Hr Hs) as (bss & -> & Hf). apply short_app in Hs as [Hs _]. destruct (Hv _ _ E Hs) as (bs & -> & Hb).
  assert (str_ok k) as Hok.
  { split; [|done]. apply short_app in Hs as [Hs _]. unfold appendLib0VarString, appendVarStringV1 in Hs. apply short_app in Hs as [_ Hs]. unfold short in Hs. u32. }
  unfold appendLib0VarString. rewrite appendVarString_app. exists ((enc_str k ++ bs) :: bss). split; [cbn; by rewrite <- !app_assoc|].
  constructor; [by exists bs|done].
Qed.

Lemma reads_items (decode : RM value) bss ws acc : Forall2 (λ bs w, reads decode bs w) bss ws →
  reads (for_times (length bss) (λ arr, value ← decode; mret (arr ++ [value])) acc) (concat bss) (acc ++ ws).
Proof.
  intros Hf. revert acc. induction Hf as [|bs w bss ws Hb _ IH]; intros acc; cbn; [rewrite app_nil_r; apply reads_ret|].
  rewrite cons_middle, app_assoc. eapply reads_bind; [|apply IH]. eapply reads_bind_ret; [exact Hb|]. apply reads_ret.
Qed.

Lemma reads_fields (decode : RM value) op bss ps acc :
  Forall2 (λ bs (p : bytes * value), ∃ b, bs = enc_str p.1 ++ b ∧ str_ok p.1 ∧ reads decode b p.2) bss ps →
  reads (for_times (length bss) (λ obj, key ← readLib0VarString op; value ← decode; mret (object_set key value obj)) acc)
    (concat bss) (fold_left (λ obj p, object_set p.1 p.2 obj) ps acc).
Proof.
  intros Hf. revert acc. induction Hf as [|bs [k w] bss ps (b & -> & Hk & Hb) _ IH]; intros acc; cbn; [apply reads_ret|].
  eapply reads_bind; [|apply IH]. eapply reads_bind; [by apply reads_lib0_string|]. eapply reads_bind_ret; [exact Hb|]. apply reads_ret.
Qed.

Lemma length_chunk {A} (l : list A) ls : l ∈ ls → (length l ≤ length (concat ls))%nat.
Proof. induction ls as [|x ls IH]; [set_solver|]. cbn. rewrite length_app. intros [->|?]%elem_of_cons; [lia|]. pose proof (IH H). lia. Qed.

Lemma length_chunks (bss : list bytes) : Forall (λ bs, (1 ≤ length bs)%nat) bss → (length bss ≤ length (concat bss))%nat.
Proof. induction 1 as [|bs bss Hb _ IH]; cbn; [done|]. rewrite length_app. lia. Qed.

(** The count of a collection, when all of it is short. *)
Lemma short_count dst n bss : short (appendVarUintV1 dst (w32 (Z.of_nat n)) ++ concat bss) → length bss = n →
  Forall (λ bs, (1 ≤ length bs)%nat) bss → is_u32 (Z.of_nat n) ∧
  appendVarUintV1 dst (w32 (Z.of_nat n)) = dst ++ Append [] (Z.of_nat n).
Proof.
  intros [_ Hs]%short_app Hn Hb. pose proof (length_chunks bss Hb). unfold short in Hs.
  assert (is_u32 (Z.of_nat n)) by u32. split; [done|]. rewrite w32_small by done. unfold appendVarUintV1. by rewrite Append_app.
Qed.

Lemma array_form l bss : is_u32 (Z.of_nat (length bss)) → Forall2 lib0_form bss l →
  lib0_form (117 :: Append [] (Z.of_nat (length bss)) ++ concat bss) (VArray l).
Proof.
  intros Hn Hf. apply lib0_form_tag.
  - apply any_array, any_items_Forall; [done|]. eapply Forall2_Forall_l; [exact Hf|]. apply Forall_true. by intros w bs [? _].
  - intros f op Hl. cbn. eapply reads_bind; [by apply reads_lib0_uint|]. rewrite Nat2Z.id. rewrite length_app in Hl.
    eapply reads_bind_ret; [|apply reads_ret]. apply (reads_items _ _ _ []).
    assert (Forall (λ bs, (length bs ≤ f)%nat) bss) as Hlen by (apply Forall_forall; intros bs Hbs%length_chunk; lia).
    clear Hl Hn. induction Hf as [|bs w bss l [_ Hb] _ IH]; constructor; apply Forall_cons in Hlen as [? ?]; [by apply Hb|by apply IH].
Qed.

Lemma object_form l bss : is_u32 (Z.of_nat (length bss)) → Forall2 field_form bss l → ordered l →
  lib0_form (118 :: Append [] (Z.of_nat (length bss)) ++ concat bss) (VObject l).
Proof.
  intros Hn Hf Ho. apply lib0_form_tag.
  - apply any_object, any_fields_Forall; [done|]. eapply Forall2_Forall_l; [exact Hf|]. apply Forall_true.
    intros [k w] bs (b & -> & Hk & Hb & _). by eexists _, _.
  - intros f op Hl. cbn. eapply reads_bind; [by apply reads_lib0_uint|]. rewrite Nat2Z.id. rewrite length_app in Hl.
    eapply reads_bind_ret; [|apply reads_ret].
    assert (Forall (λ bs, (length bs ≤ f)%nat) bss) as Hlen by (apply Forall_forall; intros bs Hbs%length_chunk; lia).
    pose proof (object_set_all l [] Ho (Forall_nil_2 _)) as Hall. cbn [app] in Hall. rewrite <- Hall. apply reads_fields.
    clear Hl Hn Ho Hall. induction Hf as [|bs [k w] bss l (b & -> & Hk & _ & Hb) _ IH]; constructor; apply Forall_cons in Hlen as [Hlb ?]; [|by apply IH].
    exists b. split_and!; [done..|]. apply Hb. rewrite length_app in Hlb. lia.
Qed.

Lemma json_writes v : json_wf v → writes_value v.
Proof.
  induction v as [|b|s|s|z|f|b|l IH|l IH] using value_nested_ind; intros Hw dst raw.
  - intros [= <-] _. eexists. split; [done|]. apply lib0_form_tag; [apply any_const; auto|]. intros f op _. apply reads_ret.
  - intros [= <-] _. eexists. split; [done|]. apply lib0_form_tag; [apply any_const; destruct b; auto|]. intros f op _. destruct b; apply reads_ret.
  - intros Hr Hs. cbn [appendLib0Any] in Hr. unfold appendLib0VarString in Hr. rewrite appendVarString_app, <- app_assoc in Hr. injection Hr as <-.
    inversion_clear Hw. assert (str_ok s) as Hok.
    { split; [|done]. apply short_app in Hs as [_ Hs%(short_app [119])]. destruct Hs as [_ Hs]. unfold enc_str, appendVarStringV1 in Hs.
      apply short_app in Hs as [_ Hs]. unfold short in Hs. u32. }
    eexists. split; [done|]. apply lib0_form_tag; [by apply any_string|]. intros f op _. cbn -[enc_str].
    eapply reads_bind_ret; [by apply reads_lib0_string|]. apply reads_ret.
  - intros Hr _. cbn [appendLib0Any canon] in *. unfold canon_number.
    assert (∀ raw, (match ParseFloat s with Some f => appendLib0Number dst f | None => Err (Opaque "strconv.NumError") end) = Ok raw →
      ∃ bs, raw = dst ++ bs ∧ lib0_form bs (default VNil (canon_float <$> ParseFloat s))) as Hfloat.
    { intros raw'. destruct (ParseFloat s) as [f|] eqn:Ef; [|done]. apply number_form. by eapply ParseFloat_range. }
    destruct (ParseInt s) as [z|]; [|by apply Hfloat]. destruct (canEncodeAsLib0Int z) eqn:Ez; [|by apply Hfloat].
    injection Hr as <-. rewrite appendLib0VarInt_app, <- app_assoc. eexists. split; [done|]. by apply lib0_int_form.
  - inversion Hw.
  - inversion Hw.
  - inversion Hw.
  - rewrite appendLib0Any_array. intros Hr Hs. inversion_clear Hw as [| | | |? Hl|].
    assert (Forall writes_value l) as Hall by (rewrite Forall_forall in *; auto).
    destruct (entries_form l _ _ Hall Hr Hs) as (bss & -> & Hf). pose proof (Forall2_length _ _ _ Hf) as Hlen. rewrite length_map in Hlen.
    destruct (short_count _ _ _ Hs Hlen) as [Hn ->].
    { eapply Forall2_Forall_l; [exact Hf|]. apply Forall_true. intros w bs [Hb _]. by apply any_value_nonempty. }
    rewrite <- !app_assoc. eexists. split; [done|]. rewrite <- Hlen in *. by apply array_form.
  - rewrite appendLib0Any_object. intros Hr Hs. inversion_clear Hw as [| | | | |? Hl Ho].
    assert (Forall (λ p, is_bytes p.1 ∧ writes_value p.2) l) as Hall
      by (rewrite Forall_forall in *; intros p Hp; destruct (Hl p Hp); split; [done|]; by apply IH).
    destruct (fields_form l _ _ Hall Hr Hs) as (bss & -> & Hf). pose proof (Forall2_length _ _ _ Hf) as Hlen. rewrite length_map in Hlen.
    destruct (short_count _ _ _ Hs Hlen) as [Hn ->].
    { eapply Forall2_Forall_l; [exact Hf|]. apply Forall_true. intros p bs (b & -> & _ & [Hb _]). apply any_value_nonempty in Hb. rewrite length_app. lia. }
    rewrite <- !app_assoc. eexists. split; [done|]. rewrite <- Hlen in *. apply object_form; [done|exact Hf|by apply canon_ordered].
Qed.

(** ** What JSON texts decode to *)

Lemma is_bytes_snoc s c : is_bytes s → is_u8 c → is_bytes (s ++ [c]).
Proof. intros Hs Hc. apply Forall_app. split; [done|]. by apply Forall_singleton. Qed.

Lemma read_value_bytes s text src t rest : is_bytes text → is_bytes src → read_value_loop s text src = Ok (t, rest) → is_bytes t ∧ is_bytes rest.
Proof.
  revert s text. induction src as [|c src IH]; intros s text Ht Hs; cbn [read_value_loop].
  - destruct (endTop _); [|done]. by intros [= <- <-].
  - pose proof Hs as [Hc Hs']%Forall_cons. assert (is_bytes (text ++ [c])) by (by apply is_bytes_snoc).
    destruct (step s c) as [[] s1]; [..|done]; (destruct (endTop s1); [by intros [= <- <-]|by apply IH]).
Qed.

Lemma DecodeRune_scalar s : is_bytes s → is_scalar (DecodeRune s).1.
Proof.
  intros Hs. unfold DecodeRune. pose proof (runes_scalar (take 4 s) (Forall_take _ _ _ Hs)) as Hr.
  destruct (runes (take 4 s)) as [|r rs]; [apply RuneError_scalar|]. apply Forall_cons in Hr as [Hr _]. by destruct (_ && _).
Qed.

Lemma hex_digit_range c n : hex_digit c = Some n → 0 <= n < 16.
Proof.
  unfold hex_digit, isDigit. repeat case_match; intros; simplify_eq;
    rewrite ?andb_true_iff, ?Z.leb_le in *; lia.
Qed.

Lemma getu4_range s n : getu4 s = Some n → 0 <= n < 65536.
Proof.
  unfold getu4, hex4. destruct s as [|u [|a [|b [|c [|d s]]]]]; try done. destruct (u =? 117); [|done].
  destruct (hex_digit a) as [x|] eqn:Ea, (hex_digit b) as [y|] eqn:Eb, (hex_digit c) as [z|] eqn:Ec, (hex_digit d) as [w|] eqn:Ed; try done.
  intros [= <-]. apply hex_digit_range in Ea, Eb, Ec, Ed. lia.
Qed.

Lemma unicode_escape_scalar s r n : unicode_escape s = Some (r, n) → is_scalar r.
Proof.
  unfold unicode_escape. destruct (getu4 s) as [rr|] eqn:E; [|done]. apply getu4_range in E. cbn [mbind option_bind].
  destruct (is_high rr || is_low rr) eqn:Es.
  - destruct (_ ≫= getu4) as [rr1|]; [|by intros [= <- _]; apply RuneError_scalar].
    destruct (is_high rr && is_low rr1) eqn:E1; [|by intros [= <- _]; apply RuneError_scalar]. intros [= <- _].
    unfold is_high, is_low in E1. rewrite !andb_true_iff, !Z.leb_le, !Z.ltb_lt in E1. unfold is_scalar. lia.
  - intros [= <- _]. unfold is_high, is_low in Es. rewrite orb_false_iff, !andb_false_iff, !Z.leb_gt, !Z.ltb_ge in Es. unfold is_scalar. lia.
Qed.

Lemma utf8_bytes r : is_scalar r → is_bytes (utf8_encode r).
Proof. intros. by apply utf8_encode_spec. Qed.

Lemma unquote_bytes fuel out s t rest : is_bytes out → is_bytes s → unquote fuel out s = Some (t, rest) → is_bytes t ∧ is_bytes rest.
Proof.
  revert out s. induction fuel as [|fuel IH]; intros out s Ho Hs; cbn [unquote]; [done|]. destruct s as [|c s]; [done|].
  pose proof Hs as [Hc Hs']%Forall_cons. destruct (c =? 34); [by intros [= <- <-]|]. destruct (c =? 92).
  - destruct s as [|e s]; [done|]. destruct (e =? 117).
    + destruct (unicode_escape (e :: s)) as [[r n]|] eqn:E; [|done]. apply IH; [|by apply Forall_drop]. apply Forall_app. split; [done|].
      apply utf8_bytes. by eapply unicode_escape_scalar.
    + destruct (escaped_byte e) as [b|] eqn:E; [|done]. apply IH; [|by apply Forall_cons in Hs' as [_ ?]]. apply Forall_app. split; [done|].
      constructor; [|constructor]. apply Forall_cons in Hs' as [He _]. unfold escaped_byte in E. unfold is_u8 in *. repeat case_match; simplify_eq; lia.
  - destruct (c <? 32); [done|]. destruct (c <? 128); [apply IH; [|done]; by apply is_bytes_snoc|].
    pose proof (DecodeRune_scalar _ Hs) as Hr. destruct (DecodeRune (c :: s)) as [r n]. apply IH; [|by apply Forall_drop].
    apply Forall_app. split; [done|by apply utf8_bytes].
Qed.

Lemma skip_spaces_bytes s : is_bytes s → is_bytes (skip_spaces s).
Proof. induction 1 as [|c s Hc Hs IH]; cbn; [constructor|]. destruct (isSpace c); [done|by constructor]. Qed.

Lemma behind_byte_bytes b s t : is_bytes s → behind_byte b s = Some t → is_bytes t.
Proof. intros Hs. destruct Hs as [|c s _ Hs]; cbn; [done|]. destruct (c =? b); [by intros [= <-]|done]. Qed.

Lemma behind_space_bytes b s t : is_bytes s → behind_byte b (skip_spaces s) = Some t → is_bytes t.
Proof. intros Hs. apply behind_byte_bytes. by apply skip_spaces_bytes. Qed.

Lemma span_number_bytes s : is_bytes s → is_bytes (span_number s).2.
Proof.
  induction 1 as [|c s Hc Hs IH]; cbn; [constructor|]. destruct (number_byte c); [|by constructor]. by destruct (span_number s).
Qed.

Create HintDb json.
#[local] Hint Resolve behind_space_bytes skip_spaces_bytes Forall_drop : json.

(** The three parsers together, one unit of fuel at a time. *)
Definition parses_wf (r : option (value * bytes)) : Prop := ∀ v rest, r = Some (v, rest) → json_wf v ∧ is_bytes rest.

Lemma parse_value_wf fuel :
  (∀ s, is_bytes s → parses_wf (parse_value fuel s)) ∧
  (∀ l s, Forall json_wf l → is_bytes s → parses_wf (parse_elements fuel l s)) ∧
  (∀ l s, json_wf (VObject l) → is_bytes s → parses_wf (parse_members fuel l s)).
Proof.
  induction fuel as [|fuel (IHv & IHe & IHm)]; [by split_and!|]. split_and!.
  - intros s Hs v rest. cbn [parse_value]. pose proof (skip_spaces_bytes s Hs) as Hk. destruct (skip_spaces s) as [|c s']; [done|].
    pose proof Hk as [Hc Hs']%Forall_cons. destruct (c =? 34).
    { destruct (unquote _ [] s') as [[str t]|] eqn:E; [|done]. apply unquote_bytes in E as [? ?]; [|constructor|done]. intros [= <- <-]. split; [by constructor|done]. }
    destruct (c =? 91).
    { destruct (behind_byte 93 _) as [t|] eqn:E; [|apply IHe; [constructor|done]]. intros [= <- <-]. split; [by do 2 constructor|eauto with json]. }
    destruct (c =? 123).
    { destruct (behind_byte 125 _) as [t|] eqn:E; [|apply IHm; [by do 2 constructor|done]]. intros [= <- <-]. split; [by do 2 constructor|eauto with json]. }
    do 3 (case_match; [intros [= <- <-]; split; [constructor|by apply Forall_drop]|]).
    pose proof (span_number_bytes _ Hk) as Hn. destruct (span_number (c :: s')). intros [= <- <-]. by split; [constructor|].
  - intros l s Hl Hs v rest. cbn [parse_elements]. destruct (parse_value fuel s) as [[w t]|] eqn:E; [|done].
    apply IHv in E as [Hw Ht]; [|done]. cbn [mbind option_bind]. assert (Forall json_wf (l ++ [w])) by (apply Forall_app; split; [done|by apply Forall_singleton]).
    destruct (behind_byte 44 _) as [t1|] eqn:E1; [apply IHe; [done|eauto with json]|].
    destruct (behind_byte 93 _) as [t1|] eqn:E2; [|done]. intros [= <- <-]. split; [by constructor|eauto with json].
  - intros l s Hl Hs v rest. cbn [parse_members]. destruct (behind_byte 34 _) as [t|] eqn:E; [|done]. cbn [mbind option_bind].
    assert (is_bytes t) as Ht by eauto with json. destruct (unquote _ [] t) as [[key t1]|] eqn:E1; [|done].
    apply unquote_bytes in E1 as [Hkey Ht1]; [|constructor|done]. cbn [mbind option_bind]. destruct (behind_byte 58 _) as [t2|] eqn:E2; [|done].
    assert (is_bytes t2) as Ht2 by eauto with json. cbn [mbind option_bind]. destruct (parse_value fuel t2) as [[w t3]|] eqn:E3; [|done].
    apply IHv in E3 as [Hw Ht3]; [|done]. cbn [mbind option_bind]. inversion_clear Hl as [| | | | |? Hall Hord].
    assert (json_wf (VObject (object_set key w l))) by (constructor; [by apply object_set_keys|by apply object_set_ordered]).
    destruct (behind_byte 44 _) as [t4|] eqn:E4; [apply IHm; [done|eauto with json]|].
    destruct (behind_byte 125 _) as [t4|] eqn:E5; [|done]. intros [= <- <-]. split; [done|eauto with json].
Qed.

Lemma Decode_wf src v rest : is_bytes src → Decode_value src = Ok (v, rest) → json_wf v.
Proof.
  intros Hs. unfold Decode_value, mbind, result_bind. destruct (readValue src) as [[text t]|] eqn:E; [|done].
  apply read_value_bytes in E as [Ht _]; [|constructor|done]. unfold unmarshal. destruct (parse_value _ text) as [[w u]|] eqn:E; [|done].
  intros [= <- _]. destruct (parse_value_wf (S (2 * length text))) as [H _]. by apply (H text Ht w u).
Qed.

Lemma decodeV1JSONRaw_wf raw v : is_bytes raw → decodeV1JSONRaw raw = Ok v → json_wf v.
Proof.
  intros Hr. unfold decodeV1JSONRaw, mbind, result_bind. destruct (string_prefix raw) as [[n e]|]; [|done].
  destruct (negb _); [done|]. destruct (decide _); [by intros [= <-]; constructor|].
  destruct (Decode_value _) as [[w rest]|] eqn:E; [|done]. destruct (negb _); [done|]. intros [= <-].
  eapply Decode_wf; [|exact E]. by apply Forall_drop.
Qed.

(** ** Conversion of a raw payload *)

Lemma reads_whole {A} (m : RM A) bs a : reads m bs a → m (NewReader bs) = (Ok a, advance (length bs) (NewReader bs)).
Proof. intros H. apply (H _ []); [apply wf_NewReader|]. by rewrite app_nil_r. Qed.

Lemma lib0_form_decode bs w : lib0_form bs w → decodeLib0AnyRawExact bs = Ok w.
Proof.
  intros [_ H]. unfold decodeLib0AnyRawExact, decodeLib0AnyValue. cbn [data NewReader].
  rewrite (reads_whole _ _ _ (H (S (length bs)) "ReadAny" ltac:(lia))).
  assert (wf_reader (advance (length bs) (NewReader bs))) by (apply (wf_advance _ bs []); [apply wf_NewReader|by rewrite app_nil_r]).
  rewrite <- length_view, view_advance by done. change (view (NewReader bs)) with bs. by rewrite drop_all.
Qed.

(** The value of a JSON payload survives. *)
Lemma json_to_lib0 raw v out : is_bytes raw → decodeV1JSONRaw raw = Ok v → encodeLib0AnyRaw v = Ok out → short out →
  any_value out ∧ decodeLib0AnyRawExact out = Ok (canon v).
Proof.
  intros Hr Hv Ho Hs. apply decodeV1JSONRaw_wf in Hv; [|done]. destruct (json_writes v Hv [] out Ho Hs) as (bs & -> & Hb).
  split; [apply Hb|]. by apply lib0_form_decode.
Qed.
