(* ===== verification/CodecV2Facts.v ===== *)
(** * A V2 update as a stream of tokens

    Writing a V2 update appends tokens, each to its column; the state of the
    encoder represents the tokens written ([erep]) and that of the decoder the
    tokens to come ([drep]).  [writes] and [reads2] are the specifications of the
    operations of the two sides; both compose by concatenation.

    [struct_v2] are the structs the V2 format can carry: their strings are valid
    UTF-8 and their raw JSON and Any values are at most as long as a decoded
    collection may be.  Writing such a struct emits [struct_tokens], and reading
    these tokens gives the struct as it is after the V1 wire. *)
From S2P Require Import Prelude GoError Binary Ranges IdSet Varint GoText YTypes DeleteSet Decoder DecoderFacts Content Update UpdateFacts UpdateStream Lib0 DecoderV2 EncodeV2 Lib0Facts.
Import varint.

Inductive token :=
| TRest (bs : bytes) | TKey | TClient (v : Z) | TLeft (v : Z) | TRight (v : Z) | TInfo (v : Z)
| TString (s : bytes) | TParent (v : Z) | TType (v : Z) | TLen (v : Z).

Definition c_rest (l : list token) : bytes := concat (omap (λ t, match t with TRest bs => Some bs | _ => None end) l).
Definition c_keys (l : list token) : Z := Z.of_nat (length (omap (λ t, match t with TKey => Some tt | _ => None end) l)).
Definition c_client (l : list token) : list Z := omap (λ t, match t with TClient v => Some v | _ => None end) l.
Definition c_left (l : list token) : list Z := omap (λ t, match t with TLeft v => Some v | _ => None end) l.
Definition c_right (l : list token) : list Z := omap (λ t, match t with TRight v => Some v | _ => None end) l.
Definition c_info (l : list token) : list Z := omap (λ t, match t with TInfo v => Some v | _ => None end) l.
Definition c_strings (l : list token) : list bytes := omap (λ t, match t with TString s => Some s | _ => None end) l.
Definition c_parent (l : list token) : list Z := omap (λ t, match t with TParent v => Some v | _ => None end) l.
Definition c_type (l : list token) : list Z := omap (λ t, match t with TType v => Some v | _ => None end) l.
Definition c_len (l : list token) : list Z := omap (λ t, match t with TLen v => Some v | _ => None end) l.

Lemma few_omap {A B} (f : A → option B) l : few l → few (omap f l).
Proof. unfold few. intros H. enough (length (omap f l) ≤ length l)%nat by lia. clear H. induction l as [|a l IH]; cbn; [lia|]. destruct (f a); cbn; lia. Qed.

(** ** The encoder *)

Record erep (e : updateEncoderV2) (l : list token) : Prop := {
  er_rest : e_rest e = c_rest l;
  er_key : few l → denc (e_keyClock e) (seqZ 0 (c_keys l)) ∧ e_keyClockN e = c_keys l;
  er_idle : c_keys l = 0 → diff_bytes (e_keyClock e) = [];
  er_client : uenc (e_client e) (c_client l);
  er_left : denc (e_leftClock e) (c_left l);
  er_right : denc (e_rightClock e) (c_right l);
  er_info : renc (e_info e) (c_info l);
  er_strings : senc (e_strings e) (c_strings l);
  er_parent : renc (e_parentInfo e) (c_parent l);
  er_type : uenc (e_typeRef e) (c_type l);
  er_len : uenc (e_lengths e) (c_len l) }.

Lemma erep_new : erep newEncoderV2 [].
Proof.
  constructor; try first [reflexivity|apply uenc_new|apply denc_new|apply renc_new|apply senc_new].
  intros _. split; [apply denc_new|done].
Qed.

(** [f] appends the tokens [k]. *)
Definition emits (f : updateEncoderV2 → updateEncoderV2) (k : list token) : Prop :=
  ∀ e l, erep e l → erep (f e) (l ++ k).

(** Projections of an appended list; the key column stays a number. *)
Lemma c_keys_app a b : c_keys (a ++ b) = c_keys a + c_keys b.
Proof. unfold c_keys. by rewrite omap_app, length_app, Nat2Z.inj_add. Qed.

Ltac columns H :=
  destruct H; constructor; cbn [e_rest e_keyClock e_client e_leftClock e_rightClock e_info e_strings e_parentInfo e_typeRef
    e_lengths e_keyClockN put_rest put_client put_leftClock put_rightClock put_info put_string put_parentInfo put_typeRef
    put_length put_keyClock];
  unfold c_rest, c_client, c_left, c_right, c_info, c_strings, c_parent, c_type, c_len in *; rewrite ?omap_app; cbn [omap list_omap];
  rewrite ?c_keys_app, ?app_nil_r; try done;
  try match goal with |- few _ → _ => let Hf := fresh in intros Hf; apply few_app_l in Hf; rewrite Z.add_0_r; auto end;
  try match goal with |- _ = 0 → _ => rewrite Z.add_0_r; auto end.

Lemma emits_rest bs : emits (put_rest bs) [TRest bs].
Proof. intros e l H. columns H. rewrite concat_app. cbn. by rewrite app_nil_r, er_rest0. Qed.
Lemma emits_client v : is_u32 v → emits (put_client v) [TClient v].
Proof. intros Hv e l H. columns H. by apply uenc_write. Qed.
Lemma emits_left v : is_u32 v → emits (put_leftClock v) [TLeft v].
Proof. intros Hv e l H. columns H. by apply denc_write. Qed.
Lemma emits_right v : is_u32 v → emits (put_rightClock v) [TRight v].
Proof. intros Hv e l H. columns H. by apply denc_write. Qed.
Lemma emits_info v : emits (put_info v) [TInfo v].
Proof. intros e l H. columns H. by apply renc_write. Qed.
Lemma emits_string s : utf8_ok s → emits (put_string s) [TString s].
Proof. intros Hs e l H. columns H. by apply senc_write. Qed.
Lemma emits_parent v : emits (put_parentInfo v) [TParent v].
Proof. intros e l H. columns H. by apply renc_write. Qed.
Lemma emits_type v : is_u32 v → emits (put_typeRef v) [TType v].
Proof. intros Hv e l H. columns H. by apply uenc_write. Qed.
Lemma emits_len v : is_u32 v → emits (put_length v) [TLen v].
Proof. intros Hv e l H. columns H. by apply uenc_write. Qed.
Lemma emits_key : emits put_keyClock [TKey].
Proof.
  intros e l H. columns H; [intros Hf|change (c_keys [TKey]) with 1; unfold c_keys; lia]. pose proof (few_omap (λ t, match t with TKey => Some tt | _ => None end) _ Hf) as Hk.
  rewrite omap_app in Hk. unfold few in Hk. rewrite length_app in Hk. cbn in Hk. apply few_app_l in Hf.
  destruct (er_key0 Hf) as [Hd Hn]. assert (0 <= c_keys l) by (unfold c_keys; lia). assert (c_keys l < 4294967295) by (unfold c_keys; lia).
  change (c_keys [TKey]) with 1. split; [|rewrite Hn, w32_small; [done|u32]].
  rewrite seqZ_app by lia. rewrite Hn. change (seqZ (0 + c_keys l) 1) with [0 + c_keys l]. rewrite Z.add_0_l.
  apply denc_write; [u32|done].
Qed.

Lemma emits_nil : emits (λ e, e) [].
Proof. intros e l H. by rewrite app_nil_r. Qed.

Lemma emits_comp f g k1 k2 : emits f k1 → emits g k2 → emits (λ e, g (f e)) (k1 ++ k2).
Proof. intros Hf Hg e l H. rewrite app_assoc. by apply Hg, Hf. Qed.

Lemma emits_fold {A} (f : updateEncoderV2 → A → updateEncoderV2) (t : A → token) l :
  Forall (λ a, emits (λ e, f e a) [t a]) l → emits (λ e, fold_left f l e) (t <$> l).
Proof.
  induction 1 as [|a l Ha _ IH]; [apply emits_nil|]. exact (emits_comp _ _ [t a] (t <$> l) Ha IH).
Qed.

Lemma emits_put_key key : utf8_ok key → emits (writeKey key) [TKey; TString key].
Proof. intros Hk. apply (emits_comp _ _ [TKey] [TString key] emits_key). by apply emits_string. Qed.

(** A fallible operation that succeeds and appends [k]. *)
Definition writes (f : updateEncoderV2 → result updateEncoderV2) (k : list token) : Prop :=
  ∀ e l, erep e l → ∃ e', f e = Ok e' ∧ erep e' (l ++ k).

Lemma writes_ok f k : emits f k → writes (λ e, Ok (f e)) k.
Proof. intros H e l He. eexists. split; [done|]. by apply H. Qed.

Lemma writes_bind f g k1 k2 : writes f k1 → writes g k2 → writes (λ e, f e ≫= g) (k1 ++ k2).
Proof.
  intros Hf Hg e l He. destruct (Hf e l He) as (e1 & E1 & He1). destruct (Hg e1 _ He1) as (e2 & E2 & He2).
  exists e2. rewrite E1, app_assoc. done.
Qed.

Lemma writes_emits f g k1 k2 : emits f k1 → writes g k2 → writes (λ e, g (f e)) (k1 ++ k2).
Proof. intros Hf. exact (writes_bind _ g k1 k2 (writes_ok f k1 Hf)). Qed.

Lemma writes_fold {A} (f : A → updateEncoderV2 → result updateEncoderV2) (t : A → list token) l :
  Forall (λ a, writes (f a) (t a)) l → writes (λ e, fold_result (λ e a, f a e) l e) (concat (t <$> l)).
Proof.
  induction 1 as [|a l Ha _ IH]; [intros e l He; exists e; by rewrite app_nil_r|].
  cbn [fold_result fmap list_fmap concat]. by apply writes_bind.
Qed.

(** ** The decoder *)

Record drep (d : decoderV2) (l : list token) : Prop := {
  dr_rest : wf_reader (d_rest d) ∧ view (d_rest d) = c_rest l;
  dr_key : diff_yields (d_keyClock d) (seqZ (Z.of_nat (length (d_keys d))) (c_keys l));
  dr_client : uint_yields (d_client d) (c_client l);
  dr_left : diff_yields (d_leftClock d) (c_left l);
  dr_right : diff_yields (d_rightClock d) (c_right l);
  dr_info : rle_yields (d_info d) (c_info l);
  dr_strings : str_yields (d_strings d) (c_strings l);
  dr_parent : rle_yields (d_parentInfo d) (c_parent l);
  dr_type : uint_yields (d_typeRef d) (c_type l);
  dr_len : uint_yields (d_lengths d) (c_len l) }.

(** [m] takes the tokens [k] and returns [a], whatever follows. *)
Definition reads2 {A} (m : DM A) (k : list token) (a : A) : Prop :=
  ∀ d l, drep d (k ++ l) → ∃ d', m d = (Ok a, d') ∧ drep d' l ∧ d_dsCurrVal d' = d_dsCurrVal d.

Lemma reads2_ret {A} (a : A) : reads2 (mret a) [] a.
Proof. intros d l H. by exists d. Qed.

Lemma reads2_bind {A B} (m : DM A) (f : A → DM B) k1 k2 a b :
  reads2 m k1 a → reads2 (f a) k2 b → reads2 (m ≫= f) (k1 ++ k2) b.
Proof.
  intros H1 H2 d l Hd. rewrite <- app_assoc in Hd. destruct (H1 _ _ Hd) as (d1 & E1 & Hd1 & C1).
  destruct (H2 _ _ Hd1) as (d2 & E2 & Hd2 & C2). exists d2. unfold mbind, DM_bind. rewrite E1. split_and!; congruence || done.
Qed.

Lemma reads2_bind_ret {A B} (m : DM A) (f : A → DM B) k a b :
  reads2 m k a → reads2 (f a) [] b → reads2 (m ≫= f) k b.
Proof. intros H1 H2. rewrite <- (app_nil_r k). by eapply reads2_bind. Qed.

Lemma reads2_lift {A} (m : result A) a : m = Ok a → reads2 (liftD m) [] a.
Proof. intros -> d l H. by exists d. Qed.

Lemma reads2_offset {B} (f : Z → DM B) k b : (∀ o, reads2 (f o) k b) → reads2 (d_offset ≫= f) k b.
Proof.
  intros H d l Hd. destruct (H (Offset (d_rest d)) d l Hd) as (d' & E & ?). exists d'. split; [|done].
  rewrite <- E. by destruct d.
Qed.

Ltac columns_of H :=
  destruct H; unfold c_rest, c_client, c_left, c_right, c_info, c_strings, c_parent, c_type, c_len in *;
  cbn [app omap list_omap concat yields] in *.

Ltac from_column H :=
  let s := fresh "s" in destruct H as (s & ? & ?); eexists; split; [unfold on; by simplify_option_eq|]; split; [by constructor|done].

Lemma reads2_rest {A} (m : RM A) bs a : reads m bs a → reads2 (rest m) [TRest bs] a.
Proof.
  intros Hm d l H. columns_of H. destruct dr_rest0 as [Hw Hv]. unfold rest, on. rewrite (Hm _ _ Hw Hv).
  eexists. split; [done|]. split; [|done]. constructor; try done. cbn. split; [by eapply wf_advance|by apply view_advance_app].
Qed.

(** Reading from one of the other columns. *)
Lemma reads2_client v : reads2 readClientD [TClient v] v.
Proof. intros d l H. columns_of H. destruct dr_client0 as (s & E & Hs). unfold readClientD, on. rewrite E. eexists. split; [done|]. by split; [constructor|]. Qed.
Lemma reads2_left v : reads2 (on d_leftClock set_leftClock diff_read) [TLeft v] v.
Proof. intros d l H. columns_of H. destruct dr_left0 as (s & E & Hs). unfold on. rewrite E. eexists. split; [done|]. by split; [constructor|]. Qed.
Lemma reads2_right v : reads2 (on d_rightClock set_rightClock diff_read) [TRight v] v.
Proof. intros d l H. columns_of H. destruct dr_right0 as (s & E & Hs). unfold on. rewrite E. eexists. split; [done|]. by split; [constructor|]. Qed.
Lemma reads2_info v : reads2 readInfoD [TInfo v] v.
Proof. intros d l H. columns_of H. destruct dr_info0 as (s & E & Hs). unfold readInfoD, on. rewrite E. eexists. split; [done|]. by split; [constructor|]. Qed.
Lemma reads2_string v : reads2 readStringD [TString v] v.
Proof. intros d l H. columns_of H. destruct dr_strings0 as (s & E & Hs). unfold readStringD, on. rewrite E. eexists. split; [done|]. by split; [constructor|]. Qed.
Lemma reads2_parent v : reads2 (on d_parentInfo set_parentInfo rle_read) [TParent v] v.
Proof. intros d l H. columns_of H. destruct dr_parent0 as (s & E & Hs). unfold on. rewrite E. eexists. split; [done|]. by split; [constructor|]. Qed.
Lemma reads2_type v : reads2 readTypeRef [TType v] v.
Proof. intros d l H. columns_of H. destruct dr_type0 as (s & E & Hs). unfold readTypeRef, on. rewrite E. eexists. split; [done|]. by split; [constructor|]. Qed.
Lemma reads2_len v : reads2 readLen [TLen v] v.
Proof. intros d l H. columns_of H. destruct dr_len0 as (s & E & Hs). unfold readLen, on. rewrite E. eexists. split; [done|]. by split; [constructor|]. Qed.

(** A key is always new: its clock is the number of keys so far. *)
Lemma reads2_key key : reads2 readKey [TKey; TString key] key.
Proof.
  intros d l H. columns_of H. unfold readKey, mbind, DM_bind, on at 1.
  change (c_keys (TKey :: TString key :: l)) with (c_keys ([TKey] ++ l)) in dr_key0. rewrite c_keys_app in dr_key0.
  change (c_keys [TKey]) with 1 in dr_key0. rewrite seqZ_cons in dr_key0 by (unfold c_keys; lia).
  destruct dr_key0 as (s & E & Hs). rewrite E. unfold getD. cbn [d_keys set_keyClock]. rewrite Nat2Z.id.
  rewrite lookup_ge_None_2 by lia. destruct dr_strings0 as (t & Et & Ht).
  unfold readStringD, on. cbn [d_strings set_keyClock]. rewrite Et. unfold modifyD. cbn [mret DM_ret].
  eexists. split; [done|]. split; [|done]. constructor; try done.
  cbn [d_keyClock d_keys set_keys set_strings set_keyClock]. rewrite length_app. cbn [length].
  replace (Z.of_nat (length (d_keys d) + 1)) with (Z.succ (Z.of_nat (length (d_keys d)))) by lia.
  by replace (Z.pred (1 + c_keys l)) with (c_keys l) in Hs by lia.
Qed.

Lemma reads2_rest_uint op v : is_u32 v → reads2 (readRestVarUint op) [TRest (Append [] v)] v.
Proof. intros Hv. by apply reads2_rest, reads_lib0_uint. Qed.

Lemma reads2_parentInfo (b : bool) : reads2 readParentInfoD [TParent (if b then 1 else 0)] b.
Proof.
  unfold readParentInfoD. eapply reads2_bind_ret; [apply reads2_parent|]. destruct b; apply reads2_ret.
Qed.

(** Loops. *)
Lemma reads2_loop {S X} (body : S → DM S) (t : X → list token) (step : S → X → S) (P : S → list X → Prop) l s :
  (∀ s x l, P s (x :: l) → reads2 (body s) (t x) (step s x) ∧ P (step s x) l) → P s l →
  reads2 (for_timesD (length l) body s) (concat (t <$> l)) (fold_left step l s).
Proof.
  intros H. revert s. induction l as [|x l IH]; intros s Hs; [apply reads2_ret|].
  destruct (H _ _ _ Hs). cbn. eapply reads2_bind; eauto.
Qed.

(** ** From the bytes of an encoder to a decoder *)

Lemma drained_columns d : drep d [] → ensureDrained d = None.
Proof.
  intros H. columns_of H. change (c_keys []) with 0 in *. cbn [seqZ] in dr_key0. unfold ensureDrained. cbn [foldr].
  rewrite dr_client0, dr_left0, dr_right0, dr_info0, dr_strings0, dr_parent0, dr_type0, dr_len0.
  cbn in dr_key0. by rewrite dr_key0.
Qed.

Lemma reads_view op col : is_u32 (Z.of_nat (length col)) →
  reads (readLib0VarUint8ArrayView op) (Append [] (Z.of_nat (length col)) ++ col) col.
Proof. intros Hc. eapply reads_bind; [by apply reads_lib0_uint|]. by apply reads_catch, reads_ReadN. Qed.

Lemma append_array out col : appendLib0VarUint8Array out col = out ++ Append [] (w32 (Z.of_nat (length col))) ++ col.
Proof. unfold appendLib0VarUint8Array, appendVarUintV1. by rewrite Append_app, <- app_assoc. Qed.

(** The next section of the header. *)
Lemma view_step {B} op col rest r (k : bytes → RM B) : wf_reader r → is_u32 (Z.of_nat (length col)) →
  view r = Append [] (w32 (Z.of_nat (length col))) ++ col ++ rest →
  ∃ r', (readLib0VarUint8ArrayView op ≫= k) r = k col r' ∧ wf_reader r' ∧ view r' = rest.
Proof.
  intros Hw Hc Hv. rewrite w32_small, app_assoc in Hv by done. eexists. unfold mbind, RM_bind.
  rewrite (reads_view op col Hc r rest Hw Hv). split; [done|]. split; [by eapply wf_advance|by apply view_advance_app].
Qed.

Lemma uint_step {B} op v rest r (k : Z → RM B) : is_u32 v → wf_reader r → view r = Append [] v ++ rest →
  ∃ r', (readLib0VarUint op ≫= k) r = k v r' ∧ wf_reader r' ∧ view r' = rest.
Proof.
  intros Hc Hw Hv. eexists. unfold mbind, RM_bind. rewrite (reads_lib0_uint op v Hc r rest Hw Hv).
  split; [done|]. split; [by eapply wf_advance|by apply view_advance_app].
Qed.

Lemma str_bytes_length e l : senc e l → (length (concat l) ≤ length (str_bytes e))%nat.
Proof.
  intros (Ht & _). unfold str_bytes, appendLib0VarString, appendVarStringV1. rewrite Ht, !length_app. lia.
Qed.

Lemma newDecoderV2_columns e l : erep e l → few l → Z.of_nat (length (encoder_bytes e)) < 4294967296 →
  ∃ d, newDecoderV2 (encoder_bytes e) = Ok d ∧ drep d l ∧ d_dsCurrVal d = 0.
Proof.
  intros He Hf Hn. unfold encoder_bytes in *. rewrite !append_array in *. rewrite <- !app_assoc in *.
  repeat rewrite length_app in Hn. unfold newDecoderV2.
  match goal with |- context [NewReader ?bs] => set (src := bs) in * end.
  assert (view (NewReader src) = src) as Hv by done. pose proof (wf_NewReader src) as Hw. subst src.
  destruct He. destruct (er_key0 Hf) as [Hkey _].
  set (kc := diff_bytes (e_keyClock e)) in *. set (cl := uint_bytes (e_client e)) in *.
  set (lc := diff_bytes (e_leftClock e)) in *. set (rc := diff_bytes (e_rightClock e)) in *.
  set (inf := rle_bytes (e_info e)) in *. set (st := str_bytes (e_strings e)) in *.
  set (pi := rle_bytes (e_parentInfo e)) in *. set (tr := uint_bytes (e_typeRef e)) in *.
  set (len := uint_bytes (e_lengths e)) in *. set (rst := e_rest e) in *.
  destruct (senc_bytes (e_strings e) _ "ReadV2StringEncoder" er_strings0) as (sd & Esd & Hsd); [by apply few_omap| |].
  { pose proof (str_bytes_length _ _ er_strings0). fold st in H. u32. }
  edestruct (uint_step (B := decoderV2) "ReadV2FeatureFlag" 0) as (r & E & Hw' & Hv'); [u32|exact Hw|exact Hv|].
  rewrite E. clear E Hw Hv. rename Hw' into Hw, Hv' into Hv. change (0 =? 0) with true. cbn [negb].
  do 9 (edestruct (view_step (B := decoderV2)) as (r' & E & Hw' & Hv'); [exact Hw| |exact Hv|rewrite E; clear E Hw Hv r; rename r' into r, Hw' into Hw, Hv' into Hv]; [u32|]).
  unfold mbind, RM_bind, getRemaining.
  rewrite (reads_catch _ _ _ _ (reads_ReadN rst (Remaining r) ltac:(by rewrite <- length_view, Hv)) r [] Hw ltac:(by rewrite app_nil_r)).
  fold st in Esd. unfold liftR. rewrite Esd. cbn [mret RM_ret fst]. eexists. split; [done|]. split; [|done]. constructor; cbn [d_rest d_keyClock d_client
    d_leftClock d_rightClock d_info d_strings d_parentInfo d_typeRef d_lengths d_keys].
  - split; [apply wf_NewReader|]. by rewrite view_NewReader.
  - apply denc_bytes; [done|]. unfold few. rewrite length_seqZ. pose proof (few_omap (λ t, match t with TKey => Some tt | _ => None end) l Hf) as Hk.
    unfold few in Hk. unfold c_keys. lia.
  - apply uenc_bytes; [done|by apply few_omap].
  - apply denc_bytes; [done|by apply few_omap].
  - apply denc_bytes; [done|by apply few_omap].
  - apply renc_bytes; [done|by apply few_omap].
  - done.
  - apply renc_bytes; [done|by apply few_omap].
  - apply uenc_bytes; [done|by apply few_omap].
  - apply uenc_bytes; [done|by apply few_omap].
Qed.

(** ** Any values *)

#[local] Arguments readLib0VarUint : simpl never.
#[local] Arguments readLib0VarString : simpl never.
#[local] Arguments readLib0VarUint8ArrayView : simpl never.
#[local] Arguments readLib0VarIntRaw : simpl never.
#[local] Arguments readLib0BigEndian : simpl never.
#[local] Arguments appendVarUintV1 : simpl never.
#[local] Arguments appendVarStringV1 : simpl never.
#[local] Arguments for_times : simpl never.

Lemma agree_lib0_uint n op : agree n (readLib0VarUint op) (readLib0VarUint op).
Proof. apply agree_catch; [done|apply agree_ReadU]. Qed.
Lemma agree_lib0_string n op : agree n (readLib0VarString op) (readLib0VarString op).
Proof. apply agree_bind; [apply agree_lib0_uint|auto with agree]. Qed.
Lemma agree_lib0_view n op : agree n (readLib0VarUint8ArrayView op) (readLib0VarUint8ArrayView op).
Proof. apply agree_bind; [apply agree_lib0_uint|auto with agree]. Qed.
Lemma agree_lib0_raw n k op raw : agree n (readLib0VarIntRaw_loop k op raw) (readLib0VarIntRaw_loop k op raw).
Proof.
  revert raw. induction k as [|k IH]; intros raw; cbn; [auto with agree|].
  apply agree_bind; [auto with agree|]. intros b. apply agree_if; auto with agree.
Qed.
Lemma agree_validate n op off len :
  agree n (liftR (validateDecodedCollectionLength op off len)) (liftR (validateDecodedCollectionLength op off len)).
Proof. apply agree_lift. unfold validateDecodedCollectionLength. by case_if. Qed.
Lemma agree_bigEndian n op size : agree n (readLib0BigEndian op size) (readLib0BigEndian op size).
Proof. apply agree_catch; [done|apply agree_ReadN]. Qed.
#[local] Hint Resolve agree_lib0_uint agree_lib0_string agree_lib0_view agree_lib0_raw agree_validate agree_bigEndian : agree.

Lemma agree_anyWithTagV2 n (rec1 rec2 : string → RM bytes) op start tag :
  (∀ op, agree n (rec1 op) (rec2 op)) → agree n (anyWithTagV2 rec1 op start tag) (anyWithTagV2 rec2 op start tag).
Proof.
  intros H. unfold anyWithTagV2, readLib0VarIntRaw. cbn zeta.
  repeat (apply agree_if || apply agree_ret);
    try (apply agree_bind; [auto with agree|]; intros; auto 8 with agree); auto with agree.
Qed.

Lemma readAnyRawV2_fuel_agree f1 f2 op n : n < Z.of_nat f1 → n < Z.of_nat f2 →
  agree n (readAnyRawV2_fuel f1 op) (readAnyRawV2_fuel f2 op).
Proof.
  revert f2 op n. induction f1 as [|f1 IH]; intros [|f2] op n H1 H2; try (intros r ?; lia).
  cbn [readAnyRawV2_fuel]. unfold anyStepV2. apply agree_bind; [apply agree_offset|]. intros start.
  apply agree_ReadByte_bind; [done|]. intros tag. apply agree_anyWithTagV2. intros op'. apply IH; lia.
Qed.

Lemma readAnyRawV2_unfold op r : wf_reader r → readAnyRawV2 op r = anyStepV2 readAnyRawV2 op r.
Proof.
  intros Hw. assert (0 <= Remaining r) by (rewrite <- length_view by done; lia).
  assert (∀ f op n r', n < Z.of_nat f → 0 <= Remaining r' <= n → readAnyRawV2_fuel f op r' = readAnyRawV2 op r') as Hfuel.
  { intros f op' n r' Hf Hr. unfold readAnyRawV2.
    apply (readAnyRawV2_fuel_agree f _ op' (Remaining r')); unfold Remaining in *; lia. }
  set (f := S (length (data r))). rewrite <- (Hfuel (S f) op (Remaining r) r) by (unfold Remaining in *; lia).
  cbn [readAnyRawV2_fuel]. unfold anyStepV2, mbind at 1, RM_bind at 1, getOffset. cbn [mret RM_ret].
  assert (agree (Remaining r) (tag ← catch ReadByte (λ _ err, wrapError (op +:+ ".tag") (Offset r) err);
      anyWithTagV2 (readAnyRawV2_fuel f) op (Offset r) tag)
    (tag ← catch ReadByte (λ _ err, wrapError (op +:+ ".tag") (Offset r) err);
      anyWithTagV2 readAnyRawV2 op (Offset r) tag)) as Hag.
  { apply agree_ReadByte_bind; [done|]. intros tag. apply agree_anyWithTagV2. intros op' r' Hr'.
    rewrite <- (Hfuel f op' (Remaining r - 1) r') by (unfold f, Remaining in *; lia).
    apply (readAnyRawV2_fuel_agree f f op' (Remaining r - 1)); unfold f, Remaining in *; lia. }
  apply (Hag r). lia.
Qed.

(** No longer than a collection may be: then no collection inside is too large. *)
Definition raw_small (v : bytes) : Prop := is_bytes v ∧ Z.of_nat (length v) <= maxDecodedCollectionLength.

#[export] Instance raw_small_dec v : Decision (raw_small v).
Proof. unfold raw_small. apply _. Defined.

Lemma raw_small_app a b : raw_small (a ++ b) → raw_small a ∧ raw_small b.
Proof. intros [[Ha Hb]%Forall_app Hl]. rewrite length_app in Hl. unfold raw_small. split; (split; [done|lia]). Qed.

Definition any_read2 (bs : bytes) : Prop := ∃ tag t, bs = tag :: t ∧ isLib0AnyTag tag = true ∧
  ∀ op start, reads (readAnyRawWithTagV2 op start tag) t bs.

Lemma reads_any_read2 bs op : any_read2 bs → reads (readAnyRawV2 op) bs bs.
Proof.
  intros (tag & t & -> & _ & H) r rest Hw Hv. rewrite readAnyRawV2_unfold by done. revert r rest Hw Hv.
  change (reads (anyStepV2 readAnyRawV2 op) (tag :: t) (tag :: t)). unfold anyStepV2.
  apply reads_offset. intros start. apply reads_byte. apply H.
Qed.

Lemma reads_lib0_raw k op bs raw : bs ≠ [] → is_bytes bs → (length bs ≤ k)%nat →
  Forall (λ b, 128 <= b) (removelast bs) → (∃ b, last bs = Some b ∧ b < 128) →
  reads (readLib0VarIntRaw_loop k op raw) bs (raw ++ bs).
Proof.
  revert bs raw. induction k as [|k IH]; intros bs raw Hne Hb Hl Hf (e & He & Hlt); [destruct bs; cbn in Hl; [done|lia]|].
  destruct bs as [|b bs]; [done|]. cbn [readLib0VarIntRaw_loop]. apply reads_byte. apply Forall_cons in Hb as [Hb0 Hb].
  pose proof (high_bit b Hb0) as Hh. destruct bs as [|b2 bs].
  - cbn in He. injection He as ->. rewrite (proj2 (Z.leb_gt 128 e)) in Hh by lia. rewrite Hh. apply reads_ret.
  - cbn in Hf. apply Forall_cons in Hf as [Hb1 Hf]. rewrite (proj2 (Z.leb_le 128 b)) in Hh by lia. rewrite Hh. change (128 =? 0) with false. cbn iota.
    change (raw ++ b :: b2 :: bs) with (raw ++ [b] ++ b2 :: bs). rewrite app_assoc. apply IH; [done|done|cbn in *; lia|done|].
    exists e. by rewrite <- He.
Qed.

Lemma reads_validate op off n : n <= maxDecodedCollectionLength →
  reads (liftR (validateDecodedCollectionLength op off n)) [] tt.
Proof. intros H. apply reads_lift. unfold validateDecodedCollectionLength. by rewrite (proj2 (Z.leb_le _ _)). Qed.

Lemma any_items_length n bs : any_items n bs → (n ≤ length bs)%nat.
Proof.
  assert (∀ v, any_value v → (1 ≤ length v)%nat) as H1 by (destruct 1; cbn; lia).
  induction 1 as [|n v bs Hv _ IH]; [done|]. rewrite length_app. pose proof (H1 v Hv). lia.
Qed.
Lemma any_fields_length n bs : any_fields n bs → (n ≤ length bs)%nat.
Proof.
  assert (∀ v, any_value v → (1 ≤ length v)%nat) as H1 by (destruct 1; cbn; lia).
  induction 1 as [|n k v bs Hk Hv _ IH]; [done|]. rewrite !length_app. pose proof (H1 v Hv). lia.
Qed.

(** A collection of a small value. *)
Lemma small_count (tag : Z) n bs : raw_small (tag :: Append [] (Z.of_nat n) ++ bs) → (n ≤ length bs)%nat →
  raw_small bs ∧ Z.of_nat n <= maxDecodedCollectionLength.
Proof.
  intros Hs Hn. change (tag :: ?x) with ([tag] ++ x) in Hs. apply raw_small_app in Hs as [_ [_ Hs]%raw_small_app].
  split; [done|]. destruct Hs as [_ ?]. lia.
Qed.

Lemma any_value_read2 bs : any_value bs → raw_small bs → any_read2 bs.
Proof.
  apply (any_value_mut (λ bs, raw_small bs → any_read2 bs)
    (λ n bs, raw_small bs → ∀ op raw, reads (for_times n (λ raw, value ← readAnyRawV2 op; mret (raw ++ value)) raw) bs (raw ++ bs))
    (λ n bs, raw_small bs → ∀ op1 op2 raw, reads (for_times n (λ raw, key ← readLib0VarString op1;
       let raw := appendLib0VarString raw key in value ← readAnyRawV2 op2; mret (raw ++ value)) raw) bs (raw ++ bs))).
  all: unfold readAnyRawWithTagV2, anyWithTagV2.
  - intros tag Ht _. exists tag, []. split; [done|]. destruct Ht as [->|[->|[->| ->]]]; (split; [done|]);
      intros op start; apply reads_ret.
  - intros v (Hne & Hl & Hf & He) [[_ Hb]%Forall_cons _]. eexists _, _. do 2 (split; [done|]). intros op start; cbn.
    eapply reads_bind_ret; [apply reads_lib0_raw; [done|done|lia|done|done]|]. apply reads_ret.
  - intros v Hl _. eexists _, _. do 2 (split; [done|]). intros op start; cbn.
    eapply reads_bind_ret; [apply reads_catch, reads_ReadN; by rewrite Hl|]. apply reads_ret.
  - intros tag v Ht Hl _. eexists _, _. split; [done|]. destruct Ht as [-> | ->]; (split; [done|]); intros op start; cbn;
      (eapply reads_bind_ret; [apply reads_catch, reads_ReadN; by rewrite Hl|]; apply reads_ret).
  - intros v Hs _. eexists _, _. do 2 (split; [done|]). intros op start; cbn.
    eapply reads_bind_ret; [by apply reads_lib0_string|]. unfold appendLib0VarString. rewrite appendVarString_app. apply reads_ret.
  - intros n v Hn Hf IH Hsm. destruct (small_count _ _ _ Hsm (any_fields_length _ _ Hf)) as [Hv Hmax].
    eexists _, _. do 2 (split; [done|]). intros op start; cbn.
    eapply reads_bind; [by apply reads_lib0_uint|]. apply reads_offset. intros off. rewrite Nat2Z.id.
    rewrite <- (app_nil_l v) at 1. eapply reads_bind; [by apply reads_validate|]. unfold appendVarUintV1. rewrite Append_app.
    change (118 :: Append [] (Z.of_nat n) ++ v) with (([118] ++ Append [] (Z.of_nat n)) ++ v). by apply IH.
  - intros n v Hn Hf IH Hsm. destruct (small_count _ _ _ Hsm (any_items_length _ _ Hf)) as [Hv Hmax].
    eexists _, _. do 2 (split; [done|]). intros op start; cbn.
    eapply reads_bind; [by apply reads_lib0_uint|]. apply reads_offset. intros off. rewrite Nat2Z.id.
    rewrite <- (app_nil_l v) at 1. eapply reads_bind; [by apply reads_validate|]. unfold appendVarUintV1. rewrite Append_app.
    change (117 :: Append [] (Z.of_nat n) ++ v) with (([117] ++ Append [] (Z.of_nat n)) ++ v). by apply IH.
  - intros v Hs _. eexists _, _. do 2 (split; [done|]). intros op start; cbn.
    eapply reads_bind_ret; [eapply reads_ext; [|by apply (reads_readBuf (op +:+ ".buf"))]; done|].
    unfold appendLib0VarUint8Array. rewrite append_buf_app. apply reads_ret.
  - intros _ op raw. rewrite app_nil_r. apply reads_ret.
  - intros n v w _ IHv _ IHw [Hv Hw]%raw_small_app op raw. cbn. rewrite app_assoc. eapply reads_bind; [|by apply IHw].
    eapply reads_bind_ret; [by apply reads_any_read2, IHv|]. apply reads_ret.
  - intros _ op1 op2 raw. rewrite app_nil_r. apply reads_ret.
  - intros n k v w Hk _ IHv _ IHw [[_ Hv]%raw_small_app Hw]%raw_small_app op1 op2 raw. cbn. rewrite app_assoc.
    eapply reads_bind; [|by apply IHw].
    eapply reads_bind; [by apply reads_lib0_string|]. cbn zeta. eapply reads_bind_ret; [by apply reads_any_read2, IHv|].
    unfold appendLib0VarString. rewrite appendVarString_app, <- app_assoc. apply reads_ret.
Qed.

Lemma reads_any_value2 op v : any_value v → raw_small v → reads (readAnyRawV2 op) v v.
Proof. intros. by apply reads_any_read2, any_value_read2. Qed.

(** A JSON value: the string form is read by the same code as in V1. *)
Lemma reads_json_value2 op v : json_value v → raw_small v → reads (readJSONRawCompatV2 op) v v.
Proof.
  intros [H|(s & Hs & ->)] Hsm.
  - destruct (any_value_read2 v H Hsm) as (tag & t & -> & Ht & Hr). unfold readJSONRawCompatV2.
    apply reads_offset. intros start. apply reads_byte. rewrite Ht. apply Hr.
  - intros r rest Hw Hv. pose proof (reads_json_str op s Hs r rest Hw Hv) as H1. rewrite <- H1.
    unfold readJSONRawCompatV2, readJSONRawCompat, mbind, RM_bind, getOffset.
    rewrite enc_str_eq in Hv by apply Hs. destruct Hs as [Hs Hn].
    destruct (Append_first (Z.of_nat (length s)) (proj1 Hs)) as (b & l & E & Hb & Ht).
    rewrite E in Hv. cbn [app] in Hv. unfold catch. rewrite (reads_ReadByte b r _ Hw Hv).
    assert (isLib0AnyTag b = false) as -> by (destruct (isLib0AnyTag b); tauto). done.
Qed.

(** ** Contents *)

(** The raw payload the V2 format keeps behind the name. *)
Definition raw_value (c : ParsedContent) : bytes :=
  if Ref c =? itemContentEmbed then default [] (Raw c)
  else if (Ref c =? itemContentFormat) || (Ref c =? itemContentDoc)
       then drop (length (enc_str (TypeName c))) (default [] (Raw c))
  else [].

Definition content_v2 (c : ParsedContent) : Prop :=
  utf8_ok (TypeName c) ∧ utf8_ok (Text c) ∧ Forall utf8_ok (JSON c) ∧ Forall raw_small (Any c) ∧ raw_small (raw_value c).

#[export] Instance content_v2_dec c : Decision (content_v2 c).
Proof. unfold content_v2. apply _. Defined.

Definition name_tokens (c : ParsedContent) : list token := if is_named_type (TypeRef c) then [TKey; TString (TypeName c)] else [].

Definition content_tokens (c : ParsedContent) : list token :=
  let ref := Ref c in
  if ref =? itemContentDeleted then [TLen (LengthVal c)]
  else if ref =? itemContentJSON then TLen (LengthVal c) :: (TString <$> JSON c)
  else if ref =? itemContentBinary then [TRest (default [] (Raw c))]
  else if ref =? itemContentString then [TString (Text c)]
  else if ref =? itemContentEmbed then [TRest (default [] (Raw c))]
  else if ref =? itemContentFormat then [TKey; TString (TypeName c); TRest (raw_value c)]
  else if ref =? itemContentType then TType (TypeRef c) :: name_tokens c
  else if ref =? itemContentAny then TLen (LengthVal c) :: (TRest <$> Any c)
  else [TString (TypeName c); TRest (raw_value c)].

#[local] Arguments enc_str : simpl never.

Lemma after_name_ok c raw v : raw = enc_str (TypeName c) ++ v → after_name c raw = Ok v.
Proof.
  intros ->. unfold after_name. fold (enc_str (TypeName c)). rewrite length_app.
  rewrite (proj2 (Nat.ltb_ge _ _)) by lia. by rewrite drop_app_length.
Qed.

Lemma max_collection_u32 {A} (l : list A) : Z.of_nat (length l) <= maxDecodedCollectionLength → is_u32 (Z.of_nat (length l)).
Proof. unfold maxDecodedCollectionLength. intros. u32. Qed.

Lemma named_type_cases t : is_named_type t = true → t = typeRefYXmlElement ∨ t = typeRefYXmlHook.
Proof. unfold is_named_type. intros [?%Z.eqb_eq|?%Z.eqb_eq]%orb_true_iff; auto. Qed.

Lemma writes_content c : content_ok c → content_v2 c → writes (writeContent c) (content_tokens c).
Proof.
  intros Hc (Hn & Ht & Hj & Ha & _). destruct Hc; cbn [TypeName Text JSON Any] in *;
    unfold writeContent, content_tokens; cbn [Ref LengthVal Text JSON Any Raw TypeName TypeRef];
    cbv delta [itemContentDeleted itemContentJSON itemContentBinary itemContentString itemContentEmbed itemContentFormat
      itemContentType itemContentAny itemContentDoc]; cbn [Z.eqb Pos.eqb default]; cbn beta iota.
  - by apply writes_ok, emits_len.
  - apply writes_ok. apply (emits_comp _ _ [TLen _] (TString <$> l) (emits_len _ (max_collection_u32 l H))).
    apply (emits_fold (λ e value, put_string value e) TString). eapply Forall_impl; [exact Hj|]. intros s Hs. by apply emits_string.
  - by apply writes_ok, emits_rest.
  - by apply writes_ok, emits_string.
  - by apply writes_ok, emits_rest.
  - intros e l He. rewrite after_name_ok with (v := v) by done. cbn [mbind result_bind]. eexists. split; [done|].
    unfold raw_value. cbn [Ref Raw TypeName]. cbn -[drop enc_str]. rewrite drop_app_length.
    exact (emits_comp _ _ [TKey; TString key] [TRest v] (emits_put_key key Hn) (emits_rest v) e l He).
  - apply writes_ok. unfold name_tokens. cbn [TypeRef]. rewrite H0. apply emits_type. u32.
  - apply writes_ok. unfold name_tokens. cbn [TypeRef TypeName]. rewrite H.
    apply (emits_comp _ _ [TType t] [TKey; TString name]); [|by apply emits_put_key].
    apply emits_type. destruct (named_type_cases t H) as [-> | ->]; unfold typeRefYXmlElement, typeRefYXmlHook; u32.
  - apply writes_ok. apply (emits_comp _ _ [TLen _] (TRest <$> l) (emits_len _ (max_collection_u32 l H))).
    apply (emits_fold (λ e value, put_rest value e) TRest). apply Forall_forall. intros v _. apply emits_rest.
  - intros e l He. rewrite after_name_ok with (v := v) by done. cbn [mbind result_bind]. eexists. split; [done|].
    unfold raw_value. cbn [Ref Raw TypeName]. cbn -[drop enc_str]. rewrite drop_app_length.
    exact (emits_comp _ _ [TString name] [TRest v] (emits_string name Hn) (emits_rest v) e l He).
Qed.

(** The loops that collect values and their bytes. *)
Lemma reads2_collect (m : DM bytes) (f : bytes → bytes → bytes) (t : bytes → token) (enc : bytes → bytes) (Q : bytes → Prop) l vs raw :
  (∀ v, Q v → reads2 m [t v] v) → (∀ raw v, f raw v = raw ++ enc v) → Forall Q l →
  reads2 (for_timesD (length l) (λ '(values, raw), value ← m; mret (values ++ [value], f raw value)) (vs, raw))
    (t <$> l) (vs ++ l, raw ++ concat (enc <$> l)).
Proof.
  intros Hm Hf. revert vs raw. induction l as [|v l IH]; intros vs raw; cbn.
  - intros _. rewrite !app_nil_r. apply reads2_ret.
  - intros [Hv Hl]%Forall_cons. apply (reads2_bind _ _ [t v] (t <$> l) (vs ++ [v], f raw v)).
    + eapply reads2_bind_ret; [by apply Hm|apply reads2_ret].
    + rewrite Hf. replace (vs ++ v :: l) with ((vs ++ [v]) ++ l) by by rewrite <- app_assoc.
      rewrite app_assoc. by apply IH.
Qed.

Lemma reads2_validate op off n : n <= maxDecodedCollectionLength →
  reads2 (liftD (validateDecodedCollectionLength op off n)) [] tt.
Proof. intros H. apply reads2_lift. unfold validateDecodedCollectionLength. by rewrite (proj2 (Z.leb_le _ _)). Qed.

Lemma reads2_content c info : content_ok c → content_v2 c → Z.land info ItemContentRefMask = Ref c →
  reads2 (readItemContentV2 info) (content_tokens c) c.
Proof.
  intros Hc (Hn & Ht & Hj & Ha & Hr) Href. unfold readItemContentV2. rewrite Href. destruct Hc; cbn [TypeName Text JSON Any] in *;
    unfold content_tokens, raw_value in *; cbn [Ref LengthVal Text JSON Any Raw TypeName TypeRef] in *;
    cbv delta [itemContentDeleted itemContentJSON itemContentBinary itemContentString itemContentEmbed itemContentFormat
      itemContentType itemContentAny itemContentDoc] in *; cbn [Z.eqb Pos.eqb default orb id] in *; cbn beta iota zeta in *.
  - eapply reads2_bind_ret; [apply reads2_len|apply reads2_ret].
  - apply (reads2_bind _ _ [TLen _] (TString <$> l) _ _ (reads2_len _)). apply reads2_offset. intros off.
    rewrite <- (app_nil_l (TString <$> l)). eapply reads2_bind; [by apply reads2_validate|]. rewrite Nat2Z.id.
    pose proof (reads2_collect readStringD appendVarStringV1 TString enc_str (λ _, True) l [] (appendVarUintV1 [] (Z.of_nat (length l)))) as Hl.
    eapply reads2_bind_ret; [apply Hl; [intros; apply reads2_string|intros; apply appendVarString_app|by apply Forall_true]|apply reads2_ret].
  - eapply reads2_bind_ret; [apply reads2_rest|].
    { rewrite enc_str_eq by done. apply reads_view. apply H. }
    fold (appendVarStringV1 [] b). fold (enc_str b). apply reads2_ret.
  - eapply reads2_bind_ret; [apply reads2_string|apply reads2_ret].
  - eapply reads2_bind_ret; [by apply reads2_rest, reads_json_value2|apply reads2_ret].
  - rewrite drop_app_length in *. apply (reads2_bind _ _ [TKey; TString key] [TRest v] key); [apply reads2_key|].
    eapply reads2_bind_ret; [by apply reads2_rest, reads_json_value2|apply reads2_ret].
  - unfold name_tokens. cbn [TypeRef]. rewrite H0. apply (reads2_bind_ret _ _ [TType t] t); [apply reads2_type|]. cbn beta. rewrite H0.
    assert (reads2 (readTypePayloadV2 t) [] []) as Hp.
    { assert (t = 0 ∨ t = 1 ∨ t = 2 ∨ t = 3 ∨ t = 4 ∨ t = 5 ∨ t = 6) as Ht' by lia. unfold readTypePayloadV2.
      destruct Ht' as [->|[->|[->|[->|[->|[->| ->]]]]]]; try done; apply reads2_ret. }
    eapply reads2_bind_ret; [exact Hp|apply reads2_ret].
  - unfold name_tokens. cbn [TypeRef TypeName]. rewrite H. apply (reads2_bind _ _ [TType t] [TKey; TString name] t); [apply reads2_type|].
    assert (reads2 (readTypePayloadV2 t) [TKey; TString name] name) as Hp.
    { unfold readTypePayloadV2. destruct (named_type_cases t H) as [-> | ->]; apply reads2_key. }
    eapply reads2_bind_ret; [exact Hp|]. rewrite H. unfold appendVarUintV1. rewrite appendVarString_app. apply reads2_ret.
  - apply (reads2_bind _ _ [TLen _] (TRest <$> l) _ _ (reads2_len _)). apply reads2_offset. intros off.
    rewrite <- (app_nil_l (TRest <$> l)). eapply reads2_bind; [by apply reads2_validate|]. rewrite Nat2Z.id.
    pose proof (reads2_collect (rest (readAnyRawV2 "ReadV2ContentAny.value")) app TRest id (λ v, any_value v ∧ raw_small v)
      l [] (appendVarUintV1 [] (Z.of_nat (length l)))) as Hl. rewrite list_fmap_id in Hl.
    eapply reads2_bind_ret; [apply Hl; [intros v []; by apply reads2_rest, reads_any_value2|done|by apply Forall_and]|apply reads2_ret].
  - rewrite drop_app_length in *. apply (reads2_bind _ _ [TString name] [TRest v] name); [apply reads2_string|].
    eapply reads2_bind_ret; [by apply reads2_rest, reads_any_value2|apply reads2_ret].
Qed.

(** ** Structs *)

Definition item_v2 (i : UItem) : Prop :=
  content_v2 (ItemContent i) ∧ (no_origin i = true → utf8_ok (pr_root (Parent i)) ∧ utf8_ok (ParentSub i)).

Definition struct_v2 (s : UStruct) : Prop := match s with SItem i => item_v2 i | _ => True end.

#[export] Instance struct_v2_dec s : Decision (struct_v2 s).
Proof. destruct s; cbn; unfold item_v2; apply _. Defined.

Definition left_tokens (o : option ID) : list token :=
  match o with None => [] | Some id => [TClient (id_Client id); TLeft (id_Clock id)] end.
Definition right_tokens (o : option ID) : list token :=
  match o with None => [] | Some id => [TClient (id_Client id); TRight (id_Clock id)] end.

Definition parent_tokens (p : ParentRef) : list token :=
  match pr_id p with
  | Some id => TParent 0 :: left_tokens (Some id)
  | None => [TParent 1; TString (pr_root p)]
  end.

Definition item_tokens (i : UItem) : list token :=
  left_tokens (Origin i) ++ right_tokens (RightOrigin i) ++
  (if no_origin i then parent_tokens (Parent i) ++ (if has_sub i then [TString (ParentSub i)] else []) else []) ++
  content_tokens (ItemContent i).

Definition struct_tokens (s : UStruct) : list token :=
  match s with
  | GC b => [TInfo 0; TLen (bs_length b)]
  | Skip b => [TInfo 10; TRest (Append [] (bs_length b))]
  | SItem i => match ItemHeader_Encode (header i) with Ok info => TInfo info :: item_tokens i | Err _ => [] end
  end.

Lemma emits_leftID id : wf_ID id → emits (writeLeftID id) (left_tokens (Some id)).
Proof. intros [Hc Hk]. apply (emits_comp _ _ [TClient _] [TLeft _] (emits_client _ Hc) (emits_left _ Hk)). Qed.
Lemma emits_rightID id : wf_ID id → emits (writeRightID id) (right_tokens (Some id)).
Proof. intros [Hc Hk]. apply (emits_comp _ _ [TClient _] [TRight _] (emits_client _ Hc) (emits_right _ Hk)). Qed.

Lemma emits_left_opt o : opt_id_ok o → emits (λ e, match o with None => e | Some id => writeLeftID id e end) (left_tokens o).
Proof. destruct o; intros H; [by apply emits_leftID|apply emits_nil]. Qed.
Lemma emits_right_opt o : opt_id_ok o → emits (λ e, match o with None => e | Some id => writeRightID id e end) (right_tokens o).
Proof. destruct o; intros H; [by apply emits_rightID|apply emits_nil]. Qed.

(** The parent of an item without origins. *)
Lemma writes_parent p : parent_ok p → utf8_ok (pr_root p) →
  writes (λ e, match ParentRef_Kind p with
     | ParentRoot => Ok (put_string (ParentRef_Root p) (put_parentInfo 1 e))
     | ParentID => Ok (writeLeftID (fst (ParentRef_ID p)) (put_parentInfo 0 e))
     | ParentNone => Err (Opaque "yupdate: item sem parent wire")
     end) (parent_tokens p).
Proof.
  intros [(id & -> & Hid)|(root & -> & Hne & _)] Hr; cbn.
  - apply writes_ok. exact (emits_comp _ _ [TParent 0] _ (emits_parent 0) (emits_leftID id Hid)).
  - destruct root as [|b root]; [done|]. apply writes_ok.
    exact (emits_comp _ _ [TParent 1] _ (emits_parent 1) (emits_string _ Hr)).
Qed.

Lemma writes_item i : struct_ok (SItem i) → item_v2 i → writes (writeItem i) (struct_tokens (SItem i)).
Proof.
  intros [_ Hi] [Hc2 Hp2]. destruct (item_header i Hi) as (info & He & _). pose proof Hi as (Hc & _ & Ho & Hro & Hp).
  cbn [struct_tokens]. rewrite He. intros e l Hl. unfold writeItem. fold (no_origin i). fold (has_sub i). fold (header i). rewrite He.
  cbn [mbind result_bind]. change (TInfo info :: item_tokens i) with ([TInfo info] ++ item_tokens i). rewrite app_assoc.
  apply (emits_info info) in Hl. revert Hl. generalize (put_info info e) (l ++ [TInfo info]). clear e l. intros e l Hl.
  unfold item_tokens. rewrite app_assoc. apply (emits_left_opt _ Ho) in Hl. revert Hl.
  generalize (match Origin i with Some id => writeLeftID id e | None => e end) (l ++ left_tokens (Origin i)). clear e l. intros e l Hl.
  rewrite app_assoc. apply (emits_right_opt _ Hro) in Hl. revert Hl.
  generalize (match RightOrigin i with Some id => writeRightID id e | None => e end) (l ++ right_tokens (RightOrigin i)). clear e l. intros e l Hl.
  pose proof (writes_content _ Hc Hc2) as Hcont. destruct (no_origin i) eqn:Hno.
  - destruct (Hp eq_refl) as [Hpar Hsub]. destruct (Hp2 eq_refl) as [Hroot Hs2]. rewrite <- app_assoc, app_assoc.
    destruct (writes_parent _ Hpar Hroot e l Hl) as (e1 & E1 & H1). rewrite E1. cbn [mbind result_bind]. rewrite app_assoc.
    unfold has_sub in *. rewrite Hno in *. cbn [andb]. apply Hcont. destruct (negb (bool_decide (ParentSub i = []))).
    + by apply emits_string.
    + by rewrite app_nil_r.
  - cbn [mbind result_bind app]. by apply Hcont.
Qed.

Lemma writes_struct s : struct_ok s → struct_v2 s → writes (writeStruct s) (struct_tokens s).
Proof.
  intros Hs H2. destruct s as [b|b|i]; [| |by apply writes_item]; pose proof Hs as [Hb _]; apply wf_base_length in Hb.
  - apply writes_ok. exact (emits_comp _ _ [TInfo 0] [TLen _] (emits_info 0) (emits_len _ Hb)).
  - apply writes_ok. exact (emits_comp _ _ [TInfo 10] [TRest _] (emits_info 10) (emits_rest _)).
Qed.

Lemma reads2_leftID id : reads2 readLeftID (left_tokens (Some id)) id.
Proof.
  destruct id as [c k]. apply (reads2_bind _ _ [TClient c] [TLeft k] c); [apply reads2_client|].
  eapply reads2_bind_ret; [apply reads2_left|apply reads2_ret].
Qed.
Lemma reads2_rightID id : reads2 readRightID (right_tokens (Some id)) id.
Proof.
  destruct id as [c k]. apply (reads2_bind _ _ [TClient c] [TRight k] c); [apply reads2_client|].
  eapply reads2_bind_ret; [apply reads2_right|apply reads2_ret].
Qed.

Lemma reads2_left_opt o : reads2 (readOptIDV2 (is_Some_b o) readLeftID) (left_tokens o) o.
Proof. destruct o; [|apply reads2_ret]. eapply reads2_bind_ret; [apply reads2_leftID|apply reads2_ret]. Qed.
Lemma reads2_right_opt o : reads2 (readOptIDV2 (is_Some_b o) readRightID) (right_tokens o) o.
Proof. destruct o; [|apply reads2_ret]. eapply reads2_bind_ret; [apply reads2_rightID|apply reads2_ret]. Qed.

Lemma reads2_parentV2 i info : item_ok i →
  (Z.land info (Z.lor ItemHasOrigin ItemHasRightOrigin) =? 0) = no_origin i →
  negb (Z.land info ItemHasParentSub =? 0) = has_sub i →
  reads2 (readParentV2 info)
    (if no_origin i then parent_tokens (Parent i) ++ (if has_sub i then [TString (ParentSub i)] else []) else [])
    (if no_origin i then Parent i else mkParentRef [] None, if no_origin i then ParentSub i else []).
Proof.
  intros (_ & _ & _ & _ & Hp) H1 H2. unfold readParentV2. rewrite H1, H2.
  destruct (no_origin i) eqn:Hno; [|apply reads2_ret]. destruct (Hp eq_refl) as [Hpar _].
  assert (reads2 (if has_sub i then readStringD else mret []) (if has_sub i then [TString (ParentSub i)] else []) (ParentSub i)) as Hs.
  { unfold has_sub. rewrite Hno. cbn [andb]. case_bool_decide as E; cbn [negb]; [rewrite E; apply reads2_ret|apply reads2_string]. }
  destruct Hpar as [(id & -> & Hid)|(root & -> & Hne & Hroot)]; unfold parent_tokens; cbn [NewParentID pr_id pr_root].
  - change (TParent 0 :: left_tokens (Some id)) with ([TParent 0] ++ left_tokens (Some id)). rewrite <- app_assoc.
    eapply reads2_bind; [apply (reads2_parentInfo false)|]. eapply reads2_bind.
    { eapply reads2_bind_ret; [apply reads2_leftID|apply reads2_ret]. }
    eapply reads2_bind_ret; [exact Hs|apply reads2_ret].
  - change [TParent 1; TString root] with ([TParent 1] ++ [TString root]). rewrite <- app_assoc.
    eapply reads2_bind; [apply (reads2_parentInfo true)|]. eapply reads2_bind.
    { eapply reads2_bind_ret; [apply reads2_string|apply reads2_lift]. destruct root; [done|reflexivity]. }
    eapply reads2_bind_ret; [exact Hs|apply reads2_ret].
Qed.

Lemma reads2_item i info : struct_ok (SItem i) → item_v2 i → ItemHeader_Encode (header i) = Ok info →
  reads2 (readItemV2 info (bs_id (item_base i))) (item_tokens i) (SItem (wire_item i)).
Proof.
  intros Hs [Hc2 _] He. pose proof Hs as [_ Hi]. destruct (item_header i Hi) as (info' & He' & _ & H1 & H2 & H3 & H4 & H5 & _).
  rewrite He in He'. injection He' as <-. pose proof Hi as (Hc & _).
  unfold readItemV2, item_tokens. rewrite H2, H3.
  eapply reads2_bind; [apply reads2_left_opt|]. eapply reads2_bind; [apply reads2_right_opt|].
  eapply reads2_bind; [by apply reads2_parentV2|]. cbn beta iota. eapply reads2_bind_ret; [by apply reads2_content|].
  change (@nil token) with ([] ++ @nil token). eapply reads2_bind; [by apply reads2_lift, newItem_ok|apply reads2_ret].
Qed.

(** A struct at the client and clock the block is at. *)
Lemma reads2_struct s structs : struct_ok s → struct_v2 s →
  reads2 (struct_step (struct_client s) (struct_clock s, structs)) (struct_tokens s)
    (w32 (struct_clock s + struct_Length s), structs ++ [wire s]).
Proof.
  intros Hs H2. unfold struct_step.
  enough (∃ info k, struct_tokens s = [TInfo info] ++ k ∧ reads2 (readStructV2 info (struct_client s) (struct_clock s)) k (wire s)) as (info & k & -> & Hr).
  { eapply reads2_bind; [apply reads2_info|]. eapply reads2_bind_ret; [exact Hr|].
    unfold struct_Length. rewrite wire_base. apply reads2_ret. }
  assert (mkID (struct_client s) (struct_clock s) = struct_ID s) as Hid by (unfold struct_client, struct_clock; by destruct (struct_ID s)).
  unfold readStructV2. rewrite Hid. pose proof Hs as [Hb Hi]. destruct s as [b|b|i].
  - exists 0, [TLen (bs_length b)]. split; [done|]. eapply reads2_bind_ret; [apply reads2_len|]. by apply reads2_lift, newGC_ok.
  - exists 10, [TRest (Append [] (bs_length b))]. split; [done|].
    eapply reads2_bind_ret; [by apply reads2_rest_uint, wf_base_length|]. by apply reads2_lift, newSkip_ok.
  - destruct (item_header i Hi) as (info & He & _ & _ & _ & _ & _ & _ & Hn10 & Hn0). exists info, (item_tokens i).
    cbn [struct_tokens]. rewrite He. split; [done|]. rewrite (proj2 (Z.eqb_neq info 10) Hn10), (proj2 (Z.eqb_neq _ 0) Hn0).
    cbn [negb]. by apply reads2_item.
Qed.
