(* ===== verification/CodecV2Spec.v ===== *)
(** * Properties of the V2 codec of internal/yupdate

    Whole updates: the blocks of [EncodeV2] are read back, and the delete set
    behind them. *)
From S2P Require Import Prelude GoError Binary Ranges IdSet IdSetFacts Varint GoText YTypes DeleteSet Decoder DecoderFacts Content Update UpdateFacts UpdateStream UpdateEncode UpdateSpec Lib0 DecoderV2 EncodeV2 Lib0Facts CodecV2Facts.
Import varint.

(** ** Blocks *)

Definition group_ok (g : Z * list UStruct) : Prop :=
  is_u32 g.1 ∧ g.2 ≠ [] ∧ Forall (λ s, struct_ok s ∧ struct_v2 s) g.2 ∧ ∃ k, is_u32 k ∧ chain g.1 k g.2.

Definition first_clock (l : list UStruct) : Z := match l with s :: _ => struct_clock s | [] => 0 end.

Definition group_tokens (g : Z * list UStruct) : list token :=
  [TRest (Append [] (Z.of_nat (length g.2)))] ++ [TClient g.1] ++ [TRest (Append [] (first_clock g.2))] ++
  concat (struct_tokens <$> g.2).

Lemma group_ok_length g : group_ok g → is_u32 (Z.of_nat (length g.2)).
Proof.
  intros (_ & _ & Hs & k & [Hk _] & Hch). eapply chain_length_u32; [exact Hch| |done].
  eapply Forall_impl; [exact Hs|]. by intros s [? _].
Qed.

Lemma group_ok_clock g : group_ok g → is_u32 (first_clock g.2) ∧ chain g.1 (first_clock g.2) g.2.
Proof.
  intros (_ & Hne & _ & k & Hk & Hch). destruct (g.2) as [|s l]; [done|]. cbn. pose proof Hch as [Hid _].
  assert (struct_clock s = k) as -> by (unfold struct_clock; by rewrite Hid). done.
Qed.

Lemma writes_group m c g : default [] (m !! c) = g → group_ok (c, g) →
  writes (λ e, write_group m e c) (group_tokens (c, g)).
Proof.
  intros Hg Hok. pose proof (group_ok_length _ Hok) as Hlen. pose proof Hok as (Hc & _ & Hs & _). cbn [fst snd] in *.
  unfold write_group, group_tokens. rewrite Hg. cbn [fst snd]. rewrite w32_small by done.
  intros e l He. rewrite !app_assoc. apply (writes_fold writeStruct struct_tokens).
  - eapply Forall_impl; [exact Hs|]. intros s [? ?]. by apply writes_struct.
  - by apply emits_rest, emits_client, emits_rest.
Qed.

(** The loop over the structs of a block. *)
Lemma reads2_structs c k l acc : chain c k l → is_u32 k → Forall (λ s, struct_ok s ∧ struct_v2 s) l →
  reads2 (for_timesD (length l) (struct_step c) (k, acc)) (concat (struct_tokens <$> l)) (chain_end k l, acc ++ (wire <$> l)).
Proof.
  revert k acc. induction l as [|s l IH]; intros k acc Hch Hk Hl; cbn [length for_timesD fmap list_fmap concat].
  - rewrite app_nil_r. apply reads2_ret.
  - apply Forall_cons in Hl as [[Hs H2] Hl]. destruct Hch as [Hid Hch].
    assert (struct_client s = c ∧ struct_clock s = k) as [Hc Hck] by (unfold struct_client, struct_clock; by rewrite Hid).
    destruct (struct_length_pos s Hs) as [Hpos Hend]. pose proof (reads2_struct s acc Hs H2) as Hr. rewrite Hc, Hck in *.
    assert (is_u32 (k + struct_Length s)) as Hk' by u32. rewrite w32_small in Hr by done.
    eapply reads2_bind; [exact Hr|]. replace (acc ++ wire s :: (wire <$> l)) with ((acc ++ [wire s]) ++ (wire <$> l)) by by rewrite <- app_assoc.
    by apply IH.
Qed.

Lemma reads2_block g acc : group_ok g → reads2 (block_step acc) (group_tokens g) (acc ++ (wire <$> g.2)).
Proof.
  intros Hok. pose proof (group_ok_length _ Hok) as Hlen. destruct (group_ok_clock _ Hok) as [Hk Hch].
  pose proof Hok as (Hc & _ & Hs & _). unfold block_step, group_tokens.
  eapply reads2_bind; [by apply reads2_rest_uint|]. eapply reads2_bind; [apply reads2_client|].
  eapply reads2_bind; [by apply reads2_rest_uint|]. rewrite Nat2Z.id.
  eapply reads2_bind_ret; [by apply reads2_structs|]. apply reads2_ret.
Qed.

Lemma reads2_blocks gs acc : Forall group_ok gs →
  reads2 (for_timesD (length gs) block_step acc) (concat (group_tokens <$> gs)) (acc ++ (wire <$> concat gs.*2)).
Proof.
  revert acc. induction gs as [|g gs IH]; intros acc Hg; cbn [length for_timesD fmap list_fmap concat].
  - rewrite app_nil_r. apply reads2_ret.
  - apply Forall_cons in Hg as [Hg Hgs]. eapply reads2_bind; [by apply reads2_block|]. rewrite fmap_app, (app_assoc acc). by apply IH.
Qed.

(** ** Delete sets *)

(** Reading the rest alone, the other columns being empty. *)
Definition reads3 {A} (m : DM A) (cur : Z) (bs : bytes) (a : A) (cur' : Z) : Prop :=
  ∀ d rest, drep d [TRest (bs ++ rest)] → d_dsCurrVal d = cur →
    ∃ d', m d = (Ok a, d') ∧ drep d' [TRest rest] ∧ d_dsCurrVal d' = cur'.

Lemma reads3_ret {A} (a : A) cur : reads3 (mret a) cur [] a cur.
Proof. intros d rest Hd Hc. by exists d. Qed.

Lemma reads3_bind {A B} (m : DM A) (f : A → DM B) c1 c2 c3 b1 b2 a b :
  reads3 m c1 b1 a c2 → reads3 (f a) c2 b2 b c3 → reads3 (m ≫= f) c1 (b1 ++ b2) b c3.
Proof.
  intros H1 H2 d rest Hd Hc. rewrite <- app_assoc in Hd. destruct (H1 _ _ Hd Hc) as (d1 & E1 & Hd1 & Hc1).
  destruct (H2 _ _ Hd1 Hc1) as (d2 & E2 & ?). exists d2. unfold mbind, DM_bind. rewrite E1. done.
Qed.

Lemma reads3_bind_ret {A B} (m : DM A) (f : A → DM B) c1 c2 c3 bs a b :
  reads3 m c1 bs a c2 → reads3 (f a) c2 [] b c3 → reads3 (m ≫= f) c1 bs b c3.
Proof. intros H1 H2. rewrite <- (app_nil_r bs). by eapply reads3_bind. Qed.

Lemma drep_rest d a b : drep d [TRest (a ++ b)] ↔ drep d ([TRest a] ++ [TRest b]).
Proof. split; intros []; constructor; unfold c_rest in *; cbn in *; rewrite ?app_nil_r in *; done. Qed.

Lemma reads3_reads2 {A} (m : DM A) bs a cur : reads2 m [TRest bs] a → reads3 m cur bs a cur.
Proof. intros H d rest Hd <-. apply drep_rest in Hd. by apply H. Qed.

Lemma reads3_set v cur : reads3 (modifyD (set_dsCurrVal v)) cur [] tt v.
Proof. intros d rest [] _. eexists. split; [done|]. by split; [constructor|]. Qed.

(** Clock and length as differences. *)
Lemma reads3_clock cur clock : 0 <= cur → cur <= clock <= MaxUint32 →
  reads3 readDSClock cur (Append [] (clock - cur)) clock clock.
Proof.
  intros Hcur Hk d tl Hd Hc. unfold readDSClock, mbind, DM_bind.
  destruct (reads3_reads2 (readRestVarUint "ReadV2DSClock") _ _ cur (reads2_rest_uint _ (clock - cur) ltac:(u32)) d tl Hd Hc)
    as (d1 & -> & Hd1 & Hc1). unfold getD, d_offset, rest, on, getOffset. rewrite Hc1.
  replace (cur + (clock - cur)) with clock by lia. rewrite (proj2 (Z.ltb_ge MaxUint32 clock)) by lia.
  eexists. split; [done|]. split; [|done]. destruct Hd1. by constructor.
Qed.

Lemma reads3_len cur len : 0 <= cur → 0 < len → cur + len <= MaxUint32 →
  reads3 readDSLen cur (Append [] (len - 1)) len (cur + len).
Proof.
  intros Hcur Hl Hm d tl Hd Hc. unfold readDSLen, mbind, DM_bind.
  destruct (reads3_reads2 (readRestVarUint "ReadV2DSLen") _ _ cur (reads2_rest_uint _ (len - 1) ltac:(u32)) d tl Hd Hc)
    as (d1 & -> & Hd1 & Hc1). unfold getD, d_offset, rest, on, getOffset. rewrite Hc1.
  replace (len - 1 + 1) with len by lia. rewrite (proj2 (Z.ltb_ge MaxUint32 len)), (proj2 (Z.ltb_ge MaxUint32 (cur + len))) by lia.
  eexists. split; [done|]. split; [|done]. destruct Hd1. by constructor.
Qed.

(** No range reaches the last clock: the V2 form cannot hold its end. *)
Definition below_max (s : IdSet) : Prop :=
  map_Forall (λ _ l, Forall (λ r, Range_End r <= MaxUint32) l) (clients s).

#[export] Instance below_max_dec s : Decision (below_max s).
Proof. unfold below_max. apply _. Defined.

Fixpoint enc_ranges2 (cur : Z) (l : list Range) : bytes :=
  match l with
  | [] => []
  | r :: l => Append [] (r_Clock r - cur) ++ Append [] (r_Length r - 1) ++ enc_ranges2 (Range_End r) l
  end.

Definition enc_entry2 (e : Z * list Range) : bytes :=
  Append [] e.1 ++ Append [] (Z.of_nat (length e.2)) ++ enc_ranges2 0 e.2.

Abbreviation range_below := (λ r, Range_End r <= MaxUint32).

Lemma write_ranges_eq cur out l : 0 <= cur → ranges_above (cur - 1) l → Forall range_below l →
  (fold_left write_range l (cur, out)).2 = out ++ enc_ranges2 cur l.
Proof.
  revert cur out. induction l as [|r l IH]; intros cur out Hc; cbn [fold_left ranges_above enc_ranges2].
  - by rewrite app_nil_r.
  - intros (Hlo & Hr & Habove) [Hb Hl]%Forall_cons. unfold write_range at 2. pose proof Hr as ([? ?] & ? & _). unfold Range_End in *.
    rewrite !w32_small by u32. rewrite IH; [|u32|by eapply ranges_above_weaken; [|exact Habove]; lia|done].
    by rewrite (Append_app (Append out _)), (Append_app out), <- !app_assoc.
Qed.

Lemma reads3_range s c r cur : 0 <= cur <= r_Clock r → Range_End r <= MaxUint32 → wf_ranges (ranges_of s c ++ [r]) →
  reads3 (delete_range_step c (mkDeleteSet (Some s))) cur (Append [] (r_Clock r - cur) ++ Append [] (r_Length r - 1))
    (mkDeleteSet (Some (set_ranges s c (ranges_of s c ++ [r])))) (Range_End r).
Proof.
  intros Hc Hb Hl. pose proof Hl as [_ (_ & ([? ?] & ? & _) & _)]%ranges_above_app. unfold Range_End in *. unfold delete_range_step.
  eapply reads3_bind; [apply reads3_clock; lia|]. eapply reads3_bind_ret; [apply reads3_len; lia|].
  rewrite (DeleteSet_Add_append s c r Hl). apply reads3_ret.
Qed.

Abbreviation append_range := (λ c s r, set_ranges s c (ranges_of s c ++ [r])).

Lemma reads3_ranges s c cur l : 0 <= cur → wf_ranges (ranges_of s c ++ l) → ranges_above (cur - 1) l → Forall range_below l →
  ∃ cur', reads3 (for_timesD (length l) (delete_range_step c) (mkDeleteSet (Some s))) cur (enc_ranges2 cur l)
    (mkDeleteSet (Some (fold_left (append_range c) l s))) cur'.
Proof.
  revert s cur. induction l as [|r l IH]; intros s cur Hc Hw; cbn [ranges_above enc_ranges2 length for_timesD fold_left].
  - exists cur. apply reads3_ret.
  - intros (Hlo & Hr & Habove) [Hb Hl]%Forall_cons. pose proof Hr as ([? ?] & ? & _).
    change (r :: l) with ([r] ++ l) in Hw. rewrite app_assoc in Hw. pose proof Hw as [Hw1 _]%ranges_above_app.
    destruct (IH (set_ranges s c (ranges_of s c ++ [r])) (Range_End r)) as (cur' & Hrec); [unfold Range_End; lia| | |done|].
    + by rewrite ranges_of_set_eq.
    + by eapply ranges_above_weaken; [|exact Habove]; lia.
    + exists cur'. rewrite app_assoc. eapply reads3_bind; [by apply reads3_range; [lia|..]|exact Hrec].
Qed.

Lemma reads3_entry s e es cur : pending s (e :: es) → Forall range_below e.2 →
  ∃ cur', reads3 (delete_client_step (mkDeleteSet (Some s))) cur (enc_entry2 e) (mkDeleteSet (Some (set_entry s e))) cur'.
Proof.
  intros [_ [(Hc & Hl & Hne & Hs) _]%Forall_cons] Hb. destruct e as [c l]; cbn [fst snd] in *.
  destruct (reads3_ranges s c 0 l) as (cur' & Hr); [lia|by rewrite Hs|done|done|]. exists cur'.
  unfold delete_client_step, enc_entry2. cbn [fst snd]. rewrite <- (app_nil_l (Append [] c ++ _)).
  eapply reads3_bind; [apply reads3_set|]. eapply reads3_bind; [by apply reads3_reads2, reads2_rest_uint|].
  eapply reads3_bind; [apply reads3_reads2, reads2_rest_uint, wf_ranges_length, Hl|]. rewrite Nat2Z.id.
  rewrite (fold_append_ranges s c [] l Hs Hne) in Hr. exact Hr.
Qed.

Lemma reads3_entries s es cur : pending s es → Forall (λ e, Forall range_below e.2) es →
  ∃ cur', reads3 (for_timesD (length es) delete_client_step (mkDeleteSet (Some s))) cur (concat (enc_entry2 <$> es))
    (mkDeleteSet (Some (fold_left set_entry es s))) cur'.
Proof.
  revert s cur. induction es as [|e es IH]; intros s cur Hp Hb; cbn [length for_timesD fmap list_fmap concat fold_left].
  - exists cur. apply reads3_ret.
  - apply Forall_cons in Hb as [Hb Hbs]. destruct (reads3_entry s e es cur Hp Hb) as (c1 & H1).
    destruct (IH (set_entry s e) c1 (pending_step _ _ _ Hp) Hbs) as (c2 & H2). exists c2. by eapply reads3_bind.
Qed.

Lemma entries_below s cs : below_max s → Forall (λ e, Forall range_below e.2) (entries_of s cs).
Proof.
  intros Hb. apply Forall_fmap, Forall_forall. intros c _. cbn. unfold ranges_of. destruct (clients s !! c) eqn:E; cbn; [|constructor].
  by apply (Hb c).
Qed.

Definition desc_entries (s : IdSet) : list (Z * list Range) := entries_of s (rev (IdSet_Clients (Some s))).

Lemma desc_entries_pending s : wf_set s → wf_clients s → pending IdSet_New (desc_entries s).
Proof.
  intros Hw Hc. apply pending_entries; [done..| |].
  - rewrite <- Permutation_rev. apply Clients_NoDup.
  - intros c. by rewrite <- Permutation_rev, elem_of_Clients.
Qed.

Definition deletes_bytes (s : IdSet) : bytes :=
  Append [] (Z.of_nat (size (clients s))) ++ concat (enc_entry2 <$> desc_entries s).

Lemma length_desc_entries s : length (desc_entries s) = size (clients s).
Proof. unfold desc_entries, entries_of. by rewrite length_fmap, length_rev, length_Clients. Qed.

Lemma emits_deletes s : wf_set s → wf_clients s → below_max s →
  emits (writeDeleteSet (Some (mkDeleteSet (Some s)))) [TRest (deletes_bytes s)].
Proof.
  intros Hw Hc Hb. unfold writeDeleteSet, DeleteSet_ForEachClientDesc, DeleteSet_ClientCount.
  cbn [ds_set ds_ids mbind option_bind IdSet_ClientCount]. pose proof Hc as [_ Hsz]. rewrite w32_small by done.
  rewrite ForEachClientDesc_entries. fold (desc_entries s). unfold deletes_bytes.
  assert (∀ es s0 out, pending s0 es → Forall (λ e, Forall range_below e.2) es →
    fold_left write_client_ranges es out = out ++ concat (enc_entry2 <$> es)) as Hfold.
  { induction es as [|[c l] es IH]; intros s0 out Hp Hbs; [by rewrite app_nil_r|]. cbn [fold_left fmap list_fmap concat].
    pose proof Hp as [_ [(_ & Hl & _) _]%Forall_cons]. apply Forall_cons in Hbs as [Hb1 Hbs]. cbn [snd] in *.
    rewrite (IH _ _ (pending_step _ _ _ Hp) Hbs). unfold write_client_ranges. rewrite write_ranges_eq by done.
    rewrite w32_small by by apply wf_ranges_length. unfold enc_entry2; cbn [fst snd].
    by rewrite (Append_app (Append out c)), (Append_app out), <- !app_assoc. }
  rewrite (Hfold _ IdSet_New) by first [by apply desc_entries_pending|by apply entries_below]. apply emits_rest.
Qed.

Lemma reads3_deletes s cur : wf_set s → wf_clients s → below_max s →
  ∃ cur', reads3 readDeleteSetV2 cur (deletes_bytes s) (mkDeleteSet (Some s)) cur'.
Proof.
  intros Hw Hc Hb. unfold readDeleteSetV2, deletes_bytes.
  destruct (reads3_entries IdSet_New (desc_entries s) cur) as (cur' & H); [by apply desc_entries_pending|by apply entries_below|].
  exists cur'. eapply reads3_bind; [apply reads3_reads2, reads2_rest_uint, Hc|]. rewrite Nat2Z.id, <- length_desc_entries.
  unfold desc_entries in H at 3. rewrite set_entries in H; [exact H|].
  intros c. by rewrite <- Permutation_rev, elem_of_Clients.
Qed.

(** ** Updates *)

Definition update_tokens (l : list UStruct) (s : IdSet) : list token :=
  let gs := group_list (groupStructsByClient l) in
  [TRest (Append [] (Z.of_nat (length gs)))] ++ concat (group_tokens <$> gs) ++ [TRest (deletes_bytes s)].

Lemma encodable_groups l : encodable l → Forall struct_v2 l → Forall group_ok (group_list (groupStructsByClient l)).
Proof.
  intros Hl H2. destruct (encodable_writable l Hl) as [Hm _]. unfold group_list. apply Forall_fmap, Forall_forall.
  intros c [g Hg]%elem_of_desc_keys. cbn. rewrite Hg. cbn [default]. destruct (Hm c g Hg) as (Hne & Hok & k & Hch).
  destruct (groupStructs_Some l c g Hg) as [Eg _]. destruct g as [|s g]; [done|]. apply Forall_cons in Hok as Hs. destruct Hs as [Hs _].
  pose proof Hch as [Hid _]. destruct (struct_ok_ID s Hs) as [Hc Hk].
  assert (struct_client s = c ∧ struct_clock s = k) as [<- <-] by (unfold struct_client, struct_clock; by rewrite Hid).
  split_and!; [done|done| |by exists (struct_clock s)]. cbn [snd].
  assert (Forall struct_v2 (s :: g)) as Hv2.
  { rewrite Eg, sort_perm. apply Forall_forall. intros t [_ Ht]%list_elem_of_filter. rewrite Forall_forall in H2. auto. }
  rewrite Forall_forall in *. intros t Ht. split; auto.
Qed.

Lemma writes_groups l e : encodable l → Forall struct_v2 l → erep e [] →
  let gs := group_list (groupStructsByClient l) in
  ∃ e', writeStructGroups (groupStructsByClient l) e = Ok e' ∧
    erep e' ([TRest (Append [] (Z.of_nat (length gs)))] ++ concat (group_tokens <$> gs)).
Proof.
  intros Hl H2 He gs. pose proof (encodable_groups l Hl H2) as Hg. unfold writeStructGroups.
  destruct (encodable_writable l Hl) as [Hm Hsz].
  assert (length gs = length (desc_keys (groupStructsByClient l))) as Hlen by (subst gs; unfold group_list; by rewrite length_fmap).
  rewrite filter_all.
  - rewrite <- Hlen, w32_small by (rewrite Hlen, desc_keys_perm, length_fmap, length_map_to_list; exact Hsz).
    unfold gs, group_list. rewrite <- list_fmap_compose.
    apply (writes_fold (λ c e, write_group (groupStructsByClient l) e c)
      (group_tokens ∘ (λ c, (c, default [] (groupStructsByClient l !! c)))) _) with (l := [_]).
    + unfold group_list in Hg. rewrite Forall_fmap in Hg. eapply Forall_impl; [exact Hg|]. intros c Hok. by apply writes_group.
    + rewrite <- (app_nil_l [_]). by apply emits_rest.
  - apply Forall_forall. intros c [g Hc]%elem_of_desc_keys. rewrite Hc. by apply (Hm c g).
Qed.

(** Both encoders succeed and their outputs decode to the same. *)
Lemma codec_agreement (l : list UStruct) (s : IdSet) (Hl : encodable l) (H2 : Forall struct_v2 l)
    (Hw : wf_set s) (Hc : wf_clients s) (Hb : below_max s) (Hf : few (update_tokens l s)) :
  let d := Some (mkDecoded l (Some (mkDeleteSet (Some s)))) in
  ∃ u1 u2, EncodeV1 d = Ok u1 ∧ EncodeV2 d = Ok u2 ∧
    DecodeV1 u1 = Ok (mkDecoded (wire <$> update_order l) (Some (mkDeleteSet (Some s)))) ∧
    (Z.of_nat (length u2) < 4294967296 → DecodeV2 u2 = DecodeV1 u1).
Proof.
  intros d. destruct (EncodeV1_blocks l s Hl Hw Hc) as (u1 & E1 & D1).
  destruct (writes_groups l _ Hl H2 erep_new) as (e & Ee & He).
  apply (emits_deletes s Hw Hc Hb) in He. rewrite <- app_assoc in He. fold (update_tokens l s) in He.
  eexists u1, _. split; [done|]. subst d. unfold EncodeV2. cbn [from_option id Structs du_DeleteSet]. rewrite Ee.
  split; [done|]. split; [done|]. cbn [id]. intros Hn. rewrite D1.
  destruct (newDecoderV2_columns _ _ He Hf Hn) as (d & Ed & Hd & Hcur). unfold DecodeV2. rewrite Ed.
  unfold decodeV2_body, update_tokens in *. unfold mbind, DM_bind.
  pose proof (encodable_groups l Hl H2) as Hg. set (gs := group_list (groupStructsByClient l)) in *.
  destruct (reads2_rest_uint "ReadV2ClientBlockCount" (Z.of_nat (length gs))) with (d := d) (l := concat (group_tokens <$> gs) ++ [TRest (deletes_bytes s)])
    as (d1 & -> & Hd1 & _); [|done|].
  { destruct (encodable_writable l Hl) as [_ Hsz]. subst gs. unfold group_list. by rewrite length_fmap, desc_keys_perm, length_fmap, length_map_to_list. }
  rewrite Nat2Z.id. destruct (reads2_blocks gs [] Hg d1 _ Hd1) as (d2 & -> & Hd2 & _).
  destruct (reads3_deletes s (d_dsCurrVal d2) Hw Hc Hb) as (cur & Hdel).
  destruct (Hdel d2 []) as (d3 & -> & Hd3 & _); [by rewrite app_nil_r|done|].
  assert (drep d3 []) as Hd4 by (destruct Hd3; constructor; done). unfold getD.
  assert (Remaining (d_rest d3) = 0) as ->.
  { destruct Hd4 as [[Hwr Hvr] _ _ _ _ _ _ _ _ _]. by rewrite <- length_view, Hvr. }
  change (0 =? 0) with true. cbn [negb]. by rewrite (drained_columns d3 Hd4).
Qed.

(** C2: The two formats carry the same documents.  For structs that can be sent,
    with UTF-8 strings and raw values no longer than a decoded collection may
    be, and deletes below the last clock, both encoders succeed, and [DecodeV2]
    of the V2 bytes is what [DecodeV1] gives for the V1 bytes: the structs by
    descending client and ascending clock as they are after the wire, and the
    delete set. *)
Theorem EncodeV2_DecodeV2 (l : list UStruct) (s : IdSet) (Hl : encodable l) (H2 : Forall struct_v2 l)
    (Hw : wf_set s) (Hc : wf_clients s) (Hb : below_max s) (Hf : few (update_tokens l s)) :
  let d := Some (mkDecoded l (Some (mkDeleteSet (Some s)))) in
  ∃ u1 u2, EncodeV1 d = Ok u1 ∧ EncodeV2 d = Ok u2 ∧
    DecodeV1 u1 = Ok (mkDecoded (wire <$> update_order l) (Some (mkDeleteSet (Some s)))) ∧
    (Z.of_nat (length u2) < 4294967296 → DecodeV2 u2 = DecodeV1 u1).
Proof. by apply codec_agreement. Qed.

Lemma EncodeV2_DecodeV2_witness : let d := Some (mkDecoded sample_structs (Some (mkDeleteSet (Some sample_deletes)))) in
  ∃ u2, EncodeV2 d = Ok u2 ∧
    DecodeV2 u2 = Ok (mkDecoded [SItem sample_root; sample_gc; SItem sample_item] (Some (mkDeleteSet (Some sample_deletes)))).
Proof.
  destruct (EncodeV2_DecodeV2 sample_structs sample_deletes sample_encodable) as (u1 & u2 & _ & E2 & HD & H).
  - apply (bool_decide_unpack _). vm_compute. exact I.
  - apply (bool_decide_unpack _). vm_compute. exact I.
  - apply (bool_decide_unpack _). vm_compute. exact I.
  - apply (bool_decide_unpack _). vm_compute. exact I.
  - apply (bool_decide_unpack _). vm_compute. exact I.
  - exists u2. split; [exact E2|]. rewrite H, HD.
    + vm_compute. reflexivity.
    + vm_compute in E2. injection E2 as E2. rewrite <- E2. vm_compute. reflexivity.
Defined.

(** A delete of the last clock, which V1 carries, is written in V2 but not read
    back: the V2 reader bounds the end of a range by 2^32 - 1, not its last
    clock. *)
Lemma V2_last_clock_lost : let d := mkDecoded [] (Some (mkDeleteSet (Some (mkIdSet {[ 7 := [mkRange 4294967295 1] ]})))) in
  (u ← EncodeV1 (Some d); DecodeV1 u) = Ok d ∧
  (u ← EncodeV2 (Some d); DecodeV2 u) = Err (wrapError "ReadV2DSLen" 10 varint_ErrOverflow).
Proof. split; vm_compute; reflexivity. Qed.
