(* ===== verification/SnapshotSpec.v ===== *)
(** * Properties of the garbage collection and of persisted snapshots

    A garbage collection replaces a struct by consecutive pieces: its own windows,
    and GC structs over clocks that are deleted and that no origin names
    ([replaced]). *)
From S2P Require Import Prelude GoError Binary Ranges IdSet IdSetFacts Varint GoText YTypes DeleteSet Decoder DecoderFacts Content Update UpdateFacts UpdateStream UpdateEncode UpdateSpec Aggregate Merge MergeFacts MergeSpec StateVector Lib0 DecoderV2 EncodeV2 Facade Gc Snapshot Lib0Facts CodecV2Facts CodecV2Spec.

(** ** References *)

(** Some item of the update names [id] as an origin. *)
Definition refers (l : list UStruct) (id : ID) : Prop := ∃ i, SItem i ∈ l ∧ (Origin i = Some id ∨ RightOrigin i = Some id).

Lemma add_reference_lookup m o c x :
  x ∈ default [] (add_reference m o !! c) ↔ x ∈ default [] (m !! c) ∨ o = Some (mkID c x).
Proof.
  destruct o as [[c' x']|]; cbn [add_reference id_Client id_Clock]; [|split; [by left|by intros [?|?]]].
  destruct (decide (c' = c)) as [->|Hne].
  - rewrite lookup_insert_eq. cbn. rewrite elem_of_app, list_elem_of_singleton. split; intros [?|H]; try (by left); right; congruence.
  - rewrite lookup_insert_ne by done. split; [by left|]. intros [?|?]; [done|congruence].
Qed.

Lemma referencedItemClocks_spec l c x : x ∈ default [] (referencedItemClocks l !! c) ↔ refers l (mkID c x).
Proof.
  unfold referencedItemClocks.
  assert (∀ m, x ∈ default [] (fold_left reference_step l m !! c) ↔ x ∈ default [] (m !! c) ∨ refers l (mkID c x)) as ->.
  { unfold refers. induction l as [|s l IH]; intros m; cbn [fold_left].
    - split; [by left|]. intros [?|(i & Hi & _)]; [done|set_solver].
    - rewrite IH. assert (x ∈ default [] (reference_step m s !! c) ↔ x ∈ default [] (m !! c) ∨
        ∃ i, s = SItem i ∧ (Origin i = Some (mkID c x) ∨ RightOrigin i = Some (mkID c x))) as ->.
      { destruct s as [b|b|i]; cbn [reference_step]; [split; [by left|naive_solver]..|]. rewrite !add_reference_lookup. naive_solver. }
      setoid_rewrite elem_of_cons. naive_solver. }
  rewrite lookup_empty. cbn. set_solver.
Qed.

Lemma hasReferencedClock_spec l c k e :
  hasReferencedClock c k e (referencedItemClocks l) = true ↔ ∃ x, k <= x < e ∧ refers l (mkID c x).
Proof.
  unfold hasReferencedClock. rewrite existsb_exists. setoid_rewrite <- referencedItemClocks_spec.
  setoid_rewrite <- list_elem_of_In. setoid_rewrite andb_true_iff. setoid_rewrite Z.leb_le. setoid_rewrite Z.ltb_lt. naive_solver.
Qed.

(** ** One struct *)

Lemma whole_window s : good s → sliceStructWindowV1 s 0 0 = Ok s.
Proof.
  intros Hs. pose proof (good_bounds s Hs) as (_ & _ & ? & _). unfold sliceStructWindowV1. by rewrite (proj2 (Z.leb_gt _ _)) by lia.
Qed.

(** A window of [s] from clock [k] to [e]. *)
Lemma slice_by_clock s k e : good s → struct_clock s <= k < e → e <= struct_end s →
  ∃ t, sliceStructByClock s k e = Ok t ∧ sliceStructWindowV1 s (k - struct_clock s) (struct_end s - e) = Ok t ∧
    trimmed s (k - struct_clock s) (struct_end s - e) t ∧ struct_clock t = k ∧ struct_end t = e.
Proof.
  intros Hs Hk He. pose proof (good_bounds s Hs) as (_ & H0 & Hl & Hm & Hend). unfold sliceStructByClock. rewrite Hend.
  destruct (sliceStructWindow_spec s (k - struct_clock s) (struct_end s - e) Hs) as (t & Ht & Htr);
    [lia|lia|unfold struct_end; lia|].
  pose proof Htr as (_ & _ & Hkt & Hlt & _). exists t. split; [|split_and!; [done..|lia|unfold struct_end in *; lia]].
  destruct ((k =? struct_clock s) && (e =? struct_end s)) eqn:E.
  - apply andb_true_iff in E as [->%Z.eqb_eq ->%Z.eqb_eq]. rewrite !Z.sub_diag, whole_window in Ht by done. done.
  - rewrite !w32_small by (unfold struct_end in *; u32). done.
Qed.

Section struct_pieces.
Context (s : UStruct) (rs : list Range) (refs : gmap Z (list Z)) (Hs : good s).

(** A GC struct may stand for deleted clocks that nothing names. *)
Definition collectable (k e : Z) : Prop :=
  struct_clock s <= k < e ∧ e <= struct_end s ∧ kept_item s = false ∧ hasReferencedClock (struct_client s) k e refs = false.

Definition gc_at (k e : Z) : UStruct := GC (mkBase (mkID (struct_client s) k) (e - k)).

Definition piece (t : UStruct) : Prop :=
  (∃ a b, 0 <= a ∧ 0 <= b ∧ sliceStructWindowV1 s a b = Ok t ∧ trimmed s a b t) ∨
  ∃ k e, t = gc_at k e ∧ collectable k e ∧ ∀ x, k <= x < e → covers rs x.

(** [l] covers the clocks from [k] to [e]. *)
Definition spans (k e : Z) (l : list UStruct) : Prop :=
  chain (struct_client s) k l ∧ chain_end k l = e ∧ Forall (λ t, good t ∧ piece t) l.

Lemma spans_nil k : spans k k [].
Proof. split_and!; [done..|constructor]. Qed.

Lemma chain_snoc c k l t : chain c k l → struct_client t = c → struct_clock t = chain_end k l → chain c k (l ++ [t]).
Proof.
  revert k. induction l as [|u l IH]; intros k; cbn [app].
  - intros _ Hc Hk. apply chain_cons. by split_and!.
  - rewrite !chain_cons. intros (Hcu & Hku & Hch) Hc Hk. split_and!; [done..|]. apply IH; [done..|]. by rewrite <- (chain_end_cons k).
Qed.

Lemma spans_snoc k e l t : spans k e l → good t → piece t → struct_client t = struct_client s → struct_clock t = e →
  spans k (struct_end t) (l ++ [t]).
Proof.
  intros (Hch & He & Hp) Hg Ht Hc Hk. split_and!; [by apply chain_snoc; [..|congruence]| |].
  - rewrite chain_end_app, He. cbn. by rewrite <- Hk.
  - apply Forall_app. split; [done|]. by constructor.
Qed.

Lemma spans_window k k' e l : spans k k' l → struct_clock s <= k' < e → e <= struct_end s →
  ∃ t, sliceStructByClock s k' e = Ok t ∧ spans k e (l ++ [t]).
Proof.
  intros Hl Hk He. destruct (slice_by_clock s k' e Hs Hk He) as (t & Ht & Hw & Htr & Hkt & Het).
  exists t. split; [done|]. rewrite <- Het. pose proof Htr as (? & ? & _).
  apply (spans_snoc _ k'); [done|done| |done..]. left. exists (k' - struct_clock s), (struct_end s - e). split_and!; [lia|lia|done..].
Qed.

Lemma gc_good k e : struct_clock s <= k < e → e <= struct_end s →
  good (gc_at k e) ∧ struct_clock (gc_at k e) = k ∧ struct_end (gc_at k e) = e ∧
  (id ← ID_Offset (struct_ID s) (w32 (k - struct_clock s)); NewGC id (w32 (e - k))) = Ok (gc_at k e).
Proof.
  intros Hk He. pose proof (good_bounds s Hs) as (Hc & H0 & Hl & Hm & Hend). unfold struct_end in *. rewrite !w32_small by u32.
  destruct (newBaseStruct_wf (mkID (struct_client s) k) (e - k)) as [Hn Hwf]; [split; cbn; u32|lia|cbn; lia|].
  rewrite ID_Offset_Ok; [|split; [done|unfold struct_clock in *; u32]|lia|fold (struct_clock s); lia].
  cbn [mbind result_bind]. fold (struct_clock s) (struct_client s). replace (struct_clock s + (k - struct_clock s)) with k by lia.
  unfold NewGC. rewrite Hn. split_and!; [by split; [split|]|done|unfold gc_at, struct_clock, struct_Length; cbn; lia|done].
Qed.

Lemma collect_window k k' e l : spans k k' l → struct_clock s <= k' < e → e <= struct_end s → (∀ x, k' <= x < e → covers rs x) →
  ∃ t, garbageCollectStructWindow s k' e refs = Ok t ∧ spans k e (l ++ [t]) ∧ (collectable k' e → t = gc_at k' e).
Proof.
  intros Hl Hk He Hcov. unfold garbageCollectStructWindow. destruct (spans_window k k' e l Hl Hk He) as (t & Ht & Hspan).
  unfold collectable. destruct (kept_item s) eqn:Ekeep; [exists t; by split_and!; [..|intros (_ & _ & ? & _)]|].
  destruct (hasReferencedClock _ _ _ _) eqn:Eref; [exists t; by split_and!; [..|intros (_ & _ & _ & ?)]|].
  destruct (gc_good k' e Hk He) as (Hg & Hck & Hce & ->). exists (gc_at k' e). split_and!; [done| |done].
  rewrite <- Hce at 1. apply (spans_snoc _ k'); [done|done| |done..]. right. by exists k', e.
Qed.

(** What the loop keeps: the pieces so far end at the cursor, and the ranges not
    looked at lie behind it. *)
Record gc_inv (st : gcState) (todo : list Range) : Prop := {
  gi_spans : spans (struct_clock s) (cursor st) (gc_result st);
  gi_cursor : struct_clock s <= cursor st < struct_end s;
  gi_none : overlapped st = false → gc_result st = [];
  gi_todo : ∃ lo, ranges_above lo todo ∧ (cursor st = struct_clock s ∨ cursor st <= lo);
}.

Definition ov_start (r : Range) : Z := Z.max (struct_clock s) (r_Clock r).
Definition ov_end (r : Range) : Z := Z.min (struct_end s) (Range_End r).

(** The range's part of the struct is collected if it may be. *)
Definition done_with (l : list UStruct) (r : Range) : Prop :=
  collectable (ov_start r) (ov_end r) → gc_at (ov_start r) (ov_end r) ∈ l.

(** One range: nothing, or both of its parts. *)
Lemma gc_round st r todo : gc_inv st (r :: todo) → r ∈ rs → cursor st < Range_End r → r_Clock r < struct_end s →
  ∃ st', (st ← gc_keep s st (r_Clock r); gc_collect s refs st (r_Clock r) (r_Clock r + r_Length r)) = Ok st' ∧
    spans (struct_clock s) (cursor st') (gc_result st') ∧ cursor st' = ov_end r ∧ overlapped st' = true ∧
    (∃ l, gc_result st' = gc_result st ++ l) ∧ done_with (gc_result st') r.
Proof.
  intros [Hspan Hcur _ (lo & (Hlo & Hr & Htodo) & Hat)] Hin Hend Hstart.
  pose proof (good_bounds s Hs) as (_ & H0 & _ & Hm & HendS). pose proof Hr as ([? ?] & ? & _).
  assert (∃ st1, gc_keep s st (r_Clock r) = Ok st1 ∧ spans (struct_clock s) (cursor st1) (gc_result st1) ∧
    cursor st1 = Z.max (cursor st) (r_Clock r) ∧ ∃ l, gc_result st1 = gc_result st ++ l) as (st1 & -> & Hspan1 & Hcur1 & l1 & Hl1).
  { unfold gc_keep. case_cmp; [|exists st; split_and!; [done..|lia|exists []; by rewrite app_nil_r]].
    unfold minUint32. rewrite HendS, (proj2 (Z.ltb_lt _ _)) by lia.
    destruct (spans_window _ _ (r_Clock r) _ Hspan) as (t & -> & Ht); [lia|lia|].
    eexists. cbn [mbind result_bind]. split; [done|]. cbn [cursor gc_result]. split_and!; [done|lia|by eexists]. }
  cbn [mbind result_bind]. unfold gc_collect, maxUint32, minUint32, minUint64. rewrite HendS, Hcur1. fold (Range_End r).
  assert ((if r_Clock r <? Z.max (cursor st) (r_Clock r) then Z.max (cursor st) (r_Clock r) else r_Clock r) = Z.max (cursor st) (r_Clock r)) as ->
    by (case_cmp; lia).
  assert (w32 (if Range_End r <? struct_end s then Range_End r else struct_end s) = ov_end r) as ->.
  { unfold ov_end, Range_End in *. case_cmp; rewrite w32_small by u32; lia. }
  assert ((if struct_end s <? ov_end r then struct_end s else ov_end r) = ov_end r) as -> by (unfold ov_end; case_cmp; lia).
  rewrite (proj2 (Z.ltb_lt _ _)) by (unfold ov_end, Range_End in *; lia).
  destruct (collect_window (struct_clock s) (Z.max (cursor st) (r_Clock r)) (ov_end r) (gc_result st1)) as (t & -> & Ht & Hcol).
  - by rewrite <- Hcur1.
  - unfold ov_end, Range_End in *; lia.
  - unfold ov_end, Range_End in *; lia.
  - intros x Hx. apply Exists_exists. exists r. split; [done|]. unfold in_range. unfold ov_end, Range_End in *. lia.
  - eexists. split; [done|]. cbn [cursor gc_result overlapped]. split_and!; [done..| |].
    + exists (l1 ++ [t]). by rewrite Hl1, app_assoc.
    + intros Hc. assert (Z.max (cursor st) (r_Clock r) = ov_start r) as Hk by (unfold ov_start; lia). rewrite Hk in Hcol.
      rewrite <- (Hcol Hc). set_solver.
Qed.

Lemma gc_loop_spec todo st : gc_inv st todo → (∀ r, r ∈ todo → r ∈ rs) →
  ∃ st', gc_loop s refs st todo = Ok st' ∧ spans (struct_clock s) (cursor st') (gc_result st') ∧
    struct_clock s <= cursor st' <= struct_end s ∧ (overlapped st' = false → gc_result st' = []) ∧
    (∃ l, gc_result st' = gc_result st ++ l) ∧ Forall (done_with (gc_result st')) todo.
Proof.
  pose proof (good_bounds s Hs) as (_ & _ & _ & _ & HendS).
  revert st. induction todo as [|r todo IH]; intros st Hinv Hin; cbn [gc_loop].
  { destruct Hinv. exists st. split_and!; [done..|lia|lia|done|exists []; by rewrite app_nil_r|done]. }
  pose proof Hinv as [Hspan Hcur Hnone (lo & (Hlo & Hr & Htodo) & Hat)]. rewrite HendS. fold (Range_End r).
  destruct (Z.leb_spec (Range_End r) (cursor st)) as [Hpast|Hpast].
  - destruct (IH st) as (st' & -> & ? & [? ?] & ? & ? & ?); [split; [done..|]|set_solver|].
    + exists (Range_End r). split; [done|]. pose proof Hr as (_ & ? & _). unfold Range_End in *. lia.
    + exists st'. split_and!; [done..|]. constructor; [|done]. intros ([] & _). unfold ov_start, ov_end, Range_End in *.
      destruct Hr as (? & ? & _). lia.
  - destruct (Z.leb_spec (struct_end s) (r_Clock r)) as [Hbeyond|Hbeyond].
    + exists st. split_and!; [done..|lia|lia|done|exists []; by rewrite app_nil_r|].
      assert (∀ r', r' ∈ r :: todo → r_Clock r <= r_Clock r') as Hall.
      { intros r' [->|Hr']%elem_of_cons; [lia|]. apply list_elem_of_lookup in Hr' as [j Hj].
        destruct (ranges_above_lookup lo (r :: todo) 0 (S j) r r') as (_ & _ & ?); [by split_and!|lia|done|done|].
        destruct Hr as (_ & ? & _). unfold Range_End in *. lia. }
      apply Forall_forall. intros r' Hr' ([] & _). specialize (Hall r' Hr'). unfold ov_start, ov_end in *. lia.
    + destruct (gc_round st r todo Hinv) as (st1 & E1 & Hspan1 & Hcur1 & Hov1 & [l1 Hl1] & Hdone); [apply Hin; set_solver|lia|lia|].
      change (r_Clock r + r_Length r) with (Range_End r) in E1 |- *. destruct (gc_keep s st (r_Clock r)) as [st0|err]; [|done].
      cbn [mbind result_bind] in *. rewrite E1. cbn [mbind result_bind].
      pose proof Hr as (_ & ? & _). unfold ov_end in Hcur1. destruct (Z.leb_spec (struct_end s) (cursor st1)) as [Hfull|Hfull].
      * exists st1. split_and!; [done..|unfold Range_End in *; lia|lia|by rewrite Hov1|by exists l1|]. constructor; [done|].
        apply Forall_forall. intros r' Hr' ([] & _). apply list_elem_of_lookup in Hr' as [j Hj].
        destruct (ranges_above_lookup lo (r :: todo) 0 (S j) r r') as (_ & _ & ?); [by split_and!|lia|done|done|]. unfold ov_start, ov_end in *. lia.
      * destruct (IH st1) as (st' & -> & ? & [? ?] & ? & [l2 Hl2] & ?); [split; [done|unfold Range_End in *; lia|by rewrite Hov1|]|set_solver|].
        { exists (Range_End r). split; [done|]. lia. }
        exists st'. split_and!; [done..|exists (l1 ++ l2); by rewrite Hl2, Hl1, app_assoc|]. constructor; [|done].
        intros Hc. specialize (Hdone Hc). rewrite Hl2. set_solver.
Qed.

(** The struct is replaced by pieces that span it. *)
Lemma garbageCollectStruct_spec : wf_ranges rs →
  ∃ l, garbageCollectStruct s rs refs = Ok l ∧ spans (struct_clock s) (struct_end s) l ∧ Forall (done_with l) rs.
Proof.
  intros Hrs. pose proof (good_bounds s Hs) as (_ & H0 & Hl & _ & HendS).
  assert (spans (struct_clock s) (struct_end s) [s]) as Hself.
  { split_and!; [by apply chain_cons|done|]. constructor; [|done]. split; [done|]. left. exists 0, 0. split_and!; [done..|by apply whole_window|]. split_and!; [done..|lia|lia|done]. }
  unfold garbageCollectStruct. destruct rs as [|r0 rs'] eqn:Ers; [by exists [s]|]. rewrite <- Ers in *. 
  destruct (gc_loop_spec rs (mkGcState [] (struct_clock s) false)) as (st & -> & Hspan & Hcur & Hnone & _ & Hdone);
    [split; cbn|done|].
  - apply spans_nil.
  - unfold struct_end. lia.
  - done.
  - exists (-1). split; [done|by left].
  - cbn [mbind result_bind]. destruct (overlapped st) eqn:Eov; cbn [negb].
    + rewrite HendS. case_cmp.
      * destruct (spans_window _ _ (struct_end s) _ Hspan) as (t & -> & Ht); [lia|lia|]. eexists. split; [done|]. split; [done|].
        eapply Forall_impl; [exact Hdone|]. intros r Hr Hc. specialize (Hr Hc). set_solver.
      * exists (gc_result st). assert (cursor st = struct_end s) as Hc by lia. rewrite Hc in Hspan. done.
    + exists [s]. split_and!; [done..|]. rewrite (Hnone eq_refl) in Hdone. eapply Forall_impl; [exact Hdone|].
      intros r Hr Hc. specialize (Hr Hc). set_solver.
Qed.

End struct_pieces.

(** ** The whole update *)

(** What a struct [s] of the update becomes: pieces in its place, each a window of
    it or a GC struct for clocks that are deleted and not referred to; every
    deleted range is collected where that is allowed. *)
Record replaced (all : list UStruct) (ids : IdSet) (s : UStruct) (l : list UStruct) : Prop := {
  rp_chain : chain (struct_client s) (struct_clock s) l;
  rp_end : chain_end (struct_clock s) l = struct_end s;
  rp_good : Forall good l;
  rp_pieces : Forall (λ t, (∃ a b, 0 <= a ∧ 0 <= b ∧ sliceStructWindowV1 s a b = Ok t ∧ trimmed s a b t) ∨
    ∃ k e, t = gc_at s k e ∧ struct_clock s <= k < e ∧ e <= struct_end s ∧ kept_item s = false ∧
      ∀ x, k <= x < e → mem ids (struct_client s) x ∧ ¬ refers all (mkID (struct_client s) x)) l;
  rp_complete : kept_item s = false → ∀ r, r ∈ ranges_of ids (struct_client s) → ov_start s r < ov_end s r →
    (∀ x, ov_start s r <= x < ov_end s r → ¬ refers all (mkID (struct_client s) x)) →
    gc_at s (ov_start s r) (ov_end s r) ∈ l;
}.

Lemma collectable_spec all s k e : collectable s (referencedItemClocks all) k e ↔
  struct_clock s <= k < e ∧ e <= struct_end s ∧ kept_item s = false ∧ ∀ x, k <= x < e → ¬ refers all (mkID (struct_client s) x).
Proof.
  unfold collectable. rewrite <- (not_true_iff_false (hasReferencedClock _ _ _ _)), hasReferencedClock_spec. naive_solver.
Qed.

Lemma spans_replaced all ids s l : wf_set ids →
  spans s (ranges_of ids (struct_client s)) (referencedItemClocks all) (struct_clock s) (struct_end s) l →
  Forall (done_with s (referencedItemClocks all) l) (ranges_of ids (struct_client s)) → replaced all ids s l.
Proof.
  intros Hw (Hch & Hend & Hp) Hdone. split; [done|done|by eapply Forall_impl; [exact Hp|]; intros t []| |].
  - eapply Forall_impl; [exact Hp|]. intros t [_ [Hwin|(k & e & -> & Hc & Hcov)]]; [by left|right].
    apply collectable_spec in Hc as ([? ?] & ? & ? & Href). exists k, e. split_and!; [done..|]. intros x Hx. split; [by apply Hcov|by apply Href].
  - intros Hk r Hr Hlt Href. rewrite Forall_forall in Hdone. apply Hdone; [done|]. apply collectable_spec.
    split_and!; [unfold ov_start in *; lia|done|unfold ov_end; lia|done|done].
Qed.

Lemma deleteRanges_lookup ids c : default [] (deleteRanges (Some (mkDeleteSet (Some ids))) !! c) = ranges_of ids c.
Proof.
  unfold deleteRanges, DeleteSet_ForEachClient. cbn [ds_set ds_ids mbind option_bind]. rewrite ForEachClient_entries.
  assert (NoDup (entries_of ids (IdSet_Clients (Some ids))).*1) as Hnd.
  { unfold entries_of. rewrite <- list_fmap_compose. unfold compose. cbn. rewrite list_fmap_id. apply Clients_NoDup. }
  destruct (list_to_map _ !! c) as [l|] eqn:E; cbn [default from_option].
  - apply elem_of_list_to_map in E; [|done]. by apply list_elem_of_fmap in E as (? & [= -> ->] & _).
  - apply not_elem_of_list_to_map in E. unfold ranges_of. destruct (clients ids !! c) as [l|] eqn:El; [|done]. destruct E.
    unfold entries_of. rewrite <- list_fmap_compose. unfold compose. cbn. rewrite list_fmap_id. apply elem_of_Clients. by eexists.
Qed.

Lemma gc_fold all ids l acc : wf_set ids → Forall good l →
  ∃ pieces, fold_result (gc_step (deleteRanges (Some (mkDeleteSet (Some ids)))) (referencedItemClocks all)) l acc = Ok (acc ++ concat pieces) ∧
    Forall2 (replaced all ids) l pieces.
Proof.
  intros Hw. revert acc. induction l as [|s l IH]; intros acc Hg; cbn [fold_result].
  { exists []. rewrite app_nil_r. by split; [|constructor]. }
  apply Forall_cons in Hg as [Hs Hg]. unfold gc_step at 1. rewrite deleteRanges_lookup.
  destruct (garbageCollectStruct_spec s (ranges_of ids (struct_client s)) (referencedItemClocks all) Hs) as (p & -> & Hspan & Hdone);
    [by apply wf_ranges_of|]. cbn [mbind result_bind].
  destruct (IH (acc ++ p) Hg) as (ps & -> & Hps). exists (p :: ps). cbn [concat]. rewrite app_assoc. split; [done|].
  constructor; [by apply spans_replaced|done].
Qed.

Lemma replaced_self all ids s : good s → ranges_of ids (struct_client s) = [] → replaced all ids s [s].
Proof.
  intros Hs Hr. split; [by apply chain_cons|done|by constructor| |].
  - constructor; [|constructor]. left. exists 0, 0. split_and!; [done..|by apply whole_window|]. split_and!; [done..|lia|lia|done].
  - rewrite Hr. set_solver.
Qed.

Lemma DeleteSet_Clone_eq ids : DeleteSet_Clone (Some (mkDeleteSet (Some ids))) = mkDeleteSet (Some ids).
Proof. by destruct ids. Qed.

Lemma garbageCollect_ok l ids : Forall good l → wf_set ids →
  ∃ l' pieces, garbageCollectDeletedContent (mkDecoded l (Some (mkDeleteSet (Some ids)))) =
      Ok (mkDecoded l' (Some (mkDeleteSet (Some ids)))) ∧
    l' = concat pieces ∧ Forall2 (replaced l ids) l pieces.
Proof.
  intros Hg Hw. unfold garbageCollectDeletedContent. cbn [Structs du_DeleteSet].
  destruct (DeleteSet_IsEmpty _) eqn:Eempty.
  - exists l, ((λ s, [s]) <$> l). split; [done|]. split.
    + clear. induction l as [|s l IH]; [done|]. cbn. by f_equal.
    + apply Forall2_fmap_r, Forall_Forall2_diag. eapply Forall_impl; [exact Hg|]. intros s Hs. apply replaced_self; [done|].
      cbn in Eempty. apply bool_decide_eq_true, map_size_empty_inv in Eempty. unfold ranges_of. by rewrite Eempty, lookup_empty.
  - destruct (gc_fold l ids l [] Hw Hg) as (pieces & -> & Hp). cbn [mbind result_bind app].
    exists (concat pieces), pieces. by rewrite DeleteSet_Clone_eq.
Qed.

(** ** What follows *)

(** Nothing the update had is lost. *)
Lemma replaced_holds all ids s l x : good s → replaced all ids s l → holds [s] x → holds l x.
Proof.
  intros Hs [Hch Hend Hg Hp _] [Hskip Hx]%holds_one.
  assert (∀ k, chain (struct_client s) k l → k <= x < chain_end k l → holds l x) as Hall; [|by apply (Hall (struct_clock s)); [|rewrite Hend]].
  clear Hch Hend Hx. induction Hp as [|t l Ht _ IH]; intros k Hch Hx; [cbn in Hx; lia|].
  apply Forall_cons in Hg as [Hgt Hg]. apply chain_cons in Hch as (_ & Hk & Hch). rewrite chain_end_cons in Hx by done.
  apply holds_cons. destruct (Z.lt_ge_cases x (struct_end t)) as [Hlt|Hge]; [left|right; apply (IH Hg (struct_end t)); [done|lia]].
  split; [|lia]. destruct Ht as [(a & b & _ & _ & _ & Htr)|(k' & e & -> & _)]; [by rewrite (trimmed_skip _ _ _ _ Htr)|done].
Qed.

Lemma replaced_clients all ids s l : replaced all ids s l → Forall (λ t, struct_client t = struct_client s) l.
Proof. intros [Hch _ _ _ _]. by eapply chain_clients. Qed.

(** The pieces of one client are the pieces of its structs. *)
Lemma replaced_client all ids c l pieces : Forall2 (replaced all ids) l pieces →
  ∃ ps, Forall2 (replaced all ids) (client_structs c l) ps ∧ client_structs c (concat pieces) = concat ps.
Proof.
  induction 1 as [|s p l pieces Hp _ (ps & Hps & E)]; [exists []; by split; [constructor|]|].
  pose proof (replaced_clients _ _ _ _ Hp) as Hc. cbn [concat]. rewrite client_structs_app.
  change (s :: l) with ([s] ++ l). rewrite client_structs_app, E. destruct (decide (struct_client s = c)) as [Heq|Hne].
  - exists (p :: ps). subst c. rewrite (client_structs_all _ [s]), (client_structs_all _ p) by first [done|by repeat constructor]. by split; [constructor|].
  - exists ps. rewrite (client_structs_none c (struct_client s) [s]), (client_structs_none c (struct_client s) p) by first [done|congruence|by repeat constructor]. done.
Qed.

(** What it gains was deleted. *)
Lemma replaced_holds_back all ids s l x : good s → replaced all ids s l → holds l x → holds [s] x ∨ mem ids (struct_client s) x.
Proof.
  intros Hs [_ _ _ Hp _] (t & Ht & Hskip & Hx)%Exists_exists. rewrite Forall_forall in Hp.
  destruct (Hp t Ht) as [(a & b & ? & ? & _ & Htr)|(k & e & -> & ? & ? & _ & Hdel)]; [left|right].
  - rewrite (trimmed_skip _ _ _ _ Htr) in Hskip. destruct Htr as (_ & _ & Hk & Hl & _). apply holds_one. split; [done|].
    unfold struct_end in *. lia.
  - apply Hdel. unfold gc_at, struct_end, struct_clock, struct_Length in Hx. cbn in Hx. lia.
Qed.

Lemma replaced_content all ids l pieces c x : Forall good l → Forall2 (replaced all ids) l pieces →
  (MergeSpec.has_content l c x → MergeSpec.has_content (concat pieces) c x) ∧
  (MergeSpec.has_content (concat pieces) c x → MergeSpec.has_content l c x ∨ mem ids c x).
Proof.
  intros Hg Hp. unfold MergeSpec.has_content. destruct (replaced_client all ids c l pieces Hp) as (ps & Hps & ->).
  assert (Forall (λ s, good s ∧ struct_client s = c) (client_structs c l)) as Hgc.
  { apply Forall_forall. intros s [? Hs]%list_elem_of_filter. rewrite Forall_forall in Hg. auto. }
  clear Hp Hg. induction Hps as [|s p l' ps Hp _ IH]; [by split; intros ?%holds_nil|]. apply Forall_cons in Hgc as [[Hs Hc] Hgc].
  rewrite <- (app_nil_l l'), app_comm_cons, holds_app. cbn [concat]. rewrite holds_app. destruct (IH Hgc) as [IH1 IH2].
  split; (intros [H|H]; [|tauto]).
  - left. by eapply replaced_holds.
  - destruct (replaced_holds_back _ _ _ _ _ Hs Hp H); [tauto|right; congruence].
Qed.

Lemma replaced_good all ids l pieces : Forall2 (replaced all ids) l pieces → Forall good (concat pieces).
Proof. induction 1 as [|s p l pieces Hp _ IH]; cbn; [constructor|]. apply Forall_app. split; [by apply Hp|done]. Qed.

Lemma replaced_chain all ids c k l pieces : Forall2 (replaced all ids) l pieces → chain c k l → chain c k (concat pieces).
Proof.
  intros Hp. revert k. induction Hp as [|s p l pieces Hp _ IH]; intros k; [done|]. rewrite chain_cons. intros (<- & <- & Hch).
  cbn [concat]. apply chain_app. split; [apply Hp|]. rewrite (rp_end _ _ _ _ Hp). by apply IH.
Qed.

(** A list in the order of a chain is sorted to it. *)
Lemma chain_strict c k l : chain c k l → Forall good l → StronglySorted (λ s t, struct_clock s < struct_clock t) l ∧ Forall (λ s, k <= struct_clock s) l.
Proof.
  revert k. induction l as [|s l IH]; intros k; [by repeat constructor|]. intros (_ & Hk & Hch)%chain_cons [Hs Hg]%Forall_cons.
  destruct (IH _ Hch Hg) as [Hss Hle]. pose proof (good_bounds s Hs) as (_ & _ & ? & _). unfold struct_end in *.
  split; (constructor; [first [done|lia]|]); [|eapply Forall_impl; [exact Hle|]; intros t; cbn; lia].
  eapply Forall_impl; [exact Hle|]. intros t; cbn; lia.
Qed.

Lemma chain_clock_inj c k l s t : chain c k l → Forall good l → s ∈ l → t ∈ l → struct_clock s = struct_clock t → s = t.
Proof.
  intros Hch Hg Hs Ht E. destruct (chain_strict c k l Hch Hg) as [Hss _]. clear Hch Hg.
  induction Hss as [|u l _ IH Hu]; [set_solver|]. rewrite Forall_forall in Hu.
  apply elem_of_cons in Hs as [->|Hs], Ht as [->|Ht]; [done|specialize (Hu t Ht); cbn in Hu; lia|specialize (Hu s Hs); cbn in Hu; lia|auto].
Qed.

Lemma insert_Sorted s l : Sorted clock_le l → Sorted clock_le (insert_by_clock s l).
Proof.
  induction 1 as [|t l Hl IH Hh]; cbn; [by repeat constructor|]. case_if; [by repeat constructor|].
  constructor; [done|]. destruct l as [|u l]; cbn in *; [constructor; lia|]. apply HdRel_inv in Hh. case_if; constructor; lia.
Qed.

Lemma sort_by_clock_Sorted l : Sorted clock_le (sort_by_clock l).
Proof. induction l as [|s l IH]; [constructor|]. by apply insert_Sorted. Qed.

Lemma sort_to_chain c k l l' : chain c k l' → Forall good l' → l ≡ₚ l' → sort_by_clock l = l'.
Proof.
  intros Hch Hg Hp. assert (Transitive clock_le) by (intros ???; lia).
  rewrite <- (sort_chain c k l' Hch Hg) at 1. apply (Sorted_unique_strong clock_le); [|apply sort_by_clock_Sorted..|by rewrite !sort_perm].
  intros s t Hs Ht H1 H2. rewrite sort_perm in Hs, Ht. rewrite Hp in Hs. apply (chain_clock_inj c k l'); [done..|lia].
Qed.

Lemma replaced_contiguous all ids l pieces : Forall good l → Forall2 (replaced all ids) l pieces →
  contiguous l → contiguous (concat pieces).
Proof.
  intros Hg Hp Hl c. destruct (Hl c) as [k Hk]. exists k. destruct (replaced_client all ids c l pieces Hp) as (ps & Hps & ->).
  destruct (Permutation_Forall2 (symmetry (sort_perm (client_structs c l))) Hps) as (ps' & Hperm & Hps').
  assert (chain c k (concat ps')) as Hch by by eapply replaced_chain.
  rewrite (sort_to_chain c k _ (concat ps')); [done|done|by eapply replaced_good|]. by rewrite Hperm.
Qed.

Lemma garbageCollect_mergeable l ids pieces : mergeable_update (mkDecoded l (Some (mkDeleteSet (Some ids)))) →
  Forall2 (replaced l ids) l pieces → mergeable_update (mkDecoded (concat pieces) (Some (mkDeleteSet (Some ids)))).
Proof.
  intros [Hg Hc Hnv Hd] Hp. cbn [Structs du_DeleteSet] in *. split; cbn [Structs du_DeleteSet].
  - by eapply replaced_good.
  - by eapply replaced_contiguous.
  - apply Forall_forall. intros t (p & Hpp%list_elem_of_In & Htp%list_elem_of_In)%list_elem_of_In%in_concat.
    apply list_elem_of_lookup in Hpp as [i Hi]. destruct (Forall2_lookup_r _ _ _ _ _ Hp Hi) as (s & Hs & Hrep).
    pose proof (replaced_clients _ _ _ _ Hrep) as Hcl. rewrite Forall_forall in Hcl. rewrite (Hcl t Htp).
    rewrite Forall_forall in Hnv. destruct (Hnv s) as [x Hx]; [by eapply list_elem_of_lookup_2|]. exists x. by apply (replaced_content l ids l).
  - done.
Qed.

(** C24: Garbage collection.  It succeeds on every update whose structs can be cut
    and whose delete set is normalised, and keeps the delete set.  Each struct
    becomes consecutive pieces over the same clocks: windows of itself, and GC
    structs over clocks that are deleted, belong to no kept item and are named by
    no origin in the update.  Every deleted range of which this is true is
    collected. *)
Theorem garbage_collection (l : list UStruct) (ids : IdSet) (Hg : Forall good l) (Hw : wf_set ids) :
  ∃ l' pieces, garbageCollectDeletedContent (mkDecoded l (Some (mkDeleteSet (Some ids)))) =
      Ok (mkDecoded l' (Some (mkDeleteSet (Some ids)))) ∧
    l' = concat pieces ∧ Forall2 (replaced l ids) l pieces.
Proof. by apply garbageCollect_ok. Qed.

(** Client 9 is deleted whole, of the text of client 1 the second and third unit. *)
Definition gc_deletes : IdSet := mkIdSet {[ 1 := [mkRange 0 2; mkRange 3 2]; 9 := [mkRange 0 3] ]}.

Lemma sample_good : Forall good sample_structs.
Proof.
  pose proof sample_structs_ok as H. repeat apply Forall_cons in H as [? H].
  repeat apply Forall_cons_2; try apply Forall_nil_2; (split; [done|]); cbn; try exact I; intros; vm_compute; reflexivity.
Qed.

(** The GC struct stays: its last clock is the origin of the text. *)
Lemma garbage_collection_witness : ∃ l' pieces,
  garbageCollectDeletedContent (mkDecoded sample_structs (Some (mkDeleteSet (Some gc_deletes)))) =
    Ok (mkDecoded l' (Some (mkDeleteSet (Some gc_deletes)))) ∧
  l' = concat pieces ∧ struct_Kind <$> l' = [KindGC; KindGC; KindItem; KindGC; KindItem] ∧
  (λ s, (struct_client s, struct_clock s, struct_Length s)) <$> l' = [(9, 0, 3); (1, 0, 2); (1, 2, 1); (1, 3, 2); (1, 5, 1)].
Proof.
  destruct (garbage_collection sample_structs gc_deletes sample_good) as (l' & pieces & H & H1 & _).
  - apply (bool_decide_unpack _). vm_compute. exact I.
  - exists l', pieces. split; [exact H|]. split; [exact H1|]. vm_compute in H. injection H as <-. split; vm_compute; reflexivity.
Defined.

(** A Skip over deleted clocks, which stands for structs that never arrived,
    becomes a GC struct: the update then claims to hold them. *)
Theorem garbage_collection_fills_gaps :
  let d := mkDecoded [GC (mkBase (mkID 1 0) 1); Skip (mkBase (mkID 1 1) 2); GC (mkBase (mkID 1 3) 1)]
    (Some (mkDeleteSet (Some (mkIdSet {[ 1 := [mkRange 1 2] ]})))) in
  ∃ d', garbageCollectDeletedContent d = Ok d' ∧ ¬ content d 1 1 ∧ content d' 1 1 ∧
    (u ← EncodeV1 (Some d); stateVectorFromUpdateV1 u) = Ok {[ 1 := 1 ]} ∧
    (u ← EncodeV1 (Some d'); stateVectorFromUpdateV1 u) = Ok {[ 1 := 4 ]}.
Proof.
  cbn zeta. eexists. split; [vm_compute; reflexivity|]. split; [apply (bool_decide_unpack _); vm_compute; exact I|].
  split; [apply (bool_decide_unpack _); vm_compute; exact I|]. split; vm_compute; reflexivity.
Qed.

(** ** Windows stay sendable in V2 *)

Lemma slice_v2_text s a n t : is_bytes s → sliceUTF16Window s a n = Ok t → str_ok t → utf8_ok t.
Proof.
  intros Hs H Ht. split; [done|]. unfold sliceUTF16Window in H. cbn zeta in H. destruct (_ <? _); [done|].
  set (w := slice a (a + n) (utf16_encode (runes s))) in *.
  assert (t = string_of_runes (utf16_decode w)) as -> by (destruct w; by injection H as <-).
  assert (Forall is_u16 w) as Hu.
  { unfold w, slice. apply Forall_take, Forall_drop. by apply utf16_encode_length, runes_scalar. }
  rewrite runes_string_of_runes; [done|]. by apply utf16_decode_spec.
Qed.

Lemma go_slice_Forall {A} (P : A → Prop) a e l l' : go_slice a e l = Ok l' → Forall P l → Forall P l'.
Proof. unfold go_slice. destruct (_ && _); [|done]. intros [= <-] Hl. by apply Forall_take, Forall_drop. Qed.

Lemma SliceWindow_v2 c a b c' : content_ok c → 0 <= a → 0 <= b → sliceable c → content_v2 c → SliceWindow c a b = Ok c' → content_v2 c'.
Proof.
  intros Hok Ha Hb Hsl Hv H. pose proof (SliceWindow_spec c a b Hok Ha Hb Hsl) as Hspec.
  destruct (LengthVal c <=? a + b); [congruence|]. destruct Hspec as (c1 & E1 & Hok' & _). rewrite H in E1. injection E1 as <-.
  unfold SliceWindow in H. destruct (_ <=? _); [done|]. destruct ((a =? 0) && (b =? 0)); [injection H as <-; by destruct c|].
  assert (raw_small []) as Hnil by by split. destruct Hv as (H1 & H2 & H3 & H4 & _). unfold content_v2, raw_value.
  destruct (Z.eqb_spec (Ref c) itemContentDeleted) as [E|_]; [injection H as <-; cbn [Ref TypeName Text JSON Any]; by rewrite E|].
  destruct (Z.eqb_spec (Ref c) itemContentJSON) as [E|_].
  { destruct (go_slice _ _ (JSON c)) as [l|] eqn:El; [|done]. injection H as <-. cbn [Ref TypeName Text JSON Any]. rewrite E.
    apply (go_slice_Forall utf8_ok) in El; [|done]. done. }
  destruct (Z.eqb_spec (Ref c) itemContentString) as [E|_].
  { destruct (sliceUTF16Window _ _ _) as [t|] eqn:Et; [|done]. injection H as <-. cbn [Ref TypeName Text JSON Any]. rewrite E in *.
    apply slice_v2_text in Et; [by split_and!|by destruct H2 as [[]]|]. by inversion Hok'. }
  destruct (Z.eqb_spec (Ref c) itemContentAny) as [E|_]; [|done].
  destruct (go_slice _ _ (Any c)) as [l|] eqn:El; [|done]. injection H as <-. cbn [Ref TypeName Text JSON Any]. rewrite E.
  apply (go_slice_Forall raw_small) in El; [|done]. done.
Qed.

Lemma slice_v2 s a b t : good s → 0 <= a → 0 <= b → struct_v2 s → sliceStructWindowV1 s a b = Ok t → struct_v2 t.
Proof.
  intros Hg Ha Hbb Hv H. pose proof (good_bounds s Hg) as (Hcl & Hk & Hl & Hm & _). destruct Hg as [[Hb Hi] Hfit].
  unfold sliceStructWindowV1 in H. destruct (Z.leb_spec (struct_Length s) (a + b)); [done|].
  destruct ((a =? 0) && (b =? 0)); [by injection H as <-|]. destruct (_ =? 0); [done|]. destruct (ID_Offset _ _) as [id|]; [|done].
  cbn [mbind result_bind] in H. destruct s as [base|base|i].
  1, 2: unfold NewGC, NewSkip in H; destruct (newBaseStruct _ _); [|done]; by injection H as <-.
  destruct (SliceWindow (ItemContent i) a b) as [c'|] eqn:Ec; [|done]. cbn [mbind result_bind] in H.
  unfold NewItem, newItem in H. destruct (newBaseStruct id _) as [base|]; [|done]. cbn in H. injection H as <-.
  destruct Hi as (Hct & _), Hv as [Hc Hp]. split; cbn; [exact (SliceWindow_v2 _ a b _ Hct Ha Hbb Hfit Hc Ec)|].
  unfold no_origin, originForSlice in *; cbn. unfold struct_end, struct_client, struct_clock, struct_ID, struct_Length in *. cbn in *.
  case_if; [done|]. rewrite ID_Offset_Ok; [done|split; [done|u32]|lia|lia].
Qed.

Lemma replaced_v2 all ids l pieces : Forall good l → Forall struct_v2 l → Forall2 (replaced all ids) l pieces → Forall struct_v2 (concat pieces).
Proof.
  intros Hg Hv Hp. induction Hp as [|s p l pieces Hp _ IH]; cbn; [constructor|]. apply Forall_cons in Hg as [Hs Hg], Hv as [Hsv Hv].
  apply Forall_app. split; [|by apply IH]. eapply Forall_impl; [apply (rp_pieces _ _ _ _ Hp)|].
  intros t [(a & b & Ha & Hb & Ht & _)|(k & e & -> & _)]; [exact (slice_v2 s a b t Hs Ha Hb Hsv Ht)|exact I].
Qed.

Lemma mergeable_encodable d : mergeable_update d → is_u32 (Z.of_nat (length (Structs d))) → encodable (Structs d).
Proof.
  intros [Hg Hc _ _] Hn. split_and!; [|done|done]. eapply Forall_impl; [exact Hg|]. by intros s [].
Qed.

(** ** State vectors of structs *)

(** The largest end of a client's structs, 0 without any. *)
Definition top (l : list UStruct) (c : Z) : Z :=
  foldr (λ s m, if decide (struct_client s = c) then Z.max (struct_end s) m else m) 0 l.

Lemma top_cons s l c : top (s :: l) c = if decide (struct_client s = c) then Z.max (struct_end s) (top l c) else top l c.
Proof. done. Qed.
#[local] Arguments top : simpl never.

Lemma top_nonneg l c : 0 <= top l c.
Proof. induction l as [|s l IH]; [done|]. rewrite top_cons. case_decide; lia. Qed.

Lemma top_app l k c : top (l ++ k) c = Z.max (top l c) (top k c).
Proof.
  pose proof (top_nonneg k c). induction l as [|s l IH]; cbn [app]; [change (top [] c) with 0; lia|].
  rewrite !top_cons, IH. case_decide; lia.
Qed.

Lemma top_perm l k c : l ≡ₚ k → top l c = top k c.
Proof. induction 1 as [|s l k _ IH|s t l|l k k' _ IH1 _ IH2]; rewrite ?top_cons; [done|by rewrite IH|repeat case_decide; lia|congruence]. Qed.

Lemma top_wire l c : top (wire <$> l) c = top l c.
Proof. induction l as [|s l IH]; [done|]. by rewrite fmap_cons, !top_cons, IH, wire_client, wire_end. Qed.

Lemma stateVectorFromStructs_top l c : Forall good l →
  stateVectorFromStructs l !! c = (if decide (0 < top l c) then Some (top l c) else None).
Proof.
  unfold stateVectorFromStructs. induction l as [|s l IH] using rev_ind; intros Hg; [done|].
  apply Forall_app in Hg as [Hg [Hs _]%Forall_cons]. specialize (IH Hg). rewrite fold_left_app. cbn [fold_left].
  set (sv := fold_left _ l ∅) in *. unfold max_clock. pose proof (good_bounds s Hs) as (_ & Hk & Hl & _ & ->).
  rewrite top_app. pose proof (top_nonneg l c). unfold struct_end in *. rewrite top_cons. change (top [] c) with 0. destruct (decide (struct_client s = c)) as [Hc|Hc].
  - subst c. assert (default 0 (sv !! struct_client s) = top l (struct_client s)) as -> by (rewrite IH; case_decide; cbn; lia).
    case_if; rewrite ?lookup_insert_eq, ?IH; repeat case_decide; f_equal; unfold struct_end in *; lia.
  - case_if; rewrite ?lookup_insert_ne by done; rewrite IH; repeat case_decide; f_equal; lia.
Qed.

Lemma replaced_top all ids l pieces c : Forall2 (replaced all ids) l pieces → Forall good l → top (concat pieces) c = top l c.
Proof.
  intros Hp. induction Hp as [|s p l pieces Hp _ IH]; intros Hg; [done|]. apply Forall_cons in Hg as [Hs Hg].
  cbn [concat]. rewrite top_app, (IH Hg). change (s :: l) with ([s] ++ l). rewrite top_app. f_equal.
  pose proof (good_bounds s Hs) as (_ & Hk & Hl & _). destruct Hp as [Hch Hend Hgp _ _]. unfold struct_end in Hend.
  assert (∀ k, chain (struct_client s) k p → 0 <= k → top p c = if decide (struct_client s = c) then (if decide (p = []) then 0 else chain_end k p) else 0) as Htop.
  { clear -Hgp. induction Hgp as [|t p Ht Hgp IH]; intros k Hch Hk; [by repeat case_decide|].
    apply chain_cons in Hch as (Hc & Hkt & Hch). rewrite top_cons.
    pose proof (good_bounds t Ht) as (_ & _ & Hlt & _). unfold struct_end in *. rewrite (IH _ Hch) by lia.
    rewrite Hc. case_decide; [|done]. rewrite (decide_False (P := t :: p = [])) by done. rewrite chain_end_cons by done. unfold struct_end.
    case_decide as Hnil; [subst p; cbn; lia|]. pose proof (chain_end_le _ _ _ Hch Hgp). lia. }
  rewrite (Htop _ Hch Hk), top_cons. change (top [] c) with 0. case_decide; [|done].
  rewrite decide_False; [unfold struct_end; lia|]. intros ->. cbn in Hend. lia.
Qed.

(** A persisted snapshot.  For a document that can be merged and sent in both
    formats, building it succeeds; both payloads decode to the same document,
    the collected one; it has every content of the original, what it has more is
    deleted, and its deletes are the same; the stored state vector and delete set
    are those of the original. *)
Theorem persisted_snapshot (l : list UStruct) (ids : IdSet)
    (Hd : mergeable_update (mkDecoded l (Some (mkDeleteSet (Some ids))))) (H2 : Forall struct_v2 l)
    (Hc : wf_clients ids) (Hb : below_max ids)
    (Hsize : ∀ d', garbageCollectDeletedContent (mkDecoded l (Some (mkDeleteSet (Some ids)))) = Ok d' →
      is_u32 (Z.of_nat (length (Structs d'))) ∧ few (update_tokens (Structs d') ids)) :
  let d := mkDecoded l (Some (mkDeleteSet (Some ids))) in
  ∃ p d', persistedSnapshotFromDecodedUpdate d = Ok p ∧ mergeable_update d' ∧
    DecodeV1 (UpdateV1 p) = Ok d' ∧ (Z.of_nat (length (UpdateV2 p)) < 4294967296 → DecodeV2 (UpdateV2 p) = Ok d') ∧
    (∀ c x, (content d c x → content d' c x) ∧ (content d' c x → content d c x ∨ deleted d c x)) ∧
    du_DeleteSet d' = du_DeleteSet d ∧
    ps_Snapshot p = Some (mkSnapshot (stateVectorFromStructs l) (du_DeleteSet d)).
Proof.
  intros d. pose proof (mu_good _ Hd) as Hg. cbn [Structs] in Hg. pose proof (mu_deletes _ Hd) as (s & [= <-] & Hfine).
  destruct (garbageCollect_ok l ids Hg) as (l' & pieces & E & -> & Hp); [apply Hfine|]. fold d in E, Hsize.
  destruct (Hsize _ E) as [Hn Hf]. cbn [Structs] in *. pose proof (garbageCollect_mergeable l ids pieces Hd Hp) as Hm'.
  destruct (codec_agreement (concat pieces) ids (mergeable_encodable _ Hm' Hn) (replaced_v2 _ _ _ _ Hg H2 Hp)) as (u1 & u2 & E1 & E2 & D1 & D2);
    [apply Hfine|done..|].
  unfold persistedSnapshotFromDecodedUpdate. rewrite E. cbn [mbind result_bind]. unfold EncodeUpdateV2, EncodeUpdate. rewrite E2, E1.
  pose proof (mergeable_set _ Hm') as Hset. cbn [Structs] in Hset.
  eexists _, (mkDecoded (wire <$> update_order (concat pieces)) (Some (mkDeleteSet (Some ids)))). split; [done|].
  cbn [UpdateV1 UpdateV2 ps_Snapshot du_DeleteSet]. split_and!.
  - by apply wire_set_mergeable.
  - done.
  - intros Hlen. by rewrite D2.
  - intros c x. unfold content. cbn [Structs]. unfold update_order. rewrite has_content_wire, set_content_group by done.
    destruct (replaced_content l ids l pieces c x Hg Hp) as [H3 H4]. split; [done|]. intros [?|?]%H4; [by left|right]. by exists ids.
  - done.
  - cbn [snapshotFromDecodedUpdate Structs du_DeleteSet]. rewrite DeleteSet_Clone_eq. do 2 f_equal. apply map_eq. intros c.
    rewrite !stateVectorFromStructs_top, (replaced_top l ids l pieces c Hp Hg) by first [done|by eapply replaced_good]. done.
Qed.

Lemma gc_mergeable_sample : mergeable_update (mkDecoded sample_structs (Some (mkDeleteSet (Some gc_deletes)))).
Proof.
  split; cbn [Structs du_DeleteSet]; [apply sample_good|apply sample_encodable| |].
  - repeat apply Forall_cons_2; try apply Forall_nil_2; [exists 0|exists 0|exists 2];
      apply (bool_decide_unpack _); vm_compute; exact I.
  - exists gc_deletes. split; [done|]. split_and!.
    + apply (bool_decide_unpack _). vm_compute. exact I.
    + apply avoids_entries. apply (bool_decide_unpack _). vm_compute. exact I.
    + apply (bool_decide_unpack _). vm_compute. exact I.
Qed.

Lemma persisted_snapshot_witness :
  let d := mkDecoded sample_structs (Some (mkDeleteSet (Some gc_deletes))) in
  ∃ p d', persistedSnapshotFromDecodedUpdate d = Ok p ∧ DecodeV2 (UpdateV2 p) = Ok d' ∧
    (∀ c x, content d c x → content d' c x) ∧
    ps_Snapshot p = Some (mkSnapshot {[ 1 := 6; 9 := 3 ]} (Some (mkDeleteSet (Some gc_deletes)))).
Proof.
  destruct (persisted_snapshot sample_structs gc_deletes gc_mergeable_sample) as (p & d' & H1 & _ & _ & H2 & H3 & _ & H4).
  - apply (bool_decide_unpack _). vm_compute. exact I.
  - apply (bool_decide_unpack _). vm_compute. exact I.
  - apply (bool_decide_unpack _). vm_compute. exact I.
  - intros d0 H. vm_compute in H. injection H as <-. apply (bool_decide_unpack _). vm_compute. exact I.
  - exists p, d'. split; [exact H1|]. split; [|split; [intros c x; apply H3|rewrite H4; vm_compute; reflexivity]].
    apply H2. vm_compute in H1. injection H1 as <-. vm_compute. reflexivity.
Defined.
