(* ===== verification/FormatSpec.v ===== *)
(** * Properties of the format detection and of the conversions *)
From S2P Require Import Prelude GoError Binary Ranges IdSet IdSetFacts Varint GoText YTypes DeleteSet Decoder DecoderFacts Content Update UpdateFacts UpdateStream UpdateEncode UpdateSpec Aggregate Merge MergeFacts MergeSpec StateVector Lib0 DecoderV2 EncodeV2 Facade Gc Lib0Facts CodecV2Facts CodecV2Spec SnapshotSpec.
Import varint.

(** ** Detection *)

Lemma Append_ne v : is_u32 v → Append [] v ≠ [].
Proof. intros Hv. destruct (Append_first v Hv) as (b & l & -> & _). done. Qed.

Lemma detect_first n rest : is_u32 n → n ≠ 0 → detectUpdateFormatWithReason (Append [] n ++ rest) = Ok UpdateFormatV1.
Proof.
  intros Hn Hne. pose proof (Append_ne n Hn) as Ha. unfold detectUpdateFormatWithReason. rewrite Decode_encoded by done.
  destruct (Append [] n ++ rest) eqn:E; [by destruct (Append [] n)|]. by rewrite (proj2 (Z.eqb_neq n 0)).
Qed.

Lemma detect_zero rest : detectUpdateFormatWithReason (0 :: rest) =
  match ReadDeleteSetBlockV1 (NewReader rest) with
  | (Ok _, reader) =>
      if Remaining reader =? 0 then Ok UpdateFormatV1
      else match validateV2HeaderPrefix rest with None => Ok UpdateFormatV2 | Some _ => Err (Sentinel yupdate_ErrTrailingBytes) end
  | (Err err, _) =>
      let v1Err := if negb (isMalformedUpdatePayloadForV1 err) then Sentinel yupdate_ErrAmbiguousUpdateFormat else err in
      match validateV2HeaderPrefix rest with None => Ok UpdateFormatV2 | Some _ => Err v1Err end
  end.
Proof.
  unfold detectUpdateFormatWithReason. assert (Decode (0 :: rest) = (Ok 0, 1%nat)) as -> by exact (Decode_encoded 0 rest ltac:(u32)).
  change (0 =? 0) with true. cbn [negb]. change (drop 1 (0 :: rest)) with rest.
  destruct (ReadDeleteSetBlockV1 (NewReader rest)) as [[ds|err] r]; [by destruct (Remaining r =? 0)|done].
Qed.

Lemma Remaining_advance bs rest : Remaining (advance (length bs) (NewReader (bs ++ rest))) = Z.of_nat (length rest).
Proof.
  assert (view (NewReader (bs ++ rest)) = bs ++ rest) as Hv by apply view_NewReader.
  rewrite <- length_view; [by rewrite (view_advance_app _ _ _ Hv)|]. exact (wf_advance _ _ _ (wf_NewReader _) Hv).
Qed.

(** An update without structs is a delete set. *)
Lemma detect_deletes s : wf_set s → wf_clients s →
  detectUpdateFormatWithReason (0 :: EncodeDeleteSetBlockV1 (Some (mkDeleteSet (Some s)))) = Ok UpdateFormatV1.
Proof.
  intros Hw Hc. rewrite detect_zero. set (bs := EncodeDeleteSetBlockV1 _).
  rewrite <- (app_nil_r bs) at 1.
  rewrite (reads_ReadDeleteSetBlockV1 s Hw Hc (NewReader (bs ++ [])) [] (wf_NewReader _)) by apply view_NewReader.
  fold bs. by rewrite Remaining_advance.
Qed.

Lemma detect_EncodeV1 l s : encodable l → wf_set s → wf_clients s →
  ∃ u, EncodeV1 (Some (mkDecoded l (Some (mkDeleteSet (Some s))))) = Ok u ∧ detectUpdateFormatWithReason u = Ok UpdateFormatV1.
Proof.
  intros Hl Hw Hc. destruct (encode_groups _ (encodable_writable l Hl)) as (bs & [_ Hbs] & _ & Hout).
  specialize (Hout (EncodeDeleteSetBlockV1 (Some (mkDeleteSet (Some s))))). unfold EncodeV1. cbn [Structs du_DeleteSet].
  destruct (encodeStructGroupsV1 (groupStructsByClient l)) as [out|]; [|done]. cbn [mbind result_bind] in *. injection Hout as Hout.
  eexists. split; [done|]. rewrite appendDeleteSet_app, Hout. unfold enc_update.
  destruct (decide (length bs = 0%nat)) as [E|E]; [|apply detect_first; [done|lia]].
  destruct bs; [|done]. by apply detect_deletes.
Qed.

(** Nine length-prefixed columns. *)
Lemma reads_header cols : Forall few cols →
  reads (header_loop (length cols)) (concat ((λ a, Append [] (Z.of_nat (length a)) ++ a) <$> cols)) tt.
Proof.
  induction 1 as [|a cols Ha _ IH]; cbn [length header_loop fmap list_fmap concat]; [apply reads_ret|]. rewrite <- app_assoc.
  eapply reads_bind; [apply reads_ReadU; unfold few in Ha; u32|]. eapply reads_bind; [by apply reads_ReadN|]. exact IH.
Qed.

Definition columns (e : updateEncoderV2) : list bytes :=
  [diff_bytes (e_keyClock e); uint_bytes (e_client e); diff_bytes (e_leftClock e); diff_bytes (e_rightClock e); rle_bytes (e_info e);
   str_bytes (e_strings e); rle_bytes (e_parentInfo e); uint_bytes (e_typeRef e); uint_bytes (e_lengths e)].

Lemma encoder_bytes_columns e : Z.of_nat (length (encoder_bytes e)) < 4294967296 →
  encoder_bytes e = 0 :: concat ((λ a, Append [] (Z.of_nat (length a)) ++ a) <$> columns e) ++ e_rest e ∧ Forall few (columns e).
Proof.
  unfold encoder_bytes. rewrite !append_array. rewrite <- !app_assoc. rewrite !length_app. intros Hn.
  assert (Forall few (columns e)) as Hf by (unfold columns, few; repeat constructor; lia). split; [|done]. clear Hn.
  unfold columns in *. repeat apply Forall_cons in Hf as [? Hf]. unfold few in *. rewrite !w32_small by u32.
  cbn [fmap list_fmap concat]. by rewrite app_nil_r, <- !app_assoc.
Qed.

(** Without keys the second byte is 0 as well: read as V1, an empty delete set
    with bytes behind it. *)
Lemma detect_encoder e : diff_bytes (e_keyClock e) = [] → Z.of_nat (length (encoder_bytes e)) < 4294967296 →
  detectUpdateFormatWithReason (encoder_bytes e) = Ok UpdateFormatV2.
Proof.
  intros Hk Hn. destruct (encoder_bytes_columns e Hn) as [-> Hf]. rewrite detect_zero. set (rest := concat _ ++ _).
  assert (validateV2HeaderPrefix rest = None) as ->.
  { unfold validateV2HeaderPrefix, rest. by rewrite (reads_header (columns e) Hf (NewReader _) (e_rest e) (wf_NewReader _)) by by rewrite view_NewReader. }
  assert (∃ b t, rest = 0 :: b :: t) as (b & t & ->).
  { unfold rest, columns. rewrite Hk. cbn [fmap list_fmap concat length app]. change (Append [] (Z.of_nat 0)) with [0]. cbn [app].
    assert (few (uint_bytes (e_client e))) as Hcl by by apply Forall_cons in Hf as [_ [? _]%Forall_cons].
    pose proof (Append_ne (Z.of_nat (length (uint_bytes (e_client e)))) ltac:(unfold few in Hcl; u32)).
    destruct (Append [] (Z.of_nat (length (uint_bytes (e_client e))))) as [|b t]; [done|]. by eexists _, _. }
  change (0 :: b :: t) with (EncodeDeleteSetBlockV1 (Some NewDeleteSet) ++ b :: t).
  assert (wf_clients IdSet_New) as Hc by by split.
  rewrite (reads_ReadDeleteSetBlockV1 IdSet_New wf_set_New Hc (NewReader _) (b :: t) (wf_NewReader _)) by by rewrite view_NewReader.
  rewrite Remaining_advance. cbn [length]. by rewrite (proj2 (Z.eqb_neq _ 0)) by lia.
Qed.

(** ** Canonical encodings *)

(** No content of the structs is written to the key column. *)
Definition keyed (c : ParsedContent) : bool :=
  (Ref c =? itemContentFormat) || ((Ref c =? itemContentType) && is_named_type (TypeRef c)).

Definition keyless (l : list UStruct) : Prop :=
  Forall (λ s, match s with SItem i => keyed (ItemContent i) = false | _ => True end) l.

#[export] Instance keyless_dec l : Decision (keyless l).
Proof. unfold keyless. apply Forall_dec. intros []; apply _. Defined.

Lemma c_keys_none l : Forall (λ t, t ≠ TKey) l → c_keys l = 0.
Proof. unfold c_keys. induction 1 as [|t l Ht _ IH]; [done|]. by destruct t. Qed.

Lemma content_tokens_keyless c : content_ok c → keyed c = false → Forall (λ t, t ≠ TKey) (content_tokens c).
Proof.
  unfold keyed, content_tokens, name_tokens. intros Hc [H1 H2]%orb_false_iff. rewrite H1.
  repeat case_match; repeat constructor; try done; try (by apply Forall_fmap, Forall_forall).
Qed.

Ltac keyfree := first [done|constructor; [done|]; keyfree|constructor].

Lemma struct_tokens_keyless s : struct_ok s → match s with SItem i => keyed (ItemContent i) = false | _ => True end →
  Forall (λ t, t ≠ TKey) (struct_tokens s).
Proof.
  intros [_ Hi] Hk. destruct s as [b|b|i]; cbn [struct_tokens]; [keyfree..|]. destruct (ItemHeader_Encode _); [|constructor].
  constructor; [done|]. destruct Hi as (Hc & _). unfold item_tokens. repeat (apply Forall_app; split).
  - destruct (Origin i); cbn; keyfree.
  - destruct (RightOrigin i); cbn; keyfree.
  - destruct (no_origin i); [|constructor]. apply Forall_app. split; [|destruct (has_sub i); keyfree].
    unfold parent_tokens. destruct (pr_id _); cbn; keyfree.
  - by apply content_tokens_keyless.
Qed.

Lemma update_tokens_keyless l s : Forall struct_ok l → keyless l → c_keys (update_tokens l s) = 0.
Proof.
  intros Hl Hk. apply c_keys_none. unfold update_tokens. constructor; [done|]. apply Forall_app. split; [|keyfree].
  apply Forall_concat, Forall_fmap. unfold group_list. apply Forall_fmap, Forall_forall. intros c [g Hg]%elem_of_desc_keys.
  cbn. rewrite Hg. cbn. destruct (groupStructs_Some l c g Hg) as [-> _]. unfold group_tokens. do 3 (constructor; [done|]).
  apply Forall_concat, Forall_fmap. rewrite sort_perm. apply Forall_forall. intros t [_ Ht]%list_elem_of_filter. cbn.
  rewrite Forall_forall in Hl. unfold keyless in Hk. rewrite Forall_forall in Hk. apply struct_tokens_keyless; [by apply Hl|by apply Hk].
Qed.

Definition wire_group (g : list UStruct) : list UStruct := wire <$> g.

(** The decoded structs have the groups of the original ones, after the wire. *)
Lemma groups_wire l : Forall good l → contiguous l →
  groupStructsByClient (wire <$> update_order l) = wire_group <$> groupStructsByClient l.
Proof.
  intros Hg Hl. apply map_eq. intros c. rewrite lookup_fmap, !groupStructs_lookup.
  assert (client_structs c (wire <$> update_order l) ≡ₚ wire <$> sort_by_clock (client_structs c l)) as Hp.
  { rewrite client_structs_wire. apply fmap_Permutation. rewrite sort_perm. unfold client_structs. by rewrite update_order_perm. }
  destruct (Hl c) as [k Hch].
  assert (Forall good (wire <$> sort_by_clock (client_structs c l))) as Hgw.
  { apply Forall_fmap. rewrite sort_perm. apply Forall_forall. intros t [_ Ht]%list_elem_of_filter. rewrite Forall_forall in Hg. apply wire_good; auto. }
  pose proof (sort_to_chain c k _ _ (proj2 (chain_wire c k _) Hch) Hgw Hp) as E.
  destruct (client_structs c l) as [|s g] eqn:Eg.
  - cbn in Hp. apply Permutation_nil_r in Hp. by rewrite Hp.
  - destruct (client_structs c (wire <$> update_order l)) as [|t h] eqn:Et; [|by rewrite E].
    apply Permutation_length in Hp. rewrite length_fmap, (Permutation_length (sort_perm _)) in Hp. done.
Qed.

Lemma desc_keys_fmap {A B} (f : A → B) (m : gmap Z A) : desc_keys (f <$> m) = desc_keys m.
Proof. unfold desc_keys. rewrite map_to_list_fmap, <- list_fmap_compose. do 2 f_equal. Qed.

(** What the wire drops is not written. *)
Lemma appendStruct_wire dst s : appendStructV1 dst (wire s) = appendStructV1 dst s.
Proof.
  destruct s as [b|b|i]; [done..|]. cbn [wire appendStructV1]. unfold appendItemV1, wire_item; cbn. unfold no_origin.
  destruct (Origin i), (RightOrigin i); cbn; done.
Qed.

Lemma writer_write_wire w s : writer_write w (wire s) 0 0 = writer_write w s 0 0.
Proof.
  unfold writer_write, appendStructRangeV1. rewrite wire_client. unfold struct_ID. rewrite wire_base.
  change ((0 =? 0) && (0 =? 0)) with true. cbn iota. cbn zeta.
  match goal with |- match ?m with _ => _ end = _ => destruct m as [w'|]; [|done] end. by rewrite appendStruct_wire.
Qed.

Lemma write_all_wire w l : write_all w (wire_group l) = write_all w l.
Proof.
  revert w. unfold wire_group. induction l as [|s l IH]; intros w; [done|]. cbn [write_all fmap list_fmap]. rewrite writer_write_wire.
  by destruct (writer_write w s 0 0) as [w' [err|]].
Qed.

Lemma lookup_wire_group (m : gmap Z (list UStruct)) c : default [] ((wire_group <$> m) !! c) = wire_group (default [] (m !! c)).
Proof. rewrite lookup_fmap. by destruct (m !! c). Qed.

Lemma fold_result_ext {A B} (f g : A → B → result A) l a : (∀ a b, f a b = g a b) → fold_result f l a = fold_result g l a.
Proof. intros H. revert a. induction l as [|b l IH]; intros a; [done|]. cbn. rewrite H. by destruct (g a b); cbn. Qed.

Lemma encodeStructGroups_wire m : encodeStructGroupsV1 (wire_group <$> m) = encodeStructGroupsV1 m.
Proof.
  unfold encodeStructGroupsV1. cbn zeta. rewrite desc_keys_fmap. f_equal. apply fold_result_ext. intros w c.
  by rewrite lookup_wire_group, write_all_wire.
Qed.

Lemma writeStruct_wire e s : writeStruct (wire s) e = writeStruct s e.
Proof.
  destruct s as [b|b|i]; [done..|]. cbn [wire writeStruct]. unfold writeItem, wire_item; cbn. unfold no_origin.
  by destruct (Origin i), (RightOrigin i).
Qed.

Lemma write_group_wire m e c : write_group (wire_group <$> m) e c = write_group m e c.
Proof.
  unfold write_group. cbn zeta. rewrite lookup_wire_group. set (g := default [] (m !! c)).
  assert (length (wire_group g) = length g) as -> by apply length_fmap.
  assert (match wire_group g with s :: _ => struct_clock s | [] => 0 end = match g with s :: _ => struct_clock s | [] => 0 end) as ->
    by (destruct g as [|s g']; [done|apply wire_clock]).
  generalize (put_rest (Append [] (match g with s :: _ => struct_clock s | [] => 0 end))
    (put_client c (put_rest (Append [] (w32 (Z.of_nat (length g)))) e))). clear.
  unfold wire_group. induction g as [|s g IH]; intros e; [done|]. cbn [fmap list_fmap fold_result]. rewrite writeStruct_wire.
  by destruct (writeStruct s e); cbn.
Qed.

Lemma writeStructGroups_wire m e : writeStructGroups (wire_group <$> m) e = writeStructGroups m e.
Proof.
  unfold writeStructGroups. cbn zeta. rewrite desc_keys_fmap.
  assert (filter (λ c, default [] ((wire_group <$> m) !! c) ≠ []) (desc_keys m) = filter (λ c, default [] (m !! c) ≠ []) (desc_keys m)) as ->.
  { apply list_filter_iff. intros c. rewrite lookup_wire_group. by destruct (default [] (m !! c)). }
  apply fold_result_ext. intros e' c. apply write_group_wire.
Qed.

(** What was decoded is encoded as before. *)
Lemma encode_decoded l ds : Forall good l → contiguous l →
  EncodeV1 (Some (mkDecoded (wire <$> update_order l) ds)) = EncodeV1 (Some (mkDecoded l ds)) ∧
  EncodeV2 (Some (mkDecoded (wire <$> update_order l) ds)) = EncodeV2 (Some (mkDecoded l ds)).
Proof.
  intros Hg Hl. unfold EncodeV1, EncodeV2. cbn [Structs du_DeleteSet from_option id].
  by rewrite (groups_wire l Hg Hl), encodeStructGroups_wire, writeStructGroups_wire.
Qed.

(** ** Conversions *)

(** The facade's view of a detected update. *)
Lemma by_format_V1 {A} u (v1 v2 : result A) : detectUpdateFormatWithReason u = Ok UpdateFormatV1 → by_format u v1 v2 = v1.
Proof. intros H. unfold by_format, FormatFromUpdate, DetectUpdateFormatWithReason. by rewrite H. Qed.

Lemma by_format_V2 {A} u (v1 v2 : result A) : detectUpdateFormatWithReason u = Ok UpdateFormatV2 → by_format u v1 v2 = v2.
Proof. intros H. unfold by_format, FormatFromUpdate, DetectUpdateFormatWithReason. by rewrite H. Qed.

Lemma convert_decoded u l ds u1 u2 : Forall good l → contiguous l → DecodeUpdate u = Ok (mkDecoded (wire <$> update_order l) ds) →
  EncodeV1 (Some (mkDecoded l ds)) = Ok u1 → EncodeV2 (Some (mkDecoded l ds)) = Ok u2 →
  ConvertUpdateToV1 u = Ok u1 ∧ ConvertUpdateToV2 u = Ok u2.
Proof.
  intros Hg Hl Hd H1 H2. destruct (encode_decoded l ds Hg Hl) as [E1 E2]. unfold ConvertUpdateToV1, ConvertUpdateToV2, EncodeUpdate, EncodeUpdateV2.
  rewrite Hd. cbn [mbind result_bind]. by rewrite E1, E2, H1, H2.
Qed.

(** The key column of what was written without keys is empty. *)
Lemma EncodeV2_keyless l s u2 : encodable l → Forall struct_v2 l → wf_set s → wf_clients s → below_max s → keyless l →
  EncodeV2 (Some (mkDecoded l (Some (mkDeleteSet (Some s))))) = Ok u2 → Z.of_nat (length u2) < 4294967296 →
  detectUpdateFormatWithReason u2 = Ok UpdateFormatV2.
Proof.
  intros Hl H2 Hw Hc Hb Hk E Hn. destruct (writes_groups l _ Hl H2 erep_new) as (e & Ee & He).
  apply (emits_deletes s Hw Hc Hb) in He. rewrite <- app_assoc in He. fold (update_tokens l s) in He.
  unfold EncodeV2 in E. cbn [from_option id Structs du_DeleteSet] in E. rewrite Ee in E. cbn in E. injection E as <-.
  apply detect_encoder; [|done]. apply (er_idle _ _ He). apply update_tokens_keyless; [apply Hl|done].
Qed.

(** C29: Detection and conversion.  The V1 encoding of a document is always taken for
    V1; its V2 encoding is taken for V2 when no content writes to the key column
    (formats, and the named XML types).  Then decoding gives the same document
    from both, and the conversions give the two canonical payloads back from
    either of them. *)
Theorem conversions_canonical (l : list UStruct) (ids : IdSet) (Hl : encodable l) (Hg : Forall good l) (H2 : Forall struct_v2 l)
    (Hw : wf_set ids) (Hc : wf_clients ids) (Hb : below_max ids) (Hf : few (update_tokens l ids)) :
  let d := Some (mkDecoded l (Some (mkDeleteSet (Some ids)))) in
  ∃ u1 u2 d', EncodeV1 d = Ok u1 ∧ EncodeV2 d = Ok u2 ∧
    d' = mkDecoded (wire <$> update_order l) (Some (mkDeleteSet (Some ids))) ∧
    (FormatFromUpdate u1 = Ok UpdateFormatV1 ∧ DecodeUpdate u1 = Ok d' ∧
     ConvertUpdateToV1 u1 = Ok u1 ∧ ConvertUpdateToV2 u1 = Ok u2) ∧
    (keyless l → Z.of_nat (length u2) < 4294967296 →
     FormatFromUpdate u2 = Ok UpdateFormatV2 ∧ DecodeUpdate u2 = Ok d' ∧
     ConvertUpdateToV1 u2 = Ok u1 ∧ ConvertUpdateToV2 u2 = Ok u2).
Proof.
  intros d. destruct (codec_agreement l ids Hl H2 Hw Hc Hb Hf) as (u1 & u2 & E1 & E2 & D1 & D2).
  destruct (detect_EncodeV1 l ids Hl Hw Hc) as (u1' & E1' & F1). rewrite E1 in E1'. injection E1' as <-.
  pose proof (proj2 (proj2 Hl)) as Hcont. exists u1, u2, (mkDecoded (wire <$> update_order l) (Some (mkDeleteSet (Some ids)))).
  split_and!; [done..| |by unfold DecodeUpdate; rewrite (by_format_V1 _ _ _ F1)| | |].
  - unfold FormatFromUpdate, DetectUpdateFormatWithReason. by rewrite F1.
  - eapply convert_decoded; [done..| |done|done]. unfold DecodeUpdate. by rewrite (by_format_V1 _ _ _ F1).
  - eapply convert_decoded; [done..| |done|done]. unfold DecodeUpdate. by rewrite (by_format_V1 _ _ _ F1).
  - intros Hk Hn. pose proof (EncodeV2_keyless l ids u2 Hl H2 Hw Hc Hb Hk E2 Hn) as F2.
    assert (DecodeUpdate u2 = Ok (mkDecoded (wire <$> update_order l) (Some (mkDeleteSet (Some ids))))) as Hd.
    { unfold DecodeUpdate. rewrite (by_format_V2 _ _ _ F2), D2 by done. done. }
    split; [unfold FormatFromUpdate, DetectUpdateFormatWithReason; by rewrite F2|]. split; [done|]. by apply (convert_decoded u2 l (Some (mkDeleteSet (Some ids))) u1 u2).
Qed.

Lemma conversions_canonical_witness : let d := Some (mkDecoded sample_structs (Some (mkDeleteSet (Some sample_deletes)))) in
  ∃ u1 u2, EncodeV1 d = Ok u1 ∧ EncodeV2 d = Ok u2 ∧ ConvertUpdateToV2 u1 = Ok u2 ∧ ConvertUpdateToV1 u2 = Ok u1.
Proof.
  destruct (conversions_canonical sample_structs sample_deletes sample_encodable sample_good) as (u1 & u2 & d' & E1 & E2 & _ & H1 & H2).
  - apply (bool_decide_unpack _). vm_compute. exact I.
  - apply (bool_decide_unpack _). vm_compute. exact I.
  - apply (bool_decide_unpack _). vm_compute. exact I.
  - apply (bool_decide_unpack _). vm_compute. exact I.
  - apply (bool_decide_unpack _). vm_compute. exact I.
  - exists u1, u2. split; [exact E1|]. split; [exact E2|]. split; [apply H1|]. apply H2.
    + apply (bool_decide_unpack _). vm_compute. exact I.
    + vm_compute in E2. injection E2 as E2. rewrite <- E2. vm_compute. reflexivity.
Defined.

(** With keys the detection may be wrong: the V2 encoding of this document, two
    formats, an XML element, two deleted clocks and a delete of clocks 1 and 2, is
    also a delete set block.  It is taken for a V1 update without structs, whose
    deletes the document does not have. *)
Definition format_item (k root : Z) : UStruct :=
  SItem (mkItem (mkBase (mkID 77 k) 1) None None (mkParentRef [root] None) [] None 0
    (mkContent itemContentFormat 1 false 0 [98] (Some (enc_str [98] ++ [120])) [] [] [])).

Definition keyed_document : DecodedUpdate := mkDecoded
  [format_item 0 97; format_item 1 120;
   SItem (mkItem (mkBase (mkID 77 2) 1) None (Some (mkID 77 5)) (mkParentRef [] None) [] None ItemFlagCountable
     (mkContent itemContentType 1 true typeRefYXmlElement [98] (Some (Append [] 3 ++ enc_str [98])) [] [] []));
   SItem (mkItem (mkBase (mkID 77 3) 2) (Some (mkID 77 2)) None (mkParentRef [] None) [] None 0
     (mkContent itemContentDeleted 2 false 0 [] (Some [2]) [] [] []))]
  (Some (mkDeleteSet (Some (mkIdSet {[ 77 := [mkRange 1 2] ]})))).

Theorem V2_taken_for_V1 : ∃ u d', EncodeV2 (Some keyed_document) = Ok u ∧ DecodeV2 u = Ok keyed_document ∧
  FormatFromUpdate u = Ok UpdateFormatV1 ∧ DecodeUpdate u = Ok d' ∧ Structs d' = [] ∧
  DeleteSet_Has (du_DeleteSet d') (mkID 77 1) = false ∧ DeleteSet_Has (du_DeleteSet d') (mkID 0 205) = true.
Proof.
  eexists _, _. split; [vm_compute; reflexivity|]. split; [vm_compute; reflexivity|]. split; [vm_compute; reflexivity|].
  split; [vm_compute; reflexivity|]. vm_compute. done.
Qed.
