(* ===== verification/ReplayDocs.v ===== *)
(** * Documents in the V2 format, merged

    [sendable] updates can be merged and sent in both formats and their V2 form is
    recognised.  Merging the V2 forms of such updates gives one that has exactly
    their contents and deletes ([MergeUpdatesV2_spec]). *)
From stdpp Require Import relations.
From S2P Require Import Prelude GoError Binary Ranges IdSet IdSetFacts Varint GoText YTypes DeleteSet Decoder DecoderFacts Content Update UpdateFacts UpdateStream UpdateEncode UpdateSpec Aggregate Merge MergeFacts MergeSpec StateVector Lib0 DecoderV2 EncodeV2 Facade Gc Snapshot Lib0Facts CodecV2Facts CodecV2Spec SnapshotSpec FormatSpec.

Definition plain (s : UStruct) : Prop := match s with SItem i => keyed (ItemContent i) = false | _ => True end.

Record sendable (d : DecodedUpdate) : Prop := {
  sd_mergeable : mergeable_update d;
  sd_v2 : Forall struct_v2 (Structs d);
  sd_plain : keyless (Structs d) }.

(** ** Windows keep the kind of a content *)

Lemma SliceWindow_keyed c a b c' : SliceWindow c a b = Ok c' → keyed c' = keyed c.
Proof.
  unfold SliceWindow, mbind, result_bind. intros H. destruct (_ <=? _); [done|]. destruct (_ && _); [by injection H as <-; destruct c|].
  repeat (destruct (Ref c =? _); [repeat case_match; simplify_eq; try done|]); done.
Qed.

Lemma slice_plain s a b t : plain s → sliceStructWindowV1 s a b = Ok t → plain t.
Proof.
  intros Hp H. unfold sliceStructWindowV1 in H. destruct (_ <=? _); [done|]. destruct (_ && _); [by injection H as <-|].
  destruct (_ =? 0); [done|]. destruct (ID_Offset _ _) as [id|]; [|done]. cbn [mbind result_bind] in H. destruct s as [base|base|i].
  1, 2: unfold NewGC, NewSkip in H; destruct (newBaseStruct _ _); [|done]; by injection H as <-.
  destruct (SliceWindow (ItemContent i) a b) as [c'|] eqn:Ec; [|done]. cbn [mbind result_bind] in H.
  unfold NewItem, newItem in H. destruct (newBaseStruct id _) as [base|]; [|done]. cbn in H. injection H as <-. cbn.
  by rewrite (SliceWindow_keyed _ _ _ _ Ec).
Qed.

(** What a V2 update can carry without keys. *)
Definition sendable_struct (s : UStruct) : Prop := good s ∧ struct_v2 s ∧ plain s.

Lemma tail_sendable s t : tail_of s t → sendable_struct s → sendable_struct t.
Proof.
  intros Ht. induction Ht as [s|s s1 t (d & Hd & Hs1) _ IH]; [done|]. intros (Hg & H2 & Hp). apply IH. unfold sliceStructV1 in Hs1.
  split_and!; [|by eapply (slice_v2 s d 0)|by eapply slice_plain].
  destruct (Z.ltb_spec (d + 0) (struct_Length s)) as [Hlt|Hge].
  - destruct (sliceStructWindow_spec s d 0 Hg) as (t' & E & Hg' & _); [lia..|]. congruence.
  - unfold sliceStructWindowV1 in Hs1. by rewrite (proj2 (Z.leb_le _ _)) in Hs1 by lia.
Qed.

Lemma from_sendable srcs t : good t → from srcs t → Forall sendable_struct srcs → sendable_struct t.
Proof.
  intros Hg [Hs|(s & Hin & Ht)] Hsrc.
  - split; [done|]. by destruct t.
  - eapply tail_sendable; [done|]. rewrite Forall_forall in Hsrc. by apply Hsrc.
Qed.

(** ** The flat list of a block set *)

Lemma client_structs_flat (l : list (Z * list UStruct)) c : NoDup l.*1 → Forall (λ p, Forall (λ s, struct_client s = p.1) p.2) l →
  client_structs c (concat l.*2) = default [] ((list_to_map l : gmap Z (list UStruct)) !! c).
Proof.
  induction l as [|[c' g] l IH]; cbn [fmap list_fmap concat list_to_map foldr]; [done|]. intros [Hni Hnd]%NoDup_cons [Hg Hl]%Forall_cons.
  cbn [fst snd] in *. rewrite client_structs_app, IH by done. destruct (decide (c = c')) as [->|Hc].
  - change (list_to_map ((c', g) :: l)) with (<[c' := g]> (list_to_map l : gmap Z (list UStruct))).
    rewrite lookup_insert_eq, client_structs_all by done. rewrite not_elem_of_list_to_map_1 by done. cbn. apply app_nil_r.
  - change (list_to_map ((c', g) :: l)) with (<[c' := g]> (list_to_map l : gmap Z (list UStruct))).
    rewrite lookup_insert_ne by done. by rewrite (client_structs_none c c').
Qed.

Lemma client_structs_blockSet m c : set_ok m → client_structs c (blockSet_structs m) = default [] (m !! c).
Proof.
  intros Hm. unfold blockSet_structs. rewrite client_structs_flat; [by rewrite list_to_map_to_list|apply NoDup_fst_map_to_list|].
  apply Forall_forall. intros [c' g] Hg%elem_of_map_to_list. destruct (Hm _ _ Hg) as [(k & Hch & _) _]. by eapply chain_clients.
Qed.

Lemma blockSet_struct m s : set_ok m → s ∈ blockSet_structs m → ∃ g, m !! struct_client s = Some g ∧ s ∈ g.
Proof.
  intros Hm Hs. apply elem_of_client_structs in Hs. rewrite client_structs_blockSet in Hs by done.
  destruct (m !! struct_client s) as [g|]; [by exists g|]. cbn in Hs. set_solver.
Qed.

Lemma blockSet_mergeable m s : set_ok m → deletes_fine s → mergeable_update (mkDecoded (blockSet_structs m) (Some (mkDeleteSet (Some s)))).
Proof.
  intros Hm Hs. split; cbn [Structs du_DeleteSet]; [| | |by exists s].
  - apply Forall_forall. intros t Ht. destruct (blockSet_struct m t Hm Ht) as (g & Hg & Hin).
    destruct (Hm _ _ Hg) as [(k & _ & Hgood) _]. rewrite Forall_forall in Hgood. by apply Hgood.
  - intros c. rewrite client_structs_blockSet by done. destruct (m !! c) as [g|] eqn:Hg; [|by exists 0].
    destruct (Hm c g Hg) as [(k & Hch & Hgood) _]. exists k. cbn. by rewrite (sort_chain c k).
  - apply Forall_forall. intros t Ht. rewrite client_structs_blockSet by done. destruct (blockSet_struct m t Hm Ht) as (g & Hg & _).
    rewrite Hg. by destruct (Hm _ _ Hg).
Qed.

Lemma has_content_blockSet m c x : set_ok m → MergeSpec.has_content (blockSet_structs m) c x ↔ set_content m c x.
Proof. intros Hm. unfold MergeSpec.has_content, set_content. by rewrite client_structs_blockSet. Qed.

(** ** Documents *)

(** The sizes the format can count. *)
Definition small (d : DecodedUpdate) : Prop :=
  match du_DeleteSet d with
  | Some (mkDeleteSet (Some ids)) =>
      is_u32 (Z.of_nat (length (Structs d))) ∧ is_u32 (Z.of_nat (size (clients ids))) ∧ few (update_tokens (Structs d) ids) ∧
      match EncodeV2 (Some d) with Ok u => Z.of_nat (length u) < 4294967296 | Err _ => True end
  | _ => False
  end.

#[export] Instance small_dec d : Decision (small d).
Proof. unfold small. repeat case_match; apply _. Defined.

(** [u] is recognised as V2 and holds the document [d]. *)
Record document (u : bytes) (d : DecodedUpdate) : Prop := {
  doc_format : detectUpdateFormatWithReason u = Ok UpdateFormatV2;
  doc_decoded : DecodeV2 u = Ok d;
  doc_sendable : sendable d }.

Lemma document_DecodeUpdate u d : document u d → DecodeUpdate u = Ok d.
Proof. intros Hu. unfold DecodeUpdate. rewrite (by_format_V2 _ _ _ (doc_format _ _ Hu)). apply (doc_decoded _ _ Hu). Qed.

Lemma fine_below_max s : deletes_fine s → below_max s.
Proof.
  intros (Hw & Ha & _). apply avoids_entries in Ha. intros c l Hl. specialize (Ha c l Hl). destruct (Hw c l Hl) as [Hr _].
  clear Hl Hw. revert Hr Ha. unfold wf_ranges, MaxUint32. generalize (-1). induction l as [|r l IH]; intros lo; [constructor|].
  cbn [ranges_above]. intros (_ & Hwr & Hr) Ha. rewrite covers_cons in Ha. constructor; [|by eapply IH; [|tauto]].
  assert (¬ in_range r 4294967295) by tauto. rg.
Qed.

Lemma sendable_document d u : sendable d → small d → EncodeV2 (Some d) = Ok u →
  document u (mkDecoded (wire <$> update_order (Structs d)) (du_DeleteSet d)).
Proof.
  intros [Hm H2 Hp] Hsm E. pose proof (mu_deletes _ Hm) as (ids & Hds & Hfine). destruct d as [l ds]. cbn [Structs du_DeleteSet] in *. subst ds.
  unfold small in Hsm. cbn [Structs du_DeleteSet] in Hsm. destruct Hsm as (Hn & Hsz & Hf & Hlen). rewrite E in Hlen.
  pose proof (mergeable_encodable _ Hm Hn) as Henc. cbn [Structs] in Henc.
  assert (wf_clients ids) as Hc by (split; [apply Hfine|done]). pose proof (fine_below_max _ Hfine) as Hb.
  destruct (codec_agreement l ids Henc H2) as (u1 & u2 & E1 & E2 & D1 & D2); [apply Hfine|done..|].
  assert (u2 = u) as -> by congruence. split.
  - eapply EncodeV2_keyless; [exact Henc|done|apply Hfine|done..].
  - by rewrite D2.
  - split; cbn [Structs].
    + pose proof (mergeable_set _ Hm) as Hset. cbn [Structs] in Hset. by apply wire_set_mergeable.
    + apply Forall_fmap. rewrite update_order_perm. eapply Forall_impl; [exact H2|]. intros s. unfold compose. destruct s as [| |i]; [done..|].
      intros [Hct Hno]. split; [done|]. change (no_origin (wire_item i)) with (no_origin i). intros Hn'. cbn. rewrite Hn'. by apply Hno.
    + unfold keyless in *. apply Forall_fmap. rewrite update_order_perm. eapply Forall_impl; [exact Hp|]. intros s. unfold compose. by destruct s.
Qed.

(** Decoding loses nothing of it. *)
Lemma wire_order_content d c x : mergeable_update d → content (mkDecoded (wire <$> update_order (Structs d)) (du_DeleteSet d)) c x ↔ content d c x.
Proof.
  intros Hm. unfold content. cbn [Structs]. unfold update_order. rewrite has_content_wire by by apply mergeable_set. apply set_content_group.
Qed.

(** ** Merging *)

(** A run of the worker pool that is not cut short. *)
Definition complete (run1 run2 : Run) (us : list bytes) : Prop :=
  ctxErr run1 = None ∧ ctxErr run2 = None ∧
  valid_run detectSingleUpdateFormat (delivered run1) None us ∧ valid_run decodeMergeUpdate (delivered run2) None us.

(** What [MergeUpdatesV2Context] encodes. *)
Definition merged_document (ds : list DecodedUpdate) : result DecodedUpdate :=
  m ← mergeDecodedUpdatesV1 (entry_of <$> ds);
  Ok (mkDecoded (blockSet_structs (blockSet m)) (mu_deleteSet m)).

Lemma detect_documents us n : Forall (λ u, detectUpdateFormatWithReason u = Ok UpdateFormatV2) us → n = length us → us ≠ [] →
  Forall2 (λ u f, detectSingleUpdateFormat u = Ok f) us (replicate n UpdateFormatV2) ∧ mergeUpdateFormats (replicate n UpdateFormatV2) = Ok UpdateFormatV2.
Proof.
  intros Hus -> Hne. split.
  - clear Hne. induction Hus as [|u us Hu _ IH]; [constructor|]. constructor; [|done]. unfold detectSingleUpdateFormat. by destruct u.
  - destruct us as [|u us]; [done|]. cbn [length replicate mergeUpdateFormats fold_result].
    unfold merge_format at 1. rewrite decide_False by done.
    assert (∀ k, fold_result merge_format (replicate k UpdateFormatV2) (Some UpdateFormatV2) = Ok (Some UpdateFormatV2)) as ->; [|done].
    intros k. induction k as [|k IH]; [done|]. cbn [replicate fold_result]. unfold merge_format at 1. rewrite decide_False by done.
    by rewrite decide_False by (intros ?; done).
Qed.

Lemma MergeUpdatesV2_spec run1 run2 us ds : us ≠ [] → Forall2 document us ds → complete run1 run2 us →
  ∃ d, merged_document ds = Ok d ∧ MergeUpdatesV2Context run1 run2 us = EncodeV2 (Some d) ∧ sendable d ∧
    (∀ c x, content d c x ↔ Exists (λ d, content d c x) ds) ∧ (∀ c x, deleted d c x ↔ Exists (λ d, deleted d c x) ds).
Proof.
  intros Hne Hus (C1 & C2 & V1 & V2).
  assert (Forall mergeable_update ds) as Hds by (eapply Forall2_Forall_r; [exact Hus|]; apply Forall_true; intros u d Hd; apply Hd).
  destruct (mergeDecoded_ok (mjoin (Structs <$> ds)) ds Hds) as (m & Em & Hm & Hf & Hc & s & Hs & Hfine & Hmem & _).
  { apply Forall_forall. intros d Hd t Ht. apply list_elem_of_join. exists (Structs d). split; [done|]. apply list_elem_of_fmap. by exists d. }
  set (d := mkDecoded (blockSet_structs (blockSet m)) (mu_deleteSet m)). exists d. split; [unfold merged_document; by rewrite Em|].
  assert (MergeUpdatesV2Context run1 run2 us = EncodeV2 (Some d)) as Emerge.
  { unfold MergeUpdatesV2Context, ConvertUpdatesToV2Context. destruct us as [|u0 us0] eqn:Eus; [done|]. rewrite <- Eus in *.
    unfold detectAggregateUpdateFormatSkippingEmptyContext, DetectUpdatesFormatWithReasonContext, aggregate. rewrite C1.
    destruct (detect_documents us (length us)) as [H1 H2]; [|done..|].
    { eapply Forall2_Forall_l; [exact Hus|]. apply Forall_true. intros d' u' Hd. apply Hd. }
    rewrite (aggregate_Ok _ _ _ _ _ us _ V1 H1), H2. cbn [mbind result_bind]. unfold merge_any, aggregate. rewrite C2.
    assert (non_empty us = us) as ->.
    { apply filter_all. eapply Forall2_Forall_l; [exact Hus|]. apply Forall_true. intros d' u' Hd ->. by pose proof (doc_format _ _ Hd). }
    rewrite (aggregate_Ok _ _ _ _ _ us (entry_of <$> ds) V2); [|].
    - rewrite Em. done.
    - apply Forall2_fmap_r. eapply Forall2_impl; [exact Hus|]. intros u d' Hd. unfold decodeMergeUpdate, compose.
      by rewrite (document_DecodeUpdate _ _ Hd). }
  split; [done|]. pose proof (blockSet_mergeable (blockSet m) s Hm Hfine) as Hmu. rewrite <- Hs in Hmu. fold d in Hmu.
  split_and!.
  - assert (Forall sendable_struct (Structs d)) as Hsend.
    { apply Forall_forall. intros t Ht. destruct (blockSet_struct _ _ Hm Ht) as (g & Hg & Hin).
      pose proof (mu_good _ Hmu) as Hgood. rewrite Forall_forall in Hgood. specialize (Hf _ _ Hg). cbn in Hf. rewrite Forall_forall in Hf.
      eapply from_sendable; [by apply Hgood|by apply Hf|]. apply Forall_forall. intros t' (l & Ht' & Hl)%list_elem_of_join.
      apply list_elem_of_fmap in Hl as (d' & -> & Hd'). apply list_elem_of_lookup in Hd' as [i Hi].
      destruct (Forall2_lookup_r _ _ _ _ _ Hus Hi) as (u & _ & Hd). destruct (doc_sendable _ _ Hd) as [Hm' H2' Hp'].
      pose proof (mu_good _ Hm') as Hg'. unfold keyless in Hp'. rewrite Forall_forall in H2', Hp', Hg'.
      split_and!; [by apply Hg'|by apply H2'|by apply Hp']. }
    split; [done| |]; (eapply Forall_impl; [exact Hsend|]); by intros t (? & ? & ?).
  - intros c x. rewrite <- Hc. unfold content, d. cbn [Structs]. by apply has_content_blockSet.
  - intros c x. rewrite <- Hmem. unfold deleted, d. cbn [du_DeleteSet]. rewrite Hs. split; [by intros (s' & [= <-] & ?)|]. intros ?. by exists s.
Qed.

(** ** Snapshots *)

Lemma sendable_encodes d : sendable d → small d → ∃ u1 u2, EncodeV1 (Some d) = Ok u1 ∧ EncodeV2 (Some d) = Ok u2.
Proof.
  intros [Hm H2 _] Hsm. pose proof (mu_deletes _ Hm) as (ids & Hds & Hfine). destruct d as [l ds]. cbn [Structs du_DeleteSet] in *. subst ds.
  unfold small in Hsm. cbn [Structs du_DeleteSet] in Hsm. destruct Hsm as (Hn & Hsz & Hf & _).
  pose proof (mergeable_encodable _ Hm Hn) as Henc. cbn [Structs] in Henc.
  destruct (codec_agreement l ids Henc H2) as (u1 & u2 & E1 & E2 & _); [apply Hfine|by split; [apply Hfine|]|by apply fine_below_max|done|].
  by exists u1, u2.
Qed.

Lemma replaced_plain all ids l pieces : keyless l → Forall2 (replaced all ids) l pieces → keyless (concat pieces).
Proof.
  unfold keyless. intros Hv Hp. induction Hp as [|s p l pieces Hp _ IH]; cbn; [constructor|]. apply Forall_cons in Hv as [Hsv Hv].
  apply Forall_app. split; [|by apply IH]. eapply Forall_impl; [apply (rp_pieces _ _ _ _ Hp)|].
  intros t [(a & b & _ & _ & Ht & _)|(k & e & -> & _)]; [exact (slice_plain s a b t Hsv Ht)|exact I].
Qed.

(** The snapshot of a document: its V2 form is a document again, with the contents
    of the first and no more than its deleted ones besides. *)
Lemma persisted_document d : sendable d → (∀ d', garbageCollectDeletedContent d = Ok d' → small d') →
  ∃ p d', persistedSnapshotFromDecodedUpdate d = Ok p ∧ document (UpdateV2 p) d' ∧
    (∀ c x, (content d c x → content d' c x) ∧ (content d' c x → content d c x ∨ deleted d c x)) ∧ du_DeleteSet d' = du_DeleteSet d.
Proof.
  intros [Hm H2 Hp] Hsm. pose proof (mu_deletes _ Hm) as (ids & Hds & Hfine). pose proof (mu_good _ Hm) as Hg.
  destruct d as [l ds]. cbn [Structs du_DeleteSet] in *. subst ds.
  destruct (garbageCollect_ok l ids Hg) as (l' & pieces & E & -> & Hpc); [apply Hfine|]. specialize (Hsm _ E).
  assert (sendable (mkDecoded (concat pieces) (Some (mkDeleteSet (Some ids))))) as Hs.
  { split; cbn [Structs]; [by eapply garbageCollect_mergeable|by eapply replaced_v2|by eapply replaced_plain]. }
  destruct (sendable_encodes _ Hs Hsm) as (u1 & u2 & E1 & E2). pose proof (sendable_document _ _ Hs Hsm E2) as Hdoc.
  unfold persistedSnapshotFromDecodedUpdate. rewrite E. cbn [mbind result_bind]. unfold EncodeUpdateV2, EncodeUpdate. rewrite E2, E1.
  eexists _, _. split; [done|]. cbn [UpdateV2 mbind result_bind]. split; [exact Hdoc|]. split; [|done].
  intros c x. change (content (mkDecoded (wire <$> update_order (Structs (mkDecoded (concat pieces) (Some (mkDeleteSet (Some ids)))))) (Some (mkDeleteSet (Some ids)))) c x)
    with (content (mkDecoded (wire <$> update_order (Structs (mkDecoded (concat pieces) (Some (mkDeleteSet (Some ids))))))
      (du_DeleteSet (mkDecoded (concat pieces) (Some (mkDeleteSet (Some ids)))))) c x).
  rewrite (wire_order_content _ _ _ (sd_mergeable _ Hs)). destruct (replaced_content l ids l pieces c x Hg Hpc) as [H3 H4].
  unfold content. cbn [Structs]. split; [done|]. intros [?|?]%H4; [by left|right]. by exists ids.
Qed.

(** The snapshot decoded from a document. *)
Lemma DecodePersistedSnapshotV2_document u d : document u d → DecodePersistedSnapshotV2 u = persistedSnapshotFromDecodedUpdate d.
Proof.
  intros Hu. unfold DecodePersistedSnapshotV2, DecodePersistedSnapshotV2Context. cbn [live mbind result_bind].
  destruct u as [|b u]; [by pose proof (doc_format _ _ Hu)|]. unfold FormatFromUpdate, DetectUpdateFormatWithReason.
  rewrite (doc_format _ _ Hu). cbn [known mbind result_bind]. rewrite decide_False by (intros H; by apply H).
  by rewrite (doc_decoded _ _ Hu).
Qed.
