(* ===== verification/ReplaySpec.v ===== *)
(** * What recovery and compaction guarantee

    Recovery takes the log exactly as it is at one moment; what can go wrong when
    a compaction runs at the same time; and the document a replay rebuilds. *)
From stdpp Require Import relations.
From S2P Require Import Prelude GoError Ranges IdSet YTypes DeleteSet Decoder Update UpdateFacts UpdateEncode Aggregate Merge MergeFacts MergeSpec StorageTypes MemoryStore StoreSpec Effects DecoderV2 EncodeV2 Facade Gc Snapshot Replay ReplayFacts CodecV2Facts ReplayDocs.
#[local] Open Scope io_scope.

(** ** Recovery *)

Section recovery.
Variable pool : list bytes → Run * Run.
Variable key : DocumentKey.
Hypothesis key_ok : DocumentKey_Validate key = None.

(** The log behind [from] fails the check of epochs somewhere. *)
Definition regresses (pos : position) (s : Store) : Prop := ¬ accepted key pos (behind key (Through pos) s).

Lemma accepted_prefix pos rs rs' : rs `prefix_of` rs' → accepted key pos rs' → accepted key pos rs.
Proof. intros [k ->] Ha. by apply accepted_app in Ha as [? _]. Qed.

(** The records listed, with the position behind them. *)
Lemma tail_spec fuel from e limit s : sound s →
  wp_others key from (listReplayTailContext fuel true key from limit e) (λ r s', kept key from s s' ∧
    match r with
    | Ok (rs, pos) => rs = behind key from s' ∧ pos = end_pos (mkPosition from e) rs ∧ accepted key (mkPosition from e) rs
    | Err err => (err = FuelExhausted ∧ (fuel ≤ length (behind key from s'))%nat) ∨ regresses (mkPosition from e) s'
    end) s.
Proof.
  intros Hs. unfold listReplayTailContext, tail_loop. cbn [negb].
  eapply wp_mono; [|eapply (page_loop_spec key limit (tail_inv key (mkPosition from e))) with (rs := [])].
  - cbn beta. intros r s' [K Hr]. split; [done|]. destruct r as [[rs pos]|err]; cbn in Hr.
    + destruct Hr as [[= -> ->] Ha]. done.
    + destruct Hr as [[-> Hf]|(rs' & page & acc & [-> Ha] & Hp & E)]; [left; split; [done|lia]|right].
      cbn [fst snd] in E. intros Hacc. apply (accepted_prefix _ _ _ Hp), accepted_app in Hacc as [_ Hacc].
      assert (tail_records key (Some <$> page) rs' (end_pos (mkPosition from e) rs') = Ok (rs' ++ page, end_pos (end_pos (mkPosition from e) rs') page));
        [by apply tail_records_Ok|congruence].
  - intros rs acc [-> _]. cbn. by rewrite end_pos_Through.
  - intros rs acc page acc' Hi _ E. by eapply tail_inv_step.
  - done.
  - done.
  - by split.
  - apply prefix_nil.
Qed.

Definition unchanged (base : PersistedSnapshot * Z * Z) (from : Z) : RecoveryResult :=
  mkRecovery base.1.1 [] base.1.2 base.2 (mkPosition from base.2).

(** What [RecoverSnapshot] makes of the records behind the stored snapshot. *)
Definition recovered (base : PersistedSnapshot * Z * Z) (from : Z) (rs : list UpdateLogRecord) : result RecoveryResult :=
  match rs with
  | [] => Ok (unchanged base from)
  | _ =>
      snapshot ← replayed_snapshot pool base.1.1 rs;
      Ok (mkRecovery snapshot rs base.1.2 base.2 (end_pos (mkPosition from base.2) rs))
  end.

(** C12: Recovery reads a consistent cut of the log.  While other processes use the
    store in any way, except to save a snapshot of the document or to trim its log
    behind the checkpoint, the result is that of the log as it was at one moment
    of the call: no record is missing or taken twice, whatever the size of the
    pages.  It only fails on an epoch that goes back or on what the records
    themselves make of the replay; a page more than there are records is enough. *)
Theorem recovery_exact (fuel : nat) (after limit : Z) (s : Store) (base : PersistedSnapshot * Z * Z) (from : Z)
    (Hs : sound s) (Hbase : stored_base key s = Ok base) (Hfrom : replay_after base.1.2 after = Ok from) :
  wp_others key from (RecoverSnapshot pool fuel true true key after limit) (λ r s',
    kept key from s s' ∧ ∃ s1, kept key from s s1 ∧ kept key from s1 s' ∧
      let rs := behind key from s1 in
      (r = Err FuelExhausted ∧ (fuel ≤ length rs)%nat) ∨
      (∃ err, r = Err err ∧ regresses (mkPosition from base.2) s1) ∨
      (accepted key (mkPosition from base.2) rs ∧ r = recovered base from rs)) s.
Proof.
  unfold RecoverSnapshot. rewrite key_ok. cbn [io_require]. apply wp_then.
  eapply wp_mono; [|apply (load_spec key from key_ok s base Hs Hbase)]. cbn beta. intros x s0 [K0 ->].
  destruct base as [[base t] e]. cbn [fst snd] in *. rewrite Hfrom. cbn [negb]. apply wp_then.
  eapply wp_mono; [|apply tail_spec, K0]. cbn beta. intros x s1 [K1 Hx]. pose proof (kept_trans _ _ _ _ _ K0 K1) as K.
  destruct x as [[rs pos]|err].
  - destruct Hx as (-> & -> & Ha). destruct (behind key from s1) as [|r rs] eqn:E.
    + split; [done|]. exists s1. split_and!; [done|by apply kept_refl, K|]. rewrite E. right. right. done.
    + rewrite <- E. apply wp_then. eapply wp_mono; [|apply (ReplaySnapshot_spec pool key from); [apply K|by rewrite E|]].
      * cbn beta. intros x s2 [K2 ->]. rewrite E in *. destruct (replayed_snapshot _ _ _) as [p|err] eqn:Ep;
          (split; [by eapply kept_trans|]; exists s1; split_and!; [done..|]; rewrite E; right; right; split; [done|]; unfold recovered; cbn [fst snd]; by rewrite Ep).
      * eapply Forall_impl; [apply (log_records key from s1); [apply K|done]|]. by intros r' [_ ?].
  - split; [done|]. exists s1. split_and!; [done|by apply kept_refl, K|]. destruct Hx as [[-> Hf]|Hx]; [by left|right; left; by exists err].
Qed.

(** ** Compaction *)

(** The log replayed, with the update it gives. *)
Lemma replay_spec fuel base after limit e s : sound s →
  wp_others key after (replayUpdateLogContext pool fuel true key base after limit e) (λ r s', kept key after s s' ∧ ∀ res, r = Ok res →
    ∃ s1 u0 u, kept key after s s1 ∧ kept key after s1 s' ∧ let rs := behind key after s1 in
      EncodePersistedSnapshotV2 base = Ok u0 ∧ replayed pool u0 rs u ∧ DecodePersistedSnapshotV2 u = Ok (rep_Snapshot res) ∧
      rep_Position res = end_pos (mkPosition after e) rs ∧ rep_Applied res = length rs ∧ accepted key (mkPosition after e) rs) s.
Proof.
  intros Hs. unfold replayUpdateLogContext. cbn [negb]. rewrite key_ok. cbn [io_require].
  destruct (EncodePersistedSnapshotV2 base) as [u0|err]; [|by split; [apply kept_refl|]]. apply wp_then.
  eapply wp_mono; [|eapply (page_loop_spec key limit (replay_inv pool key u0 (mkPosition after e))) with (rs := [])].
  - cbn beta. intros x s1 [K1 Hx]. destruct x as [[[u pos] n]|err]; [|done]. destruct Hx as (Hp & Hn & Ha & Hu). cbn [fst snd] in *.
    apply wp_then. eapply wp_mono; [|apply decode_spec, K1]. cbn beta. intros x s2 [K2 ->].
    destruct (DecodePersistedSnapshotV2 u) as [p|] eqn:Ep; cbn [wp]; (split; [by eapply kept_trans|]); [|done].
    intros res [= <-]. exists s1, u0, u. cbn [rep_Snapshot rep_Position rep_Applied]. by split_and!.
  - intros rs acc (Hp & _). rewrite Hp. by rewrite end_pos_Through.
  - intros rs acc page acc' Hi _ E. by eapply replay_inv_step.
  - done.
  - done.
  - split_and!; [done..|constructor].
  - apply prefix_nil.
Qed.

Definition is_log_read (a : log_op) : Prop := match a with LogCtxErr | DoListUpdates _ _ _ => True | _ => False end.

Lemma page_loop_reads {A} pos_of take limit fuel (acc : A) : only is_log_read (page_loop pos_of take key limit fuel acc).
Proof.
  revert acc. induction fuel as [|fuel IH]; intros acc; [done|]. cbn [page_loop]. split; [done|]. intros [err|]; [done|].
  split; [done|]. intros [[|r page]|err]; [done| |done]. cbn. destruct (take _ acc); [apply IH|done].
Qed.

Lemma replay_reads fuel base after limit e : only is_log_read (replayUpdateLogContext pool fuel true key base after limit e).
Proof.
  unfold replayUpdateLogContext. cbn [negb]. rewrite key_ok. cbn [io_require]. destruct (EncodePersistedSnapshotV2 base); [|done].
  apply only_then; [apply page_loop_reads|]. intros [[u pos] n]. apply only_then; [by split|done].
Qed.

Lemma read_same a i (s : Store) : is_log_read a → (answer a i s).2 = s.
Proof. by destruct a. Qed.

(** The snapshot [m] goes through the records [rs] and is the base merged with them. *)
Definition checkpoint_of (base : option PersistedSnapshot) (after : Z) (rs : list UpdateLogRecord) (m : memorySnapshotRecord) : Prop :=
  ms_through m = last_offset after rs ∧ ∃ u0 u p, EncodePersistedSnapshotV2 base = Ok u0 ∧ replayed pool u0 rs u ∧
    DecodePersistedSnapshotV2 u = Ok p ∧ EncodePersistedSnapshotV2 (Some p) = Ok (ms_updateV2 m).

(** The new snapshot is stored, and the log still has the records behind it. *)
Definition compacted (base : option PersistedSnapshot) (after : Z) (s0 s : Store) : Prop :=
  sound s ∧ ∃ m rs, items s !! key = Some m ∧ checkpoint_of base after rs m ∧
    behind key after s0 `prefix_of` rs ++ behind key (ms_through m) s.

(** Every record that was behind [after] in [s0] is still in the log, or is in the
    stored snapshot. *)
Definition nothing_lost (base : option PersistedSnapshot) (after : Z) (s0 s : Store) : Prop :=
  kept key after s0 s ∨ compacted base after s0 s.

Lemma checkpoint_above base after rs m : Forall (λ r, after < ul_Offset r) rs → checkpoint_of base after rs m → after <= ms_through m.
Proof. intros Hr [-> _]. by apply last_offset_above. Qed.

Lemma kept_later after t s s' : after <= t → kept key after s s' → kept key t s s'.
Proof.
  intros Ht [Hs [k Hk] Hi]. split; [done| |done]. rewrite !(behind_behind key after t) by done. rewrite Hk, filter_app. by eexists.
Qed.

(** The store after the save: the log is as before. *)
Lemma saved_compacted base after s0 s s' m rs : kept key after s0 s → rs `prefix_of` behind key after s → checkpoint_of base after rs m →
  behind key after s0 `prefix_of` behind key after s →
  sound s' → items s' !! key = Some m → updateLogs s' = updateLogs s → compacted base after s0 s'.
Proof.
  intros K [rest Hrest] Hm [k Hk] Hs' Hi Hl. split; [done|]. exists m, rs. split_and!; [done..|].
  assert (behind key (ms_through m) s' = rest) as ->.
  { rewrite (proj1 Hm). apply (behind_last key after); [apply Hs'|]. unfold behind. by rewrite Hl. }
  rewrite <- Hrest. by exists k.
Qed.

(** Others leave it so, and so does the trim. *)
Lemma compacted_kept base after s0 s s' : compacted base after s0 s → (∀ m, items s !! key = Some m → after <= ms_through m) →
  kept key after s s' → compacted base after s0 s'.
Proof.
  intros [Hs (m & rs & Hi & Hm & Hp)] Ha K. split; [apply K|]. exists m, rs. rewrite (kept_item _ _ _ _ K). split_and!; [done..|].
  destruct (kept_log _ _ _ _ (kept_later _ (ms_through m) _ _ (Ha m Hi) K)) as [k ->]. rewrite app_assoc. by apply prefix_app_r.
Qed.

Lemma compacted_trim base after s0 s t : compacted base after s0 s → (∀ m, items s !! key = Some m → t <= ms_through m) →
  sound (trim_records key t s) → compacted base after s0 (trim_records key t s).
Proof.
  intros [Hs (m & rs & Hi & Hm & Hp)] Ht Hs'. split; [done|]. exists m, rs.
  destruct (trim_records_same key t s) as (_ & _ & _ & _ & ->). split_and!; [done..|]. rewrite trim_behind; [done|apply Hs|].
  right. by apply Ht.
Qed.

(** A save either fails and changes nothing or stores the encoded snapshot. *)
Definition saves (p : PersistedSnapshot) (through : Z) (s : Store) (r : result (option SnapshotRecord) * Store) : Prop :=
  match r.1 with
  | Err _ => r.2 = s
  | Ok _ => ∃ m, r.2 = set_items <[key := m]> s ∧ ms_key m = key ∧ ms_through m = through ∧
      EncodePersistedSnapshotV2 (Some p) = Ok (ms_updateV2 m)
  end.

Lemma save_epoch_saves p through epoch i s :
  saves p through s (answer (DoSaveSnapshotCheckpointEpoch key (Some p) through epoch) i s).
Proof.
  cbn [answer memory_log]. unfold saves, SaveSnapshotCheckpointEpoch. destruct (guard_err _); [done|]. unfold encode_persisted.
  destruct (EncodePersistedSnapshotV2 (Some p)) as [u|] eqn:E; [|done]. cbn. eexists. by split_and!.
Qed.

Lemma save_authoritative_saves p through fence i s :
  saves p through s (answer (DoSaveSnapshotCheckpointAuthoritative key (Some p) through fence) i s).
Proof.
  cbn [answer memory_log]. unfold saves, SaveSnapshotCheckpointAuthoritative. destruct (guard_err _); [done|].
  destruct (AuthorityFence_Validate _); [done|]. unfold encode_persisted.
  destruct (EncodePersistedSnapshotV2 (Some p)) as [u|] eqn:E; [|done]. destruct (validateAuthorityLocked _ _ _ _); [done|].
  cbn. eexists. by split_and!.
Qed.

Lemma saves_compacted base after s0 s rs u0 u p r record : kept key after s0 s → rs `prefix_of` behind key after s →
  EncodePersistedSnapshotV2 base = Ok u0 → replayed pool u0 rs u → DecodePersistedSnapshotV2 u = Ok p →
  saves p (last_offset after rs) s (Ok record, r) → compacted base after s0 r ∧ ∀ m, items r !! key = Some m → ms_through m = last_offset after rs.
Proof.
  intros K Hrs E0 Hu Ep Hm. unfold saves in Hm. cbn [fst snd] in Hm. destruct Hm as (m & -> & Hk & Ht & Em). split.
  - eapply (saved_compacted base after s0 s _ m rs); [done..| |apply K| |cbn; by rewrite lookup_insert_eq|done].
    + split; [done|]. by exists u0, u, p.
    + split; [apply store_ok_snapshot; [apply K|done..]|apply (kept_sound _ _ _ _ K)].
  - intros m'. cbn. rewrite lookup_insert_eq. by intros [= <-].
Qed.

(** Both trims change nothing, or trim. *)
Definition trims (through : Z) (s s' : Store) : Prop := s' = s ∨ s' = trim_records key through s.

Lemma trim_trims through i s : trims through s (answer (DoTrimUpdates key through) i s).2.
Proof. cbn. unfold TrimUpdates. destruct (guard_err _); [by left|by right]. Qed.

Lemma trim_authoritative_trims through fence i s : trims through s (answer (DoTrimUpdatesAuthoritative key through fence) i s).2.
Proof. cbn. unfold TrimUpdatesAuthoritative. destruct (guard_err _); [by left|]. destruct (validateAuthorityLocked _ _ _ _); [by left|by right]. Qed.

Lemma trims_compacted base after s0 s s' s'' t : after <= t → compacted base after s0 s → (∀ m, items s !! key = Some m → ms_through m = t) →
  kept key after s s' → trims t s' s'' → compacted base after s0 s''.
Proof.
  intros Ha Hc Ht K Htr. assert (compacted base after s0 s') as Hc'.
  { eapply compacted_kept; [done| |done]. intros m Hm. by rewrite (Ht m Hm). }
  destruct Htr as [->| ->]; [done|]. apply compacted_trim; [done| |].
  - intros m. rewrite (kept_item _ _ _ _ K). intros Hm. by rewrite (Ht m Hm).
  - destruct (kept_sound _ _ _ _ K) as [Hs Hn]. split; [by apply store_ok_trim|].
    destruct (trim_records_same key t s') as (_ & _ & -> & _). done.
Qed.

Abbreviation always_others after := (always (rtc (others key after)) alive).

(** The two writes of a compaction, once the log is replayed. *)
Lemma save_then_trim {B} base after s s1 rs u0 u p save (k : log_reply save → io B) (r_of : log_reply save → result (option SnapshotRecord)) :
  kept key after s s1 → rs `prefix_of` behind key after s1 →
  EncodePersistedSnapshotV2 base = Ok u0 → replayed pool u0 rs u → DecodePersistedSnapshotV2 u = Ok p →
  (∀ i s, saves p (last_offset after rs) s (r_of (answer save i s).1, (answer save i s).2)) →
  (∀ x, match r_of x with
        | Err _ => ∃ b, k x = Ret b
        | Ok _ => ∃ trim f, k x = Act trim (λ r, Ret (f r)) ∧ ∀ i s, trims (last_offset after rs) s (answer trim i s).2
        end) →
  always_others after (nothing_lost base after s) (Act save k) s1.
Proof.
  intros K1 Hrs E0 Hu Ep Hsave Hk. split; [by left|]. intros s2 i2 R2 _.
  pose proof (rtc_others_kept _ _ _ _ (kept_sound _ _ _ _ K1) R2) as K2. pose proof (kept_trans _ _ _ _ _ K1 K2) as K.
  specialize (Hsave i2 s2). destruct (answer save i2 s2) as [x s3]. cbn [fst snd] in *. specialize (Hk x).
  destruct (r_of x) as [record|err].
  - destruct (saves_compacted base after s s2 rs u0 u p s3 record K) as [Hc Ht]; [|done..|].
    { etrans; [done|apply (kept_log _ _ _ _ K2)]. }
    destruct Hk as (trim & f & -> & Htrim). split; [by right|]. intros s4 i4 R4 _. split; [|done]. right.
    eapply (trims_compacted base after s s3 s4); [|done|done|apply rtc_others_kept; [apply Hc|done]|apply Htrim].
    apply last_offset_above. destruct Hrs as [rest Hrest]. pose proof (behind_above key after s1) as Hab. rewrite Hrest in Hab. by apply Forall_app in Hab as [? _].
  - destruct Hk as [b ->]. unfold saves in Hsave. cbn in Hsave. subst s3. split; [|done]. by left.
Qed.

(** Reading loses nothing. *)
Lemma reads_always {A} (m : io A) base after s s' : only is_log_read m → kept key after s s' →
  always_others after (nothing_lost base after s) m s'.
Proof.
  intros Ho K. revert s' K. induction m as [x|a k IH]; intros s' K; (split; [by left|]); [done|].
  destruct Ho as [Ha Ho]. intros s1 i R1 _. apply IH; [done|]. rewrite read_same by done.
  eapply kept_trans; [done|]. apply rtc_others_kept; [apply K|done].
Qed.

(** C11: A compaction never loses a record, wherever it stops.  While other processes
    do anything but compact the same document, at every moment of the call, plain or
    fenced, each record that was behind [after] is in the log or in the stored
    snapshot: the snapshot then is the base merged with the records up to its
    offset, and the log has all records behind it. *)
Theorem compaction_safe (fuel : nat) (base : option PersistedSnapshot) (after limit : Z) (fence : AuthorityFence) (s : Store) (Hs : sound s) :
  always (rtc (others key after)) alive (nothing_lost base after s)
    (CompactUpdateLogContext pool fuel (Some CheckpointEpoch) key base after limit) s ∧
  always (rtc (others key after)) alive (nothing_lost base after s)
    (CompactUpdateLogAuthoritativeContext pool fuel true key base after limit fence) s.
Proof.
  pose proof (kept_refl key after s Hs) as K0.
  split; [unfold CompactUpdateLogContext|unfold CompactUpdateLogAuthoritativeContext; cbn [negb]; destruct (AuthorityFence_Validate fence); [by split; [left|]|]];
    (apply always_bind; [by apply reads_always; [apply replay_reads|]|]);
    (eapply wp_mono; [|by apply replay_spec]); cbn beta; intros r s1 [K1 Hr]; (destruct r as [res|err]; [|by split; [left|]]);
    destruct (Hr res eq_refl) as (s0 & u0 & u & _ & K01 & E0 & Hu & Ep & Epos & _); (destruct (_ =? 0)%nat; [by split; [left|]|]);
    pose proof (end_pos_Through (mkPosition after 0) (behind key after s0)) as ET; cbn [Through] in ET.
  - cbn [saveSnapshotCheckpoint]. lazymatch goal with |- always _ _ _ (act ?save ≫= ?k) _ =>
      eapply (save_then_trim base after s s1 (behind key after s0) u0 u _ save k (λ r, r)) end; [done|apply (kept_log _ _ _ _ K01)|done..| |].
    + intros i s'. rewrite Epos, ET. destruct (answer _ i s') eqn:E. rewrite <- E. apply save_epoch_saves.
    + intros [record|err]; [|by eexists]. eexists _, _. split; [done|]. intros i s'. rewrite Epos, ET. apply trim_trims.
  - lazymatch goal with |- always _ _ _ (act ?save ≫= ?k) _ =>
      eapply (save_then_trim base after s s1 (behind key after s0) u0 u _ save k (λ r, r)) end; [done|apply (kept_log _ _ _ _ K01)|done..| |].
    + intros i s'. cbn [raise_epoch Through]. rewrite Epos, ET. destruct (answer _ i s') eqn:E. rewrite <- E. apply save_authoritative_saves.
    + intros [record|err]; [|by eexists]. eexists _, _. split; [done|]. intros i s'.
      destruct record; cbn [raise_epoch Through]; rewrite Epos, ET; apply trim_authoritative_trims.
Qed.

End recovery.

(** ** The recovered document *)

Lemma convert_records_payloads rs v2s payloads : Forall2 payload_of rs v2s → convert_records rs payloads = Ok (payloads ++ v2s).
Proof.
  intros H. revert payloads. induction H as [|r v rs v2s Hr _ IH]; intros payloads; unfold convert_records in *; cbn [fold_result].
  - by rewrite app_nil_r.
  - rewrite Hr. cbn [map_err mbind result_bind]. rewrite IH. by rewrite <- app_assoc.
Qed.

(** What decoding the merge gives. *)
Definition received (d : DecodedUpdate) : DecodedUpdate := mkDecoded (wire <$> update_order (Structs d)) (du_DeleteSet d).

Section document.
Context (pool : list bytes → Run * Run) {base : PersistedSnapshot} {rs : list UpdateLogRecord} {u0 : bytes} {d0 : DecodedUpdate}
  {v2s : list bytes} {ds : list DecodedUpdate}.
Hypothesis Hbase : EncodePersistedSnapshotV2 (Some base) = Ok u0.
Hypothesis H0 : document u0 d0.
Hypothesis Hrs : Forall2 payload_of rs v2s.
Hypothesis Hds : Forall2 document v2s ds.
Hypothesis Hpool : complete (pool (u0 :: v2s)).1 (pool (u0 :: v2s)).2 (u0 :: v2s).
Hypothesis Hsmall : ∀ d, merged_document (d0 :: ds) = Ok d →
  small d ∧ ∀ d', garbageCollectDeletedContent (received d) = Ok d' → small d'.

(** [p] holds the document that is the union of [d0] and [ds]. *)
Definition union_snapshot (p : PersistedSnapshot) : Prop :=
  ∃ d', document (Snapshot.UpdateV2 p) d' ∧
    (∀ c x, (Exists (λ d, content d c x) (d0 :: ds) → content d' c x) ∧
            (content d' c x → Exists (λ d, content d c x) (d0 :: ds) ∨ Exists (λ d, deleted d c x) (d0 :: ds))) ∧
    (∀ c x, deleted d' c x ↔ Exists (λ d, deleted d c x) (d0 :: ds)).

Lemma replayed_union : ∃ p, replayed_snapshot pool base rs = Ok p ∧ union_snapshot p.
Proof.
  unfold replayed_snapshot. rewrite Hbase. cbn [mbind result_bind]. rewrite (convert_records_payloads _ _ _ Hrs). cbn [mbind result_bind app].
  destruct (MergeUpdatesV2_spec _ _ (u0 :: v2s) (d0 :: ds) ltac:(done) ltac:(by constructor) Hpool) as (d & Ed & Em & Hs & Hc & Hdel).
  destruct (Hsmall d Ed) as [Hsm Hgc]. destruct (sendable_encodes d Hs Hsm) as (_ & u & _ & Eu).
  pose proof (sendable_document d u Hs Hsm Eu) as Hdoc. fold (received d) in Hdoc.
  unfold merge. rewrite Em, Eu. cbn [mbind result_bind]. rewrite (DecodePersistedSnapshotV2_document _ _ Hdoc).
  destruct (persisted_document (received d) (doc_sendable _ _ Hdoc) Hgc) as (p & d' & Ep & Hp & Hcon & Eds).
  assert (∀ c x, deleted (received d) c x ↔ deleted d c x) as Hdr by done.
  assert (∀ c x, deleted d' c x ↔ deleted d c x) as Hdd by (intros c x; unfold deleted; by rewrite Eds).
  exists p. split; [done|]. exists d'. split; [done|]. split; intros c x; [|by rewrite Hdd].
  destruct (Hcon c x) as [H1 H2]. rewrite (wire_order_content d c x (sd_mergeable _ Hs)), Hdr, Hc, Hdel in *. done.
Qed.

(** C13: Recovery rebuilds the document.  Let the stored base encode to a document and
    each record of the log carry one, in V2 or in V1 to be converted.  If the merge
    and what garbage collection makes of it stay within the counters of the format,
    the replay succeeds, and the snapshot it returns is a document with the
    contents of the base and of every record; anything else it may have is deleted
    in one of them, and its deletes are exactly theirs. *)
Theorem replayed_document (key : DocumentKey) (after : Z) (s : Store) (Hs : sound s) (Hne : rs ≠ [])
    (Hv : Forall (λ r, UpdateLogRecord_Validate r = None) rs) :
  wp_others key after (ReplaySnapshot pool (Some base) (Some <$> rs)) (λ r _, ∃ p, r = Ok p ∧ union_snapshot p) s.
Proof.
  destruct replayed_union as (p & Ep & Hp). eapply wp_mono; [|by apply ReplaySnapshot_spec].
  cbn. intros r s' [_ ->]. by exists p.
Qed.

End document.

(** ** Races with a compaction *)

Definition sample_pool (payloads : list bytes) : Run * Run :=
  let all := list_to_set (seq 0 (length payloads)) in (mkRun 4 all None, mkRun 4 all None).

Definition doc_key : DocumentKey := mkDocumentKey [110] [100].

(** Client [c] wrote one clock, since collected. *)
Definition one_update (c : Z) : bytes := [1; 1; c; 0; 0; 1; 0].

Definition compaction : io (option UpdateLogCompactionResult * option error) :=
  CompactUpdateLogContext sample_pool 9 (Some CheckpointEpoch) doc_key None 0 0.

Definition calm (n : nat) : list instant := replicate n (mkInstant None 10).

Definition append_one (c : Z) (s : Store) : Store := (AppendUpdate convert_update None 1 doc_key (one_update c) s).2.
Definition compact_now (s : Store) : Store := match run compaction (calm 20) s with Some (_, s') => s' | None => s end.

(** Another process appends an update or compacts the log. *)
Inductive colleague (s : Store) : Store → Prop :=
| colleague_append c : colleague s (append_one c s)
| colleague_compact : colleague s (compact_now s).

(** The clients a stored or recovered document knows. *)
Definition known_clients (p : PersistedSnapshot) : list Z := match ps_Snapshot p with Some s => elements (dom (s_StateVector s)) | None => [] end.

Definition recovery : io (result RecoveryResult) := RecoverSnapshot sample_pool 9 true true doc_key 0 0.

Definition recovered_clients (r : option (result RecoveryResult * Store)) : option (list Z) :=
  match r with Some (Ok res, _) => Some (known_clients (rec_Snapshot res)) | _ => None end.

Lemma finished_exec {A} (m : io A) ts s (P : A → Store → Prop) :
  Forall (λ t, (∀ s, rtc colleague s (t.1 s)) ∧ alive t.2) ts →
  match run_among m ts s with Some (x, s') => P x s' | None => False end →
  ∃ x s', exec (rtc colleague) alive m s x s' ∧ P x s'.
Proof.
  intros Ht. destruct (run_among m ts s) as [[x s']|] eqn:E; [|done]. intros HP. exists x, s'. split; [|done].
  by eapply run_among_exec.
Qed.

Lemma idle_ok n : Forall (λ t, (∀ s : Store, rtc colleague s (t.1 s)) ∧ alive t.2) ((id,.) <$> calm n).
Proof. apply Forall_fmap, Forall_replicate. split; [by intros s|done]. Qed.

(** A recovery that loads the snapshot before a compaction and lists the log
    behind it gets neither: the document is empty although two updates had been
    logged before, and before and after it a recovery finds them. *)
Theorem recovery_misses_compacted : let s := append_one 8 (append_one 7 Store_New) in
  recovered_clients (run recovery (calm 20) s) = Some [7; 8] ∧
  ∃ r s', exec (rtc colleague) alive recovery s r s' ∧
    (recovered_clients (Some (r, s')) = Some [] ∧ recovered_clients (run recovery (calm 20) s') = Some [7; 8]).
Proof.
  split; [vm_compute; reflexivity|].
  apply (finished_exec _ ((id, mkInstant None 10) :: (compact_now, mkInstant None 10) :: ((id,.) <$> calm 20))).
  - apply Forall_cons_2; [by split|]. apply Forall_cons_2; [|apply idle_ok]. split; [|done].
    intros s. apply rtc_once, colleague_compact.
  - vm_compute. done.
Qed.

(** Of two compactions at the same time the one that listed less may save last:
    the newer checkpoint is overwritten by an older one, the update between them is
    in neither the log nor the snapshot. *)
Theorem compactions_lose_updates : let s := append_one 7 Store_New in
  ∃ r s', exec (rtc colleague) alive compaction s r s' ∧
    r.2 = None ∧ updateNext s' !! doc_key = Some 2 ∧ log s' doc_key = [] ∧
    recovered_clients (run recovery (calm 20) s') = Some [7] ∧
    recovered_clients (run recovery (calm 20) (append_one 8 s)) = Some [7; 8].
Proof.
  apply (finished_exec _ (((id,.) <$> calm 5) ++ (compact_now ∘ append_one 8, mkInstant None 10) :: ((id,.) <$> calm 20))).
  - apply Forall_app. split; [apply idle_ok|]. constructor; [|apply idle_ok]. split; [|done]. intros s. cbn.
    apply (rtc_l _ s (append_one 8 s)); [apply colleague_append|apply rtc_once, colleague_compact].
  - vm_compute. done.
Qed.

(** ** Witnesses *)

Lemma sound_new : sound Store_New.
Proof. split; [apply store_ok_new|]. intros k. cbn. unfold get0. by rewrite lookup_empty. Qed.

Lemma sound_append c s : sound s → room s → sound (append_one c s).
Proof.
  intros Hs Hr. destruct (perform (mkCall None 1 (AppendUpdate_ doc_key (one_update c))) s) as [out s'] eqn:E.
  pose proof (sound_perform _ _ _ _ Hs Hr E) as H. apply outcome_snd in E. by subst s'.
Qed.

Lemma room_of s : bool_decide (map_Forall (λ _ n, n < 1000) (updateNext s)) = true → room s.
Proof.
  intros H%bool_decide_eq_true k. unfold get0. destruct (updateNext s !! k) as [n|] eqn:E; cbn; [|lia]. specialize (H _ _ E). cbn in H. lia.
Qed.

Definition two_updates : Store := append_one 8 (append_one 7 Store_New).

Lemma two_sound : sound two_updates.
Proof. apply sound_append; [apply sound_append; [apply sound_new|]|]; apply room_of; vm_compute; reflexivity. Qed.

Lemma calm_run {A} key after (m : io A) Q n s x s' : wp_others key after m Q s → run m (calm n) s = Some (x, s') → Q x s'.
Proof.
  intros Hw. apply (wp_run (rtc (others key after)) alive); [intros ?; apply rtc_refl|by apply Forall_replicate|done].
Qed.

Lemma recovery_exact_witness : ∃ res s' s1, run recovery (calm 20) two_updates = Some (Ok res, s') ∧
  rec_Updates res = behind doc_key 0 s1 ∧ length (rec_Updates res) = 2%nat.
Proof.
  pose proof (recovery_exact sample_pool doc_key ltac:(reflexivity) 9 0 0 two_updates (NewPersistedSnapshot, 0, 0) 0
    two_sound ltac:(vm_compute; reflexivity) ltac:(reflexivity)) as H.
  pose proof (λ x s', calm_run _ _ recovery _ 20 two_updates x s' H) as Hrun. clear H.
  assert (match run recovery (calm 20) two_updates with Some (Ok res, _) => (length (rec_Updates res) =? 2)%nat | _ => false end = true) as Hok
    by (vm_compute; reflexivity).
  destruct (run recovery _ _) as [[[res|] s']|]; [|discriminate Hok..]. apply Nat.eqb_eq in Hok.
  destruct (Hrun _ s' eq_refl) as (_ & s1 & _ & _ & [[Hr _]|[(err & Hr & _)|[_ Hr]]]); [discriminate Hr..|].
  exists res, s', s1. split; [reflexivity|]. split; [|exact Hok]. unfold recovered in Hr. cbn [snd fst] in Hr.
  destruct (behind doc_key 0 s1) as [|r rs]; [injection Hr as ->; reflexivity|].
  destruct (replayed_snapshot _ _ _); cbn in Hr; [injection Hr as ->; reflexivity|discriminate Hr].
Defined.

Lemma compaction_safe_witness : ∃ x s', run compaction (calm 20) two_updates = Some (x, s') ∧
  nothing_lost sample_pool doc_key None 0 two_updates s' ∧ log s' doc_key = [].
Proof.
  destruct (compaction_safe sample_pool doc_key ltac:(reflexivity) 9 None 0 0 (mkFence [] (mkOwner [] 0) []) two_updates two_sound) as [H _].
  apply always_end in H.
  pose proof (λ x s', calm_run _ _ compaction _ 20 two_updates x s' H) as Hrun. clear H.
  assert (match run compaction (calm 20) two_updates with Some (_, s') => bool_decide (log s' doc_key = []) | _ => false end = true) as Hok
    by (vm_compute; reflexivity).
  destruct (run compaction _ _) as [[x s']|]; [|discriminate Hok]. apply bool_decide_eq_true in Hok.
  exists x, s'. split; [reflexivity|]. split; [exact (Hrun x s' eq_refl)|exact Hok].
Defined.

(** The document of [one_update]. *)
Definition one_document (c : Z) : DecodedUpdate := mkDecoded [GC (mkBase (mkID c 0) 1)] (Some NewDeleteSet).

Lemma one_sendable c : c = 7 ∨ c = 8 → sendable (one_document c).
Proof.
  intros Hc. assert (is_u32 c) by u32. split; [|repeat constructor..]. assert (good (GC (mkBase (mkID c 0) 1))) as Hg by (split; [split; [by split|done]|done]).
  split; cbn [Structs one_document].
  - constructor; [exact Hg|constructor].
  - apply contiguous_intro. cbn. constructor; [|constructor]. exists 0. by destruct Hc as [->| ->].
  - constructor; [|constructor]. exists 0. by destruct Hc as [->| ->]; apply holds_one.
  - exists IdSet_New. split; [done|apply deletes_fine_new].
Qed.

Lemma empty_sendable : sendable (mkDecoded [] (Some NewDeleteSet)).
Proof.
  split; [|constructor..]. split; [constructor|intros c; by exists 0|constructor|]. exists IdSet_New. split; [done|apply deletes_fine_new].
Qed.

Definition v2_of (c : Z) : bytes := default [] (convert_update (one_update c)).

Lemma v2_document c : c = 7 ∨ c = 8 → document (v2_of c) (one_document c).
Proof. intros Hc. split; [destruct Hc as [->| ->]; vm_compute; reflexivity..|by apply one_sendable]. Qed.

Definition record_of (offset c : Z) : UpdateLogRecord := mkUpdateLogRecord doc_key offset [] (one_update c) 0 1.

(** Both updates of the log, in V1, over an empty base. *)
Lemma replayed_document_witness : ∃ p s' d',
  run (ReplaySnapshot sample_pool (Some NewPersistedSnapshot) (Some <$> [record_of 1 7; record_of 2 8])) (calm 9) Store_New = Some (Ok p, s') ∧
  DecodeV2 (Snapshot.UpdateV2 p) = Ok d' ∧ content d' 7 0 ∧ content d' 8 0.
Proof.
  pose proof (replayed_document sample_pool (base := NewPersistedSnapshot) (rs := [record_of 1 7; record_of 2 8]) (u0 := encodeEmptyUpdateV2)
    (d0 := mkDecoded [] (Some NewDeleteSet)) (v2s := [v2_of 7; v2_of 8]) (ds := [one_document 7; one_document 8])) as H.
  assert (wp_others doc_key 0 (ReplaySnapshot sample_pool (Some NewPersistedSnapshot) (Some <$> [record_of 1 7; record_of 2 8]))
    (λ r _, ∃ p, r = Ok p ∧ union_snapshot (d0 := mkDecoded [] (Some NewDeleteSet)) (ds := [one_document 7; one_document 8]) p) Store_New) as Hw.
  { apply H; clear H.
    - vm_compute. reflexivity.
    - split; [vm_compute; reflexivity..|apply empty_sendable].
    - repeat constructor; vm_compute; reflexivity.
    - constructor; [apply v2_document; tauto|constructor; [apply v2_document; tauto|constructor]].
    - split; [reflexivity|]. split; [reflexivity|].
      split; intros _; left; intros i Hi; apply elem_of_list_to_set, elem_of_seq; (split; [lia|exact Hi]).
    - intros d Hd. vm_compute in Hd. injection Hd as <-. split; [apply (bool_decide_unpack _); vm_compute; exact I|].
      intros d' Hd'. vm_compute in Hd'. injection Hd' as <-. apply (bool_decide_unpack _). vm_compute. exact I.
    - apply sound_new.
    - discriminate.
    - repeat constructor. }
  clear H. pose proof (λ x s', calm_run _ _ (ReplaySnapshot sample_pool (Some NewPersistedSnapshot) (Some <$> [record_of 1 7; record_of 2 8])) _ 9 Store_New x s' Hw) as Hrun.
  clear Hw. assert (match run (ReplaySnapshot sample_pool (Some NewPersistedSnapshot) (Some <$> [record_of 1 7; record_of 2 8])) (calm 9) Store_New with
    Some (Ok _, _) => true | _ => false end = true) as Hok by (vm_compute; reflexivity).
  destruct (run _ _ _) as [[[p|] s']|]; [clear Hok|discriminate Hok..].
  destruct (Hrun _ s' eq_refl) as (p' & [= <-] & d' & Hp & Hc & _). exists p, s', d'. split; [reflexivity|]. split; [apply Hp|]. split.
  - apply Hc. right. left. apply (bool_decide_unpack _). vm_compute. exact I.
  - apply Hc. right. right. left. apply (bool_decide_unpack _). vm_compute. exact I.
Defined.
