(* ===== verification/WireSpec.v ===== *)
(** * Properties of the conversions to the wire of Yjs

    Rewriting the embeds of a document changes nothing else of it: the V2 form
    of a document is a document with its contents and deletes, whose embeds are
    lib0 values that decode to what the JSON said. *)
From S2P Require Import Prelude GoError Binary Ranges IdSet IdSetFacts Varint GoText YTypes DeleteSet Decoder DecoderFacts GoJson GoFloat GoAny Content Update UpdateFacts UpdateStream UpdateEncode UpdateSpec Aggregate Merge MergeFacts MergeSpec StateVector Lib0 DecoderV2 EncodeV2 Facade WireCompat Gc Snapshot Lib0Facts WireFacts CodecV2Facts CodecV2Spec SnapshotSpec FormatSpec ReplayDocs.

(** ** Structs in the same places *)

Definition same_place (s t : UStruct) : Prop := struct_base s = struct_base t ∧ struct_Kind s = struct_Kind t.

Lemma same_place_eqs s t : same_place s t → struct_clock s = struct_clock t ∧ struct_client s = struct_client t ∧
  struct_Length s = struct_Length t ∧ struct_ID s = struct_ID t ∧ isSkip s = isSkip t.
Proof. intros [Hb Hk]. unfold struct_clock, struct_client, struct_Length, struct_ID, isSkip. by rewrite Hb, Hk. Qed.

Lemma places_client c l l' : Forall2 same_place l l' → Forall2 same_place (client_structs c l) (client_structs c l').
Proof.
  induction 1 as [|s t l l' Hs _ IH]; cbn; [constructor|]. destruct (same_place_eqs s t Hs) as (_ & Hc & _). unfold client_structs in *. cbn.
  destruct (decide (struct_client s = c)); [rewrite decide_True by congruence; by constructor|by rewrite decide_False by congruence].
Qed.

Lemma places_insert s t l l' : same_place s t → Forall2 same_place l l' → Forall2 same_place (insert_by_clock s l) (insert_by_clock t l').
Proof.
  intros Hs. induction 1 as [|u v l l' Hu Hl IH]; cbn; [by constructor; [|constructor]|].
  destruct (same_place_eqs _ _ Hs) as (-> & _), (same_place_eqs _ _ Hu) as (-> & _). case_match; [by do 2 (constructor; [done|])|by constructor].
Qed.

Lemma places_sort l l' : Forall2 same_place l l' → Forall2 same_place (sort_by_clock l) (sort_by_clock l').
Proof. induction 1 as [|s t l l' Hs _ IH]; cbn; [constructor|]. by apply places_insert. Qed.

Lemma places_chain c k l l' : Forall2 same_place l l' → chain c k l → chain c k l'.
Proof.
  intros Hl. revert k. induction Hl as [|s t l l' Hs _ IH]; intros k; cbn; [done|].
  destruct (same_place_eqs _ _ Hs) as (_ & _ & -> & -> & _). intros [? ?]. split; [done|by apply IH].
Qed.

Lemma places_holds l l' x : Forall2 same_place l l' → holds l x ↔ holds l' x.
Proof.
  unfold holds. induction 1 as [|s t l l' Hs _ IH]; [by rewrite !Exists_nil|]. rewrite !Exists_cons, IH.
  destruct (same_place_eqs _ _ Hs) as (H1 & _ & H2 & _ & H3). unfold struct_end. by rewrite H1, H2, H3.
Qed.

Lemma places_content l l' ds c x : Forall2 same_place l l' → content (mkDecoded l ds) c x ↔ content (mkDecoded l' ds) c x.
Proof. intros Hl. unfold content, has_content. cbn [Structs]. by apply places_holds, places_client. Qed.

Lemma places_mergeable l l' ds : Forall2 same_place l l' → Forall good l' → mergeable_update (mkDecoded l ds) → mergeable_update (mkDecoded l' ds).
Proof.
  intros Hl Hg [_ Hc Hn Hd]. cbn [Structs du_DeleteSet] in *. split; cbn [Structs du_DeleteSet]; [done| | |done].
  - intros c. destruct (Hc c) as [k Hk]. exists k. eapply places_chain; [|exact Hk]. by apply places_sort, places_client.
  - apply Forall_forall. intros t Ht. apply list_elem_of_lookup in Ht as [i Hi]. destruct (Forall2_lookup_r _ _ _ _ _ Hl Hi) as (s & Hs & Hst).
    destruct (same_place_eqs _ _ Hst) as (_ & <- & _). rewrite Forall_forall in Hn. destruct (Hn s) as [x Hx]; [by eapply list_elem_of_lookup_2|].
    exists x. by apply (places_holds _ _ x (places_client (struct_client s) _ _ Hl)).
Qed.

(** ** Rewritten structs *)

(** Only the payload of an embed differs. *)
Inductive rewritten : UStruct → UStruct → Prop :=
| rewritten_same s : rewritten s s
| rewritten_embed i raw : Ref (ItemContent i) = itemContentEmbed → json_value raw →
    rewritten (SItem i) (SItem (with_content (with_raw raw (ItemContent i)) i)).

Lemma rewritten_place s t : rewritten s t → same_place s t.
Proof. by destruct 1. Qed.

Lemma embed_with_raw c raw : content_ok c → Ref c = itemContentEmbed → json_value raw →
  content_ok (with_raw raw c) ∧ LengthVal (with_raw raw c) = LengthVal c.
Proof. destruct 1; try done. intros _ Hr. split; [by constructor|done]. Qed.

Lemma rewritten_good s t : rewritten s t → good s → good t.
Proof.
  destruct 1 as [|i raw Hr Hj]; [done|]. intros [[Hb (Hc & Hl & Hi)] Hf]. destruct (embed_with_raw _ raw Hc Hr Hj) as [Hc' Hl'].
  split; [|done]. split; [done|]. split; [done|]. split; [by etrans; [exact Hl'|exact Hl]|done].
Qed.

Lemma rewritten_plain s t : rewritten s t → plain s → plain t.
Proof. by destruct 1. Qed.

(** A payload converted to lib0, read anywhere. *)
Lemma converted_json_value raw raw' : json_value raw → is_bytes raw → short raw' → anyOrJSONRawToAnyRaw raw = Ok raw' → json_value raw'.
Proof.
  intros Hj Hb Hs. unfold anyOrJSONRawToAnyRaw. destruct (decodeLib0AnyRawExact raw); [by intros [= <-]|].
  destruct (decodeV1JSONRaw raw) as [v|] eqn:E; [|done]. cbn. intros Ho. left. by eapply json_to_lib0.
Qed.

Lemma raw_small_short v : raw_small v → short v.
Proof. intros [_ ?]. unfold short, maxDecodedCollectionLength in *. lia. Qed.

Lemma rewrite_struct_V2 s t : rewrite_struct anyOrJSONRawToAnyRaw s = Ok t → plain s → struct_v2 s → struct_v2 t → good s → rewritten s t.
Proof.
  destruct s as [b|b|i]; cbn; [by intros [= <-] *; constructor..|]. unfold rewrite_content, mbind, result_bind. unfold keyed.
  intros H [Hf _]%orb_false_iff [Hv _] Hv' [[_ (Hc & _)] _]. destruct (Z.eqb_spec (Ref (ItemContent i)) itemContentEmbed) as [Hr|Hr].
  - destruct (anyOrJSONRawToAnyRaw _) as [raw|] eqn:E; [|done]. injection H as <-. destruct Hv' as [Hv' _].
    cbn in Hv'. destruct Hv as (_ & _ & _ & _ & Hsm), Hv' as (_ & _ & _ & _ & Hsm'). unfold raw_value in Hsm, Hsm'. cbn in Hsm'. rewrite Hr in *. cbn in Hsm, Hsm'.
    apply rewritten_embed; [done|]. eapply converted_json_value; [|apply Hsm|by apply raw_small_short|exact E]. by destruct Hc.
  - rewrite Hf in H. injection H as <-. destruct i. constructor.
Qed.

Lemma rewrite_structs_V2 l l' : rewrite_structs anyOrJSONRawToAnyRaw l = Ok l' → Forall plain l → Forall struct_v2 l → Forall struct_v2 l' → Forall good l →
  Forall2 rewritten l l'.
Proof.
  revert l'. induction l as [|s l IH]; intros l'; cbn; [by intros [= <-]; constructor|].
  destruct (rewrite_struct _ s) as [t|] eqn:E; [|done]. cbn. destruct (rewrite_structs _ l) as [r|] eqn:E1; [|done]. cbn. intros [= <-].
  intros [? ?]%Forall_cons [? ?]%Forall_cons [? ?]%Forall_cons [? ?]%Forall_cons. constructor; [by apply rewrite_struct_V2|by apply IH].
Qed.

Lemma rewrite_V2_sendable d d' : sendable d → rewriteEmbedAndFormatToV2AnyWire d = Ok d' → Forall struct_v2 (Structs d') →
  sendable d' ∧ (∀ c x, content d' c x ↔ content d c x) ∧ du_DeleteSet d' = du_DeleteSet d.
Proof.
  intros [Hm Hv Hp] Hr Hv'. destruct d as [l ds]. unfold rewriteEmbedAndFormatToV2AnyWire, rewrite in Hr. cbn [Structs du_DeleteSet] in *.
  destruct (rewrite_structs _ l) as [l'|] eqn:E; [|done]. injection Hr as <-. cbn [Structs du_DeleteSet] in *.
  pose proof (rewrite_structs_V2 _ _ E Hp Hv Hv' (mu_good _ Hm)) as Hl. pose proof (mu_good _ Hm) as Hg. cbn [Structs] in Hg.
  assert (Forall2 same_place l l') as Hpl by (eapply Forall2_impl; [exact Hl|apply rewritten_place]).
  assert (Forall good l' ∧ Forall plain l') as [Hg' Hp'].
  { clear -Hl Hg Hp. unfold keyless in Hp. induction Hl as [|s t l l' Hs _ IH]; [done|]. apply Forall_cons in Hg as [Hgs Hg]. apply Forall_cons in Hp as [Hps Hp].
    destruct IH; [done..|]. split; constructor; [by eapply rewritten_good|done|by eapply rewritten_plain|done]. }
  split_and!; [|intros c x; symmetry; by apply places_content|done]. split; cbn [Structs]; [by eapply places_mergeable|done|done].
Qed.

(** ** Properties *)


(** A V1 update with an item whose content is an embed, the JSON text [{"a":[1,2.5]}]. *)
Definition embed_update : bytes :=
  [1; 1; 5; 0; 5; 1; 1; 116; 13] ++ [123; 34; 97; 34; 58; 91; 49; 44; 50; 46; 53; 93; 125] ++ [0].

Definition embed_document : DecodedUpdate := match DecodeUpdate embed_update with Ok d => d | Err _ => mkDecoded [] None end.
Definition embed_rewritten : DecodedUpdate :=
  match rewriteEmbedAndFormatToV2AnyWire embed_document with Ok d => d | Err _ => mkDecoded [] None end.

Definition embed_item : UItem := mkItem (mkBase (mkID 5 0) 1) None None (mkParentRef [116] None) [] None ItemFlagCountable
  (mkContent itemContentEmbed 1 true 0 [] (Some (enc_str [123; 34; 97; 34; 58; 91; 49; 44; 50; 46; 53; 93; 125])) [] [] []).

Lemma embed_sendable : sendable (mkDecoded [SItem embed_item] (Some NewDeleteSet)).
Proof.
  assert (good (SItem embed_item)) as Hg.
  { split; [|done]. split; [by split|]. split; [|split; [done|]; split; [done|]; split; [done|]; intros _; split; [right; exists [116]|]; split_and!; by apply (bool_decide_unpack _)].
    apply ok_embed. right. eexists. split; [|reflexivity]. split; [by apply (bool_decide_unpack _)|cbn; lia]. }
  split; [split; cbn [Structs]| |].
  - constructor; [exact Hg|constructor].
  - apply contiguous_intro. cbn. constructor; [|constructor]. by exists 0.
  - constructor; [|constructor]. exists 0. by apply holds_one.
  - exists IdSet_New. split; [done|apply deletes_fine_new].
  - by apply (bool_decide_unpack _).
  - by apply (bool_decide_unpack _).
Qed.


(** C39: A JSON payload of a V1 update, written as a lib0 value: it is read, whole,
    at any place of an update of either format, and it decodes to the value of the
    JSON text, whose numbers are now integers of 32 bits or floats. *)
Theorem json_embed_roundtrip (raw out : bytes) (v : value)
    (Hb : is_bytes raw) (Hv : decodeV1JSONRaw raw = Ok v) (Ho : encodeLib0AnyRaw v = Ok out) (Hs : raw_small out) :
  decodeLib0AnyRawExact out = Ok (canon v) ∧
  (∀ op, reads (readJSONRawCompat op) out out) ∧ (∀ op, reads (readJSONRawCompatV2 op) out out).
Proof.
  destruct (json_to_lib0 raw v out Hb Hv Ho) as [Ha E]; [by apply raw_small_short|].
  split; [done|]. split; intros op; [apply reads_json_value|apply reads_json_value2; [|done]]; by left.
Qed.

Lemma json_embed_roundtrip_witness :
  decodeLib0AnyRawExact [118; 1; 1; 97; 117; 2; 125; 1; 124; 64; 32; 0; 0] = Ok (VObject [([97], VArray [VInt 1; VFloat 4612811918334230528])]).
Proof.
  destruct (json_embed_roundtrip [13; 123; 34; 97; 34; 58; 91; 49; 44; 50; 46; 53; 93; 125]
    [118; 1; 1; 97; 117; 2; 125; 1; 124; 64; 32; 0; 0] (VObject [([97], VArray [VNumber [49]; VNumber [50; 46; 53]])])) as [H _];
    [apply (bool_decide_unpack _); vm_compute; exact I|vm_compute; reflexivity|vm_compute; reflexivity|apply (bool_decide_unpack _); vm_compute; exact I|].
  etrans; [exact H|]. vm_compute. reflexivity.
Defined.

(** The conversion to V1 writes embeds that the package cannot read back: a JSON
    text of 116 to 127 bytes has a length prefix that is taken for a lib0 tag. *)
Definition long_embed : DecodedUpdate :=
  mkDecoded [SItem (mkItem (mkBase (mkID 7 0) 1) None None (mkParentRef [116] None) [] None ItemFlagCountable
    (mkContent itemContentEmbed 1 true 0 [] (Some (119 :: 118 :: replicate 118 120)) [] [] []))] (Some NewDeleteSet).

Definition long_V2 : bytes := match EncodeV2 (Some long_embed) with Ok u => u | Err _ => [] end.
Definition long_V1 : bytes := match ConvertUpdateToV1YjsWire long_V2 with Ok u => u | Err _ => [] end.

Theorem V1_wire_unreadable : EncodeV2 (Some long_embed) = Ok long_V2 ∧ DecodeUpdate long_V2 = Ok long_embed ∧
  ConvertUpdateToV1YjsWire long_V2 = Ok long_V1 ∧ ∃ err, DecodeUpdate long_V1 = Err err.
Proof.
  split; [vm_compute; reflexivity|]. split; [vm_compute; reflexivity|]. split; [vm_compute; reflexivity|].
  assert (match DecodeUpdate long_V1 with Ok _ => False | Err _ => True end) as H by (vm_compute; exact I).
  destruct (DecodeUpdate long_V1) as [|err]; [done|by exists err].
Qed.
