(* ===== verification/ProviderSpec.v ===== *)
(** * Properties of the rooms of a provider

    Any number of calls on a provider, interleaved action by action: the rooms stay
    in order, and no schedule blocks. *)
From stdpp Require Import relations.
From S2P Require Import Prelude GoError GoText Ranges IdSet YTypes DeleteSet Decoder Update UpdateFacts UpdateEncode Aggregate Merge MergeFacts MergeSpec Awareness YProtocol YStream StorageTypes MemoryStore StoreSpec Effects DecoderV2 EncodeV2 Facade WireCompat Gc Snapshot Session Replay ReplayFacts CodecV2Facts ReplayDocs ReplaySpec Provider ProviderFacts.
#[local] Open Scope io_scope.

(** ** Calls *)

Inductive request :=
| ReqOpen (key : DocumentKey) (connectionID : bytes) (localClientID : Z)
| ReqAuthorityLost (c : option conn)
| ReqAuthorityEpoch (c : option conn)
| ReqRevalidate (c : option conn)
| ReqHandle (c : option conn) (src : bytes) (opts : ConnectionHandleOptions)
| ReqPersist (c : option conn)
| ReqClose (c : option conn).

(** A mutex that is held makes the caller wait. *)
Definition enabled (a : provider_op) (w : World) : Prop := match a with LockRoom room => room ∉ w_locked w | _ => True end.

#[export] Instance enabled_dec a w : Decision (enabled a w).
Proof. destruct a; apply _. Defined.

(** Each room later. *)
Definition world_next (w w' : World) : Prop :=
  ∀ room r, w_heap w !! room = Some r → ∃ r', w_heap w' !! room = Some r' ∧ room_next r r'.

#[export] Instance world_next_preorder : PreOrder world_next.
Proof.
  split; [intros w room r Hr; by exists r|]. intros w1 w2 w3 H1 H2 room r Hr. destruct (H1 _ _ Hr) as (r2 & Hr2 & N2).
  destruct (H2 _ _ Hr2) as (r3 & Hr3 & N3). exists r3. split; [done|by etrans].
Qed.

Lemma world_next_same w w' : w_heap w' = w_heap w → world_next w w'.
Proof. intros E room r Hr. exists r. by rewrite E. Qed.

Section calls.
Context `{Services} (pool : list bytes → Run * Run) (fuel : nat) (order : gmap bytes nat → list nat) (p : Provider).
Hypothesis order_visits : ∀ m, order m ≡ₚ (map_to_list m).*2.

Definition failure {A} (r : result A) : option error := match r with Ok _ => None | Err err => Some err end.

Definition serve (q : request) : io (option error) :=
  match q with
  | ReqOpen key id client => failure <$> Open pool fuel order p key id client
  | ReqAuthorityLost c => (λ _, None) <$> AuthorityLost c
  | ReqAuthorityEpoch c => (λ _, None) <$> AuthorityEpoch c
  | ReqRevalidate c => RevalidateAuthority p c
  | ReqHandle c src opts => failure <$> HandleEncodedMessagesContextWithOptions pool fuel order p c src opts
  | ReqPersist c => snd <$> Persist p c
  | ReqClose c => failure <$> Connection_Close c
  end.

Definition starts (m : io (option error)) : Prop := ∃ q, m = serve q.

Abbreviation step := (pool_step enabled starts).

Lemma serve_disciplined q : disciplined (serve q).
Proof.
  destruct q; try (apply disciplined_bind; [|done]).
  - by apply Open_disciplined.
  - destruct c; [|done]. by apply disciplined_look.
  - destruct c; [|done]. by apply disciplined_look.
  - by apply Revalidate_disciplined.
  - by apply Handle_disciplined.
  - by apply Persist_disciplined.
  - by apply Close_disciplined.
Qed.

(** The calls with what they hold. *)
Record config_ok (ts : list (io (option error))) (w : World) (hs : list hold) : Prop := {
  co_calls : Forall2 (λ m h, lp m (λ _ h, h = None) h) ts hs;
  co_heap room r : w_heap w !! room = Some r → room_ok r;
  co_rooms key room : w_rooms w !! key = Some room → ∃ r, w_heap w !! room = Some r ∧ room_key r = key;
  co_held j room r : hs !! j = Some (Some (room, r)) → room_at w room = r;
  co_locked room : room ∈ w_locked w ↔ ∃ j r, hs !! j = Some (Some (room, r));
  co_alone j j' room r r' : hs !! j = Some (Some (room, r)) → hs !! j' = Some (Some (room, r')) → j = j' }.

Lemma config_new s : config_ok [] (World_New s) [].
Proof.
  split; cbn; [constructor|by intros room r ?%lookup_empty_Some|by intros key room ?%lookup_empty_Some|done| |done].
  intros room. split; [set_solver|]. by intros (j & r & Hj).
Qed.

Lemma config_start m ts w hs : starts m → config_ok ts w hs → config_ok (ts ++ [m]) w (hs ++ [None]).
Proof.
  intros [q ->] [Hc Hh Hr Hd Hl Ha].
  assert (∀ j room r, (hs ++ [None]) !! j = Some (Some (room, r)) → hs !! j = Some (Some (room, r))) as Hback.
  { intros j room r [?|[_ E]]%lookup_app_Some; [done|]. by apply list_lookup_singleton_Some in E as [_ ?]. }
  split; [|done..| | |].
  - apply Forall2_app; [done|]. constructor; [|constructor]. apply serve_disciplined.
  - intros j room r Hj%Hback. by eapply Hd.
  - intros room. rewrite Hl. split; intros (j & r & Hj); exists j, r; [by apply lookup_app_l_Some|by apply Hback].
  - intros j j' room r r' Hj%Hback Hj'%Hback. by eapply Ha.
Qed.

(** An action that leaves rooms and mutexes alone. *)
Lemma config_quiet j m ts w w' hs h : config_ok ts w hs → hs !! j = Some h → lp m (λ _ h, h = None) h →
  w_heap w' = w_heap w → w_locked w' = w_locked w → (∀ key room, w_rooms w' !! key = Some room → w_rooms w !! key = Some room) →
  config_ok (<[j := m]> ts) w' hs.
Proof.
  intros [Hc Hh Hr Hd Hl Ha] Hj Hm Eh El Er. split.
  - rewrite <- (list_insert_id hs j h) by done. by apply Forall2_insert.
  - rewrite Eh. done.
  - intros key room Hk%Er. rewrite Eh. by apply Hr.
  - intros j' room r Hj'. unfold room_at. rewrite Eh. by eapply Hd.
  - intros room. rewrite El. apply Hl.
  - done.
Qed.

Lemma room_at_ok w room : (∀ room r, w_heap w !! room = Some r → room_ok r) → room_ok (room_at w room).
Proof. intros Hh. unfold room_at. destruct (w_heap w !! room) eqn:E; [by eapply Hh|apply room_new_ok]. Qed.

Lemma config_lock j m ts w hs room : config_ok ts w hs → hs !! j = Some None → room ∉ w_locked w →
  lp m (λ _ h, h = None) (Some (room, room_at w room)) →
  config_ok (<[j := m]> ts) (mkWorld (w_heap w) (w_rooms w) ({[room]} ∪ w_locked w) (w_loads w) (w_store w)) (<[j := Some (room, room_at w room)]> hs).
Proof.
  intros [Hc Hh Hr Hd Hl Ha] Hj Hfree Hm. assert (∀ j' r, hs !! j' ≠ Some (Some (room, r))) as Hno by (intros j' r E; apply Hfree, Hl; eauto).
  split; cbn; [by apply Forall2_insert|done|done|..].
  - intros j' room' r [(-> & [= <- <-] & _)|[_ Hj']]%list_lookup_insert_Some; [done|by eapply Hd].
  - intros room'. rewrite elem_of_union, elem_of_singleton, Hl. split.
    + intros [->|(j' & r & Hj')]; [exists j, (room_at w room); apply list_lookup_insert_eq; by eapply lookup_lt_Some|].
      exists j', r. rewrite list_lookup_insert_ne; [done|]. intros ->. congruence.
    + intros (j' & r & [(-> & [= <- <-] & _)|[_ Hj']]%list_lookup_insert_Some); eauto.
  - intros j1 j2 room' r r' [(<- & [= <- <-] & _)|[Hn1 H1]]%list_lookup_insert_Some [(<- & E & _)|[Hn2 H2]]%list_lookup_insert_Some; [done|..].
    + by destruct (Hno j2 r').
    + injection E as <- <-. by destruct (Hno j1 r).
    + by eapply Ha.
Qed.

Lemma config_unlock j m ts w hs room r r' : config_ok ts w hs → hs !! j = Some (Some (room, r)) → good_next r r' → lp m (λ _ h, h = None) None →
  let w' := mkWorld (<[room := r']> (w_heap w)) (w_rooms w) (w_locked w ∖ {[room]}) (w_loads w) (w_store w) in
  config_ok (<[j := m]> ts) w' (<[j := None]> hs) ∧ world_next w w'.
Proof.
  intros [Hc Hh Hr Hd Hl Ha] Hj [Hn Hok] Hm. pose proof (Hd _ _ _ Hj) as E.
  assert (∀ room0 r0, w_heap w !! room0 = Some r0 → room0 = room → r0 = r) as Hthis by (intros room0 r0 H0 ->; unfold room_at in E; by rewrite H0 in E).
  split; [split; cbn|].
  - by apply Forall2_insert.
  - intros room0 r0 [[<- <-]|[_ H0]]%lookup_insert_Some; [done|by eapply Hh].
  - intros key room0 (r0 & H0 & Hk)%Hr. destruct (decide (room0 = room)) as [->|Hne].
    + exists r'. rewrite lookup_insert_eq. split; [done|]. rewrite (Hthis _ _ H0 eq_refl) in Hk. by rewrite (rn_key _ _ Hn).
    + exists r0. by rewrite lookup_insert_ne.
  - intros j0 room0 r0 [(_ & [=] & _)|[Hne H0]]%list_lookup_insert_Some. unfold room_at. cbn. rewrite lookup_insert_ne; [by eapply Hd|].
    intros ->. apply Hne. by eapply Ha.
  - intros room0. rewrite elem_of_difference, not_elem_of_singleton, Hl. split.
    + intros [(j0 & r0 & H0) Hne]. exists j0, r0. rewrite list_lookup_insert_ne; [done|]. intros ->. congruence.
    + intros (j0 & r0 & [(_ & [=] & _)|[Hne H0]]%list_lookup_insert_Some). split; [by eauto|]. intros ->. apply Hne. by eapply Ha.
  - intros j1 j2 room0 r1 r2 [(_ & [=] & _)|[_ H1]]%list_lookup_insert_Some [(_ & [=] & _)|[_ H2]]%list_lookup_insert_Some. by eapply Ha.
  - intros room0 r0 H0. cbn. destruct (decide (room0 = room)) as [->|Hne]; [|exists r0; by rewrite lookup_insert_ne].
    exists r'. rewrite lookup_insert_eq. split; [done|]. by rewrite (Hthis _ _ H0 eq_refl).
Qed.

Lemma config_publish j m ts w hs key r : config_ok ts w hs → hs !! j = Some None → room_ok r → room_key r = key → lp m (λ _ h, h = None) None →
  let new := fresh (dom (w_heap w) ∪ w_locked w) in
  let w' := mkWorld (<[new := r]> (w_heap w)) (<[key := new]> (w_rooms w)) (w_locked w) (w_loads w) (w_store w) in
  config_ok (<[j := m]> ts) w' hs ∧ world_next w w'.
Proof.
  intros [Hc Hh Hr Hd Hl Ha] Hj Hok Hk Hm new. assert (new ∉ dom (w_heap w) ∪ w_locked w) as [Hnew Hfree]%not_elem_of_union by apply is_fresh.
  apply not_elem_of_dom in Hnew. assert (∀ room0 r0, w_heap w !! room0 = Some r0 → new ≠ room0) as Hne by (intros room0 r0 H0 <-; congruence).
  split; [split; cbn|].
  - rewrite <- (list_insert_id hs j None) by done. by apply Forall2_insert.
  - intros room0 r0 [[<- <-]|[_ H0]]%lookup_insert_Some; [done|by eapply Hh].
  - intros key0 room0 [[<- <-]|[_ H0]]%lookup_insert_Some; [exists r; by rewrite lookup_insert_eq|].
    destruct (Hr _ _ H0) as (r0 & H1 & H2). exists r0. rewrite lookup_insert_ne; [done|by eapply Hne].
  - intros j0 room0 r0 H0. unfold room_at. cbn. rewrite lookup_insert_ne; [by eapply Hd|]. intros <-. apply Hfree, Hl. eauto.
  - done.
  - done.
  - intros room0 r0 H0. exists r0. split; [|done]. cbn. rewrite lookup_insert_ne; [done|by eapply Hne].
Qed.

Lemma config_step c c' hs : config_ok c.1 c.2 hs → act_step enabled c c' → ∃ hs', config_ok c'.1 c'.2 hs' ∧ world_next c.2 c'.2.
Proof.
  intros Hok Hs. destruct Hs as [j a k i ts w Hj He]. cbn [fst snd] in *. destruct (Forall2_lookup_l _ _ _ _ _ (co_calls _ _ _ Hok) Hj) as (h & Hh & Hm).
  destruct a; cbn in Hm, He; try (exists hs; split; [by (eapply config_quiet; [exact Hok|exact Hh|apply Hm|..])|by apply world_next_same]).
  - destruct Hm as (-> & Hro & Hk & Hm). cbn. destruct (w_rooms w !! key) as [current|] eqn:E.
    + exists hs. split; [|by apply world_next_same]. by eapply config_quiet; [exact Hok|exact Hh|apply Hm|..].
    + exists hs. apply (config_publish j (k _) ts w hs key room); [done..|apply Hm].
  - exists hs. split; [|apply world_next_same; cbn; by case_bool_decide]. eapply config_quiet; [exact Hok|exact Hh|apply Hm|..]; cbn; case_bool_decide; try done. cbn. by intros key0 room0 [_ ?]%lookup_delete_Some.
  - destruct Hm as [-> Hm]. eexists. split; [|by apply world_next_same]. apply config_lock; [done..|]. apply Hm, room_at_ok, Hok.
  - destruct Hm as (r & -> & Hn & Hm). eexists. by eapply config_unlock.
Qed.

Lemma pool_step_ok c c' hs : config_ok c.1 c.2 hs → step c c' → ∃ hs', config_ok c'.1 c'.2 hs' ∧ world_next c.2 c'.2.
Proof. intros Hok Hs; destruct Hs as [m ts w Hm|c c' Hs]; [|by eapply config_step]. exists (hs ++ [None]). split; [apply (config_start m); done|by apply world_next_same]. Qed.

Lemma reached c c' hs : config_ok c.1 c.2 hs → rtc step c c' → ∃ hs', config_ok c'.1 c'.2 hs' ∧ world_next c.2 c'.2.
Proof.
  intros Hok Hs. revert hs Hok. induction Hs as [c|c1 c2 c3 H12 _ IH]; intros hs Hok; [exists hs; split; [done|by apply world_next_same]|].
  destruct (pool_step_ok _ _ _ Hok H12) as (hs2 & Hok2 & N2). destruct (IH _ Hok2) as (hs3 & Hok3 & N3). exists hs3. split; [done|by etrans].
Qed.

(** ** Properties *)

(** C6: The rooms of a provider stay in order.  Whatever calls run at the same time,
    and in whatever order their actions happen: the map of the provider leads each
    key to a room of that key; in every room the map has exactly the open
    connections, by their names, no two of which have the same client, each with
    its own session, which never holds a document; and from then on no room changes
    its key, no closed connection opens again and no lost authority comes back. *)
Theorem rooms_in_order (s : Store) (ts : list (io (option error))) (w : World) (Hreach : rtc step ([], World_New s) (ts, w)) :
  (∀ key room, w_rooms w !! key = Some room → ∃ r, w_heap w !! room = Some r ∧ room_key r = key) ∧
  (∀ room r, w_heap w !! room = Some r → room_ok r) ∧
  (∀ c, rtc step (ts, w) c → world_next w c.2).
Proof.
  destruct (reached ([], World_New s) (ts, w) [] (config_new s) Hreach) as (hs & Hok & _). split_and!; [apply Hok|apply Hok|].
  intros c Hc. by destruct (reached (ts, w) c hs Hok Hc) as (_ & _ & ?).
Qed.

(** A call that has returned, and one that has returned or is about to take a mutex. *)
Definition returned (m : io (option error)) : bool := match m with Ret _ => true | _ => false end.
Definition idle (m : io (option error)) : bool := match m with Ret _ | Act (LockRoom _) _ => true | _ => false end.

Lemma idle_holds ts w hs : config_ok ts w hs → Forall (λ m, idle m = true) ts → w_locked w = ∅.
Proof.
  intros Hok Hts. apply set_eq. intros room. split; [|set_solver]. intros (j & r & Hj)%(co_locked _ _ _ Hok). exfalso.
  destruct (Forall2_lookup_r _ _ _ _ _ (co_calls _ _ _ Hok) Hj) as (m & Hm & Hl). rewrite Forall_lookup in Hts. specialize (Hts _ _ Hm).
  destruct m as [x|a k]; [done|]. destruct a; try done. by destruct Hl.
Qed.

(** Either all calls pass a test, or one does not. *)
Lemma all_or_one (f : io (option error) → bool) ts : Forall (λ m, f m = true) ts ∨ ∃ j m, ts !! j = Some m ∧ f m = false.
Proof.
  induction ts as [|m ts IH]; [by left|]. destruct (f m) eqn:E; [|by right; exists 0%nat, m].
  destruct IH as [H1|(j & m' & H1)]; [left; by constructor|right; by exists (S j), m'].
Qed.


End calls.

(** ** The document of a room and the store *)

Section document.
Context (key : DocumentKey).

(** A document of the store: a record of the log or the snapshot. *)
Definition stored_document (s : Store) (d : DecodedUpdate) : Prop :=
  (∃ rec v, rec ∈ log s key ∧ payload_of rec v ∧ document v d) ∨ (∃ m, items s !! key = Some m ∧ document (ms_updateV2 m) d).

(** A clock a document knows: deleted, or deleted or with content. *)
Definition marked (d : DecodedUpdate) (del : bool) (c x : Z) : Prop := if del then deleted d c x else content d c x ∨ deleted d c x.

Definition stored (s : Store) (del : bool) (c x : Z) : Prop := ∃ d, stored_document s d ∧ marked d del c x.

(** The snapshot of a document, and that of the snapshot, can be encoded. *)
Definition fits (d : DecodedUpdate) : Prop :=
  (∀ d1, garbageCollectDeletedContent d = Ok d1 → small d1) ∧
  (∀ p d' d2, persistedSnapshotFromDecodedUpdate d = Ok p → DecodeV2 (Snapshot.UpdateV2 p) = Ok d' → garbageCollectDeletedContent d' = Ok d2 → small d2).

(** The room has exactly what the store has, and its offset is the last of the log. *)
Record in_step (r : providerRoom) (s : Store) : Prop := {
  is_sound : sound s;
  is_key : room_key r = key;
  is_document : ∃ d, document (room_updateV2 r) d ∧ fits d ∧ ∀ del c x, stored s del c x ↔ marked d del c x;
  is_log rec : rec ∈ log s key → ul_Offset rec <= room_lastOffset r;
  is_next : room_lastOffset r <= get0 (updateNext s) key;
  is_snapshot : room_snapshot r = None }.

Lemma document_unique u d d' : document u d → document u d' → d' = d.
Proof. intros [_ H _] [_ H' _]. congruence. Qed.

(** The payload a save writes for the snapshot of a document. *)
Lemma saved_marks u d p u' : document u d → fits d → DecodePersistedSnapshotV2 u = Ok p → EncodePersistedSnapshotV2 (Some p) = Ok u' →
  ∃ d', document u' d' ∧ ∀ del c x, marked d' del c x ↔ marked d del c x.
Proof.
  intros Hu [F1 F2] Ep Eu. rewrite (DecodePersistedSnapshotV2_document _ _ Hu) in Ep.
  destruct (persisted_document d (doc_sendable _ _ Hu) F1) as (p0 & d1 & Ep0 & H1 & C1 & D1). assert (p0 = p) as -> by congruence.
  destruct (persisted_document d1 (doc_sendable _ _ H1)) as (p2 & d2 & Ep2 & H2 & C2 & D2).
  { intros d2 Hd2. eapply F2; [exact Ep|apply (doc_decoded _ _ H1)|done]. }
  assert (u' = Snapshot.UpdateV2 p2) as ->.
  { revert Eu Ep2. cbn [EncodePersistedSnapshotV2]. destruct (Snapshot.UpdateV2 p) as [|b l] eqn:E; [by pose proof (doc_format _ _ H1)|].
    unfold compactUpdateAsV2, compact, persistedSnapshotFromDecodedUpdate. rewrite (document_DecodeUpdate _ _ H1). cbn [mbind result_bind].
    destruct (garbageCollectDeletedContent d1) as [d3|]; [|done]. cbn [mbind result_bind]. destruct (EncodeUpdateV2 (Some d3)) as [u2|]; [|done]. cbn [mbind result_bind].
    destruct (has_content p && _); [done|]. intros [= <-]. destruct (EncodeUpdate (Some d3)); [|done]. by intros [= <-]. }
  exists d2. split; [done|]. intros del c x. assert (∀ d d', du_DeleteSet d' = du_DeleteSet d → deleted d' c x ↔ deleted d c x) as HD by (intros ? ? E; unfold deleted; by rewrite E).
  pose proof (HD _ _ D1). pose proof (HD _ _ D2). destruct (C1 c x), (C2 c x). destruct del; cbn; tauto.
Qed.

(** *** Updates *)

(** While a call holds the room, others may move the document between the log and
    the snapshot, as a persist does; they add nothing to it. *)
Record moves (w w' : World) : Prop := {
  mv_sound : sound (w_store w');
  mv_space : ReplayFacts.room (w_store w');
  mv_marks del c x : stored (w_store w') del c x ↔ stored (w_store w) del c x;
  mv_log rec : rec ∈ log (w_store w') key → rec ∈ log (w_store w) key;
  mv_next : get0 (updateNext (w_store w')) key = get0 (updateNext (w_store w)) key }.

Lemma in_step_moves r w w' : moves w w' → in_step r (w_store w) → in_step r (w_store w').
Proof.
  intros Hm [H1 H2 (d & Hd & Hf & Hs) H4 H5 H6]. split; [apply Hm|done| | |by rewrite (mv_next _ _ Hm)|done].
  - exists d. split_and!; [done..|]. intros del c x. rewrite (mv_marks _ _ Hm). apply Hs.
  - intros rec Hr. by apply H4, Hm.
Qed.

Lemma in_step_lose r s : in_step r s → in_step (lose_authority r) s.
Proof. by intros []. Qed.

(** A record is appended and merged. *)
Lemma append_in_step r s u2 d2 merged d3 v1 epoch now : key_valid key → in_step r s → ReplayFacts.room s → document u2 d2 → document merged d3 → fits d3 →
  (∀ d, document (room_updateV2 r) d → ∀ del c x, marked d3 del c x ↔ marked d del c x ∨ marked d2 del c x) →
  let '(out, s') := append_record s key v1 u2 epoch now in
  ∃ rec, out = Ok rec ∧ 0 < ul_Offset rec ∧ in_step (set_document merged (ul_Offset rec) (room_compactedAt r) r) s' ∧
    ∀ del c x, stored s' del c x ↔ stored s del c x ∨ marked d2 del c x.
Proof.
  intros Hkv [Hsound Hk (d & Hd & Hf & Hs) Hlog Hnext Hsn] Hsp Hu2 H3 F3 Hmarks. cbn. eexists. split; [done|]. cbn [ul_Offset].
  pose proof (Hsp key) as Hroom. destruct Hsound as [Hok Hn]. specialize (Hn key) as Hn0.
  assert (w64 (get0 (updateNext s) key + 1) = get0 (updateNext s) key + 1) as Eo by (unfold w64; rewrite Z.mod_small; lia). rewrite Eo.
  unfold newUpdateLogRecord. cbn [ul_Offset]. split; [lia|]. set (rec := mkUpdateLogRecord _ _ _ _ _ _) in *. set (s' := set_updateNext _ _).
  assert (log s' key = log s key ++ [rec]) as El by (unfold s'; cbn; by rewrite lookup_insert_eq).
  assert (∀ del c x, stored s' del c x ↔ stored s del c x ∨ marked d2 del c x) as Hst.
  { assert (updateLogRecordV2 (Some rec) = Ok u2) as Hp by (cbn; destruct u2; [by pose proof (doc_format _ _ Hu2)|done]).
    intros del c x. unfold stored, stored_document. setoid_rewrite El. split.
    - intros (d0 & [(rec0 & v & [Hr|Hr]%elem_of_app & Hv & Hd0)|Hi] & Hm); [left; exists d0; split; [left; by exists rec0, v|done]| |left; exists d0; by split; [right|]].
      apply list_elem_of_singleton in Hr as ->. rewrite Hv in Hp. injection Hp as ->. rewrite <- (document_unique _ _ _ Hu2 Hd0). by right.
    - intros [(d0 & [(rec0 & v & Hr & Hv & Hd0)|Hi] & Hm)|Hm].
      + exists d0. split; [left; exists rec0, v; split; [set_solver|done]|done].
      + exists d0. split; [by right|done].
      + exists d2. split; [|done]. left. exists rec, u2. split; [set_solver|done]. }
  split; [|done]. split.
  - assert (effect s s') as He.
    { pose proof (append_record_effect s key v1 u2 epoch now Hkv) as He. unfold append_record in He. rewrite Eo in He. apply He. right.
      intros ->. by pose proof (doc_format _ _ Hu2). }
    destruct (store_ok_effect s s' 18446744073709551614 Hok) as [Hok' Hn']; [|lia|done|].
    { intros k. specialize (Hn k). specialize (Hsp k). lia. }
    split; [done|]. intros k. apply Hn'.
  - done.
  - exists d3. split_and!; [done..|]. intros del c x. rewrite Hst, (Hmarks d Hd), Hs. done.
  - intros rec0. rewrite El. intros [Hr|Hr]%elem_of_app; [specialize (Hlog _ Hr); cbn; lia|]. apply list_elem_of_singleton in Hr as ->. cbn. lia.
  - cbn. rewrite get0_insert, decide_True by done. lia.
  - done.
Qed.

End document.

(** The interfaces the memory store implements. *)
Definition memory_interfaces : store_interfaces := mkInterfaces true true true true true true true.

Section updates.
Context `{Services} {pool : list bytes → Run * Run} {fuel : nat} {resolves : bool} {key : DocumentKey}.
Abbreviation p := (mkProvider (Some memory_interfaces) resolves).
Hypothesis key_ok : key_valid key.

(** The append fails and changes nothing, or adds the record. *)
Lemma append_answer authority u i s a : u ≠ [] →
  a = match authority with Some fence => AppendUpdateV2Authoritative (i_ctxErr i) (i_now i) key u fence s | None => AppendUpdateV2 (i_ctxErr i) (i_now i) key u s end →
  (∃ err, a = (Err err, s)) ∨ ∃ epoch now, a = append_record s key [] u epoch now.
Proof.
  intros Hu ->. assert (∀ epoch fence, (∃ err, appendUpdateV2 (i_ctxErr i) (i_now i) key u epoch fence s = (Err err, s)) ∨
    ∃ epoch' now, appendUpdateV2 (i_ctxErr i) (i_now i) key u epoch fence s = append_record s key [] u epoch' now) as Hall.
  { intros epoch fence. unfold appendUpdateV2, failing. destruct (guard_err _); [left; by eexists|]. destruct (fence ≫= _); [left; by eexists|]. right. by eexists _, _. }
  destruct authority; apply Hall.
Qed.

Lemma set_store_same w : set_store (w_store w) w = w.
Proof. by destruct w. Qed.

Lemma ctx_wp {A} (R : World → World → Prop) (C : instant → Prop) (k : option error → io A) Q w :
  (∀ w1 done, R w w1 → wp R C (k done) Q w1) → wp R C (ctx_err ≫= k) Q w.
Proof. intros Hk w1 i HR _. cbn. rewrite set_store_same. by apply Hk. Qed.

Lemma append_wp u authority w Q : u ≠ [] →
  (∀ w1, moves key w w1 → (∀ err, Q (Ok (Err err)) w1) ∧ ∀ epoch now rec s', append_record (w_store w1) key [] u epoch now = (Ok rec, s') → Q (Ok (Ok (Some rec))) (set_store s' w1)) →
  wp (moves key) (λ _, True) (append_document p key u authority) Q w.
Proof.
  intros Hu HQ. destruct authority as [fence|]; intros w1 i HR _; destruct (HQ w1 HR) as [He Ho]; cbn;
    [destruct (append_answer (Some fence) u i (w_store w1) _ Hu eq_refl) as [[err E]|(epoch & now & E)]
    |destruct (append_answer None u i (w_store w1) _ Hu eq_refl) as [[err E]|(epoch & now & E)]]; rewrite E; cbn;
    first [rewrite set_store_same; apply He|by apply (Ho epoch now)].
Qed.

(** C4: An update goes to the log before it goes to the document, and the two stay in
    step.  Let the document of a room be what the store has, and a message carry
    an update whose V2 wire form is a document; whatever a concurrent persist moves
    from the log to the snapshot meanwhile, after the update is applied the room
    and the store are in step again.  If it is accepted, the store has what it had
    and the update, and the bytes for the other connections are the update's; if it
    is refused, the store has what it had. *)
Theorem update_in_step (payload u2 : bytes) (d d2 d3 : DecodedUpdate) (r : providerRoom) (w : World)
    (Hu : ConvertUpdateToV2YjsWire payload = Ok u2) (Hd : document (room_updateV2 r) d) (Hd2 : document u2 d2)
    (Hpool : complete (pool [room_updateV2 r; u2]).1 (pool [room_updateV2 r; u2]).2 [room_updateV2 r; u2])
    (H3 : merged_document [d; d2] = Ok d3) (Hsmall : small d3) (Hfits : fits (received d3)) (Hin : in_step key r (w_store w)) :
  wp (moves key) (λ _, True) (applyDocumentPayloadLocked pool fuel p key payload r) (λ x w',
    in_step key x.2 (w_store w') ∧
    match x.1 with
    | Ok u => u = u2 ∧ ∀ del c x, stored key (w_store w') del c x ↔ stored key (w_store w) del c x ∨ marked d2 del c x
    | Err _ => ∀ del c x, stored key (w_store w') del c x ↔ stored key (w_store w) del c x
    end) w.
Proof.
  assert (u2 ≠ []) as Hne by (intros ->; by pose proof (doc_format _ _ Hd2)).
  unfold applyDocumentPayloadLocked. destruct (room_authorityLost r); [by split|]. apply ctx_wp. intros w1 [err|] M1.
  { split; [by eapply in_step_moves|]. intros del c x. apply (mv_marks _ _ _ M1). }
  pose proof (in_step_moves _ _ _ _ M1 Hin) as Hin1. rewrite Hu. apply ctx_wp. intros w2 [err|] M2.
  { split; [by eapply in_step_moves|]. intros del c x. rewrite (mv_marks _ _ _ M2). apply (mv_marks _ _ _ M1). }
  pose proof (in_step_moves _ _ _ _ M2 Hin1) as Hin2. apply wp_bind. change (store_has has_UpdateLogStore p) with true. cbv iota.
  apply append_wp; [done|]. intros w3 M3. pose proof (in_step_moves _ _ _ _ M3 Hin2) as Hin3.
  assert (∀ del c x, stored key (w_store w3) del c x ↔ stored key (w_store w) del c x) as Hsame
    by (intros; by rewrite (mv_marks _ _ _ M3), (mv_marks _ _ _ M2), (mv_marks _ _ _ M1)).
  split.
  { intros err. case_match; split; [by apply in_step_lose|done|done|done]. }
  intros epoch now rec s' Ea.
  destruct (MergeUpdatesV2_spec _ _ [room_updateV2 r; u2] [d; d2] ltac:(done) ltac:(constructor; [exact Hd|constructor; [exact Hd2|constructor]]) Hpool) as (d3' & E3 & Em & Hs3 & Hc & Hdel).
  assert (d3' = d3) as -> by congruence. destruct (sendable_encodes d3 Hs3 Hsmall) as (_ & merged & _ & Eu).
  pose proof (sendable_document d3 merged Hs3 Hsmall Eu) as Hdoc. fold (received d3) in Hdoc.
  unfold merged_V2. rewrite Em, Eu. cbv zeta iota beta.
  pose proof (append_in_step key r (w_store w3) u2 d2 merged (received d3) [] epoch now key_ok Hin3 (mv_space _ _ _ M3) Hd2 Hdoc Hfits) as Happ.
  rewrite Ea in Happ. destruct Happ as (rec' & [= <-] & Hpos & Hin' & Hst).
  - intros d' Hd' del c x. rewrite (document_unique _ _ _ Hd Hd'). assert (deleted (received d3) c x ↔ deleted d3 c x) as Hr by done.
    assert (content (received d3) c x ↔ content d3 c x) as Hrc by apply (wire_order_content d3 c x (sd_mergeable _ Hs3)).
    specialize (Hc c x). specialize (Hdel c x). rewrite !Exists_cons, Exists_nil in Hc, Hdel. destruct del; cbn; tauto.
  - apply Z.ltb_lt in Hpos as ->. split; [exact Hin'|]. split; [done|]. intros del c x. cbn. by rewrite Hst, Hsame.
Qed.

End updates.

(** *** Persisting *)

Section persisting.
Context `{Services} (resolves : bool) (key : DocumentKey) (c : conn).
Abbreviation p := (mkProvider (Some memory_interfaces) resolves).
Hypothesis key_ok : key_valid key.

Abbreviation the_room w := (room_at w (conn_room c)).
Definition together (w : World) : Prop := in_step key (the_room w) (w_store w).

(** What the other calls on the room do meanwhile: they keep it and the store in
    step, add updates to the end of the log, and neither persist nor touch the room
    while it is held. *)
Record writes (w w' : World) : Prop := {
  wr_together : together w → together w';
  wr_last : room_lastOffset (the_room w) <= room_lastOffset (the_room w');
  wr_log rec : rec ∈ log (w_store w) key → rec ∈ log (w_store w') key;
  wr_new rec : rec ∈ log (w_store w') key → rec ∈ log (w_store w) key ∨ room_lastOffset (the_room w) < ul_Offset rec;
  wr_item : items (w_store w') !! key = items (w_store w) !! key;
  wr_held : conn_room c ∈ w_locked w → conn_room c ∈ w_locked w' ∧ the_room w' = the_room w }.

(** After a look at the room, whose document was [d] through [t]. *)
Record seen (d : DecodedUpdate) (t : Z) (w : World) : Prop := {
  sn_together : together w;
  sn_marks del c x : marked d del c x → stored key (w_store w) del c x;
  sn_log rec v d' : rec ∈ log (w_store w) key → ul_Offset rec <= t → payload_of rec v → document v d' → ∀ del c x, marked d' del c x → marked d del c x;
  sn_last : t <= room_lastOffset (the_room w) }.

Definition not_saved (d : DecodedUpdate) (w : World) : Prop :=
  ∀ m d', items (w_store w) !! key = Some m → document (ms_updateV2 m) d' → ∀ del c x, marked d' del c x → marked d del c x.

Definition saved (d : DecodedUpdate) (w : World) : Prop :=
  ∃ m d', items (w_store w) !! key = Some m ∧ document (ms_updateV2 m) d' ∧ ∀ del c x, marked d' del c x ↔ marked d del c x.

Lemma seen_first d w : together w → document (room_updateV2 (the_room w)) d → seen d (room_lastOffset (the_room w)) w ∧ not_saved d w.
Proof.
  intros Hw Hd. destruct (is_document _ _ _ Hw) as (d' & Hd' & _ & Hs). rewrite (document_unique _ _ _ Hd Hd') in Hs. split.
  - split; [done|by intros del c' x ?%Hs| |done]. intros rec v d0 Hr _ Hv H0 del c' x Hm. apply Hs. exists d0. split; [left; by exists rec, v|done].
  - intros m d0 Hm H0 del c' x Hx. apply Hs. exists d0. split; [right; by exists m|done].
Qed.

Lemma stored_writes w w' del c' x : writes w w' → stored key (w_store w) del c' x → stored key (w_store w') del c' x.
Proof.
  intros Hw (d & [(rec & v & Hr & Hv & Hd)|(m & Hi & Hd)] & Hm); exists d; (split; [|done]).
  - left. exists rec, v. split; [by apply (wr_log _ _ Hw)|done].
  - right. exists m. by rewrite (wr_item _ _ Hw).
Qed.

Lemma seen_writes d t w w' : writes w w' → seen d t w → seen d t w'.
Proof.
  intros Hw [H1 H2 H3 H4]. split; [by apply (wr_together _ _ Hw)| | |etrans; [exact H4|apply (wr_last _ _ Hw)]].
  - intros del c' x Hm. by eapply stored_writes, H2.
  - intros rec v d' Hr Ht. destruct (wr_new _ _ Hw _ Hr) as [Hr'|Hr']; [by apply H3|lia].
Qed.

Lemma not_saved_writes d w w' : writes w w' → not_saved d w → not_saved d w'.
Proof. intros Hw Hn m d'. rewrite (wr_item _ _ Hw). apply Hn. Qed.

Lemma saved_writes d w w' : writes w w' → saved d w → saved d w'.
Proof. intros Hw (m & d' & Hi & Hm). exists m, d'. by rewrite (wr_item _ _ Hw). Qed.

(** Changes of the store that keep its documents in step with the room. *)
Lemma together_store w s' : together w → sound s' → (∀ del c x, stored key s' del c x ↔ stored key (w_store w) del c x) →
  (∀ rec, rec ∈ log s' key → rec ∈ log (w_store w) key) → get0 (updateNext s') key = get0 (updateNext (w_store w)) key → together (set_store s' w).
Proof.
  intros [H1 H2 (d & Hd & Hf & Hs) H4 H5 H6] Hs' Hm Hl Hn. split; [done|done| | |cbn; by rewrite Hn|done].
  - exists d. split_and!; [done..|]. intros del c' x. cbn. by rewrite Hm.
  - intros rec Hr%Hl. by apply H4.
Qed.

Lemma save_step d t w m d' : seen d t w → not_saved d w → ms_key m = key → document (ms_updateV2 m) d' →
  (∀ del c x, marked d' del c x ↔ marked d del c x) →
  let w' := set_store (set_items <[key := m]> (w_store w)) w in seen d t w' ∧ saved d w'.
Proof.
  intros [H1 H2 H3 H4] Hn Hk Hd' Hm w'. assert (∀ del c x, stored key (w_store w') del c x ↔ stored key (w_store w) del c x) as Hst.
  { intros del c' x. split.
    - intros (d0 & [(rec & v & Hr & Hv & Hd)|(m0 & Hi & Hd)] & Hx); [exists d0; split; [left; by exists rec, v|done]|].
      cbn in Hi. rewrite lookup_insert_eq in Hi. injection Hi as <-. rewrite (document_unique _ _ _ Hd' Hd) in Hx. by apply H2, Hm.
    - intros (d0 & [(rec & v & Hr & Hv & Hd)|(m0 & Hi & Hd)] & Hx); [exists d0; split; [left; by exists rec, v|done]|].
      exists d'. split; [right; exists m; cbn; by rewrite lookup_insert_eq|]. apply Hm. by eapply Hn. }
  split; [split|].
  - apply together_store; [done| |exact Hst|done|done]. destruct (is_sound _ _ _ H1) as [Ho Hnx]. split; [by apply store_ok_snapshot|done].
  - intros del c' x Hx. by apply Hst, H2.
  - exact H3.
  - exact H4.
  - exists m, d'. cbn. by rewrite lookup_insert_eq.
Qed.

Lemma trim_step d t w : seen d t w → saved d w → together (set_store (trim_records key t (w_store w)) w).
Proof.
  intros [H1 H2 H3 H4] (m & d' & Hi & Hd' & Hm). destruct (is_sound _ _ _ H1) as [Ho Hnx].
  destruct (trim_records_same key t (w_store w)) as (_ & _ & En & _ & Ei).
  assert (log (trim_records key t (w_store w)) key = filter (λ r, t < ul_Offset r) (log (w_store w) key)) as El by (rewrite trim_records_log, decide_True by done; done).
  apply together_store; [done| | | |by rewrite En].
  - split; [by apply store_ok_trim|]. by rewrite En.
  - intros del c' x. split.
    + intros (d0 & [(rec & v & Hr & Hv & Hd)|(m0 & Hi0 & Hd)] & Hx); exists d0; (split; [|done]).
      * left. exists rec, v. split; [|done]. rewrite El in Hr. by apply list_elem_of_filter in Hr as [_ ?].
      * right. exists m0. by rewrite <- Ei.
    + intros (d0 & [(rec & v & Hr & Hv & Hd)|(m0 & Hi0 & Hd)] & Hx).
      * destruct (decide (t < ul_Offset rec)) as [Ht|Ht].
        -- exists d0. split; [|done]. left. exists rec, v. split; [|done]. rewrite El. by apply list_elem_of_filter.
        -- exists d'. split; [right; exists m; by rewrite Ei|]. apply Hm. eapply H3; [done|lia|done..].
      * exists d0. split; [|done]. right. exists m0. by rewrite Ei.
  - intros rec. rewrite El. by intros [_ ?]%list_elem_of_filter.
Qed.

Abbreviation always_in_step := (always writes (λ _, True) together).

(** A section under the mutex of the room. *)
Lemma change_always {A} (f : providerRoom → providerRoom) (k : providerRoom → io A) w : together w →
  (∀ r s, in_step key r s → in_step key (f r) s) → (∀ w' r, together w' → the_room w' = f r → always_in_step (k r) w') →
  always_in_step (r ← act (LockRoom (conn_room c)); _ ← act (UnlockRoom (conn_room c) (f r)); k r) w.
Proof.
  intros Hw Hf Hk. split; [done|]. intros w1 i1 R1 _. pose proof (wr_together _ _ R1 Hw) as H1. cbn. split; [exact H1|].
  intros w2 i2 R2 _. pose proof (wr_together _ _ R2 H1) as H2. destruct (wr_held _ _ R2) as [_ E]; [cbn; set_solver|].
  change (room_at _ (conn_room c)) with (the_room w1) in E at 2.
  assert (the_room (mkWorld (<[conn_room c:=f (the_room w1)]> (w_heap w2)) (w_rooms w2) (w_locked w2 ∖ {[conn_room c]}) (w_loads w2) (w_store w2)) = f (the_room w1)) as Er
    by (unfold room_at at 1; cbn; by rewrite lookup_insert_eq).
  apply Hk; [|exact Er]. unfold together. cbn [w_store]. rewrite Er. apply Hf. rewrite <- E. exact H2.
Qed.

Lemma mark_lost_always {A} (out : A) w : together w → always_in_step (mark_lost (conn_room c) out) w.
Proof. intros Hw. apply (change_always lose_authority (λ _, Ret out)); [done|apply in_step_lose|by split]. Qed.

Lemma raise_in_step t r s : in_step key r s → in_step key (raise_compactedAt t r) s.
Proof. unfold raise_compactedAt. case_match; [by intros []|done]. Qed.

(** The trim, once the snapshot is saved. *)
Lemma trim_always {A} authority d t (k : option error → io A) w : seen d t w → saved d w →
  (∀ w' err, together w' → always_in_step (k err) w') → always_in_step (err ← trimUpdates p key t authority; k err) w.
Proof.
  intros Hs Hd Hk. assert (∀ trim (E : log_reply trim = option error), (∀ i s, trims key t s (answer trim i s).2) →
    always_in_step (err ← act (Storage false trim); k (eq_rect _ id err _ E)) w) as Htrim.
  { intros trim E Ht. split; [apply Hs|]. intros w1 i1 R1 _. apply Hk. pose proof (seen_writes _ _ _ _ R1 Hs) as H1. pose proof (saved_writes _ _ _ R1 Hd) as H2.
    cbn. destruct (Ht i1 (w_store w1)) as [->| ->]; [rewrite set_store_same; apply H1|by eapply trim_step]. }
  destruct authority as [fence|]; [apply (Htrim (DoTrimUpdatesAuthoritative key t fence) eq_refl); apply trim_authoritative_trims
    |apply (Htrim (DoTrimUpdates key t) eq_refl); apply trim_trims].
Qed.

(** The save, once the snapshot is made. *)
Lemma save_always {A} authority d u t snapshot (k : result (option SnapshotRecord) → io A) w : seen d t w → not_saved d w →
  document u d → fits d → DecodePersistedSnapshotV2 u = Ok snapshot →
  (∀ w' err, together w' → always_in_step (k (Err err)) w') → (∀ w' record, seen d t w' → saved d w' → always_in_step (k (Ok record)) w') →
  always_in_step (saved ← saveSnapshot p key snapshot t authority; k saved) w.
Proof.
  intros Hs Hn Hu Hf Ep Herr Hok. assert (∀ save (E : log_reply save = result (option SnapshotRecord)),
    (∀ i s, saves key snapshot t s (eq_rect _ id (answer save i s).1 _ E, (answer save i s).2)) →
    always_in_step (x ← act (Storage false save); k (eq_rect _ id x _ E)) w) as Hsave.
  { intros save E Hsv. split; [apply Hs|]. intros w1 i1 R1 _. pose proof (seen_writes _ _ _ _ R1 Hs) as H1. pose proof (not_saved_writes _ _ _ R1 Hn) as H2.
    cbn. specialize (Hsv i1 (w_store w1)). unfold saves in Hsv. cbn [fst snd] in Hsv. destruct (eq_rect _ id _ _ E) as [record|err].
    - destruct Hsv as (m & -> & Hk & _ & Eu). destruct (saved_marks u d snapshot (ms_updateV2 m) Hu Hf Ep Eu) as (d' & Hd' & Hm).
      destruct (save_step d t w1 m d' H1 H2 Hk Hd' Hm) as [H3 H4]. by apply Hok.
    - rewrite Hsv, set_store_same. apply Herr, H1. }
  destruct authority as [fence|]; [apply (Hsave (DoSaveSnapshotCheckpointAuthoritative key (Some snapshot) t fence) eq_refl); intros; cbn [eq_rect]
    |apply (Hsave (DoSaveSnapshotCheckpoint key (Some snapshot) t) eq_refl); intros; cbn [eq_rect]].
  - exact (save_authoritative_saves key snapshot t fence i s).
  - exact (save_epoch_saves key snapshot t 0 i s).
Qed.


End persisting.

(** ** Opening *)

Section opening.
Context `{Services} (pool : list bytes → Run * Run) (fuel : nat) (order : gmap bytes nat → list nat) (p : Provider).

(** The rooms and the loads that have ended lead to rooms of their keys; no namespace
    has a NUL byte. *)
Record rooms_ok (w : World) : Prop := {
  ro_map key room : w_rooms w !! key = Some room → ∃ r, w_heap w !! room = Some r ∧ room_key r = key;
  ro_loads name room : Ok room ∈ default [] (w_loads w !! name) → ∃ r, w_heap w !! room = Some r ∧ providerRoomLoadKey (room_key r) = name;
  ro_plain room r : w_heap w !! room = Some r → 0 ∉ Namespace (room_key r) }.

(** What other calls do to the rooms. *)
Record others_open (w w' : World) : Prop := {
  oo_ok : rooms_ok w → rooms_ok w';
  oo_next : world_next w w';
  oo_held room : room ∈ w_locked w → w_heap w' !! room = w_heap w !! room }.

Abbreviation wp_open := (wp others_open (λ _, True)).

Lemma load_key_inj key key' : 0 ∉ Namespace key → 0 ∉ Namespace key' → providerRoomLoadKey key = providerRoomLoadKey key' → key = key'.
Proof.
  destruct key as [ns id], key' as [ns' id']. unfold providerRoomLoadKey. cbn [Namespace DocumentID]. revert ns'.
  induction ns as [|b ns IH]; intros [|b' ns'] H1 H2 E; cbn in E.
  - injection E as ->. done.
  - injection E as <- _. exfalso. apply H2. left.
  - injection E as -> _. exfalso. apply H1. left.
  - injection E as <- E. assert (mkDocumentKey ns id = mkDocumentKey ns' id') as [= -> ->]; [|done].
    apply IH; [by intros ?; apply H1; right|by intros ?; apply H2; right|done].
Qed.

Definition is_room (key : DocumentKey) (room : nat) (w : World) : Prop := ∃ r, w_heap w !! room = Some r ∧ room_key r = key.

Lemma is_room_next key room w w' : world_next w w' → is_room key room w → is_room key room w'.
Proof. intros Hn (r & Hr & Hk). destruct (Hn _ _ Hr) as (r' & Hr' & N). exists r'. split; [done|]. by rewrite (rn_key _ _ N). Qed.

Lemma rooms_ok_same w w' : w_heap w' = w_heap w → w_rooms w' = w_rooms w → w_loads w' = w_loads w → rooms_ok w → rooms_ok w'.
Proof. intros E1 E2 E3 [H1 H2 H3]. split; rewrite ?E1, ?E2, ?E3; done. Qed.

(** Actions on the store leave the rooms alone. *)
Definition storage_op (a : provider_op) : Prop := match a with Storage _ _ | DoResolveAuthorityFence _ => True | _ => False end.

Lemma storage_wp {A} (m : io A) Q w : only storage_op m → rooms_ok w → (∀ x w', rooms_ok w' → Q x w') → wp_open m Q w.
Proof.
  intros Ho Hw HQ. revert w Hw. induction m as [x|a k IH]; intros w Hw; [by apply HQ|]. destruct Ho as [Ha Ho]. intros w1 i R1 _.
  apply IH; [done|]. destruct a; try done; (eapply rooms_ok_same; [..|by apply (oo_ok _ _ R1)]); done.
Qed.

Lemma on_store_storage {A} background (m : prog log_reply A) : only storage_op (on_store background m).
Proof. by induction m as [x|a k IH]. Qed.

Lemma publish_ok key r w : rooms_ok w → w_rooms w !! key = None → room_key r = key → 0 ∉ Namespace key →
  let new := fresh (dom (w_heap w) ∪ w_locked w) in
  rooms_ok (mkWorld (<[new := r]> (w_heap w)) (<[key := new]> (w_rooms w)) (w_locked w) (w_loads w) (w_store w)).
Proof.
  intros [H1 H2 H3] Hk Hr Hn new. assert (new ∉ dom (w_heap w) ∪ w_locked w) as [Hnew _]%not_elem_of_union by apply is_fresh. apply not_elem_of_dom in Hnew.
  assert (∀ room0 r0, w_heap w !! room0 = Some r0 → <[new := r]> (w_heap w) !! room0 = Some r0) as Hold
    by (intros room0 r0 H0; rewrite lookup_insert_ne; [done|]; intros <-; congruence).
  split; cbn.
  - intros key0 room0 [[<- <-]|[_ H0]]%lookup_insert_Some; [exists r; by rewrite lookup_insert_eq|]. destruct (H1 _ _ H0) as (r0 & ? & ?). eauto.
  - intros name room0 H0. destruct (H2 _ _ H0) as (r0 & ? & ?). eauto.
  - intros room0 r0 [[<- <-]|[_ H0]]%lookup_insert_Some; [by rewrite Hr|by eapply H3].
Qed.

Lemma loadRoom_wp key w : rooms_ok w → 0 ∉ Namespace key →
  wp_open (loadRoom pool fuel p key) (λ x w', rooms_ok w' ∧ ∀ room, x = Ok room → is_room key room w') w.
Proof.
  intros Hw Hn. apply wp_then. apply storage_wp; [unfold resolveRoomAuthority; repeat case_match; by split|done|]. intros [authority|err] w1 H1; [|done].
  apply wp_then. apply storage_wp; [|done|].
  { unfold loadSnapshot. destruct (pv_store p) as [s|]; [|done]. destruct (has_UpdateLogStore s); [|by split]. by apply only_then; [apply on_store_storage|]. }
  intros [[[s t] ck]|err] w2 H2; [|done]. destruct (persistedSnapshotUpdateV2 _) as [u|]; [|done]. intros w3 i R3 _. pose proof (oo_ok _ _ R3 H2) as H3.
  cbn. destruct (w_rooms w3 !! key) as [current|] eqn:E.
  - split; [done|]. intros room [= <-]. by apply (ro_map _ H3).
  - split; [by apply publish_ok|]. intros room [= <-]. eexists. split; [cbn; apply lookup_insert_eq|done].
Qed.

Lemma ensureRoom_wp key w : rooms_ok w → 0 ∉ Namespace key →
  wp_open (ensureRoom pool fuel p key) (λ x w', rooms_ok w' ∧ ∀ room, x = Ok room → is_room key room w') w.
Proof.
  intros Hw Hn w1 i1 R1 _. pose proof (oo_ok _ _ R1 Hw) as H1. change (answer (FindRoom key) i1 w1) with (w_rooms w1 !! key, w1). cbn [fst snd]. destruct (w_rooms w1 !! key) as [room|] eqn:E1.
  { split; [done|]. intros room' [= <-]. by apply (ro_map _ H1). }
  intros w2 i2 R2 _. pose proof (oo_ok _ _ R2 H1) as H2. change (answer (JoinLoad ?n) i2 w2) with (flight w2 n, w2). cbn [fst snd]. destruct (flight w2 _) as [loaded|] eqn:Ef.
  { split; [done|]. intros room ->. apply flight_shares in Ef. destruct (ro_loads _ H2 _ _ Ef) as (r & Hr & Ek). exists r. split; [done|].
    apply load_key_inj; [by apply (ro_plain _ H2 room)|done..]. }
  apply wp_bind. eapply wp_mono with (P := λ x w', rooms_ok w' ∧ ∀ room, x = Ok room → is_room key room w').
  - intros x w3 [H3 Hx] w4 i4 R4 _. pose proof (oo_ok _ _ R4 H3) as H4. cbn.
    assert (∀ room, x = Ok room → is_room key room w4) as Hx4 by (intros room ->; eapply is_room_next; [apply R4|by apply Hx]).
    split; [|exact Hx4]. destruct H4 as [H5 H6 H7]. split; cbn; [done| |done].
    intros name room. destruct (decide (name = providerRoomLoadKey key)) as [->|Hne]; [rewrite lookup_insert_eq|rewrite lookup_insert_ne by done; apply H6].
    cbn. intros [Hx5|Hx5]%elem_of_cons; [|by apply H6]. destruct (Hx4 room (eq_sym Hx5)) as (r & Hr & Hk). exists r. by rewrite Hk.
  - intros w3 i3 R3 _. pose proof (oo_ok _ _ R3 H2) as H3. cbn. destruct (w_rooms w3 !! key) as [room|] eqn:E3; [|by apply loadRoom_wp].
    split; [done|]. intros room' [= <-]. by apply (ro_map _ H3).
Qed.

(** C40: Open gives a connection to the document that was asked for.  While any other
    calls run, and whichever load in flight the call joins, a connection that is
    returned is in a room of the key, under the name and with the client that
    were given, and open; this needs that no namespace has a NUL byte. *)
Theorem Open_connects (key : DocumentKey) (id : bytes) (client : Z) (w : World) (Hw : rooms_ok w) (Hn : 0 ∉ Namespace key) :
  wp others_open (λ _, True) (Open pool fuel order p key id client) (λ x w', rooms_ok w' ∧ ∀ c, x = Ok c →
    ∃ r o, w_heap w' !! conn_room c = Some r ∧ room_key r = key ∧ room_objects r !! conn_index c = Some o ∧
      cn_id o = id ∧ cn_clientID o = client ∧ cn_closed o = false ∧ room_connections r !! id = Some (conn_index c)) w.
Proof.
  unfold Open. destruct (is_blank id); [done|]. destruct (DocumentKey_Validate key); [done|]. cbn [io_require]. apply wp_then.
  eapply wp_mono; [|by apply ensureRoom_wp]. intros [room|err] w0 [H0 Hr]; [|done]. destruct (Hr room eq_refl) as (r0 & Er0 & Ek0). clear Hr.
  intros w1 i1 R1 _. pose proof (oo_ok _ _ R1 H0) as H1. destruct (oo_next _ _ R1 _ _ Er0) as (r & Er & Nr).
  change (answer (LockRoom room) i1 w1) with (room_at w1 room, mkWorld (w_heap w1) (w_rooms w1) ({[room]} ∪ w_locked w1) (w_loads w1) (w_store w1)). cbn [fst snd].
  assert (room_at w1 room = r) as -> by (unfold room_at; by rewrite Er). cbn.
  assert (room_key (attach order room id client r).2 = key) as Ek by (unfold attach; repeat case_match; cbn; by rewrite (rn_key _ _ Nr)).
  destruct (attach order room id client r) as [out r'] eqn:Ea. intros w2 i2 R2 _.
  assert (rooms_ok w2) as H2 by (apply (oo_ok _ _ R2); by eapply rooms_ok_same; [..|exact H1]).
  assert (w_heap w2 !! room = Some r) as Er2 by (rewrite (oo_held _ _ R2); [done|cbn; set_solver]). cbn in Ek.
  cbn. split.
  - destruct H2 as [H3 H4 H5]. assert (∀ room0 r0, w_heap w2 !! room0 = Some r0 → ∃ r1, <[room := r']> (w_heap w2) !! room0 = Some r1 ∧ room_key r1 = room_key r0) as Hold.
    { intros room0 r1 H6. destruct (decide (room0 = room)) as [->|Hne]; [|exists r1; by rewrite lookup_insert_ne].
      exists r'. rewrite lookup_insert_eq. split; [done|]. rewrite Er2 in H6. injection H6 as <-. by rewrite Ek, (rn_key _ _ Nr). }
    split; cbn.
    + intros key0 room0 H6. destruct (H3 _ _ H6) as (r1 & H7 & <-). by apply Hold.
    + intros name room0 H6. destruct (H4 _ _ H6) as (r1 & H7 & <-). destruct (Hold _ _ H7) as (r2 & H8 & H9). exists r2. by rewrite H9.
    + intros room0 r1 [[<- <-]|[_ H6]]%lookup_insert_Some; [by rewrite Ek|by eapply H5].
  - intros c ->. revert Ea. unfold attach. destruct (room_authorityLost r); [done|]. case_bool_decide; [done|]. destruct (existsb _ _); [done|]. intros [= <- <-].
    eexists _, _. split; [cbn; apply lookup_insert_eq|]. split; [done|]. cbn. split; [by apply list_lookup_middle|]. split_and!; [done..|]. apply lookup_insert_eq.
Qed.

End opening.

(** ** Schedules of one process

    Calls on a provider over a memory store, without fences, where no load of a room
    is shared with another. *)

#[export] Instance alone : Services.
Proof. refine {| flight _ _ := None; resolve _ _ _ := Err storage_ErrAuthorityLost |}. done. Defined.

Definition visit (m : gmap bytes nat) : list nat := (map_to_list m).*2.
Definition memory_provider : Provider := mkProvider (Some memory_interfaces) false.
Definition job (q : request) : io (option error) := serve sample_pool 9 visit memory_provider q.

(** A call starts; the [j]th call takes its next [n] actions. *)
Definition begins (q : request) : list (request + nat) := [inl q].
Definition turns (j n : nat) : list (request + nat) := replicate n (inr j).
Definition play (l : list (request + nat)) : option (list (io (option error)) * World) :=
  schedule enabled (map (λ t, match t with inl q => inl (job q) | inr j => inr (j, mkInstant None 10) end) l) ([], World_New Store_New).

(** The message with the update of a client. *)
Definition says (client : Z) : bytes := EncodeProtocolSyncUpdate (one_update client).

Definition plain_options : ConnectionHandleOptions := mkOptions UpdateFormatUnknown UpdateFormatUnknown.

(** What the calls have returned, the documents that a recovery would find, and the
    rooms of the map. *)
Definition outcome (c : option (list (io (option error)) * World)) : option (list (option (option error)) * option (list Z) * list nat) :=
  match c with
  | None => None
  | Some (ts, w) => Some (map (λ m, match m with Ret x => Some x | _ => None end) ts, recovered_clients (run recovery (calm 20) (w_store w)), (map_to_list (w_rooms w)).*2)
  end.

Abbreviation reachable := (rtc (pool_step enabled (starts sample_pool 9 visit memory_provider)) ([], World_New Store_New)).

Lemma play_reaches (P : list (io (option error)) * World → Prop) l :
  match play l with Some c => P c | None => False end → ∃ c, reachable c ∧ P c.
Proof.
  destruct (play l) as [c|] eqn:E; [|done]. intros Hc. exists c. split; [|done]. eapply schedule_steps; [|exact E].
  apply Forall_fmap, Forall_forall. intros [q|j] _; [by exists q|done].
Qed.

(** The first connection closes while a second is being opened, and a third one opens
    a room anew before it: the second and the third are in different rooms of one
    document.  Both of them send an update, which is accepted and in the log; then
    one of them persists its room. *)
Definition split_rooms : list (request + nat) :=
  begins (ReqOpen doc_key [120] 1) ++ turns 0 11 ++
  begins (ReqOpen doc_key [121] 2) ++ turns 1 1 ++
  begins (ReqClose (Some (mkConn 0 0))) ++ turns 2 4 ++
  turns 1 2 ++
  begins (ReqOpen doc_key [122] 3) ++ turns 3 11 ++
  begins (ReqHandle (Some (mkConn 0 1)) (says 7) plain_options) ++ turns 4 7 ++
  begins (ReqHandle (Some (mkConn 1 0)) (says 8) plain_options) ++ turns 5 7.

Definition split_then_persist : list (request + nat) := split_rooms ++ begins (ReqPersist (Some (mkConn 1 0))) ++ turns 6 7.

(** An accepted update is lost: after [split_rooms] the document has both updates; all
    calls succeed, persisting as well, and the document has the second one only. *)
Theorem split_rooms_lose_update :
  (∃ c, reachable c ∧ outcome (Some c) = Some (replicate 6 (Some None), Some [7; 8], [1%nat])) ∧
  (∃ c, reachable c ∧ outcome (Some c) = Some (replicate 7 (Some None), Some [8], [1%nat])).
Proof. split; [apply (play_reaches _ split_rooms)|apply (play_reaches _ split_then_persist)]; by vm_compute. Qed.

(** A persist looks at the room, a second one, after another update, saves and trims;
    then the first one saves its older snapshot over the newer one. *)
Definition overlapping_persists : list (request + nat) :=
  begins (ReqOpen doc_key [120] 1) ++ turns 0 11 ++
  begins (ReqHandle (Some (mkConn 0 0)) (says 7) plain_options) ++ turns 1 7 ++
  begins (ReqPersist (Some (mkConn 0 0))) ++ turns 2 2 ++
  begins (ReqHandle (Some (mkConn 0 0)) (says 8) plain_options) ++ turns 3 7 ++
  begins (ReqPersist (Some (mkConn 0 0))) ++ turns 4 7.

(** Two persists of one room that overlap: the second one has saved both updates, and
    when the first one has ended, without an error, the store has lost one. *)
Theorem persists_lose_update :
  (∃ c, reachable c ∧ outcome (Some c) = Some ([Some None; Some None; None; Some None; Some None], Some [7; 8], [0%nat])) ∧
  (∃ c, reachable c ∧ outcome (Some c) = Some (replicate 5 (Some None), Some [7], [0%nat])).
Proof. split; [apply (play_reaches _ overlapping_persists)|apply (play_reaches _ (overlapping_persists ++ turns 2 5))]; by vm_compute. Qed.

(** A load of another key that joins a load in flight of the same name. *)
Definition sharing : Services.
Proof.
  refine {| flight w name := head (default [] (w_loads w !! name)); resolve _ _ _ := Err storage_ErrAuthorityLost |}.
  intros w name res. destruct (default [] _); [done|]. intros [= ->]. by left.
Defined.

(** Two keys with one name, as their namespaces have a NUL byte. *)
Definition first_key : DocumentKey := mkDocumentKey [97] [98; 0; 99].
Definition second_key : DocumentKey := mkDocumentKey [97; 0; 98] [99].

(** Opening a document can attach the connection to a room of another document: the
    name under which loads are shared is not injective. *)
Theorem loads_confuse_keys :
  let opens key id client := Open sample_pool 9 visit memory_provider key id client in
  let runs {A} (m : io A) w := @run _ _ _ (@provider_handler sharing) _ m (calm 20) w in
  first_key ≠ second_key ∧ DocumentKey_Validate second_key = None ∧
  match runs (opens first_key [120] 1) (World_New Store_New) with
  | Some (Ok c, w) =>
      match runs (opens second_key [121] 2) w with
      | Some (Ok c', w') => conn_room c' = conn_room c ∧ room_key (room_at w' (conn_room c')) = first_key
      | _ => False
      end
  | _ => False
  end.
Proof. split; [done|]. split; [done|]. by vm_compute. Qed.

(** ** Witnesses *)

Lemma visit_visits m : visit m ≡ₚ (map_to_list m).*2.
Proof. done. Qed.

(** Two connections of a document, one of which is being closed. *)
Definition one_left : list (request + nat) :=
  begins (ReqOpen doc_key [120] 1) ++ turns 0 11 ++ begins (ReqOpen doc_key [121] 2) ++ turns 1 3 ++
  begins (ReqClose (Some (mkConn 0 0))) ++ turns 2 1.

Lemma rooms_in_order_witness : ∃ c r, reachable c ∧ w_rooms c.2 !! doc_key = Some 0%nat ∧ w_heap c.2 !! 0%nat = Some r ∧ room_key r = doc_key ∧ room_ok r.
Proof.
  destruct (play_reaches (λ c, w_rooms c.2 !! doc_key = Some 0%nat) one_left) as ([ts w] & Hr & Hk); [vm_compute; reflexivity|].
  destruct (rooms_in_order sample_pool 9 visit memory_provider visit_visits Store_New ts w Hr) as (H1 & H2 & _).
  destruct (H1 _ _ Hk) as (r & Hr' & Ek). exists (ts, w), r. split; [exact Hr|]. split; [exact Hk|]. split; [exact Hr'|]. split; [exact Ek|]. exact (H2 _ _ Hr').
Defined.

(** The first call still holds the room, and the second one waits for it. *)
Definition one_waits : list (request + nat) :=
  begins (ReqOpen doc_key [120] 1) ++ turns 0 10 ++ begins (ReqOpen doc_key [121] 2) ++ turns 1 1.


(** A room whose document is the only record of the log, and the world with it. *)
Definition one_record : Store := append_one 7 Store_New.
Definition one_room : providerRoom := room_new doc_key (v2_of 7) 1 0 None.
Definition one_world : World := mkWorld {[0%nat := one_room]} {[doc_key := 0%nat]} ∅ ∅ one_record.

Lemma one_log : log one_record doc_key = [mkUpdateLogRecord doc_key 1 (v2_of 7) (one_update 7) 0 1].
Proof. vm_compute. reflexivity. Qed.

Lemma one_sound : sound one_record.
Proof. apply sound_append; [apply sound_new|]. apply room_of. vm_compute. reflexivity. Qed.

Lemma one_fits : fits (one_document 7).
Proof.
  split.
  - intros d1 Hd. vm_compute in Hd. injection Hd as <-. apply (bool_decide_unpack _). vm_compute. exact I.
  - intros q d' d2 Hq Hd Hd2. vm_compute in Hq. injection Hq as <-. vm_compute in Hd. injection Hd as <-. vm_compute in Hd2. injection Hd2 as <-.
    apply (bool_decide_unpack _). vm_compute. exact I.
Qed.

Lemma one_in_step : in_step doc_key one_room one_record.
Proof.
  split.
  - exact one_sound.
  - reflexivity.
  - exists (one_document 7). split; [apply v2_document; tauto|]. split; [exact one_fits|]. intros del c x. split.
    + intros (d & [(r & v & Hr & Hv & Hd)|(m & Hi & _)] & Hm); [|by vm_compute in Hi].
      rewrite one_log in Hr. apply list_elem_of_singleton in Hr as ->. cbn [updateLogRecordV2 StorageTypes.UpdateV2] in Hv.
      assert (v = v2_of 7) as -> by (vm_compute in Hv; injection Hv as <-; vm_compute; reflexivity).
      by rewrite (document_unique _ _ _ (v2_document 7 ltac:(tauto)) Hd) in Hm.
    + intros Hm. exists (one_document 7). split; [|done]. left. eexists _, (v2_of 7). rewrite one_log. split; [by left|]. split; [vm_compute; reflexivity|].
      apply v2_document; tauto.
  - intros r. rewrite one_log. intros ->%list_elem_of_singleton. cbn. lia.
  - vm_compute. discriminate.
  - reflexivity.
Qed.

(** The second update joins the room. *)
Lemma update_in_step_witness : in_step doc_key one_room one_record ∧
  wp (moves doc_key) (λ _, True) (applyDocumentPayloadLocked sample_pool 9 memory_provider doc_key (one_update 8) one_room) (λ x w',
    in_step doc_key x.2 (w_store w') ∧
    match x.1 with
    | Ok u => u = v2_of 8 ∧ ∀ del c x, stored doc_key (w_store w') del c x ↔ stored doc_key one_record del c x ∨ marked (one_document 8) del c x
    | Err _ => ∀ del c x, stored doc_key (w_store w') del c x ↔ stored doc_key one_record del c x
    end) one_world.
Proof.
  split; [exact one_in_step|].
  pose (d3 := default (one_document 7) (match merged_document [one_document 7; one_document 8] with Ok d => Some d | Err _ => None end)).
  apply (update_in_step (pool := sample_pool) (fuel := 9) (resolves := false) (key := doc_key) eq_refl (one_update 8) (v2_of 8) (one_document 7) (one_document 8) d3 one_room one_world).
  - vm_compute. reflexivity.
  - apply (v2_document 7). tauto.
  - apply (v2_document 8). tauto.
  - split; [reflexivity|]. split; [reflexivity|]. split; intros _; left; intros i Hi; apply elem_of_list_to_set, elem_of_seq; (split; [lia|exact Hi]).
  - vm_compute. reflexivity.
  - apply (bool_decide_unpack _). vm_compute. exact I.
  - split.
    + intros d1 Hd. vm_compute in Hd. injection Hd as <-. apply (bool_decide_unpack _). vm_compute. exact I.
    + intros q d' d2 Hq Hd Hd2. vm_compute in Hq. injection Hq as <-. vm_compute in Hd. injection Hd as <-. vm_compute in Hd2. injection Hd2 as <-.
      apply (bool_decide_unpack _). vm_compute. exact I.
  - exact one_in_step.
Defined.


Lemma Open_connects_witness : rooms_ok (World_New Store_New) ∧
  wp others_open (λ _, True) (Open sample_pool 9 visit memory_provider doc_key [120] 1) (λ x w', rooms_ok w' ∧ ∀ c, x = Ok c →
    ∃ r o, w_heap w' !! conn_room c = Some r ∧ room_key r = doc_key ∧ room_objects r !! conn_index c = Some o ∧
      cn_id o = [120] ∧ cn_clientID o = 1 ∧ cn_closed o = false ∧ room_connections r !! [120] = Some (conn_index c)) (World_New Store_New).
Proof.
  assert (rooms_ok (World_New Store_New)) as H.
  { split; cbn; [by intros key room ?%lookup_empty_Some| |by intros room r ?%lookup_empty_Some]. intros name room. rewrite lookup_empty. cbn. by intros ?%not_elem_of_nil. }
  split; [exact H|]. apply Open_connects; [exact H|]. cbn. intros E. apply list_elem_of_singleton in E. discriminate.
Defined.
