(* ===== verification/HttpSpec.v ===== *)
(** * Properties of the guards of the HTTP layer and of the speech between nodes *)
From S2P Require Import Prelude GoError Varint GoText GoFloat GoJson GoAny StorageTypes NodeFrame NodeMessage ClusterTypes Awareness YProtocol YStream Facade WireCompat Http HttpNode AwarenessSpec YProtocolSpec.
Import varint.

(** ** Rate limits *)

(** The key of a bucket. *)
Definition rate_key (raw : bytes) : bytes := match TrimSpace raw with [] => str "anonymous" | key => key end.

(** The requests that were let through, by key and time, and the limiter. *)
Definition rate_step (st : list (bytes * Z) * FixedWindowRateLimiter) (call : bytes * Z) : list (bytes * Z) * FixedWindowRateLimiter :=
  match AllowHTTP None call.1 call.2 st.2 with
  | (None, l) => (st.1 ++ [(rate_key call.1, call.2)], l)
  | (Some _, l) => (st.1, l)
  end.

(** How many requests of a key were let through in [[a, b)]. *)
Definition passed (key : bytes) (a b : Z) (acc : list (bytes * Z)) : Z := Z.of_nat (length (filter (λ e, e.1 = key ∧ a <= e.2 < b) acc)).

Section rate.
Context {limit window : Z}.
Hypotheses (limit_pos : 0 < limit) (window_pos : 0 < window) (window_max : window <= maxDuration).

Record rate_ok (acc : list (bytes * Z)) (l : FixedWindowRateLimiter) (last : Z) : Prop := {
  ra_limit : rl_limit l = limit;
  ra_window : rl_window l = window;
  ra_last key t : (key, t) ∈ acc → t <= last;
  ra_none key : rl_buckets l !! key = None → ∀ a b, passed key a b acc = 0;
  ra_bucket key b : rl_buckets l !! key = Some b → 0 < b_start b <= last ∧ b_count b <= limit ∧
    passed key (b_start b) (last + 1) acc = b_count b ∧ passed key (b_start b - window) (b_start b) acc <= limit ∧
    ∀ t, (key, t) ∈ acc → t < b_start b + window;
  ra_rate key a : passed key a (a + window) acc <= 2 * limit }.

Lemma passed_app key a b acc acc' : passed key a b (acc ++ acc') = passed key a b acc + passed key a b acc'.
Proof. unfold passed. rewrite filter_app, length_app. lia. Qed.

(** One request. *)
Definition passes (key : bytes) (a b : Z) (e : bytes * Z) : Z := if decide (e.1 = key) then if decide (a <= e.2 < b) then 1 else 0 else 0.

Lemma passed_cons key a b e acc : passed key a b (e :: acc) = passes key a b e + passed key a b acc.
Proof. unfold passed, passes. rewrite filter_cons. repeat case_decide; try tauto; cbn [length]; lia. Qed.

Lemma passed_pos key a b acc : 0 <= passed key a b acc.
Proof. unfold passed. lia. Qed.

Lemma passed_mono key a b a' b' acc : (∀ t, (key, t) ∈ acc → a <= t < b → a' <= t < b') → passed key a b acc <= passed key a' b' acc.
Proof.
  induction acc as [|[k t] acc IH]; intros H; [done|]. rewrite !passed_cons. unfold passes. cbn [fst snd].
  assert (passed key a b acc <= passed key a' b' acc) by (apply IH; intros u Hu; apply H; by right).
  destruct (decide (k = key)) as [->|]; [|lia]. specialize (H t ltac:(by left)). repeat case_decide; lia.
Qed.

Lemma passed_split key a b c acc : a <= b <= c → passed key a c acc = passed key a b acc + passed key b c acc.
Proof.
  intros Hab. induction acc as [|[k t] acc IH]; [done|]. rewrite !passed_cons, IH. unfold passes. cbn [fst snd]. repeat case_decide; lia.
Qed.

Lemma passed_none key a b acc : (∀ t, (key, t) ∈ acc → ¬ a <= t < b) → passed key a b acc = 0.
Proof.
  intros H. pose proof (passed_mono key a b 0 0 acc) as Hm. pose proof (passed_pos key a b acc).
  assert (passed key 0 0 acc = 0) as E by (clear; induction acc as [|[k t] acc IH]; [done|]; rewrite passed_cons, IH; unfold passes; repeat case_decide; lia).
  rewrite E in Hm. enough (passed key a b acc <= 0) by lia. apply Hm. intros t Ht Hin. by destruct (H t Ht).
Qed.

(** A new window begins, with nothing passed in it. *)
Definition opened (key : bytes) (now : Z) (l : FixedWindowRateLimiter) : fixedWindowBucket :=
  let bucket := default (mkBucket 0 0) (rl_buckets l !! key) in
  if IsZero (b_start bucket) || (rl_window l <=? Sub now (b_start bucket)) || Before now (b_start bucket) then mkBucket now 0 else bucket.

(** The bucket [b] has what passed in its window, of which [now] is a moment. *)
Definition bucket_at (acc : list (bytes * Z)) (key : bytes) (b : fixedWindowBucket) (now : Z) : Prop :=
  0 < b_start b <= now ∧ now < b_start b + window ∧ b_count b <= limit ∧
  passed key (b_start b) (now + 1) acc = b_count b ∧ passed key (b_start b - window) (b_start b) acc <= limit.

Lemma opened_ok acc l last now key : rate_ok acc l last → 0 < now → last <= now → bucket_at acc key (opened key now l) now.
Proof.
  intros [H1 H2 H3 H4 H5 H6] Hnow Hlast. unfold opened, bucket_at. destruct (rl_buckets l !! key) as [b|] eqn:E; cbn [default from_option id].
  - destruct (H5 _ _ E) as (Hs & Hc & Hp & Hb & Ht). assert (IsZero (b_start b) = false) as -> by (unfold IsZero; lia).
    assert (Before now (b_start b) = false) as -> by (unfold Before; lia). rewrite orb_false_r. cbn [orb]. rewrite H2.
    assert ((window <=? Sub now (b_start b)) = (b_start b + window <=? now)) as -> by (unfold Sub, maxDuration, minDuration in *; lia).
    destruct (Z.leb_spec (b_start b + window) now) as [Hn|Hn]; cbn [b_start b_count].
    + assert (passed key now (now + 1) acc = 0) as -> by (apply passed_none; intros t Hin ?; specialize (Ht _ Hin); lia).
      split_and!; [lia..|]. etrans; [|exact Hc]. rewrite <- Hp. apply passed_mono. intros t Hin ?. specialize (H3 _ _ Hin). lia.
    + split_and!; [lia..| |done]. rewrite <- Hp. apply Z.le_antisymm; apply passed_mono; intros t Hin ?; specialize (H3 _ _ Hin); lia.
  - cbn [b_start IsZero]. change (IsZero 0) with true. cbn [orb b_start b_count]. rewrite !(H4 _ E). lia.
Qed.

(** The bucket is put back, with the request when it passed. *)
Lemma bucket_put acc l last now key b : rate_ok acc l last → 0 < now → last <= now → bucket_at acc key b now → rate_ok acc (set_bucket key b l) now.
Proof.
  intros [H1 H2 H3 H4 H5 H6] Hnow Hlast (B1 & B2 & B3 & B4 & B5). split; cbn; [done|done|intros k t Ht; specialize (H3 _ _ Ht); lia| | |done].
  - intros k [Hk ?]%lookup_insert_None. by apply H4.
  - intros k b' [[<- <-]|[Hne Hb]]%lookup_insert_Some.
    + split_and!; [lia..|done|done|]. intros t Hin. specialize (H3 _ _ Hin). lia.
    + destruct (H5 _ _ Hb) as (? & ? & Hc & ? & ?). split_and!; [lia|lia|done| |done|done].
      rewrite <- Hc. apply Z.le_antisymm; apply passed_mono; intros t Ht ?; specialize (H3 _ _ Ht); lia.
Qed.

Lemma bucket_pass acc l last now key b : rate_ok acc l last → 0 < now → last <= now → bucket_at acc key b now → b_count b < limit →
  rate_ok (acc ++ [(key, now)]) (set_bucket key (mkBucket (b_start b) (b_count b + 1)) l) now.
Proof.
  intros [H1 H2 H3 H4 H5 H6] Hnow Hlast (B1 & B2 & B3 & B4 & B5) Hfree.
  assert (∀ k a c, passed k a c (acc ++ [(key, now)]) = passed k a c acc + passes k a c (key, now)) as Hadd
    by (intros k a c; rewrite passed_app, passed_cons; change (passed k a c []) with 0; lia).
  assert (∀ k a c, k ≠ key → passes k a c (key, now) = 0) as Hother by (intros k a c Hk; unfold passes; cbn [fst]; by rewrite decide_False).
  assert (∀ a c, passes key a c (key, now) = if decide (a <= now < c) then 1 else 0) as Hsame by (intros; unfold passes; cbn [fst snd]; by rewrite decide_True).
  split; cbn; [done|done| | | |].
  - intros k t [Ht|Ht]%elem_of_app; [specialize (H3 _ _ Ht); lia|]. apply list_elem_of_singleton in Ht as [= -> ->]. lia.
  - intros k [Hk ?]%lookup_insert_None a c. by rewrite Hadd, H4, Hother.
  - intros k b' [[<- <-]|[Hne Hb]]%lookup_insert_Some; cbn [b_start b_count].
    + rewrite !Hadd, !Hsame, B4, decide_True by lia. rewrite decide_False by lia. split_and!; [lia..|].
      intros t [Hin|Hin]%elem_of_app; [specialize (H3 _ _ Hin); lia|]. apply list_elem_of_singleton in Hin as [= ->]. lia.
    + destruct (H5 _ _ Hb) as (? & ? & Hc & Hw & Ht). rewrite !Hadd, !Hother by done. split_and!; [lia|lia|lia| |lia|].
      * rewrite <- Hc, Z.add_0_r. apply Z.le_antisymm; apply passed_mono; intros t Hin ?; specialize (H3 _ _ Hin); lia.
      * intros t [Hin|Hin]%elem_of_app; [by apply Ht|]. apply list_elem_of_singleton in Hin as [= -> ->]. done.
  - intros k a. destruct (decide (k = key)) as [->|Hk]; [|rewrite Hadd, Hother by done; specialize (H6 k a); lia].
    rewrite Hadd, Hsame. case_decide as Hin; [|specialize (H6 key a); lia].
    assert (∀ c d, (∀ t, (key, t) ∈ acc → a <= t < a + window → c <= t < d) → passed key a (a + window) acc <= passed key c d acc) as Hm by (intros; by apply passed_mono).
    assert (passed key a (a + window) acc <= passed key (b_start b - window) (now + 1) acc) as Hle by (apply Hm; intros t Ht ?; specialize (H3 _ _ Ht); lia).
    rewrite (passed_split key (b_start b - window) (b_start b)) in Hle by lia. lia.
Qed.

Lemma rate_step_ok acc l last raw now : rate_ok acc l last → 0 < now → last <= now →
  rate_ok (rate_step (acc, l) (raw, now)).1 (rate_step (acc, l) (raw, now)).2 now.
Proof.
  intros Hok Hnow Hlast. unfold rate_step, AllowHTTP. cbn [fst snd]. fold (rate_key raw). set (key := rate_key raw). fold (opened key now l).
  pose proof (opened_ok _ _ _ _ key Hok Hnow Hlast) as Hb. rewrite (ra_limit _ _ _ Hok). destruct (Z.leb_spec limit (b_count (opened key now l))).
  - by eapply bucket_put.
  - by eapply bucket_pass.
Qed.

End rate.

(** The calls come one after another. *)
Fixpoint in_order (last : Z) (calls : list (bytes * Z)) : Prop :=
  match calls with [] => True | (_, now) :: calls => last <= now ∧ in_order now calls end.

(** C23: The limiter keeps its rate.  However requests of whatever keys come, as long
    as the clock does not go back, in no interval as long as the window are more
    than twice the limit of requests of a key let through; and the requests let
    through since the window of a key began are those its bucket counts, at most
    the limit. *)
Theorem rate_bounded (limit window : Z) (calls : list (bytes * Z)) (acc : list (bytes * Z)) (l0 l : FixedWindowRateLimiter)
    (Hnew : NewFixedWindowRateLimiter limit window = Ok l0) (Hmax : window <= maxDuration) (Hcalls : in_order 1 calls)
    (Hrun : foldl rate_step ([], l0) calls = (acc, l)) :
  (∀ key a, passed key a (a + window) acc <= 2 * limit) ∧
  (∀ key b t, rl_buckets l !! key = Some b → b_count b <= limit ∧ passed key (b_start b) (t + 1) acc <= b_count b).
Proof.
  unfold NewFixedWindowRateLimiter in Hnew. destruct (Z.leb_spec limit 0); [done|]. destruct (Z.leb_spec window 0); [done|]. injection Hnew as <-.
  assert (∀ calls acc0 l0 last, @rate_ok limit window acc0 l0 last → 1 <= last → in_order last calls → foldl rate_step (acc0, l0) calls = (acc, l) →
    ∃ last, @rate_ok limit window acc l last) as Hall.
  { clear -H H0 Hmax. intros calls. induction calls as [|[raw now] calls IH]; intros acc0 l0 last Hok Hl Hc; cbn.
    - intros [= <- <-]. by exists last.
    - destruct Hc as [Hn Hc]. destruct (rate_step (acc0, l0) (raw, now)) as [acc1 l1] eqn:E. apply IH with now; [|lia|done].
      pose proof (rate_step_ok H H0 Hmax acc0 l0 last raw now Hok ltac:(lia) Hn) as Hs. by rewrite E in Hs. }
  destruct (Hall calls [] (mkLimiter limit window ∅) 1) as (last & [H1 H2 H3 H4 H5 H6]); [|done..|].
  { split; cbn; [done|done|by intros ? ? ?%not_elem_of_nil|done| |]; [by intros key b ?%lookup_empty_Some|]. intros key a. unfold passed. cbn. lia. }
  split; [done|]. intros key b t Hb. destruct (H5 _ _ Hb) as (_ & Hl & Hc & _). split; [exact Hl|].
  rewrite <- Hc. apply passed_mono. intros u Hu ?. specialize (H3 _ _ Hu). lia.
Qed.

Definition sample_calls : list (bytes * Z) := [([120], 5); ([120], 14); ([121], 14); ([120], 14); ([120], 15); ([120], 16)].

Lemma rate_bounded_witness : ∃ acc l, foldl rate_step ([], mkLimiter 2 10 ∅) sample_calls = (acc, l) ∧ passed [120] 10 20 acc = 3 ∧
  passed [120] 10 (10 + 10) acc <= 2 * 2.
Proof.
  destruct (foldl rate_step ([], mkLimiter 2 10 ∅) sample_calls) as [acc l] eqn:E. exists acc, l. split; [reflexivity|].
  destruct (rate_bounded 2 10 sample_calls acc (mkLimiter 2 10 ∅) l eq_refl) as [H _]; [unfold maxDuration; lia|cbn; lia|exact E|].
  split; [|apply H]. vm_compute in E. injection E as <- _. vm_compute. reflexivity.
Defined.

(** ** Quotas *)

Inductive quota_call :=
| CallOpen (req : Request)
| CallFrame (lease : nat) (direction : QuotaDirection) (bytes : Z)
| CallClose (lease : nat).

(** A limiter and the leases it has given. *)
Definition quota_step (st : LocalQuotaLimiter * list localQuotaLease) (call : quota_call) : LocalQuotaLimiter * list localQuotaLease :=
  let '(l, leases) := st in
  match call with
  | CallOpen req => match OpenQuota req l with (Ok lease, l) => (l, leases ++ [lease]) | (Err _, l) => (l, leases) end
  | CallFrame i direction bytes =>
      match leases !! i with Some lease => (l, <[i := (AllowFrame (q_cfg l) direction bytes lease).2]> leases) | None => st end
  | CallClose i =>
      match leases !! i with Some lease => let '(lease, l) := QuotaLease_Close lease l in (l, <[i := lease]> leases) | None => st end
  end.

(** How many leases are open and pass a test. *)
Definition open_leases (test : localQuotaLease → bool) (leases : list localQuotaLease) : Z :=
  Z.of_nat (length (filter (λ lease, lq_closed lease = false ∧ test lease = true) leases)).

Definition of_tenant (key : bytes) (lease : localQuotaLease) : bool := bool_decide (lq_tenantKey lease = key).
Definition of_document (key : bytes) (lease : localQuotaLease) : bool := bool_decide (lq_documentKey lease = key).
Definition any_lease (lease : localQuotaLease) : bool := true.

Definition within (limit n : Z) : Prop := 0 < limit → n <= limit.

Record quota_ok (l : LocalQuotaLimiter) (leases : list localQuotaLease) : Prop := {
  qo_total : q_total l = open_leases any_lease leases;
  qo_tenant key : count_of (q_byTenant l) key = open_leases (of_tenant key) leases;
  qo_document key : count_of (q_byDocument l) key = open_leases (of_document key) leases;
  qo_max : within (MaxConnections (q_cfg l)) (open_leases any_lease leases);
  qo_max_tenant key : within (MaxConnectionsPerTenant (q_cfg l)) (open_leases (of_tenant key) leases);
  qo_max_document key : within (MaxConnectionsPerDocument (q_cfg l)) (open_leases (of_document key) leases) }.

Definition counts (test : localQuotaLease → bool) (lease : localQuotaLease) : Z := if negb (lq_closed lease) && test lease then 1 else 0.

Lemma open_leases_cons test lease leases : open_leases test (lease :: leases) = counts test lease + open_leases test leases.
Proof. unfold open_leases, counts. rewrite filter_cons. destruct (lq_closed lease), (test lease); cbn [negb andb]; case_decide; naive_solver lia. Qed.

Lemma open_leases_app test leases leases' : open_leases test (leases ++ leases') = open_leases test leases + open_leases test leases'.
Proof. unfold open_leases. rewrite filter_app, length_app. lia. Qed.

Lemma open_leases_insert test leases i lease lease' : leases !! i = Some lease →
  open_leases test (<[i := lease']> leases) = open_leases test leases - counts test lease + counts test lease'.
Proof.
  revert i. induction leases as [|x leases IH]; intros [|i] Hi; [done..| |].
  - injection Hi as ->. change (<[0%nat := lease']> (lease :: leases)) with (lease' :: leases). rewrite !open_leases_cons. lia.
  - change (<[S i := lease']> (x :: leases)) with (x :: <[i := lease']> leases). rewrite !open_leases_cons, (IH i Hi). lia.
Qed.

Lemma open_leases_pos test leases i lease : leases !! i = Some lease → counts test lease <= open_leases test leases.
Proof.
  intros Hi. pose proof (open_leases_insert test leases i lease (mkQuotaLease [] [] true 0 0) Hi) as E.
  assert (0 <= open_leases test (<[i := mkQuotaLease [] [] true 0 0]> leases)) by (unfold open_leases; lia). unfold counts at 2 in E. cbn in E. lia.
Qed.

Lemma count_insert m key k n : count_of (<[key := n]> m) k = if decide (k = key) then n else count_of m k.
Proof. unfold count_of. case_decide; [subst; by rewrite lookup_insert_eq|by rewrite lookup_insert_ne]. Qed.

Lemma count_decrement m key k : 0 <= count_of m key → (count_of m key = 0 → count_of (decrementQuotaCounter m key) k = count_of m k) ∧
  (0 < count_of m key → count_of (decrementQuotaCounter m key) k = count_of m k - if decide (k = key) then 1 else 0).
Proof.
  intros H0. assert (∀ n, count_of (delete key m) n = if decide (n = key) then 0 else count_of m n) as Hd
    by (intros n; unfold count_of; case_decide; [subst; by rewrite lookup_delete_eq|by rewrite lookup_delete_ne]).
  unfold decrementQuotaCounter. destruct (Z.leb_spec (count_of m key) 1); rewrite ?Hd, ?count_insert; (split; intros; case_decide; subst; lia).
Qed.

Lemma counts_tenant key tenantKey documentKey : counts (of_tenant key) (mkQuotaLease tenantKey documentKey false 0 0) = if decide (key = tenantKey) then 1 else 0.
Proof. unfold counts, of_tenant. cbn. case_bool_decide; case_decide; congruence. Qed.

Lemma counts_document key tenantKey documentKey : counts (of_document key) (mkQuotaLease tenantKey documentKey false 0 0) = if decide (key = documentKey) then 1 else 0.
Proof. unfold counts, of_document. cbn. case_bool_decide; case_decide; congruence. Qed.

Lemma quota_open l leases req : quota_ok l leases → let st := quota_step (l, leases) (CallOpen req) in quota_ok st.1 st.2 ∧ q_cfg st.1 = q_cfg l.
Proof.
  intros [H1 H2 H3 H4 H5 H6]. cbn. unfold OpenQuota. set (t := quotaTenantKey req). set (d := quotaDocumentKey req).
  destruct ((0 <? MaxConnections _) && _) eqn:E1; [by split|]. destruct ((0 <? MaxConnectionsPerTenant _) && _) eqn:E2; [by split|].
  destruct ((0 <? MaxConnectionsPerDocument _) && _) eqn:E3; [by split|]. cbn. split; [|done].
  assert (∀ test, open_leases test (leases ++ [mkQuotaLease t d false 0 0]) = open_leases test leases + counts test (mkQuotaLease t d false 0 0)) as Ha
    by (intros test; rewrite open_leases_app, open_leases_cons; change (open_leases test []) with 0; lia).
  rewrite H1 in E1. rewrite (H2 t) in E2. rewrite (H3 d) in E3.
  split; cbn; [by rewrite Ha, <- H1| | | | |].
  - intros key. rewrite count_insert, Ha, counts_tenant, !H2. case_decide; subst; lia.
  - intros key. rewrite count_insert, Ha, counts_document, !H3. case_decide; subst; lia.
  - rewrite Ha. intros Hp. cbn. lia.
  - intros key Hp. rewrite Ha, counts_tenant. specialize (H5 key Hp). case_decide; subst; lia.
  - intros key Hp. rewrite Ha, counts_document. specialize (H6 key Hp). case_decide; subst; lia.
Qed.

(** A lease that changes, with the same keys. *)
Lemma quota_same l leases i lease lease' : quota_ok l leases → leases !! i = Some lease → (∀ test : localQuotaLease → bool,
    test = any_lease ∨ (∃ key, test = of_tenant key) ∨ (∃ key, test = of_document key) → counts test lease' = counts test lease) →
  quota_ok l (<[i := lease']> leases).
Proof.
  intros [H1 H2 H3 H4 H5 H6] Hi Hc.
  assert (∀ test, test = any_lease ∨ (∃ key, test = of_tenant key) ∨ (∃ key, test = of_document key) → open_leases test (<[i := lease']> leases) = open_leases test leases) as Ha
    by (intros test Ht; rewrite (open_leases_insert _ _ _ _ _ Hi), (Hc test Ht); lia).
  split; intros; rewrite Ha by eauto; eauto.
Qed.

Lemma quota_close l leases i : quota_ok l leases → let st := quota_step (l, leases) (CallClose i) in quota_ok st.1 st.2 ∧ q_cfg st.1 = q_cfg l.
Proof.
  intros Hok. pose proof Hok as [H1 H2 H3 H4 H5 H6]. cbn. destruct (leases !! i) as [lease|] eqn:Hi; [|by split]. unfold QuotaLease_Close.
  destruct (lq_closed lease) eqn:Ec; cbn; [by rewrite list_insert_id|]. split; [|done].
  set (lease' := mkQuotaLease _ _ _ _ _).
  assert (∀ test, open_leases test (<[i := lease']> leases) = open_leases test leases - counts test lease) as Ha
    by (intros test; rewrite (open_leases_insert _ _ _ _ _ Hi); unfold counts at 2; cbn; lia).
  assert (counts any_lease lease = 1) as E1 by (unfold counts; by rewrite Ec).
  assert (∀ key, counts (of_tenant key) lease = if decide (key = lq_tenantKey lease) then 1 else 0) as E2
    by (intros key; unfold counts, of_tenant; rewrite Ec; cbn; case_bool_decide; case_decide; congruence).
  assert (∀ key, counts (of_document key) lease = if decide (key = lq_documentKey lease) then 1 else 0) as E3
    by (intros key; unfold counts, of_document; rewrite Ec; cbn; case_bool_decide; case_decide; congruence).
  pose proof (λ test, open_leases_pos test leases i lease Hi) as Hpos.
  split; cbn.
  - rewrite Ha, H1, E1. specialize (Hpos any_lease). rewrite E1 in Hpos. destruct (Z.ltb_spec 0 (open_leases any_lease leases)); lia.
  - intros key. rewrite Ha, E2, <- H2. specialize (Hpos (of_tenant (lq_tenantKey lease))). rewrite E2, decide_True, <- H2 in Hpos by done.
    destruct (count_decrement (q_byTenant l) (lq_tenantKey lease) key) as [_ ->]; lia.
  - intros key. rewrite Ha, E3, <- H3. specialize (Hpos (of_document (lq_documentKey lease))). rewrite E3, decide_True, <- H3 in Hpos by done.
    destruct (count_decrement (q_byDocument l) (lq_documentKey lease) key) as [_ ->]; lia.
  - intros Hp. rewrite Ha, E1. specialize (H4 Hp). lia.
  - intros key Hp. rewrite Ha, E2. specialize (H5 key Hp). case_decide; lia.
  - intros key Hp. rewrite Ha, E3. specialize (H6 key Hp). case_decide; lia.
Qed.

Lemma quota_frame l leases i direction bytes : quota_ok l leases →
  let st := quota_step (l, leases) (CallFrame i direction bytes) in quota_ok st.1 st.2 ∧ q_cfg st.1 = q_cfg l.
Proof.
  intros Hok. cbn. destruct (leases !! i) as [lease|] eqn:Hi; [|by split]. split; [|done]. apply quota_same with lease; [done..|].
  intros test Ht. unfold AllowFrame. repeat case_match; try done; cbn; unfold counts; cbn; (destruct Ht as [->|[[key ->]|[key ->]]]; done).
Qed.

(** C22: Quotas are kept.  Whatever connections are opened, used and closed, also
    more than once, the counters of the limiter are the numbers of open leases, of
    all, of each tenant and of each document, and none of them is over its limit. *)
Theorem quota_respected (cfg : LocalQuotaLimiterConfig) (calls : list quota_call) (l0 l : LocalQuotaLimiter) (leases : list localQuotaLease)
    (Hnew : NewLocalQuotaLimiter cfg = Ok l0) (Hrun : foldl quota_step (l0, []) calls = (l, leases)) : quota_ok l leases ∧ q_cfg l = cfg.
Proof.
  unfold NewLocalQuotaLimiter in Hnew. destruct (_ || _) eqn:E; [done|]. injection Hnew as <-. apply orb_false_iff in E as [E _].
  assert (∀ calls st st', quota_ok st.1 st.2 ∧ q_cfg st.1 = cfg → foldl quota_step st calls = st' → quota_ok st'.1 st'.2 ∧ q_cfg st'.1 = cfg) as Hall.
  { clear. intros calls. induction calls as [|call calls IH]; intros [l leases] st' [Hok Hc]; cbn; [by intros <-|]. apply IH. cbn in Hc. rewrite <- Hc.
    destruct call; [by apply quota_open|by apply quota_frame|by apply quota_close]. }
  apply (Hall calls (mkQuota cfg 0 ∅ ∅, []) (l, leases)); [|done]. split; [|done].
  split; cbn; intros; try done; unfold within, open_leases; cbn; lia.
Qed.

Lemma quota_respected_witness : ∃ l leases, foldl quota_step (mkQuota (mkQuotaConfig 2 0 1 0 0 0 0) 0 ∅ ∅, [])
    [CallOpen (mkRequest (mkDocumentKey [110] [100]) [97] 1 false UpdateFormatV1 None); CallOpen (mkRequest (mkDocumentKey [110] [100]) [98] 2 false UpdateFormatV1 None);
     CallOpen (mkRequest (mkDocumentKey [110] [101]) [98] 2 false UpdateFormatV1 None); CallClose 0; CallClose 0] = (l, leases) ∧
  length leases = 2%nat ∧ q_total l = 1 ∧ quota_ok l leases.
Proof.
  destruct (foldl _ _ _) as [l leases] eqn:E. exists l, leases. split; [reflexivity|].
  destruct (quota_respected (mkQuotaConfig 2 0 1 0 0 0 0) _ _ l leases eq_refl E) as [H _]. vm_compute in E. injection E as <- <-.
  split; [reflexivity|]. split; [reflexivity|exact H].
Defined.

(** ** Trimmed text *)

Definition untrimmed (s : bytes) : Prop := leading_space s = None ∧ trailing_space s = None.

Lemma trailing_space_Some s e : trailing_space s = Some e → e `suffix_of` s ∧ e ≠ [].
Proof.
  unfold trailing_space. intros He. destruct (filter (λ e, e `suffix_of` s) space_encodings) as [|e' l] eqn:E; [done|]. injection He as ->.
  assert (e ∈ filter (λ e, e `suffix_of` s) space_encodings) as [Hp Hin]%list_elem_of_filter by (rewrite E; by left).
  split; [done|]. intros ->. revert Hin. apply (bool_decide_unpack ([] ∉ space_encodings)). vm_compute. exact Logic.I.
Qed.

Lemma leading_prefix s t : leading_space s = None → t `prefix_of` s → leading_space t = None.
Proof.
  intros Hs Ht. destruct (leading_space t) as [e|] eqn:E; [|done]. exfalso. unfold leading_space in E.
  destruct (filter (λ e, e `prefix_of` t) space_encodings) as [|e' l] eqn:Ef; [done|]. injection E as ->.
  assert (e ∈ filter (λ e, e `prefix_of` t) space_encodings) as [Hp Hin]%list_elem_of_filter by (rewrite Ef; by left).
  eapply leading_space_None; [exact Hs|exact Hin|]. by etrans.
Qed.

Lemma trim_right_spec fuel s : (length s ≤ fuel)%nat → trailing_space (trim_right fuel s) = None.
Proof.
  revert s. induction fuel as [|fuel IH]; intros s Hl; cbn [trim_right].
  - destruct s; [|cbn in Hl; lia]. vm_compute. reflexivity.
  - destruct (trailing_space s) as [e|] eqn:E; [|done]. apply trailing_space_Some in E as [[t ->] He].
    apply IH. rewrite length_take, length_app in *. destruct e; [done|]. cbn [length] in *. lia.
Qed.

Lemma TrimSpace_untrimmed s : untrimmed (TrimSpace s).
Proof.
  unfold TrimSpace. split; [|by apply trim_right_spec]. eapply leading_prefix; [|apply trim_right_prefix]. by apply trim_left_spec.
Qed.

Lemma untrimmed_TrimSpace s : untrimmed s → TrimSpace s = s.
Proof.
  intros [H1 H2]. unfold TrimSpace. assert (trim_left (length s) s = s) as -> by (destruct s; cbn [length trim_left]; [done|by rewrite H1]).
  destruct s; cbn [length trim_right]; [done|by rewrite H2].
Qed.

Lemma TrimSpace_twice s : TrimSpace (TrimSpace s) = TrimSpace s.
Proof. apply untrimmed_TrimSpace, TrimSpace_untrimmed. Qed.

(** Text between printable bytes. *)
Definition printable (c : Z) : Prop := 33 <= c < 127.

Lemma space_bytes e : e ∈ space_encodings → (∀ c s, e = c :: s → ¬ printable c) ∧ (∀ c s, e = s ++ [c] → ¬ printable c).
Proof.
  intros He. assert (forallb (λ e, let odd c := (c <? 33) || (127 <=? c) in odd (default 0 (head e)) && odd (default 0 (last e))) space_encodings = true)
    as H by (vm_compute; reflexivity).
  apply Is_true_true, forallb_True in H. rewrite Forall_forall in H. specialize (H e He). cbn beta zeta in H. unfold printable.
  split; intros c s ->; [cbn [head default] in H|rewrite last_snoc in H]; cbn [from_option id] in H; destruct (Z.ltb_spec c 33), (Z.leb_spec 127 c); cbn in H; try lia;
    rewrite andb_comm in H; cbn in H; by try lia.
Qed.

Lemma printable_untrimmed s : (∃ c t, s = c :: t ∧ printable c) → (∃ c t, s = t ++ [c] ∧ printable c) → untrimmed s.
Proof.
  intros (c & t & E1 & Hc) (c' & t' & E2 & Hc'). split.
  - unfold leading_space. destruct (filter _ _) as [|e l] eqn:E; [done|]. exfalso.
    assert (e ∈ filter (λ e, e `prefix_of` s) space_encodings) as [[u Hu] Hin]%list_elem_of_filter by (rewrite E; by left).
    destruct (space_bytes e Hin) as [H1 _]. destruct e as [|x e]; [revert Hin; apply (bool_decide_unpack ([] ∉ space_encodings)); vm_compute; exact Logic.I|].
    assert (x = c) as -> by (rewrite E1 in Hu; by injection Hu). by apply (H1 c e).
  - unfold trailing_space. destruct (filter _ _) as [|e l] eqn:E; [done|]. exfalso.
    assert (e ∈ filter (λ e, e `suffix_of` s) space_encodings) as [[u Hu] Hin]%list_elem_of_filter by (rewrite E; by left).
    destruct (space_bytes e Hin) as [_ H2]. destruct e as [|x e] using rev_ind; [revert Hin; apply (bool_decide_unpack ([] ∉ space_encodings)); vm_compute; exact Logic.I|].
    rewrite E2, app_assoc in Hu. apply app_inj_tail in Hu as [_ <-]. by apply (H2 c' e).
Qed.

(** ** Decimal numbers and base64 *)

Lemma digits_digits fuel n : 0 <= n → Forall (λ c, isDigit c = true) (digits fuel n).
Proof.
  revert n. induction fuel as [|fuel IH]; intros n Hn; cbn [digits]; [constructor|]. assert (∀ d, 0 <= d < 10 → isDigit (48 + d) = true) as Hd by (intros; unfold isDigit; lia).
  case_match; [constructor; [apply Hd; lia|constructor]|]. apply Forall_app. split; [apply IH; apply Z.div_pos; lia|]. constructor; [|constructor].
  apply Hd. pose proof (Z.mod_pos_bound n 10). lia.
Qed.

Lemma span_all ds : Forall (λ c, isDigit c = true) ds → span_digits ds = (ds, []).
Proof. induction 1 as [|c ds Hc _ IH]; [done|]. cbn [span_digits]. by rewrite Hc, IH. Qed.

Lemma digits_value_app ds c : digits_value (ds ++ [c]) = 10 * digits_value ds + (c - 48).
Proof. unfold digits_value. by rewrite fold_left_app. Qed.

Lemma digits_value_digits fuel n : 0 <= n < 10 ^ Z.of_nat fuel → (fuel ≠ 0)%nat → digits_value (digits fuel n) = n.
Proof.
  revert n. induction fuel as [|fuel IH]; intros n Hn Hf; [done|]. cbn [digits]. destruct (Z.ltb_spec n 10) as [Hlt|Hge].
  - cbn. lia.
  - pose proof (Z.div_mod n 10 ltac:(lia)). rewrite digits_value_app. rewrite Nat2Z.inj_succ, Z.pow_succ_r in Hn by lia. rewrite IH; [lia| |].
    + split; [apply Z.div_pos; lia|]. apply Z.div_lt_upper_bound; lia.
    + intros ->. cbn in Hn. lia.
Qed.

Lemma digit_sign ds : Forall (λ c, isDigit c = true) ds → read_sign ds = (false, ds).
Proof. destruct 1 as [|c ds Hc _]; [done|]. cbn. unfold isDigit in Hc. by rewrite (proj2 (Z.eqb_neq c 45)), (proj2 (Z.eqb_neq c 43)) by lia. Qed.

Definition is_i64 (z : Z) : Prop := -9223372036854775808 <= z <= 9223372036854775807.

Lemma ParseInt_FormatInt z : is_i64 z → ParseInt (FormatInt z) = Some z.
Proof.
  intros Hz. unfold is_i64 in Hz. assert (∀ n, 0 <= n <= 9223372036854775808 → ∃ d ds, FormatUint n = d :: ds ∧ Forall (λ c, isDigit c = true) (d :: ds) ∧ digits_value (d :: ds) = n) as Hu.
  { intros n Hn. pose proof (digits_nonempty 20 n ltac:(done)) as Hne. pose proof (digits_digits 20 n ltac:(lia)) as Hd.
    pose proof (digits_value_digits 20 n) as Hv. unfold FormatUint. destruct (digits 20 n) as [|d ds]; [done|]. exists d, ds. split_and!; [done..|]. apply Hv; [|done].
    assert (9223372036854775808 < 10 ^ Z.of_nat 20) by (vm_compute; reflexivity). lia. }
  unfold FormatInt, ParseInt. destruct (Z.ltb_spec z 0).
  - destruct (Hu (- z) ltac:(lia)) as (d & ds & E & Hd & Hv). rewrite E. cbn [read_sign]. change (45 =? 45) with true. cbv iota. rewrite span_all, Hv by done.
    rewrite Z.opp_involutive. by rewrite (proj2 (Z.leb_le _ _)), (proj2 (Z.leb_le _ _)) by lia.
  - destruct (Hu z ltac:(lia)) as (d & ds & E & Hd & Hv). rewrite E, digit_sign, span_all, Hv by done. by rewrite (proj2 (Z.leb_le _ _)), (proj2 (Z.leb_le _ _)) by lia.
Qed.

Lemma FormatInt_untrimmed z : untrimmed (FormatInt z).
Proof.
  assert (∀ n, 0 <= n → (∃ c t, FormatUint n = c :: t ∧ printable c) ∧ ∃ c t, FormatUint n = t ++ [c] ∧ printable c) as Hu.
  { intros n Hn. pose proof (digits_nonempty 20 n ltac:(done)) as Hne. pose proof (digits_digits 20 n Hn) as Hd. fold (FormatUint n) in *.
    assert (∀ c, isDigit c = true → printable c) as Hp by (intros c Hc; unfold isDigit, printable in *; lia). split.
    - destruct Hd as [|c t Hc _]; [done|]. exists c, t. split; [done|by apply Hp].
    - destruct (FormatUint n) as [|c t] using rev_ind; [done|]. exists c, t. split; [done|]. apply Forall_app in Hd as [_ Hd]. apply Hp. by apply Forall_inv in Hd. }
  unfold FormatInt. destruct (Z.ltb_spec z 0).
  - destruct (Hu (- z) ltac:(lia)) as [_ (c & t & -> & Hc)]. apply printable_untrimmed; [exists 45, (t ++ [c]); split; [done|unfold printable; lia]|exists c, (45 :: t); done].
  - destruct (Hu z ltac:(lia)) as [H1 H2]. by apply printable_untrimmed.
Qed.

Fixpoint sextets (s : bytes) : list Z :=
  match s with
  | a :: b :: c :: s => a / 4 :: a mod 4 * 16 + b / 16 :: b mod 16 * 4 + c / 64 :: c mod 64 :: sextets s
  | [a; b] => [a / 4; a mod 4 * 16 + b / 16; b mod 16 * 4]
  | [a] => [a / 4; a mod 4 * 16]
  | [] => []
  end.

(** Three bytes at a time. *)
Lemma bytes_ind (P : bytes → Prop) : P [] → (∀ a, P [a]) → (∀ a b, P [a; b]) → (∀ a b c s, P s → P (a :: b :: c :: s)) → ∀ s, P s.
Proof.
  intros H0 H1 H2 H3 s. assert (P s ∧ (∀ a, P (a :: s)) ∧ ∀ a b, P (a :: b :: s)) as [? _]; [|done].
  induction s as [|c s (IH1 & IH2 & IH3)]; [done|]. split_and!; auto.
Qed.

Lemma base64_sextets s : base64_url s = url_digit <$> sextets s.
Proof. induction s as [| | |a b c s IH] using bytes_ind; [done..|]. cbn [base64_url sextets fmap list_fmap]. by rewrite IH. Qed.

Lemma sextets_range s : is_bytes s → Forall (λ n, 0 <= n < 64) (sextets s).
Proof.
  assert (∀ a, is_u8 a → 0 <= a / 4 < 64 ∧ 0 <= a mod 4 < 4 ∧ 0 <= a / 16 < 16 ∧ 0 <= a mod 16 < 16 ∧ 0 <= a / 64 < 4 ∧ 0 <= a mod 64 < 64) as Ha.
  { intros a Ha. unfold is_u8 in Ha. pose proof (Z.div_mod a 4). pose proof (Z.div_mod a 16). pose proof (Z.div_mod a 64).
    pose proof (Z.mod_pos_bound a 4). pose proof (Z.mod_pos_bound a 16). pose proof (Z.mod_pos_bound a 64). lia. }
  induction s as [|a|a b|a b c s IH] using bytes_ind; intros Hs; cbn [sextets]; [constructor|..];
    repeat match goal with H : is_bytes (_ :: _) |- _ => apply Forall_cons in H as [?%Ha H] end; repeat constructor; try lia. by apply IH.
Qed.

Lemma groups_sextets s : is_bytes s → base64_groups (sextets s) = Some s.
Proof.
  assert (∀ a, is_u8 a → a = a / 4 * 4 + a mod 4 ∧ a = a / 16 * 16 + a mod 16 ∧ a = a / 64 * 64 + a mod 64) as Ha
    by (intros a _; pose proof (Z.div_mod a 4); pose proof (Z.div_mod a 16); pose proof (Z.div_mod a 64); lia).
  assert (∀ a b, is_u8 b → 0 <= a → (a * 16 + b / 16) / 16 = a ∧ (a * 16 + b / 16) mod 16 = b / 16) as H16.
  { intros a b Hb Hp. assert (0 <= b / 16 < 16) by (unfold is_u8 in Hb; pose proof (Z.div_mod b 16); pose proof (Z.mod_pos_bound b 16); lia).
    split; [symmetry; apply (Z.div_unique _ _ _ (b / 16)); lia|symmetry; apply (Z.mod_unique _ _ a); lia]. }
  assert (∀ a c, is_u8 c → 0 <= a → (a * 4 + c / 64) / 4 = a ∧ (a * 4 + c / 64) mod 4 = c / 64) as H4.
  { intros a c Hc Hp. assert (0 <= c / 64 < 4) by (unfold is_u8 in Hc; pose proof (Z.div_mod c 64); pose proof (Z.mod_pos_bound c 64); lia).
    split; [symmetry; apply (Z.div_unique _ _ _ (c / 64)); lia|symmetry; apply (Z.mod_unique _ _ a); lia]. }
  assert (∀ a, 0 <= a → a * 16 / 16 = a ∧ a * 4 / 4 = a) as H0 by (intros; split; by apply Z.div_mul).
  induction s as [|a|a b|a b c s IH] using bytes_ind; intros Hs; cbn [sextets base64_groups]; [done|..];
    repeat match goal with H : is_bytes (_ :: _) |- _ => apply Forall_cons in H as [? H] end;
    repeat match goal with H : is_u8 ?x |- _ => lazymatch goal with _ : 0 <= x mod 4 |- _ => fail | _ => pose proof (proj1 (Z.mod_pos_bound x 4 ltac:(lia))) end end;
    repeat match goal with H : is_u8 ?x |- _ => lazymatch goal with _ : 0 <= x mod 16 |- _ => fail | _ => pose proof (proj1 (Z.mod_pos_bound x 16 ltac:(lia))) end end.
  - destruct (H0 (a mod 4)) as [-> _]; [done|]. destruct (Ha a) as (Ea & _); [done|]. by rewrite <- Ea.
  - destruct (H16 (a mod 4) b) as [-> ->]; [done..|]. destruct (H0 (b mod 16)) as [_ ->]; [done|]. destruct (Ha a) as (Ea & _); [done|]. destruct (Ha b) as (_ & Eb & _); [done|].
    by rewrite <- Ea, <- Eb.
  - rewrite IH by done. cbn. destruct (H16 (a mod 4) b) as [-> ->]; [done..|]. destruct (H4 (b mod 16) c) as [-> ->]; [done..|].
    destruct (Ha a) as (Ea & _); [done|]. destruct (Ha b) as (_ & Eb & _); [done|]. destruct (Ha c) as (_ & _ & Ec); [done|]. by rewrite <- Ea, <- Eb, <- Ec.
Qed.

Lemma url_digit_value n : 0 <= n < 64 → url_value (url_digit n) = Some n ∧ printable (url_digit n).
Proof.
  intros Hn. assert (Forall (λ n, url_value (url_digit n) = Some n ∧ 33 <= url_digit n < 127) (seqZ 0 64)) as H by (apply (bool_decide_unpack _); vm_compute; exact Logic.I).
  rewrite Forall_forall in H. apply H. apply elem_of_seqZ. lia.
Qed.

Lemma base64_url_roundtrip s : is_bytes s → base64_url_decode (base64_url s) = Some s.
Proof.
  intros Hs. pose proof (sextets_range s Hs) as Hr. unfold base64_url_decode. rewrite base64_sextets.
  assert (filter (λ c, c ≠ 10 ∧ c ≠ 13) (url_digit <$> sextets s) = url_digit <$> sextets s) as ->.
  { clear -Hr. induction Hr as [|n l Hn _ IH]; [done|]. cbn [fmap list_fmap]. rewrite filter_cons, IH. destruct (url_digit_value n Hn) as [_ Hp]. unfold printable in Hp.
    by rewrite decide_True by lia. }
  assert (mapM url_value (url_digit <$> sextets s) = Some (sextets s)) as ->; [|by apply groups_sextets].
  clear -Hr. induction Hr as [|n l Hn _ IH]; [done|]. cbn. destruct (url_digit_value n Hn) as [-> _]. cbn. by rewrite IH.
Qed.

Lemma remoteOwnerDecodeSignature_encoded sum : is_bytes sum → sum ≠ [] → remoteOwnerDecodeSignature (remoteOwnerEncodeSignature sum) = Ok sum.
Proof.
  intros Hs Hne. unfold remoteOwnerDecodeSignature, remoteOwnerEncodeSignature. pose proof (sextets_range sum Hs) as Hr.
  assert (∃ c t, base64_url sum = t ++ [c] ∧ printable c) as (c & t & E & Hc).
  { rewrite base64_sextets. destruct (sextets sum) as [|n l] eqn:El using rev_ind; [destruct sum as [|a [|b [|d s]]]; done|].
    rewrite fmap_app. exists (url_digit n), (url_digit <$> l). split; [done|]. apply Forall_app in Hr as [_ Hr]. apply Forall_inv in Hr. by apply url_digit_value. }
  assert (TrimSpace (str "v1" ++ str "=" ++ base64_url sum) = str "v1" ++ str "=" ++ base64_url sum) as ->.
  { apply untrimmed_TrimSpace, printable_untrimmed; [exists 118; eexists; split; [reflexivity|unfold printable; lia]|].
    exists c, (str "v1" ++ str "=" ++ t). split; [by rewrite E, <- !app_assoc|done]. }
  change (str "v1" ++ str "=" ++ base64_url sum) with (118 :: 49 :: 61 :: base64_url sum).
  assert (index_byte (118 :: 49 :: 61 :: base64_url sum) 61 = Some 2%nat) as -> by reflexivity. cbn [Nat.add drop take].
  change (str "v1") with [118; 49]. rewrite bool_decide_true by done. cbn [negb orb]. rewrite bool_decide_false by (rewrite E; by destruct t).
  by rewrite drop_0, base64_url_roundtrip.
Qed.

(** ** Nonces *)

Lemma CheckAndStore_keeps early late key expiresAt now s k until : s !! k = Some until → now <= until →
  (CheckAndStore early late key expiresAt now s).2 !! k = Some until.
Proof.
  intros Hk Hn. unfold CheckAndStore. destruct early; [done|]. destruct (TrimSpace key) as [|b l] eqn:E; [done|]. destruct (IsZero _); [done|]. destruct late; [done|].
  set (s' := filter _ s). assert (s' !! k = Some until) as Hk' by (apply map_lookup_filter_Some; split; [done|]; unfold Before; cbn; lia).
  destruct (s' !! (b :: l)) as [e|] eqn:El; [|cbn; rewrite lookup_insert_ne; [done|congruence]].
  destruct (negb (Before e now)) eqn:Eb; [done|]. cbn. rewrite lookup_insert_ne; [done|]. intros <-. assert (e = until) as -> by congruence. unfold Before in Eb. lia.
Qed.

Lemma CheckAndStore_stores early late key expiresAt now s s' : CheckAndStore early late key expiresAt now s = (None, s') → s' !! TrimSpace key = Some expiresAt.
Proof.
  unfold CheckAndStore. destruct early; [done|]. destruct (TrimSpace key) as [|b l]; [done|]. destruct (IsZero _); [done|]. destruct late; [done|].
  set (t := filter _ s). destruct (t !! _); [destruct (negb _); [done|]|]; intros [= <-]; apply lookup_insert_eq.
Qed.

Lemma CheckAndStore_refuses early late key expiresAt now s until : s !! TrimSpace key = Some until → now <= until →
  ∃ err, (CheckAndStore early late key expiresAt now s).1 = Some err.
Proof.
  intros Hk Hn. unfold CheckAndStore. destruct early as [err|]; [by exists err|]. destruct (TrimSpace key) as [|b l]; [by eexists|]. destruct (IsZero _); [by eexists|].
  destruct late as [err|]; [by exists err|]. set (t := filter _ s). assert (t !! (b :: l) = Some until) as -> by (apply map_lookup_filter_Some; split; [done|]; unfold Before; cbn; lia).
  assert (Before until now = false) as -> by (unfold Before; lia). by eexists.
Qed.

(** One call of the authenticator: the errors of its context, its two looks at the clock, the request. *)
Record auth_call := mkCall { ac_early : option error; ac_late : option error; ac_now : Z; ac_later : Z; ac_request : RemoteOwnerAuthRequest }.

Section authenticator.
Context (hmac : bytes → bytes → bytes) (cfg : RemoteOwnerHMACAuthenticatorConfig).

Definition authenticate (c : auth_call) (s : NonceStore) : option error * NonceStore :=
  RemoteOwnerHMACAuthenticator hmac cfg (ac_early c) (ac_late c) (ac_now c) (ac_later c) (ac_request c) s.

(** What the headers of a request say: the time, the key of the nonce store, and when its window ends. *)
Definition claimed (req : RemoteOwnerAuthRequest) : option (Z * bytes) :=
  match remoteOwnerAuthHeaderValues (ar_Header req) with
  | Ok (timestamp, nonce, _, keyID) =>
      observedAt ← parseRemoteOwnerTimestamp timestamp; Some (observedAt, TrimSpace (remoteOwnerNonceStoreKey (ar_NodeID req) keyID nonce))
  | Err _ => None
  end.

(** A request is refused, or its nonce is looked up. *)
Lemma authenticate_cases c s : (∃ err, authenticate c s = (Some err, s)) ∨
  ∃ observedAt key rawKey, claimed (ac_request c) = Some (observedAt, key) ∧ key = TrimSpace rawKey ∧
    ac_now c <= observedAt + hmac_window cfg ∧
    authenticate c s = CheckAndStore (ac_early c) (ac_late c) rawKey (observedAt + hmac_window cfg) (ac_later c) s.
Proof.
  unfold authenticate, RemoteOwnerHMACAuthenticator, claimed. destruct (NodeID_Valid _); [left; by eexists|].
  destruct (remoteOwnerAuthHeaderValues _) as [[[[timestamp nonce] signature] keyID]|err]; [|left; by eexists].
  destruct (resolveRemoteOwnerHMACSecret _ _ _ _) as [secret|]; [|left; by eexists]. destruct (parseRemoteOwnerTimestamp _) as [observedAt|]; [|left; by eexists].
  destruct (_ || _) eqn:E; [left; by eexists|]. destruct (remoteOwnerDecodeSignature _); [|left; by eexists]. destruct (negb _); [left; by eexists|].
  right. exists observedAt, (TrimSpace (remoteOwnerNonceStoreKey (ar_NodeID (ac_request c)) keyID nonce)), (remoteOwnerNonceStoreKey (ar_NodeID (ac_request c)) keyID nonce).
  split_and!; [done|done| |done]. unfold Before, After in E. lia.
Qed.

Lemma authenticate_keeps c s k until : s !! k = Some until → ac_later c <= until → (authenticate c s).2 !! k = Some until.
Proof.
  intros Hk Hl. destruct (authenticate_cases c s) as [[err ->]|(o & key & raw & _ & _ & _ & ->)]; [done|]. by apply CheckAndStore_keeps.
Qed.


End authenticator.

(** The clock is looked at twice: a request that comes in the last instant of its
    window is accepted again when the store of nonces sees the next instant. *)
Definition zero_hmac : bytes → bytes → bytes := λ _ _, [0].
Definition replay_config : RemoteOwnerHMACAuthenticatorConfig := mkHMACConfig [115] [] false 0.
Definition replay_request : RemoteOwnerAuthRequest :=
  mkAuthRequest [110] (mkDocumentKey [] [100]) [99] 1 1 0
    (header_set timestamp_header [49] (header_set nonce_header [120] (header_set signature_header (remoteOwnerEncodeSignature [0]) ∅))).
Definition window_end : Z := (unix_to_internal + 1) * Second + defaultRemoteOwnerHMACTimeWindow.

Theorem replay_at_the_end :
  let call now later := mkCall None None now later replay_request in
  let s1 := (authenticate zero_hmac replay_config (call (window_end - 1) (window_end - 1)) ∅).2 in
  (authenticate zero_hmac replay_config (call (window_end - 1) (window_end - 1)) ∅).1 = None ∧
  (authenticate zero_hmac replay_config (call window_end window_end) s1).1 ≠ None ∧
  (authenticate zero_hmac replay_config (call window_end (window_end + 1)) s1).1 = None.
Proof. split; [vm_compute; reflexivity|]. split; [vm_compute; discriminate|vm_compute; reflexivity]. Qed.


(** ** Signed handshakes *)

Lemma printable_kept c s : printable c → c ∈ s → c ∈ TrimSpace s.
Proof.
  intros Hc Hs. assert (∀ e, e ∈ space_encodings → c ∉ e) as Hne.
  { intros e He Hin. assert (forallb (λ e, forallb (λ c, (c <? 33) || (127 <=? c)) e) space_encodings = true) as H by (vm_compute; reflexivity).
    apply Is_true_true, forallb_True in H. rewrite Forall_forall in H. specialize (H e He). apply forallb_True in H. rewrite Forall_forall in H. specialize (H c Hin).
    unfold printable in Hc. destruct (Z.ltb_spec c 33), (Z.leb_spec 127 c); cbn in H; lia || done. }
  unfold TrimSpace. assert (∀ fuel s, c ∈ s → c ∈ trim_left fuel s) as Hl.
  { clear s Hs. intros fuel. induction fuel as [|fuel IH]; intros s Hs; [done|]. cbn [trim_left]. destruct (leading_space s) as [e|] eqn:E; [|done]. apply IH.
    unfold leading_space in E. destruct (filter (λ e, e `prefix_of` s) space_encodings) as [|e' l] eqn:Ef; [done|]. injection E as ->.
    assert (e ∈ filter (λ e, e `prefix_of` s) space_encodings) as [[t ->] Hin]%list_elem_of_filter by (rewrite Ef; by left).
    apply elem_of_app in Hs as [Hs|Hs]; [by destruct (Hne e)|]. by rewrite drop_app_length. }
  assert (∀ fuel s, c ∈ s → c ∈ trim_right fuel s) as Hr; [|by apply Hr, Hl].
  clear s Hs Hl. intros fuel. induction fuel as [|fuel IH]; intros s Hs; [done|]. cbn [trim_right]. destruct (trailing_space s) as [e|] eqn:E; [|done]. apply IH.
  unfold trailing_space in E. destruct (filter (λ e, e `suffix_of` s) space_encodings) as [|e' l] eqn:Ef; [done|]. injection E as ->.
  assert (e ∈ filter (λ e, e `suffix_of` s) space_encodings) as [[t ->] Hin]%list_elem_of_filter by (rewrite Ef; by left).
  apply elem_of_app in Hs as [Hs|Hs]; [|by destruct (Hne e)]. rewrite length_app, Nat.add_sub. by rewrite take_app_length.
Qed.

Lemma to_int64_small z : is_i64 z → to_int64 z = z.
Proof. unfold is_i64, to_int64. intros. rewrite Z.mod_small; lia. Qed.

Lemma join_concat sep l acc : fold_left (λ out y : bytes, out ++ sep ++ y) l acc = acc ++ mjoin (app sep <$> l).
Proof.
  revert acc. induction l as [|y l IH]; intros acc; cbn; [by rewrite app_nil_r|]. rewrite IH. by rewrite <- !app_assoc.
Qed.

(** The flags can be read off what is signed. *)
Lemma payload_flags (r r' : RemoteOwnerAuthRequest) timestamp nonce keyID : ar_NodeID r = ar_NodeID r' → ar_DocumentKey r = ar_DocumentKey r' →
  ar_ConnectionID r = ar_ConnectionID r' → ar_ClientID r = ar_ClientID r' → ar_Epoch r = ar_Epoch r' →
  remoteOwnerHMACPayloadBytes r timestamp nonce keyID = remoteOwnerHMACPayloadBytes r' timestamp nonce keyID → FormatUint (ar_Flags r) = FormatUint (ar_Flags r').
Proof.
  intros E1 E2 E3 E4 E5. unfold remoteOwnerHMACPayloadBytes. rewrite E1, E2, E3, E4, E5. cbn [app join]. unfold field.
  rewrite !join_concat. cbn [fmap list_fmap mjoin list_join]. set (rest := mjoin _). clearbody rest. intros H.
  apply app_inv_head in H. rewrite <- !app_assoc in H. repeat apply app_inv_head in H. by apply app_inv_tail in H.
Qed.

Section signed.
Context (hmac : bytes → bytes → bytes) (cfg : RemoteOwnerHMACAuthenticatorConfig) {secret keyID nodeID drawn : bytes} {now : Z} {req : Request}
  {resolution : OwnerResolution} {epoch : Z} {h : Header}.
Hypothesis hmac_bytes : ∀ secret payload, is_bytes (hmac secret payload) ∧ hmac secret payload ≠ [].
Hypothesis signed : RemoteOwnerHMACAuthHeaders hmac secret keyID nodeID now (Ok drawn) req resolution = Ok h.
Hypothesis its_epoch : remoteOwnerEpoch resolution = Ok epoch.

Definition handshake_request : RemoteOwnerAuthRequest := auth_request (sendHandshake nodeID req epoch) h.

Definition dialed : RemoteOwnerAuthRequest :=
  mkAuthRequest nodeID (rq_DocumentKey req) (rq_ConnectionID req) (rq_ClientID req) epoch (remoteOwnerRequestFlags req) ∅.

Definition stamp : bytes := FormatInt (now / Second - unix_to_internal).

Lemma signed_headers : NodeID_Valid nodeID = None ∧ TrimSpace drawn ≠ [] ∧
  remoteOwnerAuthHeaderValues h = Ok (stamp, TrimSpace drawn, remoteOwnerHMACSignature hmac (TrimSpace secret) dialed stamp (TrimSpace drawn) (TrimSpace keyID), TrimSpace keyID).
Proof.
  revert signed. unfold RemoteOwnerHMACAuthHeaders, remoteOwnerAuthRequestFromDial. rewrite its_epoch. case_bool_decide; [done|].
  destruct (NodeID_Valid nodeID) eqn:En; [done|]. cbn [mbind result_bind]. fold dialed stamp. case_bool_decide as Hd; [done|]. intros [= <-]. split; [done|]. split; [done|].
  set (sg := remoteOwnerHMACSignature _ _ _ _ _ _). assert (TrimSpace stamp = stamp) as Es by (apply untrimmed_TrimSpace, FormatInt_untrimmed).
  assert (stamp ≠ []) as Hs.
  { unfold stamp, FormatInt. case_match; [done|]. unfold FormatUint. by apply digits_nonempty. }
  assert (∃ c t, sg = t ++ [c] ∧ printable c) as (c & t & Esg & Hc).
  { subst sg. unfold remoteOwnerHMACSignature, remoteOwnerEncodeSignature. set (sum := remoteOwnerHMACDigest _ _ _ _ _ _). destruct (hmac_bytes (TrimSpace secret)
      (remoteOwnerHMACPayloadBytes dialed stamp (TrimSpace drawn) (TrimSpace keyID))) as [Hb Hne]. change (hmac _ _) with sum in Hb, Hne.
    rewrite base64_sextets. pose proof (sextets_range sum Hb) as Hr. destruct (sextets sum) as [|n l] eqn:El using rev_ind; [destruct sum as [|a [|b [|d s]]]; done|].
    rewrite fmap_app. exists (url_digit n), (str "v1" ++ str "=" ++ (url_digit <$> l)). split; [by rewrite <- !app_assoc|].
    apply Forall_app in Hr as [_ Hr]. apply Forall_inv in Hr. by apply url_digit_value. }
  assert (TrimSpace sg = sg) as Eg.
  { apply untrimmed_TrimSpace, printable_untrimmed; [exists 118; eexists; split; [subst sg; reflexivity|unfold printable; lia]|by exists c, t]. }
  assert (sg ≠ []) as Hsg by (rewrite Esg; by destruct t).
  unfold remoteOwnerAuthHeaderValues. rewrite bool_decide_false by (unfold header_set; case_bool_decide; apply insert_non_empty).
  assert (∀ names v h', header_get (header_set names v h') names = v) as Hget by (intros; unfold header_get, header_set; by rewrite lookup_insert_eq).
  assert (∀ n n' v h', n ≠ n' → header_get (header_set n v h') n' = header_get h' n') as Hskip by (intros; unfold header_get, header_set; by rewrite lookup_insert_ne).
  set (base := header_set signature_header sg (header_set nonce_header (TrimSpace drawn) (header_set timestamp_header stamp ∅))).
  assert (header_get base timestamp_header = stamp ∧ header_get base nonce_header = TrimSpace drawn ∧ header_get base signature_header = sg ∧ header_get base key_id_header = [])
    as (B1 & B2 & B3 & B4).
  { subst base. split_and!.
    - rewrite Hskip, Hskip by (by vm_compute). apply Hget.
    - rewrite Hskip by (by vm_compute). apply Hget.
    - apply Hget.
    - rewrite !Hskip by (by vm_compute). reflexivity. }
  destruct (decide (TrimSpace keyID = [])) as [Hk|Hk]; [rewrite (bool_decide_true (TrimSpace keyID = [])) by done|rewrite (bool_decide_false (TrimSpace keyID = [])) by done].
  - rewrite B1, B2, B3, B4, Es, Eg, TrimSpace_twice. rewrite !bool_decide_false by done. cbn [orb]. by rewrite Hk.
  - rewrite Hget, !Hskip, B1, B2, B3, Es, Eg, !TrimSpace_twice by (by vm_compute). rewrite !bool_decide_false by done. done.
Qed.

Hypothesis known : resolveRemoteOwnerHMACSecret (TrimSpace (hc_Secret cfg)) (cloneHMACSecrets (hc_Secrets cfg)) (TrimSpace keyID) (hc_RequireKeyID cfg) = Ok (TrimSpace secret).
Hypothesis clock : 0 <= now ∧ now / Second <= 9223372036854775807.

(** The owner compares the digest of the handshake with that of the dial. *)
Lemma judged (now' later : Z) (s : NonceStore) :
  now' - hmac_window cfg <= now / Second * Second <= now' + hmac_window cfg →
  RemoteOwnerHMACAuthenticator hmac cfg None None now' later handshake_request s =
  if bool_decide (remoteOwnerHMACDigest hmac (TrimSpace secret) dialed stamp (TrimSpace drawn) (TrimSpace keyID) =
                  remoteOwnerHMACDigest hmac (TrimSpace secret) handshake_request stamp (TrimSpace drawn) (TrimSpace keyID))
  then CheckAndStore None None (remoteOwnerNonceStoreKey nodeID (TrimSpace keyID) (TrimSpace drawn)) (now / Second * Second + hmac_window cfg) later s
  else (Some unauthorized, s).
Proof.
  intros Hw. destruct signed_headers as (Hn & _ & Eh). destruct clock as [C1 C2]. assert (0 <= now / Second) by (apply Z.div_pos; [done|unfold Second; lia]).
  unfold RemoteOwnerHMACAuthenticator. cbn [ar_NodeID ar_Header handshake_request auth_request sendHandshake Handshake_NodeID]. rewrite Hn, Eh, known.
  unfold parseRemoteOwnerTimestamp. rewrite (untrimmed_TrimSpace stamp) by apply FormatInt_untrimmed. unfold stamp at 1.
  rewrite ParseInt_FormatInt by (unfold is_i64, unix_to_internal; lia). cbn [mbind option_bind]. rewrite Z.sub_add, to_int64_small by (unfold is_i64; lia).
  unfold Before, After. rewrite (proj2 (Z.ltb_ge _ _)), (proj2 (Z.ltb_ge _ _)) by lia. cbn [orb].
  unfold remoteOwnerHMACSignature. rewrite remoteOwnerDecodeSignature_encoded by apply hmac_bytes. by case_bool_decide.
Qed.

(** C21: A signed handshake is accepted.  An edge that signs its dial with a secret the
    owner knows, for a session of the V1 format, and whose clock is within the
    window of the owner's, gets through with a nonce that the owner has not seen. *)
Theorem signed_handshake_accepted (now' later : Z) (s : NonceStore) (Hv1 : requestWantsInterNodeV2 req = false)
    (Hw : now' - hmac_window cfg <= now / Second * Second <= now' + hmac_window cfg)
    (Hfresh : s !! TrimSpace (remoteOwnerNonceStoreKey nodeID (TrimSpace keyID) (TrimSpace drawn)) = None) :
  (RemoteOwnerHMACAuthenticator hmac cfg None None now' later handshake_request s).1 = None.
Proof.
  rewrite judged by done. assert (Handshake_Flags (sendHandshake nodeID req epoch) = remoteOwnerRequestFlags req) as Ef.
  { unfold sendHandshake. cbn [Handshake_Flags]. rewrite Hv1. reflexivity. }
  rewrite bool_decide_true by (unfold remoteOwnerHMACDigest, remoteOwnerHMACPayloadBytes; cbn [handshake_request auth_request ar_Flags]; by rewrite Ef).
  unfold CheckAndStore. set (raw := remoteOwnerNonceStoreKey _ _ _) in *.
  assert (58 ∈ TrimSpace raw) as Hin.
  { apply printable_kept; [unfold printable; lia|]. unfold raw, remoteOwnerNonceStoreKey. apply elem_of_app. right. apply elem_of_app. left. apply (bool_decide_unpack _). vm_compute. exact Logic.I. }
  destruct (TrimSpace raw) as [|b l]; [by apply elem_of_nil in Hin|].
  assert (IsZero (now / Second * Second + hmac_window cfg) = false) as ->.
  { destruct clock as [C1 C2]. assert (0 <= now / Second) by (apply Z.div_pos; [done|unfold Second; lia]). unfold IsZero, hmac_window, defaultRemoteOwnerHMACTimeWindow, Second in *.
    destruct (Z.leb_spec (hc_TimeWindow cfg) 0); lia. }
  set (t := filter _ s). assert (t !! (b :: l) = None) as -> by (apply map_lookup_filter_None; by left). done.
Qed.

(** The flag for the V2 format is in the handshake but not in what is signed: an
    accepted handshake of a V2 session would be a collision of the HMAC. *)
Theorem signed_v2_handshake_refused (now' later : Z) (s : NonceStore) (Hv2 : requestWantsInterNodeV2 req = true)
    (Hw : now' - hmac_window cfg <= now / Second * Second <= now' + hmac_window cfg) :
  (RemoteOwnerHMACAuthenticator hmac cfg None None now' later handshake_request s).1 = None →
  ∃ payload payload', payload ≠ payload' ∧ hmac (TrimSpace secret) payload = hmac (TrimSpace secret) payload'.
Proof.
  rewrite judged by done. case_bool_decide as He; [|done]. intros _. eexists _, _. split; [|exact He].
  intros Hp. apply payload_flags in Hp; try reflexivity. revert Hp. cbn [handshake_request auth_request sendHandshake dialed ar_Flags Handshake_Flags]. rewrite Hv2.
  unfold remoteOwnerRequestFlags. destruct (rq_PersistOnClose req); by vm_compute.
Qed.

End signed.

(** An edge of node "n" signs the dial of connection "c" in the year 1970. *)
Definition dialed_request : Request := mkRequest (mkDocumentKey [] [100]) [99] 1 true UpdateFormatV1 None.
Definition dialed_resolution : OwnerResolution :=
  mkResolution (mkDocumentKey [] [100]) (mkClusterPlacement 0 [111] (Some (mkClusterLease 0 [111] 7 [116] 0 0)) 0) false.
Definition dial_now : Z := unix_to_internal * Second.

Lemma signed_handshake_accepted_witness : ∃ h,
  RemoteOwnerHMACAuthHeaders zero_hmac [115] [] [110] dial_now (Ok [120]) dialed_request dialed_resolution = Ok h ∧
  (RemoteOwnerHMACAuthenticator zero_hmac replay_config None None dial_now dial_now (handshake_request (nodeID := [110]) (req := dialed_request) (epoch := 7) (h := h)) ∅).1 = None.
Proof.
  destruct (RemoteOwnerHMACAuthHeaders zero_hmac [115] [] [110] dial_now (Ok [120]) dialed_request dialed_resolution) as [h|err] eqn:E.
  - exists h. split; [done|]. eapply (signed_handshake_accepted zero_hmac replay_config).
    + intros. split; [repeat constructor; done|done].
    + exact E.
    + reflexivity.
    + vm_compute; reflexivity.
    + split; vm_compute; discriminate.
    + reflexivity.
    + split; vm_compute; discriminate.
    + reflexivity.
  - exfalso. vm_compute in E. discriminate.
Defined.

(** ** From an edge to the owner *)

Definition to_format (format : UpdateFormat) (update : bytes) : result bytes :=
  match format with UpdateFormatV2 => ConvertUpdateToV2 update | _ => ConvertUpdateToV1 update end.

(** What the owner is to read for a message of a client: an answer to its request
    counts as an update, in the format between the nodes. *)
Definition relayed (format : UpdateFormat) (m : ProtocolMessage) : result ProtocolMessage :=
  match pm_Sync m with
  | Some sync =>
      if sm_Type sync =? SyncMessageTypeStep1 then Ok m
      else update ← to_format format (sm_Payload sync); Ok (mkMessage ProtocolTypeSync (Some (mkSync SyncMessageTypeUpdate update)) None None None)
  | None => Ok m
  end.

Lemma normalised_twice c s : normalizeState (State c) = Ok s → normalised (normalised c) = normalised c.
Proof.
  intros H. unfold normalised at 2. rewrite H. unfold normalised. cbn [State]. rewrite H. by destruct (normalizeState_idem _ _ H) as [-> _].
Qed.

Lemma decoded_envelope m bs : wire_message m → EncodeProtocolEnvelope (Some m) = Ok bs → DecodeProtocolMessages bs = Ok [normal_message m].
Proof.
  intros Hw He. apply (envelope_roundtrip [m]); [by constructor|]. unfold EncodeProtocolEnvelope in He. unfold EncodeProtocolEnvelopes. cbn. by rewrite He.
Qed.

Lemma sync_read typ payload : SyncMessageType_Valid typ = true → is_u32 (Z.of_nat (length payload)) →
  DecodeProtocolMessages (AppendProtocolType [] ProtocolTypeSync ++ encodeKnownSyncMessage typ payload) = Ok [mkMessage ProtocolTypeSync (Some (mkSync typ payload)) None None None].
Proof.
  intros Ht Hp. apply (decoded_envelope (mkMessage ProtocolTypeSync (Some (mkSync typ payload)) None None None)); [done|].
  unfold EncodeProtocolEnvelope, appendProtocolEnvelope. cbn -[SyncMessageType_Valid]. unfold AppendSyncMessage. rewrite Ht. cbn [negb].
  unfold encodeKnownSyncMessage. cbn. by rewrite appendVarBytes_app, varint.Append_app, (appendVarBytes_app (varint.Append [] typ)), <- !app_assoc.
Qed.

Lemma mapM_Forall2 {A B} (f : A → result B) l k : mapM f l = Ok k → Forall2 (λ x y, f x = Ok y) l k.
Proof.
  revert k. induction l as [|x l IH]; intros k; cbn; [intros [= <-]; constructor|].
  intros (y & Hy & (k' & Hk & [= <-])%result_bind_Ok)%result_bind_Ok. constructor; [done|by apply IH].
Qed.

Lemma encoded_normal u : Forall (λ x, normalizeState (State x) = Ok (State (normalised x))) u → normalised <$> (normalised <$> u) = normalised <$> u.
Proof. induction 1 as [|x u Hx _ IH]; [done|]. cbn. by rewrite IH, (normalised_twice x _ Hx). Qed.

Lemma normalised_ids c : ClientID (normalised c) = ClientID c ∧ Clock (normalised c) = Clock c.
Proof. unfold normalised. by destruct (normalizeState _). Qed.

Lemma wire_normal u : Forall (λ x, normalizeState (State x) = Ok (State (normalised x))) u → wire_update u → wire_update (normalised <$> u).
Proof.
  intros Hn (Hw & Hl & Hp). assert (encode_client <$> (normalised <$> u) = encode_client <$> u) as E.
  { clear -Hn. induction Hn as [|x u Hx _ IH]; [done|]. cbn. rewrite IH. f_equal. unfold encode_client. rewrite (normalised_twice x _ Hx). by destruct (normalised_ids x) as [-> ->]. }
  unfold wire_update, awareness_payload. rewrite length_fmap, E. split_and!; [|done|done]. clear -Hn Hw. induction Hn as [|x u Hx _ IH]; [constructor|].
  apply Forall_cons in Hw as [(H1 & H2 & H3) Hw]. constructor; [|by apply IH]. unfold wire_client. rewrite (normalised_twice x _ Hx). by destruct (normalised_ids x) as [-> ->].
Qed.

(** A message as the edge decodes it. *)
Definition decoded (m : ProtocolMessage) : Prop := validateProtocolMessage (Some m) = None ∧ wire_message m ∧ normal_message m = m.

Lemma decoded_normal m e : wire_message m → EncodeProtocolEnvelope (Some m) = Ok e → decoded (normal_message m).
Proof.
  intros Hw He. unfold EncodeProtocolEnvelope, appendProtocolEnvelope in He. destruct (validateProtocolMessage (Some m)) eqn:E; [done|].
  destruct Hw as (Hs & Hu & Ha). apply validate_shape in E as [[s ->]|[[u ->]|[[a ->]|[q ->]]]]; try by (split_and!; [done| |done]; split_and!).
  cbn in He, Hu. apply result_bind_Ok in He as (b & Hb & _). unfold EncodeProtocolUpdate in Hb. apply result_bind_Ok in Hb as (p & Hp & _).
  apply (EncodeUpdate_payload (Some u)) in Hp as [_ Hn]; [|apply Hu..]. cbn in Hn. split_and!; [done| |].
  - split_and!; [done| |done]. by apply wire_normal.
  - unfold normal_message. cbn. by rewrite encoded_normal.
Qed.

Lemma encoded_singly messages dst bs :
  fold_result (λ dst message, map_err (Wrapped "encode protocol envelope %d: %w") (appendProtocolEnvelope dst message)) (Some <$> messages) dst = Ok bs →
  Forall (λ m, ∃ e, EncodeProtocolEnvelope (Some m) = Ok e) messages.
Proof.
  revert dst. induction messages as [|m ms IH]; intros dst; cbn [fmap list_fmap fold_result]; [constructor|].
  rewrite appendProtocolEnvelope_app. destruct (appendProtocolEnvelope [] (Some m)) as [e|] eqn:E; [|done]. cbn [mbind result_bind map_err]. intros H.
  constructor; [by exists e|by eapply IH].
Qed.

Section relay.
Context {epoch : Z} {req : Request} {format : UpdateFormat}.
Hypotheses (trimmed : TrimSpace (rq_ConnectionID req) = rq_ConnectionID req)
  (negotiated : format = UpdateFormatV2 → requestWantsInterNodeV2 req = true).

Lemma routed_fields : validateRemoteOwnerRouteFields req epoch (rq_DocumentKey req) (rq_ConnectionID req) epoch = None.
Proof. unfold validateRemoteOwnerRouteFields. rewrite trimmed, !bool_decide_true, Z.eqb_refl by done. done. Qed.

Lemma relay_one m msg : decoded m → owner_message (rq_DocumentKey req) (rq_ConnectionID req) epoch format m = Ok msg →
  validateRemoteOwnerRoute req epoch msg = None ∧
  ∃ m', relayed format m = Ok m' ∧ (wire_message m' → ∃ payload, ownerMessageToProtocolPayload msg = Ok payload ∧ DecodeProtocolMessages payload = Ok [m']).
Proof.
  intros (Hv & Hw & Hn). pose proof routed_fields as Hf. unfold owner_message, relayed.
  apply validate_shape in Hv as [[[t p] ->]|[[u ->]|[[a ->]|[q ->]]]]; cbn [pm_Sync pm_Awareness pm_QueryAwareness sm_Type sm_Payload].
  - destruct (Z.eqb_spec t SyncMessageTypeStep1) as [->|]; [|destruct (_ || _); [|done]].
    + intros [= <-]. assert (∀ b : bytes, is_u32 (Z.of_nat (length b)) → DecodeProtocolMessages (EncodeProtocolSyncStep1 b) = Ok [mkMessage ProtocolTypeSync (Some (mkSync SyncMessageTypeStep1 b)) None None None])
        as Hd by (intros; by apply sync_read).
      destruct format; cbn; rewrite ?negotiated by done; (split; [exact Hf|]); eexists; (split; [done|]); intros [Hp _]; eexists; (split; [done|]); by apply Hd.
    + assert (∀ b : bytes, is_u32 (Z.of_nat (length b)) → DecodeProtocolMessages (EncodeProtocolSyncUpdate b) = Ok [mkMessage ProtocolTypeSync (Some (mkSync SyncMessageTypeUpdate b)) None None None])
        as Hd by (intros; by apply sync_read).
      destruct format; intros (u & Hu & [= <-])%result_bind_Ok; cbn; rewrite ?negotiated, ?Hu by done; (split; [exact Hf|]); eexists; (split; [done|]); intros [Hp _]; eexists; (split; [done|]); by apply Hd.
  - intros (b & Hb & [= <-])%result_bind_Ok. split; [exact Hf|]. eexists. split; [done|]. intros Hw'.
    destruct (EncodeProtocolMessage ProtocolTypeAwareness b) as [e|] eqn:He; [|done]. exists e. split; [exact He|].
    rewrite <- Hn. apply decoded_envelope; [done|]. unfold EncodeProtocolEnvelope, appendProtocolEnvelope. cbn -[EncodeProtocolUpdate].
    unfold EncodeProtocolUpdate. rewrite Hb. exact He.
  - intros [= <-].
  - destruct q as [[]|]; intros [= <-]. split; [exact Hf|]. eexists. split; [done|]. intros _. eexists. split; [done|]. by vm_compute.
Qed.


End relay.

(** A state vector, an update and a query of an edge whose session is of the V2 format. *)
Definition relay_request : Request := mkRequest (mkDocumentKey [] [100]) [99] 1 false UpdateFormatV2 None.
Definition relay_messages : list ProtocolMessage :=
  [mkMessage ProtocolTypeSync (Some (mkSync SyncMessageTypeStep1 [0])) None None None;
   mkMessage ProtocolTypeSync (Some (mkSync SyncMessageTypeUpdate [0; 0])) None None None;
   mkMessage ProtocolTypeQueryAwareness None None None None].


(** Spaces around a connection id reach the owner as they are, where they are cut
    from the id of every message but not from that of the handshake: no message passes. *)
Theorem untrimmed_connection_mismatches (req : Request) (key : DocumentKey) (epoch messageEpoch : Z) (connectionID : bytes) (Hk : rq_DocumentKey req = key)
    (Hu : TrimSpace (rq_ConnectionID req) ≠ rq_ConnectionID req) :
  validateRemoteOwnerRouteFields req epoch key connectionID messageEpoch ≠ None.
Proof.
  unfold validateRemoteOwnerRouteFields. rewrite bool_decide_true by done. cbn [negb]. rewrite bool_decide_false; [done|]. intros E. apply Hu. rewrite <- E. apply TrimSpace_twice.
Qed.
