(* ===== verification/ServerSpec.v ===== *)
(** * Properties of the handlers of HTTP and of sockets

    A run of a handler is the sequence of its actions with what they returned
    ([runs]), with any answers from the provider, the runtime, sockets, hooks and
    other calls.  An automaton reads such a sequence ([follow]): one for what a call
    holds ([after]), one for what a request has passed ([admission_after]), one for
    the frames of a client ([frame_after]), one for the epochs a client is served
    under ([epoch_after]).  [keeps] is its weakest precondition on computations.
    Schedules of several calls show what can go wrong between them. *)
From S2P Require Import Prelude GoError GoText StorageTypes NodeFrame NodeMessage ClusterTypes Effects Aggregate YProtocol Facade WireCompat Session Http HttpNode Provider Server Forward.
#[local] Open Scope io_scope.

(** ** Runs *)

Definition event : Type := { a : server_op & server_reply a }.

Fixpoint runs {A} (m : sio A) (l : list event) (x : A) : Prop :=
  match m with
  | Ret y => l = [] ∧ y = x
  | Act a k => ∃ r l', l = existT a r :: l' ∧ runs (k r) l' x
  end.

Lemma runs_bind {A B} (m : sio A) (f : A → sio B) l x : runs (m ≫= f) l x ↔ ∃ y l1 l2, l = l1 ++ l2 ∧ runs m l1 y ∧ runs (f y) l2 x.
Proof.
  revert l. induction m as [z|a k IH]; intros l; cbn.
  - split; [by exists z, [], l|]. by intros (y & l1 & l2 & -> & [-> ->] & Hf).
  - split.
    + intros (r & l' & -> & Hk). apply IH in Hk as (y & l1 & l2 & -> & H1 & H2). exists y, (existT a r :: l1), l2. split; [done|]. split; [by exists r, l1|done].
    + intros (y & l1 & l2 & -> & (r & l' & -> & Hk) & H2). exists r, (l' ++ l2). split; [done|]. apply IH. by exists y, l', l2.
Qed.

Section automaton.
Context {S : Type}.
Variable after : ∀ a : server_op, server_reply a → S → option S.

Fixpoint follow (l : list event) (h : S) : option S :=
  match l with [] => Some h | existT a r :: l => match after a r h with Some h => follow l h | None => None end end.

Fixpoint keeps {A} (m : sio A) (Q : A → S → Prop) (h : S) : Prop :=
  match m with
  | Ret x => Q x h
  | Act a k => ∀ r, match after a r h with Some h => keeps (k r) Q h | None => False end
  end.

Lemma keeps_runs {A} (m : sio A) Q h l x : runs m l x → keeps m Q h → ∃ h', follow l h = Some h' ∧ Q x h'.
Proof.
  revert l h. induction m as [y|a k IH]; intros l h; cbn; [intros [-> ->]; by exists h|]. intros (r & l' & -> & Hr) Hk. specialize (Hk r). cbn.
  destruct (after a r h) as [h1|]; [by eapply IH|done].
Qed.

Lemma keeps_bind {A B} (m : sio A) (f : A → sio B) Q h : keeps m (λ x, keeps (f x) Q) h → keeps (m ≫= f) Q h.
Proof.
  revert h. induction m as [x|a k IH]; intros h; cbn; [done|]. intros Hk r. specialize (Hk r). destruct (after a r h); [by apply IH|done].
Qed.

Lemma keeps_mono {A} (m : sio A) (P Q : A → S → Prop) h : (∀ x h, P x h → Q x h) → keeps m P h → keeps m Q h.
Proof.
  intros HPQ. revert h. induction m as [x|a k IH]; intros h; cbn; [apply HPQ|]. intros Hk r. specialize (Hk r).
  destruct (after a r h); [by apply IH|done].
Qed.

(** [P] is the end of what is done so far, [Q] of the whole. *)
Lemma keeps_then {A B} (m : sio A) (f : A → sio B) P Q h : keeps m P h → (∀ x h, P x h → keeps (f x) Q h) → keeps (m ≫= f) Q h.
Proof. intros Hm Hf. apply keeps_bind. by eapply keeps_mono. Qed.

(** A computation may still be going on. *)
Definition upto {A} (Q : A → S → Prop) (x : option A) (h : S) : Prop := match x with Some x => Q x h | None => True end.

Lemma keeps_sess {A B} (m : sess A) (f : A → sess B) P Q h :
  keeps m (upto P) h → (∀ x h, P x h → keeps (f x) (upto Q) h) → keeps (sess_then m f) (upto Q) h.
Proof. intros Hm Hf. eapply keeps_then; [exact Hm|]. intros [x|] h' Hx; [by apply Hf|done]. Qed.

(** Actions the automaton does not look at. *)
Definition quiet (a : server_op) : Prop := ∀ r h, after a r h = Some h.

Lemma keeps_quiet {A} (m : sio A) (Q : A → S → Prop) h : only quiet m → (∀ x, Q x h) → keeps m Q h.
Proof. intros Ho HQ. induction m as [x|a k IH]; cbn in *; [apply HQ|]. destruct Ho as [Ha Ho]. intros r. rewrite Ha. by apply IH. Qed.

Lemma then_just {A} a (k : sio A) Q h : quiet a → keeps k Q h → keeps (_ ← just a; k) Q h.
Proof. intros Ha Hk. cbn. intros r. by rewrite Ha. Qed.

Lemma then_doing {A} a (k : server_reply a → sio A) Q h : quiet a → (∀ r, keeps (k r) Q h) → keeps (r ← doing a; k r) Q h.
Proof. intros Ha Hk. cbn. intros r. by rewrite Ha. Qed.

End automaton.

(** ** Actions that only write *)

(** What answers and broadcasts do. *)
Definition sending (a : server_op) : Prop :=
  match a with
  | DoAllowFrame _ QuotaDirectionOutbound _ | WriteSocket _ _ | SendNode _ _ | CloseSocket _ _ _ | CloseStream _ => True
  | _ => False
  end.
Definition writing (a : server_op) : Prop := match a with PeersExcept _ _ => True | _ => sending a end.

Lemma sending_writing a : sending a → writing a.
Proof. by destruct a. Qed.

Lemma only_mono {op} {reply : op → Type} {A} (P Q : op → Prop) (m : prog reply A) : (∀ a, P a → Q a) → only P m → only Q m.
Proof. intros HPQ. induction m as [x|a k IH]; cbn; [done|]. intros [Ha Hk]. split; [by apply HPQ|]. intros r. by apply IH. Qed.

Lemma only_just (P : server_op → Prop) a : P a → only P (just a).
Proof. intros Ha. by split. Qed.

Lemma only_when (P : server_op → Prop) b m : only P m → only P (when b m).
Proof. by destruct b. Qed.

Section writes.
Lemma deliver_socket_sends socket quota payload : only sending (deliver_socket socket quota payload).
Proof.
  unfold deliver_socket. apply only_bind; [by destruct quota|]. by intros [err|].
Qed.

Lemma send_each_sends stream messages : only sending (send_each stream messages).
Proof. induction messages as [|m messages IH]; cbn; [done|]. split; [done|]. by intros [err|]. Qed.

Lemma send_all_sends stream messages : only sending (send_all stream messages).
Proof. destruct messages; [apply send_each_sends|done]. Qed.

Lemma deliver_sends peer payload : only sending (deliver peer payload).
Proof. destruct peer; cbn; [|apply send_all_sends]. destruct (protocolPayloadForSyncOutputFormat _ _); [apply deliver_socket_sends|done]. Qed.

Lemma writeBroadcastPeers_sends peers p : only sending (writeBroadcastPeers peers p).
Proof.
  induction peers as [|peer peers IH]; cbn; [done|]. apply only_bind; [|intros out; apply only_bind; [done|by intros rest]].
  unfold writeBroadcastPeer. destruct (payloadFor p peer); [|done]. destruct (wants_V2 peer); [|apply deliver_sends].
  destruct peer; [apply deliver_socket_sends|apply deliver_sends].
Qed.

Lemma close_failed_sends peers results : only sending (close_failed peers results).
Proof.
  revert results. induction peers as [|peer peers IH]; intros [|out results]; cbn; [done..|].
  apply only_bind; [|intros; apply IH]. apply only_when. destruct peer; by apply only_just.
Qed.

Lemma fanout_only (P : server_op → Prop) req payload : (∀ a, sending a → P a) → P (PeersExcept (rq_DocumentKey req) (rq_ConnectionID req)) →
  only P (broadcast req payload).
Proof.
  intros Hs Hp. destruct payload as [|b payload]; [done|]. cbn [broadcast]. split; [done|]. intros [|peer peers]; [done|].
  eapply only_mono; [exact Hs|]. apply only_bind; [apply writeBroadcastPeers_sends|]. intros results. apply close_failed_sends.
Qed.

Lemma writeBinary_sends peer payload : only sending (writeBinary peer payload).
Proof. destruct payload; [done|apply deliver_sends]. Qed.

Lemma send_each_writes stream messages : only writing (send_each stream messages).
Proof. eapply only_mono, send_each_sends. apply sending_writing. Qed.
Lemma send_all_writes stream messages : only writing (send_all stream messages).
Proof. eapply only_mono, send_all_sends. apply sending_writing. Qed.
Lemma deliver_writes peer payload : only writing (deliver peer payload).
Proof. eapply only_mono, deliver_sends. apply sending_writing. Qed.
Lemma writeBinary_writes peer payload : only writing (writeBinary peer payload).
Proof. eapply only_mono, writeBinary_sends. apply sending_writing. Qed.
Lemma broadcast_writes req payload : only writing (broadcast req payload).
Proof. by apply fanout_only; [apply sending_writing|]. Qed.
End writes.

(** ** What a call holds *)

(** The quota, the ownership and the connection of a call, with the name it was opened
    by; whether its peer is in the registry; whether the request has an answer. *)
Record held := mkHeld {
  he_quota : option nat; he_ownership : option nat; he_conn : option (conn * DocumentKey * bytes); he_peer : bool; he_answered : bool }.

Definition nothing : held := mkHeld None None None false false.

(** Everything was given back. *)
Definition released (h : held) : Prop := he_quota h = None ∧ he_ownership h = None ∧ he_conn h = None ∧ he_peer h = false.

#[export] Instance conn_eq_dec : EqDecision conn.
Proof. solve_decision. Defined.

Definition holds_conn (c : conn) (h : held) : bool := match he_conn h with Some (c', _, _) => bool_decide (c' = c) | None => false end.

(** [owned]: the server has an ownership runtime.  A connection is used and saved
    while it is open and the document is owned; its peer is in the registry under its
    name, not longer than it is open; nothing is opened twice or given back twice;
    a request has one answer. *)
Definition after (owned : bool) (a : server_op) : server_reply a → held → option held :=
  match a as a return server_reply a → held → option held with
  | DoOpenQuota _ => λ r h,
      match he_quota h, r with
      | None, Ok quota => Some (mkHeld quota (he_ownership h) (he_conn h) (he_peer h) (he_answered h))
      | None, Err _ => Some h
      | Some _, _ => None
      end
  | DoAllowFrame quota QuotaDirectionInbound _ => λ _ h, if bool_decide (he_quota h = Some quota) then Some h else None
  | DoCloseQuota quota => λ _ h,
      if bool_decide (he_quota h = Some quota) then Some (mkHeld None (he_ownership h) (he_conn h) (he_peer h) (he_answered h)) else None
  | DoAcquireOwnership _ => λ r h,
      match he_ownership h, r with
      | None, Ok handle => Some (mkHeld (he_quota h) (Some handle) (he_conn h) (he_peer h) (he_answered h))
      | None, Err _ => Some h
      | Some _, _ => None
      end
  | DoReleaseOwnership handle => λ _ h,
      if bool_decide (he_ownership h = Some handle) then Some (mkHeld (he_quota h) None (he_conn h) (he_peer h) (he_answered h)) else None
  | DoOpen key id _ => λ r h,
      if owned && bool_decide (he_ownership h = None) then None
      else
        match he_conn h, r with
        | None, Ok c => Some (mkHeld (he_quota h) (he_ownership h) (Some (c, key, id)) (he_peer h) (he_answered h))
        | None, Err _ => Some h
        | Some _, _ => None
        end
  | DoHandle _ c _ | DoPersist c => λ _ h, if holds_conn c h && negb (owned && bool_decide (he_ownership h = None)) then Some h else None
  | DoClose c => λ _ h,
      if holds_conn c h && negb (he_peer h) then Some (mkHeld (he_quota h) (he_ownership h) None false (he_answered h)) else None
  | AddPeer key id _ => λ _ h,
      match he_conn h with
      | Some (_, key', id') =>
          if bool_decide (key = key') && bool_decide (id = id') && negb (he_peer h)
          then Some (mkHeld (he_quota h) (he_ownership h) (he_conn h) true (he_answered h)) else None
      | None => None
      end
  | RemovePeer key id => λ _ h,
      match he_conn h with
      | Some (_, key', id') =>
          if bool_decide (key = key') && bool_decide (id = id') && he_peer h
          then Some (mkHeld (he_quota h) (he_ownership h) (he_conn h) false (he_answered h)) else None
      | None => None
      end
  | HandleCORSPreflight => λ r h, if he_answered h then None else Some (mkHeld (he_quota h) (he_ownership h) (he_conn h) (he_peer h) r)
  | Respond _ _ | Accept => λ _ h, if he_answered h then None else Some (mkHeld (he_quota h) (he_ownership h) (he_conn h) (he_peer h) true)
  | _ => λ _ h, Some h
  end.

(** What a session holds while it is served, and when it is over. *)
Definition serving (quota ownership : option nat) (c : conn) (req : Request) : held :=
  mkHeld quota ownership (Some (c, rq_DocumentKey req, rq_ConnectionID req)) true true.
Definition resting (quota : option nat) : held := mkHeld quota None None false true.

Section holds.
Context (pool : list bytes → Run * Run).
Context (s : Server) (owned : bool) (Howned : owned = sv_ownershipRuntime s).

Abbreviation keeps := (keeps (after owned)).
Abbreviation quiet := (quiet (after owned)).

(** The ownership a session has is one it needs. *)
Definition owns (ownership : option nat) : Prop := owned && bool_decide (ownership = None) = false.

Lemma writing_quiet a : writing a → quiet a.
Proof. destruct a; try done. by destruct direction. Qed.

Lemma keeps_writes {A} (m : sio A) (Q : A → held → Prop) h : only writing m → (∀ x, Q x h) → keeps m Q h.
Proof. intros Ho. apply keeps_quiet. by eapply only_mono, Ho; apply writing_quiet. Qed.

Lemma then_writes {A B} (m : sio A) (f : A → sio B) (Q : B → held → Prop) h : only writing m → (∀ x, keeps (f x) Q h) → keeps (m ≫= f) Q h.
Proof. intros Hm Hf. apply keeps_bind. by apply keeps_writes. Qed.

Lemma holds_conn_own c q o key id p a : holds_conn c (mkHeld q o (Some (c, key, id)) p a) = true.
Proof. by apply bool_decide_eq_true_2. Qed.

Lemma release_keeps q o c p a (Q : unit → held → Prop) : Q tt (mkHeld q None c p a) → keeps (releaseRequestOwnership o) Q (mkHeld q o c p a).
Proof. intros HQ. destruct o as [o|]; cbn; [|done]. intros _. by rewrite bool_decide_eq_true_2. Qed.

Lemma closeQuota_keeps q o c p a (Q : unit → held → Prop) : Q tt (mkHeld None o c p a) → keeps (closeQuota q) Q (mkHeld q o c p a).
Proof. intros HQ. destruct q as [q|]; cbn; [|done]. intros _. by rewrite bool_decide_eq_true_2. Qed.

Lemma persist_keeps req c q o key id p a (Q : unit → held → Prop) : owns o → Q tt (mkHeld q o (Some (c, key, id)) p a) →
  keeps (when (rq_PersistOnClose req) (lost ← doing (DoAuthorityLost c); when (negb lost) (just (DoPersist c)))) Q (mkHeld q o (Some (c, key, id)) p a).
Proof.
  intros Ho HQ. destruct (rq_PersistOnClose req); cbn; [|done]. intros [|]; cbn; [done|]. intros r. by rewrite bool_decide_eq_true_2, Ho.
Qed.

(** Closing a connection whose peer is not in the registry. *)
Lemma close_keeps req c q o key id a (k : sio unit) (Q : unit → held → Prop) : keeps k Q (mkHeld q o None false a) →
  keeps (closed ← doing (DoClose c); _ ← match closed with Ok out => broadcast req (Broadcast out) | Err _ => Ret tt end; k) Q
    (mkHeld q o (Some (c, key, id)) false a).
Proof.
  intros Hk. cbn. intros r. rewrite bool_decide_eq_true_2 by done. cbn. destruct r as [out|err]; [|done].
  apply then_writes; [apply broadcast_writes|done].
Qed.

Lemma remove_keeps {A} q o c req a (k : sio A) (Q : A → held → Prop) :
  keeps k Q (mkHeld q o (Some (c, rq_DocumentKey req, rq_ConnectionID req)) false a) →
  keeps (_ ← just (RemovePeer (rq_DocumentKey req) (rq_ConnectionID req)); k) Q (mkHeld q o (Some (c, rq_DocumentKey req, rq_ConnectionID req)) true a).
Proof. intros Hk. cbn. intros _. by rewrite !bool_decide_eq_true_2. Qed.

Lemma add_keeps {A} q o c req peer a (k : sio A) (Q : A → held → Prop) :
  keeps k Q (mkHeld q o (Some (c, rq_DocumentKey req, rq_ConnectionID req)) true a) →
  keeps (_ ← just (AddPeer (rq_DocumentKey req) (rq_ConnectionID req) peer); k) Q
    (mkHeld q o (Some (c, rq_DocumentKey req, rq_ConnectionID req)) false a).
Proof. intros Hk. cbn. intros _. by rewrite !bool_decide_eq_true_2. Qed.

Lemma cleanup_keeps q o c req : owns o → keeps (cleanupConnectionWithOwnership req c o) (λ _ h, h = resting q) (serving q o c req).
Proof.
  intros Ho. apply remove_keeps, keeps_bind, persist_keeps; [done|]. by apply close_keeps, release_keeps.
Qed.

Abbreviation at_rest q := (λ _ h, h = resting q).

(** A handler of lost authority leaves the caller with what it had. *)
Definition gives_back (handler : AuthorityLossHandler) : Prop :=
  ∀ req socket epoch handoff q, keeps (handler req socket epoch handoff) (upto (at_rest q)) (resting q).

Definition handler_ok (handler : option AuthorityLossHandler) : Prop := match handler with Some h => gives_back h | None => True end.

Lemma loss_keeps req socket epoch handler handoff signal q : handler_ok handler →
  keeps (handleAuthorityLoss req socket epoch handler handoff signal) (upto (at_rest q)) (resting q).
Proof.
  intros Hh. destruct handler as [handler|]; [|done]. eapply keeps_sess; [apply Hh|]. by intros [err|] h ->.
Qed.

Lemma leave_keeps req c socket o q : owns o → keeps (leave req c socket o) (upto (at_rest q)) (serving q o c req).
Proof. intros Ho. eapply keeps_then; [by apply cleanup_keeps|]. by intros [] h ->. Qed.

Lemma leave_lost_keeps req c socket o handler signal q : owns o → handler_ok handler →
  keeps (leave_lost req c socket o handler signal) (upto (at_rest q)) (serving q o c req).
Proof. intros Ho Hh. eapply keeps_then; [by apply cleanup_keeps|]. intros [] h ->. cbn. intros epoch. by apply loss_keeps. Qed.

Lemma open_keeps {A} q o key id client a (k : result conn → sio A) Q : owns o →
  (∀ r, keeps (k r) Q (mkHeld q o (match r with Ok c => Some (c, key, id) | Err _ => None end) false a)) →
  keeps (r ← doing (DoOpen key id client); k r) Q (mkHeld q o None false a).
Proof. intros Ho Hk. cbn. unfold owns in Ho. rewrite Ho. intros r. specialize (Hk r). by destruct r. Qed.

Lemma accept_keeps {A} q o c p (k : result nat → sio A) Q :
  (∀ r, keeps (k r) Q (mkHeld q o c p true)) → keeps (r ← doing Accept; k r) Q (mkHeld q o c p false).
Proof. intros Hk r. apply Hk. Qed.

(** A connection that was never used. *)
Lemma drop_keeps {A} q o c key id a (k : sio A) Q :
  keeps k Q (mkHeld q o None false a) → keeps (_ ← just (DoClose c); k) Q (mkHeld q o (Some (c, key, id)) false a).
Proof. intros Hk. cbn. intros _. by rewrite bool_decide_eq_true_2. Qed.

(** A frame for the connection. *)
Lemma handle_keeps {A} ctx c payload q o req (k : result DispatchResult → sio A) Q : owns o →
  (∀ r, keeps (k r) Q (serving q o c req)) → keeps (r ← doing (DoHandle ctx c payload); k r) Q (serving q o c req).
Proof. intros Ho Hk. cbn. intros r. rewrite bool_decide_eq_true_2, Ho by done. apply Hk. Qed.

Lemma bootstrapPayload_keeps req c peer payload q o : owns o →
  keeps (bootstrapConnectionPayload req c peer payload) (λ _ h, h = serving q o c req) (serving q o c req).
Proof.
  intros Ho. apply handle_keeps; [done|]. intros [out|err]; [|done]. apply then_writes; [apply writeBinary_writes|]. intros [err|]; [done|].
  by apply then_writes; [apply broadcast_writes|].
Qed.

Lemma bootstrap_keeps req c peer sync q o : owns o →
  keeps (bootstrapConnection req c peer sync) (λ _ h, h = serving q o c req) (serving q o c req).
Proof.
  intros Ho. eapply keeps_then; [instantiate (1 := λ _ h, h = serving q o c req); destruct sync; [by apply bootstrapPayload_keeps|done]|].
  intros [err|] h ->; [done|by apply bootstrapPayload_keeps].
Qed.

Lemma quota_frame_keeps {A} size q o cn p a (k : option error → sio A) Q :
  (∀ r, keeps (k r) Q (mkHeld q o cn p a)) → keeps (r ← allowQuotaFrame q QuotaDirectionInbound size; k r) Q (mkHeld q o cn p a).
Proof. intros Hk. destruct q as [q|]; cbn; [|apply Hk]. intros r. by rewrite bool_decide_eq_true_2. Qed.

Lemma serve_frames_keeps frames session req c socket peer options : owns (so_ownership options) → handler_ok (so_handler options) →
  keeps (serve_frames frames session req c socket peer options) (upto (at_rest (so_quota options)))
    (serving (so_quota options) (so_ownership options) c req).
Proof.
  intros Ho Hh. assert (keeps (leave req c socket (so_ownership options)) (upto (at_rest (so_quota options))) (serving (so_quota options) (so_ownership options) c req))
    as Hleave by by apply leave_keeps.
  induction frames as [|frames IH]; [done|]. cbn [serve_frames]. intros [[[|] payload]|err]; [..|].
  - apply quota_frame_keeps. intros [err|]; [by intros r|]. apply handle_keeps; [done|]. intros [out|err].
    + apply then_writes; [apply writeBinary_writes|]. intros [err|]; [done|]. by apply then_writes; [apply broadcast_writes|].
    + destruct (isAuthorityLostRetryableError err) eqn:E; [by apply leave_lost_keeps|]. unfold websocketCloseFromRuntimeError. rewrite E. by intros r.
  - by intros r.
  - cbn. intros [signal|]; [by apply leave_lost_keeps|done].
Qed.

Lemma bootstrap_refused_keeps req c socket options err rest : owns (so_ownership options) → handler_ok (so_handler options) →
  keeps rest (upto (at_rest (so_quota options))) (resting (so_quota options)) →
  keeps (bootstrap_refused req c socket options err rest) (upto (at_rest (so_quota options))) (serving (so_quota options) (so_ownership options) c req).
Proof.
  intros Ho Hh Hrest. unfold bootstrap_refused, websocketCloseFromRuntimeError. destruct (isAuthorityLostRetryableError err); [by apply leave_lost_keeps|].
  apply then_just; [done|]. eapply keeps_then; [by apply cleanup_keeps|]. by intros [] h ->.
Qed.

Lemma session_over_keeps observe req session q : keeps (session_over observe req session) (upto (at_rest q)) (resting q).
Proof. cbn. intros signal. by destruct observe. Qed.

(** The beginning of a session: its peer gets into the registry. *)
Lemma begin_keeps {A} session req c peer closes observe q o (k : sess A) Q :
  keeps k Q (serving q o c req) →
  keeps (_ ← when observe (just (ConnectionOpened req));
         _ ← just (AddPeer (rq_DocumentKey req) (rq_ConnectionID req) peer);
         _ ← startAuthorityRevalidator s session req c closes; k) Q
    (mkHeld q o (Some (c, rq_DocumentKey req, rq_ConnectionID req)) false true).
Proof.
  intros Hk. apply keeps_bind. assert (keeps (_ ← just (AddPeer (rq_DocumentKey req) (rq_ConnectionID req) peer);
    _ ← startAuthorityRevalidator s session req c closes; k) Q (mkHeld q o (Some (c, rq_DocumentKey req, rq_ConnectionID req)) false true)) as Hadd;
    [|destruct observe; [intros r; exact Hadd|exact Hadd]].
  apply add_keeps. unfold startAuthorityRevalidator. apply keeps_bind, then_just; [done|].
  destruct (sv_revalidates s); intros r; exact Hk.
Qed.

Lemma plain_keeps frames req c socket options : owns (so_ownership options) → handler_ok (so_handler options) →
  keeps (serve_plain s frames req c socket options) (upto (at_rest (so_quota options)))
    (mkHeld (so_quota options) (so_ownership options) (Some (c, rq_DocumentKey req, rq_ConnectionID req)) false true).
Proof.
  intros Ho Hh. intros session. apply begin_keeps. eapply keeps_then.
  - instantiate (1 := λ _ h, h = serving (so_quota options) (so_ownership options) c req). destruct (so_bootstrap options); [by apply bootstrap_keeps|done].
  - intros failed h ->. apply keeps_sess with (P := at_rest (so_quota options)); [|intros [] h ->; apply session_over_keeps].
    destruct failed as [err|]; [by apply bootstrap_refused_keeps|by apply serve_frames_keeps].
Qed.

Lemma switchable_end_keeps client session req c socket options : owns (so_ownership options) → handler_ok (so_handler options) →
  keeps (serve_switchable_end client session req c socket options) (upto (at_rest (so_quota options)))
    (serving (so_quota options) (so_ownership options) c req).
Proof.
  intros Ho Hh. apply then_doing; [done|]. intros woken. apply then_doing; [done|]. intros [signal|].
  - apply then_doing; [done|]. intros epoch. apply then_just; [done|]. eapply keeps_then; [by apply cleanup_keeps|]. intros [] h ->. by apply loss_keeps.
  - eapply keeps_then; [by apply cleanup_keeps|]. intros [] h ->. by destruct woken.
Qed.

Lemma switchable_keeps req c socket options : owns (so_ownership options) → handler_ok (so_handler options) →
  keeps (serveSwitchableConnectedSocket s req c socket options) (upto (at_rest (so_quota options)))
    (mkHeld (so_quota options) (so_ownership options) (Some (c, rq_DocumentKey req, rq_ConnectionID req)) false true).
Proof.
  intros Ho Hh. intros session. apply begin_keeps. eapply keeps_then.
  - instantiate (1 := λ _ h, h = serving (so_quota options) (so_ownership options) c req). destruct (so_bootstrap options); [by apply bootstrap_keeps|done].
  - intros failed h ->. apply keeps_sess with (P := at_rest (so_quota options)); [|intros [] h ->; apply session_over_keeps].
    destruct failed as [err|]; [by apply bootstrap_refused_keeps|].
    apply then_doing; [done|]. intros client. do 2 (apply then_just; [done|]). eapply keeps_sess; [by apply switchable_end_keeps|].
    by intros [] h ->.
Qed.

(** ** Requests *)

(** Everything is given back and the request is answered. *)
Definition finished {A} (_ : A) (h : held) : Prop := h = resting None.

Lemma connected_keeps frames req c socket options : owns (so_ownership options) → handler_ok (so_handler options) →
  keeps (serveConnectedSocket s frames req c socket options) (upto finished)
    (mkHeld (so_quota options) (so_ownership options) (Some (c, rq_DocumentKey req, rq_ConnectionID req)) false true).
Proof.
  intros Ho Hh. eapply keeps_sess.
  - instantiate (1 := at_rest (so_quota options)). destruct (so_handler options) eqn:E; [apply switchable_keeps|apply plain_keeps]; by rewrite ?E.
  - intros [] h ->. by apply keeps_bind, closeQuota_keeps.
Qed.

Lemma resolved_keeps frames req observe bootstrap sync handler : handler_ok handler →
  keeps (serveResolvedHTTPWithOptions s frames req observe bootstrap sync handler) (upto finished) nothing.
Proof.
  intros Hh. unfold serveResolvedHTTPWithOptions. destruct (DocumentKey_Validate _); [done|].
  assert (∀ req, keeps (quota ← openQuota s req;
      match quota with
      | Err err => respond_auth err
      | Ok quota =>
          ownership ← acquireRequestOwnership s req;
          match ownership with
          | Err err => _ ← closeQuota quota; respond (statusFromOwnershipError err)
          | Ok ownership =>
              opened ← doing (DoOpen (rq_DocumentKey req) (rq_ConnectionID req) (rq_ClientID req));
              match opened with
              | Err err => _ ← closeQuota quota; _ ← releaseRequestOwnership ownership; respond (statusFromOpenError err)
              | Ok c =>
                  accepted ← doing Accept;
                  match accepted with
                  | Err _ => _ ← just (DoClose c); _ ← releaseRequestOwnership ownership; _ ← closeQuota quota; ended tt
                  | Ok socket => serveConnectedSocket s frames req c socket (mkSessionOptions observe bootstrap sync handler ownership quota)
                  end
              end
          end
      end) (upto finished) nothing) as Hrest; [|destruct (is_blank _); [intros n|]; apply Hrest].
  clear req. intros req. apply keeps_then with (P := λ r h, match r with Ok q => h = mkHeld q None None false false | Err _ => h = nothing end).
  { unfold openQuota. destruct (has_quotaLimiter _); [|done]. by intros [q|err]. }
  intros [q|err] h ->; [|done]. apply keeps_then with (P := λ r h, match r with Ok o => h = mkHeld q o None false false ∧ owns o | Err _ => h = mkHeld q None None false false end).
  { unfold acquireRequestOwnership, owns. rewrite Howned. destruct (sv_ownershipRuntime s); [|done]. by intros [o|err]. }
  intros [o|err] h Ho; [destruct Ho as [-> Ho]|subst h; by apply keeps_bind, closeQuota_keeps].
  apply open_keeps; [done|]. intros [c|err]; [|by apply keeps_bind, closeQuota_keeps, keeps_bind, release_keeps].
  apply accept_keeps. intros [socket|err]; [by apply connected_keeps|].
  by apply drop_keeps, keeps_bind, release_keeps, keeps_bind, closeQuota_keeps.
Qed.

Lemma pass_guards_keeps get k : (∀ req, keeps (k req) (upto finished) nothing) → keeps (pass_guards s get k) (upto finished) nothing.
Proof.
  intros Hk. unfold pass_guards. apply keeps_then with (P := λ r h, h = mkHeld None None None false r).
  { destruct (sv_corsPreflight s); [by intros r|done]. }
  intros [] h ->; [done|]. destruct get; [|done]. apply then_doing; [done|]. intros [req|err]; [|done].
  apply keeps_bind, keeps_quiet; [unfold checkOrigin; by destruct (has_originPolicy _)|]. intros [err|]; [done|].
  apply keeps_bind, keeps_quiet; [|intros [req'|err]; [apply Hk|done]]. unfold authenticateAndAuthorize.
  apply only_bind; [destruct (has_authenticator _); [|done]; by split|]. intros [[principal req']|err]; [|done].
  apply only_bind; [by destruct (has_authorizer _)|]. intros [err|]; [done|]. apply only_bind; [by destruct (has_rateLimiter _)|done].
Qed.

(** ** The forwarder *)

Section forwarder.
Context (f : remoteOwnerForwarder) (Hlocal : ∀ s', fw_local f = Some s' → s' = s).
Context (attempts changes : nat).

Lemma send_each_quiet stream messages : only quiet (send_each stream messages).
Proof. eapply only_mono, send_each_writes. apply writing_quiet. Qed.

Lemma close_session_quiet req session disconnect : only quiet (closeRemoteOwnerSession req session disconnect).
Proof.
  destruct session as [session|]; [|done]. apply only_bind; [|done]. apply only_when. unfold sendDisconnect. by destruct (_ || _).
Qed.

Lemma open_session_quiet req resolution epoch bootstrap : only quiet (openRemoteOwnerSession pool f req resolution epoch bootstrap).
Proof.
  unfold openRemoteOwnerSession. split; [done|]. intros [stream|err]; [|done]. apply only_bind.
  - split; [done|]. by intros [err|].
  - intros [format|err]; [|done]. destruct bootstrap; [|done]. apply only_bind; [destruct (state_vector_of _ _); [apply send_each_quiet|done]|].
    intros [err|]; [|done]. apply only_bind; [apply close_session_quiet|done].
Qed.

Lemma rebind_quiet req epoch allowLocal : only quiet (rebindRemoteOwnerSession pool f attempts req epoch allowLocal).
Proof.
  unfold rebindRemoteOwnerSession. destruct (fw_ownerLookup f); [|done]. cbn [negb]. induction attempts as [|n IH]; [done|]. cbn [rebind_loop].
  apply only_bind.
  - apply only_bind; [by split|]. intros [resolution|err]; [|done]. destruct (Local resolution); [done|]. destruct (remoteOwnerEpoch resolution); [|done].
    apply only_bind; [apply open_session_quiet|done].
  - intros [t|err]; [done|]. split; [done|]. by intros [over|].
Qed.

Lemma bridge_quiet req socket session client quota : only quiet (bridge req socket session client quota).
Proof.
  unfold bridge. split; [done|]. intros b. split; [done|]. intros []. split; [done|]. intros woken. split; [done|]. intros [].
  destruct woken as [[err|]|[[signal|err]|]]; try done. by destruct (cs_retryable signal).
Qed.

(** What comes after a computation that holds nothing more. *)
Lemma then_quiet {A B} (m : sess A) (k : A → sess B) Q h : only quiet m → (∀ x, keeps (k x) (upto Q) h) → keeps (sess_then m k) (upto Q) h.
Proof. intros Hm Hk. apply keeps_bind, keeps_quiet; [done|]. by intros [x|]. Qed.

Lemma acquire_keeps {A} req q a (k : result (option nat) → sio A) Q :
  (∀ o, owns o → keeps (k (Ok o)) Q (mkHeld q o None false a)) → (∀ err, keeps (k (Err err)) Q (mkHeld q None None false a)) →
  keeps (r ← acquireRequestOwnership s req; k r) Q (mkHeld q None None false a).
Proof.
  intros Hok Herr. unfold acquireRequestOwnership. destruct (sv_ownershipRuntime s) eqn:E.
  - cbn. intros [o|err]; [|by apply Herr]. apply Hok. unfold owns. by rewrite bool_decide_eq_false_2, andb_false_r.
  - apply Hok. unfold owns. by rewrite Howned.
Qed.

Lemma takeover_keeps bridge_on req socket client quota reason q :
  (∀ session, keeps (bridge_on session) (upto (at_rest q)) (resting q)) →
  keeps (takeoverLocalOwner pool f attempts bridge_on req socket client quota reason) (upto (at_rest q)) (resting q).
Proof.
  intros Hb. unfold takeoverLocalOwner. pose proof Hlocal as Hs. destruct (fw_local f) as [s'|]; [|done]. rewrite (Hs s') by done.
  apply acquire_keeps; [|done]. intros o Ho. apply open_keeps; [done|]. intros [c|err]; [|by apply keeps_bind, release_keeps].
  apply add_keeps, then_doing; [done|]. intros session. apply keeps_bind.
  assert (keeps (startAuthorityRevalidator s session req c None) (λ _ h, h = serving q o c req) (serving q o c req)) as Hstart.
  { unfold startAuthorityRevalidator. apply then_just; [done|]. by destruct (sv_revalidates s). }
  eapply keeps_mono, Hstart. intros [] h ->. eapply keeps_then; [by apply bootstrap_keeps|].
  intros failed h ->. apply keeps_sess with (P := at_rest q); [|by intros out h ->].
  destruct failed as [err|]; [eapply keeps_then; [by apply cleanup_keeps|]; by intros [] h ->|].
  apply then_just; [done|]. apply then_doing; [done|]. intros woken. eapply keeps_then; [by apply cleanup_keeps|]. intros [] h ->.
  apply then_doing; [done|]. intros [signal|]; [|done]. apply then_doing; [done|]. intros epoch. apply then_just; [done|].
  apply then_quiet; [apply rebind_quiet|]. intros [[next|]|err]; [|done..]. apply then_just; [done|].
  eapply keeps_sess; [apply Hb|]. by intros out h ->.
Qed.

Lemma bridges_keep n req socket client quota session q :
  keeps (bridgeRemoteOwnerSessions pool f attempts n req socket client quota session) (upto (at_rest q)) (resting q).
Proof.
  revert session. induction n as [|n IH]; intros session; [done|]. cbn [bridgeRemoteOwnerSessions].
  apply keeps_bind, keeps_quiet; [apply bridge_quiet|]. intros [reason [signal|]]; [|done].
  apply then_just; [done|]. apply keeps_bind, keeps_quiet; [apply close_session_quiet|]. intros _.
  apply then_quiet; [apply rebind_quiet|]. intros [[next|]|err]; [|by apply takeover_keeps|done]. apply then_just; [done|]. apply IH.
Qed.

Lemma f_closeQuota_keeps q (Q : unit → held → Prop) : (fw_local f = None → q = None) → Q tt (resting None) → keeps (f_closeQuota f q) Q (resting q).
Proof. intros Hq HQ. unfold f_closeQuota. destruct (fw_local f); [by apply closeQuota_keeps|]. by rewrite Hq. Qed.

Lemma cleanup_quiet req socket session reason observe : only quiet (cleanup req socket session reason observe).
Proof.
  unfold cleanup. apply only_bind; [apply close_session_quiet|]. intros _. apply only_bind; [by apply only_when, only_just|].
  intros _. by apply only_when, only_just.
Qed.

(** The quota [q'] that others hold stays. *)
Lemma forwarded_keeps req socket session quota observe q :
  (∀ Q : unit → held → Prop, Q tt (resting q) → keeps (f_closeQuota f quota) Q (resting (match quota with Some _ => quota | None => q end))) →
  keeps (serveRemoteForwardedSocket pool f attempts changes req socket session quota observe) (upto (at_rest q))
    (resting (match quota with Some _ => quota | None => q end)).
Proof.
  intros Hclose. unfold serveRemoteForwardedSocket. apply keeps_bind, keeps_quiet; [by apply only_when, only_just|]. intros _.
  apply then_doing; [done|]. intros client. do 2 (apply then_just; [done|]). eapply keeps_sess; [apply bridges_keep|]. intros out h ->.
  apply keeps_bind, keeps_quiet; [apply cleanup_quiet|]. intros _. apply then_just; [done|].
  apply keeps_bind, keeps_quiet; [by apply only_when, only_just|]. intros _. by apply keeps_bind, Hclose.
Qed.

Lemma handle_request_keeps header req resolution :
  keeps (handle pool f attempts changes header req resolution)
    (upto (λ (answered : bool) h, if answered then h = resting None else h = nothing)) nothing.
Proof.
  unfold handle. destruct (isWebSocketUpgrade header); [|done]. cbn [negb]. destruct (remoteOwnerEpoch resolution) as [epoch|err]; [|done].
  apply keeps_then with (P := λ r h, match r with Ok q => h = mkHeld q None None false false ∧ (fw_local f = None → q = None) | Err _ => h = nothing end).
  { unfold f_openQuota. destruct (fw_local f) as [s'|]; [|done]. unfold openQuota. destruct (has_quotaLimiter _); [by intros [q|err]|by split]. }
  intros [q|err] h Hh; [|by subst]. destruct Hh as [-> Hq].
  assert (∀ a (Q : unit → held → Prop), Q tt (mkHeld None None None false a) → keeps (f_closeQuota f q) Q (mkHeld q None None false a)) as Hclose.
  { intros a Q HQ. unfold f_closeQuota. destruct (fw_local f); [by apply closeQuota_keeps|]. by rewrite Hq. }
  apply keeps_bind, keeps_quiet; [apply open_session_quiet|]. intros [session|err]; [|by apply keeps_bind, Hclose].
  apply accept_keeps. intros [socket|err].
  - apply keeps_sess with (P := at_rest None); [|by intros err h ->]. pose proof (forwarded_keeps req socket session q true None) as H.
    destruct q; apply H; intros Q HQ; by apply Hclose.
  - apply keeps_bind, keeps_quiet; [apply close_session_quiet|]. intros _. by apply keeps_bind, Hclose.
Qed.

Lemma authority_loss_gives_back : gives_back (handleLocalAuthorityLoss pool f attempts changes).
Proof.
  intros req socket epoch handoff q. unfold handleLocalAuthorityLoss. apply then_quiet; [apply rebind_quiet|].
  intros [[session|]|err]; [|done..]. destruct handoff as [h|].
  - apply then_just; [done|]. eapply keeps_sess; [apply bridges_keep|]. intros out h' ->. apply keeps_bind, keeps_quiet; [apply cleanup_quiet|done].
  - apply (forwarded_keeps req socket session None false q). intros Q HQ. unfold f_closeQuota. by destruct (fw_local f).
Qed.

End forwarder.

(** ** The endpoint *)

Lemma endpoint_cleanup_keeps req epoch c stream o signal : owns o →
  keeps (cleanupRemoteOwnerStream req epoch c stream o signal) (at_rest None)
    (mkHeld None o (Some (c, rq_DocumentKey req, rq_ConnectionID req)) false true).
Proof.
  intros Ho. unfold cleanupRemoteOwnerStream. apply then_writes; [destruct signal; [unfold sendRemoteOwnerClose; by destruct (_ || _)|done]|]. intros _.
  apply keeps_bind, persist_keeps; [done|]. apply close_keeps, keeps_bind, release_keeps. apply then_just; [done|]. by intros r.
Qed.

Lemma document_message_keeps req epoch c peer stream message o : owns o →
  keeps (handle_document_message req epoch c peer stream message) (λ _ h, h = serving None o c req) (serving None o c req).
Proof.
  intros Ho. unfold handle_document_message. destruct (validateRemoteOwnerRoute _ _ _); [done|].
  destruct (ownerMessageToProtocolPayload message) as [payload|err]; [|done]. apply handle_keeps; [done|]. intros [out|err]; [|done].
  apply then_writes.
  - destruct (Direct out); [done|]. destruct message; try apply deliver_writes. apply send_all_writes.
  - intros [err|]; [done|]. by apply then_writes; [apply broadcast_writes|].
Qed.

Lemma message_keeps req epoch c peer stream message o : owns o →
  keeps (handleRemoteOwnerMessage req epoch c peer stream message) (λ _ h, h = serving None o c req) (serving None o c req).
Proof. intros Ho. destruct message; try (by apply document_message_keeps); first [exact eq_refl|intros sent; exact eq_refl]. Qed.

Lemma serve_messages_keeps frames session req epoch c peer stream o : owns o →
  keeps (serve_messages frames session req epoch c peer stream) (upto (λ _ h, h = serving None o c req)) (serving None o c req).
Proof.
  intros Ho. induction frames as [|frames IH]; [done|]. cbn [serve_messages]. apply then_doing; [done|]. intros [message|err].
  - eapply keeps_then; [by apply message_keeps|]. by intros [| |reason err] h ->.
  - apply then_doing; [done|]. intros [signal|]; [done|]. by destruct (isIgnorableNodeStreamError err).
Qed.

Section endpoint.
Context (e : RemoteOwnerEndpoint) (Hep : ep_local e = s).

Lemma serve_edge_keeps frames h req c stream o : owns o →
  keeps (serve_edge e frames h req c stream) (upto (λ _ x, x = mkHeld None o (Some (c, rq_DocumentKey req, rq_ConnectionID req)) false true))
    (mkHeld None o (Some (c, rq_DocumentKey req, rq_ConnectionID req)) false true).
Proof.
  intros Ho. unfold serve_edge. apply then_doing; [done|]. intros [err|]; [done|]. apply then_doing; [done|]. intros session.
  apply keeps_bind, keeps_quiet; [by apply only_when, only_just|]. intros _. apply add_keeps.
  eapply keeps_sess; [by apply serve_messages_keeps|]. intros out x ->. apply remove_keeps. apply then_doing; [done|]. intros signal. by apply then_just.
Qed.

Lemma refuse_edge_quiet req epoch stream signal : only quiet (refuse_edge req epoch stream signal).
Proof. unfold refuse_edge. apply only_bind; [unfold sendRemoteOwnerClose; by destruct (_ || _)|done]. Qed.

Lemma open_for_edge_keeps frames h req stream o : owns o →
  keeps (open_for_edge e frames h req stream o) (upto (at_rest None)) (mkHeld None o None false true).
Proof.
  intros Ho. unfold open_for_edge. apply open_keeps; [done|]. intros [c|err].
  - apply then_doing; [done|]. intros epoch. destruct (validateRemoteOwnerAuthorityEpoch _ _) as [err|].
    + apply keeps_bind, release_keeps, drop_keeps, keeps_quiet; [apply refuse_edge_quiet|]. by intros [x|].
    + apply then_just; [done|]. eapply keeps_sess; [by apply serve_edge_keeps|]. intros out x ->.
      eapply keeps_then; [by apply endpoint_cleanup_keeps|]. by intros [] x ->.
  - apply keeps_bind, release_keeps. destruct (isAuthorityLostRetryableError err); [|done]. apply keeps_quiet; [apply refuse_edge_quiet|]. by intros [x|].
Qed.

Lemma serveStream_keeps frames stream header : keeps (serveStream e frames stream header) (upto (at_rest None)) (resting None).
Proof.
  unfold serveStream. apply then_doing; [done|]. intros received. destruct (received ≫= receiveHandshake) as [h|err]; [|done].
  apply keeps_bind, keeps_quiet; [by destruct (ep_authenticates e)|]. intros [err|]; [done|]. rewrite Hep. apply acquire_keeps.
  - intros o Ho. by apply open_for_edge_keeps.
  - intros err. destruct (_ =? _); [|done]. apply keeps_quiet; [apply refuse_edge_quiet|]. by intros [x|].
Qed.

Lemma endpoint_keeps frames get header : keeps (RemoteOwnerEndpoint_ServeHTTP e frames get header) (upto finished) nothing.
Proof.
  unfold RemoteOwnerEndpoint_ServeHTTP. destruct get; [|done]. destruct (isWebSocketUpgrade header); [|done]. cbn [negb].
  apply accept_keeps. intros [socket|err]; [|done]. eapply keeps_sess; [apply serveStream_keeps|]. intros err x ->.
  apply keeps_bind, keeps_quiet; [destruct err; [by apply only_when, only_just|done]|done].
Qed.
End endpoint.

End holds.

(** ** The handlers of a node *)

(** What answers requests of HTTP on a node whose server is [s]: the server, the server
    behind a lookup of the owner, with the forwarder for what other nodes own, the
    endpoint for other nodes. *)
Inductive handler_of (pool : list bytes → Run * Run) (s : Server) : sess unit → Prop :=
| of_server frames get : handler_of pool s (Server_ServeHTTP s frames get)
| of_owner_aware f attempts changes header promote retryAfter frames get : (∀ s', fw_local f = Some s' → s' = s) →
    handler_of pool s
      (OwnerAwareServer_ServeHTTP s
         (mkOwnerAware promote (Some (handle pool f attempts changes header)) (Some (handleLocalAuthorityLoss pool f attempts changes)) retryAfter)
         frames get)
| of_endpoint e frames get header : ep_local e = s →
    handler_of pool s (RemoteOwnerEndpoint_ServeHTTP e frames get header).

Lemma handler_keeps pool s m : handler_of pool s m →
  keeps (after (sv_ownershipRuntime s)) m (upto finished) nothing.
Proof.
  intros [frames get|f attempts changes header promote retryAfter frames get Hf|e frames get header He].
  - apply pass_guards_keeps. intros req. by apply resolved_keeps.
  - apply pass_guards_keeps. intros req. apply then_doing; [done|]. intros lookup.
    destruct (route_request _ _ _) as [| |resolution|status]; [by apply resolved_keeps; [|by eapply authority_loss_gives_back]..| |by intros r].
    assert (∀ req, keeps (after (sv_ownershipRuntime s)) (handled <~ handle pool f attempts changes header req resolution;
      if handled : bool then ended tt else _ ← just (Respond 409 (setRetryAfterHeader retryAfter)); ended tt) (upto finished) nothing) as Hrest.
    { intros req'. eapply keeps_sess; [by eapply handle_request_keeps|]. by intros [] h ->. }
    destruct (is_blank _); [intros n|]; apply Hrest.
  - by apply endpoint_keeps with s.
Qed.

(** C7: Nothing that a request opens is left open.  Whatever the services, the peer and
    other calls do, a call of a handler takes its actions in the order that [after]
    describes: it opens a quota, an ownership and a connection at most once before
    it gives them back; it uses and saves a document only while its connection is
    open and the ownership is held; its peer is in the registry under the name of the
    connection and leaves it before the connection is closed.  When the call ends
    all of them have been given back, once, and the request had one answer. *)
Theorem requests_give_back pool s m l x : handler_of pool s m → runs m l x →
  ∃ h, follow (after (sv_ownershipRuntime s)) l nothing = Some h ∧ (x = Some tt → released h ∧ he_answered h = true).
Proof.
  intros Hm Hr. destruct (keeps_runs _ _ _ _ _ _ Hr (handler_keeps _ _ _ Hm)) as (h & Hl & Hh). exists h. split; [done|].
  intros ->. cbn in Hh. by rewrite Hh.
Qed.

(** ** What a request has passed *)

(** The request with the principal that was authenticated. *)
Definition identified (s : Server) (req : Request) (p : Principal) : Request :=
  if has_authenticator (sv_hooks s) then set_principal (Some p) req else req.
Definition principal_of (s : Server) (p : Principal) : option Principal := if has_authenticator (sv_hooks s) then Some p else None.

(** What a request that passes goes through: every hook that the server has, in this
    order, on the request that was resolved and for the principal that was
    authenticated. *)
Definition guards (s : Server) (req : Request) (p : Principal) : list event :=
  (if sv_corsPreflight s then [existT HandleCORSPreflight false] else []) ++
  [existT DoResolveRequest (Ok req)] ++
  (if has_originPolicy (sv_hooks s) then [existT (DoCheckOrigin req) None] else []) ++
  (if has_authenticator (sv_hooks s) then [existT DoAuthenticate (Ok p)] else []) ++
  (if has_authorizer (sv_hooks s) then [existT (DoAuthorize (principal_of s p) (identified s req p)) None] else []) ++
  (if has_rateLimiter (sv_hooks s) then [existT (DoAllow (principal_of s p) (identified s req p)) None] else []).

(** The hooks, and an answer. *)
Definition guarding (e : event) : Prop :=
  match projT1 e with
  | HandleCORSPreflight | DoResolveRequest | DoCheckOrigin _ | DoAuthenticate | DoAuthorize _ _ | DoAllow _ _ | Respond _ _ => True
  | _ => False
  end.

Lemma only_runs {A} (P : server_op → Prop) (m : sio A) l x : only P m → runs m l x → Forall (λ e : event, P (projT1 e)) l.
Proof.
  revert l. induction m as [y|a k IH]; intros l; cbn; [by intros _ [-> _]|]. intros [Ha Ho] (r & l' & -> & Hr). constructor; [done|]. by eapply IH.
Qed.

Lemma authenticate_runs s req l out : runs (authenticateAndAuthorize s req) l out →
  match out with
  | Err _ => Forall guarding l
  | Ok req' => ∃ p, req' = identified s req p ∧
      l = (if has_authenticator (sv_hooks s) then [existT DoAuthenticate (Ok p)] else []) ++
          (if has_authorizer (sv_hooks s) then [existT (DoAuthorize (principal_of s p) (identified s req p)) None] else []) ++
          (if has_rateLimiter (sv_hooks s) then [existT (DoAllow (principal_of s p) (identified s req p)) None] else [])
  end.
Proof.
  unfold authenticateAndAuthorize, identified, principal_of. intros Hr.
  apply runs_bind in Hr as (who & l1 & l2 & -> & H1 & Hr).
  assert (match who with Err _ => Forall guarding l1 | Ok (principal, req') => ∃ p,
    (principal, req') = (if has_authenticator (sv_hooks s) then (Some p, set_principal (Some p) req) else (None, req)) ∧
    l1 = if has_authenticator (sv_hooks s) then [existT DoAuthenticate (Ok p)] else [] end) as Hwho.
  { destruct (has_authenticator (sv_hooks s)); cbn in H1.
    - destruct H1 as ([p|err] & l' & -> & -> & <-); cbn; [by exists p|]. by repeat constructor.
    - destruct H1 as [-> <-]. by exists (mkPrincipal [] [] []). }
  destruct who as [[principal req']|err].
  2: { destruct Hr as [-> <-]. by rewrite app_nil_r. }
  destruct Hwho as (p & Hp & El1). apply runs_bind in Hr as (denied & l3 & l4 & -> & H3 & Hr).
  assert (Forall guarding l1) as Hg1 by (rewrite El1; destruct (has_authenticator _); by repeat constructor).
  destruct (has_authorizer (sv_hooks s)); cbn in H3.
  2: destruct H3 as [-> <-]. 1: destruct H3 as (d & l' & -> & -> & <-); destruct d as [err|]; [destruct Hr as [-> <-]; apply Forall_app; by repeat constructor|].
  all: apply runs_bind in Hr as (limited & l5 & l6 & -> & H5 & [-> <-]).
  all: destruct (has_rateLimiter (sv_hooks s)); cbn in H5; [destruct H5 as (d & l' & -> & -> & <-)|destruct H5 as [-> <-]; cbn].
  all: try (destruct d as [err|]; cbn; [rewrite ?app_nil_r; apply Forall_app; by repeat constructor|]).
  all: exists p; destruct (has_authenticator (sv_hooks s)); injection Hp as -> ->; by rewrite El1.
Qed.

(** C8: Nothing is done for a request before it has passed the guards.  A call either
    ends among the hooks, with an answer and nothing else done, or its method is GET,
    every hook the server is configured with accepted exactly the request that was
    resolved, in their order and for the principal that was authenticated, and the
    rest of the call is the work [k] on that request, with that principal. *)
Theorem guards_first s get k l x : runs (pass_guards s get k) l x →
  (x = Some tt ∧ Forall guarding l) ∨
  (get = true ∧ ∃ req p rest, l = guards s req p ++ rest ∧ runs (k (identified s req p)) rest x).
Proof.
  unfold pass_guards, guards. intros Hr. apply runs_bind in Hr as (preflight & l1 & l2 & -> & H1 & Hr).
  assert (Forall guarding l1 ∧ (preflight = false → l1 = if sv_corsPreflight s then [existT HandleCORSPreflight false] else [])) as [Hg1 El1].
  { destruct (sv_corsPreflight s); cbn in H1; [destruct H1 as (r & l' & -> & -> & ->)|by destruct H1 as [-> <-]]. split; [by repeat constructor|]. by intros ->. }
  assert (∀ l2, x = Some tt → Forall guarding l2 → (x = Some tt ∧ Forall guarding (l1 ++ l2)) ∨ False) as Hend.
  { intros l3 Hx Hl3. left. split; [done|]. by apply Forall_app. }
  destruct preflight; [destruct Hr as [-> <-]; left; split; [done|]; by rewrite app_nil_r|]. specialize (El1 eq_refl).
  destruct get; cbn in Hr. 2: { destruct Hr as (r & l' & -> & -> & <-). destruct (Hend [existT (Respond 405 None) r]) as [?|[]]; [done|by repeat constructor|by left]. }
  destruct Hr as ([req|err] & l3 & -> & Hr).
  2: { destruct Hr as (r & l' & -> & -> & <-). left. split; [done|]. apply Forall_app. by repeat constructor. }
  apply runs_bind in Hr as (denied & l4 & l5 & -> & H4 & Hr).
  assert (Forall guarding l4 ∧ (denied = None → l4 = if has_originPolicy (sv_hooks s) then [existT (DoCheckOrigin req) None] else [])) as [Hg4 El4].
  { unfold checkOrigin in H4. destruct (has_originPolicy (sv_hooks s)); cbn in H4; [destruct H4 as (r & l' & -> & -> & ->)|by destruct H4 as [-> <-]].
    split; [by repeat constructor|]. by intros ->. }
  destruct denied as [err|].
  { destruct Hr as (r & l' & -> & -> & <-). left. split; [done|]. apply Forall_app. split; [done|]. constructor; [done|]. apply Forall_app. by repeat constructor. }
  specialize (El4 eq_refl). apply runs_bind in Hr as (admitted & l6 & rest & -> & H6 & Hr). apply authenticate_runs in H6.
  destruct admitted as [req'|err].
  - destruct H6 as (p & -> & El6). right. split; [done|]. exists req, p, rest. split; [|done]. by rewrite El1, El4, El6, <- !app_assoc.
  - destruct Hr as (r & l' & -> & -> & <-). left. split; [done|]. apply Forall_app. split; [done|]. constructor; [done|].
    apply Forall_app. split; [done|]. apply Forall_app. by repeat constructor.
Qed.

(** ** The epochs a client is served under *)

(** The epoch of the owner that the client's frames went to last.  A local session
    that ends says its epoch. *)
Definition epoch_after (a : server_op) : server_reply a → option Z → option (option Z) :=
  match a as a return server_reply a → option Z → option (option Z) with
  | SwitchTarget _ (Some (RemoteTarget _ _ _ epoch _)) => λ _ last,
      if match last with Some e => epoch <=? e | None => false end then None else Some (Some epoch)
  | DoAuthorityEpoch _ => λ epoch _, Some (Some epoch)
  | _ => λ _ last, Some last
  end.

Section epochs.
Context (pool : list bytes → Run * Run) (f : remoteOwnerForwarder) (attempts changes : nat).

Abbreviation keeps := (keeps epoch_after).
Abbreviation quiet := (quiet epoch_after).

(** Nothing an epoch depends on: [m] neither switches nor asks for an epoch. *)
Definition steady (a : server_op) : Prop :=
  match a with SwitchTarget _ (Some (RemoteTarget _ _ _ _ _)) | DoAuthorityEpoch _ => False | _ => True end.

Lemma steady_quiet a : steady a → quiet a.
Proof. destruct a; try done. by destruct t as [[]|]. Qed.

Lemma keeps_steady {A} (m : sio A) (Q : A → option Z → Prop) last : only steady m → (∀ x, Q x last) → keeps m Q last.
Proof. intros Ho. apply keeps_quiet. by eapply only_mono, Ho; apply steady_quiet. Qed.

Lemma then_steady {A B} (m : sio A) (k : A → sio B) (Q : B → option Z → Prop) last : only steady m → (∀ x, keeps (k x) Q last) → keeps (m ≫= k) Q last.
Proof. intros Hm Hk. apply keeps_bind. by apply keeps_steady. Qed.

Lemma writes_steady {A} (m : sio A) : only writing m → only steady m.
Proof. apply only_mono. by intros []. Qed.

(** A session that was opened has the epoch it was opened with. *)
Lemma open_session_epoch req resolution epoch bootstrap last :
  keeps (openRemoteOwnerSession pool f req resolution epoch bootstrap)
    (λ r e, e = last ∧ ∀ session, r = inl session → rs_epoch session = epoch) last.
Proof.
  unfold openRemoteOwnerSession. apply then_doing; [done|]. intros [stream|err]; [|done]. apply then_steady; [split; [done|]; by intros [err|]|].
  intros [format|err]; [|by apply then_just]. destruct bootstrap; cbn [negb]; [|split; [done|]; by intros session [= <-]].
  apply then_steady; [destruct (state_vector_of _ _); [apply writes_steady, send_each_writes|done]|].
  intros [err|]; [|split; [done|]; by intros session [= <-]]. apply then_steady; [by split|done].
Qed.

Lemma rebind_epoch req previous allowLocal last :
  keeps (rebindRemoteOwnerSession pool f attempts req previous allowLocal)
    (upto (λ t e, e = last ∧ ∀ session, t = inl (Some session) → previous < rs_epoch session)) last.
Proof.
  unfold rebindRemoteOwnerSession. destruct (fw_ownerLookup f); cbn [negb]; [|done]. induction attempts as [|n IH]; [done|]. cbn [rebind_loop].
  apply keeps_then with (P := λ t e, e = last ∧ ∀ session, t = inl (Some session) → previous < rs_epoch session).
  - unfold rebind_once, lookupNextRemoteOwner. apply keeps_bind, then_doing; [done|]. intros [[resolution|]|err]; [|done..]. cbv zeta.
    destruct (_ <=? previous) eqn:E; [done|]. destruct (_ && _); [done|]. cbn [ServerSpec.keeps]. destruct (Local resolution); [done|].
    unfold remoteOwnerEpoch. destruct (p_Lease (r_Placement resolution)) as [lease|]; [|done]. destruct (Epoch lease =? 0); [done|].
    eapply keeps_then; [apply open_session_epoch|]. intros [session|err] e [-> Hs]; [|done]. split; [done|]. intros s [= ->].
    rewrite (Hs s) by done. lia.
  - intros [t|err] e [-> Ht]; [by split|]. apply then_doing; [done|]. by intros [err'|].
Qed.

Lemma cleanup_steady req c o : only steady (cleanupConnectionWithOwnership req c o).
Proof.
  split; [done|]. intros []. apply only_bind; [apply only_when; split; [done|]; intros lost; by apply only_when, only_just|]. intros [].
  split; [done|]. intros closed. apply only_bind; [destruct closed; [apply writes_steady, broadcast_writes|done]|]. intros []. by destruct o.
Qed.

Lemma bootstrap_steady req c peer sync : only steady (bootstrapConnection req c peer sync).
Proof.
  assert (∀ payload, only steady (bootstrapConnectionPayload req c peer payload)) as Hp.
  { intros payload. split; [done|]. intros [out|err]; [|done]. apply only_bind; [apply writes_steady, writeBinary_writes|]. intros [err|]; [done|].
    by apply only_bind; [apply writes_steady, broadcast_writes|]. }
  apply only_bind; [by destruct sync|]. by intros [err|].
Qed.

Lemma takeover_epochs bridge_on req socket client quota reason last :
  (∀ session, keeps (bridge_on session) (upto (λ _ _, True)) (Some (rs_epoch session))) →
  keeps (takeoverLocalOwner pool f attempts bridge_on req socket client quota reason) (upto (λ _ _, True)) last.
Proof.
  intros Hb. unfold takeoverLocalOwner. destruct (fw_local f) as [s|]; [|done].
  apply then_steady; [unfold acquireRequestOwnership; by destruct (sv_ownershipRuntime s)|]. intros [o|err]; [|done].
  apply then_doing; [done|]. intros [c|err]; [|by apply then_steady; [destruct o|]]. apply then_just; [done|]. apply then_doing; [done|]. intros session.
  apply then_steady; [unfold startAuthorityRevalidator; split; [done|]; by destruct (sv_revalidates s)|]. intros _.
  apply then_steady; [apply bootstrap_steady|]. intros failed. apply keeps_sess with (P := λ _ _, True); [|done].
  destruct failed as [err|]; [apply then_steady; [apply cleanup_steady|done]|]. apply then_just; [done|]. apply then_doing; [done|]. intros woken.
  apply then_steady; [apply cleanup_steady|]. intros _. apply then_doing; [done|]. intros [signal|]; [|done].
  intros epoch. cbn [epoch_after]. apply then_just; [done|]. eapply keeps_sess; [apply rebind_epoch|]. intros [[next|]|err] e [-> Hn]; [|done..].
  intros r. cbn [epoch_after session_target]. specialize (Hn next eq_refl). destruct (Z.leb_spec (rs_epoch next) epoch); [lia|].
  eapply keeps_sess; [apply Hb|done].
Qed.

Lemma bridges_epochs n req socket client quota session :
  keeps (bridgeRemoteOwnerSessions pool f attempts n req socket client quota session) (upto (λ _ _, True)) (Some (rs_epoch session)).
Proof.
  revert session. induction n as [|n IH]; intros session; [done|]. cbn [bridgeRemoteOwnerSessions]. apply then_steady.
  { split; [done|]. intros b. split; [done|]. intros []. split; [done|]. intros woken. split; [done|]. intros [].
    destruct woken as [[err|]|[[signal|err]|]]; try done. by destruct (cs_retryable signal). }
  intros [reason [signal|]]; [|done]. apply then_just; [done|]. apply then_steady; [by split|]. intros _.
  eapply keeps_sess; [apply rebind_epoch|]. intros [[next|]|err] e [-> Hn]; [|by apply takeover_epochs|done].
  intros r. cbn [epoch_after session_target]. specialize (Hn next eq_refl). destruct (Z.leb_spec (rs_epoch next) (rs_epoch session)); [lia|]. apply IH.
Qed.

Lemma forwarded_epochs req socket session quota observe last : match last with Some e => e < rs_epoch session | None => True end →
  keeps (serveRemoteForwardedSocket pool f attempts changes req socket session quota observe) (upto (λ _ _, True)) last.
Proof.
  intros Hl. unfold serveRemoteForwardedSocket. apply then_steady; [by apply only_when, only_just|]. intros _. apply then_doing; [done|].
  intros client r. cbn [epoch_after session_target].
  assert (match last with Some e => rs_epoch session <=? e | None => false end = false) as -> by (destruct last; [apply Z.leb_gt|]; done).
  apply then_just; [done|]. eapply keeps_sess; [apply bridges_epochs|]. intros out e _. apply keeps_steady; [|by intros []].
  apply only_bind; [|intros; apply only_bind; [by apply only_just|]; intros; apply only_bind; [by apply only_when, only_just|]; intros;
    apply only_bind; [unfold f_closeQuota; destruct (fw_local f); [by destruct quota|done]|done]].
  unfold cleanup, closeRemoteOwnerSession, sendDisconnect. apply only_bind; [destruct (br_session out); [|done]; apply only_bind; [apply only_when; by destruct (_ || _)|done]|].
  intros _. by apply only_bind; [apply only_when, only_just|intros; apply only_when, only_just].
Qed.


End epochs.

(** ** The frames of a client *)

(** Between two frames; a frame that was read, that the quota admits, that was handled
    and is to be answered, whose broadcast is due, or on its way; the end. *)
Inductive frame_state :=
| Between | Got (payload : bytes) | Measured (payload : bytes) | Answering (direct broadcast : bytes) | Due (broadcast : bytes)
| Spreading (broadcast : bytes) | Leaving.

Definition due (payload : bytes) : frame_state := match payload with [] => Between | _ => Due payload end.
Definition answering (out : DispatchResult) : frame_state :=
  match Direct out with [] => due (Broadcast out) | _ => Answering (Direct out) (Broadcast out) end.

(** [payload] is [original] in a format. *)
Definition in_format (original payload : bytes) (format : UpdateFormat) : bool :=
  match protocolPayloadForSyncOutputFormat original format with Ok p => bool_decide (p = payload) | Err _ => false end.

(** What the session of the connection [c] on [socket] does: a frame is read, then
    admitted by the quota with its length, then handled, its answer written to the
    same socket in the client's format, its broadcast handed to the peers of the
    document in their formats, before the next frame is read.  Whatever refuses a
    frame ends the session, which reads and handles nothing more. *)
Definition frame_after (req : Request) (c : conn) (socket : nat) (quota : option nat) (a : server_op) : server_reply a → frame_state → option frame_state :=
  match a as a return server_reply a → frame_state → option frame_state with
  | ReadSocket _ socket' => λ r st,
      match st with
      | Between | Spreading _ =>
          if bool_decide (socket' = socket) then
            Some (match r with Ok (true, payload) => match quota with Some _ => Got payload | None => Measured payload end | _ => Leaving end)
          else None
      | _ => None
      end
  | DoAllowFrame quota' QuotaDirectionInbound size => λ r st,
      match st with
      | Got payload =>
          if bool_decide (quota = Some quota') && (size =? Z.of_nat (length payload))
          then Some (match r with None => Measured payload | Some _ => Leaving end) else None
      | _ => None
      end
  | DoHandle _ c' payload' => λ r st,
      match st with
      | Measured payload =>
          if bool_decide (c' = c) && bool_decide (payload' = payload)
          then Some (match r with Ok out => answering out | Err _ => Leaving end) else None
      | _ => None
      end
  | WriteSocket socket' payload => λ r st,
      match st with
      | Answering direct broadcast =>
          if bool_decide (socket' = socket) && in_format direct payload (rq_SyncOutputFormat req)
          then Some (match r with None => due broadcast | Some _ => Leaving end) else None
      | Spreading broadcast =>
          if bool_decide (payload = broadcast) || in_format broadcast payload UpdateFormatV2 then Some st else None
      | Leaving => Some st
      | _ => None
      end
  | PeersExcept key exclude => λ _ st,
      if negb (bool_decide (key = rq_DocumentKey req) && bool_decide (exclude = rq_ConnectionID req)) then None
      else match st with Due broadcast => Some (Spreading broadcast) | Leaving => Some st | _ => None end
  | RemovePeer _ _ => λ _ st, match st with Answering _ _ | Leaving => Some Leaving | _ => None end
  | _ => λ _ st, Some st
  end.

Section frames.
Context (req : Request) (c : conn) (socket : nat) (quota : option nat).
Abbreviation keeps := (keeps (frame_after req c socket quota)).

Lemma deliver_socket_spreads socket' quota' broadcast payload : payload = broadcast ∨ in_format broadcast payload UpdateFormatV2 = true →
  keeps (deliver_socket socket' quota' payload) (λ _ st, st = Spreading broadcast) (Spreading broadcast).
Proof.
  intros Hp. apply keeps_then with (P := λ _ st, st = Spreading broadcast); [by destruct quota'|]. intros [err|] st ->; [done|].
  cbn. intros r. assert (bool_decide (payload = broadcast) || in_format broadcast payload UpdateFormatV2 = true) as ->; [|done].
  apply orb_true_iff. destruct Hp as [->|Hp]; [left; by apply bool_decide_eq_true_2|by right].
Qed.

Lemma send_each_spreads stream messages st : keeps (send_each stream messages) (λ _ x, x = st) st.
Proof. induction messages as [|m messages IH]; cbn; [done|]. by intros [err|]. Qed.

Lemma payloadFor_format broadcast peers peer payload : peer ∈ peers → payloadFor (prepare broadcast peers) peer = Ok payload →
  if wants_V2 peer then protocolPayloadForSyncOutputFormat broadcast UpdateFormatV2 = Ok payload else payload = broadcast.
Proof.
  intros Hin. unfold payloadFor, prepare. destruct (wants_V2 peer) eqn:E; [|by intros [= <-]].
  assert (existsb wants_V2 peers = true) as ->; [|done]. apply existsb_exists. exists peer. split; [by apply list_elem_of_In|done].
Qed.

Lemma writeBroadcastPeer_spreads broadcast peers peer : peer ∈ peers →
  keeps (writeBroadcastPeer peer (prepare broadcast peers)) (λ _ st, st = Spreading broadcast) (Spreading broadcast).
Proof.
  intros Hin. unfold writeBroadcastPeer. destruct (payloadFor _ _) as [payload|err] eqn:E; [|done]. apply payloadFor_format in E; [|done].
  destruct peer as [sk q format|stream key id epoch format]; cbn [wants_V2 syncOutputFormat] in *.
  - destruct (wants_V2 _) eqn:Ew.
    + apply deliver_socket_spreads. right. unfold in_format. rewrite E. by apply bool_decide_eq_true_2.
    + subst payload. assert (protocolPayloadForSyncOutputFormat broadcast format = Ok broadcast) as Hf by by destruct format.
      cbn [deliver]. rewrite Hf. apply deliver_socket_spreads. by left.
  - destruct (protocolPayloadToRemoteMessagesForFormat key id epoch payload format) as [messages|err] eqn:Em;
      cbn; unfold wants_V2; cbn; rewrite Em; [apply send_each_spreads|done].
Qed.

Lemma fanout_spreads broadcast (k : sess unit) Q : keeps k Q (Spreading broadcast) → keeps (_ ← fanout req broadcast; k) Q (Due broadcast).
Proof.
  intros Hk. apply keeps_bind. unfold fanout. intros peers. cbn [frame_after]. rewrite !bool_decide_eq_true_2 by done. cbn [negb andb].
  assert (∀ l results, keeps (close_failed l results) (λ _, keeps k Q) (Spreading broadcast)) as Hclose.
  { induction l as [|peer l IH]; intros [|out results]; cbn [close_failed]; [done..|]. apply keeps_bind.
    destruct (bool_decide _); cbn; [|apply IH]. destruct peer; intros r; apply IH. }
  assert (∀ l, (∀ peer, peer ∈ l → peer ∈ peers) →
    keeps (writeBroadcastPeers l (prepare broadcast peers)) (λ _ st, st = Spreading broadcast) (Spreading broadcast)) as Hwrite.
  { induction l as [|peer l IH]; intros Hl; [done|]. cbn [writeBroadcastPeers]. eapply keeps_then; [apply writeBroadcastPeer_spreads, Hl; by left|].
    intros out st ->. eapply keeps_then; [apply IH; intros p Hp; apply Hl; by right|]. by intros rest st ->. }
  destruct peers as [|peer peers]; [done|]. eapply keeps_then; [by apply Hwrite|]. intros results st ->. apply Hclose.
Qed.

(** The end of a session: nothing is read or handled any more. *)
Lemma leaving_keeps {A} (m : sio A) (Q : A → frame_state → Prop) : only (λ a, ∀ r, frame_after req c socket quota a r Leaving = Some Leaving) m →
  (∀ x, Q x Leaving) → keeps m Q Leaving.
Proof.
  intros Ho HQ. induction m as [x|a k IH]; cbn [ServerSpec.keeps]; [apply HQ|]. destruct Ho as [Ha Ho]. intros r. rewrite Ha. by apply IH.
Qed.

Definition ends (a : server_op) : Prop := ∀ r, frame_after req c socket quota a r Leaving = Some Leaving.

Lemma fanout_ends payload : only ends (broadcast req payload).
Proof.
  apply fanout_only; [|intros r; cbn; by rewrite !bool_decide_eq_true_2]. intros a Ha r. destruct a; try done. by destruct direction.
Qed.

(** A cleanup, once its peer is removed. *)
Lemma cleanup_ends o : only ends (cleanupConnectionWithOwnership req c o).
Proof.
  unfold cleanupConnectionWithOwnership. split; [done|]. intros [].
  apply only_bind; [apply only_when; split; [done|]; intros lost; by apply only_when, only_just|]. intros [].
  split; [done|]. intros closed. apply only_bind; [destruct closed; [apply fanout_ends|done]|]. intros []. by destruct o.
Qed.

Definition all_right {A} (_ : A) (_ : frame_state) : Prop := True.

(** A session may leave when a frame was refused, or its answer did not get through. *)
Definition may_leave (st : frame_state) : Prop := match st with Answering _ _ | Leaving => True | _ => False end.

Lemma cleanup_frames {A} o (k : sio A) st : may_leave st → only ends k → keeps (_ ← cleanupConnectionWithOwnership req c o; k) all_right st.
Proof.
  intros Hst Hk. assert (only ends (_ ← cleanupConnectionWithOwnership req c o; k)) as He by (apply only_bind; [apply cleanup_ends|done]).
  unfold cleanupConnectionWithOwnership in *. destruct He as [_ He]. intros []. specialize (He tt).
  destruct st; try done; by apply leaving_keeps.
Qed.

Lemma leave_frames o st : may_leave st → keeps (leave req c socket o) all_right st.
Proof. intros Hst. by apply cleanup_frames. Qed.

Lemma leave_lost_frames o signal st : may_leave st → keeps (leave_lost req c socket o None signal) all_right st.
Proof. intros Hst. by apply cleanup_frames. Qed.

(** The answer to the client. *)
Lemma answer_frames direct broadcast :
  keeps (writeBinary (socketPeer socket req quota) direct)
    (λ r st, match r with None => st = due broadcast | Some _ => may_leave st end)
    (match direct with [] => due broadcast | _ => Answering direct broadcast end).
Proof.
  destruct direct as [|b direct]; [done|]. cbn [writeBinary socketPeer deliver].
  destruct (protocolPayloadForSyncOutputFormat (b :: direct) (rq_SyncOutputFormat req)) as [payload|err] eqn:E; [|done]. unfold deliver_socket.
  apply keeps_then with (P := λ _ st, st = Answering (b :: direct) broadcast); [by destruct quota|]. intros [err|] st ->; [done|].
  intros r. cbn [frame_after]. rewrite bool_decide_eq_true_2 by done. unfold in_format. rewrite E, bool_decide_eq_true_2 by done. by destruct r.
Qed.

(** The session reads a frame. *)
Definition reading (st : frame_state) : Prop := match st with Between | Spreading _ => True | _ => False end.

Lemma serve_frames_in_order frames session options st : reading st → so_quota options = quota → so_handler options = None →
  keeps (serve_frames frames session req c socket (socketPeer socket req quota) options) all_right st.
Proof.
  intros Hst Hq Hh. revert st Hst. induction frames as [|frames IH]; intros st Hst; [done|]. cbn [serve_frames]. rewrite Hq, Hh.
  intros frame. assert (frame_after req c socket quota (ReadSocket (SessionCtx session) socket) frame st =
    Some (match frame with Ok (true, payload) => match quota with Some _ => Got payload | None => Measured payload end | _ => Leaving end)) as ->.
  { destruct st; try done; cbn [frame_after]; by rewrite bool_decide_eq_true_2. }
  destruct frame as [[[|] payload]|err].
  - apply keeps_then with (P := λ r x, match r with None => x = Measured payload | Some _ => x = Leaving end).
    { destruct quota as [q|]; [|done]. intros r. cbn [frame_after]. rewrite bool_decide_eq_true_2, Z.eqb_refl by done. by destruct r. }
    intros [err|] x ->; [apply then_just; [done|by apply leave_frames]|].
    apply keeps_bind. intros handled. cbn [frame_after]. rewrite !bool_decide_eq_true_2 by done. cbn [andb ServerSpec.keeps]. destruct handled as [out|err].
    + eapply keeps_then; [apply (answer_frames (Direct out) (Broadcast out))|]. intros [err|] x Hx; [by apply leave_frames|subst x].
      destruct (Broadcast out) as [|b rest]; [by apply IH|]. apply fanout_spreads. by apply IH.
    + destruct (isAuthorityLostRetryableError err) eqn:E; [by apply leave_lost_frames|]. unfold websocketCloseFromRuntimeError. rewrite E.
      apply then_just; [done|by apply leave_frames].
  - apply then_just; [done|by apply leave_frames].
  - apply then_doing; [done|]. intros [signal|]; [by apply leave_lost_frames|by apply leave_frames].
Qed.

End frames.


(** ** Samples *)

(** A computation whose action number [n] is answered by [oracle n]. *)
Fixpoint transcript {A} (oracle : nat → ∀ a, server_reply a) (n : nat) (m : sio A) : list event * A :=
  match m with
  | Ret x => ([], x)
  | Act a k => let r := oracle n a in let t := transcript oracle (S n) (k r) in (existT a r :: t.1, t.2)
  end.

Lemma transcript_runs {A} oracle n (m : sio A) : runs m (transcript oracle n m).1 (transcript oracle n m).2.
Proof. revert n. induction m as [x|a k IH]; intros n; cbn; [done|]. by eexists _, _. Qed.

Definition sample_key : DocumentKey := mkDocumentKey [] (str "doc").
Definition sample_request : Request := mkRequest sample_key (str "conn-a") 7 true UpdateFormatUnknown None.
Definition sample_principal : Principal := mkPrincipal (str "alice") [] [].
Definition sample_server : Server := mkServer (mkHooks true true true true true false) true true true false false.
Definition sample_lease (epoch : Z) : Lease := mkClusterLease 0 (str "node-b") epoch (str "token") 0 0.
Definition sample_resolution (epoch : Z) : OwnerResolution := mkResolution sample_key (mkClusterPlacement 0 (str "node-b") (Some (sample_lease epoch)) 1) false.
Definition sample_forwarder : remoteOwnerForwarder := mkForwarder (str "node-a") (Some sample_server) true.
Definition sample_runs (_ : list bytes) : Facade.Run * Facade.Run := (mkRun 1 ∅ None, mkRun 1 ∅ None).
Definition upgrade : Header := <[str "Connection" := [str "Upgrade"]]> (<[str "Upgrade" := [str "websocket"]]> ∅).

(** Everything succeeds; owners have the epoch of the time a lookup is made; the first
    bridge ends with a close that may be tried again, every other with the client. *)
Definition sample_oracle (first_bridge : nat) (n : nat) (a : server_op) : server_reply a :=
  match a as a return server_reply a with
  | HandleCORSPreflight | DoAuthorityLost _ | AwaitTick _ => false
  | DoResolveRequest => Ok sample_request
  | DoAuthenticate => Ok sample_principal
  | DoCheckOrigin _ | DoAuthorize _ _ | DoAllow _ _ | DoAllowFrame _ _ _ | DoCloseQuota _ | DoReleaseOwnership _
  | DoRevalidateAuthority _ | WriteSocket _ _ | CloseSocket _ _ _ | CloseSocketNow _ | SendNode _ _ | CloseStream _ | AuthenticateNode _
  | DoPersist _ | CtxErr | Pause => None
  | DoOpenQuota _ => Ok (Some 3%nat)
  | DoAcquireOwnership _ => Ok 4%nat
  | DoOpen _ _ _ => Ok (mkConn 0 n)
  | DoHandle _ _ _ | DoClose _ => Ok (mkDispatch [1; 0] [1; 0])
  | DoAuthorityEpoch _ | NextConnID => 1
  | Accept => Ok 5%nat
  | ReadSocket _ _ => if (n <? 35)%nat then Ok (true, [3]) else Err io_EOF
  | PeersExcept _ _ => [SocketPeer 9 None UpdateFormatV1]
  | RevalidationsOf _ => []
  | NewSession | NewClient | NewBridge => 0%nat
  | DrainSignal _ => None
  | AwaitClient _ _ => None
  | AwaitTarget _ => None
  | AwaitBridge _ _ => if (n <=? first_bridge)%nat then inr (Some (AckClosed (mkSignal [] true))) else inl None
  | Begin => None
  | DoLookupOwner _ => Ok (Some (sample_resolution (Z.of_nat n)))
  | DialRemoteOwner _ _ => Ok n
  | ReceiveNode _ _ => Ok (MHandshakeAck (mkHandshakeAck 0 (str "node-b") sample_key (str "conn-a") 7 (Z.of_nat n - 3)))
  | _ => tt
  end.

Definition dialed (e : event) : option nat :=
  match e with
  | existT a r =>
      match a as a return server_reply a → option nat with
      | DialRemoteOwner _ _ => λ r, match r with Ok stream => Some stream | Err _ => None end
      | _ => λ _, None
      end r
  end.
Definition closed_stream (e : event) : option nat := match projT1 e with CloseStream stream => Some stream | _ => None end.
Definition gauge (e : event) : Z := match projT1 e with ConnectionOpened _ => 1 | ConnectionClosed _ => -1 | _ => 0 end.

(** The whole of a session: guards, bootstrap, frames, the end of the client. *)
Lemma requests_give_back_witness : ∃ l h, handler_of sample_runs sample_server (Server_ServeHTTP sample_server 9 true) ∧
  runs (Server_ServeHTTP sample_server 9 true) l (Some tt) ∧ (20 < length l)%nat ∧
  follow (after true) l nothing = Some h ∧ released h ∧ he_answered h = true.
Proof.
  pose proof (transcript_runs (sample_oracle 0) 0 (Server_ServeHTTP sample_server 9 true)) as Hr.
  assert ((transcript (sample_oracle 0) 0 (Server_ServeHTTP sample_server 9 true)).2 = Some tt) as E by (vm_compute; reflexivity).
  rewrite E in Hr. pose proof (of_server sample_runs sample_server 9 true) as Hm.
  destruct (requests_give_back sample_runs sample_server _ _ _ Hm Hr) as (h & Hl & Hh). destruct (Hh eq_refl) as [H1 H2].
  exists (transcript (sample_oracle 0) 0 (Server_ServeHTTP sample_server 9 true)).1, h.
  split; [exact Hm|]. split; [exact Hr|]. split; [vm_compute; lia|]. split; [exact Hl|]. split; [exact H1|exact H2].
Defined.

Lemma guards_first_witness : ∃ l, runs (pass_guards sample_server true (serveLocal sample_server 9 None)) l (Some tt) ∧
  ∃ req p rest, l = guards sample_server req p ++ rest ∧ runs (serveLocal sample_server 9 None (identified sample_server req p)) rest (Some tt).
Proof.
  pose proof (transcript_runs (sample_oracle 0) 0 (Server_ServeHTTP sample_server 9 true)) as Hr.
  assert ((transcript (sample_oracle 0) 0 (Server_ServeHTTP sample_server 9 true)).2 = Some tt) as E by (vm_compute; reflexivity).
  rewrite E in Hr. exists (transcript (sample_oracle 0) 0 (Server_ServeHTTP sample_server 9 true)).1. split; [exact Hr|].
  destruct (guards_first sample_server true (serveLocal sample_server 9 None) _ _ Hr) as [[_ Hg]|[_ H]]; [|exact H].
  exfalso. apply (Forall_lookup_1 _ _ 6 (existT (DoOpenQuota (set_principal (Some sample_principal) sample_request)) (Ok (Some 3%nat)))) in Hg; [exact Hg|].
  vm_compute. reflexivity.
Defined.

Definition sample_handoff : sess (option error) :=
  handleLocalAuthorityLoss sample_runs sample_forwarder 3 3 sample_request 5%nat (-1) (Some (mkHandoff 0 None)).
Definition sample_handle : sess bool := handle sample_runs sample_forwarder 3 3 upgrade sample_request (sample_resolution 3).


Definition sample_session : sess unit :=
  serve_frames 9 0 sample_request (mkConn 0 0) 5%nat (SocketPeer 5 (Some 3%nat) UpdateFormatUnknown)
    (mkSessionOptions true false false None (Some 4%nat) (Some 3%nat)).


(** ** What goes wrong *)

(** The cleanup behind a handoff is deferred with the first session: when the owner
    changes again, the stream of the first session is closed twice and that of
    the last one never. *)
Theorem handoff_leaks_stream : ∃ l first last, runs sample_handoff l (Some None) ∧
  omap dialed l = [first; last] ∧ first ≠ last ∧ omap closed_stream l = [first; first].
Proof.
  pose proof (transcript_runs (sample_oracle 13) 0 sample_handoff) as Hr.
  assert ((transcript (sample_oracle 13) 0 sample_handoff).2 = Some None) as E by (vm_compute; reflexivity). rewrite E in Hr.
  eexists _, _, _. split; [exact Hr|]. split; [vm_compute; reflexivity|]. split; [|vm_compute; reflexivity]. done.
Qed.

(** A forwarded connection is counted as opened once and as closed twice. *)
Theorem forwarded_closed_twice : ∃ l, runs sample_handle l (Some true) ∧ foldr Z.add 0 (gauge <$> l) = -1.
Proof.
  pose proof (transcript_runs (sample_oracle 0) 3 sample_handle) as Hr.
  assert ((transcript (sample_oracle 0) 3 sample_handle).2 = Some true) as E by (vm_compute; reflexivity). rewrite E in Hr.
  eexists. split; [exact Hr|]. vm_compute. reflexivity.
Qed.

(** The services of a schedule: the oracle at the number the clock shows. *)
#[local] Instance sample_services : HTTPServices := {| service := λ a i, sample_oracle 0 (Z.to_nat (i_now i)) a; takes_first := λ _, true |}.

Abbreviation task := (sess unit).
Abbreviation move := (task + nat * instant)%type.

(** [n] actions of the computation [j], at the time [now]. *)
Definition go (j n : nat) (now : Z) : list move := repeat (inr (j, mkInstant None now)) n.

Definition perform (l : list move) : option (list task * World) := schedule server_enabled l ([], World_New).

Definition sample_worker : task := worker (λ _, 0) (λ _, false) sample_forwarder 9 9.

(** Two calls with the same name of a connection, one after the other; the goroutine of
    the first one, which takes its entry out of the registry of revalidations, runs
    when the second one is being served. *)
Definition reconnect : list move :=
  [inl (Server_ServeHTTP sample_server 9 true)] ++ go 0 32 50 ++ [inl (Server_ServeHTTP sample_server 9 true)] ++ go 1 19 60 ++
  [inl sample_worker] ++ go 2 3 70.

(** The session of the second call is served, its peer gets broadcasts, and no
    revalidation of the document looks at it. *)
Theorem reconnect_loses_revalidation :
  match perform reconnect with
  | Some ([Ret (Some tt); Act (ReadSocket (SessionCtx 1) _) _; Ret (Some tt)], w) =>
      is_Some (w_registry w !! sample_key ≫= (.!! str "conn-a")) ∧ w_revalidations w !! sample_key = None
  | _ => False
  end.
Proof. vm_compute. split; [by eexists|done]. Qed.

(** A local session of a node that is not the owner any more, with a handler for the
    loss of authority: the client's frame shows that the authority is lost. *)
Definition lost_oracle (n : nat) (a : server_op) : server_reply a :=
  match a as a return server_reply a with DoHandle _ _ _ => Err pkg_yprotocol_ErrAuthorityLost | a => sample_oracle 0 n a end.

Definition bare_server : Server := mkServer (mkHooks false false false false false false) false false false false false.
Definition bare_forwarder : remoteOwnerForwarder := mkForwarder (str "node-a") (Some bare_server) true.
Definition bare_worker : task := worker (λ _, 0) (λ _, false) bare_forwarder 9 9.
Definition local_session : task :=
  serveSwitchableConnectedSocket bare_server sample_request (mkConn 0 0) 5%nat
    (mkSessionOptions true false false (Some (handleLocalAuthorityLoss sample_runs bare_forwarder 9 9)) None None).

(** One action at each time from [now] on. *)
Definition go_on (j n : nat) (now : nat) : list move := (λ i, inr (j, mkInstant None (Z.of_nat i))) <$> seq now n.

(** The session waits for its client; the goroutine of the registry begins; the one that
    reads the client's socket hands on a frame, is told that the authority is lost,
    and ends; the session is handed off to the owner. *)
Definition lost_on_a_frame : list move :=
  [inl local_session] ++ go_on 0 8 0 ++ [inl bare_worker] ++ go_on 1 1 10 ++ [inl bare_worker] ++ go_on 2 7 10 ++ go_on 0 18 20.

(** The handoff has succeeded: the session waits for its client or the owner, and the
    client's frames would go to the owner.  But what read the client's socket is over,
    its result has been taken, and nothing that runs or was started reads it. *)
Theorem handoff_loses_reader :
  match schedule (H := @server_handler {| service := λ a i, lost_oracle (Z.to_nat (i_now i)) a; takes_first := λ _, true |})
          server_enabled lost_on_a_frame ([], World_New) with
  | Some ([Act (AwaitBridge 0 0) _; Act (AwaitEnd 0) _; Ret (Some tt)], w) =>
      match w_go w with [PipeToClient 0 _ _ _ _] => True | _ => False end ∧
      cc_over (client_at w 0) = false ∧ cc_err (client_at w 0) = None ∧
      match cc_target (client_at w 0) with Some (RemoteTarget _ _ _ _ _) => True | _ => False end
  | _ => False
  end.
Proof. vm_compute. repeat split. Qed.
